(* ===== verification/_CoqProject ===== *)
-Q . S2P
Prelude.v
Bits.v
Mem.v
Sched.v
Abi.v
Vfs.v
Syscall.v
Elf.v
Virtio.v
Buddy.v
BuddyProofs.v
BuddyFree.v
BuddySys.v
Slab.v
Tlb.v
Vercmp.v
BCache.v
KBCache.v
KBCacheSys.v
KBCacheProofs.v
KSched.v
KSchedProofs.v
KSchedThms.v
Timers.v
Locks.v
Block.v
BlockProofs.v
BlockThms.v
Paging.v
PagingProofs.v
PagingThms.v
Vm.v
VmProofs.v
VmLoad.v
VmThms.v
VmSys.v
VmFrames.v
VmExamples.v
Pci.v
PciProofs.v
Transport.v
BlockInit.v
TransportProofs.v
InitProofs.v
BringUp.v
BringUpExamples.v
Boot.v
BootThms.v
KHeap.v
KHeapThms.v
BootExamples.v
KCacheOps.v
KCacheOpsProofs.v
KSync.v
KSyncBound.v
KReadWrite.v
KCalls.v
Text.v
PkgMeta.v
PkgContain.v
PkgRewrite.v
PkgIndex.v
PkgIndexModel.v
PkgArtifact.v
PkgSources.v
PkgBuild.v
PkgBuildThms.v
Float.v
Ratchet.v
Attest.v
FuzzCache.v
FuzzQueue.v
FuzzSlab.v
Sha.v
Image.v
Xtask.v
Ring.v
RingThms.v
Serial.v
