(* ===== verification/Prelude.v ===== *)
(** * Verification of qunix

    qunix is a monolithic x86_64 kernel in Rust, with a package tool ([qpkg])
    and a build tool ([xtask]).  The kernel's logic lives in small crates
    without hardware access (frame allocator, heap, run queue, park protocol,
    virtqueue, buffer-cache table, ELF and path parsers) and in the kernel
    modules that put them behind locks, interrupts and page tables.  This
    library models those parts, and the parts of the two tools that decide
    something, as executable definitions translated from the sources, and
    proves what their callers rely on.

    ** How the parts interact

    A process starts as an ELF image ([Elf]) that [Vm] loads into page tables
    ([Paging]) made of frames from the buddy allocator ([Buddy], through
    [VmFrames]); the allocator gets its frames from the boot memory map
    ([Boot]), the kernel heap ([Slab]) its memory from [KHeap].  Threads move
    between run queues ([Sched], [KSched]), sleep on timers ([Timers]) and
    call the kernel through [Syscall].  Unmapping ends in a TLB shootdown
    ([Tlb]); everything shared is behind the locks of [Locks].  The block
    driver ([Block]) is brought up over PCI ([Pci], [Transport], [BlockInit])
    and puts requests on a virtqueue ([Virtio]); the buffer cache ([BCache],
    [KBCache], [KCacheOps]) stands between its callers and the driver.

    ** Conventions

    A Rust call is a Rocq function into [outcome]: [Ret v], or [Panic] for
    [assert!], [expect], [unreachable!], an index out of range and, because
    the dev profile has overflow checks, an arithmetic overflow.  [Result] is
    [result].  A [u64] or [u32] is a [Z]; [Bits] has the checked, wrapping,
    saturating and bitwise operations at their widths.  A [&mut self] method
    takes the record and returns the new one.  Concurrency and callers are
    step relations over [run]; a theorem about reachable states quantifies
    over every interleaving of them.  A step is one critical section, or one
    atomic access where the code is lock-free.  A device is whatever answers:
    a class without laws, or a memory that may change at any moment.

    ** Files: the crates

    - [Prelude]: outcomes, slices and their lemmas, sums, runs of a step
      relation, shared tactics and the hint database [qunix].  [Bits]: machine
      integers, bytes, alignment, lowest set bits.  [Mem]: byte-addressed
      memory.
    - [Sched] ([crates/qunix-sched]): [Module RunQueue] is [lib.rs], refined to
      one priority-ordered list; [Module Park] is [park.rs].
    - [Abi] ([crates/qunix-abi]); [Vfs] ([crates/qunix-vfs/src/path.rs]).
    - [Elf] ([crates/qunix-elf]): [Elf64::parse] and the segment iterator.
    - [Virtio] ([crates/qunix-virtio]): [SplitQueue], ring layout, wire format,
      with a device that may write anything into its ring.
    - [Buddy] ([crates/qunix-mm/src/buddy.rs]): the frame allocator over a
      [FrameBacking], the code's own trait as a type class with its laws.
      [BuddyProofs] has the invariant (doubly linked lists threaded through
      memory, tags, disjoint aligned blocks) and allocation; [BuddyFree]
      release and coalescing; [BuddySys] region set-up, the step relation
      of the allocator with its callers, and the theorems.
    - [Slab] ([crates/qunix-mm/src/slab.rs]): the kernel heap, its memory and
      its callers.
    - [BCache] ([crates/qunix-bcache]): the buffer cache's slot table.
    - [Tlb] ([crates/qunix-hal-x86_64/src/tlb.rs]): TLB shootdown, one step per
      atomic access, any number of processors up to 64, handlers on top of
      main contexts.
    - [Locks] ([crates/qunix-sync], with the interrupt control of
      [qunix-hal-x86_64]): the two spin locks, one step per atomic access, with
      nested interrupt handlers and the [deadlock-panic] build.
    - [Paging] ([crates/qunix-hal-x86_64/src/paging.rs]): page tables as
      frames of memory; [PagingProofs] has the invariant of a hierarchy and a
      mapper that keeps the laws, [PagingThms] unmapping with pruning.
    - [Pci] ([crates/qunix-hal-x86_64/src/pci.rs]), [PciProofs].
    - [Ring] ([syscall.rs], [context.rs], [gdt.rs], [idt.rs] and GS in
      [percpu.rs], of the same crate): the entry stub, the way into ring 3 and
      the context switch as instructions of a processor, and what several
      processors and threads make of GS and the parked stack pointer, event
      by event; [RingThms].  [Serial] ([serial.rs]): the console's UART.

    ** Files: the kernel

    - [Syscall] ([kernel/src/syscall.rs]): the dispatcher and [sys_write], over
      an address space that may map anything anywhere.
    - [KSched] ([kernel/src/sched.rs], [thread.rs], [percpu.rs]): the thread
      table, hand-off words and [schedule], split where the code drops its
      locks; where the store of a context lands when the thread table has
      changed under its pointer is left open.  [KSchedProofs] has its
      invariant, [KSchedThms] the theorems and three runs that go wrong.
    - [Timers] ([kernel/src/task.rs]): timer table, sleeps, executor, ticks.
    - [Vm] ([kernel/src/vmspace.rs], [process.rs]): address spaces and
      [from_elf]; [VmProofs] and [VmLoad] follow its passes against a
      reference image, [VmThms] states the theorems over any mapper and
      allocator with the laws, [VmSys] runs processes side by side, [VmFrames]
      discharges the allocator's laws with [Buddy], [VmExamples] applies all of
      it to a small program.
    - [Block] ([kernel/src/block.rs]): requests, interrupt and device over
      shared memory; [BlockProofs], [BlockThms].
    - [Transport] ([kernel/src/virtio.rs]) and [BlockInit] ([init] of
      [block.rs]): bring-up, every register access logged;
      [TransportProofs], [InitProofs], [BringUp] the theorems,
      [BringUpExamples] a device that comes up and four that misbehave.
    - [Boot] ([kernel/src/frames.rs]) with [BootThms]; [KHeap]
      ([kernel/src/heap.rs], [map_2mib]) with [KHeapThms]; [BootExamples].
    - [KBCache] ([kernel/src/bcache.rs]): the sections the kernel runs under
      the cache lock.  [KBCacheSys] is the system of readers, writers, flushes,
      references, the driver and the disk; [KBCacheProofs] its invariant and
      the refinement to a flat store.  [KCacheOps] has [read_block],
      [write_block], [sync], [make_room] and [write_back] as tasks among all of
      that; [KCacheOpsProofs], [KSync], [KSyncBound], [KReadWrite]
      prove them, [KCalls] states what they promise.

    ** Files: the tools

    - [Text]: strings as UTF-8 bytes.  [Vercmp] ([qpkg/src/vercmp.rs]): the
      version order.
    - [PkgMeta] ([pkgbuild.rs], [repodb.rs]): what bash and pacman write is
      read back.
    - [PkgIndex] ([index.rs], [sync.rs], [aur.rs], [commands.rs]),
      and [PkgIndexModel], a table and a codec with the laws.
    - [PkgRewrite] ([toolchain.rs]), [PkgSources] ([sources.rs]), [PkgContain]
      (links, [runner.rs]), [PkgArtifact] ([artifact.rs]), and the pipeline
      over them, [PkgBuild] ([build.rs]) with [PkgBuildThms].
    - [Float]: the binary64 arithmetic of the coverage gate, its printing and
      its reading.  [Ratchet] ([xtask/src/coverage.rs]).
    - [Attest] ([xtask/src/attest.rs], [licensing.rs]).
    - [FuzzCache], [FuzzQueue], [FuzzSlab] ([fuzz/fuzz_targets/bcache.rs],
      [virtio_queue.rs], [slab.rs]): the harnesses that drive [BCache],
      [Virtio] and [Slab], and that no input fails them.
    - [Sha] ([sha256_hex] of [xtask/src/image.rs]), where FIPS 180-4 is
      written down beside the code; [Image] (the rest of [image.rs]: the pinned
      loader, the copies and their stamps, the pruning, the test disk).
    - [Xtask] ([xtask/src/main.rs], [qemu.rs]): what the build tool runs, for
      how long, and what it makes of the answer.

    ** What is shown

    - Memory: both allocators never hand out overlapping, misaligned or
      foreign memory, never write to a block that is out, balance their books,
      return on every valid call and panic on a double free; the buddy lists
      are fully coalesced.  Every usable byte of the memory map is free or in
      one loss counter, and the heap is mapped to frames of its own.
    - Processes: a loaded program is exactly what its file asked for, confined
      to frames nobody else has, never writable and executable at once; failed
      loads and dropped spaces give back every frame; processes side by side
      refine private memories.  Pruning frees dead page tables only.
    - Scheduling: the run queue is the abstract priority list; every live
      thread is in one place, and what is queued can be dispatched, as long as
      no context was stored through a stale pointer; a wakeup is never lost and
      never doubled; a sleeper is never stranded.
    - Locks and shootdown: mutual exclusion under any nesting of handlers, and
      a lock's word is set exactly while a processor has it; interrupts are
      off from before an [IrqSpinLock] is taken until after it is released; no
      initiator returns before every processor has flushed, when servicing is
      masked.
    - Devices: no device can make the driver panic or leave its buffers, during
      bring-up (short or misaligned windows excepted, which are findings) or
      after; a device that comes up was spoken to in the prescribed order.
    - Block cache: the cache with its disk is one flat store; a reference is
      stable; reads, writes and [sync] mean what they answer, never panic, and
      [sync] ends when nobody writes.  The exceptions, a write abandoned at its
      deadline and a steady writer, are proved to be ones.
    - Between the rings: a system call is a function call for the process and
      touches five words on its way in, if the process has a canonical address
      to return to, and what becomes of one that has not; a switched thread
      comes back as it left; a process starts with nothing of the kernel's.
      The kernel stays on its own per-CPU block, and a call comes back on its
      own stack, under conditions that [yield] and [exit] do not meet: the ways
      to break them are proved.
      The console never hangs and loses no byte it does not count.
    - Boundaries: system calls, ELF images, paths and virtqueue completions
      are handled for every input, adversarial ones included.
    - Packages: versions compare as documented; a transcript of printable ASCII
      reads back field by field (bash writes other bytes in a form the parser
      refuses); an index sync, any of whose commits may fail, is whole or was
      never made, and what it leaves are the records of the payloads; a staged
      source has the digest its recipe declared for it; links stay inside the
      package; archives do not depend on the order of directories; a recorded
      build was fetched, staged, verified, run and packaged as the record
      says.
    - Gates: a floor that is read is enforced, none is lowered in silence, a
      rewritten baseline reads back; the attestation of a push, and where a
      quoted line fools the gates.
    - Boot and test runs: the digest that pins the boot loader is SHA-256, and
      the firmware is served the pinned loader and the files just built, by
      every build of a sequence that finishes; each sector of the test disk
      tells its number; a run of QEMU or of the fuzzer is bounded, and a pass
      is reported for one status only; what the fuzz targets of cache,
      virtqueue and heap assert holds on every input.

    Theorems that end in [_witness] apply one at a concrete input.  The runs
    that go wrong are theorems too: a GS base and a stack pointer taken from
    the next process, and a fault of [sysretq] in ring 0 ([RingThms]); a thread's stack freed while in use, an
    activation lost to preemption, a stale context pointer and the panic it
    ends in ([KSchedThms]); descriptors leaked by a late completion ([BlockThms]); a
    nested service that skips a flush ([Tlb]); live buffers freed by a failed
    start, registers at addresses that are not aligned ([BringUpExamples]); an unchecked entry point ([VmExamples]); a
    version order that is not transitive ([Vercmp]); a containment check that
    links through links escape ([PkgContain]); a renamed local source that
    cannot be built ([PkgBuildThms]); a floor that is no number
    ([Ratchet]); a payload and a manifest that fool the gates
    ([Attest]); the wrong kernel served after an interrupted copy
    ([Image]); a second fuzz budget that nobody reads ([Xtask]).

    ** Fuel and bounds

    Loops are fixpoints with fuel, and running out of it is [Panic]; for each a
    lemma shows that the fuel given is enough.  An order rises at most 18
    times, a region has at most [len / 4096] blocks, a descriptor chain is no
    longer than the queue (a walk of the fuzz target has one turn more), a
    text loop consumes a byte a turn, so its length plus one is enough, the
    padding of a digest ends within 64 turns, the walk of the boot directory
    goes four deep, as its list of expected paths does, and the loop that
    waits for QEMU polls a hundred times for each second at most.  The
    64 entries of a capability list and the 600 idle rounds of [sync] are
    limits of the code, past which it answers an error; when nobody writes
    [sync] makes at most 1,418,138 moves.  Processors number at most 64, the
    width of the masks.

    ** Assumptions

    A [FrameBacking] reads back what was written and separate words do not
    interfere.  Callers of the frame allocator do not store a word equal to the
    free tag of the page it lies in, and offer ranges that nobody owns and that
    carry no such word; callers of the heap return blocks with the layout they
    asked for.  Theorems about counters that only grow assume room in them.

    The registers of a device are accessed at aligned addresses: any other
    access is [Panic], and a store through a stale pointer changes the context
    of one thread or none; what else it may overwrite is outside the model.
    Memory in [Ring] is read and written by aligned words, a descriptor table
    keeps [GdtLaws], and loading GS in ring 3 clears its base.
    The x86_64 crate's mapper keeps [MapperLaws]; [PagingProofs] has an
    instance.  Address spaces and bring-up ask [FramesLaws] and [BlocksLaws] of
    the allocator, which [VmFrames] and [BringUpExamples] prove of [Buddy].
    Bring-up assumes that a BAR lies within the higher-half map
    ([bars_reachable]); [Boot] that the boot loader's entries are disjoint
    ([firmware_ok]).  redb's table keeps [TableLaws] and serde's codec
    [CodecLaw], with instances in [PkgIndexModel].  Fetching, digests, tar,
    compression, git and bash are arguments that may answer anything; a hash
    map lists its entries in any order.  [Image] assumes that a directory
    lists its children, that git and the assembler write in their own
    directories, that printed times differ and have no line feed, that two
    versions of one source differ in their time, and that nothing but builds
    that finish writes the stamped files of a medium; the clock advances by
    what a [sleep] asks for.  A commit of the package index may be refused at
    any point, in which case it has no effect.

    ** Not modelled

    Processor bring-up, the interrupt gates, APIC and ports: registers, and
    what the compiler makes of the Rust between the instructions of [Ring],
    which takes the state a handler leaves as given.  The kernel's entry, its in-machine tests and its
    panic path.  The VFS traits, which have no bodies.  The argument parsing,
    paths, printing and network of the tools, the errors of the file system,
    the dispatch of [xtask] on its command's name and its assembler of the
    init program.  The fuzz target of the frame allocator: its backing panics
    outside its arena where a [FrameBacking] of the model answers every
    address, and [BuddySys] proves what it asserts.  The benchmarks.
*)
From stdpp Require Export base list gmap.
From Stdlib Require Export ZArith Lia.
From Stdlib Require Import Znumtheory.

#[global] Open Scope Z_scope.
Declare Scope qunix_scope.
Delimit Scope qunix_scope with qunix.
Open Scope qunix_scope.

(** * Outcomes: a Rust call returns or panics

    [assert!], [unwrap], an index past the end of a slice and, in the dev
    profile, an arithmetic overflow all abort.  [Panic] is that abort. *)

Inductive outcome (A : Type) : Type :=
  | Ret (a : A)
  | Panic.
Arguments Ret {A} _.
Arguments Panic {A}.

#[export] Instance outcome_ret : MRet outcome := λ A a, Ret a.
#[export] Instance outcome_bind : MBind outcome := λ A B f m,
  match m with Ret a => f a | Panic => Panic end.
#[export] Instance outcome_fmap : FMap outcome := λ A B f m,
  match m with Ret a => Ret (f a) | Panic => Panic end.

#[export] Instance outcome_eq_dec `{EqDecision A} : EqDecision (outcome A).
Proof. solve_decision. Defined.

(** Rust's [Result]: the error value the source names, or the answer. *)
Inductive result (A E : Type) : Type :=
  | Ok (a : A)
  | Err (e : E).
Arguments Ok {A E} _.
Arguments Err {A E} _.

#[export] Instance result_eq_dec `{EqDecision A, EqDecision E} :
  EqDecision (result A E).
Proof. solve_decision. Defined.

(** [assert!(b)]. *)
Definition rust_assert (b : bool) : outcome unit :=
  if b then Ret tt else Panic.

(** [Option::expect]. *)
Definition expect {A} (o : option A) : outcome A :=
  match o with Some a => Ret a | None => Panic end.

(** [xs[i]] and [xs[i] = x]: out of range panics. *)
Definition index {A} (l : list A) (i : Z) : outcome A :=
  if 0 <=? i then expect (l !! Z.to_nat i) else Panic.

Definition set_index {A} (l : list A) (i : Z) (x : A) : outcome (list A) :=
  if (0 <=? i) && (i <? Z.of_nat (length l))
  then Ret (<[Z.to_nat i := x]> l) else Panic.

(** [&xs[lo..hi]]: panics when [lo > hi] or [hi > xs.len()]. *)
Definition slice {A} (l : list A) (lo hi : Z) : outcome (list A) :=
  if (0 <=? lo) && (lo <=? hi) && (hi <=? Z.of_nat (length l))
  then Ret (take (Z.to_nat (hi - lo)) (drop (Z.to_nat lo) l)) else Panic.

Lemma bind_ret {A B} (f : A → outcome B) (a : A) : (Ret a ≫= f) = f a.
Proof. reflexivity. Qed.

Lemma bind_panic {A B} (f : A → outcome B) : (Panic ≫= f) = Panic.
Proof. reflexivity. Qed.

Lemma bind_ret_inv {A B} (f : A → outcome B) (m : outcome A) (b : B) :
  (m ≫= f) = Ret b → ∃ a, m = Ret a ∧ f a = Ret b.
Proof. destruct m; simpl; naive_solver. Qed.

(** Whether a computation returns, as a test. *)
Definition returns {A} (m : outcome A) : bool := match m with Ret _ => true | Panic => false end.

Lemma returns_ret {A} (m : outcome A) : returns m = true → ∃ a, m = Ret a.
Proof. destruct m; [eauto|done]. Qed.

Lemma rust_assert_ret b u : rust_assert b = Ret u ↔ b = true.
Proof. destruct b, u; naive_solver. Qed.

Lemma index_ok {A} (l : list A) (i : Z) (x : A) :
  0 ≤ i → l !! Z.to_nat i = Some x → index l i = Ret x.
Proof.
  intros Hi Hx. unfold index. destruct (Z.leb_spec 0 i); [|lia].
  by rewrite Hx.
Qed.

Lemma index_ret {A} (l : list A) (i : Z) (x : A) :
  index l i = Ret x ↔ 0 ≤ i ∧ l !! Z.to_nat i = Some x.
Proof.
  split.
  - unfold index. destruct (Z.leb_spec 0 i); [|done].
    destruct (l !! Z.to_nat i) eqn:E; simpl; naive_solver.
  - intros [??]. by apply index_ok.
Qed.

Lemma index_in_range {A} (l : list A) (i : Z) :
  0 ≤ i < Z.of_nat (length l) → ∃ x, index l i = Ret x ∧ l !! Z.to_nat i = Some x.
Proof.
  intros Hi. destruct (lookup_lt_is_Some_2 l (Z.to_nat i)) as [x Hx]; [lia|].
  exists x. split; [apply index_ok; [lia|done]|done].
Qed.

Lemma set_index_ok {A} (l : list A) (i : Z) (x : A) :
  0 ≤ i < Z.of_nat (length l) → set_index l i x = Ret (<[Z.to_nat i := x]> l).
Proof.
  intros Hi. unfold set_index.
  destruct (Z.leb_spec 0 i), (Z.ltb_spec i (Z.of_nat (length l))); simpl; done || lia.
Qed.

Lemma set_index_nat {A} (l : list A) (i : nat) x :
  (i < length l)%nat → set_index l (Z.of_nat i) x = Ret (<[i := x]> l).
Proof. intros. rewrite set_index_ok by lia. by rewrite Nat2Z.id. Qed.

Lemma set_index_ret {A} (l l' : list A) (i : Z) (x : A) :
  set_index l i x = Ret l' ↔
  0 ≤ i < Z.of_nat (length l) ∧ l' = <[Z.to_nat i := x]> l.
Proof.
  unfold set_index.
  destruct (Z.leb_spec 0 i), (Z.ltb_spec i (Z.of_nat (length l))); simpl;
    split; try (intros [= <-]; split; [lia|done]); try done;
    intros [? ->]; done || lia.
Qed.

Lemma slice_ok {A} (l : list A) (lo hi : Z) :
  0 ≤ lo ≤ hi → hi ≤ Z.of_nat (length l) →
  slice l lo hi = Ret (take (Z.to_nat (hi - lo)) (drop (Z.to_nat lo) l)).
Proof.
  intros. unfold slice.
  destruct (Z.leb_spec 0 lo), (Z.leb_spec lo hi), (Z.leb_spec hi (Z.of_nat (length l)));
    simpl; done || lia.
Qed.

(** * Loops

    A [for _ in 0..n] loop whose body may return early: [inl] carries the
    loop state on, [inr] is the early return. *)

Fixpoint for_loop {S R} (n : nat) (body : S → S + R) (s : S) : S + R :=
  match n with
  | O => inl s
  | Datatypes.S n' =>
      match body s with
      | inl s' => for_loop n' body s'
      | inr r => inr r
      end
  end.

(** * Searching a slice *)

(** [iter().position(p)]: the index of the first element satisfying [p]. *)
Fixpoint position {A} (p : A → bool) (l : list A) : option nat :=
  match l with
  | [] => None
  | x :: l' => if p x then Some 0%nat else S <$> position p l'
  end.

(** [iter().find(p)]. *)
Fixpoint find_first {A} (p : A → bool) (l : list A) : option A :=
  match l with
  | [] => None
  | x :: l' => if p x then Some x else find_first p l'
  end.

Lemma position_Some {A} (p : A → bool) (l : list A) (i : nat) :
  position p l = Some i →
  ∃ x, l !! i = Some x ∧ p x = true ∧
       ∀ j y, (j < i)%nat → l !! j = Some y → p y = false.
Proof.
  revert i. induction l as [|x l IH]; intros i; simpl; [done|].
  destruct (p x) eqn:Hpx.
  - intros [= <-]. exists x. repeat split; [done|intros; lia].
  - destruct (position p l) as [k|]; simpl; [|done]. intros [= <-].
    destruct (IH k eq_refl) as (y & Hy & Hpy & Hmin).
    exists y. repeat split; [done..|].
    intros [|j] z Hj Hz; simpl in Hz; [naive_solver|]. eapply Hmin; [|done]. lia.
Qed.

Lemma position_None {A} (p : A → bool) (l : list A) :
  position p l = None ↔ ∀ i x, l !! i = Some x → p x = false.
Proof.
  induction l as [|x l IH]; simpl.
  - split; [by intros _ i x|done].
  - destruct (p x) eqn:Hpx.
    + split; [done|]. intros H. specialize (H 0%nat x eq_refl). congruence.
    + destruct (position p l) eqn:Hp; simpl.
      * split; [done|]. intros H.
        assert (Some n = None) as ?; [|done]. apply IH.
        intros i y Hy. by apply (H (S i)).
      * split; [|done]. intros _ [|i] y Hy; simpl in Hy; [congruence|].
        eapply IH; [reflexivity|done].
Qed.

Lemma position_lt {A} (p : A → bool) (l : list A) (i : nat) :
  position p l = Some i → (i < length l)%nat.
Proof. intros (x & Hx & _)%position_Some. by eapply lookup_lt_Some. Qed.

Lemma position_unique {A} (p : A → bool) (l : list A) (i : nat) (x : A) :
  l !! i = Some x → p x = true →
  (∀ j y, l !! j = Some y → p y = true → j = i) →
  position p l = Some i.
Proof.
  intros Hx Hpx Huniq. destruct (position p l) as [k|] eqn:E.
  - apply position_Some in E as (y & Hy & Hpy & _). f_equal. by eapply Huniq.
  - eapply position_None in E; [|done]. congruence.
Qed.

Lemma find_first_Some {A} (p : A → bool) (l : list A) (x : A) :
  find_first p l = Some x → x ∈ l ∧ p x = true.
Proof.
  induction l as [|y l IH]; simpl; [done|].
  destruct (p y) eqn:Hp.
  - intros [= <-]. split; [left|done].
  - intros H. destruct (IH H). split; [by right|done].
Qed.

Lemma find_first_None {A} (p : A → bool) (l : list A) :
  find_first p l = None ↔ ∀ x, x ∈ l → p x = false.
Proof.
  induction l as [|y l IH]; simpl.
  - split; [|done]. intros _ x Hx. by apply elem_of_nil in Hx.
  - destruct (p y) eqn:Hp.
    + split; [done|]. intros H. specialize (H y (list_elem_of_here _ _)). congruence.
    + rewrite IH. split.
      * intros H x [->|?]%elem_of_cons; auto.
      * intros H x Hx. apply H. by right.
Qed.

Lemma filter_all {A} (P : A → Prop) `{∀ x, Decision (P x)} (l : list A) :
  Forall P l → filter P l = l.
Proof.
  induction 1 as [|x l Hx Hl IH]; [done|]. rewrite filter_cons_True by done.
  by f_equal.
Qed.

(** * Sums over lists *)

Definition sum_Z {A} (f : A → Z) (l : list A) : Z := foldr (λ x acc, f x + acc) 0 l.
#[global] Arguments sum_Z : simpl never.

Lemma sum_Z_nil {A} (f : A → Z) : sum_Z f [] = 0.
Proof. reflexivity. Qed.
Lemma sum_Z_cons {A} (f : A → Z) x l : sum_Z f (x :: l) = f x + sum_Z f l.
Proof. reflexivity. Qed.
Lemma sum_Z_app {A} (f : A → Z) l k : sum_Z f (l ++ k) = sum_Z f l + sum_Z f k.
Proof. induction l; simpl; rewrite ?sum_Z_cons, ?sum_Z_nil; lia. Qed.
Lemma sum_Z_nonneg {A} (f : A → Z) l : (∀ x, x ∈ l → 0 ≤ f x) → 0 ≤ sum_Z f l.
Proof.
  induction l as [|x l IH]; intros H; [done|]. rewrite sum_Z_cons.
  assert (0 ≤ f x) by (apply H; left).
  assert (0 ≤ sum_Z f l) by (apply IH; intros; apply H; by right). lia.
Qed.

#[export] Instance sum_Z_perm {A} (f : A → Z) :
  Proper ((≡ₚ) ==> (=)) (sum_Z f).
Proof. induction 1; rewrite ?sum_Z_cons; lia. Qed.

Create HintDb qunix.
Create Rewrite HintDb sumz.
#[export] Hint Rewrite @sum_Z_nil @sum_Z_cons @sum_Z_app : sumz.

(** * Reachability of step relations *)

(** The states a labelled transition system reaches from [s] along a trace
    of labels, oldest first. *)
Inductive run {S L} (step : S → L → S → Prop) : S → list L → S → Prop :=
  | run_nil s : run step s [] s
  | run_cons s l s' ls s'' :
      step s l s' → run step s' ls s'' → run step s (l :: ls) s''.
#[export] Hint Constructors run : qunix.

Lemma run_invariant {S L} (step : S → L → S → Prop) (I : S → Prop) :
  (∀ s l s', I s → step s l s' → I s') →
  ∀ s ls s', run step s ls s' → I s → I s'.
Proof. intros Hstep s ls s'. induction 1; eauto. Qed.

Lemma run_app {S L} (step : S → L → S → Prop) s1 l1 s2 l2 s3 :
  run step s1 l1 s2 → run step s2 l2 s3 → run step s1 (l1 ++ l2) s3.
Proof. induction 1; simpl; eauto with qunix. Qed.

(** * Tactics *)

(** Splits boolean tests into the comparisons they decide. *)
Ltac bool_cases :=
  repeat match goal with
  | H : (_ && _)%bool = true |- _ => apply andb_prop in H; destruct H
  | H : (_ || _)%bool = false |- _ => apply orb_false_elim in H; destruct H
  | H : negb _ = true |- _ => apply negb_true_iff in H
  | H : negb _ = false |- _ => apply negb_false_iff in H
  | H : (_ <? _) = true |- _ => apply Z.ltb_lt in H
  | H : (_ <? _) = false |- _ => apply Z.ltb_ge in H
  | H : (_ <=? _) = true |- _ => apply Z.leb_le in H
  | H : (_ <=? _) = false |- _ => apply Z.leb_gt in H
  | H : (_ =? _) = true |- _ => apply Z.eqb_eq in H
  | H : (_ =? _) = false |- _ => apply Z.eqb_neq in H
  | H : bool_decide _ = true |- _ => apply bool_decide_eq_true in H
  | H : bool_decide _ = false |- _ => apply bool_decide_eq_false in H
  end.

(** Inverts a computation known to return. *)
Ltac inv_ret :=
  repeat match goal with
  | H : (_ ≫= _) = Ret _ |- _ =>
      apply bind_ret_inv in H; destruct H as (? & ? & H); simpl in H
  | H : Ret _ = Ret _ |- _ => injection H as H
  | H : Panic = Ret _ |- _ => discriminate H
  | H : rust_assert _ = Ret _ |- _ => apply rust_assert_ret in H
  | H : index _ _ = Ret _ |- _ => apply index_ret in H as [? H]
  | H : set_index _ _ _ = Ret _ |- _ => apply set_index_ret in H as [? H]
  end.
