(* ===== verification/Bits.v ===== *)
(** Machine integers: the fixed-width arithmetic, bit tricks and
    little-endian byte encodings that the crates use.

    A [u8], [u16], [u32], [u64] or [usize] value is a [Z]; [fits w z] says it
    is in range.  The kernel target is x86-64, so [usize] is 64 bits wide.
    The plain operators panic on overflow, which is the dev profile
    ([overflow-checks] on for every workspace member); a theorem that such a
    computation returns therefore also says that the release profile, where
    the same operator wraps, computes the same value. *)
From S2P Require Import Prelude.
From Stdlib Require Import Strings.Byte.

Definition fits (w z : Z) : Prop := 0 ≤ z < 2 ^ w.

#[export] Instance fits_dec w z : Decision (fits w z).
Proof. unfold fits. apply _. Defined.

Definition fitsb (w z : Z) : bool := (0 <=? z) && (z <? 2 ^ w).

(** [a + b], [a - b], [a * b] on unsigned [w]-bit operands. *)
Definition add_chk (w a b : Z) : outcome Z :=
  if a + b <? 2 ^ w then Ret (a + b) else Panic.
Definition sub_chk (a b : Z) : outcome Z :=
  if b <=? a then Ret (a - b) else Panic.
Definition mul_chk (w a b : Z) : outcome Z :=
  if a * b <? 2 ^ w then Ret (a * b) else Panic.

(** [checked_add], [checked_mul], [wrapping_add], [wrapping_sub],
    [saturating_sub]. *)
Definition checked_add (w a b : Z) : option Z :=
  if a + b <? 2 ^ w then Some (a + b) else None.
Definition checked_mul (w a b : Z) : option Z :=
  if a * b <? 2 ^ w then Some (a * b) else None.
Definition wrapping_add (w a b : Z) : Z := (a + b) mod 2 ^ w.
Definition wrapping_sub (w a b : Z) : Z := (a - b) mod 2 ^ w.
Definition wrapping_mul (w a b : Z) : Z := (a * b) mod 2 ^ w.
Definition saturating_sub (a b : Z) : Z := Z.max 0 (a - b).

(** [!x] at width [w]. *)
Definition bitnot (w x : Z) : Z := Z.ldiff (Z.ones w) x.

Fixpoint pos_trailing_zeros (p : positive) : Z :=
  match p with
  | xO q => 1 + pos_trailing_zeros q
  | _ => 0
  end.

(** [x.trailing_zeros()]: the width itself when [x] is zero. *)
Definition trailing_zeros (w x : Z) : Z :=
  match x with
  | Zpos p => pos_trailing_zeros p
  | _ => w
  end.

(** [x.next_power_of_two()] and [x.is_power_of_two()]. *)
Definition next_power_of_two (x : Z) : Z := 2 ^ Z.log2_up x.
Definition is_power_of_two (x : Z) : bool := (0 <? x) && (x =? 2 ^ Z.log2 x).

(** [x.is_multiple_of(n)]. *)
Definition is_multiple_of (x n : Z) : bool :=
  if n =? 0 then x =? 0 else x mod n =? 0.

(** * Overflow *)

Lemma add_chk_ok w a b : a + b < 2 ^ w → add_chk w a b = Ret (a + b).
Proof. intros. unfold add_chk. by rewrite (proj2 (Z.ltb_lt _ _)). Qed.
Lemma sub_chk_ok a b : b ≤ a → sub_chk a b = Ret (a - b).
Proof. intros. unfold sub_chk. by rewrite (proj2 (Z.leb_le _ _)). Qed.
Lemma mul_chk_ok w a b : a * b < 2 ^ w → mul_chk w a b = Ret (a * b).
Proof. intros. unfold mul_chk. by rewrite (proj2 (Z.ltb_lt _ _)). Qed.
Ltac chk_cases :=
  split; [first [done | intros [= <-]; lia]
         | first [intros [-> ?]; first [done | lia] | lia]].

Lemma add_chk_ret w a b c : add_chk w a b = Ret c ↔ c = a + b ∧ a + b < 2 ^ w.
Proof. unfold add_chk. destruct (Z.ltb_spec (a + b) (2 ^ w)); chk_cases. Qed.
Lemma sub_chk_ret a b c : sub_chk a b = Ret c ↔ c = a - b ∧ b ≤ a.
Proof. unfold sub_chk. destruct (Z.leb_spec b a); chk_cases. Qed.

Lemma checked_add_Some w a b c :
  checked_add w a b = Some c ↔ c = a + b ∧ a + b < 2 ^ w.
Proof. unfold checked_add. destruct (Z.ltb_spec (a + b) (2 ^ w)); chk_cases. Qed.
Lemma checked_add_None w a b : checked_add w a b = None ↔ 2 ^ w ≤ a + b.
Proof.
  unfold checked_add.
  destruct (Z.ltb_spec (a + b) (2 ^ w)); split; intros; done || lia.
Qed.
Lemma checked_mul_Some w a b c :
  checked_mul w a b = Some c ↔ c = a * b ∧ a * b < 2 ^ w.
Proof. unfold checked_mul. destruct (Z.ltb_spec (a * b) (2 ^ w)); chk_cases. Qed.

Lemma is_multiple_of_spec x n : 0 < n → is_multiple_of x n = true ↔ x mod n = 0.
Proof.
  intros. unfold is_multiple_of. destruct (Z.eqb_spec n 0); [lia|].
  apply Z.eqb_eq.
Qed.

Lemma pow2_pos k : 0 ≤ k → 0 < 2 ^ k.
Proof. intros. by apply Z.pow_pos_nonneg. Qed.

Lemma pow2_le a b : 0 ≤ a ≤ b → 2 ^ a ≤ 2 ^ b.
Proof. intros. apply Z.pow_le_mono_r; lia. Qed.

Lemma pow2_succ k : 0 ≤ k → 2 ^ (k + 1) = 2 * 2 ^ k.
Proof. intros. rewrite Z.pow_add_r by lia. lia. Qed.

#[export] Hint Resolve pow2_pos : qunix.

(** * Alignment *)

(** [x & !(2^k - 1)] rounds down to a multiple of [2^k]. *)
Lemma land_bitnot_align w x k :
  0 ≤ k ≤ w → fits w x →
  Z.land x (bitnot w (2 ^ k - 1)) = x - x mod 2 ^ k.
Proof.
  intros Hk [Hx0 Hxw].
  assert (Z.land x (bitnot w (2 ^ k - 1)) = Z.ldiff x (Z.ones k)) as ->.
  { unfold bitnot. replace (2 ^ k - 1) with (Z.ones k)
      by (rewrite Z.ones_equiv; lia).
    apply Z.bits_inj'. intros n Hn.
    rewrite Z.land_spec, !Z.ldiff_spec.
    destruct (decide (n < w)).
    - rewrite Z.ones_spec_low by lia. by destruct (Z.testbit x n).
    - assert (Z.testbit x n = false) as ->; [|done].
      destruct (decide (x = 0)) as [->|]; [apply Z.testbit_0_l|].
      apply Z.bits_above_log2; [lia|]. apply Z.log2_lt_pow2; [lia|].
      assert (2 ^ w ≤ 2 ^ n) by (apply pow2_le; lia). lia. }
  rewrite Z.ldiff_ones_r, Z.shiftl_mul_pow2, Z.shiftr_div_pow2 by lia.
  pose proof (Z.div_mod x (2 ^ k) ltac:(pose proof (pow2_pos k ltac:(lia)); lia)). lia.
Qed.

Lemma mod_pow2_le x j k : 0 ≤ j ≤ k → x mod 2 ^ k = 0 → x mod 2 ^ j = 0.
Proof.
  intros Hjk Hx.
  assert (2 ^ k = 2 ^ j * 2 ^ (k - j)) as Hp
    by (rewrite <- Z.pow_add_r by lia; f_equal; lia).
  apply Z.mod_divide in Hx as [q Hq]; [|pose proof (pow2_pos k ltac:(lia)); lia].
  apply Z.mod_divide; [pose proof (pow2_pos j ltac:(lia)); lia|].
  exists (q * 2 ^ (k - j)). lia.
Qed.

(** Two multiples of [n] that are less than [n] apart are equal. *)
Lemma mod_eq_close a b n : 0 < n → a mod n = 0 → b mod n = 0 → a ≤ b < a + n → a = b.
Proof.
  intros Hn Ha Hb Hab.
  apply Z.mod_divide in Ha as [p ->]; [|lia].
  apply Z.mod_divide in Hb as [q ->]; [|lia].
  assert (p = q) as -> by nia. done.
Qed.

Lemma mod_add_multiple a n : 0 < n → a mod n = 0 → (a + n) mod n = 0.
Proof. intros. rewrite Z.add_mod, H0, Z.mod_same by lia. done. Qed.

Lemma mod_sub_multiple a n : 0 < n → a mod n = 0 → (a - n) mod n = 0.
Proof.
  intros. replace (a - n) with (a + (-1) * n) by lia.
  by rewrite Z.mod_add by lia.
Qed.

(** * Trailing zeros *)

Lemma pos_trailing_zeros_nonneg p : 0 ≤ pos_trailing_zeros p.
Proof. induction p; simpl; lia. Qed.

Lemma pos_trailing_zeros_mod p : Zpos p mod 2 ^ pos_trailing_zeros p = 0.
Proof.
  induction p as [p|p IH|]; simpl pos_trailing_zeros; [by rewrite Z.mod_1_r| |done].
  pose proof (pos_trailing_zeros_nonneg p).
  rewrite Z.add_comm, pow2_succ by lia.
  rewrite Pos2Z.inj_xO, Z.mul_mod_distr_l by (pose proof (pow2_pos _ H); lia). lia.
Qed.

Lemma trailing_zeros_mod w x k :
  0 ≤ w → 0 ≤ x → 0 ≤ k ≤ trailing_zeros w x → x mod 2 ^ k = 0.
Proof.
  intros Hw Hx Hk. destruct x as [|p|p]; [by rewrite Z.mod_0_l by
    (pose proof (pow2_pos k ltac:(lia)); lia)| |lia].
  simpl in Hk. eapply mod_pow2_le; [|apply pos_trailing_zeros_mod]. lia.
Qed.

Lemma pos_trailing_zeros_odd p k :
  pos_trailing_zeros p < k → Zpos p mod 2 ^ k ≠ 0.
Proof.
  revert k. induction p as [p IH|p IH|]; intros k Hk; simpl in Hk.
  - intros H%(mod_pow2_le _ 1); [|lia]. change (2 ^ 1) with 2 in H.
    rewrite Pos2Z.inj_xI in H.
    replace (2 * Z.pos p + 1) with (1 + Z.pos p * 2) in H by lia.
    by rewrite Z.mod_add in H by lia.
  - pose proof (pos_trailing_zeros_nonneg p).
    replace k with ((k - 1) + 1) by lia. rewrite pow2_succ by lia.
    rewrite Pos2Z.inj_xO, Z.mul_mod_distr_l
      by (pose proof (pow2_pos (k-1) ltac:(lia)); lia).
    specialize (IH (k - 1) ltac:(lia)). lia.
  - rewrite Z.mod_small; [lia|].
    split; [lia|]. apply Z.pow_gt_1; lia.
Qed.

(** [x & (1 << k) != 0] is bit [k] of [x]. *)
Lemma land_pow2 x k : 0 ≤ k → Z.land x (2 ^ k) = if Z.testbit x k then 2 ^ k else 0.
Proof.
  intros. apply Z.bits_inj'. intros n Hn. rewrite Z.land_spec.
  destruct (decide (n = k)) as [->|Hne].
  - rewrite Z.pow2_bits_true by lia. destruct (Z.testbit x k) eqn:E.
    + by rewrite Z.pow2_bits_true.
    + by rewrite Z.testbit_0_l.
  - rewrite Z.pow2_bits_false by lia. rewrite andb_false_r.
    destruct (Z.testbit x k); [by rewrite Z.pow2_bits_false by lia|].
    by rewrite Z.testbit_0_l.
Qed.

Lemma testbit_trailing_zeros w p : Z.testbit (Zpos p) (trailing_zeros w (Zpos p)) = true.
Proof.
  simpl. induction p as [p|p IH|]; simpl pos_trailing_zeros; [done| |done].
  pose proof (pos_trailing_zeros_nonneg p).
  rewrite Pos2Z.inj_xO, Z.add_comm, Z.add_1_r. by rewrite Z.double_bits_succ.
Qed.

(** No bit below the trailing-zero count is set. *)
Lemma testbit_below_trailing_zeros w p k :
  0 ≤ k < trailing_zeros w (Zpos p) → Z.testbit (Zpos p) k = false.
Proof.
  intros Hk. simpl in Hk.
  pose proof (pos_trailing_zeros_mod p) as Hm.
  pose proof (pow2_pos (pos_trailing_zeros p) ltac:(lia)).
  apply Z.mod_divide in Hm as [q ->]; [|lia].
  apply Z.mul_pow2_bits_low. lia.
Qed.

Lemma trailing_zeros_bound w p n : Zpos p < 2 ^ n → trailing_zeros w (Zpos p) < n.
Proof.
  intros Hp. destruct (decide (pos_trailing_zeros p < n)); [done|].
  pose proof (pos_trailing_zeros_mod p) as Hm.
  assert (0 ≤ n) by (destruct (decide (0 ≤ n)); [done|]; rewrite Z.pow_neg_r in Hp; lia).
  assert (Zpos p mod 2 ^ n = 0) as H0 by (eapply mod_pow2_le; [|done]; lia).
  rewrite Z.mod_small in H0; lia.
Qed.

(** [x & (x - 1)] clears the lowest set bit. *)
Lemma land_pred_spec p i :
  0 ≤ i →
  Z.testbit (Z.land (Zpos p) (Zpos p - 1)) i =
  Z.testbit (Zpos p) i && negb (i =? pos_trailing_zeros p).
Proof.
  revert i. induction p as [p IH|p IH|]; intros i Hi; rewrite Z.land_spec.
  - cbn [pos_trailing_zeros]. rewrite Pos2Z.inj_xI.
    replace (2 * Z.pos p + 1 - 1) with (2 * Z.pos p) by lia.
    destruct (Z.eqb_spec i 0) as [->|]; [by rewrite Z.testbit_even_0, andb_false_r|].
    replace i with (Z.succ (i - 1)) by lia.
    rewrite Z.testbit_odd_succ, Z.testbit_even_succ by lia. by destruct (Z.testbit _ _).
  - cbn [pos_trailing_zeros]. rewrite Pos2Z.inj_xO.
    replace (2 * Z.pos p - 1) with (2 * (Z.pos p - 1) + 1) by lia.
    destruct (Z.eqb_spec i 0) as [->|]; [by rewrite Z.testbit_even_0|].
    replace i with (Z.succ (i - 1)) by lia.
    rewrite Z.testbit_odd_succ, Z.testbit_even_succ by lia. rewrite <- Z.land_spec, IH by lia.
    do 2 f_equal. pose proof (pos_trailing_zeros_nonneg p).
    destruct (Z.eqb_spec (i - 1) (pos_trailing_zeros p)), (Z.eqb_spec (Z.succ (i - 1)) (1 + pos_trailing_zeros p));
      done || lia.
  - cbn [pos_trailing_zeros]. change (1 - 1) with 0. rewrite Z.testbit_0_l, andb_false_r.
    destruct (Z.eqb_spec i 0) as [->|]; [done|].
    rewrite Z.bits_above_log2; [done|lia|]. simpl. lia.
Qed.

Lemma land_range x y n : 0 ≤ n → 0 ≤ x < 2 ^ n → 0 ≤ Z.land x y < 2 ^ n.
Proof.
  intros Hn Hx. assert (0 ≤ Z.land x y) as H0 by (apply Z.land_nonneg; lia).
  split; [done|]. replace x with (x mod 2 ^ n) by (apply Z.mod_small; lia).
  rewrite <- Z.land_ones by lia. rewrite <- Z.land_assoc, (Z.land_comm _ y), Z.land_assoc.
  rewrite Z.land_ones by lia. apply Z.mod_pos_bound. by apply pow2_pos.
Qed.

(** * Powers of two *)

Lemma next_power_of_two_ge x : x ≤ next_power_of_two x.
Proof.
  unfold next_power_of_two. destruct (decide (1 < x)).
  - apply Z.log2_log2_up_spec; lia.
  - pose proof (pow2_pos (Z.log2_up x) (Z.log2_up_nonneg x)). lia.
Qed.

Lemma is_power_of_two_spec x : is_power_of_two x = true ↔ ∃ k, 0 ≤ k ∧ x = 2 ^ k.
Proof.
  unfold is_power_of_two. split.
  - intros H. bool_cases. exists (Z.log2 x). split; [apply Z.log2_nonneg|done].
  - intros (k & Hk & ->). rewrite Z.log2_pow2 by lia.
    rewrite Z.eqb_refl, andb_true_r. apply Z.ltb_lt. auto with qunix.
Qed.

Lemma trailing_zeros_pow2 w k : 0 ≤ k → trailing_zeros w (2 ^ k) = k.
Proof.
  intros Hk. destruct (2 ^ k) as [|p|p] eqn:E;
    [pose proof (pow2_pos k Hk); lia| |pose proof (pow2_pos k Hk); lia].
  simpl. destruct (Z.lt_trichotomy (pos_trailing_zeros p) k) as [H|[H|H]]; [|done|].
  - exfalso. apply (pos_trailing_zeros_odd p k H). rewrite <- E.
    apply Z.mod_same. pose proof (pow2_pos k Hk). lia.
  - pose proof (pos_trailing_zeros_mod p) as Hm. rewrite <- E in Hm.
    rewrite Z.mod_small in Hm; [pose proof (pow2_pos k Hk); lia|].
    split; [pose proof (pow2_pos k Hk); lia|]. apply Z.pow_lt_mono_r; lia.
Qed.

(** Flipping bit [k] of a multiple of [2^k] moves it by [2^k], up when the
    quotient is even and down when it is odd. *)
Lemma lxor_pow2 x k :
  0 ≤ k → 0 ≤ x → x mod 2 ^ k = 0 →
  Z.lxor x (2 ^ k) = if Z.testbit x k then x - 2 ^ k else x + 2 ^ k.
Proof.
  intros Hk Hx Hm. pose proof (pow2_pos k Hk).
  destruct (Z.testbit x k) eqn:Hb.
  - rewrite Z.sub_nocarry_ldiff.
    2:{ apply Z.bits_inj'. intros n Hn. rewrite Z.ldiff_spec, Z.testbit_0_l.
        destruct (decide (n = k)) as [->|].
        - rewrite Hb. apply andb_false_r.
        - rewrite Z.pow2_bits_false by lia. done. }
    apply Z.bits_inj'. intros n Hn. rewrite Z.lxor_spec, Z.ldiff_spec.
    destruct (decide (n = k)) as [->|].
    + by rewrite Hb, Z.pow2_bits_true.
    + rewrite Z.pow2_bits_false by lia. by destruct (Z.testbit x n).
  - symmetry. apply Z.add_nocarry_lxor. rewrite land_pow2, Hb by lia. done.
Qed.

Lemma testbit_mod_pow2 x k :
  0 ≤ k → x mod 2 ^ k = 0 → Z.testbit x k = true ↔ x mod 2 ^ (k + 1) = 2 ^ k.
Proof.
  intros Hk Hm. pose proof (pow2_pos k Hk).
  apply Z.mod_divide in Hm as [q ->]; [|lia].
  rewrite Z.mul_pow2_bits by lia. rewrite Z.sub_diag, Z.bit0_odd.
  rewrite pow2_succ by lia. rewrite Z.mul_mod_distr_r by lia.
  rewrite Zmod_odd. destruct (Z.odd q); split; intros; lia || done.
Qed.

(** * Little-endian bytes *)

#[export] Instance byte_eq_dec : EqDecision byte := Byte.byte_eq_dec.

Definition b2z (b : byte) : Z := Z.of_N (Byte.to_N b).
Definition z2b (z : Z) : byte :=
  match Byte.of_N (Z.to_N (z mod 256)) with Some b => b | None => x00 end.

(** [uN::from_le_bytes] and [uN::to_le_bytes]. *)
Fixpoint from_le_bytes (l : list byte) : Z :=
  match l with
  | [] => 0
  | b :: l' => b2z b + 256 * from_le_bytes l'
  end.
Fixpoint to_le_bytes (n : nat) (z : Z) : list byte :=
  match n with
  | O => []
  | S n' => z2b z :: to_le_bytes n' (z / 256)
  end.

Lemma b2z_range b : 0 ≤ b2z b < 256.
Proof. unfold b2z. pose proof (Byte.to_N_bounded b). lia. Qed.

Lemma b2z_z2b z : b2z (z2b z) = z mod 256.
Proof.
  unfold b2z, z2b.
  pose proof (Z.mod_pos_bound z 256 ltac:(lia)).
  destruct (Byte.of_N (Z.to_N (z mod 256))) eqn:E.
  - apply Byte.to_of_N in E. rewrite E. lia.
  - apply Byte.of_N_None_iff in E. lia.
Qed.

Lemma z2b_b2z b : z2b (b2z b) = b.
Proof.
  unfold z2b. rewrite Z.mod_small by apply b2z_range.
  unfold b2z. rewrite N2Z.id. by rewrite Byte.of_to_N.
Qed.

Lemma from_le_bytes_range l : 0 ≤ from_le_bytes l < 2 ^ (8 * Z.of_nat (length l)).
Proof.
  induction l as [|b l IH]; simpl length; simpl from_le_bytes; [done|].
  pose proof (b2z_range b).
  replace (8 * Z.of_nat (S (length l))) with (8 + 8 * Z.of_nat (length l)) by lia.
  rewrite Z.pow_add_r by lia. change (2 ^ 8) with 256. lia.
Qed.

Lemma length_to_le_bytes n z : length (to_le_bytes n z) = n.
Proof. revert z. induction n; intros; simpl; auto. Qed.

Lemma from_to_le_bytes n z :
  0 ≤ z < 2 ^ (8 * Z.of_nat n) → from_le_bytes (to_le_bytes n z) = z.
Proof.
  revert z. induction n as [|n IH]; intros z Hz; simpl; [simpl in Hz; lia|].
  rewrite b2z_z2b, IH.
  - pose proof (Z.div_mod z 256). lia.
  - replace (8 * Z.of_nat (S n)) with (8 + 8 * Z.of_nat n) in Hz by lia.
    rewrite Z.pow_add_r in Hz by lia. change (2 ^ 8) with 256 in Hz.
    split; [apply Z.div_pos; lia|]. apply Z.div_lt_upper_bound; lia.
Qed.

Lemma to_from_le_bytes l : to_le_bytes (length l) (from_le_bytes l) = l.
Proof.
  induction l as [|b l IH]; simpl; [done|]. pose proof (b2z_range b). f_equal.
  - rewrite <- (z2b_b2z b) at 2. unfold z2b.
    rewrite Z.mul_comm, Z.mod_add by lia. done.
  - rewrite Z.mul_comm, Z.div_add, Z.div_small by lia. by rewrite Z.add_0_l.
Qed.

Create Rewrite HintDb qunix_len.
#[export] Hint Rewrite length_to_le_bytes : qunix_len.
