(* ===== verification/Mem.v ===== *)
(** Byte-addressed memory, as the driver and the page-table code reach it
    through the higher-half map: [copy_nonoverlapping] and [write_volatile]
    are [write_mem], the reads are [read_mem]. *)
From S2P Require Import Prelude Bits.
From Stdlib Require Import Strings.Byte.

Definition Mem : Type := Z → byte.

Definition write_mem (m : Mem) (a : Z) (bs : list byte) : Mem :=
  λ x, if (a <=? x) && (x <? a + Z.of_nat (length bs)) then default (m x) (bs !! Z.to_nat (x - a)) else m x.
Definition read_mem (m : Mem) (a : Z) (n : nat) : list byte := (λ i, m (a + Z.of_nat i)) <$> seq 0 n.

Lemma write_mem_out m a bs x : x < a ∨ a + Z.of_nat (length bs) ≤ x → write_mem m a bs x = m x.
Proof. intros H. unfold write_mem. destruct (Z.leb_spec a x), (Z.ltb_spec x (a + Z.of_nat (length bs))); cbn; done || lia. Qed.

Lemma write_mem_in m a bs d : 0 ≤ d < Z.of_nat (length bs) → write_mem m a bs (a + d) = default x00 (bs !! Z.to_nat d).
Proof.
  intros H. unfold write_mem. rewrite (proj2 (Z.leb_le _ _)), (proj2 (Z.ltb_lt _ _)) by lia. cbn [andb].
  replace (a + d - a) with d by lia. destruct (lookup_lt_is_Some_2 bs (Z.to_nat d)) as [y ->]; [lia|done].
Qed.

Lemma read_mem_ext m m' a n : (∀ x, a ≤ x < a + Z.of_nat n → m x = m' x) → read_mem m a n = read_mem m' a n.
Proof. intros H. unfold read_mem. apply list_fmap_ext. intros i x Hx. apply lookup_seq in Hx as [-> Hi]. apply H. lia. Qed.

Lemma read_write m a bs n : n = length bs → read_mem (write_mem m a bs) a n = bs.
Proof.
  intros ->. apply list_eq. intros i. unfold read_mem. rewrite list_lookup_fmap.
  destruct (decide (i < length bs)%nat) as [Hi|Hi].
  - rewrite lookup_seq_lt by done. cbn. unfold write_mem.
    rewrite (proj2 (Z.leb_le _ _)), (proj2 (Z.ltb_lt _ _)) by lia. cbn.
    replace (Z.to_nat (a + Z.of_nat i - a)) with i by lia. destruct (lookup_lt_is_Some_2 _ _ Hi) as [y ->]. done.
  - rewrite lookup_seq_ge by lia. cbn. symmetry. apply lookup_ge_None. lia.
Qed.

Lemma read_other m a bs a' n :
  a' + Z.of_nat n ≤ a ∨ a + Z.of_nat (length bs) ≤ a' → read_mem (write_mem m a bs) a' n = read_mem m a' n.
Proof. intros H. apply read_mem_ext. intros x Hx. apply write_mem_out. lia. Qed.
