(* ===== verification/Sched.v ===== *)
(** Scheduling policy: [crates/qunix-sched].

    [RunQueue] models [src/lib.rs]: three bands of runnable thread ids,
    strict priority between bands and first-in first-out within one.
    [Park] models [src/park.rs]: the two-bit state that decides whether a
    wakeup that races with a park is lost.

    The abstract queue of [RunQueue] is one list of (id, priority) pairs in
    service order; the refinement theorem says that the three bands implement
    it operation by operation. *)
From S2P Require Import Prelude.

Module RunQueue.

(** [ThreadId(u64)]. *)
Definition ThreadId := Z.

Inductive Priority := Idle | Normal | High.

#[export] Instance Priority_eq_dec : EqDecision Priority.
Proof. solve_decision. Defined.

(** [Priority::ORDER]: highest first. *)
Definition ORDER : list Priority := [High; Normal; Idle].

(** [Priority::band]: the enum's discriminant, the index into [bands]. *)
Definition band (p : Priority) : nat :=
  match p with Idle => 0 | Normal => 1 | High => 2 end.

(** [bands: [VecDeque<ThreadId>; 3]], one field per index. *)
Record t := mk { band_idle : list ThreadId;
                 band_normal : list ThreadId;
                 band_high : list ThreadId }.

(** [self.bands[i]] and the assignment through it. *)
Definition get_band (q : t) (p : Priority) : list ThreadId :=
  match band p with
  | 0%nat => band_idle q
  | 1%nat => band_normal q
  | _ => band_high q
  end.

Definition set_band (q : t) (p : Priority) (b : list ThreadId) : t :=
  match band p with
  | 0%nat => mk b (band_normal q) (band_high q)
  | 1%nat => mk (band_idle q) b (band_high q)
  | _ => mk (band_idle q) (band_normal q) b
  end.

Definition new : t := mk [] [] [].

Definition contains (q : t) (id : ThreadId) : bool :=
  existsb (λ b, existsb (Z.eqb id) b) [band_idle q; band_normal q; band_high q].

Definition push (q : t) (id : ThreadId) (prio : Priority) : t :=
  if contains q id then q
  else set_band q prio (get_band q prio ++ [id]).

(** [VecDeque::pop_front] and [VecDeque::pop_back]. *)
Definition pop_front (b : list ThreadId) : option (ThreadId * list ThreadId) :=
  match b with [] => None | id :: b' => Some (id, b') end.

Fixpoint pop_back (b : list ThreadId) : option (ThreadId * list ThreadId) :=
  match b with
  | [] => None
  | id :: b' =>
      match pop_back b' with
      | None => Some (id, [])
      | Some (l, b'') => Some (l, id :: b'')
      end
  end.

(** The [for prio in Priority::ORDER] loop shared by [pop] and [steal]:
    the first band from which [take] yields something. *)
Fixpoint first_band (take : list ThreadId → option (ThreadId * list ThreadId))
    (order : list Priority) (q : t) : option ThreadId * t :=
  match order with
  | [] => (None, q)
  | prio :: order' =>
      match take (get_band q prio) with
      | Some (id, b) => (Some id, set_band q prio b)
      | None => first_band take order' q
      end
  end.

Definition pop (q : t) : option ThreadId * t := first_band pop_front ORDER q.
Definition steal (q : t) : option ThreadId * t := first_band pop_back ORDER q.

(** [VecDeque::remove] at the position [iter().position] found. *)
Definition remove_from (id : ThreadId) (b : list ThreadId) : option (list ThreadId) :=
  match position (Z.eqb id) b with
  | Some i => Some (take i b ++ drop (S i) b)
  | None => None
  end.

(** [for band in &mut self.bands]: index order, not priority order. *)
Fixpoint remove_in (order : list Priority) (q : t) (id : ThreadId) : bool * t :=
  match order with
  | [] => (false, q)
  | prio :: order' =>
      match remove_from id (get_band q prio) with
      | Some b => (true, set_band q prio b)
      | None => remove_in order' q id
      end
  end.

Definition remove (q : t) (id : ThreadId) : bool * t :=
  remove_in [Idle; Normal; High] q id.

Definition len (q : t) : nat :=
  (length (band_idle q) + length (band_normal q) + length (band_high q))%nat.
Definition is_empty (q : t) : bool := Nat.eqb (len q) 0.
Definition runnable_len (q : t) : nat :=
  (length (get_band q High) + length (get_band q Normal))%nat.

(** ** The abstract queue *)

(** Every queued thread with its band, in the order [pop] serves them. *)
Definition entries (p : Priority) (b : list ThreadId) : list (ThreadId * Priority) :=
  (λ id, (id, p)) <$> b.
Definition contents (q : t) : list (ThreadId * Priority) :=
  entries High (band_high q) ++ entries Normal (band_normal q) ++ entries Idle (band_idle q).

Definition ids (l : list (ThreadId * Priority)) : list ThreadId := l.*1.

(** Entries of at least, and of less than, a priority. *)
Definition at_least (p : Priority) (l : list (ThreadId * Priority)) :=
  filter (λ e, (band p ≤ band e.2)%nat) l.
Definition below (p : Priority) (l : list (ThreadId * Priority)) :=
  filter (λ e, (band e.2 < band p)%nat) l.

(** What the queue promises, on the list alone. *)
Definition spec_push (l : list (ThreadId * Priority)) (id : ThreadId) (p : Priority) :=
  if decide (id ∈ ids l) then l else at_least p l ++ [(id, p)] ++ below p l.
Definition spec_pop (l : list (ThreadId * Priority)) :=
  match l with [] => (None, l) | e :: l' => (Some e.1, l') end.
Definition spec_remove (l : list (ThreadId * Priority)) (id : ThreadId) :=
  (bool_decide (id ∈ ids l), filter (λ e, e.1 ≠ id) l).
(** The last entry of the leading band. *)
Definition spec_steal (l : list (ThreadId * Priority)) :=
  match l with
  | [] => (None, l)
  | e :: _ =>
      match pop_back (ids (at_least e.2 l)) with
      | Some (id, b) => (Some id, entries e.2 b ++ below e.2 l)
      | None => (None, l)
      end
  end.

(** The invariant: no thread is queued twice, in one band or in two. *)
Definition wf (q : t) : Prop := NoDup (ids (contents q)).

(** ** Lemmas *)

Lemma ids_entries p b : ids (entries p b) = b.
Proof.
  unfold ids, entries. rewrite <- list_fmap_compose. apply list_fmap_id.
Qed.

#[export] Instance ids_perm : Proper ((≡ₚ) ==> (≡ₚ)) ids.
Proof. intros l k H. unfold ids. by rewrite H. Qed.

Lemma ids_app l k : ids (l ++ k) = ids l ++ ids k.
Proof. apply fmap_app. Qed.

Lemma ids_contents q : ids (contents q) = band_high q ++ band_normal q ++ band_idle q.
Proof. unfold contents. by rewrite !ids_app, !ids_entries. Qed.

Lemma filter_entries_all (P : ThreadId * Priority → Prop) `{∀ e, Decision (P e)} p b :
  (∀ id, P (id, p)) → filter P (entries p b) = entries p b.
Proof.
  intros HP. unfold entries.
  induction b as [|id b IH]; [done|]. simpl. rewrite filter_cons_True by done.
  f_equal. exact IH.
Qed.

Lemma filter_entries_none (P : ThreadId * Priority → Prop) `{∀ e, Decision (P e)} p b :
  (∀ id, ¬ P (id, p)) → filter P (entries p b) = [].
Proof.
  intros HP. unfold entries.
  induction b as [|id b IH]; [done|]. simpl. rewrite filter_cons_False by done.
  exact IH.
Qed.

(** Splits [at_least]/[below] of concatenated bands into whole bands. *)
Ltac filter_bands :=
  unfold at_least, below, contents; rewrite ?filter_app;
  repeat match goal with
  | |- context [filter ?P (entries ?p ?b)] =>
      first
        [ rewrite (filter_entries_all P p b) by (intros; simpl; lia)
        | rewrite (filter_entries_none P p b) by (intros; simpl; lia) ]
  end; rewrite ?app_nil_r, ?app_nil_l.

Lemma existsb_eqb_elem id (b : list ThreadId) : existsb (Z.eqb id) b = true ↔ id ∈ b.
Proof.
  rewrite existsb_exists. split.
  - intros (x & Hx & ->%Z.eqb_eq). by apply list_elem_of_In.
  - intros H. exists id. split; [by apply list_elem_of_In|apply Z.eqb_refl].
Qed.

Lemma contains_spec q id : contains q id = true ↔ id ∈ ids (contents q).
Proof.
  unfold contains. simpl. rewrite !orb_true_iff, !existsb_eqb_elem.
  rewrite ids_contents, !elem_of_app. intuition discriminate.
Qed.

Lemma contains_false q id : contains q id = false ↔ id ∉ ids (contents q).
Proof. rewrite <- contains_spec. by destruct (contains q id). Qed.

Lemma pop_back_snoc b id : pop_back (b ++ [id]) = Some (id, b).
Proof. induction b as [|x b IH]; simpl; [done|]. by rewrite IH. Qed.

Lemma pop_back_Some b id b' : pop_back b = Some (id, b') ↔ b = b' ++ [id].
Proof.
  split; [|intros ->; apply pop_back_snoc].
  destruct b as [|x b] using rev_ind; simpl; [done|].
  rewrite pop_back_snoc. by intros [= -> ->].
Qed.

Lemma pop_back_None b : pop_back b = None ↔ b = [].
Proof.
  split; [|by intros ->].
  destruct b as [|x b] using rev_ind; [done|]. by rewrite pop_back_snoc.
Qed.

Lemma remove_from_Some id b b' :
  NoDup b → remove_from id b = Some b' → id ∈ b ∧ b' = filter (.≠ id) b.
Proof.
  intros Hnd. unfold remove_from.
  destruct (position (Z.eqb id) b) as [i|] eqn:E; [|done]. intros [= <-].
  apply position_Some in E as (x & Hx & ->%Z.eqb_eq & _).
  split; [by eapply list_elem_of_lookup_2|].
  pose proof (take_drop_middle b i x Hx) as Hb.
  rewrite <- Hb in Hnd. rewrite <- Hb at 3.
  apply NoDup_app in Hnd as (_ & Hd & [Hn _]%NoDup_cons).
  rewrite filter_app, filter_cons_False by tauto.
  f_equal; symmetry; apply filter_all, Forall_forall; intros y Hy ->; [|done].
  apply (Hd x); [done|]. left.
Qed.

Lemma remove_from_None id b : remove_from id b = None → id ∉ b.
Proof.
  unfold remove_from. destruct (position (Z.eqb id) b) as [i|] eqn:E; [done|].
  intros _ [i Hi]%list_elem_of_lookup.
  eapply position_None in E; [|done]. by rewrite Z.eqb_refl in E.
Qed.

Ltac unfold_bands :=
  unfold contents, set_band, get_band, band; cbn [band_idle band_normal band_high].

Lemma contents_nil q : contents q = [] →
  band_high q = [] ∧ band_normal q = [] ∧ band_idle q = [].
Proof.
  intros H. apply (f_equal ids) in H. rewrite ids_contents in H. simpl in H.
  apply app_eq_nil in H as [? H]. by apply app_eq_nil in H.
Qed.

Lemma push_contents q id p : contents (push q id p) = spec_push (contents q) id p.
Proof.
  unfold push, spec_push. destruct (contains q id) eqn:E.
  - apply contains_spec in E. by rewrite decide_True.
  - apply contains_false in E. rewrite decide_False by done.
    destruct p; filter_bands; unfold_bands; unfold entries;
      rewrite fmap_app; by rewrite <- !app_assoc.
Qed.

Lemma pop_contents q :
  spec_pop (contents q) = ((pop q).1, contents (pop q).2).
Proof.
  by destruct q as [[|i ids0] [|n ns] [|h hs]].
Qed.

Lemma spec_steal_lead p b rest id b' :
  pop_back b = Some (id, b') → Forall (λ e, (band e.2 < band p)%nat) rest →
  spec_steal (entries p b ++ rest) = (Some id, entries p b' ++ rest).
Proof.
  intros Hb Hrest. unfold spec_steal.
  destruct b as [|x b0] eqn:Eb; [done|]. rewrite <- Eb in *.
  destruct (entries p b ++ rest) as [|e l] eqn:El; [by rewrite Eb in El|].
  assert (e.2 = p) as -> by (rewrite Eb in El; by injection El as <- _).
  rewrite <- El. unfold at_least, below. rewrite !filter_app.
  rewrite (filter_entries_all _ p b), (filter_entries_none _ p b) by (intros; simpl; lia).
  assert (filter (λ e, (band p ≤ band e.2)%nat) rest = []) as ->.
  { clear El. induction Hrest as [|y l' Hy _ IH]; [done|].
    rewrite filter_cons_False by lia. exact IH. }
  rewrite app_nil_r, ids_entries, Hb. by rewrite (filter_all _ rest).
Qed.

Lemma entries_below p p' b :
  (band p' < band p)%nat → Forall (λ e, (band e.2 < band p)%nat) (entries p' b).
Proof. intros. apply Forall_fmap, Forall_true. done. Qed.

Lemma steal_contents q :
  spec_steal (contents q) = ((steal q).1, contents (steal q).2).
Proof.
  destruct q as [bi bn bh]. unfold steal, ORDER, first_band.
  cbn [get_band set_band band band_high band_normal band_idle].
  destruct (pop_back bh) as [[id b]|] eqn:Eh; cbn [fst snd].
  { apply spec_steal_lead; [done|]. apply Forall_app_2; apply entries_below; simpl; lia. }
  apply pop_back_None in Eh as ->.
  destruct (pop_back bn) as [[id b]|] eqn:En; cbn [fst snd].
  { apply (spec_steal_lead Normal bn (entries Idle bi)); [done|]. apply entries_below; simpl; lia. }
  apply pop_back_None in En as ->.
  destruct (pop_back bi) as [[id b]|] eqn:Ei; cbn [fst snd].
  { pose proof (spec_steal_lead Idle bi [] id b Ei ltac:(constructor)) as H.
    by rewrite !app_nil_r in H. }
  by apply pop_back_None in Ei as ->.
Qed.

Lemma filter_entries_ne p b id :
  filter (λ e : ThreadId * Priority, e.1 ≠ id) (entries p b) = entries p (filter (.≠ id) b).
Proof.
  unfold entries. induction b as [|x b IH]; [done|]. simpl.
  destruct (decide (x = id)) as [->|].
  - rewrite !filter_cons_False by (simpl; tauto). exact IH.
  - rewrite !filter_cons_True by done. cbn. f_equal. exact IH.
Qed.

Lemma filter_ne_absent (b : list ThreadId) id : id ∉ b → filter (.≠ id) b = b.
Proof.
  intros H. apply filter_all, Forall_forall. by intros x Hx ->.
Qed.

Lemma remove_contents q id :
  wf q → spec_remove (contents q) id = ((remove q id).1, contents (remove q id).2).
Proof.
  unfold wf. rewrite ids_contents. intros Hnd.
  apply NoDup_app in Hnd as (Hh & Hh' & (Hn & Hn' & Hi)%NoDup_app).
  unfold spec_remove. rewrite ids_contents. unfold contents.
  rewrite !filter_app, !filter_entries_ne.
  unfold remove, remove_in. unfold_bands.
  destruct (remove_from id (band_idle q)) eqn:Ei.
  { apply remove_from_Some in Ei as [Hin ->]; [|done]. unfold_bands.
    rewrite (filter_ne_absent (band_high q)), (filter_ne_absent (band_normal q)),
      bool_decide_eq_true_2; [done|set_solver..]. }
  apply remove_from_None in Ei.
  destruct (remove_from id (band_normal q)) eqn:En.
  { apply remove_from_Some in En as [Hin ->]; [|done]. unfold_bands.
    rewrite (filter_ne_absent (band_high q)), (filter_ne_absent (band_idle q)),
      bool_decide_eq_true_2; [done|set_solver..]. }
  apply remove_from_None in En.
  destruct (remove_from id (band_high q)) eqn:Eh.
  { apply remove_from_Some in Eh as [Hin ->]; [|done]. unfold_bands.
    rewrite (filter_ne_absent (band_normal q)), (filter_ne_absent (band_idle q)),
      bool_decide_eq_true_2; [done|set_solver..]. }
  apply remove_from_None in Eh. unfold_bands.
  rewrite !filter_ne_absent, bool_decide_eq_false_2; [done|set_solver..].
Qed.

(** ** Operation sequences *)

Inductive op := OPush (id : ThreadId) (p : Priority) | OPop | OSteal | ORemove (id : ThreadId).
Inductive reply := RUnit | RId (id : option ThreadId) | RBool (b : bool).

Definition exec (q : t) (o : op) : reply * t :=
  match o with
  | OPush id p => (RUnit, push q id p)
  | OPop => let '(r, q') := pop q in (RId r, q')
  | OSteal => let '(r, q') := steal q in (RId r, q')
  | ORemove id => let '(b, q') := remove q id in (RBool b, q')
  end.

Definition spec_exec (l : list (ThreadId * Priority)) (o : op) :=
  match o with
  | OPush id p => (RUnit, spec_push l id p)
  | OPop => let '(r, l') := spec_pop l in (RId r, l')
  | OSteal => let '(r, l') := spec_steal l in (RId r, l')
  | ORemove id => let '(b, l') := spec_remove l id in (RBool b, l')
  end.

Fixpoint exec_all {S} (f : S → op → reply * S) (s : S) (os : list op) : list reply * S :=
  match os with
  | [] => ([], s)
  | o :: os' =>
      let '(r, s') := f s o in
      let '(rs, s'') := exec_all f s' os' in (r :: rs, s'')
  end.

Lemma exec_refines q o :
  wf q → spec_exec (contents q) o = ((exec q o).1, contents (exec q o).2).
Proof.
  intros Hwf. destruct o; cbn [spec_exec exec fst snd].
  - by rewrite push_contents.
  - rewrite pop_contents. by destruct (pop q).
  - rewrite steal_contents. by destruct (steal q).
  - rewrite remove_contents by done. by destruct (remove q id).
Qed.

Lemma at_least_below_perm p l : at_least p l ++ below p l ≡ₚ l.
Proof.
  unfold at_least, below.
  rewrite <- (filter_app_complement (λ e : ThreadId * Priority, (band p ≤ band e.2)%nat) l) at 3.
  apply Permutation_app_head. apply reflexive_eq, list_filter_iff. intros; lia.
Qed.

Lemma spec_push_perm l id p :
  id ∉ ids l → ids (spec_push l id p) ≡ₚ id :: ids l.
Proof.
  intros H. unfold spec_push. rewrite decide_False by done.
  rewrite <- (at_least_below_perm p l) at 3. rewrite !ids_app. simpl.
  by rewrite <- Permutation_middle.
Qed.

Lemma spec_steal_perm l id l' :
  spec_steal l = (Some id, l') → ids l ≡ₚ id :: ids l'.
Proof.
  unfold spec_steal. destruct l as [|e l0] eqn:El; [done|]. rewrite <- El. clear El l0.
  destruct (pop_back _) as [[i b]|] eqn:E; [|done]. intros [= <- <-].
  apply pop_back_Some in E.
  rewrite ids_app, ids_entries. rewrite <- (at_least_below_perm e.2 l) at 1.
  rewrite ids_app, E, <- app_assoc. symmetry. apply Permutation_middle.
Qed.

(** What taking an entry out, or failing to, does to the queued ids. *)
Definition ids_after (taken : option ThreadId) (before after : t) : Prop :=
  match taken with
  | Some id => ids (contents before) ≡ₚ id :: ids (contents after)
  | None => contents after = contents before
  end.

Lemma push_ids q id p :
  ids (contents (push q id p)) ≡ₚ
    (if contains q id then ids (contents q) else id :: ids (contents q)).
Proof.
  rewrite push_contents. destruct (contains q id) eqn:E.
  - apply contains_spec in E. unfold spec_push. by rewrite decide_True.
  - apply contains_false in E. by apply spec_push_perm.
Qed.

Lemma pop_ids q : ids_after (pop q).1 q (pop q).2.
Proof.
  pose proof (pop_contents q) as Hp. unfold ids_after.
  destruct (pop q) as [r q']. cbn [fst snd] in *.
  destruct (contents q) as [|e l]; simpl in Hp; injection Hp as <- <-; [done|].
  reflexivity.
Qed.

Lemma spec_steal_None l l' : spec_steal l = (None, l') → l' = l.
Proof.
  unfold spec_steal. destruct l as [|e l0]; [by intros [=]|].
  destruct (pop_back _) as [[i b]|] eqn:Ep; [done|]. by intros [=].
Qed.

Lemma steal_ids q : ids_after (steal q).1 q (steal q).2.
Proof.
  pose proof (steal_contents q) as Hp. unfold ids_after.
  destruct (steal q) as [[id|] q']; cbn [fst snd] in *.
  - by apply spec_steal_perm.
  - by apply spec_steal_None in Hp.
Qed.

Lemma spec_remove_perm l id :
  NoDup (ids l) → id ∈ ids l → ids l ≡ₚ id :: ids (spec_remove l id).2.
Proof.
  intros Hwf Hin. cbn [spec_remove snd].
  apply list_elem_of_fmap in Hin as ([id' p'] & -> & Hin). cbn [fst].
  apply list_elem_of_split in Hin as (l1 & l2 & ->).
  rewrite ids_app in Hwf. simpl in Hwf.
  apply NoDup_app in Hwf as (_ & Hd & [Hn _]%NoDup_cons).
  rewrite filter_app, filter_cons_False by (simpl; tauto).
  rewrite !ids_app. simpl. rewrite <- Permutation_middle. apply perm_skip.
  rewrite !filter_all; [done|..]; apply Forall_forall; intros x Hx Heq.
  - apply Hn. rewrite <- Heq. by apply list_elem_of_fmap_2.
  - apply (Hd id'); [|left]. rewrite <- Heq. by apply list_elem_of_fmap_2.
Qed.

Lemma remove_ids q id :
  wf q → ids_after (if (remove q id).1 then Some id else None) q (remove q id).2.
Proof.
  intros Hwf. pose proof (remove_contents q id Hwf) as Hp. unfold ids_after.
  destruct (remove q id) as [b q']; cbn [fst snd] in *.
  injection Hp as <- Hl. case_bool_decide as Hin; rewrite <- Hl.
  - apply (spec_remove_perm (contents q) id Hwf Hin).
  - apply filter_all, Forall_forall. intros x Hx <-.
    apply Hin. by apply list_elem_of_fmap_2.
Qed.

Lemma ids_after_wf o q q' : ids_after o q q' → wf q → wf q'.
Proof.
  unfold ids_after, wf. destruct o.
  - intros -> H. by apply NoDup_cons in H as [_ ?].
  - by intros ->.
Qed.

Lemma push_wf q id p : wf q → wf (push q id p).
Proof.
  unfold wf. intros Hwf. rewrite push_ids. destruct (contains q id) eqn:E; [done|].
  apply contains_false in E. by constructor.
Qed.

Lemma exec_wf q o : wf q → wf (exec q o).2.
Proof.
  intros Hwf. destruct o as [id p| | |id]; cbn [exec].
  - by apply push_wf.
  - pose proof (pop_ids q). destruct (pop q). by eapply ids_after_wf.
  - pose proof (steal_ids q). destruct (steal q). by eapply ids_after_wf.
  - pose proof (remove_ids q id Hwf). destruct (remove q id). by eapply ids_after_wf.
Qed.

Lemma new_wf : wf new.
Proof. constructor. Qed.

Lemma exec_all_refines os q :
  wf q →
  wf (exec_all exec q os).2 ∧
  exec_all spec_exec (contents q) os =
    ((exec_all exec q os).1, contents (exec_all exec q os).2).
Proof.
  revert q. induction os as [|o os IH]; intros q Hwf; simpl; [done|].
  rewrite exec_refines by done. pose proof (exec_wf q o Hwf) as Hwf'.
  destruct (exec q o) as [r q']. simpl in *.
  destruct (IH q' Hwf') as [Hw ->]. by destruct (exec_all exec q' os).
Qed.

(** ** Service order *)

(** [n] consecutive pops. *)
Fixpoint pops (n : nat) (q : t) : list ThreadId * t :=
  match n with
  | O => ([], q)
  | S n' =>
      match pop q with
      | (Some id, q') => let '(l, q'') := pops n' q' in (id :: l, q'')
      | (None, q') => ([], q')
      end
  end.

Lemma pops_contents n q :
  (pops n q).1 = take n (ids (contents q)) ∧
  contents (pops n q).2 = drop n (contents q).
Proof.
  revert q. induction n as [|n IH]; intros q; simpl; [by rewrite drop_0|].
  pose proof (pop_contents q) as Hp.
  destruct (pop q) as [[id|] q'].
  - destruct (contents q) as [|e l]; [done|]. injection Hp as He Hl.
    destruct (IH q') as [H1 H2]. destruct (pops n q') as [l' q''].
    cbn [fst snd] in *. rewrite H1, H2, <- Hl, <- He. done.
  - destruct (contents q) as [|e l]; [|done]. injection Hp as Hp. cbn [fst snd]. by rewrite <- Hp.
Qed.

(** *** Properties *)

(** C37: every sequence of [push], [pop], [steal] and [remove] calls on a
    new run queue replies exactly as the abstract priority list does, and
    leaves the bands holding the abstract list: [push] refuses a queued id
    and otherwise inserts behind everything of its own or a higher priority,
    [pop] takes the head, [steal] the last of the leading band, [remove]
    deletes the id wherever it is. *)
Theorem run_queue_refines_priority_list (os : list op) :
  exec_all spec_exec [] os =
    ((exec_all exec new os).1, contents (exec_all exec new os).2).
Proof. apply (exec_all_refines os new new_wf). Qed.

(** a thread handed out by [pop] or [steal] after any history of calls
    is no longer queued, and no thread is ever queued twice: one id cannot
    be handed to two CPUs. *)
Theorem dispatch_removes_the_thread (os : list op) (o : op) (id : ThreadId) :
  o = OPop ∨ o = OSteal →
  (exec (exec_all exec new os).2 o).1 = RId (Some id) →
  contains (exec_all exec new os).2 id = true ∧
  contains (exec (exec_all exec new os).2 o).2 id = false ∧
  NoDup (ids (contents (exec (exec_all exec new os).2 o).2)).
Proof.
  intros Ho Hr. destruct (exec_all_refines os new new_wf) as [Hwf _].
  set (q := (exec_all exec new os).2) in *.
  assert (ids_after (Some id) q (exec q o).2) as Hperm.
  { destruct Ho as [-> | ->]; cbn [exec] in *.
    - pose proof (pop_ids q). destruct (pop q). by injection Hr as ->.
    - pose proof (steal_ids q). destruct (steal q). by injection Hr as ->. }
  rewrite contains_spec, contains_false. unfold wf in Hwf. cbn in Hperm.
  rewrite Hperm in Hwf |- *. apply NoDup_cons in Hwf as [Hn Hd]. split; [left|done].
Qed.

Lemma dispatch_removes_the_thread_witness :
  contains (exec_all exec new [OPush 7 Normal; OPush 9 High]).2 9 = true ∧
  contains (exec (exec_all exec new [OPush 7 Normal; OPush 9 High]).2 OPop).2 9 = false ∧
  NoDup (ids (contents (exec (exec_all exec new [OPush 7 Normal; OPush 9 High]).2 OPop).2)).
Proof.
  apply dispatch_removes_the_thread; [left; reflexivity|reflexivity].
Defined.

(** service is strict priority, then first in first out: popping [n]
    times returns the first [n] queued threads of the high, then the normal,
    then the idle band, each in arrival order, so a thread with [k] threads
    ahead of it is dispatched by the pop number [k + 1]. *)
Theorem pops_serve_in_order (q : t) (n : nat) :
  (pops n q).1 = take n (band_high q ++ band_normal q ++ band_idle q).
Proof. rewrite <- ids_contents. apply pops_contents. Qed.

End RunQueue.

Module Park.

Record ParkState := mkPark { parked : bool; pending : bool }.

(** [#[derive(Default)]]. *)
Definition default_state : ParkState := mkPark false false.

Inductive ParkOutcome := Parked | Cancelled.
Inductive WakeOutcome := Runnable | Noted.

#[export] Instance ParkOutcome_eq_dec : EqDecision ParkOutcome.
Proof. solve_decision. Defined.
#[export] Instance WakeOutcome_eq_dec : EqDecision WakeOutcome.
Proof. solve_decision. Defined.

Definition park (s : ParkState) : ParkOutcome * ParkState :=
  if pending s then (Cancelled, mkPark (parked s) false)
  else (Parked, mkPark true (pending s)).

Definition wake (s : ParkState) : WakeOutcome * ParkState :=
  if parked s then (Runnable, mkPark false (pending s))
  else (Noted, mkPark (parked s) true).

Definition is_parked (s : ParkState) : bool := parked s.
Definition has_pending (s : ParkState) : bool := pending s.

Inductive ExitDisposition := HaltAndWait | NothingLeft.

Definition exit_disposition (anything_else_alive : bool) : ExitDisposition :=
  if anything_else_alive then HaltAndWait else NothingLeft.

(** ** Histories

    [park] is called by the thread itself, so only while it is not parked;
    [wake] may come at any time from any processor. *)
Inductive event := EPark (o : ParkOutcome) | EWake (o : WakeOutcome).

#[export] Instance event_eq_dec : EqDecision event.
Proof. solve_decision. Defined.

Inductive step : ParkState → event → ParkState → Prop :=
  | step_park s : parked s = false → step s (EPark (park s).1) (park s).2
  | step_wake s : step s (EWake (wake s).1) (wake s).2.

Definition count (e : event) (tr : list event) : nat := length (filter (.= e) tr).

Lemma count_app e l k : count e (l ++ k) = (count e l + count e k)%nat.
Proof. unfold count. by rewrite filter_app, length_app. Qed.

Lemma count_cons e x l :
  count e (x :: l) = ((if decide (x = e) then 1 else 0) + count e l)%nat.
Proof.
  unfold count. destruct (decide (x = e)).
  - by rewrite filter_cons_True.
  - by rewrite filter_cons_False.
Qed.

Lemma step_counts s e s' :
  step s e s' →
  (Nat.b2n (parked s) + count (EPark Parked) [e] =
   Nat.b2n (parked s') + count (EWake Runnable) [e])%nat.
Proof. intros [[[] []] Hp|[[] []]]; done. Qed.

Lemma run_counts s tr s' :
  run step s tr s' →
  (Nat.b2n (parked s) + count (EPark Parked) tr =
   Nat.b2n (parked s') + count (EWake Runnable) tr)%nat.
Proof.
  induction 1 as [s|s e s' tr s'' Hs _ IH]; [done|].
  apply step_counts in Hs.
  change (e :: tr) with ([e] ++ tr). rewrite !count_app. lia.
Qed.

(** [n] wakeups in a row. *)
Fixpoint wakes (n : nat) (s : ParkState) : ParkState :=
  match n with O => s | S n' => wakes n' (wake s).2 end.

Lemma wakes_unparked n s :
  parked s = false → wakes n s = mkPark false (pending s || negb (Nat.eqb n 0)).
Proof.
  revert s. induction n as [|n IH]; intros [p q] Hp; simpl in *; subst.
  - by rewrite orb_false_r.
  - unfold wake. simpl. rewrite IH by done. simpl. by rewrite orb_true_r.
Qed.

(** *** Properties *)

(** over any history of one thread, [wake] answers [Runnable] exactly
    once for each completed park: the numbers of [Parked] and [Runnable]
    answers agree, except for the one park the thread is in. A caller that
    queues the thread on [Runnable] alone never queues a running thread and
    never queues a parked one twice. *)
Theorem runnable_once_per_park (tr : list event) (s : ParkState) :
  run step default_state tr s →
  count (EPark Parked) tr =
    (count (EWake Runnable) tr + (if is_parked s then 1 else 0))%nat.
Proof.
  intros H%run_counts. unfold is_parked. destruct (parked s); simpl in H; lia.
Qed.

Lemma runnable_once_per_park_witness :
  count (EPark Parked) [EWake Noted; EPark Cancelled; EPark Parked; EWake Runnable] =
    (count (EWake Runnable) [EWake Noted; EPark Cancelled; EPark Parked; EWake Runnable] +
     (if is_parked (mkPark false false) then 1 else 0))%nat.
Proof.
  apply runnable_once_per_park.
  apply (run_cons _ _ (EWake Noted) (mkPark false true)); [apply step_wake|].
  apply (run_cons _ _ (EPark Cancelled) (mkPark false false)); [by apply step_park|].
  apply (run_cons _ _ (EPark Parked) (mkPark true false)); [by apply step_park|].
  apply (run_cons _ _ (EWake Runnable) (mkPark false false)); [apply step_wake|].
  apply run_nil.
Defined.

(** no wakeup is lost, and none is counted twice. After any history in
    which the thread is running, let it park and let [n] wakeups follow: it
    is left asleep only when the park succeeded and no wakeup came, and its
    next park is cancelled exactly when a wakeup came beyond the one that
    made it runnable. *)
Theorem no_lost_wakeup (tr : list event) (s : ParkState) (n : nat) :
  run step default_state tr s → is_parked s = false →
  let '(o, s') := park s in
  is_parked (wakes n s') = bool_decide (o = Parked ∧ n = 0%nat) ∧
  (is_parked (wakes n s') = false →
   (park (wakes n s')).1 =
     if decide (o = Parked ∧ (n ≤ 1)%nat ∨ o = Cancelled ∧ n = 0%nat)
     then Parked else Cancelled).
Proof.
  intros Hrun Hp. destruct s as [p q]. simpl in Hp. subst p. unfold is_parked.
  destruct q; cbn [park pending parked].
  - rewrite wakes_unparked by done. cbn [parked pending].
    split; [by rewrite bool_decide_eq_false_2 by naive_solver|]. intros _.
    destruct n; cbn [park pending Nat.eqb negb orb fst]; [by rewrite decide_True by naive_solver|].
    rewrite decide_False; [done|]. intros [[? _]|[_ ?]]; done.
  - destruct n as [|n]; cbn [wakes wake parked pending snd].
    { split; [by rewrite bool_decide_eq_true_2 by done|done]. }
    rewrite wakes_unparked by done. cbn [parked pending].
    split; [by rewrite bool_decide_eq_false_2 by naive_solver|]. intros _.
    destruct n; cbn [park pending Nat.eqb negb orb fst]; [by rewrite decide_True by (left; split; [done|lia])|].
    rewrite decide_False; [done|]. intros [[_ ?]|[? _]]; [lia|done].
Qed.

Lemma no_lost_wakeup_witness :
  is_parked (wakes 1 (mkPark true false)) = bool_decide (Parked = Parked ∧ 1%nat = 0%nat) ∧
  (is_parked (wakes 1 (mkPark true false)) = false →
   (park (wakes 1 (mkPark true false))).1 =
     if decide (Parked = Parked ∧ (1 ≤ 1)%nat ∨ Parked = Cancelled ∧ 1%nat = 0%nat)
     then Parked else Cancelled).
Proof.
  exact (no_lost_wakeup [] default_state 1 (run_nil step default_state) eq_refl).
Defined.

End Park.
