(* ===== verification/Abi.v ===== *)
(** The kernel/host and kernel/user contract: [crates/qunix-abi/src/lib.rs].

    Syscall numbers, error returns, open flags, seek origins, the records
    [stat] and [readdir] fill in, and the exit codes the test harness reads
    through QEMU's debug-exit port. *)
From S2P Require Import Prelude Bits.
From Stdlib Require Import Strings.Byte.

(** ** The debug-exit contract *)

Inductive ExitCode := Success | Failure.

(** [ExitCode as u32]. *)
Definition exit_code_value (c : ExitCode) : Z :=
  match c with Success => 16 | Failure => 17 end.

Definition HOST_STATUS_SUCCESS : Z := 33.
Definition HOST_STATUS_FAILURE : Z := 35.

(** QEMU exits with [(value << 1) | 1]. *)
Definition qemu_status (value : Z) : Z := Z.lor (Z.shiftl value 1) 1.

(** ** Syscall numbers *)

Inductive Sys :=
  | Exit | Write | Yield | GetPid | Open | Read | Close | Lseek | Readdir | Stat_.

(** [Sys as u64]. *)
Definition sys_number (s : Sys) : Z :=
  match s with
  | Exit => 0 | Write => 1 | Yield => 2 | GetPid => 3 | Open => 4
  | Read => 5 | Close => 6 | Lseek => 7 | Readdir => 8 | Stat_ => 9
  end.

(** [Sys::from_raw]. *)
Definition sys_from_raw (nr : Z) : option Sys :=
  match nr with
  | 0 => Some Exit
  | 1 => Some Write
  | 2 => Some Yield
  | 3 => Some GetPid
  | 4 => Some Open
  | 5 => Some Read
  | 6 => Some Close
  | 7 => Some Lseek
  | 8 => Some Readdir
  | 9 => Some Stat_
  | _ => None
  end.

(** ** Error returns *)

Inductive Errno :=
  | EOk | BadSyscall | BadAddress | BadArgument | NoEntry | NotDirectory
  | IsDirectory | BadDescriptor | NameTooLong | TooManyLinks | TooManyFiles
  | NotSupported.

#[export] Instance Errno_eq_dec : EqDecision Errno.
Proof. solve_decision. Defined.

(** [Errno as i64]. *)
Definition errno (e : Errno) : Z :=
  match e with
  | EOk => 0 | BadSyscall => -1 | BadAddress => -2 | BadArgument => -3
  | NoEntry => -4 | NotDirectory => -5 | IsDirectory => -6
  | BadDescriptor => -7 | NameTooLong => -8 | TooManyLinks => -9
  | TooManyFiles => -10 | NotSupported => -11
  end.

(** ** Open flags *)

(** [OpenFlags(u32)]. *)
Definition OpenFlags := Z.
Definition OPEN_READ : OpenFlags := 1.
Definition OPEN_WRITE : OpenFlags := 2.
Definition OPEN_KNOWN : Z := Z.lor OPEN_READ OPEN_WRITE.

Definition open_bits (f : OpenFlags) : Z := f.
Definition open_from_bits (bits : Z) : option OpenFlags :=
  if negb (Z.land bits (bitnot 32 OPEN_KNOWN) =? 0) then None else Some bits.
Definition is_readable (f : OpenFlags) : bool := negb (Z.land f OPEN_READ =? 0).
Definition is_writable (f : OpenFlags) : bool := negb (Z.land f OPEN_WRITE =? 0).

(** ** Seek origins *)

Inductive Whence := Set_ | Current | End_.

Definition whence_number (w : Whence) : Z :=
  match w with Set_ => 0 | Current => 1 | End_ => 2 end.
Definition whence_from_raw (raw : Z) : option Whence :=
  match raw with
  | 0 => Some Set_
  | 1 => Some Current
  | 2 => Some End_
  | _ => None
  end.

(** ** Records shared with userspace *)

(** The longest path component and the longest path, in bytes. *)
Definition NAME_MAX : Z := 248.
Definition PATH_MAX : Z := 4096.

Definition KIND_FILE : Z := 1.
Definition KIND_DIRECTORY : Z := 2.

Record Stat := mkStat { size : Z; inode : Z; kind : Z; mode : Z; links : Z }.
Record DirEntry := mkDirEntry
  { de_inode : Z; de_kind : Z; de_name_len : Z; de_name : list byte }.

(** ** Properties *)

Lemma sys_from_raw_number s : sys_from_raw (sys_number s) = Some s.
Proof. by destruct s. Qed.

Lemma sys_from_raw_Some nr s : sys_from_raw nr = Some s → nr = sys_number s.
Proof.
  unfold sys_from_raw. intros H.
  repeat match type of H with
  | match ?p with _ => _ end = _ => destruct p; simplify_eq
  end; reflexivity.
Qed.

Lemma land_bitnot_known bits :
  fits 32 bits → (Z.land bits (bitnot 32 OPEN_KNOWN) = 0 ↔ 0 ≤ bits ≤ 3).
Proof.
  intros Hb. change OPEN_KNOWN with (2 ^ 2 - 1).
  rewrite land_bitnot_align by (done || lia). destruct Hb.
  change (2 ^ 2) with 4. pose proof (Z.mod_pos_bound bits 4).
  split; intros; [lia|]. rewrite Z.mod_small; lia.
Qed.

(** the numbers a process passes decode to at most one meaning and back:
    [Sys::from_raw] and [Whence::from_raw] accept exactly the declared
    discriminants, [OpenFlags::from_bits] accepts exactly the words made of
    defined bits and keeps them, and the debug-exit values map to the host
    statuses the harness matches on. *)
Theorem abi_round_trips :
  (∀ nr s, sys_from_raw nr = Some s ↔ nr = sys_number s) ∧
  (∀ raw w, whence_from_raw raw = Some w ↔ raw = whence_number w) ∧
  (∀ bits, fits 32 bits →
     open_from_bits bits =
       if decide (bits ∈ [0; OPEN_READ; OPEN_WRITE; OPEN_KNOWN]) then Some bits else None) ∧
  qemu_status (exit_code_value Success) = HOST_STATUS_SUCCESS ∧
  qemu_status (exit_code_value Failure) = HOST_STATUS_FAILURE.
Proof.
  repeat split.
  - apply sys_from_raw_Some.
  - intros ->. apply sys_from_raw_number.
  - unfold whence_from_raw. intros H.
    repeat match type of H with
    | match ?p with _ => _ end = _ => destruct p; simplify_eq
    end; reflexivity.
  - intros ->. by destruct w.
  - intros bits Hb. unfold open_from_bits.
    assert (bits ∈ [0; OPEN_READ; OPEN_WRITE; OPEN_KNOWN] ↔ 0 ≤ bits ≤ 3) as Hin.
    { change [0; OPEN_READ; OPEN_WRITE; OPEN_KNOWN] with [0; 1; 2; 3].
      rewrite !elem_of_cons, elem_of_nil. lia. }
    destruct (Z.eqb_spec (Z.land bits (bitnot 32 OPEN_KNOWN)) 0) as [H|H];
      rewrite land_bitnot_known in H by done; simpl.
    + by rewrite decide_True by tauto.
    + by rewrite decide_False by tauto.
Qed.
