(* ===== verification/Vfs.v ===== *)
(** Path decomposition: [crates/qunix-vfs/src/path.rs], with the length
    bounds of [crates/qunix-abi].

    A [&str] is its list of UTF-8 bytes; [str::len] counts bytes and the
    separator [/] is one byte that no multi-byte sequence contains, so
    [str::split('/')] is a split of the byte list. *)
From S2P Require Import Prelude Bits Abi.
From Stdlib Require Import Strings.Byte.

Definition str := list byte.

Definition slash : byte := x2f.
Definition dot : byte := x2e.

Inductive Component :=
  | Current
  | Parent
  | Name (s : str).

Inductive PathError := Empty | TooLong | ComponentTooLong.

#[export] Instance Component_eq_dec : EqDecision Component.
Proof. solve_decision. Defined.
#[export] Instance PathError_eq_dec : EqDecision PathError.
Proof. solve_decision. Defined.

Record Path := mkPath { raw : str; absolute : bool }.

Definition len (s : str) : Z := Z.of_nat (length s).

(** [str::split(c)]: one segment more than there are separators. *)
Fixpoint split (c : byte) (s : str) : list str :=
  match s with
  | [] => [[]]
  | x :: s' =>
      if bool_decide (x = c) then [] :: split c s'
      else match split c s' with
           | [] => [[x]]
           | seg :: segs => (x :: seg) :: segs
           end
  end.

Definition starts_with (s : str) (c : byte) : bool :=
  match s with [] => false | x :: _ => bool_decide (x = c) end.

(** [Path::parse]. *)
Definition parse (s : str) : result Path PathError :=
  if len s =? 0 then Err Empty
  else if PATH_MAX <? len s then Err TooLong
  else if existsb (λ component, NAME_MAX <? len component) (split slash s)
       then Err ComponentTooLong
  else Ok (mkPath s (starts_with s slash)).

Definition is_absolute (p : Path) : bool := absolute p.

(** The [match] of [Path::components]. *)
Definition component_of (s : str) : Component :=
  if bool_decide (s = [dot]) then Current
  else if bool_decide (s = [dot; dot]) then Parent
  else Name s.

(** [Path::components]: [split], drop the empty segments, classify. *)
Definition components_of (s : str) : list Component :=
  component_of <$> filter (λ seg, seg ≠ []) (split slash s).
Definition components (p : Path) : list Component := components_of (raw p).

(** ** Lemmas on [split] *)

Lemma split_nonempty c s : split c s ≠ [].
Proof. destruct s as [|x s]; simpl; [done|]. case_bool_decide; [done|]. by destruct (split c s). Qed.

Lemma split_no_sep c s seg : seg ∈ split c s → c ∉ seg.
Proof.
  revert seg. induction s as [|x s IH]; simpl; intros seg.
  - intros ->%list_elem_of_singleton. apply not_elem_of_nil.
  - case_bool_decide as Hx.
    + intros [->|?]%elem_of_cons; [apply not_elem_of_nil|auto].
    + destruct (split c s) as [|g gs] eqn:E; [by apply split_nonempty in E|].
      intros [->|?]%elem_of_cons; [|apply IH; by right].
      apply not_elem_of_cons. split; [done|]. apply IH. left.
Qed.

Lemma split_absent c s : c ∉ s → split c s = [s].
Proof.
  induction s as [|x s IH]; simpl; [done|]. intros [Hx Hs]%not_elem_of_cons.
  rewrite bool_decide_eq_false_2 by done. by rewrite IH.
Qed.

Lemma split_app_sep c s u : split c (s ++ c :: u) = split c s ++ split c u.
Proof.
  induction s as [|x s IH]; simpl.
  - by rewrite bool_decide_eq_true_2.
  - rewrite IH. case_bool_decide; [done|].
    destruct (split c s) as [|g gs] eqn:E; [by apply split_nonempty in E|]. done.
Qed.

Lemma components_of_app s u :
  components_of (s ++ slash :: u) = components_of s ++ components_of u.
Proof.
  unfold components_of. by rewrite split_app_sep, filter_app, fmap_app.
Qed.

Lemma components_of_nil : components_of [] = [].
Proof. reflexivity. Qed.

(** ** Rendering *)

Definition render (c : Component) : str :=
  match c with Current => [dot] | Parent => [dot; dot] | Name s => s end.

(** A component that [components] can produce. *)
Definition valid (c : Component) : Prop :=
  match c with
  | Name s => s ≠ [] ∧ slash ∉ s ∧ s ≠ [dot] ∧ s ≠ [dot; dot]
  | _ => True
  end.

(** Components joined by [/], the way a caller builds a relative path. *)
Fixpoint join (cs : list Component) : str :=
  match cs with
  | [] => []
  | [c] => render c
  | c :: cs' => render c ++ (slash :: join cs')
  end.

Lemma component_of_valid s : s ≠ [] → slash ∉ s → valid (component_of s).
Proof.
  intros. unfold component_of. repeat case_bool_decide; simpl; [done..|]. done.
Qed.

Lemma render_component_of s : render (component_of s) = s.
Proof. unfold component_of. repeat case_bool_decide; by simplify_eq. Qed.

Lemma component_of_render c : valid c → component_of (render c) = c.
Proof.
  destruct c as [| |s]; [done..|]. intros (? & ? & ? & ?). unfold component_of. simpl.
  by rewrite !bool_decide_eq_false_2 by done.
Qed.

Lemma render_valid c : valid c → render c ≠ [] ∧ slash ∉ render c.
Proof.
  destruct c; simpl; [intros _..|tauto]; (split; [done|]);
    rewrite !not_elem_of_cons; repeat split; done || apply not_elem_of_nil.
Qed.

Lemma components_of_render c : valid c → components_of (render c) = [c].
Proof.
  intros Hc. destruct (render_valid c Hc). unfold components_of.
  rewrite split_absent by done. rewrite filter_cons_True by done.
  cbn. by rewrite component_of_render.
Qed.

(** ** Properties *)

(** [parse] accepts exactly the non-empty paths of at most [PATH_MAX]
    bytes whose every segment fits a directory entry, and records whether
    the path is absolute; the refusals are reported in the order empty, too
    long, component too long. *)
Theorem parse_classifies (s : str) :
  parse s =
    if decide (s = []) then Err Empty
    else if decide (PATH_MAX < len s) then Err TooLong
    else if decide (Exists (λ seg, NAME_MAX < len seg) (split slash s))
         then Err ComponentTooLong
    else Ok (mkPath s (bool_decide (head s = Some slash))).
Proof.
  unfold parse.
  destruct (decide (s = [])) as [->|Hs]; [done|].
  assert (len s =? 0 = false) as -> by (apply Z.eqb_neq; unfold len; destruct s; simpl; [done|lia]).
  destruct (decide (PATH_MAX < len s)) as [H|H];
    [by rewrite (proj2 (Z.ltb_lt _ _) H)|rewrite (proj2 (Z.ltb_ge _ _)) by lia].
  destruct (decide (Exists _ _)) as [He|He].
  - assert (existsb (λ c, NAME_MAX <? len c) (split slash s) = true) as ->; [|done].
    apply existsb_exists. apply Exists_exists in He as (x & ? & ?).
    exists x. split; [by apply list_elem_of_In|by apply Z.ltb_lt].
  - assert (existsb (λ c, NAME_MAX <? len c) (split slash s) = false) as ->.
    { apply not_true_iff_false. intros (x & Hx & Hl)%existsb_exists. apply He.
      apply Exists_exists. exists x. split; [by apply list_elem_of_In|by apply Z.ltb_lt]. }
    f_equal. f_equal. destruct s as [|x s]; [done|]. simpl.
    apply bool_decide_ext. split; [by intros ->|by intros [=]].
Qed.

(** every name a walker of an accepted path visits is non-empty, at
    most [NAME_MAX] bytes (the array a [DirEntry] copies it into), contains
    no separator, and is neither [.] nor [..]. *)
Theorem components_are_valid (s : str) (p : Path) (n : str) :
  parse s = Ok p → Name n ∈ components p →
  0 < len n ≤ NAME_MAX ∧ slash ∉ n ∧ n ≠ [dot] ∧ n ≠ [dot; dot].
Proof.
  intros Hp Hn. unfold parse in Hp.
  destruct (len s =? 0); [done|]. destruct (PATH_MAX <? len s); [done|].
  destruct (existsb _ _) eqn:He; [done|]. injection Hp as <-.
  apply list_elem_of_fmap in Hn as (seg & Hn & [Hne Hin]%list_elem_of_filter).
  pose proof (split_no_sep _ _ _ Hin) as Hsep.
  assert (len seg ≤ NAME_MAX).
  { destruct (Z.leb_spec (len seg) NAME_MAX) as [|Hgt]; [done|]. exfalso.
    apply not_true_iff_false in He. apply He. apply existsb_exists. exists seg.
    split; [by apply list_elem_of_In|by apply Z.ltb_lt]. }
  pose proof (render_component_of seg) as Hr. rewrite <- Hn in Hr. simpl in Hr. subst n.
  pose proof (component_of_valid seg Hne Hsep) as Hv. rewrite <- Hn in Hv.
  destruct Hv as (? & ? & ? & ?). split; [|done].
  split; [unfold len; destruct seg; simpl; [done|lia]|done].
Qed.

Lemma components_are_valid_witness :
  0 < len [x61] ≤ NAME_MAX ∧ slash ∉ [x61] ∧ [x61] ≠ [dot] ∧ [x61] ≠ [dot; dot].
Proof.
  apply (components_are_valid [slash; slash; x61; slash; dot]
           (mkPath [slash; slash; x61; slash; dot] true)); [reflexivity|].
  vm_compute. left.
Defined.

(** decomposition inverts joining: a path built by joining valid
    components with single separators, optionally with any number of further
    leading and trailing separators, decomposes into exactly those
    components, so repeated and trailing separators never reach a walker. *)
Theorem components_join (cs : list Component) (lead trail : nat) :
  Forall valid cs →
  components_of (replicate lead slash ++ join cs ++ replicate trail slash) = cs.
Proof.
  intros Hcs.
  assert (components_of (join cs) = cs) as Hjoin.
  { induction Hcs as [|c cs Hc Hcs IH]; [done|].
    destruct cs as [|c' cs']; [by apply components_of_render|].
    change (join (c :: c' :: cs')) with (render c ++ slash :: join (c' :: cs')).
    rewrite components_of_app, components_of_render, IH by done. done. }
  assert (∀ u, components_of (u ++ replicate trail slash) = components_of u) as Htrail.
  { induction trail as [|k IH]; intros u; simpl; [by rewrite app_nil_r|].
    rewrite components_of_app. rewrite <- (app_nil_l (replicate k slash)), IH.
    by rewrite components_of_nil, app_nil_r. }
  assert (∀ u, components_of (replicate lead slash ++ u) = components_of u) as Hlead.
  { induction lead as [|k IH]; intros u; simpl; [done|].
    change (slash :: replicate k slash ++ u) with ([] ++ slash :: (replicate k slash ++ u)).
    by rewrite components_of_app, IH. }
  by rewrite Hlead, Htrail.
Qed.

Lemma components_join_witness :
  components_of (replicate 2 slash ++ join [Name [x61]; Parent; Name [x62]] ++ replicate 1 slash)
    = [Name [x61]; Parent; Name [x62]].
Proof.
  apply components_join. repeat constructor; try discriminate; vm_compute; set_solver.
Defined.
