(* ===== verification/Syscall.v ===== *)
(** Syscall dispatch: [kernel/src/syscall.rs], with the user-address bounds
    of [kernel/src/vmspace.rs].

    A call runs in ring 0 on behalf of a process that may have passed
    anything.  The process's active address space is the third-party page
    table mapper, so it is a parameter: [translate va] is the physical
    address behind [va], and a load through an address it does not map is a
    page fault taken in ring 0, which panics the kernel. *)
From S2P Require Import Prelude Bits Abi.
From Stdlib Require Import Strings.Byte.

Definition USER_MAX : Z := 0x800000000000.
Definition USER_MIN : Z := 0x1000.
Definition MAX_WRITE : Z := 4096.

(** What a call does besides computing its return value. *)
Inductive effect :=
  | Print (c : Z)            (* [print!] of one [char], by code point *)
  | PrintExit (code : Z)
  | ActivateKernelRoot
  | ExitCurrent
  | YieldNow.

(** The active page tables and the physical bytes behind them. *)
Record AddressSpace := mkSpace
  { translate : Z → option Z;
    phys_byte : Z → byte }.

(** A mapping covers its whole 4 KiB page: [Translate::translate] returns a
    frame and the offset into it.  No 4 KiB page straddles two mappings. *)
Class PageGranular (sp : AddressSpace) : Prop :=
  page_granular : ∀ page off,
    page mod 4096 = 0 → 0 ≤ off < 4096 →
    is_Some (translate sp page) ↔ is_Some (translate sp (page + off)).

(** A ring-0 load. *)
Definition load (sp : AddressSpace) (va : Z) : outcome byte :=
  match translate sp va with
  | Some pa => Ret (phys_byte sp pa)
  | None => Panic
  end.

(** [copy_nonoverlapping]: [n] bytes from [va] up. *)
Fixpoint load_bytes (sp : AddressSpace) (va : Z) (n : nat) : outcome (list byte) :=
  match n with
  | O => Ret []
  | S n' => b ← load sp va; bs ← load_bytes sp (va + 1) n'; Ret (b :: bs)
  end.

(** [user_range_ok]. *)
Definition user_range_ok (ptr len : Z) : bool :=
  match checked_add 64 ptr len with
  | None => false
  | Some end_ => (ptr <? USER_MAX) && (end_ <=? USER_MAX)
  end.

(** The [while page < ptr + len] walk of [copy_user_slice]: [false] when a
    page is unmapped.  [fuel] is the number of pages the range can touch. *)
Fixpoint walk_pages (sp : AddressSpace) (fuel : nat) (page limit : Z) : bool :=
  match fuel with
  | O => true
  | S fuel' =>
      if page <? limit
      then match translate sp page with
           | Some _ => walk_pages sp fuel' (page + 4096) limit
           | None => false
           end
      else true
  end.

Definition pages_fuel (len : Z) : nat := Z.to_nat (len / 4096 + 2).

(** [copy_user_slice]. *)
Definition copy_user_slice (sp : AddressSpace) (ptr len : Z) : outcome (option (list byte)) :=
  if len =? 0 then Ret (Some [])
  else if negb (user_range_ok ptr len) then Ret None
  else
    let page := Z.land ptr (bitnot 64 0xfff) in
    if walk_pages sp (pages_fuel len) page (ptr + len)
    then out ← load_bytes sp ptr (Z.to_nat len); Ret (Some out)
    else Ret None.

(** [sys_write]: the effects and the [i64] result. *)
Definition sys_write (sp : AddressSpace) (ptr len : Z) : outcome (list effect * Z) :=
  if MAX_WRITE <? len then Ret ([], errno BadArgument)
  else
    r ← copy_user_slice sp ptr len;
    match r with
    | None => Ret ([], errno BadAddress)
    | Some bytes => Ret (map (λ b, Print (b2z b)) bytes, len)
    end.

(** [activate_kernel_root]: asserts that the boot root was recorded. *)
Definition activate_kernel_root (kernel_root : Z) : outcome (list effect) :=
  _ ← rust_assert (negb (kernel_root =? 0)); Ret [ActivateKernelRoot].

(** [handle]: [None] as the result is a call that does not return. *)
Definition handle (kernel_root current_id : Z) (sp : AddressSpace)
    (nr a0 a1 : Z) : outcome (list effect * option Z) :=
  match sys_from_raw nr with
  | None => Ret ([], Some (errno BadSyscall))
  | Some sys =>
      match sys with
      | Exit =>
          es ← activate_kernel_root kernel_root;
          Ret (PrintExit a0 :: es ++ [ExitCurrent], None)
      | Write => '(es, v) ← sys_write sp a0 a1; Ret (es, Some v)
      | Yield => Ret ([YieldNow], Some (errno EOk))
      | GetPid => Ret ([], Some current_id)
      | Open | Read | Close | Lseek | Readdir | Stat_ =>
          Ret ([], Some (errno NotSupported))
      end
  end.

(** ** Lemmas *)

Lemma user_range_ok_spec ptr len :
  0 ≤ ptr → 0 ≤ len →
  user_range_ok ptr len = true ↔ ptr < USER_MAX ∧ ptr + len ≤ USER_MAX.
Proof.
  intros. unfold user_range_ok.
  destruct (checked_add 64 ptr len) as [e|] eqn:E.
  - apply checked_add_Some in E as [-> _].
    rewrite andb_true_iff, Z.ltb_lt, Z.leb_le. done.
  - apply checked_add_None in E.
    split; [done|]. unfold USER_MAX. simpl in E. lia.
Qed.

(** Pages from [page] up to [limit] are mapped. *)
Definition mapped_from (sp : AddressSpace) (page limit : Z) : Prop :=
  ∀ k, 0 ≤ k → page + k * 4096 < limit → is_Some (translate sp (page + k * 4096)).

Lemma walk_pages_spec sp fuel page limit :
  limit ≤ page + Z.of_nat fuel * 4096 →
  walk_pages sp fuel page limit = true ↔ mapped_from sp page limit.
Proof.
  revert page. induction fuel as [|fuel IH]; intros page Hf; simpl.
  { split; [|done]. intros _ k Hk Hlt. lia. }
  destruct (Z.ltb_spec page limit) as [Hlt|Hge].
  2:{ split; [|done]. intros _ k Hk Hlt. lia. }
  destruct (translate sp page) as [pa|] eqn:E.
  - rewrite IH by lia. split.
    + intros H k Hk Hlt'. destruct (decide (k = 0)) as [->|].
      { rewrite Z.mul_0_l, Z.add_0_r, E. done. }
      replace (page + k * 4096) with (page + 4096 + (k - 1) * 4096) by lia.
      apply H; lia.
    + intros H k Hk Hlt'.
      replace (page + 4096 + k * 4096) with (page + (k + 1) * 4096) by lia.
      apply H; lia.
  - split; [done|]. intros H. specialize (H 0 ltac:(lia) ltac:(lia)).
    rewrite Z.mul_0_l, Z.add_0_r, E in H. by destruct H.
Qed.

Lemma page_base_spec ptr :
  fits 64 ptr → Z.land ptr (bitnot 64 0xfff) = ptr - ptr mod 4096.
Proof. intros. change 0xfff with (2 ^ 12 - 1). by rewrite land_bitnot_align. Qed.

Lemma load_bytes_ok sp va n :
  (∀ a, va ≤ a < va + Z.of_nat n → is_Some (translate sp a)) →
  ∃ bs, load_bytes sp va n = Ret bs ∧ length bs = n ∧
    ∀ i, (i < n)%nat → ∃ pa, translate sp (va + Z.of_nat i) = Some pa ∧
                            bs !! i = Some (phys_byte sp pa).
Proof.
  revert va. induction n as [|n IH]; intros va H; simpl.
  - exists []. repeat split. lia.
  - destruct (H va) as [pa Hpa]; [lia|]. unfold load. rewrite Hpa. simpl.
    destruct (IH (va + 1)) as (bs & -> & Hlen & Hbs); [intros; apply H; lia|].
    exists (phys_byte sp pa :: bs). simpl. repeat split; [lia|].
    intros [|i] Hi; simpl.
    + exists pa. by rewrite Z.add_0_r.
    + destruct (Hbs i) as (pa' & Hpa' & Hl); [lia|]. exists pa'.
      split; [|done]. rewrite <- Hpa'. f_equal. lia.
Qed.

Lemma mapped_range sp `{!PageGranular sp} ptr limit a :
  mapped_from sp (ptr - ptr mod 4096) limit → ptr ≤ a < limit → is_Some (translate sp a).
Proof.
  intros H Ha. pose proof (Z.mod_pos_bound ptr 4096 ltac:(lia)).
  pose proof (Z.mod_pos_bound a 4096 ltac:(lia)).
  pose proof (Z.div_mod ptr 4096 ltac:(lia)). pose proof (Z.div_mod a 4096 ltac:(lia)).
  replace a with (4096 * (a / 4096) + a mod 4096) by lia.
  assert (ptr / 4096 ≤ a / 4096) by (apply Z.div_le_mono; lia).
  apply (page_granular (4096 * (a / 4096)) (a mod 4096));
    [by rewrite Z.mul_comm, Z.mod_mul|done|].
  replace (4096 * (a / 4096))
    with (ptr - ptr mod 4096 + (a / 4096 - ptr / 4096) * 4096) by lia.
  apply H; lia.
Qed.

Lemma pages_fuel_enough ptr len :
  0 ≤ len → ptr + len ≤ ptr - ptr mod 4096 + Z.of_nat (pages_fuel len) * 4096.
Proof.
  intros. unfold pages_fuel. pose proof (Z.mod_pos_bound ptr 4096 ltac:(lia)).
  pose proof (Z.div_mod len 4096 ltac:(lia)). pose proof (Z.mod_pos_bound len 4096 ltac:(lia)).
  assert (0 ≤ len / 4096) by (apply Z.div_pos; lia). lia.
Qed.

(** The buffer a process may name: in the lower half and mapped throughout. *)
Definition readable (sp : AddressSpace) (ptr len : Z) : Prop :=
  len = 0 ∨ ptr + len ≤ USER_MAX ∧ ∀ a, ptr ≤ a < ptr + len → is_Some (translate sp a).

Lemma readable_mapped_from sp `{!PageGranular sp} ptr len :
  0 < len → fits 64 ptr →
  mapped_from sp (ptr - ptr mod 4096) (ptr + len) ↔
  (∀ a, ptr ≤ a < ptr + len → is_Some (translate sp a)).
Proof.
  intros Hlen [Hp _]. split; [intros; by eapply mapped_range|].
  intros H k Hk Hlt. pose proof (Z.mod_pos_bound ptr 4096 ltac:(lia)).
  pose proof (Z.div_mod ptr 4096 ltac:(lia)).
  assert ((ptr - ptr mod 4096 + k * 4096) mod 4096 = 0) as Hm.
  { replace (ptr - ptr mod 4096 + k * 4096) with ((ptr / 4096 + k) * 4096) by lia.
    apply Z.mod_mul. lia. }
  destruct (decide (k = 0)) as [->|].
  - apply (page_granular _ (ptr mod 4096)); [done|lia|]. apply H. lia.
  - apply (page_granular _ 0); [done|lia|]. apply H. lia.
Qed.

Lemma copy_user_slice_ok sp `{!PageGranular sp} ptr len :
  fits 64 ptr → 0 ≤ len → readable sp ptr len →
  ∃ bs, copy_user_slice sp ptr len = Ret (Some bs) ∧ length bs = Z.to_nat len ∧
    ∀ i, (i < Z.to_nat len)%nat → ∃ pa, translate sp (ptr + Z.of_nat i) = Some pa ∧
                                       bs !! i = Some (phys_byte sp pa).
Proof.
  intros Hp Hlen Hr. unfold copy_user_slice.
  destruct (Z.eqb_spec len 0) as [->|Hne].
  { exists []. split; [done|]. split; [done|]. intros i Hi. simpl in Hi. lia. }
  destruct Hr as [|[Hmax Hr]]; [done|]. destruct Hp as [Hp0 Hp1].
  rewrite (proj2 (user_range_ok_spec ptr len ltac:(lia) ltac:(lia))) by lia. simpl negb.
  cbv beta iota. rewrite page_base_spec by done.
  rewrite (proj2 (walk_pages_spec sp (pages_fuel len) _ _ (pages_fuel_enough ptr len Hlen))).
  2:{ by apply (proj2 (readable_mapped_from sp ptr len ltac:(lia) (conj Hp0 Hp1))). }
  destruct (load_bytes_ok sp ptr (Z.to_nat len)) as (bs & -> & Hbs).
  { intros a Ha. apply Hr. lia. }
  exists bs. split; [done|exact Hbs].
Qed.

Lemma copy_user_slice_refuses sp `{!PageGranular sp} ptr len :
  fits 64 ptr → 0 ≤ len → ¬ readable sp ptr len →
  copy_user_slice sp ptr len = Ret None.
Proof.
  intros Hp Hlen Hr. unfold copy_user_slice, readable in *.
  destruct (Z.eqb_spec len 0) as [->|Hne]; [tauto|].
  destruct (user_range_ok ptr len) eqn:Hok; [|done]. simpl negb. cbv beta iota.
  destruct Hp as [Hp0 Hp1]. apply user_range_ok_spec in Hok as [_ Hmax]; [|lia..].
  rewrite page_base_spec by done.
  destruct (walk_pages _ _ _ _) eqn:Hw; [|done].
  apply walk_pages_spec in Hw; [|by apply pages_fuel_enough].
  pose proof (proj1 (readable_mapped_from sp ptr len ltac:(lia) (conj Hp0 Hp1)) Hw). tauto.
Qed.

(** [translate] is a function of a finite table here, so readability is
    decided by the walk the code itself makes. *)
Definition readableb (sp : AddressSpace) (ptr len : Z) : bool :=
  (len =? 0) ||
  ((ptr + len <=? USER_MAX) &&
   forallb (λ i, match translate sp (ptr + Z.of_nat i) with Some _ => true | None => false end)
     (seq 0 (Z.to_nat len))).

Lemma readableb_spec sp ptr len :
  0 ≤ len → readableb sp ptr len = true ↔ readable sp ptr len.
Proof.
  intros Hlen. unfold readableb, readable.
  rewrite orb_true_iff, Z.eqb_eq, andb_true_iff, Z.leb_le, forallb_forall.
  assert ((∀ x : nat, In x (seq 0 (Z.to_nat len)) →
            match translate sp (ptr + Z.of_nat x) with Some _ => true | None => false end = true)
          ↔ (∀ a, ptr ≤ a < ptr + len → is_Some (translate sp a))) as ->; [|done].
  split.
  - intros H a Ha. specialize (H (Z.to_nat (a - ptr))).
    rewrite in_seq in H. specialize (H ltac:(lia)).
    replace (ptr + Z.of_nat (Z.to_nat (a - ptr))) with a in H by lia.
    by destruct (translate sp a).
  - intros H x Hx%in_seq. destruct (H (ptr + Z.of_nat x)) as [? ->]; [lia|done].
Qed.

(** ** Properties *)

(** A page-granular address space with one user page, mapped at its second
    frame and holding the letter A throughout. *)
Definition one_page : AddressSpace :=
  mkSpace (λ va, if (0x1000 <=? va) && (va <? 0x2000) then Some (va + 0x1000) else None)
          (λ _, x41).

#[export] Instance one_page_granular : PageGranular one_page.
Proof.
  intros page off Hp Hoff. cbn [translate one_page].
  assert ((0x1000 <=? page) && (page <? 0x2000) =
          (0x1000 <=? page + off) && (page + off <? 0x2000)) as ->; [|].
  { apply Z.mod_divide in Hp as [q ->]; [|lia].
    apply eq_true_iff_eq. rewrite !andb_true_iff, !Z.leb_le, !Z.ltb_lt. lia. }
  by destruct ((0x1000 <=? page + off) && (page + off <? 0x2000)).
Qed.

(** no process can panic the kernel through a syscall: for every number
    and every argument the dispatcher returns, or exits the calling thread,
    without a page fault in ring 0 and without tripping an assert. *)
Theorem handle_never_panics (kernel_root current_id : Z) (sp : AddressSpace)
    (Hg : PageGranular sp) (nr a0 a1 : Z) :
  kernel_root ≠ 0 → fits 64 a0 → fits 64 a1 →
  ∃ es r, handle kernel_root current_id sp nr a0 a1 = Ret (es, r) ∧
          (r = None ↔ nr = sys_number Exit).
Proof.
  intros Hk [Ha0 Ha0'] [Ha1 Ha1']. unfold handle.
  destruct (sys_from_raw nr) as [sys|] eqn:E.
  2:{ exists [], (Some (errno BadSyscall)). split; [done|].
      split; [done|]. intros ->. done. }
  apply sys_from_raw_Some in E as ->.
  destruct sys; try (eexists _, _; split; [reflexivity|]; split; done).
  - unfold activate_kernel_root.
    rewrite (proj2 (Z.eqb_neq kernel_root 0)) by done. simpl.
    eexists _, _. split; [reflexivity|]. done.
  - unfold sys_write. destruct (Z.ltb_spec MAX_WRITE a1); simpl.
    { eexists _, _. split; [reflexivity|]. done. }
    destruct (readableb sp a0 a1) eqn:Hr.
    + apply readableb_spec in Hr; [|lia].
      destruct (copy_user_slice_ok sp a0 a1) as (bs & -> & _); [done..|]. simpl.
      eexists _, _. split; [reflexivity|]. done.
    + rewrite copy_user_slice_refuses; [|done..|].
      2:{ rewrite <- readableb_spec by lia. by rewrite Hr. }
      simpl. eexists _, _. split; [reflexivity|]. done.
Qed.

Lemma handle_never_panics_witness :
  ∃ es r, handle 1 7 one_page 1 0x1ffe 4 = Ret (es, r) ∧ (r = None ↔ 1 = sys_number Exit).
Proof.
  apply (handle_never_panics 1 7 one_page one_page_granular); [done|vm_compute; split; done..].
Defined.

(** [write] prints exactly the bytes of the caller's buffer and returns
    its length when the whole buffer lies below [USER_MAX] and is mapped; it
    refuses a longer buffer than [MAX_WRITE] with [BadArgument], and any
    other buffer with [BadAddress], printing nothing. *)
Theorem sys_write_spec (sp : AddressSpace) (Hg : PageGranular sp) (ptr len : Z) :
  fits 64 ptr → fits 64 len →
  (MAX_WRITE < len → sys_write sp ptr len = Ret ([], errno BadArgument)) ∧
  (len ≤ MAX_WRITE → ¬ readable sp ptr len →
     sys_write sp ptr len = Ret ([], errno BadAddress)) ∧
  (len ≤ MAX_WRITE → readable sp ptr len →
     ∃ bs, sys_write sp ptr len = Ret (map (λ b, Print (b2z b)) bs, len) ∧
       Z.of_nat (length bs) = len ∧
       ∀ i, (i < length bs)%nat → ∃ pa, translate sp (ptr + Z.of_nat i) = Some pa ∧
                                       bs !! i = Some (phys_byte sp pa)).
Proof.
  intros Hp [Hl0 Hl1]. unfold sys_write. split; [|split].
  - intros H. by rewrite (proj2 (Z.ltb_lt _ _) H).
  - intros H Hr. rewrite (proj2 (Z.ltb_ge _ _) H).
    by rewrite copy_user_slice_refuses.
  - intros H Hr. rewrite (proj2 (Z.ltb_ge _ _) H).
    destruct (copy_user_slice_ok sp ptr len Hp Hl0 Hr) as (bs & -> & Hlen & Hbs).
    exists bs. rewrite Hlen. split; [done|]. split; [lia|done].
Qed.

Lemma sys_write_spec_witness :
  sys_write one_page 0x1ffe 4 = Ret ([], errno BadAddress).
Proof.
  refine (proj1 (proj2 (sys_write_spec one_page one_page_granular 0x1ffe 4 _ _)) _ _);
    [vm_compute; split; done..|done|].
  intros Hr%readableb_spec; [|lia]. vm_compute in Hr. discriminate.
Defined.
