(* ===== verification/Elf.v ===== *)
(** The ELF64 parser: [crates/qunix-elf/src/lib.rs].

    The input is any byte string; the parser's job is to refuse or to hand
    out segments that can be loaded without further checks.  Every slice and
    every unchecked sum of the source is kept as an operation that can
    panic, so that "never panics" is a statement about the checks. *)
From S2P Require Import Prelude Bits.
From Stdlib Require Import Strings.Byte.

Inductive ElfError :=
  | TooShort | BadMagic | NotElf64 | NotX86_64 | NotExecutable
  | BadProgramHeader | SegmentTooLarge.

#[export] Instance ElfError_eq_dec : EqDecision ElfError.
Proof. solve_decision. Defined.

Definition ELF_MAGIC : list byte := [x7f; x45; x4c; x46].
Definition ELFCLASS64 : Z := 2.
Definition ELFDATA2LSB : Z := 1.
Definition EV_CURRENT : Z := 1.
Definition ET_EXEC : Z := 2.
Definition EM_X86_64 : Z := 62.
Definition PT_LOAD : Z := 1.
Definition PF_X : Z := 1.
Definition PF_W : Z := 2.

(** [mod ehdr] and [mod phdr]. *)
Definition ehdr_TYPE : Z := 16.
Definition ehdr_MACHINE : Z := 18.
Definition ehdr_ENTRY : Z := 24.
Definition ehdr_PHOFF : Z := 32.
Definition ehdr_PHENTSIZE : Z := 54.
Definition ehdr_PHNUM : Z := 56.
Definition ehdr_SIZE : Z := 64.
Definition phdr_TYPE : Z := 0.
Definition phdr_FLAGS : Z := 4.
Definition phdr_OFFSET : Z := 8.
Definition phdr_VADDR : Z := 16.
Definition phdr_FILESZ : Z := 32.
Definition phdr_MEMSZ : Z := 40.
Definition phdr_SIZE : Z := 56.

Record Segment := mkSegment
  { vaddr : Z; mem_size : Z; data : list byte; writable : bool; executable : bool }.

(** [Segment::zero_fill]. *)
Definition zero_fill (s : Segment) : Z :=
  saturating_sub (mem_size s) (Z.of_nat (length (data s))).

Record Elf64 := mkElf
  { bytes : list byte; entry : Z; phoff : Z; phentsize : Z; phnum : Z }.

(** [read_u16], [read_u32], [read_u64]: [n] bytes at [at], little-endian. *)
Definition read_le (n : nat) (b : list byte) (at_ : Z) : outcome Z :=
  s ← slice b at_ (at_ + Z.of_nat n);
  Ret (from_le_bytes s).
Definition read_u16 := read_le 2.
Definition read_u32 := read_le 4.
Definition read_u64 := read_le 8.

(** [Elf64::header]. *)
Definition header (e : Elf64) (index : Z) : outcome (list byte) :=
  off ← mul_chk 64 index (phentsize e);
  start ← add_chk 64 (phoff e) off;
  stop ← add_chk 64 start phdr_SIZE;
  slice (bytes e) start stop.

(** [Elf64::validate_segment]; the [try_into]s to [usize] cannot fail. *)
Definition validate_segment (e : Elf64) (index : Z) : outcome (result unit ElfError) :=
  h ← header e index;
  ty ← read_u32 h phdr_TYPE;
  if negb (ty =? PT_LOAD) then Ret (Ok tt) else
  offset ← read_u64 h phdr_OFFSET;
  filesz ← read_u64 h phdr_FILESZ;
  memsz ← read_u64 h phdr_MEMSZ;
  if memsz <? filesz then Ret (Err SegmentTooLarge) else
  match checked_add 64 offset filesz with
  | None => Ret (Err BadProgramHeader)
  | Some stop =>
      if Z.of_nat (length (bytes e)) <? stop then Ret (Err BadProgramHeader) else
      va ← read_u64 h phdr_VADDR;
      match checked_add 64 va memsz with
      | None => Ret (Err BadProgramHeader)
      | Some _ => Ret (Ok tt)
      end
  end.

(** [for index in 0..phnum { elf.validate_segment(index)?; }] *)
Fixpoint validate_from (e : Elf64) (index : Z) (n : nat) : outcome (result unit ElfError) :=
  match n with
  | O => Ret (Ok tt)
  | S n' =>
      r ← validate_segment e index;
      match r with
      | Err x => Ret (Err x)
      | Ok _ => validate_from e (index + 1) n'
      end
  end.

(** [Elf64::parse]. *)
Definition parse (b : list byte) : outcome (result Elf64 ElfError) :=
  if Z.of_nat (length b) <? ehdr_SIZE then Ret (Err TooShort) else
  magic ← slice b 0 4;
  if bool_decide (magic ≠ ELF_MAGIC) then Ret (Err BadMagic) else
  class ← index b 4;
  endian ← index b 5;
  version ← index b 6;
  if negb (b2z class =? ELFCLASS64) || negb (b2z endian =? ELFDATA2LSB)
     || negb (b2z version =? EV_CURRENT) then Ret (Err NotElf64) else
  machine ← read_u16 b ehdr_MACHINE;
  if negb (machine =? EM_X86_64) then Ret (Err NotX86_64) else
  ty ← read_u16 b ehdr_TYPE;
  if negb (ty =? ET_EXEC) then Ret (Err NotExecutable) else
  ent ← read_u64 b ehdr_ENTRY;
  off ← read_u64 b ehdr_PHOFF;
  size ← read_u16 b ehdr_PHENTSIZE;
  num ← read_u16 b ehdr_PHNUM;
  if size <? phdr_SIZE then Ret (Err BadProgramHeader) else
  match checked_mul 64 num size with
  | None => Ret (Err BadProgramHeader)
  | Some table_len =>
      match checked_add 64 off table_len with
      | None => Ret (Err BadProgramHeader)
      | Some table_end =>
          if Z.of_nat (length b) <? table_end then Ret (Err BadProgramHeader) else
          let elf := mkElf b ent off size num in
          r ← validate_from elf 0 (Z.to_nat num);
          Ret (match r with Ok _ => Ok elf | Err x => Err x end)
      end
  end.

(** [Elf64::segment]. *)
Definition segment (e : Elf64) (index : Z) : outcome (option Segment) :=
  h ← header e index;
  ty ← read_u32 h phdr_TYPE;
  if negb (ty =? PT_LOAD) then Ret None else
  flags ← read_u32 h phdr_FLAGS;
  offset ← read_u64 h phdr_OFFSET;
  filesz ← read_u64 h phdr_FILESZ;
  va ← read_u64 h phdr_VADDR;
  memsz ← read_u64 h phdr_MEMSZ;
  stop ← add_chk 64 offset filesz;
  d ← slice (bytes e) offset stop;
  Ret (Some (mkSegment va memsz d (negb (Z.land flags PF_W =? 0)) (negb (Z.land flags PF_X =? 0)))).

(** [Elf64::segments], collected. *)
Fixpoint segments_from (e : Elf64) (index : Z) (n : nat) : outcome (list Segment) :=
  match n with
  | O => Ret []
  | S n' =>
      o ← segment e index;
      rest ← segments_from e (index + 1) n';
      Ret (match o with Some s => s :: rest | None => rest end)
  end.
Definition segments (e : Elf64) : outcome (list Segment) :=
  segments_from e 0 (Z.to_nat (phnum e)).

(** ** Reads *)

Lemma read_le_ok n b at_ :
  0 ≤ at_ → at_ + Z.of_nat n ≤ Z.of_nat (length b) →
  ∃ z, read_le n b at_ = Ret z ∧ 0 ≤ z < 2 ^ (8 * Z.of_nat n) ∧
       z = from_le_bytes (take n (drop (Z.to_nat at_) b)).
Proof.
  intros Ha Hb. unfold read_le. rewrite slice_ok by lia. simpl.
  replace (at_ + Z.of_nat n - at_) with (Z.of_nat n) by lia. rewrite Nat2Z.id.
  eexists. split; [done|]. split; [|done].
  pose proof (from_le_bytes_range (take n (drop (Z.to_nat at_) b))) as H.
  rewrite length_take, length_drop in H.
  replace (n `min` (length b - Z.to_nat at_))%nat with n in H by lia. done.
Qed.

Ltac elf_offsets :=
  unfold ehdr_TYPE, ehdr_MACHINE, ehdr_ENTRY, ehdr_PHOFF, ehdr_PHENTSIZE, ehdr_PHNUM, ehdr_SIZE,
    phdr_TYPE, phdr_FLAGS, phdr_OFFSET, phdr_VADDR, phdr_FILESZ, phdr_MEMSZ, phdr_SIZE in *.

Ltac read_field b at_ z :=
  let H := fresh "H" z in let R := fresh "R" z in
  match goal with
  | |- context [read_u16 b at_] =>
      destruct (read_le_ok 2 b at_) as (z & H & R & _); [elf_offsets; lia|elf_offsets; lia|];
      change (read_u16 b at_) with (read_le 2 b at_); rewrite H; cbn [mbind outcome_bind]
  | |- context [read_u32 b at_] =>
      destruct (read_le_ok 4 b at_) as (z & H & R & _); [elf_offsets; lia|elf_offsets; lia|];
      change (read_u32 b at_) with (read_le 4 b at_); rewrite H; cbn [mbind outcome_bind]
  | |- context [read_u64 b at_] =>
      destruct (read_le_ok 8 b at_) as (z & H & R & _); [elf_offsets; lia|elf_offsets; lia|];
      change (read_u64 b at_) with (read_le 8 b at_); rewrite H; cbn [mbind outcome_bind]
  end.

(** ** Safety *)

(** What [parse] has checked of an [Elf64] it builds before it looks at the
    program headers. *)
Definition table_ok (e : Elf64) : Prop :=
  Z.of_nat (length (bytes e)) < 2 ^ 63 ∧
  0 ≤ phoff e ∧ phdr_SIZE ≤ phentsize e ∧ 0 ≤ phnum e ∧
  phoff e + phnum e * phentsize e ≤ Z.of_nat (length (bytes e)).

Lemma header_ok e i :
  table_ok e → 0 ≤ i < phnum e →
  ∃ h, header e i = Ret h ∧ length h = 56%nat ∧
       h = take 56 (drop (Z.to_nat (phoff e + i * phentsize e)) (bytes e)).
Proof.
  intros (Hlen & Ho & Hs & Hn & Hend) Hi. unfold header, phdr_SIZE in *.
  assert (i * phentsize e + phentsize e ≤ phnum e * phentsize e) by nia.
  assert (0 ≤ i * phentsize e) by nia.
  rewrite mul_chk_ok by lia. cbn [mbind outcome_bind].
  rewrite add_chk_ok by lia. cbn [mbind outcome_bind].
  rewrite add_chk_ok by lia. cbn [mbind outcome_bind].
  rewrite slice_ok by lia.
  replace (phoff e + i * phentsize e + 56 - (phoff e + i * phentsize e)) with 56 by lia.
  eexists. split; [done|]. split; [|done]. rewrite length_take, length_drop. lia.
Qed.

Lemma validate_segment_total e i :
  table_ok e → 0 ≤ i < phnum e → ∃ r, validate_segment e i = Ret r.
Proof.
  intros He Hi. destruct (header_ok e i He Hi) as (h & Hh & Hlen & _).
  unfold validate_segment. rewrite Hh. cbn [mbind outcome_bind].
  read_field h phdr_TYPE ty. destruct (ty =? PT_LOAD); simpl negb; [|eauto].
  read_field h phdr_OFFSET offset. read_field h phdr_FILESZ filesz.
  read_field h phdr_MEMSZ memsz. destruct (memsz <? filesz); [eauto|].
  destruct (checked_add 64 offset filesz) as [stop|]; [|eauto].
  destruct (Z.of_nat (length (bytes e)) <? stop); [eauto|].
  read_field h phdr_VADDR va. destruct (checked_add 64 va memsz); eauto.
Qed.

(** What a loader may rely on for one segment of the file [b]. *)
Definition loadable (b : list byte) (s : Segment) : Prop :=
  (∃ off, 0 ≤ off ∧ off + Z.of_nat (length (data s)) ≤ Z.of_nat (length b) ∧
     data s = take (length (data s)) (drop (Z.to_nat off) b)) ∧
  Z.of_nat (length (data s)) ≤ mem_size s ∧
  0 ≤ vaddr s ∧ vaddr s + mem_size s < 2 ^ 64 ∧
  zero_fill s = mem_size s - Z.of_nat (length (data s)).

Lemma validated_segment e i :
  table_ok e → 0 ≤ i < phnum e → validate_segment e i = Ret (Ok tt) →
  ∃ o, segment e i = Ret o ∧ ∀ s, o = Some s → loadable (bytes e) s.
Proof.
  intros He Hi. destruct (header_ok e i He Hi) as (h & Hh & Hlen & _).
  unfold validate_segment, segment. rewrite Hh. cbn [mbind outcome_bind].
  read_field h phdr_TYPE ty. destruct (ty =? PT_LOAD); simpl negb.
  2:{ intros _. by exists None. }
  read_field h phdr_OFFSET offset. read_field h phdr_FILESZ filesz.
  read_field h phdr_MEMSZ memsz. destruct (Z.ltb_spec memsz filesz); [done|].
  destruct (checked_add 64 offset filesz) as [stop|] eqn:Es; [|done].
  apply checked_add_Some in Es as [-> Hstop].
  destruct (Z.ltb_spec (Z.of_nat (length (bytes e))) (offset + filesz)); [done|].
  read_field h phdr_VADDR va. destruct (checked_add 64 va memsz) as [v|] eqn:Ev; [|done].
  apply checked_add_Some in Ev as [-> Hvm]. intros _.
  read_field h phdr_FLAGS flags. rewrite add_chk_ok by done. cbn [mbind outcome_bind].
  rewrite slice_ok by lia. cbn [mbind outcome_bind]. eexists. split; [done|].
  intros s [= <-]. unfold loadable, zero_fill, saturating_sub.
  replace (offset + filesz - offset) with filesz by lia. simpl.
  assert (length (take (Z.to_nat filesz) (drop (Z.to_nat offset) (bytes e))) = Z.to_nat filesz)
    as -> by (rewrite length_take, length_drop; lia).
  split; [|lia]. exists offset. split; [lia|]. split; [lia|done].
Qed.

Lemma validate_from_total e i n :
  table_ok e → 0 ≤ i → i + Z.of_nat n ≤ phnum e → ∃ r, validate_from e i n = Ret r.
Proof.
  intros He. revert i. induction n as [|n IH]; intros i Hi Hn; simpl; [eauto|].
  destruct (validate_segment_total e i He) as [r ->]; [lia|]. simpl.
  destruct r as [_|x]; [|eauto]. apply IH; lia.
Qed.

Lemma segments_from_ok e i n :
  table_ok e → 0 ≤ i → i + Z.of_nat n ≤ phnum e → validate_from e i n = Ret (Ok tt) →
  ∃ segs, segments_from e i n = Ret segs ∧ Forall (loadable (bytes e)) segs.
Proof.
  intros He. revert i. induction n as [|n IH]; intros i Hi Hn; simpl; [eauto|].
  intros ([[]|x] & Hv & Hr)%bind_ret_inv; [|done].
  destruct (validated_segment e i He) as (o & -> & Ho); [lia|done|].
  destruct (IH (i + 1)) as (segs & -> & Hsegs); [lia..|done|]. simpl.
  destruct o as [s|]; eexists; (split; [done|]); [|done]. constructor; auto.
Qed.

(** The header checks, once; what follows them is the program headers. *)
Lemma parse_header b :
  Z.of_nat (length b) < 2 ^ 63 →
  (∃ x, parse b = Ret (Err x)) ∨
  ∃ e, bytes e = b ∧ table_ok e ∧
    parse b = (r ← validate_from e 0 (Z.to_nat (phnum e));
               Ret (match r with Ok _ => Ok e | Err x => Err x end)).
Proof.
  intros Hmax. unfold parse.
  destruct (Z.ltb_spec (Z.of_nat (length b)) ehdr_SIZE) as [|Hlen]; [eauto|].
  unfold ehdr_SIZE in Hlen. rewrite slice_ok by lia. cbn [mbind outcome_bind].
  case_bool_decide; [eauto|].
  destruct (index_in_range b 4) as (b4 & -> & _); [lia|]. cbn [mbind outcome_bind].
  destruct (index_in_range b 5) as (b5 & -> & _); [lia|]. cbn [mbind outcome_bind].
  destruct (index_in_range b 6) as (b6 & -> & _); [lia|]. cbn [mbind outcome_bind].
  destruct (_ || _); [eauto|].
  read_field b ehdr_MACHINE machine. destruct (negb _); [eauto|].
  read_field b ehdr_TYPE ty. destruct (negb _); [eauto|].
  read_field b ehdr_ENTRY ent. read_field b ehdr_PHOFF off.
  read_field b ehdr_PHENTSIZE sz. read_field b ehdr_PHNUM num.
  destruct (Z.ltb_spec sz phdr_SIZE); [eauto|].
  destruct (checked_mul 64 num sz) as [len|] eqn:Em; [|eauto].
  apply checked_mul_Some in Em as [-> _].
  destruct (checked_add 64 off (num * sz)) as [stop|] eqn:Ea; [|eauto].
  apply checked_add_Some in Ea as [-> _].
  destruct (Z.ltb_spec (Z.of_nat (length b)) (off + num * sz)); [eauto|].
  right. exists (mkElf b ent off sz num). split; [done|]. split; [|done].
  unfold table_ok; simpl. repeat split; [done|lia|done|lia|done].
Qed.

(** C36: The parser is total and its answer is safe to act on. On every byte
    string (a slice is shorter than [2^63] bytes) [parse] returns without
    panicking; when it accepts, [segments] returns without panicking, and
    every segment's image lies inside the file, fits the memory the segment
    declares, has a virtual range that does not wrap, and [zero_fill] is
    exactly the rest of that memory. *)
Theorem parse_is_total_and_sound (b : list byte) (Hlen : Z.of_nat (length b) < 2 ^ 63) :
  (∃ x, parse b = Ret (Err x)) ∨
  (∃ e segs, parse b = Ret (Ok e) ∧ bytes e = b ∧ segments e = Ret segs ∧
     Forall (loadable b) segs).
Proof.
  destruct (parse_header b Hlen) as [[x Hx]|(e & Hb & He & Hp)]; [eauto|].
  pose proof He as (_ & _ & _ & Hn & _).
  destruct (validate_from_total e 0 (Z.to_nat (phnum e)) He) as [r Hr]; [lia..|].
  rewrite Hp, Hr. simpl. destruct r as [[]|x]; [right|eauto].
  destruct (segments_from_ok e 0 (Z.to_nat (phnum e)) He) as (segs & Hs & Hl); [lia..|done|].
  rewrite Hb in Hl. exists e, segs. done.
Qed.

(** ** A writer

    What a linker would emit for a list of loadable segments: the header,
    one program header per segment, then the images in order. *)

(** Fields as (width in bytes, value). *)
Definition encode_fields (fs : list (nat * Z)) : list byte :=
  concat (map (λ f, to_le_bytes f.1 f.2) fs).

#[global] Arguments encode_fields : simpl never.

Definition fld (n : nat) (z : Z) : nat * Z := (n, z).

Definition ehdr_fields (ent n : Z) : list (nat * Z) :=
  [ (fld 4 0x464c457f); (fld 1 2); (fld 1 1); (fld 1 1); (fld 1 0); (fld 8 0);
    (fld 2 2); (fld 2 62); (fld 4 1); (fld 8 ent); (fld 8 64); (fld 8 0);
    (fld 4 0); (fld 2 64); (fld 2 56); (fld 2 n); (fld 2 0); (fld 2 0); (fld 2 0) ].

Definition flag_bits (s : Segment) : Z :=
  4 + (if writable s then 2 else 0) + (if executable s then 1 else 0).

Definition phdr_fields (off : Z) (s : Segment) : list (nat * Z) :=
  [ (fld 4 1); (fld 4 (flag_bits s)); (fld 8 off); (fld 8 (vaddr s)); (fld 8 (vaddr s));
    (fld 8 (Z.of_nat (length (data s)))); (fld 8 (mem_size s)); (fld 8 4096) ].

Fixpoint phdrs (off : Z) (segs : list Segment) : list byte :=
  match segs with
  | [] => []
  | s :: segs' =>
      encode_fields (phdr_fields off s) ++ phdrs (off + Z.of_nat (length (data s))) segs'
  end.

Definition write_elf (ent : Z) (segs : list Segment) : list byte :=
  let n := Z.of_nat (length segs) in
  encode_fields (ehdr_fields ent n) ++ phdrs (64 + 56 * n) segs ++ concat (map data segs).

(** A segment a program can have. *)
Definition segment_ok (s : Segment) : Prop :=
  Z.of_nat (length (data s)) ≤ mem_size s ∧ 0 ≤ vaddr s ∧ vaddr s + mem_size s < 2 ^ 64.

Definition width (fs : list (nat * Z)) : nat := sum_list (map fst fs).

Lemma length_encode_fields fs : length (encode_fields fs) = width fs.
Proof.
  unfold encode_fields, width. induction fs as [|f fs IH]; simpl; [done|].
  by rewrite length_app, length_to_le_bytes, IH.
Qed.

(** Reading field [k] of an encoded record at its offset. *)
Lemma read_encoded pre fs suf k n z :
  fs !! k = Some (n, z) → 0 ≤ z < 2 ^ (8 * Z.of_nat n) →
  read_le n (pre ++ encode_fields fs ++ suf) (Z.of_nat (length pre + width (take k fs))) = Ret z.
Proof.
  intros Hk Hz. rewrite <- (take_drop_middle fs k (n, z) Hk) at 1.
  assert (encode_fields (take k fs ++ (n, z) :: drop (S k) fs) =
    encode_fields (take k fs) ++ to_le_bytes n z ++ encode_fields (drop (S k) fs)) as ->.
  { unfold encode_fields. by rewrite map_app, concat_app. }
  unfold read_le. rewrite slice_ok; [|lia|].
  2:{ rewrite !length_app, length_encode_fields, length_to_le_bytes. lia. }
  rewrite Nat2Z.id, <- app_assoc, app_assoc.
  rewrite drop_app_length' by (rewrite length_app, length_encode_fields; lia).
  rewrite <- app_assoc, take_app_length' by (rewrite length_to_le_bytes; lia). simpl.
  by rewrite from_to_le_bytes.
Qed.

Definition images (segs : list Segment) : list byte := concat (map data segs).

Lemma length_phdrs off segs : length (phdrs off segs) = (56 * length segs)%nat.
Proof.
  revert off. induction segs as [|s segs IH]; intros off; [done|]. cbn [phdrs].
  rewrite length_app, length_encode_fields, IH, length_cons. change (width _) with 56%nat. lia.
Qed.

Lemma phdrs_app off l1 l2 :
  phdrs off (l1 ++ l2) = phdrs off l1 ++ phdrs (off + Z.of_nat (length (images l1))) l2.
Proof.
  revert off. induction l1 as [|s l1 IH]; intros off; [simpl; by rewrite Z.add_0_r|].
  cbn [phdrs app]. rewrite IH, <- app_assoc. do 2 f_equal. unfold images. simpl. rewrite length_app.
  f_equal. lia.
Qed.

Lemma images_app l1 l2 : images (l1 ++ l2) = images l1 ++ images l2.
Proof. unfold images. by rewrite map_app, concat_app. Qed.

Lemma slice_middle {A} (p m q : list A) lo hi :
  lo = Z.of_nat (length p) → hi = lo + Z.of_nat (length m) →
  slice (p ++ m ++ q) lo hi = Ret m.
Proof.
  intros -> ->. rewrite slice_ok by (rewrite ?length_app; lia).
  rewrite Nat2Z.id, drop_app_length, take_app_length' by lia. done.
Qed.

Section RoundTrip.
Context (ent : Z) (segs : list Segment).
Context (Hent : 0 ≤ ent < 2 ^ 64) (Hnum : Z.of_nat (length segs) < 2 ^ 16).
Context (Hsegs : Forall segment_ok segs).
Context (b : list byte) (Hb : b = write_elf ent segs).
Context (Hfile : Z.of_nat (length b) < 2 ^ 63).

Let n : Z := Z.of_nat (length segs).
Let base : Z := 64 + 56 * n.
Let e : Elf64 := mkElf b ent 64 56 n.

Lemma file_layout : b = encode_fields (ehdr_fields ent n) ++ phdrs base segs ++ images segs.
Proof. rewrite Hb. reflexivity. Qed.

Lemma file_length : Z.of_nat (length b) = base + Z.of_nat (length (images segs)).
Proof.
  rewrite file_layout, !length_app, length_encode_fields, length_phdrs.
  unfold base, n. change (width _) with 64%nat. lia.
Qed.

Lemma written_table_ok : table_ok e.
Proof.
  unfold table_ok, e. cbn [phentsize phoff phnum bytes]. pose proof file_length. unfold phdr_SIZE, base, n in *.
  repeat split; [done|lia..].
Qed.

(** The program header and the image of the segment in the middle. *)
Lemma written_header l1 s l2 :
  segs = l1 ++ s :: l2 →
  header e (Z.of_nat (length l1)) =
    Ret (encode_fields (phdr_fields (base + Z.of_nat (length (images l1))) s)).
Proof.
  intros E. assert (n = Z.of_nat (length l1) + 1 + Z.of_nat (length l2)) as Hn
    by (unfold n; rewrite E, length_app; simpl; lia).
  unfold header, e. cbn [phentsize phoff bytes]. unfold phdr_SIZE.
  pose proof file_length. unfold base in *.
  rewrite mul_chk_ok by lia. cbn [mbind outcome_bind].
  rewrite add_chk_ok by lia. cbn [mbind outcome_bind].
  rewrite add_chk_ok by lia. cbn [mbind outcome_bind].
  rewrite file_layout, E, phdrs_app, images_app. cbn [phdrs]. rewrite <- !app_assoc, app_assoc.
  apply slice_middle.
  - rewrite length_app, length_encode_fields, length_phdrs. change (width _) with 64%nat. lia.
  - rewrite length_encode_fields. change (width _) with 56%nat. lia.
Qed.

Lemma written_image l1 s l2 off :
  segs = l1 ++ s :: l2 → off = base + Z.of_nat (length (images l1)) →
  slice b off (off + Z.of_nat (length (data s))) = Ret (data s).
Proof.
  intros E ->. rewrite file_layout, E, images_app.
  change (images (s :: l2)) with (data s ++ images l2).
  rewrite (app_assoc (phdrs _ _)), (app_assoc (encode_fields _)).
  apply slice_middle; [|done].
  rewrite !length_app, length_encode_fields, length_phdrs.
  change (width _) with 64%nat. unfold base, n. rewrite E, length_app. simpl. lia.
Qed.

Lemma phdr_read off s k w z :
  phdr_fields off s !! k = Some (w, z) → 0 ≤ z < 2 ^ (8 * Z.of_nat w) →
  read_le w (encode_fields (phdr_fields off s)) (Z.of_nat (width (take k (phdr_fields off s)))) = Ret z.
Proof.
  intros Hk Hz. pose proof (read_encoded [] (phdr_fields off s) [] k w z Hk Hz) as H.
  by rewrite app_nil_r in H.
Qed.

Lemma flag_bits_decode s :
  0 ≤ flag_bits s < 2 ^ 32 ∧
  negb (Z.land (flag_bits s) PF_W =? 0) = writable s ∧
  negb (Z.land (flag_bits s) PF_X =? 0) = executable s.
Proof. destruct s as [va ms d [] []]; repeat split; vm_compute; congruence. Qed.

Ltac phdr_field off s k w z :=
  match goal with
  | |- context [?f (encode_fields (phdr_fields off s)) ?a] =>
      replace (f (encode_fields (phdr_fields off s)) a) with (Ret z : outcome Z)
        by (symmetry; apply (phdr_read off s k w z); [reflexivity|simpl; lia]);
      cbn [mbind outcome_bind]
  end.

Lemma written_segment l1 s l2 :
  segs = l1 ++ s :: l2 →
  validate_segment e (Z.of_nat (length l1)) = Ret (Ok tt) ∧
  segment e (Z.of_nat (length l1)) = Ret (Some s).
Proof.
  intros E. set (off := base + Z.of_nat (length (images l1))).
  assert (segment_ok s) as (Hsz & Hva & Hvm).
  { rewrite E in Hsegs. by apply Forall_app in Hsegs as [_ [? _]%Forall_cons]. }
  pose proof file_length as Hlen.
  assert (Z.of_nat (length (images segs)) =
    Z.of_nat (length (images l1)) + Z.of_nat (length (data s)) + Z.of_nat (length (images l2))) as Hl.
  { rewrite E, images_app. change (images (s :: l2)) with (data s ++ images l2).
    rewrite !length_app. lia. }
  destruct (flag_bits_decode s) as (Hfb & Hw & Hx).
  assert (0 ≤ off ∧ off + Z.of_nat (length (data s)) ≤ Z.of_nat (length b)) as [Ho1 Ho2]
    by (unfold off, base, n in *; lia).
  unfold validate_segment, segment. rewrite (written_header l1 s l2 E). fold off.
  cbn [mbind outcome_bind]. unfold read_u32, read_u64.
  phdr_field off s 0%nat 4%nat 1. rewrite Z.eqb_refl. cbn [negb].
  phdr_field off s 1%nat 4%nat (flag_bits s).
  phdr_field off s 2%nat 8%nat off.
  phdr_field off s 5%nat 8%nat (Z.of_nat (length (data s))).
  phdr_field off s 6%nat 8%nat (mem_size s).
  phdr_field off s 3%nat 8%nat (vaddr s).
  cbn [bytes e]. change (bytes e) with b.
  rewrite (proj2 (checked_add_Some 64 off (Z.of_nat (length (data s))) _)) by (split; [reflexivity|lia]).
  rewrite (proj2 (checked_add_Some 64 (vaddr s) (mem_size s) _)) by (split; [reflexivity|lia]).
  rewrite (proj2 (Z.ltb_ge _ _) Hsz), (proj2 (Z.ltb_ge _ _) Ho2). split; [done|].
  rewrite add_chk_ok by lia. cbn [mbind outcome_bind].
  rewrite (written_image l1 s l2 off E eq_refl). cbn [mbind outcome_bind].
  rewrite Hw, Hx. by destruct s.
Qed.

Lemma written_from l1 l2 :
  segs = l1 ++ l2 →
  validate_from e (Z.of_nat (length l1)) (length l2) = Ret (Ok tt) ∧
  segments_from e (Z.of_nat (length l1)) (length l2) = Ret l2.
Proof.
  revert l1. induction l2 as [|s l2 IH]; intros l1 E; [done|].
  destruct (written_segment l1 s l2 E) as [Hv Hs]. cbn [validate_from segments_from length].
  rewrite Hv, Hs. cbn [mbind outcome_bind].
  destruct (IH (l1 ++ [s])) as [Hv' Hs']; [by rewrite <- app_assoc|].
  rewrite length_app in Hv', Hs'. cbn [length] in Hv', Hs'.
  replace (Z.of_nat (length l1 + 1)) with (Z.of_nat (length l1) + 1) in Hv', Hs' by lia.
  rewrite Hv', Hs'. done.
Qed.

Ltac ehdr_field k w z :=
  match goal with
  | |- context [?f b ?a] =>
      replace (f b a) with (Ret z : outcome Z)
        by (symmetry; rewrite file_layout;
            apply (read_encoded [] (ehdr_fields ent n) _ k w z); [reflexivity|simpl; lia]);
      cbn [mbind outcome_bind]
  end.

Lemma written_ident :
  slice b 0 4 = Ret ELF_MAGIC ∧ index b 4 = Ret x02 ∧ index b 5 = Ret x01 ∧ index b 6 = Ret x01.
Proof.
  split.
  - pose proof file_length as Hlen. rewrite slice_ok by (unfold base, n in Hlen; lia).
    rewrite file_layout. reflexivity.
  - rewrite file_layout. repeat split.
Qed.

Lemma parse_written : parse b = Ret (Ok e).
Proof.
  pose proof file_length as Hlen. destruct written_ident as (Hm & H4 & H5 & H6).
  assert (0 ≤ n < 2 ^ 16) as Hn by (unfold n; lia).
  unfold parse, ehdr_SIZE, phdr_SIZE. unfold base in Hlen.
  rewrite (proj2 (Z.ltb_ge _ _)) by lia.
  rewrite Hm. cbn [mbind outcome_bind]. rewrite bool_decide_eq_false_2 by (intros H; by apply H).
  rewrite H4, H5, H6. cbn [mbind outcome_bind].
  change (negb (b2z x02 =? ELFCLASS64) || negb (b2z x01 =? ELFDATA2LSB)
     || negb (b2z x01 =? EV_CURRENT)) with false. cbv iota. unfold read_u16, read_u64.
  ehdr_field 7%nat 2%nat 62. change (negb (62 =? EM_X86_64)) with false. cbv iota.
  ehdr_field 6%nat 2%nat 2. change (negb (2 =? ET_EXEC)) with false. cbv iota.
  ehdr_field 9%nat 8%nat ent. ehdr_field 10%nat 8%nat 64.
  ehdr_field 14%nat 2%nat 56. ehdr_field 15%nat 2%nat n.
  change (56 <? 56) with false. cbv iota.
  rewrite (proj2 (checked_mul_Some 64 n 56 _)) by (split; [reflexivity|lia]).
  rewrite (proj2 (checked_add_Some 64 64 (n * 56) _)) by (split; [reflexivity|lia]).
  rewrite (proj2 (Z.ltb_ge _ _)) by lia. fold e.
  destruct (written_from [] segs eq_refl) as [Hv _]. cbn [length] in Hv.
  unfold n at 1. rewrite Nat2Z.id. change (Z.of_nat 0) with 0 in Hv. by rewrite Hv.
Qed.
End RoundTrip.

(** The parser reads back what a linker writes: for every entry point
    and every list of up to 65535 segments whose images fit their memory and
    whose virtual ranges do not wrap, the file laid out as header, program
    headers and images is accepted, with that entry point and exactly those
    segments, permissions included. *)
Theorem parse_write_elf (ent : Z) (segs : list Segment)
    (Hent : 0 ≤ ent < 2 ^ 64) (Hnum : Z.of_nat (length segs) < 2 ^ 16)
    (Hsegs : Forall segment_ok segs)
    (Hfile : Z.of_nat (length (write_elf ent segs)) < 2 ^ 63) :
  ∃ e, parse (write_elf ent segs) = Ret (Ok e) ∧ entry e = ent ∧ segments e = Ret segs.
Proof.
  eexists. split; [by apply (parse_written ent segs)|]. split; [done|].
  unfold segments. cbn [phnum]. rewrite Nat2Z.id.
  exact (proj2 (written_from ent segs Hsegs _ eq_refl Hfile [] segs eq_refl)).
Qed.

Definition tiny_text : Segment := mkSegment 0x400000 4096 [xf4; xeb; xfd] false true.
Definition tiny_data : Segment := mkSegment 0x401000 8192 [x2a] true false.

Lemma parse_write_elf_witness :
  ∃ e, parse (write_elf 0x400000 [tiny_text; tiny_data]) = Ret (Ok e) ∧
       entry e = 0x400000 ∧ segments e = Ret [tiny_text; tiny_data].
Proof.
  apply parse_write_elf; [lia|simpl; lia| |vm_compute; reflexivity].
  repeat constructor; vm_compute; congruence.
Defined.

Lemma parse_is_total_and_sound_witness :
  let b := write_elf 0x400000 [tiny_text] in
  (∃ x, parse b = Ret (Err x)) ∨
  (∃ e segs, parse b = Ret (Ok e) ∧ bytes e = b ∧ segments e = Ret segs ∧
     Forall (loadable b) segs).
Proof. apply parse_is_total_and_sound. vm_compute. reflexivity. Defined.
