(* ===== verification/Virtio.v ===== *)
(** Split virtqueues and the virtio-blk request layout:
    [crates/qunix-virtio/src/{lib,queue,blk}.rs].

    The driver's half of the queue: a descriptor table whose free entries
    are threaded on a list, chains handed to the device, the available ring
    the driver fills and the mirror of the used ring the device fills.
    Nothing the device writes is trusted: the theorems hold for every used
    ring. *)
From S2P Require Import Prelude Bits.
From Stdlib Require Import Strings.Byte.

Definition QUEUE_SIZE : Z := 64.
Definition DESC_F_NEXT : Z := 1.
Definition DESC_F_WRITE : Z := 2.
Definition NIL : Z := 65535.

Record Descriptor := mkDesc { addr : Z; dlen : Z; flags : Z; next : Z }.
Definition default_desc : Descriptor := mkDesc 0 0 0 0.
Definition Descriptor_BYTES : Z := 16.

(** [Descriptor::to_bytes]. *)
Definition to_bytes (d : Descriptor) : list byte :=
  to_le_bytes 8 (addr d) ++ to_le_bytes 4 (dlen d) ++ to_le_bytes 2 (flags d) ++ to_le_bytes 2 (next d).

Record RingLayout := mkLayout { ldesc : Z; lavail : Z; lused : Z; lbytes : Z }.
Definition RING_HEADER : Z := 4.
Definition RING_FOOTER : Z := 2.
Definition align_up (value to : Z) : Z := ((value + to - 1) / to) * to.

(** [ring_layout]. *)
Definition ring_layout (sz : Z) : RingLayout :=
  let desc := 0 in
  let avail := desc + Descriptor_BYTES * sz in
  let avail_end := avail + RING_HEADER + 2 * sz + RING_FOOTER in
  let used := align_up avail_end 4 in
  mkLayout desc avail used (used + RING_HEADER + 8 * sz + RING_FOOTER).

Record UsedElem := mkUsed { id : Z; ulen : Z }.

Record SplitQueue := mkQueue
  { qsize : Z; desc : list Descriptor; free_head : Z; free : Z; in_flight : list bool;
    avail_idx : Z; avail_ring : list Z; used_ring : list UsedElem }.

Definition set_desc (q : SplitQueue) (d : list Descriptor) : SplitQueue :=
  mkQueue (qsize q) d (free_head q) (free q) (in_flight q) (avail_idx q) (avail_ring q) (used_ring q).
Definition set_free (q : SplitQueue) (h f : Z) : SplitQueue :=
  mkQueue (qsize q) (desc q) h f (in_flight q) (avail_idx q) (avail_ring q) (used_ring q).
Definition set_in_flight (q : SplitQueue) (l : list bool) : SplitQueue :=
  mkQueue (qsize q) (desc q) (free_head q) (free q) l (avail_idx q) (avail_ring q) (used_ring q).
Definition set_avail (q : SplitQueue) (i : Z) (r : list Z) : SplitQueue :=
  mkQueue (qsize q) (desc q) (free_head q) (free q) (in_flight q) i r (used_ring q).
Definition set_used (q : SplitQueue) (r : list UsedElem) : SplitQueue :=
  mkQueue (qsize q) (desc q) (free_head q) (free q) (in_flight q) (avail_idx q) (avail_ring q) r.

Definition with_next (d : Descriptor) (n : Z) : Descriptor := mkDesc (addr d) (dlen d) (flags d) n.
Definition with_flags (d : Descriptor) (f : Z) : Descriptor := mkDesc (addr d) (dlen d) f (next d).

(** [SplitQueue::new]. *)
Definition new (sz : Z) : outcome SplitQueue :=
  _ ← rust_assert (0 <? sz);
  _ ← rust_assert (is_power_of_two sz);
  let n := Z.to_nat sz in
  Ret (mkQueue sz
         (map (λ i, with_next default_desc
                      (if Z.of_nat i + 1 <? sz then Z.of_nat i + 1 else NIL)) (seq 0 n))
         0 sz (replicate n false) 0 (replicate n 0) (replicate n (mkUsed 0 0))).

Definition free_count (q : SplitQueue) : Z := free q.

(** The loop of [alloc_chain]: [n] descriptors off the free list, each
    linked from its predecessor [prev]. *)
Fixpoint alloc_loop (n : nat) (q : SplitQueue) (prev : Z) : outcome (SplitQueue * Z) :=
  match n with
  | O => Ret (q, prev)
  | S n' =>
      let idx := free_head q in
      _ ← rust_assert (negb (idx =? NIL));
      d ← index (desc q) idx;
      f ← sub_chk (free q) 1;
      let q1 := set_free q (next d) f in
      if negb (prev =? NIL) then
        p ← index (desc q1) prev;
        ds ← set_index (desc q1) prev
               (with_next (with_flags p (Z.lor (flags p) DESC_F_NEXT)) idx);
        alloc_loop n' (set_desc q1 ds) idx
      else alloc_loop n' q1 idx
  end.

(** [SplitQueue::alloc_chain]. *)
Definition alloc_chain (q : SplitQueue) (n : Z) : outcome (option Z * SplitQueue) :=
  if (n =? 0) || (free q <? n) then Ret (None, q)
  else
    let head := free_head q in
    '(q1, prev) ← alloc_loop (Z.to_nat n) q NIL;
    p ← index (desc q1) prev;
    ds ← set_index (desc q1) prev
           (with_next (with_flags p (Z.land (flags p) (bitnot 16 DESC_F_NEXT))) 0);
    Ret (Some head, set_desc q1 ds).

Definition has_next (d : Descriptor) : bool := negb (Z.land (flags d) DESC_F_NEXT =? 0).

(** The loop of [free_chain]. *)
Fixpoint free_loop (n : nat) (q : SplitQueue) (idx : Z) : outcome SplitQueue :=
  match n with
  | O => Ret q
  | S n' =>
      d ← index (desc q) idx;
      ds ← set_index (desc q) idx (with_next default_desc (free_head q));
      f ← add_chk 16 (free q) 1;
      let q1 := set_free (set_desc q ds) idx f in
      if negb (has_next d) then Ret q1 else free_loop n' q1 (next d)
  end.

(** [SplitQueue::free_chain]. *)
Definition free_chain (q : SplitQueue) (head : Z) : outcome SplitQueue :=
  q1 ← free_loop (Z.to_nat (qsize q)) q head;
  l ← set_index (in_flight q1) head false;
  Ret (set_in_flight q1 l).

(** [SplitQueue::describe]. *)
Definition describe (q : SplitQueue) (idx a l : Z) (device_writable : bool) : outcome SplitQueue :=
  d ← index (desc q) idx;
  let next_flag := Z.land (flags d) DESC_F_NEXT in
  ds ← set_index (desc q) idx
         (mkDesc a l (Z.lor next_flag (if device_writable then DESC_F_WRITE else 0)) (next d));
  Ret (set_desc q ds).

(** [SplitQueue::next_in_chain]. *)
Definition next_in_chain (q : SplitQueue) (idx : Z) : outcome (option Z) :=
  d ← index (desc q) idx;
  Ret (if has_next d then Some (next d) else None).

(** [SplitQueue::publish]; returns the new index. *)
Definition publish (q : SplitQueue) (head : Z) : outcome (Z * SplitQueue) :=
  l ← set_index (in_flight q) head true;
  let slot := avail_idx q mod qsize q in
  r ← set_index (avail_ring q) slot head;
  let i := wrapping_add 16 (avail_idx q) 1 in
  Ret (i, set_avail (set_in_flight q l) i r).

Definition last_slot (q : SplitQueue) : Z := wrapping_sub 16 (avail_idx q) 1 mod qsize q.
Definition avail_index (q : SplitQueue) : Z := avail_idx q.

(** [SplitQueue::take_used]. *)
Definition take_used (q : SplitQueue) (slot : Z) : outcome (option (Z * Z) * SplitQueue) :=
  elem ← index (used_ring q) (slot mod qsize q);
  if qsize q <=? id elem then Ret (None, q) else
  let head := id elem in
  live ← index (in_flight q) head;
  if negb live then Ret (None, q) else
  l ← set_index (in_flight q) head false;
  Ret (Some (head, ulen elem), set_in_flight q l).

(** [SplitQueue::descriptor_bytes], [SplitQueue::avail_slot_bytes],
    [SplitQueue::desc_bytes], [SplitQueue::avail_slots_bytes]. *)
Definition descriptor_bytes (q : SplitQueue) (i : Z) : option (list byte) :=
  to_bytes <$> desc q !! Z.to_nat i.
Definition avail_slot_bytes (q : SplitQueue) (slot : Z) : option (list byte) :=
  to_le_bytes 2 <$> avail_ring q !! Z.to_nat slot.
Definition desc_bytes (q : SplitQueue) : list byte := concat (map to_bytes (desc q)).
Definition avail_slots_bytes (q : SplitQueue) : list byte :=
  concat (map (to_le_bytes 2) (avail_ring q)) ++ to_le_bytes 2 0.

(** [SplitQueue::ingest_used_slot]; [bytes] is a [[u8; 8]]. *)
Definition ingest_used_slot (q : SplitQueue) (slot : Z) (bytes : list byte)
    : outcome (bool * SplitQueue) :=
  if qsize q <=? slot then Ret (false, q) else
  r ← set_index (used_ring q) slot
        (mkUsed (from_le_bytes (take 4 bytes)) (from_le_bytes (take 4 (drop 4 bytes))));
  Ret (true, set_used q r).

(** [SplitQueue::ingest_used]. *)
Fixpoint ingest_from (q : SplitQueue) (bytes : list byte) (slot n : nat) : outcome SplitQueue :=
  match n with
  | O => Ret q
  | S n' =>
      let base := RING_HEADER + Z.of_nat slot * 8 in
      a ← slice bytes base (base + 4);
      b ← slice bytes (base + 4) (base + 8);
      r ← set_index (used_ring q) (Z.of_nat slot) (mkUsed (from_le_bytes a) (from_le_bytes b));
      ingest_from (set_used q r) bytes (S slot) n'
  end.
Definition ingest_used (q : SplitQueue) (bytes : list byte) (idx : Z) : outcome (option Z * SplitQueue) :=
  if Z.of_nat (length bytes) <? RING_HEADER + 8 * qsize q then Ret (None, q) else
  q' ← ingest_from q bytes 0 (Z.to_nat (qsize q));
  Ret (Some idx, q').

(** ** Requests: [blk.rs] *)
Definition SECTOR_BYTES : Z := 512.
Definition REQUEST_IN : Z := 0.
Definition REQUEST_OUT : Z := 1.

Record RequestHeader := mkHeader { rkind : Z; reserved : Z; sector : Z }.
Definition RequestHeader_BYTES : Z := 16.
Definition header_read (s : Z) : RequestHeader := mkHeader REQUEST_IN 0 s.
Definition header_write (s : Z) : RequestHeader := mkHeader REQUEST_OUT 0 s.
Definition header_to_bytes (h : RequestHeader) : list byte :=
  to_le_bytes 4 (rkind h) ++ to_le_bytes 4 (reserved h) ++ to_le_bytes 8 (sector h).

Inductive BlkStatus := BlkOk | IoError | Unsupported | Unknown (b : Z).
#[export] Instance BlkStatus_eq_dec : EqDecision BlkStatus.
Proof. solve_decision. Defined.

Definition status_from_byte (b : Z) : BlkStatus :=
  if b =? 0 then BlkOk else if b =? 1 then IoError else if b =? 2 then Unsupported else Unknown b.
Definition transfer_satisfied (reported asked : Z) : bool := asked <=? reported.

(** ** Linked lists in the descriptor table *)

(** [l] is threaded from [h] through the [next] fields, ending at [NIL]. *)
Fixpoint links (d : list Descriptor) (h : Z) (l : list nat) : Prop :=
  match l with
  | [] => h = NIL
  | i :: l' => h = Z.of_nat i ∧ ∃ x, d !! i = Some x ∧ links d (next x) l'
  end.

(** Descriptor [i] chains to [j]. *)
Definition linked (d : list Descriptor) (i j : nat) : Prop :=
  ∃ x, d !! i = Some x ∧ has_next x = true ∧ next x = Z.of_nat j.

(** Consecutive entries of [l] chain to each other; nothing is said of the
    last one. *)
Fixpoint open_chain (d : list Descriptor) (l : list nat) : Prop :=
  match l with
  | i :: (j :: _) as l' => linked d i j ∧ open_chain d l'
  | _ => True
  end.

(** A chain as the device walks it: linked, and ended. *)
Definition chained (d : list Descriptor) (l : list nat) : Prop :=
  ∃ t x, last l = Some t ∧ d !! t = Some x ∧ has_next x = false ∧ open_chain d l.

Lemma has_next_set d n : has_next (with_next (with_flags d (Z.lor (flags d) DESC_F_NEXT)) n) = true.
Proof.
  unfold has_next, DESC_F_NEXT. simpl. apply negb_true_iff, Z.eqb_neq.
  change 1 with (2 ^ 0) at 2. rewrite land_pow2 by lia.
  by rewrite Z.lor_spec, orb_true_r.
Qed.

Lemma has_next_clear d n :
  has_next (with_next (with_flags d (Z.land (flags d) (bitnot 16 DESC_F_NEXT))) n) = false.
Proof.
  unfold has_next, DESC_F_NEXT. simpl. apply negb_false_iff, Z.eqb_eq.
  change 1 with (2 ^ 0) at 2. rewrite land_pow2 by lia.
  rewrite Z.land_spec. change (Z.testbit (bitnot 16 1) 0) with false.
  by rewrite andb_false_r.
Qed.

Lemma has_next_describe d a l (w : bool) n :
  has_next (mkDesc a l (Z.lor (Z.land (flags d) DESC_F_NEXT) (if w then DESC_F_WRITE else 0)) n)
  = has_next d.
Proof.
  unfold has_next. simpl. do 2 f_equal. unfold DESC_F_NEXT, DESC_F_WRITE.
  change 1 with (2 ^ 0). rewrite !land_pow2 by lia.
  rewrite Z.lor_spec. destruct (Z.testbit (flags d) 0); [done|]. by destruct w.
Qed.

(** Writes outside a list leave its threads alone. *)
Lemma links_insert d k x h l : k ∉ l → links d h l → links (<[k := x]> d) h l.
Proof.
  revert h. induction l as [|i l IH]; intros h Hk; simpl; [done|].
  apply not_elem_of_cons in Hk as [Hne Hk]. intros (-> & y & Hy & Hl).
  split; [done|]. exists y. rewrite list_lookup_insert_ne by done. auto.
Qed.

Lemma linked_insert d k x i j : k ≠ i → linked d i j → linked (<[k := x]> d) i j.
Proof. intros Hk (y & Hy & H). exists y. by rewrite list_lookup_insert_ne. Qed.

(** ... and so do writes at its last entry. *)
Lemma open_chain_insert d k x l :
  (∀ i, l !! i = Some k → i = pred (length l)) → open_chain d l → open_chain (<[k := x]> d) l.
Proof.
  induction l as [|i [|j l] IH]; intros Hk; [done..|]. intros [Hl Ho]. split.
  - apply linked_insert; [|done]. intros ->. specialize (Hk 0%nat eq_refl). simpl in Hk. lia.
  - apply IH; [|done]. intros m Hm. specialize (Hk (S m) Hm). simpl in *. lia.
Qed.

Lemma open_chain_insert_notin d k x l : k ∉ l → open_chain d l → open_chain (<[k := x]> d) l.
Proof.
  intros Hk. apply open_chain_insert. intros i Hi. by apply list_elem_of_lookup_2 in Hi.
Qed.

Lemma chained_insert d k x l : k ∉ l → chained d l → chained (<[k := x]> d) l.
Proof.
  intros Hk (t & y & Ht & Hy & Hn & Ho). exists t, y. split; [done|].
  rewrite list_lookup_insert_ne by (intros ->; by apply Hk, last_Some_elem_of).
  split; [done|]. split; [done|]. by apply open_chain_insert_notin.
Qed.

Lemma links_lt d h l i : links d h l → i ∈ l → (i < length d)%nat.
Proof.
  revert h. induction l as [|j l IH]; intros h; simpl; [by intros _ ?%elem_of_nil|].
  intros (-> & x & Hx & Hl) [->|Hi]%elem_of_cons; [by eapply lookup_lt_Some|eauto].
Qed.

(** ** Allocation *)

Definition opt_cons (prev : option nat) (l : list nat) : list nat :=
  match prev with Some p => p :: l | None => l end.
Definition prev_idx (prev : option nat) : Z :=
  match prev with Some p => Z.of_nat p | None => NIL end.

Lemma index_nat {A} (l : list A) (i : nat) x : l !! i = Some x → index l (Z.of_nat i) = Ret x.
Proof. intros. apply index_ok; [lia|]. by rewrite Nat2Z.id. Qed.
(** What the loop of [alloc_chain] does to the first [length t] entries [t]
    of the free list. *)
Record alloc_post (q q' : SplitQueue) (prev : option nat) (t rest : list nat) : Prop := {
  ap_links : links (desc q') (free_head q') rest;
  ap_free : free q' = free q - Z.of_nat (length t);
  ap_chain : open_chain (desc q') (opt_cons prev t);
  ap_other : ∀ k, k ∉ opt_cons prev t → desc q' !! k = desc q !! k;
  ap_len : length (desc q') = length (desc q);
  ap_same : qsize q' = qsize q ∧ in_flight q' = in_flight q ∧ avail_idx q' = avail_idx q ∧
            avail_ring q' = avail_ring q ∧ used_ring q' = used_ring q
}.

Lemma alloc_loop_spec t : ∀ q prev rest,
  links (desc q) (free_head q) (t ++ rest) → NoDup (opt_cons prev (t ++ rest)) →
  Z.of_nat (length (desc q)) < 65535 → Z.of_nat (length t) ≤ free q →
  (∀ p, prev = Some p → (p < length (desc q))%nat) →
  ∃ q', alloc_loop (length t) q (prev_idx prev) = Ret (q', prev_idx (last (opt_cons prev t))) ∧
        alloc_post q q' prev t rest.
Proof.
  induction t as [|i t IH]; intros q prev rest Hl Hnd Hlen Hfree Hp.
  - exists q. simpl. split; [by destruct prev|]. split; try done.
    + simpl. lia.
    + by destruct prev.
  - simpl in Hl. destruct Hl as (Hh & x & Hx & Hl). pose proof (lookup_lt_Some _ _ _ Hx) as Hi.
    cbn [alloc_loop length]. rewrite Hh.
    rewrite (proj2 (Z.eqb_neq (Z.of_nat i) NIL)) by (unfold NIL; lia).
    cbn [negb rust_assert mbind outcome_bind]. rewrite (index_nat _ _ x) by done.
    cbn [mbind outcome_bind]. rewrite length_cons in Hfree. rewrite sub_chk_ok by lia.
    cbn [mbind outcome_bind].
    destruct prev as [p|]; cbn [prev_idx].
    + specialize (Hp p eq_refl). rewrite (proj2 (Z.eqb_neq (Z.of_nat p) NIL)) by (unfold NIL; lia).
      cbn [negb]. destruct (lookup_lt_is_Some_2 _ _ Hp) as [y Hy]. cbn [desc set_free].
      rewrite (index_nat _ _ y) by done. cbn [mbind outcome_bind].
      rewrite set_index_nat by done. cbn [mbind outcome_bind].
      set (y' := with_next (with_flags y (Z.lor (flags y) DESC_F_NEXT)) (Z.of_nat i)).
      simpl in Hnd. apply NoDup_cons in Hnd as [Hpn Hnd].
      destruct (IH (set_desc (set_free q (next x) (free q - 1)) (<[p := y']> (desc q))) (Some i) rest)
        as (q' & He & [H1 H2 H3 H4 H5 H6]); simpl.
      * apply links_insert; [|done]. intros Hin. apply Hpn. by right.
      * done.
      * by rewrite length_insert.
      * lia.
      * intros ? [= <-]. by rewrite length_insert.
      * exists q'. cbn [prev_idx] in He. rewrite He. split; [done|].
        simpl in H3, H4, H5, H6. rewrite length_insert in H5.
        assert (p ∉ i :: t) as Hpt.
        { intros Hin. apply Hpn. rewrite elem_of_cons in Hin. rewrite elem_of_cons, elem_of_app. tauto. }
        assert (desc q' !! p = Some y') as Hyp.
        { rewrite H4 by done. by apply list_lookup_insert_eq. }
        split; try done.
        -- simpl in H2. simpl. lia.
        -- simpl. split; [|done]. exists y'. split; [done|]. split; [apply has_next_set|done].
        -- intros k Hk. simpl in Hk. apply not_elem_of_cons in Hk as [Hkp Hk].
           rewrite H4 by done. by rewrite list_lookup_insert_ne.
    + rewrite Z.eqb_refl. cbn [negb]. simpl in Hnd.
      destruct (IH (set_free q (next x) (free q - 1)) (Some i) rest) as (q' & He & [H1 H2 H3 H4 H5 H6]);
        simpl; try done; [lia|by intros ? [= <-]|].
      exists q'. cbn [prev_idx] in He. rewrite He. split; [done|]. split; try done.
      simpl in H2. simpl. lia.
Qed.

(** ** Release *)

(** Freeing the chain [c] pushes its entries, one by one, on the free list. *)
Lemma free_loop_spec c : ∀ n q i fl,
  chained (desc q) (i :: c) → NoDup (i :: c ++ fl) → links (desc q) (free_head q) fl →
  (length c < n)%nat → free q + Z.of_nat (S (length c)) < 2 ^ 16 →
  ∃ q', free_loop n q (Z.of_nat i) = Ret q' ∧
    links (desc q') (free_head q') (rev (i :: c) ++ fl) ∧
    free q' = free q + Z.of_nat (S (length c)) ∧
    (∀ k, k ∉ i :: c → desc q' !! k = desc q !! k) ∧
    length (desc q') = length (desc q) ∧
    qsize q' = qsize q ∧ in_flight q' = in_flight q ∧ avail_idx q' = avail_idx q ∧
    avail_ring q' = avail_ring q ∧ used_ring q' = used_ring q.
Proof.
  induction c as [|j c IH]; intros n q i fl Hc Hnd Hl Hn Hf; (destruct n as [|n]; [simpl in Hn; lia|]);
    destruct Hc as (t & x & Ht & Hx & Hnx & Ho); cbn [free_loop].
  - simpl in Ht. injection Ht as <-. rewrite (index_nat _ _ x) by done. cbn [mbind outcome_bind].
    pose proof (lookup_lt_Some _ _ _ Hx) as Hi.
    rewrite set_index_nat by done. cbn [mbind outcome_bind]. simpl in Hf.
    rewrite add_chk_ok by lia. cbn [mbind outcome_bind]. rewrite Hnx. cbn [negb].
    eexists. split; [done|]. apply NoDup_cons in Hnd as [Hi' _]. simpl.
    split. { split; [done|]. eexists. split; [by apply list_lookup_insert_eq|]. by apply links_insert. }
    split; [lia|]. split.
    { intros k Hk. rewrite list_lookup_insert_ne; [done|]. intros ->. apply Hk. left. }
    rewrite length_insert. done.
  - destruct Ho as [(y & Hy & Hny & Hyj) Ho].
    rewrite (index_nat _ _ y) by done. cbn [mbind outcome_bind].
    pose proof (lookup_lt_Some _ _ _ Hy) as Hi.
    rewrite set_index_nat by done. cbn [mbind outcome_bind]. rewrite length_cons in Hf.
    rewrite add_chk_ok by lia. cbn [mbind outcome_bind]. rewrite Hny, Hyj. cbn [negb].
    apply NoDup_cons in Hnd as [Hi' Hnd].
    assert ((i ∉ j :: c) ∧ (i ∉ fl)) as [Hic Hif] by (rewrite elem_of_app in Hi'; tauto).
    set (y' := with_next default_desc (free_head q)).
    destruct (IH n (set_free (set_desc q (<[i := y']> (desc q))) (Z.of_nat i) (free q + 1)) j (i :: fl))
      as (q' & He & H1 & H2 & H3 & H4 & H5); simpl.
    + apply chained_insert; [done|]. exists t, x. done.
    + change (NoDup ((j :: c) ++ i :: fl)). rewrite <- Permutation_middle. by apply NoDup_cons.
    + split; [done|]. eexists. split; [by apply list_lookup_insert_eq|]. by apply links_insert.
    + simpl in Hn. lia.
    + lia.
    + exists q'. rewrite He. split; [done|]. simpl in H1, H2, H3, H4, H5.
      rewrite length_insert in H4. split; [|split; [|split; [|done]]].
      * simpl. by rewrite <- !app_assoc in *.
      * lia.
      * intros k Hk. apply not_elem_of_cons in Hk as [Hki Hk]. rewrite H3 by done.
        by rewrite list_lookup_insert_ne.
Qed.

(** ** The queue invariant

    [fl] is the free list, [cs] the chains the driver holds, each from its
    head; together they are the whole table, each descriptor once. *)
Record qinv (q : SplitQueue) (fl : list nat) (cs : list (list nat)) : Prop := {
  qi_size : 0 < qsize q < 2 ^ 16 - 1;
  qi_desc : Z.of_nat (length (desc q)) = qsize q;
  qi_flight : Z.of_nat (length (in_flight q)) = qsize q;
  qi_avail : Z.of_nat (length (avail_ring q)) = qsize q;
  qi_used : Z.of_nat (length (used_ring q)) = qsize q;
  qi_avail_idx : fits 16 (avail_idx q);
  qi_used_ok : Forall (λ u, 0 ≤ id u) (used_ring q);
  qi_links : links (desc q) (free_head q) fl;
  qi_free : free q = Z.of_nat (length fl);
  qi_chains : Forall (chained (desc q)) cs;
  qi_partition : fl ++ concat cs ≡ₚ seq 0 (Z.to_nat (qsize q));
  qi_live : ∀ i, in_flight q !! i = Some true → ∃ c, i :: c ∈ cs
}.

Lemma chained_cons d l : chained d l → ∃ i c, l = i :: c.
Proof. intros (t & x & Ht & _). destruct l as [|i c]; [done|eauto]. Qed.

Lemma qinv_NoDup q fl cs : qinv q fl cs → NoDup (fl ++ concat cs).
Proof. intros H. rewrite (qi_partition _ _ _ H). apply NoDup_seq. Qed.

Lemma qinv_lt q fl cs i :
  qinv q fl cs → i ∈ fl ++ concat cs → (i < length (desc q))%nat.
Proof.
  intros H Hi. rewrite (qi_partition _ _ _ H) in Hi. apply elem_of_seq in Hi.
  pose proof (qi_desc _ _ _ H). pose proof (qi_size _ _ _ H). lia.
Qed.

Lemma elem_of_concat_perm (cs : list (list nat)) c :
  c ∈ cs → ∃ cs', cs ≡ₚ c :: cs'.
Proof. apply elem_of_Permutation. Qed.

Lemma concat_perm (cs cs' : list (list nat)) : cs ≡ₚ cs' → concat cs ≡ₚ concat cs'.
Proof.
  induction 1; simpl; [done|by f_equiv| |by etrans].
  rewrite !app_assoc. f_equiv. apply Permutation_app_comm.
Qed.

(** The held chains and the free list account for every descriptor. *)
Lemma qinv_count q fl cs :
  qinv q fl cs → free q + Z.of_nat (length (concat cs)) = qsize q.
Proof.
  intros H. pose proof (Permutation_length (qi_partition _ _ _ H)) as Hp.
  rewrite length_app, length_seq in Hp. rewrite (qi_free _ _ _ H).
  pose proof (qi_size _ _ _ H). lia.
Qed.

Lemma open_chain_other d d' l :
  (∀ k, k ∈ l → d' !! k = d !! k) → open_chain d l → open_chain d' l.
Proof.
  induction l as [|i [|j l] IH]; intros Hk; [done..|]. intros [(x & Hx & H) Ho]. split.
  - exists x. rewrite Hk by left. done.
  - apply IH; [|done]. intros k Hk'. apply Hk. by right.
Qed.

Lemma chained_other d d' l : (∀ k, k ∈ l → d' !! k = d !! k) → chained d l → chained d' l.
Proof.
  intros Hk (t & x & Ht & Hx & Hn & Ho). exists t, x. split; [done|].
  rewrite Hk by by apply last_Some_elem_of. do 2 (split; [done|]). by eapply open_chain_other.
Qed.

Lemma elem_of_concat (cs : list (list nat)) k : k ∈ concat cs ↔ ∃ c, k ∈ c ∧ c ∈ cs.
Proof.
  rewrite list_elem_of_In, in_concat. split; intros (c & H1 & H2); exists c;
    rewrite ?list_elem_of_In in *; done.
Qed.

Lemma chains_other d d' (cs : list (list nat)) :
  (∀ k, k ∈ concat cs → d' !! k = d !! k) → Forall (chained d) cs → Forall (chained d') cs.
Proof.
  intros Hk Hc. rewrite Forall_forall in Hc |- *. intros c Hin.
  eapply chained_other; [|by apply Hc]. intros k Hkc. apply Hk, elem_of_concat. eauto.
Qed.

(** ** The operations keep it *)

Lemma new_qinv sz :
  0 < sz < 2 ^ 16 - 1 → is_power_of_two sz = true →
  ∃ q, new sz = Ret q ∧ qinv q (seq 0 (Z.to_nat sz)) [] ∧ qsize q = sz.
Proof.
  intros Hsz Hp. unfold new. rewrite (proj2 (Z.ltb_lt _ _)) by lia.
  rewrite Hp. cbn [rust_assert mbind outcome_bind]. eexists. split; [done|]. split; [|done].
  split; simpl; rewrite ?length_map, ?length_seq, ?length_replicate, ?app_nil_r; try lia; try done.
  - by apply Forall_replicate.
  - set (f := λ i : nat, with_next default_desc (if Z.of_nat i + 1 <? sz then Z.of_nat i + 1 else NIL)).
    assert (∀ m k, (k + m = Z.to_nat sz)%nat →
      links (map f (seq 0 (Z.to_nat sz))) (if Nat.eqb m 0 then NIL else Z.of_nat k) (seq k m)) as Hall.
    { induction m as [|m IH]; intros k Hk; [done|]. simpl. split; [done|].
      exists (f k). split.
      - rewrite list_lookup_fmap, lookup_seq_lt by lia. done.
      - specialize (IH (S k) ltac:(lia)). unfold f at 1. simpl.
        destruct (Z.ltb_spec (Z.of_nat k + 1) sz) as [H|H]; destruct m as [|m]; simpl in IH |- *;
          try lia; try done.
        replace (Z.of_nat k + 1) with (Z.of_nat (S k)) by lia. done. }
    specialize (Hall (Z.to_nat sz) 0%nat ltac:(lia)).
    destruct (Z.to_nat sz) eqn:E; [lia|]. done.
  - intros i [Hi _]%lookup_replicate. done.
Qed.

Lemma alloc_chain_refused q n :
  n = 0 ∨ free q < n → alloc_chain q n = Ret (None, q).
Proof.
  intros H. unfold alloc_chain. destruct (Z.eqb_spec n 0); [done|].
  rewrite (proj2 (Z.ltb_lt (free q) n)) by lia. done.
Qed.

Lemma alloc_chain_ok q fl cs n :
  qinv q fl cs → 0 < n ≤ free q →
  ∃ i c rest q', fl = (i :: c) ++ rest ∧ Z.of_nat (length (i :: c)) = n ∧
    alloc_chain q n = Ret (Some (Z.of_nat i), q') ∧ qinv q' rest ((i :: c) :: cs) ∧
    avail_idx q' = avail_idx q ∧ avail_ring q' = avail_ring q ∧ used_ring q' = used_ring q ∧
    in_flight q' = in_flight q ∧ qsize q' = qsize q ∧ ∀ k, k ∉ i :: c → desc q' !! k = desc q !! k.
Proof.
  intros Hq Hn. pose proof (qi_free _ _ _ Hq) as Hf. pose proof (qi_size _ _ _ Hq) as Hsz.
  pose proof (qi_desc _ _ _ Hq) as Hd. pose proof (qinv_NoDup _ _ _ Hq) as Hnd.
  set (t := take (Z.to_nat n) fl). set (rest := drop (Z.to_nat n) fl).
  assert (fl = t ++ rest) as Hfl by (symmetry; apply take_drop).
  assert (length t = Z.to_nat n) as Ht by (unfold t; rewrite length_take; lia).
  pose proof (qi_links _ _ _ Hq) as Hl. rewrite Hfl in Hl, Hnd.
  assert (NoDup (t ++ rest)) as Hnd' by by apply NoDup_app in Hnd as (? & _).
  destruct (alloc_loop_spec t q None rest) as (q1 & He & [H1 H2 H3 H4 H5 H6]); [done|done|lia|lia|done|].
  destruct t as [|i c] eqn:Et; [simpl in Ht; lia|].
  unfold alloc_chain. rewrite (proj2 (Z.eqb_neq n 0)), (proj2 (Z.ltb_ge (free q) n)) by lia.
  cbn [orb]. rewrite Ht in He. cbn [prev_idx opt_cons] in He. rewrite He. cbn [mbind outcome_bind].
  destruct (last (i :: c)) as [l|] eqn:El; [|by apply last_None in El]. cbn [prev_idx].
  pose proof (last_Some_elem_of _ _ El) as Hin.
  assert (l < length (desc q1))%nat as Hlt.
  { rewrite H5. eapply links_lt; [done|]. apply elem_of_app. by left. }
  destruct (lookup_lt_is_Some_2 _ _ Hlt) as [x Hx].
  rewrite (index_nat _ _ x) by done. cbn [mbind outcome_bind].
  rewrite set_index_nat by done. cbn [mbind outcome_bind].
  destruct Hl as [Hhead _]. fold (app c rest) in Hhead.
  exists i, c, rest. eexists. split; [done|]. split; [lia|]. rewrite Hhead. split; [done|].
  set (x' := with_next _ 0). destruct H6 as (Hqs & Hfl' & Hai & Har & Hur).
  split.
  2: { repeat (split; [done|]). intros k Hk. cbn. rewrite list_lookup_insert_ne by (intros ->; done). by apply H4. }
  assert (l ∉ rest ++ concat cs) as Hnl.
  { rewrite <- app_assoc in Hnd. apply NoDup_app in Hnd as (_ & Hx' & _). by apply Hx'. }
  assert (∀ k, k ∈ rest ++ concat cs → k ∉ i :: c) as Hdis.
  { rewrite <- app_assoc in Hnd. apply NoDup_app in Hnd as (_ & Hx' & _).
    intros k Hk Hk'. by eapply Hx'. }
  split; simpl; rewrite ?length_insert, ?H5, ?Hqs, ?Hfl', ?Hai, ?Har, ?Hur; try apply Hq.
  - apply links_insert; [|done]. intros H. apply Hnl, elem_of_app. by left.
  - rewrite H2, Hf, Hfl, length_app. lia.
  - constructor.
    + exists l, x'. split; [done|]. split; [by apply list_lookup_insert_eq|].
      split; [apply has_next_clear|]. apply open_chain_insert; [|done].
      intros m Hm. eapply NoDup_lookup; [by apply NoDup_app in Hnd' as (? & _)|done|].
      by rewrite <- last_lookup.
    + eapply chains_other; [|apply Hq]. intros k Hk.
      assert (k ∈ rest ++ concat cs) as Hk' by (apply elem_of_app; by right).
      rewrite list_lookup_insert_ne by (intros ->; done). by apply H4, Hdis.
  - rewrite <- (qi_partition _ _ _ Hq), Hfl.
    change (i :: c ++ concat cs) with ((i :: c) ++ concat cs).
    by rewrite app_assoc, (Permutation_app_comm rest (i :: c)).
  - intros k Hk. destruct (qi_live _ _ _ Hq k Hk) as [c' Hc']. exists c'. by right.
Qed.

Lemma free_chain_ok q fl cs i c cs' :
  qinv q fl cs → cs ≡ₚ (i :: c) :: cs' →
  ∃ q', free_chain q (Z.of_nat i) = Ret q' ∧ qinv q' (rev (i :: c) ++ fl) cs' ∧
    avail_idx q' = avail_idx q ∧ avail_ring q' = avail_ring q ∧ used_ring q' = used_ring q ∧
    in_flight q' = <[i := false]> (in_flight q) ∧ qsize q' = qsize q ∧
    ∀ k, k ∉ i :: c → desc q' !! k = desc q !! k.
Proof.
  intros Hq Hp. pose proof (qinv_NoDup _ _ _ Hq) as Hnd. pose proof (qinv_count _ _ _ Hq) as Hc.
  pose proof (qi_size _ _ _ Hq) as Hsz. pose proof (qi_desc _ _ _ Hq) as Hd.
  pose proof (qi_flight _ _ _ Hq) as Hfl.
  assert (fl ++ concat cs ≡ₚ (i :: c ++ fl) ++ concat cs') as Hperm.
  { rewrite (concat_perm _ _ Hp). cbn [concat].
    by rewrite app_assoc, (Permutation_app_comm fl (i :: c)). }
  rewrite Hperm in Hnd. pose proof (qi_chains _ _ _ Hq) as Hch. rewrite Hp in Hch.
  apply Forall_cons in Hch as [Hic Hcs'].
  pose proof (Permutation_length (concat_perm _ _ Hp)) as Hlen. simpl in Hlen.
  rewrite length_app in Hlen. pose proof (qi_free _ _ _ Hq) as Hfree.
  assert (i < length (in_flight q))%nat as Hi.
  { pose proof (qinv_lt _ _ _ i Hq) as H. rewrite Hperm in H.
    specialize (H ltac:(left)). lia. }
  destruct (free_loop_spec c (Z.to_nat (qsize q)) q i fl) as (q1 & He & H1 & H2 & H3 & H4 & H5);
    [done|by apply NoDup_app in Hnd as (? & _)|apply Hq|lia|lia|].
  destruct H5 as (Hs & Hf1 & Ha1 & Ha2 & Hu).
  unfold free_chain. rewrite He. cbn [mbind outcome_bind]. rewrite Hf1, set_index_nat by done.
  cbn [mbind outcome_bind]. eexists. split; [done|]. split; [|simpl; by rewrite ?Ha1].
  split; simpl; rewrite ?H4, ?Hs, ?Ha1, ?Ha2, ?Hu, ?length_insert; try apply Hq.
  - done.
  - rewrite H2, Hfree, !length_app, length_rev. simpl. lia.
  - eapply chains_other; [|exact Hcs']. intros k Hk. apply H3. intros Hk'.
    apply NoDup_app in Hnd as (_ & Hx & _). apply (Hx k); [|done].
    change (i :: c ++ fl) with ((i :: c) ++ fl). apply elem_of_app. by left.
  - rewrite <- (qi_partition _ _ _ Hq), Hperm. rewrite <- (Permutation_rev (i :: c)). done.
  - intros k Hk. destruct (decide (k = i)) as [->|Hne].
    { rewrite list_lookup_insert_eq in Hk by done. done. }
    rewrite list_lookup_insert_ne in Hk by done.
    destruct (qi_live _ _ _ Hq k Hk) as [c' Hc']. rewrite Hp in Hc'.
    apply elem_of_cons in Hc' as [[= ]|]; [done|eauto].
Qed.

Lemma describe_ok q fl cs i a l w :
  qinv q fl cs → i ∈ concat cs →
  ∃ q', describe q (Z.of_nat i) a l w = Ret q' ∧ qinv q' fl cs ∧
    ∃ d d', desc q !! i = Some d ∧ q' = set_desc q (<[i := d']> (desc q)) ∧
      addr d' = a ∧ dlen d' = l ∧ has_next d' = has_next d ∧ next d' = next d ∧
      flags d' = Z.lor (Z.land (flags d) DESC_F_NEXT) (if w then DESC_F_WRITE else 0).
Proof.
  intros Hq Hi. pose proof (qinv_NoDup _ _ _ Hq) as Hnd.
  assert (i < length (desc q))%nat as Hlt by (eapply qinv_lt; [done|]; apply elem_of_app; by right).
  assert (i ∉ fl) as Hfl.
  { intros H. apply NoDup_app in Hnd as (_ & Hx & _). by eapply Hx. }
  destruct (lookup_lt_is_Some_2 _ _ Hlt) as [d Hd].
  unfold describe. rewrite (index_nat _ _ d) by done. cbn [mbind outcome_bind].
  rewrite set_index_nat by done. cbn [mbind outcome_bind]. eexists. split; [done|].
  set (d' := mkDesc _ _ _ _). assert (has_next d' = has_next d) as Hn by apply has_next_describe.
  split.
  2:{ exists d, d'. done. }
  split; simpl; rewrite ?length_insert; try apply Hq.
  - by apply links_insert; [|apply Hq].
  - pose proof (qi_chains _ _ _ Hq) as Hc. rewrite Forall_forall in Hc |- *. intros c Hin.
    destruct (Hc c Hin) as (t & x & Ht & Hx & Hnx & Ho).
    assert (∀ k y, desc q !! k = Some y → ∃ y', <[i := d']> (desc q) !! k = Some y' ∧
              has_next y' = has_next y ∧ next y' = next y) as Hsame.
    { intros k y Hy. destruct (decide (k = i)) as [->|].
      - rewrite list_lookup_insert_eq by done. rewrite Hd in Hy. injection Hy as <-. eauto.
      - rewrite list_lookup_insert_ne by done. eauto. }
    destruct (Hsame t x Hx) as (x' & Hx' & Hnx' & _). exists t, x'. split; [done|].
    split; [done|]. split; [congruence|]. clear -Ho Hsame.
    induction c as [|u [|v c] IH]; [done..|]. destruct Ho as [(y & Hy & Hny & Hv) Ho].
    split; [|by apply IH]. destruct (Hsame u y Hy) as (y' & Hy' & E1 & E2).
    exists y'. split; [done|]. split; congruence.
Qed.

Lemma slot_in_range q fl cs : qinv q fl cs → 0 ≤ avail_idx q mod qsize q < qsize q.
Proof. intros Hq. apply Z.mod_pos_bound. apply Hq. Qed.

Lemma publish_ok q fl cs i c :
  qinv q fl cs → i :: c ∈ cs →
  ∃ q', publish q (Z.of_nat i) = Ret (wrapping_add 16 (avail_idx q) 1, q') ∧ qinv q' fl cs ∧
    in_flight q' = <[i := true]> (in_flight q) ∧ used_ring q' = used_ring q ∧
    avail_idx q' = wrapping_add 16 (avail_idx q) 1 ∧
    avail_ring q' = <[Z.to_nat (avail_idx q mod qsize q) := Z.of_nat i]> (avail_ring q) ∧
    qsize q' = qsize q.
Proof.
  intros Hq Hi. pose proof (slot_in_range _ _ _ Hq) as Hs.
  assert (i < length (desc q))%nat as Hlt.
  { eapply qinv_lt; [done|]. apply elem_of_app. right. apply elem_of_concat.
    exists (i :: c). split; [left|done]. }
  pose proof (qi_desc _ _ _ Hq). pose proof (qi_flight _ _ _ Hq). pose proof (qi_avail _ _ _ Hq).
  unfold publish. rewrite set_index_nat by lia. cbn [mbind outcome_bind].
  rewrite set_index_ok by lia. cbn [mbind outcome_bind]. eexists. split; [done|].
  split; [|done]. split; simpl; rewrite ?length_insert; try apply Hq.
  - unfold wrapping_add, fits. apply Z.mod_pos_bound. done.
  - intros k Hk. destruct (decide (k = i)) as [->|]; [eauto|].
    rewrite list_lookup_insert_ne in Hk by done. by apply Hq.
Qed.

Lemma take_used_ok q fl cs slot :
  qinv q fl cs → 0 ≤ slot →
  (take_used q slot = Ret (None, q)) ∨
  ∃ i c l q', take_used q slot = Ret (Some (Z.of_nat i, l), q') ∧ i :: c ∈ cs ∧
    in_flight q !! i = Some true ∧ q' = set_in_flight q (<[i := false]> (in_flight q)) ∧
    qinv q' fl cs.
Proof.
  intros Hq Hs. pose proof (qi_size _ _ _ Hq) as Hsz. pose proof (qi_used _ _ _ Hq) as Hu.
  pose proof (Z.mod_pos_bound slot (qsize q) ltac:(lia)) as Hm.
  destruct (index_in_range (used_ring q) (slot mod qsize q)) as (u & Hiu & Hu'); [lia|].
  unfold take_used. rewrite Hiu. cbn [mbind outcome_bind].
  destruct (Z.leb_spec (qsize q) (id u)); [by left|].
  pose proof (qi_flight _ _ _ Hq) as Hf.
  assert (0 ≤ id u) as Hid by (eapply (Forall_lookup_1 (λ u, 0 ≤ id u)); [apply Hq|done]).
  destruct (index_in_range (in_flight q) (id u)) as (b & Hb & Hb'); [lia|].
  rewrite Hb. cbn [mbind outcome_bind]. destruct b; cbn [negb]; [right|by left].
  destruct (qi_live _ _ _ Hq _ Hb') as [c Hc].
  exists (Z.to_nat (id u)), c, (ulen u). eexists. rewrite set_index_ok by lia.
  cbn [mbind outcome_bind]. rewrite Z2Nat.id by lia. split; [done|].
  do 2 (split; [done|]). split; [done|].
  split; simpl; rewrite ?length_insert; try apply Hq.
  intros k Hk. destruct (decide (k = Z.to_nat (id u))) as [->|].
  - rewrite list_lookup_insert_eq in Hk by lia. done.
  - rewrite list_lookup_insert_ne in Hk by done. by apply Hq.
Qed.

Lemma ingest_used_slot_ok q fl cs slot bs :
  qinv q fl cs → 0 ≤ slot →
  ∃ b q', ingest_used_slot q slot bs = Ret (b, q') ∧ qinv q' fl cs ∧
    q' = set_used q (used_ring q') ∧ (b = true ↔ slot < qsize q).
Proof.
  intros Hq Hs. unfold ingest_used_slot. pose proof (qi_used _ _ _ Hq).
  destruct (Z.leb_spec (qsize q) slot).
  - exists false, q. split; [done|]. split; [done|]. split; [by destruct q|]. split; [done|lia].
  - rewrite set_index_ok by lia. cbn [mbind outcome_bind]. eexists _, _. split; [done|].
    split; [|by split].
    split; simpl; rewrite ?length_insert; try apply Hq.
    apply Forall_insert; [apply Hq|]. simpl. apply from_le_bytes_range.
Qed.

(** ** Walking a chain *)

(** The descriptors from [idx] on, the way [submit] and the device find
    them, by [next_in_chain]. *)
Fixpoint walk (fuel : nat) (q : SplitQueue) (idx : Z) : outcome (list Z) :=
  match fuel with
  | O => Ret []
  | S fuel' =>
      n ← next_in_chain q idx;
      match n with
      | Some j => rest ← walk fuel' q j; Ret (idx :: rest)
      | None => Ret [idx]
      end
  end.

Lemma walk_chained q l i c fuel :
  chained (desc q) l → l = i :: c → (length l ≤ fuel)%nat →
  walk fuel q (Z.of_nat i) = Ret (map Z.of_nat l).
Proof.
  revert i c fuel. induction l as [|a l IH]; intros i c fuel Hc E Hf; [done|].
  injection E as -> ->. destruct fuel as [|fuel]; [simpl in Hf; lia|].
  destruct Hc as (t & x & Ht & Hx & Hn & Ho). cbn [walk]. unfold next_in_chain.
  destruct c as [|j c].
  - simpl in Ht. injection Ht as <-. rewrite (index_nat _ _ x) by done.
    cbn [mbind outcome_bind]. by rewrite Hn.
  - destruct Ho as [(y & Hy & Hny & Hj) Ho]. rewrite (index_nat _ _ y) by done.
    cbn [mbind outcome_bind]. rewrite Hny, Hj.
    rewrite (IH j c fuel); [done| |done|simpl in *; lia]. exists t, x. done.
Qed.

(** ** The driver's use of the queue

    [chains] are the chains the driver holds, as [walk] shows them.  The
    device is free to write anything into the used ring at any time. *)
Inductive qevent :=
  | QAlloc (n : Z) (head : option Z) | QFree (head : Z) | QDescribe
  | QPublish (head : Z) | QTake (r : option (Z * Z)) | QIngest.

Definition qstate : Type := SplitQueue * list (list Z).

Inductive qstep : qstate → qevent → qstate → Prop :=
  | q_alloc_some q cs n h q' c :
      0 ≤ n → alloc_chain q n = Ret (Some h, q') → walk (Z.to_nat (qsize q')) q' h = Ret c →
      qstep (q, cs) (QAlloc n (Some h)) (q', c :: cs)
  | q_alloc_none q cs n q' :
      0 ≤ n → alloc_chain q n = Ret (None, q') → qstep (q, cs) (QAlloc n None) (q', cs)
  | q_free q cs h c cs' q' :
      cs ≡ₚ (h :: c) :: cs' → free_chain q h = Ret q' → qstep (q, cs) (QFree h) (q', cs')
  | q_describe q cs i c a l w q' :
      c ∈ cs → i ∈ c → describe q i a l w = Ret q' → qstep (q, cs) QDescribe (q', cs)
  | q_publish q cs h c idx q' :
      h :: c ∈ cs → publish q h = Ret (idx, q') → qstep (q, cs) (QPublish h) (q', cs)
  | q_take q cs slot r q' :
      0 ≤ slot → take_used q slot = Ret (r, q') → qstep (q, cs) (QTake r) (q', cs)
  | q_ingest q cs slot bs b q' :
      0 ≤ slot → ingest_used_slot q slot bs = Ret (b, q') → qstep (q, cs) QIngest (q', cs).

Definition qgood (s : qstate) : Prop :=
  ∃ fl cs, qinv s.1 fl cs ∧ s.2 ≡ₚ map (map Z.of_nat) cs.

Lemma map_cons_inv (cs : list (list nat)) h c cs' :
  map (map Z.of_nat) cs ≡ₚ (h :: c) :: cs' →
  ∃ i c0 cs0, cs ≡ₚ (i :: c0) :: cs0 ∧ h = Z.of_nat i ∧ cs' ≡ₚ map (map Z.of_nat) cs0.
Proof.
  intros Hp.
  assert (h :: c ∈ map (map Z.of_nat) cs) as Hin by (rewrite Hp; left).
  apply list_elem_of_fmap in Hin as ([|i c0] & E & Hin); [done|]. injection E as -> ->.
  apply elem_of_Permutation in Hin as [cs0 Hcs0]. exists i, c0, cs0.
  split; [done|]. split; [done|]. rewrite Hcs0 in Hp. simpl in Hp.
  by apply Permutation_cons_inv in Hp.
Qed.

Lemma held_head (cs : list (list nat)) (l : list (list Z)) h c :
  l ≡ₚ map (map Z.of_nat) cs → h :: c ∈ l →
  ∃ i c0, h = Z.of_nat i ∧ c = map Z.of_nat c0 ∧ i :: c0 ∈ cs.
Proof.
  intros Hp Hin. rewrite Hp in Hin. apply list_elem_of_fmap in Hin as ([|i c0] & E & Hin); [done|].
  injection E as -> ->. eauto.
Qed.

Lemma held_index (cs : list (list nat)) (l : list (list Z)) c i :
  l ≡ₚ map (map Z.of_nat) cs → c ∈ l → i ∈ c → ∃ j, i = Z.of_nat j ∧ j ∈ concat cs.
Proof.
  intros Hp Hc Hi. rewrite Hp in Hc. apply list_elem_of_fmap in Hc as (c0 & -> & Hc).
  apply list_elem_of_fmap in Hi as (j & -> & Hj). exists j. split; [done|].
  apply elem_of_concat. eauto.
Qed.

Lemma qinv_chain_length q fl cs c :
  qinv q fl cs → c ∈ cs → (length c ≤ Z.to_nat (qsize q))%nat.
Proof.
  intros Hq [cs' Hp]%elem_of_Permutation. pose proof (qinv_count _ _ _ Hq) as Hc.
  pose proof (Permutation_length (concat_perm _ _ Hp)) as Hl. simpl in Hl. rewrite length_app in Hl.
  pose proof (qi_free _ _ _ Hq). lia.
Qed.

Lemma qinv_walk q fl cs i c :
  qinv q fl cs → i :: c ∈ cs →
  walk (Z.to_nat (qsize q)) q (Z.of_nat i) = Ret (map Z.of_nat (i :: c)).
Proof.
  intros Hq Hin. eapply walk_chained; [|reflexivity|by eapply qinv_chain_length].
  pose proof (qi_chains _ _ _ Hq) as H. rewrite Forall_forall in H. by apply H.
Qed.

(** One step, with its effect on the in-flight flags. *)
Lemma qstep_good s e s' :
  qgood s → qstep s e s' →
  qgood s' ∧ qsize s'.1 = qsize s.1 ∧
  (∀ i : nat, in_flight s'.1 !! i = Some true →
     in_flight s.1 !! i = Some true ∨ e = QPublish (Z.of_nat i)) ∧
  (∀ i l, e = QTake (Some (Z.of_nat i, l)) →
     in_flight s.1 !! i = Some true ∧ in_flight s'.1 !! i = Some false ∧
     ∃ c, Z.of_nat i :: c ∈ s.2).
Proof.
  intros (fl & cs & Hq & Hcs) Hstep. destruct Hstep as [q hs n h q' c Hn He Hw|q hs n q' Hn He
    |q hs h c hs' q' Hp He|q hs i c a l w q' Hc Hi He|q hs h c idx q' Hin He
    |q hs slot r q' Hs He|q hs slot bs b q' Hs He]; simpl in *.
  - destruct (decide (0 < n ≤ free q)) as [Hn'|Hn'].
    2:{ rewrite alloc_chain_refused in He by lia. done. }
    destruct (alloc_chain_ok _ _ _ _ Hq Hn') as (i & c0 & rest & q1 & _ & _ & He' & Hq1 & _ & _ & _ & Hf & Hsz & _).
    rewrite He in He'. injection He' as -> ->.
    rewrite (qinv_walk _ _ _ i c0 Hq1) in Hw by left. injection Hw as <-.
    rewrite Hf. split; [|split; [done|split; [tauto|done]]].
    exists rest, ((i :: c0) :: cs). split; [done|]. simpl. by rewrite Hcs.
  - destruct (decide (0 < n ≤ free q)) as [Hn'|Hn'].
    { destruct (alloc_chain_ok _ _ _ _ Hq Hn') as (i & c0 & rest & q1 & _ & _ & He' & _).
      rewrite He in He'. done. }
    rewrite alloc_chain_refused in He by lia. injection He as <-.
    split; [by exists fl, cs|]. split; [done|]. split; [tauto|done].
  - rewrite Hcs in Hp. apply map_cons_inv in Hp as (i & c0 & cs0 & Hp & -> & Hcs').
    destruct (free_chain_ok _ _ _ _ _ _ Hq Hp) as (q1 & He' & Hq1 & _ & _ & _ & Hf & Hsz & _).
    rewrite He in He'. injection He' as ->. rewrite Hf.
    split; [by exists (rev (i :: c0) ++ fl), cs0|]. split; [done|]. split; [|done].
    intros k Hk. left. destruct (decide (k = i)) as [->|]; [|by rewrite list_lookup_insert_ne in Hk].
    apply lookup_lt_Some in Hk as Hlt. rewrite length_insert in Hlt.
    by rewrite list_lookup_insert_eq in Hk.
  - destruct (held_index _ _ _ _ Hcs Hc Hi) as (j & -> & Hj).
    destruct (describe_ok _ _ _ _ a l w Hq Hj) as (q1 & He' & Hq1 & d & d' & _ & Heq & _).
    rewrite He in He'. injection He' as ->. split; [by exists fl, cs|]. rewrite Heq. simpl.
    split; [done|]. split; [tauto|done].
  - destruct (held_head _ _ _ _ Hcs Hin) as (i & c0 & -> & -> & Hi).
    destruct (publish_ok _ _ _ _ _ Hq Hi) as (q1 & He' & Hq1 & Hf & _ & _ & _ & Hsz).
    rewrite He in He'. injection He' as -> ->. split; [by exists fl, cs|]. split; [done|].
    split; [|done]. intros k Hk. rewrite Hf in Hk.
    destruct (decide (k = i)) as [->|]; [by right|]. rewrite list_lookup_insert_ne in Hk by done. by left.
  - destruct (take_used_ok _ _ _ _ Hq Hs) as [He'|(i & c & l & q1 & He' & Hi & Hf & Heq & Hq1)];
      rewrite He in He'.
    + injection He' as -> ->. split; [by exists fl, cs|]. split; [done|]. split; [tauto|done].
    + injection He' as -> ->. split; [by exists fl, cs|]. rewrite Heq. simpl. split; [done|]. split.
      * intros k Hk. left. destruct (decide (k = i)) as [->|]; [done|].
        by rewrite list_lookup_insert_ne in Hk.
      * intros k l' [= ->%Nat2Z.inj ->]. split; [done|].
        rewrite list_lookup_insert_eq by by eapply lookup_lt_Some. split; [done|].
        exists (map Z.of_nat c). rewrite Hcs. by apply (list_elem_of_fmap_2 (map Z.of_nat) cs (k :: c)).
  - destruct (ingest_used_slot_ok _ _ _ _ bs Hq Hs) as (b' & q1 & He' & Hq1 & Heq & _).
    rewrite He in He'. injection He' as -> ->. split; [by exists fl, cs|]. rewrite Heq. simpl.
    split; [done|]. split; [tauto|done].
Qed.

Lemma qrun_good s tr s' : qgood s → run qstep s tr s' → qgood s' ∧ qsize s'.1 = qsize s.1.
Proof.
  intros Hg Hr. induction Hr as [s|s e s1 tr s2 Hs Hr IH]; [done|].
  destruct (qstep_good _ _ _ Hg Hs) as (Hg1 & Hsz & _). destruct (IH Hg1) as [H1 H2].
  split; [done|congruence].
Qed.

(** Publications and completions of a head in a trace. *)
Definition is_publish (h : Z) (e : qevent) : bool :=
  match e with QPublish h' => h' =? h | _ => false end.
Definition is_take (h : Z) (e : qevent) : bool :=
  match e with QTake (Some (h', _)) => h' =? h | _ => false end.
Definition occurs (p : qevent → bool) (tr : list qevent) : nat :=
  length (filter (λ e, p e = true) tr).
Definition flying (q : SplitQueue) (i : nat) : nat :=
  match in_flight q !! i with Some true => 1 | _ => 0 end.

Lemma occurs_cons p e tr : occurs p (e :: tr) = ((if p e then 1 else 0) + occurs p tr)%nat.
Proof.
  unfold occurs. destruct (p e) eqn:E;
    [rewrite filter_cons_True by done|rewrite filter_cons_False by congruence]; done.
Qed.

Lemma qrun_balance s tr s' i :
  qgood s → run qstep s tr s' →
  (occurs (is_take (Z.of_nat i)) tr + flying s'.1 i ≤
   occurs (is_publish (Z.of_nat i)) tr + flying s.1 i)%nat.
Proof.
  intros Hg Hr. induction Hr as [s|s e s1 tr s2 Hs Hr IH]; [simpl; lia|].
  destruct (qstep_good _ _ _ Hg Hs) as (Hg1 & _ & Hf & Ht). specialize (IH Hg1).
  rewrite !occurs_cons.
  assert ((if is_take (Z.of_nat i) e then 1 else 0) + flying s1.1 i ≤
          (if is_publish (Z.of_nat i) e then 1 else 0) + flying s.1 i)%nat as Hone; [|lia].
  destruct (is_take (Z.of_nat i) e) eqn:Et.
  - destruct e as [| | | |[[h l]|]|]; try done. simpl in Et. apply Z.eqb_eq in Et as ->.
    destruct (Ht i l eq_refl) as (H1 & H2 & _). unfold flying. rewrite H1, H2. simpl. lia.
  - unfold flying. specialize (Hf i). destruct (in_flight s1.1 !! i) as [[]|]; [|lia..].
    destruct (Hf eq_refl) as [-> | ->]; [lia|]. simpl. rewrite Z.eqb_refl. lia.
Qed.

(** ** Theorems *)

Lemma NoDup_map_of_nat (l : list nat) : NoDup l → NoDup (map Z.of_nat l).
Proof. intros H. apply (NoDup_fmap_2 Z.of_nat). done. Qed.

Lemma concat_map_of_nat (cs : list (list nat)) :
  concat (map (map Z.of_nat) cs) = map Z.of_nat (concat cs).
Proof. induction cs as [|c cs IH]; simpl; [done|]. by rewrite IH, map_app. Qed.

Lemma concat_perm_Z (cs cs' : list (list Z)) : cs ≡ₚ cs' → concat cs ≡ₚ concat cs'.
Proof.
  induction 1; simpl; [done|by f_equiv| |by etrans].
  rewrite !app_assoc. f_equiv. apply Permutation_app_comm.
Qed.

Lemma start_good sz q0 :
  0 < sz < 2 ^ 16 - 1 → is_power_of_two sz = true → new sz = Ret q0 →
  qgood (q0, []) ∧ qsize q0 = sz ∧ (∀ i, flying q0 i = O) ∧ avail_idx q0 = 0.
Proof.
  intros Hsz Hpow Hnew.
  destruct (new_qinv sz Hsz Hpow) as (q' & He & Hq & Hs). rewrite Hnew in He. injection He as ->.
  split; [by exists (seq 0 (Z.to_nat sz)), []|]. split; [done|].
  unfold new in Hnew. rewrite Hpow, (proj2 (Z.ltb_lt _ _)) in Hnew by lia. simpl in Hnew.
  injection Hnew as <-. split; [|done]. intros i. unfold flying. simpl.
  destruct (replicate (Z.to_nat sz) false !! i) eqn:E; [|done].
  by apply lookup_replicate in E as [-> _].
Qed.

Section Reachable.
Context (sz : Z) (q0 q : SplitQueue) (tr : list qevent) (hs : list (list Z)).
Context (Hsz : 0 < sz < 2 ^ 16 - 1) (Hpow : is_power_of_two sz = true) (Hnew : new sz = Ret q0).
Context (Hrun : run qstep (q0, []) tr (q, hs)).

(** Whatever the driver does with the queue, and whatever the device
    writes in the used ring, the descriptors are partitioned between the
    free list and the chains the driver holds: no descriptor is in two
    chains, none is lost, and the free count is exact. Consequently
    [alloc_chain n] succeeds exactly when [0 < n <= free_count], yields a
    chain of exactly [n] descriptors none of which is in use, and
    [free_chain] of a held chain gives every one of them back. *)
Theorem descriptors_are_partitioned :
  NoDup (concat hs) ∧ (∀ i, i ∈ concat hs → 0 ≤ i < sz) ∧
  free_count q + Z.of_nat (length (concat hs)) = sz ∧
  (∀ n, 0 ≤ n → ∃ r q', alloc_chain q n = Ret (r, q') ∧
     match r with
     | None => n = 0 ∨ free_count q < n
     | Some h => 0 < n ≤ free_count q ∧ free_count q' = free_count q - n ∧
         ∃ c, walk (Z.to_nat sz) q' h = Ret c ∧ Z.of_nat (length c) = n ∧
              NoDup c ∧ ∀ i, i ∈ c → i ∉ concat hs
     end) ∧
  (∀ h c, h :: c ∈ hs → ∃ q', free_chain q h = Ret q' ∧
     free_count q' = free_count q + Z.of_nat (length (h :: c))).
Proof.
  destruct (start_good sz q0 Hsz Hpow Hnew) as (Hg0 & Hs0 & _ & _).
  destruct (qrun_good _ _ _ Hg0 Hrun) as [(fl & cs & Hq & Hcs) Hs]. simpl in *.
  pose proof (qinv_NoDup _ _ _ Hq) as Hnd. pose proof (qinv_count _ _ _ Hq) as Hct.
  pose proof (qi_desc _ _ _ Hq) as Hd.
  assert (concat hs ≡ₚ map Z.of_nat (concat cs)) as Hp.
  { rewrite (concat_perm_Z _ _ Hcs). by rewrite concat_map_of_nat. }
  unfold free_count. split; [|split; [|split; [|split]]].
  - rewrite Hp. apply NoDup_map_of_nat. by apply NoDup_app in Hnd as (_ & _ & ?).
  - intros i Hi. rewrite Hp in Hi. apply list_elem_of_fmap in Hi as (j & -> & Hj).
    assert (j < length (desc q))%nat; [|lia]. eapply qinv_lt; [done|]. apply elem_of_app. by right.
  - rewrite Hp, length_map. lia.
  - intros n Hn. destruct (decide (0 < n ≤ free q)) as [Hn'|Hn'].
    2:{ exists None, q. split; [apply alloc_chain_refused; lia|lia]. }
    destruct (alloc_chain_ok _ _ _ _ Hq Hn')
      as (i & c & rest & q' & Hfl & Hlen & He & Hq' & _ & _ & _ & _ & Hsz' & _).
    exists (Some (Z.of_nat i)), q'. split; [done|]. split; [done|].
    pose proof (qi_free _ _ _ Hq) as Hf. pose proof (qi_free _ _ _ Hq') as Hf'.
    split. { rewrite Hf, Hf', Hfl, length_app. lia. }
    exists (map Z.of_nat (i :: c)).
    pose proof (qinv_walk _ _ _ i c Hq' ltac:(left)) as Hw.
    rewrite Hsz', Hs, Hs0 in Hw. split; [done|]. rewrite length_map. split; [done|].
    rewrite Hfl, <- app_assoc in Hnd. apply NoDup_app in Hnd as (Hc & Hdis & _).
    split; [by apply NoDup_map_of_nat|]. intros z Hz Hz'. rewrite Hp in Hz'.
    apply list_elem_of_fmap in Hz as (a & -> & Ha). apply list_elem_of_fmap in Hz' as (b & E & Hb).
    apply Nat2Z.inj in E as <-. apply (Hdis a Ha). apply elem_of_app. by right.
  - intros h c Hin. destruct (held_head _ _ _ _ Hcs Hin) as (i & c0 & -> & -> & Hi).
    apply elem_of_Permutation in Hi as [cs' Hp'].
    destruct (free_chain_ok _ _ _ _ _ _ Hq Hp') as (q' & He & Hq' & _).
    exists q'. split; [done|]. rewrite (qi_free _ _ _ Hq), (qi_free _ _ _ Hq').
    rewrite length_app, length_rev. simpl. rewrite length_map. lia.
Qed.

(** A completion is consumed at most once per publication, for any used
    ring the device cares to write: in every history, [take_used] has
    reported each head at most as often as it was published, and the heads
    it reports are heads of chains the driver still holds. *)
Theorem completions_are_consumed_once (i : nat) (e : qevent) (s' : qstate)
    (Hstep : qstep (q, hs) e s') :
  (occurs (is_take (Z.of_nat i)) (tr ++ [e]) ≤ occurs (is_publish (Z.of_nat i)) (tr ++ [e]))%nat ∧
  (∀ l, e = QTake (Some (Z.of_nat i, l)) → ∃ c, Z.of_nat i :: c ∈ hs).
Proof.
  destruct (start_good sz q0 Hsz Hpow Hnew) as (Hg0 & _ & Hfly & _).
  assert (run qstep (q0, []) (tr ++ [e]) s') as Hrun'
    by (eapply run_app; [done|]; eapply run_cons; [done|constructor]).
  pose proof (qrun_balance _ _ _ i Hg0 Hrun') as Hb. simpl in Hb. rewrite Hfly in Hb.
  split; [lia|]. intros l ->. destruct (qrun_good _ _ _ Hg0 Hrun) as [Hg _].
  destruct (qstep_good _ _ _ Hg Hstep) as (_ & _ & _ & Ht). by apply (Ht i l eq_refl).
Qed.
End Reachable.

(** ** The available ring *)

Definition published (tr : list qevent) : list Z :=
  omap (λ e, match e with QPublish h => Some h | _ => None end) tr.

(** The ring after the heads [hd] have been published: the free-running
    index, and in each of the last [sz] slots the head published there. *)
Definition ring_shows (q : SplitQueue) (hd : list Z) : Prop :=
  avail_idx q = Z.of_nat (length hd) mod 2 ^ 16 ∧
  ∀ j h, hd !! j = Some h → Z.of_nat (length hd) - Z.of_nat j ≤ qsize q →
    avail_ring q !! Z.to_nat (Z.of_nat j mod qsize q) = Some h.

Lemma mod_mod_pow2 sz k x :
  0 ≤ k → is_power_of_two sz = true → sz ≤ 2 ^ k → (x mod 2 ^ k) mod sz = x mod sz.
Proof.
  intros Hk (j & Hj & ->)%is_power_of_two_spec Hle.
  assert (j ≤ k) as Hjk by (apply (Z.pow_le_mono_r_iff 2); lia).
  pose proof (pow2_pos j Hj). pose proof (pow2_pos k Hk).
  replace (2 ^ k) with (2 ^ j * 2 ^ (k - j)) by (rewrite <- Z.pow_add_r by lia; f_equal; lia).
  rewrite Z.rem_mul_r by (try apply pow2_pos; lia).
  rewrite Z.mul_comm, Z.mod_add by lia. by rewrite Z.mod_mod by lia.
Qed.

Lemma ring_shows_publish q fl cs i c q' hd idx :
  qinv q fl cs → is_power_of_two (qsize q) = true → i :: c ∈ cs →
  publish q (Z.of_nat i) = Ret (idx, q') → ring_shows q hd → ring_shows q' (hd ++ [Z.of_nat i]).
Proof.
  intros Hq Hpow Hi He [Hidx Hring]. pose proof (qi_size _ _ _ Hq) as Hsz.
  destruct (publish_ok _ _ _ _ _ Hq Hi) as (q1 & He' & _ & _ & _ & Ha & Hr & Hs).
  rewrite He in He'. injection He' as -> ->. unfold ring_shows. rewrite Hs, Ha, Hr.
  rewrite length_app. cbn [length].
  assert (avail_idx q mod qsize q = Z.of_nat (length hd) mod qsize q) as Hslot
    by (rewrite Hidx; apply mod_mod_pow2; lia || done).
  pose proof (qi_avail _ _ _ Hq) as Hlen.
  pose proof (Z.mod_pos_bound (Z.of_nat (length hd)) (qsize q) ltac:(lia)) as Hb.
  split.
  - unfold wrapping_add. rewrite Hidx, Z.add_mod_idemp_l by lia. f_equal. lia.
  - intros j h Hj Hd. rewrite Hslot. apply lookup_app_Some in Hj as [Hj|[Hj1 Hj2]].
    + apply lookup_lt_Some in Hj as Hlt. rewrite list_lookup_insert_ne.
      * apply Hring; [done|lia].
      * pose proof (Z.mod_pos_bound (Z.of_nat j) (qsize q) ltac:(lia)).
        intros E. apply Z2Nat.inj in E; [|lia..].
        assert ((Z.of_nat (length hd) - Z.of_nat j) mod qsize q = 0) as Hz.
        { rewrite Zminus_mod, E, Z.sub_diag. apply Z.mod_0_l. lia. }
        rewrite Z.mod_small in Hz by lia. lia.
    + destruct (j - length hd)%nat as [|m] eqn:Em; [|done]. injection Hj2 as <-.
      replace j with (length hd) by lia. apply list_lookup_insert_eq. lia.
Qed.

Lemma qstep_ring s e s' hd :
  qgood s → is_power_of_two (qsize s.1) = true → qstep s e s' → ring_shows s.1 hd →
  ring_shows s'.1 (hd ++ published [e]).
Proof.
  intros (fl & cs & Hq & Hcs) Hpow Hstep Hr. destruct Hstep as [q hs n h q' c Hn He Hw|q hs n q' Hn He
    |q hs h c hs' q' Hp He|q hs i c a l w q' Hc Hi He|q hs h c idx q' Hin He
    |q hs slot r q' Hs He|q hs slot bs b q' Hs He]; simpl in *; rewrite ?app_nil_r.
  - destruct (decide (0 < n ≤ free q)) as [Hn'|Hn'].
    2:{ rewrite alloc_chain_refused in He by lia. done. }
    destruct (alloc_chain_ok _ _ _ _ Hq Hn') as (i & c0 & rest & q1 & _ & _ & He' & _ & H1 & H2 & _ & _ & H3 & _).
    rewrite He in He'. injection He' as -> ->. unfold ring_shows. by rewrite H1, H2, H3.
  - destruct (decide (0 < n ≤ free q)) as [Hn'|Hn'].
    { destruct (alloc_chain_ok _ _ _ _ Hq Hn') as (i & c0 & rest & q1 & _ & _ & He' & _).
      rewrite He in He'. done. }
    rewrite alloc_chain_refused in He by lia. by injection He as <-.
  - rewrite Hcs in Hp. apply map_cons_inv in Hp as (i & c0 & cs0 & Hp & -> & Hcs').
    destruct (free_chain_ok _ _ _ _ _ _ Hq Hp) as (q1 & He' & _ & H1 & H2 & _ & _ & H3 & _).
    rewrite He in He'. injection He' as ->. unfold ring_shows. by rewrite H1, H2, H3.
  - destruct (held_index _ _ _ _ Hcs Hc Hi) as (j & -> & Hj).
    destruct (describe_ok _ _ _ _ a l w Hq Hj) as (q1 & He' & _ & d & d' & _ & Heq & _).
    rewrite He in He'. injection He' as ->. by rewrite Heq.
  - destruct (held_head _ _ _ _ Hcs Hin) as (i & c0 & -> & -> & Hi).
    by eapply ring_shows_publish.
  - destruct (take_used_ok _ _ _ _ Hq Hs) as [He'|(i & c & l & q1 & He' & _ & _ & Heq & _)];
      rewrite He in He'; injection He' as -> ->; [done|]. by rewrite Heq.
  - destruct (ingest_used_slot_ok _ _ _ _ bs Hq Hs) as (b' & q1 & He' & _ & Heq & _).
    rewrite He in He'. injection He' as -> ->. by rewrite Heq.
Qed.

(** The device sees every request, in order, however often the 16-bit
    index wraps: after any history, the available index is the number of
    publications modulo [2^16], and each of the last [size] published heads
    is in the ring slot its position selects. *)
Theorem available_ring_is_faithful (sz : Z) (q0 q : SplitQueue) (tr : list qevent)
    (hs : list (list Z)) (Hsz : 0 < sz < 2 ^ 16 - 1) (Hpow : is_power_of_two sz = true)
    (Hnew : new sz = Ret q0) (Hrun : run qstep (q0, []) tr (q, hs)) :
  ring_shows q (published tr).
Proof.
  destruct (start_good sz q0 Hsz Hpow Hnew) as (Hg & Hs & _ & Hi).
  assert (∀ s tr s' hd, run qstep s tr s' → qgood s → qsize s.1 = sz → ring_shows s.1 hd →
    ring_shows s'.1 (hd ++ published tr)) as Hgen.
  { intros s tr' s' hd Hr. revert hd. induction Hr as [s|s e s1 tr' s2 He Hr IH];
      intros hd Hg' Hs' Hring; [by rewrite app_nil_r|].
    destruct (qstep_good _ _ _ Hg' He) as (Hg1 & Hs1 & _).
    replace (hd ++ published (e :: tr')) with ((hd ++ published [e]) ++ published tr').
    - apply IH; [done|congruence|]. apply (qstep_ring s); [done| |done..]. by rewrite Hs'.
    - rewrite <- app_assoc. f_equal. unfold published. simpl. by destruct e. }
  apply (Hgen _ _ _ [] Hrun Hg Hs). split; [exact Hi|].
  intros j h Hj. by rewrite lookup_nil in Hj.
Qed.

(** ** Layout *)

(** What a device parses: little-endian fields at fixed offsets. *)
Definition field (n : nat) (off : nat) (b : list byte) : Z := from_le_bytes (take n (drop off b)).
Definition desc_of_bytes (b : list byte) : Descriptor :=
  mkDesc (field 8 0 b) (field 4 8 b) (field 2 12 b) (field 2 14 b).
Definition header_of_bytes (b : list byte) : RequestHeader :=
  mkHeader (field 4 0 b) (field 4 4 b) (field 8 8 b).

Lemma align_up_spec v n : 0 < n → v ≤ align_up v n < v + n ∧ align_up v n mod n = 0.
Proof.
  intros Hn. unfold align_up. split; [|by apply Z.mod_mul; lia].
  pose proof (Z.div_mod (v + n - 1) n ltac:(lia)) as H.
  pose proof (Z.mod_pos_bound (v + n - 1) n Hn). lia.
Qed.

(** The bytes the device reads are the values the driver meant.  A
    descriptor and a request header decode to themselves; for every queue
    size the three ring parts are disjoint, in order, and aligned as the
    device assumes (16, 2 and 4 bytes); the kernel's queue of 64 fits one
    page; and of all status bytes only 0 reports success. *)
Theorem ring_layout_and_wire_formats :
  (∀ d, fits 64 (addr d) → fits 32 (dlen d) → fits 16 (flags d) → fits 16 (next d) →
     Z.of_nat (length (to_bytes d)) = Descriptor_BYTES ∧ desc_of_bytes (to_bytes d) = d) ∧
  (∀ s, fits 64 s →
     Z.of_nat (length (header_to_bytes (header_read s))) = RequestHeader_BYTES ∧
     header_of_bytes (header_to_bytes (header_read s)) = header_read s ∧
     header_of_bytes (header_to_bytes (header_write s)) = header_write s) ∧
  (∀ sz, 0 < sz →
     let l := ring_layout sz in
     ldesc l mod 16 = 0 ∧ lavail l mod 2 = 0 ∧ lused l mod 4 = 0 ∧
     ldesc l + Descriptor_BYTES * sz ≤ lavail l ∧
     lavail l + RING_HEADER + 2 * sz + RING_FOOTER ≤ lused l ∧
     lused l + RING_HEADER + 8 * sz ≤ lbytes l) ∧
  lbytes (ring_layout QUEUE_SIZE) ≤ 4096 ∧
  (∀ b, status_from_byte b = BlkOk ↔ b = 0).
Proof.
  split; [|split; [|split; [|split]]].
  - intros [a l f n] Ha Hl Hf Hn. unfold to_bytes, desc_of_bytes, field. simpl addr. simpl dlen.
    simpl flags. simpl next. rewrite !length_app, !length_to_le_bytes. split; [done|].
    f_equal; [rewrite <- (from_to_le_bytes 8 a) at 2|rewrite <- (from_to_le_bytes 4 l) at 2|
      rewrite <- (from_to_le_bytes 2 f) at 2|rewrite <- (from_to_le_bytes 2 n) at 2]; done.
  - intros s Hs. unfold header_to_bytes, header_of_bytes, field. simpl rkind. simpl sector.
    simpl reserved. rewrite !length_app, !length_to_le_bytes. split; [done|].
    split; (unfold header_read, header_write; f_equal;
      rewrite <- (from_to_le_bytes 8 s) at 2; done).
  - intros sz Hsz. unfold ring_layout. cbn [ldesc lavail lused lbytes].
    unfold Descriptor_BYTES, RING_HEADER, RING_FOOTER.
    destruct (align_up_spec (0 + 16 * sz + 4 + 2 * sz + 2) 4 ltac:(lia)) as [Hb Hm].
    repeat split; try lia. replace (0 + 16 * sz) with (8 * sz * 2) by lia. apply Z.mod_mul. lia.
  - vm_compute. congruence.
  - intros b. unfold status_from_byte. destruct (Z.eqb_spec b 0); [done|].
    destruct (b =? 1); [done|]. destruct (b =? 2); done.
Qed.

(** A request's life: a chain of three, described, published, reported by
    the device, consumed. *)
Definition q4 : SplitQueue := match new 4 with Ret q => q | Panic => mkQueue 0 [] 0 0 [] 0 [] [] end.
Definition q4_alloc : SplitQueue := match alloc_chain q4 3 with Ret (_, q) => q | Panic => q4 end.
Definition q4_pub : SplitQueue := match publish q4_alloc 0 with Ret (_, q) => q | Panic => q4 end.

Lemma q4_run :
  run qstep (q4, []) [QAlloc 3 (Some 0); QPublish 0] (q4_pub, [[0; 1; 2]]).
Proof.
  eapply run_cons.
  - apply (q_alloc_some q4 [] 3 0 q4_alloc [0; 1; 2]); [lia|vm_compute; reflexivity..].
  - eapply run_cons; [|constructor].
    apply (q_publish q4_alloc [[0; 1; 2]] 0 [1; 2] 1 q4_pub); [left|vm_compute; reflexivity].
Qed.

Lemma descriptors_are_partitioned_witness :
  NoDup (concat [[0; 1; 2]]) ∧ (∀ i, i ∈ concat [[0; 1; 2]] → 0 ≤ i < 4).
Proof.
  destruct (descriptors_are_partitioned 4 q4 q4_pub [QAlloc 3 (Some 0); QPublish 0] [[0; 1; 2]])
    as (H1 & H2 & _); [lia|reflexivity|reflexivity|exact q4_run|].
  split; assumption.
Defined.

Lemma completions_are_consumed_once_witness :
  ∃ c, 0 :: c ∈ [[0; 1; 2]].
Proof.
  refine (proj2 (completions_are_consumed_once 4 q4 q4_pub [QAlloc 3 (Some 0); QPublish 0]
    [[0; 1; 2]] _ _ _ _ 0%nat (QTake (Some (0, 0)))
    (set_in_flight q4_pub (<[0%nat := false]> (in_flight q4_pub)), [[0; 1; 2]]) _) 0 eq_refl);
    [lia|reflexivity|reflexivity|exact q4_run|].
  apply (q_take q4_pub [[0; 1; 2]] 0); [lia|vm_compute; reflexivity].
Defined.

Lemma available_ring_is_faithful_witness : ring_shows q4_pub [0].
Proof.
  refine (available_ring_is_faithful 4 q4 q4_pub [QAlloc 3 (Some 0); QPublish 0] [[0; 1; 2]]
    _ _ _ _); [lia|reflexivity|reflexivity|exact q4_run].
Defined.
