(* ===== verification/Buddy.v ===== *)
(** The physical frame allocator: [crates/qunix-mm/src/{lib,buddy}.rs].

    A binary buddy allocator whose free lists are doubly linked and threaded
    through the frames it manages, with an in-band tag that says which list
    a block is on.  The memory those words live in belongs to the
    allocator's callers while a block is out, so it is a parameter: a
    [FrameBacking], which the code only reads and writes a word at a time.
    Proofs about this model are in [BuddyProofs]. *)
From S2P Require Import Prelude Bits.

Definition PAGE_SIZE : Z := 4096.
Definition MAX_ORDER : Z := 18.
Definition NIL : Z := 2 ^ 64 - 1.
Definition OFF_NEXT : Z := 0.
Definition OFF_PREV : Z := 8.
Definition OFF_TAG : Z := 16.
Definition TAG_SEED : Z := 0x51554E49585F4652.
Definition MAX_REGIONS : Z := 128.

(** [trait FrameBacking]: a word read back is the word last written there;
    words at different 8-byte-aligned addresses do not interfere. *)
Class FrameBacking (B : Type) := {
  read_link : B → Z → Z;
  write_link : B → Z → Z → B;
  read_write_same : ∀ b pa v, pa mod 8 = 0 → read_link (write_link b pa v) pa = v;
  read_write_other : ∀ b pa pa' v, pa mod 8 = 0 → pa' mod 8 = 0 → pa ≠ pa' →
    read_link (write_link b pa v) pa' = read_link b pa'
}.

Record BuddyAllocator (B : Type) := mkBuddy
  { backing : B; free_lists : list Z; nonempty : Z; free_bytes : Z; foreign_frees : Z;
    rejected_unlinks : Z; truncated_lists : Z; regions : list (Z * Z); region_count : Z;
    edge_dropped_bytes : Z; refused_region_bytes : Z; refused_regions : Z;
    malformed_region_bytes : Z }.
Arguments mkBuddy {B}.
Arguments backing {B}. Arguments free_lists {B}. Arguments nonempty {B}.
Arguments free_bytes {B}. Arguments foreign_frees {B}. Arguments rejected_unlinks {B}.
Arguments truncated_lists {B}. Arguments regions {B}. Arguments region_count {B}.
Arguments edge_dropped_bytes {B}. Arguments refused_region_bytes {B}.
Arguments refused_regions {B}. Arguments malformed_region_bytes {B}.

(** [block_size], [free_tag]. *)
Definition block_size (order : Z) : Z := Z.shiftl PAGE_SIZE order.
Definition free_tag (pa order : Z) : Z :=
  Z.lor (Z.lxor (Z.lxor TAG_SEED pa) (wrapping_mul 64 order 0x9E3779B97F4A7C15)) 1.

Section Ops.
Context {B : Type} `{FrameBacking B}.
Implicit Type a : BuddyAllocator B.

Definition set_mem a (b : B) : BuddyAllocator B :=
  mkBuddy b (free_lists a) (nonempty a) (free_bytes a) (foreign_frees a) (rejected_unlinks a)
    (truncated_lists a) (regions a) (region_count a) (edge_dropped_bytes a)
    (refused_region_bytes a) (refused_regions a) (malformed_region_bytes a).
Definition set_lists a (l : list Z) (n : Z) : BuddyAllocator B :=
  mkBuddy (backing a) l n (free_bytes a) (foreign_frees a) (rejected_unlinks a)
    (truncated_lists a) (regions a) (region_count a) (edge_dropped_bytes a)
    (refused_region_bytes a) (refused_regions a) (malformed_region_bytes a).
Definition set_free_bytes a (f : Z) : BuddyAllocator B :=
  mkBuddy (backing a) (free_lists a) (nonempty a) f (foreign_frees a) (rejected_unlinks a)
    (truncated_lists a) (regions a) (region_count a) (edge_dropped_bytes a)
    (refused_region_bytes a) (refused_regions a) (malformed_region_bytes a).
Definition set_counters a (foreign rejected truncated : Z) : BuddyAllocator B :=
  mkBuddy (backing a) (free_lists a) (nonempty a) (free_bytes a) foreign rejected
    truncated (regions a) (region_count a) (edge_dropped_bytes a)
    (refused_region_bytes a) (refused_regions a) (malformed_region_bytes a).
Definition set_regions a (r : list (Z * Z)) (n : Z) : BuddyAllocator B :=
  mkBuddy (backing a) (free_lists a) (nonempty a) (free_bytes a) (foreign_frees a)
    (rejected_unlinks a) (truncated_lists a) r n (edge_dropped_bytes a)
    (refused_region_bytes a) (refused_regions a) (malformed_region_bytes a).
Definition set_dropped a (edge refused refused_n malformed : Z) : BuddyAllocator B :=
  mkBuddy (backing a) (free_lists a) (nonempty a) (free_bytes a) (foreign_frees a)
    (rejected_unlinks a) (truncated_lists a) (regions a) (region_count a) edge
    refused refused_n malformed.

(** [BuddyAllocator::new]. *)
Definition new (b : B) : BuddyAllocator B :=
  mkBuddy b (replicate (Z.to_nat (MAX_ORDER + 1)) NIL) 0 0 0 0 0
    (replicate (Z.to_nat MAX_REGIONS) (0, 0)) 0 0 0 0 0.

(** [set_backing]. *)
Definition set_backing a (b : B) : outcome (BuddyAllocator B) :=
  _ ← rust_assert (region_count a =? 0);
  Ret (set_mem a b).

Definition dropped_bytes a : outcome Z :=
  x ← add_chk 64 (edge_dropped_bytes a) (refused_region_bytes a);
  add_chk 64 x (malformed_region_bytes a).

(** [region_of]. *)
Definition in_region (block : Z) (r : Z * Z) : bool := (r.1 <=? block) && (block <? r.2).
Definition region_of a (block : Z) : option (Z * Z) :=
  find_first (in_region block) (take (Z.to_nat (region_count a)) (regions a)).

(** [word], [set_word]. *)
Definition word a (pa off : Z) : outcome Z :=
  x ← add_chk 64 pa off; Ret (read_link (backing a) x).
Definition set_word a (pa off v : Z) : outcome (BuddyAllocator B) :=
  x ← add_chk 64 pa off; Ret (set_mem a (write_link (backing a) x v)).

(** [push]. *)
Definition push a (pa order : Z) : outcome (BuddyAllocator B) :=
  head ← index (free_lists a) order;
  a ← set_word a pa OFF_NEXT head;
  a ← set_word a pa OFF_PREV NIL;
  a ← set_word a pa OFF_TAG (free_tag pa order);
  a ← (if negb (head =? NIL) then set_word a head OFF_PREV pa else Ret a);
  l ← set_index (free_lists a) order pa;
  Ret (set_lists a l (Z.lor (nonempty a) (Z.shiftl 1 order))).

(** [plausible_link]. *)
Definition plausible_link a (link order : Z) : bool :=
  (link =? NIL) ||
  (is_multiple_of link (block_size order) &&
   match region_of a link with Some _ => true | None => false end).

(** [!(1 << order)] on a [u32]. *)
Definition without_bit (mask order : Z) : Z := Z.land mask (bitnot 32 (Z.shiftl 1 order)).

(** [pop]. *)
Definition pop a (order : Z) : outcome (option Z * BuddyAllocator B) :=
  head ← index (free_lists a) order;
  if head =? NIL then Ret (None, a) else
  link ← word a head OFF_NEXT;
  '(next, a) ← (if plausible_link a link order then Ret (link, a)
                else t ← add_chk 64 (truncated_lists a) 1;
                     Ret (NIL, set_counters a (foreign_frees a) (rejected_unlinks a) t));
  l ← set_index (free_lists a) order next;
  a ← (if next =? NIL then Ret (set_lists a l (without_bit (nonempty a) order))
       else set_word (set_lists a l (nonempty a)) next OFF_PREV NIL);
  a ← set_word a head OFF_TAG 0;
  Ret (Some head, a).

(** [free_neighbour]. *)
Definition free_neighbour a (link order : Z) : outcome bool :=
  if link =? NIL then Ret true
  else if plausible_link a link order
       then t ← word a link OFF_TAG; Ret (t =? free_tag link order)
       else Ret false.

(** [unlink]. *)
Definition unlink a (pa order : Z) : outcome (bool * BuddyAllocator B) :=
  t ← word a pa OFF_TAG;
  if negb (t =? free_tag pa order) then Ret (false, a) else
  prev ← word a pa OFF_PREV;
  next ← word a pa OFF_NEXT;
  p_ok ← free_neighbour a prev order;
  n_ok ← (if negb p_ok then Ret false else free_neighbour a next order);
  if negb p_ok || negb n_ok then
    r ← add_chk 64 (rejected_unlinks a) 1;
    Ret (false, set_counters a (foreign_frees a) r (truncated_lists a))
  else
    a ← (if prev =? NIL then
           l ← set_index (free_lists a) order next;
           Ret (set_lists a l
                  (if next =? NIL then without_bit (nonempty a) order else nonempty a))
         else set_word a prev OFF_NEXT next);
    a ← (if negb (next =? NIL) then set_word a next OFF_PREV prev else Ret a);
    a ← set_word a pa OFF_TAG 0;
    Ret (true, a).

(** [checked_next_multiple_of(PAGE_SIZE)]. *)
Definition checked_next_multiple (x n : Z) : option Z :=
  if x mod n =? 0 then Some x else checked_add 64 x (n - x mod n).

(** The carving loop of [add_region]; one page at least goes per turn, so
    [(end - addr) / PAGE_SIZE] turns are enough. *)
Definition carve_order (addr stop : Z) : Z :=
  let by_align := saturating_sub (trailing_zeros 64 addr) (trailing_zeros 64 PAGE_SIZE) in
  let by_fit := Z.log2 ((stop - addr) / PAGE_SIZE) in
  Z.min (Z.min by_align by_fit) MAX_ORDER.
Fixpoint carve (fuel : nat) a (addr stop : Z) : outcome (BuddyAllocator B) :=
  match fuel with
  | O => Ret a
  | S fuel' =>
      if negb (addr <? stop) then Ret a else
      let order := carve_order addr stop in
      a ← push a addr order;
      f ← add_chk 64 (free_bytes a) (block_size order);
      addr' ← add_chk 64 addr (block_size order);
      carve fuel' (set_free_bytes a f) addr' stop
  end.

(** [add_region]. *)
Definition add_region a (start len : Z) : outcome (BuddyAllocator B) :=
  match checked_next_multiple start PAGE_SIZE, checked_add 64 start len with
  | Some addr, Some limit =>
      let stop := Z.land limit (bitnot 64 (PAGE_SIZE - 1)) in
      if stop <=? addr then
        m ← add_chk 64 (malformed_region_bytes a) len;
        Ret (set_dropped a (edge_dropped_bytes a) (refused_region_bytes a) (refused_regions a) m)
      else
        d1 ← sub_chk addr start;
        d2 ← sub_chk limit stop;
        d ← add_chk 64 d1 d2;
        e ← add_chk 64 (edge_dropped_bytes a) d;
        let a := set_dropped a e (refused_region_bytes a) (refused_regions a)
                   (malformed_region_bytes a) in
        if region_count a =? MAX_REGIONS then
          r ← add_chk 64 (refused_region_bytes a) (stop - addr);
          n ← add_chk 32 (refused_regions a) 1;
          Ret (set_dropped a (edge_dropped_bytes a) r n (malformed_region_bytes a))
        else
          rs ← set_index (regions a) (region_count a) (addr, stop);
          carve (Z.to_nat ((stop - addr) / PAGE_SIZE))
            (set_regions a rs (region_count a + 1)) addr stop
  | _, _ =>
      m ← add_chk 64 (malformed_region_bytes a) len;
      Ret (set_dropped a (edge_dropped_bytes a) (refused_region_bytes a) (refused_regions a) m)
  end.

(** [alloc]: the split loop, then the whole. *)
Fixpoint split_down (n : nat) a (pa source : Z) : outcome (BuddyAllocator B) :=
  match n with
  | O => Ret a
  | S n' =>
      let source := source - 1 in
      buddy ← add_chk 64 pa (block_size source);
      a ← push a buddy source;
      split_down n' a pa source
  end.
Definition alloc a (order : Z) : outcome (option Z * BuddyAllocator B) :=
  if MAX_ORDER <? order then Ret (None, a) else
  let usable := Z.land (nonempty a) (bitnot 32 (Z.shiftl 1 order - 1)) in
  if usable =? 0 then Ret (None, a) else
  let source := trailing_zeros 32 usable in
  '(o, a) ← pop a source;
  match o with
  | None => Ret (None, a)
  | Some pa =>
      a ← split_down (Z.to_nat (source - order)) a pa source;
      f ← sub_chk (free_bytes a) (block_size order);
      Ret (Some pa, set_free_bytes a f)
  end.

(** [free]: the double-free scan over the non-empty orders ([mask] has at
    most 32 bits), the merge loop, the whole. *)
Fixpoint scan (fuel : nat) a (pa region_start mask : Z) : outcome unit :=
  match fuel with
  | O => Ret tt
  | S fuel' =>
      if mask =? 0 then Ret tt else
      let o := trailing_zeros 32 mask in
      let mask := Z.land mask (mask - 1) in
      let containing := Z.land pa (bitnot 64 (block_size o - 1)) in
      if containing <? region_start then Ret tt else
      t ← word a containing OFF_TAG;
      _ ← rust_assert (negb (t =? free_tag containing o));
      scan fuel' a pa region_start mask
  end.
Fixpoint merge (fuel : nat) a (pa order region_start region_end : Z)
    : outcome (BuddyAllocator B * Z * Z) :=
  match fuel with
  | O => Ret (a, pa, order)
  | S fuel' =>
      if negb (order <? MAX_ORDER) then Ret (a, pa, order) else
      let size := block_size order in
      let buddy := Z.lxor pa size in
      if (buddy <? region_start) || (region_end <=? buddy) || (region_end - buddy <? size)
      then Ret (a, pa, order)
      else
        '(merged, a) ← unlink a buddy order;
        if negb merged then Ret (a, pa, order)
        else merge fuel' a (Z.min pa buddy) (order + 1) region_start region_end
  end.
Definition refuse a (order : Z) : outcome (BuddyAllocator B) :=
  f ← sub_chk (free_bytes a) (block_size order);
  x ← add_chk 64 (foreign_frees a) (block_size order);
  Ret (set_counters (set_free_bytes a f) x (rejected_unlinks a) (truncated_lists a)).
Definition free a (pa order : Z) : outcome (BuddyAllocator B) :=
  _ ← rust_assert (order <=? MAX_ORDER);
  _ ← rust_assert (0 <? region_count a);
  f ← add_chk 64 (free_bytes a) (block_size order);
  let a := set_free_bytes a f in
  match region_of a pa with
  | None => refuse a order
  | Some (region_start, region_end) =>
      if region_end - pa <? block_size order then refuse a order
      else if negb (is_multiple_of pa (block_size order)) then refuse a order
      else
        _ ← scan 32 a pa region_start (nonempty a);
        '(a, pa, order) ← merge 18 a pa order region_start region_end;
        push a pa order
  end.
End Ops.
