(* ===== verification/BuddyProofs.v ===== *)
(** Proofs about the buddy allocator of [Buddy].

    The invariant names the free lists: [L] holds, for each order, the
    addresses on that order's list, first to last.  The allocator's memory
    threads exactly those lists; the blocks they name are aligned, inside
    one region and pairwise disjoint; and a tag is found in memory only at a
    block that is on the list the tag names. *)
From S2P Require Import Prelude Bits Buddy.

(** ** Sizes, alignment, tags *)

Lemma block_size_eq n : 0 ≤ n → block_size n = 4096 * 2 ^ n.
Proof. intros. unfold block_size. by rewrite Z.shiftl_mul_pow2. Qed.

Lemma block_size_pow n : 0 ≤ n → block_size n = 2 ^ (12 + n).
Proof. intros. rewrite block_size_eq, Z.pow_add_r by lia. done. Qed.

Lemma block_size_pos n : 0 ≤ n → 4096 ≤ block_size n.
Proof. intros. rewrite block_size_eq by done. pose proof (pow2_pos n). lia. Qed.

Lemma block_size_succ n : 0 ≤ n → block_size (n + 1) = 2 * block_size n.
Proof. intros. rewrite !block_size_eq, pow2_succ by lia. lia. Qed.

Lemma block_size_le m n : 0 ≤ m ≤ n → block_size m ≤ block_size n.
Proof. intros. rewrite !block_size_pow by lia. apply pow2_le. lia. Qed.

Lemma block_size_max n : 0 ≤ n ≤ 18 → block_size n ≤ 2 ^ 30.
Proof. intros. rewrite block_size_pow by lia. apply pow2_le. lia. Qed.

Lemma aligned_le x m n : 0 ≤ m ≤ n → x mod block_size n = 0 → x mod block_size m = 0.
Proof. intros. rewrite block_size_pow in * by lia. eapply mod_pow2_le; [|done]. lia. Qed.

Lemma aligned_page x n : 0 ≤ n → x mod block_size n = 0 → x mod 4096 = 0.
Proof. intros ? Hx. apply (aligned_le x 0 n) in Hx; [done|lia]. Qed.

(** The address of a page a block can start at. *)
Definition page (p : Z) : Prop := p mod 4096 = 0 ∧ 0 ≤ p < 2 ^ 64 - 4096.

Definition is_field (f : Z) : Prop := f = OFF_NEXT ∨ f = OFF_PREV ∨ f = OFF_TAG.

Lemma field_next : is_field OFF_NEXT.
Proof. by left. Qed.
Lemma field_prev : is_field OFF_PREV.
Proof. right. by left. Qed.
Lemma field_tag : is_field OFF_TAG.
Proof. right. by right. Qed.
#[local] Hint Resolve field_next field_prev field_tag : core.

Lemma page_not_NIL p : page p → p ≠ NIL.
Proof. unfold page, NIL. lia. Qed.

Lemma field_inj p p' f f' : page p → page p' → is_field f → is_field f' → p + f = p' + f' → p = p' ∧ f = f'.
Proof.
  intros [Hp _] [Hp' _] Hf Hf' E. unfold is_field, OFF_NEXT, OFF_PREV, OFF_TAG in *.
  assert (p = p'); [|lia].
  destruct (Z.le_gt_cases p p').
  - eapply (mod_eq_close p p' 4096); try done; lia.
  - symmetry. eapply (mod_eq_close p' p 4096); try done; lia.
Qed.

Lemma field_aligned p f : page p → is_field f → (p + f) mod 8 = 0.
Proof.
  intros [Hp _] Hf. apply Z.mod_divide in Hp as [k ->]; [|lia].
  replace (k * 4096 + f) with (f + (k * 512) * 8) by lia. rewrite Z.mod_add by lia.
  unfold is_field, OFF_NEXT, OFF_PREV, OFF_TAG in Hf. by destruct Hf as [->|[->| ->]].
Qed.

Lemma free_tag_nonzero p n : free_tag p n ≠ 0.
Proof.
  unfold free_tag. intros E.
  apply (f_equal (λ z, Z.testbit z 0)) in E. rewrite Z.lor_spec, Z.testbit_0_l in E.
  by rewrite orb_true_r in E.
Qed.

(** A block's tags at different orders differ. *)
Lemma order_keys_distinct :
  forallb (λ m, forallb (λ n,
    implb (Z.lor (Z.lxor (wrapping_mul 64 m 0x9E3779B97F4A7C15)
                         (wrapping_mul 64 n 0x9E3779B97F4A7C15)) 1 =? 1) (m =? n))
    (map Z.of_nat (seq 0 19))) (map Z.of_nat (seq 0 19)) = true.
Proof. vm_compute. reflexivity. Qed.

Lemma free_tag_inj p m n : 0 ≤ m ≤ 18 → 0 ≤ n ≤ 18 → free_tag p m = free_tag p n → m = n.
Proof.
  intros Hm Hn E. pose proof order_keys_distinct as Hk.
  rewrite forallb_forall in Hk. specialize (Hk m).
  rewrite <- list_elem_of_In, list_elem_of_fmap in Hk.
  specialize (Hk ltac:(exists (Z.to_nat m); split; [lia|apply elem_of_seq; lia])).
  rewrite forallb_forall in Hk. specialize (Hk n).
  rewrite <- list_elem_of_In, list_elem_of_fmap in Hk.
  specialize (Hk ltac:(exists (Z.to_nat n); split; [lia|apply elem_of_seq; lia])).
  rewrite implb_true_iff in Hk. apply Z.eqb_eq, Hk, Z.eqb_eq.
  unfold free_tag in E. set (km := wrapping_mul _ m _) in *. set (kn := wrapping_mul _ n _) in *.
  apply Z.bits_inj'. intros i Hi. rewrite Z.lor_spec, Z.lxor_spec.
  assert (Z.testbit (Z.lor (Z.lxor (Z.lxor TAG_SEED p) km) 1) i =
          Z.testbit (Z.lor (Z.lxor (Z.lxor TAG_SEED p) kn) 1) i) as Hb by by rewrite E.
  rewrite !Z.lor_spec, !Z.lxor_spec in Hb. destruct (Z.testbit 1 i); [apply orb_true_r|].
  rewrite !orb_false_r in *.
  destruct (xorb (Z.testbit TAG_SEED i) (Z.testbit p i)), (Z.testbit km i), (Z.testbit kn i); done.
Qed.

(** ** Memory *)

Section Proofs.
Context {B : Type} `{HB : FrameBacking B}.
Implicit Types (a : BuddyAllocator B) (b : B).

Definition rd b (p f : Z) : Z := read_link b (p + f).
Definition wr b (p f v : Z) : B := write_link b (p + f) v.

Lemma rd_wr_same b p f v : page p → is_field f → rd (wr b p f v) p f = v.
Proof. intros. apply read_write_same. by apply field_aligned. Qed.

Lemma rd_wr_other b p f v p' f' :
  page p → is_field f → page p' → is_field f' → p ≠ p' ∨ f ≠ f' →
  rd (wr b p f v) p' f' = rd b p' f'.
Proof.
  intros Hp Hf Hp' Hf' Hne. apply read_write_other; [by apply field_aligned..|].
  intros E. apply field_inj in E; [|done..]. tauto.
Qed.

Lemma word_eq a p f : page p → is_field f → word a p f = Ret (rd (backing a) p f).
Proof.
  intros [_ Hp] Hf. unfold word. rewrite add_chk_ok; [done|].
  unfold is_field, OFF_NEXT, OFF_PREV, OFF_TAG in Hf. lia.
Qed.

Lemma set_word_eq a p f v : page p → is_field f → set_word a p f v = Ret (set_mem a (wr (backing a) p f v)).
Proof.
  intros [_ Hp] Hf. unfold set_word. rewrite add_chk_ok; [done|].
  unfold is_field, OFF_NEXT, OFF_PREV, OFF_TAG in Hf. lia.
Qed.

(** ** Doubly linked lists *)

(** [l] is threaded at order [o], its first block pointing back to [prev]
    and its last one on to [after]. *)
Fixpoint dseg b (o prev : Z) (l : list Z) (after : Z) : Prop :=
  match l with
  | [] => True
  | x :: l' =>
      rd b x OFF_PREV = prev ∧ rd b x OFF_NEXT = hd after l' ∧ rd b x OFF_TAG = free_tag x o ∧
      dseg b o x l' after
  end.

Definition last_or (prev : Z) (l : list Z) : Z := default prev (last l).

Lemma last_or_cons prev x l : last_or prev (x :: l) = last_or x l.
Proof. unfold last_or. rewrite last_cons. by destruct (last l). Qed.

Lemma hd_app (d : Z) l1 l2 : hd d (l1 ++ l2) = hd (hd d l2) l1.
Proof. by destruct l1. Qed.

Lemma dseg_app b o prev l1 l2 after :
  dseg b o prev (l1 ++ l2) after ↔
  dseg b o prev l1 (hd after l2) ∧ dseg b o (last_or prev l1) l2 after.
Proof.
  revert prev. induction l1 as [|x l1 IH]; intros prev; simpl; [tauto|].
  rewrite IH, hd_app, last_or_cons. tauto.
Qed.

Lemma NoDup_middle (l1 : list Z) x l2 : NoDup (l1 ++ x :: l2) → (x ∉ l1 ++ l2) ∧ NoDup (l1 ++ l2).
Proof.
  rewrite <- (Permutation_middle l1 l2 x). by rewrite NoDup_cons.
Qed.

(** Writing a field of a block outside the list. *)
Lemma dseg_wr_other b o prev l after p f v :
  page p → is_field f → Forall page l → p ∉ l → dseg b o prev l after →
  dseg (wr b p f v) o prev l after.
Proof.
  intros Hp Hf. revert prev. induction l as [|x l IH]; intros prev Hl Hn; simpl; [done|].
  apply Forall_cons in Hl as [Hx Hl]. apply not_elem_of_cons in Hn as [Hne Hn].
  intros (H1 & H2 & H3 & H4).
  rewrite !rd_wr_other by (done || by left). auto.
Qed.

(** Repointing the last block. *)
Lemma dseg_set_next b o prev l x after v :
  Forall page (l ++ [x]) → NoDup (l ++ [x]) → dseg b o prev (l ++ [x]) after →
  dseg (wr b x OFF_NEXT v) o prev (l ++ [x]) v.
Proof.
  intros Hp Hnd. rewrite !dseg_app. simpl. apply Forall_app in Hp as [Hpl [Hx _]%Forall_cons].
  apply NoDup_app in Hnd as (_ & Hnd & _). intros (H1 & H2 & H3 & H4 & _).
  split.
  - apply dseg_wr_other; [done..| |done]. intros Hin. by apply (Hnd x Hin), list_elem_of_singleton.
  - rewrite rd_wr_same by done.
    rewrite !rd_wr_other by (done || by right). done.
Qed.

(** Repointing the first block. *)
Lemma dseg_set_prev b o prev x l after v :
  Forall page (x :: l) → NoDup (x :: l) → dseg b o prev (x :: l) after →
  dseg (wr b x OFF_PREV v) o v (x :: l) after.
Proof.
  intros [Hx Hl]%Forall_cons [Hn _]%NoDup_cons (H1 & H2 & H3 & H4). simpl.
  rewrite rd_wr_same by done.
  rewrite !rd_wr_other by (done || by right).
  do 3 (split; [done|]). by apply dseg_wr_other.
Qed.

(** A write that leaves the tag words alone keeps every tag. *)
Lemma rd_tag_wr b p f v q : page p → page q → f = OFF_NEXT ∨ f = OFF_PREV → rd (wr b p f v) q OFF_TAG = rd b q OFF_TAG.
Proof.
  intros Hp Hq [-> | ->]; apply rd_wr_other; done || by right.
Qed.

(** [b'] differs from [b] only in the first three words of pages in [S]. *)
Definition untouched b b' (S : Z → Prop) : Prop :=
  ∀ z, z mod 8 = 0 → (∀ y, S y → z < y ∨ y + 24 ≤ z) → read_link b' z = read_link b z.

Lemma untouched_refl b S : untouched b b S.
Proof. intros z _ _. done. Qed.

Lemma untouched_trans b b' b'' S : untouched b b' S → untouched b' b'' S → untouched b b'' S.
Proof. intros H1 H2 z Hz Hs. rewrite H2, H1; done. Qed.

Lemma untouched_mono b b' (S S' : Z → Prop) :
  (∀ y, S y → S' y) → untouched b b' S → untouched b b' S'.
Proof. intros HS H z Hz Hs. apply H; [done|]. auto. Qed.

Lemma untouched_wr b p f v (S : Z → Prop) : page p → is_field f → S p → untouched b (wr b p f v) S.
Proof.
  intros Hp Hf HS z Hz Hs. apply read_write_other; [by apply field_aligned|done|].
  intros <-. specialize (Hs p HS). unfold is_field, OFF_NEXT, OFF_PREV, OFF_TAG in Hf. lia.
Qed.

(** ** The invariant *)

Definition free_at (L : list (list Z)) (x : Z) (n : nat) : Prop :=
  ∃ l, L !! n = Some l ∧ x ∈ l.

Definition active a : list (Z * Z) := take (Z.to_nat (region_count a)) (regions a).

Definition size (n : nat) : Z := block_size (Z.of_nat n).

Definition inside (rs : list (Z * Z)) (x : Z) (n : nat) : Prop :=
  ∃ r, r ∈ rs ∧ r.1 ≤ x ∧ x + size n ≤ r.2.

Definition apart (x : Z) (m : nat) (y : Z) (n : nat) : Prop :=
  x + size m ≤ y ∨ y + size n ≤ x.

Definition region_wf (r : Z * Z) : Prop :=
  r.1 mod 4096 = 0 ∧ r.2 mod 4096 = 0 ∧ 0 ≤ r.1 < r.2 ∧ r.2 < 2 ^ 64.

Definition regions_ok (rs : list (Z * Z)) : Prop :=
  Forall region_wf rs ∧
  ∀ i j r r', rs !! i = Some r → rs !! j = Some r' → i ≠ j → r.2 ≤ r'.1 ∨ r'.2 ≤ r.1.

Record binv a (L : list (list Z)) : Prop := {
  bi_orders : length L = 19%nat;
  bi_heads : length (free_lists a) = 19%nat;
  bi_lists : ∀ n l, L !! n = Some l →
    free_lists a !! n = Some (hd NIL l) ∧ dseg (backing a) (Z.of_nat n) NIL l NIL ∧ NoDup l;
  bi_mask : 0 ≤ nonempty a < 2 ^ 19 ∧
    ∀ n l, L !! n = Some l → Z.testbit (nonempty a) (Z.of_nat n) = bool_decide (l ≠ []);
  bi_blocks : ∀ x n, free_at L x n → x mod size n = 0 ∧ inside (active a) x n;
  bi_apart : ∀ x m y n, free_at L x m → free_at L y n → (x, m) ≠ (y, n) → apart x m y n;
  bi_tags : ∀ p n, (n < 19)%nat → p mod size n = 0 → (∃ r, r ∈ active a ∧ in_region p r = true) →
    rd (backing a) p OFF_TAG = free_tag p (Z.of_nat n) → free_at L p n;
  bi_count : 0 ≤ region_count a ≤ 128 ∧ length (regions a) = 128%nat;
  bi_regions : regions_ok (active a)
}.

(** A block the allocator may put on a list: aligned, in one region, and
    clear of everything that is on a list already. *)
Definition owned a (L : list (list Z)) (x : Z) (n : nat) : Prop :=
  x mod size n = 0 ∧ inside (active a) x n ∧ ∀ y m, free_at L y m → apart x n y m.

(** Nothing but the lists and the memory changes. *)
Definition same_rest a a' : Prop :=
  free_bytes a' = free_bytes a ∧ foreign_frees a' = foreign_frees a ∧
  rejected_unlinks a' = rejected_unlinks a ∧ truncated_lists a' = truncated_lists a ∧
  regions a' = regions a ∧ region_count a' = region_count a ∧
  edge_dropped_bytes a' = edge_dropped_bytes a ∧ refused_region_bytes a' = refused_region_bytes a ∧
  refused_regions a' = refused_regions a ∧ malformed_region_bytes a' = malformed_region_bytes a.

Lemma same_rest_active a a' : same_rest a a' → active a' = active a.
Proof. intros (_ & _ & _ & _ & Hr & Hc & _). unfold active. by rewrite Hr, Hc. Qed.

Lemma size_pos n : 4096 ≤ size n.
Proof. apply block_size_pos. lia. Qed.

Lemma inside_page rs x n : regions_ok rs → x mod size n = 0 → inside rs x n → page x.
Proof.
  intros [Hrs _] Hx (r & Hr & H1 & H2). rewrite Forall_forall in Hrs.
  destruct (Hrs r Hr) as (Ha & Hb & Hc & Hd). pose proof (size_pos n).
  assert (x mod 4096 = 0) as Hx' by (eapply aligned_page; [|done]; lia).
  split; [done|]. split; [lia|].
  assert (r.2 ≤ 2 ^ 64 - 4096); [|lia].
  destruct (Z.le_gt_cases r.2 (2 ^ 64 - 4096)) as [|Hgt]; [done|].
  exfalso. assert (2 ^ 64 - 4096 = r.2); [|lia].
  eapply (mod_eq_close _ _ 4096); [lia|done|done|lia].
Qed.

Lemma region_page rs r p :
  regions_ok rs → r ∈ rs → in_region p r = true → p mod 4096 = 0 → page p.
Proof.
  intros Hrs Hr Hin Hp. apply (inside_page rs p 0%nat); [done..|]. exists r.
  destruct Hrs as [Hrs _]. rewrite Forall_forall in Hrs. destruct (Hrs r Hr) as (_ & Hb & _).
  unfold in_region in Hin. bool_cases. split; [done|]. split; [done|]. change (size 0) with 4096.
  destruct (Z.le_gt_cases (p + 4096) r.2); [done|]. exfalso.
  assert (p = r.2); [|lia]. eapply (mod_eq_close _ _ 4096); try done; lia.
Qed.

Lemma free_page a L x n : binv a L → free_at L x n → page x.
Proof.
  intros Hi Hx. destruct (bi_blocks _ _ Hi x n Hx) as [Ha Hin].
  eapply inside_page; [apply Hi|done..].
Qed.

Lemma owned_page a L x n : binv a L → owned a L x n → page x.
Proof. intros Hi (Ha & Hin & _). eapply inside_page; [apply Hi|done..]. Qed.

Lemma free_pages a L n l : binv a L → L !! n = Some l → Forall page l.
Proof.
  intros Hi Hl. apply Forall_forall. intros x Hx. eapply free_page; [done|]. by exists l.
Qed.

(** Blocks that are apart are not at the same address. *)
Lemma apart_ne x m y n : apart x m y n → x ≠ y.
Proof. unfold apart. pose proof (size_pos m). pose proof (size_pos n). lia. Qed.

Lemma apart_sym y m z k : apart y m z k → apart z k y m.
Proof. unfold apart. tauto. Qed.

Lemma free_at_unique a L x m n : binv a L → free_at L x m → free_at L x n → m = n.
Proof.
  intros Hi Hm Hn. destruct (decide (m = n)) as [|Hne]; [done|].
  pose proof (bi_apart _ _ Hi x m x n Hm Hn ltac:(congruence)) as Ha. by apply apart_ne in Ha.
Qed.

Lemma free_at_insert L n l l' x m :
  L !! n = Some l → free_at (<[n := l']> L) x m ↔ (m = n ∧ x ∈ l') ∨ (m ≠ n ∧ free_at L x m).
Proof.
  intros Hl. unfold free_at. destruct (decide (m = n)) as [->|Hne].
  - rewrite list_lookup_insert_eq by by eapply lookup_lt_Some. naive_solver.
  - rewrite list_lookup_insert_ne by done. naive_solver.
Qed.

(** A block joins a list, or leaves one. *)
Lemma free_at_push L n l x y m :
  L !! n = Some l → free_at (<[n := x :: l]> L) y m ↔ (y = x ∧ m = n) ∨ free_at L y m.
Proof.
  intros Hl. rewrite (free_at_insert _ _ l) by done. rewrite elem_of_cons. unfold free_at.
  destruct (decide (m = n)) as [->|]; naive_solver.
Qed.

Lemma free_at_pop L n h t y m :
  L !! n = Some (h :: t) → free_at (<[n := t]> L) y m → free_at L y m.
Proof.
  intros Hl. rewrite (free_at_insert _ _ (h :: t)) by done. intros [[-> Hy]|[_ Hy]]; [|done].
  exists (h :: t). split; [done|by right].
Qed.

Lemma inside_in_region rs x n : inside rs x n → ∃ r, r ∈ rs ∧ in_region x r = true.
Proof.
  intros (r & Hr & H1 & H2). exists r. split; [done|]. unfold in_region. pose proof (size_pos n).
  rewrite andb_true_iff, Z.leb_le, Z.ltb_lt. lia.
Qed.

Lemma order_bit n : (n < 19)%nat → 0 ≤ 2 ^ Z.of_nat n < 2 ^ 19.
Proof. intros. split; [apply Z.pow_nonneg; lia|]. apply Z.pow_lt_mono_r; lia. Qed.

Lemma set_bit_lt m n : 0 ≤ m < 2 ^ 19 → (n < 19)%nat → 0 ≤ Z.lor m (2 ^ Z.of_nat n) < 2 ^ 19.
Proof.
  intros Hm Hn. pose proof (order_bit n Hn). split; [apply Z.lor_nonneg; lia|].
  destruct (decide (Z.lor m (2 ^ Z.of_nat n) = 0)) as [->|]; [lia|].
  assert (0 ≤ Z.lor m (2 ^ Z.of_nat n)) by (apply Z.lor_nonneg; lia).
  apply Z.log2_lt_pow2; [lia|]. rewrite Z.log2_lor by lia.
  apply Z.max_lub_lt; [|rewrite Z.log2_pow2; lia].
  destruct (decide (m = 0)) as [->|]; [done|]. apply Z.log2_lt_pow2; lia.
Qed.

Lemma untouched_rd b b' (S : Z → Prop) y f :
  untouched b b' S → (∀ w, S w → page w) → page y → ¬ S y → is_field f →
  rd b' y f = rd b y f.
Proof.
  intros Hu HS Hy Hn Hf. apply Hu; [by apply field_aligned|]. intros w Hw.
  destruct (HS w Hw) as [Hwa _], Hy as [Hya _].
  assert (w ≠ y) by (intros ->; done).
  assert (w + 4096 ≤ y ∨ y + 4096 ≤ w).
  { destruct (Z.le_gt_cases w y) as [Hle|Hle].
    - left. destruct (Z.le_gt_cases (w + 4096) y); [done|].
      exfalso. apply H. eapply (mod_eq_close w y 4096); try done; lia.
    - right. destruct (Z.le_gt_cases (y + 4096) w); [done|].
      exfalso. apply H. symmetry. eapply (mod_eq_close y w 4096); try done; lia. }
  unfold is_field, OFF_NEXT, OFF_PREV, OFF_TAG in Hf. lia.
Qed.

Lemma dseg_ext b b' o prev l after :
  (∀ y f, y ∈ l → is_field f → rd b' y f = rd b y f) → dseg b o prev l after → dseg b' o prev l after.
Proof.
  revert prev. induction l as [|x l IH]; intros prev He; simpl; [done|].
  rewrite !He by first [apply list_elem_of_here | done]. intros (? & ? & ? & ?).
  do 3 (split; [done|]). apply IH; [|done]. intros y f Hy. apply He. by right.
Qed.

(** One list changes, from [l] to [l'], by writes to its own blocks and to
    the block [x] that joins or leaves it. *)
Section Update.
Context a (L : list (list Z)) (n : nat) (l l' : list Z) (x : Z) a'.
Context (Hi : binv a L) (Hl : L !! n = Some l) (Hx : x ∈ l ∨ owned a L x n).
Context (Hl' : ∀ y, y ∈ l' → y ∈ l ∨ y = x).
Context (Hu : untouched (backing a) (backing a') (λ y, y = x ∨ y ∈ l)).

Lemma update_mem y : y ∈ l → free_at L y n.
Proof using Hl. intros Hy. by exists l. Qed.

Lemma update_page y : y = x ∨ y ∈ l → page y.
Proof using Hi Hl Hx.
  assert (∀ y, y ∈ l → page y) as Hp by (intros z Hz; by eapply free_page, update_mem).
  intros [->|Hy]; [|by apply Hp]. destruct Hx as [?|?]; [by apply Hp|by eapply owned_page].
Qed.

(** The blocks of the other lists are not written. *)
Lemma update_out y m f :
  free_at L y m → m ≠ n → is_field f → rd (backing a') y f = rd (backing a) y f.
Proof using Hi Hl Hx Hu.
  intros Hy Hne Hf. eapply untouched_rd; [exact Hu|apply update_page|by eapply free_page| |done].
  assert (∀ z, z ∈ l → z ≠ y) as Hln.
  { intros z Hz ->. apply Hne. by eapply free_at_unique, update_mem. }
  intros [->|Hyl]; [|by eapply Hln]. destruct Hx as [Hxl|(_ & _ & Hap)]; [by eapply Hln|].
  specialize (Hap x m Hy). by apply apart_ne in Hap.
Qed.

Lemma update_block y : y ∈ l' → y mod size n = 0 ∧ inside (active a) y n.
Proof using Hi Hl Hx Hl'.
  intros Hy. destruct (Hl' y Hy) as [Hyl| ->]; [by apply Hi, update_mem|].
  destruct Hx as [Hxl|(Ha & Hb & _)]; [by apply Hi, update_mem|done].
Qed.

Lemma update_apart_old y z m : y ∈ l' → free_at L z m → (y, n) ≠ (z, m) → apart y n z m.
Proof using Hi Hl Hx Hl'.
  intros Hy Hz Hne. destruct (Hl' y Hy) as [Hyl| ->]; [by eapply bi_apart; eauto using update_mem|].
  destruct Hx as [Hxl|(_ & _ & Hap)]; [by eapply bi_apart; eauto using update_mem|by apply Hap].
Qed.

Lemma update_apart y m z k :
  free_at (<[n := l']> L) y m → free_at (<[n := l']> L) z k → (y, m) ≠ (z, k) → apart y m z k.
Proof using Hi Hl Hx Hl'.
  rewrite !(free_at_insert _ _ l) by done.
  intros [[-> Hy]|[Hym Hy]] [[-> Hz]|[Hzm Hz]] Hne; [|..|by eapply bi_apart].
  - destruct (Hl' z Hz) as [Hzl| ->]; [by apply update_apart_old; auto using update_mem|].
    destruct (Hl' y Hy) as [Hyl| ->]; [|done].
    apply apart_sym, update_apart_old; auto using update_mem; congruence.
  - by apply update_apart_old.
  - apply apart_sym, update_apart_old; congruence.
Qed.

Lemma update_lists :
  free_lists a' = <[n := hd NIL l']> (free_lists a) →
  dseg (backing a') (Z.of_nat n) NIL l' NIL → NoDup l' →
  ∀ m lm, <[n := l']> L !! m = Some lm →
    free_lists a' !! m = Some (hd NIL lm) ∧ dseg (backing a') (Z.of_nat m) NIL lm NIL ∧ NoDup lm.
Proof using Hi Hl Hx Hu.
  intros Hheads Hd Hnd m lm. pose proof (lookup_lt_Some _ _ _ Hl) as Hlt. rewrite Hheads.
  destruct (decide (m = n)) as [->|Hne].
  - rewrite list_lookup_insert_eq by done. intros [= <-]. split; [|done].
    apply list_lookup_insert_eq. by rewrite (bi_heads _ _ Hi), <- (bi_orders _ _ Hi).
  - rewrite !list_lookup_insert_ne by done. intros Hlm.
    destruct (bi_lists _ _ Hi m lm Hlm) as (H1 & H2 & H3). split; [done|]. split; [|done].
    eapply dseg_ext; [|exact H2]. intros y f Hy Hf. eapply update_out; [by exists lm|done..].
Qed.

Lemma binv_update :
  same_rest a a' →
  free_lists a' = <[n := hd NIL l']> (free_lists a) →
  (0 ≤ nonempty a' < 2 ^ 19 ∧
   ∀ m, Z.testbit (nonempty a') (Z.of_nat m) =
     if decide (m = n) then bool_decide (l' ≠ []) else Z.testbit (nonempty a) (Z.of_nat m)) →
  dseg (backing a') (Z.of_nat n) NIL l' NIL → NoDup l' →
  (∀ p m, (m < 19)%nat → page p → rd (backing a') p OFF_TAG = free_tag p (Z.of_nat m) →
     p ≠ x ∧ rd (backing a) p OFF_TAG = free_tag p (Z.of_nat m) ∨ (m = n ∧ p ∈ l')) →
  (∀ y, y ∈ l → y ∈ l' ∨ y = x) →
  binv a' (<[n := l']> L).
Proof using Hi Hl Hx Hl' Hu.
  intros Hsame Hheads [Hm0 Hm] Hd Hnd Htags Hl2.
  pose proof (same_rest_active _ _ Hsame) as Hact.
  destruct Hsame as (_ & _ & _ & _ & Hreg & Hcnt & _).
  split; rewrite ?Hact, ?Hheads, ?length_insert, ?Hreg, ?Hcnt; try apply Hi.
  - rewrite <- Hheads. by apply update_lists.
  - split; [done|]. intros m lm Hlm. rewrite Hm. case_decide as E.
    + subst m. rewrite list_lookup_insert_eq in Hlm by by eapply lookup_lt_Some. by injection Hlm as <-.
    + rewrite list_lookup_insert_ne in Hlm by done. by apply (bi_mask _ _ Hi).
  - intros y m. rewrite (free_at_insert _ _ l) by done. intros [[-> Hy]|[_ Hy]]; [|by apply Hi].
    by apply update_block.
  - apply update_apart.
  - intros p m Hmlt Hpa (r & Hr & Hin) Hpt. rewrite (free_at_insert _ _ l) by done.
    assert (page p) as Hpp.
    { eapply region_page; [apply Hi|done|done|]. eapply aligned_page; [|exact Hpa]. lia. }
    destruct (Htags p m Hmlt Hpp Hpt) as [[Hpx Hold]|?]; [|by left].
    pose proof (bi_tags _ _ Hi p m Hmlt Hpa ltac:(eauto) Hold) as Hf.
    destruct (decide (m = n)) as [->|]; [|by right]. left. split; [done|].
    destruct Hf as (l0 & Hl0 & Hp0). rewrite Hl in Hl0. injection Hl0 as <-.
    by destruct (Hl2 p Hp0).
Qed.
End Update.

(** ** Lists: push, pop, unlink *)

Lemma list_at a L n : binv a L → (n < 19)%nat → ∃ l, L !! n = Some l.
Proof. intros Hi Hn. apply lookup_lt_is_Some_2. by rewrite (bi_orders _ _ Hi). Qed.

Lemma order_lt a L n l : binv a L → L !! n = Some l → (n < 19)%nat.
Proof. intros Hi Hl. apply lookup_lt_Some in Hl. by rewrite (bi_orders _ _ Hi) in Hl. Qed.

Lemma head_index a L n l : binv a L → L !! n = Some l → index (free_lists a) (Z.of_nat n) = Ret (hd NIL l).
Proof.
  intros Hi Hl. apply index_ok; [lia|]. rewrite Nat2Z.id. by apply (bi_lists _ _ Hi).
Qed.

Lemma head_set a n h : length (free_lists a) = 19%nat → (n < 19)%nat →
  set_index (free_lists a) (Z.of_nat n) h = Ret (<[n := h]> (free_lists a)).
Proof. intros Hl Hn. rewrite set_index_ok by lia. by rewrite Nat2Z.id. Qed.

(** The blocks an operation on list [l] may write to. *)
Definition footprint (L : list (list Z)) (x : Z) (y : Z) : Prop := y = x ∨ ∃ m, free_at L y m.

Lemma footprint_list L n l x y : L !! n = Some l → y = x ∨ y ∈ l → footprint L x y.
Proof. intros Hl [->|Hy]; [by left|]. right. exists n, l. done. Qed.

Lemma set_bit_spec mask n m :
  Z.testbit (Z.lor mask (Z.shiftl 1 (Z.of_nat n))) (Z.of_nat m) =
  if decide (m = n) then true else Z.testbit mask (Z.of_nat m).
Proof.
  rewrite Z.shiftl_1_l, Z.lor_spec, Z.pow2_bits_eqb by lia. case_decide as E.
  - subst. by rewrite Z.eqb_refl, orb_true_r.
  - destruct (Z.eqb_spec (Z.of_nat n) (Z.of_nat m)); [lia|]. apply orb_false_r.
Qed.

Lemma without_bit_spec mask n m :
  (n < 19)%nat → 0 ≤ mask < 2 ^ 19 →
  Z.testbit (without_bit mask (Z.of_nat n)) (Z.of_nat m) =
  if decide (m = n) then false else Z.testbit mask (Z.of_nat m).
Proof.
  intros Hn Hmask. unfold without_bit, bitnot. rewrite Z.shiftl_1_l, Z.land_spec, Z.ldiff_spec.
  rewrite Z.pow2_bits_eqb by lia. case_decide as E.
  - subst. by rewrite Z.eqb_refl, !andb_false_r.
  - destruct (Z.eqb_spec (Z.of_nat n) (Z.of_nat m)); [lia|]. rewrite andb_true_r.
    destruct (decide (Z.of_nat m < 32)).
    + rewrite Z.ones_spec_low by lia. apply andb_true_r.
    + assert (Z.testbit mask (Z.of_nat m) = false) as ->; [|done].
      destruct (decide (mask = 0)) as [->|]; [apply Z.testbit_0_l|].
      apply Z.bits_above_log2; [lia|]. assert (Z.log2 mask < 19); [|lia].
      apply Z.log2_lt_pow2; lia.
Qed.

Lemma without_bit_range mask n : 0 ≤ mask < 2 ^ 19 → 0 ≤ without_bit mask n < 2 ^ 19.
Proof.
  intros Hm. apply land_range; [lia|done].
Qed.

(** The memory [push] leaves: the block's own words, then the old head's
    back link. *)
Definition linked b (o x : Z) (l : list Z) : B :=
  wr (wr (wr b x OFF_NEXT (hd NIL l)) x OFF_PREV NIL) x OFF_TAG (free_tag x o).
Definition pushed b (o x : Z) (l : list Z) : B :=
  match l with [] => linked b o x l | h :: _ => wr (linked b o x l) h OFF_PREV x end.

Lemma push_eq a L n l x :
  binv a L → L !! n = Some l → page x →
  push a x (Z.of_nat n) =
  Ret (set_lists (set_mem a (pushed (backing a) (Z.of_nat n) x l)) (<[n := x]> (free_lists a))
         (Z.lor (nonempty a) (Z.shiftl 1 (Z.of_nat n)))).
Proof.
  intros Hi Hl Hx. pose proof (order_lt _ _ _ _ Hi Hl) as Hn.
  pose proof (free_pages _ _ _ _ Hi Hl) as Hlp. unfold push.
  rewrite (head_index _ _ _ _ Hi Hl). cbn [mbind outcome_bind].
  do 3 (rewrite set_word_eq by done; cbn [mbind outcome_bind backing set_mem]).
  unfold pushed. destruct l as [|h l']; cbn [hd].
  - rewrite Z.eqb_refl. cbn [negb mbind outcome_bind free_lists set_mem].
    rewrite head_set by (done || apply Hi). done.
  - apply Forall_cons in Hlp as [Hhp _].
    rewrite (proj2 (Z.eqb_neq h NIL)) by by apply page_not_NIL. cbn [negb].
    rewrite set_word_eq by done. cbn [mbind outcome_bind free_lists set_mem backing].
    rewrite head_set by (done || apply Hi). done.
Qed.

Lemma linked_words b o x l : page x →
  rd (linked b o x l) x OFF_NEXT = hd NIL l ∧ rd (linked b o x l) x OFF_PREV = NIL ∧
  rd (linked b o x l) x OFF_TAG = free_tag x o.
Proof.
  intros Hx. unfold linked. rewrite rd_wr_same by done.
  rewrite !(rd_wr_other _ x OFF_TAG) by (done || by right).
  rewrite rd_wr_same by done. rewrite (rd_wr_other _ x OFF_PREV) by (done || by right).
  by rewrite rd_wr_same by done.
Qed.

Lemma pushed_ok b o x l :
  page x → Forall page l → NoDup (x :: l) → dseg b o NIL l NIL →
  dseg (pushed b o x l) o NIL (x :: l) NIL ∧
  untouched b (pushed b o x l) (λ y, y = x ∨ y ∈ l) ∧
  ∀ p, page p → p ≠ x → rd (pushed b o x l) p OFF_TAG = rd b p OFF_TAG.
Proof.
  intros Hx Hl Hnd Hd. apply NoDup_cons in Hnd as [Hxl Hnd].
  assert (untouched b (linked b o x l) (λ y, y = x ∨ y ∈ l)) as Hu3.
  { unfold linked. do 2 (eapply untouched_trans; [|apply untouched_wr; [done..|by left]]).
    apply untouched_wr; [done..|by left]. }
  assert (dseg (linked b o x l) o NIL l NIL) as Hd3
    by (unfold linked; by repeat (apply dseg_wr_other; [done..|])).
  assert (∀ p, page p → p ≠ x → rd (linked b o x l) p OFF_TAG = rd b p OFF_TAG) as Ht3.
  { intros p Hp Hne. unfold linked. by rewrite !rd_wr_other by (done || by left; congruence). }
  destruct (linked_words b o x l Hx) as (R1 & R2 & R3).
  unfold pushed. destruct l as [|h l']; [done|].
  pose proof Hl as [Hh _]%Forall_cons. apply not_elem_of_cons in Hxl as [Hxh _].
  split; [|split].
  - split; [by rewrite rd_wr_other by (done || by left; congruence)|].
    split; [by rewrite rd_wr_other by (done || by left; congruence)|].
    split; [by rewrite rd_wr_other by (done || by left; congruence)|by eapply dseg_set_prev].
  - eapply untouched_trans; [exact Hu3|]. apply untouched_wr; [done..|right; left].
  - intros p Hp Hne. rewrite rd_tag_wr by auto. by apply Ht3.
Qed.

Lemma push_ok a L n l x :
  binv a L → L !! n = Some l → owned a L x n →
  ∃ a', push a x (Z.of_nat n) = Ret a' ∧ binv a' (<[n := x :: l]> L) ∧ same_rest a a' ∧
        untouched (backing a) (backing a') (footprint L x).
Proof.
  intros Hi Hl Hx. pose proof (order_lt _ _ _ _ Hi Hl) as Hn.
  pose proof (owned_page _ _ _ _ Hi Hx) as Hxp. pose proof (free_pages _ _ _ _ Hi Hl) as Hlp.
  destruct (bi_lists _ _ Hi n l Hl) as (_ & Hd & Hnd).
  assert (x ∉ l) as Hxl.
  { intros Hin. destruct Hx as (_ & _ & Hx). specialize (Hx x n ltac:(by exists l)).
    by apply apart_ne in Hx. }
  assert (NoDup (x :: l)) as Hnd' by by apply NoDup_cons.
  destruct (pushed_ok _ _ x l Hxp Hlp Hnd' Hd) as (D & U & T).
  eexists. split; [by apply push_eq with L|]. split; [|split; [by repeat split|]].
  - apply (binv_update a L n l (x :: l) x); simpl; try done.
    + by right.
    + intros y [->|?]%elem_of_cons; auto.
    + destruct (bi_mask _ _ Hi) as [Hm _]. rewrite Z.shiftl_1_l.
      split; [by apply set_bit_lt|]. intros m. rewrite <- Z.shiftl_1_l, set_bit_spec.
      by case_decide.
    + intros p m Hm Hp Ht. destruct (decide (p = x)) as [->|Hne]; [|left; by rewrite T in Ht].
      destruct D as (_ & _ & D & _). rewrite D in Ht. apply free_tag_inj in Ht; [|lia..].
      right. split; [lia|left].
    + intros y Hy. left. by right.
  - eapply untouched_mono; [|exact U]. intros y Hy. by eapply footprint_list.
Qed.

Lemma region_of_inside a x n :
  inside (active a) x n → ∃ r, region_of a x = Some r ∧ r ∈ active a ∧ in_region x r = true.
Proof.
  intros (r & Hr & Hin)%inside_in_region. unfold region_of. fold (active a).
  destruct (find_first (in_region x) (active a)) as [r'|] eqn:E.
  - apply find_first_Some in E as [? ?]. eauto.
  - rewrite find_first_None in E. rewrite (E r Hr) in Hin. done.
Qed.

Lemma plausible_free a L y n : binv a L → free_at L y n → plausible_link a y (Z.of_nat n) = true.
Proof.
  intros Hi Hy. destruct (bi_blocks _ _ Hi y n Hy) as [Ha Hin]. unfold plausible_link.
  destruct (region_of_inside _ _ _ Hin) as (r & -> & _). pose proof (size_pos n) as Hs.
  unfold size in *. rewrite (proj2 (is_multiple_of_spec y (block_size (Z.of_nat n)) ltac:(lia))) by done.
  by rewrite orb_true_r.
Qed.

Lemma plausible_hd a L n l : binv a L → L !! n = Some l → ∀ t, t ⊆ l → plausible_link a (hd NIL t) (Z.of_nat n) = true.
Proof.
  intros Hi Hl t Ht. destruct t as [|y t]; [done|]. apply (plausible_free a L); [done|].
  exists l. split; [done|]. apply Ht. left.
Qed.

Lemma free_neighbour_ok a L n l t :
  binv a L → L !! n = Some l → t ⊆ l → ∀ y, y = hd NIL t ∨ y = last_or NIL t →
  free_neighbour a y (Z.of_nat n) = Ret true.
Proof.
  intros Hi Hl Ht y Hy. unfold free_neighbour.
  destruct (Z.eqb_spec y NIL) as [|Hne]; [done|].
  assert (y ∈ l) as Hyl.
  { apply Ht. destruct Hy as [-> | ->].
    - destruct t; [done|]. left.
    - unfold last_or in *. destruct (last t) as [z|] eqn:E; [|done]. simpl.
      by apply last_Some_elem_of. }
  assert (free_at L y n) as Hf by by exists l.
  rewrite (plausible_free a L) by done. pose proof (free_page _ _ _ _ Hi Hf) as Hp.
  rewrite word_eq by done. cbn [mbind outcome_bind].
  destruct (bi_lists _ _ Hi n l Hl) as (_ & Hd & _).
  apply list_elem_of_split in Hyl as (l1 & l2 & ->).
  apply dseg_app in Hd as [_ (_ & _ & -> & _)]. by rewrite Z.eqb_refl.
Qed.

(** A block taken off its list is owned by whoever took it. *)
Lemma owned_taken a L n l l' x a' :
  binv a L → L !! n = Some l → x ∈ l → l' ⊆ l → x ∉ l' → active a' = active a →
  owned a' (<[n := l']> L) x n.
Proof.
  intros Hi Hl Hx Hsub Hx' Hact. assert (free_at L x n) as Hf by by exists l.
  destruct (bi_blocks _ _ Hi x n Hf) as [Ha Hin]. split; [done|]. rewrite Hact. split; [done|].
  intros y m Hy. rewrite (free_at_insert _ _ l) in Hy by done.
  destruct Hy as [[-> Hy]|[Hne Hy]].
  - eapply bi_apart; [done|done| |]; [by exists l; split; [|apply Hsub]|]. intros [= ->]. done.
  - eapply bi_apart; [done..|]. congruence.
Qed.

Lemma pop_empty a L n : binv a L → L !! n = Some [] → pop a (Z.of_nat n) = Ret (None, a).
Proof.
  intros Hi Hl. unfold pop. rewrite (head_index _ _ _ _ Hi Hl). cbn [mbind outcome_bind hd].
  by rewrite Z.eqb_refl.
Qed.

Lemma hd_page l : Forall page l → hd NIL l = NIL ∧ l = [] ∨ ∃ y l', l = y :: l' ∧ page y ∧ hd NIL l = y.
Proof. destruct l as [|y l]; [by left|]. intros [? _]%Forall_cons. right. eauto. Qed.

Lemma last_page l :
  Forall page l → (last_or NIL l = NIL ∧ l = []) ∨ ∃ y l', l = l' ++ [y] ∧ page y ∧ last_or NIL l = y.
Proof.
  intros Hp. destruct l as [|y l'] using rev_ind; [by left|right].
  exists y, l'. apply Forall_app in Hp as [_ [? _]%Forall_cons].
  unfold last_or. by rewrite last_snoc.
Qed.

(** Splicing [x] out of the list. *)
Definition bypass_next b (prev next : Z) : B :=
  if decide (prev = NIL) then b else wr b prev OFF_NEXT next.
Definition bypass_prev b (next prev : Z) : B :=
  if decide (next = NIL) then b else wr b next OFF_PREV prev.
Definition spliced b (x prev next : Z) : B :=
  wr (bypass_prev (bypass_next b prev next) next prev) x OFF_TAG 0.

Lemma splice_ok b o l1 x l2 :
  Forall page (l1 ++ x :: l2) → NoDup (l1 ++ x :: l2) → dseg b o NIL (l1 ++ x :: l2) NIL →
  dseg (spliced b x (last_or NIL l1) (hd NIL l2)) o NIL (l1 ++ l2) NIL ∧
  untouched b (spliced b x (last_or NIL l1) (hd NIL l2)) (λ y, y = x ∨ y ∈ l1 ++ x :: l2) ∧
  (∀ p, page p → rd (spliced b x (last_or NIL l1) (hd NIL l2)) p OFF_TAG =
     if decide (p = x) then 0 else rd b p OFF_TAG).
Proof.
  intros Hp Hnd Hd.
  apply dseg_app in Hd as [Hd1 (Hxp & Hxn & Hxt & Hd2)]. cbn [hd] in Hd1.
  pose proof Hp as [Hp1 [Hx Hp2]%Forall_cons]%Forall_app.
  pose proof Hnd as (Hnd1 & Hdis & [Hx2 Hnd2]%NoDup_cons)%NoDup_app.
  assert (x ∉ l1) as Hx1 by (intros Hin; apply (Hdis x Hin); left).
  set (prev := last_or NIL l1). set (next := hd NIL l2).
  set (b1 := bypass_next b prev next). set (b2 := bypass_prev b1 next prev).
  assert (dseg b1 o NIL l1 next ∧ dseg b1 o x l2 NIL ∧ untouched b b1 (λ y, y = x ∨ y ∈ l1 ++ x :: l2) ∧
          (∀ p, page p → rd b1 p OFF_TAG = rd b p OFF_TAG)) as (D1 & D2 & U1 & T1).
  { unfold b1, bypass_next, prev. destruct (last_page l1 Hp1) as [[-> ->]|(y & l' & -> & Hy & ->)].
    - rewrite decide_True by done. split; [done|]. split; [done|]. split; [apply untouched_refl|done].
    - rewrite decide_False by by apply page_not_NIL.
      split; [by eapply dseg_set_next|]. split.
      { apply dseg_wr_other; [done..| |done]. intros Hin.
        apply (Hdis y); [apply elem_of_app; right; left|by right]. }
      split; [apply untouched_wr; [done..|]; right; rewrite !elem_of_app; left; right; left|].
      intros p Hpp. apply rd_tag_wr; auto. }
  assert (dseg b2 o NIL l1 next ∧ dseg b2 o prev l2 NIL ∧ untouched b b2 (λ y, y = x ∨ y ∈ l1 ++ x :: l2) ∧
          (∀ p, page p → rd b2 p OFF_TAG = rd b p OFF_TAG)) as (E1 & E2 & U2 & T2).
  { unfold b2, bypass_prev, next in *. destruct (hd_page l2 Hp2) as [[-> ->]|(y & l' & -> & Hy & ->)].
    - rewrite decide_True by done. done.
    - rewrite decide_False by by apply page_not_NIL. split.
      { apply dseg_wr_other; [done..| |done]. intros Hin. apply (Hdis y Hin). right. left. }
      split; [by eapply dseg_set_prev|]. split.
      { eapply untouched_trans; [done|]. apply untouched_wr; [done..|].
        right. apply elem_of_app. right. right. left. }
      intros p Hpp. rewrite <- T1 by done. apply rd_tag_wr; auto. }
  unfold spliced. fold b1 b2. split; [|split].
  - apply dseg_app. split; apply dseg_wr_other; done.
  - eapply untouched_trans; [done|]. apply untouched_wr; [done..|by left].
  - intros p Hpp. case_decide as E.
    + subst p. by rewrite rd_wr_same.
    + rewrite rd_wr_other by (done || (by left; congruence)). auto.
Qed.

(** The mask once [l] holds the order's list. *)
Definition mask_after a (n : nat) (l : list Z) : Z :=
  if decide (l = []) then without_bit (nonempty a) (Z.of_nat n) else nonempty a.

(** Taking a block out of the middle of its list, by whatever code. *)
Definition taken a (n : nat) (l1 : list Z) (x : Z) (l2 : list Z) : BuddyAllocator B :=
  set_lists (set_mem a (spliced (backing a) x (last_or NIL l1) (hd NIL l2)))
    (<[n := hd NIL (l1 ++ l2)]> (free_lists a)) (mask_after a n (l1 ++ l2)).

Lemma mask_after_spec a L n l l' :
  binv a L → L !! n = Some l → l ≠ [] →
  0 ≤ mask_after a n l' < 2 ^ 19 ∧
  ∀ m, Z.testbit (mask_after a n l') (Z.of_nat m) =
    if decide (m = n) then bool_decide (l' ≠ []) else Z.testbit (nonempty a) (Z.of_nat m).
Proof.
  intros Hi Hl Hne. destruct (bi_mask _ _ Hi) as [Hm Hbits]. unfold mask_after.
  pose proof (order_lt _ _ _ _ Hi Hl). case_decide as E.
  - split; [by apply without_bit_range|]. intros m. rewrite without_bit_spec by done.
    rewrite E. by case_decide.
  - split; [done|]. intros m. case_decide as Em; [|done]. subst m. rewrite (Hbits n _ Hl).
    by rewrite !bool_decide_eq_true_2.
Qed.

Lemma taken_ok a L n l1 x l2 :
  binv a L → L !! n = Some (l1 ++ x :: l2) →
  let a' := taken a n l1 x l2 in
  binv a' (<[n := l1 ++ l2]> L) ∧ same_rest a a' ∧
  untouched (backing a) (backing a') (footprint L x) ∧ owned a' (<[n := l1 ++ l2]> L) x n.
Proof.
  intros Hi Hl a'. destruct (bi_lists _ _ Hi n _ Hl) as (_ & Hd & Hnd).
  destruct (splice_ok _ _ _ _ _ (free_pages _ _ _ _ Hi Hl) Hnd Hd) as (D & U & T).
  apply NoDup_middle in Hnd as [Hxn Hnd].
  assert (x ∈ l1 ++ x :: l2) as Hx by (apply elem_of_app; right; left).
  split; [|split; [by repeat split|split]].
  - apply (binv_update a L n (l1 ++ x :: l2) (l1 ++ l2) x); try done.
    + by left.
    + intros y Hy. left. rewrite elem_of_app in *. rewrite elem_of_cons. tauto.
    + eapply mask_after_spec; [done|done|]. by destruct l1.
    + intros p m Hm Hpp Ht. left. simpl in Ht. rewrite T in Ht by done. case_decide; [|done].
      symmetry in Ht. by apply free_tag_nonzero in Ht.
    + intros y. rewrite !elem_of_app, elem_of_cons. tauto.
  - eapply untouched_mono; [|exact U]. intros y Hy. by eapply footprint_list.
  - eapply owned_taken; [done|done|done|set_solver|done|done].
Qed.

(** [pop] takes the first block, *)
Lemma pop_eq a L n h t :
  binv a L → L !! n = Some (h :: t) → pop a (Z.of_nat n) = Ret (Some h, taken a n [] h t).
Proof.
  intros Hi Hl. pose proof (order_lt _ _ _ _ Hi Hl) as Hn.
  pose proof (free_pages _ _ _ _ Hi Hl) as [Hhp Htp]%Forall_cons.
  destruct (bi_lists _ _ Hi n _ Hl) as (_ & (_ & Hnx & _) & _).
  unfold pop. rewrite (head_index _ _ _ _ Hi Hl). cbn [mbind outcome_bind hd].
  rewrite (proj2 (Z.eqb_neq h NIL)) by by apply page_not_NIL.
  rewrite word_eq by done. cbn [mbind outcome_bind]. rewrite Hnx.
  rewrite (plausible_hd a L n (h :: t) Hi Hl t) by set_solver. cbn [mbind outcome_bind].
  rewrite head_set by (done || apply Hi). cbn [mbind outcome_bind].
  unfold taken, spliced, bypass_next, bypass_prev, mask_after. cbn [app].
  destruct (hd_page t Htp) as [[-> ->]|(y & t' & -> & Hyp & ->)].
  - rewrite Z.eqb_refl. cbn [mbind outcome_bind]. by rewrite set_word_eq.
  - rewrite (proj2 (Z.eqb_neq y NIL)), (decide_False (P := y = NIL)) by by apply page_not_NIL.
    rewrite set_word_eq by done. cbn [mbind outcome_bind]. by rewrite set_word_eq.
Qed.

Lemma pop_ok a L n h t :
  binv a L → L !! n = Some (h :: t) →
  ∃ a', pop a (Z.of_nat n) = Ret (Some h, a') ∧ binv a' (<[n := t]> L) ∧ same_rest a a' ∧
        untouched (backing a) (backing a') (footprint L h) ∧ owned a' (<[n := t]> L) h n.
Proof.
  intros Hi Hl. eexists. split; [by apply pop_eq with L|]. by apply (taken_ok a L n [] h t).
Qed.

Lemma unlink_absent a L n x :
  binv a L → (n < 19)%nat → x mod size n = 0 → inside (active a) x n → ¬ free_at L x n →
  unlink a x (Z.of_nat n) = Ret (false, a).
Proof.
  intros Hi Hn Hx Hin Hno. unfold unlink.
  assert (page x) as Hp by (eapply inside_page; [apply Hi|done..]).
  rewrite (word_eq a x OFF_TAG) by done. cbn [mbind outcome_bind].
  destruct (Z.eqb_spec (rd (backing a) x OFF_TAG) (free_tag x (Z.of_nat n))) as [E|]; [|done].
  exfalso. apply Hno. eapply bi_tags; try done. by eapply inside_in_region.
Qed.

(** ... and [unlink] any block. *)
Lemma unlink_first a L n x l2 :
  binv a L → L !! n = Some (x :: l2) → unlink a x (Z.of_nat n) = Ret (true, taken a n [] x l2).
Proof.
  intros Hi Hl. pose proof (order_lt _ _ _ _ Hi Hl) as Hn.
  pose proof (free_pages _ _ _ _ Hi Hl) as [Hx Hp2]%Forall_cons.
  destruct (bi_lists _ _ Hi n _ Hl) as (_ & (Hxp & Hxn & Hxt & _) & _).
  unfold unlink. rewrite !(word_eq a x) by done. cbn [mbind outcome_bind].
  rewrite Hxt, Z.eqb_refl, Hxp, Hxn. cbn [negb].
  rewrite (free_neighbour_ok a L n _ [] Hi Hl ltac:(set_solver) NIL) by by right.
  cbn [mbind outcome_bind negb].
  rewrite (free_neighbour_ok a L n _ l2 Hi Hl ltac:(set_solver) (hd NIL l2)) by by left.
  cbn [mbind outcome_bind negb orb]. rewrite Z.eqb_refl, head_set by (done || apply Hi).
  cbn [mbind outcome_bind]. unfold taken, spliced, bypass_prev, bypass_next, mask_after. cbn [app].
  destruct (hd_page l2 Hp2) as [[-> ->]|(z & l' & -> & Hz & ->)].
  - rewrite Z.eqb_refl. cbn [mbind outcome_bind negb]. by rewrite set_word_eq.
  - rewrite (proj2 (Z.eqb_neq z NIL)), (decide_False (P := z = NIL)) by by apply page_not_NIL.
    cbn [mbind outcome_bind negb]. rewrite set_word_eq by done. cbn [mbind outcome_bind].
    by rewrite set_word_eq.
Qed.

Lemma unlink_later a L n l y x l2 :
  binv a L → L !! n = Some ((l ++ [y]) ++ x :: l2) →
  unlink a x (Z.of_nat n) = Ret (true, taken a n (l ++ [y]) x l2).
Proof.
  intros Hi Hl. pose proof (free_pages _ _ _ _ Hi Hl) as [[_ [Hy _]%Forall_cons]%Forall_app
    [Hx Hp2]%Forall_cons]%Forall_app.
  destruct (bi_lists _ _ Hi n _ Hl) as (Hhd & [_ (Hxp & Hxn & Hxt & _)]%dseg_app & _).
  assert (last_or NIL (l ++ [y]) = y) as Ey by (unfold last_or; by rewrite last_snoc).
  unfold unlink. rewrite !(word_eq a x) by done. cbn [mbind outcome_bind].
  rewrite Hxt, Z.eqb_refl, Hxp, Hxn. cbn [negb].
  rewrite (free_neighbour_ok a L n _ (l ++ [y]) Hi Hl ltac:(set_solver) (last_or NIL (l ++ [y]))) by by right.
  cbn [mbind outcome_bind negb].
  rewrite (free_neighbour_ok a L n _ l2 Hi Hl ltac:(set_solver) (hd NIL l2)) by by left.
  cbn [mbind outcome_bind negb orb]. rewrite Ey, (proj2 (Z.eqb_neq y NIL)) by by apply page_not_NIL.
  rewrite set_word_eq by done. cbn [mbind outcome_bind].
  unfold taken, spliced, bypass_prev, bypass_next, mask_after. rewrite Ey.
  rewrite (decide_False (P := y = NIL)) by by apply page_not_NIL.
  rewrite (decide_False (P := (l ++ [y]) ++ l2 = [])) by (by destruct l).
  rewrite (list_insert_id (free_lists a) n) by (rewrite Hhd; f_equal; by destruct l).
  destruct (hd_page l2 Hp2) as [[-> ->]|(z & l'' & -> & Hz & ->)].
  - rewrite Z.eqb_refl. cbn [mbind outcome_bind negb]. by rewrite set_word_eq.
  - rewrite (proj2 (Z.eqb_neq z NIL)), (decide_False (P := z = NIL)) by by apply page_not_NIL.
    cbn [mbind outcome_bind negb]. rewrite set_word_eq by done. cbn [mbind outcome_bind].
    by rewrite set_word_eq.
Qed.

Lemma unlink_ok a L n l1 x l2 :
  binv a L → L !! n = Some (l1 ++ x :: l2) →
  ∃ a', unlink a x (Z.of_nat n) = Ret (true, a') ∧ binv a' (<[n := l1 ++ l2]> L) ∧ same_rest a a' ∧
        untouched (backing a) (backing a') (footprint L x) ∧ owned a' (<[n := l1 ++ l2]> L) x n.
Proof.
  intros Hi Hl. exists (taken a n l1 x l2). split; [|by apply taken_ok].
  destruct l1 as [|y l1' _] using rev_ind; [by apply unlink_first with L|by apply unlink_later with L].
Qed.

(** ** Bytes on the lists *)

Fixpoint bytes_from (n : nat) (L : list (list Z)) : Z :=
  match L with
  | [] => 0
  | l :: L' => Z.of_nat (length l) * size n + bytes_from (S n) L'
  end.
Definition bytes (L : list (list Z)) : Z := bytes_from 0 L.

Lemma bytes_from_insert k L n l l' :
  L !! n = Some l →
  bytes_from k (<[n := l']> L) =
  bytes_from k L + (Z.of_nat (length l') - Z.of_nat (length l)) * size (k + n).
Proof.
  revert k n. induction L as [|l0 L IH]; intros k n Hl; [done|].
  destruct n as [|n]; simpl in *.
  - injection Hl as ->. rewrite Nat.add_0_r. lia.
  - rewrite (IH (S k) n Hl). replace (k + S n)%nat with (S k + n)%nat by lia. lia.
Qed.

Lemma bytes_insert L n l l' :
  L !! n = Some l →
  bytes (<[n := l']> L) = bytes L + (Z.of_nat (length l') - Z.of_nat (length l)) * size n.
Proof. apply bytes_from_insert. Qed.

Lemma bytes_from_nonneg k L : 0 ≤ bytes_from k L.
Proof.
  revert k. induction L as [|l L IH]; intros k; simpl; [lia|].
  pose proof (IH (S k)). pose proof (size_pos k). nia.
Qed.

(** ** Allocation *)

(** The pages of block [(x, n)] and of the free blocks. *)
Definition zone (L : list (list Z)) (x : Z) (n : nat) (y : Z) : Prop :=
  y mod 4096 = 0 ∧ ((x ≤ y < x + size n) ∨ ∃ z m, free_at L z m ∧ z ≤ y < z + size m).

Lemma size_succ n : size (S n) = 2 * size n.
Proof. unfold size. rewrite Nat2Z.inj_succ, <- Z.add_1_r. apply block_size_succ. lia. Qed.

Lemma size_le m n : (m ≤ n)%nat → size m ≤ size n.
Proof. intros. apply block_size_le. lia. Qed.

Lemma footprint_zone a L x n y :
  binv a L → page x → footprint L x y → zone L x n y.
Proof.
  intros Hi Hx Hy. pose proof (size_pos n). destruct Hy as [->|[m Hy]].
  - split; [apply Hx|]. left. lia.
  - pose proof (free_page _ _ _ _ Hi Hy) as [Hp _]. split; [done|]. right.
    exists y, m. pose proof (size_pos m). split; [done|lia].
Qed.

(** A block's upper half is a block of the order below. *)
Lemma upper_half_owned a L x n :
  binv a L → owned a L x (S n) → owned a L (x + size n) n ∧ owned a L x n.
Proof.
  intros Hi (Ha & (r & Hr & H1 & H2) & Hap). pose proof (size_succ n) as Hs. pose proof (size_pos n).
  assert (x mod size n = 0) as Hxa.
  { unfold size in *. eapply aligned_le; [|exact Ha]. lia. }
  split; split.
  - by apply mod_add_multiple; [lia|].
  - split; [exists r; split; [done|lia]|]. intros y m Hy.
    specialize (Hap y m Hy). unfold apart in *. lia.
  - done.
  - split; [exists r; split; [done|lia]|]. intros y m Hy.
    specialize (Hap y m Hy). unfold apart in *. lia.
Qed.

Lemma owned_push a a' L n l x y m :
  L !! n = Some l → active a' = active a → owned a L y m → apart y m x n →
  owned a' (<[n := x :: l]> L) y m.
Proof.
  intros Hl Hact (Ha & Hin & Hap) Hx. split; [done|]. rewrite Hact. split; [done|].
  intros z k. rewrite (free_at_push _ _ l) by done. intros [[-> ->]|Hz]; [done|by apply Hap].
Qed.

Lemma same_rest_trans a a' a'' : same_rest a a' → same_rest a' a'' → same_rest a a''.
Proof. unfold same_rest. intros H1 H2. intuition congruence. Qed.

Lemma split_down_ok k : ∀ a L pa o,
  binv a L → (o + k < 19)%nat → owned a L pa (o + k) →
  ∃ a' L', split_down k a pa (Z.of_nat (o + k)) = Ret a' ∧ binv a' L' ∧ owned a' L' pa o ∧
    same_rest a a' ∧ bytes L' = bytes L + size (o + k) - size o ∧
    untouched (backing a) (backing a') (zone L pa (o + k)) ∧
    (∀ y m, free_at L' y m → free_at L y m ∨ (y = pa + size m ∧ (o ≤ m < o + k)%nat)).
Proof.
  induction k as [|k IH]; intros a L pa o Hi Hlt Ho.
  - rewrite Nat.add_0_r in *. exists a, L. split; [done|]. split; [done|]. split; [done|].
    split; [by repeat split|]. split; [lia|]. split; [apply untouched_refl|]. tauto.
  - replace (o + S k)%nat with (S (o + k)) in * by lia.
    destruct (upper_half_owned _ _ _ _ Hi Ho) as [Hup Hlow].
    pose proof (owned_page _ _ _ _ Hi Hup) as Hpu. pose proof (owned_page _ _ _ _ Hi Ho) as Hpp.
    destruct (list_at a L (o + k) Hi ltac:(lia)) as [l Hl].
    destruct (push_ok _ _ _ _ _ Hi Hl Hup) as (a1 & He1 & Hi1 & Hs1 & Hu1).
    pose proof (size_pos (o + k)) as Hsp. pose proof (size_succ (o + k)) as Hss.
    destruct (IH a1 (<[(o + k)%nat := (pa + size (o + k)) :: l]> L) pa o Hi1 ltac:(lia))
      as (a' & L' & He & Hi' & Ho' & Hs' & Hb & Hu & Hf).
    { eapply owned_push; [done|by apply same_rest_active|done|]. left. lia. }
    exists a', L'. cbn [split_down]. replace (Z.of_nat (S (o + k)) - 1) with (Z.of_nat (o + k)) by lia.
    fold (size (o + k)). rewrite add_chk_ok by (destruct Hpu; lia). cbn [mbind outcome_bind].
    rewrite He1. cbn [mbind outcome_bind]. split; [done|]. split; [done|]. split; [done|].
    split; [by eapply same_rest_trans|].
    split. { rewrite Hb, (bytes_insert _ _ _ _ Hl), length_cons. lia. }
    split.
    + eapply untouched_trans.
      * eapply untouched_mono; [|exact Hu1]. intros y Hy.
        destruct Hy as [->|[m Hy]].
        -- split; [apply Hpu|]. left. lia.
        -- eapply footprint_zone; [done|done|]. right. eauto.
      * eapply untouched_mono; [|exact Hu]. intros y [Hy [Hin|(z & m & Hz & Hin)]].
        -- split; [done|]. left. lia.
        -- split; [done|]. apply (free_at_push _ _ l) in Hz as [[-> ->]|Hz]; [left; lia| |done].
           right. eauto.
    + intros y m [Hy|[Hy1 Hy2]]%Hf; [|right; split; [done|lia]].
      apply (free_at_push _ _ l) in Hy as [[-> ->]|Hy]; [right; split; [done|lia]|by left|done].
Qed.

(** The orders from [n] up that have a block. *)
Lemma usable_bit a L n i :
  binv a L → (n < 19)%nat →
  Z.testbit (Z.land (nonempty a) (bitnot 32 (Z.shiftl 1 (Z.of_nat n) - 1))) (Z.of_nat i) =
  (Z.testbit (nonempty a) (Z.of_nat i) && (n <=? i)%nat).
Proof.
  intros Hi Hn. rewrite Z.land_spec. unfold bitnot. rewrite Z.ldiff_spec, Z.shiftl_1_l.
  replace (2 ^ Z.of_nat n - 1) with (Z.ones (Z.of_nat n)) by (rewrite Z.ones_equiv; lia).
  destruct (bi_mask _ _ Hi) as [Hm _].
  destruct (decide (i < 32)%nat) as [Hi32|Hi32].
  - rewrite Z.ones_spec_low by lia. cbn [andb]. f_equal.
    destruct (Nat.leb_spec n i).
    + by rewrite Z.ones_spec_high by lia.
    + by rewrite Z.ones_spec_low by lia.
  - assert (Z.testbit (nonempty a) (Z.of_nat i) = false) as ->; [|done].
    destruct (decide (nonempty a = 0)) as [->|]; [apply Z.testbit_0_l|].
    apply Z.bits_above_log2; [lia|]. assert (Z.log2 (nonempty a) < 19); [|lia].
    apply Z.log2_lt_pow2; lia.
Qed.

Definition usable a (n : nat) : Z :=
  Z.land (nonempty a) (bitnot 32 (Z.shiftl 1 (Z.of_nat n) - 1)).

(** The source [alloc] picks is the smallest sufficient order with a block. *)
Lemma source_spec a L n :
  binv a L → (n < 19)%nat →
  (usable a n = 0 ∧ ∀ m l, (n ≤ m)%nat → L !! m = Some l → l = []) ∨
  ∃ s h t, usable a n ≠ 0 ∧ trailing_zeros 32 (usable a n) = Z.of_nat s ∧
    (n ≤ s < 19)%nat ∧ L !! s = Some (h :: t) ∧
    ∀ m l, (n ≤ m < s)%nat → L !! m = Some l → l = [].
Proof.
  intros Hi Hn. destruct (bi_mask _ _ Hi) as [Hm Hbits].
  assert (0 ≤ usable a n) as H0 by (apply Z.land_nonneg; left; lia).
  assert (∀ m l, L !! m = Some l → Z.testbit (usable a n) (Z.of_nat m) = false → (n ≤ m)%nat → l = []) as Hempty.
  { intros m l Hl Hb Hle. unfold usable in Hb. rewrite (usable_bit a L) in Hb by done.
    rewrite (Hbits m l Hl), (proj2 (Nat.leb_le n m)), andb_true_r in Hb by done.
    apply bool_decide_eq_false in Hb. by apply dec_stable. }
  destruct (usable a n) as [|p|p] eqn:E; [left|right|lia].
  - split; [done|]. intros m l Hle Hl. eapply Hempty; [done|apply Z.testbit_0_l|done].
  - pose proof (pos_trailing_zeros_nonneg p) as Htz.
    pose proof (testbit_trailing_zeros 32 p) as Hb. simpl in Hb.
    exists (Z.to_nat (pos_trailing_zeros p)). set (s := Z.to_nat (pos_trailing_zeros p)).
    assert (pos_trailing_zeros p = Z.of_nat s) as Es by (unfold s; lia).
    rewrite Es, <- E in Hb. unfold usable in Hb. rewrite (usable_bit a L) in Hb by done.
    apply andb_true_iff in Hb as [Hb Hle%Nat.leb_le].
    assert (s < 19)%nat as Hs.
    { destruct (decide (s < 19)%nat); [done|].
      assert (nonempty a ≠ 0) by (intros E0; rewrite E0, Z.testbit_0_l in Hb; done).
      rewrite Z.bits_above_log2 in Hb; [done|lia|].
      assert (Z.log2 (nonempty a) < 19); [|lia]. apply Z.log2_lt_pow2; lia. }
    destruct (list_at a L s Hi Hs) as [l Hl]. rewrite (Hbits s l Hl) in Hb.
    apply bool_decide_eq_true in Hb. destruct l as [|h t]; [done|]. exists h, t.
    split; [done|]. split; [exact Es|]. split; [done|]. split; [done|].
    intros m l Hml Hlm. apply (Hempty m l Hlm); [|lia].
    rewrite <- E. rewrite E. apply (testbit_below_trailing_zeros 32 p). simpl. lia.
Qed.

(** What [alloc] leaves. *)
Record alloc_post a L (n : nat) (pa : Z) a' L' : Prop := {
  al_inv : binv a' L';
  al_owned : owned a' L' pa n;
  al_bytes : free_bytes a = bytes L → free_bytes a' = bytes L';
  al_less : free_bytes a' = free_bytes a - size n;
  al_active : active a' = active a;
  al_memory : untouched (backing a) (backing a') (λ y, y mod 4096 = 0 ∧ ∃ z m, free_at L z m ∧ z ≤ y < z + size m);
  al_taken : ∃ z m, free_at L z m ∧ z = pa ∧ (n ≤ m)%nat ∧
    (∀ y k, free_at L' y k → free_at L y k ∨ (y = z + size k ∧ (n ≤ k < m)%nat))
}.

Lemma alloc_ok a L n :
  binv a L → free_bytes a = bytes L → (n < 19)%nat →
  ((∀ y m, (n ≤ m)%nat → ¬ free_at L y m) ∧ alloc a (Z.of_nat n) = Ret (None, a)) ∨
  ∃ pa a' L', alloc a (Z.of_nat n) = Ret (Some pa, a') ∧ alloc_post a L n pa a' L'.
Proof.
  intros Hi Hby Hn. unfold alloc. unfold MAX_ORDER. rewrite (proj2 (Z.ltb_ge 18 (Z.of_nat n))) by lia.
  fold (usable a n). destruct (source_spec a L n Hi Hn) as [[-> Hno]|(s & h & t & Hne & Htz & Hs & Hl & _)].
  - left. rewrite Z.eqb_refl. split; [|done]. intros y m Hle (l & Hl & Hy).
    rewrite (Hno m l Hle Hl) in Hy. by apply elem_of_nil in Hy.
  - right. rewrite (proj2 (Z.eqb_neq _ _) Hne), Htz.
    destruct (pop_ok _ _ _ _ _ Hi Hl) as (a1 & -> & Hi1 & Hs1 & Hu1 & Ho1). cbn [mbind outcome_bind].
    assert (free_at L h s) as Hh by (exists (h :: t); split; [done|left]).
    pose proof (free_page _ _ _ _ Hi Hh) as Hhp.
    replace (Z.to_nat (Z.of_nat s - Z.of_nat n)) with (s - n)%nat by lia.
    pose proof (split_down_ok (s - n) a1 (<[s := t]> L) h n Hi1) as Hsd.
    replace (n + (s - n))%nat with s in Hsd by lia.
    destruct (Hsd ltac:(lia) Ho1) as (a' & L' & He & Hi' & Ho' & Hs' & Hb & Hu & Hf). rewrite He. cbn [mbind outcome_bind].
    assert (bytes L' = bytes L - size n) as Hb'.
    { rewrite Hb, (bytes_insert _ _ _ _ Hl), length_cons. lia. }
    pose proof (bytes_from_nonneg 0 L') as Hnn. fold (bytes L') in Hnn.
    assert (free_bytes a' = free_bytes a) as Hfb.
    { destruct Hs' as [-> _], Hs1 as [-> _]. done. }
    fold (size n). rewrite sub_chk_ok by lia. cbn [mbind outcome_bind].
    exists h, (set_free_bytes a' (free_bytes a' - size n)), L'. split; [done|].
    assert (active a' = active a) as Hact.
    { rewrite (same_rest_active _ _ Hs'). by apply same_rest_active. }
    split; simpl; try done.
    + by destruct Hi'.
    + intros _. lia.
    + lia.
    + eapply untouched_trans.
      * eapply untouched_mono; [|exact Hu1]. intros y [->|[m Hy]].
        -- split; [apply Hhp|]. exists h, s. pose proof (size_pos s). split; [done|lia].
        -- pose proof (free_page _ _ _ _ Hi Hy) as [? _]. split; [done|].
           exists y, m. pose proof (size_pos m). split; [done|lia].
      * eapply untouched_mono; [|exact Hu]. intros y [Hy [Hin|(z & m & Hz & Hin)]]; (split; [done|]).
        -- by exists h, s.
        -- exists z, m. split; [|done]. by eapply free_at_pop.
    + exists h, s. split; [done|]. split; [done|]. split; [lia|].
      intros y k [Hy|[Hy1 Hy2]]%Hf; [left; by eapply free_at_pop|right; split; [done|lia]].
Qed.

(** ** Release *)

(** The block of order [o] that contains [pa]. *)
Lemma containing_eq pa o :
  0 ≤ o ≤ 18 → fits 64 pa →
  Z.land pa (bitnot 64 (block_size o - 1)) = pa - pa mod block_size o.
Proof. intros Ho Hp. rewrite block_size_pow by lia. apply land_bitnot_align; [lia|done]. Qed.

Lemma containing_spec pa o :
  0 ≤ o → 0 ≤ pa →
  let c := pa - pa mod block_size o in
  c mod block_size o = 0 ∧ c ≤ pa < c + block_size o ∧ 0 ≤ c.
Proof.
  intros Ho Hp c. pose proof (block_size_pos o Ho). unfold c.
  pose proof (Z.mod_pos_bound pa (block_size o) ltac:(lia)).
  pose proof (Z.mod_le pa (block_size o) Hp ltac:(lia)). split; [|lia].
  rewrite Zminus_mod_idemp_r, Z.sub_diag. apply Z.mod_0_l. lia.
Qed.

Lemma mask_order mask p : mask = Zpos p → mask < 2 ^ 19 → ∃ o : nat, trailing_zeros 32 mask = Z.of_nat o ∧ (o < 19)%nat.
Proof.
  intros -> Hm. pose proof (trailing_zeros_bound 32 p 19 Hm).
  pose proof (pos_trailing_zeros_nonneg p). simpl in *.
  exists (Z.to_nat (pos_trailing_zeros p)). lia.
Qed.

(** One turn of the double-free scan reads the tag of an aligned page of
    the region. *)
Lemma scan_turn a L pa r (o : nat) :
  binv a L → (o < 19)%nat → r ∈ active a → in_region pa r = true →
  let c := pa - pa mod size o in
  Z.land pa (bitnot 64 (block_size (Z.of_nat o) - 1)) = c ∧ c mod size o = 0 ∧
  c ≤ pa < c + size o ∧
  (r.1 ≤ c → page c ∧ in_region c r = true).
Proof.
  intros Hi Ho Hr Hin c. destruct (bi_regions _ _ Hi) as [Hrs _]. rewrite Forall_forall in Hrs.
  destruct (Hrs r Hr) as (Hra & Hrb & Hrc & Hrd). unfold in_region in *. bool_cases.
  destruct (containing_spec pa (Z.of_nat o) ltac:(lia) ltac:(lia)) as (Hc1 & Hc2 & Hc3).
  split; [apply containing_eq; [lia|unfold fits; lia]|]. split; [done|]. split; [done|].
  intros Hge. fold (size o) in *. fold c in Hc1, Hc2, Hc3.
  assert (in_region c r = true) as Hcr.
  { unfold in_region. rewrite andb_true_iff, Z.leb_le, Z.ltb_lt. lia. }
  split; [|done]. eapply region_page; [apply Hi|done|done|]. eapply aligned_page; [|exact Hc1]. lia.
Qed.

Lemma scan_ok fuel a L pa n r mask :
  binv a L → owned a L pa n → r ∈ active a → in_region pa r = true → 0 ≤ mask < 2 ^ 19 →
  scan fuel a pa r.1 mask = Ret tt.
Proof.
  intros Hi Ho Hr Hin. revert mask. induction fuel as [|fuel IH]; intros mask Hm; [done|].
  cbn [scan]. destruct (Z.eqb_spec mask 0) as [|Hne]; [done|].
  destruct mask as [|p|p] eqn:Emask; [done| |lia]. rewrite <- Emask in *.
  destruct (mask_order mask p Emask ltac:(lia)) as (o & Eo & Hol). rewrite Eo.
  destruct (scan_turn a L pa r o Hi Hol Hr Hin) as (Ec & Hca & Hcp & Hcr). rewrite Ec.
  destruct (Z.ltb_spec (pa - pa mod size o) r.1) as [|Hge]; [done|].
  destruct (Hcr Hge) as [Hpc Hcin].
  rewrite word_eq by done. cbn [mbind outcome_bind].
  destruct (Z.eqb_spec (rd (backing a) (pa - pa mod size o) OFF_TAG)
              (free_tag (pa - pa mod size o) (Z.of_nat o))) as [Et|]; simpl.
  - exfalso. assert (free_at L (pa - pa mod size o) o) as Hf by (eapply bi_tags; eauto).
    destruct Ho as (_ & _ & Hap). specialize (Hap _ _ Hf). unfold apart in Hap.
    pose proof (size_pos n). lia.
  - apply IH. apply land_range; lia.
Qed.

(** A block inside a free block is caught. *)
Lemma scan_panics fuel a L pa x m r mask :
  binv a L → free_at L x m → x ≤ pa < x + size m → r ∈ active a → in_region pa r = true →
  in_region x r = true → 0 ≤ mask < 2 ^ 19 → Z.testbit mask (Z.of_nat m) = true →
  (∀ i : nat, Z.testbit mask (Z.of_nat i) = true → (19 ≤ i + fuel)%nat) →
  scan fuel a pa r.1 mask = Panic.
Proof.
  intros Hi Hx Hpa Hr Hin Hxr. revert mask.
  assert (m < 19)%nat as Hm19.
  { destruct Hx as (l & Hl & _). by eapply order_lt. }
  induction fuel as [|fuel IH]; intros mask Hm Hbit Hlow; [specialize (Hlow m Hbit); lia|].
  cbn [scan]. destruct (Z.eqb_spec mask 0) as [->|Hne]; [by rewrite Z.testbit_0_l in Hbit|].
  destruct mask as [|p|p] eqn:Emask; [done| |lia]. rewrite <- Emask in *.
  destruct (mask_order mask p Emask ltac:(lia)) as (o & Eo & Hol). rewrite Eo.
  destruct (scan_turn a L pa r o Hi Hol Hr Hin) as (Ec & Hca & Hcp & Hcr). rewrite Ec.
  assert (o ≤ m)%nat as Hom.
  { destruct (decide (m < o)%nat) as [Hlt|]; [|lia]. subst mask. simpl in Eo.
    rewrite (testbit_below_trailing_zeros 32) in Hbit; [done|]. simpl. lia. }
  destruct (bi_blocks _ _ Hi x m Hx) as [Hxa _].
  assert (x ≤ pa - pa mod size o) as Hxc.
  { assert (x mod size o = 0) as Hxo by (unfold size in *; eapply aligned_le; [|exact Hxa]; lia).
    pose proof (size_pos o). destruct (Z.le_gt_cases x (pa - pa mod size o)) as [|Hgt]; [done|].
    assert (pa - pa mod size o = x); [|lia]. eapply (mod_eq_close _ _ (size o)); try done; lia. }
  unfold in_region in Hxr. bool_cases.
  rewrite (proj2 (Z.ltb_ge _ _)) by lia. destruct (Hcr ltac:(lia)) as [Hpc Hcin].
  rewrite word_eq by done. cbn [mbind outcome_bind].
  destruct (decide (o = m)) as [->|Hne'].
  - assert (pa - pa mod size m = x) as ->.
    { pose proof (size_pos m). symmetry. eapply (mod_eq_close _ _ (size m)); try done; lia. }
    destruct Hx as (l & Hl & Hx). destruct (bi_lists _ _ Hi m l Hl) as (_ & Hd & _).
    apply list_elem_of_split in Hx as (l1 & l2 & ->).
    apply dseg_app in Hd as [_ (_ & _ & -> & _)]. by rewrite Z.eqb_refl.
  - destruct (negb _); [|done]. cbn [rust_assert mbind outcome_bind]. subst mask. apply IH.
    + apply land_range; lia.
    + rewrite land_pred_spec by lia. simpl in Eo. rewrite Eo, Hbit. simpl.
      apply negb_true_iff, Z.eqb_neq. lia.
    + intros i Hib. rewrite land_pred_spec in Hib by lia. apply andb_true_iff in Hib as [Hib Hio].
      apply negb_true_iff, Z.eqb_neq in Hio. simpl in Eo.
      assert (Z.of_nat o ≤ Z.of_nat i) as Hoi.
      { destruct (decide (Z.of_nat i < Z.of_nat o)) as [Hlt|]; [|lia].
        rewrite (testbit_below_trailing_zeros 32) in Hib; [done|]. simpl. lia. }
      assert (19 ≤ o + S fuel)%nat; [|lia]. apply Hlow.
      rewrite <- Eo. apply (testbit_trailing_zeros 32 p).
Qed.
End Proofs.
