(* ===== verification/BuddyFree.v ===== *)
(** Release, regions and the running allocator: the second half of the
    proofs about [Buddy].

    [free] merges a block with its buddies and puts the result on a list;
    [add_region] carves a range into the fewest naturally aligned blocks; and
    the step relation at the end interleaves allocation, release, double and
    foreign frees, new regions and the callers' own writes. *)
From S2P Require Import Prelude Bits Buddy BuddyProofs.

(** ** Buddies *)

Definition buddy_of (x : Z) (n : nat) : Z := Z.lxor x (size n).

Lemma buddy_cases x n :
  0 ≤ x → x mod size n = 0 →
  (buddy_of x n = x + size n ∧ x mod size (S n) = 0) ∨
  (buddy_of x n = x - size n ∧ (x - size n) mod size (S n) = 0 ∧ size n ≤ x).
Proof.
  intros Hx Hm. unfold buddy_of, size in *. rewrite block_size_pow in * by lia.
  rewrite (block_size_pow (Z.of_nat (S n))) by lia.
  replace (12 + Z.of_nat (S n)) with (12 + Z.of_nat n + 1) by lia.
  set (k := 12 + Z.of_nat n) in *. assert (0 ≤ k) as Hk by lia.
  pose proof (pow2_pos k Hk). pose proof (pow2_succ k Hk) as Hs.
  rewrite lxor_pow2 by done. pose proof (testbit_mod_pow2 x k Hk Hm) as Ht.
  destruct (Z.testbit x k).
  - right. destruct Ht as [Ht _]. specialize (Ht eq_refl).
    pose proof (Z.div_mod x (2 ^ (k + 1)) ltac:(lia)) as Hd. split; [done|]. split.
    + replace (x - 2 ^ k) with (x / 2 ^ (k + 1) * 2 ^ (k + 1)) by lia. apply Z.mod_mul. lia.
    + pose proof (Z.div_pos x (2 ^ (k + 1)) Hx ltac:(lia)). nia.
  - left. split; [done|]. apply Z.mod_divide in Hm as [q ->]; [|lia].
    assert ((q * 2 ^ k) mod 2 ^ (k + 1) ≠ 2 ^ k) as Hne by (intros E; apply Ht in E; done).
    rewrite Hs, (Z.mul_comm 2), (Z.mul_comm q) in *. rewrite Z.mul_mod_distr_l in * by lia.
    pose proof (Z.mod_pos_bound q 2 ltac:(lia)). assert (q mod 2 = 0) as ->; [|lia]. nia.
Qed.

Lemma buddy_aligned x n : 0 ≤ x → x mod size n = 0 → buddy_of x n mod size n = 0 ∧ 0 ≤ buddy_of x n.
Proof.
  intros Hx Hm. pose proof (size_pos n).
  destruct (buddy_cases x n Hx Hm) as [[-> _]|(-> & _ & ?)].
  - split; [apply mod_add_multiple; [lia|done]|lia].
  - split; [apply mod_sub_multiple; [lia|done]|lia].
Qed.

Lemma buddy_involutive x n : buddy_of (buddy_of x n) n = x.
Proof. unfold buddy_of. by rewrite Z.lxor_assoc, Z.lxor_nilpotent, Z.lxor_0_r. Qed.

(** The union of a block and its buddy is the block of the order above. *)
Lemma buddy_union x n :
  0 ≤ x → x mod size n = 0 →
  let u := Z.min x (buddy_of x n) in
  u mod size (S n) = 0 ∧ apart x n (buddy_of x n) n ∧
  ∀ z, u ≤ z < u + size (S n) ↔ (x ≤ z < x + size n) ∨ (buddy_of x n ≤ z < buddy_of x n + size n).
Proof.
  intros Hx Hm u. unfold u, apart. pose proof (size_pos n). rewrite (size_succ n).
  destruct (buddy_cases x n Hx Hm) as [[-> Ha]|(-> & Ha & ?)]; rewrite (size_succ n) in Ha.
  - rewrite Z.min_l by lia. split; [done|]. split; [lia|]. intros z. lia.
  - rewrite Z.min_r by lia. split; [done|]. split; [lia|]. intros z. lia.
Qed.

Section Free.
Context {B : Type} `{HB : FrameBacking B}.
Implicit Types (a : BuddyAllocator B) (b : B).

(** ** Merging *)

(** No block is on a list together with its buddy, unless a region boundary
    runs between them. *)
Definition coalesced a (L : list (list Z)) : Prop :=
  ∀ x n r, free_at L x n → (n < 18)%nat → r ∈ active a → r.1 ≤ x → x + size n ≤ r.2 →
    r.1 ≤ buddy_of x n → buddy_of x n + size n ≤ r.2 → ¬ free_at L (buddy_of x n) n.

Record merge_post a L pa n (r : Z * Z) a' L' pa' n' : Prop := {
  mg_order : (n ≤ n' ≤ 18)%nat;
  mg_inv : binv a' L';
  mg_owned : owned a' L' pa' n';
  mg_rest : same_rest a a';
  mg_bytes : bytes L' + size n' = bytes L + size n;
  mg_region : r.1 ≤ pa' ∧ pa' + size n' ≤ r.2;
  mg_covers : pa' ≤ pa ∧ pa + size n ≤ pa' + size n';
  mg_memory : untouched (backing a) (backing a') (zone L pa n);
  mg_less : ∀ y m, free_at L' y m → free_at L y m;
  mg_made_of : ∀ z, pa' ≤ z < pa' + size n' →
    (pa ≤ z < pa + size n) ∨ ∃ y m, free_at L y m ∧ y ≤ z < y + size m;
  mg_maximal : (n' < 18)%nat → r.1 ≤ buddy_of pa' n' → buddy_of pa' n' + size n' ≤ r.2 →
    ¬ free_at L' (buddy_of pa' n') n'
}.

Lemma merge_stop a L pa n r :
  binv a L → owned a L pa n → r.1 ≤ pa → pa + size n ≤ r.2 → (n ≤ 18)%nat →
  ((n < 18)%nat → r.1 ≤ buddy_of pa n → buddy_of pa n + size n ≤ r.2 → ¬ free_at L (buddy_of pa n) n) →
  merge_post a L pa n r a L pa n.
Proof.
  intros Hi Ho Hr1 Hr2 Hn Hmax. split; try done; lia.
Qed.

(** The step that merges: [x] leaves its list and joins [pa]. *)
Lemma merge_turn a L pa n r l1 l2 a1 :
  let x := buddy_of pa n in
  binv a L → owned a L pa n → r ∈ active a → r.1 ≤ pa → pa + size n ≤ r.2 →
  r.1 ≤ x → x + size n ≤ r.2 →
  L !! n = Some (l1 ++ x :: l2) → same_rest a a1 → owned a1 (<[n := l1 ++ l2]> L) x n →
  owned a1 (<[n := l1 ++ l2]> L) (Z.min pa x) (S n) ∧
  (∀ y m, free_at (<[n := l1 ++ l2]> L) y m → free_at L y m).
Proof.
  intros x Hi (Ha & Hin & Hap) Hr Hr1 Hr2 Hx1 Hx2 Hl Hs (Hxa & _ & Hxap).
  destruct (inside_page _ _ _ (bi_regions _ _ Hi) Ha Hin) as [_ [Hp0 _]].
  destruct (buddy_union pa n Hp0 Ha) as (Hu & Hd & Hun). fold x in Hu, Hd, Hun.
  assert (∀ y m, free_at (<[n := l1 ++ l2]> L) y m → free_at L y m) as Hless.
  { intros y m Hy. rewrite (free_at_insert _ _ (l1 ++ x :: l2)) in Hy by done.
    destruct Hy as [[-> Hy]|[_ Hy]]; [|done]. exists (l1 ++ x :: l2). split; [done|].
    set_solver. }
  split; [|done]. split; [done|]. pose proof (size_pos n). pose proof (size_succ n).
  split.
  - exists r. rewrite (same_rest_active _ _ Hs). split; [done|]. split; [lia|].
    destruct (Z.le_gt_cases (Z.min pa x + size (S n)) r.2) as [|Hgt]; [done|].
    specialize (Hun r.2). unfold apart in Hd. lia.
  - intros y m Hy. specialize (Hap y m (Hless y m Hy)). specialize (Hxap y m Hy).
    unfold apart in *. pose proof (size_pos m).
    pose proof (Hun y). pose proof (Hun (y + size m - 1)). 
    pose proof (Hun (Z.min pa x)). pose proof (Hun (Z.min pa x + size (S n) - 1)). lia.
Qed.

Lemma merge_step a L pa n r l1 l2 a1 a' L' pa' n' :
  let x := buddy_of pa n in
  binv a L → owned a L pa n → r.1 ≤ pa → r.1 ≤ x → L !! n = Some (l1 ++ x :: l2) →
  same_rest a a1 → untouched (backing a) (backing a1) (footprint L x) →
  (∀ y m, free_at (<[n := l1 ++ l2]> L) y m → free_at L y m) →
  merge_post a1 (<[n := l1 ++ l2]> L) (Z.min pa x) (S n) r a' L' pa' n' →
  merge_post a L pa n r a' L' pa' n'.
Proof.
  intros x Hi Ho Hr1 Hx1 Hl Hs1 Hu1 Hless [H1 H2 H3 H4 H5 H6 H7 H8 H9 H10 H11].
  destruct (owned_page _ _ _ _ Hi Ho) as [Hpm [Hp0 Hp1]]. destruct Ho as (Ha & Hin & Hap).
  destruct (buddy_union pa n Hp0 Ha) as (_ & Hd & Hun). fold x in Hd, Hun.
  pose proof (size_succ n) as Hss. pose proof (size_pos n) as Hsp.
  assert (free_at L x n) as Hx by (exists (l1 ++ x :: l2); split; [done|set_solver]).
  assert (∀ z, Z.min pa x ≤ z < Z.min pa x + size (S n) →
    (pa ≤ z < pa + size n) ∨ ∃ y m, free_at L y m ∧ y ≤ z < y + size m) as Hmade.
  { intros z [Hz|Hz]%Hun; [by left|]. right. by exists x, n. }
  split; try done; try lia.
  - by eapply same_rest_trans.
  - rewrite (bytes_insert _ _ _ _ Hl), !length_app, length_cons in H5. lia.
  - pose proof (Hun pa). pose proof (Hun (pa + size n - 1)). lia.
  - eapply untouched_trans.
    + eapply untouched_mono; [|exact Hu1]. intros y Hy. eapply footprint_zone; try done.
      destruct Hy as [->|Hy]; [right; eauto|by right].
    + eapply untouched_mono; [|exact H8]. intros y [Hy Hin']. split; [done|].
      destruct Hin' as [Hz|(z & m & Hz & Hin')]; [by apply Hmade|]. right. eauto.
  - auto.
  - intros z Hz. destruct (H10 z Hz) as [Hz'|(y & m & Hy & Hz')]; [by apply Hmade|]. right. eauto.
Qed.

Lemma merge_ok fuel : ∀ a L pa n r,
  binv a L → owned a L pa n → r ∈ active a → r.1 ≤ pa → pa + size n ≤ r.2 →
  (n ≤ 18)%nat → (18 ≤ n + fuel)%nat →
  ∃ a' L' pa' n', merge fuel a pa (Z.of_nat n) r.1 r.2 = Ret (a', pa', Z.of_nat n') ∧
    merge_post a L pa n r a' L' pa' n'.
Proof.
  induction fuel as [|fuel IH]; intros a L pa n r Hi Ho Hr Hr1 Hr2 Hn Hf.
  { exists a, L, pa, n. split; [done|]. apply merge_stop; try done. lia. }
  cbn [merge]. change MAX_ORDER with 18. fold (size n) (buddy_of pa n).
  destruct (Z.ltb_spec (Z.of_nat n) 18) as [Hlt|Hge]; cbn [negb];
    [|exists a, L, pa, n; split; [done|]; apply merge_stop; try done; lia].
  destruct (owned_page _ _ _ _ Hi Ho) as [_ [Hp0 _]]. destruct Ho as (Ha & Hin & Hap).
  destruct (buddy_aligned pa n Hp0 Ha) as [Hba Hb0]. set (x := buddy_of pa n) in *.
  pose proof (size_pos n) as Hsp.
  destruct (_ || _ || _) eqn:Eout.
  { exists a, L, pa, n. split; [done|]. apply merge_stop; try done. fold x. intros _ Hx1 Hx2.
    rewrite !orb_true_iff, !Z.ltb_lt, Z.leb_le in Eout. lia. }
  bool_cases. assert (inside (active a) x n) as Hxin by (exists r; split; [done|lia]).
  destruct (list_at a L n Hi ltac:(lia)) as [l Hl].
  destruct (decide (x ∈ l)) as [Hx|Hx].
  - apply list_elem_of_split in Hx as (l1 & l2 & ->).
    destruct (unlink_ok _ _ _ _ _ _ Hi Hl) as (a1 & -> & Hi1 & Hs1 & Hu1 & Ho1).
    cbn [mbind outcome_bind negb].
    destruct (merge_turn a L pa n r l1 l2 a1) as [Ho2 Hless]; try done; [lia|].
    destruct Ho2 as (Hu & Hou & Hoap) eqn:Eo2. clear Eo2.
    destruct (buddy_union pa n Hp0 Ha) as (_ & Hd & Hun). fold x in Hd, Hun.
    pose proof (size_succ n) as Hss. assert (Z.min pa x + size (S n) ≤ r.2) as Hur.
    { destruct (Z.le_gt_cases (Z.min pa x + size (S n)) r.2) as [|Hgt]; [done|].
      specialize (Hun r.2). unfold apart in Hd. lia. }
    replace (Z.of_nat n + 1) with (Z.of_nat (S n)) by lia.
    destruct (IH a1 _ (Z.min pa x) (S n) r Hi1 ltac:(done)) as (a' & L' & pa' & n' & He & Hp);
      [by rewrite (same_rest_active _ _ Hs1)|lia|done|lia|lia|].
    exists a', L', pa', n'. split; [done|]. by eapply merge_step.
  - rewrite (unlink_absent _ L) by (done || lia || (intros (l' & Hl' & ?); simplify_eq; done)).
    exists a, L, pa, n. split; [done|]. apply merge_stop; try done.
    fold x. intros _ _ _ (l' & Hl' & ?). simplify_eq. done.
Qed.

(** ** Free memory as a set of bytes *)

Definition span (L : list (list Z)) (z : Z) : Prop := ∃ y m, free_at L y m ∧ y ≤ z < y + size m.
Definition block (x : Z) (n : nat) (z : Z) : Prop := x ≤ z < x + size n.

Lemma owned_span a L x n :
  owned a L x n ↔ x mod size n = 0 ∧ inside (active a) x n ∧ ∀ z, block x n z → ¬ span L z.
Proof.
  unfold owned, block. pose proof (size_pos n) as Hp. split; intros (Ha & Hin & H); (split; [done|]); (split; [done|]).
  - intros z Hz (y & m & Hy & Hz'). specialize (H y m Hy). unfold apart in H. lia.
  - intros y m Hy. pose proof (size_pos m). unfold apart.
    destruct (decide (x + size n ≤ y ∨ y + size m ≤ x)) as [|Hno]; [done|]. exfalso.
    apply (H (Z.max x y)); [lia|]. exists y, m. split; [done|lia].
Qed.

Lemma free_at_span L y m : free_at L y m → span L y.
Proof. intros Hy. exists y, m. pose proof (size_pos m). split; [done|lia]. Qed.

Lemma span_push L n l x z : L !! n = Some l → span (<[n := x :: l]> L) z → span L z ∨ block x n z.
Proof.
  intros Hl (y & m & [[-> ->]|Hy]%(free_at_push _ _ l) & Hz); [by right| |done]. left. by exists y, m.
Qed.

(** Ownership depends on the lists through [span] only. *)
Lemma owned_mono a a' L L' x n :
  active a' = active a → (∀ z, block x n z → span L' z → span L z) → owned a L x n → owned a' L' x n.
Proof.
  rewrite !owned_span. intros -> H (Ha & Hin & Hs). split; [done|]. split; [done|]. naive_solver.
Qed.

Lemma zone_span L x n y : zone L x n y ↔ y mod 4096 = 0 ∧ (block x n y ∨ span L y).
Proof. done. Qed.

Lemma alloc_span a L n pa a' L' z :
  alloc_post a L n pa a' L' → span L' z → span L z ∧ ¬ block pa n z.
Proof.
  intros [_ Ho _ _ _ _ (y & s & Hy & <- & Hns & Hf)] Hz. apply owned_span in Ho as (_ & _ & Ho).
  split; [|intros Hb; by apply (Ho z)]. destruct Hz as (w & k & Hw & Hz).
  apply Hf in Hw as [Hw|[-> Hk]]; [by exists w, k|].
  exists y, s. split; [done|]. pose proof (size_le (S k) s ltac:(lia)). rewrite size_succ in *.
  pose proof (size_pos k). lia.
Qed.

Lemma alloc_coalesced a L n pa a' L' :
  binv a L → alloc_post a L n pa a' L' → coalesced a L → coalesced a' L'.
Proof.
  intros Hi [Hi' Ho _ _ Hact _ (y & s & Hy & <- & Hns & Hf)] Hc x k r Hx Hk Hr H1 H2 H3 H4 Hb.
  assert (∀ m, ¬ free_at L' y m) as Hno.
  { intros m Hm. destruct Ho as (_ & _ & Ho). specialize (Ho y m Hm). by apply apart_ne in Ho. }
  destruct (bi_blocks _ _ Hi y s Hy) as [Hya _]. destruct (free_page _ _ _ _ Hi Hy) as [_ [Hy0 _]].
  assert (∀ k, (k < s)%nat → buddy_of (y + size k) k = y) as Hup.
  { intros m Hm. assert (y mod size (S m) = 0) as Hym.
    { unfold size in *. eapply aligned_le; [|exact Hya]. lia. }
    pose proof (size_pos m). pose proof (size_succ m).
    rewrite <- (buddy_involutive y m) at 2. f_equal.
    assert (y mod size m = 0) as Hym' by (unfold size in *; eapply aligned_le; [|exact Hym]; lia).
    destruct (buddy_cases y m Hy0 Hym') as [[-> _]|(_ & Hz & ?)]; [done|]. exfalso.
    assert (y - size m = y); [|lia]. eapply (mod_eq_close _ _ (size (S m))); try done; lia. }
  destruct (Hf _ _ Hx) as [Hx'|[-> Hm]].
  - destruct (Hf _ _ Hb) as [Hb'|[Eb Hm]].
    + rewrite Hact in Hr. by apply (Hc x k r).
    + apply (f_equal (λ z, buddy_of z k)) in Eb. rewrite buddy_involutive, Hup in Eb by lia.
      subst x. by apply (Hno k).
  - rewrite Hup in Hb by lia. by apply (Hno k).
Qed.

(** ** [free] *)

Lemma binv_set_free_bytes a L f : binv a L → binv (set_free_bytes a f) L.
Proof. by intros []. Qed.

Lemma region_unique rs r r' x :
  regions_ok rs → r ∈ rs → r' ∈ rs → in_region x r = true → in_region x r' = true → r = r'.
Proof.
  intros [_ Hd] Hr Hr' H1 H2. unfold in_region in *. bool_cases.
  apply list_elem_of_lookup in Hr as [i Hi], Hr' as [j Hj].
  destruct (decide (i = j)) as [->|Hne]; [congruence|]. specialize (Hd i j r r' Hi Hj Hne). lia.
Qed.

Lemma region_of_owner a L x n r :
  binv a L → r ∈ active a → r.1 ≤ x → x + size n ≤ r.2 → region_of a x = Some r.
Proof.
  intros Hi Hr H1 H2. pose proof (size_pos n).
  destruct (region_of_inside a x n) as (r' & -> & Hr' & Hin); [by exists r|]. f_equal.
  eapply region_unique; [apply Hi|done..|]. unfold in_region.
  rewrite andb_true_iff, Z.leb_le, Z.ltb_lt. lia.
Qed.

Record free_post a L pa (n : nat) a' L' : Prop := {
  fr_inv : binv a' L';
  fr_bytes : bytes L' = bytes L + size n;
  fr_free_bytes : free_bytes a' = free_bytes a + size n;
  fr_counters : foreign_frees a' = foreign_frees a ∧ rejected_unlinks a' = rejected_unlinks a ∧
    truncated_lists a' = truncated_lists a ∧ dropped_bytes a' = dropped_bytes a;
  fr_active : active a' = active a;
  fr_memory : untouched (backing a) (backing a') (zone L pa n);
  fr_span : ∀ z, span L' z → span L z ∨ block pa n z;
  fr_head : span L' pa;
  fr_coalesced : coalesced a L → coalesced a' L'
}.

(** Putting a maximal block on its list keeps the lists coalesced. *)
Lemma push_coalesced a a' L n l pa r :
  binv a L → L !! n = Some l → active a' = active a →
  r ∈ active a → r.1 ≤ pa → pa + size n ≤ r.2 → 
  ((n < 18)%nat → r.1 ≤ buddy_of pa n → buddy_of pa n + size n ≤ r.2 → ¬ free_at L (buddy_of pa n) n) →
  pa mod size n = 0 → coalesced a L → coalesced a' (<[n := pa :: l]> L).
Proof.
  intros Hi Hl Hact Hr H1 H2 Hmax Hal Hc x k r' Hx Hk Hr' Hx1 Hx2 Hb1 Hb2 Hb. rewrite Hact in Hr'.
  pose proof (size_pos n). destruct (bi_regions _ _ Hi) as [Hrs _]. rewrite Forall_forall in Hrs.
  destruct (Hrs r Hr) as (_ & _ & Hr0 & _).
  assert (r.1 ≤ pa < r.2) as Hpr by lia. 
  assert (r'.1 ≤ pa < r'.2 → r' = r) as Hsame.
  { intros. eapply (region_unique _ _ _ pa); [apply Hi|done..| |];
      unfold in_region; rewrite andb_true_iff, Z.leb_le, Z.ltb_lt; lia. }
  destruct (buddy_union pa n ltac:(lia) Hal) as (_ & Hap%apart_ne & _).
  rewrite (free_at_insert _ _ l) in Hx, Hb by done.
  assert (∀ y, y ∈ l → free_at L y n) as Hin by (intros y Hy; by exists l).
  destruct Hx as [[-> [->|Hx]%elem_of_cons]|[Hnk Hx]], Hb as [[? [Eb|Hb]%elem_of_cons]|[Hnb Hb]]; try done.
  - assert (r' = r) as -> by (apply Hsame; lia). apply Hmax; auto.
  - assert (r' = r) as -> by (apply Hsame; lia). rewrite <- Eb, buddy_involutive in Hmax.
    apply Hmax; try done; auto.
  - apply (Hc x n r'); auto.
  - apply (Hc x k r'); auto.
Qed.

(** The merged block goes on its list: [a0] is the allocator [free] merges
    in, with the block's bytes already counted. *)
Lemma free_push a L pa n r a1 L1 pa1 n1 :
  let a0 := set_free_bytes a (free_bytes a + size n) in
  binv a0 L → r ∈ active a → merge_post a0 L pa n r a1 L1 pa1 n1 →
  ∃ a' L', push a1 pa1 (Z.of_nat n1) = Ret a' ∧ free_post a L pa n a' L'.
Proof.
  intros a0 Hi0 Hr [Mo Mi Mw Ms Mb [Mr1 Mr2] Mc Mm Ml Mp Mx].
  destruct (list_at a1 L1 n1 Mi ltac:(lia)) as [l Hl].
  destruct (push_ok _ _ _ _ _ Mi Hl Mw) as (a' & He & Hi' & Hs' & Hu').
  exists a', (<[n1 := pa1 :: l]> L1). split; [done|].
  pose proof (same_rest_trans _ _ _ Ms Hs') as Hs. pose proof (size_pos n) as Hsp.
  pose proof (owned_page _ _ _ _ Mi Mw) as Hpp.
  split; try done.
  - rewrite (bytes_insert _ _ _ _ Hl), length_cons. lia.
  - by destruct Hs as (-> & _).
  - destruct Hs as (_ & Hs1 & Hs2 & Hs3 & _ & _ & Hs4 & Hs5 & _ & Hs6).
    unfold dropped_bytes. by rewrite Hs1, Hs2, Hs3, Hs4, Hs5, Hs6.
  - by rewrite (same_rest_active _ _ Hs).
  - eapply untouched_trans; [exact Mm|]. eapply untouched_mono; [|exact Hu'].
    intros y [->|[m Hy]].
    + split; [apply Hpp|]. apply Mp. pose proof (size_pos n1). lia.
    + split; [by destruct (free_page _ _ _ _ Mi Hy)|]. right. by apply free_at_span with m, Ml.
  - intros z [(y & m & Hy & Hz)|Hz%Mp]%(span_push _ _ l); [|destruct Hz; [by right|by left]|done].
    left. exists y, m. split; [by apply Ml|done].
  - exists pa1, n1. split; [|lia]. rewrite (free_at_insert _ _ l) by done. left. split; [done|left].
  - intros Hc. assert (active a1 = active a) as Hact by (by rewrite (same_rest_active _ _ Ms)).
    eapply (push_coalesced a1 a' L1 n1 l pa1 r); try done.
    + by rewrite (same_rest_active _ _ Hs').
    + by rewrite Hact.
    + apply Mw.
    + intros x k r' Hx Hk Hr' ? ? ? ? Hb. rewrite Hact in Hr'. eapply (Hc x k r'); eauto.
Qed.

Lemma free_ok a L pa n :
  binv a L → owned a L pa n → (n < 19)%nat → free_bytes a + size n < 2 ^ 64 →
  ∃ a' L', free a pa (Z.of_nat n) = Ret a' ∧ free_post a L pa n a' L'.
Proof.
  intros Hi Ho Hn Hby. pose proof Ho as (Ha & (r & Hr & H1 & H2) & _).
  assert (0 < region_count a) as Hrc.
  { destruct (decide (0 < region_count a)) as [|Hz]; [done|]. unfold active in Hr.
    replace (Z.to_nat (region_count a)) with 0%nat in Hr by lia. by apply elem_of_nil in Hr. }
  pose proof (size_pos n) as Hsp.
  unfold free. change MAX_ORDER with 18. rewrite (proj2 (Z.leb_le (Z.of_nat n) 18)) by lia.
  rewrite (proj2 (Z.ltb_lt 0 (region_count a))) by lia. cbn [rust_assert mbind outcome_bind].
  fold (size n). rewrite add_chk_ok by done. cbn [mbind outcome_bind].
  set (a0 := set_free_bytes a (free_bytes a + size n)).
  assert (binv a0 L) as Hi0 by by apply binv_set_free_bytes.
  rewrite (region_of_owner a0 L pa n r Hi0 Hr H1 H2). destruct r as [lo hi]. cbn [fst snd] in H1, H2.
  rewrite (proj2 (Z.ltb_ge (hi - pa) (size n))) by lia.
  rewrite (proj2 (is_multiple_of_spec pa (size n) ltac:(lia))) by done. cbn [negb].
  destruct (bi_mask _ _ Hi0) as [Hm _].
  pose proof (scan_ok 32 a0 L pa n (lo, hi) (nonempty a0) Hi0 Ho Hr) as Hscan. cbn [fst] in Hscan.
  rewrite Hscan; [|unfold in_region; rewrite andb_true_iff, Z.leb_le, Z.ltb_lt; simpl; lia|done].
  cbn [mbind outcome_bind].
  destruct (merge_ok 18 a0 L pa n (lo, hi) Hi0 Ho Hr H1 H2 ltac:(lia) ltac:(lia))
    as (a1 & L1 & pa1 & n1 & Em & Hmg).
  cbn [fst snd] in *. rewrite Em. cbn [mbind outcome_bind]. by eapply free_push.
Qed.

(** A block whose first page is free already. *)
Lemma free_twice a L pa n :
  binv a L → pa mod size n = 0 → inside (active a) pa n → span L pa → free a pa (Z.of_nat n) = Panic.
Proof.
  intros Hi Ha (r & Hr & H1 & H2) (x & m & Hx & Hpa). pose proof (size_pos n).
  unfold free. destruct (_ <=? MAX_ORDER); [|done]. destruct (0 <? _); [|done].
  cbn [rust_assert mbind outcome_bind]. unfold add_chk. destruct (_ <? _); [|done].
  cbn [mbind outcome_bind]. fold (size n). set (a0 := set_free_bytes a _).
  assert (binv a0 L) as Hi0 by by apply binv_set_free_bytes.
  rewrite (region_of_owner a0 L pa n r Hi0 Hr H1 H2). destruct r as [lo hi]. cbn [fst snd] in H1, H2.
  rewrite (proj2 (Z.ltb_ge (hi - pa) (size n))) by lia.
  rewrite (proj2 (is_multiple_of_spec pa (size n) ltac:(lia))) by done. cbn [negb].
  destruct (bi_blocks _ _ Hi x m Hx) as [_ (r & Hr' & Hx1 & Hx2)].
  assert (in_region pa (lo, hi) = true) as Hin
    by (unfold in_region; rewrite andb_true_iff, Z.leb_le, Z.ltb_lt; simpl; lia).
  assert (r = (lo, hi)) as ->.
  { eapply (region_unique _ _ _ pa); [apply Hi|done..| |done].
    unfold in_region; rewrite andb_true_iff, Z.leb_le, Z.ltb_lt; lia. }
  destruct (bi_mask _ _ Hi0) as [Hm Hbits]. pose proof Hx as (l & Hl & Hxl).
  pose proof (scan_panics 32 a0 L pa x m (lo, hi) (nonempty a0) Hi0 Hx Hpa Hr Hin) as Hscan.
  cbn [fst snd] in *. rewrite Hscan; [done| |done| |].
  - pose proof (size_pos m). unfold in_region. rewrite andb_true_iff, Z.leb_le, Z.ltb_lt. simpl. lia.
  - rewrite (Hbits m l Hl). apply bool_decide_eq_true. by intros ->; apply elem_of_nil in Hxl.
  - intros i _. lia.
Qed.

(** A block no region can have handed out: only the counters move. *)
Lemma free_foreign a L pa n :
  binv a L → (n < 19)%nat → 0 < region_count a → free_bytes a + size n < 2 ^ 64 → 
  0 ≤ free_bytes a → foreign_frees a + size n < 2 ^ 64 →
  pa mod size n ≠ 0 ∨ ¬ inside (active a) pa n →
  free a pa (Z.of_nat n) = Ret (set_counters a (foreign_frees a + size n) (rejected_unlinks a) (truncated_lists a)).
Proof.
  intros Hi Hn Hrc Hby H0 Hff Hbad. pose proof (size_pos n) as Hsp.
  assert (refuse (set_free_bytes a (free_bytes a + size n)) (Z.of_nat n) =
    Ret (set_counters a (foreign_frees a + size n) (rejected_unlinks a) (truncated_lists a))) as Href.
  { unfold refuse. fold (size n). cbn [free_bytes set_free_bytes foreign_frees].
    rewrite sub_chk_ok by lia. cbn [mbind outcome_bind]. rewrite add_chk_ok by lia.
    cbn [mbind outcome_bind]. destruct a. unfold set_counters, set_free_bytes. cbn.
    replace (free_bytes + size n - size n) with free_bytes by lia. done. }
  unfold free. change MAX_ORDER with 18. rewrite (proj2 (Z.leb_le (Z.of_nat n) 18)) by lia.
  rewrite (proj2 (Z.ltb_lt 0 (region_count a))) by lia. cbn [rust_assert mbind outcome_bind].
  fold (size n). rewrite add_chk_ok by done. cbn [mbind outcome_bind].
  destruct (region_of (set_free_bytes a (free_bytes a + size n)) pa) as [[lo hi]|] eqn:Er; [|done].
  apply find_first_Some in Er as [Hr Hin]. change ((lo, hi) ∈ active a) in Hr. unfold in_region in Hin. bool_cases.
  destruct (Z.ltb_spec (hi - pa) (size n)) as [|Hfit]; [done|].
  destruct (is_multiple_of pa (size n)) eqn:Em; [|done]. exfalso.
  apply is_multiple_of_spec in Em; [|lia]. destruct Hbad as [|Hno]; [done|]. apply Hno.
  exists (lo, hi). cbn [fst snd] in *. split; [done|lia].
Qed.
End Free.
