(* ===== verification/BuddySys.v ===== *)
(** The running frame allocator: regions, the steps of its callers, and the
    theorems about [crates/qunix-mm/src/buddy.rs]. *)
From S2P Require Import Prelude Bits Buddy BuddyProofs BuddyFree.

(** ** The total size of disjoint ranges *)

Definition range_len (r : Z * Z) : Z := r.2 - r.1.
Definition ranges_apart (rs : list (Z * Z)) : Prop :=
  ∀ i j r r', rs !! i = Some r → rs !! j = Some r' → i ≠ j → r.2 ≤ r'.1 ∨ r'.2 ≤ r.1.

Lemma ranges_apart_cons r rs :
  ranges_apart (r :: rs) → ranges_apart rs ∧ ∀ r', r' ∈ rs → r.2 ≤ r'.1 ∨ r'.2 ≤ r.1.
Proof.
  intros H. split.
  - intros i j r1 r2 Hi Hj Hne. apply (H (S i) (S j)); [done|done|congruence].
  - intros r' [j Hj]%list_elem_of_lookup. by apply (H 0%nat (S j)).
Qed.

Lemma ranges_apart_sum rs lo hi :
  ranges_apart rs → lo ≤ hi → (∀ r, r ∈ rs → lo ≤ r.1 ∧ r.1 < r.2 ∧ r.2 ≤ hi) →
  sum_Z range_len rs ≤ hi - lo.
Proof.
  remember (length rs) as n eqn:Hn. assert (length rs ≤ n)%nat as Hle by lia. clear Hn.
  revert rs lo hi Hle. induction n as [|n IH]; intros [|r rs] lo hi Hle Hap Hlh Hin;
    try (rewrite sum_Z_nil; lia); simpl in Hle; [lia|].
  apply ranges_apart_cons in Hap as [Hap Hr].
  destruct (Hin r ltac:(left)) as (H1 & H2 & H3).
  assert (∀ P : Z * Z → Prop, ∀ `{∀ x, Decision (P x)}, ranges_apart (filter P rs)) as Hsub.
  { intros P HP. clear -Hap. induction rs as [|x rs IHr]; [done|].
    apply ranges_apart_cons in Hap as [Hap Hx]. specialize (IHr Hap). rewrite filter_cons.
    case_decide; [|done]. intros [|i] [|j] r1 r2 Hi Hj Hne; simpl in *; try done.
    - injection Hi as <-. apply list_elem_of_lookup_2, list_elem_of_filter in Hj as [_ Hj]. auto.
    - injection Hj as <-. apply list_elem_of_lookup_2, list_elem_of_filter in Hi as [_ Hi].
      specialize (Hx _ Hi). tauto.
    - apply (IHr i j); [done|done|congruence]. }
  rewrite sum_Z_cons. assert (sum_Z range_len rs = sum_Z range_len (filter (λ x, x.2 ≤ r.1) rs) +
          sum_Z range_len (filter (λ x, ¬ x.2 ≤ r.1) rs)) as ->.
  { rewrite <- sum_Z_app. apply sum_Z_perm. symmetry. apply filter_app_complement. }
  assert (sum_Z range_len (filter (λ x, x.2 ≤ r.1) rs) ≤ r.1 - lo).
  { apply IH; [|apply Hsub|lia|].
    - pose proof (length_filter (λ x, x.2 ≤ r.1) rs). lia.
    - intros x [Hx1 Hx2]%list_elem_of_filter. destruct (Hin x ltac:(by right)). lia. }
  assert (sum_Z range_len (filter (λ x, ¬ x.2 ≤ r.1) rs) ≤ hi - r.2).
  { apply IH; [|apply Hsub|lia|].
    - pose proof (length_filter (λ x, ¬ x.2 ≤ r.1) rs). lia.
    - intros x [Hx1 Hx2]%list_elem_of_filter. destruct (Hin x ltac:(by right)).
      specialize (Hr x Hx2). lia. }
  unfold range_len at 1. lia.
Qed.

Section Regions.
Context {B : Type} `{HB : FrameBacking B}.
Implicit Types (a : BuddyAllocator B) (b : B).

Definition region_bytes a : Z := sum_Z range_len (active a).

Lemma region_bytes_bound a L : binv a L → 0 ≤ region_bytes a ≤ 2 ^ 64 - 4096.
Proof.
  intros Hi. destruct (bi_regions _ _ Hi) as [Hwf Hap]. rewrite Forall_forall in Hwf. split.
  - apply sum_Z_nonneg. intros r Hr. destruct (Hwf r Hr) as (_ & _ & H & _). unfold range_len. lia.
  - assert (2 ^ 64 - 4096 = 2 ^ 64 - 4096 - 0) as -> by lia. apply ranges_apart_sum; [done|lia|].
    intros r Hr. destruct (Hwf r Hr) as (_ & Hb & Hc & Hd). split; [lia|]. split; [lia|].
    destruct (Z.le_gt_cases r.2 (2 ^ 64 - 4096)) as [|Hgt]; [done|].
    exfalso. assert (2 ^ 64 - 4096 = r.2); [|lia]. eapply (mod_eq_close _ _ 4096); try done; lia.
Qed.

(** ** The carving loop *)

Lemma carve_order_spec addr stop :
  page addr → stop mod 4096 = 0 → addr < stop →
  ∃ n : nat, carve_order addr stop = Z.of_nat n ∧ (n ≤ 18)%nat ∧ addr mod size n = 0 ∧
    addr + size n ≤ stop.
Proof.
  intros [Ha [H0 _]] Hs Hlt. unfold carve_order. change PAGE_SIZE with 4096.
  change (trailing_zeros 64 4096) with 12. change MAX_ORDER with 18.
  set (q := (stop - addr) / 4096).
  assert (stop - addr = 4096 * q) as Hq.
  { unfold q. apply Z_div_exact_full_2; [lia|]. by rewrite Zminus_mod, Ha, Hs. }
  assert (12 ≤ trailing_zeros 64 addr) as Htz.
  { destruct addr as [|p|p]; [done| |lia]. simpl.
    destruct (Z.le_gt_cases 12 (pos_trailing_zeros p)) as [|Hgt]; [done|].
    by apply pos_trailing_zeros_odd in Hgt. }
  set (k := Z.min _ 18). pose proof (Z.log2_nonneg q). unfold saturating_sub in k.
  assert (0 ≤ k ≤ 18) by lia. exists (Z.to_nat k). split; [lia|]. split; [lia|]. split.
  - unfold size. rewrite Z2Nat.id, block_size_pow by lia.
    apply (trailing_zeros_mod 64); [lia|lia|]. lia.
  - unfold size. rewrite Z2Nat.id, block_size_eq by lia.
    assert (2 ^ k ≤ q); [|lia]. destruct (Z.log2_spec q ltac:(lia)) as [Hl _].
    pose proof (pow2_le k (Z.log2 q) ltac:(lia)). lia.
Qed.

(** A block with room for its upper buddy would have been carved larger. *)
Lemma carve_order_max addr stop n :
  page addr → stop mod 4096 = 0 → (n ≤ 18)%nat → addr mod size n = 0 → addr + size n ≤ stop →
  Z.of_nat n ≤ carve_order addr stop.
Proof.
  intros [Ha [H0 _]] Hs Hn Hal Hfit. unfold carve_order. change PAGE_SIZE with 4096.
  change (trailing_zeros 64 4096) with 12. change MAX_ORDER with 18.
  unfold size in *. rewrite block_size_pow in Hal by lia. rewrite block_size_eq in Hfit by lia.
  assert (12 + Z.of_nat n ≤ trailing_zeros 64 addr).
  { destruct addr as [|p|p]; [simpl; lia| |lia]. simpl.
    destruct (Z.le_gt_cases (12 + Z.of_nat n) (pos_trailing_zeros p)) as [|Hgt]; [done|].
    by apply pos_trailing_zeros_odd in Hgt. }
  assert (Z.of_nat n ≤ Z.log2 ((stop - addr) / 4096)).
  { pose proof (pow2_pos (Z.of_nat n) ltac:(lia)).
    apply Z.log2_le_pow2.
    - apply Z.div_str_pos. lia.
    - apply Z.div_le_lower_bound; lia. }
  unfold saturating_sub. lia.
Qed.

(** What the loop keeps: [addr, stop) is clear, and the blocks already
    carved off this region are the ones the greedy rule gives. *)
Record carving a L (r : Z * Z) (addr : Z) : Prop := {
  cv_inv : binv a L;
  cv_region : r ∈ active a;
  cv_addr : r.1 ≤ addr ≤ r.2 ∧ addr mod 4096 = 0;
  cv_clear : ∀ z, addr ≤ z < r.2 → ¬ span L z;
  cv_greedy : ∀ x n, free_at L x n → r.1 ≤ x → x + size n ≤ r.2 → Z.of_nat n = carve_order x r.2;
  cv_room : 0 ≤ free_bytes a ∧ free_bytes a + (r.2 - addr) < 2 ^ 64;
  cv_coalesced : coalesced a L
}.

Record carve_post a L (r : Z * Z) (addr : Z) a' L' : Prop := {
  cp_inv : binv a' L';
  cp_active : active a' = active a;
  cp_bytes : bytes L' = bytes L + (r.2 - addr);
  cp_free_bytes : free_bytes a' = free_bytes a + (r.2 - addr);
  cp_rest : foreign_frees a' = foreign_frees a ∧ edge_dropped_bytes a' = edge_dropped_bytes a ∧
    refused_region_bytes a' = refused_region_bytes a ∧
    malformed_region_bytes a' = malformed_region_bytes a ∧ region_count a' = region_count a;
  cp_memory : untouched (backing a) (backing a') (λ y, y mod 4096 = 0 ∧ (addr ≤ y < r.2 ∨ span L y));
  cp_span : ∀ z, span L' z → span L z ∨ addr ≤ z < r.2;
  cp_coalesced : coalesced a' L'
}.

(** One turn of the loop. *)
Lemma carve_turn a L r addr :
  carving a L r addr → addr < r.2 →
  ∃ (n : nat) l a1, carve_order addr r.2 = Z.of_nat n ∧ addr + size n ≤ r.2 ∧
    push a addr (Z.of_nat n) = Ret a1 ∧ L !! n = Some l ∧ same_rest a a1 ∧
    untouched (backing a) (backing a1) (footprint L addr) ∧ page addr ∧
    carving (set_free_bytes a1 (free_bytes a + size n)) (<[n := addr :: l]> L) r (addr + size n).
Proof.
  intros [Hi Hr [[Hr1 Hr2] Ha] Hcl Hgr [Hf0 Hf] Hco] Hlt.
  destruct (bi_regions _ _ Hi) as [Hwf _]. rewrite Forall_forall in Hwf.
  destruct (Hwf r Hr) as (Hra & Hrb & Hrc & Hrd).
  assert (page addr) as Hp.
  { apply (inside_page (active a) addr 0%nat); [apply Hi|done|].
    exists r. split; [done|]. change (size 0) with 4096. split; [done|].
    destruct (Z.le_gt_cases (addr + 4096) r.2); [done|]. exfalso.
    assert (addr = r.2); [|lia]. eapply (mod_eq_close _ _ 4096); try done; lia. }
  destruct (carve_order_spec addr r.2 Hp Hrb Hlt) as (n & Eo & Hn & Hal & Hfit).
  pose proof (size_pos n) as Hsp.
  assert (owned a L addr n) as Ho.
  { apply owned_span. split; [done|]. split; [by exists r|]. unfold block. intros z Hz. apply Hcl. lia. }
  destruct (list_at a L n Hi ltac:(lia)) as [l Hl].
  destruct (push_ok _ _ _ _ _ Hi Hl Ho) as (a1 & He & Hi1 & Hs1 & Hu1).
  exists n, l, a1. do 7 (split; [done|]).
  pose proof (same_rest_active _ _ Hs1) as Hact.
  assert (∀ x m, free_at (<[n := addr :: l]> L) x m → (x = addr ∧ m = n) ∨ free_at L x m) as Hfa.
  { intros x m. by apply free_at_push. }
  split.
  - by apply binv_set_free_bytes.
  - change (r ∈ active a1). by rewrite Hact.
  - split; [lia|]. rewrite Z.add_mod, Ha by lia.
    assert (size n mod 4096 = 0) as ->; [|done].
    unfold size. rewrite block_size_eq, Z.mul_comm by lia. apply Z.mod_mul. lia.
  - intros z Hz (x & m & [[-> ->]|Hx]%Hfa & Hin); [lia|]. apply (Hcl z); [lia|]. by exists x, m.
  - intros x m [[-> ->]|Hx]%Hfa; auto.
  - simpl. lia.
  - change (coalesced a1 (<[n := addr :: l]> L)).
    eapply (push_coalesced a a1 L n l addr r); try done. intros Hlt' Hb1 Hb2 Hb.
    destruct (buddy_cases addr n ltac:(lia) Hal) as [[Eb _]|(Eb & Hlow & Hge)].
    + apply (Hcl (buddy_of addr n)); [lia|]. by eapply free_at_span.
    + pose proof (free_page _ _ _ _ Hi Hb) as Hbp. pose proof (size_succ n) as Hss.
      pose proof (Hgr _ _ Hb ltac:(lia) ltac:(lia)) as Hg. rewrite Eb in Hg, Hbp.
      pose proof (carve_order_max (addr - size n) r.2 (S n) Hbp Hrb ltac:(lia) Hlow ltac:(lia)). lia.
Qed.

Lemma carve_ok fuel : ∀ a L r addr,
  carving a L r addr → (r.2 - addr) / 4096 ≤ Z.of_nat fuel →
  ∃ a' L', carve fuel a addr r.2 = Ret a' ∧ carve_post a L r addr a' L'.
Proof.
  induction fuel as [|fuel IH]; intros a L r addr Hcv Hfu.
  all: assert (addr = r.2 → carve_post a L r addr a L) as Hdone by
    (intros ->; destruct Hcv; split; try done; try lia; try apply untouched_refl; by left).
  all: pose proof Hcv as [Hi Hr [[Hr1 Hr2] Ha] _ _ [Hf0 Hf] _].
  - assert (addr = r.2); [|exists a, L; by split; auto].
    destruct (decide (addr = r.2)) as [|Hne]; [done|]. exfalso.
    destruct (carve_turn _ _ _ _ Hcv ltac:(lia)) as (n & _ & _ & _ & Hfit & _).
    pose proof (size_pos n). assert (1 ≤ (r.2 - addr) / 4096); [|lia].
    apply Z.div_le_lower_bound; lia.
  - cbn [carve]. destruct (Z.ltb_spec addr r.2) as [Hlt|Hge]; cbn [negb];
      [|exists a, L; split; [done|]; apply Hdone; lia].
    destruct (carve_turn _ _ _ _ Hcv Hlt) as (n & l & a1 & -> & Hfit & -> & Hl & Hs & Hu & Hp & Hcv').
    cbn [mbind outcome_bind]. fold (size n). pose proof (size_pos n) as Hsp.
    assert (free_bytes a1 = free_bytes a) as Hfb by (by destruct Hs).
    destruct (bi_regions _ _ Hi) as [Hwf _]. rewrite Forall_forall in Hwf.
    destruct (Hwf r Hr) as (_ & _ & _ & Hrd).
    rewrite Hfb, !add_chk_ok by lia. cbn [mbind outcome_bind].
    destruct (IH _ _ _ _ Hcv') as (a' & L' & He & [C1 C2 C3 C4 C5 C6 C7 C8]).
    { assert ((r.2 - (addr + size n)) / 4096 ≤ (r.2 - (addr + 4096)) / 4096) by (apply Z.div_le_mono; lia).
      replace (r.2 - (addr + 4096)) with (r.2 - addr + (-1) * 4096) in * by lia.
      rewrite Z.div_add in * by lia. lia. }
    assert (∀ z, span (<[n := addr :: l]> L) z → span L z ∨ block addr n z) as Hspan.
    { intros z. by apply span_push. }
    exists a', L'. split; [done|]. unfold block in Hspan. split; try done.
    + rewrite C2. apply (same_rest_active _ _ Hs).
    + rewrite C3, (bytes_insert _ _ _ _ Hl), length_cons. lia.
    + rewrite C4. simpl. lia.
    + destruct Hs as (_ & S1 & _ & _ & _ & S2 & S3 & S4 & _ & S5). simpl in C5.
      destruct C5 as (T1 & T2 & T3 & T4 & T5). intuition congruence.
    + eapply untouched_trans.
      * eapply untouched_mono; [|exact Hu]. intros y [->|[m Hy]].
        -- split; [done|]. left. lia.
        -- split; [by destruct (free_page _ _ _ _ Hi Hy)|]. right. by eapply free_at_span.
      * eapply untouched_mono; [|exact C6]. intros y [Hy [Hin|Hin]]; (split; [done|]); [left; lia|].
        apply Hspan in Hin as [|]; [by right|left; lia].
    + intros z [Hz|Hz]%C7; [|right; lia]. apply Hspan in Hz as [|]; [by left|right; lia].
Qed.

(** ** [add_region] *)

(** No word of the range reads as the tag of a free block. *)
Definition no_tags b (lo hi : Z) : Prop :=
  ∀ p n, page p → lo ≤ p < hi → (n < 19)%nat → rd b p OFF_TAG ≠ free_tag p (Z.of_nat n).

Definition clear_of a (lo hi : Z) : Prop := ∀ r, r ∈ active a → r.2 ≤ lo ∨ hi ≤ r.1.

Lemma active_register a r :
  0 ≤ region_count a < 128 → length (regions a) = 128%nat →
  active (set_regions a (<[Z.to_nat (region_count a) := r]> (regions a)) (region_count a + 1)) =
  active a ++ [r].
Proof.
  intros Hc Hlen. unfold active. cbn [regions region_count set_regions].
  replace (Z.to_nat (region_count a + 1)) with (S (Z.to_nat (region_count a))) by lia.
  erewrite take_S_r; [|apply list_lookup_insert_eq; lia].
  by rewrite take_insert_ge by lia.
Qed.

(** Recording a region that nothing has been carved from yet. *)
Lemma register_region a L r :
  binv a L → coalesced a L → region_count a < 128 → region_wf r → clear_of a r.1 r.2 →
  no_tags (backing a) r.1 r.2 →
  let a' := set_regions a (<[Z.to_nat (region_count a) := r]> (regions a)) (region_count a + 1) in
  binv a' L ∧ coalesced a' L ∧ ∀ z, r.1 ≤ z < r.2 → ¬ span L z.
Proof.
  intros Hi Hco Hc (Ha & Hb & Hlt & Hmax) Hcl Hnt a'.
  pose proof Hi as [I1 I2 I3 I4 I5 I6 I7 [I8 I8'] [I9 I9']].
  assert (active a' = active a ++ [r]) as Hact by (apply active_register; [lia|done]).
  assert (∀ z, r.1 ≤ z < r.2 → ¬ span L z) as Hclear.
  { intros z Hz (x & n & Hx & Hin). destruct (I5 x n Hx) as [_ (r' & Hr' & ?)].
    destruct (Hcl r' Hr'); lia. }
  split; [|split; [|done]].
  - split; try done; rewrite ?Hact.
    + intros x n Hx. destruct (I5 x n Hx) as [? (r' & Hr' & ?)]. split; [done|].
      exists r'. split; [set_solver|done].
    + intros p n Hn Hal (r' & [Hr'|Hr']%elem_of_app & Hin) Ht.
      * apply I7; [done..| |done]. by exists r'.
      * apply list_elem_of_singleton in Hr' as ->. unfold in_region in Hin. bool_cases. exfalso.
        assert (p mod 4096 = 0) as Hp by (eapply aligned_page; [|exact Hal]; lia).
        apply (Hnt p n); [|lia|done|done]. split; [done|]. split; [lia|].
        destruct (Z.lt_ge_cases p (2 ^ 64 - 4096)) as [|Hge]; [done|]. exfalso.
        assert (2 ^ 64 - 4096 = p) by (eapply (mod_eq_close _ _ 4096); try done; lia).
        assert (2 ^ 64 - 4096 = r.2); [eapply (mod_eq_close _ _ 4096); try done; lia|lia].
    + simpl. rewrite length_insert. split; [lia|done].
    + split; [rewrite Forall_app, Forall_singleton; done|].
      intros i j r1 r2 [H1|[H1 H1']]%lookup_app_Some [H2|[H2 H2']]%lookup_app_Some Hne.
      * by apply (I9' i j).
      * apply list_lookup_singleton_Some in H2' as [? <-].
        destruct (Hcl r1); [by eapply list_elem_of_lookup_2|lia|lia].
      * apply list_lookup_singleton_Some in H1' as [? <-].
        destruct (Hcl r2); [by eapply list_elem_of_lookup_2|lia|lia].
      * apply list_lookup_singleton_Some in H1' as [? _], H2' as [? _]. lia.
  - intros x n r' Hx Hn Hr' H1 H2. rewrite Hact in Hr'. apply elem_of_app in Hr' as [Hr'|Hr'].
    + by apply Hco.
    + apply list_elem_of_singleton in Hr' as ->. exfalso. pose proof (size_pos n).
      apply (Hclear x); [lia|]. by eapply free_at_span.
Qed.

Lemma checked_next_multiple_Some x c :
  fits 64 x → checked_next_multiple x 4096 = Some c → c mod 4096 = 0 ∧ x ≤ c < x + 4096 ∧ c < 2 ^ 64.
Proof.
  intros [Hx Hx'] E. unfold checked_next_multiple in E.
  pose proof (Z.mod_pos_bound x 4096 ltac:(lia)) as Hm.
  destruct (Z.eqb_spec (x mod 4096) 0) as [E0|Hne].
  - injection E as <-. split; [done|lia].
  - apply checked_add_Some in E as [-> E]. split; [|lia].
    pose proof (Z.div_mod x 4096 ltac:(lia)).
    replace (x + (4096 - x mod 4096)) with ((x / 4096 + 1) * 4096) by lia. apply Z.mod_mul. lia.
Qed.

Lemma page_floor x : fits 64 x →
  Z.land x (bitnot 64 (PAGE_SIZE - 1)) = x - x mod 4096 ∧ (x - x mod 4096) mod 4096 = 0.
Proof.
  intros Hx. split; [exact (land_bitnot_align 64 x 12 ltac:(lia) Hx)|].
  rewrite Zminus_mod_idemp_r, Z.sub_diag. done.
Qed.

(** Every byte the caller offered, by where it went. *)
Definition accounted a : Z :=
  free_bytes a + edge_dropped_bytes a + refused_region_bytes a + malformed_region_bytes a.

(** Room in the 64-bit counters for one more range. *)
Definition counters_have_room a (len : Z) : Prop :=
  edge_dropped_bytes a + 8192 < 2 ^ 64 ∧ refused_region_bytes a + len < 2 ^ 64 ∧
  malformed_region_bytes a + len < 2 ^ 64 ∧ refused_regions a + 1 < 2 ^ 32.

Record add_post a L (start len : Z) a' L' : Prop := {
  ad_inv : binv a' L';
  ad_bytes : free_bytes a' - bytes L' = free_bytes a - bytes L;
  ad_coalesced : coalesced a' L';
  ad_account : accounted a' = accounted a + len;
  ad_regions : (active a' = active a ∧ free_bytes a' = free_bytes a) ∨
    ∃ r, active a' = active a ++ [r] ∧ start ≤ r.1 ∧ r.2 ≤ start + len ∧
         free_bytes a' = free_bytes a + range_len r;
  ad_memory : untouched (backing a) (backing a')
    (λ y, y mod 4096 = 0 ∧ (start ≤ y < start + len ∨ span L y));
  ad_span : ∀ z, span L' z → span L z ∨ start ≤ z < start + len;
  ad_foreign : foreign_frees a' = foreign_frees a
}.

(** A range that is not taken only moves the counters. *)
Lemma add_dropped a L start len e r n m :
  binv a L → coalesced a L → e + r + m = edge_dropped_bytes a + refused_region_bytes a + malformed_region_bytes a + len →
  add_post a L start len (set_dropped a e r n m) L.
Proof.
  intros Hi Hco Hsum. split; try done.
  - by destruct Hi.
  - unfold accounted. simpl. lia.
  - by left.
  - by left.
Qed.

(** A range that is taken: registered, then carved to its end. *)
Lemma add_taken a L start len addr stop e :
  let a1 := set_dropped a e (refused_region_bytes a) (refused_regions a) (malformed_region_bytes a) in
  let r := (addr, stop) in
  let a2 := set_regions a1 (<[Z.to_nat (region_count a) := r]> (regions a)) (region_count a + 1) in
  binv a L → coalesced a L → 0 ≤ free_bytes a ≤ region_bytes a → region_count a ≠ 128 →
  region_wf r → start ≤ addr → stop ≤ start + len →
  e + (stop - addr) = edge_dropped_bytes a + len →
  clear_of a start (start + len) → no_tags (backing a) start (start + len) →
  ∃ a' L', carve (Z.to_nat ((stop - addr) / 4096)) a2 addr stop = Ret a' ∧ add_post a L start len a' L'.
Proof.
  intros a1 r a2 Hi Hco Hfb Hne Hwf Hs1 Hs2 He Hcl Hnt.
  assert (binv a1 L) as Hi1 by by destruct Hi.
  destruct (bi_count _ _ Hi) as [Hc Hrl]. pose proof Hwf as (_ & _ & Hwf1 & _). simpl in Hwf1.
  destruct (register_region a1 L r Hi1 Hco) as (Hi2 & Hco2 & Hclear).
  { simpl. lia. }
  { done. }
  { intros r' Hr'. destruct (Hcl r' Hr'); simpl; lia. }
  { intros p n Hp Hin. apply Hnt; [done|]. simpl in Hin. lia. }
  assert (active a2 = active a ++ [r]) as Hact by (apply (active_register a1); simpl; [lia|done]).
  change (binv a2 L) in Hi2. change (coalesced a2 L) in Hco2.
  pose proof (region_bytes_bound _ _ Hi2) as Hrb. unfold region_bytes in *.
  rewrite Hact, sum_Z_app, sum_Z_cons, sum_Z_nil in Hrb. unfold range_len at 2 4 in Hrb. simpl in Hrb.
  destruct (carve_ok (Z.to_nat ((stop - addr) / 4096)) a2 L r addr)
    as (a' & L' & Hc' & [C1 C2 C3 C4 C5 C6 C7 C8]).
  { split; try done; simpl; try lia.
    - rewrite Hact. set_solver.
    - split; [lia|]. apply Hwf.
    - intros x n Hx H1 H2. exfalso. pose proof (size_pos n). apply (Hclear x); [simpl; lia|].
      by eapply free_at_span. }
  { simpl. rewrite Z2Nat.id; [lia|]. apply Z.div_pos; lia. }
  exists a', L'. split; [done|]. simpl in C3, C4, C5.
  destruct C5 as (T1 & T2 & T3 & T4 & T5). split; try done.
  - lia.
  - unfold accounted. rewrite C4, T2, T3, T4. lia.
  - right. exists r. rewrite C2, Hact. split; [done|]. unfold range_len. simpl. lia.
  - eapply untouched_mono; [|exact C6]. simpl. intros y [Hy [Hin|Hin]]; (split; [done|]); [left; lia|by right].
  - intros z [Hz|Hz]%C7; [by left|]. right. simpl in Hz. lia.
Qed.

Lemma add_region_ok a L start len :
  binv a L → coalesced a L → 0 ≤ free_bytes a ≤ region_bytes a →
  fits 64 start → fits 64 len → counters_have_room a len →
  clear_of a start (start + len) → no_tags (backing a) start (start + len) →
  ∃ a' L', add_region a start len = Ret a' ∧ add_post a L start len a' L'.
Proof.
  intros Hi Hco Hfb Hst Hlen (Re & Rr & Rm & Rn) Hcl Hnt. unfold add_region. change PAGE_SIZE with 4096.
  assert (∃ a' L', (m ← add_chk 64 (malformed_region_bytes a) len;
    Ret (set_dropped a (edge_dropped_bytes a) (refused_region_bytes a) (refused_regions a) m)) = Ret a' ∧
    add_post a L start len a' L') as Hmal.
  { rewrite add_chk_ok by done. do 2 eexists. split; [reflexivity|]. apply add_dropped; [done..|lia]. }
  destruct (checked_next_multiple start 4096) as [addr|] eqn:Ea; [|exact Hmal].
  destruct (checked_add 64 start len) as [limit|] eqn:El; [|exact Hmal].
  apply checked_next_multiple_Some in Ea as (Ha & Has & Ha64); [|done].
  apply checked_add_Some in El as [-> Hlim].
  assert (fits 64 (start + len)) as Hfl by (unfold fits in *; lia).
  destruct (page_floor _ Hfl) as [Hfloor Hstop]. change PAGE_SIZE with 4096 in Hfloor. rewrite Hfloor.
  pose proof (Z.mod_pos_bound (start + len) 4096 ltac:(lia)) as Hmod.
  set (stop := start + len - (start + len) mod 4096) in *. unfold fits in *.
  destruct (Z.leb_spec stop addr) as [|Hlt]; [exact Hmal|]. clear Hmal.
  rewrite (sub_chk_ok addr start), (sub_chk_ok (start + len) stop) by lia. cbn [mbind outcome_bind].
  rewrite add_chk_ok by lia. cbn [mbind outcome_bind]. rewrite add_chk_ok by lia. cbn [mbind outcome_bind].
  destruct (bi_count _ _ Hi) as [Hc Hrl]. cbn [region_count set_dropped]. change MAX_REGIONS with 128.
  destruct (Z.eqb_spec (region_count a) 128) as [|Hne].
  - rewrite add_chk_ok by (simpl; lia). cbn [mbind outcome_bind].
    rewrite add_chk_ok by (simpl; lia). do 2 eexists. split; [reflexivity|].
    apply (add_dropped a L start len (edge_dropped_bytes a + (addr - start + (start + len - stop)))
      (refused_region_bytes a + (stop - addr)) (refused_regions a + 1) (malformed_region_bytes a)); [done..|lia].
  - rewrite set_index_ok by (simpl; lia). cbn [mbind outcome_bind].
    eapply (add_taken a L start len addr stop); try done; try lia. unfold region_wf. simpl. lia.
Qed.
End Regions.

(** ** The allocator and its callers *)

Section System.
Context {B : Type} `{HB : FrameBacking B}.
Implicit Types (a : BuddyAllocator B) (b : B).

(** The blocks handed out and not yet returned. *)
Record system := mkSystem { heap : BuddyAllocator B; live : list (Z * nat) }.

Inductive event :=
  | EAlloc (n : nat) (r : option Z)
  | EFree (pa : Z) (n : nat)
  | EForeign (pa : Z) (n : nat)
  | ERegion (start len : Z)
  | EBacking (b : B)
  | EWrite (z v : Z).

Definition handed_out (l : list (Z * nat)) (n : nat) (r : option Z) : list (Z * nat) :=
  match r with Some pa => (pa, n) :: l | None => l end.

(** A store that would read as the tag of a free block. *)
Definition forges (z v : Z) : Prop := ∃ n : nat, (n < 19)%nat ∧ v = free_tag (z - OFF_TAG) (Z.of_nat n).

(** Callers allocate, return what they hold, return what they never held
    (refused, while the counters have room), offer firmware ranges, and write
    words of their own blocks, so long as no word is a forged tag. *)
Inductive step : system → event → system → Prop :=
  | step_alloc a l n r a' :
      alloc a (Z.of_nat n) = Ret (r, a') →
      step (mkSystem a l) (EAlloc n r) (mkSystem a' (handed_out l n r))
  | step_free a l l' pa n a' :
      l ≡ₚ (pa, n) :: l' → free a pa (Z.of_nat n) = Ret a' →
      step (mkSystem a l) (EFree pa n) (mkSystem a' l')
  | step_foreign a l pa n a' :
      pa mod size n ≠ 0 ∨ ¬ inside (active a) pa n → (n < 19)%nat → 0 < region_count a →
      free_bytes a + size n < 2 ^ 64 → foreign_frees a + size n < 2 ^ 64 →
      free a pa (Z.of_nat n) = Ret a' →
      step (mkSystem a l) (EForeign pa n) (mkSystem a' l)
  | step_region a l start len a' :
      fits 64 start → fits 64 len → counters_have_room a len →
      clear_of a start (start + len) → no_tags (backing a) start (start + len) →
      add_region a start len = Ret a' →
      step (mkSystem a l) (ERegion start len) (mkSystem a' l)
  | step_backing a l b a' :
      set_backing a b = Ret a' → step (mkSystem a l) (EBacking b) (mkSystem a' l)
  | step_write a l x n z v :
      (x, n) ∈ l → z mod 8 = 0 → x ≤ z < x + size n → ¬ forges z v →
      step (mkSystem a l) (EWrite z v) (mkSystem (set_mem a (write_link (backing a) z v)) l).

Definition reachable (s : system) : Prop := ∃ b tr, run step (mkSystem (new b) []) tr s.

Fixpoint all_apart (l : list (Z * nat)) : Prop :=
  match l with
  | [] => True
  | (x, n) :: l' => (∀ y m, (y, m) ∈ l' → apart x n y m) ∧ all_apart l'
  end.

Definition live_bytes (l : list (Z * nat)) : Z := sum_Z (λ p, size p.2) l.

Record sys_inv (s : system) (L : list (list Z)) : Prop := {
  si_inv : binv (heap s) L;
  si_bytes : free_bytes (heap s) = bytes L;
  si_coalesced : coalesced (heap s) L;
  si_live : ∀ x n, (x, n) ∈ live s → (n < 19)%nat ∧ owned (heap s) L x n;
  si_apart : all_apart (live s);
  si_total : free_bytes (heap s) + live_bytes (live s) = region_bytes (heap s)
}.

#[export] Instance all_apart_perm : Proper ((≡ₚ) ==> iff) all_apart.
Proof.
  assert (∀ l l', l ≡ₚ l' → all_apart l → all_apart l') as H.
  { induction 1 as [|[x n] l l' Hp IH|[x n] [y m] l|]; simpl; [done| | |naive_solver].
    - intros [H1 H2]. split; [|auto]. intros y m Hy. apply H1. by rewrite Hp.
    - intros (H1 & H2 & H3). split.
      + intros z k [Hz|Hz]%elem_of_cons; [|by apply H2]. simplify_eq. apply apart_sym, H1. left.
      + split; [|done]. intros z k Hz. apply H1. by right. }
  intros l l' Hp. split; apply H; [done|by symmetry].
Qed.

#[local] Instance live_bytes_perm : Proper ((≡ₚ) ==> (=)) live_bytes.
Proof. intros l l' Hp. unfold live_bytes. by rewrite Hp. Qed.

Lemma live_bytes_nonneg l : 0 ≤ live_bytes l.
Proof. apply sum_Z_nonneg. intros [x n] _. pose proof (size_pos n). simpl. lia. Qed.

Lemma binv_new b : binv (new b) (replicate 19 []).
Proof.
  assert (∀ n l, replicate 19 ([] : list Z) !! n = Some l → l = []) as Hl
    by (intros n l Hn; by apply lookup_replicate in Hn as [-> _]).
  split; try done.
  - intros n l Hn. rewrite (Hl n l Hn). apply lookup_replicate in Hn as [_ Hn].
    split; [|by split; [|constructor]].
    change (replicate 19 NIL !! n = Some NIL). by apply lookup_replicate.
  - split; [simpl; lia|]. intros n l Hn. rewrite (Hl n l Hn). simpl. rewrite Z.testbit_0_l. done.
  - intros x n (l & Hn & Hx). rewrite (Hl n l Hn) in Hx. by apply elem_of_nil in Hx.
  - intros x m y n (l & Hn & Hx). rewrite (Hl m l Hn) in Hx. by apply elem_of_nil in Hx.
  - intros p n _ _ (r & Hr & _). by apply elem_of_nil in Hr.
Qed.

Lemma sys_inv_new b : sys_inv (mkSystem (new b) []) (replicate 19 []).
Proof.
  assert (∀ x n, ¬ free_at (replicate 19 []) x n) as Hno.
  { intros x n (l & Hn & Hx). apply lookup_replicate in Hn as [-> _]. by apply elem_of_nil in Hx. }
  split; try done.
  - apply binv_new.
  - intros x n r Hx. by apply Hno in Hx.
  - intros x n Hx. by apply elem_of_nil in Hx.
Qed.

(** *** Each step keeps the invariant *)

Lemma free_bytes_le s L : sys_inv s L → 0 ≤ free_bytes (heap s) ≤ region_bytes (heap s).
Proof.
  intros Hs. pose proof (live_bytes_nonneg (live s)). rewrite <- (si_total _ _ Hs).
  rewrite (si_bytes _ _ Hs). pose proof (bytes_from_nonneg 0 L). unfold bytes. lia.
Qed.

Lemma alloc_inv a l L n pa a' L' :
  sys_inv (mkSystem a l) L → (n < 19)%nat → alloc_post a L n pa a' L' →
  sys_inv (mkSystem a' ((pa, n) :: l)) L' ∧ ∀ y m, (y, m) ∈ l → apart pa n y m.
Proof.
  intros [I1 I2 I3 I4 I5 I6] Hn Hp. pose proof Hp as [P1 P2 P3 P4 P5 P6 (y & s & Hy & -> & Hns & _)].
  simpl in *. pose proof (alloc_coalesced _ _ _ _ _ _ I1 Hp I3) as Hco.
  assert (∀ y m, (y, m) ∈ l → apart pa n y m) as Hap.
  { intros y m Hm. destruct (I4 y m Hm) as [_ Ho]. apply apart_sym.
    destruct Ho as (_ & _ & Ho). specialize (Ho _ _ Hy). unfold apart in *.
    pose proof (size_le n s Hns). lia. }
  split; [|done]. split; simpl; try done.
  - auto.
  - intros x m [Hx|Hx]%elem_of_cons; [by simplify_eq|]. destruct (I4 x m Hx) as [Hm Ho]. split; [done|].
    eapply (owned_mono a a' L L'); [done| |done]. intros z _ Hz. by eapply alloc_span.
  - unfold region_bytes, live_bytes in *. rewrite P5, sum_Z_cons. simpl. lia.
Qed.

Lemma free_inv a l l' L pa n :
  sys_inv (mkSystem a l) L → l ≡ₚ (pa, n) :: l' →
  ∃ a' L', free a pa (Z.of_nat n) = Ret a' ∧ free_post a L pa n a' L' ∧ sys_inv (mkSystem a' l') L'.
Proof.
  intros Hs Hl. pose proof (free_bytes_le _ _ Hs) as Hfb.
  destruct Hs as [I1 I2 I3 I4 I5 I6]. simpl in *. rewrite Hl in I5, I6. destruct I5 as [Hap I5].
  destruct (I4 pa n) as [Hn Ho]; [rewrite Hl; left|].
  pose proof (region_bytes_bound _ _ I1). pose proof (live_bytes_nonneg l').
  unfold live_bytes in *. rewrite sum_Z_cons in I6. simpl in I6.
  destruct (free_ok a L pa n I1 Ho Hn ltac:(lia)) as (a' & L' & He & Hp).
  exists a', L'. split; [done|]. split; [done|]. pose proof Hp as [P1 P2 P3 P4 P5 P6 P7 P8 P9].
  split; simpl; try done.
  - lia.
  - auto.
  - intros x m Hx. destruct (I4 x m) as [Hm Hox]; [rewrite Hl; by right|]. split; [done|].
    eapply (owned_mono a a' L L'); [done| |done]. intros z Hz [|Hz']%P7; [done|]. exfalso.
    specialize (Hap x m Hx). unfold apart, block in *. lia.
  - unfold region_bytes, live_bytes in *. rewrite P5. lia.
Qed.

Lemma region_inv a l L start len :
  sys_inv (mkSystem a l) L → fits 64 start → fits 64 len → counters_have_room a len →
  clear_of a start (start + len) → no_tags (backing a) start (start + len) →
  ∃ a' L', add_region a start len = Ret a' ∧ add_post a L start len a' L' ∧ sys_inv (mkSystem a' l) L'.
Proof.
  intros Hs Hst Hlen Hroom Hcl Hnt. pose proof (free_bytes_le _ _ Hs) as Hfb.
  destruct Hs as [I1 I2 I3 I4 I5 I6]. simpl in *.
  destruct (add_region_ok a L start len I1 I3 Hfb Hst Hlen Hroom Hcl Hnt) as (a' & L' & He & Hp).
  exists a', L'. split; [done|]. split; [done|]. pose proof Hp as [P1 P2 P3 P4 P5 P6 P7 P8].
  assert (∀ r, r ∈ active a → r ∈ active a') as Hsub.
  { intros r Hr. destruct P5 as [[-> _]|(r' & -> & _)]; [done|set_solver]. }
  split; simpl; try done.
  - lia.
  - intros x m Hx. destruct (I4 x m Hx) as [Hm Ho]. split; [done|].
    apply owned_span in Ho as (Ha & (r & Hr & H1 & H2) & Hsp). apply owned_span.
    split; [done|]. split; [by exists r; split; [apply Hsub|]|].
    intros z Hz Hz'. apply P7 in Hz' as [Hz'|Hz']; [by apply (Hsp z)|].
    unfold block in Hz. destruct (Hcl r Hr); lia.
  - unfold region_bytes in *. destruct P5 as [[-> ->]|(r & -> & _ & _ & ->)]; [done|].
    rewrite sum_Z_app, sum_Z_cons, sum_Z_nil. lia.
Qed.

Lemma no_blocks a L : binv a L → region_count a = 0 → ∀ n l, L !! n = Some l → l = [].
Proof.
  intros Hi Hc n [|x l] Hl; [done|]. exfalso.
  destruct (bi_blocks _ _ Hi x n) as [_ (r & Hr & _)]; [by exists (x :: l); split; [|left]|].
  unfold active in Hr. rewrite Hc in Hr. by apply elem_of_nil in Hr.
Qed.

Lemma backing_inv a l L b a' :
  sys_inv (mkSystem a l) L → set_backing a b = Ret a' → a' = set_mem a b ∧ sys_inv (mkSystem a' l) L.
Proof.
  intros [I1 I2 I3 I4 I5 I6] E. unfold set_backing in E. inv_ret. bool_cases. subst a'. split; [done|].
  split; simpl in *; try done. pose proof I1 as [J1 J2 J3 J4 J5 J6 J7 J8 J9].
  split; try done.
  - intros n k Hk. assert (k = []) as -> by by eapply no_blocks. destruct (J3 n [] Hk) as (? & _ & ?). done.
  - intros p n _ _ (r & Hr & _). change (r ∈ active a) in Hr. unfold active in Hr.
    replace (region_count a) with 0 in Hr by done. by apply elem_of_nil in Hr.
Qed.

Lemma write_inv a l L x n z v :
  sys_inv (mkSystem a l) L → (x, n) ∈ l → z mod 8 = 0 → x ≤ z < x + size n → ¬ forges z v →
  sys_inv (mkSystem (set_mem a (write_link (backing a) z v)) l) L.
Proof.
  intros [I1 I2 I3 I4 I5 I6] Hx Hz Hin Hnf. simpl in *. destruct (I4 x n Hx) as [Hn Ho].
  split; simpl; try done. pose proof I1 as [J1 J2 J3 J4 J5 J6 J7 J8 J9].
  assert (∀ y f, page y → is_field f → z ≠ y + f →
    rd (write_link (backing a) z v) y f = rd (backing a) y f) as Hrd.
  { intros y f Hy Hf Hne. apply read_write_other; [done|by apply field_aligned|done]. }
  split; try done.
  - intros m k Hk. destruct (J3 m k Hk) as (H1 & H2 & H3). split; [done|]. split; [|done].
    eapply dseg_ext; [|exact H2]. intros y f Hy Hf.
    assert (free_at L y m) as Hfy by by exists k. apply Hrd; [by eapply free_page|done|].
    intros ->. apply owned_span in Ho as (_ & _ & Ho). apply (Ho (y + f) Hin).
    exists y, m. split; [done|]. pose proof (size_pos m).
    unfold is_field, OFF_NEXT, OFF_PREV, OFF_TAG in Hf. lia.
  - intros p m Hm Hp Hr Ht. simpl in Ht. apply J7; [done..|].
    destruct (decide (z = p + OFF_TAG)) as [->|Hne].
    + exfalso. apply Hnf. exists m. split; [done|]. unfold rd in Ht. rewrite read_write_same in Ht by done.
      rewrite Ht. f_equal. lia.
    + rewrite <- Ht. symmetry. apply Hrd; [|unfold is_field; tauto|done].
      destruct Hr as (r & Hr & Hpr). destruct (scan_turn a L p r m I1 Hm Hr Hpr) as (_ & _ & _ & Hc).
      rewrite Hp in Hc. rewrite Z.sub_0_r in Hc. apply Hc. unfold in_region in Hpr. bool_cases. lia.
Qed.

Lemma step_inv s e s' L : sys_inv s L → step s e s' → ∃ L', sys_inv s' L'.
Proof.
  intros Hs Hstep. destruct Hstep as [a l n r a' E|a l l' pa n a' Hl E|a l pa n a' Hbad Hn Hrc R1 R2 E
    |a l start len a' H1 H2 H3 H4 H5 E|a l b a' E|a l x n z v H1 H2 H3 H4].
  - destruct (decide (n < 19)%nat) as [Hn|Hn].
    + destruct (alloc_ok a L n (si_inv _ _ Hs) (si_bytes _ _ Hs) Hn) as [[_ E']|(pa & a2 & L' & E' & Hp)];
        rewrite E in E'; simplify_eq; [by exists L|].
      exists L'. by eapply alloc_inv.
    + unfold alloc in E. change MAX_ORDER with 18 in E.
      rewrite (proj2 (Z.ltb_lt 18 (Z.of_nat n))) in E by lia. simplify_eq. by exists L.
  - destruct (free_inv _ _ _ _ _ _ Hs Hl) as (a2 & L' & E' & _ & Hs'). rewrite E in E'. simplify_eq. eauto.
  - pose proof (free_bytes_le _ _ Hs) as Hfb. simpl in Hfb.
    rewrite (free_foreign a L pa n (si_inv _ _ Hs) Hn Hrc R1 ltac:(lia) R2 Hbad) in E. simplify_eq.
    exists L. destruct Hs as [I1 I2 I3 I4 I5 I6]. split; try done. by destruct I1.
  - destruct (region_inv a l L start len) as (a2 & L' & E' & _ & Hs'); try done.
    rewrite E in E'. simplify_eq. eauto.
  - exists L. by eapply backing_inv.
  - exists L. by eapply write_inv.
Qed.

Lemma reachable_inv s : reachable s → ∃ L, sys_inv s L.
Proof.
  intros (b & tr & Hrun). eapply (run_invariant step (λ s, ∃ L, sys_inv s L)); [|exact Hrun|].
  - intros s1 e s2 [L HL] Hstep. by eapply step_inv.
  - eexists. apply sys_inv_new.
Qed.

(** *** The theorems *)

(** C2: in every state the callers can reach, [alloc] returns. It gives
    nothing only for an order above [MAX_ORDER] or when every list from that
    order up is empty, and then nothing changes; otherwise the block is
    naturally aligned, inside one region, disjoint from every block handed
    out, and its bytes leave the free count. *)
Theorem alloc_is_exclusive s n :
  reachable s →
  ∃ r a', alloc (heap s) (Z.of_nat n) = Ret (r, a') ∧
    match r with
    | None => a' = heap s ∧
        ((18 < n)%nat ∨ ∀ m, (n ≤ m ≤ 18)%nat → free_lists (heap s) !! m = Some NIL)
    | Some pa => (n ≤ 18)%nat ∧ pa mod size n = 0 ∧ inside (active (heap s)) pa n ∧
        (∀ y m, (y, m) ∈ live s → apart pa n y m) ∧
        free_bytes a' = free_bytes (heap s) - size n ∧ active a' = active (heap s)
    end.
Proof.
  intros [L Hs]%reachable_inv. destruct (decide (n < 19)%nat) as [Hn|Hn].
  - destruct (alloc_ok _ L n (si_inv _ _ Hs) (si_bytes _ _ Hs) Hn) as [[Hno ->]|(pa & a' & L' & -> & Hp)].
    + exists None, (heap s). split; [done|]. split; [done|]. right. intros m Hm.
      destruct (list_at _ L m (si_inv _ _ Hs) ltac:(lia)) as [l Hl].
      destruct (bi_lists _ _ (si_inv _ _ Hs) m l Hl) as [-> _]. destruct l as [|x l]; [done|].
      exfalso. apply (Hno x m ltac:(lia)). exists (x :: l). split; [done|left].
    + exists (Some pa), a'. split; [done|]. destruct s as [a l].
      destruct (alloc_inv _ _ _ _ _ _ _ Hs Hn Hp) as [_ Hap].
      destruct Hp as [_ (Ha & Hin & _) _ Hless Hact _ _]. rewrite Hact in Hin.
      split; [lia|]. done.
  - exists None, (heap s). unfold alloc. change MAX_ORDER with 18.
    rewrite (proj2 (Z.ltb_lt 18 (Z.of_nat n))) by lia. split; [done|]. split; [done|]. left. lia.
Qed.

(** Writes outside a block do not show in it. *)
Lemma untouched_block b b' (S : Z → Prop) x n z :
  untouched b b' S → (∀ y, S y → y mod 4096 = 0 ∧ ¬ block x n y) → x mod size n = 0 →
  block x n z → z mod 8 = 0 → read_link b' z = read_link b z.
Proof.
  intros Hu HS Hx Hz H8. apply Hu; [done|]. intros y Hy. destruct (HS y Hy) as [Hy1 Hy2].
  assert (x mod 4096 = 0) as Hx' by (eapply aligned_page; [|exact Hx]; lia). unfold block in *.
  destruct (Z.lt_ge_cases z y) as [|Hge]; [by left|]. right.
  destruct (Z.le_gt_cases (y + 4096) x) as [|Hgt]; [lia|].
  destruct (Z.le_gt_cases x y) as [|Hxy]; [exfalso; apply Hy2; lia|].
  assert (y = x); [|lia]. eapply (mod_eq_close _ _ 4096); try done; lia.
Qed.

(** C5: no step of the allocator, and no other caller's write, changes a
    word of a block that stays handed out. *)
Theorem live_blocks_are_private s e s' x n z :
  reachable s → step s e s' → (x, n) ∈ live s → (x, n) ∈ live s' →
  x ≤ z < x + size n → z mod 8 = 0 → (∀ v, e ≠ EWrite z v) →
  read_link (backing (heap s')) z = read_link (backing (heap s)) z.
Proof.
  intros [L Hs]%reachable_inv Hstep Hx Hx' Hz H8 Hne.
  destruct (si_live _ _ Hs x n Hx) as [Hn Ho]. pose proof Ho as (Ha & (r & Hr & Hr1 & Hr2) & _).
  pose proof (proj2 (proj2 (proj1 (owned_span _ _ _ _) Ho))) as Hsp.
  destruct Hstep as [a l m o a' E|a l l' pa m a' Hl E|a l pa m a' Hbad Hm Hrc R1 R2 E
    |a l start len a' H1 H2 H3 H4 H5 E|a l b a' E|a l y m w v H1 H2 H3 H4]; simpl in *.
  - unfold handed_out in Hx'. destruct (decide (m < 19)%nat) as [Hm|Hm].
    + destruct (alloc_ok a L m (si_inv _ _ Hs) (si_bytes _ _ Hs) Hm) as [[_ E']|(pa & a2 & L' & E' & Hp)];
        rewrite E in E'; simplify_eq; [done|]. eapply untouched_block; [apply (al_memory _ _ _ _ _ _ Hp)| |done..].
      intros y [Hy Hin]. split; [done|]. intros Hb. by apply (Hsp y).
    + unfold alloc in E. change MAX_ORDER with 18 in E.
      rewrite (proj2 (Z.ltb_lt 18 (Z.of_nat m))) in E by lia. by simplify_eq.
  - destruct (free_inv _ _ _ _ _ _ Hs Hl) as (a2 & L' & E' & Hp & _). rewrite E in E'. simplify_eq.
    pose proof (si_apart _ _ Hs) as Hap. simpl in Hap. rewrite Hl in Hap. destruct Hap as [Hap _].
    specialize (Hap x n Hx'). eapply untouched_block; [apply (fr_memory _ _ _ _ _ _ Hp)| |done..].
    intros y [Hy Hin]. split; [done|]. intros Hb. destruct Hin as [Hin|Hin]; [|by apply (Hsp y)].
    unfold apart, block in *. lia.
  - pose proof (free_bytes_le _ _ Hs) as Hfb. simpl in Hfb.
    rewrite (free_foreign a L pa m (si_inv _ _ Hs) Hm Hrc R1 ltac:(lia) R2 Hbad) in E. by simplify_eq.
  - destruct (region_inv a l L start len) as (a2 & L' & E' & Hp & _); try done.
    rewrite E in E'. simplify_eq. eapply untouched_block; [apply (ad_memory _ _ _ _ _ _ Hp)| |done..].
    intros y [Hy Hin]. split; [done|]. intros Hb. destruct Hin as [Hin|Hin]; [|by apply (Hsp y)].
    unfold block in Hb. destruct (H4 r Hr); lia.
  - unfold set_backing in E. inv_ret. bool_cases. exfalso. unfold active in Hr.
    replace (region_count a) with 0 in Hr by done. by apply elem_of_nil in Hr.
  - apply read_write_other; [done..|]. intros ->. by apply (Hne v).
Qed.

(** the books balance: the free count and the blocks handed out add up
    to the regions accepted, the regions are disjoint, and the blocks handed
    out are aligned, inside one region each and pairwise disjoint. *)
Theorem bytes_are_conserved s :
  reachable s →
  free_bytes (heap s) + live_bytes (live s) = region_bytes (heap s) ∧ 0 ≤ free_bytes (heap s) ∧
  regions_ok (active (heap s)) ∧ all_apart (live s) ∧
  ∀ x n, (x, n) ∈ live s → (n ≤ 18)%nat ∧ x mod size n = 0 ∧ inside (active (heap s)) x n.
Proof.
  intros [L Hs]%reachable_inv. pose proof (free_bytes_le _ _ Hs). destruct Hs as [I1 I2 I3 I4 I5 I6].
  split; [done|]. split; [lia|]. split; [apply I1|]. split; [done|].
  intros x n Hx. destruct (I4 x n Hx) as (Hn & Ha & Hin & _). split; [lia|done].
Qed.

(** C38: a block that is handed out can be returned: [free] does not panic,
    the count grows by its size and no loss counter moves; returning it a
    second time panics, whatever it was merged into. *)
Theorem free_returns_and_double_free_panics s pa n :
  reachable s → (pa, n) ∈ live s →
  ∃ a', free (heap s) pa (Z.of_nat n) = Ret a' ∧
    free_bytes a' = free_bytes (heap s) + size n ∧ foreign_frees a' = foreign_frees (heap s) ∧
    dropped_bytes a' = dropped_bytes (heap s) ∧ active a' = active (heap s) ∧
    free a' pa (Z.of_nat n) = Panic.
Proof.
  intros [L Hs]%reachable_inv Hx. destruct s as [a l]. simpl in *.
  apply elem_of_Permutation in Hx as [l' Hl].
  destruct (si_live _ _ Hs pa n) as [Hn (Ha & Hin & _)]; [simpl; rewrite Hl; left|].
  destruct (free_inv _ _ _ _ _ _ Hs Hl) as (a' & L' & E & [P1 P2 P3 P4 P5 P6 P7 P8 P9] & _).
  exists a'. split; [done|]. split; [done|]. split; [by destruct P4|]. split; [by destruct P4 as (_ & _ & _ & ?)|].
  split; [done|]. eapply free_twice; [done|done| |done]. by rewrite P5.
Qed.

(** coalescing is complete: two buddies inside one region never both
    carry a free block's tag. *)
Theorem buddies_are_never_both_free s r x n :
  reachable s → r ∈ active (heap s) → (n < 18)%nat → x mod size n = 0 →
  r.1 ≤ x → x + size n ≤ r.2 → r.1 ≤ buddy_of x n → buddy_of x n + size n ≤ r.2 →
  rd (backing (heap s)) x OFF_TAG = free_tag x (Z.of_nat n) →
  rd (backing (heap s)) (buddy_of x n) OFF_TAG ≠ free_tag (buddy_of x n) (Z.of_nat n).
Proof.
  intros [L Hs]%reachable_inv Hr Hn Ha H1 H2 H3 H4 Ht Hb. pose proof (size_pos n).
  pose proof (si_inv _ _ Hs) as Hi. destruct (bi_regions _ _ Hi) as [Hwf _]. rewrite Forall_forall in Hwf.
  destruct (Hwf r Hr) as (_ & _ & Hr0 & _).
  destruct (buddy_aligned x n ltac:(lia) Ha) as [Hba _].
  assert (∀ y, r.1 ≤ y → y + size n ≤ r.2 → ∃ r, r ∈ active (heap s) ∧ in_region y r = true) as Hin.
  { intros y Hy1 Hy2. apply (inside_in_region _ _ n). by exists r. }
  apply (si_coalesced _ _ Hs x n r); try done; eapply bi_tags; eauto with lia.
Qed.

(** [add_region] on a range nobody owns returns; every byte offered is
    either free now or in exactly one of the loss counters, and the region
    recorded, if any, lies in the range and is free to the last byte. *)
Theorem add_region_accounts_for_every_byte s start len :
  reachable s → fits 64 start → fits 64 len → counters_have_room (heap s) len →
  clear_of (heap s) start (start + len) → no_tags (backing (heap s)) start (start + len) →
  ∃ a', add_region (heap s) start len = Ret a' ∧ accounted a' = accounted (heap s) + len ∧
    ((active a' = active (heap s) ∧ free_bytes a' = free_bytes (heap s)) ∨
     ∃ r, active a' = active (heap s) ++ [r] ∧ start ≤ r.1 ∧ r.2 ≤ start + len ∧
          free_bytes a' = free_bytes (heap s) + range_len r).
Proof.
  intros [L Hs]%reachable_inv H1 H2 H3 H4 H5. destruct s as [a l].
  destruct (region_inv a l L start len) as (a' & L' & E & [P1 P2 P3 P4 P5 P6 P7 P8] & _); try done.
  exists a'. done.
Qed.

(** a block that no region can have handed out, misaligned, outside or
    overrunning, is refused: only [foreign_frees] moves. *)
Theorem foreign_free_is_refused s pa n :
  reachable s → (n ≤ 18)%nat → 0 < region_count (heap s) →
  pa mod size n ≠ 0 ∨ ¬ inside (active (heap s)) pa n →
  free_bytes (heap s) + size n < 2 ^ 64 → foreign_frees (heap s) + size n < 2 ^ 64 →
  free (heap s) pa (Z.of_nat n) =
  Ret (set_counters (heap s) (foreign_frees (heap s) + size n) (rejected_unlinks (heap s))
         (truncated_lists (heap s))).
Proof.
  intros [L Hs]%reachable_inv Hn Hrc Hbad R1 R2. pose proof (free_bytes_le _ _ Hs).
  eapply free_foreign; try done; [apply Hs|lia|lia].
Qed.
End System.

(** ** A concrete backing store *)

(** Words in a map, zero until written. *)
#[export] Instance map_backing : FrameBacking (gmap Z Z).
Proof.
  refine {| read_link m pa := default 0 (m !! pa); write_link m pa v := <[pa := v]> m |}.
  - intros m pa v _. by rewrite lookup_insert_eq.
  - intros m pa pa' v _ _ Hne. by rewrite lookup_insert_ne.
Defined.

(** Five pages at 0x1000; two pages handed out, the second of which splits
    a block. *)
Definition demo0 : @system (gmap Z Z) := mkSystem (new ∅) [].
Definition demo1 : @system (gmap Z Z) :=
  mkSystem (match add_region (heap demo0) 4096 20580 with Ret a => a | Panic => new ∅ end) [].
Definition demo_alloc (s : @system (gmap Z Z)) (n : nat) : @system (gmap Z Z) :=
  match alloc (heap s) (Z.of_nat n) with
  | Ret (r, a) => mkSystem a (handed_out (live s) n r) | Panic => s
  end.
Definition demo2 : @system (gmap Z Z) := demo_alloc (demo_alloc demo1 0) 0.

Lemma empty_has_no_tags lo hi : no_tags (∅ : gmap Z Z) lo hi.
Proof.
  intros p n _ _ _. unfold rd. cbn [read_link map_backing]. rewrite lookup_empty. intros E.
  by apply (free_tag_nonzero p (Z.of_nat n)).
Qed.

Lemma demo0_clear lo hi : clear_of (heap demo0) lo hi.
Proof. intros r Hr. by apply elem_of_nil in Hr. Qed.

Lemma demo_alloc_reachable s n : reachable s → reachable (demo_alloc s n).
Proof.
  intros (b & tr & Hr). destruct s as [a l]. unfold demo_alloc. cbn [heap live].
  destruct (alloc a (Z.of_nat n)) as [[r a']|] eqn:E; [|by exists b, tr].
  exists b, (tr ++ [EAlloc n r]). eapply run_app; [exact Hr|].
  eapply run_cons; [by apply step_alloc|constructor].
Qed.

Lemma demo1_reachable : reachable demo1.
Proof.
  exists ∅, [ERegion 4096 20580]. eapply run_cons; [|constructor].
  apply step_region; [done|done|done|apply demo0_clear|apply empty_has_no_tags|by vm_compute].
Qed.

Lemma demo2_reachable : reachable demo2.
Proof. apply demo_alloc_reachable, demo_alloc_reachable, demo1_reachable. Qed.

Lemma demo2_shape :
  live demo2 = [(16384, 0%nat); (4096, 0%nat)] ∧ active (heap demo2) = [(4096, 24576)] ∧
  rd (backing (heap demo2)) 20480 OFF_TAG = free_tag 20480 (Z.of_nat 0) ∧
  free_bytes (heap demo2) = 12288 ∧ foreign_frees (heap demo2) = 0 ∧ region_count (heap demo2) = 1.
Proof. by vm_compute. Qed.

Lemma alloc_is_exclusive_witness :
  ∃ r a', alloc (heap demo2) (Z.of_nat 1) = Ret (r, a') ∧ r = Some 8192.
Proof.
  destruct (alloc_is_exclusive demo2 1 demo2_reachable) as (r & a' & E & _).
  exists r, a'. split; [exact E|].
  assert (fst <$> alloc (heap demo2) (Z.of_nat 1) = Ret (Some 8192)) as E' by by vm_compute.
  rewrite E in E'. by injection E'.
Defined.

Lemma live_blocks_are_private_witness : ∃ a',
  free (heap demo2) 16384 (Z.of_nat 0) = Ret a' ∧
  read_link (backing a') 4104 = read_link (backing (heap demo2)) 4104.
Proof.
  destruct (returns_ret (free (heap demo2) 16384 (Z.of_nat 0))) as [a' E]; [by vm_compute|].
  exists a'. split; [exact E|]. destruct demo2_shape as [El _].
  assert (step demo2 (EFree 16384 0) (mkSystem a' [(4096, 0%nat)])) as Hs.
  { pose proof (step_free (heap demo2) (live demo2) [(4096, 0%nat)] 16384 0 a' ltac:(by rewrite El) E) as Hs.
    destruct demo2 as [a l]. exact Hs. }
  apply (live_blocks_are_private demo2 _ _ 4096 0 4104 demo2_reachable Hs); [|left| |done|done].
  - rewrite El. right. left.
  - change (size 0) with 4096. lia.
Defined.

Lemma bytes_are_conserved_witness : free_bytes (heap demo2) + live_bytes (live demo2) = region_bytes (heap demo2).
Proof. exact (proj1 (bytes_are_conserved demo2 demo2_reachable)). Defined.

Lemma free_returns_and_double_free_panics_witness :
  ∃ a', free (heap demo2) 4096 (Z.of_nat 0) = Ret a' ∧ free a' 4096 (Z.of_nat 0) = Panic.
Proof.
  destruct (free_returns_and_double_free_panics demo2 4096 0 demo2_reachable) as (a' & E & _ & _ & _ & _ & Hp).
  - rewrite (proj1 demo2_shape). right. left.
  - exists a'. split; [exact E|exact Hp].
Defined.

Lemma buddies_are_never_both_free_witness :
  rd (backing (heap demo2)) (buddy_of 20480 0) OFF_TAG ≠ free_tag (buddy_of 20480 0) (Z.of_nat 0).
Proof.
  destruct demo2_shape as (_ & Ea & Ht & _).
  apply (buddies_are_never_both_free demo2 (4096, 24576) 20480 0 demo2_reachable).
  - rewrite Ea. left.
  - lia.
  - done.
  - done.
  - done.
  - done.
  - done.
  - exact Ht.
Defined.

Lemma add_region_accounts_for_every_byte_witness :
  ∃ a', add_region (heap demo0) 4096 20580 = Ret a' ∧ accounted a' = accounted (heap demo0) + 20580.
Proof.
  destruct (add_region_accounts_for_every_byte demo0 4096 20580) as (a' & E & Ha & _).
  - exists ∅, []. constructor.
  - done.
  - done.
  - done.
  - apply demo0_clear.
  - apply empty_has_no_tags.
  - exists a'. split; [exact E|exact Ha].
Defined.

Lemma foreign_free_is_refused_witness :
  free (heap demo2) 28672 (Z.of_nat 0) =
  Ret (set_counters (heap demo2) (foreign_frees (heap demo2) + size 0) (rejected_unlinks (heap demo2))
         (truncated_lists (heap demo2))).
Proof.
  destruct demo2_shape as (_ & Ea & _ & Ef & Eg & Ec).
  apply (foreign_free_is_refused demo2 28672 0 demo2_reachable); [lia| | | |].
  - by rewrite Ec.
  - right. intros (r & Hr & H1 & H2). rewrite Ea in Hr.
    apply list_elem_of_singleton in Hr as ->. cbn [fst snd] in H2. change (size 0) with 4096 in H2. lia.
  - rewrite Ef. done.
  - rewrite Eg. done.
Defined.
