(* ===== verification/Slab.v ===== *)
(** The kernel heap: [crates/qunix-mm/src/slab.rs].

    Size-class free lists threaded through the free blocks, power-of-two
    lists for what no class serves, and a bump region behind both.  A block's
    first word is the list link while it is free and its caller's data while
    it is not, so the memory is part of the state. *)
From S2P Require Import Prelude Bits.

Module Slab.

(** ** The code *)

(** [core::alloc::Layout]: the alignment is a power of two and the size,
    rounded up to it, does not exceed [isize::MAX]. *)
Record Layout := mkLayout { lsize : Z; lalign : Z }.
Definition layout_ok (l : Layout) : Prop :=
  0 ≤ lsize l ∧ (∃ k, 0 ≤ k ∧ lalign l = 2 ^ k) ∧ lsize l + lalign l ≤ 2 ^ 63.

Definition CLASSES : list Z :=
  [8; 12; 16; 24; 32; 48; 64; 96; 128; 192; 256; 384; 512; 768; 1024; 1536; 2048].
Definition LARGE_MIN : Z := 32.
Definition LARGE_MIN_SHIFT : Z := trailing_zeros 64 LARGE_MIN.
Definition LARGE_LISTS : Z := 18.
Definition MAX_CLASS_ALIGN : Z := 16.
Definition null : Z := 0.

(** Memory, a word per 8-aligned address. *)
Definition mem := Z → Z.
Definition store (m : mem) (p v : Z) : mem := λ q, if q =? p then v else m q.

Record SlabHeap := mkSlab
  { free_lists : list Z; large_lists : list Z; bump_next : Z; bump_end : Z; allocated : Z }.

(** [SlabHeap::new]. *)
Definition new : SlabHeap := mkSlab (replicate 17 null) (replicate 18 null) 0 0 0.

(** [set_backing]. *)
Definition set_backing (h : SlabHeap) (va len : Z) : outcome SlabHeap :=
  _ ← rust_assert ((bump_end h =? 0) && (allocated h =? 0));
  stop ← expect (checked_add 64 va len);
  Ret (mkSlab (free_lists h) (large_lists h) va stop (allocated h)).

Definition bump_remaining (h : SlabHeap) : Z := saturating_sub (bump_end h) (bump_next h).

(** [large_extent], [large_index], [class_for]. *)
Definition large_extent (l : Layout) : Z :=
  Z.max (Z.max (next_power_of_two (lsize l)) (lalign l)) LARGE_MIN.
Definition large_index (extent : Z) : outcome (option Z) :=
  idx ← sub_chk (trailing_zeros 64 extent) LARGE_MIN_SHIFT;
  Ret (if idx <? LARGE_LISTS then Some idx else None).
Definition class_for (l : Layout) : outcome (option Z) :=
  last ← index CLASSES 16;
  if (MAX_CLASS_ALIGN <? lalign l) || (last <? lsize l) then Ret None else
  first ← index CLASSES 0;
  let size := Z.max (lsize l) first in
  let k := trailing_zeros 64 (next_power_of_two size) in
  k2 ← sub_chk k 2;
  let three_quarter := Z.shiftl 3 k2 in
  k3 ← sub_chk k 3;
  if (4 <=? k) && (size <=? three_quarter)
  then c ← sub_chk (2 * k3) 1; Ret (Some c)
  else Ret (Some (2 * k3)).

(** [bump]: null when the region cannot hold the block. *)
Definition bump (h : SlabHeap) (size align : Z) : Z * SlabHeap :=
  match checked_add 64 (bump_next h) (align - 1) with
  | None => (null, h)
  | Some v =>
      let start := Z.land v (bitnot 64 (align - 1)) in
      match checked_add 64 start size with
      | None => (null, h)
      | Some stop =>
          if bump_end h <? stop then (null, h)
          else (start, mkSlab (free_lists h) (large_lists h) stop (bump_end h) (allocated h))
      end
  end.

Definition set_class (h : SlabHeap) (fl : list Z) : SlabHeap :=
  mkSlab fl (large_lists h) (bump_next h) (bump_end h) (allocated h).
Definition set_large (h : SlabHeap) (ll : list Z) : SlabHeap :=
  mkSlab (free_lists h) ll (bump_next h) (bump_end h) (allocated h).
Definition set_allocated (h : SlabHeap) (n : Z) : SlabHeap :=
  mkSlab (free_lists h) (large_lists h) (bump_next h) (bump_end h) n.

(** [self.allocated += n] when the pointer is not null. *)
Definition credit (r : Z * SlabHeap) (n : Z) : outcome (Z * SlabHeap) :=
  let '(ptr, h) := r in
  if ptr =? null then Ret (ptr, h)
  else x ← add_chk 64 (allocated h) n; Ret (ptr, set_allocated h x).

(** [alloc]. *)
Definition alloc (h : SlabHeap) (m : mem) (l : Layout) : outcome (Z * SlabHeap) :=
  class ← class_for l;
  match class with
  | Some class =>
      size ← index CLASSES class;
      head ← index (free_lists h) class;
      r ← (if head =? null then Ret (bump h (Z.max size MAX_CLASS_ALIGN) MAX_CLASS_ALIGN)
           else fl ← set_index (free_lists h) class (m head); Ret (head, set_class h fl));
      credit r size
  | None =>
      let extent := large_extent l in
      idx ← large_index extent;
      reuse ← (match idx with
               | Some idx =>
                   head ← index (large_lists h) idx;
                   if head =? null then Ret None
                   else ll ← set_index (large_lists h) idx (m head);
                        x ← add_chk 64 (allocated h) extent;
                        Ret (Some (head, set_allocated (set_large h ll) x))
               | None => Ret None
               end);
      match reuse with
      | Some r => Ret r
      | None => credit (bump h extent extent) extent
      end
  end.

(** [dealloc]. *)
Definition dealloc (h : SlabHeap) (m : mem) (ptr : Z) (l : Layout) : outcome (SlabHeap * mem) :=
  class ← class_for l;
  match class with
  | Some class =>
      head ← index (free_lists h) class;
      fl ← set_index (free_lists h) class ptr;
      size ← index CLASSES class;
      x ← sub_chk (allocated h) size;
      Ret (set_allocated (set_class h fl) x, store m ptr head)
  | None =>
      let extent := large_extent l in
      x ← sub_chk (allocated h) extent;
      idx ← large_index extent;
      match idx with
      | Some idx =>
          head ← index (large_lists h) idx;
          ll ← set_index (large_lists h) idx ptr;
          Ret (set_allocated (set_large h ll) x, store m ptr head)
      | None => Ret (set_allocated h x, m)
      end
  end.

(** ** Classes *)

(** The smallest class that holds the request, and the class test itself. *)
Definition class_ok (size : Z) : bool :=
  match class_for (mkLayout size 16) with
  | Ret (Some c) =>
      (0 <=? c) && (c <? 17) &&
      (match CLASSES !! Z.to_nat c with Some s => size <=? s | None => false end) &&
      forallb (λ s, s <? size) (take (Z.to_nat c) CLASSES)
  | _ => false
  end.

Lemma classes_checked : forallb class_ok (seqZ 0 2049) = true.
Proof. vm_compute. reflexivity. Qed.

Lemma class_for_align s a : a ≤ 16 → class_for (mkLayout s a) = class_for (mkLayout s 16).
Proof. intros Ha. unfold class_for, MAX_CLASS_ALIGN. simpl. by rewrite (proj2 (Z.ltb_ge 16 a)) by done. Qed.

Lemma class_for_cases l :
  0 ≤ lsize l →
  (class_for l = Ret None ∧ (16 < lalign l ∨ 2048 < lsize l)) ∨
  ∃ c s, class_for l = Ret (Some (Z.of_nat c)) ∧ CLASSES !! c = Some s ∧ lsize l ≤ s ∧
         lalign l ≤ 16 ∧ lsize l ≤ 2048 ∧ (∀ c' s', (c' < c)%nat → CLASSES !! c' = Some s' → s' < lsize l).
Proof.
  intros Hs. destruct (decide (16 < lalign l ∨ 2048 < lsize l)) as [Hb|Hb].
  - left. split; [|done]. unfold class_for, MAX_CLASS_ALIGN. simpl.
    destruct Hb; [rewrite (proj2 (Z.ltb_lt 16 _)) by done; done|].
    rewrite (proj2 (Z.ltb_lt 2048 _)) by done. by rewrite orb_true_r.
  - right. pose proof classes_checked as Hall. rewrite forallb_forall in Hall.
    specialize (Hall (lsize l)). destruct l as [s a]. cbn [lsize lalign] in *.
    rewrite (class_for_align s a) by lia.
    assert (class_ok s = true) as Hc.
    { apply Hall. apply list_elem_of_In, elem_of_seqZ. lia. }
    clear Hall.
    unfold class_ok in Hc. destruct (class_for (mkLayout s 16)) as [[c|]|]; [|done..].
    bool_cases. destruct (CLASSES !! Z.to_nat c) as [sz|] eqn:Ec; [|done].
    exists (Z.to_nat c), sz. rewrite Z2Nat.id by lia. do 5 (split; [done||lia|]).
    intros c' s' Hlt Hc'. apply Z.ltb_lt. rewrite forallb_forall in *.
    match goal with H : ∀ x, In x _ → _ |- _ => apply H end.
    apply list_elem_of_In, (list_elem_of_lookup_2 _ c'). by rewrite lookup_take_lt.
Qed.

(** ** Extents *)

Definition class_ext (c : nat) : Z := Z.max (default 0 (CLASSES !! c)) 16.
Definition large_ext (i : nat) : Z := 32 * 2 ^ Z.of_nat i.

(** The bytes set aside for a request, and the bytes counted for it. *)
Definition ext_of (l : Layout) : Z :=
  match class_for l with Ret (Some c) => class_ext (Z.to_nat c) | _ => large_extent l end.
Definition cost_of (l : Layout) : Z :=
  match class_for l with Ret (Some c) => default 0 (CLASSES !! Z.to_nat c) | _ => large_extent l end.

Lemma large_extent_pow l :
  layout_ok l → ∃ k, 5 ≤ k ≤ 63 ∧ large_extent l = 2 ^ k ∧ lsize l ≤ 2 ^ k ∧ (2 ^ k) mod lalign l = 0.
Proof.
  intros (Hs & (a & Ha & Ea) & Hmax). unfold large_extent. rewrite Ea in *.
  pose proof (next_power_of_two_ge (lsize l)) as Hge. unfold next_power_of_two in *.
  set (u := Z.log2_up (lsize l)) in *. pose proof (Z.log2_up_nonneg (lsize l)) as Hu. fold u in Hu.
  assert (u ≤ 63).
  { unfold u. pose proof (pow2_pos a Ha). transitivity (Z.log2_up (2 ^ 63)); [apply Z.log2_up_le_mono; lia|done]. }
  assert (a ≤ 63).
  { destruct (Z.le_gt_cases a 63) as [|Hgt]; [done|]. pose proof (pow2_le 64 a ltac:(lia)).
    assert (2 ^ 63 < 2 ^ 64) by done. lia. }
  exists (Z.max (Z.max u a) 5). split; [lia|].
  assert (Z.max (Z.max (2 ^ u) (2 ^ a)) LARGE_MIN = 2 ^ Z.max (Z.max u a) 5) as E.
  { change LARGE_MIN with (2 ^ 5).
    assert (∀ i j, 0 ≤ i → 0 ≤ j → Z.max (2 ^ i) (2 ^ j) = 2 ^ Z.max i j) as Hmx.
    { intros i j Hi Hj. destruct (Z.le_ge_cases i j) as [Hij|Hij].
      - pose proof (pow2_le i j ltac:(lia)). rewrite !Z.max_r by lia. done.
      - pose proof (pow2_le j i ltac:(lia)). rewrite !Z.max_l by lia. done. }
    rewrite !Hmx by lia. done. }
  split; [done|]. rewrite <- E. split; [lia|]. rewrite E.
  apply (mod_pow2_le _ a (Z.max (Z.max u a) 5)); [lia|]. apply Z.mod_same.
  pose proof (pow2_pos (Z.max (Z.max u a) 5) ltac:(lia)). lia.
Qed.

Lemma large_index_ok k :
  5 ≤ k ≤ 63 →
  large_index (2 ^ k) = Ret (if k - 5 <? 18 then Some (k - 5) else None).
Proof.
  intros Hk. unfold large_index. rewrite trailing_zeros_pow2 by lia. change LARGE_MIN_SHIFT with 5.
  by rewrite sub_chk_ok by lia.
Qed.

Lemma class_ext_bounds c s : CLASSES !! c = Some s →
  class_ext c = Z.max s 16 ∧ 0 < s ∧ s ≤ 2048 ∧ class_ext c mod 8 = 0.
Proof.
  intros Hc. unfold class_ext. rewrite Hc. split; [done|].
  assert (forallb (λ s, (0 <? s) && (s <=? 2048) && (Z.max s 16 mod 8 =? 0)) CLASSES = true) as Hall by by vm_compute.
  rewrite forallb_forall in Hall. apply list_elem_of_lookup_2, list_elem_of_In, Hall in Hc.
  bool_cases. done.
Qed.

(** What a valid request asks for. *)
Lemma ext_spec l :
  layout_ok l →
  16 ≤ ext_of l ∧ lsize l ≤ ext_of l ∧ ext_of l mod 8 = 0 ∧ 0 < cost_of l ≤ ext_of l ∧ ext_of l ≤ 2 ^ 63.
Proof.
  intros Hl. unfold ext_of, cost_of.
  destruct (class_for_cases l (proj1 Hl)) as [[-> _]|(c & s & -> & Hc & Hs & _)].
  - destruct (large_extent_pow l Hl) as (k & Hk & -> & Hs & _).
    pose proof (pow2_le 5 k ltac:(lia)). pose proof (pow2_le k 63 ltac:(lia)).
    assert (2 ^ 5 = 32) by done. split; [lia|]. split; [done|]. split; [|lia].
    apply (mod_pow2_le _ 3 k); [lia|]. apply Z.mod_same. lia.
  - rewrite Nat2Z.id. destruct (class_ext_bounds c s Hc) as (-> & ? & ? & ?). rewrite Hc. simpl. lia.
Qed.

(** ** The bump region *)

Definition up (x a : Z) : Z := x + (a - 1) - (x + (a - 1)) mod a.

Lemma up_spec x k : 0 ≤ k → 0 ≤ x → up x (2 ^ k) mod 2 ^ k = 0 ∧ x ≤ up x (2 ^ k) < x + 2 ^ k.
Proof.
  intros Hk Hx. pose proof (pow2_pos k Hk). unfold up.
  pose proof (Z.mod_pos_bound (x + (2 ^ k - 1)) (2 ^ k) ltac:(lia)). split; [|lia].
  rewrite Zminus_mod_idemp_r, Z.sub_diag. apply Z.mod_0_l. lia.
Qed.

Definition bumped (h : SlabHeap) (next : Z) : SlabHeap :=
  mkSlab (free_lists h) (large_lists h) next (bump_end h) (allocated h).

Lemma bump_spec h size k :
  0 ≤ k ≤ 63 → 0 ≤ size → 0 ≤ bump_next h < 2 ^ 64 → bump_end h < 2 ^ 64 →
  let start := up (bump_next h) (2 ^ k) in
  bump h size (2 ^ k) =
  if bump_end h <? start + size then (null, h) else (start, bumped h (start + size)).
Proof.
  intros Hk Hsz Hn He start. pose proof (pow2_pos k ltac:(lia)). unfold bump.
  destruct (up_spec (bump_next h) k ltac:(lia) ltac:(lia)) as [Hal Hup]. fold start in Hal, Hup.
  destruct (checked_add 64 (bump_next h) (2 ^ k - 1)) as [v|] eqn:Ev.
  - apply checked_add_Some in Ev as [-> Ev]. rewrite land_bitnot_align by (unfold fits; lia).
    fold (up (bump_next h) (2 ^ k)). fold start.
    destruct (checked_add 64 start size) as [e|] eqn:Ee.
    + by apply checked_add_Some in Ee as [-> _].
    + apply checked_add_None in Ee. by rewrite (proj2 (Z.ltb_lt _ _)) by lia.
  - apply checked_add_None in Ev. rewrite (proj2 (Z.ltb_lt _ _)); [done|].
    assert (2 ^ 64 ≤ start); [|lia]. destruct (Z.le_gt_cases (2 ^ 64) start) as [|Hlt]; [done|]. exfalso.
    assert (2 ^ 64 mod 2 ^ k = 0) as H64.
    { apply (mod_pow2_le _ k 64); [lia|]. by rewrite Z.mod_same. }
    assert (start = 2 ^ 64); [|lia]. eapply (mod_eq_close _ _ (2 ^ k)); try done; lia.
Qed.

(** ** Free lists *)

Fixpoint chain (m : mem) (head : Z) (l : list Z) : Prop :=
  match l with
  | [] => head = null
  | x :: l' => head = x ∧ x ≠ null ∧ chain m (m x) l'
  end.

Lemma chain_ext m m' head l : (∀ x, x ∈ l → m' x = m x) → chain m head l → chain m' head l.
Proof.
  revert head. induction l as [|x l IH]; intros head He; simpl; [done|].
  intros (-> & ? & Hc). split; [done|]. split; [done|]. rewrite He by left. apply IH; [|done].
  intros y Hy. apply He. by right.
Qed.

Definition threaded (m : mem) (heads : list Z) (F : list (list Z)) : Prop :=
  ∀ i l, F !! i = Some l → ∃ h, heads !! i = Some h ∧ chain m h l.

Lemma threaded_ext m m' heads F :
  (∀ i l x, F !! i = Some l → x ∈ l → m' x = m x) → threaded m heads F → threaded m' heads F.
Proof.
  intros He Ht i l Hl. destruct (Ht i l Hl) as (h & Hh & Hc). exists h. split; [done|].
  eapply chain_ext; [|done]. eauto.
Qed.

Lemma threaded_insert m heads F i l' h' :
  (i < length heads)%nat → chain m h' l' → threaded m heads F →
  threaded m (<[i := h']> heads) (<[i := l']> F).
Proof.
  intros Hi Hc Ht j l Hl. destruct (decide (j = i)) as [->|Hne].
  - rewrite list_lookup_insert_Some in Hl. destruct Hl as [(_ & <- & _)|[? _]]; [|done].
    exists h'. split; [by apply list_lookup_insert_eq|done].
  - rewrite list_lookup_insert_ne in Hl by done. rewrite list_lookup_insert_ne by done. by apply Ht.
Qed.

(** Blocks with their extents. *)
Definition cells_of (ext : nat → Z) (F : list (list Z)) : list (Z * Z) :=
  concat (imap (λ i l, (λ p, (p, ext i)) <$> l) F).

Lemma cells_of_push ext F i l x :
  F !! i = Some l → cells_of ext (<[i := x :: l]> F) ≡ₚ (x, ext i) :: cells_of ext F.
Proof.
  unfold cells_of. revert ext i. induction F as [|l0 F IH]; intros ext i Hl; [done|].
  destruct i as [|i]; simpl in *.
  - injection Hl as ->. done.
  - rewrite (IH (λ i, ext (S i)) i Hl). by rewrite Permutation_middle.
Qed.

Lemma cells_of_pop ext F i l x :
  F !! i = Some (x :: l) → cells_of ext F ≡ₚ (x, ext i) :: cells_of ext (<[i := l]> F).
Proof.
  intros Hl. pose proof (lookup_lt_Some _ _ _ Hl) as Hi.
  rewrite <- (cells_of_push ext (<[i := l]> F) i l x) by by apply list_lookup_insert_eq.
  rewrite list_insert_insert_eq, list_insert_id by done. done.
Qed.

Lemma elem_of_cells ext F p e :
  (p, e) ∈ cells_of ext F ↔ ∃ i l, F !! i = Some l ∧ p ∈ l ∧ e = ext i.
Proof.
  unfold cells_of. rewrite list_elem_of_In, in_concat. split.
  - intros (c & Hc & Hp). apply list_elem_of_In, elem_of_lookup_imap in Hc as (i & l & -> & Hl).
    apply list_elem_of_In, list_elem_of_fmap in Hp as (q & [= -> ->] & Hq). eauto.
  - intros (i & l & Hl & Hp & ->). exists ((λ p, (p, ext i)) <$> l).
    split; apply list_elem_of_In; [|by apply list_elem_of_fmap_2 with (f := λ p, (p, ext i))].
    apply elem_of_lookup_imap. eauto.
Qed.

(** ** Disjoint cells *)

Definition cell_apart (c d : Z * Z) : Prop := c.1 + c.2 ≤ d.1 ∨ d.1 + d.2 ≤ c.1.
Fixpoint cells_apart (l : list (Z * Z)) : Prop :=
  match l with [] => True | c :: l' => (∀ d, d ∈ l' → cell_apart c d) ∧ cells_apart l' end.

#[export] Instance cells_apart_perm : Proper ((≡ₚ) ==> iff) cells_apart.
Proof.
  assert (∀ l l', l ≡ₚ l' → cells_apart l → cells_apart l') as H.
  { induction 1 as [|c l l' Hp IH|c d l|]; simpl; [done| | |naive_solver].
    - intros [H1 H2]. split; [|auto]. intros d Hd. apply H1. by rewrite Hp.
    - intros (H1 & H2 & H3). split.
      + intros e [->|He]%elem_of_cons; [|by apply H2].
        pose proof (H1 c ltac:(left)) as Hc. unfold cell_apart in *. lia.
      + split; [|done]. intros e He. apply H1. by right. }
  intros l l' Hp. split; apply H; [done|by symmetry].
Qed.

(** ** The heap and its callers *)

Record system := mkSys { heap : SlabHeap; memory : mem; live : list (Z * Layout) }.

Definition live_cells (l : list (Z * Layout)) : list (Z * Z) := (λ b, (b.1, ext_of b.2)) <$> l.
Definition cells (s : system) (FL LL : list (list Z)) : list (Z * Z) :=
  live_cells (live s) ++ cells_of class_ext FL ++ cells_of large_ext LL.

Definition served_alignment (l : Layout) : Z :=
  match class_for l with Ret (Some _) => 16 | _ => large_extent l end.

Record sinv (s : system) (FL LL : list (list Z)) : Prop := {
  sv_len : length FL = 17%nat ∧ length LL = 18%nat ∧
    length (free_lists (heap s)) = 17%nat ∧ length (large_lists (heap s)) = 18%nat;
  sv_class : threaded (memory s) (free_lists (heap s)) FL;
  sv_large : threaded (memory s) (large_lists (heap s)) LL;
  sv_cells : ∀ p e, (p, e) ∈ cells s FL LL → 0 < p ∧ p + e ≤ bump_next (heap s) ∧ 16 ≤ e ∧ p mod 16 = 0;
  sv_apart : cells_apart (cells s FL LL);
  sv_align : (∀ i l p, LL !! i = Some l → p ∈ l → p mod large_ext i = 0) ∧
    (∀ p l, (p, l) ∈ live s → layout_ok l ∧ p mod served_alignment l = 0);
  sv_bump : 0 ≤ bump_next (heap s) ≤ bump_end (heap s) ∧ bump_end (heap s) < 2 ^ 64;
  sv_sum : sum_Z snd (cells s FL LL) ≤ bump_next (heap s);
  sv_allocated : allocated (heap s) = sum_Z (λ b, cost_of b.2) (live s)
}.

Lemma sv_nonneg s FL LL : sinv s FL LL →
  0 ≤ sum_Z snd (cells_of class_ext FL) ∧ 0 ≤ sum_Z snd (cells_of large_ext LL).
Proof.
  intros Hi. split; apply sum_Z_nonneg; intros [p e] Hp;
    destruct (sv_cells _ _ _ Hi p e) as (_ & _ & He & _); try (simpl; lia); unfold cells; rewrite !elem_of_app; tauto.
Qed.

Lemma sv_room s FL LL : sinv s FL LL → 0 ≤ allocated (heap s) ∧
  allocated (heap s) + sum_Z snd (cells_of class_ext FL) + sum_Z snd (cells_of large_ext LL) ≤ bump_next (heap s).
Proof.
  intros [_ _ _ Hc _ [_ Hal] Hb Hs Ha]. unfold cells in *. rewrite !sum_Z_app in Hs.
  assert (0 ≤ sum_Z (λ b, cost_of b.2) (live s) ≤ sum_Z snd (live_cells (live s))) as [? ?]; [|lia].
  clear -Hal. unfold live_cells. induction (live s) as [|[p l] L IH]; [done|].
  rewrite fmap_cons, !sum_Z_cons. cbn [fst snd].
  destruct (Hal p l) as [Hl _]; [left|]. pose proof (ext_spec l Hl).
  destruct IH as [? ?]; [intros q k Hq; apply Hal; by right|]. lia.
Qed.

(** ** Allocation *)

(** Why [alloc] may return null: nothing to reuse, and no room to bump. *)
Definition exhausted (h : SlabHeap) (l : Layout) : Prop :=
  let start := up (bump_next h) (served_alignment l) in
  (bump_end h < start + ext_of l ∨ start = null) ∧
  match class_for l with
  | Ret (Some c) => index (free_lists h) c = Ret null
  | _ => ∀ i, large_index (large_extent l) = Ret (Some i) → index (large_lists h) i = Ret null
  end.

(** What a caller gets. *)
Definition granted (s : system) (l : Layout) (p : Z) (h' : SlabHeap) : Prop :=
  (p = null ∧ exhausted (heap s) l ∧ allocated h' = allocated (heap s) ∧
   ∃ FL LL, sinv (mkSys h' (memory s) (live s)) FL LL) ∨
  (0 < p ∧ allocated h' = allocated (heap s) + cost_of l ∧
   ∃ FL LL, sinv (mkSys h' (memory s) ((p, l) :: live s)) FL LL).

(** A list changes hands with the blocks handed out: the cells are the same. *)
Lemma sinv_move s s' FL LL FL' LL' :
  sinv s FL LL → cells s' FL' LL' ≡ₚ cells s FL LL →
  length FL' = 17%nat → length LL' = 18%nat →
  length (free_lists (heap s')) = 17%nat → length (large_lists (heap s')) = 18%nat →
  threaded (memory s') (free_lists (heap s')) FL' → threaded (memory s') (large_lists (heap s')) LL' →
  bump_next (heap s') = bump_next (heap s) → bump_end (heap s') = bump_end (heap s) →
  (∀ i l p, LL' !! i = Some l → p ∈ l → p mod large_ext i = 0) →
  (∀ p l, (p, l) ∈ live s' → layout_ok l ∧ p mod served_alignment l = 0) →
  allocated (heap s') = sum_Z (λ b, cost_of b.2) (live s') →
  sinv s' FL' LL'.
Proof.
  intros [_ _ _ Hc Hap _ Hb Hs _] Hp ? ? ? ? ? ? En Ee ? ? ?. split; try done.
  - intros p e He. rewrite Hp in He. rewrite En. auto.
  - by rewrite Hp.
  - by rewrite En, Ee.
  - by rewrite Hp, En.
Qed.

Lemma bump_granted s FL LL l k :
  sinv s FL LL → layout_ok l → served_alignment l = 2 ^ k → 4 ≤ k ≤ 63 →
  (bump_end (heap s) < up (bump_next (heap s)) (2 ^ k) + ext_of l ∨ up (bump_next (heap s)) (2 ^ k) = null →
   exhausted (heap s) l) →
  ∃ p h', credit (bump (heap s) (ext_of l) (2 ^ k)) (cost_of l) = Ret (p, h') ∧ granted s l p h'.
Proof.
  intros Hi Hl Hal Hk Hex. pose proof (sv_room _ _ _ Hi) as [Ha0 Har].
  pose proof Hi as [I1 I2 I3 I4 I5 [I6 I6'] [I7 I7'] I8 I9]. destruct (ext_spec l Hl) as (E1 & E2 & E3 & E4 & E5).
  rewrite bump_spec by lia. set (start := up _ _) in *.
  destruct (up_spec (bump_next (heap s)) k ltac:(lia) ltac:(lia)) as [U1 U2]. fold start in U1, U2.
  destruct (Z.ltb_spec (bump_end (heap s)) (start + ext_of l)) as [Hlt|Hge].
  { exists null, (heap s). split; [done|]. left. split; [done|]. split; [apply Hex; by left|]. split; [done|].
    exists FL, LL. by destruct s. }
  assert (∀ lv, lv = live s ∨ (lv = (start, l) :: live s ∧ 0 < start) → ∀ n,
    n = sum_Z (λ b, cost_of b.2) lv →
    sinv (mkSys (set_allocated (bumped (heap s) (start + ext_of l)) n) (memory s) lv) FL LL) as Hnew.
  { intros lv Hlv n ->. unfold cells in *. split; simpl; try done.
    - intros p e Hp. unfold cells in Hp. cbn [live] in Hp.
      destruct Hlv as [->|[-> Hpos]]; [destruct (I4 p e Hp); lia|].
      apply elem_of_cons in Hp as [[= -> ->]|Hp]; [|destruct (I4 p e Hp); lia].
      split; [done|]. split; [lia|]. split; [done|]. apply (mod_pow2_le start 4 k); [lia|done].
    - unfold cells. cbn [live]. destruct Hlv as [->|[-> Hpos]]; [done|]. split; [|done].
      intros [q e] Hq. destruct (I4 q e Hq) as (? & ? & ? & ?). right. simpl. lia.
    - split; [done|]. destruct Hlv as [->|[-> Hpos]]; [done|].
      intros p l' [[= -> ->]|Hp]%elem_of_cons; [|by apply I6']. split; [done|]. by rewrite Hal.
    - lia.
    - unfold cells. cbn [live]. destruct Hlv as [->|[-> Hpos]]; [lia|].
      change (live_cells ((start, l) :: live s)) with ((start, ext_of l) :: live_cells (live s)).
      rewrite <- app_comm_cons, sum_Z_cons. simpl. lia. }
  unfold credit. destruct (Z.eqb_spec start null) as [E0|Hne].
  - exists start, (bumped (heap s) (start + ext_of l)). split; [done|]. left. split; [done|].
    split; [apply Hex; by right|]. split; [done|]. exists FL, LL.
    exact (Hnew (live s) (or_introl eq_refl) (allocated (heap s)) I9).
  - assert (0 < start) as Hpos by (unfold null in Hne; lia). cbn [allocated bumped].
    destruct (sv_nonneg _ _ _ Hi) as [? ?].
    rewrite add_chk_ok by lia. exists start. eexists. split; [reflexivity|]. right. split; [done|]. split; [done|].
    exists FL, LL. apply Hnew; [by right|]. rewrite sum_Z_cons. simpl. lia.
Qed.

Lemma threaded_index m heads F i l :
  threaded m heads F → F !! i = Some l → index heads (Z.of_nat i) = Ret (hd null l) ∧ chain m (hd null l) l.
Proof.
  intros Ht Hl. destruct (Ht i l Hl) as (h & Hh & Hc).
  assert (h = hd null l) as -> by (destruct l; simpl in Hc; [done|by destruct Hc]).
  split; [|done]. apply index_ok; [lia|]. by rewrite Nat2Z.id.
Qed.

(** Taking the first block of a class's list. *)
Lemma class_pop s FL LL l c sz x t :
  sinv s FL LL → layout_ok l → class_for l = Ret (Some (Z.of_nat c)) → CLASSES !! c = Some sz →
  FL !! c = Some (x :: t) →
  let h := heap s in
  let h' := set_allocated (set_class h (<[c := memory s x]> (free_lists h))) (allocated h + sz) in
  0 < x ∧ sinv (mkSys h' (memory s) ((x, l) :: live s)) (<[c := t]> FL) LL.
Proof.
  intros Hi Hl Hcl Hsz HF h h'. pose proof Hi as [(L1 & L2 & L3 & L4) I2 I3 I4 I5 [I6 I6'] I7 I8 I9].
  pose proof (lookup_lt_Some _ _ _ HF) as Hlt.
  destruct (threaded_index _ _ _ _ _ I2 HF) as [_ (_ & Hx & Hc)].
  destruct (I4 x (class_ext c)) as (X1 & _ & _ & X4).
  { unfold cells. rewrite !elem_of_app, !elem_of_cells. right. left. exists c, (x :: t). split; [done|]. split; [left|done]. }
  split; [done|]. eapply (sinv_move s); simpl; rewrite ?length_insert; try done.
  - unfold cells. simpl. unfold ext_of at 1. rewrite Hcl, Nat2Z.id.
    rewrite (cells_of_pop class_ext FL c t x HF). simpl. by rewrite Permutation_middle.
  - apply threaded_insert; [unfold h; lia|done|done].
  - intros p k [[= -> ->]|Hp]%elem_of_cons; [|by apply I6']. split; [done|].
    unfold served_alignment. by rewrite Hcl.
  - rewrite sum_Z_cons. simpl. unfold cost_of at 1. rewrite Hcl, Nat2Z.id, Hsz. simpl. unfold h. lia.
Qed.

(** Taking the first block of a large list. *)
Lemma large_pop s FL LL l i x t :
  sinv s FL LL → layout_ok l → class_for l = Ret None → large_extent l = large_ext i →
  LL !! i = Some (x :: t) →
  let h := heap s in
  let h' := set_allocated (set_large h (<[i := memory s x]> (large_lists h))) (allocated h + large_ext i) in
  0 < x ∧ sinv (mkSys h' (memory s) ((x, l) :: live s)) FL (<[i := t]> LL).
Proof.
  intros Hi Hl Hcl Hex HF h h'. pose proof Hi as [(L1 & L2 & L3 & L4) I2 I3 I4 I5 [I6 I6'] I7 I8 I9].
  pose proof (lookup_lt_Some _ _ _ HF) as Hlt.
  destruct (threaded_index _ _ _ _ _ I3 HF) as [_ (_ & Hx & Hc)].
  destruct (I4 x (large_ext i)) as (X1 & _ & _ & X4).
  { unfold cells. rewrite !elem_of_app, !elem_of_cells. right. right. exists i, (x :: t). split; [done|]. split; [left|done]. }
  split; [done|]. eapply (sinv_move s); simpl; rewrite ?length_insert; try done.
  - unfold cells. simpl. unfold ext_of at 1. rewrite Hcl, Hex.
    rewrite (cells_of_pop large_ext LL i t x HF).
    rewrite (app_assoc _ (cells_of class_ext FL) (_ :: _)), <- Permutation_middle. by rewrite <- app_assoc.
  - apply threaded_insert; [unfold h; lia|done|done].
  - intros j k p Hj Hp. destruct (decide (j = i)) as [->|Hne].
    + rewrite list_lookup_insert_eq in Hj by lia. simplify_eq. apply (I6 i (x :: k)); [done|by right].
    + rewrite list_lookup_insert_ne in Hj by done. by eapply I6.
  - intros p k [[= -> ->]|Hp]%elem_of_cons; [|by apply I6']. split; [done|].
    unfold served_alignment. rewrite Hcl, Hex. apply (I6 i (x :: t)); [done|left].
  - rewrite sum_Z_cons. simpl. unfold cost_of at 1. rewrite Hcl, Hex. unfold h. lia.
Qed.

Lemma sv_counts s FL LL i l x t :
  sinv s FL LL → layout_ok l → (FL !! i = Some (x :: t) ∧ cost_of l ≤ class_ext i) ∨
    (LL !! i = Some (x :: t) ∧ cost_of l ≤ large_ext i) → allocated (heap s) + cost_of l < 2 ^ 64.
Proof.
  intros Hi Hl Hc. destruct (sv_room _ _ _ Hi) as [_ Hr]. destruct (sv_nonneg _ _ _ Hi) as [N1 N2].
  destruct (sv_bump _ _ _ Hi) as [B1 B2].
  assert (∀ ext F, F !! i = Some (x :: t) → (∀ p e, (p, e) ∈ cells_of ext F → 16 ≤ e) →
    ext i ≤ sum_Z snd (cells_of ext F)) as Hsum.
  { intros ext F HF Hpos. pose proof (cells_of_pop ext F i t x HF) as Hpop. rewrite Hpop, sum_Z_cons. simpl.
    assert (0 ≤ sum_Z snd (cells_of ext (<[i := t]> F))); [|lia].
    apply sum_Z_nonneg. intros [p e] Hp. specialize (Hpos p e ltac:(rewrite Hpop; by right)). simpl. lia. }
  destruct Hc as [[HF Hle]|[HF Hle]].
  - pose proof (Hsum class_ext FL HF) as Hs.
    assert (class_ext i ≤ sum_Z snd (cells_of class_ext FL)); [apply Hs|lia].
    intros p e Hp. apply (sv_cells _ _ _ Hi p e). unfold cells. rewrite !elem_of_app. tauto.
  - pose proof (Hsum large_ext LL HF) as Hs.
    assert (large_ext i ≤ sum_Z snd (cells_of large_ext LL)); [apply Hs|lia].
    intros p e Hp. apply (sv_cells _ _ _ Hi p e). unfold cells. rewrite !elem_of_app. tauto.
Qed.

Lemma slab_alloc_ok s FL LL l :
  sinv s FL LL → layout_ok l → ∃ p h', alloc (heap s) (memory s) l = Ret (p, h') ∧ granted s l p h'.
Proof.
  intros Hi Hl. pose proof Hi as [(L1 & L2 & L3 & L4) I2 I3 _ _ _ _ _ _].
  destruct (ext_spec l Hl) as (E1 & E2 & E3 & E4 & E5). unfold alloc.
  destruct (class_for_cases l (proj1 Hl)) as [[Hcl _]|(c & sz & Hcl & Hsz & _)]; rewrite Hcl; cbn [mbind outcome_bind].
  - destruct (large_extent_pow l Hl) as (k & Hk & Ek & _ & Hdiv).
    assert (served_alignment l = 2 ^ k ∧ ext_of l = 2 ^ k ∧ cost_of l = 2 ^ k) as (Es & Ee & Ec)
      by (unfold served_alignment, ext_of, cost_of; rewrite Hcl; done).
    rewrite Ek, large_index_ok by done. cbn [mbind outcome_bind].
    pose proof (bump_granted s FL LL l k Hi Hl Es ltac:(lia)) as Hbump. rewrite Ee, Ec in Hbump.
    destruct (Z.ltb_spec (k - 5) 18) as [Hlt|Hge]; cbn [mbind outcome_bind].
    + set (i := Z.to_nat (k - 5)). replace (k - 5) with (Z.of_nat i) by lia.
      destruct (lookup_lt_is_Some_2 LL i ltac:(lia)) as [b Hb].
      destruct (threaded_index _ _ _ _ _ I3 Hb) as [Hidx Hch]. rewrite Hidx. cbn [mbind outcome_bind].
      assert (large_ext i = 2 ^ k) as Hi'.
      { unfold large_ext. change 32 with (2 ^ 5). rewrite <- Z.pow_add_r by lia. f_equal. lia. }
      destruct b as [|x t]; cbn [hd].
      * apply Hbump. intros Hr. split; [unfold served_alignment; by rewrite Hcl, Ek, Ee|]. rewrite Hcl.
        intros j Hj. rewrite Ek, large_index_ok in Hj by done. rewrite (proj2 (Z.ltb_lt _ _)) in Hj by done.
        simplify_eq. replace (k - 5) with (Z.of_nat i) by lia. done.
      * simpl in Hch. destruct Hch as (_ & Hx & _). rewrite (proj2 (Z.eqb_neq x null)) by done.
        rewrite set_index_ok by lia. cbn [mbind outcome_bind]. rewrite Nat2Z.id.
        assert (cost_of l ≤ large_ext i) as Hce by by rewrite Ec, Hi'.
        pose proof (sv_counts s FL LL i l x t Hi Hl (or_intror (conj Hb Hce))) as Hroom.
        rewrite Ec in Hroom. rewrite add_chk_ok by done. cbn [mbind outcome_bind].
        destruct (large_pop s FL LL l i x t Hi Hl Hcl ltac:(congruence) Hb) as [Hx0 Hs'].
        rewrite Hi' in Hs'. exists x. eexists. split; [reflexivity|]. right. rewrite Ec.
        split; [done|]. split; [done|]. eauto.
    + apply Hbump. intros Hr. split; [unfold served_alignment; by rewrite Hcl, Ek, Ee|]. rewrite Hcl.
      intros j Hj. rewrite Ek, large_index_ok in Hj by done. by rewrite (proj2 (Z.ltb_ge _ _)) in Hj by done.
  - pose proof (lookup_lt_Some _ _ _ Hsz) as Hlt. simpl in Hlt.
    rewrite (index_ok CLASSES (Z.of_nat c) sz) by (lia || by rewrite Nat2Z.id). cbn [mbind outcome_bind].
    assert (served_alignment l = 2 ^ 4 ∧ ext_of l = Z.max sz 16 ∧ cost_of l = sz) as (Es & Ee & Ec).
    { unfold served_alignment, ext_of, cost_of. rewrite Hcl, Nat2Z.id, Hsz. split; [done|].
      by destruct (class_ext_bounds c sz Hsz) as [-> _]. }
    destruct (lookup_lt_is_Some_2 FL c ltac:(lia)) as [b Hb].
    destruct (threaded_index _ _ _ _ _ I2 Hb) as [Hidx Hch]. rewrite Hidx. cbn [mbind outcome_bind].
    destruct b as [|x t]; cbn [hd].
    + pose proof (bump_granted s FL LL l 4 Hi Hl Es ltac:(lia)) as Hbump. rewrite Ee, Ec in Hbump.
      apply Hbump. intros Hr. split; [unfold served_alignment; rewrite Hcl, Ee; exact Hr|]. by rewrite Hcl.
    + simpl in Hch. destruct Hch as (_ & Hx & _). rewrite (proj2 (Z.eqb_neq x null)) by done.
      rewrite set_index_ok by lia. cbn [mbind outcome_bind credit]. rewrite Nat2Z.id.
      rewrite (proj2 (Z.eqb_neq x null)) by done.
      assert (cost_of l ≤ class_ext c) as Hce by (destruct (class_ext_bounds c sz Hsz) as [-> _]; lia).
      pose proof (sv_counts s FL LL c l x t Hi Hl (or_introl (conj Hb Hce))) as Hroom.
      rewrite Ec in Hroom. rewrite add_chk_ok by done. cbn [mbind outcome_bind].
      destruct (class_pop s FL LL l c sz x t Hi Hl Hcl Hsz Hb) as [Hx0 Hs'].
      exists x. eexists. split; [reflexivity|]. right. rewrite Ec. split; [done|]. split; [done|]. eauto.
Qed.

Lemma bump_keeps_end h size align p h' : bump h size align = (p, h') → bump_end h' = bump_end h.
Proof.
  unfold bump. intros E.
  repeat match type of E with context [match ?x with _ => _ end] => destruct x end; by simplify_eq.
Qed.

Lemma credit_keeps_end r n p h' : credit r n = Ret (p, h') → bump_end h' = bump_end r.2.
Proof. destruct r as [q h]. unfold credit. intros E. destruct (q =? null); inv_ret; by simplify_eq. Qed.

Lemma alloc_keeps_end h m l p h' : alloc h m l = Ret (p, h') → bump_end h' = bump_end h.
Proof.
  unfold alloc. intros E. apply bind_ret_inv in E as ([c|] & _ & E).
  - apply bind_ret_inv in E as (sz & _ & E). apply bind_ret_inv in E as (hd & _ & E).
    apply bind_ret_inv in E as (r & Hr & E). rewrite (credit_keeps_end _ _ _ _ E).
    destruct (hd =? null).
    + destruct (bump h _ _) as [q h2] eqn:Eb. injection Hr as <-. by eapply bump_keeps_end.
    + apply bind_ret_inv in Hr as (fl & _ & Hr). by injection Hr as <-.
  - apply bind_ret_inv in E as (i & _ & E). apply bind_ret_inv in E as (r & Hr & E).
    destruct r as [[q h2]|].
    + injection E as -> ->. destruct i as [i|]; [|done]. apply bind_ret_inv in Hr as (hd & _ & Hr).
      destruct (hd =? null); [done|]. apply bind_ret_inv in Hr as (ll & _ & Hr).
      apply bind_ret_inv in Hr as (x & _ & Hr). by injection Hr as _ <-.
    + rewrite (credit_keeps_end _ _ _ _ E). destruct (bump h _ _) as [q h2] eqn:Eb. by eapply bump_keeps_end.
Qed.

(** A list that is not empty serves its head. *)
Lemma alloc_takes_head h m l p p' h' :
  layout_ok l → 0 < p →
  match class_for l with
  | Ret (Some c) => index (free_lists h) c = Ret p
  | _ => ∃ i, large_index (large_extent l) = Ret (Some i) ∧ index (large_lists h) i = Ret p
  end → alloc h m l = Ret (p', h') → p' = p.
Proof.
  intros Hl Hp Hh E. assert ((p =? null) = false) as Hnz by (apply Z.eqb_neq; unfold null; lia).
  unfold alloc in E. destruct (class_for_cases l (proj1 Hl)) as [[Hcl _]|(c & sz & Hcl & Hsz & _)];
    rewrite Hcl in *; cbn [mbind outcome_bind] in E.
  - destruct Hh as (i & Hi & Hh). rewrite Hi in E. cbn [mbind outcome_bind] in E. rewrite Hh in E.
    cbn [mbind outcome_bind] in E. rewrite Hnz in E. inv_ret. simplify_eq. done.
  - apply bind_ret_inv in E as (s & _ & E). rewrite Hh in E. cbn [mbind outcome_bind] in E. rewrite Hnz in E.
    apply bind_ret_inv in E as (r & Hr & E). apply bind_ret_inv in Hr as (fl & _ & Hr). injection Hr as <-.
    unfold credit in E. rewrite Hnz in E. apply bind_ret_inv in E as (x & _ & E). by simplify_eq.
Qed.

(** ** Release *)

Lemma live_cells_perm lv p l lv' :
  lv ≡ₚ (p, l) :: lv' → live_cells lv ≡ₚ (p, ext_of l) :: live_cells lv'.
Proof. intros H. unfold live_cells. by rewrite H. Qed.

(** A block handed out is not on a list. *)
Lemma live_not_free s FL LL p l lv' q e :
  sinv s FL LL → live s ≡ₚ (p, l) :: lv' → (q, e) ∈ cells_of class_ext FL ++ cells_of large_ext LL → q ≠ p.
Proof.
  intros Hi Hlv Hq ->. pose proof (sv_apart _ _ _ Hi) as Ha. pose proof (sv_cells _ _ _ Hi) as Hc.
  unfold cells in Ha, Hc. rewrite (live_cells_perm _ _ _ _ Hlv) in Ha. destruct Ha as [Ha _].
  specialize (Ha (p, e) ltac:(apply elem_of_app; by right)). unfold cell_apart in Ha. simpl in Ha.
  destruct (Hc p e) as (_ & _ & He & _); [apply elem_of_app; by right|].
  destruct (Hc p (ext_of l)) as (_ & _ & He' & _); [|lia].
  rewrite (live_cells_perm _ _ _ _ Hlv). left.
Qed.

Lemma live_not_listed s FL LL p l lv' :
  sinv s FL LL → live s ≡ₚ (p, l) :: lv' →
  (∀ i k x, FL !! i = Some k → x ∈ k → x ≠ p) ∧ (∀ i k x, LL !! i = Some k → x ∈ k → x ≠ p).
Proof.
  intros Hi Hlv. split; intros i k x Hk Hx; eapply live_not_free; try done;
    rewrite elem_of_app, !elem_of_cells; [left|right]; eauto.
Qed.

Lemma store_same m p v : store m p v p = v.
Proof. unfold store. by rewrite Z.eqb_refl. Qed.
Lemma store_other m p v q : q ≠ p → store m p v q = m q.
Proof. intros H. unfold store. by rewrite (proj2 (Z.eqb_neq q p)). Qed.

Record released (s : system) (p : Z) (l : Layout) (lv' : list (Z * Layout)) (h' : SlabHeap) (m' : mem) : Prop := {
  rl_inv : ∃ FL LL, sinv (mkSys h' m' lv') FL LL;
  rl_memory : ∀ q, q ≠ p → m' q = memory s q;
  rl_allocated : allocated h' = allocated (heap s) - cost_of l;
  rl_head : match class_for l with
    | Ret (Some c) => index (free_lists h') c = Ret p
    | _ => ∀ i, large_index (large_extent l) = Ret (Some i) → index (large_lists h') i = Ret p
    end
}.

Lemma class_push s FL LL p l lv' c sz :
  sinv s FL LL → live s ≡ₚ (p, l) :: lv' → class_for l = Ret (Some (Z.of_nat c)) → CLASSES !! c = Some sz →
  let h := heap s in
  ∃ b, FL !! c = Some b ∧ index (free_lists h) (Z.of_nat c) = Ret (hd null b) ∧
    sinv (mkSys (set_allocated (set_class h (<[c := p]> (free_lists h))) (allocated h - sz))
            (store (memory s) p (hd null b)) lv') (<[c := p :: b]> FL) LL.
Proof.
  intros Hi Hlv Hcl Hsz h. pose proof Hi as [(L1 & L2 & L3 & L4) I2 I3 I4 I5 [I6 I6'] I7 I8 I9].
  pose proof (lookup_lt_Some _ _ _ Hsz) as Hlt. simpl in Hlt.
  destruct (lookup_lt_is_Some_2 FL c ltac:(lia)) as [b Hb].
  destruct (threaded_index _ _ _ _ _ I2 Hb) as [Hidx Hch]. exists b. split; [done|]. split; [done|].
  destruct (live_not_listed s FL LL p l lv' Hi Hlv) as [Hnf Hnl].
  assert (0 < p) as Hp0.
  { apply (I4 p (ext_of l)). unfold cells. rewrite (live_cells_perm _ _ _ _ Hlv). left. }
  eapply (sinv_move s); simpl; rewrite ?length_insert; try done.
  - unfold cells. simpl. rewrite (cells_of_push class_ext FL c b p Hb), (live_cells_perm _ _ _ _ Hlv).
    unfold ext_of. rewrite Hcl, Nat2Z.id. symmetry. apply Permutation_middle.
  - apply threaded_insert; [unfold h; lia| |].
    + simpl. split; [done|]. split; [unfold null; lia|]. rewrite store_same.
      eapply chain_ext; [|done]. intros x Hx. apply store_other. by eapply Hnf.
    + eapply threaded_ext; [|done]. intros i k x Hk Hx. apply store_other. by eapply Hnf.
  - eapply threaded_ext; [|done]. intros i k x Hk Hx. apply store_other. by eapply Hnl.
  - intros q k Hq. apply I6'. rewrite Hlv. by right.
  - unfold h. rewrite I9, Hlv, sum_Z_cons. simpl. unfold cost_of at 1. rewrite Hcl, Nat2Z.id, Hsz. simpl. lia.
Qed.

Lemma large_push s FL LL p l lv' i :
  sinv s FL LL → live s ≡ₚ (p, l) :: lv' → class_for l = Ret None → large_extent l = large_ext i → (i < 18)%nat →
  let h := heap s in
  ∃ b, LL !! i = Some b ∧ index (large_lists h) (Z.of_nat i) = Ret (hd null b) ∧
    sinv (mkSys (set_allocated (set_large h (<[i := p]> (large_lists h))) (allocated h - large_ext i))
            (store (memory s) p (hd null b)) lv') FL (<[i := p :: b]> LL).
Proof.
  intros Hi Hlv Hcl Hex Hlt h. pose proof Hi as [(L1 & L2 & L3 & L4) I2 I3 I4 I5 [I6 I6'] I7 I8 I9].
  destruct (lookup_lt_is_Some_2 LL i ltac:(lia)) as [b Hb].
  destruct (threaded_index _ _ _ _ _ I3 Hb) as [Hidx Hch]. exists b. split; [done|]. split; [done|].
  destruct (live_not_listed s FL LL p l lv' Hi Hlv) as [Hnf Hnl].
  assert (0 < p) as Hp0.
  { apply (I4 p (ext_of l)). unfold cells. rewrite (live_cells_perm _ _ _ _ Hlv). left. }
  eapply (sinv_move s); simpl; rewrite ?length_insert; try done.
  - unfold cells. simpl. rewrite (cells_of_push large_ext LL i b p Hb), (live_cells_perm _ _ _ _ Hlv).
    unfold ext_of. rewrite Hcl, Hex. simpl.
    rewrite (app_assoc _ (cells_of class_ext FL) (_ :: _)), <- Permutation_middle. by rewrite <- app_assoc.
  - eapply threaded_ext; [|done]. intros j k x Hk Hx. apply store_other. by eapply Hnf.
  - apply threaded_insert; [unfold h; lia| |].
    + simpl. split; [done|]. split; [unfold null; lia|]. rewrite store_same.
      eapply chain_ext; [|done]. intros x Hx. apply store_other. by eapply Hnl.
    + eapply threaded_ext; [|done]. intros j k x Hk Hx. apply store_other. by eapply Hnl.
  - intros j k x Hj Hx. destruct (decide (j = i)) as [->|Hne].
    + rewrite list_lookup_insert_eq in Hj by lia. injection Hj as <-. apply elem_of_cons in Hx as [->|Hx].
      * destruct (I6' p l) as [_ Hal]; [rewrite Hlv; left|]. unfold served_alignment in Hal.
        by rewrite Hcl, Hex in Hal.
      * by apply (I6 i b).
    + rewrite list_lookup_insert_ne in Hj by done. by eapply I6.
  - intros q k Hq. apply I6'. rewrite Hlv. by right.
  - unfold h. rewrite I9, Hlv, sum_Z_cons. simpl. unfold cost_of at 1. rewrite Hcl, Hex. lia.
Qed.

(** An extent above 4 MiB goes on no list. *)
Lemma large_leak s FL LL p l lv' :
  sinv s FL LL → live s ≡ₚ (p, l) :: lv' →
  sinv (mkSys (set_allocated (heap s) (allocated (heap s) - cost_of l)) (memory s) lv') FL LL.
Proof.
  intros Hi Hlv. pose proof Hi as [I1 I2 I3 I4 I5 [I6 I6'] I7 I8 I9]. unfold cells in *.
  rewrite (live_cells_perm _ _ _ _ Hlv) in I5, I8. rewrite <- app_comm_cons in I5, I8. destruct I5 as [_ I5].
  rewrite sum_Z_cons in I8. simpl in I8.
  assert (∀ p, p ∈ lv' → p ∈ live s) as Hsub by (intros x Hx; rewrite Hlv; by right).
  destruct (I6' p l) as [Hl _]; [rewrite Hlv; left|]. destruct (ext_spec l Hl) as (? & ? & ? & ? & ?).
  split; simpl; try done.
  - intros q e Hq. apply I4. unfold cells in Hq. simpl in Hq.
    rewrite (live_cells_perm _ _ _ _ Hlv). by right.
  - split; [done|]. intros q k Hq. apply I6'. auto.
  - unfold cells. simpl. lia.
  - rewrite I9, Hlv, sum_Z_cons. simpl. lia.
Qed.

Lemma dealloc_ok s FL LL p l lv' :
  sinv s FL LL → live s ≡ₚ (p, l) :: lv' →
  ∃ h' m', dealloc (heap s) (memory s) p l = Ret (h', m') ∧ released s p l lv' h' m'.
Proof.
  intros Hi Hlv. pose proof Hi as [(L1 & L2 & L3 & L4) _ _ _ _ [_ Hal] _ _ I9].
  destruct (Hal p l) as [Hl _]; [rewrite Hlv; left|]. destruct (ext_spec l Hl) as (E1 & E2 & E3 & E4 & E5).
  assert (cost_of l ≤ allocated (heap s)) as Hle.
  { rewrite I9, Hlv, sum_Z_cons. simpl. assert (0 ≤ sum_Z (λ b, cost_of b.2) lv'); [|lia].
    apply sum_Z_nonneg. intros [q k] Hq. destruct (Hal q k) as [Hk _]; [rewrite Hlv; by right|].
    pose proof (ext_spec k Hk). simpl. lia. }
  unfold dealloc.
  destruct (class_for_cases l (proj1 Hl)) as [[Hcl _]|(c & sz & Hcl & Hsz & _)]; rewrite Hcl; cbn [mbind outcome_bind].
  - destruct (large_extent_pow l Hl) as (k & Hk & Ek & _ & _).
    assert (cost_of l = 2 ^ k) as Ec by (unfold cost_of; by rewrite Hcl). rewrite Ec in Hle.
    rewrite Ek, sub_chk_ok by done. cbn [mbind outcome_bind]. pose proof (large_index_ok k Hk) as Hli.
    rewrite Hli. cbn [mbind outcome_bind].
    destruct (Z.ltb_spec (k - 5) 18) as [Hlt|Hge].
    + set (i := Z.to_nat (k - 5)) in *. replace (k - 5) with (Z.of_nat i) in * by lia.
      assert (large_ext i = 2 ^ k) as Hi'.
      { unfold large_ext. change 32 with (2 ^ 5). rewrite <- Z.pow_add_r by lia. f_equal. lia. }
      destruct (large_push s FL LL p l lv' i Hi Hlv Hcl ltac:(congruence) ltac:(lia)) as (b & Hb & -> & Hs').
      cbn [mbind outcome_bind]. rewrite set_index_ok by lia. cbn [mbind outcome_bind]. rewrite Nat2Z.id.
      rewrite Hi' in Hs'. do 2 eexists. split; [reflexivity|]. split.
      * eauto.
      * intros q Hq. by apply store_other.
      * by rewrite Ec.
      * rewrite Hcl. intros j Hj. rewrite Ek, Hli in Hj. injection Hj as <-.
        apply index_ok; [lia|]. rewrite Nat2Z.id. apply list_lookup_insert_eq. simpl. lia.
    + do 2 eexists. split; [reflexivity|]. split.
      * exists FL, LL. rewrite <- Ec. by eapply large_leak.
      * done.
      * by rewrite Ec.
      * rewrite Hcl. intros j Hj. rewrite Ek, Hli in Hj. done.
  - pose proof (lookup_lt_Some _ _ _ Hsz) as Hlt. simpl in Hlt.
    assert (cost_of l = sz) as Ec by (unfold cost_of; by rewrite Hcl, Nat2Z.id, Hsz).
    destruct (class_push s FL LL p l lv' c sz Hi Hlv Hcl Hsz) as (b & Hb & -> & Hs'). cbn [mbind outcome_bind].
    rewrite set_index_ok by lia. cbn [mbind outcome_bind].
    rewrite (index_ok CLASSES (Z.of_nat c) sz) by (lia || by rewrite Nat2Z.id). cbn [mbind outcome_bind].
    rewrite sub_chk_ok by lia. cbn [mbind outcome_bind]. rewrite Nat2Z.id.
    do 2 eexists. split; [reflexivity|]. split.
    * eauto.
    * intros q Hq. by apply store_other.
    * by rewrite Ec.
    * rewrite Hcl. apply index_ok; [lia|]. rewrite Nat2Z.id. apply list_lookup_insert_eq. simpl. lia.
Qed.

(** ** Steps *)

Inductive event :=
  | EBacking (va len : Z)
  | EAlloc (l : Layout) (p : Z)
  | EFree (p : Z) (l : Layout)
  | EWrite (q v : Z).

Definition handed_out (lv : list (Z * Layout)) (l : Layout) (p : Z) : list (Z * Layout) :=
  if p =? null then lv else (p, l) :: lv.

(** Callers allocate with valid layouts, return what they hold with the
    layout they asked for, and write words of their own blocks. *)
Inductive step : system → event → system → Prop :=
  | step_backing h m lv va len h' :
      fits 64 va → fits 64 len → set_backing h va len = Ret h' →
      step (mkSys h m lv) (EBacking va len) (mkSys h' m lv)
  | step_alloc h m lv l p h' :
      layout_ok l → alloc h m l = Ret (p, h') →
      step (mkSys h m lv) (EAlloc l p) (mkSys h' m (handed_out lv l p))
  | step_free h m lv p l lv' h' m' :
      lv ≡ₚ (p, l) :: lv' → dealloc h m p l = Ret (h', m') →
      step (mkSys h m lv) (EFree p l) (mkSys h' m' lv')
  | step_write h m lv p l q v :
      (p, l) ∈ lv → q mod 8 = 0 → p ≤ q < p + lsize l →
      step (mkSys h m lv) (EWrite q v) (mkSys h (store m q v) lv).

Definition reachable (s : system) : Prop := ∃ m tr, run step (mkSys new m []) tr s.

Lemma sinv_new m : sinv (mkSys new m []) (replicate 17 []) (replicate 18 []).
Proof.
  split; simpl; try done.
  - intros i l Hl. change (replicate 17 [] !! i = Some l) in Hl. apply lookup_replicate in Hl as [-> Hi].
    exists null. split; [|done]. change (replicate 17 null !! i = Some null). by apply lookup_replicate.
  - intros i l Hl. change (replicate 18 [] !! i = Some l) in Hl. apply lookup_replicate in Hl as [-> Hi].
    exists null. split; [|done]. change (replicate 18 null !! i = Some null). by apply lookup_replicate.
  - intros p e He. by apply elem_of_nil in He.
  - split.
    + intros i l p Hl. change (replicate 18 [] !! i = Some l) in Hl. apply lookup_replicate in Hl as [-> Hi].
      intros Hp. by apply elem_of_nil in Hp.
    + intros p l Hp. by apply elem_of_nil in Hp.
Qed.

Lemma slab_backing_inv s FL LL va len h' :
  sinv s FL LL → fits 64 va → fits 64 len → set_backing (heap s) va len = Ret h' →
  live s = [] ∧ sinv (mkSys h' (memory s) (live s)) FL LL.
Proof.
  intros [I1 I2 I3 I4 I5 I6 I7 I8 I9] Hva Hlen E. unfold set_backing in E. inv_ret. bool_cases.
  match goal with H : expect _ = Ret _ |- _ => rename H into He end.
  destruct (checked_add 64 va len) as [e|] eqn:Ec; simpl in He; [|done]. injection He as <-.
  apply checked_add_Some in Ec as [-> Hmax]. unfold fits in *.
  assert (∀ c, c ∉ cells s FL LL) as Hno.
  { intros [p e] Hc. destruct (I4 p e Hc). lia. }
  assert (cells s FL LL = []) as Hnil by (destruct (cells s FL LL) as [|c C]; [done|]; destruct (Hno c); left).
  assert (live s = []) as Hlv.
  { unfold cells in Hnil. apply app_eq_nil in Hnil as [Hnil _]. by apply fmap_nil_inv in Hnil. }
  split; [done|]. subst h'. split; simpl; try done.
  - intros p e Hp. destruct (Hno _ Hp).
  - lia.
  - change (sum_Z snd (cells s FL LL) ≤ va). rewrite Hnil, sum_Z_nil. lia.
Qed.

(** A change of memory that leaves the words of the lists. *)
Lemma sinv_memory s FL LL m' :
  sinv s FL LL → (∀ x e, (x, e) ∈ cells_of class_ext FL ++ cells_of large_ext LL → m' x = memory s x) →
  sinv (mkSys (heap s) m' (live s)) FL LL.
Proof.
  intros [I1 I2 I3 I4 I5 I6 I7 I8 I9] Hm. split; simpl; try done.
  - eapply threaded_ext; [|done]. intros i k x Hk Hx. apply (Hm x (class_ext i)).
    rewrite elem_of_app, !elem_of_cells. left. eauto.
  - eapply threaded_ext; [|done]. intros i k x Hk Hx. apply (Hm x (large_ext i)).
    rewrite elem_of_app, !elem_of_cells. right. eauto.
Qed.

(** A free block and a block handed out are apart. *)
Lemma free_apart s FL LL p l x e :
  sinv s FL LL → (p, l) ∈ live s → (x, e) ∈ cells_of class_ext FL ++ cells_of large_ext LL →
  16 ≤ e ∧ x mod 16 = 0 ∧ (p + ext_of l ≤ x ∨ x + e ≤ p).
Proof.
  intros Hi Hp Hx. pose proof (sv_apart _ _ _ Hi) as Ha. pose proof (sv_cells _ _ _ Hi x e) as Hc.
  apply elem_of_Permutation in Hp as [lv' Hlv]. unfold cells in *. rewrite (live_cells_perm _ _ _ _ Hlv) in Ha, Hc.
  destruct Ha as [Ha _]. specialize (Ha (x, e) ltac:(apply elem_of_app; by right)). unfold cell_apart in Ha. simpl in Ha.
  destruct Hc as (_ & _ & ? & ?); [apply elem_of_app; by right|]. done.
Qed.

Lemma slab_write_inv s FL LL p l q v :
  sinv s FL LL → (p, l) ∈ live s → q mod 8 = 0 → p ≤ q < p + lsize l →
  sinv (mkSys (heap s) (store (memory s) q v) (live s)) FL LL.
Proof.
  intros Hi Hp Hq Hin. apply sinv_memory; [done|]. intros x e Hx. apply store_other. intros ->.
  destruct (free_apart _ _ _ _ _ _ _ Hi Hp Hx) as (? & ? & ?).
  destruct (sv_align _ _ _ Hi) as [_ Hal]. destruct (Hal p l Hp) as [Hl _]. destruct (ext_spec l Hl) as (? & ? & _). lia.
Qed.

(** The order in which blocks were handed out does not matter. *)
Lemma sinv_perm h m lv lv' FL LL : sinv (mkSys h m lv) FL LL → lv ≡ₚ lv' → sinv (mkSys h m lv') FL LL.
Proof.
  intros Hi Hp. pose proof Hi as [(L1 & L2 & L3 & L4) I2 I3 _ _ [I6 I6'] _ _ I9].
  eapply (sinv_move (mkSys h m lv)); simpl; try done.
  - unfold cells, live_cells. simpl. by rewrite Hp.
  - intros p l Hl. apply I6'. simpl. by rewrite Hp.
  - simpl in I9. by rewrite I9, Hp.
Qed.

Lemma slab_step_inv s e s' : (∃ FL LL, sinv s FL LL) → step s e s' → ∃ FL LL, sinv s' FL LL.
Proof.
  intros (FL & LL & Hi) Hs. destruct Hs as [h m lv va len h' H1 H2 E|h m lv l p h' Hl E|h m lv p l lv' h' m' Hlv E|h m lv p l q v H1 H2 H3].
  - exists FL, LL. by destruct (slab_backing_inv _ _ _ _ _ _ Hi H1 H2 E).
  - destruct (slab_alloc_ok _ _ _ l Hi Hl) as (p' & h2 & E' & Hg). simpl in E'. rewrite E in E'. simplify_eq.
    unfold handed_out. destruct Hg as [(-> & _ & _ & Hs)|(Hp & _ & Hs)]; [done|].
    by rewrite (proj2 (Z.eqb_neq p' null)) by (unfold null; lia).
  - destruct (dealloc_ok _ _ _ p l lv' Hi Hlv) as (h2 & m2 & E' & Hr). simpl in E'. rewrite E in E'. simplify_eq.
    apply Hr.
  - exists FL, LL. exact (slab_write_inv _ _ _ _ _ _ _ Hi H1 H2 H3).
Qed.

Lemma slab_reachable_inv s : reachable s → ∃ FL LL, sinv s FL LL.
Proof.
  intros (m & tr & Hr). eapply (run_invariant step (λ s, ∃ FL LL, sinv s FL LL)); [|exact Hr|].
  - intros s1 e s2. apply slab_step_inv.
  - do 2 eexists. apply sinv_new.
Qed.

(** Two blocks handed out do not overlap. *)
Lemma live_disjoint s FL LL p l lv' q k :
  sinv s FL LL → live s ≡ₚ (p, l) :: lv' → (q, k) ∈ lv' → p + ext_of l ≤ q ∨ q + ext_of k ≤ p.
Proof.
  intros Hi Hlv Hq. pose proof (sv_apart _ _ _ Hi) as Ha. unfold cells in Ha.
  rewrite (live_cells_perm _ _ _ _ Hlv) in Ha. destruct Ha as [Ha _].
  apply (Ha (q, ext_of k)). apply elem_of_app. left. unfold live_cells.
  apply list_elem_of_fmap. by exists (q, k).
Qed.

(** Where the block handed out last lies. *)
Lemma newest_block h m p l lv FL LL : layout_ok l → sinv (mkSys h m ((p, l) :: lv)) FL LL →
  0 < p ∧ p mod lalign l = 0 ∧ p + ext_of l ≤ bump_end h ∧ ∀ q k, (q, k) ∈ lv → p + ext_of l ≤ q ∨ q + ext_of k ≤ p.
Proof.
  intros Hl Hi. destruct (sv_align _ _ _ Hi) as [_ Hal]. destruct (Hal p l) as [_ Hpa]; [left|].
  destruct (sv_cells _ _ _ Hi p (ext_of l)) as (Hp & Hb & _ & H16); [unfold cells; left|].
  destruct (sv_bump _ _ _ Hi) as [Hbe _]. simpl in Hb, Hbe.
  split; [done|]. split; [|split; [lia|]].
  - destruct (class_for_cases l (proj1 Hl)) as [[Hcl _]|(c & sz & Hcl & _ & _ & Ha16 & _)];
      unfold served_alignment in Hpa; rewrite Hcl in Hpa; pose proof Hl as (_ & (a & Ha0 & Ea) & _).
    + destruct (large_extent_pow l Hl) as (k & Hk & Ek & _ & Hdiv). rewrite Ek, Ea in *.
      apply Z.mod_divide in Hdiv as [z Hz]; [|pose proof (pow2_pos a Ha0); lia].
      apply Z.mod_divide in Hpa as [y Hy]; [|pose proof (pow2_pos k ltac:(lia)); lia].
      rewrite Hy, Hz, Z.mul_assoc. apply Z.mod_mul. pose proof (pow2_pos a Ha0). lia.
    + rewrite Ea in *. apply (mod_pow2_le p a 4); [|done]. split; [done|].
      apply (Z.pow_le_mono_r_iff 2); lia.
  - intros q k Hq. exact (live_disjoint _ _ _ p l lv q k Hi (reflexivity _) Hq).
Qed.

(** ** The theorems *)

(** for every valid layout the class test picks the smallest class that
    holds the request, exactly when one exists and 16-byte alignment is
    enough, and neither it nor the large-list index overflows. *)
Theorem class_for_is_best_fit l :
  layout_ok l →
  (∃ i, large_index (large_extent l) = Ret i) ∧
  ((class_for l = Ret None ∧ (MAX_CLASS_ALIGN < lalign l ∨ 2048 < lsize l)) ∨
   ∃ c s, class_for l = Ret (Some (Z.of_nat c)) ∧ CLASSES !! c = Some s ∧ lsize l ≤ s ∧
     lalign l ≤ MAX_CLASS_ALIGN ∧ ∀ c' s', (c' < c)%nat → CLASSES !! c' = Some s' → s' < lsize l).
Proof.
  intros Hl. split.
  - destruct (large_extent_pow l Hl) as (k & Hk & -> & _). eexists. by apply large_index_ok.
  - destruct (class_for_cases l (proj1 Hl)) as [H|(c & s & H1 & H2 & H3 & H4 & _ & H5)]; [by left|].
    right. exists c, s. done.
Qed.

(** [alloc] returns. Null means nothing to reuse and no room to bump;
    any other pointer is aligned as asked, lies below the bump mark, is
    clear of every block handed out, and its cost joins the count. *)
Theorem slab_alloc_is_exclusive s l :
  reachable s → layout_ok l →
  ∃ p h', alloc (heap s) (memory s) l = Ret (p, h') ∧
    ((p = null ∧ exhausted (heap s) l ∧ allocated h' = allocated (heap s)) ∨
     (0 < p ∧ p mod lalign l = 0 ∧ p + lsize l ≤ bump_end h' ∧ bump_end h' = bump_end (heap s) ∧
      allocated h' = allocated (heap s) + cost_of l ∧
      ∀ q k, (q, k) ∈ live s → p + lsize l ≤ q ∨ q + lsize k ≤ p)).
Proof.
  intros (FL & LL & Hi)%slab_reachable_inv Hl. destruct (ext_spec l Hl) as (E1 & E2 & _).
  destruct (slab_alloc_ok _ _ _ l Hi Hl) as (p & h' & E & Hg). exists p, h'. split; [done|].
  destruct Hg as [(H1 & H2 & H3 & _)|(Hp & Ha & FL' & LL' & Hi')]; [by left|]. right.
  destruct (newest_block _ _ _ _ _ FL' LL' Hl Hi') as (_ & Hal & Hb & Hd).
  split; [done|]. split; [done|]. split; [lia|]. split; [by eapply alloc_keeps_end|]. split; [done|].
  intros q k Hq. specialize (Hd q k Hq). destruct (sv_align _ _ _ Hi) as [_ Hlv].
  destruct (Hlv q k Hq) as [Hk _]. pose proof (ext_spec k Hk). lia.
Qed.

(** returning a block succeeds, takes its cost off the count, writes no
    word but the block's own first one, and the next request that maps to
    the same list is served that very block. *)
Theorem slab_dealloc_recycles s p l :
  reachable s → (p, l) ∈ live s →
  ∃ h' m', dealloc (heap s) (memory s) p l = Ret (h', m') ∧
    allocated h' = allocated (heap s) - cost_of l ∧ (∀ q, q ≠ p → m' q = memory s q) ∧
    ∀ l', layout_ok l' → class_for l' = class_for l → (class_for l = Ret None → large_extent l' = large_extent l) →
      (class_for l ≠ Ret None ∨ large_extent l ≤ 2 ^ 22) →
      ∃ h'', alloc h' m' l' = Ret (p, h'').
Proof.
  intros (FL & LL & Hi)%slab_reachable_inv Hp. destruct (sv_align _ _ _ Hi) as [_ Hal].
  destruct (Hal p l Hp) as [Hl _]. apply elem_of_Permutation in Hp as [lv' Hlv].
  assert (0 < p) as Hp0.
  { apply (sv_cells _ _ _ Hi p (ext_of l)). unfold cells. rewrite (live_cells_perm _ _ _ _ Hlv). left. }
  destruct (dealloc_ok _ _ _ p l lv' Hi Hlv) as (h' & m' & E & [(FL' & LL' & Hi') Hm Ha Hh]).
  exists h', m'. split; [done|]. split; [done|]. split; [done|]. intros l' Hl' Hcl Hex Hfit.
  destruct (slab_alloc_ok _ _ _ l' Hi' Hl') as (p' & h'' & E' & _). simpl in E'. exists h''. rewrite E'. do 2 f_equal.
  eapply alloc_takes_head; [done|done| |exact E']. rewrite Hcl.
  destruct (class_for_cases l (proj1 Hl)) as [[Hc _]|(c & sz & Hc & Hsz & _)]; rewrite Hc in *; [|done].
  rewrite Hex by done. destruct Hfit as [|Hfit]; [done|]. destruct (large_extent_pow l Hl) as (k & Hk & Ek & _). rewrite Ek in *.
  rewrite large_index_ok in * by done. exists (k - 5). apply (Z.pow_le_mono_r_iff 2) in Hfit; [|lia|lia].
  rewrite (proj2 (Z.ltb_lt (k - 5) 18)) in * by lia. split; [done|]. by apply Hh.
Qed.

(** C39: the heap's count is the cost of what is handed out; the blocks
    handed out are disjoint; and a step changes no word of a block that
    stays handed out, its own writes apart. *)
Theorem slab_live_blocks_are_private s e s' p l :
  reachable s → step s e s' → (p, l) ∈ live s → (p, l) ∈ live s' →
  allocated (heap s') = sum_Z (λ b, cost_of b.2) (live s') ∧
  (∀ lv' q k, live s' ≡ₚ (p, l) :: lv' → (q, k) ∈ lv' → p + lsize l ≤ q ∨ q + lsize k ≤ p) ∧
  ∀ q, p ≤ q < p + lsize l → (∀ v, e ≠ EWrite q v) → memory s' q = memory s q.
Proof.
  intros Hr Hs Hp Hp'. pose proof (slab_reachable_inv s Hr) as (FL & LL & Hi).
  destruct (slab_step_inv s e s' ltac:(eauto) Hs) as (FL' & LL' & Hi').
  split; [apply (sv_allocated _ _ _ Hi')|]. destruct (sv_align _ _ _ Hi') as [_ Hal].
  destruct (Hal p l Hp') as [Hl _]. pose proof (ext_spec l Hl) as Hex. split.
  - intros lv' q k Hlv Hq. pose proof (live_disjoint _ _ _ p l lv' q k Hi' Hlv Hq).
    destruct (Hal q k) as [Hk _]; [rewrite Hlv; by right|]. pose proof (ext_spec k Hk). lia.
  - intros q Hq Hw.
    destruct Hs as [h m lv va len h' H1 H2 E|h m lv k x h' Hk E|h m lv x k lv' h' m' Hlv E|h m lv x k y v H1 H2 H3]; try done.
    + destruct (dealloc_ok _ _ _ x k lv' Hi Hlv) as (h2 & m2 & E' & Hrl). simpl in E'. rewrite E in E'. simplify_eq.
      apply (rl_memory _ _ _ _ _ _ Hrl). simpl in *. intros ->.
      pose proof (live_disjoint _ _ _ x k lv' p l Hi Hlv Hp') as Hd.
      destruct (sv_cells _ _ _ Hi x (ext_of k)) as (_ & _ & He & _); [|lia].
      unfold cells. rewrite (live_cells_perm _ _ _ _ Hlv). left.
    + simpl. apply store_other. intros ->. by apply (Hw v).
Qed.

(** *** Instances *)

(** A 64 KiB heap at 0x10000, after one 24-byte and one page-aligned
    request. *)
Definition demo_step (s : system) (l : Layout) : system :=
  match alloc (heap s) (memory s) l with
  | Ret (p, h) => mkSys h (memory s) (handed_out (live s) l p) | Panic => s
  end.
Definition demo0 : system :=
  mkSys (match set_backing new 65536 65536 with Ret h => h | Panic => new end) (λ _, 0) [].
Definition small := mkLayout 20 8.
Definition large := mkLayout 100 4096.
Definition demo : system := demo_step (demo_step demo0 small) large.

Lemma small_ok : layout_ok small.
Proof. split; [done|]. split; [by exists 3|done]. Qed.
Lemma large_ok : layout_ok large.
Proof. split; [done|]. split; [by exists 12|done]. Qed.

Lemma demo_step_reachable s l : reachable s → layout_ok l → reachable (demo_step s l).
Proof.
  intros (m & tr & Hr) Hl. destruct s as [h m' lv]. unfold demo_step. cbn [heap memory live].
  destruct (alloc h m' l) as [[p h']|] eqn:E; [|by exists m, tr].
  exists m, (tr ++ [EAlloc l p]). eapply run_app; [exact Hr|].
  eapply run_cons; [by apply step_alloc|constructor].
Qed.

Lemma demo_reachable : reachable demo.
Proof.
  apply demo_step_reachable, large_ok. apply demo_step_reachable, small_ok.
  exists (λ _, 0), [EBacking 65536 65536]. eapply run_cons; [|constructor].
  by apply step_backing.
Qed.

Lemma demo_live : live demo = [(69632, large); (65536, small)].
Proof. by vm_compute. Qed.

Lemma class_for_is_best_fit_witness : layout_ok small ∧ class_for small = Ret (Some 3).
Proof.
  split; [exact small_ok|].
  destruct (class_for_is_best_fit small small_ok) as [_ [[_ [H|H]]|(c & s & E & _)]]; [done|done|].
  rewrite E. assert (class_for small = Ret (Some 3)) as E' by by vm_compute. by rewrite E in E'.
Defined.

Lemma slab_alloc_is_exclusive_witness :
  ∃ p h', alloc (heap demo) (memory demo) small = Ret (p, h') ∧ p = 73728.
Proof.
  destruct (slab_alloc_is_exclusive demo small demo_reachable small_ok) as (p & h' & E & _).
  exists p, h'. split; [exact E|].
  assert (fst <$> alloc (heap demo) (memory demo) small = Ret 73728) as E' by by vm_compute.
  rewrite E in E'. by injection E'.
Defined.

Lemma slab_dealloc_recycles_witness :
  ∃ h' m', dealloc (heap demo) (memory demo) 65536 small = Ret (h', m') ∧ ∃ h'', alloc h' m' small = Ret (65536, h'').
Proof.
  destruct (slab_dealloc_recycles demo 65536 small demo_reachable) as (h' & m' & E & _ & _ & H).
  - rewrite demo_live. right. left.
  - exists h', m'. split; [exact E|]. apply H; [exact small_ok|done|done|]. left. by vm_compute.
Defined.

Lemma slab_live_blocks_are_private_witness : ∃ h' m',
  dealloc (heap demo) (memory demo) 69632 large = Ret (h', m') ∧ m' 65544 = memory demo 65544.
Proof.
  destruct (returns_ret (dealloc (heap demo) (memory demo) 69632 large)) as [[h' m'] E]; [by vm_compute|].
  exists h', m'. split; [exact E|].
  assert (step demo (EFree 69632 large) (mkSys h' m' [(65536, small)])) as Hs.
  { pose proof (step_free (heap demo) (memory demo) (live demo) 69632 large [(65536, small)] h' m'
      ltac:(by rewrite demo_live) E) as Hs. destruct demo as [h m lv]. exact Hs. }
  destruct (slab_live_blocks_are_private demo _ _ 65536 small demo_reachable Hs) as (_ & _ & H).
  - rewrite demo_live. right. left.
  - left.
  - apply H; [|done]. simpl. lia.
Defined.

End Slab.
