(* ===== verification/Tlb.v ===== *)
(** Cross-CPU TLB shootdown: [crates/qunix-hal-x86_64/src/tlb.rs].

    Every atomic access of [shootdown] and [service_pending] is a step of
    its own, and the steps of the processors interleave.  A processor runs one
    main context and, when interrupts are unmasked, the IPI handler on top of
    it.  [disciplined] says that servicing from the main context runs with
    interrupts masked, as every [IrqSpinLock] wait does. *)
From S2P Require Import Prelude Bits.

Module Tlb.

(** ** The code *)

Definition MAX_CPUS : Z := 64.
Definition TARGET_ALL : Z := 2 ^ 64 - 1.

(** [remote_mask]. *)
Definition remote_mask (online self_id : Z) : Z :=
  if MAX_CPUS <=? self_id then 0 else Z.land online (bitnot 64 (Z.shiftl 1 self_id)).

(** [service_pending], between its atomic accesses: about to load [PENDING],
    to load [TARGET], to invalidate what was loaded, to count it, to clear the
    bit. *)
Inductive service_pc := SLoad | STarget | SInvalidate (t : Z) | SCount | SClear.

(** A processor's main context: idle, polling from a lock wait, or somewhere
    in [shootdown] for target [t] with [remote] already computed. *)
Inductive main_pc :=
  | MIdle
  | MPoll (s : service_pc)
  | MAcquire (t remote : Z)
  | MAcquireService (t remote : Z) (s : service_pc)
  | MTarget (t remote : Z)
  | MPending (t remote : Z)
  | MSend (t remote : Z)
  | MWait (t remote : Z)
  | MWaitService (t remote : Z) (s : service_pc)
  | MRelease (t remote : Z).

(** [shootdown_handler]: service, then [eoi]. *)
Inductive handler_pc := HService (s : service_pc) | HEoi.

Record machine := mkMachine
  { in_progress : bool; target : Z; pending : Z; online : Z; serviced : nat → Z;
    main : nat → main_pc; irq : nat → option handler_pc; ipi : nat → bool; masked : nat → bool }.

Definition upd {A} (f : nat → A) (c : nat) (x : A) : nat → A := λ d, if decide (d = c) then x else f d.

Definition set_main (m : machine) (c : nat) (p : main_pc) : machine :=
  mkMachine (in_progress m) (target m) (pending m) (online m) (serviced m) (upd (main m) c p)
    (irq m) (ipi m) (masked m).
Definition set_irq (m : machine) (c : nat) (p : option handler_pc) : machine :=
  mkMachine (in_progress m) (target m) (pending m) (online m) (serviced m) (main m)
    (upd (irq m) c p) (ipi m) (masked m).
Definition set_in_progress (m : machine) (b : bool) : machine :=
  mkMachine b (target m) (pending m) (online m) (serviced m) (main m) (irq m) (ipi m) (masked m).
Definition set_target (m : machine) (t : Z) : machine :=
  mkMachine (in_progress m) t (pending m) (online m) (serviced m) (main m) (irq m) (ipi m) (masked m).
Definition set_pending (m : machine) (p : Z) : machine :=
  mkMachine (in_progress m) (target m) p (online m) (serviced m) (main m) (irq m) (ipi m) (masked m).
Definition set_online (m : machine) (o : Z) : machine :=
  mkMachine (in_progress m) (target m) (pending m) o (serviced m) (main m) (irq m) (ipi m) (masked m).
Definition set_serviced (m : machine) (s : nat → Z) : machine :=
  mkMachine (in_progress m) (target m) (pending m) (online m) s (main m) (irq m) (ipi m) (masked m).
Definition set_ipi (m : machine) (i : nat → bool) : machine :=
  mkMachine (in_progress m) (target m) (pending m) (online m) (serviced m) (main m) (irq m) i (masked m).
Definition set_masked (m : machine) (k : nat → bool) : machine :=
  mkMachine (in_progress m) (target m) (pending m) (online m) (serviced m) (main m) (irq m) (ipi m) k.

Definition bit (c : nat) : Z := Z.shiftl 1 (Z.of_nat c).

(** What an observer sees: a shootdown published, a processor's
    invalidation, a shootdown that has stopped waiting. *)
Inductive label :=
  | LPublish (c : nat) (t remote : Z)
  | LInvalidate (c : nat) (t : Z)
  | LReturn (c : nat) (t : Z)
  | LTau (c : nat).

#[export] Instance label_eq_dec : EqDecision label.
Proof. solve_decision. Defined.

(** One access of [service_pending] on processor [c]: the machine after it
    and what is left to do. *)
Definition service (m : machine) (c : nat) (s : service_pc) : machine * option service_pc * label :=
  match s with
  | SLoad => (m, if Z.land (pending m) (bit c) =? 0 then None else Some STarget, LTau c)
  | STarget => (m, Some (SInvalidate (target m)), LTau c)
  | SInvalidate t => (m, Some SCount, LInvalidate c t)
  | SCount => (set_serviced m (upd (serviced m) c (wrapping_add 64 (serviced m c) 1)), Some SClear, LTau c)
  | SClear => (set_pending m (Z.land (pending m) (bitnot 64 (bit c))), None, LTau c)
  end.

Definition servicing (p : main_pc) : option service_pc :=
  match p with
  | MPoll s | MAcquireService _ _ s | MWaitService _ _ s => Some s
  | _ => None
  end.

(** One step of a processor's main context, in program order. *)
Inductive main_step (m : machine) (c : nat) : main_pc → label → machine → main_pc → Prop :=
  | ms_poll : main_step m c MIdle (LTau c) m (MPoll SLoad)
  | ms_poll_next s m' s' l : service m c s = (m', Some s', l) → main_step m c (MPoll s) l m' (MPoll s')
  | ms_poll_end s m' l : service m c s = (m', None, l) → main_step m c (MPoll s) l m' MIdle
  | ms_none : remote_mask (online m) (Z.of_nat c) = 0 → main_step m c MIdle (LTau c) m MIdle
  | ms_enter t remote : fits 64 t → remote = remote_mask (online m) (Z.of_nat c) → remote ≠ 0 →
      main_step m c MIdle (LTau c) m (MAcquire t remote)
  | ms_acquired t remote : in_progress m = false →
      main_step m c (MAcquire t remote) (LTau c) (set_in_progress m true) (MTarget t remote)
  | ms_spin t remote : main_step m c (MAcquire t remote) (LTau c) m (MAcquireService t remote SLoad)
  | ms_spin_next t remote s m' s' l : service m c s = (m', Some s', l) →
      main_step m c (MAcquireService t remote s) l m' (MAcquireService t remote s')
  | ms_spin_end t remote s m' l : service m c s = (m', None, l) →
      main_step m c (MAcquireService t remote s) l m' (MAcquire t remote)
  | ms_target t remote : main_step m c (MTarget t remote) (LTau c) (set_target m t) (MPending t remote)
  | ms_pending t remote :
      main_step m c (MPending t remote) (LPublish c t remote) (set_pending m remote) (MSend t remote)
  | ms_send t remote :
      main_step m c (MSend t remote) (LTau c)
        (set_ipi m (λ d, if decide (d = c) then ipi m d else true)) (MWait t remote)
  | ms_wait t remote : pending m ≠ 0 →
      main_step m c (MWait t remote) (LTau c) m (MWaitService t remote SLoad)
  | ms_wait_next t remote s m' s' l : service m c s = (m', Some s', l) →
      main_step m c (MWaitService t remote s) l m' (MWaitService t remote s')
  | ms_wait_end t remote s m' l : service m c s = (m', None, l) →
      main_step m c (MWaitService t remote s) l m' (MWait t remote)
  | ms_done t remote : pending m = 0 →
      main_step m c (MWait t remote) (LReturn c t) m (MRelease t remote)
  | ms_release t remote :
      main_step m c (MRelease t remote) (LTau c) (set_in_progress m false) MIdle.

(** The whole machine.  Processors have ids below [MAX_CPUS], the bound
    [percpu::mark_online] enforces; a main context stands still while its
    processor is in the handler. *)
Inductive step (disciplined : bool) : machine → label → machine → Prop :=
  | st_main m c p l m' :
      (c < 64)%nat → irq m c = None → main_step m c (main m c) l m' p →
      (disciplined = true → servicing p ≠ None → masked m c = true) →
      step disciplined m l (set_main m' c p)
  | st_interrupt m c :
      (c < 64)%nat → irq m c = None → masked m c = false → ipi m c = true →
      step disciplined m (LTau c) (set_irq (set_ipi m (upd (ipi m) c false)) c (Some (HService SLoad)))
  | st_handler m c s m' s' l :
      (c < 64)%nat → irq m c = Some (HService s) → service m c s = (m', s', l) →
      step disciplined m l (set_irq m' c (Some (match s' with Some s' => HService s' | None => HEoi end)))
  | st_eoi m c : (c < 64)%nat → irq m c = Some HEoi → step disciplined m (LTau c) (set_irq m c None)
  | st_mask m c : irq m c = None → step disciplined m (LTau c) (set_masked m (upd (masked m) c true))
  | st_unmask m c :
      irq m c = None → (disciplined = true → servicing (main m c) = None) →
      step disciplined m (LTau c) (set_masked m (upd (masked m) c false))
  | st_online m c :
      (c < 64)%nat → step disciplined m (LTau c) (set_online m (Z.lor (online m) (bit c))).

Definition init : machine :=
  mkMachine false TARGET_ALL 0 0 (λ _, 0) (λ _, MIdle) (λ _, None) (λ _, false) (λ _, false).

(** ** What is owed *)

(** A flush of [t] drops a stale translation of [u]. *)
Definition covers (t u : Z) : bool := (t =? TARGET_ALL) || (t =? u).

(** The processors that have not yet invalidated the target of the last
    shootdown published: a function of what was observed. *)
Definition debt_after (d : Z * Z) (l : label) : Z * Z :=
  match l with
  | LPublish _ t remote => (t, remote)
  | LInvalidate c t => if covers t d.1 then (d.1, Z.land d.2 (bitnot 64 (bit c))) else d
  | _ => d
  end.
Definition debt (tr : list label) : Z * Z := foldl debt_after (TARGET_ALL, 0) tr.

(** ** The invariant *)

Lemma bit_pow c : bit c = 2 ^ Z.of_nat c.
Proof. unfold bit. by rewrite Z.shiftl_1_l. Qed.

Lemma land_bit p c : (Z.land p (bit c) =? 0) = negb (Z.testbit p (Z.of_nat c)).
Proof.
  rewrite bit_pow, land_pow2 by lia. destruct (Z.testbit p (Z.of_nat c)); [|done].
  apply Z.eqb_neq. pose proof (pow2_pos (Z.of_nat c)). lia.
Qed.

Lemma clear_bit p c i :
  Z.testbit (Z.land p (bitnot 64 (bit c))) (Z.of_nat i) =
  Z.testbit p (Z.of_nat i) && (i <? 64)%nat && negb (i =? c)%nat.
Proof.
  rewrite Z.land_spec. unfold bitnot. rewrite Z.ldiff_spec, Z.testbit_ones_nonneg by lia.
  rewrite bit_pow, Z.pow2_bits_eqb by lia.
  destruct (Z.testbit p (Z.of_nat i)), (Nat.ltb_spec i 64), (Z.ltb_spec (Z.of_nat i) 64), (Nat.eqb_spec i c),
    (Z.eqb_spec (Z.of_nat c) (Z.of_nat i)); try done; lia.
Qed.

Lemma no_bits x : (∀ i, Z.testbit x (Z.of_nat i) = false) → x = 0.
Proof.
  intros H. apply Z.bits_inj'. intros i Hi. rewrite Z.testbit_0_l. rewrite <- (Z2Nat.id i Hi). apply H.
Qed.

Definition holds (p : main_pc) : bool :=
  match p with MTarget _ _ | MPending _ _ | MSend _ _ | MWait _ _ | MWaitService _ _ _ | MRelease _ _ => true | _ => false end.

(** The service in progress on a processor, in whichever context. *)
Definition ctx (m : machine) (c : nat) : option service_pc :=
  match irq m c with
  | Some (HService s) => Some s
  | Some HEoi => None
  | None => servicing (main m c)
  end.

Definition good_ctx (m : machine) (d : Z * Z) (c : nat) (s : service_pc) : Prop :=
  match s with
  | SLoad => True
  | STarget => Z.testbit (pending m) (Z.of_nat c) = true
  | SInvalidate t => Z.testbit (pending m) (Z.of_nat c) = true ∧ t = target m
  | SCount | SClear => Z.testbit (pending m) (Z.of_nat c) = true ∧ Z.testbit d.2 (Z.of_nat c) = false
  end.

Definition narrow (r : Z) : Prop := ∀ i, Z.testbit r (Z.of_nat i) = true → (i < 64)%nat.

Definition phase (m : machine) (d : Z * Z) (p : main_pc) : Prop :=
  match p with
  | MAcquire _ r | MAcquireService _ r _ => narrow r
  | MTarget _ r => pending m = 0 ∧ narrow r
  | MPending t r => pending m = 0 ∧ target m = t ∧ narrow r
  | MSend t r | MWait t r | MWaitService t r _ => d.1 = t ∧ target m = t ∧ narrow r
  | MRelease t _ => pending m = 0 ∧ d.1 = t
  | _ => True
  end.

Record inv (m : machine) (d : Z * Z) : Prop := {
  i_ctx : ∀ c s, ctx m c = Some s → (c < 64)%nat ∧ good_ctx m d c s;
  i_alone : ∀ c, servicing (main m c) ≠ None → irq m c = None ∧ masked m c = true;
  i_one : ∀ c c', holds (main m c) = true → holds (main m c') = true → c = c';
  i_lock : ∀ c, holds (main m c) = true → in_progress m = true;
  i_held : in_progress m = true → ∃ c, holds (main m c) = true;
  i_phase : ∀ c, phase m d (main m c);
  i_free : in_progress m = false → pending m = 0;
  i_debt : ∀ i, Z.testbit d.2 (Z.of_nat i) = true → (i < 64)%nat ∧ Z.testbit (pending m) (Z.of_nat i) = true
}.

Lemma inv_init : inv init (TARGET_ALL, 0).
Proof. split; try done. intros i Hi. simpl in Hi. by rewrite Z.testbit_0_l in Hi. Qed.

(** A bit outstanding means a shootdown in its waiting phase. *)
Lemma outstanding m d c : inv m d → Z.testbit (pending m) (Z.of_nat c) = true → d.1 = target m.
Proof.
  intros Hi Hb. assert (pending m ≠ 0) as Hne by (intros E; by rewrite E, Z.testbit_0_l in Hb).
  destruct (in_progress m) eqn:Ep; [|by apply (i_free _ _ Hi) in Ep].
  destruct (i_held _ _ Hi Ep) as [h Hh]. pose proof (i_phase _ _ Hi h) as Hp.
  destruct (main m h); simpl in *; try done; intuition congruence.
Qed.

Lemma upd_same {A} (f : nat → A) c x : upd f c x c = x.
Proof. unfold upd. by rewrite decide_True. Qed.
Lemma upd_other {A} (f : nat → A) c x d : d ≠ c → upd f c x d = f d.
Proof. intros. unfold upd. by rewrite decide_False. Qed.

(** What one access of a service leaves: the other processors' contexts, the
    lock and the phases stand, and the context itself stays good. *)
Record serviced_ok (m : machine) (d : Z * Z) (c : nat) (m' : machine) (d' : Z * Z) (s' : option service_pc) : Prop := {
  so_same : in_progress m' = in_progress m ∧ target m' = target m ∧ main m' = main m ∧ irq m' = irq m ∧
    masked m' = masked m ∧ online m' = online m ∧ d'.1 = d.1;
  so_own : ∀ s, s' = Some s → good_ctx m' d' c s;
  so_others : ∀ c' s, c' ≠ c → (c' < 64)%nat → good_ctx m d c' s → good_ctx m' d' c' s;
  so_zero : pending m = 0 → pending m' = 0;
  so_debt : ∀ i, Z.testbit d'.2 (Z.of_nat i) = true → (i < 64)%nat ∧ Z.testbit (pending m') (Z.of_nat i) = true
}.

Lemma service_ok m d c s m' s' l :
  inv m d → ctx m c = Some s → (c < 64)%nat → service m c s = (m', s', l) →
  serviced_ok m d c m' (debt_after d l) s'.
Proof.
  intros Hi Hc Hlt E. destruct (i_ctx _ _ Hi c s Hc) as [_ Hg]. pose proof (i_debt _ _ Hi) as Hd.
  destruct s as [| |t| |]; simpl in E, Hg; injection E as <- <- <-; simpl.
  - split; auto 10. intros s Hs. rewrite land_bit in Hs. destruct (Z.testbit (pending m) (Z.of_nat c)) eqn:Eb; simplify_eq/=.
    done.
  - split; auto 10. intros s [= <-]. done.
  - destruct Hg as [Hb ->]. assert (covers (target m) d.1 = true) as ->.
    { unfold covers. rewrite (outstanding m d c Hi Hb), Z.eqb_refl. apply orb_true_r. }
    split; simpl; auto 10.
    + intros s [= <-]. split; [done|]. simpl. rewrite clear_bit, Nat.eqb_refl. by rewrite andb_false_r.
    + intros c' s Hne Hlt' Hg. destruct s; simpl in *; try done; destruct Hg as [? Hn]; (split; [done|]);
        rewrite clear_bit, Hn; done.
    + intros i. rewrite clear_bit. intros Hb'. bool_cases. auto.
  - split; simpl; auto 10. intros s [= <-]. done.
  - destruct Hg as [Hb Hn]. split; simpl; auto 10.
    + done.
    + intros c' s Hne Hlt' Hg. assert (Z.testbit (Z.land (pending m) (bitnot 64 (bit c))) (Z.of_nat c') =
        Z.testbit (pending m) (Z.of_nat c')) as Eb.
      { rewrite clear_bit, (proj2 (Nat.ltb_lt c' 64)), (proj2 (Nat.eqb_neq c' c)) by done. by rewrite !andb_true_r. }
      destruct s; simpl in *; rewrite ?Eb; done.
    + intros ->. apply Z.land_0_l.
    + intros i Hb'. destruct (Hd i Hb') as [Hlt' Hbi]. split; [done|].
      rewrite clear_bit, Hbi, (proj2 (Nat.ltb_lt i 64)) by done. simpl.
      destruct (Nat.eqb_spec i c) as [->|]; [congruence|done].
Qed.

Lemma ctx_main m c m' p c' :
  main m' = main m → irq m' = irq m →
  ctx (set_main m' c p) c' =
  if decide (c' = c) then match irq m c with Some (HService s) => Some s | Some HEoi => None | None => servicing p end
  else ctx m c'.
Proof.
  intros Em Ei. unfold ctx. simpl. rewrite Em, Ei. unfold upd. by destruct (decide (c' = c)) as [->|].
Qed.

(** A main context moves from [main m c] to [p], the shared words from those
    of [m] to those of [m']. *)
Lemma inv_main m d c p m' d' :
  inv m d → irq m c = None → (c < 64)%nat →
  main m' = main m ∧ irq m' = irq m ∧ masked m' = masked m →
  (∀ c' s, c' ≠ c → (c' < 64)%nat → good_ctx m d c' s → good_ctx m' d' c' s) →
  (∀ s, servicing p = Some s → good_ctx m' d' c s ∧ masked m c = true) →
  (holds p = true → in_progress m' = true ∧ ∀ c', c' ≠ c → holds (main m c') = false) →
  (∀ c', c' ≠ c → holds (main m c') = true → in_progress m' = true) →
  (in_progress m' = true → holds p = true ∨ ∃ c', c' ≠ c ∧ holds (main m c') = true) →
  (∀ c', c' ≠ c → phase m d (main m c') → phase m' d' (main m c')) → phase m' d' p →
  (in_progress m' = false → pending m' = 0) →
  (∀ i, Z.testbit d'.2 (Z.of_nat i) = true → (i < 64)%nat ∧ Z.testbit (pending m') (Z.of_nat i) = true) →
  inv (set_main m' c p) d'.
Proof.
  intros Hi Hirq Hlt (Em & Ei & Ek) Hctx Hown Hh Hl Hlh Hph Hp Hfree Hdebt.
  assert (∀ c', main (set_main m' c p) c' = if decide (c' = c) then p else main m c') as Emain.
  { intros c'. simpl. rewrite Em. done. }
  split; try done.
  - intros c' s Hc. rewrite (ctx_main m c m' p c' Em Ei) in Hc. destruct (decide (c' = c)) as [->|Hne].
    + rewrite Hirq in Hc. split; [done|]. by apply Hown.
    + destruct (i_ctx _ _ Hi c' s Hc). split; [done|]. by apply Hctx.
  - intros c'. rewrite Emain. simpl. rewrite Ei, Ek. destruct (decide (c' = c)) as [->|Hne]; [|apply (i_alone _ _ Hi)].
    intros Hs. split; [done|]. destruct (servicing p) as [s|]; [|done]. by apply (Hown s).
  - intros c1 c2. rewrite !Emain. destruct (decide (c1 = c)) as [->|H1], (decide (c2 = c)) as [->|H2]; try done.
    + intros Hp' Hc. destruct (Hh Hp') as [_ Hno]. by rewrite (Hno c2 H2) in Hc.
    + intros Hc Hp'. destruct (Hh Hp') as [_ Hno]. by rewrite (Hno c1 H1) in Hc.
    + apply (i_one _ _ Hi).
  - intros c'. rewrite Emain. destruct (decide (c' = c)) as [->|Hne]; [|by apply Hl]. intros. by apply Hh.
  - intros Hip. destruct (Hlh Hip) as [Hp'|(c' & Hne & Hc)]; [exists c|exists c']; rewrite Emain.
    + by rewrite decide_True.
    + by rewrite decide_False.
  - intros c'. rewrite Emain. change (phase m' d' (if decide (c' = c) then p else main m c')).
    destruct (decide (c' = c)); [done|]. apply Hph; [done|]. apply (i_phase _ _ Hi).
Qed.

(** Where the shared words stand, a context changes freely between
    positions that hold the lock alike. *)
Lemma inv_same m d c p :
  inv m d → irq m c = None → (c < 64)%nat →
  (∀ s, servicing p = Some s → s = SLoad ∧ masked m c = true) →
  holds p = holds (main m c) → phase m d p → inv (set_main m c p) d.
Proof.
  intros Hi Hirq Hlt Hs Hh Hp. apply (inv_main m d c p m d); try done.
  - intros s Hsv. destruct (Hs s Hsv) as [-> Hm]. done.
  - intros Hh'. rewrite Hh in Hh'. split; [by apply (i_lock _ _ Hi c)|]. intros c' Hne.
    destruct (holds (main m c')) eqn:E; [|done]. by pose proof (i_one _ _ Hi c' c E Hh').
  - intros c' _ Hc. by apply (i_lock _ _ Hi c').
  - intros Hip. destruct (i_held _ _ Hi Hip) as [c' Hc]. destruct (decide (c' = c)) as [->|Hne].
    + left. by rewrite Hh.
    + right. by exists c'.
  - apply Hi.
  - apply Hi.
Qed.

(** An access of a service, from a main context. *)
Lemma inv_service m d c s m' s' l p :
  inv m d → irq m c = None → (c < 64)%nat → servicing (main m c) = Some s → service m c s = (m', s', l) →
  servicing p = s' → holds p = holds (main m c) → (phase m d (main m c) → phase m d p) →
  inv (set_main m' c p) (debt_after d l).
Proof.
  intros Hi Hirq Hlt Hs E Hp Hh Hph.
  assert (ctx m c = Some s) as Hc by (unfold ctx; by rewrite Hirq).
  destruct (service_ok _ _ _ _ _ _ _ Hi Hc Hlt E) as [(E1 & E2 & E3 & E4 & E5 & E6 & E7) Hown Hoth Hz Hdebt].
  assert (∀ q, phase m d q → phase m' (debt_after d l) q) as Hmono.
  { intros q Hq. destruct q; simpl in *; rewrite ?E2, ?E7; naive_solver. }
  destruct (i_alone _ _ Hi c ltac:(by rewrite Hs)) as [_ Hmask].
  apply (inv_main m d c p m' (debt_after d l)); try done; rewrite ?E1.
  - intros s0 Hs0. split; [|done]. apply Hown. congruence.
  - intros Hh'. rewrite Hh in Hh'. split; [by apply (i_lock _ _ Hi c)|]. intros c' Hne.
    destruct (holds (main m c')) eqn:Eh; [|done]. by pose proof (i_one _ _ Hi c' c Eh Hh').
  - intros c' _. apply (i_lock _ _ Hi c').
  - intros Hip. destruct (i_held _ _ Hi Hip) as [c' Hc']. destruct (decide (c' = c)) as [->|Hne].
    + left. by rewrite Hh.
    + right. by exists c'.
  - auto.
  - apply Hmono, Hph, (i_phase _ _ Hi).
  - intros Hip. apply Hz. by apply (i_free _ _ Hi).
Qed.

Lemma remote_mask_narrow online c : narrow (remote_mask online c).
Proof.
  unfold remote_mask. intros i. destruct (_ <=? _); [by rewrite Z.testbit_0_l|].
  rewrite Z.land_spec. unfold bitnot. rewrite Z.ldiff_spec, Z.testbit_ones_nonneg by lia.
  intros H. bool_cases. lia.
Qed.

(** With no bit outstanding, no service is past its check. *)
Lemma idle_contexts m m' d d' c s : pending m = 0 → good_ctx m d c s → good_ctx m' d' c s.
Proof. intros Hz Hg. destruct s; simpl in *; rewrite ?Hz, ?Z.testbit_0_l in Hg; naive_solver. Qed.

Lemma others_free m d c c' :
  inv m d → holds (main m c) = true → c' ≠ c → holds (main m c') = false.
Proof.
  intros Hi Hc Hne. destruct (holds (main m c')) eqn:E; [|done]. by pose proof (i_one _ _ Hi c' c E Hc).
Qed.

(** The lock holder writes the shared words. *)
Lemma inv_holder m d c p m' d' :
  inv m d → irq m c = None → (c < 64)%nat → holds (main m c) = true →
  main m' = main m ∧ irq m' = irq m ∧ masked m' = masked m →
  (∀ c' s, c' ≠ c → (c' < 64)%nat → good_ctx m d c' s → good_ctx m' d' c' s) →
  servicing p = None → in_progress m' = holds p → phase m' d' p →
  (holds p = false → pending m' = 0) →
  (∀ i, Z.testbit d'.2 (Z.of_nat i) = true → (i < 64)%nat ∧ Z.testbit (pending m') (Z.of_nat i) = true) →
  inv (set_main m' c p) d'.
Proof.
  intros Hi Hirq Hlt Hh Hsame Hctx Hs Hip Hp Hz Hd.
  assert (∀ c', c' ≠ c → holds (main m c') = false) as Hno by (intros; by eapply others_free).
  apply (inv_main m d c p m' d'); try done.
  - by rewrite Hs.
  - intros Hp'. split; [congruence|done].
  - intros c' Hne Hc. rewrite (Hno c' Hne) in Hc. done.
  - intros Hip'. left. congruence.
  - intros c' Hne Hph. specialize (Hno c' Hne). by destruct (main m c').
  - intros Hip'. apply Hz. congruence.
Qed.

Lemma main_step_inv m d c p l m' :
  inv m d → irq m c = None → (c < 64)%nat → main_step m c (main m c) l m' p →
  (servicing p ≠ None → masked m c = true) → inv (set_main m' c p) (debt_after d l).
Proof.
  intros Hi Hirq Hlt Hstep Hmask. pose proof (i_phase _ _ Hi c) as Hph.
  remember (main m c) as q eqn:Eq. symmetry in Eq.
  destruct Hstep; simpl debt_after; simpl in Hph.
  - apply inv_same; rewrite ?Eq; try done. intros s [= <-]. split; [done|]. by apply Hmask.
  - eapply (inv_service m d c s); rewrite ?Eq; done.
  - eapply (inv_service m d c s); rewrite ?Eq; done.
  - apply inv_same; rewrite ?Eq; done.
  - apply inv_same; rewrite ?Eq; try done. subst remote. apply remote_mask_narrow.
  - assert (∀ c', holds (main m c') = false) as Hno.
    { intros c'. destruct (holds (main m c')) eqn:E; [|done]. apply (i_lock _ _ Hi) in E. congruence. }
    apply (inv_main m d c _ (set_in_progress m true) d); try done.
    + intros. by left.
    + simpl. split; [by apply (i_free _ _ Hi)|done].
    + apply (i_debt _ _ Hi).
  - apply inv_same; rewrite ?Eq; try done. intros s [= <-]. split; [done|]. by apply Hmask.
  - eapply (inv_service m d c s); rewrite ?Eq; done.
  - eapply (inv_service m d c s); rewrite ?Eq; done.
  - destruct Hph as [Hz Hr]. apply (inv_holder m d c _ (set_target m t) d); rewrite ?Eq; try done.
    + intros c' s _ _. by apply idle_contexts.
    + simpl. apply (i_lock _ _ Hi c). by rewrite Eq.
    + apply (i_debt _ _ Hi).
  - destruct Hph as (Hz & Ht & Hr). apply (inv_holder m d c _ (set_pending m remote) (t, remote)); rewrite ?Eq; try done.
    + intros c' s _ _. by apply idle_contexts.
    + simpl. apply (i_lock _ _ Hi c). by rewrite Eq.
    + simpl. intros i Hb. split; [by apply Hr|done].
  - apply (inv_holder m d c _ (set_ipi m (λ d0 : nat, if decide (d0 = c) then ipi m d0 else true)) d); rewrite ?Eq; try done.
    + simpl. apply (i_lock _ _ Hi c). by rewrite Eq.
    + apply (i_debt _ _ Hi).
  - apply inv_same; rewrite ?Eq; try done. intros s [= <-]. split; [done|]. by apply Hmask.
  - eapply (inv_service m d c s); rewrite ?Eq; done.
  - eapply (inv_service m d c s); rewrite ?Eq; done.
  - destruct Hph as (Hd & Ht & _). apply inv_same; rewrite ?Eq; done.
  - destruct Hph as [Hz Ht]. apply (inv_holder m d c _ (set_in_progress m false) d); rewrite ?Eq; try done.
    apply (i_debt _ _ Hi).
Qed.

(** Fields no part of the invariant reads. *)
Lemma inv_irq m d c m' d' h :
  inv m d → servicing (main m c) = None →
  in_progress m' = in_progress m ∧ main m' = main m ∧ irq m' = irq m ∧ masked m' = masked m →
  (∀ c' s, c' ≠ c → (c' < 64)%nat → good_ctx m d c' s → good_ctx m' d' c' s) →
  (∀ s, h = Some (HService s) → (c < 64)%nat ∧ good_ctx m' d' c s) →
  (∀ q, phase m d q → phase m' d' q) → (pending m = 0 → pending m' = 0) →
  (∀ i, Z.testbit d'.2 (Z.of_nat i) = true → (i < 64)%nat ∧ Z.testbit (pending m') (Z.of_nat i) = true) →
  inv (set_irq m' c h) d'.
Proof.
  intros Hi Hs (E1 & E2 & E3 & E4) Hctx Hown Hph Hz Hd. destruct Hi as [I1 I2 I3 I4 I5 I6 I7 I8].
  split; simpl; rewrite ?E1, ?E2, ?E4; try done.
  - intros c' s Hc. unfold ctx in Hc. simpl in Hc. rewrite E2, E3 in Hc. unfold upd in Hc.
    destruct (decide (c' = c)) as [->|Hne].
    + destruct h as [[s0|]|]; [|done|congruence]. injection Hc as <-. by apply Hown.
    + destruct (I1 c' s Hc). split; [done|]. by apply Hctx.
  - intros c' Hs'. rewrite E3. unfold upd. destruct (decide (c' = c)) as [->|Hne]; [done|]. by apply I2.
  - intros c'. apply (Hph _ (I6 c')).
  - auto.
Qed.

Lemma tlb_step_inv m l m' d : inv m d → step true m l m' → inv m' (debt_after d l).
Proof.
  intros Hi Hs. destruct Hs as [m c p l m' Hlt Hirq Hms Hdis|m c Hlt Hirq Hm Hipi|m c s m' s' l Hlt Hirq E|m c Hlt Hirq|m c Hirq|m c Hirq Hdis|m c Hlt].
  - eapply main_step_inv; [done..|]. intros. by apply Hdis.
  - assert (servicing (main m c) = None) as Hn.
    { destruct (servicing (main m c)) eqn:E; [|done]. destruct (i_alone _ _ Hi c); congruence. }
    apply (inv_irq m d c); try done; [|apply (i_debt _ _ Hi)]. intros s [= <-]. done.
  - assert (servicing (main m c) = None) as Hn.
    { destruct (servicing (main m c)) eqn:Es; [|done]. destruct (i_alone _ _ Hi c); congruence. }
    assert (ctx m c = Some s) as Hc by (unfold ctx; by rewrite Hirq).
    destruct (service_ok _ _ _ _ _ _ _ Hi Hc Hlt E) as [(E1 & E2 & E3 & E4 & E5 & E6 & E7) Hown Hoth Hz Hdebt].
    apply (inv_irq m d c); try done.
    + intros s0 Hs0. split; [done|]. apply Hown. by destruct s'; simplify_eq.
    + intros q Hq. destruct q; simpl in *; rewrite ?E2, ?E7; naive_solver.
  - assert (servicing (main m c) = None) as Hn.
    { destruct (servicing (main m c)) eqn:Es; [|done]. destruct (i_alone _ _ Hi c); congruence. }
    apply (inv_irq m d c); try done. apply (i_debt _ _ Hi).
  - destruct Hi as [I1 I2 I3 I4 I5 I6 I7 I8]. split; try done. intros c' Hs. destruct (I2 c' Hs) as [? Hmk].
    split; [done|]. simpl. unfold upd. by destruct (decide _).
  - destruct Hi as [I1 I2 I3 I4 I5 I6 I7 I8]. split; try done. intros c' Hs. destruct (I2 c' Hs) as [? Hmk].
    split; [done|]. simpl. unfold upd. destruct (decide _) as [->|]; [|done].
    simpl in Hs. by rewrite (Hdis eq_refl) in Hs.
  - destruct Hi as [I1 I2 I3 I4 I5 I6 I7 I8]. by split.
Qed.

Lemma tlb_run_inv m tr m' d : inv m d → run (step true) m tr m' → inv m' (foldl debt_after d tr).
Proof. intros Hi Hr. revert d Hi. induction Hr; intros d Hi; simpl; [done|]. by eapply IHHr, tlb_step_inv. Qed.

(** ** The trace behind a wait *)

Lemma run_snoc b m tr l m' : run (step b) m (tr ++ [l]) m' → ∃ m1, run (step b) m tr m1 ∧ step b m1 l m'.
Proof.
  revert m. induction tr as [|x tr IH]; intros m Hr; simpl in Hr; inversion Hr as [|? ? m1 ? ? H1 H2]; subst.
  - inversion H2; subst. exists m. split; [constructor|done].
  - destruct (IH m1 H2) as (m2 & Hr2 & Hs). exists m2. split; [|done]. by econstructor.
Qed.

Definition waiting (p : main_pc) : option (Z * Z) :=
  match p with MSend t r | MWait t r | MWaitService t r _ => Some (t, r) | _ => None end.

Definition quiet (tr : list label) : Prop := ∀ c t r, LPublish c t r ∉ tr.

Lemma quiet_snoc tr l : quiet tr → (∀ c t r, l ≠ LPublish c t r) → quiet (tr ++ [l]).
Proof. intros Hq Hl c t r [Hin|Hin%list_elem_of_singleton]%elem_of_app; [by apply (Hq c t r)|by apply (Hl c t r)]. Qed.

(** Who publishes, and what becomes of the main contexts. *)
Lemma step_waiting m l m' c t r :
  step true m l m' → waiting (main m' c) = Some (t, r) →
  l = LPublish c t r ∨
  (waiting (main m c) = Some (t, r) ∧ ∀ c' t' r', l = LPublish c' t' r' → c' ≠ c ∧ holds (main m c') = true).
Proof.
  assert (∀ m c s m' s' l, service m c s = (m', s', l) → main m' = main m ∧ ∀ c' t' r', l ≠ LPublish c' t' r') as Hsv.
  { intros m0 c0 s m1 s' l0 E. destruct s; simpl in E; injection E as <- <- <-; done. }
  intros Hs Hw. destruct Hs as [m c0 p l m' Hlt Hirq Hms Hdis|m c0 Hlt Hirq Hm Hipi|m c0 s m' s' l Hlt Hirq E|m c0 Hlt Hirq|m c0 Hirq|m c0 Hirq Hdis|m c0 Hlt];
    try (by right); [|right; destruct (Hsv _ _ _ _ _ _ E) as [E1 E2]; simpl in Hw; rewrite E1 in Hw;
      split; [done|]; intros c' t' r' ->; by destruct (E2 c' t' r')].
  simpl in Hw. assert (main m' = main m) as Em.
  { by destruct Hms as [|s m' s' l E|s m' l E| | | | |t0 remote s m' s' l E|t0 remote s m' l E| | | | |t0 remote s m' s' l E|t0 remote s m' l E| |];
      try done; destruct (Hsv _ _ _ _ _ _ E). }
  rewrite Em in Hw. unfold upd in Hw. destruct (decide (c = c0)) as [->|Hne].
  - remember (main m c0) as q eqn:Eq.
    destruct Hms as [|s m' s' l E|s m' l E| | | | |t0 remote s m' s' l E|t0 remote s m' l E| | | | |t0 remote s m' s' l E|t0 remote s m' l E| |];
      simpl in Hw; try done; simplify_eq;
      try (left; done); right; (split; [first [done | by rewrite <- Eq]|]); intros c' t' r' El;
      try done; by destruct (Hsv _ _ _ _ _ _ E) as [_ E2]; destruct (E2 c' t' r').
  - right. split; [done|]. intros c' t' r' ->.
    remember (main m c0) as q eqn:Eq.
    inversion Hms as [|s m1 s' l E|s m1 l E| | | | |t0 remote s m1 s' l E|t0 remote s m1 l E| | | | |t0 remote s m1 s' l E|t0 remote s m1 l E| |]; subst;
      try (by destruct (Hsv _ _ _ _ _ _ E) as [_ E2]; destruct (E2 c' t' r')).
    split; [done|]. match goal with H : MPending _ _ = main m c' |- _ => by rewrite <- H end.
Qed.

Lemma published tr m c t r :
  run (step true) init tr m → waiting (main m c) = Some (t, r) →
  ∃ tr1 tr2, tr = tr1 ++ LPublish c t r :: tr2 ∧ quiet tr2.
Proof.
  revert m. induction tr as [|l tr IH] using rev_ind; intros m Hr Hw.
  { inversion Hr; subst. done. }
  apply run_snoc in Hr as (m1 & Hr & Hs). pose proof (tlb_run_inv _ _ _ _ inv_init Hr) as Hi.
  destruct (step_waiting _ _ _ _ _ _ Hs Hw) as [->|[Hw1 Hl]].
  - exists tr, []. split; [done|]. intros c' t' r' Hin. by apply elem_of_nil in Hin.
  - destruct (IH m1 Hr Hw1) as (tr1 & tr2 & -> & Hq). exists tr1, (tr2 ++ [l]).
    split; [by rewrite <- app_assoc|]. apply quiet_snoc; [done|]. intros c' t' r' ->.
    destruct (Hl c' t' r' eq_refl) as [Hne Hh]. apply Hne. eapply (i_one _ _ Hi); [done|].
    by destruct (main m1 c).
Qed.

(** A bit of the debt goes only by its processor's invalidation. *)
Lemma debt_paid tr t r c :
  quiet tr → Z.testbit r (Z.of_nat c) = true → (c < 64)%nat →
  Z.testbit (foldl debt_after (t, r) tr).2 (Z.of_nat c) = false →
  ∃ t', LInvalidate c t' ∈ tr ∧ covers t' t = true.
Proof.
  revert r. induction tr as [|l tr IH]; intros r Hq Hb Hlt Hz; simpl in Hz; [congruence|].
  assert (quiet tr) as Hq' by (intros c' t' r' Hin; apply (Hq c' t' r'); by right).
  assert (∀ r', foldl debt_after (t, r') tr = foldl debt_after (debt_after (t, r) l) tr →
    Z.testbit r' (Z.of_nat c) = true → ∃ t', LInvalidate c t' ∈ l :: tr ∧ covers t' t = true) as Hgo.
  { intros r' E Hb'. destruct (IH r' Hq' Hb' Hlt) as (t' & Hin & Hc); [by rewrite E|].
    exists t'. split; [by right|done]. }
  destruct l as [c' t' r'|c' t'|c' t'|c']; simpl in *.
  - destruct (Hq c' t' r'). left.
  - destruct (covers t' t) eqn:Ec; [|by apply (Hgo r)].
    destruct (decide (c' = c)) as [->|Hne]; [exists t'; split; [left|done]|].
    apply (Hgo _ eq_refl). rewrite clear_bit, Hb, (proj2 (Nat.ltb_lt c 64)), (proj2 (Nat.eqb_neq c c')) by done. done.
  - by apply (Hgo r).
  - by apply (Hgo r).
Qed.

(** ** The theorems *)

(** C35: when servicing runs with interrupts masked, a shootdown that stops
    waiting was published, nothing was published after it, and every
    processor in its mask has since invalidated a target that covers it. *)
Theorem shootdown_waits_for_every_flush tr m c t :
  run (step true) init (tr ++ [LReturn c t]) m →
  ∃ tr1 remote tr2, tr = tr1 ++ LPublish c t remote :: tr2 ∧ quiet tr2 ∧
    ∀ c', Z.testbit remote (Z.of_nat c') = true → ∃ t', LInvalidate c' t' ∈ tr2 ∧ covers t' t = true.
Proof.
  intros (m1 & Hr & Hs)%run_snoc. pose proof (tlb_run_inv _ _ _ _ inv_init Hr) as Hi.
  assert (∃ r, main m1 c = MWait t r ∧ pending m1 = 0) as (r & Hm & Hz).
  { inversion Hs as [m2 c0 p l m' Hlt Hirq Hms Hdis| |m2 c0 s m' s' l Hlt Hirq E| | | |]; subst.
    - remember (main m1 c0) as q eqn:Eq. inversion Hms; subst; try (destruct s; simpl in *; simplify_eq).
      exists remote. done.
    - destruct s; simpl in E; simplify_eq. }
  destruct (published tr m1 c t r Hr) as (tr1 & tr2 & -> & Hq); [by rewrite Hm|].
  exists tr1, r, tr2. split; [done|]. split; [done|]. intros c' Hb.
  assert (∀ i, Z.testbit (foldl debt_after (t, r) tr2).2 (Z.of_nat i) = false) as Hnone.
  { intros i. pose proof (i_debt _ _ Hi i) as Hd. rewrite foldl_app in Hd. simpl in Hd.
    destruct (Z.testbit (foldl debt_after (t, r) tr2).2 (Z.of_nat i)); [|done].
    destruct (Hd eq_refl) as [_ Hp]. by rewrite Hz, Z.testbit_0_l in Hp. }
  pose proof (i_phase _ _ Hi c) as Hph. rewrite Hm in Hph. destruct Hph as (_ & _ & Hnarrow).
  eapply debt_paid; [done|done|by apply Hnarrow|apply Hnone].
Qed.

(** Running a service to its end from a main context. *)
Lemma service_runs m c wrap back s k :
  (c < 64)%nat → irq m c = None → masked m c = true → main m c = wrap s →
  (∀ s, servicing (wrap s) = Some s) → servicing back = None →
  (∀ m s m' s' l, service m c s = (m', Some s', l) → main_step m c (wrap s) l m' (wrap s')) →
  (∀ m s m' l, service m c s = (m', None, l) → main_step m c (wrap s) l m' back) →
  (match s with SLoad => 5 | STarget => 4 | SInvalidate _ => 3 | SCount => 2 | SClear => 1 end ≤ k)%nat →
  ∃ tr m', run (step true) m tr m' ∧ (length tr ≤ k)%nat ∧ main m' c = back ∧
    Z.testbit (pending m') (Z.of_nat c) = false ∧ (∀ d, d ≠ c → main m' d = main m d) ∧
    in_progress m' = in_progress m.
Proof.
  intros Hlt Hirq Hmask Hm Hw Hback Hnext Hend Hk. revert m s Hirq Hmask Hm Hk.
  induction k as [|k IH]; intros m s Hirq Hmask Hm Hk; [destruct s; lia|].
  destruct (service m c s) as [[m' s'] l] eqn:E.
  assert (irq m' c = None ∧ masked m' c = true ∧ main m' = main m ∧ in_progress m' = in_progress m) as (E1 & E2 & E3 & E4).
  { destruct s; simpl in E; injection E as <- <- <-; done. }
  destruct s' as [s'|].
  - assert (step true m l (set_main m' c (wrap s'))) as Hs.
    { apply st_main; [done|done| |done]. rewrite Hm. by apply Hnext. }
    destruct (IH (set_main m' c (wrap s')) s') as (tr & m2 & Hr & Hlen & H1 & H2 & H3 & H4); try done.
    { simpl. apply upd_same. }
    { destruct s; simpl in E; repeat case_match; simplify_eq; simpl; lia. }
    exists (l :: tr), m2. split; [by econstructor|]. split; [simpl; lia|]. split; [done|]. split; [done|].
    split; [|by rewrite H4]. intros d Hd. rewrite H3 by done. simpl. rewrite E3. by apply upd_other.
  - exists [l], (set_main m' c back). split.
    { eapply run_cons; [|constructor]. apply st_main; [done|done| |by rewrite Hback]. rewrite Hm. by apply Hend. }
    split; [simpl; lia|]. split; [simpl; apply upd_same|]. split.
    + destruct s; simpl in E; simplify_eq; simpl.
      * rewrite land_bit in *. destruct (Z.testbit (pending m') (Z.of_nat c)); [done|done].
      * rewrite clear_bit, Nat.eqb_refl. by rewrite andb_false_r.
    + split; [|done]. intros d Hd. simpl. rewrite E3. by apply upd_other.
Qed.

(** a processor deaf to the IPI still answers: spinning for the
    shootdown flag or for a lock with interrupts masked, its own next six
    steps at most acknowledge whatever is outstanding for it and bring it
    back to its spin, whatever the other processors are doing. *)
Theorem masked_spinner_acknowledges m c p :
  (c < 64)%nat → irq m c = None → masked m c = true →
  main m c = p → (p = MIdle ∨ ∃ t r, p = MAcquire t r) →
  ∃ tr m', run (step true) m tr m' ∧ (length tr ≤ 6)%nat ∧ main m' c = p ∧
    Z.testbit (pending m') (Z.of_nat c) = false ∧ ∀ d, d ≠ c → main m' d = main m d.
Proof.
  intros Hlt Hirq Hmask Hm Hp.
  assert (∃ wrap, (∀ s, servicing (wrap s) = Some s) ∧ main_step m c p (LTau c) m (wrap SLoad) ∧
    (∀ m s m' s' l, service m c s = (m', Some s', l) → main_step m c (wrap s) l m' (wrap s')) ∧
    (∀ m s m' l, service m c s = (m', None, l) → main_step m c (wrap s) l m' p) ∧ servicing p = None)
    as (wrap & Hw & H0 & Hnext & Hend & Hback).
  { destruct Hp as [->|(t & r & ->)]; [exists MPoll|exists (MAcquireService t r)];
      (split; [done|]); (split; [constructor|]); split_and!; try done; by constructor. }
  assert (step true m (LTau c) (set_main m c (wrap SLoad))) as Hs.
  { apply st_main; [done|done| |done]. by rewrite Hm. }
  destruct (service_runs (set_main m c (wrap SLoad)) c wrap p SLoad 5) as (tr & m' & Hr & Hlen & H1 & H2 & H3 & _); try done.
  { simpl. apply upd_same. }
  exists (LTau c :: tr), m'. split; [by econstructor|]. split; [simpl; lia|]. split; [done|]. split; [done|].
  intros d Hd. rewrite H3 by done. simpl. by apply upd_other.
Qed.

(** ** A service interrupted by the handler *)

(** The same steps as a function, for a scheduler that names the processor
    to move next. *)
Inductive action :=
  | AOnline (c : nat) | AShootdown (c : nat) (t : Z) | AMain (c : nat) | AInterrupt (c : nat)
  | AHandler (c : nat).

Definition exec_main (m : machine) (c : nat) : option (label * machine * main_pc) :=
  match main m c with
  | MIdle => None
  | MPoll s =>
      let '(m', s', l) := service m c s in
      Some (l, m', match s' with Some s' => MPoll s' | None => MIdle end)
  | MAcquire t r =>
      if in_progress m then Some (LTau c, m, MAcquireService t r SLoad)
      else Some (LTau c, set_in_progress m true, MTarget t r)
  | MAcquireService t r s =>
      let '(m', s', l) := service m c s in
      Some (l, m', match s' with Some s' => MAcquireService t r s' | None => MAcquire t r end)
  | MTarget t r => Some (LTau c, set_target m t, MPending t r)
  | MPending t r => Some (LPublish c t r, set_pending m r, MSend t r)
  | MSend t r => Some (LTau c, set_ipi m (λ d, if decide (d = c) then ipi m d else true), MWait t r)
  | MWait t r =>
      if pending m =? 0 then Some (LReturn c t, m, MRelease t r)
      else Some (LTau c, m, MWaitService t r SLoad)
  | MWaitService t r s =>
      let '(m', s', l) := service m c s in
      Some (l, m', match s' with Some s' => MWaitService t r s' | None => MWait t r end)
  | MRelease t r => Some (LTau c, set_in_progress m false, MIdle)
  end.

Lemma exec_main_sound m c l m' p : exec_main m c = Some (l, m', p) → main_step m c (main m c) l m' p.
Proof.
  unfold exec_main. intros E. destruct (main m c); try done.
  all: try (destruct (service m c s) as [[m1 [s1|]] l1] eqn:Es; simplify_eq; by constructor).
  - destruct (in_progress m) eqn:Ep; simplify_eq; by constructor.
  - simplify_eq. constructor.
  - simplify_eq. constructor.
  - simplify_eq. constructor.
  - destruct (Z.eqb_spec (pending m) 0); simplify_eq; by constructor.
  - simplify_eq. constructor.
Qed.

Definition exec (disciplined : bool) (m : machine) (a : action) : option (label * machine) :=
  match a with
  | AOnline c => if (c <? 64)%nat then Some (LTau c, set_online m (Z.lor (online m) (bit c))) else None
  | AShootdown c t =>
      match irq m c, main m c with
      | None, MIdle =>
          let r := remote_mask (online m) (Z.of_nat c) in
          if (c <? 64)%nat && fitsb 64 t && negb (r =? 0)
          then Some (LTau c, set_main m c (MAcquire t r)) else None
      | _, _ => None
      end
  | AMain c =>
      match irq m c with
      | None => if (c <? 64)%nat then
                  '(l, m', p) ← exec_main m c;
                  if disciplined && negb (masked m c) && bool_decide (servicing p ≠ None) then None
                  else Some (l, set_main m' c p)
                else None
      | _ => None
      end
  | AInterrupt c =>
      match irq m c with
      | None => if (c <? 64)%nat && negb (masked m c) && ipi m c
                then Some (LTau c, set_irq (set_ipi m (upd (ipi m) c false)) c (Some (HService SLoad)))
                else None
      | _ => None
      end
  | AHandler c =>
      if (c <? 64)%nat then
        match irq m c with
        | Some (HService s) =>
            let '(m', s', l) := service m c s in
            Some (l, set_irq m' c (Some (match s' with Some s' => HService s' | None => HEoi end)))
        | Some HEoi => Some (LTau c, set_irq m c None)
        | None => None
        end
      else None
  end.

Lemma exec_sound b m a l m' : exec b m a = Some (l, m') → step b m l m'.
Proof.
  destruct a as [c|c t|c|c|c]; simpl; intros E.
  - destruct (Nat.ltb_spec c 64); simplify_eq. by constructor.
  - destruct (irq m c) eqn:Ei; [done|]. destruct (main m c) eqn:Em; try done.
    destruct (_ && _ && _) eqn:Eg; [|done]. unfold fitsb in Eg. bool_cases. simplify_eq.
    apply st_main; [by apply Nat.ltb_lt|done| |done]. rewrite Em. by constructor.
  - destruct (irq m c) eqn:Ei; [done|]. destruct (Nat.ltb_spec c 64); [|done].
    destruct (exec_main m c) as [[[l1 m1] p]|] eqn:Ee; simpl in E; [|done].
    destruct (b && negb (masked m c) && bool_decide (servicing p ≠ None)) eqn:Eg; simplify_eq.
    apply st_main; [done|done|by apply exec_main_sound|]. intros -> Hs.
    rewrite bool_decide_eq_true_2 in Eg by done. by destruct (masked m c).
  - destruct (irq m c) eqn:Ei; [done|]. destruct (_ && _ && _) eqn:Eg; [|done]. bool_cases. simplify_eq.
    apply st_interrupt; [by apply Nat.ltb_lt|done..].
  - destruct (Nat.ltb_spec c 64); [|done]. destruct (irq m c) as [[s|]|] eqn:Ei; [| |done].
    + destruct (service m c s) as [[m1 s1] l1] eqn:Es. simplify_eq. by eapply st_handler.
    + simplify_eq. by apply st_eoi.
Qed.

Fixpoint exec_all (b : bool) (m : machine) (l : list action) : option (list label * machine) :=
  match l with
  | [] => Some ([], m)
  | a :: l => '(x, m) ← exec b m a; '(xs, m) ← exec_all b m l; Some (x :: xs, m)
  end.

Lemma exec_all_sound b l m xs m' : exec_all b m l = Some (xs, m') → run (step b) m xs m'.
Proof.
  revert m xs. induction l as [|a l IH]; intros m xs E; simpl in E; [simplify_eq; constructor|].
  destruct (exec b m a) as [[x m1]|] eqn:Ea; simpl in E; [|done].
  destruct (exec_all b m1 l) as [[xs1 m2]|] eqn:El; simplify_eq/=.
  econstructor; [by eapply exec_sound|by apply IH].
Qed.

Definition whole_handler (c : nat) : list action := AInterrupt c :: replicate 5 (AHandler c).
Definition nested_schedule : list action :=
  [AOnline 0; AOnline 1; AOnline 2] ++
  AShootdown 0 4096 :: replicate 4 (AMain 0) ++
  AShootdown 1 12288 :: replicate 3 (AMain 1) ++
  whole_handler 1 ++ whole_handler 2 ++ [AHandler 2] ++
  [AMain 0; AMain 0] ++
  AShootdown 2 8192 :: replicate 3 (AMain 2) ++
  [AHandler 1; AMain 1; AMain 1; AMain 1] ++
  [AMain 2] ++ whole_handler 0 ++ [AMain 2].

Definition nested_labels : list label :=
  [LTau 0; LTau 1; LTau 2] ++
  [LTau 0; LTau 0; LTau 0; LPublish 0 4096 6; LTau 0] ++
  [LTau 1; LTau 1; LTau 1; LTau 1] ++
  [LTau 1; LTau 1; LTau 1; LInvalidate 1 4096; LTau 1; LTau 1] ++
  [LTau 2; LTau 2; LTau 2; LInvalidate 2 4096; LTau 2; LTau 2; LTau 2] ++
  [LReturn 0 4096; LTau 0] ++
  [LTau 2; LTau 2; LTau 2; LPublish 2 8192 3] ++
  [LTau 1; LInvalidate 1 4096; LTau 1; LTau 1] ++
  [LTau 2] ++
  [LTau 0; LTau 0; LTau 0; LInvalidate 0 8192; LTau 0; LTau 0].

Lemma nested_run : ∃ m, run (step false) init (nested_labels ++ [LReturn 2 8192]) m.
Proof.
  assert (fst <$> exec_all false init nested_schedule = Some (nested_labels ++ [LReturn 2 8192])) as E
    by (vm_compute; reflexivity).
  apply fmap_Some in E as ([ls m] & E & ->). exists m. by eapply exec_all_sound.
Qed.

(** with interrupts enabled the servicing is not idempotent. Processor
    1, spinning in [shootdown], loads processor 0's target; its own IPI
    handler answers for it; processor 0 finishes and processor 2 publishes a
    new target; processor 1 resumes, invalidates the old target and clears
    the bit of the new request. Processor 2 returns and processor 1 has
    never invalidated what it asked for. *)
Theorem nested_service_skips_a_flush :
  ∃ tr m, run (step false) init (tr ++ [LReturn 2 8192]) m ∧
    LPublish 2 8192 3 ∈ tr ∧ (∀ t, LInvalidate 1 t ∈ tr → covers t 8192 = false) ∧ debt tr = (8192, 2).
Proof.
  destruct nested_run as [m Hr]. exists nested_labels, m. split; [exact Hr|].
  split; [by apply (bool_decide_unpack _); vm_compute|]. split; [|by vm_compute].
  intros t Ht. unfold nested_labels in Ht. simpl in Ht.
  repeat (apply elem_of_cons in Ht as [Ht|Ht]; [simplify_eq; done|]). by apply elem_of_nil in Ht.
Qed.

(** *** Instances *)

(** Two processors; the second answers from its handler. *)
Definition plain_schedule : list action :=
  [AOnline 0; AOnline 1; AShootdown 0 4096] ++ replicate 4 (AMain 0) ++ whole_handler 1 ++ [AMain 0].
Definition plain_labels : list label :=
  [LTau 0; LTau 1; LTau 0; LTau 0; LTau 0; LPublish 0 4096 2; LTau 0] ++
  [LTau 1; LTau 1; LTau 1; LInvalidate 1 4096; LTau 1; LTau 1].

Lemma plain_run : ∃ m, run (step true) init (plain_labels ++ [LReturn 0 4096]) m.
Proof.
  assert (fst <$> exec_all true init plain_schedule = Some (plain_labels ++ [LReturn 0 4096])) as E
    by (vm_compute; reflexivity).
  apply fmap_Some in E as ([ls m] & E & ->). exists m. by eapply exec_all_sound.
Qed.

Lemma shootdown_waits_for_every_flush_witness :
  ∃ tr1 remote tr2, plain_labels = tr1 ++ LPublish 0 4096 remote :: tr2 ∧ quiet tr2.
Proof.
  destruct plain_run as [m Hr].
  destruct (shootdown_waits_for_every_flush plain_labels m 0 4096 Hr) as (tr1 & r & tr2 & E & Hq & _).
  by exists tr1, r, tr2.
Defined.

(** Processor 1 owes an acknowledgement and is masked in the acquire loop. *)
Definition deaf : machine :=
  set_main (set_pending (set_in_progress (set_masked init (λ _, true)) true) 2) 1 (MAcquire 8192 1).

Lemma masked_spinner_acknowledges_witness :
  Z.testbit (pending deaf) 1 = true ∧
  ∃ tr m', run (step true) deaf tr m' ∧ Z.testbit (pending m') (Z.of_nat 1) = false.
Proof.
  split; [done|].
  destruct (masked_spinner_acknowledges deaf 1 (MAcquire 8192 1)) as (tr & m' & Hr & _ & _ & Hb & _).
  - lia.
  - done.
  - done.
  - done.
  - right. by exists 8192, 1.
  - by exists tr, m'.
Defined.

End Tlb.
