(* ===== verification/Vercmp.v ===== *)
(** Package version ordering: [qpkg/src/vercmp.rs].

    Strings are their bytes.  The segment loop consumes a byte of each side
    per turn, so the length of one side bounds its turns; running out of turns
    and [unreachable!()] are both [Panic], and neither happens. *)
From S2P Require Import Prelude Bits.
From Stdlib Require Import Strings.Byte.

Module Vercmp.

(** ** The code *)

Definition str := list byte.

Definition between (lo hi : Z) (b : byte) : bool := (lo <=? b2z b) && (b2z b <=? hi).
Definition is_ascii_digit : byte → bool := between 48 57.
Definition is_ascii_alphabetic (b : byte) : bool := between 65 90 b || between 97 122 b.
Definition is_ascii_alphanumeric (b : byte) : bool := is_ascii_digit b || is_ascii_alphabetic b.

(** [Ord] on byte slices, and [Ordering::then_with]. *)
Fixpoint cmp_bytes (a b : str) : comparison :=
  match a, b with
  | [], [] => Eq
  | [], _ :: _ => Lt
  | _ :: _, [] => Gt
  | x :: a', y :: b' =>
      match b2z x ?= b2z y with Eq => cmp_bytes a' b' | o => o end
  end.
Definition then_with (o o' : comparison) : comparison := match o with Eq => o' | _ => o end.

(** [take_run], [trim_zeros], [cmp_numeric]. *)
Fixpoint take_run (p : byte → bool) (s : str) : str * str :=
  match s with
  | [] => ([], [])
  | c :: s' => if p c then let '(r, t) := take_run p s' in (c :: r, t) else ([], s)
  end.
Fixpoint trim_zeros (s : str) : str :=
  match s with
  | c :: s' => if b2z c =? 48 then trim_zeros s' else s
  | [] => []
  end.
Definition cmp_numeric (a b : str) : comparison :=
  let a := trim_zeros a in
  let b := trim_zeros b in
  then_with (Z.of_nat (length a) ?= Z.of_nat (length b)) (cmp_bytes a b).

(** The separators skipped at the top of a turn. *)
Fixpoint skip_separators (s : str) : str :=
  match s with
  | c :: s' => if is_ascii_alphanumeric c then s else skip_separators s'
  | [] => []
  end.

(** [cmp_segments]: the loop, which returns an order or what is left of the
    two sides, and the showdown. *)
Fixpoint segment_loop (fuel : nat) (x y : str) : option (comparison + str * str) :=
  match fuel with
  | O => None
  | S fuel' =>
      if match x, y with [], _ | _, [] => true | _, _ => false end then Some (inr (x, y)) else
      let x := skip_separators x in
      let y := skip_separators y in
      match x, y with
      | cx :: _, cy :: _ =>
          if is_ascii_digit cx then
            if negb (is_ascii_digit cy) then Some (inl Gt) else
            let '(xs, xr) := take_run is_ascii_digit x in
            let '(ys, yr) := take_run is_ascii_digit y in
            match cmp_numeric xs ys with Eq => segment_loop fuel' xr yr | o => Some (inl o) end
          else
            if is_ascii_digit cy then Some (inl Lt) else
            let '(xs, xr) := take_run is_ascii_alphabetic x in
            let '(ys, yr) := take_run is_ascii_alphabetic y in
            match cmp_bytes xs ys with Eq => segment_loop fuel' xr yr | o => Some (inl o) end
      | _, _ => Some (inr (x, y))
      end
  end.
Definition showdown (x y : str) : outcome comparison :=
  match x, y with
  | [], [] => Ret Eq
  | c :: _, [] => Ret (if is_ascii_alphabetic c then Lt else Gt)
  | [], c :: _ => Ret (if is_ascii_alphabetic c then Gt else Lt)
  | _, _ => Panic
  end.
Definition cmp_segments (a b : str) : outcome comparison :=
  match segment_loop (S (length a)) a b with
  | None => Panic
  | Some (inl o) => Ret o
  | Some (inr (x, y)) => showdown x y
  end.

(** [split]: [find] and [rfind], then the two cuts. *)
Definition is_byte (z : Z) (b : byte) : bool := b2z b =? z.
Definition rposition (p : byte → bool) (s : str) : option nat :=
  (λ i, (length s - 1 - i)%nat) <$> position p (rev s).
Definition split (v : str) : str * str * option str :=
  let '(epoch, rest) :=
    match position (is_byte 58) v with
    | Some i => if (0 <? i)%nat && forallb is_ascii_digit (take i v) then (take i v, drop (S i) v) else ([x30], v)
    | None => ([x30], v)
    end in
  match rposition (is_byte 45) rest with
  | Some i => (epoch, take i rest, Some (drop (S i) rest))
  | None => (epoch, rest, None)
  end.

(** [vercmp]. *)
Definition vercmp (a b : str) : outcome comparison :=
  let '(ae, av, ar) := split a in
  let '(be, bv, br) := split b in
  match cmp_numeric ae be with
  | Eq =>
      o ← cmp_segments av bv;
      match o, ar, br with
      | Eq, Some x, Some y => cmp_segments x y
      | o, _, _ => Ret o
      end
  | o => Ret o
  end.

(** ** Antisymmetry and totality *)

Lemma cmp_bytes_opp a b : cmp_bytes b a = CompOpp (cmp_bytes a b).
Proof.
  revert b. induction a as [|x a IH]; intros [|y b]; simpl; [done..|].
  rewrite (Z.compare_antisym (b2z x) (b2z y)). destruct (b2z x ?= b2z y); simpl; auto.
Qed.
Lemma cmp_bytes_refl a : cmp_bytes a a = Eq.
Proof. induction a as [|x a IH]; simpl; [done|]. by rewrite Z.compare_refl. Qed.
Lemma cmp_numeric_opp a b : cmp_numeric b a = CompOpp (cmp_numeric a b).
Proof.
  unfold cmp_numeric, then_with. rewrite (Z.compare_antisym (Z.of_nat (length (trim_zeros a)))).
  destruct (_ ?= _); simpl; [apply cmp_bytes_opp|done|done].
Qed.
Lemma cmp_numeric_refl a : cmp_numeric a a = Eq.
Proof. unfold cmp_numeric. rewrite Z.compare_refl. apply cmp_bytes_refl. Qed.

Lemma skip_separators_head s c t : skip_separators s = c :: t → is_ascii_alphanumeric c = true ∧ (length (c :: t) ≤ length s)%nat.
Proof.
  induction s as [|x s IH]; simpl; [done|]. destruct (is_ascii_alphanumeric x) eqn:E.
  - intros [= <- <-]. done.
  - intros H. destruct (IH H) as [? ?]. split; [done|]. simpl in *. lia.
Qed.

Lemma take_run_length p s : (length (take_run p s).2 ≤ length s)%nat.
Proof. induction s as [|c s IH]; simpl; [done|]. destruct (p c); [|done]. destruct (take_run p s). simpl in *. lia. Qed.

Lemma take_run_progress p c s : p c = true → (length (take_run p (c :: s)).2 < length (c :: s))%nat.
Proof.
  intros Hc. simpl. rewrite Hc. pose proof (take_run_length p s). destruct (take_run p s). simpl in *. lia.
Qed.

Lemma alpha_not_digit c : is_ascii_alphanumeric c = true → is_ascii_digit c = false → is_ascii_alphabetic c = true.
Proof. unfold is_ascii_alphanumeric. intros H Hd. by rewrite Hd in H. Qed.

Definition swap_left (r : comparison + str * str) : comparison + str * str :=
  match r with inl o => inl (CompOpp o) | inr (x, y) => inr (y, x) end.

(** The loop ends within its turns, with one side empty, and swapping the
    sides swaps the result. *)
Lemma segment_loop_ok fuel x y :
  (length x < fuel)%nat →
  ∃ r, segment_loop fuel x y = Some r ∧ (∀ fuel', (length y < fuel')%nat → segment_loop fuel' y x = Some (swap_left r)) ∧
    ∀ x' y', r = inr (x', y') → x' = [] ∨ y' = [].
Proof.
  revert x y. induction fuel as [|fuel IH]; intros x y Hlen; [lia|]. cbn [segment_loop].
  destruct x as [|x0 xt]; [exists (inr ([], y)); split; [done|]; split; [|naive_solver]|].
  { intros [|f'] Hf; [lia|]. simpl. by destruct y. }
  destruct y as [|y0 yt]; [exists (inr (x0 :: xt, [])); split; [done|]; split; [|naive_solver]|].
  { intros [|f'] Hf; [lia|]. done. }
  destruct (skip_separators (x0 :: xt)) as [|cx x'] eqn:Ex.
  { exists (inr ([], skip_separators (y0 :: yt))). split; [done|]. split; [|naive_solver].
    intros [|f'] Hf; [lia|]. cbn [segment_loop]. rewrite Ex. by destruct (skip_separators (y0 :: yt)). }
  destruct (skip_separators (y0 :: yt)) as [|cy y'] eqn:Ey.
  { exists (inr (cx :: x', [])). split; [done|]. split; [|naive_solver].
    intros [|f'] Hf; [lia|]. cbn [segment_loop]. rewrite Ex, Ey. done. }
  destruct (skip_separators_head _ _ _ Ex) as [Hcx Hlx], (skip_separators_head _ _ _ Ey) as [Hcy Hly].
  assert (∀ p (cmp : str → str → comparison), (∀ a b, cmp b a = CompOpp (cmp a b)) → p cx = true → p cy = true →
    ∃ r, (let '(xs, xr) := take_run p (cx :: x') in let '(ys, yr) := take_run p (cy :: y') in
          match cmp xs ys with Eq => segment_loop fuel xr yr | o => Some (inl o) end) = Some r ∧
      (∀ f', (length (y0 :: yt) < S f')%nat →
         (let '(xs, xr) := take_run p (cy :: y') in let '(ys, yr) := take_run p (cx :: x') in
          match cmp xs ys with Eq => segment_loop f' xr yr | o => Some (inl o) end) = Some (swap_left r)) ∧
      ∀ a b, r = inr (a, b) → a = [] ∨ b = []) as Hrun.
  { intros p cmp Hopp Hpx Hpy. pose proof (take_run_progress p cx x' Hpx) as Px.
    pose proof (take_run_progress p cy y' Hpy) as Py.
    destruct (take_run p (cx :: x')) as [xs xr], (take_run p (cy :: y')) as [ys yr].
    cbn [snd] in Px, Py. destruct (IH xr yr) as (r & Hr & Hsw & Hend); [simpl in *; lia|].
    pose proof (Hopp xs ys) as Ho. destruct (cmp xs ys); cbn [CompOpp] in Ho.
    - exists r. split; [done|]. split; [|done]. intros f' Hf. rewrite Ho. apply Hsw. simpl in *. lia.
    - exists (inl Lt). split; [done|]. split; [|done]. intros f' Hf. by rewrite Ho.
    - exists (inl Gt). split; [done|]. split; [|done]. intros f' Hf. by rewrite Ho. }
  destruct (is_ascii_digit cx) eqn:Dx, (is_ascii_digit cy) eqn:Dy; cbn [negb].
  - destruct (Hrun is_ascii_digit cmp_numeric cmp_numeric_opp Dx Dy) as (r & Hr & Hsw & Hend).
    exists r. split; [done|]. split; [|done]. intros [|f'] Hf; [lia|]. cbn [segment_loop]. rewrite Ex, Ey, Dx, Dy. by apply Hsw.
  - exists (inl Gt). split; [done|]. split; [|done]. intros [|f'] Hf; [lia|]. cbn [segment_loop]. by rewrite Ex, Ey, Dy, Dx.
  - exists (inl Lt). split; [done|]. split; [|done]. intros [|f'] Hf; [lia|]. cbn [segment_loop]. by rewrite Ex, Ey, Dy, Dx.
  - destruct (Hrun is_ascii_alphabetic cmp_bytes cmp_bytes_opp) as (r & Hr & Hsw & Hend); [by apply alpha_not_digit..|].
    exists r. split; [done|]. split; [|done]. intros [|f'] Hf; [lia|]. cbn [segment_loop]. rewrite Ex, Ey, Dx, Dy. by apply Hsw.
Qed.

Lemma showdown_ok x y : x = [] ∨ y = [] → ∃ o, showdown x y = Ret o ∧ showdown y x = Ret (CompOpp o).
Proof.
  intros H. destruct x as [|c x], y as [|d y]; simpl; [by exists Eq|..].
  - exists (if is_ascii_alphabetic d then Gt else Lt). by destruct (is_ascii_alphabetic d).
  - exists (if is_ascii_alphabetic c then Lt else Gt). by destruct (is_ascii_alphabetic c).
  - naive_solver.
Qed.

Lemma cmp_segments_ok a b : ∃ o, cmp_segments a b = Ret o ∧ cmp_segments b a = Ret (CompOpp o).
Proof.
  unfold cmp_segments. destruct (segment_loop_ok (S (length a)) a b ltac:(lia)) as (r & -> & Hsw & Hend).
  rewrite (Hsw (S (length b)) ltac:(lia)). destruct r as [o|[x y]]; simpl; [by exists o|].
  apply showdown_ok, Hend. done.
Qed.

(** [vercmp] returns on every pair of strings, and the order of a pair
    is the opposite of the order of the swapped pair. *)
Theorem vercmp_is_total_and_antisymmetric a b :
  ∃ o, vercmp a b = Ret o ∧ vercmp b a = Ret (CompOpp o).
Proof.
  unfold vercmp. destruct (split a) as [[ae av] ar], (split b) as [[be bv] br].
  rewrite (cmp_numeric_opp ae be). destruct (cmp_numeric ae be); cbn [CompOpp]; [|by exists Lt|by exists Gt].
  destruct (cmp_segments_ok av bv) as (o & -> & ->). cbn [mbind outcome_bind].
  destruct o; cbn [CompOpp]; [|by exists Lt|by exists Gt].
  destruct ar as [x|], br as [y|]; try by exists Eq. apply cmp_segments_ok.
Qed.

(** ** Numbers *)

Definition digit (c : byte) : Z := b2z c - 48.
Fixpoint value (s : str) : Z :=
  match s with [] => 0 | c :: s' => digit c * 10 ^ Z.of_nat (length s') + value s' end.

Lemma digit_range c : is_ascii_digit c = true → 0 ≤ digit c ≤ 9.
Proof. unfold is_ascii_digit, between, digit. intros H. bool_cases. lia. Qed.

Lemma pow10_succ n : 10 ^ Z.of_nat (S n) = 10 * 10 ^ Z.of_nat n.
Proof. rewrite Nat2Z.inj_succ, Z.pow_succ_r by lia. done. Qed.

Lemma pow10_pos n : 0 < 10 ^ Z.of_nat n.
Proof. apply Z.pow_pos_nonneg; lia. Qed.

Lemma value_range s : forallb is_ascii_digit s = true → 0 ≤ value s < 10 ^ Z.of_nat (length s).
Proof.
  induction s as [|c s IH]; [done|]. intros H. apply andb_prop in H as [Hc Hs]. specialize (IH Hs).
  apply digit_range in Hc. cbn [value length]. rewrite pow10_succ. nia.
Qed.

Lemma trim_zeros_value s : forallb is_ascii_digit s = true →
  value (trim_zeros s) = value s ∧ forallb is_ascii_digit (trim_zeros s) = true ∧
  (trim_zeros s = [] ∨ 10 ^ (Z.of_nat (length (trim_zeros s)) - 1) ≤ value s).
Proof.
  induction s as [|c s IH]; intros H; [by auto|]. pose proof H as H'. apply andb_prop in H as [Hc Hs].
  cbn [trim_zeros]. destruct (Z.eqb_spec (b2z c) 48) as [E|Hne].
  - destruct (IH Hs) as (-> & ? & ?). cbn [value]. unfold digit. rewrite E. auto.
  - split; [done|]. split; [done|]. right. cbn [value length].
    replace (Z.of_nat (S (length s)) - 1) with (Z.of_nat (length s)) by lia.
    pose proof (value_range s Hs). pose proof (digit_range c Hc). unfold digit in *.
    pose proof (pow10_pos (length s)). nia.
Qed.

Lemma cmp_bytes_value a b :
  forallb is_ascii_digit a = true → forallb is_ascii_digit b = true → length a = length b →
  cmp_bytes a b = (value a ?= value b).
Proof.
  revert b. induction a as [|x a IH]; intros [|y b] Ha Hb Hlen; try done. injection Hlen as Hlen.
  apply andb_prop in Ha as [Hx Ha], Hb as [Hy Hb]. cbn [cmp_bytes value]. rewrite <- Hlen.
  pose proof (value_range a Ha). pose proof (value_range b Hb) as Hvb. rewrite <- Hlen in Hvb.
  pose proof (pow10_pos (length a)). unfold digit. rewrite (IH b Ha Hb Hlen).
  destruct (Z.compare_spec (b2z x) (b2z y)) as [E|E|E]; symmetry.
  - rewrite E. apply Z.add_compare_mono_l.
  - apply Z.compare_lt_iff. nia.
  - apply Z.compare_gt_iff. nia.
Qed.

(** On digit strings of any length, leading zeros included, the
    comparison of runs is the comparison of the numbers they write: no
    width, no overflow. *)
Theorem cmp_numeric_is_numeric a b :
  forallb is_ascii_digit a = true → forallb is_ascii_digit b = true →
  cmp_numeric a b = (value a ?= value b).
Proof.
  intros Ha Hb. destruct (trim_zeros_value a Ha) as (Va & Da & La), (trim_zeros_value b Hb) as (Vb & Db & Lb).
  pose proof (value_range _ Da) as Ra. pose proof (value_range _ Db) as Rb. rewrite Va in Ra. rewrite Vb in Rb.
  unfold cmp_numeric, then_with. set (a' := trim_zeros a) in *. set (b' := trim_zeros b) in *.
  assert (∀ n m : nat, (n < m)%nat → 10 ^ Z.of_nat n ≤ 10 ^ (Z.of_nat m - 1)) as Hpow
    by (intros n m Hnm; apply Z.pow_le_mono_r; lia).
  destruct (Z.compare_spec (Z.of_nat (length a')) (Z.of_nat (length b'))) as [E|E|E].
  - rewrite <- Va, <- Vb. apply cmp_bytes_value; [done|done|lia].
  - symmetry. apply Z.compare_lt_iff. pose proof (Hpow (length a') (length b') ltac:(lia)).
    destruct Lb as [Lb|Lb]; [rewrite Lb in E; simpl in E; lia|lia].
  - symmetry. apply Z.compare_gt_iff. pose proof (Hpow (length b') (length a') ltac:(lia)).
    destruct La as [La|La]; [rewrite La in E; simpl in E; lia|lia].
Qed.

Lemma cmp_numeric_is_numeric_witness : cmp_numeric [x30; x31; x30] [x39] = Gt.
Proof. rewrite (cmp_numeric_is_numeric [x30; x31; x30] [x39]); [by vm_compute|by vm_compute|by vm_compute]. Defined.

(** ** Trailers *)

(** A run cannot continue from [e] into [c]. *)
Definition boundary (e c : byte) : bool :=
  is_ascii_alphanumeric e && negb (is_ascii_digit e && is_ascii_digit c) &&
  negb (is_ascii_alphabetic e && is_ascii_alphabetic c).

Lemma skip_separators_app v s e :
  last v = Some e → is_ascii_alphanumeric e = true →
  skip_separators (v ++ s) = skip_separators v ++ s ∧ last (skip_separators v) = Some e.
Proof.
  intros Hl He. induction v as [|c v IH]; [done|]. simpl.
  destruct (is_ascii_alphanumeric c) eqn:Ec; [done|]. destruct v as [|d v].
  - simpl in Hl. injection Hl as ->. congruence.
  - by apply IH.
Qed.

Lemma take_run_app p v s e c :
  last v = Some e → (p e && p c) = false →
  take_run p (v ++ c :: s) = ((take_run p v).1, (take_run p v).2 ++ c :: s) ∧
  ((take_run p v).2 = [] ∨ last (take_run p v).2 = Some e).
Proof.
  revert e. induction v as [|d v IH]; intros e Hl Hp; [done|]. cbn [app take_run].
  destruct (p d) eqn:Ed; [|cbn [fst snd]; split; [done|by right]].
  destruct v as [|d' v].
  - simpl in Hl. injection Hl as ->. rewrite Ed in Hp. simpl in Hp. simpl. rewrite Hp. split; [done|by left].
  - destruct (IH e Hl Hp) as [E Hr]. rewrite E. destruct (take_run p (d' :: v)) as [r t]. simpl in *. done.
Qed.

Lemma segment_loop_trailer fuel v s e c :
  (length v < fuel)%nat → last v = Some e → boundary e c = true →
  segment_loop fuel (v ++ c :: s) v = Some (inr (c :: s, [])).
Proof.
  revert v. induction fuel as [|fuel IH]; intros v Hlen Hl Hb; [lia|].
  unfold boundary in Hb. bool_cases.
  destruct (skip_separators_app v (c :: s) e Hl ltac:(done)) as [Esk Hls].
  destruct v as [|v0 vt]; [done|]. cbn [segment_loop]. cbn [app]. rewrite app_comm_cons, Esk.
  destruct (skip_separators (v0 :: vt)) as [|cx x'] eqn:Ev; [done|].
  destruct (skip_separators_head _ _ _ Ev) as [Hcx Hlx]. cbn [app].
  assert (∀ p (cmp : str → str → comparison), p cx = true → (p e && p c) = false → (∀ a, cmp a a = Eq) →
    (let '(xs, xr) := take_run p ((cx :: x') ++ c :: s) in
     let '(ys, yr) := take_run p (cx :: x') in
     match cmp xs ys with Eq => segment_loop fuel xr yr | o => Some (inl o) end) = Some (inr (c :: s, []))) as Hgo.
  { intros p cmp Hcx' Hp Hrefl. destruct (take_run_app p (cx :: x') s e c Hls Hp) as [-> Hr].
    pose proof (take_run_progress p cx x' Hcx') as Hprog. destruct (take_run p (cx :: x')) as [xs xr]. cbn [fst snd] in *.
    rewrite Hrefl. destruct Hr as [->|Hr].
    - destruct fuel as [|fuel]; [simpl in *; lia|]. done.
    - apply IH; [simpl in *; lia|done|]. unfold boundary. repeat (apply andb_true_iff; split); try done; apply negb_true_iff; done. }
  destruct (is_ascii_digit cx) eqn:Dx; cbn [negb].
  - apply (Hgo is_ascii_digit cmp_numeric); [done|done|apply cmp_numeric_refl].
  - apply (Hgo is_ascii_alphabetic cmp_bytes); [by apply alpha_not_digit|done|apply cmp_bytes_refl].
Qed.

(** A trailer that starts a new segment ages its version when it is
    attached and alphabetic, and advances it in every other case. *)
Theorem trailer_rule v e c s :
  last v = Some e → boundary e c = true →
  cmp_segments (v ++ c :: s) v = Ret (if is_ascii_alphabetic c then Lt else Gt).
Proof.
  intros Hl Hb. unfold cmp_segments. rewrite (segment_loop_trailer _ v s e c); [done| |done|done].
  rewrite length_app. simpl. lia.
Qed.

(** [1.0rc] and [1.0.1] against [1.0]. *)
Lemma trailer_rule_witness :
  cmp_segments ([x31; x2e; x30] ++ x72 :: [x63]) [x31; x2e; x30] = Ret Lt ∧
  cmp_segments ([x31; x2e; x30] ++ x2e :: [x31]) [x31; x2e; x30] = Ret Gt.
Proof.
  split.
  - rewrite (trailer_rule [x31; x2e; x30] x30 x72 [x63]); [by vm_compute|done|by vm_compute].
  - rewrite (trailer_rule [x31; x2e; x30] x30 x2e [x31]); [by vm_compute|done|by vm_compute].
Defined.

(** The order is not transitive: [1.0a] is older than [1.0], which is
    older than [1.0.a], and yet [1.0a] and [1.0.a] compare equal. *)
Theorem vercmp_is_not_transitive :
  let a := [x31; x2e; x30; x61] in let b := [x31; x2e; x30] in let c := [x31; x2e; x30; x2e; x61] in
  vercmp a b = Ret Lt ∧ vercmp b c = Ret Lt ∧ vercmp a c = Ret Eq.
Proof. by vm_compute. Qed.

End Vercmp.
