(* ===== verification/BCache.v ===== *)
(** The buffer cache's bookkeeping: [crates/qunix-bcache/src/lib.rs].

    A fixed table of slots; a slot names a block, says whether its buffer
    matches the device, and counts the references held to it.  The table
    holds no data: [KBCache] puts it between the kernel's clients and the
    device. *)
From S2P Require Import Prelude Bits.

Record BlockKey := mkKey { dev : Z; block : Z }.

Inductive SlotState := Free | Clean | Dirty | InFlight.

Record Slot := mkSlot
  { key : BlockKey; state : SlotState; pins : Z; dirtied_during_io : bool }.

Inductive InsertError := AlreadyResident (slot : nat) | Full.

Record IoToken := mkToken { token_slot : nat; prior : SlotState }.

Inductive EvictError := EvDirty | IoOutstanding | Pinned.

#[export] Instance BlockKey_eq_dec : EqDecision BlockKey.
Proof. solve_decision. Defined.
#[export] Instance SlotState_eq_dec : EqDecision SlotState.
Proof. solve_decision. Defined.
#[export] Instance Slot_eq_dec : EqDecision Slot.
Proof. solve_decision. Defined.
#[export] Instance IoToken_eq_dec : EqDecision IoToken.
Proof. solve_decision. Defined.

(** [Slot::empty]. *)
Definition empty_slot : Slot := mkSlot (mkKey 0 0) Free 0 false.

(** [reusable]. *)
Definition reusable (s : Slot) : bool :=
  match state s with Free | Clean => true | _ => false end && (pins s =? 0).

(** [Cache<N>]: the array of [N] slots. *)
Abbreviation Cache := (list Slot).

Definition new (N : nat) : Cache := replicate N empty_slot.

(** [Cache::lookup]. *)
Definition is_hit (k : BlockKey) (s : Slot) : bool :=
  bool_decide (state s ≠ Free) && bool_decide (key s = k).
Definition lookup (c : Cache) (k : BlockKey) : option nat := position (is_hit k) c.

Definition is_free (s : Slot) : bool := bool_decide (state s = Free).

(** [Cache::insert]. *)
Definition insert (c : Cache) (k : BlockKey) : outcome (result IoToken InsertError * Cache) :=
  match lookup c k with
  | Some slot => Ret (Err (AlreadyResident slot), c)
  | None =>
      match position is_free c with
      | None => Ret (Err Full, c)
      | Some i =>
          c' ← set_index c (Z.of_nat i) (mkSlot k InFlight 0 false);
          Ret (Ok (mkToken i Free), c')
      end
  end.

(** [Cache::key_of], [Cache::state_of], [Cache::pins_of]. *)
Definition key_of (c : Cache) (slot : nat) : option BlockKey :=
  match c !! slot with
  | Some s => if bool_decide (state s ≠ Free) then Some (key s) else None
  | None => None
  end.
Definition state_of (c : Cache) (slot : nat) : option SlotState := state <$> c !! slot.
Definition pins_of (c : Cache) (slot : nat) : option Z := pins <$> c !! slot.

Definition with_state (s : Slot) (st : SlotState) : Slot :=
  mkSlot (key s) st (pins s) (dirtied_during_io s).
Definition with_pins (s : Slot) (p : Z) : Slot :=
  mkSlot (key s) (state s) p (dirtied_during_io s).
Definition with_dirtied (s : Slot) (b : bool) : Slot :=
  mkSlot (key s) (state s) (pins s) b.

(** [let slot = &mut self.slots[slot]; ...]: runs [f] on one slot. *)
Definition update (c : Cache) (slot : nat) (f : Slot → outcome Slot) : outcome Cache :=
  s ← index c (Z.of_nat slot);
  s' ← f s;
  set_index c (Z.of_nat slot) s'.

(** [Cache::mark_dirty]. *)
Definition mark_dirty (c : Cache) (slot : nat) : outcome Cache :=
  update c slot (λ s,
    _ ← rust_assert (bool_decide (state s ≠ Free));
    if bool_decide (state s = InFlight) then Ret (with_dirtied s true)
    else Ret (with_state s Dirty)).

Definition resident_idle (s : Slot) : bool :=
  match state s with Clean | Dirty => true | _ => false end.

(** [Cache::mark_clean]. *)
Definition mark_clean (c : Cache) (slot : nat) : outcome Cache :=
  update c slot (λ s,
    _ ← rust_assert (resident_idle s);
    Ret (with_state s Clean)).

(** [Cache::begin_io]. *)
Definition begin_io (c : Cache) (slot : nat) : outcome (IoToken * Cache) :=
  s ← index c (Z.of_nat slot);
  _ ← rust_assert (resident_idle s);
  c' ← set_index c (Z.of_nat slot) (with_state s InFlight);
  Ret (mkToken slot (state s), c').

(** [Cache::end_io]. *)
Definition end_io (c : Cache) (token : IoToken) (st : SlotState) : outcome Cache :=
  _ ← rust_assert (bool_decide (st ≠ Free));
  update c (token_slot token) (λ s,
    _ ← rust_assert (bool_decide (state s = InFlight));
    Ret (with_state (with_dirtied s false)
           (if dirtied_during_io s then Dirty else st))).

(** [Cache::force_end_io]. *)
Definition force_end_io (c : Cache) (slot : nat) (st : SlotState) : outcome Cache :=
  end_io c (mkToken slot Clean) st.

(** [Cache::pin] and [Cache::unpin]; [pins] is a [u32]. *)
Definition pin (c : Cache) (slot : nat) : outcome Cache :=
  update c slot (λ s,
    _ ← rust_assert (bool_decide (state s ≠ Free));
    p ← add_chk 32 (pins s) 1;
    Ret (with_pins s p)).
Definition unpin (c : Cache) (slot : nat) : outcome Cache :=
  update c slot (λ s,
    _ ← rust_assert (0 <? pins s);
    p ← sub_chk (pins s) 1;
    Ret (with_pins s p)).

(** [Cache::victim]. *)
Definition victim (c : Cache) : option nat :=
  match position is_free c with
  | Some i => Some i
  | None => position reusable c
  end.

(** [Cache::evict]; the [debug_assert!] is on in the dev profile. *)
Definition evict (c : Cache) (slot : nat) : outcome (result unit EvictError * Cache) :=
  s ← index c (Z.of_nat slot);
  if negb (pins s =? 0) then Ret (Err Pinned, c)
  else match state s with
  | Dirty => Ret (Err EvDirty, c)
  | InFlight => Ret (Err IoOutstanding, c)
  | Free | Clean =>
      _ ← rust_assert (reusable s);
      c' ← set_index c (Z.of_nat slot) empty_slot;
      Ret (Ok tt, c')
  end.

(** [Cache::dirty_slots]. *)
Fixpoint dirty_from (i : nat) (c : Cache) : list nat :=
  match c with
  | [] => []
  | s :: c' =>
      if bool_decide (state s = Dirty) then i :: dirty_from (S i) c' else dirty_from (S i) c'
  end.
Definition dirty_slots (c : Cache) : list nat := dirty_from 0 c.

(** ** The table invariant *)

(** A block occupies at most one slot; a free slot is unreferenced; a
    mid-flight write is recorded only while an I/O is in flight. *)
Definition slot_ok (s : Slot) : Prop :=
  (state s = Free → pins s = 0) ∧
  (dirtied_during_io s = true → state s = InFlight) ∧
  0 ≤ pins s < 2 ^ 32.

Record wf (c : Cache) : Prop := {
  wf_slots : Forall slot_ok c;
  wf_unique : ∀ i j si sj, c !! i = Some si → c !! j = Some sj →
    state si ≠ Free → state sj ≠ Free → key si = key sj → i = j
}.

(** ** Lemmas *)

Lemma update_ret c slot f c' :
  update c slot f = Ret c' ↔
  ∃ s s', c !! slot = Some s ∧ f s = Ret s' ∧ c' = <[slot := s']> c.
Proof.
  unfold update. split.
  - intros (s & [_ Hs]%index_ret & (s' & Hf & [_ ->]%set_index_ret)%bind_ret_inv)%bind_ret_inv.
    rewrite Nat2Z.id in *. eauto.
  - intros (s & s' & Hs & Hf & ->).
    rewrite (index_ok _ _ s) by (lia || by rewrite Nat2Z.id). simpl. rewrite Hf. simpl.
    rewrite set_index_ok; [by rewrite Nat2Z.id|].
    apply lookup_lt_Some in Hs. lia.
Qed.

Lemma is_hit_spec k s : is_hit k s = true ↔ state s ≠ Free ∧ key s = k.
Proof. unfold is_hit. by rewrite andb_true_iff, !bool_decide_eq_true. Qed.

Lemma lookup_Some c k i :
  wf c → lookup c k = Some i ↔
  ∃ s, c !! i = Some s ∧ state s ≠ Free ∧ key s = k.
Proof.
  intros Hwf. unfold lookup. split.
  - intros (s & Hs & [? ?]%is_hit_spec & _)%position_Some. eauto.
  - intros (s & Hs & Hf & Hk). eapply position_unique; [done|by apply is_hit_spec|].
    intros j y Hy [Hyf Hyk]%is_hit_spec. eapply (wf_unique c Hwf); eauto; congruence.
Qed.

Lemma lookup_None c k :
  lookup c k = None ↔ ∀ i s, c !! i = Some s → state s ≠ Free → key s ≠ k.
Proof.
  unfold lookup. rewrite position_None. split.
  - intros H i s Hs Hf Hk. specialize (H i s Hs).
    assert (is_hit k s = true) by by apply is_hit_spec. congruence.
  - intros H i s Hs. apply not_true_iff_false. intros [Hf Hk]%is_hit_spec. by eapply H.
Qed.

(** Replacing a slot keeps the table well formed when the new slot is, and
    either is free or keeps the key of an occupied slot, or brings a key
    that was not resident. *)
Lemma wf_insert c i s s' :
  wf c → c !! i = Some s → slot_ok s' →
  (state s' ≠ Free → (state s ≠ Free ∧ key s' = key s) ∨ lookup c (key s') = None) →
  wf (<[i := s']> c).
Proof.
  intros [Hs Hu] Hi Hok Hkey. split.
  - by apply Forall_insert.
  - assert (∀ j sj, j ≠ i → c !! j = Some sj → state sj ≠ Free → state s' ≠ Free →
              key sj = key s' → False) as Hnew.
    { intros j sj Hne Hj Hf Hf' Hk. destruct (Hkey Hf') as [[Hsf Hks]|Hnone].
      - apply Hne. eapply Hu; eauto. congruence.
      - rewrite lookup_None in Hnone. by eapply Hnone. }
    intros a b sa sb Ha Hb Hfa Hfb Hk.
    destruct (decide (a = i)) as [->|]; destruct (decide (b = i)) as [->|]; [done|..].
    + rewrite list_lookup_insert_ne in Hb by done.
      rewrite list_lookup_insert_eq in Ha by by eapply lookup_lt_Some.
      injection Ha as <-. exfalso. by eapply (Hnew b sb).
    + rewrite list_lookup_insert_ne in Ha by done.
      rewrite list_lookup_insert_eq in Hb by by eapply lookup_lt_Some.
      injection Hb as <-. exfalso. by eapply (Hnew a sa).
    + rewrite list_lookup_insert_ne in Ha, Hb by done. by eapply Hu.
Qed.

Lemma wf_slot_ok c i s : wf c → c !! i = Some s → slot_ok s.
Proof. intros [Hs _] Hi. by eapply Forall_lookup_1. Qed.

Lemma cache_new_wf N : wf (new N).
Proof.
  split.
  - apply Forall_replicate. repeat split; done.
  - intros i j si sj [-> _]%lookup_replicate_1. done.
Qed.

(** An update that keeps a slot's key and occupancy. *)
Lemma update_wf c slot f c' :
  wf c → update c slot f = Ret c' →
  (∀ s s', slot_ok s → f s = Ret s' →
     slot_ok s' ∧ key s' = key s ∧ (state s' ≠ Free → state s ≠ Free)) →
  wf c'.
Proof.
  intros Hwf (s & s' & Hs & Hf & ->)%update_ret Hpres.
  destruct (Hpres s s') as (Hok & Hk & Hst); [by eapply wf_slot_ok|done|].
  eapply wf_insert; eauto.
Qed.

(** ** What each call does *)

Lemma insert_spec c k :
  insert c k =
    match lookup c k, position is_free c with
    | Some i, _ => Ret (Err (AlreadyResident i), c)
    | None, None => Ret (Err Full, c)
    | None, Some i => Ret (Ok (mkToken i Free), <[i := mkSlot k InFlight 0 false]> c)
    end.
Proof.
  unfold insert. destruct (lookup c k); [done|].
  destruct (position is_free c) as [i|] eqn:E; [|done].
  apply position_lt in E. rewrite set_index_ok by lia. simpl. by rewrite Nat2Z.id.
Qed.

Lemma begin_io_ret c slot t c' :
  begin_io c slot = Ret (t, c') ↔
  ∃ s, c !! slot = Some s ∧ resident_idle s = true ∧
       t = mkToken slot (state s) ∧ c' = <[slot := with_state s InFlight]> c.
Proof.
  unfold begin_io. split.
  - intros (s & [_ Hs]%index_ret & (u & Hu%rust_assert_ret &
      (c1 & [_ ->]%set_index_ret & [= <- <-])%bind_ret_inv)%bind_ret_inv)%bind_ret_inv.
    rewrite Nat2Z.id in *. eauto.
  - intros (s & Hs & Hr & -> & ->).
    rewrite (index_ok _ _ s) by (lia || by rewrite Nat2Z.id). simpl. rewrite Hr. simpl.
    rewrite set_index_ok; [simpl; by rewrite Nat2Z.id|]. apply lookup_lt_Some in Hs. lia.
Qed.

Lemma end_io_ret c t st c' :
  end_io c t st = Ret c' ↔
  st ≠ Free ∧ ∃ s, c !! token_slot t = Some s ∧ state s = InFlight ∧
    c' = <[token_slot t :=
            mkSlot (key s) (if dirtied_during_io s then Dirty else st) (pins s) false]> c.
Proof.
  unfold end_io. split.
  - intros (u & Hu%rust_assert_ret & (s & s' & Hs & Hf & ->)%update_ret)%bind_ret_inv.
    apply bind_ret_inv in Hf as (u' & Hu'%rust_assert_ret & [= <-]). bool_cases.
    split; [done|]. exists s. done.
  - intros (Hst & s & Hs & Hi & ->). rewrite bool_decide_eq_true_2 by done. simpl.
    apply update_ret. eexists s, _. split; [done|].
    rewrite bool_decide_eq_true_2 by done. done.
Qed.

Lemma mark_dirty_ret c slot c' :
  mark_dirty c slot = Ret c' ↔
  ∃ s, c !! slot = Some s ∧ state s ≠ Free ∧
    c' = <[slot := if decide (state s = InFlight) then with_dirtied s true
                   else with_state s Dirty]> c.
Proof.
  unfold mark_dirty. rewrite update_ret. split.
  - intros (s & s' & Hs & Hf & ->). exists s.
    apply bind_ret_inv in Hf as (u & Hu%rust_assert_ret & Hf). bool_cases.
    split; [done|]. split; [done|]. f_equal.
    case_bool_decide; case_decide; congruence.
  - intros (s & Hs & Hf & ->). eexists s, _. split; [done|].
    rewrite (bool_decide_eq_true_2 (state s ≠ Free)) by done. simpl.
    split; [|reflexivity]. case_bool_decide; case_decide; done.
Qed.

Lemma pin_ret c slot c' :
  pin c slot = Ret c' ↔
  ∃ s, c !! slot = Some s ∧ state s ≠ Free ∧ pins s + 1 < 2 ^ 32 ∧
    c' = <[slot := with_pins s (pins s + 1)]> c.
Proof.
  unfold pin. rewrite update_ret. split.
  - intros (s & s' & Hs & Hf & ->). exists s.
    apply bind_ret_inv in Hf as (u & Hu%rust_assert_ret & Hf).
    apply bind_ret_inv in Hf as (p & [-> Hp]%add_chk_ret & [= <-]). bool_cases. done.
  - intros (s & Hs & Hf & Hp & ->). eexists s, _. split; [done|].
    rewrite bool_decide_eq_true_2 by done. simpl. by rewrite add_chk_ok.
Qed.

Lemma unpin_ret c slot c' :
  unpin c slot = Ret c' ↔
  ∃ s, c !! slot = Some s ∧ 0 < pins s ∧ c' = <[slot := with_pins s (pins s - 1)]> c.
Proof.
  unfold unpin. rewrite update_ret. split.
  - intros (s & s' & Hs & Hf & ->). exists s.
    apply bind_ret_inv in Hf as (u & Hu%rust_assert_ret & Hf).
    apply bind_ret_inv in Hf as (p & [-> Hp]%sub_chk_ret & [= <-]). bool_cases. done.
  - intros (s & Hs & Hp & ->). eexists s, _. split; [done|].
    rewrite (proj2 (Z.ltb_lt 0 (pins s))) by done. simpl. by rewrite sub_chk_ok by lia.
Qed.

Lemma reusable_spec s :
  reusable s = true ↔ (state s = Free ∨ state s = Clean) ∧ pins s = 0.
Proof.
  unfold reusable. rewrite andb_true_iff, Z.eqb_eq. destruct (state s); naive_solver.
Qed.

Lemma evict_spec c slot s :
  c !! slot = Some s →
  evict c slot =
    if negb (pins s =? 0) then Ret (Err Pinned, c)
    else match state s with
    | Dirty => Ret (Err EvDirty, c)
    | InFlight => Ret (Err IoOutstanding, c)
    | Free | Clean => Ret (Ok tt, <[slot := empty_slot]> c)
    end.
Proof.
  intros Hs. unfold evict.
  rewrite (index_ok _ _ s) by (lia || by rewrite Nat2Z.id). cbn [mbind outcome_bind].
  destruct (Z.eqb_spec (pins s) 0) as [Hp|]; [|done]. cbn [negb].
  pose proof (lookup_lt_Some _ _ _ Hs).
  destruct (state s) eqn:E; [|..|]; try done.
  all: rewrite (proj2 (reusable_spec s)) by (split; [tauto|done]); simpl.
  all: rewrite set_index_ok by lia; simpl; by rewrite Nat2Z.id.
Qed.

(** ** Every mutator preserves the invariant *)

Inductive call :=
  | CInsert (k : BlockKey) | CMarkDirty (i : nat) | CMarkClean (i : nat)
  | CBeginIo (i : nat) | CEndIo (t : IoToken) (st : SlotState)
  | CForceEndIo (i : nat) (st : SlotState)
  | CPin (i : nat) | CUnpin (i : nat) | CEvict (i : nat).

Definition exec_call (c : Cache) (o : call) : outcome Cache :=
  match o with
  | CInsert k => snd <$> insert c k
  | CMarkDirty i => mark_dirty c i
  | CMarkClean i => mark_clean c i
  | CBeginIo i => snd <$> begin_io c i
  | CEndIo t st => end_io c t st
  | CForceEndIo i st => force_end_io c i st
  | CPin i => pin c i
  | CUnpin i => unpin c i
  | CEvict i => snd <$> evict c i
  end.

Lemma fmap_snd_ret {A} (m : outcome (A * Cache)) c' :
  snd <$> m = Ret c' → ∃ a, m = Ret (a, c').
Proof. destruct m as [[a c]|]; simpl; [intros [= <-]; eauto|done]. Qed.

Lemma insert_wf c k r c' : wf c → insert c k = Ret (r, c') → wf c'.
Proof.
  intros Hwf. rewrite insert_spec.
  destruct (lookup c k) eqn:El; [by intros [= _ <-]|].
  destruct (position is_free c) as [i|] eqn:Ep; [|by intros [= _ <-]].
  intros [= _ <-]. apply position_Some in Ep as (s & Hs & _).
  eapply wf_insert; [done..| |right; done].
  unfold slot_ok; simpl. repeat split; try done; lia.
Qed.

Lemma end_io_wf c t st c' : wf c → end_io c t st = Ret c' → wf c'.
Proof.
  intros Hwf (Hst & s & Hs & Hi & ->)%end_io_ret.
  destruct (wf_slot_ok _ _ _ Hwf Hs) as (_ & _ & Hp).
  eapply wf_insert; [done|done| |].
  - unfold slot_ok; simpl. split; [|done]. by destruct (dirtied_during_io s).
  - intros _. left. split; [by rewrite Hi|done].
Qed.

Lemma begin_io_wf c i t c' : wf c → begin_io c i = Ret (t, c') → wf c'.
Proof.
  intros Hwf (s & Hs & Hr & -> & ->)%begin_io_ret.
  destruct (wf_slot_ok _ _ _ Hwf Hs) as (_ & _ & Hp).
  eapply wf_insert; [done|done|done|].
  intros _. left. split; [|done]. unfold resident_idle in Hr. by destruct (state s).
Qed.

Lemma evict_wf c i r c' : wf c → evict c i = Ret (r, c') → wf c'.
Proof.
  intros Hwf He. destruct (c !! i) as [s|] eqn:Hs.
  - rewrite (evict_spec c i s Hs) in He.
    destruct (negb (pins s =? 0)); [by injection He as _ <-|].
    destruct (state s); injection He as _ <-; try done.
    all: eapply wf_insert; [done|done| |done]; unfold slot_ok; simpl; repeat split; done.
  - unfold evict in He. apply bind_ret_inv in He as (s & [_ Hs']%index_ret & _).
    rewrite Nat2Z.id in Hs'. congruence.
Qed.

Lemma exec_call_wf c o c' : wf c → exec_call c o = Ret c' → wf c'.
Proof.
  intros Hwf. destruct o; cbn [exec_call].
  - intros (r & H)%fmap_snd_ret. by eapply insert_wf.
  - intros (s & Hs & Hf & ->)%mark_dirty_ret.
    destruct (wf_slot_ok _ _ _ Hwf Hs) as (_ & Hd & Hp).
    case_decide as Hi.
    + eapply wf_insert; [done|done| |by left]. unfold slot_ok; simpl. done.
    + eapply wf_insert; [done|done| |by left]. unfold slot_ok; simpl.
      split; [done|]. split; [|done]. intros H. by apply Hd in H.
  - intros H. eapply update_wf; [done|exact H|].
    intros s s' (_ & Hd & Hp) Hf.
    apply bind_ret_inv in Hf as (u & Hu%rust_assert_ret & [= <-]).
    unfold resident_idle in Hu. unfold slot_ok; simpl.
    split; [|split; [done|by destruct (state s)]]. split; [done|]. split; [|done].
    intros H'%Hd. by rewrite H' in Hu.
  - intros (r & H)%fmap_snd_ret. by eapply begin_io_wf.
  - apply end_io_wf, Hwf.
  - apply end_io_wf, Hwf.
  - intros (s & Hs & Hf & Hp & ->)%pin_ret.
    destruct (wf_slot_ok _ _ _ Hwf Hs) as (_ & Hd & Hp').
    eapply wf_insert; [done|done| |by left]. unfold slot_ok; simpl.
    split; [done|]. split; [done|lia].
  - intros (s & Hs & Hp & ->)%unpin_ret.
    destruct (wf_slot_ok _ _ _ Hwf Hs) as (Hf & Hd & Hp').
    eapply wf_insert; [done|done| |by left]. unfold slot_ok; simpl.
    split; [intros H; apply Hf in H; lia|]. split; [done|lia].
  - intros (r & H)%fmap_snd_ret. by eapply evict_wf.
Qed.

Fixpoint exec_calls (c : Cache) (os : list call) : outcome Cache :=
  match os with
  | [] => Ret c
  | o :: os' => c' ← exec_call c o; exec_calls c' os'
  end.

Lemma exec_calls_wf c os c' : wf c → exec_calls c os = Ret c' → wf c'.
Proof.
  revert c. induction os as [|o os IH]; intros c Hwf; simpl; [by intros [= <-]|].
  intros (c1 & H1 & H2)%bind_ret_inv. eapply IH; [|done]. by eapply exec_call_wf.
Qed.

(** A lookup for another key does not see a slot change. *)
Lemma lookup_insert_other c i s s' k :
  c !! i = Some s → is_hit k s = false → is_hit k s' = false →
  lookup (<[i := s']> c) k = lookup c k.
Proof.
  unfold lookup. revert i. induction c as [|x c IH]; intros i Hs H H'; [done|].
  destruct i as [|i]; simpl in Hs |- *.
  - injection Hs as ->. by rewrite H, H'.
  - by rewrite IH.
Qed.

Lemma is_hit_false k s : is_hit k s = false ↔ state s = Free ∨ key s ≠ k.
Proof.
  unfold is_hit. rewrite andb_false_iff, !bool_decide_eq_false.
  destruct (decide (state s = Free)); naive_solver.
Qed.

Lemma dirty_from_spec i c j :
  j ∈ dirty_from i c ↔ ∃ n s, j = (i + n)%nat ∧ c !! n = Some s ∧ state s = Dirty.
Proof.
  revert i. induction c as [|x c IH]; intros i; simpl.
  - split; [by intros ?%elem_of_nil|naive_solver].
  - assert (j ∈ dirty_from (S i) c ↔
      ∃ n s, j = (i + n)%nat ∧ (0 < n)%nat ∧ (x :: c) !! n = Some s ∧ state s = Dirty) as Hrest.
    { rewrite IH. split.
      - intros (n & s & -> & Hs & Hd). exists (S n), s. split; [lia|]. split; [lia|done].
      - intros ([|n] & s & -> & Hn & Hs & Hd); [lia|]. exists n, s. split; [lia|done]. }
    case_bool_decide as Hd; [rewrite elem_of_cons|]; rewrite Hrest; split.
    + intros [->|(n & s & ? & _ & ?)]; [|naive_solver].
      exists 0%nat, x. split; [lia|done].
    + intros ([|n] & s & -> & Hs & Hs'); [left; lia|].
      right. exists (S n), s. split; [done|]. split; [lia|done].
    + intros (n & s & ? & _ & ?). naive_solver.
    + intros ([|n] & s & -> & Hs & Hs'); [naive_solver|].
      exists (S n), s. split; [done|]. split; [lia|done].
Qed.

Lemma dirty_slots_spec c j :
  j ∈ dirty_slots c ↔ state_of c j = Some Dirty.
Proof.
  unfold dirty_slots, state_of. rewrite dirty_from_spec, fmap_Some. naive_solver.
Qed.

(** The invariant, as a test. *)
Definition slot_okb (s : Slot) : bool :=
  implb (is_free s) (pins s =? 0) &&
  implb (dirtied_during_io s) (bool_decide (state s = InFlight)) && fitsb 32 (pins s).
Definition wfb (c : Cache) : bool :=
  forallb slot_okb c &&
  bool_decide (NoDup (key <$> filter (λ s, state s ≠ Free) c)).

Lemma filter_NoDup_inj {A B} (f : A → B) (P : A → Prop) `{∀ x, Decision (P x)} l i j x y :
  NoDup (f <$> filter P l) → l !! i = Some x → l !! j = Some y → P x → P y → f x = f y → i = j.
Proof.
  revert i j. induction l as [|a l IH]; intros i j Hnd Hi Hj Hx Hy Hf; [done|].
  assert (∀ z n, l !! n = Some z → P z → P a → f z = f a → False) as Hhead.
  { intros z n Hz HPz HPa Hfz. rewrite filter_cons_True in Hnd by done.
    apply NoDup_cons in Hnd as [Hnotin _]. apply Hnotin. rewrite <- Hfz.
    apply list_elem_of_fmap_2, list_elem_of_filter. split; [done|].
    by eapply list_elem_of_lookup_2. }
  assert (NoDup (f <$> filter P l)) as Hnd'.
  { destruct (decide (P a)); [rewrite filter_cons_True in Hnd by done|
      by rewrite filter_cons_False in Hnd by done].
    by apply NoDup_cons in Hnd as [_ ?]. }
  destruct i as [|i], j as [|j]; simpl in Hi, Hj; simplify_eq; [done|..].
  - exfalso. by eapply (Hhead y).
  - exfalso. by eapply (Hhead x).
  - f_equal. by eapply IH.
Qed.

Lemma wf_of_bool c : wfb c = true → wf c.
Proof.
  unfold wfb. intros [Hs Hn]%andb_prop. bool_cases. split.
  - apply Forall_forall. intros s Hin. rewrite forallb_forall in Hs.
    specialize (Hs s (proj1 (list_elem_of_In _ _) Hin)).
    unfold slot_okb, is_free, fitsb in Hs. apply andb_prop in Hs as [[Hf Hd]%andb_prop Hp].
    bool_cases. split; [|split; [|done]].
    + intros E. rewrite bool_decide_eq_true_2 in Hf by done. simpl in Hf. lia.
    + intros E. rewrite E in Hd. simpl in Hd. by bool_cases.
  - intros i j si sj Hi Hj Hfi Hfj Hk. by eapply (filter_NoDup_inj key (λ s, state s ≠ Free)).
Qed.

Lemma victim_reusable c i :
  wf c → victim c = Some i →
  ∃ s, c !! i = Some s ∧ (state s = Free ∨ state s = Clean) ∧ pins s = 0.
Proof.
  intros Hwf. unfold victim. destruct (position is_free c) as [k|] eqn:Ep.
  - intros [= <-]. apply position_Some in Ep as (s & Hs & Hf & _).
    unfold is_free in Hf. bool_cases. exists s. split; [done|].
    split; [by left|]. by apply (wf_slot_ok c k s Hwf Hs).
  - intros (s & Hs & Hr%reusable_spec & _)%position_Some. exists s. tauto.
Qed.

Lemma victim_none c i s :
  victim c = None → c !! i = Some s → ¬ ((state s = Free ∨ state s = Clean) ∧ pins s = 0).
Proof.
  unfold victim. destruct (position is_free c) eqn:Ep; [done|].
  intros Hr Hs Hu. eapply position_None in Hr; [|done].
  apply reusable_spec in Hu. congruence.
Qed.

(** ** The contract the cache's clients rely on *)

(** C40: The table invariant holds after any sequence of calls that did not
    panic, starting from the empty table: no block is ever resident in two
    slots, no free slot carries a pin, and the mid-flight-write flag is set
    only on a slot whose I/O is outstanding. *)
Theorem table_invariant (N : nat) (calls : list call) (c : Cache)
    (Hrun : exec_calls (new N) calls = Ret c) :
  (∀ k i j si sj, c !! i = Some si → c !! j = Some sj →
     is_hit k si = true → is_hit k sj = true → i = j) ∧
  (∀ i s, c !! i = Some s →
     (state s = Free → pins s = 0) ∧
     (dirtied_during_io s = true → state s = InFlight) ∧ fits 32 (pins s)).
Proof.
  pose proof (exec_calls_wf _ _ _ (cache_new_wf N) Hrun) as Hwf. split.
  - intros k i j si sj Hi Hj [Hfi Hki]%is_hit_spec [Hfj Hkj]%is_hit_spec.
    eapply wf_unique; eauto. congruence.
  - intros i s Hs. exact (wf_slot_ok c i s Hwf Hs).
Qed.

Lemma table_invariant_witness :
  ∃ c, exec_calls (new 2)
         [CInsert (mkKey 1 5); CMarkDirty 0; CEndIo (mkToken 0 Free) Clean; CPin 0;
          CInsert (mkKey 1 6)] = Ret c ∧
  (∀ k i j si sj, c !! i = Some si → c !! j = Some sj →
     is_hit k si = true → is_hit k sj = true → i = j).
Proof.
  eexists. split; [vm_compute; reflexivity|].
  refine (proj1 (table_invariant 2
         [CInsert (mkKey 1 5); CMarkDirty 0; CEndIo (mkToken 0 Free) Clean; CPin 0;
          CInsert (mkKey 1 6)] _ _)).
  vm_compute; reflexivity.
Defined.

(** [insert] never panics and does exactly one of three things: it
    claims a free slot for a block that was not resident, after which
    [lookup] finds that block there, in flight and unpinned, and finds every
    other block where it was; or it reports the slot the block already
    occupies; or it reports [Full] when no slot is free. The two errors
    leave the table unchanged. *)
Theorem insert_contract (c : Cache) (k : BlockKey) (Hwf : wf c) :
  ∃ r c', insert c k = Ret (r, c') ∧ wf c' ∧
  match r with
  | Ok t =>
      prior t = Free ∧ state_of c (token_slot t) = Some Free ∧
      lookup c k = None ∧ lookup c' k = Some (token_slot t) ∧
      state_of c' (token_slot t) = Some InFlight ∧ pins_of c' (token_slot t) = Some 0 ∧
      ∀ k', k' ≠ k → lookup c' k' = lookup c k'
  | Err (AlreadyResident i) => c' = c ∧ lookup c k = Some i
  | Err Full => c' = c ∧ lookup c k = None ∧ ∀ i, state_of c i ≠ Some Free
  end.
Proof.
  destruct (insert c k) as [[r c']|] eqn:E.
  2:{ rewrite insert_spec in E. by destruct (lookup c k), (position is_free c). }
  exists r, c'. split; [done|]. pose proof (insert_wf _ _ _ _ Hwf E) as Hwf'.
  split; [done|]. rewrite insert_spec in E.
  destruct (lookup c k) as [i|] eqn:El; [by injection E as <- <-|].
  destruct (position is_free c) as [i|] eqn:Ep; injection E as <- <-.
  - apply position_Some in Ep as (s & Hs & Hf & _). unfold is_free in Hf. bool_cases.
    pose proof (lookup_lt_Some _ _ _ Hs) as Hlt. cbn [prior token_slot].
    unfold state_of, pins_of. rewrite list_lookup_insert_eq, Hs by done. simpl. rewrite Hf.
    repeat split; [|].
    + apply lookup_Some; [done|]. eexists. by rewrite list_lookup_insert_eq by done.
    + intros k' Hk'. eapply lookup_insert_other; [done|..]; apply is_hit_false; [by left|].
      right. simpl. congruence.
  - repeat split. intros i Hi. unfold state_of in Hi. apply fmap_Some in Hi as (s & Hs & Hf).
    eapply position_None in Ep; [|done]. unfold is_free in Ep. bool_cases. congruence.
Qed.

Lemma insert_contract_witness :
  ∃ r c', insert (new 1) (mkKey 7 9) = Ret (r, c') ∧ wf c'.
Proof.
  destruct (insert_contract (new 1) (mkKey 7 9) (cache_new_wf 1)) as (r & c' & H & Hw & _).
  exists r, c'. split; assumption.
Defined.

(** [victim] and [evict] agree.  A slot [victim] names is evicted
    successfully, is then free, and held neither unwritten data nor an
    outstanding I/O nor a reference; when it names none, every slot of the
    table refuses eviction and is left as it was.  Only slots reported by
    [dirty_slots] (exactly the [Dirty] ones), slots with an I/O outstanding
    and pinned slots are refused, each with its own error. *)
Theorem victim_is_evictable (c : Cache) (Hwf : wf c) :
  match victim c with
  | Some i =>
      evict c i = Ret (Ok tt, <[i := empty_slot]> c) ∧
      (i ∉ dirty_slots c) ∧ state_of c i ≠ Some InFlight ∧ pins_of c i = Some 0
  | None =>
      ∀ i, (i < length c)%nat →
        (evict c i = Ret (Err Pinned, c) ∧ pins_of c i ≠ Some 0) ∨
        (evict c i = Ret (Err EvDirty, c) ∧ i ∈ dirty_slots c) ∨
        (evict c i = Ret (Err IoOutstanding, c) ∧ state_of c i = Some InFlight)
  end.
Proof.
  destruct (victim c) as [i|] eqn:Ev.
  - destruct (victim_reusable c i Hwf Ev) as (s & Hs & Hst & Hp).
    rewrite (evict_spec c i s Hs), dirty_slots_spec. unfold state_of, pins_of.
    rewrite Hs. simpl. rewrite Hp. destruct Hst as [-> | ->]; repeat split; done.
  - intros i Hi. apply lookup_lt_is_Some in Hi as [s Hs].
    pose proof (victim_none c i s Ev Hs) as Hr.
    rewrite (evict_spec c i s Hs), dirty_slots_spec. unfold state_of, pins_of.
    rewrite Hs. simpl. destruct (Z.eqb_spec (pins s) 0) as [Hp|Hp]; simpl.
    + right. destruct (state s) eqn:E; [destruct Hr; tauto..|by left|by right].
    + left. split; [done|congruence].
Qed.

Lemma victim_is_evictable_witness :
  let c : Cache := [mkSlot (mkKey 0 0) Dirty 0 false; mkSlot (mkKey 0 1) Clean 1 false;
            mkSlot (mkKey 0 2) Clean 0 false] in
  victim c = Some 2%nat ∧ evict c 2 = Ret (Ok tt, (<[2%nat := empty_slot]> c)).
Proof.
  split; [reflexivity|].
  refine (proj1 (victim_is_evictable
    [mkSlot (mkKey 0 0) Dirty 0 false; mkSlot (mkKey 0 1) Clean 1 false;
     mkSlot (mkKey 0 2) Clean 0 false] _)).
  apply (wf_of_bool _). vm_compute. reflexivity.
Defined.
