(* ===== verification/KBCache.v ===== *)
(** The kernel's buffer cache: [kernel/src/bcache.rs].

    [BCache] keeps the table; this file adds the frames the table's slots
    name, the locked sections that move a slot from state to state, the
    guards ([BlockRef], [Fill], [Writeback]) that outlive those sections,
    and the block driver the guards wait on.  Every locked section is one
    definition on [Bcache]; [step] interleaves them, one critical section at
    a time, with the driver's completions and with each other, and the
    theorems say that cache, frames and disk together behave as one flat
    store of blocks. *)
From S2P Require Import Prelude Bits BCache.
From Stdlib Require Import Strings.Byte.

Definition SLOTS : nat := 32.
Definition SECTOR_BYTES : Z := 512.
Definition SLOT_BYTES : Z := 4096.
Definition MAX_SECTORS : Z := SLOT_BYTES / SECTOR_BYTES.
Definition BLOCK_BYTES : Z := MAX_SECTORS * SECTOR_BYTES.
Definition SECTORS_PER_BLOCK : Z := MAX_SECTORS.
Definition ONLY_DEVICE : Z := 0.

(** Why the driver failed a request; only its presence matters here. *)
Inductive BcacheError :=
  | NoFrames | Uninitialised | Exhausted | FillStalled | OutOfRange
  | WritebackStalled | BlockPinned | PartialBlock | UnknownDevice.

Record Bcache := mkBcache
  { table : Cache; frames : list Z; filling : list bool; writeback_failed : list bool }.

Record BlockRef := mkRef { ref_slot : nat; ref_virt : Z }.
Record Fill := mkFill { fill_token : IoToken; fill_virt : Z }.
Record Writeback := mkWb { wb_token : IoToken; wb_virt : Z; wb_key : BlockKey }.

Inductive Claim := Hit (r : BlockRef) | ClaimFill (f : Fill) | Wait.
Inductive Blocked := Filling | WritingBack | Reader.

#[export] Instance BcacheError_eq_dec : EqDecision BcacheError.
Proof. solve_decision. Defined.
#[export] Instance BlockRef_eq_dec : EqDecision BlockRef.
Proof. solve_decision. Defined.
#[export] Instance Fill_eq_dec : EqDecision Fill.
Proof. solve_decision. Defined.
#[export] Instance Writeback_eq_dec : EqDecision Writeback.
Proof. solve_decision. Defined.

Definition set_table (c : Bcache) (t : Cache) : Bcache :=
  mkBcache t (frames c) (filling c) (writeback_failed c).
Definition set_filling (c : Bcache) (f : list bool) : Bcache :=
  mkBcache (table c) (frames c) f (writeback_failed c).
Definition set_failed (c : Bcache) (w : list bool) : Bcache :=
  mkBcache (table c) (frames c) (filling c) w.

(** [lba_of]: the first sector of a block, refused when it does not fit. *)
Definition lba_of (key : BlockKey) : result Z BcacheError :=
  match checked_mul 64 (block key) SECTORS_PER_BLOCK with
  | Some lba => Ok lba
  | None => Err OutOfRange
  end.

(** The checks at the head of [read_block] and [write_block]. *)
Definition read_entry (key : BlockKey) : result Z BcacheError :=
  if negb (dev key =? ONLY_DEVICE) then Err UnknownDevice else lba_of key.
Definition write_entry (key : BlockKey) (data : list byte) : result Z BcacheError :=
  if negb (dev key =? ONLY_DEVICE) then Err UnknownDevice
  else if negb (Z.of_nat (length data) =? BLOCK_BYTES) then Err PartialBlock
  else lba_of key.

(** [init]: one frame per slot, from the frame allocator; the frames taken
    are handed back when it runs out.  [alloc] is [frames::alloc(0)] run
    against an allocator state [A]; [free] is [frames::free(_, 0)]. *)
Section Init.
Context {A : Type} (alloc : A → option Z * A) (free : A → Z → A) (hhdm : Z).

Fixpoint take_frames (n : nat) (taken : list Z) (a : A) : option (list Z) * A :=
  match n with
  | O => (Some taken, a)
  | S n' =>
      match alloc a with
      | (None, a') => (None, fold_left free (map (λ v, v - hhdm) taken) a')
      | (Some phys, a') => take_frames n' (taken ++ [hhdm + phys]) a'
      end
  end.

Definition init (g : option Bcache) (a : A) : result unit BcacheError * option Bcache * A :=
  match g with
  | Some c => (Ok tt, Some c, a)
  | None =>
      match take_frames SLOTS [] a with
      | (None, a') => (Err NoFrames, None, a')
      | (Some fr, a') =>
          (Ok tt, Some (mkBcache (new SLOTS) fr (replicate SLOTS false) (replicate SLOTS false)), a')
      end
  end.
End Init.

(** [claim_free_slot]. *)
Definition claim_free_slot (c : Bcache) (key : BlockKey)
    : outcome (result IoToken BcacheError * Bcache) :=
  '(r, t) ← insert (table c) key;
  match r with
  | Ok token => Ret (Ok token, set_table c t)
  | Err (AlreadyResident _) => Panic
  | Err Full =>
      match victim t with
      | None => Ret (Err Exhausted, c)
      | Some v =>
          '(e, t1) ← evict t v;
          match e with
          | Err _ => Panic
          | Ok _ =>
              w ← set_index (writeback_failed c) (Z.of_nat v) false;
              '(r2, t2) ← insert t1 key;
              let c' := set_failed (set_table c t2) w in
              match r2 with
              | Ok token => Ret (Ok token, c')
              | Err _ => Ret (Err Exhausted, c')
              end
          end
      end
  end.

(** [claim]. *)
Definition claim (c : Bcache) (key : BlockKey) : outcome (result Claim BcacheError * Bcache) :=
  match lookup (table c) key with
  | Some slot =>
      fl ← index (filling c) (Z.of_nat slot);
      if bool_decide (state_of (table c) slot = Some InFlight) && fl
      then Ret (Ok Wait, c)
      else
        t ← pin (table c) slot;
        virt ← index (frames c) (Z.of_nat slot);
        Ret (Ok (Hit (mkRef slot virt)), set_table c t)
  | None =>
      '(r, c1) ← claim_free_slot c key;
      match r with
      | Err e => Ret (Err e, c1)
      | Ok token =>
          fl ← set_index (filling c1) (Z.of_nat (token_slot token)) true;
          virt ← index (frames c1) (Z.of_nat (token_slot token));
          Ret (Ok (ClaimFill (mkFill token virt)), set_filling c1 fl)
      end
  end.

(** [finish_fill]. *)
Definition finish_fill (c : Bcache) (fill : Fill) (ok : bool)
    : outcome (option BlockRef * Bcache) :=
  let slot := token_slot (fill_token fill) in
  fl ← set_index (filling c) (Z.of_nat slot) false;
  t ← end_io (table c) (fill_token fill) Clean;
  let c1 := set_filling (set_table c t) fl in
  if ok then
    t1 ← pin t slot;
    virt ← index (frames c) (Z.of_nat slot);
    Ret (Some (mkRef slot virt), set_table c1 t1)
  else
    _ ← rust_assert (bool_decide (state_of t slot = Some Clean));
    '(e, t1) ← evict t slot;
    match e with
    | Ok _ => Ret (None, set_table c1 t1)
    | Err _ => Panic
    end.

(** [Drop for Fill] with the token still held. *)
Definition drop_fill (c : Bcache) (fill : Fill) : outcome Bcache :=
  let slot := token_slot (fill_token fill) in
  fl ← set_index (filling c) (Z.of_nat slot) false;
  t ← end_io (table c) (fill_token fill) Clean;
  '(e, t1) ← evict t slot;
  match e with
  | Ok _ => Ret (set_filling (set_table c t1) fl)
  | Err _ => Panic
  end.

(** [Drop for BlockRef]. *)
Definition drop_ref (c : Bcache) (r : BlockRef) : outcome Bcache :=
  t ← unpin (table c) (ref_slot r);
  Ret (set_table c t).

(** What the frames hold, by virtual address. *)
Definition memory := Z → list byte.
Definition poke (m : memory) (a : Z) (d : list byte) : memory :=
  λ x, if x =? a then d else m x.

(** [store], up to the copy: the slot to copy into, or why to wait. *)
Definition store_slot (c : Bcache) (key : BlockKey)
    : outcome (result (result nat Blocked) BcacheError * Bcache) :=
  match lookup (table c) key with
  | Some slot =>
      if bool_decide (state_of (table c) slot = Some InFlight) then
        fl ← index (filling c) (Z.of_nat slot);
        Ret (Ok (Err (if (fl : bool) then Filling else WritingBack)), c)
      else if bool_decide (pins_of (table c) slot ≠ Some 0) then
        Ret (Ok (Err Reader), c)
      else Ret (Ok (Ok slot), c)
  | None =>
      '(r, c1) ← claim_free_slot c key;
      match r with
      | Err e => Ret (Err e, c1)
      | Ok token =>
          t ← end_io (table c1) token Clean;
          Ret (Ok (Ok (token_slot token)), set_table c1 t)
      end
  end.

(** [store]. *)
Definition store (c : Bcache) (m : memory) (key : BlockKey) (data : list byte)
    : outcome (result (result unit Blocked) BcacheError * Bcache * memory) :=
  '(r, c1) ← store_slot c key;
  match r with
  | Err e => Ret (Err e, c1, m)
  | Ok (Err b) => Ret (Ok (Err b), c1, m)
  | Ok (Ok slot) =>
      virt ← index (frames c1) (Z.of_nat slot);
      t ← mark_dirty (table c1) slot;
      w ← set_index (writeback_failed c1) (Z.of_nat slot) false;
      Ret (Ok (Ok tt), set_failed (set_table c1 t) w, poke m virt data)
  end.

(** [begin_writeback]. *)
Definition begin_writeback (c : Bcache) (slot : nat) : outcome (option Writeback * Bcache) :=
  if bool_decide (state_of (table c) slot ≠ Some Dirty) then Ret (None, c)
  else match key_of (table c) slot with
  | None => Ret (None, c)
  | Some key =>
      fl ← index (filling c) (Z.of_nat slot);
      _ ← rust_assert (negb fl);
      '(token, t) ← begin_io (table c) slot;
      _ ← rust_assert (bool_decide (prior token = Dirty));
      virt ← index (frames c) (Z.of_nat slot);
      Ret (Some (mkWb token virt key), set_table c t)
  end.

(** [finish_writeback]. *)
Definition finish_writeback (c : Bcache) (wb : Writeback) (ok : bool) : outcome Bcache :=
  t ← end_io (table c) (wb_token wb) (if ok then Clean else Dirty);
  w ← set_index (writeback_failed c) (Z.of_nat (token_slot (wb_token wb))) (negb ok);
  Ret (set_failed (set_table c t) w).

(** [Drop for Writeback] with the token still held. *)
Definition drop_writeback (c : Bcache) (wb : Writeback) : outcome Bcache :=
  t ← end_io (table c) (wb_token wb) Dirty;
  Ret (set_table c t).

(** [1 << slot] folded over slots. *)
Definition mask_of (slots : list nat) : Z :=
  fold_left (λ mask slot, Z.lor mask (Z.shiftl 1 (Z.of_nat slot))) slots 0.

(** [unsynced_mask] and [dirty_mask]. *)
Definition unsynced (c : Bcache) (slot : nat) : bool :=
  match state_of (table c) slot with
  | Some Dirty => true
  | Some InFlight => negb (default false (filling c !! slot))
  | _ => false
  end.
Definition unsynced_mask (c : Bcache) : Z :=
  mask_of (filter (λ slot, unsynced c slot = true) (seq 0 SLOTS)).
Definition dirty_mask (c : Bcache) : Z := mask_of (dirty_slots (table c)).

(** [flushable_slot]. *)
Definition unpinned (c : Bcache) (slot : nat) : bool :=
  bool_decide (pins_of (table c) slot = Some 0).
Definition flushable_slot (c : Bcache) : option nat :=
  match find_first (λ slot, unpinned c slot && negb (default false (writeback_failed c !! slot)))
                   (dirty_slots (table c)) with
  | Some slot => Some slot
  | None => find_first (unpinned c) (dirty_slots (table c))
  end.
