(* ===== verification/KBCacheSys.v ===== *)
(** The buffer cache between its callers and the device.

    [KBCache]'s locked sections, interleaved with each other and with the
    block driver's completions.  A state holds the cache, the frames' and
    the disk's contents, and every guard that is alive: [BlockRef]s, fills
    and writebacks with the progress of their request.  [view] is the
    abstraction, the content a block has for the system's users; the
    theorems say that only [store] changes it. *)
From S2P Require Import Prelude Bits BCache KBCache.
From Stdlib Require Import Strings.Byte.

(** ** Requests the driver has outstanding

    [block::read_at] copies into the frame only when the device reported a
    full transfer; [block::write_at] copies the frame into a bounce buffer
    when it submits, and the device works from that copy. *)
Inductive fphase := Reading | ReadDone (ok : bool).
Inductive wphase := Queued | Submitted (d : list byte) | WriteDone (ok : bool).

Inductive io :=
  | IoFill (k : BlockKey) (f : Fill) (ph : fphase)
  | IoWb (w : Writeback) (ph : wphase).

Definition io_slot (o : io) : nat :=
  match o with
  | IoFill _ f _ => token_slot (fill_token f)
  | IoWb w _ => token_slot (wb_token w)
  end.

(** [late] holds the writes whose waiter gave up (deadline or dropped
    future) while the device still owned the bounce buffer; [abandoned]
    remembers the sectors of all of them. *)
Record sys := mkSys
  { cache : Bcache; mem : memory; disk : memory;
    ios : list io; refs : list BlockRef;
    late : list (Z * list byte); abandoned : list Z }.

Definition lba (k : BlockKey) : Z := block k * SECTORS_PER_BLOCK.

Inductive event := EStore (k : BlockKey) (d : list byte) | ETau.

Definition with_cache (s : sys) (c : Bcache) : sys :=
  mkSys c (mem s) (disk s) (ios s) (refs s) (late s) (abandoned s).
Definition with_mem (s : sys) (m : memory) : sys :=
  mkSys (cache s) m (disk s) (ios s) (refs s) (late s) (abandoned s).
Definition with_disk (s : sys) (d : memory) : sys :=
  mkSys (cache s) (mem s) d (ios s) (refs s) (late s) (abandoned s).
Definition with_ios (s : sys) (l : list io) : sys :=
  mkSys (cache s) (mem s) (disk s) l (refs s) (late s) (abandoned s).
Definition with_refs (s : sys) (l : list BlockRef) : sys :=
  mkSys (cache s) (mem s) (disk s) (ios s) l (late s) (abandoned s).
Definition with_late (s : sys) (l : list (Z * list byte)) (a : list Z) : sys :=
  mkSys (cache s) (mem s) (disk s) (ios s) (refs s) l a.

Definition after_claim (s : sys) (k : BlockKey) (r : result Claim BcacheError) : sys :=
  match r with
  | Ok (Hit b) => with_refs s (b :: refs s)
  | Ok (ClaimFill f) => with_ios s (IoFill k f Reading :: ios s)
  | _ => s
  end.

Definition store_event (k : BlockKey) (d : list byte)
    (r : result (result unit Blocked) BcacheError) : event :=
  match r with Ok (Ok _) => EStore k d | _ => ETau end.

Definition option_list {A} (o : option A) : list A :=
  match o with Some a => [a] | None => [] end.

(** The waiter gives up on a write: what was submitted stays with the
    device. *)
Definition expire (s : sys) (w : Writeback) (ph : wphase) : sys :=
  match ph with
  | Submitted d =>
      with_late s ((lba (wb_key w), d) :: late s) (lba (wb_key w) :: abandoned s)
  | _ => s
  end.

Inductive step : sys → event → sys → Prop :=
  (* [read_block]: the claim, the driver's read, the end of the fill. *)
  | step_claim s k l r c' :
      read_entry k = Ok l → claim (cache s) k = Ret (r, c') →
      step s ETau (with_cache (after_claim s k r) c')
  | step_read_ok s k f rest :
      ios s ≡ₚ IoFill k f Reading :: rest →
      step s ETau (with_ios (with_mem s (poke (mem s) (fill_virt f) (disk s (lba k))))
                     (IoFill k f (ReadDone true) :: rest))
  | step_read_err s k f rest junk :
      ios s ≡ₚ IoFill k f Reading :: rest →
      step s ETau (with_ios (with_mem s (poke (mem s) (fill_virt f) junk))
                     (IoFill k f (ReadDone false) :: rest))
  | step_finish_fill s k f ok rest r c' :
      ios s ≡ₚ IoFill k f (ReadDone ok) :: rest →
      finish_fill (cache s) f ok = Ret (r, c') →
      step s ETau (with_cache (with_ios (with_refs s (option_list r ++ refs s)) rest) c')
  | step_drop_fill s k f rest c' :
      ios s ≡ₚ IoFill k f Reading :: rest →
      drop_fill (cache s) f = Ret c' →
      step s ETau (with_cache (with_ios s rest) c')
  | step_drop_ref s b rest c' :
      refs s ≡ₚ b :: rest → drop_ref (cache s) b = Ret c' →
      step s ETau (with_cache (with_refs s rest) c')
  (* [write_block]. *)
  | step_store s k d l r c' m' :
      write_entry k d = Ok l → store (cache s) (mem s) k d = Ret (r, c', m') →
      step s (store_event k d r) (with_cache (with_mem s m') c')
  (* [write_back]: take the slot, submit, complete or give up, resolve. *)
  | step_begin_writeback s slot r c' :
      begin_writeback (cache s) slot = Ret (r, c') →
      step s ETau (with_cache (with_ios s (map (λ w, IoWb w Queued) (option_list r) ++ ios s)) c')
  | step_submit s w rest :
      ios s ≡ₚ IoWb w Queued :: rest →
      step s ETau (with_ios s (IoWb w (Submitted (mem s (wb_virt w))) :: rest))
  | step_write_torn s w d rest junk :
      ios s ≡ₚ IoWb w (Submitted d) :: rest →
      step s ETau (with_ios (with_disk s (poke (disk s) (lba (wb_key w)) junk))
                     (IoWb w (Submitted d) :: rest))
  | step_write_ok s w d rest :
      ios s ≡ₚ IoWb w (Submitted d) :: rest →
      step s ETau (with_ios (with_disk s (poke (disk s) (lba (wb_key w)) d))
                     (IoWb w (WriteDone true) :: rest))
  | step_write_refused s w ph rest :
      ios s ≡ₚ IoWb w ph :: rest → ph ≠ WriteDone true →
      step s ETau (with_ios s (IoWb w (WriteDone false) :: rest))
  | step_write_timeout s w ph rest :
      ios s ≡ₚ IoWb w ph :: rest → ph ≠ WriteDone true →
      step s ETau (expire (with_ios s (IoWb w (WriteDone false) :: rest)) w ph)
  | step_finish_writeback s w ok rest c' :
      ios s ≡ₚ IoWb w (WriteDone ok) :: rest →
      finish_writeback (cache s) w ok = Ret c' →
      step s ETau (with_cache (with_ios s rest) c')
  | step_drop_writeback s w ph rest c' :
      ios s ≡ₚ IoWb w ph :: rest → ph ≠ WriteDone true →
      drop_writeback (cache s) w = Ret c' →
      step s ETau (with_cache (expire (with_ios s rest) w ph) c')
  (* The device finishes, or half finishes, a write nobody waits for. *)
  | step_late s a d rest :
      late s ≡ₚ (a, d) :: rest →
      step s ETau (with_late (with_disk s (poke (disk s) a d)) rest (abandoned s))
  | step_late_torn s a d rest junk :
      late s ≡ₚ (a, d) :: rest →
      step s ETau (with_disk s (poke (disk s) a junk)).

(** The cache as [init] leaves it, over distinct frames. *)
Definition boot (fr : list Z) (m d : memory) : sys :=
  mkSys (mkBcache (new SLOTS) fr (replicate SLOTS false) (replicate SLOTS false)) m d [] [] [] [].

(** ** The abstraction

    A block's content, as the system's users see it: its frame's when it is
    resident and not being filled, the disk's otherwise. *)
Definition frame_of (c : Bcache) (slot : nat) : Z := default 0 (frames c !! slot).
Definition is_filling (c : Bcache) (slot : nat) : bool := default false (filling c !! slot).

Definition view (s : sys) (k : BlockKey) : list byte :=
  match lookup (table (cache s)) k with
  | Some slot =>
      if is_filling (cache s) slot then disk s (lba k) else mem s (frame_of (cache s) slot)
  | None => disk s (lba k)
  end.

(** ** The invariant, slot by slot *)

Definition ios_at (s : sys) (slot : nat) : list io := filter (λ o, io_slot o = slot) (ios s).
Definition refs_at (s : sys) (slot : nat) : list BlockRef :=
  filter (λ b, ref_slot b = slot) (refs s).

(** The block was never the target of an abandoned write. *)
Definition settled (s : sys) (k : BlockKey) : Prop := lba k ∉ abandoned s.

(** A request in flight against [slot], which holds [k]. *)
Definition io_ok (s : sys) (slot : nat) (sl : Slot) (o : io) : Prop :=
  match o with
  | IoFill k f ph =>
      is_filling (cache s) slot = true ∧ k = key sl ∧ pins sl = 0 ∧
      fill_virt f = frame_of (cache s) slot ∧
      (ph = ReadDone true → settled s k → mem s (fill_virt f) = disk s (lba k))
  | IoWb w ph =>
      is_filling (cache s) slot = false ∧ wb_key w = key sl ∧
      wb_virt w = frame_of (cache s) slot ∧
      match ph with
      | Queued => True
      | Submitted d => d = mem s (wb_virt w)
      | WriteDone true => settled s (key sl) → mem s (wb_virt w) = disk s (lba (key sl))
      | WriteDone false => True
      end
  end.

Definition state_ok (s : sys) (slot : nat) (sl : Slot) : Prop :=
  match state sl with
  | Free | Dirty => ios_at s slot = [] ∧ is_filling (cache s) slot = false
  | Clean =>
      ios_at s slot = [] ∧ is_filling (cache s) slot = false ∧
      (settled s (key sl) → mem s (frame_of (cache s) slot) = disk s (lba (key sl)))
  | InFlight => ∃ o, ios_at s slot = [o] ∧ io_ok s slot sl o
  end.

Definition slot_inv (s : sys) (slot : nat) (sl : Slot) : Prop :=
  dirtied_during_io sl = false ∧
  pins sl = Z.of_nat (length (refs_at s slot)) ∧
  Forall (λ b, ref_virt b = frame_of (cache s) slot) (refs_at s slot) ∧
  (state sl ≠ Free → dev (key sl) = ONLY_DEVICE) ∧
  state_ok s slot sl.

Record shape (c : Bcache) : Prop := {
  sh_wf : wf (table c);
  sh_table : length (table c) = SLOTS;
  sh_frames : length (frames c) = SLOTS;
  sh_filling : length (filling c) = SLOTS;
  sh_failed : length (writeback_failed c) = SLOTS;
  sh_nodup : NoDup (frames c)
}.

Record inv (s : sys) : Prop := {
  inv_shape : shape (cache s);
  inv_slots : ∀ slot sl, table (cache s) !! slot = Some sl → slot_inv s slot sl;
  inv_ios : Forall (λ o, (io_slot o < SLOTS)%nat) (ios s);
  inv_refs : Forall (λ b, (ref_slot b < SLOTS)%nat) (refs s);
  inv_late : Forall (λ l, l.1 ∈ abandoned s) (late s)
}.
