(* ===== verification/KBCacheProofs.v ===== *)
(** Proofs about the buffer cache system of [KBCacheSys]. *)
From S2P Require Import Prelude Bits BCache KBCache KBCacheSys.
From Stdlib Require Import Strings.Byte.

(** ** Addresses *)

Lemma poke_eq m a d : poke m a d a = d.
Proof. unfold poke. by rewrite Z.eqb_refl. Qed.
Lemma poke_ne m a d x : x ≠ a → poke m a d x = m x.
Proof. intros. unfold poke. destruct (Z.eqb_spec x a); done. Qed.

Lemma frame_of_inj c i j :
  shape c → (i < SLOTS)%nat → (j < SLOTS)%nat → frame_of c i = frame_of c j → i = j.
Proof.
  intros Hc Hi Hj. unfold frame_of. rewrite <- (sh_frames c Hc) in Hi, Hj.
  apply lookup_lt_is_Some in Hi as [a Ha]. apply lookup_lt_is_Some in Hj as [b Hb].
  rewrite Ha, Hb. simpl. intros ->.
  by eapply (NoDup_lookup (frames c)); [apply sh_nodup|..].
Qed.

Lemma lba_inj k k' : dev k = dev k' → lba k = lba k' → k = k'.
Proof.
  destruct k as [d b], k' as [d' b']. unfold lba, SECTORS_PER_BLOCK, MAX_SECTORS.
  simpl. intros -> H. change (SLOT_BYTES / SECTOR_BYTES) with 8 in H. f_equal. lia.
Qed.

Lemma read_entry_ok k l : read_entry k = Ok l → dev k = ONLY_DEVICE ∧ l = lba k.
Proof.
  unfold read_entry, lba_of. destruct (Z.eqb_spec (dev k) ONLY_DEVICE); simpl; [|done].
  destruct (checked_mul 64 (block k) SECTORS_PER_BLOCK) eqn:E; [|done].
  apply checked_mul_Some in E as [-> _]. by intros [= <-].
Qed.

Lemma write_entry_ok k d l :
  write_entry k d = Ok l →
  dev k = ONLY_DEVICE ∧ l = lba k ∧ Z.of_nat (length d) = BLOCK_BYTES.
Proof.
  unfold write_entry. destruct (Z.eqb_spec (dev k) ONLY_DEVICE) as [E|E]; simpl; [|done].
  destruct (Z.eqb_spec (Z.of_nat (length d)) BLOCK_BYTES) as [E'|E']; simpl; [|done].
  intros H. destruct (read_entry_ok k l) as [_ ->]; [|done].
  unfold read_entry. rewrite E. exact H.
Qed.

(** ** Steps that touch one slot *)

(** [s'] differs from [s] at slot [i] at most, whose entry goes from [sl] to
    [sl']; the disk differs at most at the block [sl] holds. *)
Record local_change (s s' : sys) (i : nat) (sl sl' : Slot) : Prop := {
  lc_old : table (cache s) !! i = Some sl;
  lc_table : table (cache s') = <[i := sl']> (table (cache s));
  lc_frames : frames (cache s') = frames (cache s);
  lc_filling : length (filling (cache s')) = length (filling (cache s)) ∧
    ∀ j, j ≠ i → is_filling (cache s') j = is_filling (cache s) j;
  lc_failed : length (writeback_failed (cache s')) = length (writeback_failed (cache s));
  lc_mem : ∀ x, x ≠ frame_of (cache s) i → mem s' x = mem s x;
  lc_disk : ∀ k, dev k = ONLY_DEVICE → is_hit k sl = false →
    disk s' (lba k) = disk s (lba k);
  lc_settled : ∀ k, settled s' k → settled s k;
  lc_ios : ∀ j, j ≠ i → ios_at s' j ≡ₚ ios_at s j;
  lc_refs : ∀ j, j ≠ i → refs_at s' j ≡ₚ refs_at s j
}.

Lemma slot_lt c i sl : shape c → table c !! i = Some sl → (i < SLOTS)%nat.
Proof. intros Hc Hi. rewrite <- (sh_table c Hc). by eapply lookup_lt_Some. Qed.

Lemma frame_of_same c c' i : frames c' = frames c → frame_of c' i = frame_of c i.
Proof. unfold frame_of. by intros ->. Qed.

(** A request at another slot is none the wiser. *)
Lemma slot_inv_other s s' i sl sl' j slj :
  inv s → local_change s s' i sl sl' → j ≠ i →
  table (cache s) !! j = Some slj → slot_inv s' j slj.
Proof.
  intros Hinv H Hne Hj.
  pose proof (inv_shape s Hinv) as Hsh.
  pose proof (slot_lt _ _ _ Hsh Hj) as Hjl. pose proof (slot_lt _ _ _ Hsh (lc_old _ _ _ _ _ H)) as Hil.
  destruct (inv_slots s Hinv j slj Hj) as (Hd & Hp & Hv & Hdev & Hst).
  assert (frame_of (cache s') j = frame_of (cache s) j) as Hf
    by apply frame_of_same, (lc_frames _ _ _ _ _ H).
  assert (mem s' (frame_of (cache s) j) = mem s (frame_of (cache s) j)) as Hm.
  { apply (lc_mem _ _ _ _ _ H). intros E. apply Hne. by eapply frame_of_inj. }
  assert (is_filling (cache s') j = is_filling (cache s) j) as Hfl
    by by apply (lc_filling _ _ _ _ _ H).
  assert (state slj ≠ Free → disk s' (lba (key slj)) = disk s (lba (key slj))) as Hdisk.
  { intros Hf'. apply (lc_disk _ _ _ _ _ H); [by apply Hdev|].
    apply is_hit_false. destruct (decide (state sl = Free)); [by left|right].
    intros E. apply Hne. symmetry.
    eapply (wf_unique _ (sh_wf _ Hsh)); [apply (lc_old _ _ _ _ _ H)|exact Hj|done..]. }
  pose proof (lc_settled _ _ _ _ _ H) as Hset.
  pose proof (lc_ios _ _ _ _ _ H j Hne) as Hio. pose proof (lc_refs _ _ _ _ _ H j Hne) as Hrf.
  unfold slot_inv. rewrite Hf. split; [done|].
  split; [by rewrite Hrf|]. split; [by rewrite Hrf|]. split; [done|].
  unfold state_ok in *. rewrite Hfl, Hf, ?Hm. destruct (state slj) eqn:Es.
  - destruct Hst as [He ?]. rewrite He in Hio. by apply Permutation_nil_r in Hio as ->.
  - destruct Hst as (He & ? & Hc). rewrite He in Hio. apply Permutation_nil_r in Hio as ->.
    rewrite Hdisk by done. auto.
  - destruct Hst as [He ?]. rewrite He in Hio. by apply Permutation_nil_r in Hio as ->.
  - destruct Hst as (o & He & Ho). rewrite He in Hio.
    apply Permutation_singleton_r in Hio as ->. exists o. split; [done|].
    unfold io_ok in *. rewrite Hfl, Hf. destruct o as [k f ph|w ph].
    + destruct Ho as (? & -> & ? & Hfv & Hc). rewrite Hfv, Hm, Hdisk by done. rewrite Hfv in Hc.
      repeat split; auto.
    + destruct Ho as (? & ? & Hwv & Hc). rewrite Hwv, Hm, Hdisk by done. rewrite Hwv in Hc.
      repeat split; auto. destruct ph as [|d|[]]; auto.
Qed.

(** The invariant after a change local to one slot. *)
Lemma inv_local s s' i sl sl' :
  inv s → local_change s s' i sl sl' →
  wf (table (cache s')) → slot_inv s' i sl' →
  Forall (λ o, (io_slot o < SLOTS)%nat) (ios s') →
  Forall (λ b, (ref_slot b < SLOTS)%nat) (refs s') →
  Forall (λ l, l.1 ∈ abandoned s') (late s') →
  inv s'.
Proof.
  intros Hinv H Hwf Hi Hio Hrf Hl. pose proof (inv_shape s Hinv) as Hsh. destruct Hsh.
  pose proof (lookup_lt_Some _ _ _ (lc_old _ _ _ _ _ H)) as Hlt.
  split; [|intros j slj Hj|done..].
  - split; [done| | | | |].
    + by rewrite (lc_table _ _ _ _ _ H), length_insert.
    + by rewrite (lc_frames _ _ _ _ _ H).
    + by rewrite (proj1 (lc_filling _ _ _ _ _ H)).
    + by rewrite (lc_failed _ _ _ _ _ H).
    + by rewrite (lc_frames _ _ _ _ _ H).
  - rewrite (lc_table _ _ _ _ _ H) in Hj. destruct (decide (j = i)) as [->|Hne].
    + rewrite list_lookup_insert_eq in Hj by done. by injection Hj as <-.
    + rewrite list_lookup_insert_ne in Hj by done. by eapply slot_inv_other.
Qed.

(** ... and the content of the blocks slot [i] does not hold. *)
Lemma view_local s s' i sl sl' k :
  inv s → local_change s s' i sl sl' → wf (table (cache s')) →
  dev k = ONLY_DEVICE → is_hit k sl = false → is_hit k sl' = false →
  view s' k = view s k.
Proof.
  intros Hinv H Hwf Hk Hh Hh'. pose proof (inv_shape s Hinv) as Hsh. unfold view.
  rewrite (lc_table _ _ _ _ _ H).
  rewrite (lookup_insert_other _ _ sl) by (done || apply (lc_old _ _ _ _ _ H)).
  rewrite (lc_disk _ _ _ _ _ H) by done.
  destruct (lookup (table (cache s)) k) as [j|] eqn:El; [|done].
  apply lookup_Some in El as (slj & Hj & Hf & <-); [|apply Hsh].
  assert (j ≠ i) as Hne.
  { intros ->. rewrite (lc_old _ _ _ _ _ H) in Hj. injection Hj as ->.
    apply is_hit_false in Hh. tauto. }
  rewrite (proj2 (lc_filling _ _ _ _ _ H)) by done.
  rewrite (frame_of_same _ _ _ (lc_frames _ _ _ _ _ H)).
  rewrite (lc_mem _ _ _ _ _ H); [done|].
  intros E. apply Hne. eapply frame_of_inj; [done|by eapply slot_lt|by eapply slot_lt, H|done].
Qed.

(** The content of the block a slot holds. *)
Lemma view_resident s i sl k :
  wf (table (cache s)) → table (cache s) !! i = Some sl → is_hit k sl = true →
  view s k = if is_filling (cache s) i then disk s (lba k) else mem s (frame_of (cache s) i).
Proof.
  intros Hwf Hi [Hf Hk]%is_hit_spec. unfold view.
  assert (lookup (table (cache s)) k = Some i) as ->; [|done].
  apply lookup_Some; eauto.
Qed.

Lemma view_absent s k : lookup (table (cache s)) k = None → view s k = disk s (lba k).
Proof. unfold view. by intros ->. Qed.

(** ** One step: the invariant and the abstract effect *)

Definition effect (e : event) (k : BlockKey) (v : list byte) : list byte :=
  match e with
  | EStore k' d => if decide (k' = k) then d else v
  | ETau => v
  end.

(** A step is good when it keeps the invariant and changes the content of
    the blocks as its event says. *)
Definition good (s : sys) (e : event) (s' : sys) : Prop :=
  inv s' ∧ ∀ k, dev k = ONLY_DEVICE → settled s' k → view s' k = effect e k (view s k).

(** What slot [i] contributes to block [k], resident there or nowhere. *)
Definition content_at (s : sys) (i : nat) (sl : Slot) (k : BlockKey) : list byte :=
  if is_hit k sl
  then if is_filling (cache s) i then disk s (lba k) else mem s (frame_of (cache s) i)
  else disk s (lba k).

Lemma view_content_at s i sl k :
  wf (table (cache s)) → table (cache s) !! i = Some sl →
  (∀ j slj, j ≠ i → table (cache s) !! j = Some slj → is_hit k slj = false) →
  view s k = content_at s i sl k.
Proof.
  intros Hwf Hi Hno. unfold content_at. destruct (is_hit k sl) eqn:Eh.
  - by eapply view_resident.
  - apply view_absent, lookup_None. intros j slj Hj Hf Hk.
    assert (is_hit k slj = false) as Hx; [|apply is_hit_false in Hx; tauto].
    destruct (decide (j = i)) as [->|]; [congruence|by eapply Hno].
Qed.

Lemma unique_hit c i j sl slj k :
  wf c → c !! i = Some sl → is_hit k sl = true → j ≠ i → c !! j = Some slj →
  is_hit k slj = false.
Proof.
  intros Hwf Hi Hh Hne Hj. apply not_true_iff_false. intros Hh'. apply Hne.
  apply is_hit_spec in Hh as [? ?], Hh' as [? ?]. eapply wf_unique; eauto. congruence.
Qed.

Lemma good_local s e s' i sl sl' :
  inv s → local_change s s' i sl sl' →
  wf (table (cache s')) → slot_inv s' i sl' →
  Forall (λ o, (io_slot o < SLOTS)%nat) (ios s') →
  Forall (λ b, (ref_slot b < SLOTS)%nat) (refs s') →
  Forall (λ l, l.1 ∈ abandoned s') (late s') →
  (∀ k d, e = EStore k d → is_hit k sl' = true) →
  (∀ k, dev k = ONLY_DEVICE → settled s' k → is_hit k sl = true ∨ is_hit k sl' = true →
     content_at s' i sl' k = effect e k (content_at s i sl k)) →
  good s e s'.
Proof.
  intros Hinv H Hwf Hsl Hio Hrf Hl He Hc. split; [by eapply inv_local|].
  intros k Hk Hset. pose proof (sh_wf _ (inv_shape s Hinv)) as Hwf0.
  pose proof (lc_old _ _ _ _ _ H) as Hi. pose proof (lc_table _ _ _ _ _ H) as Ht.
  assert (table (cache s') !! i = Some sl') as Hi'.
  { rewrite Ht. apply list_lookup_insert_eq. by eapply lookup_lt_Some. }
  destruct (is_hit k sl || is_hit k sl') eqn:Eh.
  - apply orb_true_iff in Eh.
    assert (∀ j slj, j ≠ i → table (cache s) !! j = Some slj → is_hit k slj = false) as Hno.
    { intros j slj Hne Hj. destruct Eh as [Eh|Eh]; [exact (unique_hit _ i j sl slj k Hwf0 Hi Eh Hne Hj)|].
      eapply (unique_hit (table (cache s'))); [done|exact Hi'|done|exact Hne|].
      by rewrite Ht, list_lookup_insert_ne. }
    rewrite (view_content_at s i sl), (view_content_at s' i sl'); auto.
    intros j slj Hne Hj. rewrite Ht, list_lookup_insert_ne in Hj by done. by eapply Hno.
  - apply orb_false_iff in Eh as [Eh Eh'].
    rewrite (view_local s s' i sl sl') by done. destruct e as [k' d|]; [|done]. simpl.
    case_decide as E; [|done]. subst k'. rewrite (He k d eq_refl) in Eh'. done.
Qed.

(** A step that leaves the table, the memory and the guards alone; the disk
    changes only where abandoned writes may land. *)
Lemma good_idle s s' :
  inv s → cache s' = cache s → mem s' = mem s → ios s' = ios s → refs s' = refs s →
  (∀ k, settled s' k → settled s k ∧ disk s' (lba k) = disk s (lba k)) →
  Forall (λ l, l.1 ∈ abandoned s') (late s') →
  good s ETau s'.
Proof.
  intros [Hsh Hs Hio Hrf Hl] Hc Hm Hi Hr Hd Hl'. split.
  - split; rewrite ?Hc, ?Hi, ?Hr; [done| |done..].
    intros j sl Hj. destruct (Hs j sl Hj) as (? & ? & ? & ? & Hst).
    unfold slot_inv, refs_at. rewrite Hr, Hc. split; [done|]. split; [done|]. split; [done|].
    split; [done|]. unfold state_ok, ios_at in *. rewrite Hi, Hm, Hc.
    destruct (state sl); [done| |done|].
    + destruct Hst as (? & ? & Hst). split; [done|]. split; [done|].
      intros Hset. destruct (Hd _ Hset) as [? ->]. auto.
    + destruct Hst as (o & ? & Ho). exists o. split; [done|]. unfold io_ok in *.
      rewrite Hc, Hm. destruct o as [k f ph|w ph].
      * destruct Ho as (? & ? & ? & ? & Ho). repeat split; auto.
        intros ? Hset. destruct (Hd _ Hset) as [? ->]. auto.
      * destruct Ho as (? & ? & ? & Ho). repeat split; auto.
        destruct ph as [|d|[]]; auto. intros Hset. destruct (Hd _ Hset) as [? ->]. auto.
  - intros k Hk Hset. unfold view. rewrite Hc, Hm. destruct (Hd _ Hset) as [_ ->]. done.
Qed.

(** ** Guards at a slot *)

Lemma ios_at_cons s o rest i :
  ios s ≡ₚ o :: rest → io_slot o = i →
  ios_at s i ≡ₚ o :: filter (λ o, io_slot o = i) rest.
Proof. intros H Hi. unfold ios_at. rewrite H. by rewrite filter_cons_True. Qed.

Lemma ios_at_other s o rest i j :
  ios s ≡ₚ o :: rest → io_slot o = i → j ≠ i →
  filter (λ o, io_slot o = j) rest ≡ₚ ios_at s j.
Proof. intros H Hi Hj. unfold ios_at. rewrite H. rewrite filter_cons_False; [done|congruence]. Qed.

(** A live request pins down its slot: in flight, and nothing else is
    outstanding against it. *)
Lemma live_io s o rest :
  inv s → ios s ≡ₚ o :: rest →
  ∃ sl, table (cache s) !! io_slot o = Some sl ∧ state sl = InFlight ∧
        slot_inv s (io_slot o) sl ∧ io_ok s (io_slot o) sl o ∧
        filter (λ o', io_slot o' = io_slot o) rest = [].
Proof.
  intros Hinv Hp.
  assert (io_slot o < SLOTS)%nat as Hlt.
  { pose proof (inv_ios s Hinv) as H. rewrite Hp in H. by apply Forall_cons in H as [? _]. }
  rewrite <- (sh_table _ (inv_shape s Hinv)) in Hlt. apply lookup_lt_is_Some in Hlt as [sl Hsl].
  pose proof (inv_slots s Hinv _ _ Hsl) as Hi. pose proof (ios_at_cons _ _ _ _ Hp eq_refl) as Hat.
  exists sl. split; [done|]. destruct (Hi) as (_ & _ & _ & _ & Hst). unfold state_ok in Hst.
  destruct (state sl);
    [destruct Hst as [E _]; rewrite E in Hat; by apply Permutation_nil_cons in Hat..|].
  destruct Hst as (o' & E & Ho). rewrite E in Hat.
  apply Permutation_singleton_l in Hat. injection Hat as -> ->. done.
Qed.

Lemma ios_rest_lt s o rest :
  inv s → ios s ≡ₚ o :: rest →
  (io_slot o < SLOTS)%nat ∧ Forall (λ o, (io_slot o < SLOTS)%nat) rest.
Proof.
  intros Hinv Hp. pose proof (inv_ios s Hinv) as H. rewrite Hp in H.
  by apply Forall_cons in H.
Qed.

(** ** What each locked section does

    As equations: under the facts the invariant provides, no assertion, no
    [expect] and no index of the section fails. *)

Lemma index_frames c i : shape c → (i < SLOTS)%nat → index (frames c) (Z.of_nat i) = Ret (frame_of c i).
Proof.
  intros Hc Hi. rewrite <- (sh_frames c Hc) in Hi. apply lookup_lt_is_Some in Hi as [a Ha].
  unfold frame_of. rewrite Ha. apply index_ok; [lia|]. by rewrite Nat2Z.id.
Qed.

Lemma index_filling c i : shape c → (i < SLOTS)%nat → index (filling c) (Z.of_nat i) = Ret (is_filling c i).
Proof.
  intros Hc Hi. rewrite <- (sh_filling c Hc) in Hi. apply lookup_lt_is_Some in Hi as [a Ha].
  unfold is_filling. rewrite Ha. apply index_ok; [lia|]. by rewrite Nat2Z.id.
Qed.

Lemma claim_free_slot_spec c k :
  shape c → lookup (table c) k = None →
  claim_free_slot c k = Ret (Err Exhausted, c) ∨
  ∃ i sl w, table c !! i = Some sl ∧ (state sl = Free ∨ state sl = Clean) ∧ pins sl = 0 ∧
    length w = length (writeback_failed c) ∧
    claim_free_slot c k =
      Ret (Ok (mkToken i Free),
           set_failed (set_table c (<[i := mkSlot k InFlight 0 false]> (table c))) w).
Proof.
  intros Hc Hl. unfold claim_free_slot. rewrite insert_spec, Hl.
  destruct (position is_free (table c)) as [i|] eqn:Ep; simpl.
  - right. apply position_Some in Ep as (sl & Hsl & Hf & _). unfold is_free in Hf. bool_cases.
    exists i, sl, (writeback_failed c). split; [done|]. split; [by left|].
    split; [by apply (wf_slot_ok _ _ _ (sh_wf c Hc) Hsl)|]. split; [done|]. by destruct c.
  - destruct (victim (table c)) as [v|] eqn:Ev; [right|by left].
    destruct (victim_reusable _ _ (sh_wf c Hc) Ev) as (sl & Hsl & Hst & Hp).
    pose proof (lookup_lt_Some _ _ _ Hsl) as Hlt.
    exists v, sl, (<[v := false]> (writeback_failed c)). rewrite length_insert.
    do 4 (split; [done|]).
    rewrite (evict_spec _ _ _ Hsl), Hp. simpl.
    assert (match state sl with
      | Dirty => Ret (Err EvDirty, table c) | InFlight => Ret (Err IoOutstanding, table c)
      | _ => Ret (Ok (), <[v := empty_slot]> (table c)) end
      = Ret (Ok (), <[v := empty_slot]> (table c))) as -> by by destruct Hst as [-> | ->].
    simpl. rewrite set_index_nat by (rewrite (sh_failed c Hc), <- (sh_table c Hc); done). simpl.
    rewrite insert_spec.
    assert (lookup (<[v := empty_slot]> (table c)) k = None) as ->.
    { rewrite lookup_None in Hl |- *. intros j sj Hj Hf.
      destruct (decide (j = v)) as [->|].
      - rewrite list_lookup_insert_eq in Hj by done. by injection Hj as <-.
      - rewrite list_lookup_insert_ne in Hj by done. by eapply Hl. }
    assert (position is_free (<[v := empty_slot]> (table c)) = Some v) as ->.
    { eapply position_unique; [by apply list_lookup_insert_eq|done|].
      intros j sj Hj Hf. destruct (decide (j = v)) as [|Hne]; [done|].
      rewrite list_lookup_insert_ne in Hj by done.
      pose proof (proj1 (position_None _ _) Ep _ _ Hj). congruence. }
    simpl. by rewrite list_insert_insert_eq.
Qed.

Section Resident.
Context (c : Bcache) (i : nat) (sl : Slot) (Hc : shape c) (Hi : table c !! i = Some sl).

Let Hlt : (i < SLOTS)%nat := slot_lt c i sl Hc Hi.

Lemma claim_resident k :
  is_hit k sl = true →
  claim c k =
    if bool_decide (state sl = InFlight) && is_filling c i then Ret (Ok Wait, c)
    else t ← pin (table c) i; Ret (Ok (Hit (mkRef i (frame_of c i))), set_table c t).
Proof.
  intros [Hf Hk]%is_hit_spec. unfold claim.
  rewrite (proj2 (lookup_Some _ k i (sh_wf c Hc))) by eauto.
  rewrite index_filling by done. cbn [mbind outcome_bind]. unfold state_of. rewrite Hi. simpl.
  rewrite (bool_decide_ext (Some (state sl) = Some InFlight) (state sl = InFlight))
    by (split; congruence).
  destruct (bool_decide (state sl = InFlight) && is_filling c i); [done|].
  destruct (pin (table c) i); [|done]. simpl. by rewrite index_frames.
Qed.

Lemma end_fill_table t st :
  state sl = InFlight → dirtied_during_io sl = false → token_slot t = i → st ≠ Free →
  end_io (table c) t st = Ret (<[i := mkSlot (key sl) st (pins sl) false]> (table c)).
Proof.
  intros Hs Hd Ht Hst. apply end_io_ret. split; [done|]. exists sl.
  rewrite Ht, Hd. done.
Qed.

Lemma evict_after_fill p :
  evict (<[i := mkSlot (key sl) Clean p false]> (table c)) i =
    if negb (p =? 0)
    then Ret (Err Pinned, <[i := mkSlot (key sl) Clean p false]> (table c))
    else Ret (Ok tt, <[i := empty_slot]> (table c)).
Proof.
  rewrite (evict_spec _ _ (mkSlot (key sl) Clean p false))
    by (apply list_lookup_insert_eq; by eapply lookup_lt_Some).
  simpl. by rewrite list_insert_insert_eq.
Qed.

Lemma finish_fill_eq f ok :
  state sl = InFlight → dirtied_during_io sl = false → pins sl = 0 →
  token_slot (fill_token f) = i →
  finish_fill c f ok =
    Ret (if ok then Some (mkRef i (frame_of c i)) else None,
         mkBcache (<[i := if ok then mkSlot (key sl) Clean 1 false else empty_slot]> (table c))
           (frames c) (<[i := false]> (filling c)) (writeback_failed c)).
Proof.
  intros Hs Hd Hp Ht. unfold finish_fill. rewrite Ht.
  rewrite set_index_nat by (rewrite (sh_filling c Hc); done). cbn [mbind outcome_bind].
  rewrite (end_fill_table _ Clean) by done. cbn [mbind outcome_bind]. rewrite Hp.
  pose proof (lookup_lt_Some _ _ _ Hi) as Hlen. destruct ok.
  - rewrite (proj2 (pin_ret _ _ (<[i := mkSlot (key sl) Clean 1 false]> (table c)))).
    + simpl. by rewrite index_frames.
    + eexists. split; [by apply list_lookup_insert_eq|]. simpl. do 2 (split; [done|]).
      by rewrite list_insert_insert_eq.
  - unfold state_of. rewrite list_lookup_insert_eq by done. simpl.
    rewrite evict_after_fill. done.
Qed.

Lemma drop_fill_eq f :
  state sl = InFlight → dirtied_during_io sl = false → pins sl = 0 →
  token_slot (fill_token f) = i →
  drop_fill c f =
    Ret (mkBcache (<[i := empty_slot]> (table c))
           (frames c) (<[i := false]> (filling c)) (writeback_failed c)).
Proof.
  intros Hs Hd Hp Ht. unfold drop_fill. rewrite Ht.
  rewrite set_index_nat by (rewrite (sh_filling c Hc); done). cbn [mbind outcome_bind].
  rewrite (end_fill_table _ Clean) by done. cbn [mbind outcome_bind]. rewrite Hp.
  by rewrite evict_after_fill.
Qed.

Lemma drop_ref_eq b :
  ref_slot b = i → 0 < pins sl →
  drop_ref c b = Ret (set_table c (<[i := with_pins sl (pins sl - 1)]> (table c))).
Proof.
  intros Hb Hp. unfold drop_ref. rewrite Hb.
  rewrite (proj2 (unpin_ret _ _ (<[i := with_pins sl (pins sl - 1)]> (table c)))); [done|].
  by exists sl.
Qed.

Lemma store_resident m k d :
  is_hit k sl = true → dirtied_during_io sl = false →
  store c m k d =
    if bool_decide (state sl = InFlight)
    then Ret (Ok (Err (if is_filling c i then Filling else WritingBack)), c, m)
    else if bool_decide (pins sl ≠ 0) then Ret (Ok (Err Reader), c, m)
    else Ret (Ok (Ok tt),
              mkBcache (<[i := mkSlot k Dirty 0 false]> (table c)) (frames c) (filling c)
                (<[i := false]> (writeback_failed c)), poke m (frame_of c i) d).
Proof.
  intros [Hf Hk]%is_hit_spec Hd. unfold store, store_slot.
  rewrite (proj2 (lookup_Some _ k i (sh_wf c Hc))) by eauto.
  unfold state_of, pins_of. rewrite Hi. simpl.
  rewrite (bool_decide_ext (Some (state sl) = Some InFlight) (state sl = InFlight))
    by (split; congruence).
  rewrite (bool_decide_ext (Some (pins sl) ≠ Some 0) (pins sl ≠ 0)) by (split; congruence).
  case_bool_decide as Hs; [by rewrite index_filling|].
  case_bool_decide as Hp; [done|]. simpl. rewrite index_frames by done.
  simpl. rewrite (proj2 (mark_dirty_ret _ i (<[i := mkSlot k Dirty 0 false]> (table c)))).
  - simpl. by rewrite set_index_nat by (rewrite (sh_failed c Hc); done).
  - exists sl. split; [done|]. split; [done|]. rewrite decide_False by done.
    unfold with_state. by rewrite Hp, Hd, Hk.
Qed.

Lemma begin_writeback_eq :
  begin_writeback c i =
    if bool_decide (state sl ≠ Dirty) then Ret (None, c)
    else if is_filling c i then Panic
    else Ret (Some (mkWb (mkToken i Dirty) (frame_of c i) (key sl)),
              set_table c (<[i := with_state sl InFlight]> (table c))).
Proof.
  unfold begin_writeback, state_of, key_of. rewrite Hi. simpl.
  rewrite (bool_decide_ext (Some (state sl) ≠ Some Dirty) (state sl ≠ Dirty)) by (split; congruence).
  case_bool_decide as Hs; [done|]. rewrite Hs. simpl.
  rewrite index_filling by done. simpl. destruct (is_filling c i); [done|]. simpl.
  rewrite (proj2 (begin_io_ret _ i (mkToken i Dirty) (<[i := with_state sl InFlight]> (table c)))).
  - simpl. by rewrite index_frames.
  - exists sl. unfold resident_idle. by rewrite Hs.
Qed.

Lemma finish_writeback_eq w ok :
  state sl = InFlight → dirtied_during_io sl = false → token_slot (wb_token w) = i →
  finish_writeback c w ok =
    Ret (mkBcache (<[i := mkSlot (key sl) (if ok then Clean else Dirty) (pins sl) false]> (table c))
           (frames c) (filling c) (<[i := negb ok]> (writeback_failed c))).
Proof.
  intros Hs Hd Ht. unfold finish_writeback.
  rewrite (end_fill_table _ (if ok then Clean else Dirty)) by (done || by destruct ok).
  simpl. rewrite Ht. by rewrite set_index_nat by (rewrite (sh_failed c Hc); done).
Qed.

Lemma drop_writeback_eq w :
  state sl = InFlight → dirtied_during_io sl = false → token_slot (wb_token w) = i →
  drop_writeback c w =
    Ret (set_table c (<[i := mkSlot (key sl) Dirty (pins sl) false]> (table c))).
Proof.
  intros Hs Hd Ht. unfold drop_writeback. by rewrite (end_fill_table _ Dirty).
Qed.
End Resident.

(** A write of a block that is not resident takes a slot of its own. *)
Lemma store_absent c m k d :
  shape c → lookup (table c) k = None →
  store c m k d = Ret (Err Exhausted, c, m) ∨
  ∃ i sl w, table c !! i = Some sl ∧ (state sl = Free ∨ state sl = Clean) ∧ pins sl = 0 ∧
    length w = length (writeback_failed c) ∧
    store c m k d =
      Ret (Ok (Ok tt), mkBcache (<[i := mkSlot k Dirty 0 false]> (table c)) (frames c) (filling c) w,
           poke m (frame_of c i) d).
Proof.
  intros Hc Hl. unfold store, store_slot. rewrite Hl.
  destruct (claim_free_slot_spec c k Hc Hl) as [->|(i & sl & w & Hi & Hs & Hp & Hw & ->)];
    [by left|right].
  exists i, sl, (<[i := false]> w). rewrite length_insert. do 4 (split; [done|]). simpl.
  pose proof (lookup_lt_Some _ _ _ Hi) as Hlt.
  rewrite (proj2 (end_io_ret _ (mkToken i Free) Clean (<[i := mkSlot k Clean 0 false]> (table c)))).
  2:{ split; [done|]. eexists. split; [by apply list_lookup_insert_eq|]. simpl.
      split; [done|]. by rewrite list_insert_insert_eq. }
  simpl. rewrite (index_frames c) by (done || by eapply slot_lt). simpl.
  rewrite (proj2 (mark_dirty_ret _ i (<[i := mkSlot k Dirty 0 false]> (table c)))).
  2:{ eexists. split; [by apply list_lookup_insert_eq|]. simpl. split; [done|].
      by rewrite list_insert_insert_eq. }
  simpl. rewrite set_index_nat by (rewrite Hw, (sh_failed c Hc); by eapply slot_lt). done.
Qed.

(** ** Every step is good *)

Lemma is_filling_insert c t fr fl w i b j :
  (i < length fl)%nat → fl = filling c →
  is_filling (mkBcache t fr (<[i := b]> fl) w) j = if decide (j = i) then b else is_filling c j.
Proof.
  intros Hi ->. unfold is_filling. simpl. case_decide as E.
  - subst j. by rewrite list_lookup_insert_eq.
  - by rewrite list_lookup_insert_ne.
Qed.

Lemma refs_at_cons s b rs i :
  refs s = rs → ref_slot b = i →
  filter (λ b, ref_slot b = i) (b :: rs) = b :: refs_at s i.
Proof. intros <- Hb. unfold refs_at. by rewrite filter_cons_True. Qed.

Lemma refs_at_perm s b rest :
  refs s ≡ₚ b :: rest →
  refs_at s (ref_slot b) ≡ₚ b :: filter (λ b', ref_slot b' = ref_slot b) rest.
Proof. intros H. unfold refs_at. rewrite H. by rewrite filter_cons_True. Qed.

(** The entry of the slot the step works on is replaced by [sl']. *)
Lemma table_wf_insert c i sl sl' :
  shape c → table c !! i = Some sl → slot_ok sl' →
  (state sl' ≠ Free → (state sl ≠ Free ∧ key sl' = key sl) ∨ lookup (table c) (key sl') = None) →
  wf (<[i := sl']> (table c)).
Proof. intros Hc Hi. apply (wf_insert _ _ sl); [apply Hc|done]. Qed.

Lemma good_refl s : inv s → good s ETau s.
Proof. intros H. apply good_idle; auto. apply H. Qed.

Lemma with_cache_id s : with_cache s (cache s) = s.
Proof. by destruct s. Qed.
Lemma with_mem_id s : with_mem s (mem s) = s.
Proof. by destruct s. Qed.

(** A hit pins the slot. *)
Lemma good_hit s i sl k c' b :
  inv s → table (cache s) !! i = Some sl → is_hit k sl = true →
  bool_decide (state sl = InFlight) && is_filling (cache s) i = false →
  pins sl + 1 < 2 ^ 32 → b = mkRef i (frame_of (cache s) i) →
  c' = set_table (cache s) (<[i := with_pins sl (pins sl + 1)]> (table (cache s))) →
  good s ETau (with_cache (with_refs s (b :: refs s)) c').
Proof.
  intros Hinv Hi [Hf Hk]%is_hit_spec Hnf Hp -> ->. pose proof (inv_shape s Hinv) as Hsh.
  destruct (inv_slots s Hinv i sl Hi) as (Hd & Hpins & Hv & Hdev & Hst).
  pose proof (slot_lt _ _ _ Hsh Hi) as Hlt.
  destruct (wf_slot_ok _ _ _ (sh_wf _ Hsh) Hi) as (_ & Hdi & Hpr).
  apply (good_local s ETau _ i sl (with_pins sl (pins sl + 1)) Hinv); simpl.
  - split; simpl; try done. intros j Hne. unfold refs_at. simpl.
    by rewrite filter_cons_False by (simpl; congruence).
  - apply (table_wf_insert _ _ sl); [done..| |by left].
    unfold slot_ok. simpl. split; [done|]. split; [done|lia].
  - unfold slot_inv. unfold refs_at at 1 2. simpl.
    rewrite (refs_at_cons s _ _ i) by done. simpl. rewrite Hpins.
    split; [done|]. split; [lia|]. split; [by constructor|]. split; [done|].
    unfold state_ok in *. simpl. destruct (state sl) eqn:Es; [done..|].
    destruct Hst as (o & Ho & Hok). exists o. split; [done|].
    unfold io_ok in *. simpl in Hnf. destruct o; [|done].
    destruct Hok as [E _]. unfold is_filling in *. simpl in *. congruence.
  - apply Hinv.
  - constructor; [done|apply Hinv].
  - apply Hinv.
  - done.
  - done.
Qed.

Lemma is_hit_new k k' st p b : st ≠ Free → is_hit k' (mkSlot k st p b) = true ↔ k' = k.
Proof. intros. rewrite is_hit_spec. simpl. naive_solver. Qed.

Lemma content_at_miss s i sl k : is_hit k sl = false → content_at s i sl k = disk s (lba k).
Proof. unfold content_at. by intros ->. Qed.
Lemma content_at_hit s i sl k :
  is_hit k sl = true → content_at s i sl k =
    if is_filling (cache s) i then disk s (lba k) else mem s (frame_of (cache s) i).
Proof. unfold content_at. by intros ->. Qed.

(** A slot that may be reused shows what the disk has. *)
Lemma reusable_content s i sl k :
  slot_inv s i sl → state sl = Free ∨ state sl = Clean → settled s k →
  content_at s i sl k = disk s (lba k).
Proof.
  intros (_ & _ & _ & _ & Hst) Hs Hset. unfold content_at.
  destruct (is_hit k sl) eqn:Eh; [|done]. apply is_hit_spec in Eh as [Hf <-].
  destruct Hs as [Hs|Hs]; [done|]. unfold state_ok in Hst. rewrite Hs in Hst.
  destruct Hst as (_ & -> & Hst). auto.
Qed.

Lemma reusable_no_refs s i sl :
  slot_inv s i sl → pins sl = 0 → refs_at s i = [].
Proof. intros (_ & H & _) Hp. apply nil_length_inv. lia. Qed.

Lemma reusable_no_ios s i sl :
  slot_inv s i sl → state sl = Free ∨ state sl = Clean →
  ios_at s i = [] ∧ is_filling (cache s) i = false.
Proof.
  intros (_ & _ & _ & _ & Hst) [Hs|Hs]; unfold state_ok in Hst; rewrite Hs in Hst; tauto.
Qed.

(** A claimed slot starts its fill. *)
Lemma good_claim_fill s i sl k w f c' :
  inv s → table (cache s) !! i = Some sl → lookup (table (cache s)) k = None →
  dev k = ONLY_DEVICE →
  state sl = Free ∨ state sl = Clean → pins sl = 0 →
  length w = length (writeback_failed (cache s)) →
  f = mkFill (mkToken i Free) (frame_of (cache s) i) →
  c' = mkBcache (<[i := mkSlot k InFlight 0 false]> (table (cache s))) (frames (cache s))
         (<[i := true]> (filling (cache s))) w →
  good s ETau (with_cache (with_ios s (IoFill k f Reading :: ios s)) c').
Proof.
  intros Hinv Hi Hl Hk Hs Hp Hw -> ->. pose proof (inv_shape s Hinv) as Hsh.
  pose proof (inv_slots s Hinv i sl Hi) as Hsl. pose proof (slot_lt _ _ _ Hsh Hi) as Hlt.
  assert (i < length (filling (cache s)))%nat as Hlf by by rewrite (sh_filling _ Hsh).
  apply (good_local s ETau _ i sl (mkSlot k InFlight 0 false) Hinv); simpl.
  - split; simpl; try done.
    + rewrite length_insert. split; [done|]. intros j Hne.
      rewrite (is_filling_insert (cache s)) by done. by rewrite decide_False.
    + intros j Hne. unfold ios_at. simpl. by rewrite filter_cons_False by (simpl; congruence).
  - apply (table_wf_insert _ _ sl); [done..| |by right].
    unfold slot_ok. simpl. split; [done|]. split; [done|lia].
  - unfold slot_inv. change (refs_at _ i) with (refs_at s i).
    rewrite (reusable_no_refs s i sl) by done. split; [done|]. split; [done|].
    split; [constructor|]. split; [done|]. unfold state_ok. simpl.
    eexists. unfold ios_at. simpl. rewrite filter_cons_True by done.
    change (filter _ (ios s)) with (ios_at s i).
    rewrite (proj1 (reusable_no_ios s i sl Hsl Hs)). split; [done|].
    unfold io_ok. simpl. rewrite (is_filling_insert (cache s)) by done.
    rewrite decide_True by done. repeat split. done.
  - constructor; [done|apply Hinv].
  - apply Hinv.
  - apply Hinv.
  - done.
  - intros k' Hk' Hset _. simpl. rewrite (reusable_content s i sl) by done.
    unfold content_at. simpl. rewrite (is_filling_insert (cache s)) by done.
    rewrite decide_True by done. by destruct (is_hit k' _).
Qed.

(** The driver's read ends, well or badly. *)
Lemma good_read s k f rest ok d :
  inv s → ios s ≡ₚ IoFill k f Reading :: rest → (ok = true → d = disk s (lba k)) →
  good s ETau (with_ios (with_mem s (poke (mem s) (fill_virt f) d))
                 (IoFill k f (ReadDone ok) :: rest)).
Proof.
  intros Hinv Hp Hd0. pose proof (inv_shape s Hinv) as Hsh.
  destruct (live_io _ _ _ Hinv Hp) as (sl & Hi & Hs & Hsl & Hok & Hrest).
  destruct (ios_rest_lt _ _ _ Hinv Hp) as [Hlt Hrl].
  set (i := io_slot (IoFill k f Reading)) in *.
  destruct Hok as (Hfl & -> & Hpin & Hv & _). destruct Hsl as (Hd & Hpins & Hvr & Hdev & _).
  apply (good_local s ETau _ i sl sl Hinv); simpl.
  - split; simpl; try done.
    + by rewrite list_insert_id.
    + intros x Hx. rewrite poke_ne; [done|congruence].
    + intros j Hne. unfold ios_at. simpl. rewrite filter_cons_False by (exact (λ E, Hne (eq_sym E))).
      by eapply ios_at_other.
  - apply Hsh.
  - unfold slot_inv. split; [done|]. split; [done|]. split; [done|]. split; [done|].
    unfold state_ok. rewrite Hs. eexists. unfold ios_at. simpl.
    rewrite filter_cons_True by done. rewrite Hrest. split; [done|].
    unfold io_ok. simpl. repeat split; [done..|].
    intros [= ->] _. rewrite poke_eq. auto.
  - by constructor.
  - apply Hinv.
  - apply Hinv.
  - done.
  - intros k' Hk' Hset Hh. unfold content_at. simpl. rewrite Hfl.
    by destruct (is_hit k' sl).
Qed.

(** A fill resolves: readable and pinned, or the slot is free again. *)
Lemma good_finish_fill s k f ph rest (ok : bool) c' :
  inv s → ios s ≡ₚ IoFill k f ph :: rest → (ok = true → ph = ReadDone true) →
  c' = mkBcache
    (<[io_slot (IoFill k f ph) := if ok then mkSlot k Clean 1 false else empty_slot]> (table (cache s)))
    (frames (cache s)) (<[io_slot (IoFill k f ph) := false]> (filling (cache s)))
    (writeback_failed (cache s)) →
  good s ETau (with_cache (with_ios (with_refs s
      ((if ok then [mkRef (io_slot (IoFill k f ph)) (frame_of (cache s) (io_slot (IoFill k f ph)))]
        else []) ++ refs s)) rest) c').
Proof.
  intros Hinv Hp Hokp ->. pose proof (inv_shape s Hinv) as Hsh.
  destruct (live_io _ _ _ Hinv Hp) as (sl & Hi & Hs & Hsl & Hok & Hrest).
  destruct (ios_rest_lt _ _ _ Hinv Hp) as [Hlt Hrl].
  set (i := io_slot (IoFill k f ph)) in *.
  destruct Hok as (Hfl & -> & Hpin & Hv & Hread).
  pose proof (reusable_no_refs _ _ _ Hsl Hpin) as Hnr. destruct Hsl as (Hd & _ & _ & Hdev & _).
  assert (i < length (filling (cache s)))%nat as Hlf by by rewrite (sh_filling _ Hsh).
  apply (good_local s ETau _ i sl (if ok then mkSlot (key sl) Clean 1 false else empty_slot) Hinv);
    simpl.
  - split; simpl; try done.
    + rewrite length_insert. split; [done|]. intros j Hne.
      rewrite (is_filling_insert (cache s)) by done. by rewrite decide_False.
    + intros j Hne. by eapply ios_at_other.
    + intros j Hne. unfold refs_at. simpl. destruct ok; [|done]. simpl.
      by rewrite filter_cons_False by (simpl; congruence).
  - apply (table_wf_insert _ _ sl); [done..| |]; destruct ok; simpl; try done.
    left. split; [by rewrite Hs|done].
  - unfold slot_inv, refs_at. simpl.
    assert (filter (λ b, ref_slot b = i) ((if ok then [mkRef i (frame_of (cache s) i)] else []) ++ refs s)
      = if ok then [mkRef i (frame_of (cache s) i)] else []) as ->.
    { unfold refs_at in Hnr. destruct ok; simpl; [rewrite filter_cons_True by done|]; by rewrite Hnr. }
    unfold state_ok, ios_at. simpl. rewrite Hrest, (is_filling_insert (cache s)) by done.
    rewrite decide_True by done. destruct ok; simpl.
    + do 2 (split; [done|]). split; [by constructor|].
      split; [intros _; apply Hdev; by rewrite Hs|]. do 2 (split; [done|]).
      intros Hset. change (frame_of _ i) with (frame_of (cache s) i).
      rewrite <- Hv. apply Hread; auto.
    + do 2 (split; [done|]). split; [by constructor|]. done.
  - done.
  - apply Forall_app. split; [|apply Hinv]. destruct ok; [by constructor|done].
  - apply Hinv.
  - done.
  - intros k' Hk' Hset Hh. simpl. unfold content_at. simpl.
    rewrite (is_filling_insert (cache s)) by done. rewrite decide_True by done. rewrite Hfl.
    destruct ok; [|by destruct (is_hit k' sl)].
    assert (is_hit k' sl = true ∧ k' = key sl) as [-> ->].
    { rewrite !is_hit_spec in *. simpl in Hh. rewrite Hs in *. naive_solver. }
    rewrite (proj2 (is_hit_new _ _ Clean 1 false ltac:(done)) eq_refl).
    change (frame_of _ i) with (frame_of (cache s) i). rewrite <- Hv. apply Hread; auto.
Qed.

(** A reader lets go. *)
Lemma good_drop_ref s b rest c' :
  inv s → refs s ≡ₚ b :: rest → drop_ref (cache s) b = Ret c' →
  good s ETau (with_cache (with_refs s rest) c').
Proof.
  intros Hinv Hp He. pose proof (inv_shape s Hinv) as Hsh. set (i := ref_slot b).
  assert ((i < SLOTS)%nat ∧ Forall (λ b, (ref_slot b < SLOTS)%nat) rest) as [Hlt Hrl].
  { pose proof (inv_refs s Hinv) as H. rewrite Hp in H. by apply Forall_cons in H. }
  pose proof Hlt as Hlt'. rewrite <- (sh_table _ Hsh) in Hlt'.
  apply lookup_lt_is_Some in Hlt' as [sl Hi].
  destruct (inv_slots s Hinv i sl Hi) as (Hd & Hpins & Hv & Hdev & Hst).
  pose proof (refs_at_perm _ _ _ Hp) as Hat. fold i in Hat.
  rewrite Hat in Hpins, Hv. apply Forall_cons in Hv as [_ Hv]. rewrite length_cons in Hpins.
  rewrite (drop_ref_eq (cache s) i sl) in He by (done || lia). injection He as <-.
  destruct (wf_slot_ok _ _ _ (sh_wf _ Hsh) Hi) as (Hfp & Hdi & Hpr).
  apply (good_local s ETau _ i sl (with_pins sl (pins sl - 1)) Hinv); simpl.
  - split; simpl; try done. intros j Hne. unfold refs_at. simpl. rewrite Hp.
    by rewrite filter_cons_False by (exact (λ E, Hne (eq_sym E))).
  - apply (table_wf_insert _ _ sl); [done..| |by left].
    unfold slot_ok. simpl. split; [intros E%Hfp; lia|]. split; [done|lia].
  - unfold slot_inv. unfold refs_at at 1 2. simpl. split; [done|]. split; [lia|].
    split; [done|]. split; [done|].
    unfold state_ok in *. simpl. destruct (state sl) eqn:Es; [done..|].
    destruct Hst as (o & Ho & Hok). exists o. split; [done|].
    unfold io_ok in *. destruct o; [|done]. destruct Hok as (_ & _ & Hp0 & _). lia.
  - apply Hinv.
  - done.
  - apply Hinv.
  - done.
  - done.
Qed.

(** A write lands in the frame. *)
Lemma good_store s i sl k d w c' :
  inv s → table (cache s) !! i = Some sl → state sl ≠ InFlight → pins sl = 0 →
  dev k = ONLY_DEVICE →
  is_hit k sl = true ∨ (lookup (table (cache s)) k = None ∧ (state sl = Free ∨ state sl = Clean)) →
  length w = length (writeback_failed (cache s)) →
  c' = mkBcache (<[i := mkSlot k Dirty 0 false]> (table (cache s))) (frames (cache s))
         (filling (cache s)) w →
  good s (EStore k d) (with_cache (with_mem s (poke (mem s) (frame_of (cache s) i) d)) c').
Proof.
  intros Hinv Hi Hs Hp Hk Hor Hw ->. pose proof (inv_shape s Hinv) as Hsh.
  pose proof (inv_slots s Hinv i sl Hi) as Hsl.
  assert (ios_at s i = [] ∧ is_filling (cache s) i = false) as [Hio Hfl].
  { destruct Hsl as (_ & _ & _ & _ & Hst). unfold state_ok in Hst. destruct (state sl); tauto. }
  assert (is_hit k (mkSlot k Dirty 0 false) = true) as Hnew by by apply is_hit_new.
  apply (good_local s _ _ i sl (mkSlot k Dirty 0 false) Hinv); simpl.
  - split; simpl; try done. intros x Hx. by rewrite poke_ne.
  - apply (table_wf_insert _ _ sl); [done..|done|]. intros _. simpl.
    destruct Hor as [[? ?]%is_hit_spec|[? _]]; auto.
  - unfold slot_inv. change (refs_at _ i) with (refs_at s i).
    rewrite (reusable_no_refs s i sl) by done. do 2 (split; [done|]).
    split; [by constructor|]. split; [done|]. done.
  - apply Hinv.
  - apply Hinv.
  - apply Hinv.
  - by intros ? ? [= <- <-].
  - intros k' Hk' Hset Hh. unfold content_at. simpl.
    change (is_filling _ i) with (is_filling (cache s) i). rewrite Hfl.
    change (frame_of _ i) with (frame_of (cache s) i). rewrite poke_eq.
    case_decide as E; [subst k'; by rewrite Hnew|].
    assert (is_hit k' (mkSlot k Dirty 0 false) = false) as Hn.
    { apply not_true_iff_false. rewrite is_hit_new by done. congruence. }
    rewrite Hn in Hh |- *. destruct Hh as [Hh|]; [|done]. rewrite Hh.
    destruct Hor as [Hhk|[_ Hr]].
    + exfalso. apply is_hit_spec in Hh as [_ <-], Hhk as [_ <-]. done.
    + pose proof (reusable_content s i sl k' Hsl Hr Hset) as Hc. unfold content_at in Hc.
      by rewrite Hh, Hfl in Hc.
Qed.

(** A dirty slot is taken for writeback. *)
Lemma good_begin_writeback s i sl w c' :
  inv s → table (cache s) !! i = Some sl → state sl = Dirty →
  w = mkWb (mkToken i Dirty) (frame_of (cache s) i) (key sl) →
  c' = set_table (cache s) (<[i := with_state sl InFlight]> (table (cache s))) →
  good s ETau (with_cache (with_ios s (IoWb w Queued :: ios s)) c').
Proof.
  intros Hinv Hi Hs -> ->. pose proof (inv_shape s Hinv) as Hsh.
  destruct (inv_slots s Hinv i sl Hi) as (Hd & Hpins & Hv & Hdev & Hst).
  pose proof (slot_lt _ _ _ Hsh Hi) as Hlt.
  destruct (wf_slot_ok _ _ _ (sh_wf _ Hsh) Hi) as (_ & _ & Hpr).
  unfold state_ok in Hst. rewrite Hs in Hst. destruct Hst as [Hio Hfl].
  apply (good_local s ETau _ i sl (with_state sl InFlight) Hinv); simpl.
  - split; simpl; try done. intros j Hne. unfold ios_at. simpl.
    by rewrite filter_cons_False by (simpl; congruence).
  - apply (table_wf_insert _ _ sl); [done..|done|]. left. by rewrite Hs.
  - unfold slot_inv. change (refs_at _ i) with (refs_at s i). do 2 (split; [done|]).
    split; [done|]. split; [intros _; apply Hdev; by rewrite Hs|].
    unfold state_ok, ios_at. simpl. eexists. rewrite filter_cons_True by done.
    change (filter _ (ios s)) with (ios_at s i). rewrite Hio. done.
  - constructor; [done|apply Hinv].
  - apply Hinv.
  - apply Hinv.
  - done.
  - intros k Hk Hset Hh. simpl. unfold content_at. simpl.
    change (is_filling _ i) with (is_filling (cache s) i). rewrite Hfl.
    assert (is_hit k (with_state sl InFlight) = is_hit k sl) as ->; [|done].
    unfold is_hit, with_state. simpl. by rewrite Hs.
Qed.

(** The device's side of a writeback: the request's phase changes, and the
    disk under its block, and nothing else. *)
Lemma good_wb_progress s w ph ph' rest dk :
  inv s → ios s ≡ₚ IoWb w ph :: rest →
  (∀ x, x ≠ lba (wb_key w) → dk x = disk s x) →
  match ph' with
  | Queued => True
  | Submitted d => d = mem s (wb_virt w)
  | WriteDone true => settled s (wb_key w) → mem s (wb_virt w) = dk (lba (wb_key w))
  | WriteDone false => True
  end →
  good s ETau (with_ios (with_disk s dk) (IoWb w ph' :: rest)).
Proof.
  intros Hinv Hp Hdk Hph. pose proof (inv_shape s Hinv) as Hsh.
  destruct (live_io _ _ _ Hinv Hp) as (sl & Hi & Hs & Hsl & Hok & Hrest).
  destruct (ios_rest_lt _ _ _ Hinv Hp) as [Hlt Hrl].
  set (i := io_slot (IoWb w ph)) in *.
  destruct Hok as (Hfl & Hk & Hv & _). destruct Hsl as (Hd & Hpins & Hvr & Hdev & _).
  assert (dev (key sl) = ONLY_DEVICE) as Hkd by (apply Hdev; by rewrite Hs).
  apply (good_local s ETau _ i sl sl Hinv); simpl.
  - split; simpl; try done.
    + by rewrite list_insert_id.
    + intros k Hkk Hh. apply Hdk. intros E. apply lba_inj in E; [|congruence].
      apply is_hit_false in Hh. rewrite Hs in Hh. destruct Hh; [done|congruence].
    + intros j Hne. unfold ios_at. simpl. rewrite filter_cons_False by (exact (λ E, Hne (eq_sym E))).
      by eapply ios_at_other.
  - apply Hsh.
  - do 4 (split; [done|]). unfold state_ok. rewrite Hs. eexists. unfold ios_at. simpl.
    rewrite filter_cons_True by done. rewrite Hrest. split; [done|].
    do 3 (split; [done|]). simpl. destruct ph' as [|d|[]]; try done.
    intros Hset. rewrite <- Hk. apply Hph. by rewrite Hk.
  - by constructor.
  - apply Hinv.
  - apply Hinv.
  - done.
  - intros k' Hk' Hset Hh. unfold content_at. simpl.
    change (is_filling (cache (with_ios _ _)) i) with (is_filling (cache s) i). rewrite Hfl.
    destruct Hh as [Hh|Hh]; by rewrite Hh.
Qed.

(** A writeback resolves: clean when it succeeded, dirty when it did not. *)
Lemma good_end_writeback s w ph rest st v c' :
  inv s → ios s ≡ₚ IoWb w ph :: rest →
  st = Dirty ∨ (st = Clean ∧ ph = WriteDone true) →
  length v = length (writeback_failed (cache s)) →
  (∀ sl, table (cache s) !! io_slot (IoWb w ph) = Some sl →
   c' = mkBcache (<[io_slot (IoWb w ph) := mkSlot (key sl) st (pins sl) false]> (table (cache s)))
          (frames (cache s)) (filling (cache s)) v) →
  good s ETau (with_cache (with_ios s rest) c').
Proof.
  intros Hinv Hp Hst Hv Hc'. pose proof (inv_shape s Hinv) as Hsh.
  destruct (live_io _ _ _ Hinv Hp) as (sl & Hi & Hs & Hsl & Hok & Hrest).
  destruct (ios_rest_lt _ _ _ Hinv Hp) as [Hlt Hrl].
  rewrite (Hc' sl Hi). set (i := io_slot (IoWb w ph)) in *. clear Hc'.
  destruct Hok as (Hfl & Hk & Hwv & Hph). destruct Hsl as (Hd & Hpins & Hvr & Hdev & _).
  destruct (wf_slot_ok _ _ _ (sh_wf _ Hsh) Hi) as (_ & _ & Hpr).
  assert (st ≠ Free) as Hnf by (destruct Hst as [-> | [-> _]]; done).
  apply (good_local s ETau _ i sl (mkSlot (key sl) st (pins sl) false) Hinv); simpl.
  - split; simpl; try done. intros j Hne. by eapply ios_at_other.
  - apply (table_wf_insert _ _ sl); [done..| |]; simpl.
    + unfold slot_ok. simpl. done.
    + left. by rewrite Hs.
  - unfold slot_inv. change (refs_at _ i) with (refs_at s i). do 3 (split; [done|]).
    split; [intros _; apply Hdev; by rewrite Hs|].
    unfold state_ok, ios_at. simpl. rewrite Hrest.
    destruct Hst as [-> | [-> ->]]; [done|]. do 2 (split; [done|]).
    change (frame_of _ i) with (frame_of (cache s) i). rewrite <- Hwv. exact Hph.
  - done.
  - apply Hinv.
  - apply Hinv.
  - done.
  - intros k Hk' Hset Hh. simpl. unfold content_at. simpl.
    change (is_filling _ i) with (is_filling (cache s) i). rewrite Hfl.
    assert (is_hit k (mkSlot (key sl) st (pins sl) false) = is_hit k sl) as ->; [|done].
    unfold is_hit. simpl. rewrite Hs. by destruct st.
Qed.

(** ** Preservation *)

Lemma good_trans s s1 s2 e :
  good s ETau s1 → (∀ k, settled s2 k → settled s1 k) → good s1 e s2 → good s e s2.
Proof.
  intros [_ H1] Hset [Hi H2]. split; [done|]. intros k Hk Hs. rewrite H2 by done.
  by rewrite H1 by auto.
Qed.

Lemma good_expire s w ph : inv s → good s ETau (expire s w ph).
Proof.
  intros Hinv. destruct ph; simpl; try by apply good_refl.
  apply good_idle; simpl; try done.
  - intros k Hk. unfold settled in *. simpl in Hk. set_solver.
  - constructor; [left|]. eapply Forall_impl; [apply Hinv|]. simpl. intros l Hl. by right.
Qed.

Lemma good_claim s k l r c' :
  inv s → read_entry k = Ok l → claim (cache s) k = Ret (r, c') →
  good s ETau (with_cache (after_claim s k r) c').
Proof.
  intros Hinv [Hk _]%read_entry_ok He. pose proof (inv_shape s Hinv) as Hsh.
  destruct (lookup (table (cache s)) k) as [i|] eqn:El.
  - apply lookup_Some in El as (sl & Hi & Hf & Hkey); [|apply Hsh].
    assert (is_hit k sl = true) as Hh by by apply is_hit_spec.
    rewrite (claim_resident _ i sl) in He by done.
    destruct (bool_decide (state sl = InFlight) && is_filling (cache s) i) eqn:Ew.
    + injection He as <- <-. simpl. rewrite with_cache_id. by apply good_refl.
    + apply bind_ret_inv in He as (t & (sl0 & Hi0 & _ & Hp & ->)%pin_ret & [= <- <-]).
      rewrite Hi in Hi0. injection Hi0 as <-. by eapply (good_hit s i sl k).
  - unfold claim in He. rewrite El in He.
    destruct (claim_free_slot_spec _ k Hsh El) as [E|(i & sl & w & Hi & Hs & Hp & Hw & E)];
      rewrite E in He; simpl in He.
    + injection He as <- <-. simpl. rewrite with_cache_id. by apply good_refl.
    + pose proof (slot_lt _ _ _ Hsh Hi) as Hlt.
      rewrite set_index_nat in He by (rewrite (sh_filling _ Hsh); done). simpl in He.
      rewrite index_frames in He by done. simpl in He. injection He as <- <-.
      by eapply (good_claim_fill s i sl k w).
Qed.

Lemma good_store_step s k d l r c' m' :
  inv s → write_entry k d = Ok l → store (cache s) (mem s) k d = Ret (r, c', m') →
  good s (store_event k d r) (with_cache (with_mem s m') c').
Proof.
  intros Hinv (Hk & _ & _)%write_entry_ok He. pose proof (inv_shape s Hinv) as Hsh.
  destruct (lookup (table (cache s)) k) as [i|] eqn:El.
  - apply lookup_Some in El as (sl & Hi & Hf & Hkey); [|apply Hsh].
    assert (is_hit k sl = true) as Hh by by apply is_hit_spec.
    rewrite (store_resident _ i sl) in He by (done || exact (proj1 (inv_slots s Hinv i sl Hi))).
    case_bool_decide as Hs.
    { injection He as <- <- <-. simpl. rewrite with_mem_id, with_cache_id. by apply good_refl. }
    case_bool_decide as Hp.
    { injection He as <- <- <-. simpl. rewrite with_mem_id, with_cache_id. by apply good_refl. }
    injection He as <- <- <-. simpl. eapply (good_store s i sl k d (<[i := false]> (writeback_failed (cache s))));
      try done; [by left|].
    by rewrite length_insert.
  - destruct (store_absent _ (mem s) k d Hsh El) as [E|(i & sl & w & Hi & Hs & Hp & Hw & E)];
      rewrite E in He; injection He as <- <- <-; simpl.
    + rewrite with_mem_id, with_cache_id. by apply good_refl.
    + eapply (good_store s i sl k d w); try done; [|by right].
      intros E'. rewrite E' in Hs. by destruct Hs.
Qed.

Lemma slot_facts s o rest :
  inv s → ios s ≡ₚ o :: rest →
  ∃ sl, table (cache s) !! io_slot o = Some sl ∧ state sl = InFlight ∧
    dirtied_during_io sl = false ∧ dev (key sl) = ONLY_DEVICE ∧
    match o with
    | IoFill k _ _ => key sl = k ∧ pins sl = 0
    | IoWb w _ => key sl = wb_key w
    end.
Proof.
  intros Hinv Hp. destruct (live_io _ _ _ Hinv Hp) as (sl & Hi & Hs & (Hd & _ & _ & Hdev & _) & Hok & _).
  exists sl. do 3 (split; [done|]). split; [apply Hdev; by rewrite Hs|].
  destruct o; [destruct Hok as (_ & -> & ? & _)|destruct Hok as (_ & ? & _)]; done.
Qed.

Lemma good_begin_step s slot r c' :
  inv s → begin_writeback (cache s) slot = Ret (r, c') →
  good s ETau (with_cache (with_ios s (map (λ w, IoWb w Queued) (option_list r) ++ ios s)) c').
Proof.
  intros Hinv He. pose proof (inv_shape s Hinv) as Hsh.
  assert (with_cache (with_ios s (ios s)) (cache s) = s) as Hid by by destruct s.
  destruct (table (cache s) !! slot) as [sl|] eqn:Hi.
  - rewrite (begin_writeback_eq _ slot sl) in He by done. case_bool_decide as Hs.
    { injection He as <- <-. simpl. rewrite Hid. by apply good_refl. }
    destruct (is_filling (cache s) slot); [done|]. injection He as <- <-.
    by eapply (good_begin_writeback s slot sl).
  - unfold begin_writeback, state_of in He. rewrite Hi in He. simpl in He.
    injection He as <- <-. simpl. rewrite Hid. by apply good_refl.
Qed.

Lemma good_late s a d rest junk late' :
  inv s → late s ≡ₚ (a, d) :: rest → late' = rest ∨ late' = late s →
  good s ETau (with_late (with_disk s (poke (disk s) a junk)) late' (abandoned s)).
Proof.
  intros Hinv Hp Hl. pose proof (inv_late s Hinv) as Hab. pose proof Hab as Hab'.
  rewrite Hp in Hab. apply Forall_cons in Hab as [Ha Hab]. simpl in Ha.
  apply good_idle; simpl; try done.
  - intros k Hk. split; [done|]. apply poke_ne. intros <-. by apply Hk.
  - by destruct Hl as [-> | ->].
Qed.

(** Every step keeps the invariant and changes block contents exactly as
    its event says. *)
Lemma step_good s e s' : inv s → step s e s' → good s e s'.
Proof.
  intros Hinv Hstep. pose proof (inv_shape s Hinv) as Hsh.
  destruct Hstep as [s k l r c' Hk He|s k f rest Hp|s k f rest junk Hp|s k f ok rest r c' Hp He
    |s k f rest c' Hp He|s b rest c' Hp He|s k d l r c' m' Hk He|s slot r c' He|s w rest Hp
    |s w d rest junk Hp|s w d rest Hp|s w ph rest Hp Hph|s w ph rest Hp Hph|s w ok rest c' Hp He
    |s w ph rest c' Hp Hph He|s a d rest Hp|s a d rest junk Hp].
  - by eapply good_claim.
  - by apply good_read.
  - by apply good_read.
  - destruct (slot_facts _ _ _ Hinv Hp) as (sl & Hi & Hs & Hd & _ & Hk & Hpin).
    rewrite (finish_fill_eq _ _ sl Hsh Hi) in He by done. injection He as <- <-.
    eapply eq_ind; [eapply (good_finish_fill s k f (ReadDone ok) rest ok); try done; by intros ->|].
    rewrite Hk. by destruct ok.
  - destruct (slot_facts _ _ _ Hinv Hp) as (sl & Hi & Hs & Hd & _ & Hk & Hpin).
    rewrite (drop_fill_eq _ _ sl Hsh Hi) in He by done. injection He as <-.
    eapply eq_ind; [by eapply (good_finish_fill s k f Reading rest false)|]. by destruct s.
  - by eapply good_drop_ref.
  - by eapply good_store_step.
  - by eapply good_begin_step.
  - assert (with_disk s (disk s) = s) as Hid by by destruct s. rewrite <- Hid at 2.
    by eapply good_wb_progress.
  - eapply good_wb_progress; [done..|intros x Hx; by apply poke_ne|].
    by destruct (live_io _ _ _ Hinv Hp) as (sl & _ & _ & _ & (_ & _ & _ & Hok) & _).
  - eapply good_wb_progress; [done..|intros x Hx; by apply poke_ne|].
    destruct (live_io _ _ _ Hinv Hp) as (sl & _ & _ & _ & (_ & _ & _ & Hok) & _).
    intros _. rewrite poke_eq. by symmetry.
  - assert (with_disk s (disk s) = s) as Hid by by destruct s. rewrite <- Hid at 2.
    by eapply good_wb_progress.
  - pose proof (good_expire s w ph Hinv) as Hg. eapply (good_trans _ _ _ _ Hg).
    { intros k Hk. destruct ph; exact Hk. }
    assert (expire (with_ios s (IoWb w (WriteDone false) :: rest)) w ph =
      with_ios (with_disk (expire s w ph) (disk (expire s w ph))) (IoWb w (WriteDone false) :: rest)) as ->
      by by destruct s, ph.
    eapply (good_wb_progress _ w ph); [apply Hg| |done..]. by destruct ph.
  - destruct (slot_facts _ _ _ Hinv Hp) as (sl & Hi & Hs & Hd & _ & Hk).
    rewrite (finish_writeback_eq _ _ sl Hsh Hi) in He by done. injection He as <-.
    eapply (good_end_writeback s w (WriteDone ok) rest (if ok then Clean else Dirty)
      (<[io_slot (IoWb w (WriteDone ok)) := negb ok]> (writeback_failed (cache s))));
      [done|exact Hp| | |].
    + destruct ok; [by right|by left].
    + by rewrite length_insert.
    + intros sl' Hi'. rewrite Hi in Hi'. by injection Hi' as <-.
  - destruct (slot_facts _ _ _ Hinv Hp) as (sl & Hi & Hs & Hd & _ & Hk).
    rewrite (drop_writeback_eq _ _ sl Hi) in He by done. injection He as <-.
    pose proof (good_expire s w ph Hinv) as Hg. eapply (good_trans _ _ _ _ Hg).
    { intros k Hk'. destruct ph; exact Hk'. }
    assert (expire (with_ios s rest) w ph = with_ios (expire s w ph) rest) as ->
      by by destruct s, ph.
    eapply (good_end_writeback _ w ph rest Dirty (writeback_failed (cache s)));
      [apply Hg|by destruct ph|by left|by destruct ph|].
    intros sl' Hi'. assert (table (cache s) !! io_slot (IoWb w ph) = Some sl') as Hi2
      by (by destruct ph). rewrite Hi in Hi2. injection Hi2 as <-. by destruct ph.
  - eapply good_late; [done|exact Hp|by left].
  - eapply eq_ind; [eapply good_late; [done|exact Hp|by right]|]. by destruct s.
Qed.

(** ** Reachable states *)

Lemma boot_inv fr m d : NoDup fr → length fr = SLOTS → inv (boot fr m d).
Proof.
  intros Hnd Hlen. split; simpl; [|intros i sl|constructor..].
  - split; simpl; [apply cache_new_wf|done..].
  - unfold new. intros [-> Hi]%lookup_replicate. do 2 (split; [done|]).
    split; [constructor|]. split; [done|]. split; [done|].
    unfold is_filling, boot. cbn [cache filling]. by rewrite (lookup_replicate_2 SLOTS false i Hi).
Qed.

Lemma run_inv s tr s' : inv s → run step s tr s' → inv s'.
Proof.
  intros Hi Hr. eapply run_invariant; [|exact Hr|exact Hi].
  intros a l b Ha Hs. by apply (step_good a l b).
Qed.

Lemma abandoned_mono s e s' : step s e s' → ∀ k, settled s' k → settled s k.
Proof.
  unfold settled. destruct 1; simpl; try done; intros k' Hk.
  - destruct r as [[]|]; exact Hk.
  - destruct ph; simpl in *; set_solver.
  - destruct ph; simpl in *; set_solver.
Qed.

Lemma run_settled s tr s' : run step s tr s' → ∀ k, settled s' k → settled s k.
Proof. induction 1 as [|s l s1 ls s2 Hs Hr IH]; [done|]. intros k Hk. by eapply abandoned_mono, IH. Qed.

(** The content the stores of a trace leave in a block. *)
Definition replay (tr : list event) (k : BlockKey) (v : list byte) : list byte :=
  fold_left (λ v e, effect e k v) tr v.

Lemma run_view s tr s' k :
  inv s → run step s tr s' → dev k = ONLY_DEVICE → settled s' k →
  view s' k = replay tr k (view s k).
Proof.
  intros Hi Hr Hk. induction Hr as [|s e s1 tr s2 Hs Hr IH]; intros Hset; [done|].
  destruct (step_good _ _ _ Hi Hs) as [Hi1 Hv]. simpl.
  rewrite IH by done. by rewrite Hv by eauto using run_settled.
Qed.

(** ** Masks *)

Lemma mask_of_acc l acc n :
  0 ≤ n →
  Z.testbit (fold_left (λ mask slot, Z.lor mask (Z.shiftl 1 (Z.of_nat slot))) l acc) n =
  Z.testbit acc n || bool_decide (Z.to_nat n ∈ l).
Proof.
  intros Hn. revert acc. induction l as [|x l IH]; intros acc; cbn [fold_left].
  - rewrite bool_decide_eq_false_2 by apply not_elem_of_nil. by rewrite orb_false_r.
  - rewrite IH, Z.lor_spec, <- orb_assoc. f_equal.
    rewrite Z.shiftl_1_l, Z.pow2_bits_eqb by lia.
    destruct (Z.eqb_spec (Z.of_nat x) n) as [E|E]; cbn [orb].
    + rewrite bool_decide_eq_true_2; [done|]. replace (Z.to_nat n) with x by lia. left.
    + apply bool_decide_ext. rewrite elem_of_cons. split; [by right|].
      intros [H|H]; [lia|done].
Qed.

Lemma mask_of_spec l n : Z.testbit (mask_of l) (Z.of_nat n) = bool_decide (n ∈ l).
Proof. unfold mask_of. rewrite mask_of_acc by lia. by rewrite Z.testbit_0_l, Nat2Z.id. Qed.

Lemma unsynced_mask_spec c n :
  (n < SLOTS)%nat → Z.testbit (unsynced_mask c) (Z.of_nat n) = unsynced c n.
Proof.
  intros Hn. unfold unsynced_mask. rewrite mask_of_spec. destruct (unsynced c n) eqn:E.
  - apply bool_decide_eq_true_2, list_elem_of_filter. split; [done|]. apply elem_of_seq. lia.
  - apply bool_decide_eq_false_2. rewrite list_elem_of_filter.
    intros [? _]. congruence.
Qed.

(** A block that is not owed to the disk is on the disk. *)
Lemma synced_on_disk s k :
  inv s → settled s k →
  (∀ slot, lookup (table (cache s)) k = Some slot → unsynced (cache s) slot = false) →
  view s k = disk s (lba k).
Proof.
  intros Hinv Hset Hun. unfold view.
  destruct (lookup (table (cache s)) k) as [i|] eqn:El; [|done].
  apply lookup_Some in El as (sl & Hi & Hf & <-); [|apply Hinv].
  destruct (inv_slots s Hinv i sl Hi) as (_ & _ & _ & _ & Hst).
  specialize (Hun i eq_refl). unfold unsynced, state_of in Hun. rewrite Hi in Hun. simpl in Hun.
  unfold state_ok in Hst. destruct (state sl) eqn:Es; [done| |done|].
  - destruct Hst as (_ & -> & Hst). auto.
  - unfold is_filling. by destruct (default false (filling (cache s) !! i)).
Qed.

(** ** A referenced slot *)

(** No step replaces, frees or overwrites a slot that is pinned. *)
Definition keeps (s s' : sys) (i : nat) (sl : Slot) : Prop :=
  frame_of (cache s') i = frame_of (cache s) i ∧
  mem s' (frame_of (cache s) i) = mem s (frame_of (cache s) i) ∧
  ∃ sl', table (cache s') !! i = Some sl' ∧ key sl' = key sl ∧ state sl' ≠ Free.

Lemma keeps_table s s' i j sl slj slj' :
  inv s → table (cache s) !! i = Some sl → state sl ≠ Free →
  table (cache s) !! j = Some slj → table (cache s') = <[j := slj']> (table (cache s)) →
  frames (cache s') = frames (cache s) →
  (pins slj = 0 ∧ pins sl ≠ 0 ∧ (∀ x, x ≠ frame_of (cache s) j → mem s' x = mem s x)) ∨
  (key slj' = key slj ∧ state slj' ≠ Free ∧ mem s' = mem s) →
  keeps s s' i sl.
Proof.
  intros Hinv Hi Hf Hj Ht Hfr Hor. pose proof (inv_shape s Hinv) as Hsh.
  split; [by apply frame_of_same|]. split.
  - destruct Hor as [(Hp & Hn & Hm)|(_ & _ & ->)]; [|done]. apply Hm.
    intros E. apply frame_of_inj in E; [|done|by eapply slot_lt..]. congruence.
  - rewrite Ht. destruct (decide (i = j)) as [<-|Hne].
    + rewrite list_lookup_insert_eq by by eapply lookup_lt_Some. eexists. split; [done|].
      destruct Hor as [(Hp & Hn & _)|(? & ? & _)]; [congruence|]. split; [congruence|done].
    + rewrite list_lookup_insert_ne by done. eauto.
Qed.

Lemma keeps_same s s' i sl :
  table (cache s) !! i = Some sl → state sl ≠ Free →
  cache s' = cache s → mem s' = mem s → keeps s s' i sl.
Proof. intros Hi Hf Hc Hm. unfold keeps. rewrite Hc, Hm. eauto 6. Qed.

Lemma keeps_claim s k l r c' i sl :
  inv s → table (cache s) !! i = Some sl → state sl ≠ Free → pins sl ≠ 0 →
  read_entry k = Ok l → claim (cache s) k = Ret (r, c') →
  keeps s (with_cache (after_claim s k r) c') i sl.
Proof.
  intros Hinv Hi Hf Hpn _ He. pose proof (inv_shape s Hinv) as Hsh.
  destruct (lookup (table (cache s)) k) as [j|] eqn:El.
  - apply lookup_Some in El as (slj & Hj & Hfj & Hkey); [|apply Hsh].
    rewrite (claim_resident _ j slj) in He by (done || by apply is_hit_spec).
    destruct (bool_decide (state slj = InFlight) && is_filling (cache s) j).
    { injection He as <- <-. by apply keeps_same. }
    apply bind_ret_inv in He as (t & (sl0 & Hj0 & _ & _ & ->)%pin_ret & [= <- <-]).
    eapply (keeps_table s _ i j sl sl0); try done. right. simpl. rewrite Hj in Hj0.
    by injection Hj0 as <-.
  - unfold claim in He. rewrite El in He.
    destruct (claim_free_slot_spec _ k Hsh El) as [E|(j & slj & w & Hj & Hs & Hp & Hw & E)];
      rewrite E in He; simpl in He.
    { injection He as <- <-. by apply keeps_same. }
    rewrite set_index_nat in He by (rewrite (sh_filling _ Hsh); by eapply slot_lt).
    simpl in He. rewrite index_frames in He by (done || by eapply slot_lt). simpl in He.
    injection He as <- <-. eapply (keeps_table s _ i j sl slj); try done. by left.
Qed.

Lemma keeps_read s k f ph rest ios' d i sl :
  inv s → table (cache s) !! i = Some sl → state sl ≠ Free → pins sl ≠ 0 →
  ios s ≡ₚ IoFill k f ph :: rest →
  keeps s (with_ios (with_mem s (poke (mem s) (fill_virt f) d)) ios') i sl.
Proof.
  intros Hinv Hi Hf Hpn Hp. pose proof (inv_shape s Hinv) as Hsh.
  destruct (live_io _ _ _ Hinv Hp) as (slj & Hj & Hs & _ & (_ & -> & Hpin & Hv & _) & _).
  eapply (keeps_table s _ i _ sl slj slj); try done; [by rewrite list_insert_id|].
  left. do 2 (split; [done|]). intros x Hx. apply poke_ne. congruence.
Qed.

Lemma keeps_store s k d l r c' m' i sl :
  inv s → table (cache s) !! i = Some sl → state sl ≠ Free → pins sl ≠ 0 →
  write_entry k d = Ok l → store (cache s) (mem s) k d = Ret (r, c', m') →
  keeps s (with_cache (with_mem s m') c') i sl.
Proof.
  intros Hinv Hi Hf Hpn _ He. pose proof (inv_shape s Hinv) as Hsh.
  destruct (lookup (table (cache s)) k) as [j|] eqn:El.
  - apply lookup_Some in El as (slj & Hj & Hfj & Hkey); [|apply Hsh].
    rewrite (store_resident _ j slj) in He
      by (done || (by apply is_hit_spec) || exact (proj1 (inv_slots s Hinv j slj Hj))).
    case_bool_decide; [injection He as <- <- <-; by apply keeps_same|].
    case_bool_decide; [injection He as <- <- <-; by apply keeps_same|].
    injection He as <- <- <-. eapply (keeps_table s _ i j sl slj); try done.
    left. do 2 (split; [done|]). intros x Hx. by apply poke_ne.
  - destruct (store_absent _ (mem s) k d Hsh El) as [E|(j & slj & w & Hj & Hs & Hp & Hw & E)];
      rewrite E in He; injection He as <- <- <-; [by apply keeps_same|].
    eapply (keeps_table s _ i j sl slj); try done.
    left. do 2 (split; [done|]). intros x Hx. by apply poke_ne.
Qed.

Lemma step_keeps s e s' i sl :
  inv s → step s e s' → table (cache s) !! i = Some sl → state sl ≠ Free → pins sl ≠ 0 →
  keeps s s' i sl.
Proof.
  intros Hinv Hstep Hi Hf Hpn. pose proof (inv_shape s Hinv) as Hsh.
  destruct Hstep as [s k l r c' Hk He|s k f rest Hp|s k f rest junk Hp|s k f ok rest r c' Hp He
    |s k f rest c' Hp He|s b rest c' Hp He|s k d l r c' m' Hk He|s slot r c' He|s w rest Hp
    |s w d rest junk Hp|s w d rest Hp|s w ph rest Hp Hph|s w ph rest Hp Hph|s w ok rest c' Hp He
    |s w ph rest c' Hp Hph He|s a d rest Hp|s a d rest junk Hp].
  - by eapply keeps_claim.
  - by eapply (keeps_read s k f).
  - by eapply (keeps_read s k f).
  - destruct (slot_facts _ _ _ Hinv Hp) as (slj & Hj & Hs & Hd & _ & Hk & Hpin).
    rewrite (finish_fill_eq _ _ slj Hsh Hj) in He by done. injection He as <- <-.
    eapply (keeps_table s _ i _ sl slj); try done. by left.
  - destruct (slot_facts _ _ _ Hinv Hp) as (slj & Hj & Hs & Hd & _ & Hk & Hpin).
    rewrite (drop_fill_eq _ _ slj Hsh Hj) in He by done. injection He as <-.
    eapply (keeps_table s _ i _ sl slj); try done. by left.
  - unfold drop_ref in He.
    apply bind_ret_inv in He as (t & (slj & Hj & Hp0 & ->)%unpin_ret & [= <-]).
    eapply (keeps_table s _ i _ sl slj); try done. right. simpl. repeat split.
    intros E. apply (wf_slot_ok _ _ _ (sh_wf _ Hsh) Hj) in E. lia.
  - by eapply (keeps_store s k d).
  - destruct (table (cache s) !! slot) as [slj|] eqn:Hj.
    + rewrite (begin_writeback_eq _ slot slj) in He by done. case_bool_decide as Hs.
      { injection He as <- <-. by apply keeps_same. }
      destruct (is_filling (cache s) slot); [done|]. injection He as <- <-.
      eapply (keeps_table s _ i slot sl slj); try done. by right.
    + unfold begin_writeback, state_of in He. rewrite Hj in He. simpl in He.
      injection He as <- <-. by apply keeps_same.
  - by apply keeps_same.
  - by apply keeps_same.
  - by apply keeps_same.
  - by apply keeps_same.
  - destruct ph; by apply keeps_same.
  - destruct (slot_facts _ _ _ Hinv Hp) as (slj & Hj & Hs & Hd & _ & Hk).
    rewrite (finish_writeback_eq _ _ slj Hsh Hj) in He by done. injection He as <-.
    eapply (keeps_table s _ i _ sl slj); try done. right. simpl. by destruct ok.
  - destruct (slot_facts _ _ _ Hinv Hp) as (slj & Hj & Hs & Hd & _ & Hk).
    rewrite (drop_writeback_eq _ _ slj Hj) in He by done. injection He as <-.
    eapply (keeps_table s _ i _ sl slj); try done. right. simpl. by destruct ph.
  - by apply keeps_same.
  - by apply keeps_same.
Qed.

(** ** Theorems *)

Lemma ref_slot_facts s b :
  inv s → b ∈ refs s →
  ∃ sl, table (cache s) !! ref_slot b = Some sl ∧ state sl ≠ Free ∧ 0 < pins sl ∧
        pins sl ≤ Z.of_nat (length (refs s)) ∧
        ref_virt b = frame_of (cache s) (ref_slot b) ∧
        is_filling (cache s) (ref_slot b) = false.
Proof.
  intros Hinv Hb. pose proof (inv_shape s Hinv) as Hsh.
  assert (ref_slot b < SLOTS)%nat as Hlt
    by exact (proj1 (Forall_forall _ _) (inv_refs s Hinv) b Hb).
  rewrite <- (sh_table _ Hsh) in Hlt. apply lookup_lt_is_Some in Hlt as [sl Hi].
  destruct (inv_slots s Hinv _ sl Hi) as (_ & Hp & Hv & _ & Hst).
  assert (b ∈ refs_at s (ref_slot b)) as Hin by by apply list_elem_of_filter.
  assert (0 < pins sl) as Hpos.
  { destruct (refs_at s (ref_slot b)); [by apply elem_of_nil in Hin|]. simpl in Hp. lia. }
  exists sl. split; [done|]. split.
  { intros E. apply (wf_slot_ok _ _ _ (sh_wf _ Hsh) Hi) in E. lia. }
  split; [done|]. split.
  { unfold refs_at in Hp. pose proof (length_filter (λ b', ref_slot b' = ref_slot b) (refs s)). lia. }
  split; [exact (proj1 (Forall_forall _ _) Hv b Hin)|].
  unfold state_ok in Hst. destruct (state sl); try tauto. destruct Hst as (o & _ & Ho).
  destruct o; [|apply Ho]. destruct Ho as (_ & _ & Hz & _). lia.
Qed.

Lemma pins_le_refs s i sl :
  inv s → table (cache s) !! i = Some sl → pins sl ≤ Z.of_nat (length (refs s)).
Proof.
  intros Hinv Hi. destruct (inv_slots s Hinv i sl Hi) as (_ & -> & _).
  unfold refs_at. pose proof (length_filter (λ b', ref_slot b' = i) (refs s)). lia.
Qed.

Lemma io_perm s o : o ∈ ios s → ∃ rest, ios s ≡ₚ o :: rest.
Proof. apply elem_of_Permutation. Qed.

Lemma claim_returns s k :
  inv s → Z.of_nat (length (refs s)) + 1 < 2 ^ 32 → ∃ out, claim (cache s) k = Ret out.
Proof.
  intros Hinv Hn. pose proof (inv_shape s Hinv) as Hsh.
  destruct (lookup (table (cache s)) k) as [i|] eqn:El.
  - apply lookup_Some in El as (sl & Hi & Hf & Hkey); [|apply Hsh].
    rewrite (claim_resident _ i sl) by (done || by apply is_hit_spec).
    destruct (_ && _); [eauto|]. pose proof (pins_le_refs s i sl Hinv Hi).
    rewrite (proj2 (pin_ret _ _ (<[i := with_pins sl (pins sl + 1)]> (table (cache s)))));
      [simpl; eauto|]. exists sl. repeat split; [done..|lia].
  - unfold claim. rewrite El.
    destruct (claim_free_slot_spec _ k Hsh El) as [->|(i & sl & w & Hi & _ & _ & _ & ->)];
      simpl; [eauto|].
    rewrite set_index_nat by (rewrite (sh_filling _ Hsh); by eapply slot_lt). simpl.
    rewrite index_frames by (done || by eapply slot_lt). simpl. eauto.
Qed.

Lemma store_returns s k d : inv s → ∃ out, store (cache s) (mem s) k d = Ret out.
Proof.
  intros Hinv. pose proof (inv_shape s Hinv) as Hsh.
  destruct (lookup (table (cache s)) k) as [i|] eqn:El.
  - apply lookup_Some in El as (sl & Hi & Hf & Hkey); [|apply Hsh].
    rewrite (store_resident _ i sl)
      by (done || (by apply is_hit_spec) || exact (proj1 (inv_slots s Hinv i sl Hi))).
    repeat case_bool_decide; eauto.
  - destruct (store_absent _ (mem s) k d Hsh El) as [->|(i & sl & w & _ & _ & _ & _ & ->)]; eauto.
Qed.

Lemma begin_writeback_returns s slot : inv s → ∃ out, begin_writeback (cache s) slot = Ret out.
Proof.
  intros Hinv. pose proof (inv_shape s Hinv) as Hsh.
  destruct (table (cache s) !! slot) as [sl|] eqn:Hi.
  - rewrite (begin_writeback_eq _ slot sl) by done. case_bool_decide as Hs; [eauto|].
    destruct (inv_slots s Hinv slot sl Hi) as (_ & _ & _ & _ & Hst).
    unfold state_ok in Hst. rewrite Hs in Hst. destruct Hst as [_ ->]. eauto.
  - unfold begin_writeback, state_of. rewrite Hi. simpl. eauto.
Qed.

Section Reachable.
Context (fr : list Z) (m d : memory) (tr : list event) (s : sys).
Context (Hfr : NoDup fr) (Hlen : length fr = SLOTS) (Hrun : run step (boot fr m d) tr s).

Let Hinv : inv s := run_inv _ _ _ (boot_inv fr m d Hfr Hlen) Hrun.

(** In every state the cache reaches, whatever the interleaving of
    readers, writers, flushes and device completions, no locked section
    panics: every assertion, [expect], [unreachable!] and array index in
    [claim], [store], [begin_writeback], [finish_fill], [finish_writeback]
    and the three destructors holds, as long as fewer than [2^32 - 1]
    references are alive. *)
Theorem locked_sections_never_panic (Hrefs : Z.of_nat (length (refs s)) + 1 < 2 ^ 32) :
  (∀ k, ∃ out, claim (cache s) k = Ret out) ∧
  (∀ k data, ∃ out, store (cache s) (mem s) k data = Ret out) ∧
  (∀ slot, ∃ out, begin_writeback (cache s) slot = Ret out) ∧
  (∀ k f ph ok, IoFill k f ph ∈ ios s →
     ∃ out, finish_fill (cache s) f ok = Ret out ∧ ∃ c', drop_fill (cache s) f = Ret c') ∧
  (∀ w ph ok, IoWb w ph ∈ ios s →
     ∃ c', finish_writeback (cache s) w ok = Ret c' ∧
     ∃ c'', drop_writeback (cache s) w = Ret c'') ∧
  (∀ b, b ∈ refs s → ∃ c', drop_ref (cache s) b = Ret c').
Proof.
  pose proof (inv_shape s Hinv) as Hsh.
  split; [intros k; by apply claim_returns|]. split; [intros; by apply store_returns|].
  split; [intros; by apply begin_writeback_returns|]. split; [|split].
  - intros k f ph ok [rest Hp]%io_perm.
    destruct (slot_facts _ _ _ Hinv Hp) as (sl & Hi & Hs & Hd & _ & _ & Hpin).
    eexists. split; [by apply (finish_fill_eq _ _ sl Hsh Hi)|].
    eexists. by apply (drop_fill_eq _ _ sl Hsh Hi).
  - intros w ph ok [rest Hp]%io_perm.
    destruct (slot_facts _ _ _ Hinv Hp) as (sl & Hi & Hs & Hd & _ & _).
    eexists. split; [by apply (finish_writeback_eq _ _ sl Hsh Hi)|].
    eexists. by apply (drop_writeback_eq _ _ sl Hi).
  - intros b Hb. destruct (ref_slot_facts s b Hinv Hb) as (sl & Hi & _ & Hp & _).
    eexists. by apply (drop_ref_eq _ _ sl Hi).
Qed.

(** C10: The cache, its frames and the disk implement one flat store: in
    every reachable state the content of a block is what the last completed
    [store] of it wrote, or what the disk held at boot. Fills, flushes,
    evictions, failed and torn transfers change nothing. The exception is a
    block one of whose writes the driver abandoned while the device still
    held it. *)
Theorem cache_refines_flat_store (k : BlockKey)
    (Hk : dev k = ONLY_DEVICE) (Hset : settled s k) :
  view s k = replay tr k (d (lba k)).
Proof. by rewrite (run_view _ _ _ k (boot_inv fr m d Hfr Hlen) Hrun). Qed.

(** A live [BlockRef] is stable and tells the truth. The bytes it
    dereferences to are the content of the block its slot holds, and no step
    of the system, concurrent stores, flushes, fills and evictions included,
    changes those bytes or gives the slot to another block while the
    reference is alive. *)
Theorem live_reference_is_stable (b : BlockRef) (e : event) (s' : sys)
    (Hb : b ∈ refs s) (Hstep : step s e s') :
  ∃ k, key_of (table (cache s)) (ref_slot b) = Some k ∧
       mem s (ref_virt b) = view s k ∧
       key_of (table (cache s')) (ref_slot b) = Some k ∧
       mem s' (ref_virt b) = mem s (ref_virt b).
Proof.
  destruct (ref_slot_facts s b Hinv Hb) as (sl & Hi & Hf & Hp & _ & Hv & Hfl).
  exists (key sl). destruct (step_keeps _ _ _ _ _ Hinv Hstep Hi Hf ltac:(lia))
    as (_ & Hm & sl' & Hi' & Hk' & Hf').
  unfold key_of. rewrite Hi, Hi', Hv, Hm, Hk', !bool_decide_eq_true_2 by done.
  split; [done|]. split; [|done].
  rewrite (view_resident s (ref_slot b) sl); [by rewrite Hfl|apply Hinv|done|].
  by apply is_hit_spec.
Qed.

(** When no slot is owed to the disk, the mask [sync] computes being
    zero, every completed store is on the disk. *)
Theorem nothing_unsynced_means_durable (Hmask : unsynced_mask (cache s) = 0)
    (k : BlockKey) (Hk : dev k = ONLY_DEVICE) (Hset : settled s k) :
  disk s (lba k) = replay tr k (d (lba k)).
Proof.
  pose proof (run_view _ _ _ k (boot_inv fr m d Hfr Hlen) Hrun Hk Hset) as Hv.
  change (view (boot fr m d) k) with (d (lba k)) in Hv. rewrite <- Hv. symmetry. apply synced_on_disk; [done..|].
  intros slot (sl & Hi & _)%lookup_Some; [|apply Hinv].
  rewrite <- unsynced_mask_spec by (eapply slot_lt; [apply Hinv|done]).
  rewrite Hmask. apply Z.testbit_0_l.
Qed.
End Reachable.

(** ** A concrete history *)

Definition frames32 : list Z := map (λ i, 4096 * Z.of_nat i) (seq 1 SLOTS).
Definition zeros : memory := λ _, [].
Definition old_block : list byte := replicate 4096 x01.
Definition new_block : list byte := replicate 4096 x02.
Definition key5 : BlockKey := mkKey 0 5.

Lemma frames32_ok : NoDup frames32 ∧ length frames32 = SLOTS.
Proof. split; [by apply (bool_decide_unpack _); vm_compute|reflexivity]. Qed.

Definition stored : sys :=
  match store (cache (boot frames32 zeros zeros)) zeros key5 old_block with
  | Ret (_, c, m) => with_cache (with_mem (boot frames32 zeros zeros) m) c
  | Panic => boot frames32 zeros zeros
  end.
Definition pinned : sys :=
  match claim (cache stored) key5 with
  | Ret (r, c) => with_cache (after_claim stored key5 r) c
  | Panic => stored
  end.

Lemma stored_run : run step (boot frames32 zeros zeros) [EStore key5 old_block] stored.
Proof.
  eapply run_cons; [|constructor].
  apply (step_store (boot frames32 zeros zeros) key5 old_block 40 (Ok (Ok tt)));
    vm_compute; reflexivity.
Qed.

Lemma pinned_run : run step (boot frames32 zeros zeros) [EStore key5 old_block; ETau] pinned.
Proof.
  apply (run_app step _ [_] stored [_]); [exact stored_run|].
  eapply run_cons; [|constructor].
  apply (step_claim stored key5 40 (Ok (Hit (mkRef 0 4096)))); vm_compute; reflexivity.
Qed.

Lemma locked_sections_never_panic_witness :
  ∃ out, claim (cache pinned) key5 = Ret out.
Proof.
  refine (proj1 (locked_sections_never_panic frames32 zeros zeros _ pinned
    (proj1 frames32_ok) (proj2 frames32_ok) pinned_run _) key5).
  vm_compute. reflexivity.
Defined.

Lemma cache_refines_flat_store_witness : view stored key5 = old_block.
Proof.
  refine (cache_refines_flat_store frames32 zeros zeros _ stored
    (proj1 frames32_ok) (proj2 frames32_ok) stored_run key5 eq_refl _).
  intros H. by apply elem_of_nil in H.
Defined.

Lemma live_reference_is_stable_witness :
  ∃ k, key_of (table (cache pinned)) 0 = Some k ∧ mem pinned 4096 = view pinned k.
Proof.
  destruct (live_reference_is_stable frames32 zeros zeros _ pinned
    (proj1 frames32_ok) (proj2 frames32_ok) pinned_run (mkRef 0 4096) ETau
    (with_cache (with_ios pinned
       (map (λ w, IoWb w Queued) (option_list (Some (mkWb (mkToken 0 Dirty) 4096 key5))) ++ ios pinned))
       (set_table (cache pinned)
          (<[0%nat := with_state (default empty_slot (table (cache pinned) !! 0%nat)) InFlight]>
             (table (cache pinned))))))
    as (k & Hk & Hm & _).
  - vm_compute. left.
  - apply step_begin_writeback with (slot := 0%nat). vm_compute. reflexivity.
  - exists k. split; assumption.
Defined.

(** The moves of a flush of slot 0. *)
Definition wb0 : Writeback := mkWb (mkToken 0 Dirty) 4096 key5.
Definition do_store (s : sys) (d : list byte) : sys :=
  match store (cache s) (mem s) key5 d with
  | Ret (_, c, m) => with_cache (with_mem s m) c
  | Panic => s
  end.
Definition do_begin (s : sys) : sys :=
  match begin_writeback (cache s) 0 with
  | Ret (r, c) => with_cache (with_ios s (map (λ w, IoWb w Queued) (option_list r) ++ ios s)) c
  | Panic => s
  end.
Definition do_submit (s : sys) : sys :=
  with_ios s [IoWb wb0 (Submitted (mem s (wb_virt wb0)))].
Definition do_write (s : sys) (d : list byte) : sys :=
  with_ios (with_disk s (poke (disk s) (lba (wb_key wb0)) d)) [IoWb wb0 (WriteDone true)].
Definition do_timeout (s : sys) (d : list byte) : sys :=
  expire (with_ios s [IoWb wb0 (WriteDone false)]) wb0 (Submitted d).
Definition do_finish (s : sys) (ok : bool) : sys :=
  match finish_writeback (cache s) wb0 ok with
  | Ret c => with_cache (with_ios s []) c
  | Panic => s
  end.
Definition do_late (s : sys) (d : list byte) : sys :=
  with_late (with_disk s (poke (disk s) (lba key5) d)) [] (abandoned s).

Lemma flush_run s out :
  begin_writeback (cache s) 0 = Ret out → out.1 = Some wb0 → ios s = [] →
  run step s [ETau; ETau] (do_submit (do_begin s)).
Proof.
  destruct out as [r c]. simpl. intros He -> Hio.
  eapply run_cons; [by apply step_begin_writeback with (slot := 0%nat)|].
  unfold do_begin. rewrite He. eapply run_cons; [|constructor].
  apply (step_submit _ wb0 []). simpl. by rewrite Hio.
Qed.

Definition submitted : sys := do_submit (do_begin stored).
Definition flushed : sys := do_finish (do_write submitted old_block) true.

Lemma submitted_run :
  run step (boot frames32 zeros zeros) [EStore key5 old_block; ETau; ETau] submitted.
Proof.
  apply (run_app step _ [_] stored [_; _]); [exact stored_run|].
  eapply flush_run; vm_compute; reflexivity.
Qed.

Lemma flushed_run :
  run step (boot frames32 zeros zeros) [EStore key5 old_block; ETau; ETau; ETau; ETau] flushed.
Proof.
  apply (run_app step _ [_; _; _] submitted [_; _]); [exact submitted_run|].
  eapply run_cons; [apply (step_write_ok submitted wb0 old_block []); reflexivity|].
  eapply run_cons; [|constructor].
  apply (step_finish_writeback (do_write submitted old_block) wb0 true []);
    vm_compute; reflexivity.
Qed.

Lemma nothing_unsynced_means_durable_witness : disk flushed (lba key5) = old_block.
Proof.
  refine (nothing_unsynced_means_durable frames32 zeros zeros _ flushed
    (proj1 frames32_ok) (proj2 frames32_ok) flushed_run _ key5 eq_refl _).
  - vm_compute. reflexivity.
  - intros H. by apply elem_of_nil in H.
Defined.

(** The first flush times out with its write still at the device; a newer
    store is flushed successfully; then the abandoned write lands. *)
Definition retried : sys :=
  do_submit (do_begin (do_store (do_finish (do_timeout submitted old_block) false) new_block)).
Definition undone : sys :=
  do_late (do_finish (do_write retried new_block) true) old_block.

Lemma retried_run :
  run step submitted [ETau; ETau; EStore key5 new_block; ETau; ETau] retried.
Proof.
  eapply run_cons; [by apply (step_write_timeout submitted wb0 (Submitted old_block) [])|].
  eapply run_cons.
  { apply (step_finish_writeback (do_timeout submitted old_block) wb0 false []);
      vm_compute; reflexivity. }
  eapply run_cons.
  { apply (step_store (do_finish (do_timeout submitted old_block) false) key5 new_block 40
             (Ok (Ok tt))); vm_compute; reflexivity. }
  eapply flush_run; vm_compute; reflexivity.
Qed.

Lemma undone_run : run step retried [ETau; ETau; ETau] undone.
Proof.
  eapply run_cons; [apply (step_write_ok retried wb0 new_block []); vm_compute; reflexivity|].
  eapply run_cons.
  { apply (step_finish_writeback (do_write retried new_block) wb0 true []);
      vm_compute; reflexivity. }
  eapply run_cons; [|constructor].
  apply (step_late (do_finish (do_write retried new_block) true) (lba key5) old_block []).
  vm_compute; reflexivity.
Qed.

(** The exception in the two theorems above is real. When a flush times
    out the driver quarantines the request but cannot recall it; the slot
    goes back to dirty, a newer store of the same block is flushed and
    acknowledged, and then the abandoned request completes. In the state
    reached nothing is owed to the disk, and the disk holds the older data. *)
Theorem abandoned_write_undoes_a_flush :
  ∃ tr s, run step (boot frames32 zeros zeros) tr s ∧
    unsynced_mask (cache s) = 0 ∧ late s = [] ∧ ios s = [] ∧
    replay tr key5 [] = new_block ∧ disk s (lba key5) = old_block ∧ old_block ≠ new_block.
Proof.
  exists ([EStore key5 old_block; ETau; ETau] ++
          ([ETau; ETau; EStore key5 new_block; ETau; ETau] ++ [ETau; ETau; ETau])), undone.
  split; [exact (run_app _ _ _ _ _ _ submitted_run (run_app _ _ _ _ _ _ retried_run undone_run))|].
  repeat split; try (vm_compute; reflexivity). vm_compute. discriminate.
Qed.
