(* ===== verification/KSched.v ===== *)
(** The kernel scheduler: [kernel/src/sched.rs], [kernel/src/thread.rs] and
    the per-processor block of [crates/qunix-hal-x86_64/src/percpu.rs].

    The state is what the processors share (the thread table behind [SCHED],
    the per-processor blocks, the hand-off words) and, for each processor,
    where it is inside [schedule].  A step is one critical section or one
    atomic access, so a run is an interleaving of the processors at exactly
    the granularity at which the code releases its locks.  [exec] runs one
    step: [None] when the step is not that processor's next one, [Panic] when
    the code panics.

    Two fields have no counterpart in memory.  [stack] is the thread whose
    stack the processor's [rsp] is in: it differs from [current_thread]
    between the end of [schedule]'s critical section and [context::switch].
    [epoch] counts the insertions into and removals from the thread table,
    after which a pointer into the table is no longer valid.

    Work a thread has been told to queue but has not queued yet ([unpark] and
    [spawn_kernel] release [SCHED] first) is in [wakes]: the thread doing it
    can be preempted in between and finish on another processor.  The wake
    IPIs are left out: they shorten a wait and change no state. *)
From S2P Require Import Prelude Bits Sched.
Import RunQueue.

(** ** Threads *)

Inductive ThreadState := Ready | Running | Blocked | Exited.

#[export] Instance ThreadState_eq_dec : EqDecision ThreadState.
Proof. solve_decision. Defined.

(** [context] is null until the thread is first switched away from. *)
Record Thread := mkThread
  { context : option Z; kernel_stack_top : Z; state : ThreadState; priority : Priority;
    park : Park.ParkState; home_cpu : option nat; address_space : option Z }.

Definition MIN_STACK : Z := 4096 * 4.
Definition CONTEXT_BYTES : Z := 56.

(** [context::init_kernel_stack]. *)
Definition init_kernel_stack (stack_top : Z) : outcome Z :=
  _ ← rust_assert (stack_top mod 16 =? 0);
  sub_chk stack_top CONTEXT_BYTES.

(** [Thread::new_kernel], given where the allocator put the stack. *)
Definition new_kernel (base : Z) (prio : Priority) : outcome Thread :=
  top ← add_chk 64 base MIN_STACK;
  let stack_top := Z.land top (bitnot 64 15) in
  ctx ← init_kernel_stack stack_top;
  Ret (mkThread (Some ctx) stack_top Ready prio Park.default_state None None).

(** [Thread::adopt_current]. *)
Definition adopt_current (cpu : nat) : Thread :=
  mkThread None 0 Running Idle Park.default_state (Some cpu) None.

Definition set_context (ctx : Z) (t : Thread) : Thread :=
  mkThread (Some ctx) (kernel_stack_top t) (state t) (priority t) (park t) (home_cpu t) (address_space t).
Definition set_state (st : ThreadState) (t : Thread) : Thread :=
  mkThread (context t) (kernel_stack_top t) st (priority t) (park t) (home_cpu t) (address_space t).
Definition set_park (p : Park.ParkState) (t : Thread) : Thread :=
  mkThread (context t) (kernel_stack_top t) (state t) (priority t) p (home_cpu t) (address_space t).
Definition set_address_space (root : Z) (t : Thread) : Thread :=
  mkThread (context t) (kernel_stack_top t) (state t) (priority t) (park t) (home_cpu t) (Some root).

Definition is_parked_thread (t : Thread) : bool := Park.is_parked (park t).

(** ** Processors *)

Definition MAX_CPUS : nat := 64.
Definition NO_THREAD : Z := 2 ^ 64 - 1.
Definition HANDOFF_PARKED : Z := 2 ^ 63.

(** Where a processor is.  From [Deciding] to [Publishing] interrupts are
    masked, so nothing but the next line of [schedule] runs there. *)
Inductive Phase :=
  | InThread
  | Deciding (outgoing : ThreadState)
  | Stealing (outgoing : ThreadState) (rest : list nat)
  | Chosen (outgoing : ThreadState) (next : Z)
  | Switching (from to : Z) (stack_top : Z) (root : option Z) (slot_epoch : Z)
  | Landed
  | Publishing (id : Z) (prio : Priority).

(** [PerCpu], this processor's words of [HANDOFF_ID], [HANDOFF_PRIORITY],
    [IDLE_INSTALLED] and [ONLINE_MASK], and CR3.  [installed] is a non-null
    entry of [BLOCKS]. *)
Record Cpu := mkCpu
  { installed : bool; idle_installed : bool; online : bool;
    current_thread : Z; run_queue : RunQueue.t; handoff_id : Z; handoff_priority : Z;
    kernel_rsp : Z; cr3 : Z; stack : Z; phase : Phase }.

Definition boot_cpu (root : Z) : Cpu :=
  mkCpu false false false NO_THREAD RunQueue.new NO_THREAD 0 0 root NO_THREAD InThread.

Definition with_queue (k : Cpu) (q : RunQueue.t) (p : Phase) : Cpu :=
  mkCpu (installed k) (idle_installed k) (online k) (current_thread k) q (handoff_id k)
    (handoff_priority k) (kernel_rsp k) (cr3 k) (stack k) p.
Definition with_phase (k : Cpu) (p : Phase) : Cpu := with_queue k (run_queue k) p.
Definition with_handoff (k : Cpu) (h : Z) (p : Phase) : Cpu :=
  mkCpu (installed k) (idle_installed k) (online k) (current_thread k) (run_queue k) h
    (handoff_priority k) (kernel_rsp k) (cr3 k) (stack k) p.
Definition with_cr3 (k : Cpu) (root : Z) : Cpu :=
  mkCpu (installed k) (idle_installed k) (online k) (current_thread k) (run_queue k)
    (handoff_id k) (handoff_priority k) (kernel_rsp k) root (stack k) (phase k).

(** A push a thread still has to make: [unpark] and [spawn_kernel] after
    they have released [SCHED]. *)
Record Wake := mkWake { wake_id : Z; wake_prio : Priority; wake_home : option nat }.

Record Sys := mkSys
  { cpus : list Cpu; threads : gmap Z Thread; next_id : Z; reapable : list Z;
    wakes : list Wake; kernel_root : Z; preempting : bool; steals : Z; steal_contended : Z;
    epoch : Z }.

Definition set_cpu (s : Sys) (c : nat) (k : Cpu) : Sys :=
  mkSys (<[c := k]> (cpus s)) (threads s) (next_id s) (reapable s) (wakes s) (kernel_root s)
    (preempting s) (steals s) (steal_contended s) (epoch s).
Definition set_threads (s : Sys) (m : gmap Z Thread) : Sys :=
  mkSys (cpus s) m (next_id s) (reapable s) (wakes s) (kernel_root s) (preempting s) (steals s)
    (steal_contended s) (epoch s).
Definition set_wakes (s : Sys) (w : list Wake) : Sys :=
  mkSys (cpus s) (threads s) (next_id s) (reapable s) w (kernel_root s) (preempting s) (steals s)
    (steal_contended s) (epoch s).

(** ** [Scheduler::allocate_id] and the entry it is for *)

Definition insert_thread (s : Sys) (t : Thread) : outcome (Z * Sys) :=
  let id := next_id s in
  n ← add_chk 64 (next_id s) 1;
  _ ← rust_assert (negb (id =? NO_THREAD));
  Ret (id, mkSys (cpus s) (<[id := t]> (threads s)) n (reapable s) (wakes s) (kernel_root s)
             (preempting s) (steals s) (steal_contended s) (epoch s + 1)).

(** [init]: this processor's running context becomes its idle thread. *)
Definition init (s : Sys) (c : nat) (k : Cpu) : outcome Sys :=
  if idle_installed k then Ret s else
  '(id, s) ← insert_thread s (adopt_current c);
  Ret (set_cpu s c (mkCpu (installed k) true (online k) id (run_queue k) (handoff_id k)
         (handoff_priority k) (kernel_rsp k) (cr3 k) id (phase k))).

(** [spawn_kernel] up to the push. *)
Definition spawn_kernel (s : Sys) (base : Z) (prio : Priority) : outcome Sys :=
  t ← new_kernel base prio;
  '(id, s) ← insert_thread s t;
  Ret (set_wakes s (mkWake id prio None :: wakes s)).

(** The push of [unpark] and [spawn_kernel]: [home.and_then(run_queue_of)],
    or this processor's own queue. *)
Definition queue_push (s : Sys) (c : nat) (id : Z) (prio : Priority) : Sys :=
  match cpus s !! c with
  | Some k => set_cpu s c (with_queue k (push (run_queue k) id prio) (phase k))
  | None => s
  end.
Definition home_queue (s : Sys) (c : nat) (home : option nat) : nat :=
  match home with
  | Some h => match cpus s !! h with
              | Some k => if installed k then h else c
              | None => c
              end
  | None => c
  end.
Definition finish_wake (s : Sys) (c : nat) (w : Wake) (rest : list Wake) : Sys :=
  queue_push (set_wakes s rest) (home_queue s c (wake_home w)) (wake_id w) (wake_prio w).

(** [is_current_anywhere]: over the installed processors. *)
Definition is_current_anywhere (s : Sys) (id : Z) : bool :=
  existsb (λ k, installed k && (current_thread k =? id)) (cpus s).

(** [claim_parked_handoff]: the compare-exchange on each word in turn. *)
Definition tag (id : Z) : Z := Z.lor id HANDOFF_PARKED.
Definition is_tagged (raw : Z) : bool := negb (Z.land raw HANDOFF_PARKED =? 0).
Fixpoint claim_parked_handoff (ks : list Cpu) (id : Z) : bool * list Cpu :=
  match ks with
  | [] => (false, [])
  | k :: ks' =>
      if handoff_id k =? tag id then (true, with_handoff k id (phase k) :: ks')
      else let '(b, ks'') := claim_parked_handoff ks' id in (b, k :: ks'')
  end.

(** [unpark] up to the push. *)
Definition unpark (s : Sys) (id : Z) : Sys :=
  match threads s !! id with
  | None => s
  | Some t =>
      match Park.wake (park t) with
      | (Park.Noted, p) => set_threads s (<[id := set_park p t]> (threads s))
      | (Park.Runnable, p) =>
          let s1 := set_threads s (<[id := set_state Ready (set_park p t)]> (threads s)) in
          if is_current_anywhere s id then s1
          else
            let '(claimed, ks) := claim_parked_handoff (cpus s) id in
            if claimed then
              mkSys ks (threads s1) (next_id s) (reapable s) (wakes s) (kernel_root s)
                (preempting s) (steals s) (steal_contended s) (epoch s)
            else set_wakes s1 (mkWake id (priority t) (home_cpu t) :: wakes s)
      end
  end.

(** The critical section of [park]. *)
Definition park_section (s : Sys) (c : nat) (k : Cpu) : outcome Sys :=
  t ← expect (threads s !! current_thread k);
  match Park.park (park t) with
  | (Park.Parked, p) =>
      Ret (set_cpu (set_threads s (<[current_thread k := set_state Blocked (set_park p t)]> (threads s)))
             c (with_phase k (Deciding Blocked)))
  | (Park.Cancelled, p) =>
      Ret (set_threads s (<[current_thread k := set_park p t]> (threads s)))
  end.

(** ** [take_next] *)

Definition prefers_local (local_runnable : nat) : bool := Nat.ltb 0 local_runnable.

(** [each_online_cpu]. *)
Definition each_online_cpu (s : Sys) : list nat :=
  filter (λ o, from_option online false (cpus s !! o) = true) (seq 0 (length (cpus s))).

(** The local queue, first. *)
Definition take_local (s : Sys) (c : nat) (k : Cpu) (os : ThreadState) : Sys :=
  if prefers_local (runnable_len (run_queue k)) then
    match pop (run_queue k) with
    | (Some id, q) => set_cpu s c (with_queue k q (Chosen os id))
    | (None, q) => set_cpu s c (with_queue k q (Stealing os (each_online_cpu s)))
    end
  else set_cpu s c (with_phase k (Stealing os (each_online_cpu s))).

(** One turn of the stealing loop; [contended] is the outcome of the
    [try_lock]. *)
Definition steal_from (s : Sys) (c : nat) (k : Cpu) (os : ThreadState) (o : nat) (rest : list nat)
    (contended : bool) : Sys :=
  let go_on := set_cpu s c (with_phase k (Stealing os rest)) in
  if Nat.eqb o c then go_on else
  match cpus s !! o with
  | Some r =>
      if negb (installed r) then go_on
      else if contended then
        mkSys (cpus go_on) (threads s) (next_id s) (reapable s) (wakes s) (kernel_root s)
          (preempting s) (steals s) (steal_contended s + 1) (epoch s)
      else if Nat.eqb (runnable_len (run_queue r)) 0 then go_on
      else match steal (run_queue r) with
           | (Some id, q) =>
               let s1 := set_cpu s o (with_queue r q (phase r)) in
               mkSys (<[c := with_phase k (Chosen os id)]> (cpus s1)) (threads s) (next_id s)
                 (reapable s) (wakes s) (kernel_root s) (preempting s) (steals s + 1)
                 (steal_contended s) (epoch s)
           | (None, q) => go_on
           end
  | None => go_on
  end.

(** This processor's own idle thread, last; nothing at all ends [schedule]. *)
Definition take_idle (s : Sys) (c : nat) (k : Cpu) (os : ThreadState) : Sys :=
  match pop (run_queue k) with
  | (Some id, q) => set_cpu s c (with_queue k q (Chosen os id))
  | (None, q) => set_cpu s c (with_queue k q InThread)
  end.

(** ** The critical section of [schedule] *)

(** [priority_from_raw], and [prio as u8]. *)
Definition priority_as_raw (p : Priority) : Z := Z.of_nat (band p).
Definition priority_from_raw (raw : Z) : Priority :=
  if raw =? 0 then Idle else if raw =? 2 then High else Normal.

(** What becomes of the outgoing thread: the table, the reapable list and
    this processor's hand-off words. *)
Definition outgoing (s : Sys) (k : Cpu) (os : ThreadState)
    : gmap Z Thread * list Z * Z * Z :=
  let cur := current_thread k in
  match os with
  | Exited => (alter (set_state Exited) cur (threads s), reapable s ++ [cur], NO_THREAD, handoff_priority k)
  | _ =>
      let parked := from_option is_parked_thread false (threads s !! cur) in
      let prio := from_option priority Normal (threads s !! cur) in
      let settle t :=
        set_state (match state t with Exited => Exited | _ => if parked then Blocked else Ready end) t in
      (alter settle cur (threads s), reapable s, (if parked then tag cur else cur), priority_as_raw prio)
  end.

Definition schedule_section (s : Sys) (c : nat) (k : Cpu) (os : ThreadState) (next : Z)
    : outcome Sys :=
  let '(m, reap, h, hp) := outgoing s k os in
  t ← expect (m !! next);
  _ ← rust_assert (negb (bool_decide (context t = None)));
  let m := <[next := set_state Running t]> m in
  _ ← expect (m !! current_thread k);
  let k' := mkCpu (installed k) (idle_installed k) (online k) next (run_queue k) h hp
              (kernel_rsp k) (cr3 k) (stack k)
              (Switching (current_thread k) next (kernel_stack_top t) (address_space t) (epoch s)) in
  Ret (mkSys (<[c := k']> (cpus s)) m (next_id s) reap (wakes s) (kernel_root s) (preempting s)
         (steals s) (steal_contended s) (epoch s)).

(** Where [context::switch] saves the outgoing thread's context.  It does so
    through [from_slot], a pointer into the thread table taken in the critical
    section, when [epoch] was [slot_epoch].  As long as no entry has come or
    gone since, that is the thread's own entry.  When one has, the entries may
    have moved: the store may still hit, or overwrite the context of whichever
    thread's entry is there now, or memory the table no longer uses; what that
    memory is, is not modelled. *)
Inductive Store := Hits | Strays (victim : option Z).
Definition store_context (s : Sys) (from sp slot_epoch : Z) (st : Store) : option (gmap Z Thread) :=
  match st with
  | Hits => Some (alter (set_context sp) from (threads s))
  | Strays victim =>
      if slot_epoch =? epoch s then None
      else Some (match victim with Some id => alter (set_context sp) id (threads s) | None => threads s end)
  end.

(** [set_kernel_stack], [activate_root] and [context::switch]: the outgoing
    thread's context is where its [rsp] now is, and [rsp] is the incoming
    thread's.  [m] is the table after the store. *)
Definition switch (s : Sys) (c : nat) (k : Cpu) (to : Z) (top : Z) (root : option Z)
    (m : gmap Z Thread) : outcome Sys :=
  _ ← rust_assert (negb (kernel_root s =? 0));
  let k' := mkCpu (installed k) (idle_installed k) (online k) (current_thread k) (run_queue k)
              (handoff_id k) (handoff_priority k) (if top =? 0 then kernel_rsp k else top)
              (default (kernel_root s) root) to Landed in
  Ret (set_cpu (set_threads s m) c k').

(** [publish_handoff]: the swap, then the push on this processor's queue. *)
Definition publish_handoff (k : Cpu) : Cpu :=
  let raw := handoff_id k in
  with_handoff k NO_THREAD
    (if raw =? NO_THREAD then InThread
     else if is_tagged raw then InThread
     else Publishing raw (priority_from_raw (handoff_priority k))).

(** ** [reap] *)

Fixpoint reap_loop (s : Sys) (ids : list Z) (m : gmap Z Thread) (orphans : list Z)
    (removed : Z) : gmap Z Thread * list Z * Z :=
  match ids with
  | [] => (m, orphans, removed)
  | id :: ids' =>
      if is_current_anywhere s id then reap_loop s ids' m (orphans ++ [id]) removed
      else match m !! id with
           | Some _ => reap_loop s ids' (delete id m) orphans (removed + 1)
           | None => reap_loop s ids' m orphans removed
           end
  end.
Definition reap (s : Sys) : Sys :=
  let '(m, orphans, removed) := reap_loop s (reapable s) (threads s) [] 0 in
  mkSys (cpus s) m (next_id s) orphans (wakes s) (kernel_root s) (preempting s) (steals s)
    (steal_contended s) (epoch s + removed).

(** [adopt_address_space]. *)
Definition adopt_address_space (s : Sys) (k : Cpu) (root : Z) : outcome Sys :=
  t ← expect (threads s !! current_thread k);
  _ ← rust_assert (bool_decide (address_space t = None));
  Ret (set_threads s (<[current_thread k := set_address_space root t]> (threads s))).

Definition runnable_count (s : Sys) : nat :=
  list_sum ((λ k, if installed k then runnable_len (run_queue k) else 0%nat) <$> cpus s).

(** ** Steps *)

Inductive Label :=
  | LInstall (c : nat) | LInit (c : nat) | LOnline (c : nat) | LSetPreemption (b : bool)
  | LSpawn (c : nat) (base : Z) (prio : Priority)
  | LPush (c i : nat)
  | LYield (c : nat) | LPreempt (c : nat) | LPark (c : nat) | LExit (c : nat)
  | LTake (c : nat) (contended : bool)
  | LSection (c : nat) | LSwitch (c : nat) (sp : Z) (st : Store) | LPublish (c : nat)
  | LUnpark (c : nat) (id : Z) | LReap (c : nat)
  | LActivate (c : nat) (root : Z) | LAdopt (c : nat) (root : Z).

(** The processor, when it is running thread code on a thread of its own. *)
Definition in_thread (s : Sys) (c : nat) : option Cpu :=
  match cpus s !! c with
  | Some k => if idle_installed k then
                match phase k with InThread => Some k | _ => None end
              else None
  | None => None
  end.

(** The calling conventions are in the guards: a processor schedules once
    [init] has run on it; a thread exits only outside [park], which returns
    only when the thread is no longer parked; the stack [spawn_kernel] is
    given lies inside the address space; [user_thread_entry] adopts one
    address space per thread. *)
Definition exec (s : Sys) (l : Label) : option (outcome Sys) :=
  match l with
  | LInstall c =>
      k ← cpus s !! c;
      if installed k then None else
      Some (Ret (set_cpu s c (mkCpu true (idle_installed k) (online k) (current_thread k)
             (run_queue k) (handoff_id k) (handoff_priority k) (kernel_rsp k) (cr3 k) (stack k)
             (phase k))))
  | LInit c => k ← cpus s !! c; if installed k then Some (init s c k) else None
  | LOnline c =>
      k ← in_thread s c;
      Some (Ret (set_cpu s c (mkCpu (installed k) (idle_installed k) true (current_thread k)
             (run_queue k) (handoff_id k) (handoff_priority k) (kernel_rsp k) (cr3 k) (stack k)
             (phase k))))
  | LSetPreemption b =>
      Some (Ret (mkSys (cpus s) (threads s) (next_id s) (reapable s) (wakes s) (kernel_root s) b
             (steals s) (steal_contended s) (epoch s)))
  | LSpawn c base prio =>
      _ ← in_thread s c;
      if (CONTEXT_BYTES <=? base) && (base + MIN_STACK <? 2 ^ 64)
      then Some (spawn_kernel s base prio) else None
  | LPush c i =>
      _ ← in_thread s c;
      w ← wakes s !! i;
      Some (Ret (finish_wake s c w (take i (wakes s) ++ drop (S i) (wakes s))))
  | LYield c => k ← in_thread s c; Some (Ret (set_cpu s c (with_phase k (Deciding Ready))))
  | LPreempt c =>
      k ← in_thread s c;
      if negb (preempting s) || (current_thread k =? NO_THREAD) then Some (Ret s)
      else Some (Ret (set_cpu s c (with_phase k (Deciding Ready))))
  | LPark c => k ← in_thread s c; Some (park_section s c k)
  | LExit c =>
      k ← in_thread s c;
      if from_option is_parked_thread false (threads s !! current_thread k) then None
      else Some (Ret (set_cpu s c (with_phase k (Deciding Exited))))
  | LTake c contended =>
      k ← cpus s !! c;
      match phase k with
      | Deciding os => Some (Ret (take_local s c k os))
      | Stealing os (o :: rest) => Some (Ret (steal_from s c k os o rest contended))
      | Stealing os [] => Some (Ret (take_idle s c k os))
      | _ => None
      end
  | LSection c =>
      k ← cpus s !! c;
      match phase k with Chosen os next => Some (schedule_section s c k os next) | _ => None end
  | LSwitch c sp st =>
      k ← cpus s !! c;
      match phase k with
      | Switching from to top root ep =>
          m ← store_context s from sp ep st; Some (switch s c k to top root m)
      | _ => None
      end
  | LPublish c =>
      k ← cpus s !! c;
      match phase k with
      | Landed => Some (Ret (set_cpu s c (publish_handoff k)))
      | Publishing id prio => Some (Ret (queue_push (set_cpu s c (with_phase k InThread)) c id prio))
      | _ => None
      end
  | LUnpark c id => _ ← in_thread s c; Some (Ret (unpark s id))
  | LReap c => _ ← in_thread s c; Some (Ret (reap s))
  | LActivate c root => k ← in_thread s c; Some (Ret (set_cpu s c (with_cr3 k root)))
  | LAdopt c root =>
      k ← in_thread s c;
      if from_option (λ t, bool_decide (address_space t = None)) true (threads s !! current_thread k)
      then Some (adopt_address_space s k root) else None
  end.

(** The store of a switch has reached its thread. *)
Definition lands (l : Label) : bool := match l with LSwitch _ _ (Strays _) => false | _ => true end.

Definition step (s : Sys) (l : Label) (s' : Sys) : Prop := exec s l = Some (Ret s').

Definition boot (root : Z) : Sys :=
  mkSys (replicate MAX_CPUS (boot_cpu root)) ∅ 0 [] [] root false 0 0 0.

(** Runs a list of steps. *)
Fixpoint exec_list (s : Sys) (ls : list Label) : option Sys :=
  match ls with
  | [] => Some s
  | l :: ls' => match exec s l with Some (Ret s') => exec_list s' ls' | _ => None end
  end.
