(* ===== verification/KSchedProofs.v ===== *)
(** Proofs about the kernel scheduler of [KSched].

    Every thread the scheduler may still run has exactly one spot: a run
    queue, a processor's [current], a hand-off word, a processor's hands
    between two critical sections, or a push that is still to be made.
    [core] says so of the list of all spots, together with what each spot
    says of the thread in it; the steps of [KSched] move one thread from one
    spot to another.

    Everything is proved twice at once: for runs in which every store of a
    context reaches its thread, [clean], and for all runs, where a thread that
    waits to run may have no context. *)
From S2P Require Import Prelude Bits Sched KSched.
Import RunQueue.

(** ** Spots *)

Inductive Place :=
  | PQueue (c : nat) (p : Priority)      (* on processor [c]'s run queue *)
  | PChosen (c : nat)                    (* taken off a queue, not dispatched yet *)
  | PCur (c : nat)                       (* [c]'s [current_thread] *)
  | PHand (c : nat) (p : Priority) (saved : bool)  (* handed off, to be queued *)
  | PPart (c : nat) (p : Priority) (saved : bool)  (* handed off parked *)
  | PPublish (c : nat) (p : Priority)    (* swapped out of the hand-off word *)
  | PWake (p : Priority) (home : option nat)       (* to be pushed *)
  | PReap.                               (* exited *)

Section Clean.
Context (clean : bool).

Definition at_home (c : nat) (t : Thread) : Prop :=
  ∀ h, home_cpu t = Some h → h = c ∧ priority t = Idle.

Definition saved_context (t : Thread) : Prop := clean = true → context t ≠ None.

Definition place_ok (t : Thread) (pl : Place) : Prop :=
  match pl with
  | PQueue c p | PPublish c p =>
      is_parked_thread t = false ∧ p = priority t ∧ at_home c t ∧ saved_context t
  | PChosen c => is_parked_thread t = false ∧ at_home c t ∧ saved_context t
  | PCur c => at_home c t
  | PHand c p saved =>
      is_parked_thread t = false ∧ p = priority t ∧ at_home c t ∧ (saved = true → saved_context t)
  | PPart c p saved =>
      is_parked_thread t = true ∧ p = priority t ∧ at_home c t ∧ (saved = true → saved_context t)
  | PWake p h =>
      is_parked_thread t = false ∧ p = priority t ∧ h = home_cpu t ∧
      (∀ c, h = Some c → priority t = Idle) ∧ saved_context t
  | PReap => is_parked_thread t = false
  end.

(** ** One spot per thread *)

Record core (M : gmap Z Thread) (n : Z) (L : list (Z * Place)) : Prop := {
  co_nodup : NoDup L.*1;
  co_spots : ∀ id pl, (id, pl) ∈ L → ∃ t, M !! id = Some t ∧ place_ok t pl;
  co_live : ∀ id t, M !! id = Some t → id ∉ L.*1 →
    is_parked_thread t = true ∧ saved_context t ∧ ∀ h, home_cpu t = Some h → priority t = Idle;
  co_ids : ∀ id t, M !! id = Some t → 0 ≤ id < n
}.

#[export] Instance core_perm M n : Proper ((≡ₚ) ==> iff) (core M n).
Proof.
  assert (∀ L L', L ≡ₚ L' → core M n L → core M n L') as H.
  { intros L L' HL [C1 C2 C3 C4]. split; [by rewrite <- HL|..|done].
    - intros id pl. rewrite <- HL. apply C2.
    - intros id t. rewrite <- HL. apply C3. }
  intros L L' HL. split; apply H; [done|by symmetry].
Qed.

Lemma core_lookup M n id pl R :
  core M n ((id, pl) :: R) → ∃ t, M !! id = Some t ∧ place_ok t pl ∧ 0 ≤ id < n ∧ id ∉ R.*1.
Proof.
  intros [C1 C2 C3 C4]. destruct (C2 id pl) as (t & Ht & Hp); [left|].
  apply NoDup_cons in C1 as [Hn _]. eauto 10.
Qed.

(** A thread moves from one spot to another, its record rewritten. *)
Lemma core_update M n id pl R t' pl' :
  core M n ((id, pl) :: R) → place_ok t' pl' → core (<[id := t']> M) n ((id, pl') :: R).
Proof.
  intros Hc Hp. destruct (core_lookup _ _ _ _ _ Hc) as (t & Ht & _ & Hid & Hn).
  destruct Hc as [C1 C2 C3 C4]. split; [done|..].
  - intros i p [[= -> ->]|Hi]%elem_of_cons.
    + exists t'. by rewrite lookup_insert_eq.
    + rewrite lookup_insert_ne; [apply C2; by right|].
      intros <-. apply Hn, list_elem_of_fmap. by exists (id, p).
  - intros i u. destruct (decide (i = id)) as [->|Hne].
    + intros _ []. left.
    + rewrite lookup_insert_ne by done. apply C3.
  - intros i u. destruct (decide (i = id)) as [->|Hne]; [by intros _|].
    rewrite lookup_insert_ne by done. apply C4.
Qed.

Lemma core_move M n id pl R pl' :
  core M n ((id, pl) :: R) → (∀ t, M !! id = Some t → place_ok t pl → place_ok t pl') →
  core M n ((id, pl') :: R).
Proof.
  intros Hc Hp. destruct (core_lookup _ _ _ _ _ Hc) as (t & Ht & Hpl & _ & _).
  rewrite <- (insert_id M id t) by done. eapply core_update; [done|]. by apply Hp.
Qed.

(** A parked thread whose context is saved needs no spot. *)
Lemma core_drop M n id pl R :
  core M n ((id, pl) :: R) →
  (∀ t, place_ok t pl → is_parked_thread t = true ∧ saved_context t ∧
        ∀ h, home_cpu t = Some h → priority t = Idle) →
  core M n R.
Proof.
  intros Hc Hp. destruct (core_lookup _ _ _ _ _ Hc) as (t & Ht & Hpl & _ & Hn).
  destruct Hc as [C1 C2 C3 C4]. apply NoDup_cons in C1 as [_ C1]. split; [done|..|done].
  - intros i p Hi. apply C2. by right.
  - intros i u Hu Hni. destruct (decide (i = id)) as [->|Hne].
    + assert (u = t) as -> by congruence. by apply Hp.
    + apply (C3 i u Hu). rewrite fmap_cons, not_elem_of_cons. done.
Qed.

(** It gets one back when it is woken. *)
Lemma core_wake M n id R t t' pl :
  core M n R → M !! id = Some t → id ∉ R.*1 → place_ok t' pl →
  core (<[id := t']> M) n ((id, pl) :: R).
Proof.
  intros [C1 C2 C3 C4] Ht Hn Hp. split.
  - by apply NoDup_cons.
  - intros i p [[= -> ->]|Hi]%elem_of_cons.
    + exists t'. by rewrite lookup_insert_eq.
    + rewrite lookup_insert_ne; [by apply C2|].
      intros <-. apply Hn, list_elem_of_fmap. by exists (id, p).
  - intros i u Hu. rewrite fmap_cons, not_elem_of_cons. intros [Hne Hni]. simpl in Hne.
    rewrite lookup_insert_ne in Hu by done. by apply (C3 i u).
  - intros i u. destruct (decide (i = id)) as [->|Hne]; [intros _; by eapply C4|].
    rewrite lookup_insert_ne by done. apply C4.
Qed.

(** A new thread. *)
Lemma core_fresh M n R t pl :
  core M n R → 0 ≤ n → place_ok t pl → core (<[n := t]> M) (n + 1) ((n, pl) :: R) ∧ M !! n = None.
Proof.
  intros [C1 C2 C3 C4] H0 Hp.
  assert (M !! n = None) as Hno.
  { destruct (M !! n) as [u|] eqn:E; [|done]. apply C4 in E. lia. }
  assert (n ∉ R.*1) as Hn.
  { intros ([i p] & -> & Hi)%list_elem_of_fmap. destruct (C2 _ _ Hi) as (u & Hu & _). simpl in *. congruence. }
  split; [|done]. split.
  - by apply NoDup_cons.
  - intros i p [[= -> ->]|Hi]%elem_of_cons.
    + exists t. by rewrite lookup_insert_eq.
    + rewrite lookup_insert_ne; [by apply C2|].
      intros <-. apply Hn, list_elem_of_fmap. by exists (n, p).
  - intros i u Hu. rewrite fmap_cons, not_elem_of_cons. intros [Hne Hni]. simpl in Hne.
    rewrite lookup_insert_ne in Hu by done. by apply (C3 i u).
  - intros i u. destruct (decide (i = n)) as [->|Hne]; [intros _; lia|].
    rewrite lookup_insert_ne by done. intros Hu%C4. lia.
Qed.

(** An exited thread leaves the table. *)
Lemma core_delete M n id pl R : core M n ((id, pl) :: R) → core (delete id M) n R.
Proof.
  intros Hc. destruct (core_lookup _ _ _ _ _ Hc) as (t & Ht & Hpl & _ & Hn).
  destruct Hc as [C1 C2 C3 C4]. apply NoDup_cons in C1 as [_ C1]. split; [done|..].
  - intros i p Hi. rewrite lookup_delete_ne; [apply C2; by right|].
    intros <-. apply Hn, list_elem_of_fmap. by exists (id, p).
  - intros i u [Hne Hu]%lookup_delete_Some Hni. apply (C3 i u Hu).
    rewrite fmap_cons, not_elem_of_cons. done.
  - intros i u [_ Hu]%lookup_delete_Some. by eapply C4.
Qed.

(** ** Run queues, entry by entry *)

Lemma pop_taken q id q' : pop q = (Some id, q') → ∃ p, contents q ≡ₚ (id, p) :: contents q'.
Proof.
  destruct q as [[|i bi] [|n bn] [|h bh]]; intros [= <- <-];
    first [by exists High | by exists Normal | by exists Idle].
Qed.

Lemma pop_nothing q q' : pop q = (None, q') → q' = q.
Proof. destruct q as [[|i bi] [|n bn] [|h bh]]; by intros [=]. Qed.

(** What a thief takes is not from the idle band. *)
Lemma steal_taken q id q' :
  runnable_len q ≠ 0%nat → steal q = (Some id, q') →
  ∃ p, contents q ≡ₚ (id, p) :: contents q' ∧ p ≠ Idle.
Proof.
  destruct q as [bi bn bh]. unfold runnable_len, steal, ORDER, first_band.
  cbn [get_band set_band band band_high band_normal band_idle]. intros Hr.
  destruct (pop_back bh) as [[i b]|] eqn:Eh.
  { intros [= <- <-]. apply pop_back_Some in Eh as ->. exists High. split; [|done].
    unfold contents, entries. cbn [band_high band_normal band_idle].
    rewrite fmap_app, <- !app_assoc. cbn. by rewrite <- Permutation_middle. }
  apply pop_back_None in Eh as ->.
  destruct (pop_back bn) as [[i b]|] eqn:En.
  { intros [= <- <-]. apply pop_back_Some in En as ->. exists Normal. split; [|done].
    unfold contents, entries. cbn [band_high band_normal band_idle].
    rewrite fmap_app, <- !app_assoc. cbn. by rewrite <- Permutation_middle. }
  by apply pop_back_None in En as ->.
Qed.

Lemma push_added q id p : id ∉ ids (contents q) → contents (push q id p) ≡ₚ (id, p) :: contents q.
Proof.
  intros Hn. rewrite push_contents. unfold spec_push. rewrite decide_False by done.
  rewrite Permutation_app_swap_app. by rewrite at_least_below_perm.
Qed.

(** ** The spots of a system *)

Definition q_spots (c : nat) (q : RunQueue.t) : list (Z * Place) :=
  (λ e, (e.1, PQueue c e.2)) <$> contents q.
Definition phase_spots (c : nat) (ph : Phase) : list (Z * Place) :=
  match ph with
  | Chosen _ next => [(next, PChosen c)]
  | Publishing id p => [(id, PPublish c p)]
  | _ => []
  end.
Definition is_landed (ph : Phase) : bool := match ph with Landed => true | _ => false end.
Definition hand_spots (c : nat) (h hp : Z) (saved : bool) : list (Z * Place) :=
  if h =? NO_THREAD then []
  else if is_tagged h then [(h - HANDOFF_PARKED, PPart c (priority_from_raw hp) saved)]
  else [(h, PHand c (priority_from_raw hp) saved)].
Definition cur_spots (c : nat) (k : Cpu) : list (Z * Place) :=
  if idle_installed k then [(current_thread k, PCur c)] else [].

Definition cpu_spots (c : nat) (k : Cpu) : list (Z * Place) :=
  q_spots c (run_queue k) ++ phase_spots c (phase k) ++
  hand_spots c (handoff_id k) (handoff_priority k) (is_landed (phase k)) ++ cur_spots c k.
Definition all_cpu_spots (ks : list Cpu) : list (Z * Place) := concat (imap cpu_spots ks).
Definition wake_spot (w : Wake) : Z * Place := (wake_id w, PWake (wake_prio w) (wake_home w)).
Definition reap_spot (id : Z) : Z * Place := (id, PReap).

Definition spots (s : Sys) : list (Z * Place) :=
  all_cpu_spots (cpus s) ++ (wake_spot <$> wakes s) ++ (reap_spot <$> reapable s).

Lemma all_cpu_spots_at ks c k :
  ks !! c = Some k →
  ∃ R, all_cpu_spots ks ≡ₚ cpu_spots c k ++ R ∧
       ∀ k', all_cpu_spots (<[c := k']> ks) ≡ₚ cpu_spots c k' ++ R.
Proof.
  intros Hk. pose proof (lookup_lt_Some _ _ _ Hk) as Hlt.
  exists (concat (imap cpu_spots (take c ks)) ++
          concat (imap (λ i, cpu_spots (S c + i)%nat) (drop (S c) ks))).
  assert (∀ k', concat (imap cpu_spots (take c ks ++ k' :: drop (S c) ks)) ≡ₚ
    cpu_spots c k' ++ concat (imap cpu_spots (take c ks)) ++
      concat (imap (λ i, cpu_spots (S c + i)%nat) (drop (S c) ks))) as H.
  { intros k'. rewrite imap_app, imap_cons, concat_app, length_take_le by lia. cbn [concat].
    rewrite Nat.add_0_r, Permutation_app_swap_app. do 2 f_equiv. apply reflexive_eq. f_equal.
    apply imap_ext. intros i x _. simpl. f_equal. lia. }
  unfold all_cpu_spots. split.
  - rewrite <- H, take_drop_middle; done.
  - intros k'. rewrite insert_take_drop by done. apply H.
Qed.

(** The spots of one processor, with the rest of the system. *)
Lemma spots_at s c k :
  cpus s !! c = Some k →
  ∃ R, spots s ≡ₚ cpu_spots c k ++ R ∧
    (∀ k', spots (set_cpu s c k') ≡ₚ cpu_spots c k' ++ R) ∧
    (∃ R', all_cpu_spots (cpus s) ≡ₚ cpu_spots c k ++ R' ∧
       (∀ k', all_cpu_spots (<[c := k']> (cpus s)) ≡ₚ cpu_spots c k' ++ R') ∧
       R = R' ++ (wake_spot <$> wakes s) ++ (reap_spot <$> reapable s)).
Proof.
  intros Hk. destruct (all_cpu_spots_at _ _ _ Hk) as (R & HR & HR').
  exists (R ++ (wake_spot <$> wakes s) ++ (reap_spot <$> reapable s)).
  split; [unfold spots; by rewrite HR, <- app_assoc|]. split; [|by exists R].
  intros k'. unfold spots. cbn [cpus set_cpu wakes reapable]. by rewrite HR', <- app_assoc.
Qed.

(** ** Tags *)

Lemma tag_eq id : 0 ≤ id < 2 ^ 63 → tag id = id + 2 ^ 63.
Proof.
  intros Hid. unfold tag, HANDOFF_PARKED. rewrite Z.add_nocarry_lxor.
  - apply Z.bits_inj'. intros i Hi. rewrite Z.lor_spec, Z.lxor_spec, Z.pow2_bits_eqb by lia.
    destruct (Z.eqb_spec 63 i) as [<-|]; [|by rewrite orb_false_r, xorb_false_r].
    destruct (decide (id = 0)) as [->|]; [done|].
    rewrite (Z.bits_above_log2 id 63); [done|lia|]. apply Z.log2_lt_pow2; lia.
  - apply Z.bits_inj'. intros i Hi. rewrite Z.land_spec, Z.pow2_bits_eqb, Z.testbit_0_l by lia.
    destruct (Z.eqb_spec 63 i) as [<-|]; [|apply andb_false_r].
    destruct (decide (id = 0)) as [->|]; [done|].
    rewrite (Z.bits_above_log2 id 63); [done|lia|]. apply Z.log2_lt_pow2; lia.
Qed.

Lemma is_tagged_bit h : is_tagged h = Z.testbit h 63.
Proof.
  unfold is_tagged, HANDOFF_PARKED. destruct (Z.testbit h 63) eqn:E.
  - apply negb_true_iff, Z.eqb_neq. intros E0. apply (f_equal (λ z, Z.testbit z 63)) in E0.
    rewrite Z.land_spec, E, Z.pow2_bits_true in E0 by lia. done.
  - apply negb_false_iff, Z.eqb_eq. apply Z.bits_inj'. intros i Hi.
    rewrite Z.land_spec, Z.pow2_bits_eqb, Z.testbit_0_l by lia.
    destruct (Z.eqb_spec 63 i) as [<-|]; [by rewrite E|apply andb_false_r].
Qed.

Lemma untagged_id id : 0 ≤ id < 2 ^ 63 → is_tagged id = false.
Proof.
  intros Hid. rewrite is_tagged_bit. destruct (decide (id = 0)) as [->|]; [done|].
  apply Z.bits_above_log2; [lia|]. apply Z.log2_lt_pow2; lia.
Qed.

Lemma tagged_id id : 0 ≤ id < 2 ^ 63 → is_tagged (tag id) = true.
Proof.
  intros Hid. rewrite is_tagged_bit. unfold tag, HANDOFF_PARKED.
  rewrite Z.lor_spec, Z.pow2_bits_true by lia. apply orb_true_r.
Qed.

(** The highest id is never handed out, so no word reads as empty. *)
Lemma hand_spots_tag c id hp sv :
  0 ≤ id < 2 ^ 63 - 1 → hand_spots c (tag id) hp sv = [(id, PPart c (priority_from_raw hp) sv)].
Proof.
  intros Hid. unfold hand_spots. rewrite tagged_id, tag_eq by lia. unfold NO_THREAD, HANDOFF_PARKED.
  destruct (Z.eqb_spec (id + 2 ^ 63) (2 ^ 64 - 1)); [lia|]. repeat f_equal. lia.
Qed.

Lemma hand_spots_id c id hp sv :
  0 ≤ id < 2 ^ 63 → hand_spots c id hp sv = [(id, PHand c (priority_from_raw hp) sv)].
Proof.
  intros Hid. unfold hand_spots. rewrite untagged_id by lia. unfold NO_THREAD.
  destruct (Z.eqb_spec id (2 ^ 64 - 1)); [lia|done].
Qed.

Lemma priority_raw_round_trip p : priority_from_raw (priority_as_raw p) = p.
Proof. by destruct p. Qed.

(** ** The invariant *)

(** An exited thread: waiting to be reaped, or reaped. *)
Definition gone (s : Sys) (id : Z) : Prop :=
  0 ≤ id < next_id s ∧ (id ∈ reapable s ∨ threads s !! id = None).

Definition exiting (ph : Phase) : bool :=
  match ph with
  | Deciding Exited | Stealing Exited _ | Chosen Exited _ => true
  | _ => false
  end.

Definition runs_unparked (s : Sys) (id : Z) : Prop :=
  ∃ t, threads s !! id = Some t ∧ is_parked_thread t = false.

(** Where the processor stands: on the stack of its current thread, except
    while it switches, when it is still on the outgoing thread's, which the
    hand-off word names unless that thread has exited. *)
Definition standing (s : Sys) (k : Cpu) : Prop :=
  match phase k with
  | Switching from to _ _ _ =>
      current_thread k = to ∧ stack k = from ∧ 0 ≤ from < next_id s ∧
      (handoff_id k = from ∨ handoff_id k = tag from ∨ (handoff_id k = NO_THREAD ∧ gone s from))
  | Landed => stack k = current_thread k
  | _ => stack k = current_thread k ∧ handoff_id k = NO_THREAD
  end.

Record cpu_ok (s : Sys) (k : Cpu) : Prop := {
  ck_off : idle_installed k = false → phase k = InThread ∧ current_thread k = NO_THREAD;
  ck_on : idle_installed k = true → installed k = true;
  ck_standing : standing s k;
  ck_exit : exiting (phase k) = true → runs_unparked s (current_thread k)
}.

Record inv (s : Sys) : Prop := {
  in_core : core (threads s) (next_id s) (spots s);
  in_next : 0 ≤ next_id s < 2 ^ 63;
  in_cpus : ∀ c k, cpus s !! c = Some k → cpu_ok s k;
  in_home : ∀ id t h, threads s !! id = Some t → home_cpu t = Some h →
    ∃ k, cpus s !! h = Some k ∧ installed k = true;
  in_stacks : ∀ c c' k k', cpus s !! c = Some k → cpus s !! c' = Some k' →
    idle_installed k = true → idle_installed k' = true → stack k = stack k' → c = c';
  in_root : kernel_root s ≠ 0
}.

(** A processor another one's step leaves alone, but for its run queue and
    for the tag a claim clears. *)
Definition quiet (k k' : Cpu) : Prop :=
  installed k' = installed k ∧ idle_installed k' = idle_installed k ∧
  current_thread k' = current_thread k ∧ stack k' = stack k ∧ phase k' = phase k ∧
  (handoff_id k' = handoff_id k ∨
   ∃ id, 0 ≤ id < 2 ^ 63 - 1 ∧ handoff_id k = tag id ∧ handoff_id k' = id).

Lemma quiet_refl k : quiet k k.
Proof. repeat split. by left. Qed.

Lemma quiet_queue k q : quiet k (with_queue k q (phase k)).
Proof. repeat split. by left. Qed.

Lemma tag_not_empty id : 0 ≤ id < 2 ^ 63 - 1 → tag id ≠ NO_THREAD.
Proof. intros. rewrite tag_eq by lia. unfold NO_THREAD. lia. Qed.

Lemma tag_inj id id' : 0 ≤ id < 2 ^ 63 → 0 ≤ id' < 2 ^ 63 → tag id = tag id' → id = id'.
Proof. intros ??. rewrite !tag_eq by lia. lia. Qed.

Lemma quiet_cpu_ok s s' k k' :
  cpu_ok s k → quiet k k' → 0 ≤ next_id s < 2 ^ 63 → next_id s ≤ next_id s' →
  (∀ id, gone s id → gone s' id) →
  (exiting (phase k) = true → runs_unparked s (current_thread k) → runs_unparked s' (current_thread k)) →
  cpu_ok s' k'.
Proof.
  intros [K1 K2 K3 K4] (Q1 & Q2 & Q3 & Q4 & Q5 & Q6) Hn Hle Hg Hr.
  split; rewrite ?Q1, ?Q2, ?Q3, ?Q5; auto.
  unfold standing in *. rewrite Q3, Q4, Q5.
  assert (handoff_id k = NO_THREAD → handoff_id k' = NO_THREAD) as Hno.
  { intros E0. destruct Q6 as [->|(id & Hid & E & _)]; [done|].
    by apply tag_not_empty in Hid; congruence. }
  destruct (phase k) as [| | | |from to ? ? ?| |]; try done; try (destruct K3; by auto).
  destruct K3 as (? & ? & Hf & K3). do 2 (split; [done|]). split; [lia|].
  destruct Q6 as [->|(id & Hid & E & ->)]; [naive_solver|].
  destruct K3 as [K3|[K3|[K3 _]]].
  - rewrite K3, tag_eq in E by lia. lia.
  - left. symmetry. apply tag_inj; [lia..|congruence].
  - rewrite K3 in E. by apply tag_not_empty in Hid; congruence.
Qed.

(** A step of processor [c] that leaves the others alone. *)
Lemma inv_build s s' c k k' :
  inv s → cpus s !! c = Some k → cpus s' !! c = Some k' → length (cpus s') = length (cpus s) →
  (∀ c0 k0', c0 ≠ c → cpus s' !! c0 = Some k0' → ∃ k0, cpus s !! c0 = Some k0 ∧ quiet k0 k0') →
  core (threads s') (next_id s') (spots s') → next_id s ≤ next_id s' < 2 ^ 63 →
  (∀ id, gone s id → gone s' id) →
  (∀ c0 k0, c0 ≠ c → cpus s !! c0 = Some k0 → exiting (phase k0) = true →
     runs_unparked s (current_thread k0) → runs_unparked s' (current_thread k0)) →
  cpu_ok s' k' → (installed k = true → installed k' = true) →
  (∀ id t h, threads s' !! id = Some t → home_cpu t = Some h →
     (h = c ∧ installed k' = true) ∨ ∃ id' t', threads s !! id' = Some t' ∧ home_cpu t' = Some h) →
  (idle_installed k' = true → ∀ c0 k0, c0 ≠ c → cpus s !! c0 = Some k0 → idle_installed k0 = true →
     stack k0 ≠ stack k') →
  kernel_root s' = kernel_root s → inv s'.
Proof.
  intros [I1 I2 I3 I4 I5 I6] Hk Hk' Hlen Hq Hc Hn Hg Hr Hok Hin Hh Hst Hkr. split.
  - done.
  - lia.
  - intros c0 k0' Hk0'. destruct (decide (c0 = c)) as [->|Hne]; [congruence|].
    destruct (Hq c0 k0' Hne Hk0') as (k0 & Hk0 & Hqk).
    eapply quiet_cpu_ok; [by eapply I3|done|lia|lia|done|]. intros; eapply Hr; eauto.
  - intros id t h Ht Hho. destruct (Hh id t h Ht Hho) as [[-> Hi]|(id' & t' & Ht' & Hh')]; [eauto|].
    destruct (I4 _ _ _ Ht' Hh') as (kh & Hkh & Hih).
    destruct (lookup_lt_is_Some_2 (cpus s') h) as [kh' Hkh'].
    { rewrite Hlen. by eapply lookup_lt_Some. }
    exists kh'. split; [done|]. destruct (decide (h = c)) as [->|Hne].
    + assert (kh = k) as -> by congruence. assert (kh' = k') as -> by congruence. auto.
    + destruct (Hq h kh' Hne Hkh') as (k0 & Hk0 & (Q1 & _)). congruence.
  - assert (∀ c0 k0', c0 ≠ c → cpus s' !! c0 = Some k0' → idle_installed k0' = true →
              idle_installed k' = true → stack k0' ≠ stack k') as Hdiff.
    { intros c0 k0' Hne Hk0' Hi Hi'. destruct (Hq c0 k0' Hne Hk0') as (k0 & Hk0 & (_ & Q2 & _ & Q4 & _)).
      rewrite Q4. eapply Hst; [done|done|done|congruence]. }
    intros c1 c2 k1 k2 H1 H2 Hi1 Hi2 Hs.
    destruct (decide (c1 = c)) as [->|Hn1], (decide (c2 = c)) as [->|Hn2]; [done| | |].
    + assert (k1 = k') as -> by congruence. exfalso. by apply (Hdiff c2 k2).
    + assert (k2 = k') as -> by congruence. exfalso. by apply (Hdiff c1 k1).
    + destruct (Hq c1 k1 Hn1 H1) as (k01 & Hk01 & (_ & Q2 & _ & Q4 & _)).
      destruct (Hq c2 k2 Hn2 H2) as (k02 & Hk02 & (_ & Q2' & _ & Q4' & _)).
      eapply I5; [done|done|congruence..].
  - congruence.
Qed.

(** One that changes nothing but that processor, and not the stack it is on. *)
Lemma inv_cpu s c k k' :
  inv s → cpus s !! c = Some k → core (threads s) (next_id s) (spots (set_cpu s c k')) →
  cpu_ok s k' → installed k' = installed k → idle_installed k' = idle_installed k →
  stack k' = stack k → inv (set_cpu s c k').
Proof.
  intros Hi Hk Hc Hok H1 H2 H3. pose proof (lookup_lt_Some _ _ _ Hk) as Hlt.
  eapply (inv_build s _ c k k'); try done; cbn.
  - by apply list_lookup_insert_eq.
  - by rewrite length_insert.
  - intros c0 k0' Hne. rewrite list_lookup_insert_ne by done. eauto using quiet_refl.
  - pose proof (in_next _ Hi). lia.
  - by destruct Hok.
  - congruence.
  - intros id t h Ht Hh. right. eauto.
  - intros Hi' c0 k0 Hne Hk0 Hi0. rewrite H3. intros E. apply Hne.
    eapply (in_stacks _ Hi); [done|done|done|congruence|done].
Qed.

(** ** Steps inside one processor *)

Lemma core_cpu s c k k' :
  inv s → cpus s !! c = Some k → cpu_spots c k' ≡ₚ cpu_spots c k →
  core (threads s) (next_id s) (spots (set_cpu s c k')).
Proof.
  intros Hi Hk Hp. destruct (spots_at _ _ _ Hk) as (R & H1 & H2 & _).
  rewrite H2, Hp, <- H1. apply Hi.
Qed.

Lemma core_cpu_move s c k k' id pl pl' X :
  inv s → cpus s !! c = Some k → cpu_spots c k ≡ₚ (id, pl) :: X → cpu_spots c k' ≡ₚ (id, pl') :: X →
  (∀ t, place_ok t pl → place_ok t pl') →
  core (threads s) (next_id s) (spots (set_cpu s c k')).
Proof.
  intros Hi Hk Hp Hp' Hok. destruct (spots_at _ _ _ Hk) as (R & H1 & H2 & _).
  rewrite H2, Hp'. eapply core_move; [|by intros t _; apply Hok].
  cbn [app]. pose proof (in_core _ Hi) as Hc. rewrite H1, Hp in Hc. exact Hc.
Qed.

Lemma in_thread_Some s c k :
  in_thread s c = Some k → cpus s !! c = Some k ∧ idle_installed k = true ∧ phase k = InThread.
Proof.
  unfold in_thread. destruct (cpus s !! c) as [k0|]; [|done].
  destruct (idle_installed k0) eqn:E; [|done]. destruct (phase k0) eqn:E'; try done. by intros [= <-].
Qed.

(** The spot of a processor's current thread. *)
Lemma cur_spot s c k :
  inv s → cpus s !! c = Some k → idle_installed k = true →
  ∃ t, threads s !! current_thread k = Some t ∧ at_home c t ∧ 0 ≤ current_thread k < next_id s.
Proof.
  intros Hi Hk Hon. destruct (spots_at _ _ _ Hk) as (R & H1 & _).
  destruct (co_spots _ _ _ (in_core _ Hi) (current_thread k) (PCur c)) as (t & Ht & Hp).
  { rewrite H1. unfold cpu_spots, cur_spots. rewrite Hon, !elem_of_app. left. right. right. right. left. }
  exists t. split; [done|]. split; [done|]. by eapply (co_ids _ _ _ (in_core _ Hi)).
Qed.

(** Entering [schedule]. *)
Lemma inv_decide s c k os :
  inv s → in_thread s c = Some k →
  (os = Exited → from_option is_parked_thread false (threads s !! current_thread k) = false) →
  inv (set_cpu s c (with_phase k (Deciding os))).
Proof.
  intros Hi (Hk & Hon & Hph)%in_thread_Some Hex. destruct (in_cpus _ Hi _ _ Hk) as [K1 K2 K3 K4].
  unfold standing in K3. rewrite Hph in K3.
  eapply inv_cpu; try done.
  - eapply core_cpu; [done..|]. unfold cpu_spots. cbn. by rewrite Hph.
  - split; cbn; try done; [congruence|]. destruct os; try done. intros _.
    destruct (cur_spot _ _ _ Hi Hk Hon) as (t & Ht & _). exists t. split; [done|].
    specialize (Hex eq_refl). by rewrite Ht in Hex.
Qed.

Lemma q_spots_perm c q q' id p :
  contents q ≡ₚ (id, p) :: contents q' → q_spots c q ≡ₚ (id, PQueue c p) :: q_spots c q'.
Proof. intros H. unfold q_spots. by rewrite H. Qed.

(** A thread taken off this processor's own queue. *)
Lemma inv_pop s c k os id q :
  inv s → cpus s !! c = Some k → phase k = Deciding os ∨ (∃ l, phase k = Stealing os l) →
  pop (run_queue k) = (Some id, q) → inv (set_cpu s c (with_queue k q (Chosen os id))).
Proof.
  intros Hi Hk Hph Hpop. destruct (in_cpus _ Hi _ _ Hk) as [K1 K2 K3 K4].
  assert (phase_spots c (phase k) = [] ∧ is_landed (phase k) = false ∧
          exiting (phase k) = exiting (Chosen os id) ∧ phase k ≠ InThread ∧
          stack k = current_thread k ∧ handoff_id k = NO_THREAD) as (P1 & P2 & P3 & P4 & P5 & P6).
  { unfold standing in K3. by destruct Hph as [Hph|[l Hph]]; rewrite Hph in *. }
  apply pop_taken in Hpop as [p Hpop]. eapply inv_cpu; try done.
  - eapply (core_cpu_move s c k _ id (PQueue c p) (PChosen c)); [done..| | |].
    + unfold cpu_spots. rewrite (q_spots_perm _ _ _ _ _ Hpop), P1, P2. cbn [app]. reflexivity.
    + unfold cpu_spots. cbn -[q_spots hand_spots]. symmetry. apply Permutation_middle.
    + cbn. tauto.
  - split; cbn; try done.
    + intros Hoff. by destruct (K1 Hoff).
    + intros Hex. apply K4. rewrite P3. exact Hex.
Qed.

(** Giving up on the local queue, or on another processor's. *)
Lemma inv_go_on s c k os l :
  inv s → cpus s !! c = Some k → phase k = Deciding os ∨ (∃ l, phase k = Stealing os l) →
  inv (set_cpu s c (with_phase k (Stealing os l))).
Proof.
  intros Hi Hk Hph. destruct (in_cpus _ Hi _ _ Hk) as [K1 K2 K3 K4].
  assert (phase_spots c (phase k) = [] ∧ is_landed (phase k) = false ∧
          exiting (phase k) = exiting (Stealing os l) ∧ phase k ≠ InThread ∧
          stack k = current_thread k ∧ handoff_id k = NO_THREAD) as (P1 & P2 & P3 & P4 & P5 & P6).
  { unfold standing in K3. by destruct Hph as [Hph|[? Hph]]; rewrite Hph in *. }
  eapply inv_cpu; try done.
  - eapply core_cpu; [done..|]. unfold cpu_spots. by rewrite P1, P2.
  - split; cbn; try done.
    + intros Hoff. by destruct (K1 Hoff).
    + intros Hex. apply K4. rewrite P3. exact Hex.
Qed.

Lemma inv_take_local s c k os :
  inv s → cpus s !! c = Some k → phase k = Deciding os → inv (take_local s c k os).
Proof.
  intros Hi Hk Hph. unfold take_local. destruct (prefers_local _); [|by apply inv_go_on; auto].
  destruct (pop (run_queue k)) as [[id|] q] eqn:E; [by apply inv_pop; auto|].
  apply pop_nothing in E as ->. by apply (inv_go_on s c k os); auto.
Qed.

Lemma inv_take_idle s c k os :
  inv s → cpus s !! c = Some k → phase k = Stealing os [] → inv (take_idle s c k os).
Proof.
  intros Hi Hk Hph. unfold take_idle.
  destruct (pop (run_queue k)) as [[id|] q] eqn:E; [by apply inv_pop; eauto|].
  apply pop_nothing in E as ->. destruct (in_cpus _ Hi _ _ Hk) as [K1 K2 K3 K4].
  unfold standing in K3. rewrite Hph in K3, K1.
  eapply inv_cpu; try done; [|split; cbn; try done; intros Hoff; by destruct (K1 Hoff)].
  eapply core_cpu; [done..|]. unfold cpu_spots. cbn. by rewrite Hph.
Qed.

(** Publishing the hand-off. *)
Lemma inv_publish s c k :
  inv s → cpus s !! c = Some k → phase k = Landed → inv (set_cpu s c (publish_handoff k)).
Proof.
  intros Hi Hk Hph. destruct (in_cpus _ Hi _ _ Hk) as [K1 K2 K3 K4].
  unfold standing in K3. rewrite Hph in K3. 
  assert (idle_installed k = true) as Hon.
  { destruct (idle_installed k); [done|]. destruct (K1 eq_refl). congruence. }
  destruct (spots_at _ _ _ Hk) as (R & H1 & H2 & _). pose proof (in_core _ Hi) as Hc.
  rewrite H1 in Hc. unfold cpu_spots in Hc. rewrite Hph in Hc. cbn [phase_spots is_landed app] in Hc.
  unfold publish_handoff, hand_spots in *.
  destruct (Z.eqb_spec (handoff_id k) NO_THREAD) as [E|E]; [|destruct (is_tagged (handoff_id k))].
  - eapply inv_cpu; try done; [|split; cbn; [congruence|done..]]. rewrite H2. exact Hc.
  - eapply inv_cpu; try done; [|split; cbn; [congruence|done..]]. rewrite H2. unfold cpu_spots. cbn -[q_spots hand_spots].
    rewrite <- app_assoc in Hc. cbn [app] in Hc. rewrite <- Permutation_middle in Hc.
    rewrite <- app_assoc. cbn [app]. eapply core_drop; [exact Hc|]. cbn.
    intros t (? & ? & Hh & ?). repeat split; auto. intros h Hho. by apply Hh in Hho as [_ ?].
  - eapply inv_cpu; try done; [|split; cbn; [congruence|done..]]. rewrite H2. unfold cpu_spots. cbn -[q_spots hand_spots].
    rewrite <- app_assoc in *. cbn [app] in *. rewrite <- Permutation_middle in *.
    eapply core_move; [exact Hc|]. cbn. naive_solver.
Qed.

(** ** Steps between processors *)

Ltac sys_simpl :=
  cbn [cpus threads next_id reapable wakes kernel_root preempting steals steal_contended epoch
       set_cpu set_threads set_wakes].

Lemma queue_push_at s c k id p :
  cpus s !! c = Some k →
  queue_push s c id p = set_cpu s c (with_queue k (push (run_queue k) id p) (phase k)).
Proof. intros Hk. unfold queue_push. by rewrite Hk. Qed.

Lemma set_cpu_twice s c k k' : set_cpu (set_cpu s c k) c k' = set_cpu s c k'.
Proof. unfold set_cpu. cbn. by rewrite list_insert_insert_eq. Qed.

(** The spot a push makes, when the thread is not on that queue yet. *)
Lemma push_spots c q id p R :
  NoDup (id :: (q_spots c q ++ R).*1) →
  q_spots c (push q id p) ≡ₚ (id, PQueue c p) :: q_spots c q.
Proof.
  rewrite NoDup_cons, fmap_app, elem_of_app. intros [Hn _]. unfold q_spots.
  rewrite push_added; [done|]. intros Hin. apply Hn. left.
  unfold q_spots. by rewrite <- list_fmap_compose.
Qed.

Lemma inv_publish_push s c k id p :
  inv s → cpus s !! c = Some k → phase k = Publishing id p →
  inv (queue_push (set_cpu s c (with_phase k InThread)) c id p).
Proof.
  intros Hi Hk Hph. pose proof (lookup_lt_Some _ _ _ Hk) as Hlt.
  rewrite (queue_push_at _ c (with_phase k InThread)) by by apply list_lookup_insert_eq.
  rewrite set_cpu_twice. destruct (in_cpus _ Hi _ _ Hk) as [K1 K2 K3 K4].
  unfold standing in K3. rewrite Hph in K1, K3. destruct K3 as [K3 K3'].
  destruct (spots_at _ _ _ Hk) as (R & H1 & H2 & _). pose proof (in_core _ Hi) as Hc.
  rewrite H1 in Hc. unfold cpu_spots in Hc. rewrite Hph, K3' in Hc. cbn [phase_spots] in Hc.
  rewrite <- app_assoc in Hc. cbn [app] in Hc. rewrite <- Permutation_middle in Hc.
  eapply inv_cpu; try done; [|split; cbn; try done; intros Hoff; by destruct (K1 Hoff)]. rewrite H2. unfold cpu_spots. cbn -[q_spots cur_spots].
  rewrite K3', (push_spots c _ id p _ (co_nodup _ _ _ Hc)). cbn [app]. rewrite <- app_assoc.
  eapply core_move; [exact Hc|]. cbn. tauto.
Qed.

(** The push of [unpark] and [spawn_kernel]. *)
Lemma inv_finish_wake s c i w k :
  inv s → in_thread s c = Some k → wakes s !! i = Some w →
  inv (finish_wake s c w (take i (wakes s) ++ drop (S i) (wakes s))).
Proof.
  intros Hi (Hk & Hon & _)%in_thread_Some Hw. unfold finish_wake.
  set (rest := take i (wakes s) ++ drop (S i) (wakes s)).
  assert (wakes s ≡ₚ w :: rest) as Hperm.
  { rewrite <- (take_drop_middle _ _ _ Hw) at 1. symmetry. apply Permutation_middle. }
  assert ((wake_id w, PWake (wake_prio w) (wake_home w)) ∈ spots s) as Hin.
  { unfold spots. rewrite Hperm, !elem_of_app. right. left. left. }
  destruct (co_spots _ _ _ (in_core _ Hi) _ _ Hin) as (t & Ht & Hpar & Hpr & Hho & Hidle & Hsv).
  set (h := home_queue s c (wake_home w)).
  assert (∃ kh, cpus s !! h = Some kh ∧ ∀ h', home_cpu t = Some h' → h' = h) as (kh & Hkh & Hhome).
  { subst h. unfold home_queue. destruct (wake_home w) as [h0|] eqn:E.
    - destruct (in_home _ Hi _ _ _ Ht (eq_sym Hho)) as (k0 & Hk0 & Hi0). rewrite Hk0, Hi0.
      exists k0. split; [done|]. intros h' Hh'. congruence.
    - exists k. split; [done|]. intros h' Hh'. congruence. }
  rewrite (queue_push_at _ h kh) by done.
  destruct (all_cpu_spots_at _ _ _ Hkh) as (R & H1 & H2).
  pose proof (in_core _ Hi) as Hc. unfold spots in Hc. rewrite H1, Hperm, fmap_cons in Hc.
  cbn [app] in Hc. rewrite <- app_assoc in Hc.
  change (wake_spot w :: ?x) with ([wake_spot w] ++ x) in Hc.
  rewrite (Permutation_app_swap_app R), (Permutation_app_swap_app _ [wake_spot w]) in Hc.
  cbn [app] in Hc. unfold cpu_spots at 1 in Hc. rewrite <- app_assoc in Hc.
  eapply (inv_build s _ h kh _ Hi Hkh); sys_simpl.
  - apply list_lookup_insert_eq. by eapply lookup_lt_Some.
  - by rewrite length_insert.
  - intros c0 k0' Hne. rewrite list_lookup_insert_ne by done. eauto using quiet_refl.
  - unfold spots. sys_simpl. rewrite H2. unfold cpu_spots at 1. cbn -[q_spots hand_spots cur_spots rest].
    rewrite (push_spots h _ (wake_id w) (wake_prio w) _ (co_nodup _ _ _ Hc)). cbn [app].
    rewrite <- !app_assoc. rewrite <- !app_assoc in Hc. eapply core_move; [exact Hc|].
    intros t' Ht' _. assert (t' = t) as -> by congruence. cbn. do 2 (split; [done|]).
    split; [|done]. intros h' Hh'. split; [auto|]. apply (Hidle h'). congruence.
  - pose proof (in_next _ Hi). lia.
  - done.
  - done.
  - eapply (quiet_cpu_ok s); [by eapply in_cpus|apply quiet_queue|apply Hi|done|done|done].
  - done.
  - intros id' t' h' Ht' Hh'. right. eauto.
  - intros Hi' c0 k0 Hne Hk0 Hi0 E. apply Hne. eapply (in_stacks _ Hi); try done.
  - done.
Qed.

(** A step in which no processor moves. *)
Lemma inv_quiet s s' :
  inv s → length (cpus s') = length (cpus s) →
  (∀ c k', cpus s' !! c = Some k' → ∃ k, cpus s !! c = Some k ∧ quiet k k') →
  core (threads s') (next_id s') (spots s') → next_id s' = next_id s →
  (∀ id, gone s id → gone s' id) →
  (∀ c k, cpus s !! c = Some k → runs_unparked s (current_thread k) → idle_installed k = true →
     runs_unparked s' (current_thread k)) →
  (∀ id t h, threads s' !! id = Some t → home_cpu t = Some h →
     ∃ t', threads s !! id = Some t' ∧ home_cpu t' = Some h) →
  kernel_root s' = kernel_root s → inv s'.
Proof.
  intros [I1 I2 I3 I4 I5 I6] Hlen Hq Hc Hn Hg Hr Hh Hkr. split.
  - done.
  - lia.
  - intros c k' Hk'. destruct (Hq c k' Hk') as (k & Hk & Hqk). pose proof (I3 _ _ Hk) as Hok.
    eapply quiet_cpu_ok; [done|done|lia|lia|done|]. intros Hex Hru. eapply Hr; [done..|].
    destruct (idle_installed k) eqn:E; [done|]. destruct (ck_off _ _ Hok E) as [Hph _].
    by rewrite Hph in Hex.
  - intros id t h Ht Hho. destruct (Hh id t h Ht Hho) as (t' & Ht' & Hh').
    destruct (I4 _ _ _ Ht' Hh') as (kh & Hkh & Hih).
    destruct (lookup_lt_is_Some_2 (cpus s') h) as [kh' Hkh'].
    { rewrite Hlen. by eapply lookup_lt_Some. }
    exists kh'. split; [done|]. destruct (Hq h kh' Hkh') as (k0 & Hk0 & (Q1 & _)). congruence.
  - intros c1 c2 k1 k2 H1 H2 Hi1 Hi2 Hs.
    destruct (Hq c1 k1 H1) as (k01 & Hk01 & (_ & Q2 & _ & Q4 & _)).
    destruct (Hq c2 k2 H2) as (k02 & Hk02 & (_ & Q2' & _ & Q4' & _)).
    eapply I5; [done|done|congruence..].
  - congruence.
Qed.

(** The counters, and the preemption switch. *)
Lemma inv_counters s s' :
  inv s → cpus s' = cpus s → threads s' = threads s → next_id s' = next_id s →
  reapable s' = reapable s → wakes s' = wakes s → kernel_root s' = kernel_root s → inv s'.
Proof.
  intros Hi H1 H2 H3 H4 H5 H6. eapply (inv_quiet _ _ Hi); try done.
  - by rewrite H1.
  - rewrite H1. eauto using quiet_refl.
  - unfold spots. rewrite H1, H2, H3, H4, H5. apply Hi.
  - unfold gone. by rewrite H2, H3, H4.
  - unfold runs_unparked. by rewrite H2.
  - rewrite H2. eauto.
Qed.

(** What a thread's spot does not depend on. *)
Definition same_spot (t t' : Thread) : Prop :=
  is_parked_thread t' = is_parked_thread t ∧ priority t' = priority t ∧ home_cpu t' = home_cpu t ∧
  (saved_context t → saved_context t').

Lemma same_spot_place t t' pl : same_spot t t' → place_ok t pl → place_ok t' pl.
Proof.
  intros (H1 & H2 & H3 & H4). unfold place_ok, at_home. rewrite H1, H2, H3.
  destruct pl; naive_solver.
Qed.

Lemma core_same M n L id t t' :
  core M n L → M !! id = Some t → same_spot t t' → core (<[id := t']> M) n L.
Proof.
  intros [C1 C2 C3 C4] Ht Hs. split; [done|..].
  - intros i pl Hi. destruct (C2 i pl Hi) as (u & Hu & Hp). destruct (decide (i = id)) as [->|Hne].
    + exists t'. rewrite lookup_insert_eq. split; [done|]. assert (u = t) as -> by congruence.
      by eapply same_spot_place.
    + exists u. by rewrite lookup_insert_ne.
  - intros i u. destruct (decide (i = id)) as [->|Hne].
    + rewrite lookup_insert_eq. intros [= <-] Hn. destruct (C3 id t Ht Hn) as (? & ? & ?).
      destruct Hs as (S1 & S2 & S3 & S4). rewrite S1, S2, S3. auto.
    + rewrite lookup_insert_ne by done. apply C3.
  - intros i u. destruct (decide (i = id)) as [->|Hne]; [intros _; by eapply C4|].
    rewrite lookup_insert_ne by done. apply C4.
Qed.

(** Rewriting a record leaves the exited threads as they are. *)
Lemma gone_mono s s' id t t' :
  threads s !! id = Some t → threads s' = <[id := t']> (threads s) → next_id s' = next_id s →
  reapable s ⊆ reapable s' → ∀ i, gone s i → gone s' i.
Proof.
  intros Ht E1 E2 E3 i [Hr Hg]. unfold gone. rewrite E1, E2. split; [done|].
  destruct Hg as [?|Hg]; [left; by apply E3|right].
  rewrite lookup_insert_ne; [done|]. intros <-. congruence.
Qed.

(** Rewriting one thread's record, its spot unchanged. *)
Lemma inv_rewrite s id t t' :
  inv s → threads s !! id = Some t → same_spot t t' → inv (set_threads s (<[id := t']> (threads s))).
Proof.
  intros Hi Ht Hs. pose proof Hs as (H1 & _ & H3 & _).
  eapply inv_quiet; try done; sys_simpl.
  - intros c k Hk. eauto using quiet_refl.
  - eapply core_same; [apply Hi|done..].
  - by eapply gone_mono.
  - intros c k Hk (u & Hu & Hp) _. unfold runs_unparked. sys_simpl.
    destruct (decide (current_thread k = id)) as [E|Hne].
    + exists t'. rewrite E, lookup_insert_eq. split; [done|]. congruence.
    + exists u. by rewrite lookup_insert_ne.
  - intros i u h. destruct (decide (i = id)) as [->|Hne].
    + rewrite lookup_insert_eq. intros [= <-] Hh. exists t. split; [done|]. congruence.
    + rewrite lookup_insert_ne by done. eauto.
Qed.

(** A thread taken off another processor's queue. *)
Lemma inv_steal_from s c k os o rest b :
  inv s → cpus s !! c = Some k → phase k = Stealing os (o :: rest) →
  inv (steal_from s c k os o rest b).
Proof.
  intros Hi Hk Hph. unfold steal_from.
  assert (inv (set_cpu s c (with_phase k (Stealing os rest)))) as Hgo by (eapply inv_go_on; eauto).
  destruct (Nat.eqb_spec o c) as [|Hoc]; [done|].
  destruct (cpus s !! o) as [r|] eqn:Hr; [|done]. destruct (installed r); [|done]. cbn [negb].
  destruct b; [by eapply inv_counters; [exact Hgo|..]|].
  destruct (Nat.eqb_spec (runnable_len (run_queue r)) 0) as [|Hrun]; [done|].
  destruct (steal (run_queue r)) as [[id|] q] eqn:Est; [|done].
  destruct (steal_taken _ _ _ Hrun Est) as (p & Hq & Hp).
  set (r' := with_queue r q (phase r)). set (k' := with_phase k (Chosen os id)).
  destruct (in_cpus _ Hi _ _ Hk) as [K1 K2 K3 K4]. unfold standing in K3. rewrite Hph in *.
  destruct K3 as [K3 K3'].
  destruct (all_cpu_spots_at _ _ _ Hr) as (R1 & H1 & H1').
  assert (<[o := r']> (cpus s) !! c = Some k) as Hk' by by rewrite list_lookup_insert_ne.
  destruct (all_cpu_spots_at _ _ _ Hk') as (R2 & H2 & H2'). rewrite H1' in H2.
  eapply (inv_build s _ c k k' Hi Hk); sys_simpl.
  - apply list_lookup_insert_eq. rewrite length_insert. by eapply lookup_lt_Some.
  - by rewrite !length_insert.
  - intros c0 k0' Hne. rewrite list_lookup_insert_ne by done.
    destruct (decide (c0 = o)) as [->|Hne'].
    + rewrite list_lookup_insert_eq by by eapply lookup_lt_Some. intros [= <-].
      exists r. split; [done|apply quiet_queue].
    + rewrite list_lookup_insert_ne by done. eauto using quiet_refl.
  - unfold spots. sys_simpl. rewrite H2'.
    assert (cpu_spots c k' ≡ₚ (id, PChosen c) :: cpu_spots c k) as ->.
    { unfold cpu_spots. cbn -[q_spots hand_spots cur_spots]. rewrite Hph. cbn [phase_spots app].
      symmetry. apply Permutation_middle. }
    pose proof (in_core _ Hi) as Hc. unfold spots in Hc. rewrite H1 in Hc.
    unfold cpu_spots at 1 in Hc. rewrite (q_spots_perm _ _ _ _ _ Hq) in Hc. cbn [app] in Hc.
    change (q_spots o q ++ ?x) with (q_spots o (run_queue r') ++ x) in Hc.
    change (phase r) with (phase r') in Hc. change (handoff_id r) with (handoff_id r') in Hc.
    change (handoff_priority r) with (handoff_priority r') in Hc.
    change (cur_spots o r) with (cur_spots o r') in Hc. fold (cpu_spots o r') in Hc.
    rewrite H2 in Hc. cbn [app]. eapply core_move; [exact Hc|].
    intros t _ (? & -> & Hh & ?). cbn. split; [done|]. split; [|done].
    intros h Hho. by apply Hh in Hho as [_ ?].
  - pose proof (in_next _ Hi). lia.
  - done.
  - done.
  - split; cbn; try done. intros Hoff. by destruct (K1 Hoff).
  - done.
  - intros i u h Hu Hh. right. eauto.
  - intros Hi' c0 k0 Hne Hk0 Hi0 E. apply Hne. eapply (in_stacks _ Hi); try done.
  - done.
Qed.

(** ** Which processor a spot belongs to *)

Definition place_cpu (pl : Place) : option nat :=
  match pl with
  | PQueue c _ | PChosen c | PCur c | PHand c _ _ | PPart c _ _ | PPublish c _ => Some c
  | PWake _ _ | PReap => None
  end.

Lemma cpu_spots_place c k id pl : (id, pl) ∈ cpu_spots c k → place_cpu pl = Some c.
Proof.
  unfold cpu_spots, q_spots, phase_spots, hand_spots, cur_spots. rewrite !elem_of_app.
  intros [H|[H|[H|H]]].
  - apply list_elem_of_fmap in H as (e & [= -> ->] & _). done.
  - destruct (phase k); set_solver.
  - destruct (handoff_id k =? NO_THREAD), (is_tagged (handoff_id k)); set_solver.
  - destruct (idle_installed k); set_solver.
Qed.

Lemma all_cpu_spots_elem ks id pl :
  (id, pl) ∈ all_cpu_spots ks ↔ ∃ c k, ks !! c = Some k ∧ (id, pl) ∈ cpu_spots c k.
Proof.
  unfold all_cpu_spots. rewrite list_elem_of_In, in_concat. split.
  - intros (l & Hl & Hin%list_elem_of_In). apply list_elem_of_In, elem_of_lookup_imap in Hl as (c & k & -> & Hk).
    eauto.
  - intros (c & k & Hk & Hin). exists (cpu_spots c k). rewrite <- !list_elem_of_In. split; [|done].
    apply elem_of_lookup_imap. eauto.
Qed.

Lemma core_unique M n L id pl pl' : core M n L → (id, pl) ∈ L → (id, pl') ∈ L → pl = pl'.
Proof.
  intros Hc [i Hi]%list_elem_of_lookup [j Hj]%list_elem_of_lookup.
  assert (i = j) as ->; [|congruence].
  eapply (NoDup_lookup _ _ _ id (co_nodup _ _ _ Hc)); rewrite list_lookup_fmap.
  - by rewrite Hi.
  - by rewrite Hj.
Qed.

Lemma cpu_spot_in s c k id pl : cpus s !! c = Some k → (id, pl) ∈ cpu_spots c k → (id, pl) ∈ spots s.
Proof. intros Hk Hin. unfold spots. rewrite elem_of_app, all_cpu_spots_elem. left. eauto. Qed.

Lemma reap_spot_in s id : id ∈ reapable s → (id, PReap) ∈ spots s.
Proof.
  intros Hin. unfold spots. rewrite !elem_of_app. right. right. apply list_elem_of_fmap. by exists id.
Qed.

Lemma cur_spot_in c k : idle_installed k = true → (current_thread k, PCur c) ∈ cpu_spots c k.
Proof.
  intros Hon. unfold cpu_spots, cur_spots. rewrite Hon, !elem_of_app. right. right. right. left.
Qed.

(** The stack a processor is on is its own, or an exited thread's. *)
Lemma stack_owner s c k :
  inv s → cpus s !! c = Some k → idle_installed k = true →
  (∃ pl, (stack k, pl) ∈ cpu_spots c k) ∨ gone s (stack k).
Proof.
  intros Hi Hk Hon. pose proof (cur_spot_in c k Hon) as Hcur.
  pose proof (ck_standing _ _ (in_cpus _ Hi _ _ Hk)) as Hst. unfold standing in Hst.
  assert (stack k = current_thread k → ∃ pl, (stack k, pl) ∈ cpu_spots c k) as Hown.
  { intros ->. by exists (PCur c). }
  destruct (phase k) as [| | | |from to ? ? ?| |]; try (left; apply Hown; by (apply Hst || exact Hst)).
  destruct Hst as (_ & -> & Hf & Hh). pose proof (in_next _ Hi) as Hn.
  assert (from < next_id s ≤ 2 ^ 63 - 1) as Hlt by lia.
  destruct Hh as [Hh|[Hh|[_ Hg]]]; [left|left|by right].
  - eexists. unfold cpu_spots. rewrite Hh, hand_spots_id, !elem_of_app by lia.
    right. right. left. left.
  - eexists. unfold cpu_spots. rewrite Hh, hand_spots_tag, !elem_of_app by lia.
    right. right. left. left.
Qed.

Lemma spot_id s id pl : inv s → (id, pl) ∈ spots s → 0 ≤ id < next_id s.
Proof.
  intros Hi Hin. destruct (co_spots _ _ _ (in_core _ Hi) _ _ Hin) as (t & Ht & _).
  by eapply (co_ids _ _ _ (in_core _ Hi)).
Qed.

Lemma stack_id s c k :
  inv s → cpus s !! c = Some k → idle_installed k = true → 0 ≤ stack k < next_id s.
Proof.
  intros Hi Hk Hon. destruct (stack_owner _ _ _ Hi Hk Hon) as [[pl Hp]|[Hg _]]; [|done].
  eapply spot_id; [done|]. by eapply cpu_spot_in.
Qed.

(** No other processor is on the stack of a thread this one has. *)
Lemma stack_not_shared s c k c0 k0 id pl :
  inv s → cpus s !! c = Some k → cpus s !! c0 = Some k0 → c0 ≠ c → idle_installed k0 = true →
  (id, pl) ∈ cpu_spots c k → stack k0 ≠ id.
Proof.
  intros Hi Hk Hk0 Hne Hon0 Hin E. pose proof (cpu_spot_in _ _ _ _ _ Hk Hin) as Hsp.
  destruct (stack_owner _ _ _ Hi Hk0 Hon0) as [[pl' Hp]|[_ Hg]]; rewrite E in *.
  - pose proof (core_unique _ _ _ _ _ _ (in_core _ Hi) Hsp (cpu_spot_in _ _ _ _ _ Hk0 Hp)) as ->.
    apply cpu_spots_place in Hp, Hin. congruence.
  - destruct Hg as [Hg|Hg].
    + pose proof (core_unique _ _ _ _ _ _ (in_core _ Hi) Hsp (reap_spot_in _ _ Hg)) as ->.
      by apply cpu_spots_place in Hin.
    + destruct (co_spots _ _ _ (in_core _ Hi) _ _ Hsp) as (t & Ht & _). congruence.
Qed.

Lemma cur_not_shared s c k c0 k0 :
  inv s → cpus s !! c = Some k → cpus s !! c0 = Some k0 → idle_installed k = true →
  idle_installed k0 = true → current_thread k = current_thread k0 → c = c0.
Proof.
  intros Hi Hk Hk0 Hon Hon0 E. pose proof (cur_spot_in c k Hon) as H1.
  pose proof (cur_spot_in c0 k0 Hon0) as H2. rewrite E in H1.
  pose proof (core_unique _ _ _ _ _ _ (in_core _ Hi) (cpu_spot_in _ _ _ _ _ Hk H1)
                (cpu_spot_in _ _ _ _ _ Hk0 H2)). congruence.
Qed.

Lemma exiting_on s k : cpu_ok s k → exiting (phase k) = true → idle_installed k = true.
Proof.
  intros Hok Hex. destruct (idle_installed k) eqn:E; [done|].
  destruct (ck_off _ _ Hok E) as [Hp _]. by rewrite Hp in Hex.
Qed.

(** ** [park] *)

Lemma inv_park s c k s' :
  inv s → in_thread s c = Some k → park_section s c k = Ret s' → inv s'.
Proof.
  intros Hi Hit Hp. pose proof Hit as (Hk & Hon & Hph)%in_thread_Some.
  destruct (cur_spot _ _ _ Hi Hk Hon) as (t & Ht & Hh & Hid). unfold park_section in Hp.
  rewrite Ht in Hp. cbn [expect mbind outcome_bind] in Hp. unfold Park.park in Hp.
  destruct (Park.pending (park t)).
  - injection Hp as <-. by eapply inv_rewrite.
  - injection Hp as <-. set (t' := set_state Blocked (set_park _ t)).
    destruct (in_cpus _ Hi _ _ Hk) as [K1 K2 K3 K4]. unfold standing in K3. rewrite Hph in K3.
    destruct (spots_at _ _ _ Hk) as (R & H1 & _ & (R' & H2 & H3 & HR)).
    eapply (inv_build s _ c k _ Hi Hk); sys_simpl.
    + apply list_lookup_insert_eq. by eapply lookup_lt_Some.
    + by rewrite length_insert.
    + intros c0 k0' Hne. rewrite list_lookup_insert_ne by done. eauto using quiet_refl.
    + pose proof (in_core _ Hi) as Hc. unfold spots in *. sys_simpl. rewrite H3, <- app_assoc.
      rewrite H2, <- app_assoc, <- HR in Hc. rewrite <- HR.
      unfold cpu_spots, cur_spots in *. rewrite Hph, Hon in Hc. cbn -[q_spots hand_spots] in *.
      rewrite Hon. rewrite !app_assoc in *.
      rewrite <- (Permutation_cons_append _ (current_thread k, PCur c)) in *. cbn [app] in *.
      by eapply core_update.
    + pose proof (in_next _ Hi). lia.
    + by eapply gone_mono.
    + intros c0 k0 Hne Hk0 Hex (u & Hu & Hpu). exists u. sys_simpl. split; [|done].
      rewrite lookup_insert_ne; [done|]. intros E. apply Hne. symmetry.
      eapply cur_not_shared; [done..| |done]. eapply exiting_on; [by eapply in_cpus|done].
    + split; cbn; try done. congruence.
    + done.
    + intros i u h. destruct (decide (i = current_thread k)) as [->|Hne].
      * rewrite lookup_insert_eq. intros [= <-] Hho. right. exists (current_thread k), t. done.
      * rewrite lookup_insert_ne by done. intros. right. eauto.
    + intros _ c0 k0 Hne Hk0 Hi0 E. apply Hne. eapply (in_stacks _ Hi); done.
    + done.
Qed.

(** ** [unpark] *)

Lemma claim_spec ks id b ks' :
  claim_parked_handoff ks id = (b, ks') →
  (b = true ∧ ∃ c k, ks !! c = Some k ∧ handoff_id k = tag id ∧
     ks' = <[c := with_handoff k id (phase k)]> ks) ∨
  (b = false ∧ ks' = ks ∧ ∀ c k, ks !! c = Some k → handoff_id k ≠ tag id).
Proof.
  revert b ks'. induction ks as [|k ks IH]; intros b ks'; cbn [claim_parked_handoff].
  { intros [= <- <-]. right. split; [done|]. split; [done|]. by intros c k. }
  destruct (Z.eqb_spec (handoff_id k) (tag id)) as [E|E].
  { intros [= <- <-]. left. split; [done|]. by exists 0%nat, k. }
  destruct (claim_parked_handoff ks id) as [b0 ks0] eqn:Ec. intros [= <- <-].
  destruct (IH _ _ eq_refl) as [(-> & c & k0 & Hk0 & Ht & ->)|(-> & -> & Hno)].
  - left. split; [done|]. by exists (S c), k0.
  - right. split; [done|]. split; [done|]. intros [|c] k0 Hk0; [by injection Hk0 as <-|].
    by eapply Hno.
Qed.

Lemma is_current_spec s id :
  inv s → 0 ≤ id < next_id s →
  is_current_anywhere s id = true ↔
  ∃ c k, cpus s !! c = Some k ∧ idle_installed k = true ∧ current_thread k = id.
Proof.
  intros Hi Hid. pose proof (in_next _ Hi). unfold is_current_anywhere. rewrite existsb_exists. split.
  - intros (k & Hk%list_elem_of_In & [Hin E%Z.eqb_eq]%andb_true_iff).
    apply list_elem_of_lookup in Hk as [c Hk]. exists c, k. split; [done|].
    destruct (idle_installed k) eqn:Eon; [done|].
    destruct (ck_off _ _ (in_cpus _ Hi _ _ Hk) Eon) as [_ Hno]. unfold NO_THREAD in Hno. lia.
  - intros (c & k & Hk & Hon & <-). exists k. split.
    + apply list_elem_of_In. by eapply list_elem_of_lookup_2.
    + by rewrite (ck_on _ _ (in_cpus _ Hi _ _ Hk) Hon), Z.eqb_refl.
Qed.

(** A parked thread is current, or handed off tagged, or has no spot. *)
Lemma parked_spots s id t :
  inv s → threads s !! id = Some t → is_parked_thread t = true →
  is_current_anywhere s id = false → (∀ c k, cpus s !! c = Some k → handoff_id k ≠ tag id) →
  id ∉ (spots s).*1.
Proof.
  intros Hi Ht Hpk Hcur Hclaim ([id' pl] & Hid' & Hin)%list_elem_of_fmap. simpl in Hid'. subst id'.
  destruct (co_spots _ _ _ (in_core _ Hi) _ _ Hin) as (t0 & Ht0 & Hpl).
  assert (t0 = t) as -> by congruence. pose proof (co_ids _ _ _ (in_core _ Hi) _ _ Ht) as Hid.
  pose proof (in_next _ Hi) as Hnx.
  unfold spots in Hin. rewrite !elem_of_app in Hin. destruct Hin as [Hin|[Hin|Hin]].
  - apply all_cpu_spots_elem in Hin as (c & k & Hk & Hin).
    unfold cpu_spots in Hin. rewrite !elem_of_app in Hin. destruct Hin as [H|[H|[H|H]]].
    + apply list_elem_of_fmap in H as (e & [= -> ->] & _). cbn in Hpl. destruct Hpl. congruence.
    + destruct (phase k); cbn in H; try by apply elem_of_nil in H.
      all: apply list_elem_of_singleton in H as [= -> ->]; destruct Hpl; congruence.
    + unfold hand_spots in H. destruct (Z.eqb_spec (handoff_id k) NO_THREAD); [by apply elem_of_nil in H|].
      destruct (is_tagged (handoff_id k)) eqn:E; apply list_elem_of_singleton in H as [= -> ->].
      * apply (Hclaim _ _ Hk). rewrite tag_eq by lia. unfold HANDOFF_PARKED. lia.
      * destruct Hpl. congruence.
    + unfold cur_spots in H. destruct (idle_installed k) eqn:Hon; [|by apply elem_of_nil in H].
      apply list_elem_of_singleton in H as [= -> ->].
      assert (is_current_anywhere s (current_thread k) = true); [|congruence].
      apply is_current_spec; eauto.
  - apply list_elem_of_fmap in Hin as (w & [= -> ->] & _). destruct Hpl. congruence.
  - apply list_elem_of_fmap in Hin as (w & [= -> ->] & _). cbn in Hpl. congruence.
Qed.

(** The record [unpark] leaves when it makes a thread runnable. *)
Lemma woken_place t p :
  Park.wake (park t) = (Park.Runnable, p) →
  is_parked_thread t = true ∧ is_parked_thread (set_state Ready (set_park p t)) = false.
Proof.
  unfold Park.wake, is_parked_thread, Park.is_parked. cbn. destruct (Park.parked (park t)); [|done].
  by intros [= <-].
Qed.

(** Waking changes the table at one thread only, and not its home. *)
Lemma inv_woken s s' id t p :
  inv s → threads s !! id = Some t → Park.wake (park t) = (Park.Runnable, p) →
  threads s' = <[id := set_state Ready (set_park p t)]> (threads s) →
  next_id s' = next_id s → reapable s' = reapable s → kernel_root s' = kernel_root s →
  length (cpus s') = length (cpus s) →
  (∀ c k', cpus s' !! c = Some k' → ∃ k, cpus s !! c = Some k ∧ quiet k k') →
  core (threads s') (next_id s) (spots s') → inv s'.
Proof.
  intros Hi Ht Hw E1 E2 E3 E4 Hlen Hq Hc. destruct (woken_place _ _ Hw) as [_ Hun].
  eapply (inv_quiet s s' Hi); try done.
  - by rewrite E2.
  - eapply gone_mono; [done..|by rewrite E3].
  - intros c k Hk (u & Hu & Hp) _. unfold runs_unparked. rewrite E1.
    destruct (decide (current_thread k = id)) as [->|Hne].
    + eexists. by rewrite lookup_insert_eq.
    + exists u. by rewrite lookup_insert_ne.
  - intros i u h. rewrite E1. destruct (decide (i = id)) as [->|Hne].
    + rewrite lookup_insert_eq. intros [= <-] Hh. by exists t.
    + rewrite lookup_insert_ne by done. eauto.
Qed.

(** The three ways out of [unpark] for a parked thread: it is still current
    and [schedule] will see the wake; its hand-off is claimed; it is in no
    queue and is pushed. *)
Lemma unpark_current s id t p :
  inv s → threads s !! id = Some t → Park.wake (park t) = (Park.Runnable, p) →
  is_current_anywhere s id = true →
  inv (set_threads s (<[id := set_state Ready (set_park p t)]> (threads s))).
Proof.
  intros Hi Ht Hw Hcur. pose proof (co_ids _ _ _ (in_core _ Hi) _ _ Ht) as Hid.
  apply is_current_spec in Hcur as (c & k & Hk & Hon & <-); [|done..].
  eapply (inv_woken s _ _ _ _ Hi Ht Hw); try done; sys_simpl; [eauto using quiet_refl|].
  pose proof (in_core _ Hi) as Hc. destruct (spots_at _ _ _ Hk) as (R & H1 & _).
  change (spots (set_threads s ?m)) with (spots s).
  rewrite H1 in *. unfold cpu_spots, cur_spots in *. rewrite Hon, !app_assoc in *.
  rewrite <- (Permutation_cons_append _ (current_thread k, PCur c)) in *. cbn [app] in *.
  destruct (core_lookup _ _ _ _ _ Hc) as (t0 & Ht0 & Hpl & _). assert (t0 = t) as -> by congruence.
  eapply core_update; [exact Hc|exact Hpl].
Qed.

Lemma unpark_claimed s id t p c k :
  inv s → threads s !! id = Some t → Park.wake (park t) = (Park.Runnable, p) →
  cpus s !! c = Some k → handoff_id k = tag id →
  inv (mkSys (<[c := with_handoff k id (phase k)]> (cpus s))
         (<[id := set_state Ready (set_park p t)]> (threads s)) (next_id s) (reapable s) (wakes s)
         (kernel_root s) (preempting s) (steals s) (steal_contended s) (epoch s)).
Proof.
  intros Hi Ht Hw Hk Hh. pose proof (co_ids _ _ _ (in_core _ Hi) _ _ Ht) as Hid. pose proof (in_next _ Hi) as Hnx.
  destruct (woken_place _ _ Hw) as [_ Hun].
  eapply (inv_woken s _ _ _ _ Hi Ht Hw); try done; sys_simpl.
  - by rewrite length_insert.
  - intros c0 k0'. destruct (decide (c0 = c)) as [->|Hne].
    + rewrite list_lookup_insert_eq by by eapply lookup_lt_Some. intros [= <-]. exists k.
      split; [done|]. repeat split. right. exists id. split; [lia|done].
    + rewrite list_lookup_insert_ne by done. eauto using quiet_refl.
  - pose proof (in_core _ Hi) as Hc. destruct (spots_at _ _ _ Hk) as (R & H1 & H2 & _).
    change (spots (mkSys (<[c := ?k']> (cpus s)) _ _ _ _ _ _ _ _ _)) with (spots (set_cpu s c k')).
    rewrite H2. rewrite H1 in Hc. unfold cpu_spots in *. rewrite Hh in Hc.
    rewrite hand_spots_tag in Hc by lia. cbn -[q_spots hand_spots] in *.
    rewrite hand_spots_id by lia. rewrite !app_assoc in *. rewrite <- !app_assoc in *. cbn [app] in *.
    rewrite (app_assoc (q_spots c (run_queue k))), <- Permutation_middle in *.
    destruct (core_lookup _ _ _ _ _ Hc) as (t0 & Ht0 & Hpl & _). assert (t0 = t) as -> by congruence.
    eapply core_update; [exact Hc|]. cbn in *. by destruct Hpl as (_ & Hpl).
Qed.

Lemma unpark_pushed s id t p :
  inv s → threads s !! id = Some t → Park.wake (park t) = (Park.Runnable, p) →
  is_current_anywhere s id = false → (∀ c k, cpus s !! c = Some k → handoff_id k ≠ tag id) →
  inv (set_wakes (set_threads s (<[id := set_state Ready (set_park p t)]> (threads s)))
         (mkWake id (priority t) (home_cpu t) :: wakes s)).
Proof.
  intros Hi Ht Hw Hcur Hno. destruct (woken_place _ _ Hw) as [Hpk Hun].
  pose proof (parked_spots _ _ _ Hi Ht Hpk Hcur Hno) as Hout.
  destruct (co_live _ _ _ (in_core _ Hi) _ _ Ht Hout) as (_ & Hsv & Hidle).
  eapply (inv_woken s _ _ _ _ Hi Ht Hw); try done; sys_simpl; [eauto using quiet_refl|].
  assert (spots (set_wakes (set_threads s (<[id := set_state Ready (set_park p t)]> (threads s)))
            (mkWake id (priority t) (home_cpu t) :: wakes s)) ≡ₚ
          (id, PWake (priority t) (home_cpu t)) :: spots s) as ->.
  { unfold spots. sys_simpl. rewrite fmap_cons. symmetry. apply Permutation_middle. }
  eapply core_wake; [apply Hi|done|done|]. cbn. repeat split; auto.
Qed.

Lemma inv_unpark s id : inv s → inv (unpark s id).
Proof.
  intros Hi. unfold unpark. destruct (threads s !! id) as [t|] eqn:Ht; [|done].
  destruct (Park.wake (park t)) as [[] p] eqn:Hw.
  - destruct (is_current_anywhere s id) eqn:Hcur; [by apply unpark_current|].
    destruct (claim_parked_handoff (cpus s) id) as [b ks] eqn:Ecl.
    destruct (claim_spec _ _ _ _ Ecl) as [(-> & c & k & Hk & Hh & ->)|(-> & -> & Hno)].
    + by apply unpark_claimed.
    + by apply unpark_pushed.
  - eapply inv_rewrite; [done..|]. revert Hw. unfold Park.wake, same_spot, is_parked_thread, Park.is_parked.
    destruct (Park.parked (park t)) eqn:E; [done|]. intros [= <-]. cbn. auto.
Qed.

(** ** [schedule]: the critical section *)

(** The outgoing thread's record and spot. *)
Definition settled (os : ThreadState) (t : Thread) : Thread :=
  match os with
  | Exited => set_state Exited t
  | _ => set_state (match state t with
                    | Exited => Exited
                    | _ => if is_parked_thread t then Blocked else Ready
                    end) t
  end.
Definition out_place (c : nat) (os : ThreadState) (t : Thread) : Place :=
  match os with
  | Exited => PReap
  | _ => if is_parked_thread t then PPart c (priority t) false else PHand c (priority t) false
  end.

Lemma settled_same os t : same_spot t (settled os t).
Proof. by destruct os. Qed.

Lemma alter_at (f : Thread → Thread) (id : Z) (M : gmap Z Thread) t :
  M !! id = Some t → alter f id M = <[id := f t]> M.
Proof.
  intros Ht. apply map_eq. intros i. destruct (decide (i = id)) as [->|Hne].
  - by rewrite lookup_alter_eq, lookup_insert_eq, Ht.
  - by rewrite lookup_alter_ne, lookup_insert_ne.
Qed.

Lemma outgoing_eq s c k os t m reap h hp :
  inv s → cpus s !! c = Some k → threads s !! current_thread k = Some t →
  0 ≤ current_thread k < next_id s → outgoing s k os = (m, reap, h, hp) →
  m = <[current_thread k := settled os t]> (threads s) ∧
  hand_spots c h hp false ++ (reap_spot <$> reap) ≡ₚ
    (current_thread k, out_place c os t) :: (reap_spot <$> reapable s) ∧
  reapable s ⊆ reap ∧
  (h = current_thread k ∨ h = tag (current_thread k) ∨ (h = NO_THREAD ∧ current_thread k ∈ reap)).
Proof.
  intros Hi Hk Ht Hid. pose proof (in_next _ Hi). unfold outgoing. rewrite Ht. cbn [from_option].
  destruct os; intros [= <- <- <- <-]; rewrite (alter_at _ _ _ _ Ht); (split; [done|]).
  4: { rewrite fmap_app. split; [symmetry; apply Permutation_cons_append|]. split; [set_solver|]. right. right. split; [done|]. set_solver. }
  all: unfold out_place; destruct (is_parked_thread t);
    rewrite ?hand_spots_tag, ?hand_spots_id, priority_raw_round_trip by lia; auto.
Qed.

(** The spots around the section, with the two threads it moves first. *)
Lemma section_spots s c k os next :
  inv s → cpus s !! c = Some k → phase k = Chosen os next →
  idle_installed k = true ∧ stack k = current_thread k ∧
  ∃ R, core (threads s) (next_id s)
         ((current_thread k, PCur c) :: (next, PChosen c) ::
          q_spots c (run_queue k) ++ R ++ (wake_spot <$> wakes s) ++ (reap_spot <$> reapable s)) ∧
       ∀ k', all_cpu_spots (<[c := k']> (cpus s)) ≡ₚ cpu_spots c k' ++ R.
Proof.
  intros Hi Hk Hph. destruct (in_cpus _ Hi _ _ Hk) as [K1 _ K3 _].
  unfold standing in K3. rewrite Hph in K1, K3. destruct K3 as [K3 K3'].
  assert (idle_installed k = true) as Hon.
  { destruct (idle_installed k); [done|]. by destruct (K1 eq_refl). }
  split; [done|]. split; [done|].
  destruct (spots_at _ _ _ Hk) as (R & H1 & _ & (R' & H2 & H3 & HR)). exists R'. split; [|done].
  pose proof (in_core _ Hi) as Hc. rewrite H1 in Hc. unfold cpu_spots, cur_spots in Hc.
  rewrite Hph, Hon, K3' in Hc. cbn [phase_spots app hand_spots] in Hc. rewrite HR in Hc.
  revert Hc. apply core_perm. rewrite <- !app_assoc. cbn. solve_Permutation.
Qed.

Lemma out_place_ok s c k os t :
  cpu_ok s k → exiting (phase k) = bool_decide (os = Exited) →
  threads s !! current_thread k = Some t → at_home c t →
  place_ok (settled os t) (out_place c os t).
Proof.
  intros Hok Hex Ht Hh. eapply same_spot_place; [apply settled_same|]. unfold out_place.
  assert (os = Exited → is_parked_thread t = false) as Hun.
  { intros ->. destruct (ck_exit _ _ Hok Hex) as (t0 & Ht0 & ?). congruence. }
  destruct os; [| | |by apply Hun]; by destruct (is_parked_thread t) eqn:E.
Qed.

(** Two threads change records and spots at once. *)
Lemma core_update2 M n i j pi pj R ti pi' tj pj' :
  core M n ((i, pi) :: (j, pj) :: R) → place_ok ti pi' → place_ok tj pj' →
  core (<[j := tj]> (<[i := ti]> M)) n ((j, pj') :: (i, pi') :: R).
Proof.
  intros Hc Hi Hj. pose proof (core_update _ _ _ _ _ _ _ Hc Hi) as H1.
  apply (core_update _ _ j pj _ _ pj'); [|exact Hj]. revert H1. apply core_perm. apply perm_swap.
Qed.

(** The shape of the section's result. *)
Lemma section_returns s c k os next t u m reap h hp :
  threads s !! next = Some u → context u ≠ None → next ≠ current_thread k →
  outgoing s k os = (m, reap, h, hp) → m = <[current_thread k := settled os t]> (threads s) →
  schedule_section s c k os next =
  Ret (mkSys (<[c := mkCpu (installed k) (idle_installed k) (online k) next (run_queue k) h hp
                 (kernel_rsp k) (cr3 k) (stack k)
                 (Switching (current_thread k) next (kernel_stack_top u) (address_space u) (epoch s))]> (cpus s))
         (<[next := set_state Running u]> m) (next_id s) reap (wakes s) (kernel_root s) (preempting s)
         (steals s) (steal_contended s) (epoch s)).
Proof.
  intros Hu Hctx Hne Ho Hm. unfold schedule_section. rewrite Ho, Hm.
  rewrite lookup_insert_ne, Hu by done. cbn [expect mbind outcome_bind].
  rewrite bool_decide_eq_false_2 by exact Hctx. cbn [negb rust_assert mbind outcome_bind].
  by rewrite lookup_insert_ne, lookup_insert_eq by done.
Qed.

(** The home processors of the table the section leaves. *)
Lemma section_homes s os id next t u i v hh :
  threads s !! id = Some t → threads s !! next = Some u →
  <[next := set_state Running u]> (<[id := settled os t]> (threads s)) !! i = Some v →
  home_cpu v = Some hh → ∃ j w, threads s !! j = Some w ∧ home_cpu w = Some hh.
Proof.
  intros Ht Hu. destruct (decide (i = next)) as [->|Hn1].
  { rewrite lookup_insert_eq. intros [= <-] Hv. by exists next, u. }
  rewrite lookup_insert_ne by done. destruct (decide (i = id)) as [->|Hn2].
  { rewrite lookup_insert_eq. intros [= <-] Hv. exists id, t. split; [done|].
    by destruct (settled_same os t) as (_ & _ & <- & _). }
  rewrite lookup_insert_ne by done. eauto.
Qed.

Lemma section_ok s c k os next :
  inv s → cpus s !! c = Some k → phase k = Chosen os next →
  (∃ s', schedule_section s c k os next = Ret s' ∧ inv s') ∨ (clean = false ∧ schedule_section s c k os next = Panic).
Proof.
  intros Hi Hk Hph. destruct (section_spots _ _ _ _ _ Hi Hk Hph) as (Hon & K3 & R & Hc & HR).
  destruct (cur_spot _ _ _ Hi Hk Hon) as (t & Ht & Hh & Hid).
  destruct (core_lookup _ _ _ _ _ (proj1 (core_perm _ _ _ _ (perm_swap _ _ _)) Hc))
    as (u & Hu & (Hu1 & Hu2 & Hu3) & Hnid & Hnin).
  assert (next ≠ current_thread k) as Hne by (intros ->; apply Hnin; left).
  destruct (outgoing s k os) as [[[m reap] h] hp] eqn:Eo.
  destruct (outgoing_eq _ _ _ _ _ _ _ _ _ Hi Hk Ht Hid Eo) as (Hm & Hspots & Hsub & Hhand).
  destruct (decide (context u = None)) as [Hnone|Hctx].
  { right. split; [apply not_true_is_false; intros Hcl; by apply (Hu3 Hcl)|]. unfold schedule_section. rewrite Eo, Hm.
    rewrite lookup_insert_ne, Hu by done. cbn [expect mbind outcome_bind]. by rewrite bool_decide_eq_true_2. }
  left. rewrite (section_returns _ _ _ _ _ _ _ _ _ _ _ Hu Hctx Hne Eo Hm). subst m.
  eexists. split; [reflexivity|]. pose proof (in_cpus _ Hi _ _ Hk) as Hok.
  assert (exiting (phase k) = bool_decide (os = Exited)) as Hex by (rewrite Hph; by destruct os).
  eapply (inv_build s _ c k _ Hi Hk); sys_simpl.
  - apply list_lookup_insert_eq. by eapply lookup_lt_Some.
  - by rewrite length_insert.
  - intros c0 k0' Hne'. rewrite list_lookup_insert_ne by done. eauto using quiet_refl.
  - pose proof (core_update2 _ _ _ _ _ _ _ _ _ (set_state Running u) (PCur c) Hc
      (out_place_ok _ _ _ _ _ Hok Hex Ht Hh) Hu2) as Hc'.
    revert Hc'. apply core_perm. unfold spots. sys_simpl. rewrite HR. unfold cpu_spots, cur_spots.
    cbn -[q_spots hand_spots]. rewrite Hon.
    assert (∀ A B W D E F : list (Z * Place), (A ++ B ++ D) ++ E ++ W ++ F ≡ₚ D ++ (B ++ F) ++ A ++ E ++ W) as Hsw
      by (intros; solve_Permutation).
    rewrite <- app_assoc, Hsw, Hspots. cbn. solve_Permutation.
  - pose proof (in_next _ Hi). lia.
  - intros i [Hr Hg]. split; [done|]. sys_simpl. destruct Hg as [?|Hg]; [left; by apply Hsub|right].
    by rewrite !lookup_insert_ne by (intros <-; congruence).
  - intros c0 k0 Hne' Hk0 Hex' (v & Hv & Hpv). unfold runs_unparked. sys_simpl.
    assert (current_thread k0 ≠ current_thread k) as Hd.
    { intros E. apply Hne'. eapply cur_not_shared; [done..| | |done]; [|done].
      eapply exiting_on; [by eapply in_cpus|done]. }
    destruct (decide (current_thread k0 = next)) as [->|Hn].
    + exists (set_state Running u). by rewrite lookup_insert_eq.
    + exists v. by rewrite !lookup_insert_ne.
  - destruct Hok as [_ K2 _ _]. split; cbn; try done; [congruence|]. unfold standing. cbn.
    do 2 (split; [done|]). split; [done|]. destruct Hhand as [->|[->|[-> Hin]]]; [by left|right; by left|].
    right. right. split; [done|]. split; [done|]. by left.
  - done.
  - intros i v hh Hv Hhv. right. exact (section_homes s os _ _ t u i v hh Ht Hu Hv Hhv).
  - intros _ c0 k0 Hne' Hk0 Hi0 E. apply Hne'. eapply (in_stacks _ Hi); done.
  - done.
Qed.

(** ** The switch itself *)

(** The table with one context overwritten, or none; in a clean run it is the
    context of [from]. *)
Definition stored (M m : gmap Z Thread) (from sp : Z) : Prop :=
  (∃ i, m = alter (set_context sp) i M ∧ (clean = true → i = from)) ∨ (m = M ∧ clean = false).

Lemma store_context_same s c from sp ep st m :
  (clean = true → lands (LSwitch c sp st) = true) → store_context s from sp ep st = Some m → stored (threads s) m from sp.
Proof.
  intros Hl. destruct st as [|victim]; cbn [store_context].
  - intros [= <-]. left. by exists from.
  - destruct (ep =? epoch s); [done|]. intros [= <-]. assert (clean = false) as Hc by (apply not_true_is_false; intros E; by specialize (Hl E)).
    destruct victim as [i|]; [|by right]. left. exists i. split; [done|]. by rewrite Hc.
Qed.

Lemma stored_lookup M m from sp i : stored M m from sp →
  (m !! i = M !! i ∨ m !! i = set_context sp <$> M !! i) ∧ (clean = true → m !! from = set_context sp <$> M !! from).
Proof.
  intros [(j & -> & Hj)|[-> Hc]]; [|split; [by left|by rewrite Hc]].
  split; [|intros Hc; rewrite (Hj Hc); by rewrite lookup_alter_eq].
  destruct (decide (i = j)) as [->|]; [right; by rewrite lookup_alter_eq|left; by rewrite lookup_alter_ne].
Qed.

Lemma stored_at M m from sp i u : stored M m from sp → m !! i = Some u → ∃ t, M !! i = Some t ∧ same_spot t u.
Proof.
  intros Hm Hu. destruct (stored_lookup _ _ _ _ i Hm) as [[E|E] _]; rewrite Hu in E.
  - exists u. split; [done|]. by repeat split.
  - destruct (M !! i) as [t|]; [|done]. injection E as ->. exists t. split; [done|]. by repeat split.
Qed.

Lemma stored_none M m from sp i : stored M m from sp → m !! i = None ↔ M !! i = None.
Proof. intros Hm. destruct (stored_lookup _ _ _ _ i Hm) as [[->| ->] _]; [done|]. by rewrite fmap_None. Qed.

Lemma stored_spots M m from sp n L : stored M m from sp → core M n L → core m n L.
Proof.
  intros [(i & -> & _)|[-> _]] Hc; [|done]. destruct (M !! i) as [t|] eqn:Ht.
  - rewrite (alter_at _ _ _ _ Ht). eapply core_same; [exact Hc|done|]. by repeat split.
  - assert (alter (set_context sp) i M = M) as ->; [|exact Hc].
    apply map_eq. intros j. destruct (decide (j = i)) as [->|]; [by rewrite lookup_alter_eq, Ht|by rewrite lookup_alter_ne].
Qed.

(** The processor still stands on the stack of [from]; once the context is
    stored the hand-off counts as saved. *)
Lemma switch_core s c k from to top root ep sp m :
  inv s → cpus s !! c = Some k → phase k = Switching from to top root ep → stored (threads s) m from sp →
  ∀ R, core (threads s) (next_id s) (cpu_spots c k ++ R) →
  core m (next_id s)
    (q_spots c (run_queue k) ++ hand_spots c (handoff_id k) (handoff_priority k) true ++
     cur_spots c k ++ R).
Proof.
  intros Hi Hk Hph Hm R Hc. pose proof (in_next _ Hi) as Hn. apply (stored_spots _ _ _ _ _ _ Hm) in Hc.
  pose proof (ck_standing _ _ (in_cpus _ Hi _ _ Hk)) as Hst. unfold standing in Hst. rewrite Hph in Hst.
  destruct Hst as (_ & _ & Hf & Hh). unfold cpu_spots in Hc. rewrite Hph in Hc.
  cbn [phase_spots is_landed app] in Hc. rewrite <- !app_assoc in Hc.
  assert (∀ t, m !! from = Some t → saved_context t) as Hsv.
  { intros t Ht Hcl. destruct (stored_lookup _ _ _ _ from Hm) as [_ E]. rewrite (E Hcl) in Ht.
    destruct (threads s !! from); [|done]. by injection Ht as <-. }
  assert (∀ pl pl', core m (next_id s) (q_spots c (run_queue k) ++ [(from, pl)] ++ cur_spots c k ++ R) →
    (∀ t, saved_context t → place_ok t pl → place_ok t pl') →
    core m (next_id s) (q_spots c (run_queue k) ++ [(from, pl')] ++ cur_spots c k ++ R)) as Hup.
  { intros pl pl' Hc' Hp. cbn [app] in *. rewrite <- Permutation_middle in *.
    eapply core_move; [exact Hc'|]. intros t Ht. apply Hp. by apply Hsv. }
  destruct Hh as [Hh|[Hh|[Hh Hg]]]; rewrite Hh in *.
  - rewrite hand_spots_id in * by lia. eapply Hup; [exact Hc|]. by intros t ? (? & ? & ? & _).
  - rewrite hand_spots_tag in * by lia. eapply Hup; [exact Hc|]. by intros t ? (? & ? & ? & _).
  - exact Hc.
Qed.

Lemma switch_ok s c k from to top root ep sp m :
  inv s → cpus s !! c = Some k → phase k = Switching from to top root ep → stored (threads s) m from sp →
  ∃ s', switch s c k to top root m = Ret s' ∧ inv s'.
Proof.
  intros Hi Hk Hph Hm. unfold switch.
  rewrite (proj2 (Z.eqb_neq _ _) (in_root _ Hi)). cbn [negb rust_assert mbind outcome_bind].
  eexists. split; [reflexivity|]. destruct (in_cpus _ Hi _ _ Hk) as [K1 K2 K3 K4].
  assert (idle_installed k = true) as Hon.
  { destruct (idle_installed k); [done|]. destruct (K1 eq_refl). congruence. }
  unfold standing in K3. rewrite Hph in K3. destruct K3 as (Hcur & _).
  destruct (spots_at _ _ _ Hk) as (R & H1 & _ & (R' & H2 & H3 & HR)).
  eapply (inv_build s _ c k _ Hi Hk); sys_simpl.
  - apply list_lookup_insert_eq. by eapply lookup_lt_Some.
  - by rewrite length_insert.
  - intros c0 k0' Hne. rewrite list_lookup_insert_ne by done. eauto using quiet_refl.
  - pose proof (in_core _ Hi) as Hc. rewrite H1 in Hc.
    apply (switch_core s c k from to top root ep sp m Hi Hk Hph Hm) in Hc.
    revert Hc. apply core_perm. unfold spots. sys_simpl. rewrite H3, <- app_assoc, <- HR.
    unfold cpu_spots. cbn -[q_spots hand_spots cur_spots]. rewrite <- !app_assoc. reflexivity.
  - pose proof (in_next _ Hi). lia.
  - intros i [Hr Hg]. split; [done|]. sys_simpl. by rewrite (stored_none _ _ _ _ i Hm).
  - intros c0 k0 Hne Hk0 Hex (v & Hv & Hpv). unfold runs_unparked. sys_simpl.
    destruct (m !! current_thread k0) as [u|] eqn:Hu; [|apply (stored_none _ _ _ _ _ Hm) in Hu; congruence].
    exists u. split; [done|]. destruct (stored_at _ _ _ _ _ _ Hm Hu) as (t & Ht & E & _). congruence.
  - split; cbn; try done. congruence.
  - done.
  - intros i u h Hu Hh. destruct (stored_at _ _ _ _ _ _ Hm Hu) as (t & Ht & _ & _ & E & _). right. exists i, t. by rewrite <- E.
  - intros _ c0 k0 Hne Hk0 Hi0. cbn. eapply stack_not_shared; [done|exact Hk|done..|].
    rewrite <- Hcur. by apply cur_spot_in.
  - done.
Qed.

(** ** [reap] *)

(** A thread that can be reaped is current nowhere: the test never holds. *)
Lemma reapable_not_current s id : inv s → id ∈ reapable s → is_current_anywhere s id = false.
Proof.
  intros Hi Hin. pose proof (reap_spot_in _ _ Hin) as Hr. pose proof (spot_id _ _ _ Hi Hr) as Hid.
  apply not_true_is_false. intros (c & k & Hk & Hon & <-)%is_current_spec; [|done..].
  pose proof (core_unique _ _ _ _ _ _ (in_core _ Hi) Hr (cpu_spot_in _ _ _ _ _ Hk (cur_spot_in c k Hon))).
  done.
Qed.

Lemma reap_loop_ok s ids A : ∀ m removed,
  core m (next_id s) (A ++ (reap_spot <$> ids)) →
  (∀ id, id ∈ ids → is_current_anywhere s id = false) →
  ∃ m' removed', reap_loop s ids m [] removed = (m', [], removed') ∧ core m' (next_id s) A ∧
    ∀ i, m' !! i = if decide (i ∈ ids) then None else m !! i.
Proof.
  induction ids as [|id ids IH]; intros m removed Hc Hcur.
  - exists m, removed. rewrite app_nil_r in Hc. split; [done|]. split; [done|].
    intros i. by rewrite decide_False by apply not_elem_of_nil.
  - cbn [reap_loop]. rewrite Hcur by left. rewrite fmap_cons, <- Permutation_middle in Hc.
    destruct (core_lookup _ _ _ _ _ Hc) as (t & Ht & _). rewrite Ht.
    destruct (IH (delete id m) (removed + 1)) as (m' & r' & He & Hc' & Hm').
    { by eapply core_delete. }
    { intros i Hi. apply Hcur. by right. }
    exists m', r'. split; [done|]. split; [done|]. intros i. rewrite Hm'.
    destruct (decide (i = id)) as [->|Hne].
    + rewrite lookup_delete_eq. rewrite (decide_True (P := id ∈ id :: ids)) by left. by case_decide.
    + rewrite lookup_delete_ne by done. repeat case_decide; set_solver.
Qed.

Lemma reap_spec s :
  inv s → inv (reap s) ∧ reapable (reap s) = [] ∧
  ∀ i, threads (reap s) !! i = if decide (i ∈ reapable s) then None else threads s !! i.
Proof.
  intros Hi. unfold reap. pose proof (in_core _ Hi) as Hc. unfold spots in Hc. rewrite app_assoc in Hc.
  destruct (reap_loop_ok s (reapable s) _ (threads s) 0 Hc) as (m & r & -> & Hc' & Hm).
  { intros id Hin. by apply reapable_not_current. }
  split; [|done]. eapply (inv_quiet s); try done; sys_simpl.
  - eauto using quiet_refl.
  - unfold spots. sys_simpl. by rewrite app_nil_r.
  - intros i [Hr Hg]. split; [done|]. sys_simpl. right. rewrite Hm. case_decide; [done|].
    by destruct Hg.
  - intros c k Hk (u & Hu & Hp) Hon. exists u. sys_simpl. rewrite Hm, decide_False; [done|].
    intros Hin. apply (reapable_not_current _ _ Hi) in Hin.
    assert (is_current_anywhere s (current_thread k) = true); [|congruence].
    apply is_current_spec; [done| |eauto]. by eapply (co_ids _ _ _ (in_core _ Hi)).
  - intros i t h. rewrite Hm. case_decide; [done|]. eauto.
Qed.

(** ** New threads *)

Lemma insert_thread_ok s t :
  inv s → next_id s + 1 < 2 ^ 63 →
  insert_thread s t = Ret (next_id s,
    mkSys (cpus s) (<[next_id s := t]> (threads s)) (next_id s + 1) (reapable s) (wakes s)
      (kernel_root s) (preempting s) (steals s) (steal_contended s) (epoch s + 1)) ∧
  threads s !! next_id s = None.
Proof.
  intros Hi Hn. pose proof (in_next _ Hi). unfold insert_thread.
  rewrite add_chk_ok by lia. cbn [mbind outcome_bind]. unfold NO_THREAD.
  destruct (Z.eqb_spec (next_id s) (2 ^ 64 - 1)); [lia|]. split; [done|].
  destruct (threads s !! next_id s) eqn:E; [|done]. apply (co_ids _ _ _ (in_core _ Hi)) in E. lia.
Qed.

(** What a new entry of the table leaves as it was. *)
Lemma fresh_frame s s' t :
  threads s !! next_id s = None → threads s' = <[next_id s := t]> (threads s) →
  next_id s' = next_id s + 1 → reapable s' = reapable s →
  (∀ i, gone s i → gone s' i) ∧ (∀ i, runs_unparked s i → runs_unparked s' i) ∧
  (∀ i u h, threads s' !! i = Some u → home_cpu u = Some h →
     (home_cpu t = Some h) ∨ ∃ i' u', threads s !! i' = Some u' ∧ home_cpu u' = Some h).
Proof.
  intros Hno E1 E2 E3. unfold gone, runs_unparked. rewrite E1, E2, E3. split; [|split].
  - intros i [Hr Hg]. split; [lia|]. destruct Hg as [?|Hg]; [by left|right].
    rewrite lookup_insert_ne; [done|lia].
  - intros i (u & Hu & Hp). exists u. rewrite lookup_insert_ne; [done|]. intros <-. congruence.
  - intros i u h. destruct (decide (i = next_id s)) as [->|Hne].
    + rewrite lookup_insert_eq. intros [= <-]. by left.
    + rewrite lookup_insert_ne by done. eauto.
Qed.

Lemma init_ok s c k :
  inv s → cpus s !! c = Some k → installed k = true → next_id s + 1 < 2 ^ 63 →
  ∃ s', init s c k = Ret s' ∧ inv s'.
Proof.
  intros Hi Hk Hin Hn. unfold init. destruct (idle_installed k) eqn:Eon; [eauto|].
  destruct (insert_thread_ok s (adopt_current c) Hi Hn) as [-> Hno]. cbn [mbind outcome_bind].
  eexists. split; [reflexivity|]. destruct (in_cpus _ Hi _ _ Hk) as [K1 K2 K3 K4].
  destruct (K1 Eon) as [Hph Hcur]. unfold standing in K3. rewrite Hph in K3. destruct K3 as [K3 K3'].
  match goal with |- inv ?s' =>
    destruct (fresh_frame s s' _ Hno eq_refl eq_refl eq_refl) as (Hg & Hr & Hh) end.
  pose proof (in_next _ Hi) as Hnx. destruct (spots_at _ _ _ Hk) as (R & H1 & _ & (R' & H2 & H3 & HR)).
  eapply (inv_build s _ c k _ Hi Hk); sys_simpl.
  - apply list_lookup_insert_eq. by eapply lookup_lt_Some.
  - by rewrite length_insert.
  - intros c0 k0' Hne. rewrite list_lookup_insert_ne by done. eauto using quiet_refl.
  - destruct (core_fresh _ _ _ (adopt_current c) (PCur c) (in_core _ Hi) ltac:(lia)) as [Hc _].
    { intros h [= <-]. done. }
    revert Hc. apply core_perm. rewrite H1. unfold spots. sys_simpl. rewrite H3, <- app_assoc, <- HR.
    unfold cpu_spots, cur_spots. cbn -[q_spots hand_spots]. rewrite Eon. solve_Permutation.
  - lia.
  - exact Hg.
  - intros c0 k0 _ _ _. apply Hr.
  - split; cbn; try done; [|by rewrite Hph]. unfold standing. cbn. by rewrite Hph.
  - done.
  - intros i u h Hu Hho. destruct (Hh i u h Hu Hho) as [[= <-]|?]; [by left|by right].
  - intros _ c0 k0 Hne Hk0 Hi0. cbn. pose proof (stack_id _ _ _ Hi Hk0 Hi0). lia.
  - done.
Qed.

Lemma new_kernel_ok base prio :
  CONTEXT_BYTES ≤ base → base + MIN_STACK < 2 ^ 64 →
  ∃ ctx top, new_kernel base prio = Ret (mkThread (Some ctx) top Ready prio Park.default_state None None).
Proof.
  unfold CONTEXT_BYTES, MIN_STACK. intros H1 H2. unfold new_kernel, init_kernel_stack, CONTEXT_BYTES, MIN_STACK.
  rewrite add_chk_ok by lia. cbn [mbind outcome_bind].
  pose proof (land_bitnot_align 64 (base + 4096 * 4) 4 ltac:(lia) ltac:(unfold fits; lia)) as E.
  change (2 ^ 4 - 1) with 15 in E. rewrite E. change (2 ^ 4) with 16.
  assert ((base + 4096 * 4 - (base + 4096 * 4) mod 16) mod 16 = 0) as Ha.
  { rewrite Zminus_mod_idemp_r, Z.sub_diag. done. }
  rewrite (proj2 (Z.eqb_eq _ _) Ha). cbn [rust_assert mbind outcome_bind].
  pose proof (Z.mod_pos_bound (base + 4096 * 4) 16 ltac:(lia)).
  rewrite sub_chk_ok by lia. cbn [mbind outcome_bind]. eauto.
Qed.

Lemma spawn_ok s base prio :
  inv s → next_id s + 1 < 2 ^ 63 → CONTEXT_BYTES ≤ base → base + MIN_STACK < 2 ^ 64 →
  ∃ s', spawn_kernel s base prio = Ret s' ∧ inv s'.
Proof.
  intros Hi Hn Hb1 Hb2. unfold spawn_kernel.
  destruct (new_kernel_ok base prio Hb1 Hb2) as (ctx & top & ->). cbn [mbind outcome_bind].
  set (t := mkThread _ _ _ _ _ _ _). destruct (insert_thread_ok s t Hi Hn) as [-> Hno].
  cbn [mbind outcome_bind]. eexists. split; [reflexivity|]. pose proof (in_next _ Hi) as Hnx.
  match goal with |- inv ?s' =>
    destruct (fresh_frame s s' _ Hno eq_refl eq_refl eq_refl) as (Hg & Hr & Hh) end.
  destruct Hi as [I1 I2 I3 I4 I5 I6]. split; sys_simpl.
  - destruct (core_fresh _ _ _ t (PWake prio None) I1 ltac:(lia)) as [Hc _]; [done|].
    revert Hc. apply core_perm. unfold spots. sys_simpl. rewrite fmap_cons. symmetry. apply Permutation_middle.
  - lia.
  - intros c k Hk. eapply (quiet_cpu_ok s); [by eapply I3|apply quiet_refl|lia|sys_simpl; lia|exact Hg|].
    intros _. apply Hr.
  - intros i u h Hu Hho. destruct (Hh i u h Hu Hho) as [?|(i' & u' & ? & ?)]; [done|]. by eapply I4.
  - done.
  - done.
Qed.

(** ** Every step *)

Lemma cpu_ok_same s k k' :
  cpu_ok s k → idle_installed k' = idle_installed k → (installed k = true → installed k' = true) →
  current_thread k' = current_thread k → stack k' = stack k → phase k' = phase k →
  handoff_id k' = handoff_id k → cpu_ok s k'.
Proof.
  intros [K1 K2 K3 K4] E1 E2 E3 E4 E5 E6. split; unfold standing in *; rewrite ?E1, ?E3, ?E4, ?E5, ?E6; auto.
Qed.

Lemma inv_install s c k :
  inv s → cpus s !! c = Some k →
  inv (set_cpu s c (mkCpu true (idle_installed k) (online k) (current_thread k) (run_queue k)
         (handoff_id k) (handoff_priority k) (kernel_rsp k) (cr3 k) (stack k) (phase k))).
Proof.
  intros Hi Hk. eapply (inv_build s _ c k _ Hi Hk); sys_simpl.
  - apply list_lookup_insert_eq. by eapply lookup_lt_Some.
  - by rewrite length_insert.
  - intros c0 k0' Hne. rewrite list_lookup_insert_ne by done. eauto using quiet_refl.
  - eapply core_cpu; done.
  - pose proof (in_next _ Hi). lia.
  - done.
  - done.
  - eapply (quiet_cpu_ok s); [|apply quiet_refl|apply Hi|done|done|done].
    eapply cpu_ok_same; [by eapply in_cpus|done..].
  - done.
  - intros i u h Hu Hh. right. eauto.
  - intros Hon c0 k0 Hne Hk0 Hi0 E. apply Hne. eapply (in_stacks _ Hi); done.
  - done.
Qed.

(** A processor's words the invariant does not read. *)
Lemma inv_cpu_same s c k k' :
  inv s → cpus s !! c = Some k → cpu_spots c k' = cpu_spots c k →
  installed k' = installed k → idle_installed k' = idle_installed k →
  current_thread k' = current_thread k → stack k' = stack k → phase k' = phase k →
  handoff_id k' = handoff_id k → inv (set_cpu s c k').
Proof.
  intros Hi Hk Hs E1 E2 E3 E4 E5 E6. eapply inv_cpu; try done.
  - eapply core_cpu; [done..|]. by rewrite Hs.
  - eapply cpu_ok_same; [by eapply in_cpus|done|congruence|done..].
Qed.

(** Each step keeps the invariant, and none panics in a clean run. *)
Lemma step_ok s l o :
  inv s → next_id s + 1 < 2 ^ 63 → (clean = true → lands l = true) → KSched.exec s l = Some o →
  (∃ s', o = Ret s' ∧ inv s') ∨ (clean = false ∧ o = Panic).
Proof.
  intros Hi Hn Hl. destruct l as [c|c|c|b|c base prio|c i|c|c|c|c|c b|c|c sp st|c|c id|c|c root|c root]; cbn [KSched.exec].
  12: { destruct (cpus s !! c) as [k|] eqn:Hk; [|done]. cbn [mbind option_bind].
    destruct (phase k) eqn:Hph; try done. intros [= <-]. by apply section_ok. }
  all: intros Eo; left; revert Eo.
  - destruct (cpus s !! c) as [k|] eqn:Hk; [|done]. cbn. destruct (installed k); [done|]. intros [= <-].
    eexists. split; [done|]. by apply inv_install.
  - destruct (cpus s !! c) as [k|] eqn:Hk; [|done]. cbn. destruct (installed k) eqn:E; [|done]. intros [= <-].
    by apply init_ok.
  - destruct (in_thread s c) as [k|] eqn:Hk; [|done]. cbn. intros [= <-]. eexists. split; [done|].
    apply in_thread_Some in Hk as (Hk & _). by eapply inv_cpu_same.
  - intros [= <-]. eexists. split; [done|]. by eapply inv_counters.
  - destruct (in_thread s c) as [k|] eqn:Hk; [|done]. cbn -[Z.pow spawn_kernel].
    destruct (_ && _) eqn:E; [|done]. intros [= <-]. bool_cases. by apply spawn_ok.
  - destruct (in_thread s c) as [k|] eqn:Hk; [|done]. cbn [mbind option_bind].
    destruct (wakes s !! i) as [w|] eqn:Hw; [|done]. cbn [mbind option_bind]. intros [= <-].
    eexists. split; [done|]. by eapply inv_finish_wake.
  - destruct (in_thread s c) as [k|] eqn:Hk; [|done]. intros [= <-]. eexists. split; [done|]. by apply inv_decide.
  - destruct (in_thread s c) as [k|] eqn:Hk; [|done]. cbn [mbind option_bind].
    destruct (_ || _); intros [= <-]; eexists; (split; [done|]); [done|by apply inv_decide].
  - destruct (in_thread s c) as [k|] eqn:Hk; [|done]. cbn [mbind option_bind]. intros [= <-].
    pose proof Hk as (Hk' & Hon & _)%in_thread_Some. destruct (cur_spot _ _ _ Hi Hk' Hon) as (t & Ht & _).
    destruct (park_section s c k) as [s'|] eqn:Ep; [exists s'; split; [done|by eapply inv_park]|].
    unfold park_section in Ep. rewrite Ht in Ep. cbn in Ep. by destruct (Park.park (park t)) as [[] ?].
  - destruct (in_thread s c) as [k|] eqn:Hk; [|done]. cbn [mbind option_bind].
    destruct (from_option _ _ _) eqn:E; [done|]. intros [= <-]. eexists. split; [done|]. by apply inv_decide.
  - destruct (cpus s !! c) as [k|] eqn:Hk; [|done]. cbn [mbind option_bind].
    destruct (phase k) as [|os|os [|o0 rest]| | | |] eqn:Hph; try done; intros [= <-]; eexists; (split; [done|]).
    + by apply inv_take_local.
    + by apply inv_take_idle.
    + by apply inv_steal_from.
  - destruct (cpus s !! c) as [k|] eqn:Hk; [|done]. cbn [mbind option_bind].
    destruct (phase k) as [| | | |from to top root ep| |] eqn:Hph; try done.
    destruct (store_context s from sp ep st) as [m|] eqn:Em; [|done]. intros [= <-].
    eapply switch_ok; [done..|]. by eapply store_context_same.
  - destruct (cpus s !! c) as [k|] eqn:Hk; [|done]. cbn [mbind option_bind].
    destruct (phase k) eqn:Hph; try done; intros [= <-]; eexists; (split; [done|]).
    + by apply inv_publish.
    + by apply inv_publish_push.
  - destruct (in_thread s c) as [k|] eqn:Hk; [|done]. intros [= <-]. eexists. split; [done|]. by apply inv_unpark.
  - destruct (in_thread s c) as [k|] eqn:Hk; [|done]. intros [= <-]. eexists. split; [done|]. by apply reap_spec.
  - destruct (in_thread s c) as [k|] eqn:Hk; [|done]. intros [= <-]. eexists. split; [done|].
    apply in_thread_Some in Hk as (Hk & _). by eapply inv_cpu_same.
  - destruct (in_thread s c) as [k|] eqn:Hk; [|done]. cbn [mbind option_bind].
    pose proof Hk as (Hk' & Hon & _)%in_thread_Some. destruct (cur_spot _ _ _ Hi Hk' Hon) as (t & Ht & _).
    rewrite Ht. cbn [from_option]. destruct (bool_decide _) eqn:E; [|done]. intros [= <-].
    unfold adopt_address_space. rewrite Ht. cbn [expect mbind outcome_bind]. rewrite E.
    cbn [rust_assert mbind outcome_bind]. eexists. split; [done|]. by eapply inv_rewrite.
Qed.

(** ** Runs *)

Lemma queue_push_next s c id p : next_id (queue_push s c id p) = next_id s.
Proof. unfold queue_push. by destruct (cpus s !! c). Qed.

(** A step hands out at most one id. *)
Lemma step_next s l s' : step s l s' → next_id s' ≤ next_id s + 1.
Proof.
  unfold step. intros H.
  destruct l as [c|c|c|b|c base prio|c i|c|c|c|c|c b|c|c sp st|c|c id|c|c root|c root]; cbn [KSched.exec] in H;
    simplify_option_eq; try (sys_simpl; lia).
  all: unfold init, spawn_kernel, insert_thread, park_section, schedule_section, switch,
    adopt_address_space, take_local, steal_from, take_idle, unpark, reap, finish_wake, add_chk in *;
    rewrite ?queue_push_next; repeat first [case_match | progress simplify_eq | progress inv_ret]; sys_simpl;
    rewrite ?queue_push_next; sys_simpl; try lia.
  all: destruct (store_context _ _ _ _ _) as [m|]; [|done]; cbn [mbind option_bind] in H; injection H as H; inv_ret; subst s'; sys_simpl; lia.
Qed.
End Clean.
