(* ===== verification/KSchedThms.v ===== *)
(** The theorems about the kernel scheduler: what holds in every state a run
    of [KSched] from boot reaches, and three runs that go wrong. *)
From S2P Require Import Prelude Bits Sched KSched KSchedProofs.
Import RunQueue.

(** ** Every state of a run is good *)

Lemma boot_spots root : spots (boot root) = [].
Proof. reflexivity. Qed.

Lemma boot_cpu_at root c k : cpus (boot root) !! c = Some k → k = boot_cpu root.
Proof. cbn [boot cpus]. by intros [-> _]%lookup_replicate. Qed.

Lemma boot_sched_inv clean root : root ≠ 0 → inv clean (boot root).
Proof.
  intros Hr. split; [|change (0 ≤ 0 < 2 ^ 63); lia|..|done].
  - rewrite boot_spots. split; [apply NoDup_nil_2|..]; cbn.
    + by intros id pl H%elem_of_nil.
    + by intros id t; rewrite lookup_empty.
    + by intros id t; rewrite lookup_empty.
  - by intros c k ->%boot_cpu_at.
  - cbn [boot threads]. intros id t h. by rewrite lookup_empty.
  - by intros c c' k k' ->%boot_cpu_at _ H.
Qed.

Lemma run_good clean ls : ∀ s s',
  inv clean s → next_id s + Z.of_nat (length ls) < 2 ^ 63 → (clean = true → forallb lands ls = true) → exec_list s ls = Some s' →
  inv clean s' ∧ next_id s' ≤ next_id s + Z.of_nat (length ls).
Proof.
  induction ls as [|l ls IH]; intros s s' Hi Hn Hl; cbn [exec_list length].
  - intros [= <-]. split; [done|lia].
  - cbn [length] in Hn. destruct (KSched.exec s l) as [o|] eqn:E; [|done].
    assert (clean = true → lands l = true ∧ forallb lands ls = true) as Hl' by (intros Hc; by apply andb_true_iff, Hl).
    destruct (step_ok clean s l o Hi ltac:(lia) ltac:(intros Hc; by apply Hl') E) as [(s1 & -> & Hi1)|[_ ->]]; [|done].
    pose proof (step_next s l s1 E) as Hn1.
    intros Hrun. destruct (IH s1 s' Hi1 ltac:(lia) ltac:(intros Hc; by apply Hl') Hrun). split; [done|lia].
Qed.

(** A run from boot, of fewer steps than there are thread ids. *)
Definition reaches (root : Z) (ls : list Label) (s : Sys) : Prop :=
  root ≠ 0 ∧ Z.of_nat (length ls) + 1 < 2 ^ 63 ∧ exec_list (boot root) ls = Some s.

(** Every store of a context in the run has reached its thread. *)
Definition all_land (ls : list Label) : bool := forallb lands ls.

Lemma reaches_inv root ls s : reaches root ls s → inv (all_land ls) s ∧ next_id s + 1 < 2 ^ 63.
Proof.
  intros (Hr & Hn & He).
  destruct (run_good (all_land ls) ls _ _ (boot_sched_inv _ root Hr) ltac:(cbn [boot next_id]; lia) ltac:(done) He).
  split; [done|]. cbn [boot next_id] in *. lia.
Qed.

(** ** The stack a processor is on *)

Definition stands_on (pl : Place) : bool :=
  match pl with PCur _ | PHand _ _ _ | PPart _ _ _ | PReap => true | _ => false end.

Lemma stack_place clean s c k :
  inv clean s → cpus s !! c = Some k → idle_installed k = true →
  (∃ pl, (stack k, pl) ∈ spots s ∧ stands_on pl = true) ∨ threads s !! stack k = None.
Proof.
  intros Hi Hk Hon. pose proof (ck_standing _ _ (in_cpus _ _ Hi _ _ Hk)) as Hst. unfold standing in Hst.
  assert (stack k = current_thread k → ∃ pl, (stack k, pl) ∈ spots s ∧ stands_on pl = true) as Hown.
  { intros ->. exists (PCur c). split; [|done]. by eapply cpu_spot_in, cur_spot_in. }
  destruct (phase k) as [| | | |from to ? ? ?| |]; try (left; apply Hown; by (apply Hst || exact Hst)).
  destruct Hst as (_ & -> & Hf & Hh). pose proof (in_next _ _ Hi) as Hn.
  destruct Hh as [Hh|[Hh|[_ [_ [Hg|Hg]]]]].
  - left. eexists. split.
    + eapply cpu_spot_in; [exact Hk|]. unfold cpu_spots. rewrite Hh, hand_spots_id, !elem_of_app by lia.
      right. right. left. left.
    + done.
  - left. eexists. split.
    + eapply cpu_spot_in; [exact Hk|]. unfold cpu_spots. rewrite Hh, hand_spots_tag, !elem_of_app by lia.
      right. right. left. left.
    + done.
  - left. exists PReap. split; [by apply reap_spot_in|done].
  - by right.
Qed.

(** Nobody is on the stack of a thread that is waiting to run. *)
Lemma waiting_off_stack clean s id pl c k :
  inv clean s → (id, pl) ∈ spots s → stands_on pl = false → cpus s !! c = Some k →
  idle_installed k = true → stack k ≠ id.
Proof.
  intros Hi Hsp Hpl Hk Hon E. destruct (co_spots _ _ _ _ (in_core _ _ Hi) _ _ Hsp) as (t & Ht & _).
  destruct (stack_place _ _ _ _ Hi Hk Hon) as [(pl' & Hin & Hs)|Hn]; rewrite E in *; [|congruence].
  pose proof (core_unique _ _ _ _ _ _ _ (in_core _ _ Hi) Hsp Hin) as ->. congruence.
Qed.

Lemma queued_spot c k id p s :
  cpus s !! c = Some k → (id, p) ∈ contents (run_queue k) → (id, PQueue c p) ∈ spots s.
Proof.
  intros Hk Hin. eapply cpu_spot_in; [done|]. unfold cpu_spots, q_spots. rewrite !elem_of_app. left.
  apply list_elem_of_fmap. by exists (id, p).
Qed.

(** ** What holds in every state *)

(** C3: A thread the scheduler has not lost has exactly one place. In every
    state a run reaches, under any interleaving of the processors, no thread
    is in two of the run queues, current-thread words, hand-off words,
    processors' hands, pending pushes and the reap list, nor twice in one;
    and a thread of the table that is not parked is in one of them, so it
    can still be dispatched, is running, or has exited. *)
Theorem every_live_thread_has_one_place root ls s :
  reaches root ls s →
  NoDup (spots s).*1 ∧
  ∀ id t, threads s !! id = Some t → is_parked_thread t = false → id ∈ (spots s).*1.
Proof.
  intros [Hi _]%reaches_inv. split; [exact (co_nodup _ _ _ _ (in_core _ _ Hi))|].
  intros id t Ht Hp. destruct (decide (id ∈ (spots s).*1)) as [|Hn]; [done|].
  destruct (co_live _ _ _ _ (in_core _ _ Hi) id t Ht Hn). congruence.
Qed.


(** No two processors run the same thread or stand on the same stack,
    whatever the interleaving. *)
Theorem processors_never_share_a_stack root ls s c c' k k' :
  reaches root ls s → cpus s !! c = Some k → cpus s !! c' = Some k' →
  idle_installed k = true → idle_installed k' = true →
  stack k = stack k' ∨ current_thread k = current_thread k' → c = c'.
Proof.
  intros [Hi _]%reaches_inv Hk Hk' Hon Hon' [E|E]; [by eapply in_stacks|by eapply cur_not_shared].
Qed.

(** None of the scheduler's [expect]s and [assert]s fails: the next
    step of every processor, in every state a run reaches in which every
    context has been stored where it belongs, returns. *)
Theorem scheduler_never_panics root ls s l o :
  reaches root ls s → all_land ls = true → KSched.exec s l = Some o → o ≠ Panic.
Proof.
  intros [Hi Hn]%reaches_inv Hl E. rewrite Hl in Hi. destruct (lands l) eqn:El.
  - destruct (step_ok true s l o Hi Hn ltac:(done) E) as [(s' & -> & _)|[? _]]; done.
  - destruct l; try done. cbn [KSched.exec] in E. destruct (cpus s !! c); [|done]. cbn [mbind option_bind] in E.
    destruct (phase _); try done. destruct (store_context _ _ _ _ _); [|done]. cbn [mbind option_bind] in E. injection E as <-.
    unfold switch. by rewrite (proj2 (Z.eqb_neq _ _) (in_root _ _ Hi)).
Qed.

(** What becomes of the thread [schedule] switches away from. *)
Definition set_aside (s : Sys) (k : Cpu) (id : Z) (os : ThreadState) (parked : bool) : Prop :=
  match os with
  | Exited => id ∈ reapable s ∧ handoff_id k = NO_THREAD
  | _ => handoff_id k = if parked then tag id else id
  end.

(** [schedule] dispatches only a thread that can run, and sets the
    outgoing one aside. The thread it makes current exists, is not parked,
    has a saved context, and no processor is on its stack; the outgoing
    thread is in this processor's hand-off word, tagged if it is parked, or
    on the reap list if it exited. *)
Theorem dispatch_is_sound root ls s c k os next s' :
  reaches root ls s → cpus s !! c = Some k → phase k = Chosen os next → step s (LSection c) s' →
  (∃ t, threads s !! next = Some t ∧ is_parked_thread t = false ∧ context t ≠ None ∧
     ∀ c' k', cpus s !! c' = Some k' → idle_installed k' = true → stack k' ≠ next) ∧
  ∃ cur k', threads s !! current_thread k = Some cur ∧ cpus s' !! c = Some k' ∧
    current_thread k' = next ∧ set_aside s' k' (current_thread k) os (is_parked_thread cur).
Proof.
  intros [Hi _]%reaches_inv Hk Hph Hst.
  assert ((next, PChosen c) ∈ spots s) as Hsp.
  { eapply cpu_spot_in; [done|]. unfold cpu_spots. rewrite Hph, !elem_of_app. right. left. left. }
  destruct (co_spots _ _ _ _ (in_core _ _ Hi) _ _ Hsp) as (t & Ht & Hp & _ & Hc).
  assert (idle_installed k = true) as Hon.
  { destruct (idle_installed k) eqn:E; [done|].
    destruct (ck_off _ _ (in_cpus _ _ Hi _ _ Hk) E) as [Hf _]. congruence. }
  destruct (cur_spot _ _ _ _ Hi Hk Hon) as (cur & Hcur & _ & Hid).
  assert (next ≠ current_thread k) as Hne.
  { intros ->. by pose proof (core_unique _ _ _ _ _ _ _ (in_core _ _ Hi) Hsp (cpu_spot_in _ _ _ _ _ Hk (cur_spot_in c k Hon))). }
  unfold step in Hst. cbn [KSched.exec] in Hst. rewrite Hk in Hst. cbn [mbind option_bind] in Hst.
  rewrite Hph in Hst. injection Hst as Hst. unfold schedule_section in Hst.
  destruct (outgoing s k os) as [[[m reap] h] hp] eqn:Ho.
  destruct (outgoing_eq _ _ _ _ _ _ _ _ _ _ Hi Hk Hcur Hid Ho) as (Em & _).
  assert (m !! next = Some t) as Hmt by (by rewrite Em, lookup_insert_ne by done). rewrite Hmt in Hst. cbn [expect mbind outcome_bind] in Hst.
  destruct (decide (context t = None)) as [Hctx|Hctx]; [by rewrite (bool_decide_eq_true_2 _ Hctx) in Hst|].
  split; [exists t; split_and!; try done; intros; by eapply waiting_off_stack|]. clear Em Hmt. inv_ret. subst s'.
  exists cur. eexists. split; [done|]. split; [apply list_lookup_insert_eq; by eapply lookup_lt_Some|].
  split; [done|]. unfold outgoing in Ho. rewrite Hcur in Ho. cbn [from_option] in Ho.
  destruct os; simplify_eq; cbn; try done. split; [|done]. apply elem_of_app. right. left.
Qed.

(** ** Concrete runs *)

Definition two_cpus : list Label :=
  [LInstall 0; LInit 0; LOnline 0; LInstall 1; LInit 1; LOnline 1; LSetPreemption true].

(** Thread 2 is spawned and dispatched on processor 0. *)
Definition dispatch : list Label := [LTake 0 false; LSection 0; LSwitch 0 99 Hits; LPublish 0; LPublish 0].
Definition spawned : list Label := two_cpus ++ [LSpawn 0 65536 Normal; LPush 0 0].
Definition running : list Label := spawned ++ LYield 0 :: dispatch.

(** Nothing else can run: processor 0 looks at its queue, at both
    processors, and takes its idle thread. *)
Definition to_idle : list Label := replicate 4 (LTake 0 false) ++ [LSection 0].

Definition after (ls : list Label) : Sys := default (boot 4096) (exec_list (boot 4096) ls).

Lemma reaches_after ls :
  bool_decide (Z.of_nat (length ls) + 1 < 2 ^ 63) = true →
  is_Some (exec_list (boot 4096) ls) → reaches 4096 ls (after ls).
Proof.
  intros Hn%bool_decide_eq_true [s Hs]. split; [done|]. split; [done|]. unfold after. by rewrite Hs.
Qed.

(** Evaluates a run. *)
Ltac runs := apply reaches_after; [vm_compute; reflexivity | vm_compute; eexists; reflexivity].
Ltac compute_state := vm_compute; reflexivity.

Definition cpu0 (s : Sys) : Cpu := default (boot_cpu 0) (cpus s !! 0%nat).

Lemma every_live_thread_has_one_place_witness : NoDup (spots (after running)).*1 ∧ 2 ∈ (spots (after running)).*1.
Proof.
  destruct (every_live_thread_has_one_place 4096 running (after running) ltac:(runs)) as [Hnd Hlive].
  split; [exact Hnd|]. eapply Hlive; compute_state.
Defined.


Lemma processors_never_share_a_stack_witness :
  stack (cpu0 (after running)) ≠ 1.
Proof.
  intros E.
  assert (0%nat = 1%nat) as H; [|discriminate H].
  apply (processors_never_share_a_stack 4096 running (after running) 0 1 (cpu0 (after running))
    (default (boot_cpu 0) (cpus (after running) !! 1%nat))); [runs|compute_state..|].
  left. rewrite E. compute_state.
Defined.

Definition choosing : list Label := spawned ++ [LYield 0; LTake 0 false].
Lemma scheduler_never_panics_witness :
  ∃ o, KSched.exec (after choosing) (LSection 0) = Some o ∧ o ≠ Panic.
Proof.
  exists (default Panic (KSched.exec (after choosing) (LSection 0))).
  assert (KSched.exec (after choosing) (LSection 0) =
    Some (default Panic (KSched.exec (after choosing) (LSection 0)))) as E by compute_state.
  split; [exact E|]. apply (scheduler_never_panics 4096 choosing (after choosing) (LSection 0)); [runs|reflexivity|exact E].
Defined.

Lemma dispatch_is_sound_witness :
  ∃ k', cpus (after (choosing ++ [LSection 0])) !! 0%nat = Some k' ∧ current_thread k' = 2 ∧ handoff_id k' = 0.
Proof.
  destruct (dispatch_is_sound 4096 choosing (after choosing) 0 (cpu0 (after choosing)) Ready 2
    (after (choosing ++ [LSection 0])) ltac:(runs) ltac:(compute_state) ltac:(compute_state) ltac:(compute_state))
    as (_ & cur & k' & Hcur & Hk' & Hn & Ha).
  exists k'. split; [exact Hk'|]. split; [exact Hn|]. revert Hcur Ha. vm_compute.
  intros H. injection H as <-. intros H. exact H.
Defined.

(** ** Runs that go wrong *)

(** [reap]'s guard protects nothing. It refuses a thread that is
    current on some processor, but [schedule] has replaced the current
    thread before it adds the outgoing one to the list, so the guard never
    refuses; meanwhile the processor is still on the exited thread's stack,
    and another processor's [reap] frees that stack under it. *)
Theorem reap_frees_a_stack_in_use :
  (∀ root ls s id, reaches root ls s → id ∈ reapable s → is_current_anywhere s id = false) ∧
  ∃ ls s k, reaches 4096 ls s ∧ cpus s !! 0%nat = Some k ∧ idle_installed k = true ∧
    0 ≤ stack k < next_id s ∧ threads s !! stack k = None.
Proof.
  split; [intros root ls s id [Hi _]%reaches_inv; by eapply reapable_not_current|].
  pose (ls := running ++ LExit 0 :: to_idle ++ [LReap 1]).
  exists ls, (after ls), (cpu0 (after ls)). split; [runs|]. split_and!; try compute_state; by vm_compute.
Qed.

(** A user thread preempted between [space.activate()] and
    [adopt_address_space] loses its address space: it is resumed with the
    kernel's root in CR3, and goes on to enter user mode there. *)
Theorem activation_is_lost_to_preemption :
  ∃ ls s k t, reaches 4096 (running ++ LActivate 0 8192 :: ls ++ [LAdopt 0 8192]) s ∧
    cpus s !! 0%nat = Some k ∧ phase k = InThread ∧ current_thread k = 2 ∧
    threads s !! 2 = Some t ∧ address_space t = Some 8192 ∧ cr3 k = kernel_root s ∧ cr3 k ≠ 8192.
Proof.
  pose (mid := LPreempt 0 :: to_idle ++ [LSwitch 0 98 Hits; LPublish 0; LPublish 0; LYield 0] ++ dispatch).
  pose (s := after (running ++ LActivate 0 8192 :: mid ++ [LAdopt 0 8192])).
  exists mid, s, (cpu0 s). eexists. split; [runs|]. split_and!; try compute_state; by vm_compute.
Qed.

(** The pointer [context::switch] saves the outgoing thread's context
    through is taken inside the critical section and used outside it: a
    thread spawned in between changes the table the pointer points into. When
    the entries move and the store misses, a processor's idle thread has no
    context, and the next time there is nothing else to run the scheduler
    panics. *)
Theorem context_slot_pointer_goes_stale :
  ∃ ls s k from to top root ep, reaches 4096 ls s ∧ cpus s !! 0%nat = Some k ∧
    phase k = Switching from to top root ep ∧ ep ≠ epoch s ∧
    ∃ ls' s', reaches 4096 (ls ++ LSwitch 0 99 (Strays None) :: ls') s' ∧ KSched.exec s' (LSection 0) = Some Panic.
Proof.
  pose (ls := spawned ++ [LYield 0; LTake 0 false; LSection 0; LSpawn 1 131072 Normal]).
  pose (ls' := [LPublish 0; LPublish 0; LPark 0] ++ replicate 4 (LTake 0 false)).
  exists ls, (after ls), (cpu0 (after ls)). do 5 eexists. split; [runs|].
  split; [compute_state|]. split; [compute_state|]. split; [by vm_compute|].
  exists ls', (after (ls ++ LSwitch 0 99 (Strays None) :: ls')). split; [runs|compute_state].
Qed.
