(* ===== verification/Timers.v ===== *)
(** The timer table and the one-future executor: [kernel/src/task.rs], with
    the tick of [kernel/src/main.rs].

    A run interleaves threads that register, poll, park on and drop sleeps
    with timer interrupts on any number of processors.  [try_sleep_ticks]
    reads [TICKS] before it takes the [TIMERS] lock, and [expire_timers]
    wakes the threads after it has released it, so each is two kinds of step.
    [exec] runs one step: [None] when it is not that thread's next one,
    [Panic] when the code panics. *)
From S2P Require Import Prelude Bits Sched.

(** ** The table *)

Definition CAPACITY : nat := 64.

Record Timer := mkTimer { tm_deadline : Z; tm_thread : Z; tm_generation : Z }.

Definition due (now : Z) (slot : option Timer) : bool :=
  match slot with Some t => tm_deadline t <=? now | None => false end.

(** [expire_timers], under the lock: [woken] in slot order. *)
Fixpoint expire_timers (now : Z) (timers : list (option Timer)) : list Z * list (option Timer) :=
  match timers with
  | [] => ([], [])
  | slot :: rest =>
      let '(woken, rest') := expire_timers now rest in
      match slot with
      | Some t => if due now slot then (tm_thread t :: woken, None :: rest')
                  else (woken, slot :: rest')
      | None => (woken, slot :: rest')
      end
  end.

(** [timers.iter().position(|s| s.is_none())]. *)
Fixpoint position (timers : list (option Timer)) : option nat :=
  match timers with
  | [] => None
  | None :: _ => Some 0%nat
  | Some _ :: rest => S <$> position rest
  end.

Definition in_use (timers : list (option Timer)) : nat :=
  (CAPACITY - length (filter (λ s : option Timer, s = None) timers))%nat.

(** ** [Sleep] *)

Record Sleep := mkSleep { deadline : Z; slot : option nat; sl_generation : Z }.

Inductive SleepError := Full.

(** [TICKS.load() >= self.deadline]. *)
Definition poll_sleep (now : Z) (sl : Sleep) : bool := deadline sl <=? now.

(** [Sleep::drop]. *)
Definition drop_sleep (timers : list (option Timer)) (sl : Sleep) : outcome (list (option Timer)) :=
  match slot sl with
  | None => Ret timers
  | Some index =>
      s ← expect (timers !! index);
      match s with
      | Some t => if tm_generation t =? sl_generation sl then Ret (<[index := None]> timers) else Ret timers
      | None => Ret timers
      end
  end.

(** ** The system *)

(** A thread inside [try_sleep_ticks] between the load of [TICKS] and the
    lock ([must] for [sleep_ticks], which panics where it is refused), and
    the two places [block_on] can be between a poll that was [Pending] and
    the next: about to park, and parked.  [w] is the sleep the poll found
    unfinished. *)
Inductive Pc :=
  | Running
  | Registering (must : bool) (dl : Z)
  | Waiting (w : Sleep)
  | Blocked (w : Sleep).

Record Task := mkTask { park : Park.ParkState; sleeps : list Sleep; pc : Pc }.

(** A timer interrupt on some processor. *)
Inductive Handler := Expiring (now : Z) | Waking (ids : list Z).

Record Sys := mkSys
  { ticks : Z; timers : list (option Timer); generation : Z; high_water : nat; handlers : list Handler;
    tasks : gmap Z Task }.

Definition with_task (s : Sys) (t : Z) (k : Task) : Sys :=
  mkSys (ticks s) (timers s) (generation s) (high_water s) (handlers s) (<[t := k]> (tasks s)).

Definition boot : Sys := mkSys 0 (replicate CAPACITY None) 0 0 [] ∅.

(** [try_sleep_ticks] up to the lock: a deadline that has been reached takes
    no slot. *)
Definition begin_sleep (now n : Z) (must : bool) (k : Task) : Task :=
  let dl := Z.min (now + n) (2 ^ 64 - 1) in
  if dl <=? now then mkTask (park k) (sleeps k ++ [mkSleep dl None 0]) (pc k)
  else mkTask (park k) (sleeps k) (Registering must dl).

(** [try_sleep_ticks] under the lock. *)
Definition register (s : Sys) (t : Z) (dl : Z) : result (Sleep * Sys) SleepError :=
  match position (timers s) with
  | None => Err Full
  | Some index =>
      let g := generation s in
      let timers' := <[index := Some (mkTimer dl t g)]> (timers s) in
      Ok (mkSleep dl (Some index) g,
          mkSys (ticks s) timers' (wrapping_add 64 g 1) (Nat.max (high_water s) (in_use timers'))
            (handlers s) (tasks s))
  end.

Definition finish_sleep (s : Sys) (t : Z) (k : Task) (must : bool) (dl : Z) : outcome Sys :=
  match register s t dl with
  | Ok (sl, s') => Ret (with_task s' t (mkTask (park k) (sleeps k ++ [sl]) Running))
  | Err Full => if must then Panic else Ret (with_task s t (mkTask (park k) (sleeps k) Running))
  end.

(** A poll of the future [block_on] runs: all the sleeps it is made of. *)
Definition first_pending (now : Z) (l : list Sleep) : option Sleep :=
  head (filter (λ sl, poll_sleep now sl = false) l).

Definition park_task (k : Task) (w : Sleep) : Task :=
  match Park.park (park k) with
  | (Park.Parked, p) => mkTask p (sleeps k) (Blocked w)
  | (Park.Cancelled, p) => mkTask p (sleeps k) Running
  end.

(** [sched::unpark]: a parked thread runs again, and polls again. *)
Definition wake_task (k : Task) : Task :=
  match Park.wake (park k) with
  | (Park.Runnable, p) => mkTask p (sleeps k) Running
  | (Park.Noted, p) => mkTask p (sleeps k) (pc k)
  end.
Definition unpark (s : Sys) (t : Z) : Sys :=
  match tasks s !! t with
  | Some k => with_task s t (wake_task k)
  | None => s
  end.

Definition with_handlers (s : Sys) (h : list Handler) : Sys :=
  mkSys (ticks s) (timers s) (generation s) (high_water s) h (tasks s).

(** [let now = TICKS.fetch_add(1) + 1]. *)
Definition tick (s : Sys) : outcome Sys :=
  now ← add_chk 64 (ticks s) 1;
  Ret (mkSys now (timers s) (generation s) (high_water s) (Expiring now :: handlers s) (tasks s)).

(** One step of the [i]-th interrupt in progress. *)
Definition handler_step (s : Sys) (i : nat) : option Sys :=
  match handlers s !! i with
  | Some (Expiring now) =>
      let '(woken, timers') := expire_timers now (timers s) in
      Some (mkSys (ticks s) timers' (generation s) (high_water s) (<[i := Waking woken]> (handlers s)) (tasks s))
  | Some (Waking (id :: ids)) => Some (unpark (with_handlers s (<[i := Waking ids]> (handlers s))) id)
  | Some (Waking []) => Some (with_handlers s (delete i (handlers s)))
  | None => None
  end.

(** ** Steps *)

Inductive Label :=
  | LSpawn (t : Z) | LSleep (t n : Z) (must : bool) | LRegister (t : Z) | LPoll (t : Z) | LPark (t : Z)
  | LDrop (t : Z) (i : nat) | LTick | LHandler (i : nat) | LUnpark (t : Z).

Definition exec (s : Sys) (l : Label) : option (outcome Sys) :=
  match l with
  | LSpawn t =>
      match tasks s !! t with
      | None => Some (Ret (with_task s t (mkTask Park.default_state [] Running)))
      | Some _ => None
      end
  | LSleep t n must =>
      k ← tasks s !! t;
      match pc k with
      | Running => if 0 <=? n then Some (Ret (with_task s t (begin_sleep (ticks s) n must k))) else None
      | _ => None
      end
  | LRegister t =>
      k ← tasks s !! t;
      match pc k with Registering must dl => Some (finish_sleep s t k must dl) | _ => None end
  | LPoll t =>
      k ← tasks s !! t;
      match pc k with
      | Running =>
          Some (Ret (with_task s t (mkTask (park k) (sleeps k)
            (from_option Waiting Running (first_pending (ticks s) (sleeps k))))))
      | _ => None
      end
  | LPark t =>
      k ← tasks s !! t;
      match pc k with Waiting w => Some (Ret (with_task s t (park_task k w))) | _ => None end
  | LDrop t i =>
      k ← tasks s !! t;
      match pc k, sleeps k !! i with
      | Running, Some sl =>
          Some (timers' ← drop_sleep (timers s) sl;
                Ret (mkSys (ticks s) timers' (generation s) (high_water s) (handlers s)
                       (<[t := mkTask (park k) (delete i (sleeps k)) Running]> (tasks s))))
      | _, _ => None
      end
  | LTick => Some (tick s)
  | LHandler i => Ret <$> handler_step s i
  | LUnpark t => Some (Ret (unpark s t))
  end.

Definition step (s : Sys) (l : Label) (s' : Sys) : Prop := exec s l = Some (Ret s').

Fixpoint exec_list (s : Sys) (ls : list Label) : option Sys :=
  match ls with
  | [] => Some s
  | l :: ls' => match exec s l with Some (Ret s') => exec_list s' ls' | _ => None end
  end.

(** ** The table's operations *)

Definition keep (now : Z) (slot : option Timer) : option Timer := if due now slot then None else slot.
Definition woken_by (now : Z) (slot : option Timer) : option Z :=
  if due now slot then tm_thread <$> slot else None.

Lemma expire_eq now T : expire_timers now T = (omap (woken_by now) T, keep now <$> T).
Proof.
  induction T as [|[t|] T IH]; [done|..]; cbn [expire_timers]; rewrite IH; [|done].
  unfold keep, woken_by. cbn. by destruct (tm_deadline t <=? now).
Qed.

Lemma keep_some now T t : keep now T = Some t ↔ T = Some t ∧ now < tm_deadline t.
Proof.
  unfold keep. destruct T as [t0|]; cbn; [|naive_solver].
  destruct (Z.leb_spec (tm_deadline t0) now); naive_solver lia.
Qed.

Lemma woken_some now T id :
  woken_by now T = Some id ↔ ∃ t, T = Some t ∧ tm_deadline t ≤ now ∧ tm_thread t = id.
Proof.
  unfold woken_by. destruct T as [t0|]; cbn; [|naive_solver].
  destruct (Z.leb_spec (tm_deadline t0) now); naive_solver lia.
Qed.

Lemma position_some T i :
  position T = Some i → T !! i = Some None ∧ ∀ j, (j < i)%nat → ∃ t, T !! j = Some (Some t).
Proof.
  revert i. induction T as [|[t|] T IH]; intros i; cbn; [done|..].
  - destruct (position T) as [i'|]; [|done]. intros [= <-]. destruct (IH i' eq_refl) as [H1 H2].
    split; [done|]. intros [|j] Hj; [by exists t|]. apply H2. lia.
  - intros [= <-]. split; [done|]. lia.
Qed.

Lemma position_none T : position T = None ↔ ∀ i, T !! i ≠ Some None.
Proof.
  induction T as [|[t|] T IH]; cbn; [done|..].
  - rewrite fmap_None, IH. split; [intros H [|i]; [done|apply H]|intros H i; apply (H (S i))].
  - split; [done|]. intros H. by destruct (H 0%nat).
Qed.

(** ** The invariant *)

Definition sleeps_of (s : Sys) (t : Z) : list Sleep := from_option sleeps [] (tasks s !! t).

(** The generations of the sleeps that took a slot. *)
Definition gens (l : list Sleep) : list Z := sl_generation <$> filter (λ sl, is_Some (slot sl)) l.

Definition registered (T : list (option Timer)) (t : Z) (sl : Sleep) : Prop :=
  ∃ i, slot sl = Some i ∧ T !! i = Some (Some (mkTimer (deadline sl) t (sl_generation sl))).

Definition waking (s : Sys) (t : Z) : Prop := ∃ ids, Waking ids ∈ handlers s ∧ t ∈ ids.

(** A sleep that took a slot has it still, or its deadline is past. *)
Definition sleep_ok (T : list (option Timer)) (now gen : Z) (t : Z) (sl : Sleep) : Prop :=
  match slot sl with
  | None => deadline sl ≤ now
  | Some i => (i < CAPACITY)%nat ∧ 0 ≤ sl_generation sl < gen ∧ (registered T t sl ∨ deadline sl ≤ now)
  end.

Definition timer_ok (s : Sys) (i : nat) (tm : Timer) : Prop :=
  ∃ sl, sl ∈ sleeps_of s (tm_thread tm) ∧ slot sl = Some i ∧
    deadline sl = tm_deadline tm ∧ sl_generation sl = tm_generation tm.

Definition pc_ok (s : Sys) (t : Z) (k : Task) : Prop :=
  match pc k with
  | Running | Registering _ _ => Park.parked (park k) = false
  | Waiting w => Park.parked (park k) = false ∧ w ∈ sleeps k ∧
      (registered (timers s) t w ∨ waking s t ∨ Park.pending (park k) = true)
  | Blocked w => Park.parked (park k) = true ∧ w ∈ sleeps k ∧ (registered (timers s) t w ∨ waking s t)
  end.

Record inv (s : Sys) : Prop := {
  in_len : length (timers s) = CAPACITY;
  in_ticks : 0 ≤ ticks s < 2 ^ 64;
  in_gen : 0 ≤ generation s < 2 ^ 64;
  in_sleep : ∀ t sl, sl ∈ sleeps_of s t → sleep_ok (timers s) (ticks s) (generation s) t sl;
  in_timer : ∀ i tm, timers s !! i = Some (Some tm) → timer_ok s i tm;
  in_nodup : ∀ t, NoDup (gens (sleeps_of s t));
  in_apart : ∀ t t' g, g ∈ gens (sleeps_of s t) → g ∈ gens (sleeps_of s t') → t = t';
  in_hand : ∀ now, Expiring now ∈ handlers s → now ≤ ticks s;
  in_pc : ∀ t k, tasks s !! t = Some k → pc_ok s t k
}.

(** ** Preservation *)

Lemma sleeps_of_insert s t k t' T g hw h n :
  sleeps_of (mkSys n T g hw h (<[t := k]> (tasks s))) t' = if decide (t' = t) then sleeps k else sleeps_of s t'.
Proof.
  unfold sleeps_of. cbn. case_decide as E; [subst; by rewrite lookup_insert_eq|by rewrite lookup_insert_ne].
Qed.

Lemma gens_app l l' : gens (l ++ l') = gens l ++ gens l'.
Proof. unfold gens. by rewrite filter_app, fmap_app. Qed.

Lemma elem_of_gens l g : g ∈ gens l ↔ ∃ sl, sl ∈ l ∧ is_Some (slot sl) ∧ sl_generation sl = g.
Proof.
  unfold gens. rewrite list_elem_of_fmap. setoid_rewrite list_elem_of_filter. naive_solver.
Qed.

Lemma task_sleeps s t k : tasks s !! t = Some k → sleeps_of s t = sleeps k.
Proof. unfold sleeps_of. by intros ->. Qed.

(** A step of a thread that keeps its sleeps, or adds one with no slot. *)
Lemma inv_task s t k l :
  inv s → sleeps k = sleeps_of s t ++ l → (∀ sl, sl ∈ l → slot sl = None ∧ deadline sl ≤ ticks s) →
  pc_ok s t k → inv (with_task s t k).
Proof.
  intros [I1 I2 I3 I4 I5 I6 I7 I8 I9] Hk Hl Hpc.
  assert (gens l = []) as Hg.
  { destruct (gens l) as [|g ?] eqn:E; [done|]. assert (g ∈ gens l) as Hin by (rewrite E; left).
    apply elem_of_gens in Hin as (sl & Hsl & [i Hi] & _). destruct (Hl _ Hsl). congruence. }
  assert (∀ t', gens (sleeps_of (with_task s t k) t') = gens (sleeps_of s t')) as Hgens.
  { intros t'. unfold with_task. rewrite sleeps_of_insert. case_decide as E; [|done].
    by rewrite Hk, gens_app, Hg, app_nil_r, E. }
  split; try done.
  - intros t' sl. unfold with_task. rewrite sleeps_of_insert. case_decide as E; [|apply I4].
    rewrite Hk, elem_of_app. subst t'. intros [Hin|Hin]; [by apply I4|].
    destruct (Hl _ Hin) as [Hs Hd]. unfold sleep_ok. by rewrite Hs.
  - intros i tm Ht. destruct (I5 i tm Ht) as (sl & Hsl & Hr). exists sl. split; [|done].
    unfold with_task. rewrite sleeps_of_insert. case_decide as E; [|done]. rewrite Hk, elem_of_app, <- E. by left.
  - intros t'. by rewrite Hgens.
  - intros t1 t2 g. rewrite !Hgens. apply I7.
  - intros t' k'. cbn. destruct (decide (t' = t)) as [->|Hne].
    + rewrite lookup_insert_eq. by intros [= <-].
    + rewrite lookup_insert_ne by done. apply I9.
Qed.

Lemma inv_same_sleeps s t k k' :
  inv s → tasks s !! t = Some k → sleeps k' = sleeps k → pc_ok s t k' → inv (with_task s t k').
Proof.
  intros Hi Ht Hs Hpc. apply (inv_task s t k' []); [done| |by intros sl H%elem_of_nil|done].
  by rewrite app_nil_r, (task_sleeps _ _ _ Ht).
Qed.

(** Waking a thread lets one of its wakes be forgotten. *)
Lemma wake_task_ok s t k :
  pc_ok s t k → ∀ s', timers s' = timers s → pc_ok s' t (wake_task k).
Proof.
  intros Hpc s' ET. unfold wake_task, Park.wake. destruct k as [[p n] sl c]. cbn in *.
  unfold pc_ok in *. cbn in *. destruct p; cbn.
  - done.
  - destruct c; cbn; try done; [|by destruct Hpc]. destruct Hpc as (_ & Hw & _). split; [done|]. auto.
Qed.

Lemma inv_woken_task s h t :
  inv s → (∀ t', t' ≠ t → waking s t' → waking (with_handlers s h) t') →
  (∀ now, Expiring now ∈ h → Expiring now ∈ handlers s) →
  inv (unpark (with_handlers s h) t).
Proof.
  intros Hi Hw Hx. pose proof Hi as [I1 I2 I3 I4 I5 I6 I7 I8 I9].
  assert (∀ t' k', t' ≠ t → pc_ok s t' k' → pc_ok (with_handlers s h) t' k') as Hoth.
  { intros t' k' Hne. unfold pc_ok. cbn. specialize (Hw t' Hne). destruct (pc k'); naive_solver. }
  unfold unpark. cbn. destruct (tasks s !! t) as [k|] eqn:Ht.
  - assert (sleeps (wake_task k) = sleeps k) as Hs.
    { unfold wake_task. by destruct (Park.wake (park k)) as [[] ?]. }
    assert (∀ t', sleeps_of (with_task (with_handlers s h) t (wake_task k)) t' = sleeps_of s t') as Hso.
    { intros t'. unfold with_task. rewrite sleeps_of_insert. case_decide as E; [|done].
      by rewrite E, Hs, (task_sleeps _ _ _ Ht). }
    split; try done.
    + intros t' sl. rewrite Hso. apply I4.
    + intros i tm Hi'. unfold timer_ok. rewrite Hso. by apply I5.
    + intros t'. rewrite Hso. apply I6.
    + intros t1 t2 g. rewrite !Hso. apply I7.
    + intros now Hn. by apply I8, Hx.
    + intros t' k'. cbn. destruct (decide (t' = t)) as [->|Hne].
      * rewrite lookup_insert_eq. intros [= <-]. by apply (wake_task_ok s); [apply I9|].
      * rewrite lookup_insert_ne by done. intros Hk'. by apply Hoth, I9.
  - split; try done.
    + intros now Hn. by apply I8, Hx.
    + intros t' k' Hk'. cbn in Hk'. apply Hoth; [congruence|by apply I9].
Qed.

(** [expire_timers]: a timer that goes is due, and its thread is woken. *)
Lemma expire_registered s t sl now :
  registered (timers s) t sl → now ≤ ticks s →
  registered (keep now <$> timers s) t sl ∨
  (deadline sl ≤ ticks s ∧ t ∈ omap (woken_by now) (timers s)).
Proof.
  intros (i & Hi & Ht) Hn. destruct (Z.le_gt_cases (deadline sl) now) as [Hd|Hd].
  - right. split; [lia|]. apply list_elem_of_omap. eexists. split; [by eapply list_elem_of_lookup_2|].
    apply woken_some. eauto.
  - left. exists i. split; [done|]. rewrite list_lookup_fmap, Ht. cbn. f_equal. apply keep_some. done.
Qed.

Lemma waking_insert s i ids t :
  handlers s !! i = Some (Waking ids) ∨ (∃ now, handlers s !! i = Some (Expiring now)) →
  ∀ ids', (t ∈ ids → t ∈ ids') → waking s t → ∃ l, Waking l ∈ <[i := Waking ids']> (handlers s) ∧ t ∈ l.
Proof.
  intros Hi ids' Hsub (l & Hl & Ht). apply list_elem_of_lookup in Hl as [j Hj].
  assert (i < length (handlers s))%nat as Hlt by (destruct Hi as [?|[? ?]]; by eapply lookup_lt_Some).
  destruct (decide (j = i)) as [->|Hne].
  - exists ids'. split; [apply list_elem_of_lookup; exists i; by apply list_lookup_insert_eq|].
    apply Hsub. destruct Hi as [?|[? ?]]; congruence.
  - exists l. split; [|done]. apply list_elem_of_lookup. exists j. by rewrite list_lookup_insert_ne.
Qed.

Lemma expiring_insert s i ids now :
  Expiring now ∈ <[i := Waking ids]> (handlers s) → Expiring now ∈ handlers s.
Proof.
  intros [j Hj]%list_elem_of_lookup. apply list_lookup_insert_Some in Hj as [(_ & [=] & _)|[_ Hj]].
  by eapply list_elem_of_lookup_2.
Qed.

Lemma inv_expire s i now :
  inv s → handlers s !! i = Some (Expiring now) →
  inv (mkSys (ticks s) (keep now <$> timers s) (generation s) (high_water s)
         (<[i := Waking (omap (woken_by now) (timers s))]> (handlers s)) (tasks s)).
Proof.
  intros Hi Hh. pose proof Hi as [I1 I2 I3 I4 I5 I6 I7 I8 I9].
  assert (now ≤ ticks s) as Hn by (apply I8; by eapply list_elem_of_lookup_2).
  assert (∀ t, waking s t → ∃ l, Waking l ∈ <[i := Waking (omap (woken_by now) (timers s))]> (handlers s) ∧ t ∈ l) as Hw.
  { intros t. apply (waking_insert s i []); [by right; exists now|]. by intros H%elem_of_nil. }
  assert (i < length (handlers s))%nat as Hlt by by eapply lookup_lt_Some.
  split; cbn; try done.
  - by rewrite length_fmap.
  - intros t sl Hsl. specialize (I4 t sl Hsl). unfold sleep_ok in *. destruct (slot sl) as [j|] eqn:Ej; [|done].
    destruct I4 as (H1 & H2 & [H3|H3]); (split; [done|]; split; [done|]); [|by right].
    destruct (expire_registered _ _ _ now H3 Hn) as [?|[? _]]; [by left|by right].
  - intros j tm. rewrite list_lookup_fmap. destruct (timers s !! j) as [x|] eqn:Ex; [|done]. cbn.
    intros [= (-> & _)%keep_some]. apply I5 in Ex. done.
  - intros n H%expiring_insert. by apply I8.
  - intros t k Hk. specialize (I9 t k Hk). unfold pc_ok in *.
    assert (∀ w, registered (timers s) t w → registered (keep now <$> timers s) t w ∨
      ∃ l, Waking l ∈ <[i := Waking (omap (woken_by now) (timers s))]> (handlers s) ∧ t ∈ l) as Hr.
    { intros w Hw'. destruct (expire_registered _ _ _ now Hw' Hn) as [?|(_ & Hin)]; [by left|right].
      eexists. split; [|exact Hin]. apply list_elem_of_lookup. exists i. by apply list_lookup_insert_eq. }
    unfold waking in *. cbn. destruct (pc k) as [| |w|w]; [done|done| |].
    + destruct I9 as (H1 & H2 & [H3|[H3|H3]]); (split; [done|]; split; [done|]).
      * destruct (Hr w H3); [by left|right; by left].
      * right. left. by apply Hw.
      * by right; right.
    + destruct I9 as (H1 & H2 & [H3|H3]); (split; [done|]; split; [done|]); [by apply Hr|right; by apply Hw].
Qed.

Lemma inv_tick s :
  inv s → ticks s + 1 < 2 ^ 64 → ∃ s', tick s = Ret s' ∧ inv s'.
Proof.
  intros Hi Hn. pose proof Hi as [I1 I2 I3 I4 I5 I6 I7 I8 I9]. unfold tick.
  rewrite add_chk_ok by lia. cbn. eexists. split; [done|].
  split; cbn; try done; [lia|..].
  - intros t sl Hsl. specialize (I4 t sl Hsl). unfold sleep_ok in *. destruct (slot sl); [|lia].
    destruct I4 as (H1 & H2 & [H3|H3]); (split; [done|]; split; [done|]); [by left|right; lia].
  - intros n [[= ->]|H]%elem_of_cons; [lia|]. specialize (I8 n H). lia.
  - intros t k Hk. specialize (I9 t k Hk). unfold pc_ok, waking in *. cbn.
    assert (∀ h, (∃ ids, Waking ids ∈ handlers s ∧ t ∈ ids) → ∃ ids, Waking ids ∈ h :: handlers s ∧ t ∈ ids) as Hw.
    { intros h (ids & H1 & H2). exists ids. split; [by right|done]. }
    destruct (pc k); naive_solver.
Qed.

(** Registering fills a slot that was empty, with a generation never used. *)
Lemma registered_other T i x t sl :
  T !! i = Some None → registered T t sl → registered (<[i := x]> T) t sl.
Proof.
  intros Hi (j & Hj & Ht). exists j. split; [done|]. rewrite list_lookup_insert_ne; [done|congruence].
Qed.

Lemma sleep_ok_more T i x now g g' t sl :
  T !! i = Some None → g ≤ g' → sleep_ok T now g t sl → sleep_ok (<[i := x]> T) now g' t sl.
Proof.
  unfold sleep_ok. intros Hi Hg H. destruct (slot sl); [|done]. destruct H as (? & ? & ?).
  split; [done|]. split; [lia|]. naive_solver eauto using registered_other.
Qed.

Lemma pc_ok_mono s s' t k :
  (∀ w, w ∈ sleeps k → registered (timers s) t w → registered (timers s') t w) →
  handlers s' = handlers s → pc_ok s t k → pc_ok s' t k.
Proof. intros H E. unfold pc_ok, waking. rewrite E. destruct (pc k); naive_solver. Qed.

Lemma inv_register s t k dl s1 sl :
  inv s → tasks s !! t = Some k → Park.parked (park k) = false → generation s + 1 < 2 ^ 64 →
  register s t dl = Ok (sl, s1) → 
  inv (with_task s1 t (mkTask (park k) (sleeps k ++ [sl]) Running)).
Proof.
  intros Hi Ht Hp Hg. pose proof Hi as [I1 I2 I3 I4 I5 I6 I7 I8 I9]. unfold register.
  destruct (position (timers s)) as [j|] eqn:Ej; [|done]. intros [= <- <-].
  destruct (position_some _ _ Ej) as [Hj _]. pose proof (lookup_lt_Some _ _ _ Hj) as Hlt.
  unfold wrapping_add. rewrite Z.mod_small by lia.
  set (sl := mkSleep dl (Some j) (generation s)). unfold with_task. cbn.
  assert (∀ t' g, g ∈ gens (sleeps_of s t') → g < generation s) as Hfresh.
  { intros t' g (sl0 & Hin & [x Hx] & <-)%elem_of_gens. specialize (I4 _ _ Hin). unfold sleep_ok in I4.
    rewrite Hx in I4. lia. }
  assert (gens [sl] = [generation s]) as Hone by done.
  split; cbn; try done.
  - by rewrite length_insert.
  - lia.
  - intros t' sl'. rewrite sleeps_of_insert. cbn. case_decide as E.
    2: { intros Hin. apply (sleep_ok_more _ _ _ _ (generation s)); [done|lia|by apply I4]. }
    subst t'. intros [Hin|[->|[]%elem_of_nil]%elem_of_cons]%elem_of_app.
    + apply (sleep_ok_more _ _ _ _ (generation s)); [done|lia|]. apply I4. by rewrite (task_sleeps _ _ _ Ht).
    + split; [cbn in *; lia|]. split; [cbn; lia|]. left. exists j. split; [done|]. by apply list_lookup_insert_eq.
  - intros i' tm. destruct (decide (i' = j)) as [->|Hne].
    + rewrite list_lookup_insert_eq by done. intros [= <-]. exists sl. split; [|done]. cbn.
      rewrite sleeps_of_insert. rewrite decide_True by done. apply elem_of_app. right. left.
    + rewrite list_lookup_insert_ne by done. intros Hi'. destruct (I5 _ _ Hi') as (sl' & Hin & Hr).
      exists sl'. split; [|done]. rewrite sleeps_of_insert. case_decide as E; [|done].
      cbn. apply elem_of_app. left. by rewrite <- (task_sleeps _ _ _ Ht), <- E.
  - intros t'. rewrite sleeps_of_insert. case_decide as E; [|done]. cbn [sleeps]. rewrite gens_app, Hone.
    apply NoDup_app. split; [by rewrite <- (task_sleeps _ _ _ Ht)|]. split; [|apply NoDup_singleton].
    intros g Hin ->%list_elem_of_singleton. rewrite <- (task_sleeps _ _ _ Ht) in Hin. apply Hfresh in Hin. lia.
  - intros t1 t2 g. rewrite !sleeps_of_insert. cbn [sleeps]. rewrite <- (task_sleeps _ _ _ Ht).
    repeat case_decide; subst; try done; rewrite ?gens_app, ?Hone, ?elem_of_app, ?list_elem_of_singleton.
    + intros [H1| ->] H2; [by eapply I7|]. apply Hfresh in H2. lia.
    + intros H1 [H2| ->]; [by eapply I7|]. apply Hfresh in H1. lia.
    + apply I7.
  - intros t' k'. destruct (decide (t' = t)) as [->|Hne].
    + rewrite lookup_insert_eq. by intros [= <-].
    + rewrite lookup_insert_ne by done. intros Hk'. eapply (pc_ok_mono s); [|done|by apply I9].
      intros w _. by apply registered_other.
Qed.

(** Dropping a sleep leaves every other registration alone: generations are
    never reused. *)
Lemma gens_delete l i (sl : Sleep) :
  l !! i = Some sl → NoDup (gens l) → NoDup (gens (delete i l)) ∧
  ∀ sl', sl' ∈ delete i l → is_Some (slot sl) → is_Some (slot sl') → sl_generation sl' ≠ sl_generation sl.
Proof.
  intros Hl. rewrite delete_take_drop. rewrite <- (take_drop_middle l i sl Hl) at 1.
  rewrite gens_app. change (sl :: ?x) with ([sl] ++ x). rewrite gens_app. intros Hnd.
  rewrite Permutation_app_swap_app in Hnd. apply NoDup_app in Hnd as (_ & Hd & Hnd).
  rewrite gens_app. split; [done|]. intros sl' Hin Hs Hs' E.
  assert (gens [sl] = [sl_generation sl]) as Hone.
  { unfold gens. by rewrite filter_cons_True. }
  apply (Hd (sl_generation sl)); [rewrite Hone; left|]. rewrite <- gens_app. apply elem_of_gens. by exists sl'.
Qed.

Lemma drop_sleep_eq T sl :
  (∀ i, slot sl = Some i → (i < length T)%nat) →
  ∃ T', drop_sleep T sl = Ret T' ∧ length T' = length T ∧
    (∀ t sl', registered T t sl' → (is_Some (slot sl) → sl_generation sl' ≠ sl_generation sl) → registered T' t sl') ∧
    (∀ i tm, T' !! i = Some (Some tm) → T !! i = Some (Some tm) ∧
       (slot sl = Some i → tm_generation tm ≠ sl_generation sl)).
Proof.
  intros Hlt. unfold drop_sleep. destruct (slot sl) as [i|] eqn:Es.
  2: { exists T. split; [done|]. split; [done|]. split; [auto|]. intros i tm Ht. by split. }
  destruct (lookup_lt_is_Some_2 T i) as [x Hx]; [by apply Hlt|]. rewrite Hx. cbn.
  destruct x as [tm|]; [destruct (tm_generation tm =? sl_generation sl) eqn:Eg|];
    bool_cases; eexists; (split; [done|]).
  - split; [by rewrite length_insert|]. split.
    + intros t sl' (j & Hj & Ht) Hne. exists j. split; [done|]. rewrite list_lookup_insert_ne; [done|].
      intros ->. rewrite Hx in Ht. injection Ht as Ht. apply Hne; [done|]. by rewrite <- Eg, Ht.
    + intros j tm' Ht. apply list_lookup_insert_Some in Ht as [(_ & [=] & _)|[Hne Ht]]. split; [done|]. congruence.
  - split; [done|]. split; [auto|]. intros j tm' Ht. split; [done|]. intros [= ->]. congruence.
  - split; [done|]. split; [auto|]. intros j tm' Ht. split; [done|]. intros [= ->]. congruence.
Qed.

(** What a drop leaves to the others, sleep by sleep. *)
Lemma drop_keeps s t k i sl T' :
  inv s → tasks s !! t = Some k → sleeps k !! i = Some sl →
  (∀ t0 sl', registered (timers s) t0 sl' → (is_Some (slot sl) → sl_generation sl' ≠ sl_generation sl) →
     registered T' t0 sl') →
  ∀ t' sl', sl' ∈ (if decide (t' = t) then delete i (sleeps k) else sleeps_of s t') →
    sl' ∈ sleeps_of s t' ∧ (registered (timers s) t' sl' → registered T' t' sl').
Proof.
  intros Hi Ht Hsl Hkeep t' sl' Hin'. pose proof (task_sleeps _ _ _ Ht) as Hso.
  rewrite <- Hso in Hsl. destruct (gens_delete _ _ _ Hsl (in_nodup _ Hi t)) as [_ Hne].
  case_decide as E; [subst t'; rewrite <- Hso in Hin'|].
  - split; [rewrite delete_take_drop in Hin'; rewrite <- (take_drop_middle _ _ _ Hsl); set_solver|].
    intros Hr. apply Hkeep; [done|]. intros Hs. apply Hne; [done|done|]. by destruct Hr as (j & -> & _).
  - split; [done|]. intros Hr. apply Hkeep; [done|]. intros Hs Eg. apply E.
    apply (in_apart _ Hi t' t (sl_generation sl')); apply elem_of_gens.
    + exists sl'. split; [done|]. split; [|done]. by destruct Hr as (j & -> & _).
    + exists sl. split; [by eapply list_elem_of_lookup_2|done].
Qed.

Lemma inv_drop s t k i sl :
  inv s → tasks s !! t = Some k → pc k = Running → sleeps k !! i = Some sl →
  ∃ T', drop_sleep (timers s) sl = Ret T' ∧
    inv (mkSys (ticks s) T' (generation s) (high_water s) (handlers s)
           (<[t := mkTask (park k) (delete i (sleeps k)) Running]> (tasks s))).
Proof.
  intros Hi Ht Hpc Hsl. pose proof Hi as [I1 I2 I3 I4 I5 I6 I7 I8 I9].
  pose proof (task_sleeps _ _ _ Ht) as Hso.
  pose proof Hsl as Hat. rewrite <- Hso in Hat. pose proof (list_elem_of_lookup_2 _ _ _ Hat) as Hin.
  destruct (gens_delete _ _ _ Hat (I6 t)) as [Hnd _].
  destruct (drop_sleep_eq (timers s) sl) as (T' & HT & Hlen & Hkeep & Hback).
  { intros j Hj. specialize (I4 _ _ Hin). unfold sleep_ok in I4. rewrite Hj in I4. lia. }
  pose proof (drop_keeps s t k i sl T' Hi Ht Hsl Hkeep) as Hold.
  exists T'. split; [done|]. split; cbn; try done.
  - by rewrite Hlen.
  - intros t' sl'. rewrite sleeps_of_insert. intros [Hin' Hr]%Hold. specialize (I4 _ _ Hin').
    unfold sleep_ok in *. destruct (slot sl'); [|done]. destruct I4 as (? & ? & ?). naive_solver.
  - intros j tm Hj. destruct (Hback _ _ Hj) as [Hj' Hg]. destruct (I5 _ _ Hj') as (sl' & Hin' & Hs & Hd & Hgen).
    exists sl'. split; [|done]. rewrite sleeps_of_insert. case_decide as E; [|done]. cbn. rewrite <- Hso.
    rewrite E in Hin'. rewrite <- (take_drop_middle _ _ _ Hat) in Hin'. rewrite delete_take_drop.
    apply elem_of_app. apply elem_of_app in Hin' as [?|[->|?]%elem_of_cons]; [by left| |by right].
    by destruct (Hg Hs).
  - intros t'. rewrite sleeps_of_insert. case_decide; [|done]. cbn [sleeps]. by rewrite <- Hso.
  - intros t1 t2 g. rewrite !sleeps_of_insert. cbn [sleeps]. intros H1 H2. apply (I7 t1 t2 g).
    + apply elem_of_gens in H1 as (x & Hx%Hold & Hr). apply elem_of_gens. exists x. by destruct Hx.
    + apply elem_of_gens in H2 as (x & Hx%Hold & Hr). apply elem_of_gens. exists x. by destruct Hx.
  - intros t' k' Hk'. destruct (decide (t' = t)) as [->|Hn].
    + rewrite lookup_insert_eq in Hk'. injection Hk' as <-. specialize (I9 _ _ Ht). unfold pc_ok in *. by rewrite Hpc in I9.
    + rewrite lookup_insert_ne in Hk' by done. eapply (pc_ok_mono s); [|done|by apply I9].
      intros w Hw. apply Hold. rewrite decide_False by done. by rewrite (task_sleeps _ _ _ Hk').
Qed.

(** The only panic is [sleep_ticks] on a full table. *)
Definition refuses (s : Sys) (l : Label) : Prop :=
  ∃ t k dl, l = LRegister t ∧ tasks s !! t = Some k ∧ pc k = Registering true dl ∧
    ∀ i, (i < CAPACITY)%nat → ∃ tm, timers s !! i = Some (Some tm).

Definition counts_ok (s s' : Sys) : Prop := ticks s' ≤ ticks s + 1 ∧ generation s' ≤ generation s + 1.

Lemma unpark_counts s t : ticks (unpark s t) = ticks s ∧ generation (unpark s t) = generation s.
Proof. unfold unpark. by destruct (tasks s !! t). Qed.

Lemma full_table s : inv s → position (timers s) = None → ∀ i, (i < CAPACITY)%nat → ∃ tm, timers s !! i = Some (Some tm).
Proof.
  intros Hi Hp i Hlt. rewrite <- (in_len _ Hi) in Hlt. destruct (lookup_lt_is_Some_2 _ _ Hlt) as [[tm|] Hx]; [eauto|].
  rewrite position_none in Hp. by destruct (Hp i).
Qed.

Lemma finish_sleep_ok s t k must dl :
  inv s → generation s + 1 < 2 ^ 64 → tasks s !! t = Some k → pc k = Registering must dl →
  match finish_sleep s t k must dl with
  | Ret s' => inv s' ∧ counts_ok s s'
  | Panic => must = true ∧ position (timers s) = None
  end.
Proof.
  intros Hi Hg Ht Hpc. pose proof (in_pc _ Hi _ _ Ht) as Hok. unfold pc_ok in Hok. rewrite Hpc in Hok.
  pose proof (in_gen _ Hi) as Hg0. unfold finish_sleep. destruct (register s t dl) as [[sl s1]|[]] eqn:Er.
  - split; [by eapply inv_register|]. unfold register in Er. destruct (position (timers s)); [|done].
    injection Er as <- <-. unfold counts_ok, wrapping_add. cbn -[Z.pow]. rewrite Z.mod_small; lia.
  - destruct must.
    + split; [done|]. unfold register in Er. by destruct (position (timers s)).
    + split; [|unfold counts_ok; cbn; lia]. by eapply inv_same_sleeps.
Qed.

Lemma inv_handlers s h :
  inv s → (∀ t, waking s t → waking (with_handlers s h) t) →
  (∀ now, Expiring now ∈ h → Expiring now ∈ handlers s) → inv (with_handlers s h).
Proof.
  intros [I1 I2 I3 I4 I5 I6 I7 I8 I9] Hw Hx. split; try done.
  - intros now Hn. by apply I8, Hx.
  - intros t k Hk. specialize (I9 t k Hk). specialize (Hw t). unfold pc_ok in *. cbn. destruct (pc k); naive_solver.
Qed.

Lemma handler_step_ok s i s' :
  inv s → handler_step s i = Some s' → inv s' ∧ counts_ok s s'.
Proof.
  intros Hi. unfold handler_step. destruct (handlers s !! i) as [[now|[|id ids]]|] eqn:Hh; [| | |done].
  - rewrite expire_eq. intros [= <-]. split; [by apply inv_expire|]. unfold counts_ok. cbn. lia.
  - intros [= <-]. split; [|unfold counts_ok; cbn; lia]. apply inv_handlers; [done|..].
    + intros t' (l & Hl & Ht). exists l. split; [|done]. cbn. rewrite delete_take_drop.
      rewrite <- (take_drop_middle _ _ _ Hh) in Hl. apply elem_of_app.
      apply elem_of_app in Hl as [?|[[= ->]|?]%elem_of_cons]; [by left|by apply elem_of_nil in Ht|by right].
    + intros now. rewrite delete_take_drop. intros Hin. rewrite <- (take_drop_middle _ _ _ Hh).
      apply elem_of_app. apply elem_of_app in Hin as [?|?]; [by left|right; by right].
  - intros [= <-]. destruct (unpark_counts (with_handlers s (<[i := Waking ids]> (handlers s))) id) as [E1 E2].
    split; [|unfold counts_ok; rewrite E1, E2; cbn; lia]. apply inv_woken_task; [done|..].
    + intros t' Hne Hw. apply (waking_insert s i (id :: ids)); [by left| |done].
      by intros [?|?]%elem_of_cons.
    + apply expiring_insert.
Qed.

Lemma poll_waits s t k w :
  inv s → tasks s !! t = Some k → first_pending (ticks s) (sleeps k) = Some w →
  w ∈ sleeps k ∧ registered (timers s) t w.
Proof.
  intros Hi Ht. unfold first_pending. destruct (filter _ (sleeps k)) as [|w' ws] eqn:Ef; [done|]. intros [= ->].
  assert (w ∈ filter (λ sl, poll_sleep (ticks s) sl = false) (sleeps k)) as [Hp Hin]%list_elem_of_filter
    by (rewrite Ef; left).
  split; [done|]. rewrite <- (task_sleeps _ _ _ Ht) in Hin. pose proof (in_sleep _ Hi _ _ Hin) as Hsl.
  unfold poll_sleep in Hp. bool_cases. unfold sleep_ok in Hsl.
  destruct (slot w); [|lia]. destruct Hsl as (_ & _ & [?|?]); [done|lia].
Qed.

Lemma park_task_ok s t k w : pc_ok s t k → pc k = Waiting w → pc_ok s t (park_task k w).
Proof.
  intros Hok Hpc. unfold pc_ok in Hok. rewrite Hpc in Hok. destruct Hok as (Hp & Hw & Hreg).
  unfold park_task, Park.park. destruct k as [[p n] sl c]. cbn in *. subst.
  destruct n; cbn; [done|]. split; [done|]. split; [done|]. destruct Hreg as [?|[?|?]]; [by left|by right|done].
Qed.

Lemma timer_step_ok s l o :
  inv s → ticks s + 1 < 2 ^ 64 → generation s + 1 < 2 ^ 64 → exec s l = Some o →
  match o with Ret s' => inv s' ∧ counts_ok s s' | Panic => refuses s l end.
Proof.
  intros Hi Hn Hg. assert (counts_ok s s) as Hc by (unfold counts_ok; lia).
  destruct l as [t|t n must|t|t|t|t i| |i|t]; cbn [exec];
    try (destruct (tasks s !! t) as [k|] eqn:Ht; cbn [mbind option_bind]; [|done]).
  - destruct (tasks s !! t) as [k|] eqn:Ht; [done|]. intros [= <-]. split; [|done].
    apply (inv_task s t _ []); [done| |by intros sl H%elem_of_nil|done]. unfold sleeps_of. by rewrite Ht.
  - destruct (pc k) eqn:Hpc; try done. destruct (0 <=? n); [|done]. intros [= <-]. split; [|done].
    pose proof (in_pc _ Hi _ _ Ht) as Hok. unfold pc_ok in Hok. rewrite Hpc in Hok.
    unfold begin_sleep. destruct (Z.leb_spec (Z.min (ticks s + n) (2 ^ 64 - 1)) (ticks s)).
    + eapply (inv_task s t _ [_]); [done| | |].
      * cbn. by rewrite (task_sleeps _ _ _ Ht).
      * intros sl ->%list_elem_of_singleton. by split.
      * unfold pc_ok. cbn -[Z.pow]. by rewrite Hpc.
    + by eapply inv_same_sleeps.
  - destruct (pc k) as [|must dl| |] eqn:Hpc; try done. intros [= <-].
    pose proof (finish_sleep_ok s t k must dl Hi Hg Ht Hpc) as H.
    destruct (finish_sleep s t k must dl); [done|]. destruct H as [-> Hp]. exists t, k, dl.
    eauto using full_table.
  - destruct (pc k) eqn:Hpc; try done. intros [= <-]. split; [|done].
    pose proof (in_pc _ Hi _ _ Ht) as Hok. unfold pc_ok in Hok. rewrite Hpc in Hok.
    eapply inv_same_sleeps; [done..|]. unfold pc_ok. cbn [pc park sleeps].
    destruct (first_pending _ _) as [w|] eqn:Ef; [|done]. cbn. split; [done|].
    destruct (poll_waits s t k w Hi Ht Ef). auto.
  - destruct (pc k) as [| |w|] eqn:Hpc; try done. intros [= <-]. split; [|done].
    eapply inv_same_sleeps; [done..| |by apply park_task_ok; [apply Hi|]].
    unfold park_task. by destruct (Park.park (park k)) as [[] ?].
  - destruct (pc k) eqn:Hpc; try done. destruct (sleeps k !! i) as [sl|] eqn:Hsl; [|done]. intros [= <-].
    destruct (inv_drop s t k i sl Hi Ht Hpc Hsl) as (T' & -> & Hi'). cbn. split; [done|]. exact Hc.
  - intros [= <-]. destruct (inv_tick s Hi Hn) as (s' & E & Hi'). rewrite E. split; [done|].
    unfold tick in E. rewrite add_chk_ok in E by lia. injection E as <-. unfold counts_ok. cbn. lia.
  - destruct (handler_step s i) as [s'|] eqn:E; [|done]. intros [= <-]. by eapply handler_step_ok.
  - intros [= <-]. destruct (unpark_counts s t) as [E1 E2].
    split; [|unfold counts_ok; rewrite E1, E2; lia].
    assert (s = with_handlers s (handlers s)) as -> by (by destruct s). by apply inv_woken_task.
Qed.

(** ** Every state of a run *)

Definition reaches (ls : list Label) (s : Sys) : Prop :=
  Z.of_nat (length ls) + 1 < 2 ^ 64 ∧ exec_list boot ls = Some s.

Lemma boot_timers_inv : inv boot.
Proof.
  assert (∀ t, sleeps_of boot t = []) as Hs by (intros t; unfold sleeps_of; cbn; by rewrite lookup_empty).
  split; try done.
  - intros t sl. rewrite Hs. by intros H%elem_of_nil.
  - cbn [boot timers]. by intros i tm [? _]%lookup_replicate.
  - intros t. rewrite Hs. apply NoDup_nil_2.
  - intros t t' g. rewrite Hs. by intros H%elem_of_nil.
  - by intros now H%elem_of_nil.
Qed.

Lemma run_timers_inv ls : ∀ s s',
  inv s → ticks s + Z.of_nat (length ls) < 2 ^ 64 → generation s + Z.of_nat (length ls) < 2 ^ 64 →
  exec_list s ls = Some s' →
  inv s' ∧ ticks s' ≤ ticks s + Z.of_nat (length ls) ∧ generation s' ≤ generation s + Z.of_nat (length ls).
Proof.
  induction ls as [|l ls IH]; intros s s' Hi Ht Hg; cbn [exec_list length] in *.
  - intros [= <-]. split; [done|lia].
  - destruct (exec s l) as [o|] eqn:E; [|done]. pose proof (timer_step_ok s l o Hi ltac:(lia) ltac:(lia) E) as Hs.
    destruct o as [s1|]; [|done]. destruct Hs as [Hi1 [Hc1 Hc2]]. intros Hr.
    destruct (IH s1 s' Hi1 ltac:(lia) ltac:(lia) Hr) as (? & ? & ?). split; [done|lia].
Qed.

Lemma reached_inv ls s :
  reaches ls s → inv s ∧ ticks s + 1 < 2 ^ 64 ∧ generation s + 1 < 2 ^ 64.
Proof.
  intros [Hn He].
  destruct (run_timers_inv ls boot s boot_timers_inv ltac:(cbn [boot ticks]; lia) ltac:(cbn [boot generation]; lia) He) as (? & H1 & H2).
  cbn [boot ticks generation] in H1, H2. split; [done|lia].
Qed.

(** ** Theorems *)

(** C19: A thread asleep in [block_on] is never stranded. In every state a
    run reaches, under any interleaving of threads and of timer interrupts
    on several processors, a parked sleeper's registration is still in the
    table or a timer interrupt has it on its list of threads to wake; an
    interrupt whose tick has reached the deadline puts it on that list; and
    delivering the wake makes it run again. *)
Theorem sleepers_are_never_stranded ls s t k w :
  reaches ls s → tasks s !! t = Some k → pc k = Blocked w →
  (registered (timers s) t w ∨ waking s t) ∧
  (∀ i now s', handlers s !! i = Some (Expiring now) → deadline w ≤ now →
     step s (LHandler i) s' → waking s' t) ∧
  ∀ i ids s', handlers s !! i = Some (Waking (t :: ids)) → step s (LHandler i) s' →
    ∃ k', tasks s' !! t = Some k' ∧ pc k' = Running.
Proof.
  intros (Hi & _)%reached_inv Ht Hpc. pose proof (in_pc _ Hi _ _ Ht) as Hok. unfold pc_ok in Hok.
  rewrite Hpc in Hok. destruct Hok as (Hp & _ & Hreg). split; [done|]. split.
  - intros i now s' Hh Hd. unfold step. cbn. unfold handler_step. rewrite Hh, expire_eq. cbn. intros [= <-].
    destruct Hreg as [(j & Hj & Hreg)|Hw].
    + eexists. split; [apply list_elem_of_lookup; exists i; apply list_lookup_insert_eq; by eapply lookup_lt_Some|].
      apply list_elem_of_omap. eexists. split; [by eapply list_elem_of_lookup_2|]. apply woken_some. eauto.
    + apply (waking_insert s i []); [by right; exists now|by intros H%elem_of_nil|done].
  - intros i ids s' Hh. unfold step. cbn. unfold handler_step. rewrite Hh. cbn. intros [= <-].
    unfold unpark. cbn. rewrite Ht. exists (wake_task k). split; [apply lookup_insert_eq|].
    unfold wake_task, Park.wake. by rewrite Hp.
Qed.

(** The timer interrupt wakes exactly the threads whose deadline has
    passed, in slot order and at most [CAPACITY] of them, empties their
    slots, and touches no other. *)
Theorem expire_wakes_exactly_the_due now T woken T' :
  expire_timers now T = (woken, T') →
  (length woken ≤ length T)%nat ∧ length T' = length T ∧
  woken = tm_thread <$> omap (λ x, if due now x then x else None) T ∧
  ∀ i, T' !! i = (λ x, if due now x then None else x) <$> T !! i.
Proof.
  rewrite expire_eq. intros [= <- <-]. rewrite length_fmap. split; [|split; [done|]].
  { induction T as [|x T IH]; cbn; [done|]. destruct (woken_by now x); cbn; lia. }
  split; [|intros i; apply list_lookup_fmap].
  induction T as [|[t|] T IH]; [done|..]; cbn; unfold woken_by at 1; cbn; [|done].
  destruct (tm_deadline t <=? now); cbn; by rewrite IH.
Qed.

(** Dropping a sleep releases its own slot and no other. Every other
    live sleep that was registered still is, even one that has since taken
    the slot the dropped sleep once had; and every slot in use belongs to a
    sleep that is still alive, so abandoned sleeps leak nothing. *)
Theorem drop_releases_only_its_own ls s t i s' :
  reaches ls s → step s (LDrop t i) s' →
  (∀ t' sl, sl ∈ sleeps_of s' t' → registered (timers s) t' sl → registered (timers s') t' sl) ∧
  (∀ j tm, timers s' !! j = Some (Some tm) → timers s !! j = Some (Some tm) ∧ timer_ok s' j tm).
Proof.
  intros (Hi & Hn & Hg)%reached_inv Hst. pose proof (timer_step_ok _ _ _ Hi Hn Hg Hst) as [Hi' _].
  unfold step in Hst. cbn in Hst. destruct (tasks s !! t) as [k|] eqn:Ht; [|done]. cbn in Hst.
  destruct (pc k) eqn:Hpc; try done. destruct (sleeps k !! i) as [sl|] eqn:Hsl; [|done].
  destruct (drop_sleep_eq (timers s) sl) as (T' & HT & _ & Hkeep & Hback).
  { intros j Hj. rewrite (in_len _ Hi). pose proof (in_sleep _ Hi t sl) as H. unfold sleep_ok in H. rewrite Hj in H.
    apply H. rewrite (task_sleeps _ _ _ Ht). by eapply list_elem_of_lookup_2. }
  rewrite HT in Hst. injection Hst as <-. split.
  - intros t' sl'. rewrite sleeps_of_insert. apply (drop_keeps s t k i sl T' Hi Ht Hsl Hkeep).
  - intros j tm Hj. split; [by apply Hback|]. by apply (in_timer _ Hi').
Qed.

(** A sleep is refused exactly when all [CAPACITY] slots are in use,
    and then changes nothing; [sleep_ticks] panics exactly then, and nothing
    else in the timer code panics. Otherwise the lowest free slot is taken
    and the generation is new. *)
Theorem sleep_refused_only_when_full ls s t dl :
  reaches ls s →
  (register s t dl = Err Full ↔ ∀ j, (j < CAPACITY)%nat → ∃ tm, timers s !! j = Some (Some tm)) ∧
  (∀ sl s', register s t dl = Ok (sl, s') →
     registered (timers s') t sl ∧ deadline sl = dl ∧
     ∀ t' sl', sl' ∈ sleeps_of s t' → is_Some (slot sl') → sl_generation sl' ≠ sl_generation sl) ∧
  ∀ l, exec s l = Some Panic ↔ refuses s l.
Proof.
  intros (Hi & Hn & Hg)%reached_inv.
  assert (register s t dl = Err Full ↔ position (timers s) = None) as Hfull.
  { unfold register. by destruct (position (timers s)). }
  assert (position (timers s) = None ↔ ∀ j, (j < CAPACITY)%nat → ∃ tm, timers s !! j = Some (Some tm)) as Hpos.
  { split; [by apply full_table|]. intros Hall. apply position_none. intros i Hx.
    pose proof (lookup_lt_Some _ _ _ Hx) as Hlt. rewrite (in_len _ Hi) in Hlt.
    destruct (Hall i Hlt). congruence. }
  split; [by rewrite Hfull|]. split.
  - intros sl s'. unfold register. destruct (position (timers s)) as [j|] eqn:Ej; [|done]. intros [= <- <-].
    destruct (position_some _ _ Ej) as [Hj _]. split; [|split; [done|]].
    + exists j. split; [done|]. apply list_lookup_insert_eq. by eapply lookup_lt_Some.
    + intros t' sl' Hin [x Hx]. pose proof (in_sleep _ Hi _ _ Hin) as H. unfold sleep_ok in H. rewrite Hx in H. cbn. lia.
  - intros l. split; [apply (timer_step_ok s l Panic Hi Hn Hg)|]. intros (t0 & k & dl0 & -> & Ht & Hpc & Hall). cbn.
    rewrite Ht. cbn. rewrite Hpc. unfold finish_sleep, register. apply Hpos in Hall. by rewrite Hall.
Qed.

(** ** Concrete runs *)

(** Threads 7 and 8 sleep for 2 ticks and for 3; 7 is parked. *)
Definition asleep : list Label :=
  [LSpawn 7; LSpawn 8; LSleep 7 2 true; LRegister 7; LSleep 8 3 false; LRegister 8; LPoll 7; LPark 7].
Definition after (ls : list Label) : Sys := default boot (exec_list boot ls).

Lemma reaches_after_run ls :
  bool_decide (Z.of_nat (length ls) + 1 < 2 ^ 64) = true → is_Some (exec_list boot ls) → reaches ls (after ls).
Proof. intros Hn%bool_decide_eq_true [s Hs]. split; [done|]. unfold after. by rewrite Hs. Qed.

Ltac runs := apply reaches_after_run; [vm_compute; reflexivity | vm_compute; eexists; reflexivity].

Lemma sleepers_are_never_stranded_witness :
  waking (after (asleep ++ [LTick; LHandler 0; LHandler 0; LTick; LHandler 0])) 7.
Proof.
  pose (ls := asleep ++ [LTick; LHandler 0; LHandler 0; LTick]).
  destruct (sleepers_are_never_stranded ls (after ls) 7 (mkTask (Park.mkPark true false) [mkSleep 2 (Some 0%nat) 0]
    (Blocked (mkSleep 2 (Some 0%nat) 0))) (mkSleep 2 (Some 0%nat) 0)) as (_ & H & _).
  - runs.
  - vm_compute. reflexivity.
  - reflexivity.
  - apply (H 0%nat 2); [vm_compute; reflexivity|discriminate|vm_compute; reflexivity].
Defined.

Lemma expire_wakes_exactly_the_due_witness :
  length (expire_timers 2 (timers (after asleep))).2 = CAPACITY.
Proof.
  destruct (expire_wakes_exactly_the_due 2 (timers (after asleep)) [7] (expire_timers 2 (timers (after asleep))).2)
    as (_ & H & _); [vm_compute; reflexivity|]. rewrite H. vm_compute. reflexivity.
Defined.

Lemma drop_releases_only_its_own_witness :
  registered (timers (after (asleep ++ [LDrop 8 0]))) 7 (mkSleep 2 (Some 0%nat) 0).
Proof.
  destruct (drop_releases_only_its_own asleep (after asleep) 8 0 (after (asleep ++ [LDrop 8 0]))) as [H _].
  - runs.
  - vm_compute. reflexivity.
  - apply H; [vm_compute; left|]. exists 0%nat. split; [reflexivity|vm_compute; reflexivity].
Defined.

Lemma sleep_refused_only_when_full_witness :
  register (after asleep) 9 50 ≠ Err Full.
Proof.
  intros H. destruct (sleep_refused_only_when_full asleep (after asleep) 9 50) as [[Hf _] _]; [runs|].
  destruct (Hf H 5%nat) as [tm Htm]; [vm_compute; lia|]. vm_compute in Htm. discriminate Htm.
Defined.
