(* ===== verification/Locks.v ===== *)
(** The spin locks: [crates/qunix-sync/src/lib.rs], with the [IrqControl]
    the kernel gives them ([crates/qunix-hal-x86_64/src/lib.rs], the lock
    depth of [tlb.rs]).

    A processor runs a stack of contexts, the thread at the bottom and the
    interrupt handlers that landed on it above; only the top one runs.  Each
    context has the guards it holds, newest first, and where it is inside a
    lock operation.  One step is one atomic access.  [detect] says whether
    the build has the [deadlock-panic] feature. *)
From S2P Require Import Prelude Bits.

Definition DEADLOCK_SPINS : Z := 20000000.
Definition NO_OWNER : Z := 2 ^ 32 - 2.

(** [SpinLock] has no owner word, [IrqSpinLock] has one. *)
Record Lock := mkLock { locked : bool; irq : bool; owner : Z }.

(** [SpinLockGuard], [IrqSpinLockGuard], and an interrupt state saved by
    hand with [disable_and_save]. *)
Inductive Guard :=
  | GPlain (l : nat)
  | GIrq (l : nat) (was_enabled : bool)
  | GMask (was_enabled : bool).

Inductive Pc :=
  | Idle
  | PTry (l : nat) | PSpin (l : nat) (spins : Z) | PTryOnce (l : nat)
  | Trying (l : nat) (was : bool) (spins watched : Z)
  | Watching (l : nat) (was : bool) (spins watched : Z)
  | TryOnce (l : nat) (was : bool)
  | Got (l : nat) (was : bool) | Entering (l : nat) (was : bool)
  | Clearing (l : nat) (was : bool) | Leaving (l : nat) (was : bool) | Releasing (l : nat) (was : bool)
  | Restoring (was : bool).

Record Context := mkCtx { held : list Guard; pc : Pc }.
Record Cpu := mkCpu { if_flag : bool; lock_depth : Z; top : Context; below : list Context }.
Record Sys := mkSys { detect : bool; locks : list Lock; cpus : list Cpu }.

Definition set_locked (lk : Lock) (b : bool) : Lock := mkLock b (irq lk) (owner lk).
Definition set_owner (lk : Lock) (o : Z) : Lock := mkLock (locked lk) (irq lk) o.

Definition at_pc (k : Cpu) (p : Pc) : Cpu := mkCpu (if_flag k) (lock_depth k) (mkCtx (held (top k)) p) (below k).
Definition with_if (k : Cpu) (b : bool) : Cpu := mkCpu b (lock_depth k) (top k) (below k).
Definition with_held (k : Cpu) (h : list Guard) (p : Pc) : Cpu :=
  mkCpu (if_flag k) (lock_depth k) (mkCtx h p) (below k).

(** ** [Irq]: the kernel's [IrqControl] *)

Definition disable_and_save (k : Cpu) : bool * Cpu := (if_flag k, with_if k false).

Definition restore (det : bool) (k : Cpu) (was : bool) : outcome Cpu :=
  _ ← rust_assert (negb det || negb was || (lock_depth k =? 0));
  Ret (if was then with_if k true else k).

Definition entered_lock (k : Cpu) : Cpu :=
  mkCpu (if_flag k) (wrapping_add 32 (lock_depth k) 1) (top k) (below k).
Definition left_lock (k : Cpu) : Cpu :=
  mkCpu (if_flag k) (wrapping_sub 32 (lock_depth k) 1) (top k) (below k).
Definition cpu_index (c : nat) : Z := Z.of_nat c.

(** ** [SpinLock] *)

(** [try_lock]'s compare-exchange. *)
Definition try_lock (lk : Lock) : option Lock :=
  if locked lk then None else Some (set_locked lk true).
Definition unlock (lk : Lock) : Lock := set_locked lk false.

(** One turn of [SpinLock::lock]'s inner loop. *)
Definition spin (det : bool) (lk : Lock) (l : nat) (spins : Z) : outcome Pc :=
  if locked lk then
    if det then _ ← rust_assert (spins + 1 <? DEADLOCK_SPINS); Ret (PSpin l (spins + 1))
    else Ret (PSpin l spins)
  else Ret (PTry l).

(** ** [IrqSpinLock] *)

(** The watch on the owner word in [IrqSpinLock::lock]. *)
Definition watch (det : bool) (lk : Lock) (l : nat) (was : bool) (spins watched : Z) : outcome Pc :=
  if det then
    let o := owner lk in
    let '(watched, spins) := if negb (o =? watched) then (o, 0) else (watched, spins) in
    let spins := spins + 1 in
    _ ← rust_assert (negb ((DEADLOCK_SPINS <=? spins) && negb (o =? NO_OWNER)));
    Ret (Trying l was spins watched)
  else Ret (Trying l was spins watched).

(** The next access of the running context: what it does to the lock it is
    working on, and to the processor. *)
Definition micro (det : bool) (c : nat) (lk : Lock) (k : Cpu) : outcome (Lock * Cpu) :=
  let h := held (top k) in
  match pc (top k) with
  | Idle | Restoring _ => Ret (lk, k)
  | PTry l =>
      match try_lock lk with
      | Some lk' => Ret (lk', with_held k (GPlain l :: h) Idle)
      | None => Ret (lk, at_pc k (PSpin l 0))
      end
  | PSpin l n => p ← spin det lk l n; Ret (lk, at_pc k p)
  | PTryOnce l =>
      match try_lock lk with
      | Some lk' => Ret (lk', with_held k (GPlain l :: h) Idle)
      | None => Ret (lk, at_pc k Idle)
      end
  | Trying l was n w =>
      match try_lock lk with
      | Some lk' => Ret (lk', at_pc k (Got l was))
      | None => Ret (lk, at_pc k (Watching l was n w))
      end
  | Watching l was n w => p ← watch det lk l was n w; Ret (lk, at_pc k p)
  | TryOnce l was =>
      match try_lock lk with
      | Some lk' => Ret (lk', at_pc k (Got l was))
      | None => Ret (lk, at_pc k (Restoring was))
      end
  | Got l was => Ret (set_owner lk (cpu_index c), at_pc k (Entering l was))
  | Entering l was => Ret (lk, with_held (entered_lock k) (GIrq l was :: h) Idle)
  | Clearing l was => Ret (set_owner lk NO_OWNER, at_pc k (Leaving l was))
  | Leaving l was => Ret (lk, at_pc (left_lock k) (Releasing l was))
  | Releasing l was => Ret (unlock lk, at_pc k (Restoring was))
  end.

Definition pc_lock (p : Pc) : option nat :=
  match p with
  | Idle | Restoring _ => None
  | PTry l | PSpin l _ | PTryOnce l | Trying l _ _ _ | Watching l _ _ _ | TryOnce l _
  | Got l _ | Entering l _ | Clearing l _ | Leaving l _ | Releasing l _ => Some l
  end.

(** ** Steps *)

Inductive Label :=
  | LLock (c l : nat) | LTryLock (c l : nat) | LStep (c : nat) | LDrop (c i : nat)
  | LMask (c : nat) | LIrq (c : nat) | LIret (c : nat).

Definition set_cpu (s : Sys) (c : nat) (k : Cpu) : Sys := mkSys (detect s) (locks s) (<[c := k]> (cpus s)).

Definition is_idle (k : Cpu) : bool := match pc (top k) with Idle => true | _ => false end.

(** The start of [lock] and of [try_lock]: an [IrqSpinLock] masks first. *)
Definition start (k : Cpu) (lk : Lock) (l : nat) (once : bool) : Cpu :=
  if irq lk then
    let '(was, k') := disable_and_save k in
    at_pc k' (if once then TryOnce l was else Trying l was 0 NO_OWNER)
  else at_pc k (if once then PTryOnce l else PTry l).

Definition exec (s : Sys) (lb : Label) : option (outcome Sys) :=
  match lb with
  | LLock c l =>
      k ← cpus s !! c; lk ← locks s !! l;
      if is_idle k then Some (Ret (set_cpu s c (start k lk l false))) else None
  | LTryLock c l =>
      k ← cpus s !! c; lk ← locks s !! l;
      if is_idle k then Some (Ret (set_cpu s c (start k lk l true))) else None
  | LStep c =>
      k ← cpus s !! c;
      match pc (top k) with
      | Idle => None
      | Restoring was => Some (k' ← restore (detect s) k was; Ret (set_cpu s c (at_pc k' Idle)))
      | p =>
          l ← pc_lock p; lk ← locks s !! l;
          Some ('(lk', k') ← micro (detect s) c lk k;
                Ret (mkSys (detect s) (<[l := lk']> (locks s)) (<[c := k']> (cpus s))))
      end
  | LDrop c i =>
      k ← cpus s !! c;
      if is_idle k then
        match held (top k) !! i with
        | Some (GPlain l) =>
            lk ← locks s !! l;
            Some (Ret (mkSys (detect s) (<[l := unlock lk]> (locks s))
                         (<[c := with_held k (delete i (held (top k))) Idle]> (cpus s))))
        | Some (GIrq l was) => Some (Ret (set_cpu s c (with_held k (delete i (held (top k))) (Clearing l was))))
        | Some (GMask was) => Some (Ret (set_cpu s c (with_held k (delete i (held (top k))) (Restoring was))))
        | None => None
        end
      else None
  | LMask c =>
      k ← cpus s !! c;
      if is_idle k then
        let '(was, k') := disable_and_save k in
        Some (Ret (set_cpu s c (with_held k' (GMask was :: held (top k)) Idle)))
      else None
  | LIrq c =>
      k ← cpus s !! c;
      if if_flag k then Some (Ret (set_cpu s c (mkCpu false (lock_depth k) (mkCtx [] Idle) (top k :: below k))))
      else None
  | LIret c =>
      k ← cpus s !! c;
      match is_idle k, held (top k), below k with
      | true, [], f :: rest => Some (Ret (set_cpu s c (mkCpu true (lock_depth k) f rest)))
      | _, _, _ => None
      end
  end.

Definition step (s : Sys) (lb : Label) (s' : Sys) : Prop := exec s lb = Some (Ret s').

(** Locks of the given kinds, and [n] processors. *)
Definition boot (det : bool) (kinds : list bool) (n : nat) : Sys :=
  mkSys det ((λ b, mkLock false b NO_OWNER) <$> kinds)
    (replicate n (mkCpu true 0 (mkCtx [] Idle) [])).

Fixpoint exec_list (s : Sys) (ls : list Label) : option Sys :=
  match ls with
  | [] => Some s
  | l :: ls' => match exec s l with Some (Ret s') => exec_list s' ls' | _ => None end
  end.

(** ** Who holds what *)

Definition guard_locks (g : Guard) : list nat :=
  match g with GPlain l | GIrq l _ => [l] | GMask _ => [] end.
Definition pc_locks (p : Pc) : list nat :=
  match p with Got l _ | Entering l _ | Clearing l _ | Leaving l _ | Releasing l _ => [l] | _ => [] end.
Definition ctx_locks (f : Context) : list nat := pc_locks (pc f) ++ (held f ≫= guard_locks).
Definition cpu_locks (k : Cpu) : list nat := ctx_locks (top k) ++ (below k ≫= ctx_locks).
Definition all_locks (ks : list Cpu) : list nat := ks ≫= cpu_locks.

(** The locks whose owner word names this processor. *)
Definition guard_owned (g : Guard) : list nat := match g with GIrq l _ => [l] | _ => [] end.
Definition pc_owned (p : Pc) : list nat := match p with Entering l _ | Clearing l _ => [l] | _ => [] end.
Definition ctx_owned (f : Context) : list nat := pc_owned (pc f) ++ (held f ≫= guard_owned).
Definition cpu_owned (k : Cpu) : list nat := ctx_owned (top k) ++ (below k ≫= ctx_owned).

Record inv (s : Sys) : Prop := {
  in_nodup : NoDup (all_locks (cpus s));
  in_valid : ∀ l, l ∈ all_locks (cpus s) → (l < length (locks s))%nat;
  in_locked : ∀ l lk, locks s !! l = Some lk → (locked lk = true ↔ l ∈ all_locks (cpus s));
  in_owner : ∀ l lk c k, locks s !! l = Some lk → cpus s !! c = Some k → l ∈ cpu_owned k → owner lk = cpu_index c;
  in_free : ∀ l lk, locks s !! l = Some lk → (∀ c k, cpus s !! c = Some k → l ∉ cpu_owned k) → owner lk = NO_OWNER
}.

Lemma all_locks_at ks c k :
  ks !! c = Some k → ∃ R, all_locks ks ≡ₚ cpu_locks k ++ R ∧ ∀ k', all_locks (<[c := k']> ks) ≡ₚ cpu_locks k' ++ R.
Proof.
  intros Hk. exists (all_locks (take c ks ++ drop (S c) ks)). unfold all_locks.
  split; [rewrite <- (take_drop_middle ks c k Hk) at 1|intros k'; rewrite insert_take_drop by by eapply lookup_lt_Some];
    rewrite !bind_app; cbn; apply Permutation_app_swap_app.
Qed.

Lemma in_cpu_locks ks c k l : ks !! c = Some k → l ∈ cpu_locks k → l ∈ all_locks ks.
Proof. intros Hk Hl. apply list_elem_of_bind. exists k. split; [done|]. by eapply list_elem_of_lookup_2. Qed.

Lemma all_locks_spec ks l : l ∈ all_locks ks ↔ ∃ c k, ks !! c = Some k ∧ l ∈ cpu_locks k.
Proof.
  split; [|intros (c & k & ? & ?); by eapply in_cpu_locks].
  intros (k & Hl & [c Hk]%list_elem_of_lookup_1)%list_elem_of_bind. by exists c, k.
Qed.

Lemma owned_locks k l : l ∈ cpu_owned k → l ∈ cpu_locks k.
Proof.
  assert (∀ g, l ∈ guard_owned g → l ∈ guard_locks g) as Hg by (intros []; set_solver).
  assert (∀ f, l ∈ ctx_owned f → l ∈ ctx_locks f) as Hf.
  { intros f. unfold ctx_owned, ctx_locks. rewrite !elem_of_app, !list_elem_of_bind.
    intros [H|(g & H & ?)]; [left; destruct (pc f); set_solver|right; eauto]. }
  unfold cpu_owned, cpu_locks. rewrite !elem_of_app, !list_elem_of_bind. intros [H|(f & H & ?)]; eauto.
Qed.

Lemma bind_unique {A B} (f : A → list B) ks c c' k k' x :
  NoDup (ks ≫= f) → ks !! c = Some k → ks !! c' = Some k' → x ∈ f k → x ∈ f k' → c = c'.
Proof.
  revert c c'. induction ks as [|a ks IH]; [done|]. cbn. intros c c' (_ & Hd & Hnd)%NoDup_app.
  assert (∀ i b, ks !! i = Some b → x ∈ f b → x ∉ f a) as Ha.
  { intros i b Hb Hx Hx'. apply (Hd x Hx'). apply list_elem_of_bind. exists b. split; [done|].
    by eapply list_elem_of_lookup_2. }
  destruct c as [|c], c' as [|c']; cbn; intros Hc Hc' Hx Hx'; simplify_eq; [done|..].
  - by destruct (Ha _ _ Hc' Hx').
  - by destruct (Ha _ _ Hc Hx).
  - f_equal. by eapply IH.
Qed.

(** What a step does to the locks a processor holds, and to the owner word
    of the lock it works on. *)
Definition holds_move (k k' : Cpu) (l : nat) (lk lk' : Lock) : Prop :=
  (cpu_locks k' ≡ₚ cpu_locks k) ∧ locked lk' = locked lk ∨
  locked lk = false ∧ locked lk' = true ∧ (cpu_locks k' ≡ₚ l :: cpu_locks k) ∨
  locked lk' = false ∧ (cpu_locks k ≡ₚ l :: cpu_locks k').
Definition owner_move (c : nat) (k k' : Cpu) (l : nat) (lk lk' : Lock) : Prop :=
  owner lk' = owner lk ∧ (l ∈ cpu_owned k' ↔ l ∈ cpu_owned k) ∨
  l ∈ cpu_locks k ∧ l ∈ cpu_owned k' ∧ owner lk' = cpu_index c ∨
  l ∈ cpu_locks k ∧ (l ∉ cpu_owned k') ∧ owner lk' = NO_OWNER.

Section Update.
Context (s : Sys) (c : nat) (k k' : Cpu) (l : nat) (lk lk' : Lock).
Context (Hi : inv s) (Hk : cpus s !! c = Some k) (Hlk : locks s !! l = Some lk).
Context (Hhold : holds_move k k' l lk lk').
Context (Hother : ∀ x, x ≠ l → x ∈ cpu_owned k' ↔ x ∈ cpu_owned k).
Context (Hown : owner_move c k k' l lk lk').
Let s' := mkSys (detect s) (<[l := lk']> (locks s)) (<[c := k']> (cpus s)).

Lemma update_holds :
  NoDup (all_locks (cpus s')) ∧
  ∀ x y, locks s' !! x = Some y → (locked y = true ↔ x ∈ all_locks (cpus s')).
Proof.
  destruct (all_locks_at _ _ _ Hk) as (R & H1 & H2). specialize (H2 k'). pose proof (in_nodup _ Hi) as Hnd.
  pose proof (in_locked _ Hi) as Hlo. cbn. rewrite H2. setoid_rewrite H2. rewrite H1 in Hnd.
  setoid_rewrite H1 in Hlo. pose proof (Hlo l lk Hlk) as Hl.
  assert (∀ x y, <[l := lk']> (locks s) !! x = Some y → x = l ∧ y = lk' ∨ x ≠ l ∧ locks s !! x = Some y) as Hget.
  { intros x y Hx. apply list_lookup_insert_Some in Hx as [(-> & -> & _)|[? ?]]; auto. }
  destruct Hhold as [[Hp He]|[(Hf & Ht & Hp)|[Hf Hp]]].
  - rewrite Hp. split; [done|]. setoid_rewrite Hp. intros x y [[-> ->]|[_ Hx]]%Hget; [by rewrite He|eauto].
  - rewrite Hp. cbn. assert (l ∉ cpu_locks k ++ R) as Hn by (rewrite <- Hl; congruence).
    split; [by constructor|]. setoid_rewrite Hp. intros x y [[-> ->]|[Hne Hx]]%Hget; cbn; rewrite elem_of_cons.
    + rewrite Ht. naive_solver.
    + rewrite (Hlo x y Hx). naive_solver.
  - rewrite Hp in Hnd. cbn in Hnd. apply NoDup_cons in Hnd as [Hn Hnd]. split; [done|].
    intros x y [[-> ->]|[Hne Hx]]%Hget.
    + rewrite Hf. naive_solver.
    + rewrite (Hlo x y Hx), Hp. cbn. rewrite elem_of_cons. naive_solver.
Qed.

(** A lock this processor holds is no other's. *)
Lemma update_alone c0 k0 : c0 ≠ c → cpus s !! c0 = Some k0 → l ∈ cpu_locks k → l ∉ cpu_owned k0.
Proof.
  intros Hne Hk0 Hl Ho%owned_locks. apply Hne. by eapply (bind_unique cpu_locks); [apply Hi|..].
Qed.

Lemma update_valid x : x ∈ all_locks (cpus s') → (x < length (locks s'))%nat.
Proof.
  destruct (all_locks_at _ _ _ Hk) as (R & H1 & H2). cbn. rewrite H2, length_insert. pose proof (in_valid _ Hi) as Hv.
  setoid_rewrite H1 in Hv. pose proof (lookup_lt_Some _ _ _ Hlk) as Hl.
  destruct Hhold as [[Hp _]|[(_ & _ & Hp)|[_ Hp]]].
  - rewrite Hp. apply Hv.
  - rewrite Hp. cbn. intros [->|Hx]%elem_of_cons; [done|by apply Hv].
  - intros Hx. apply Hv. rewrite Hp. cbn. by right.
Qed.

Lemma inv_update : inv s'.
Proof.
  destruct update_holds as [U1 U2]. split; [done|exact update_valid|done|..]; subst s'; cbn.
  - intros x y c0 k0 Hx Hc0 Hin. apply list_lookup_insert_Some in Hx as [(<- & <- & _)|[Hnx Hx]].
    + apply list_lookup_insert_Some in Hc0 as [(<- & <- & _)|[Hnc Hc0]].
      * destruct Hown as [[-> Ho]|[(_ & _ & ->)|(_ & Hn & _)]]; [|done|done].
        eapply (in_owner _ Hi); [done..|]. by apply Ho.
      * destruct Hown as [[-> _]|[(Hl & _)|(Hl & _)]]; [by eapply (in_owner _ Hi)| |];
          by destruct (update_alone c0 k0).
    + apply list_lookup_insert_Some in Hc0 as [(<- & <- & _)|[Hnc Hc0]]; [|by eapply (in_owner _ Hi)].
      eapply (in_owner _ Hi); [done..|]. apply Hother; [done|]. done.
  - intros x y Hx Hno. assert (∀ c0 k0, cpus s !! c0 = Some k0 → c0 ≠ c → x ∉ cpu_owned k0) as Hno'.
    { intros c0 k0 Hc0 Hne. apply (Hno c0). by rewrite list_lookup_insert_ne. }
    assert (x ∉ cpu_owned k') as Hnk.
    { apply (Hno c). apply list_lookup_insert_eq. by eapply lookup_lt_Some. }
    assert (x ∉ cpu_owned k → ∀ c0 k0, cpus s !! c0 = Some k0 → x ∉ cpu_owned k0) as Hall.
    { intros Hx0 c0 k0 Hc0. destruct (decide (c0 = c)) as [->|]; [congruence|eauto]. }
    apply list_lookup_insert_Some in Hx as [(<- & <- & _)|[Hnx Hx]].
    + destruct Hown as [[-> Ho]|[(_ & Hin & _)|(_ & _ & ->)]]; [|done|done].
      eapply (in_free _ Hi); [done|]. apply Hall. by rewrite <- Ho.
    + eapply (in_free _ Hi); [done|]. apply Hall. rewrite <- Hother; done.
Qed.
End Update.

Lemma inv_lock_cpu s c k k' :
  inv s → cpus s !! c = Some k → cpu_locks k' ≡ₚ cpu_locks k → (∀ x, x ∈ cpu_owned k' ↔ x ∈ cpu_owned k) →
  inv (set_cpu s c k').
Proof.
  intros Hi Hk Hp Ho. destruct (all_locks_at _ _ _ Hk) as (R & H1 & H2). specialize (H2 k'). rewrite Hp, <- H1 in H2.
  destruct Hi as [I1 I0 I2 I3 I4]. split; cbn.
  - by rewrite H2.
  - setoid_rewrite H2. done.
  - setoid_rewrite H2. done.
  - intros x y c0 k0 Hx Hc0 Hin. apply list_lookup_insert_Some in Hc0 as [(<- & <- & _)|[Hn Hc0]]; [|eauto].
    eapply I3; [done..|]. by apply Ho.
  - intros x y Hx Hno. apply (I4 x y Hx). intros c0 k0 Hc0. destruct (decide (c0 = c)) as [->|Hne].
    + assert (k0 = k) as -> by congruence. rewrite <- Ho. apply (Hno c). apply list_lookup_insert_eq.
      by eapply lookup_lt_Some.
    + apply (Hno c0). by rewrite list_lookup_insert_ne.
Qed.

(** ** Every step keeps it *)

Lemma delete_bind {B} (f : Guard → list B) h i g :
  h !! i = Some g → h ≫= f ≡ₚ f g ++ (delete i h ≫= f).
Proof.
  intros Hg. rewrite delete_take_drop. rewrite <- (take_drop_middle h i g Hg) at 1. rewrite !bind_app. cbn.
  apply Permutation_app_swap_app.
Qed.

(** The moves of one access, by where the context is. *)
Lemma micro_moves det c lk k l lk' k' :
  NoDup (cpu_locks k) → pc_lock (pc (top k)) = Some l → micro det c lk k = Ret (lk', k') →
  holds_move k k' l lk lk' ∧ (∀ x, x ≠ l → x ∈ cpu_owned k' ↔ x ∈ cpu_owned k) ∧ owner_move c k k' l lk lk'.
Proof.
  intros Hnd. pose proof (owned_locks (at_pc k Idle) l) as Hsub. revert Hnd Hsub.
  destruct k as [b d [h p] bl], lk as [lo ir ow].
  unfold at_pc, micro, holds_move, owner_move, cpu_locks, cpu_owned, ctx_locks, ctx_owned, try_lock, spin, watch.
  destruct p; cbn -[Z.leb Z.ltb Z.eqb]; intros Hnd Hsub [= ->] Hm; try done;
    repeat (case_match; try done; simplify_eq); inv_ret; simplify_eq; cbn;
    (split; [first [left; split; reflexivity | right; left; done | right; right; split; reflexivity]|]);
    (split; [set_solver|]);
    first [left; split; [reflexivity|set_solver]
          | right; left; split; [left|split; [left|reflexivity]]
          | right; right; split; [left|split; [|reflexivity]]].
  apply NoDup_cons in Hnd as [Hn _]. auto.
Qed.

Lemma start_locks k lk l once :
  is_idle k = true → cpu_locks (start k lk l once) = cpu_locks k ∧ cpu_owned (start k lk l once) = cpu_owned k.
Proof.
  destruct k as [b d [h p] bl]. unfold is_idle, start, cpu_locks, cpu_owned, ctx_locks, ctx_owned. cbn.
  destruct p; try done. by destruct (irq lk), once.
Qed.

Lemma drop_moves k i g :
  is_idle k = true → held (top k) !! i = Some g →
  cpu_locks k ≡ₚ guard_locks g ++ cpu_locks (with_held k (delete i (held (top k))) Idle) ∧
  ∀ x, x ∈ cpu_owned k ↔ x ∈ guard_owned g ∨ x ∈ cpu_owned (with_held k (delete i (held (top k))) Idle).
Proof.
  destruct k as [b d [h p] bl]. unfold is_idle, cpu_locks, cpu_owned, ctx_locks, ctx_owned. cbn.
  destruct p; try done. intros _ Hg. cbn. split.
  - rewrite (delete_bind _ _ _ _ Hg). by rewrite <- app_assoc.
  - intros x. rewrite (delete_bind guard_owned _ _ _ Hg), !elem_of_app. tauto.
Qed.

Lemma cpu_nodup s c k : inv s → cpus s !! c = Some k → NoDup (cpu_locks k).
Proof.
  intros Hi Hk. destruct (all_locks_at _ _ _ Hk) as (R & H1 & _). pose proof (in_nodup _ Hi) as Hnd.
  rewrite H1 in Hnd. by apply NoDup_app in Hnd as [? _].
Qed.

Lemma lock_step_inv s lb s' : inv s → step s lb s' → inv s'.
Proof.
  intros Hi. unfold step. destruct lb as [c l|c l|c|c i|c|c|c]; cbn [exec];
    destruct (cpus s !! c) as [k|] eqn:Hk; cbn [mbind option_bind]; try done.
  - destruct (locks s !! l) as [lk|]; [|done]. cbn. destruct (is_idle k) eqn:Ei; [|done]. intros [= <-].
    destruct (start_locks k lk l false Ei) as [E1 E2]. eapply inv_lock_cpu; [done..|by rewrite E1|by rewrite E2].
  - destruct (locks s !! l) as [lk|]; [|done]. cbn. destruct (is_idle k) eqn:Ei; [|done]. intros [= <-].
    destruct (start_locks k lk l true Ei) as [E1 E2]. eapply inv_lock_cpu; [done..|by rewrite E1|by rewrite E2].
  - assert (∀ l, pc_lock (pc (top k)) = Some l →
      (lk ← locks s !! l; Some ('(lk', k') ← micro (detect s) c lk k;
         Ret (mkSys (detect s) (<[l := lk']> (locks s)) (<[c := k']> (cpus s))))) = Some (Ret s') → inv s') as Hm.
    { intros l Hl Hs. destruct (locks s !! l) as [lk|] eqn:Hlk; [|done]. cbn in Hs. injection Hs as Hs.
      apply bind_ret_inv in Hs as ([lk' k'] & Hm & Hs). injection Hs as <-.
      destruct (micro_moves _ _ _ _ _ _ _ (cpu_nodup _ _ _ Hi Hk) Hl Hm) as (? & ? & ?). by eapply inv_update. }
    destruct (pc (top k)) eqn:Ep; try done; try (cbn [pc_lock mbind option_bind] in *; intros Hs; by eapply Hm).
    intros Hs. injection Hs as Hs. inv_ret. subst s'. unfold restore in *. inv_ret. subst.
    assert (∀ b, cpu_locks (at_pc (with_if k b) Idle) = cpu_locks k ∧ cpu_owned (at_pc (with_if k b) Idle) = cpu_owned k) as Hr.
    { intros b. unfold cpu_locks, cpu_owned, ctx_locks, ctx_owned. cbn. by rewrite Ep. }
    destruct was.
    + destruct (Hr true) as [E1 E2]. eapply inv_lock_cpu; [done..|by rewrite E1|by rewrite E2].
    + destruct (Hr (if_flag k)) as [E1 E2]. destruct k. eapply inv_lock_cpu; [done..| |].
      * by rewrite <- E1.
      * by rewrite <- E2.
  - destruct (is_idle k) eqn:Ei; [|done]. destruct (held (top k) !! i) as [g|] eqn:Hg; [|done].
    destruct (drop_moves k i g Ei Hg) as [D1 D2]. destruct g as [l|l was|was].
    + destruct (locks s !! l) as [lk|] eqn:Hlk; [|done]. cbn. intros [= <-].
      eapply (inv_update s c k _ l lk); [done..| | |].
      * right. right. split; [done|]. by rewrite D1.
      * intros x _. rewrite D2. set_solver.
      * left. split; [done|]. rewrite D2. set_solver.
    + intros [= <-]. eapply inv_lock_cpu; [done..| |].
      * by rewrite D1.
      * intros x. rewrite D2. unfold cpu_owned, ctx_owned. cbn. set_solver.
    + intros [= <-]. eapply inv_lock_cpu; [done..| |].
      * by rewrite D1.
      * intros x. rewrite D2. set_solver.
  - destruct (is_idle k) eqn:Ei; [|done]. intros [= <-].
    eapply inv_lock_cpu; [done..| |]; unfold is_idle, cpu_locks, cpu_owned, ctx_locks, ctx_owned in *; destruct (pc (top k)); done.
  - destruct (if_flag k); [|done]. intros [= <-]. by eapply inv_lock_cpu.
  - destruct (is_idle k) eqn:Ei; [|done]. destruct (held (top k)) eqn:Eh; [|done]. destruct (below k) as [|f rest] eqn:Eb; [done|].
    intros [= <-]. unfold is_idle in Ei. destruct (pc (top k)) eqn:Ep; try done.
    eapply inv_lock_cpu; [done..| |]; unfold cpu_locks, cpu_owned, ctx_locks, ctx_owned; rewrite Ep, Eh, Eb; done.
Qed.

(** ** Masking *)

Definition guard_mask (g : Guard) : list bool :=
  match g with GIrq _ was | GMask was => [was] | GPlain _ => [] end.
Definition pc_mask (p : Pc) : list bool :=
  match p with
  | Trying _ was _ _ | Watching _ was _ _ | TryOnce _ was | Got _ was | Entering _ was
  | Clearing _ was | Leaving _ was | Releasing _ was | Restoring was => [was]
  | _ => []
  end.

(** The interrupt states a context has saved and not restored, newest first. *)
Definition masks (f : Context) : list bool := pc_mask (pc f) ++ (held f ≫= guard_mask).

(** Only the oldest can say that interrupts were on. *)
Fixpoint nested (ms : list bool) : Prop :=
  match ms with
  | [] => True
  | b :: ms' => (b = true → ms' = []) ∧ nested ms'
  end.

(** What [LOCK_DEPTH] counts. *)
Definition pc_depth (p : Pc) : list nat := match p with Clearing l _ | Leaving l _ => [l] | _ => [] end.
Definition counted (f : Context) : list nat := pc_depth (pc f) ++ (held f ≫= guard_owned).

Record masked (k : Cpu) : Prop := {
  mk_below : ∀ f, f ∈ below k → masks f = [];
  mk_on : if_flag k = true → masks (top k) = [];
  mk_nested : nested (masks (top k));
  mk_depth : lock_depth k = Z.of_nat (length (counted (top k)))
}.

Lemma calm_held h : h ≫= guard_mask = [] → h ≫= guard_owned = [].
Proof. induction h as [|[l|l b|b] h IH]; cbn; [done|exact IH|done|done]. Qed.

Lemma counted_le k : (length (counted (top k)) ≤ length (cpu_locks k))%nat.
Proof.
  unfold counted, cpu_locks, ctx_locks. rewrite !length_app.
  assert (∀ h, length (h ≫= guard_owned) ≤ length (h ≫= guard_locks))%nat as Hh.
  { induction h as [|[l|l b|b] h IH]; cbn; lia. }
  specialize (Hh (held (top k))). assert (length (pc_depth (pc (top k))) ≤ length (pc_locks (pc (top k))))%nat
    by (destruct (pc (top k)); cbn; lia). lia.
Qed.

Lemma depth_bound s c k : inv s → cpus s !! c = Some k → (length (counted (top k)) ≤ length (locks s))%nat.
Proof.
  intros Hi Hk. etransitivity; [apply counted_le|]. destruct (all_locks_at _ _ _ Hk) as (R & H1 & _).
  pose proof (in_nodup _ Hi) as Hnd. pose proof (in_valid _ Hi) as Hv. rewrite <- (length_seq (length (locks s)) 0).
  etransitivity; [|apply submseteq_length, (NoDup_submseteq (all_locks (cpus s))); [done|]].
  - rewrite H1, length_app. lia.
  - intros l Hl. apply elem_of_seq. specialize (Hv l Hl). lia.
Qed.

Lemma micro_masked det c lk k lk' k' :
  masked k → Z.of_nat (length (counted (top k'))) < 2 ^ 32 → pc_lock (pc (top k)) ≠ None →
  micro det c lk k = Ret (lk', k') → masked k'.
Proof.
  intros [M1 M2 M3 M4] Hb Hp Hm. destruct k as [b d [h p] bl]. cbn in *. unfold masks, counted in *. cbn in *.
  unfold micro, spin, watch in Hm. cbn -[Z.leb Z.ltb Z.eqb] in Hm.
  destruct p; try done; repeat (case_match; try done; simplify_eq); inv_ret; simplify_eq; cbn in *;
    split; unfold masks, counted; cbn; try done; try (intros E; by apply M2 in E).
  - unfold wrapping_add. rewrite Z.mod_small; lia.
  - unfold wrapping_sub. rewrite Z.mod_small; lia.
Qed.

(** Guards are dropped in the reverse of the order they were taken in. *)
Definition lifo (lb : Label) : Prop := match lb with LDrop _ (S _) => False | _ => True end.

Lemma save_masked k p h :
  masked k → is_idle k = true → pc_mask p ++ (h ≫= guard_mask) = if_flag k :: masks (top k) →
  pc_depth p ++ (h ≫= guard_owned) = counted (top k) →
  masked (mkCpu false (lock_depth k) (mkCtx h p) (below k)).
Proof.
  intros [M1 M2 M3 M4] Hp E1 E2. split; cbn; [done|done| |].
  - unfold masks at 1. cbn. rewrite E1. cbn. auto.
  - unfold counted at 1. cbn. by rewrite E2.
Qed.

Lemma start_masked k lk l once : masked k → is_idle k = true → masked (start k lk l once).
Proof.
  intros Hm Hp. unfold start. destruct (irq lk).
  - destruct k as [b d [h p] bl]. cbn. apply (save_masked (mkCpu b d (mkCtx h p) bl)); [done|done|..]; destruct p; try done; by destruct once.
  - destruct Hm as [M1 M2 M3 M4], k as [b d [h p] bl]. unfold is_idle, masks, counted in *. cbn in *.
    destruct p; try done. by destruct once.
Qed.

Lemma restore_ok det k was :
  masked k → pc (top k) = Restoring was →
  ∃ k', restore det k was = Ret k' ∧ masked (at_pc k' Idle).
Proof.
  intros [M1 M2 M3 M4] Hp. unfold masks, counted in *. rewrite Hp in *. cbn in *. destruct M3 as [M3 M3'].
  unfold restore. destruct was; cbn.
  - rewrite M4, (calm_held _ (M3 eq_refl)). cbn. rewrite orb_true_r. cbn. eexists. split; [done|].
    split; unfold masks, counted; cbn; rewrite ?M3, ?calm_held by auto; auto; [done|].
    by rewrite M4, calm_held by auto.
  - rewrite orb_true_r. cbn. eexists. split; [done|].
    split; unfold masks, counted; cbn; [done| |done|done]. intros E. by apply M2 in E.
Qed.

Lemma drop_masked k g h :
  masked k → is_idle k = true → held (top k) = g :: h →
  masked (with_held k h (match g with GPlain _ => Idle | GIrq l was => Clearing l was | GMask was => Restoring was end)).
Proof.
  intros [M1 M2 M3 M4] Hp Hh. destruct k as [b d [h' p] bl]. unfold is_idle, masks, counted in *. cbn in *. subst h'.
  destruct p; try done. split; unfold masks, counted; cbn; [done|..]; by destruct g.
Qed.

Definition good (s : Sys) : Prop :=
  inv s ∧ Z.of_nat (length (locks s)) < 2 ^ 32 ∧ ∀ c k, cpus s !! c = Some k → masked k.

Lemma masked_set (ks : list Cpu) (c : nat) k' :
  (∀ c0 k0, ks !! c0 = Some k0 → masked k0) → masked k' →
  ∀ c0 k0, <[c := k']> ks !! c0 = Some k0 → masked k0.
Proof. intros H Hk c0 k0 [(_ & <- & _)|[_ ?]]%list_lookup_insert_Some; eauto. Qed.

Lemma step_masked s lb s' :
  good s → lifo lb → step s lb s' → ∀ c k, cpus s' !! c = Some k → masked k.
Proof.
  intros (Hi & Hn & Hm) Hl Hs. pose proof (lock_step_inv _ _ _ Hi Hs) as Hi'. revert Hs. unfold step.
  destruct lb as [c l|c l|c|c i|c|c|c]; cbn [exec];
    destruct (cpus s !! c) as [k|] eqn:Hk; cbn [mbind option_bind]; try done; pose proof (Hm c k Hk) as Hmk.
  - destruct (locks s !! l) as [lk|]; [|done]. cbn. destruct (is_idle k) eqn:Ei; [|done]. intros [= <-].
    apply masked_set; [done|by apply start_masked].
  - destruct (locks s !! l) as [lk|]; [|done]. cbn. destruct (is_idle k) eqn:Ei; [|done]. intros [= <-].
    apply masked_set; [done|by apply start_masked].
  - assert (∀ l, pc_lock (pc (top k)) = Some l →
      (lk ← locks s !! l; Some ('(lk', k') ← micro (detect s) c lk k;
         Ret (mkSys (detect s) (<[l := lk']> (locks s)) (<[c := k']> (cpus s))))) = Some (Ret s') →
      ∀ c0 k0, cpus s' !! c0 = Some k0 → masked k0) as Hmi.
    { intros l Hpl Hs. destruct (locks s !! l) as [lk|] eqn:Hlk; [|done]. cbn in Hs. injection Hs as Hs.
      apply bind_ret_inv in Hs as ([lk' k'] & Hmic & Hs). injection Hs as <-. apply masked_set; [done|].
      eapply micro_masked; [exact Hmk| |by rewrite Hpl|exact Hmic].
      assert (length (counted (top k')) ≤ length (locks s))%nat; [|lia].
      rewrite <- (length_insert (locks s) l lk'). eapply (depth_bound _ c _ Hi'). cbn.
      apply list_lookup_insert_eq. by eapply lookup_lt_Some. }
    destruct (pc (top k)) as [| | | | | | | | | | | |was] eqn:Ep; try done;
      try (cbn [pc_lock mbind option_bind] in *; intros Hs; by eapply Hmi).
    destruct (restore_ok (detect s) k was Hmk Ep) as (k' & -> & Hk'). intros [= <-]. by apply masked_set.
  - destruct (is_idle k) eqn:Ei; [|done]. destruct i as [|i]; [|done].
    destruct (held (top k)) as [|g h] eqn:Hh; [done|]. cbn [lookup list_lookup].
    pose proof (drop_masked k g h Hmk Ei Hh) as Hd. destruct g as [l|l was|was].
    + destruct (locks s !! l) as [lk|]; [|done]. intros [= <-]. by apply masked_set.
    + intros [= <-]. by apply masked_set.
    + intros [= <-]. by apply masked_set.
  - destruct (is_idle k) eqn:Ei; [|done]. intros [= <-]. apply masked_set; [done|].
    destruct k as [b d [h p] bl]. apply (save_masked (mkCpu b d (mkCtx h p) bl)); [done|done|..]; by destruct p.
  - destruct (if_flag k) eqn:Ef; [|done]. intros [= <-]. apply masked_set; [done|].
    destruct Hmk as [M1 M2 M3 M4]. split; cbn; try done; [|].
    + intros f [->|Hf]%elem_of_cons; [by apply M2|by apply M1].
    + rewrite M4. specialize (M2 Ef). unfold masks, counted in *. apply app_eq_nil in M2 as [M2 M2'].
      rewrite (calm_held _ M2'). by destruct (pc (top k)).
  - destruct (is_idle k) eqn:Ei; [|done]. destruct (held (top k)) eqn:Eh; [|done]. destruct (below k) as [|f rest] eqn:Eb; [done|].
    intros [= <-]. apply masked_set; [done|]. destruct Hmk as [M1 M2 M3 M4]. rewrite Eb in M1.
    assert (masks f = []) as Hf by (apply M1; left). split; cbn; [|done|by rewrite Hf|].
    + intros f' Hf'. apply M1. by right.
    + rewrite M4. unfold is_idle, masks, counted in *. rewrite Eh. apply app_eq_nil in Hf as [Hf Hf'].
      rewrite (calm_held _ Hf'). destruct (pc (top k)); try done. by destruct (pc f).
Qed.

(** ** Every state of a run *)

Definition reaches (det : bool) (kinds : list bool) (n : nat) (ls : list Label) (s : Sys) : Prop :=
  Z.of_nat (length kinds) < 2 ^ 32 ∧ exec_list (boot det kinds n) ls = Some s.

Lemma boot_locks det kinds n : all_locks (cpus (boot det kinds n)) = [].
Proof. unfold boot, all_locks. cbn [cpus]. by induction n. Qed.

Lemma boot_good det kinds n : Z.of_nat (length kinds) < 2 ^ 32 → good (boot det kinds n).
Proof.
  intros Hk.
  assert (∀ c k, cpus (boot det kinds n) !! c = Some k → k = mkCpu true 0 (mkCtx [] Idle) []) as Hc.
  { cbn [boot cpus]. by intros c k [-> _]%lookup_replicate. }
  assert (∀ l lk, locks (boot det kinds n) !! l = Some lk → locked lk = false ∧ owner lk = NO_OWNER) as Hl.
  { cbn [boot locks]. intros l lk. rewrite list_lookup_fmap. by destruct (kinds !! l); intros [= <-]. }
  split; [split|split].
  - rewrite boot_locks. apply NoDup_nil_2.
  - rewrite boot_locks. by intros l H%elem_of_nil.
  - intros l lk Hlk. rewrite boot_locks, elem_of_nil. destruct (Hl _ _ Hlk) as [-> _]. naive_solver.
  - intros l lk c k _ ->%Hc. by intros H%elem_of_nil.
  - intros l lk Hlk _. by apply (Hl l).
  - cbn [boot locks]. by rewrite length_fmap.
  - intros c k ->%Hc. split; try done. by intros f H%elem_of_nil.
Qed.

Lemma step_shape s lb s' : step s lb s' → length (locks s') = length (locks s) ∧ detect s' = detect s.
Proof.
  unfold step. destruct lb as [c l|c l|c|c i|c|c|c]; cbn [exec]; intros H; simplify_option_eq; try done.
  all: repeat (case_match; simplify_option_eq; try done); inv_ret; repeat (case_match; simplify_eq; inv_ret; try done);
    subst; cbn; by rewrite ?length_insert.
Qed.

Lemma run_locks ls : ∀ s s',
  inv s → exec_list s ls = Some s' → inv s' ∧ (good s → Forall lifo ls → good s').
Proof.
  induction ls as [|l ls IH]; intros s s' Hi; cbn [exec_list].
  - by intros [= <-].
  - destruct (exec s l) as [[s1|]|] eqn:E; try done. intros Hr. pose proof (lock_step_inv _ _ _ Hi E) as Hi1.
    destruct (IH s1 s' Hi1 Hr) as [Hi' Hg']. split; [done|]. intros Hg Hl. apply Forall_cons in Hl as [Hl Hls].
    apply Hg'; [|done]. split; [done|]. split; [|by eapply step_masked].
    destruct (step_shape _ _ _ E) as [-> _]. apply Hg.
Qed.

Lemma reached_locks det kinds n ls s :
  reaches det kinds n ls s → inv s ∧ (Forall lifo ls → good s).
Proof.
  intros [Hk Hr]. pose proof (boot_good det kinds n Hk) as Hg.
  destruct (run_locks ls _ _ (proj1 Hg) Hr) as [Hi Hgo]. auto.
Qed.

(** ** The kind of a lock *)

(** The locks a context has, or is after, as plain [SpinLock]s; and the
    [IrqSpinLock] it is after. *)
Definition guard_plain (g : Guard) : list nat := match g with GPlain l => [l] | _ => [] end.
Definition pc_plain (p : Pc) : list nat := match p with PTry l | PSpin l _ | PTryOnce l => [l] | _ => [] end.
Definition ctx_plain (f : Context) : list nat := pc_plain (pc f) ++ (held f ≫= guard_plain).
Definition cpu_plain (k : Cpu) : list nat := ctx_plain (top k) ++ (below k ≫= ctx_plain).
Definition awaits (p : Pc) : option nat :=
  match p with Trying l _ _ _ | Watching l _ _ _ | TryOnce l _ => Some l | _ => None end.

Lemma cpu_plain_in k f l : f = top k ∨ f ∈ below k → l ∈ ctx_plain f → l ∈ cpu_plain k.
Proof. unfold cpu_plain. rewrite elem_of_app, list_elem_of_bind. intros [->|Hf]; eauto. Qed.

(** With no interrupt state saved, all that is held is plain. *)
Lemma calm_locks f : masks f = [] → ∀ l, l ∈ ctx_locks f → l ∈ ctx_plain f.
Proof.
  intros [Hp Hh]%app_eq_nil l. unfold ctx_locks, ctx_plain. rewrite !elem_of_app, !list_elem_of_bind.
  intros [H|(g & Hg & Hin)]; [destruct (pc f); by try apply elem_of_nil in H|].
  right. exists g. split; [|done]. destruct g as [x|x b|b]; [done| |by apply elem_of_nil in Hg].
  assert (b ∈ held f ≫= guard_mask) as Hb by (apply list_elem_of_bind; exists (GIrq x b); split; [left|done]).
  rewrite Hh in Hb. by apply elem_of_nil in Hb.
Qed.

(** Plain guards are of plain locks, and masked waits are for the others. *)
Definition kinded_cpu (s : Sys) (k : Cpu) : Prop :=
  (∀ l, l ∈ cpu_plain k → ∃ lk, locks s !! l = Some lk ∧ irq lk = false) ∧
  (∀ f l, f = top k ∨ f ∈ below k → awaits (pc f) = Some l → ∃ lk, locks s !! l = Some lk ∧ irq lk = true).
Definition kinded (s : Sys) : Prop := ∀ c k, cpus s !! c = Some k → kinded_cpu s k.

(** A step moves one processor, and leaves every lock of its kind. *)
Definition kind_move (s : Sys) (k k' : Cpu) : Prop :=
  (∀ l, l ∈ cpu_plain k' → l ∈ cpu_plain k ∨ ∃ lk, locks s !! l = Some lk ∧ irq lk = false) ∧
  (∀ f l, f = top k' ∨ f ∈ below k' → awaits (pc f) = Some l →
    (∃ f0, (f0 = top k ∨ f0 ∈ below k) ∧ awaits (pc f0) = Some l) ∨ ∃ lk, locks s !! l = Some lk ∧ irq lk = true).

(** A processor whose running context only changed in what it holds or does. *)
Lemma top_move s k k' :
  below k' = below k →
  (∀ l, l ∈ ctx_plain (top k') → l ∈ ctx_plain (top k) ∨ ∃ lk, locks s !! l = Some lk ∧ irq lk = false) →
  (∀ l, awaits (pc (top k')) = Some l → awaits (pc (top k)) = Some l ∨ ∃ lk, locks s !! l = Some lk ∧ irq lk = true) →
  kind_move s k k'.
Proof.
  intros Eb Hp Ha. unfold kind_move, cpu_plain. rewrite Eb. split.
  - intros l. rewrite !elem_of_app. intros [H|H]; [|tauto]. destruct (Hp l H); tauto.
  - intros f l [->|Hf] Hl; [|by left; exists f; auto]. destruct (Ha l Hl); eauto.
Qed.

Lemma micro_kind s det c l lk k lk' k' :
  pc_lock (pc (top k)) = Some l → micro det c lk k = Ret (lk', k') → irq lk' = irq lk ∧ kind_move s k k'.
Proof.
  intros Hl Hm. unfold micro, spin, watch, try_lock in Hm. destruct k as [b d [h p] bl]. cbn in *.
  destruct p; try done; simplify_eq/=; repeat (case_match; try done; simplify_eq); inv_ret; simplify_eq;
    (split; [done|apply top_move; [done|..]; intros x; unfold ctx_plain; cbn; rewrite ?elem_of_cons; naive_solver]).
Qed.

Lemma start_kind s k lk l once : locks s !! l = Some lk → is_idle k = true → kind_move s k (start k lk l once).
Proof.
  intros Hlk Hi. unfold start, is_idle in *. destruct k as [b d [h p] bl]. cbn in *. destruct p; try done.
  destruct (irq lk) eqn:Ei, once; (apply top_move; [done|..]); intros x; unfold ctx_plain; cbn; rewrite ?elem_of_cons;
    intros H; simplify_eq; eauto; destruct H as [->|H]; eauto.
Qed.

(** A context that is at rest afterwards, with guards it had. *)
Lemma rest_kind s k i g b d p :
  held (top k) !! i = Some g → pc_plain p = [] → awaits p = None →
  kind_move s k (mkCpu b d (mkCtx (delete i (held (top k))) p) (below k)).
Proof.
  intros Hg Hp Ha. apply top_move; [done|..]; cbn; unfold ctx_plain; cbn; rewrite ?Hp, ?Ha; [|done].
  intros l. cbn. rewrite (delete_bind guard_plain _ _ _ Hg), !elem_of_app. auto.
Qed.

Lemma step_kind s lb s' : step s lb s' → ∃ c k k',
  cpus s !! c = Some k ∧ cpus s' = <[c := k']> (cpus s) ∧ kind_move s k k' ∧
  ∀ l lk, locks s !! l = Some lk → ∃ lk', locks s' !! l = Some lk' ∧ irq lk' = irq lk.
Proof.
  assert (∀ x y y', locks s !! x = Some y → irq y' = irq y → ∀ l lk, locks s !! l = Some lk →
    ∃ lk', <[x := y']> (locks s) !! l = Some lk' ∧ irq lk' = irq lk) as Hput.
  { intros x y y' Hx E l lk Hlk. destruct (decide (x = l)) as [->|Hne]; [|exists lk; by rewrite list_lookup_insert_ne].
    exists y'. rewrite list_lookup_insert_eq by by eapply lookup_lt_Some. by simplify_eq. }
  unfold step. destruct lb as [c l|c l|c|c i|c|c|c]; cbn [exec];
    destruct (cpus s !! c) as [k|] eqn:Hk; cbn [mbind option_bind]; try done.
  - destruct (locks s !! l) as [lk|] eqn:Hlk; [|done]. cbn. destruct (is_idle k) eqn:Ei; [|done]. intros [= <-].
    eexists c, k, _. repeat split; try done; [by apply start_kind..|eauto].
  - destruct (locks s !! l) as [lk|] eqn:Hlk; [|done]. cbn. destruct (is_idle k) eqn:Ei; [|done]. intros [= <-].
    eexists c, k, _. repeat split; try done; [by apply start_kind..|eauto].
  - intros H. destruct (pc_lock (pc (top k))) as [l|] eqn:El.
    + assert ((lk ← locks s !! l; Some ('(lk', k') ← micro (detect s) c lk k;
         Ret (mkSys (detect s) (<[l := lk']> (locks s)) (<[c := k']> (cpus s))))) = Some (Ret s')) as Hs.
      { destruct (pc (top k)); try done; cbn in El; by simplify_eq. }
      clear H. destruct (locks s !! l) as [lk|] eqn:Hlk; [|done]. cbn in Hs. injection Hs as Hs.
      apply bind_ret_inv in Hs as ([lk' k'] & Hm & Hs). injection Hs as <-.
      destruct (micro_kind s _ _ _ _ _ _ _ El Hm) as [Ek Hmv]. eexists c, k, k'. split; [done|]. split; [done|]. split; [done|].
      cbn. by eapply Hput.
    + destruct (pc (top k)) eqn:Ep; try done. injection H as H. inv_ret. subst s'. unfold restore in *. inv_ret. subst.
      eexists c, k, _. split; [done|]. split; [done|]. split; [|eauto].
      destruct was; (apply top_move; [done|..]); intros x; unfold ctx_plain; cbn; rewrite ?Ep; auto.
  - destruct (is_idle k) eqn:Ei; [|done]. destruct (held (top k) !! i) as [g|] eqn:Hg; [|done]. destruct g as [l|l was|was].
    + destruct (locks s !! l) as [lk|] eqn:Hlk; [|done]. cbn. intros [= <-].
      eexists c, k, _. split; [done|]. split; [done|]. split; [by eapply rest_kind|]. cbn. by eapply Hput.
    + intros [= <-]. eexists c, k, _. split; [done|]. split; [done|]. split; [by eapply rest_kind|eauto].
    + intros [= <-]. eexists c, k, _. split; [done|]. split; [done|]. split; [by eapply rest_kind|eauto].
  - destruct (is_idle k) eqn:Ei; [|done]. intros [= <-]. eexists c, k, _. split; [done|]. split; [done|]. split; [|eauto].
    apply top_move; [done|..]; intros x; unfold ctx_plain, is_idle in *; cbn; [|done].
    intros H. left. apply elem_of_app. by right.
  - destruct (if_flag k); [|done]. intros [= <-]. eexists c, k, _. split; [done|]. split; [done|]. split; [|eauto].
    split; [intros x H; by left|]. cbn. intros f x [->|[->|Hf]%elem_of_cons] Hx; [done| |]; left; eauto.
  - destruct (is_idle k) eqn:Ei; [|done]. destruct (held (top k)) eqn:Eh; [|done]. destruct (below k) as [|f rest] eqn:Eb; [done|].
    intros [= <-]. eexists c, k, _. split; [done|]. split; [done|]. split; [|eauto]. split.
    + intros x H. left. unfold cpu_plain in *. rewrite Eb. cbn in *. apply elem_of_app. by right.
    + rewrite Eb. cbn. intros f0 x H Hx. left. exists f0. split; [|done]. right. apply elem_of_cons. destruct H; auto.
Qed.

Lemma step_kinded s lb s' : kinded s → step s lb s' → kinded s'.
Proof.
  intros Hkd Hs c k Hk. destruct (step_kind _ _ _ Hs) as (c0 & k0 & k1 & Hk0 & Ec & [Hp Ha] & Hl).
  assert (∀ l b, (∃ lk, locks s !! l = Some lk ∧ irq lk = b) → ∃ lk, locks s' !! l = Some lk ∧ irq lk = b) as Hup.
  { intros l b (lk & Hlk & <-). by apply Hl. }
  rewrite Ec in Hk. apply list_lookup_insert_Some in Hk as [(-> & -> & _)|[_ Hk]].
  - destruct (Hkd _ _ Hk0) as [K1 K2]. split; [intros l Hin|intros f l Hf Hw]; apply Hup.
    + destruct (Hp l Hin); eauto.
    + destruct (Ha f l Hf Hw) as [(f0 & Hf0 & Hw0)|]; eauto.
  - destruct (Hkd _ _ Hk) as [K1 K2]. split; eauto.
Qed.

Lemma reached_kinds det kinds n ls s c k :
  reaches det kinds n ls s → cpus s !! c = Some k → kinded_cpu s k.
Proof.
  intros [_ Hr]. assert (kinded (boot det kinds n)) as Hb.
  { intros c0 k0 [-> _]%lookup_replicate. split; cbn; [by intros l ?%elem_of_nil|]. by intros f l [->|?%elem_of_nil]. }
  revert Hb Hr. generalize (boot det kinds n). induction ls as [|lb ls IH]; intros s0 H0 Hr; cbn [exec_list] in Hr.
  - injection Hr as <-. apply H0.
  - destruct (exec s0 lb) as [[s1|]|] eqn:E; try done. eapply IH; [|done]. by eapply step_kinded.
Qed.

(** ** Theorems *)

(** C17: Mutual exclusion, on any number of processors and under any
    interleaving with interrupt handlers. The word of a lock is set exactly
    while some processor has the lock: a guard of one of its contexts, or a
    lock or drop under way past the exchange. No two processors have one
    lock, and no two contexts or guards of one processor do. *)
Theorem locks_exclude_each_other det kinds n ls s :
  reaches det kinds n ls s →
  (∀ l lk, locks s !! l = Some lk → locked lk = true ↔ ∃ c k, cpus s !! c = Some k ∧ l ∈ cpu_locks k) ∧
  (∀ l c c' k k', cpus s !! c = Some k → cpus s !! c' = Some k' → l ∈ cpu_locks k → l ∈ cpu_locks k' → c = c') ∧
  (∀ c k, cpus s !! c = Some k → NoDup (cpu_locks k) ∧ ∀ l, l ∈ cpu_locks k → is_Some (locks s !! l)).
Proof.
  intros [Hi _]%reached_locks. split; [|split].
  - intros l lk Hlk. by rewrite (in_locked _ Hi l lk Hlk), all_locks_spec.
  - intros l c c' k k' Hk Hk' Hl Hl'. by eapply (bind_unique cpu_locks); [apply Hi|..].
  - intros c k Hk. split; [by eapply cpu_nodup|]. intros l Hl.
    by apply lookup_lt_is_Some_2, (in_valid _ Hi), (in_cpu_locks _ c k).
Qed.

(** The owner word of an [IrqSpinLock] names the processor whose guard
    is alive, and says [NO_OWNER] whenever the lock is free. *)
Theorem owner_word_names_the_holder det kinds n ls s c k f l was lk :
  reaches det kinds n ls s → cpus s !! c = Some k → f = top k ∨ f ∈ below k →
  locks s !! l = Some lk →
  (GIrq l was ∈ held f → owner lk = cpu_index c) ∧ (locked lk = false → owner lk = NO_OWNER).
Proof.
  intros [Hi _]%reached_locks Hk Hf Hlk. split.
  - intros Hg. eapply (in_owner _ Hi); [done..|].
    assert (l ∈ ctx_owned f) as Ho.
    { unfold ctx_owned. rewrite elem_of_app. right. apply list_elem_of_bind. exists (GIrq l was). split; [left|done]. }
    unfold cpu_owned. rewrite elem_of_app, list_elem_of_bind. destruct Hf as [->|Hf]; eauto.
  - intros Hfree. apply (in_free _ Hi l); [done|]. intros c0 k0 Hk0 Ho%owned_locks.
    pose proof (in_cpu_locks _ _ _ _ Hk0 Ho) as Hin. apply (in_locked _ Hi l lk Hlk) in Hin. congruence.
Qed.

(** C18: While guards are dropped in reverse order, interrupts stay masked
    from before an [IrqSpinLock] is taken until after its word is clear.
    Where they are enabled the running context has none, neither a guard nor
    a lock or drop under way; no context interrupted underneath has one; so
    the lock a context waits for with interrupts masked is never held
    beneath it on its own processor. The assertion in [restore] never fires. *)
Theorem interrupts_stay_masked_under_a_lock det kinds n ls s c k :
  reaches det kinds n ls s → Forall lifo ls → cpus s !! c = Some k →
  (∀ l lk, locks s !! l = Some lk → irq lk = true →
    (if_flag k = true → l ∉ ctx_locks (top k)) ∧ (∀ f, f ∈ below k → l ∉ ctx_locks f)) ∧
  (∀ l, awaits (pc (top k)) = Some l → if_flag k = false ∧ ∀ f, f ∈ below k → l ∉ ctx_locks f) ∧
  (∀ was, pc (top k) = Restoring was → exec s (LStep c) ≠ Some Panic).
Proof.
  intros Hr Hl Hk. destruct (reached_kinds _ _ _ _ _ _ _ Hr Hk) as [Hkp Hki]. apply reached_locks in Hr as [_ Hg].
  destruct (Hg Hl) as (_ & _ & Hm). pose proof (Hm c k Hk) as Hmk.
  assert (∀ f l lk, f = top k ∨ f ∈ below k → masks f = [] → locks s !! l = Some lk → irq lk = true → l ∉ ctx_locks f) as Hno.
  { intros f l lk Hf Hn Hlk Hirq Hin. apply (calm_locks _ Hn) in Hin.
    destruct (Hkp l) as (lk' & Hlk' & E); [by eapply cpu_plain_in|congruence]. }
  split; [|split].
  - intros l lk Hlk Hirq. split; [intros Hif|intros f Hf]; (eapply Hno; [|..|done|done]); [by left| |by right|].
    + by apply (mk_on _ Hmk).
    + by apply (mk_below _ Hmk).
  - intros l Hw. destruct (Hki (top k) l (or_introl eq_refl) Hw) as (lk & Hlk & Hirq). split.
    + destruct (if_flag k) eqn:E; [|done]. apply (mk_on _ Hmk) in E. unfold masks in E.
      by destruct (pc (top k)).
    + intros f Hf. eapply Hno; [by right|by apply (mk_below _ Hmk)|done|done].
  - intros was Hp. cbn. rewrite Hk. cbn. rewrite Hp. destruct (restore_ok (detect s) k was Hmk Hp) as (k' & -> & _). done.
Qed.

(** A failed [IrqSpinLock::try_lock] leaves no trace: the processor is
    back where it was, interrupt flag included. *)
Theorem failed_try_lock_leaves_no_trace det kinds n ls s c k l lk :
  reaches det kinds n ls s → Forall lifo ls → cpus s !! c = Some k → pc (top k) = Idle →
  locks s !! l = Some lk → irq lk = true → locked lk = true →
  exec_list s [LTryLock c l; LStep c; LStep c] = Some s.
Proof.
  intros [_ Hg]%reached_locks Hl Hk Hp Hlk Hirq Hlo. destruct (Hg Hl) as (_ & _ & Hm).
  pose proof (mk_on _ (Hm c k Hk)) as Hon. pose proof (mk_depth _ (Hm c k Hk)) as Hd.
  pose proof (lookup_lt_Some _ _ _ Hk) as Hlt. destruct s as [d lks ks], k as [b dp [h p] bl]. cbn in *. subst p.
  rewrite Hk, Hlk. cbn. unfold start. rewrite Hirq. cbn.
  rewrite list_lookup_insert_eq by done. cbn. rewrite Hlk. cbn. unfold micro, try_lock. rewrite Hlo. cbn.
  rewrite list_insert_insert_eq, list_lookup_insert_eq by done. cbn. unfold restore. cbn.
  assert (b = true → dp = 0) as Hz.
  { intros Hb. specialize (Hon Hb). unfold masks, counted in *. cbn in *. by rewrite Hd, calm_held. }
  rewrite !(list_insert_id lks) by done. destruct b; cbn.
  - rewrite Hz by done. rewrite orb_true_r. unfold set_cpu. cbn.
    rewrite !list_insert_insert_eq, list_insert_id; [done|]. by rewrite Hz in Hk.
  - rewrite orb_true_r. unfold set_cpu. cbn. by rewrite !list_insert_insert_eq, list_insert_id.
Qed.

(** ** The wedge detector *)

(** Processor 0 holds lock 0; processor 1 has been waiting for it. *)
Definition waited (n w : Z) : Sys :=
  mkSys true [mkLock true true 0]
    [mkCpu false 1 (mkCtx [GIrq 0 true] Idle) []; mkCpu false 0 (mkCtx [] (Trying 0 true n w)) []].

Definition contend : list Label := [LLock 0 0; LStep 0; LStep 0; LStep 0; LLock 1 0].
Definition look : list Label := [LStep 1; LStep 1].
Definition retake : list Label := LDrop 0 0 :: replicate 4 (LStep 0) ++ [LLock 0 0] ++ replicate 3 (LStep 0).

Lemma exec_list_app l1 l2 s s1 : exec_list s l1 = Some s1 → exec_list s (l1 ++ l2) = exec_list s1 l2.
Proof.
  revert s. induction l1 as [|l l1 IH]; cbn; intros s; [by intros [= ->]|].
  destruct (exec s l) as [[s'|]|]; try done. apply IH.
Qed.

Lemma contended : exec_list (boot true [true] 2) contend = Some (waited 0 NO_OWNER).
Proof. vm_compute. reflexivity. Qed.

Lemma first_look : exec_list (waited 0 NO_OWNER) look = Some (waited 1 0).
Proof. vm_compute. reflexivity. Qed.

(** Between two looks the lock was released and taken again. *)
Lemma next_look n : 0 ≤ n → n + 1 < DEADLOCK_SPINS → exec_list (waited n 0) (retake ++ look) = Some (waited (n + 1) 0).
Proof.
  intros Hn Hlt. rewrite (exec_list_app retake look _ (waited n 0)) by (vm_compute; reflexivity).
  unfold look. cbn -[watch]. unfold watch. cbn -[Z.add DEADLOCK_SPINS NO_OWNER Z.leb].
  destruct (Z.leb_spec DEADLOCK_SPINS (n + 1)); [lia|]. reflexivity.
Qed.

Definition releases (ls : list Label) : nat :=
  length (filter (λ l, match l with LDrop _ _ => true | _ => false end = true) ls).

Lemma releases_app l1 l2 : releases (l1 ++ l2) = (releases l1 + releases l2)%nat.
Proof. unfold releases. by rewrite filter_app, length_app. Qed.

Lemma many_looks (n : nat) : Z.of_nat n + 1 < DEADLOCK_SPINS →
  ∃ ls, exec_list (boot true [true] 2) ls = Some (waited (Z.of_nat n + 1) 0) ∧ releases ls = n ∧ Forall lifo ls.
Proof.
  induction n as [|n IH]; intros Hn.
  - exists (contend ++ look). rewrite (exec_list_app _ _ _ _ contended). split; [exact first_look|].
    split; [reflexivity|]. repeat constructor.
  - destruct IH as (ls & Hr & Hc & Hl); [lia|]. exists (ls ++ (retake ++ look)).
    rewrite (exec_list_app _ _ _ _ Hr), next_look by lia.
    split; [by replace (Z.of_nat (S n) + 1) with (Z.of_nat n + 1 + 1) by lia|].
    rewrite releases_app, Hc.
    split; [change (releases (retake ++ look)) with 1%nat; lia|]. apply Forall_app. split; [done|]. repeat constructor.
Qed.

(** The wedge detector can fire on a lock that is being released and
    taken normally. It watches the owner word, and a processor that takes
    the lock again between two looks leaves the same word, so the waiter
    counts up to [DEADLOCK_SPINS] and panics saying the owner never released
    the lock, after the owner has released it at every look but one. *)
Theorem wedge_detector_fires_on_a_moving_lock :
  ∃ ls s, reaches true [true] 2 ls s ∧ Forall lifo ls ∧ exec s (LStep 1) = Some Panic ∧
    Z.of_nat (releases ls) = DEADLOCK_SPINS - 1.
Proof.
  destruct (many_looks (Z.to_nat (DEADLOCK_SPINS - 2))) as (ls & Hr & Hc & Hl).
  { rewrite Z2Nat.id by (unfold DEADLOCK_SPINS; lia). lia. }
  rewrite Z2Nat.id in Hr by (unfold DEADLOCK_SPINS; lia).
  assert (exec_list (waited (DEADLOCK_SPINS - 2 + 1) 0) (retake ++ [LStep 1]) =
    Some (mkSys true [mkLock true true 0] [mkCpu false 1 (mkCtx [GIrq 0 true] Idle) [];
       mkCpu false 0 (mkCtx [] (Watching 0 true (DEADLOCK_SPINS - 1) 0)) []])) as Hlast by (vm_compute; reflexivity).
  eexists (ls ++ (retake ++ [LStep 1])), _. split; [split; [cbn; lia|]|].
  { rewrite (exec_list_app _ _ _ _ Hr). exact Hlast. }
  split; [apply Forall_app; split; [done|repeat constructor]|]. split; [vm_compute; reflexivity|].
  rewrite releases_app, Hc, Nat2Z.inj_add, Z2Nat.id by (unfold DEADLOCK_SPINS; lia).
  change (Z.of_nat (releases (retake ++ [LStep 1]))) with 1. lia.
Qed.

(** ** Dropping guards in the order they were taken *)

Definition two_guards : list Label :=
  LLock 0 0 :: replicate 3 (LStep 0) ++ LLock 0 1 :: replicate 3 (LStep 0).
Definition drop_older : list Label := LDrop 0 1 :: replicate 3 (LStep 0).

(** The order matters, and the types do not enforce it.  If the older of
    two [IrqSpinLock] guards is dropped first, [restore] enables interrupts
    while the processor holds the other lock, and a handler that lands there
    waits for it for ever; a build with [deadlock-panic] panics instead. *)
Theorem out_of_order_drop_unmasks_under_a_lock :
  (∃ s k, reaches false [true; true] 1 (two_guards ++ drop_older ++ [LStep 0]) s ∧ cpus s !! 0%nat = Some k ∧
     if_flag k = true ∧ held (top k) = [GIrq 1 false] ∧ is_Some (exec_list s [LIrq 0; LLock 0 1; LStep 0; LStep 0])) ∧
  ∃ s, reaches true [true; true] 1 (two_guards ++ drop_older) s ∧ exec s (LStep 0) = Some Panic.
Proof.
  split.
  - eexists _, _. split; [split; [cbn; lia|vm_compute; reflexivity]|]. split; [reflexivity|].
    split; [reflexivity|]. split; [reflexivity|]. vm_compute. eexists. reflexivity.
  - eexists _. split; [split; [cbn; lia|vm_compute; reflexivity]|]. vm_compute. reflexivity.
Qed.

(** ** Witnesses *)

Definition held_run : list Label := contend ++ look.

Lemma held_reaches : reaches true [true] 2 held_run (waited 1 0).
Proof. split; [cbn; lia|]. vm_compute. reflexivity. Qed.

Definition holder : Cpu := mkCpu false 1 (mkCtx [GIrq 0 true] Idle) [].
Definition waiter : Cpu := mkCpu false 0 (mkCtx [] (Trying 0 true 1 0)) [].
Definition drop_all : list Label := LDrop 0 0 :: replicate 4 (LStep 0).
Definition dropped : Sys :=
  mkSys true [mkLock false true NO_OWNER] [mkCpu true 0 (mkCtx [] Idle) []; waiter].

Lemma locks_exclude_each_other_witness : (0%nat ∉ cpu_locks waiter) ∧ ∀ c k, cpus dropped !! c = Some k → 0%nat ∉ cpu_locks k.
Proof.
  split.
  - intros H. destruct (locks_exclude_each_other true [true] 2 held_run (waited 1 0) held_reaches) as (_ & Ha & _).
    discriminate (Ha 0%nat 0%nat 1%nat holder waiter eq_refl eq_refl); [vm_compute; left|exact H].
  - intros c k Hk Hin. destruct (locks_exclude_each_other true [true] 2 (held_run ++ drop_all) dropped) as (Hw & _).
    { split; [cbn; lia|]. vm_compute. reflexivity. }
    discriminate (proj2 (Hw 0%nat (mkLock false true NO_OWNER) eq_refl)). eauto.
Defined.

Lemma owner_word_names_the_holder_witness : owner (mkLock true true 0) = cpu_index 0.
Proof.
  destruct (owner_word_names_the_holder true [true] 2 held_run (waited 1 0) 0 holder (top holder) 0 true
    (mkLock true true 0) held_reaches eq_refl (or_introl eq_refl) eq_refl) as [H _]. apply H. left.
Defined.

Definition quiet_run : list Label := LLock 0 0 :: replicate 3 (LStep 0).
(** A drop under way, with the word still set, and a handler beside it. *)
Definition dropping : list Label := quiet_run ++ [LDrop 0 0; LStep 0; LStep 0; LIrq 1; LLock 1 0].
Definition leaver : Cpu := mkCpu false 0 (mkCtx [] (Releasing 0 true)) [].
Definition handler : Cpu := mkCpu false 0 (mkCtx [] (Trying 0 false 0 NO_OWNER)) [mkCtx [] Idle].
Definition mid_drop : Sys := mkSys true [mkLock true true NO_OWNER] [leaver; handler].
Lemma mid_drop_reached : reaches true [true] 2 dropping mid_drop.
Proof. split; [cbn; lia|]. vm_compute. reflexivity. Qed.

Lemma interrupts_stay_masked_under_a_lock_witness : if_flag leaver = false ∧ 0%nat ∉ ctx_locks (mkCtx [] Idle).
Proof.
  split.
  - destruct (if_flag leaver) eqn:E; [|reflexivity].
    destruct (interrupts_stay_masked_under_a_lock true [true] 2 dropping mid_drop 0 leaver mid_drop_reached) as (Hm & _).
    { repeat constructor. }
    { reflexivity. }
    destruct (proj1 (Hm 0%nat (mkLock true true NO_OWNER) eq_refl eq_refl) E). vm_compute. left.
  - destruct (interrupts_stay_masked_under_a_lock true [true] 2 dropping mid_drop 1 handler mid_drop_reached) as (_ & Hw & _).
    { repeat constructor. }
    { reflexivity. }
    destruct (Hw 0%nat eq_refl) as [_ Hb]. apply Hb. left.
Defined.

Lemma failed_try_lock_leaves_no_trace_witness :
  exec_list (default (boot true [] 0) (exec_list (boot true [true] 2) quiet_run)) [LTryLock 1 0; LStep 1; LStep 1] =
  exec_list (boot true [true] 2) quiet_run.
Proof.
  rewrite (failed_try_lock_leaves_no_trace true [true] 2 quiet_run
    (default (boot true [] 0) (exec_list (boot true [true] 2) quiet_run)) 1 (mkCpu true 0 (mkCtx [] Idle) []) 0
    (mkLock true true 0)).
  - vm_compute. reflexivity.
  - split; [cbn; lia|vm_compute; reflexivity].
  - repeat constructor.
  - vm_compute. reflexivity.
  - reflexivity.
  - vm_compute. reflexivity.
  - reflexivity.
  - reflexivity.
Defined.
