(* ===== verification/Block.v ===== *)
(** The virtio-blk driver: [kernel/src/block.rs], over the queue of [Virtio].

    [memory] is what the driver and the device share: the ring frame, the
    frame of request headers and status bytes, and the bounce buffers,
    addressed as the driver addresses them.  A run interleaves requests
    ([read_at], [write_at]) with the completion interrupt and with a device
    that may write anything anywhere at any time, even while the handler
    reads: [handle_completion] is given the memory it sees at each read.

    One step is one critical section of [DEVICE].  The doorbell that [submit]
    rings last is a write to a register of the device and changes nothing
    here; that it can be rung is a theorem of [BringUp].  Bringing the device up
    ([init], [install_msix]) is in [BlockInit]: [boot] is the state it leaves. *)
From S2P Require Import Prelude Bits Mem Virtio.
From Stdlib Require Import Strings.Byte.

(** ** The device's record *)

Definition SLOT_BYTES : Z := 4096.
Definition MAX_SECTORS : Z := SLOT_BYTES / SECTOR_BYTES.
Definition META_STRIDE : Z := 32.
Definition STATUS_TIMED_OUT : Z := 254.
Definition AVAIL_IDX_OFFSET : Z := 2.
Definition AVAIL_SLOTS_OFFSET : Z := 4.

Inductive BlockError := Unaligned | Short | TooLarge | QueueFull | NoDevice | Device (st : BlkStatus) | Timeout.

Record Slot := mkSlot { thread : Z; done : bool; status : Z; slen : Z; abandoned : bool }.

Record Blk := mkBlk
  { queue : SplitQueue; ring_virt : Z; meta_phys : Z; meta_virt : Z; data_phys : Z; data_virt : Z;
    last_used : Z; slots : list (option Slot) }.

Definition with_queue (b : Blk) (q : SplitQueue) : Blk :=
  mkBlk q (ring_virt b) (meta_phys b) (meta_virt b) (data_phys b) (data_virt b) (last_used b) (slots b).
Definition with_slots (b : Blk) (l : list (option Slot)) : Blk :=
  mkBlk (queue b) (ring_virt b) (meta_phys b) (meta_virt b) (data_phys b) (data_virt b) (last_used b) l.
Definition with_last (b : Blk) (n : Z) : Blk :=
  mkBlk (queue b) (ring_virt b) (meta_phys b) (meta_virt b) (data_phys b) (data_virt b) n (slots b).

(** [DEVICE], and the counters [COMPLETIONS], [DEVICE_FAULTS], [ABANDONED]
    and [RECLAIMED]. *)
Record Counters := mkCounters { completions : Z; device_faults : Z; abandons : Z; reclaims : Z }.
Definition bump (z : Z) : Z := wrapping_add 64 z 1.
Definition completed (c : Counters) : Counters :=
  mkCounters (bump (completions c)) (device_faults c) (abandons c) (reclaims c).
Definition faulted (c : Counters) : Counters :=
  mkCounters (completions c) (bump (device_faults c)) (abandons c) (reclaims c).
Definition gave_up (c : Counters) : Counters :=
  mkCounters (completions c) (device_faults c) (bump (abandons c)) (reclaims c).
Definition reclaimed (c : Counters) : Counters :=
  mkCounters (completions c) (device_faults c) (abandons c) (bump (reclaims c)).

Record Sys := mkSys { device : option Blk; memory : Mem; counters : Counters }.
Definition with_device (s : Sys) (b : Blk) : Sys := mkSys (Some b) (memory s) (counters s).
Definition with_counters (s : Sys) (c : Counters) : Sys := mkSys (device s) (memory s) c.

(** ** [write_rings] *)

(** The chain's descriptors, found by [next_in_chain]. *)
Fixpoint write_descriptors (fuel : nat) (b : Blk) (m : Mem) (idx : Z) : outcome Mem :=
  match fuel with
  | O => Panic
  | S fuel' =>
      bytes ← expect (descriptor_bytes (queue b) idx);
      let m' := write_mem m (ring_virt b + ldesc (ring_layout QUEUE_SIZE) + idx * Descriptor_BYTES) bytes in
      n ← next_in_chain (queue b) idx;
      match n with Some j => write_descriptors fuel' b m' j | None => Ret m' end
  end.

Definition write_rings (b : Blk) (m : Mem) (head : Z) : outcome Mem :=
  let layout := ring_layout QUEUE_SIZE in
  m ← write_descriptors (Z.to_nat QUEUE_SIZE) b m head;
  let slot := wrapping_sub 16 (avail_index (queue b)) 1 mod QUEUE_SIZE in
  bytes ← expect (avail_slot_bytes (queue b) slot);
  let m := write_mem m (ring_virt b + lavail layout + AVAIL_SLOTS_OFFSET + slot * 2) bytes in
  Ret (write_mem m (ring_virt b + lavail layout + AVAIL_IDX_OFFSET) (to_le_bytes 2 (avail_index (queue b)))).

(** ** [submit] *)

Definition header_for (lba : Z) (out : option (list byte)) : RequestHeader :=
  match out with Some _ => header_write lba | None => header_read lba end.

Definition set_slot (b : Blk) (h : Z) (sl : option Slot) : outcome Blk :=
  l ← set_index (slots b) h sl; Ret (with_slots b l).

(** Under the lock, with the chain allocated. *)
Definition build_request (b : Blk) (m : Mem) (me head lba len : Z) (out : option (list byte)) : outcome (Blk * Mem) :=
  d ← next_in_chain (queue b) head;
  data ← expect d;
  st ← next_in_chain (queue b) data;
  stat ← expect st;
  off ← mul_chk 64 head META_STRIDE;
  header_phys ← add_chk 64 (meta_phys b) off;
  status_phys ← add_chk 64 header_phys RequestHeader_BYTES;
  doff ← mul_chk 64 head SLOT_BYTES;
  dphys ← add_chk 64 (data_phys b) doff;
  header_virt ← add_chk 64 (meta_virt b) off;
  dvirt ← add_chk 64 (data_virt b) doff;
  let m := write_mem m header_virt (header_to_bytes (header_for lba out)) in
  let m := write_mem m (header_virt + RequestHeader_BYTES) [z2b 255] in
  let m := match out with Some bytes => write_mem m dvirt bytes | None => m end in
  q ← describe (queue b) head header_phys RequestHeader_BYTES false;
  q ← describe q data dphys len (bool_decide (out = None));
  q ← describe q stat status_phys 1 true;
  b ← set_slot (with_queue b q) head (Some (mkSlot me false 255 0 false));
  '(_, q) ← publish (queue b) head;
  let b := with_queue b q in
  m ← write_rings b m head;
  Ret (b, m).

Definition submit (s : Sys) (me lba len : Z) (out : option (list byte)) : outcome (result Z BlockError * Sys) :=
  if (len =? 0) || negb (len mod SECTOR_BYTES =? 0) then Ret (Err Unaligned, s)
  else if MAX_SECTORS * SECTOR_BYTES <? len then Ret (Err TooLarge, s)
  else
    match device s with
    | None => Ret (Err NoDevice, s)
    | Some b =>
        '(h, q) ← alloc_chain (queue b) 3;
        match h with
        | None => Ret (Err QueueFull, s)
        | Some head =>
            '(b, m) ← build_request (with_queue b q) (memory s) me head lba len out;
            Ret (Ok head, mkSys (Some b) m (counters s))
        end
    end.

(** ** Waiting *)

(** [Completion::poll_device]: the status, or [None] while it is pending. *)
Definition poll_device (s : Sys) (head : Z) : outcome (option Z) :=
  match device s with
  | None => Ret (Some 255)
  | Some b =>
      sl ← index (slots b) head;
      Ret (match sl with Some sl => if done sl then Some (status sl) else None | None => None end)
  end.

Definition release (b : Blk) (head : Z) : outcome Blk :=
  q ← free_chain (queue b) head;
  set_slot (with_queue b q) head None.

Definition abandon (sl : Slot) : Slot := mkSlot (thread sl) (done sl) (status sl) (slen sl) true.

(** [finish]; [into] is the length of a read's buffer. *)
Definition finish (s : Sys) (head st : Z) (into : option Z) : outcome (result (list byte) BlockError * Sys) :=
  match device s with
  | None => Ret (Err NoDevice, s)
  | Some b =>
      if st =? STATUS_TIMED_OUT then
        sl ← index (slots b) head;
        b ← match sl with Some sl => set_slot b head (Some (abandon sl)) | None => Ret b end;
        Ret (Err Timeout, with_counters (with_device s b) (gave_up (counters s)))
      else
        sl ← index (slots b) head;
        let reported := from_option slen 0 sl in
        match into with
        | Some n =>
            if negb (transfer_satisfied reported n) then
              b ← release b head;
              Ret (Err Short, with_counters (with_device s b) (faulted (counters s)))
            else
              let buf := read_mem (memory s) (data_virt b + head * SLOT_BYTES) (Z.to_nat n) in
              b ← release b head;
              Ret (match status_from_byte st with BlkOk => Ok buf | other => Err (Device other) end, with_device s b)
        | None =>
            b ← release b head;
            Ret (match status_from_byte st with BlkOk => Ok [] | other => Err (Device other) end, with_device s b)
        end
  end.

(** [Request::drop], when the future is dropped before it is settled. *)
Definition drop_request (s : Sys) (head : Z) : outcome Sys :=
  match device s with
  | None => Ret s
  | Some b =>
      sl ← index (slots b) head;
      match sl with
      | None => Ret s
      | Some sl =>
          if done sl then b ← release b head; Ret (with_device s b)
          else
            b ← set_slot b head (Some (abandon sl));
            Ret (with_counters (with_device s b) (gave_up (counters s)))
      end
  end.

(** ** [handle_completion] *)

(** One entry of the used ring, as [m] shows it: whether the handler goes
    on, and whom to wake. *)
Definition complete_one (b : Blk) (c : Counters) (m : Mem) : outcome (bool * option Z * Blk * Counters) :=
  let used_base := ring_virt b + lused (ring_layout QUEUE_SIZE) in
  let slot := last_used b mod QUEUE_SIZE in
  let entry := read_mem m (used_base + RING_HEADER + slot * 8) 8 in
  '(ok, q) ← ingest_used_slot (queue b) slot entry;
  if negb ok then Ret (false, None, b, faulted c) else
  '(t, q) ← take_used q slot;
  let b := with_last (with_queue b q) (wrapping_add 16 (last_used b) 1) in
  match t with
  | Some (head, len) =>
      let st := b2z (m (meta_virt b + head * META_STRIDE + RequestHeader_BYTES)) in
      sl ← index (slots b) head;
      match sl with
      | Some sl =>
          if abandoned sl then
            b ← release b head;
            Ret (true, None, b, completed (reclaimed c))
          else
            b ← set_slot b head (Some (mkSlot (thread sl) true st len (abandoned sl)));
            Ret (true, Some (thread sl), b, completed c)
      | None => Ret (true, None, b, completed c)
      end
  | None => Ret (true, None, b, faulted c)
  end.

(** [woken[count] = Some(thread); count += 1], in an array of [QUEUE_SIZE]. *)
Definition note_woken (woken : list Z) (w : option Z) : outcome (list Z) :=
  match w with
  | None => Ret woken
  | Some t => _ ← rust_assert (Z.of_nat (length woken) <? QUEUE_SIZE); Ret (woken ++ [t])
  end.

(** The loop; the early return wakes nobody. *)
Fixpoint complete_all (n : nat) (b : Blk) (c : Counters) (views : nat → Mem) (woken : list Z)
    : outcome (list Z * Blk * Counters) :=
  match n with
  | O => Ret (woken, b, c)
  | S n' =>
      '(go_on, w, b, c) ← complete_one b c (views 0%nat);
      woken ← note_woken woken w;
      if (go_on : bool) then complete_all n' b c (λ i, views (S i)) woken
      else Ret ([], b, c)
  end.

(** [views 0] is what the index is read from, [views (S i)] what the [i]-th
    entry is. *)
Definition handle_completion (s : Sys) (views : nat → Mem) : outcome (list Z * Sys) :=
  match device s with
  | None => Ret ([], s)
  | Some b =>
      let idx := from_le_bytes (read_mem (views 0%nat) (ring_virt b + lused (ring_layout QUEUE_SIZE) + 2) 2) in
      let pending := wrapping_sub 16 idx (last_used b) in
      if QUEUE_SIZE <? pending then Ret ([], with_counters s (faulted (counters s)))
      else
        '(ws, b, c) ← complete_all (Z.to_nat pending) b (counters s) (λ i, views (S i)) [];
        Ret (ws, mkSys (Some b) (memory s) c)
  end.

(** ** Requests: [read_at] and [write_at] *)

(** The future: suspended at its [await]; inside a poll that found the
    device pending and has not looked at the deadline yet; past the [await]
    with its status. *)
Inductive Rpc := Waiting | Checking | Settled (st : Z).
Record Req := mkReq { rhead : Z; rread : option Z; rpc : Rpc }.

Record St := mkSt { sys : Sys; reqs : gmap Z Req }.

Inductive Label :=
  | LSubmit (r lba len : Z) (out : option (list byte)) (timers_full : bool)
  | LPoll (r : Z) | LDeadline (r : Z) (expired : bool) | LFinish (r : Z) | LDrop (r : Z)
  | LInterrupt (views : nat → Mem) | LDevice (m : Mem).

Definition with_sys (st : St) (s : Sys) : St := mkSt s (reqs st).

Definition exec (st : St) (l : Label) : option (outcome St) :=
  match l with
  | LSubmit r lba len out timers_full =>
      match reqs st !! r with
      | Some _ => None
      | None =>
          if from_option (λ b, Z.of_nat (length b) =? len) (0 <=? len) out then
            Some (if (timers_full : bool) then Ret st
                  else
                    '(res, s) ← submit (sys st) r lba len out;
                    Ret (match res with
                         | Ok h => mkSt s (<[r := mkReq h (match out with None => Some len | Some _ => None end) Waiting]> (reqs st))
                         | Err _ => with_sys st s
                         end))
          else None
      end
  | LPoll r =>
      q ← reqs st !! r;
      match rpc q with
      | Waiting =>
          Some (a ← poll_device (sys st) (rhead q);
                Ret (mkSt (sys st) (<[r := mkReq (rhead q) (rread q) (from_option Settled Checking a)]> (reqs st))))
      | _ => None
      end
  | LDeadline r expired =>
      q ← reqs st !! r;
      match rpc q with
      | Checking =>
          Some (Ret (mkSt (sys st) (<[r := mkReq (rhead q) (rread q)
            (if (expired : bool) then Settled STATUS_TIMED_OUT else Waiting)]> (reqs st))))
      | _ => None
      end
  | LFinish r =>
      q ← reqs st !! r;
      match rpc q with
      | Settled s =>
          Some ('(_, s') ← finish (sys st) (rhead q) s (rread q); Ret (mkSt s' (delete r (reqs st))))
      | _ => None
      end
  | LDrop r =>
      q ← reqs st !! r;
      match rpc q with
      | Waiting => Some (s' ← drop_request (sys st) (rhead q); Ret (mkSt s' (delete r (reqs st))))
      | _ => None
      end
  | LInterrupt views => Some ('(_, s') ← handle_completion (sys st) views; Ret (with_sys st s'))
  | LDevice m => Some (Ret (with_sys st (mkSys (device (sys st)) m (counters (sys st)))))
  end.

Definition step (st : St) (l : Label) (st' : St) : Prop := exec st l = Some (Ret st').

(** What [init] leaves: three zeroed DMA regions and an empty queue.  The
    frames come from the frame allocator, and the higher-half map puts them
    at [hhdm] plus their physical address. *)
Definition boot (q : SplitQueue) (hhdm ring meta data : Z) : St :=
  mkSt (mkSys (Some (mkBlk q (hhdm + ring) meta (hhdm + meta) data (hhdm + data) 0
                       (replicate (Z.to_nat QUEUE_SIZE) None)))
          (λ _, z2b 0) (mkCounters 0 0 0 0)) ∅.

Fixpoint exec_list (st : St) (ls : list Label) : option St :=
  match ls with
  | [] => Some st
  | l :: ls' => match exec st l with Some (Ret st') => exec_list st' ls' | _ => None end
  end.
