(* ===== verification/BlockProofs.v ===== *)
(** Proofs about the virtio-blk driver of [Block]. *)
From S2P Require Import Prelude Bits Mem Virtio Block.
From Stdlib Require Import Strings.Byte.

(** ** The invariant of the device record

    [fl] and [cs] are the free descriptors and the chains, as in [Virtio]. *)
Record binv (b : Blk) (fl : list nat) (cs : list (list nat)) : Prop := {
  bi_q : qinv (queue b) fl cs;
  bi_size : qsize (queue b) = QUEUE_SIZE;
  bi_three : Forall (λ c, length c = 3%nat) cs;
  bi_slots : length (slots b) = Z.to_nat QUEUE_SIZE;
  bi_chain : ∀ h, (∃ c, h :: c ∈ cs) ↔ ∃ sl, slots b !! h = Some (Some sl);
  bi_flight : ∀ h sl, slots b !! h = Some (Some sl) → in_flight (queue b) !! h = Some (negb (done sl));
  bi_addr : Forall (λ a, 0 ≤ a ∧ a + QUEUE_SIZE * SLOT_BYTES < 2 ^ 64)
              [meta_phys b; meta_virt b; data_phys b; data_virt b];
  bi_last : fits 16 (last_used b)
}.

(** Every slot has one owner: a request that is still waiting for it, or
    nobody once it is abandoned. *)
Record owned (sl : list (option Slot)) (rs : gmap Z Req) : Prop := {
  ow_slot : ∀ r q, rs !! r = Some q → ∃ h x, rhead q = Z.of_nat h ∧ sl !! h = Some (Some x) ∧
    abandoned x = false ∧ ∀ s, rpc q = Settled s → s = STATUS_TIMED_OUT ∨ done x = true ∧ status x = s;
  ow_apart : ∀ r r' q q', rs !! r = Some q → rs !! r' = Some q' → rhead q = rhead q' → r = r';
  ow_owner : ∀ h x, sl !! h = Some (Some x) → abandoned x = false → ∃ r q, rs !! r = Some q ∧ rhead q = Z.of_nat h
}.

(** Where the DMA regions are. *)
Definition regions (b : Blk) : Z * Z * Z := (ring_virt b, meta_virt b, data_virt b).

(** Some chains have gone; nothing else the device can see has changed. *)
Record later (b : Blk) (cs : list (list nat)) (b' : Blk) (cs' : list (list nat)) : Prop := {
  la_regions : regions b' = regions b ∧ (meta_phys b', data_phys b') = (meta_phys b, data_phys b);
  la_chains : ∀ c, c ∈ cs' → c ∈ cs;
  la_desc : ∀ k, k ∈ concat cs' → desc (queue b') !! k = desc (queue b) !! k;
  la_avail : avail_idx (queue b') = avail_idx (queue b) ∧ avail_ring (queue b') = avail_ring (queue b)
}.

Lemma later_trans b cs b1 cs1 b2 cs2 : later b cs b1 cs1 → later b1 cs1 b2 cs2 → later b cs b2 cs2.
Proof.
  intros [[A0 A1] A2 A3 [A4 A5]] [[B0 B1] B2 B3 [B4 B5]]. split; [split; congruence|auto| |split; congruence].
  intros k Hk. rewrite B3 by done. apply A3. apply elem_of_concat in Hk as (c & Hk & Hc). apply elem_of_concat. eauto.
Qed.

(** The descriptor table and the available ring in the memory the device
    reads, against the driver's own copy. *)
Definition desc_at (b : Blk) (i : nat) : Z := ring_virt b + Z.of_nat i * Descriptor_BYTES.
Definition avail_at (b : Blk) : Z := ring_virt b + lavail (ring_layout QUEUE_SIZE).
Definition desc_of (b : Blk) (i : nat) : list byte := from_option to_bytes [] (desc (queue b) !! i).

Record mirrored (b : Blk) (cs : list (list nat)) (m : Mem) : Prop := {
  mi_desc : ∀ i, i ∈ concat cs → read_mem m (desc_at b i) (Z.to_nat Descriptor_BYTES) = desc_of b i;
  mi_slots : ∀ i v, avail_ring (queue b) !! i = Some v →
    read_mem m (avail_at b + AVAIL_SLOTS_OFFSET + Z.of_nat i * 2) 2 = to_le_bytes 2 v;
  mi_idx : read_mem m (avail_at b + AVAIL_IDX_OFFSET) 2 = to_le_bytes 2 (avail_idx (queue b))
}.

Lemma mirrored_later b cs b' cs' m : later b cs b' cs' → mirrored b cs m → mirrored b' cs' m.
Proof.
  intros [[L1 _] L2 L3 [L4 L5]] [M1 M2 M3]. injection L1 as R1 R2 R3. split.
  - intros i Hi. unfold desc_at, desc_of. rewrite R1, L3 by done. apply M1.
    apply elem_of_concat in Hi as (c & Hi & Hc). apply elem_of_concat. eauto.
  - intros i v. unfold avail_at. rewrite R1, L5. apply M2.
  - unfold avail_at. rewrite R1, L4. apply M3.
Qed.

(** The chain of a request as the device walks it: the header, the data, the
    status byte. *)
Record request_chain (ds : list Descriptor) (i j k : nat) (hdr dat len : Z) (rd : bool) : Prop := {
  rc_header : ds !! i = Some (mkDesc hdr RequestHeader_BYTES DESC_F_NEXT (Z.of_nat j));
  rc_data : ds !! j = Some (mkDesc dat len (Z.lor DESC_F_NEXT (if rd then DESC_F_WRITE else 0)) (Z.of_nat k));
  rc_status : ∃ n, ds !! k = Some (mkDesc (hdr + RequestHeader_BYTES) 1 DESC_F_WRITE n)
}.

(** Every chain is that of a request with the buffers of its head. *)
Definition dma (b : Blk) (cs : list (list nat)) : Prop :=
  ∀ c, c ∈ cs → ∃ i j k len rd, c = [i; j; k] ∧ len ≤ SLOT_BYTES ∧
    request_chain (desc (queue b)) i j k (meta_phys b + Z.of_nat i * META_STRIDE) (data_phys b + Z.of_nat i * SLOT_BYTES) len rd.

Lemma request_chain_ext ds ds' i j k hdr dat len rd :
  (∀ x, x ∈ [i; j; k] → ds' !! x = ds !! x) → request_chain ds i j k hdr dat len rd → request_chain ds' i j k hdr dat len rd.
Proof. intros E [R1 R2 [n R3]]. split; [rewrite E by set_solver; done..|]. exists n. rewrite E by set_solver. done. Qed.

Lemma dma_later b cs b' cs' : later b cs b' cs' → dma b cs → dma b' cs'.
Proof.
  intros [[_ [= P1 P2]] L2 L3 _] Hd c Hc. destruct (Hd c (L2 c Hc)) as (i & j & k & len & rd & -> & Hl & Hr).
  exists i, j, k, len, rd. do 2 (split; [done|]). rewrite P1, P2. eapply request_chain_ext; [|exact Hr].
  intros x Hx. apply L3. apply elem_of_concat. eauto.
Qed.

(** [polite] runs are those in which the device writes only what it is meant
    to write. *)
Definition inv (polite : bool) (w : Z * Z * Z) (st : St) : Prop :=
  ∃ b fl cs, device (sys st) = Some b ∧ binv b fl cs ∧ owned (slots b) (reqs st) ∧ regions b = w ∧ dma b cs ∧
    (polite = true → mirrored b cs (memory (sys st))).

(** ** Chains *)

Lemma head_unique q fl cs h c c' : qinv q fl cs → h :: c ∈ cs → h :: c' ∈ cs → c = c'.
Proof.
  intros Hq Hc Hc'. apply elem_of_Permutation in Hc as [cs1 H1].
  pose proof (qinv_NoDup _ _ _ Hq) as Hnd. rewrite (concat_perm _ _ H1) in Hnd. apply NoDup_app in Hnd as (_ & _ & Hnd).
  cbn in Hnd. rewrite H1 in Hc'. apply elem_of_cons in Hc' as [[= ->]|Hc']; [done|]. exfalso.
  apply NoDup_cons in Hnd as [Hn _]. apply Hn. apply elem_of_app. right. apply elem_of_concat. exists (h :: c'). split; [left|done].
Qed.

Lemma in_chain (cs : list (list nat)) (h : nat) c x : h :: c ∈ cs → x ∈ h :: c → x ∈ concat cs.
Proof. intros Hc Hx. apply elem_of_concat. eauto. Qed.

Lemma three_cases (c : list nat) : length c = 3%nat → ∃ i j k, c = [i; j; k].
Proof. destruct c as [|i [|j [|k [|]]]]; try done. eauto. Qed.

(** Following a chain of three. *)
Lemma next_in_three q i j k :
  chained (desc q) [i; j; k] →
  next_in_chain q (Z.of_nat i) = Ret (Some (Z.of_nat j)) ∧ next_in_chain q (Z.of_nat j) = Ret (Some (Z.of_nat k)) ∧
  next_in_chain q (Z.of_nat k) = Ret None.
Proof.
  intros (t & x & Ht & Hx & Hn & (y & Hy & Hyn & Hj) & (z & Hz & Hzn & Hk) & _). cbn in Ht. injection Ht as <-.
  unfold next_in_chain. rewrite (index_nat _ _ _ Hx), (index_nat _ _ _ Hy), (index_nat _ _ _ Hz). cbn.
  by rewrite Hn, Hyn, Hzn, Hj, Hk.
Qed.

(** ** [free_chain] and the slot it belongs to *)

Lemma set_slot_ok b h x : (h < length (slots b))%nat → set_slot b (Z.of_nat h) x = Ret (with_slots b (<[h := x]> (slots b))).
Proof. intros Hh. unfold set_slot. rewrite set_index_ok by lia. cbn. by rewrite Nat2Z.id. Qed.

(** The chain whose slot it is may already be off the device's hands. *)
Lemma release_gen b fl cs h x q n :
  binv b fl cs → slots b !! h = Some (Some x) → qinv q fl cs → qsize q = qsize (queue b) → fits 16 n →
  desc q = desc (queue b) → avail_idx q = avail_idx (queue b) → avail_ring q = avail_ring (queue b) →
  (∀ h', h' ≠ h → in_flight q !! h' = in_flight (queue b) !! h') →
  ∃ q' fl' cs', release (with_last (with_queue b q) n) (Z.of_nat h) =
      Ret (with_slots (with_last (with_queue b q') n) (<[h := None]> (slots b))) ∧
    binv (with_slots (with_last (with_queue b q') n) (<[h := None]> (slots b))) fl' cs' ∧
    later b cs (with_slots (with_last (with_queue b q') n) (<[h := None]> (slots b))) cs' ∧ free q' = free q + 3.
Proof.
  intros Hb Hh Hq0 Es Hn Ed Ei Er Hoth. pose proof Hb as [_ B2 B3 B4 B5 B6 B7 B8].
  destruct (proj2 (B5 h) (ex_intro _ x Hh)) as [c Hc].
  pose proof Hc as Hc'. apply elem_of_Permutation in Hc' as [cs' Hcs]. rewrite Forall_forall in B3.
  pose proof (B3 _ Hc) as Hlen. destruct (free_chain_ok _ _ _ _ _ _ Hq0 Hcs) as (q' & Hf & Hq & E1 & E2 & _ & E4 & E5 & Efr).
  pose proof (lookup_lt_Some _ _ _ Hh) as Hlt. exists q', (rev (h :: c) ++ fl), cs'.
  assert (∀ h' c', h' :: c' ∈ cs' → h' ≠ h) as Hother.
  { intros h' c' Hin ->. assert (c' = c) as -> by (apply (head_unique _ _ _ _ _ _ Hq0 ltac:(rewrite Hcs; by right) Hc)).
    pose proof (qinv_NoDup _ _ _ Hq0) as Hnd. rewrite (concat_perm _ _ Hcs) in Hnd. apply NoDup_app in Hnd as (_ & _ & Hnd).
    apply NoDup_cons in Hnd as [Hnin _]. apply Hnin. apply elem_of_app. right. by eapply in_chain; [|left]. }
  split; [unfold release; cbn [queue with_last with_queue]; rewrite Hf; cbn [mbind outcome_bind]; by rewrite set_slot_ok|].
  assert (∀ k, k ∈ concat cs' → k ∉ h :: c) as Hdis.
  { intros k Hk Hk'. pose proof (qinv_NoDup _ _ _ Hq0) as Hnd. rewrite (concat_perm _ _ Hcs) in Hnd.
    apply NoDup_app in Hnd as (_ & _ & Hnd). apply (NoDup_app (h :: c)) in Hnd as (_ & Hd & _). by apply (Hd k). }
  split; [|split; [|rewrite (qi_free _ _ _ Hq), (qi_free _ _ _ Hq0), length_app, length_rev, Hlen; lia]].
  2: { split; cbn; [done| | |split; congruence]; [intros c' Hc'; rewrite Hcs; by right|].
       intros k Hk. rewrite Efr by by apply Hdis. by rewrite Ed. }
  split; cbn; try done.
  - congruence.
  - apply Forall_forall. intros c' Hc'. apply B3. rewrite Hcs. by right.
  - by rewrite length_insert.
  - intros h'. destruct (decide (h' = h)) as [->|Hne].
    + rewrite list_lookup_insert_eq by done. split; [intros [c' Hin]; by destruct (Hother _ _ Hin)|by intros [? [=]]].
    + rewrite list_lookup_insert_ne by done. rewrite <- B5. setoid_rewrite Hcs. setoid_rewrite elem_of_cons. naive_solver.
  - intros h' sl. destruct (decide (h' = h)) as [->|Hne]; [by rewrite list_lookup_insert_eq|].
    rewrite list_lookup_insert_ne by done. rewrite E4, list_lookup_insert_ne, Hoth by done. apply B6.
Qed.

Lemma release_ok b fl cs h x :
  binv b fl cs → slots b !! h = Some (Some x) →
  ∃ q' fl' cs', release b (Z.of_nat h) = Ret (with_slots (with_queue b q') (<[h := None]> (slots b))) ∧
    binv (with_slots (with_queue b q') (<[h := None]> (slots b))) fl' cs' ∧
    later b cs (with_slots (with_queue b q') (<[h := None]> (slots b))) cs' ∧ free q' = free (queue b) + 3.
Proof.
  intros Hb Hh. destruct (release_gen b fl cs h x (queue b) (last_used b) Hb Hh) as (q' & fl' & cs' & H);
    [apply Hb|done|apply Hb|done..|]. destruct b. eauto.
Qed.

(** ** Ownership *)

Lemma owned_slot_kept sl rs h x x' :
  owned sl rs → sl !! h = Some (Some x) → abandoned x' = abandoned x → done x = false →
  owned (<[h := Some x']> sl) rs.
Proof.
  intros [O1 O2 O3] Hh Ha Hd. pose proof (lookup_lt_Some _ _ _ Hh) as Hlt. split; [|done|].
  - intros r q Hr. destruct (O1 r q Hr) as (h' & y & E & Hy & Hay & Hs). destruct (decide (h' = h)) as [->|Hne].
    + exists h, x'. rewrite list_lookup_insert_eq by done. assert (y = x) as -> by congruence.
      split; [done|]. split; [done|]. split; [congruence|]. intros s Hrs. destruct (Hs s Hrs) as [?|[? _]]; [auto|congruence].
    + exists h', y. by rewrite list_lookup_insert_ne.
  - intros h' y. destruct (decide (h' = h)) as [->|Hne].
    + rewrite list_lookup_insert_eq by done. intros [= <-] Hy. apply (O3 h x Hh). congruence.
    + rewrite list_lookup_insert_ne by done. apply O3.
Qed.

(** The request is gone, and its slot is free or abandoned. *)
Lemma owned_ended sl rs r q h y :
  owned sl rs → rs !! r = Some q → rhead q = Z.of_nat h → (∀ x, y = Some x → abandoned x = true) →
  owned (<[h := y]> sl) (delete r rs).
Proof.
  intros [O1 O2 O3] Hr Hq Hy. destruct (O1 r q Hr) as (h0 & x0 & E0 & Hx0 & _).
  assert (h0 = h) as -> by lia. pose proof (lookup_lt_Some _ _ _ Hx0) as Hlt. split.
  - intros r' q'. intros [Hne Hr']%lookup_delete_Some. destruct (O1 r' q' Hr') as (h' & x & E & Hx & H).
    assert (h' ≠ h) by (intros ->; apply Hne; eapply O2; [done..|congruence]).
    exists h', x. by rewrite list_lookup_insert_ne.
  - intros r1 r2 q1 q2 [_ H1]%lookup_delete_Some [_ H2]%lookup_delete_Some. by apply O2.
  - intros h' x. destruct (decide (h' = h)) as [->|Hne].
    + rewrite list_lookup_insert_eq by done. intros [= ->] Ha. specialize (Hy x eq_refl). congruence.
    + rewrite list_lookup_insert_ne by done. intros Hx Ha. destruct (O3 h' x Hx Ha) as (r' & q' & Hr' & Hq').
      exists r', q'. split; [|done]. apply lookup_delete_Some. split; [|done]. intros <-. simplify_eq. lia.
Qed.

(** A slot nobody owns can go. *)
Lemma owned_freed sl rs h x :
  owned sl rs → sl !! h = Some (Some x) → abandoned x = true → owned (<[h := None]> sl) rs.
Proof.
  intros [O1 O2 O3] Hh Ha. pose proof (lookup_lt_Some _ _ _ Hh) as Hlt. split; [|done|].
  - intros r q Hr. destruct (O1 r q Hr) as (h' & y & E & Hy & Hay & Hs). exists h', y.
    rewrite list_lookup_insert_ne; [done|]. intros <-. congruence.
  - intros h' y. destruct (decide (h' = h)) as [->|Hne]; [by rewrite list_lookup_insert_eq|].
    rewrite list_lookup_insert_ne by done. apply O3.
Qed.

Lemma owned_new sl rs r q h x :
  owned sl rs → rs !! r = None → sl !! h = Some None → rhead q = Z.of_nat h → rpc q = Waiting → abandoned x = false →
  owned (<[h := Some x]> sl) (<[r := q]> rs).
Proof.
  intros [O1 O2 O3] Hr Hh Hq Hp Ha. pose proof (lookup_lt_Some _ _ _ Hh) as Hlt.
  assert (∀ r' q', rs !! r' = Some q' → rhead q' ≠ Z.of_nat h) as Hfresh.
  { intros r' q' Hr' E. destruct (O1 r' q' Hr') as (h' & y & E' & Hy & _). assert (h' = h) as -> by lia. congruence. }
  split.
  - intros r' q' [[<- <-]|[Hne Hr']]%lookup_insert_Some.
    + exists h, x. rewrite list_lookup_insert_eq by done. split; [done|]. split; [done|]. split; [done|]. by rewrite Hp.
    + destruct (O1 r' q' Hr') as (h' & y & E & Hy & H). exists h', y. rewrite list_lookup_insert_ne; [done|].
      intros <-. by destruct (Hfresh r' q' Hr').
  - intros r1 r2 q1 q2 [[<- <-]|[Hn1 H1]]%lookup_insert_Some [[<- <-]|[Hn2 H2]]%lookup_insert_Some E; try done.
    + destruct (Hfresh _ _ H2). congruence.
    + destruct (Hfresh _ _ H1). congruence.
    + by eapply O2.
  - intros h' y. destruct (decide (h' = h)) as [->|Hne].
    + intros _ _. exists r, q. by rewrite lookup_insert_eq.
    + rewrite list_lookup_insert_ne by done. intros Hy Hay. destruct (O3 h' y Hy Hay) as (r' & q' & Hr' & Hq').
      exists r', q'. rewrite lookup_insert_ne; [done|]. congruence.
Qed.

(** The request moves on. *)
Lemma owned_moves sl rs r q p :
  owned sl rs → rs !! r = Some q →
  (∀ h x s, rhead q = Z.of_nat h → sl !! h = Some (Some x) → p = Settled s → s = STATUS_TIMED_OUT ∨ done x = true ∧ status x = s) →
  owned sl (<[r := mkReq (rhead q) (rread q) p]> rs).
Proof.
  intros [O1 O2 O3] Hr Hp. split.
  - intros r' q' [[<- <-]|[Hne Hr']]%lookup_insert_Some; [|by apply (O1 r')].
    destruct (O1 r q Hr) as (h & x & E & Hx & Ha & _). exists h, x. cbn. eauto 6.
  - intros r1 r2 q1 q2 [[<- <-]|[Hn1 H1]]%lookup_insert_Some [[<- <-]|[Hn2 H2]]%lookup_insert_Some E; cbn in E; try done.
    + by eapply O2.
    + by eapply O2.
    + by eapply O2.
  - intros h x Hx Ha. destruct (O3 h x Hx Ha) as (r' & q' & Hr' & Hq'). destruct (decide (r' = r)) as [->|Hne].
    + exists r. eexists. rewrite lookup_insert_eq. split; [done|]. cbn. congruence.
    + exists r', q'. by rewrite lookup_insert_ne.
Qed.

(** ** The completion handler *)

(** A queue that differs in what the device last said. *)
Lemma binv_queue b fl cs q n :
  binv b fl cs → qinv q fl cs → qsize q = qsize (queue b) → fits 16 n →
  (∀ h sl, slots b !! h = Some (Some sl) → in_flight q !! h = Some (negb (done sl))) →
  binv (with_last (with_queue b q) n) fl cs.
Proof. intros [B1 B2 B3 B4 B5 B6 B7 B8] Hq E Hn Hf. split; cbn; try done. congruence. Qed.

Lemma binv_slot b fl cs h x x' q :
  binv b fl cs → slots b !! h = Some (Some x) → qinv q fl cs → qsize q = qsize (queue b) →
  in_flight q = <[h := negb (done x')]> (in_flight (queue b)) →
  binv (with_slots (with_queue b q) (<[h := Some x']> (slots b))) fl cs.
Proof.
  intros Hb Hx Hq E Hf. pose proof Hb as [B1 B2 B3 B4 B5 B6 B7 B8]. pose proof (lookup_lt_Some _ _ _ Hx) as Hlt.
  assert (h < length (in_flight (queue b)))%nat as Hfl by (eapply lookup_lt_Some; by apply (B6 h x)).
  split; cbn; try done.
  - congruence.
  - by rewrite length_insert.
  - intros h'. rewrite B5. destruct (decide (h' = h)) as [->|Hne].
    + rewrite list_lookup_insert_eq by done. naive_solver.
    + by rewrite list_lookup_insert_ne.
  - intros h' y. rewrite Hf. destruct (decide (h' = h)) as [->|Hne].
    + rewrite !list_lookup_insert_eq by done. by intros [= <-].
    + rewrite !list_lookup_insert_ne by done. apply B6.
Qed.

Lemma wrapping16 x : fits 16 (wrapping_add 16 x 1) ∧ fits 16 (wrapping_sub 16 x 1).
Proof. unfold fits, wrapping_add, wrapping_sub. split; apply Z.mod_pos_bound; done. Qed.

Lemma complete_one_ok b fl cs rs c m :
  binv b fl cs → owned (slots b) rs →
  ∃ w b' c' fl' cs', complete_one b c m = Ret (true, w, b', c') ∧ binv b' fl' cs' ∧ owned (slots b') rs ∧ later b cs b' cs'.
Proof.
  intros Hb Ho. pose proof Hb as [B1 B2 B3 B4 B5 B6 B7 B8]. unfold complete_one.
  assert (0 ≤ last_used b mod QUEUE_SIZE < QUEUE_SIZE) as Hs by by apply Z.mod_pos_bound.
  destruct (ingest_used_slot_ok (queue b) fl cs (last_used b mod QUEUE_SIZE)
    (read_mem m (ring_virt b + lused (ring_layout QUEUE_SIZE) + RING_HEADER + last_used b mod QUEUE_SIZE * 8) 8) B1 ltac:(lia))
    as (ok & q1 & -> & Hq1 & Eq1 & Hok). cbn [mbind outcome_bind].
  assert (ok = true) as -> by (apply Hok; rewrite B2; lia). cbn [negb].
  assert (in_flight q1 = in_flight (queue b) ∧ qsize q1 = qsize (queue b) ∧ desc q1 = desc (queue b) ∧
    avail_idx q1 = avail_idx (queue b) ∧ avail_ring q1 = avail_ring (queue b)) as (F1 & S1 & Ed & Ei & Er) by (by rewrite Eq1).
  destruct (wrapping16 (last_used b)) as [Hl _].
  destruct (take_used_ok q1 fl cs (last_used b mod QUEUE_SIZE) Hq1 ltac:(lia)) as [->|(i & ch & l & q2 & -> & Hc & Hfl & -> & Hq2)];
    cbn [mbind outcome_bind].
  - eexists None, _, _, fl, cs. split; [reflexivity|]. split; [|split; [done|by split; cbn; [| |intros; by rewrite Ed|]]].
    apply binv_queue; try done. intros h sl. rewrite F1. apply B6.
  - destruct (proj1 (B5 i) (ex_intro _ ch Hc)) as [x Hx]. pose proof (B6 i x Hx) as Hd. rewrite F1 in Hfl.
    cbn [slots with_last with_queue]. rewrite (index_nat _ _ _ Hx). cbn [mbind outcome_bind].
    destruct (abandoned x) eqn:Ha.
    + destruct (release_gen b fl cs i x _ (wrapping_add 16 (last_used b) 1) Hb Hx Hq2) as (q' & fl' & cs' & -> & Hb' & Hla & _);
        [done..|intros h' Hne; cbn; by rewrite F1, list_lookup_insert_ne|].
      cbn [mbind outcome_bind]. eexists _, _, _, fl', cs'. split; [done|]. split; [done|]. split; [|exact Hla].
      by eapply owned_freed.
    + rewrite set_slot_ok by (by eapply lookup_lt_Some). cbn [mbind outcome_bind]. eexists _, _, _, fl, cs. split; [done|].
      assert (done x = false) as Hdn by (rewrite Hfl in Hd; injection Hd as Hd; by destruct (done x)).
      split; [|split; [by eapply owned_slot_kept|by split; cbn; [| |intros; by rewrite Ed|]]].
      set (b1 := with_last b (wrapping_add 16 (last_used b) 1)).
      assert (binv b1 fl cs) as Hb1 by (subst b1; by split).
      apply (binv_slot b1 fl cs i x); try done. cbn. by rewrite F1.
Qed.

Lemma note_woken_ok woken w : Z.of_nat (length woken) < QUEUE_SIZE →
  ∃ woken', note_woken woken w = Ret woken' ∧ (length woken' ≤ S (length woken))%nat.
Proof.
  intros Hw. destruct w as [t|]; cbn [note_woken]; [|by eexists; split; [done|lia]].
  rewrite (proj2 (Z.ltb_lt _ _)) by done. eexists. split; [done|]. rewrite length_app. cbn. lia.
Qed.

Lemma complete_all_ok rs n : ∀ b fl cs c views woken,
  binv b fl cs → owned (slots b) rs → Z.of_nat (length woken) + Z.of_nat n ≤ QUEUE_SIZE →
  ∃ ws b' c' fl' cs', complete_all n b c views woken = Ret (ws, b', c') ∧ binv b' fl' cs' ∧ owned (slots b') rs ∧ later b cs b' cs'.
Proof.
  induction n as [|n IH]; intros b fl cs c views woken Hb Ho Hn; cbn [complete_all].
  - by eexists _, _, _, _, _.
  - destruct (complete_one_ok b fl cs rs c (views 0%nat) Hb Ho) as (w & b1 & c1 & fl1 & cs1 & -> & Hb1 & Ho1 & E1).
    cbn [mbind outcome_bind].
    destruct (note_woken_ok woken w) as (woken' & -> & Hw); [lia|]. cbn [mbind outcome_bind].
    destruct (IH b1 fl1 cs1 c1 (λ i, views (S i)) woken' Hb1 Ho1 ltac:(lia))
      as (ws & b' & c' & fl' & cs' & He & Hb' & Ho' & F1).
    eexists _, _, _, _, _. split; [exact He|]. split; [exact Hb'|]. split; [done|]. by eapply later_trans.
Qed.

(** ** [submit] *)

(** What [write_rings] stores, for a chain of three. *)
Definition ring_stores (b : Blk) (m : Mem) (i j k : nat) : Mem :=
  let slot := wrapping_sub 16 (avail_idx (queue b)) 1 mod QUEUE_SIZE in
  let m := write_mem m (desc_at b i) (desc_of b i) in
  let m := write_mem m (desc_at b j) (desc_of b j) in
  let m := write_mem m (desc_at b k) (desc_of b k) in
  let m := write_mem m (avail_at b + AVAIL_SLOTS_OFFSET + slot * 2)
             (from_option (to_le_bytes 2) [] (avail_ring (queue b) !! Z.to_nat slot)) in
  write_mem m (avail_at b + AVAIL_IDX_OFFSET) (to_le_bytes 2 (avail_idx (queue b))).

Lemma write_rings_ok b fl cs m i j k :
  qinv (queue b) fl cs → qsize (queue b) = QUEUE_SIZE → [i; j; k] ∈ cs →
  write_rings b m (Z.of_nat i) = Ret (ring_stores b m i j k).
Proof.
  intros Hq Hs Hc. pose proof (qi_chains _ _ _ Hq) as Hch. rewrite Forall_forall in Hch.
  destruct (next_in_three _ _ _ _ (Hch _ Hc)) as (Hi & Hj & Hk).
  assert (∀ x, x ∈ [i; j; k] → descriptor_bytes (queue b) (Z.of_nat x) = Some (desc_of b x)) as Hd.
  { intros x Hx. assert (x < length (desc (queue b)))%nat as Hlt.
    { eapply (qinv_lt _ _ _ _ Hq). apply elem_of_app. right. by eapply in_chain. }
    unfold descriptor_bytes, desc_of. rewrite Nat2Z.id. destruct (lookup_lt_is_Some_2 _ _ Hlt) as [d ->]. done. }
  unfold write_rings. change (Z.to_nat QUEUE_SIZE) with (S (S (S 61))). cbn [write_descriptors].
  assert (ring_virt b + ldesc (ring_layout QUEUE_SIZE) = ring_virt b) as -> by (cbn; lia).
  rewrite (Hd i) by set_solver. cbn [expect mbind outcome_bind]. rewrite Hi. cbn [mbind outcome_bind].
  rewrite (Hd j) by set_solver. cbn [expect mbind outcome_bind]. rewrite Hj. cbn [mbind outcome_bind].
  rewrite (Hd k) by set_solver. cbn [expect mbind outcome_bind]. rewrite Hk. cbn [mbind outcome_bind].
  pose proof (Z.mod_pos_bound (wrapping_sub 16 (avail_idx (queue b)) 1) QUEUE_SIZE ltac:(done)) as Hm.
  pose proof (qi_avail _ _ _ Hq) as Ha. unfold avail_slot_bytes, avail_index.
  destruct (lookup_lt_is_Some_2 (avail_ring (queue b)) (Z.to_nat (wrapping_sub 16 (avail_idx (queue b)) 1 mod QUEUE_SIZE)))
    as [v Hv]; [lia|]. unfold ring_stores. rewrite Hv. reflexivity.
Qed.

Definition header_at (b : Blk) (i : nat) : Z := meta_virt b + Z.of_nat i * META_STRIDE.
Definition bounce_at (b : Blk) (i : nat) : Z := data_virt b + Z.of_nat i * SLOT_BYTES.

(** What [submit] stores outside the rings. *)
Definition payload (b : Blk) (m : Mem) (i : nat) (lba : Z) (out : option (list byte)) : Mem :=
  let m := write_mem m (header_at b i) (header_to_bytes (header_for lba out)) in
  let m := write_mem m (header_at b i + RequestHeader_BYTES) [z2b 255] in
  match out with Some bytes => write_mem m (bounce_at b i) bytes | None => m end.

(** The descriptor [describe] leaves: the link is kept. *)
Definition described (d : Descriptor) (a l : Z) (w : bool) : Descriptor :=
  mkDesc a l (Z.lor (if has_next d then DESC_F_NEXT else 0) (if w then DESC_F_WRITE else 0)) (next d).

(** Describing a descriptor of a chain leaves the chains as they are. *)
Lemma describe_step q fl cs i a l w :
  qinv q fl cs → i ∈ concat cs →
  ∃ q' d, describe q (Z.of_nat i) a l w = Ret q' ∧ qinv q' fl cs ∧ qsize q' = qsize q ∧ in_flight q' = in_flight q ∧
    avail_idx q' = avail_idx q ∧ avail_ring q' = avail_ring q ∧ desc q !! i = Some d ∧
    desc q' = <[i := described d a l w]> (desc q).
Proof.
  intros Hq Hi. destruct (describe_ok q fl cs i a l w Hq Hi) as (q' & E & Hq' & d & d' & Hd & -> & Ea & El & _ & En & Ef).
  exists (set_desc q (<[i := d']> (desc q))), d. do 7 (split; [done|]). cbn. f_equal. destruct d' as [a' l' f' n']. cbn in *.
  unfold described, has_next. subst. f_equal. f_equal. unfold DESC_F_NEXT. change 1 with (2 ^ 0). rewrite land_pow2 by lia.
  by destruct (Z.testbit (flags d) 0).
Qed.

Lemma describe_three q fl cs i j k hdr dat len rd :
  qinv q fl ([i; j; k] :: cs) →
  ∃ q1 q2 q3, describe q (Z.of_nat i) hdr RequestHeader_BYTES false = Ret q1 ∧ describe q1 (Z.of_nat j) dat len rd = Ret q2 ∧
    describe q2 (Z.of_nat k) (hdr + RequestHeader_BYTES) 1 true = Ret q3 ∧ qinv q3 fl ([i; j; k] :: cs) ∧
    (qsize q3 = qsize q ∧ in_flight q3 = in_flight q ∧ avail_idx q3 = avail_idx q ∧ avail_ring q3 = avail_ring q) ∧
    request_chain (desc q3) i j k hdr dat len rd ∧ ∀ x, x ∉ [i; j; k] → desc q3 !! x = desc q !! x.
Proof.
  intros Hq. assert (∀ x, x ∈ [i; j; k] → x ∈ concat ([i; j; k] :: cs)) as Hin.
  { intros x Hx. apply elem_of_concat. exists [i; j; k]. split; [done|left]. }
  pose proof (qinv_NoDup _ _ _ Hq) as Hnd. apply NoDup_app in Hnd as (_ & _ & Hnd). apply (NoDup_app [i; j; k]) in Hnd as [Hnd _].
  apply NoDup_cons in Hnd as [Hni Hnd]. apply NoDup_cons in Hnd as [Hnj _].
  assert (i ≠ j ∧ i ≠ k ∧ j ≠ k) as (Hij & Hik & Hjk) by (clear - Hni Hnj; set_solver).
  pose proof (qi_chains _ _ _ Hq) as Hch. apply Forall_cons in Hch as [(t & x & Ht & Hx & Hn & (y & Hy & Hyn & Hj) & (z & Hz & Hzn & Hk) & _) _].
  cbn in Ht. injection Ht as <-.
  destruct (describe_step q fl _ i hdr RequestHeader_BYTES false Hq (Hin i ltac:(set_solver))) as (q1 & di & D1 & Hq1 & S1 & F1 & V1 & R1 & G1 & E1).
  destruct (describe_step q1 fl _ j dat len rd Hq1 (Hin j ltac:(set_solver))) as (q2 & dj & D2 & Hq2 & S2 & F2 & V2 & R2 & G2 & E2).
  destruct (describe_step q2 fl _ k (hdr + RequestHeader_BYTES) 1 true Hq2 (Hin k ltac:(set_solver))) as (q3 & dk & D3 & Hq3 & S3 & F3 & V3 & R3 & G3 & E3).
  exists q1, q2, q3. do 4 (split; [done|]). split; [split_and!; congruence|]. rewrite E1 in G2. rewrite E2, E1 in G3.
  rewrite list_lookup_insert_ne in G2, G3 by done. rewrite list_lookup_insert_ne in G3 by done. simplify_eq.
  assert (∀ u, (u < length (desc q))%nat ↔ is_Some (desc q !! u)) as Hlen by (intros; symmetry; apply lookup_lt_is_Some).
  split; [split|].
  - rewrite E3, E2, E1, !(list_lookup_insert_ne _ _ i), list_lookup_insert_eq by (done || by apply Hlen). unfold described. by rewrite Hyn, Hj.
  - rewrite E3, E2, E1, (list_lookup_insert_ne _ k j), list_lookup_insert_eq by (done || rewrite length_insert; by apply Hlen).
    unfold described. by rewrite Hzn, Hk.
  - eexists. rewrite E3, E2, E1, list_lookup_insert_eq by (rewrite !length_insert; by apply Hlen). unfold described. by rewrite Hn.
  - intros u Hu. rewrite E3, E2, E1, !list_lookup_insert_ne by (intros ->; apply Hu; set_solver). done.
Qed.

Lemma addr_chk b fl cs i : binv b fl cs → (i < Z.to_nat QUEUE_SIZE)%nat →
  mul_chk 64 (Z.of_nat i) META_STRIDE = Ret (Z.of_nat i * META_STRIDE) ∧
  mul_chk 64 (Z.of_nat i) SLOT_BYTES = Ret (Z.of_nat i * SLOT_BYTES) ∧
  add_chk 64 (meta_phys b) (Z.of_nat i * META_STRIDE) = Ret (meta_phys b + Z.of_nat i * META_STRIDE) ∧
  add_chk 64 (meta_phys b + Z.of_nat i * META_STRIDE) RequestHeader_BYTES =
    Ret (meta_phys b + Z.of_nat i * META_STRIDE + RequestHeader_BYTES) ∧
  add_chk 64 (data_phys b) (Z.of_nat i * SLOT_BYTES) = Ret (data_phys b + Z.of_nat i * SLOT_BYTES) ∧
  add_chk 64 (meta_virt b) (Z.of_nat i * META_STRIDE) = Ret (header_at b i) ∧
  add_chk 64 (data_virt b) (Z.of_nat i * SLOT_BYTES) = Ret (bounce_at b i).
Proof.
  intros Hb Hi. pose proof (bi_addr _ _ _ Hb) as Ha. repeat (apply Forall_cons in Ha as [? Ha]).
  unfold QUEUE_SIZE, SLOT_BYTES, META_STRIDE, RequestHeader_BYTES in *.
  split_and!; first [apply mul_chk_ok | apply add_chk_ok]; lia.
Qed.

Record built (b b' : Blk) (i j k : nat) (me len : Z) (rd : bool) : Prop := {
  bt_slots : slots b' = <[i := Some (mkSlot me false 255 0 false)]> (slots b);
  bt_regions : regions b' = regions b;
  bt_phys : (meta_phys b', data_phys b') = (meta_phys b, data_phys b);
  bt_desc : ∀ x, x ∉ [i; j; k] → desc (queue b') !! x = desc (queue b) !! x;
  bt_data : request_chain (desc (queue b')) i j k (meta_phys b + Z.of_nat i * META_STRIDE)
              (data_phys b + Z.of_nat i * SLOT_BYTES) len rd;
  bt_avail : avail_idx (queue b') = wrapping_add 16 (avail_idx (queue b)) 1 ∧
    avail_ring (queue b') = <[Z.to_nat (avail_idx (queue b) mod QUEUE_SIZE) := Z.of_nat i]> (avail_ring (queue b))
}.

Lemma binv_published b fl cs fl' i j k q' me :
  binv b fl cs → qinv q' fl' ([i; j; k] :: cs) → qsize q' = qsize (queue b) →
  in_flight q' = <[i := true]> (in_flight (queue b)) → slots b !! i = Some None →
  binv (with_slots (with_queue b q') (<[i := Some (mkSlot me false 255 0 false)]> (slots b))) fl' ([i; j; k] :: cs).
Proof.
  intros [B1 B2 B3 B4 B5 B6 B7 B8] Hq Es Hf Hi. pose proof (lookup_lt_Some _ _ _ Hi) as Hlt.
  assert (i < length (in_flight (queue b)))%nat as Hfl.
  { pose proof (qi_flight _ _ _ B1). rewrite B2 in *. lia. }
  split; cbn; try done.
  - congruence.
  - by constructor.
  - by rewrite length_insert.
  - intros h. destruct (decide (h = i)) as [->|Hne].
    + rewrite list_lookup_insert_eq by done. split; [eauto|]. intros _. exists [j; k]. left.
    + rewrite list_lookup_insert_ne by done. rewrite <- B5. setoid_rewrite elem_of_cons. naive_solver.
  - intros h sl. rewrite Hf. destruct (decide (h = i)) as [->|Hne].
    + rewrite !list_lookup_insert_eq by done. by intros [= <-].
    + rewrite !list_lookup_insert_ne by done. apply B6.
Qed.

Lemma build_request_ok b fl cs q fl' i j k m me lba len out :
  binv b fl cs → qinv q fl' ([i; j; k] :: cs) → qsize q = qsize (queue b) → in_flight q = in_flight (queue b) →
  avail_idx q = avail_idx (queue b) → avail_ring q = avail_ring (queue b) →
  (∀ x, x ∉ [i; j; k] → desc q !! x = desc (queue b) !! x) → slots b !! i = Some None →
  ∃ b', build_request (with_queue b q) m me (Z.of_nat i) lba len out =
      Ret (b', ring_stores b' (payload b m i lba out) i j k) ∧
    binv b' fl' ([i; j; k] :: cs) ∧ built b b' i j k me len (bool_decide (out = None)).
Proof.
  intros Hb Hq Es Ef Ei Er Ed Hi. pose proof (bi_slots _ _ _ Hb) as Hls. pose proof (lookup_lt_Some _ _ _ Hi) as Hlt.
  pose proof (qi_chains _ _ _ Hq) as Hch. apply Forall_cons in Hch as [Hch _].
  destruct (next_in_three _ _ _ _ Hch) as (Hnj & Hnk & _).
  destruct (addr_chk b fl cs i Hb ltac:(lia)) as (A1 & A2 & A3 & A4 & A5 & A6 & A7).
  destruct (describe_three q fl' cs i j k (meta_phys b + Z.of_nat i * META_STRIDE) (data_phys b + Z.of_nat i * SLOT_BYTES) len
    (bool_decide (out = None)) Hq) as (q1 & q2 & q3 & D1 & D2 & D3 & Hq3 & (S3 & F3 & V3 & R3) & Hrc & O3).
  destruct (publish_ok q3 fl' ([i; j; k] :: cs) i [j; k] Hq3 ltac:(left)) as (q4 & P & Hq4 & F4 & _ & V4 & R4 & S4).
  set (b' := with_slots (with_queue b q4) (<[i := Some (mkSlot me false 255 0 false)]> (slots b))).
  assert (desc q4 = desc q3) as Ed4.
  { clear - P. unfold publish in P. inv_ret. by simplify_eq. }
  assert (in_flight q4 = <[i := true]> (in_flight (queue b))) as F by congruence.
  assert (binv b' fl' ([i; j; k] :: cs)) as Hb' by (apply (binv_published b fl cs); try done; congruence).
  exists b'. split; [|split; [done|]].
  - unfold build_request. cbn [queue with_queue meta_phys meta_virt data_phys data_virt].
    rewrite Hnj. cbn [mbind outcome_bind expect]. rewrite Hnk. cbn [mbind outcome_bind expect].
    rewrite A1. cbn [mbind outcome_bind]. rewrite A3. cbn [mbind outcome_bind]. rewrite A4. cbn [mbind outcome_bind].
    rewrite A2. cbn [mbind outcome_bind]. rewrite A5. cbn [mbind outcome_bind]. rewrite A6. cbn [mbind outcome_bind].
    rewrite A7. cbn [mbind outcome_bind]. rewrite D1. cbn [mbind outcome_bind]. rewrite D2. cbn [mbind outcome_bind].
    rewrite D3. cbn [mbind outcome_bind]. rewrite set_slot_ok by done. cbn [mbind outcome_bind queue with_slots with_queue slots].
    rewrite P. cbn [mbind outcome_bind].
    rewrite (write_rings_ok b' fl' ([i; j; k] :: cs) _ i j k Hq4 ltac:(cbn; pose proof (bi_size _ _ _ Hb); congruence) ltac:(left)).
    done.
  - split; try done.
    + intros x Hx. subst b'. cbn. by rewrite Ed4, O3, Ed.
    + subst b'. cbn. by rewrite Ed4.
    + subst b'. cbn. by rewrite V4, R4, V3, R3, S3, Ei, Er, Es, (bi_size _ _ _ Hb).
Qed.

(** ** Steps *)

(** A chain that is not allocated has no slot. *)
Lemma fresh_slot b fl cs q' rest i c :
  binv b fl cs → fl = (i :: c) ++ rest → qinv q' rest ((i :: c) :: cs) → slots b !! i = Some None.
Proof.
  intros Hb Hfl Hq'. pose proof (bi_q _ _ _ Hb) as Hq. pose proof (qinv_NoDup _ _ _ Hq) as Hnd.
  assert (i < length (slots b))%nat as Hlt.
  { pose proof (qinv_lt _ _ _ i Hq ltac:(rewrite Hfl; left)) as H. pose proof (qi_desc _ _ _ Hq).
    rewrite (bi_size _ _ _ Hb) in *. rewrite (bi_slots _ _ _ Hb). lia. }
  destruct (lookup_lt_is_Some_2 _ _ Hlt) as [[x|] Hx]; [|done]. exfalso.
  destruct (proj2 (bi_chain _ _ _ Hb i) (ex_intro _ x Hx)) as [c' Hc']. apply NoDup_app in Hnd as (_ & Hd & _).
  apply (Hd i); [rewrite Hfl; left|]. by eapply in_chain; [|left].
Qed.

Definition refused (len : Z) : option BlockError :=
  if (len =? 0) || negb (len mod SECTOR_BYTES =? 0) then Some Unaligned
  else if MAX_SECTORS * SECTOR_BYTES <? len then Some TooLarge else None.

(** [submit] refuses without touching anything, or publishes a chain. *)
Lemma submit_ok s b fl cs me lba len out :
  device s = Some b → binv b fl cs →
  (∃ e, submit s me lba len out = Ret (Err e, s) ∧
        (refused len = Some e ∨ refused len = None ∧ e = QueueFull ∧ free (queue b) < 3)) ∨
  refused len = None ∧ ∃ i j k b' fl' ,
    submit s me lba len out =
      Ret (Ok (Z.of_nat i), mkSys (Some b') (ring_stores b' (payload b (memory s) i lba out) i j k) (counters s)) ∧
    slots b !! i = Some None ∧ binv b' fl' ([i; j; k] :: cs) ∧ built b b' i j k me len (bool_decide (out = None)) ∧ free (queue b') = free (queue b) - 3.
Proof.
  intros Hd Hb. unfold submit, refused. destruct (_ || _); [left; by exists Unaligned; auto|].
  destruct (_ <? _); [left; by exists TooLarge; auto|]. rewrite Hd.
  destruct (Z.lt_ge_cases (free (queue b)) 3) as [Hf|Hf].
  { left. exists QueueFull. rewrite alloc_chain_refused by lia. auto. }
  right. split; [done|]. pose proof (bi_q _ _ _ Hb) as Hq.
  destruct (alloc_chain_ok (queue b) fl cs 3 Hq ltac:(lia)) as (i & c & rest & q' & Hfl & Hlen & -> & Hq' & E1 & E2 & E3 & E4 & E5 & E6).
  cbn [mbind outcome_bind]. destruct (three_cases (i :: c)) as (i' & j & k & [= <- ->]); [lia|].
  pose proof (fresh_slot _ _ _ _ _ _ _ Hb Hfl Hq') as Hi.
  destruct (build_request_ok b fl cs q' rest i j k (memory s) me lba len out Hb Hq' E5 E4 E1 E2 E6 Hi) as (b' & -> & Hb' & Hbt).
  cbn [mbind outcome_bind]. exists i, j, k, b', rest. do 4 (split; [done|]).
  rewrite (qi_free _ _ _ (bi_q _ _ _ Hb')), (qi_free _ _ _ Hq), Hfl. cbn. lia.
Qed.

Lemma index_slot b (h : nat) x : slots b !! h = Some x → index (slots b) (Z.of_nat h) = Ret x.
Proof. apply index_nat. Qed.

(** Abandoning a slot changes neither its chain nor the device's hands. *)
Lemma binv_abandon b fl cs h x :
  binv b fl cs → slots b !! h = Some (Some x) → binv (with_slots b (<[h := Some (abandon x)]> (slots b))) fl cs.
Proof.
  intros Hb Hx. pose proof (bi_flight _ _ _ Hb h x Hx) as Hf.
  assert (with_slots b (<[h := Some (abandon x)]> (slots b)) = with_slots (with_queue b (queue b)) (<[h := Some (abandon x)]> (slots b))) as -> by done.
  eapply binv_slot; [done..|apply Hb|done|]. cbn. symmetry. by apply list_insert_id.
Qed.

Lemma finish_ok s b fl cs h x st into :
  device s = Some b → binv b fl cs → slots b !! h = Some (Some x) →
  ∃ res b' c' fl' cs' y, finish s (Z.of_nat h) st into = Ret (res, mkSys (Some b') (memory s) c') ∧ binv b' fl' cs' ∧
    slots b' = <[h := y]> (slots b) ∧ later b cs b' cs' ∧
    (st = STATUS_TIMED_OUT ∧ res = Err Timeout ∧ y = Some (abandon x) ∧ queue b' = queue b ∨
     st ≠ STATUS_TIMED_OUT ∧ y = None ∧ free (queue b') = free (queue b) + 3).
Proof.
  intros Hd Hb Hx. unfold finish. rewrite Hd. pose proof (lookup_lt_Some _ _ _ Hx) as Hlt.
  destruct (release_ok b fl cs h x Hb Hx) as (q' & fl' & cs' & Hr & Hb' & Hla & Hf).
  rewrite (index_slot _ _ _ Hx). cbn [mbind outcome_bind]. destruct (Z.eqb_spec st STATUS_TIMED_OUT) as [Hst|Hst].
  - rewrite set_slot_ok by done. cbn [mbind outcome_bind]. eexists _, _, _, fl, cs, _. split; [done|].
    split; [by apply binv_abandon|]. split; [done|]. split; [done|]. left. done.
  - destruct into as [n|]; [destruct (negb _)|]; rewrite Hr; cbn [mbind outcome_bind]; eexists _, _, _, fl', cs', _;
      (split; [done|]); (split; [done|]); (split; [done|]); (split; [done|]); right; done.
Qed.

Lemma drop_ok s b fl cs h x :
  device s = Some b → binv b fl cs → slots b !! h = Some (Some x) →
  ∃ b' c' fl' cs' y, drop_request s (Z.of_nat h) = Ret (mkSys (Some b') (memory s) c') ∧ binv b' fl' cs' ∧
    slots b' = <[h := y]> (slots b) ∧ (y = if done x then None else Some (abandon x)) ∧ later b cs b' cs'.
Proof.
  intros Hd Hb Hx. unfold drop_request. rewrite Hd. pose proof (lookup_lt_Some _ _ _ Hx) as Hlt.
  rewrite (index_slot _ _ _ Hx). cbn [mbind outcome_bind]. destruct (done x) eqn:Edn.
  - destruct (release_ok b fl cs h x Hb Hx) as (q' & fl' & cs' & -> & Hb' & Hla & _). cbn [mbind outcome_bind].
    by eexists _, _, fl', cs', _.
  - rewrite set_slot_ok by done. cbn [mbind outcome_bind]. eexists _, _, fl, cs, _. split; [done|].
    by split; [apply binv_abandon|].
Qed.

(** ** Memory *)

Definition apart (a la b lb : Z) : Prop := a + la ≤ b ∨ b + lb ≤ a.

(** The frames [init] takes are different frames. *)
Definition spaced (w : Z * Z * Z) : Prop :=
  let '(r, m, d) := w in
  apart r 4096 m 4096 ∧ apart r 4096 d (QUEUE_SIZE * SLOT_BYTES) ∧ apart m 4096 d (QUEUE_SIZE * SLOT_BYTES).

Definition fits_slot (out : option (list byte)) : Prop := ∀ bs, out = Some bs → Z.of_nat (length bs) ≤ SLOT_BYTES.

Lemma length_header h : length (header_to_bytes h) = 16%nat.
Proof. unfold header_to_bytes. by rewrite !length_app, !length_to_le_bytes. Qed.

(** [submit] stores nothing outside its own header, bounce buffer and the
    rings. *)
Lemma payload_out b m i lba out x :
  fits_slot out → x < header_at b i ∨ header_at b i + META_STRIDE ≤ x → x < bounce_at b i ∨ bounce_at b i + SLOT_BYTES ≤ x →
  payload b m i lba out x = m x.
Proof.
  intros Hf Hh Hd. unfold payload, META_STRIDE, RequestHeader_BYTES in *.
  assert (write_mem (write_mem m (header_at b i) (header_to_bytes (header_for lba out))) (header_at b i + 16) [z2b 255] x = m x) as Hm.
  { rewrite !write_mem_out; [done|rewrite length_header; lia|cbn; lia]. }
  destruct out as [bs|]; [|exact Hm]. rewrite write_mem_out; [exact Hm|]. specialize (Hf bs eq_refl). lia.
Qed.

(** What the device finds there: the header, a status byte that is not a
    success, and the data. *)
Lemma payload_written b m i lba out :
  fits_slot out → apart (header_at b i) META_STRIDE (bounce_at b i) SLOT_BYTES →
  read_mem (payload b m i lba out) (header_at b i) 16 = header_to_bytes (header_for lba out) ∧
  payload b m i lba out (header_at b i + RequestHeader_BYTES) = z2b 255 ∧
  ∀ bs, out = Some bs → read_mem (payload b m i lba out) (bounce_at b i) (length bs) = bs.
Proof.
  intros Hf Hap. unfold apart, META_STRIDE, RequestHeader_BYTES in *.
  set (m1 := write_mem (write_mem m (header_at b i) (header_to_bytes (header_for lba out))) (header_at b i + 16) [z2b 255]).
  assert (∀ x, header_at b i ≤ x < header_at b i + 32 → payload b m i lba out x = m1 x) as Hx.
  { intros x Hx. unfold payload. destruct out as [bs|]; [|done]. apply write_mem_out. specialize (Hf bs eq_refl). lia. }
  split_and!.
  - rewrite (read_mem_ext _ m1) by (intros; apply Hx; lia). unfold m1. rewrite read_other by lia. apply read_write. by rewrite length_header.
  - rewrite Hx by lia. unfold m1, write_mem at 1. cbn [length]. rewrite (proj2 (Z.leb_le _ _)), (proj2 (Z.ltb_lt _ _)) by lia.
    by replace (header_at b i + 16 - (header_at b i + 16)) with 0 by lia.
  - intros bs ->. unfold payload. by apply read_write.
Qed.

Lemma desc_of_length b x : (x < length (desc (queue b)))%nat → length (desc_of b x) = 16%nat.
Proof.
  intros Hx. unfold desc_of. destruct (lookup_lt_is_Some_2 _ _ Hx) as [d ->]. cbn [from_option]. unfold to_bytes.
  by rewrite !length_app, !length_to_le_bytes.
Qed.
(** ** The rings in memory *)

Section Rings.
Context (b : Blk) (fl : list nat) (cs : list (list nat)) (m : Mem) (i j k : nat).
Context (Hq : qinv (queue b) fl cs) (Hs : qsize (queue b) = QUEUE_SIZE) (Hc : [i; j; k] ∈ cs).
Let slot := Z.to_nat (wrapping_sub 16 (avail_idx (queue b)) 1 mod QUEUE_SIZE).

Lemma ring_chain : NoDup [i; j; k] ∧ ∀ x, x ∈ [i; j; k] → (x < 64)%nat ∧ length (desc_of b x) = 16%nat.
Proof.
  split.
  - pose proof (qinv_NoDup _ _ _ Hq) as Hnd. apply elem_of_Permutation in Hc as [cs' Hcs]. rewrite (concat_perm _ _ Hcs) in Hnd.
    apply NoDup_app in Hnd as (_ & _ & Hnd). by apply (NoDup_app [i; j; k]) in Hnd as [? _].
  - intros x Hx. assert (x < length (desc (queue b)))%nat as Hlt.
    { eapply (qinv_lt _ _ _ _ Hq). apply elem_of_app. right. by eapply in_chain. }
    pose proof (qi_desc _ _ _ Hq). unfold QUEUE_SIZE in *. split; [lia|by apply desc_of_length].
Qed.

Lemma ring_slot : (slot < 64)%nat ∧ ∃ v, avail_ring (queue b) !! slot = Some v.
Proof.
  pose proof (Z.mod_pos_bound (wrapping_sub 16 (avail_idx (queue b)) 1) QUEUE_SIZE ltac:(done)) as Hm.
  pose proof (qi_avail _ _ _ Hq) as Ha. unfold slot, QUEUE_SIZE in *. split; [lia|].
  apply lookup_lt_is_Some_2. lia.
Qed.

(** Outside the five places, memory is as it was. *)
Lemma ring_stores_other x :
  (∀ y, y ∈ [i; j; k] → x < desc_at b y ∨ desc_at b y + 16 ≤ x) →
  (x < avail_at b + AVAIL_SLOTS_OFFSET + Z.of_nat slot * 2 ∨ avail_at b + AVAIL_SLOTS_OFFSET + Z.of_nat slot * 2 + 2 ≤ x) →
  (x < avail_at b + AVAIL_IDX_OFFSET ∨ avail_at b + AVAIL_IDX_OFFSET + 2 ≤ x) →
  ring_stores b m i j k x = m x.
Proof.
  intros Hd Hsl Hi. destruct ring_chain as [_ Hch]. destruct ring_slot as [Hlt [v Hv]]. unfold ring_stores.
  pose proof (Z.mod_pos_bound (wrapping_sub 16 (avail_idx (queue b)) 1) QUEUE_SIZE ltac:(done)) as Hm.
  fold slot. rewrite Hv. cbn [from_option].
  replace (wrapping_sub 16 (avail_idx (queue b)) 1 mod QUEUE_SIZE) with (Z.of_nat slot) by (unfold slot; lia).
  assert (∀ y, y ∈ [i; j; k] → x < desc_at b y ∨ desc_at b y + Z.of_nat (length (desc_of b y)) ≤ x) as Hd'.
  { intros y Hy. destruct (Hch y Hy) as [_ ->]. by apply Hd. }
  rewrite !write_mem_out; try done; rewrite ?length_to_le_bytes; try lia; apply Hd'; set_solver.
Qed.

Lemma ring_stores_out x : x < ring_virt b ∨ ring_virt b + 4096 ≤ x → ring_stores b m i j k x = m x.
Proof.
  intros Hx. destruct ring_chain as [_ Hch]. destruct ring_slot as [Hlt _].
  assert (avail_at b = ring_virt b + 1024) as Ea by done. unfold AVAIL_IDX_OFFSET, AVAIL_SLOTS_OFFSET in *.
  apply ring_stores_other; rewrite ?Ea; unfold AVAIL_IDX_OFFSET, AVAIL_SLOTS_OFFSET; [|lia|lia].
  intros y Hy. destruct (Hch y Hy) as [Hy' _]. unfold desc_at, Descriptor_BYTES. lia.
Qed.
Lemma ring_stores_written :
  (∀ y, y ∈ [i; j; k] → read_mem (ring_stores b m i j k) (desc_at b y) 16 = desc_of b y) ∧
  (∀ v, avail_ring (queue b) !! slot = Some v →
     read_mem (ring_stores b m i j k) (avail_at b + AVAIL_SLOTS_OFFSET + Z.of_nat slot * 2) 2 = to_le_bytes 2 v) ∧
  read_mem (ring_stores b m i j k) (avail_at b + AVAIL_IDX_OFFSET) 2 = to_le_bytes 2 (avail_idx (queue b)).
Proof.
  destruct ring_chain as [Hnd Hch]. destruct ring_slot as [Hlt [v Hv]].
  destruct (Hch i ltac:(set_solver)) as [Hi Li], (Hch j ltac:(set_solver)) as [Hj Lj], (Hch k ltac:(set_solver)) as [Hk Lk].
  apply NoDup_cons in Hnd as [Hni Hnd]. apply NoDup_cons in Hnd as [Hnj _].
  assert (i ≠ j ∧ i ≠ k ∧ j ≠ k) as (Hij & Hik & Hjk) by (clear - Hni Hnj; set_solver).
  assert (avail_at b = ring_virt b + 1024) as Ea by done. unfold ring_stores.
  pose proof (Z.mod_pos_bound (wrapping_sub 16 (avail_idx (queue b)) 1) QUEUE_SIZE ltac:(done)) as Hm.
  fold slot. rewrite Hv. cbn [from_option].
  replace (wrapping_sub 16 (avail_idx (queue b)) 1 mod QUEUE_SIZE) with (Z.of_nat slot) by (unfold slot; lia).
  rewrite Ea. unfold desc_at, Descriptor_BYTES, AVAIL_SLOTS_OFFSET, AVAIL_IDX_OFFSET. split_and!.
  - intros y Hy. assert (y = i ∨ y = j ∨ y = k) as [->|[->| ->]] by (clear - Hy; set_solver);
      repeat (rewrite read_other by (rewrite ?length_to_le_bytes, ?Li, ?Lj, ?Lk; lia));
      by rewrite read_write by (by rewrite ?Li, ?Lj, ?Lk).
  - intros v' [= <-]. rewrite read_other by (rewrite length_to_le_bytes; lia). by apply read_write.
  - by apply read_write.
Qed.
End Rings.
(** The slot [publish] filled is the one [write_rings] copies. *)
Lemma published_slot idx : fits 16 idx → wrapping_sub 16 (wrapping_add 16 idx 1) 1 mod QUEUE_SIZE = idx mod QUEUE_SIZE.
Proof.
  unfold fits, wrapping_sub, wrapping_add, QUEUE_SIZE. intros H. rewrite Zminus_mod_idemp_l.
  replace (idx + 1 - 1) with idx by lia. by rewrite (Z.mod_small idx).
Qed.

(** A submission keeps the rings in memory equal to the driver's copy,
    though it writes only three descriptors and one slot. *)
Lemma mirrored_submit b fl cs b' fl' i j k me lba len out m :
  binv b fl cs → binv b' fl' ([i; j; k] :: cs) → built b b' i j k me len (bool_decide (out = None)) → spaced (regions b) → fits_slot out →
  mirrored b cs m → mirrored b' ([i; j; k] :: cs) (ring_stores b' (payload b m i lba out) i j k).
Proof.
  intros Hb Hb' [T1 T2 _ T3 T4 [T5 T6]] Hsp Hf [M1 M2 M3]. injection T2 as R1 R2 R3.
  pose proof (bi_q _ _ _ Hb') as Hq'. pose proof (bi_size _ _ _ Hb') as Hs'. pose proof (bi_q _ _ _ Hb) as Hq.
  destruct (ring_chain b' fl' _ i j k Hq' Hs' ltac:(left)) as [Hnd Hch].
  destruct (ring_slot b' fl' _ Hq' Hs') as [Hlt _].
  destruct (ring_stores_written b' fl' _ (payload b m i lba out) i j k Hq' Hs' ltac:(left)) as (W1 & W2 & W3).
  pose proof (ring_stores_other b' fl' _ (payload b m i lba out) i j k Hq' Hs' ltac:(left)) as Hother.
  rewrite T5, published_slot in * by apply Hq. set (p := Z.to_nat (avail_idx (queue b) mod QUEUE_SIZE)) in *.
  assert (avail_at b' = ring_virt b + 1024) as Ea by (unfold avail_at; by rewrite R1).
  assert (∀ x, ring_virt b ≤ x < ring_virt b + 4096 → payload b m i lba out x = m x) as Hpay.
  { intros x Hx. unfold spaced, regions, apart in Hsp. destruct Hsp as (S1 & S2 & _). destruct (Hch i ltac:(set_solver)) as [Hi _].
    apply payload_out; [done|..]; unfold header_at, bounce_at, META_STRIDE, SLOT_BYTES, QUEUE_SIZE in *; lia. }
  unfold AVAIL_SLOTS_OFFSET, AVAIL_IDX_OFFSET in *. split.
  - intros y Hy. cbn [concat] in Hy. apply elem_of_app in Hy as [Hy|Hy]; [by apply W1|].
    assert (y ∉ [i; j; k]) as Hny.
    { intros Hin. pose proof (qinv_NoDup _ _ _ Hq') as Hn. apply NoDup_app in Hn as (_ & _ & Hn).
      apply (NoDup_app [i; j; k]) in Hn as (_ & Hd & _). by apply (Hd y). }
    assert (y < 64)%nat as Hy64.
    { pose proof (qinv_lt _ _ _ y Hq ltac:(apply elem_of_app; by right)). pose proof (qi_desc _ _ _ Hq).
      rewrite (bi_size _ _ _ Hb) in *. unfold QUEUE_SIZE in *. lia. }
    unfold desc_of. rewrite T3 by done. fold (desc_of b y). rewrite <- (M1 y Hy).
    unfold desc_at, Descriptor_BYTES in *. rewrite R1 in *. apply read_mem_ext. intros x Hx.
    rewrite Hother, Hpay; [done|lia|..]; rewrite ?Ea; try lia. intros z Hz. destruct (Hch z Hz) as [Hz64 _].
    assert (z ≠ y) by (intros ->; done). lia.
  - intros q v. rewrite T6. fold p. destruct (decide (q = p)) as [->|Hne].
    + rewrite list_lookup_insert_eq by (rewrite <- (length_insert _ p (Z.of_nat i)), <- T6; pose proof (qi_avail _ _ _ Hq'); rewrite Hs' in *; unfold QUEUE_SIZE in *; lia).
      intros [= <-]. apply W2. rewrite T6. apply list_lookup_insert_eq.
      rewrite <- (length_insert _ p (Z.of_nat i)), <- T6. pose proof (qi_avail _ _ _ Hq'). rewrite Hs' in *. unfold QUEUE_SIZE in *. lia.
    + rewrite list_lookup_insert_ne by done. intros Hv. pose proof (lookup_lt_Some _ _ _ Hv) as Hq64.
      pose proof (qi_avail _ _ _ Hq) as Hal. rewrite (bi_size _ _ _ Hb) in Hal. unfold QUEUE_SIZE in Hal.
      rewrite <- (M2 q v Hv). unfold avail_at in *. rewrite R1. apply read_mem_ext.
      change (lavail (ring_layout QUEUE_SIZE)) with 1024 in *. intros x Hx.
      rewrite Hother, Hpay; [done|lia|..]; rewrite ?R1; try lia. intros z Hz. destruct (Hch z Hz) as [Hz64 _].
      unfold desc_at, Descriptor_BYTES. rewrite R1. lia.
  - rewrite T5. exact W3.
Qed.

(** The device leaves alone the descriptor table and the available ring. *)
Definition keeps_rings (w : Z * Z * Z) (st : St) (l : Label) : Prop :=
  match l with
  | LDevice m => ∀ x, w.1.1 ≤ x < w.1.1 + lused (ring_layout QUEUE_SIZE) → m x = memory (sys st) x
  | _ => True
  end.

Lemma mirrored_ext b fl cs m m' :
  binv b fl cs → (∀ x, ring_virt b ≤ x < ring_virt b + lused (ring_layout QUEUE_SIZE) → m' x = m x) →
  mirrored b cs m → mirrored b cs m'.
Proof.
  intros Hb Hm [M1 M2 M3]. change (lused (ring_layout QUEUE_SIZE)) with 1160 in Hm.
  pose proof (bi_q _ _ _ Hb) as Hq. pose proof (bi_size _ _ _ Hb) as Hs.
  assert (avail_at b = ring_virt b + 1024) as Ea by done. unfold AVAIL_SLOTS_OFFSET, AVAIL_IDX_OFFSET in *. split.
  - intros i Hi. rewrite <- M1 by done. apply read_mem_ext. intros x Hx. apply Hm.
    pose proof (qinv_lt _ _ _ i Hq ltac:(apply elem_of_app; by right)). pose proof (qi_desc _ _ _ Hq).
    unfold desc_at, Descriptor_BYTES, QUEUE_SIZE in *. lia.
  - intros i v Hv. rewrite <- (M2 i v Hv). apply read_mem_ext. intros x Hx. apply Hm.
    pose proof (lookup_lt_Some _ _ _ Hv). pose proof (qi_avail _ _ _ Hq). rewrite Ea in Hx. unfold QUEUE_SIZE in *. lia.
  - rewrite <- M3. apply read_mem_ext. intros x Hx. apply Hm. rewrite Ea in Hx. lia.
Qed.

Lemma refused_bound len : refused len = None → len ≤ SLOT_BYTES.
Proof.
  unfold refused. destruct (_ || _); [done|]. by destruct (Z.ltb_spec (MAX_SECTORS * SECTOR_BYTES) len).
Qed.

Lemma refused_fits len out :
  from_option (λ b : list byte, Z.of_nat (length b) =? len) (0 <=? len) out = true → refused len = None → fits_slot out.
Proof.
  intros Hl Hr%refused_bound bs ->. cbn in Hl. bool_cases. lia.
Qed.

Lemma dma_submit b cs b' fl' i j k me len rd :
  binv b' fl' ([i; j; k] :: cs) → built b b' i j k me len rd → len ≤ SLOT_BYTES → dma b cs → dma b' ([i; j; k] :: cs).
Proof.
  intros Hb' [_ _ [= P1 P2] T3 T4 _] Hl Hd c Hc. apply elem_of_cons in Hc as [->|Hc].
  { exists i, j, k, len, rd. by rewrite P1, P2. }
  destruct (Hd c Hc) as (i' & j' & k' & len' & rd' & -> & Hl' & Hr). exists i', j', k', len', rd'. do 2 (split; [done|]).
  rewrite P1, P2. eapply request_chain_ext; [|exact Hr]. intros x Hx. apply T3. intros Hin.
  pose proof (qinv_NoDup _ _ _ (bi_q _ _ _ Hb')) as Hn. apply NoDup_app in Hn as (_ & _ & Hn).
  apply (NoDup_app [i; j; k]) in Hn as (_ & Hdi & _). apply (Hdi x Hin). apply elem_of_concat. eauto.
Qed.

(** The device record afterwards is a later one of the same device. *)
Lemma later_kept p b cs b' cs' w m :
  later b cs b' cs' → regions b = w → dma b cs → (p = true → mirrored b cs m) →
  regions b' = w ∧ dma b' cs' ∧ (p = true → mirrored b' cs' m).
Proof.
  intros Hl <- Hd Hm. split; [apply Hl|]. split; [by eapply dma_later|]. intros Hp. eapply mirrored_later; [exact Hl|auto].
Qed.

(** No step panics, whatever the device does, and each keeps the invariant. *)
Lemma block_step_ok polite w st l o :
  spaced w → inv polite w st → (polite = true → keeps_rings w st l) → exec st l = Some o →
  ∃ st', o = Ret st' ∧ inv polite w st'.
Proof.
  intros Hsp (b & fl & cs & Hd & Hb & Ho & Hw & Hdm & Hmi) Hpol. destruct l as [r lba len out tf|r|r e|r|r|views|m]; cbn [exec].
  - destruct (reqs st !! r) eqn:Hr; [done|]. destruct (from_option _ _ _) eqn:Hout; [|done]. intros [= <-].
    destruct tf; [eexists; split; [done|]; by exists b, fl, cs|].
    destruct (submit_ok (sys st) b fl cs r lba len out Hd Hb) as [(e & -> & _)|(Href & i & j & k & b' & fl' & -> & Hi & Hb' & Hbt & _)];
      cbn [mbind outcome_bind]; eexists; (split; [done|]); [by exists b, fl, cs|].
    exists b', fl', ([i; j; k] :: cs). split; [done|]. split; [done|]. cbn. rewrite (bt_slots _ _ _ _ _ _ _ _ Hbt).
    split; [by apply owned_new|]. split; [by rewrite (bt_regions _ _ _ _ _ _ _ _ Hbt)|].
    split; [eapply dma_submit; [done..|by eapply refused_bound|done]|]. intros Hp.
    eapply mirrored_submit; [done..| |by eapply refused_fits|by apply Hmi]. by rewrite Hw.
  - destruct (reqs st !! r) as [q|] eqn:Hr; [|done]. cbn. destruct (rpc q) eqn:Hp; try done. intros [= <-].
    destruct (ow_slot _ _ Ho r q Hr) as (h & x & Eh & Hx & Ha & _). unfold poll_device. rewrite Hd, Eh, (index_slot _ _ _ Hx).
    cbn. eexists. split; [done|]. exists b, fl, cs. split; [done|]. split; [done|]. split; [|done]. cbn. rewrite <- Eh.
    apply owned_moves; [done|done|]. intros h' x' s Eh' Hx'. assert (h' = h) as -> by lia. destruct (done x) eqn:E; [|done].
    intros [= <-]. right. by simplify_eq.
  - destruct (reqs st !! r) as [q|] eqn:Hr; [|done]. cbn. destruct (rpc q) eqn:Hp; try done. intros [= <-].
    eexists. split; [done|]. exists b, fl, cs. split; [done|]. split; [done|]. split; [|done]. apply owned_moves; [done|done|].
    intros h x s _ _. destruct e; [|done]. intros [= <-]. by left.
  - destruct (reqs st !! r) as [q|] eqn:Hr; [|done]. cbn. destruct (rpc q) as [| |s] eqn:Hp; try done. intros [= <-].
    destruct (ow_slot _ _ Ho r q Hr) as (h & x & Eh & Hx & Ha & _). rewrite Eh.
    destruct (finish_ok _ b fl cs h x s (rread q) Hd Hb Hx) as (res & b' & c' & fl' & cs' & y & -> & Hb' & Hs & Hre & Hy).
    cbn. eexists. split; [done|]. exists b', fl', cs'. split; [done|]. split; [done|]. split; [|by eapply later_kept].
    cbn. rewrite Hs.
    eapply owned_ended; [done..|]. intros x' ->. destruct Hy as [(_ & _ & [= ->] & _)|(_ & [=] & _)]. done.
  - destruct (reqs st !! r) as [q|] eqn:Hr; [|done]. cbn. destruct (rpc q) eqn:Hp; try done. intros [= <-].
    destruct (ow_slot _ _ Ho r q Hr) as (h & x & Eh & Hx & Ha & _). rewrite Eh.
    destruct (drop_ok _ b fl cs h x Hd Hb Hx) as (b' & c' & fl' & cs' & y & -> & Hb' & Hs & Hy & Hre).
    cbn. eexists. split; [done|]. exists b', fl', cs'. split; [done|]. split; [done|]. split; [|by eapply later_kept].
    cbn. rewrite Hs.
    eapply owned_ended; [done..|]. intros x' ->. destruct (done x); [done|]. by injection Hy as ->.
  - intros [= <-]. unfold handle_completion. rewrite Hd. destruct (Z.ltb_spec QUEUE_SIZE (wrapping_sub 16 (from_le_bytes (read_mem (views 0%nat)
        (ring_virt b + lused (ring_layout QUEUE_SIZE) + 2) 2)) (last_used b))) as [|Hpend].
    + cbn. eexists. split; [done|]. by exists b, fl, cs.
    + destruct (complete_all_ok (reqs st) (Z.to_nat (wrapping_sub 16 (from_le_bytes (read_mem (views 0%nat)
        (ring_virt b + lused (ring_layout QUEUE_SIZE) + 2) 2)) (last_used b))) b fl cs (counters (sys st)) (λ i, views (S i)) [] Hb Ho ltac:(cbn [length]; pose proof (eq_refl : QUEUE_SIZE = 64); lia))
        as (ws & b' & c' & fl' & cs' & -> & Hb' & Ho' & Hre).
      cbn. eexists. split; [done|]. exists b', fl', cs'. do 3 (split; [done|]).
      by eapply later_kept.
  - intros [= <-]. eexists. split; [done|]. exists b, fl, cs. do 5 (split; [done|]). intros Hpo.
    eapply mirrored_ext; [done| |by apply Hmi]. specialize (Hpol Hpo). cbn in Hpol. subst w. exact Hpol.
Qed.
