(* ===== verification/BlockThms.v ===== *)
(** The theorems about the virtio-blk driver: what holds in every state a run
    of [Block] reaches, with the device free to write anything at any time,
    and two runs that lose descriptors for good. *)
From S2P Require Import Prelude Bits Mem Virtio Block BlockProofs.
From Stdlib Require Import Strings.Byte.

(** ** Every state of a run *)

Definition q64 : SplitQueue :=
  match new QUEUE_SIZE with Ret q => q | Panic => mkQueue 0 [] 0 0 [] 0 [] [] end.

(** Where [init] found its three DMA regions. *)
Record Layout := mkLayoutAt { hhdm : Z; ring : Z; meta : Z; data : Z }.
Definition placed (w : Layout) : Z * Z * Z := (hhdm w + ring w, hhdm w + meta w, hhdm w + data w).
Record layout_ok (w : Layout) : Prop := {
  lo_spaced : spaced (placed w);
  lo_bound : Forall (λ a, 0 ≤ a ∧ a + QUEUE_SIZE * SLOT_BYTES < 2 ^ 64)
               [meta w; hhdm w + meta w; data w; hhdm w + data w]
}.
Definition start (w : Layout) : St := boot q64 (hhdm w) (ring w) (meta w) (data w).

Lemma q64_inv : qinv q64 (seq 0 64) [] ∧ qsize q64 = QUEUE_SIZE ∧ free q64 = 64 ∧
  (∀ i v, avail_ring q64 !! i = Some v → v = 0) ∧ avail_idx q64 = 0.
Proof.
  assert (avail_ring q64 = replicate 64 0) as Er by (vm_compute; reflexivity).
  split; [|split; [|split; [vm_compute; reflexivity|split; [|vm_compute; reflexivity]]]].
  - unfold q64. by destruct (new_qinv QUEUE_SIZE ltac:(done) ltac:(done)) as (q & -> & Hq & _).
  - unfold q64. by destruct (new_qinv QUEUE_SIZE ltac:(done) ltac:(done)) as (q & -> & _ & Hs).
  - rewrite Er. by intros i v [-> _]%lookup_replicate.
Qed.

Lemma start_inv w polite : layout_ok w → inv polite (placed w) (start w).
Proof.
  intros [Hsp Hb]. destruct q64_inv as (Hq & Hs & _ & Hr & Hi).
  eexists _, (seq 0 64), []. split; [done|]. split; [|split; [|split; [done|split; [by intros c Hc%elem_of_nil|]]]].
  - split; cbn; try done.
    + intros h. split; [intros [c Hc]; by apply elem_of_nil in Hc|]. intros [sl Hsl].
      by apply lookup_replicate in Hsl as [? _].
    + intros h sl Hsl. by apply lookup_replicate in Hsl as [? _].
  - split; cbn [reqs start boot].
    + intros r q. by rewrite lookup_empty.
    + intros r r' q q'. by rewrite lookup_empty.
    + intros h x Hx. by apply lookup_replicate in Hx as [? _].
  - intros _. split; cbn [queue start boot].
    + by intros i H%elem_of_nil.
    + by intros i v ->%Hr.
    + by rewrite Hi.
Qed.

(** [polite]: the device never writes the descriptor table or the available
    ring. *)
Fixpoint polite_run (w : Z * Z * Z) (st : St) (ls : list Label) : Prop :=
  match ls with
  | [] => True
  | l :: ls' => keeps_rings w st l ∧ match exec st l with Some (Ret st') => polite_run w st' ls' | _ => True end
  end.

Definition reaches (w : Layout) (ls : list Label) (st : St) : Prop :=
  layout_ok w ∧ exec_list (start w) ls = Some st.

Lemma run_block polite w ls : spaced w → ∀ st st',
  inv polite w st → (polite = true → polite_run w st ls) → exec_list st ls = Some st' → inv polite w st'.
Proof.
  intros Hsp. induction ls as [|l ls IH]; intros st st' Hi Hp; cbn [exec_list].
  - by intros [= <-].
  - destruct (exec st l) as [o|] eqn:E; [|done].
    destruct (block_step_ok polite w st l o Hsp Hi) as (st1 & -> & Hi1); [intros H; by apply Hp in H as [? _]|done|].
    apply IH; [done|]. intros H. apply Hp in H as [_ H]. by rewrite E in H.
Qed.

Lemma reaches_block w ls st : reaches w ls st → inv false (placed w) st.
Proof. intros [Hl He]. eapply run_block; [apply Hl|by apply (start_inv w)|done|exact He]. Qed.

Lemma reaches_polite w ls st : reaches w ls st → polite_run (placed w) (start w) ls → inv true (placed w) st.
Proof. intros [Hl He] Hp. eapply run_block; [apply Hl|by apply (start_inv w)|done|exact He]. Qed.

(** Only [submit] and the device write memory. *)
Definition quiet (l : Label) : bool := match l with LSubmit _ _ _ _ _ | LDevice _ => false | _ => true end.

Lemma quiet_memory p w st l st' : inv p w st → quiet l = true → step st l st' → memory (sys st') = memory (sys st).
Proof.
  intros (b & fl & cs & Hd & Hb & Ho & _) Hq Hst. unfold step in Hst.
  destruct l as [|r|r e|r|r|views|]; try done; cbn [exec] in Hst;
    try (destruct (reqs st !! r) as [q|] eqn:Hr; [|done]; cbn in Hst; destruct (rpc q) as [| |s0]; try done;
         destruct (ow_slot _ _ Ho r q Hr) as (h & z & Eh & Hz & _); rewrite ?Eh in Hst; injection Hst as Hst).
  - inv_ret. by subst st'.
  - by subst st'.
  - destruct (finish_ok _ b fl cs h z s0 (rread q) Hd Hb Hz) as (res & b' & c' & fl' & cs' & y' & E & _).
    rewrite E in Hst. by injection Hst as <-.
  - destruct (drop_ok _ b fl cs h z Hd Hb Hz) as (b' & c' & fl' & cs' & y' & E & _). rewrite E in Hst. by injection Hst as <-.
  - injection Hst as Hst. unfold handle_completion in Hst. rewrite Hd in Hst. destruct (_ <? _); [by injection Hst as <-|].
    destruct (complete_all _ _ _ _ _) as [[[ws b1] c1]|]; [|done]. by injection Hst as <-.
Qed.

(** ** Theorems *)

(** C20: The driver survives any device. Whatever the device writes into the
    shared memory, and whenever it writes it, and however submissions,
    polls, timeouts, cancellations and completion interrupts interleave, no
    step of the driver panics: no index out of range, no overflow, no failed
    [expect]. *)
Theorem driver_survives_any_device w ls st l :
  reaches w ls st → exec st l ≠ Some Panic.
Proof.
  intros Hr E. pose proof (reaches_block _ _ _ Hr) as Hi.
  destruct (block_step_ok false _ st l Panic (lo_spaced _ (proj1 Hr)) Hi ltac:(done) E) as (st' & [=] & _).
Qed.

(** Requests never share a buffer. While a request is outstanding, no
    step of the driver on behalf of another request changes a byte of its
    header, its status or its bounce buffer: only the device does. *)
Theorem requests_do_not_share_buffers w ls st r q l st' b h :
  reaches w ls st → device (sys st) = Some b → reqs st !! r = Some q → rhead q = Z.of_nat h →
  step st l st' → (∀ m, l ≠ LDevice m) →
  ∀ x, header_at b h ≤ x < header_at b h + META_STRIDE ∨ bounce_at b h ≤ x < bounce_at b h + SLOT_BYTES →
    memory (sys st') x = memory (sys st) x.
Proof.
  intros Hre Hd Hr Hh Hst Hl x Hx. pose proof (reaches_block _ _ _ Hre) as (b0 & fl & cs & Hd0 & Hb & Ho & Hw & _).
  assert (b0 = b) as -> by congruence. unfold step in Hst. destruct (ow_slot _ _ Ho r q Hr) as (h' & y & Eh & Hy & _).
  assert (h' = h) as -> by lia. pose proof (lookup_lt_Some _ _ _ Hy) as Hlt. rewrite (bi_slots _ _ _ Hb) in Hlt.
  pose proof (lo_spaced _ (proj1 Hre)) as Hsp. rewrite <- Hw in Hsp.
  destruct (quiet l) eqn:Hq; [by rewrite (quiet_memory _ _ _ _ _ (reaches_block _ _ _ Hre) Hq Hst)|].
  destruct l as [r' lba len out tf| | | | | |m]; try done; [|by destruct (Hl m)]. cbn [exec] in Hst.
  destruct (reqs st !! r'); [done|]. destruct (from_option _ _ _) eqn:Hout; [|done]. destruct tf; [by injection Hst as <-|].
  destruct (submit_ok (sys st) b fl cs r' lba len out Hd Hb) as [(e & E & _)|(Href & i & j & k & b' & fl' & E & Hi & Hb' & Hbt & _)];
    rewrite E in Hst; cbn in Hst; injection Hst as <-; [done|]. cbn.
  pose proof (bt_regions _ _ _ _ _ _ _ _ Hbt) as Er. injection Er as R1 R2 R3.
  assert (i ≠ h) as Hne by (intros ->; congruence). pose proof (lookup_lt_Some _ _ _ Hi) as Hi64. rewrite (bi_slots _ _ _ Hb) in Hi64.
  unfold spaced, regions, apart in Hsp. destruct Hsp as (S1 & S2 & S3).
  unfold header_at, bounce_at, META_STRIDE, SLOT_BYTES, QUEUE_SIZE in *.
  rewrite (ring_stores_out b' fl' _ _ i j k (bi_q _ _ _ Hb') (bi_size _ _ _ Hb') ltac:(left)) by (rewrite R1; lia).
  apply payload_out; [by eapply refused_fits|..]; unfold header_at, bounce_at, META_STRIDE, SLOT_BYTES; lia.
Qed.

(** The heads whose slot is in use. *)
Definition in_use (b : Blk) : list nat :=
  filter (λ h, from_option (λ s : option Slot, bool_decide (is_Some s)) false (slots b !! h) = true) (seq 0 (Z.to_nat QUEUE_SIZE)).

Lemma elem_of_in_use b fl cs h : binv b fl cs → h ∈ in_use b ↔ ∃ c, h :: c ∈ cs.
Proof.
  intros Hb. rewrite (bi_chain _ _ _ Hb). unfold in_use. rewrite list_elem_of_filter, elem_of_seq. split.
  - intros [H _]. destruct (slots b !! h) as [[x|]|]; [eauto|done|done].
  - intros [x Hx]. rewrite Hx. split; [by apply bool_decide_eq_true|].
    pose proof (lookup_lt_Some _ _ _ Hx). rewrite (bi_slots _ _ _ Hb) in *. lia.
Qed.

Lemma chains_count b fl cs : binv b fl cs → length (in_use b) = length cs.
Proof.
  intros Hb. pose proof (bi_q _ _ _ Hb) as Hq. pose proof (bi_three _ _ _ Hb) as H3. rewrite Forall_forall in H3.
  assert (in_use b ≡ₚ (λ c, default 0%nat (head c)) <$> cs) as Hp.
  { apply NoDup_Permutation.
    - apply NoDup_filter, NoDup_seq.
    - pose proof (qinv_NoDup _ _ _ Hq) as Hn. apply NoDup_app in Hn as (_ & _ & Hn). clear - Hn H3.
      induction cs as [|c cs IH]; [apply NoDup_nil_2|]. cbn in *. apply NoDup_app in Hn as (_ & Hd & Hn).
      destruct (three_cases c) as (i & j & k & ->); [apply H3; left|]. cbn in *. apply NoDup_cons. split.
      + intros (c' & -> & Hc')%list_elem_of_fmap. apply (Hd (default 0%nat (head c'))); [left|].
        apply elem_of_concat. exists c'. split; [|done].
        destruct (three_cases c') as (i' & j' & k' & ->); [apply H3; by right|]. left.
      + apply IH; [|done]. intros x Hx. apply H3. by right.
    - intros h. rewrite (elem_of_in_use _ _ _ _ Hb), list_elem_of_fmap. split.
      + intros [c Hc]. exists (h :: c). done.
      + intros (c & -> & Hc). destruct (three_cases c (H3 c Hc)) as (i & j & k & ->). eauto. }
  by rewrite Hp, length_fmap.
Qed.

(** No descriptor is lost: in every state the free descriptors and
    three per slot in use make up the whole table; an outstanding request
    has a slot of its own, in the device's hands until it is done; and a
    slot belongs to exactly one request unless it has been abandoned. *)
Theorem descriptors_are_accounted_for w ls st b :
  reaches w ls st → device (sys st) = Some b →
  free (queue b) + 3 * Z.of_nat (length (in_use b)) = QUEUE_SIZE ∧
  (∀ r q, reqs st !! r = Some q → ∃ h x, rhead q = Z.of_nat h ∧ slots b !! h = Some (Some x) ∧ abandoned x = false ∧
     in_flight (queue b) !! h = Some (negb (done x))) ∧
  (∀ h x, slots b !! h = Some (Some x) → abandoned x = false →
     exists! r, ∃ q, reqs st !! r = Some q ∧ rhead q = Z.of_nat h).
Proof.
  intros (b0 & fl & cs & Hd & Hb & Ho & _)%reaches_block Hd'. assert (b0 = b) as -> by congruence. split; [|split].
  - pose proof (bi_q _ _ _ Hb) as Hq. rewrite (qi_free _ _ _ Hq), (chains_count _ _ _ Hb).
    pose proof (Permutation_length (qi_partition _ _ _ Hq)) as Hl. rewrite length_app, length_seq, (bi_size _ _ _ Hb) in Hl.
    assert (length (concat cs) = (3 * length cs)%nat) as Hc; [|unfold QUEUE_SIZE in *; lia].
    pose proof (bi_three _ _ _ Hb) as H3. clear - H3. induction H3 as [|c cs Hc _ IH]; [done|]. cbn. rewrite length_app. lia.
  - intros r q Hr. destruct (ow_slot _ _ Ho r q Hr) as (h & x & E & Hx & Ha & _). exists h, x.
    do 3 (split; [done|]). by apply (bi_flight _ _ _ Hb).
  - intros h x Hx Ha. destruct (ow_owner _ _ Ho h x Hx Ha) as (r & q & Hr & Hq). exists r. split; [eauto|].
    intros r' (q' & Hr' & Hq'). eapply (ow_apart _ _ Ho); [done..|congruence].
Qed.

(** What [submit] does, on every branch: a buffer that is empty or not
    a whole number of sectors, one larger than a bounce buffer, and a queue
    with fewer than three free descriptors are refused, each with its own
    error and with nothing changed; everything else is published: three
    descriptors are taken, linked in order, and they give the device the
    header, exactly [len] bytes of the bounce buffer of the chain's head,
    writable only for a read, and the status byte. *)
Theorem submit_contract w ls st b me lba len out :
  reaches w ls st → device (sys st) = Some b →
  ∃ res s', submit (sys st) me lba len out = Ret (res, s') ∧
    match res with
    | Err e => s' = sys st ∧
        (e = Unaligned ∧ (len = 0 ∨ len mod SECTOR_BYTES ≠ 0) ∨ e = TooLarge ∧ SLOT_BYTES < len ∨
         e = QueueFull ∧ free (queue b) < 3)
    | Ok head => ∃ i j k b', head = Z.of_nat i ∧ slots b !! i = Some None ∧ device s' = Some b' ∧
        len mod SECTOR_BYTES = 0 ∧ len ≤ SLOT_BYTES ∧ free (queue b') = free (queue b) - 3 ∧
        request_chain (desc (queue b')) i j k (meta_phys b + head * META_STRIDE) (data_phys b + head * SLOT_BYTES) len
          (bool_decide (out = None)) ∧ in_flight (queue b') !! i = Some true
    end.
Proof.
  intros (b0 & fl & cs & Hd & Hb & _)%reaches_block Hd'. assert (b0 = b) as -> by congruence.
  destruct (submit_ok (sys st) b fl cs me lba len out Hd Hb) as [(e & -> & He)|(Href & i & j & k & b' & fl' & -> & Hi & Hb' & Hbt & Hf)];
    eexists _, _; (split; [reflexivity|]); cbn.
  - split; [done|]. unfold refused in He. destruct (Z.eqb_spec len 0) as [?|?]; cbn in He; [left; split; [naive_solver|by left]|].
    destruct (Z.eqb_spec (len mod SECTOR_BYTES) 0) as [?|?]; cbn in He; [|left; split; [naive_solver|by right]].
    destruct (Z.ltb_spec (MAX_SECTORS * SECTOR_BYTES) len); [|naive_solver].
    right. left. split; [naive_solver|done].
  - unfold refused in Href. destruct (_ =? 0) in Href; cbn in Href; [done|].
    destruct (Z.eqb_spec (len mod SECTOR_BYTES) 0) as [?|?]; cbn in Href; [|done].
    destruct (Z.ltb_spec (MAX_SECTORS * SECTOR_BYTES) len) as [|Hle]; [done|].
    pose proof (lookup_lt_Some _ _ _ Hi) as Hlt. exists i, j, k, b'. do 6 (split; [done|]). split; [apply Hbt|].
    rewrite (bi_flight _ _ _ Hb' i (mkSlot me false 255 0 false)); [done|]. rewrite (bt_slots _ _ _ _ _ _ _ _ Hbt).
    by apply list_lookup_insert_eq.
Qed.

(** What a submission leaves in memory is the request: the header names
    the operation and the sector, the status byte is not a success, a
    write's bounce buffer holds the caller's bytes, the three descriptors in
    the table are the driver's own, and the new index of the available ring
    covers a slot that names the chain. *)
Theorem device_finds_the_request w ls st b me lba len out head s' :
  reaches w ls st → device (sys st) = Some b → from_option (λ bs, Z.of_nat (length bs) = len) (0 ≤ len) out →
  submit (sys st) me lba len out = Ret (Ok head, s') →
  ∃ i j k b', head = Z.of_nat i ∧ device s' = Some b' ∧
    read_mem (memory s') (header_at b i) 16 = header_to_bytes (header_for lba out) ∧
    memory s' (header_at b i + RequestHeader_BYTES) = z2b 255 ∧
    (∀ bs, out = Some bs → read_mem (memory s') (bounce_at b i) (length bs) = bs) ∧
    (∀ x, x ∈ [i; j; k] → read_mem (memory s') (desc_at b x) 16 = desc_of b' x) ∧
    request_chain (desc (queue b')) i j k (meta_phys b + head * META_STRIDE) (data_phys b + head * SLOT_BYTES) len
      (bool_decide (out = None)) ∧
    read_mem (memory s') (avail_at b + AVAIL_SLOTS_OFFSET + avail_idx (queue b) mod QUEUE_SIZE * 2) 2 = to_le_bytes 2 head ∧
    read_mem (memory s') (avail_at b + AVAIL_IDX_OFFSET) 2 = to_le_bytes 2 (wrapping_add 16 (avail_idx (queue b)) 1).
Proof.
  intros Hre Hd' Hl E. pose proof (reaches_block _ _ _ Hre) as (b0 & fl & cs & Hd & Hb & _ & Hw & _). assert (b0 = b) as -> by congruence.
  pose proof (lo_spaced _ (proj1 Hre)) as Hsp. rewrite <- Hw in Hsp.
  destruct (submit_ok (sys st) b fl cs me lba len out Hd Hb) as [(e & E' & _)|(Href & i & j & k & b' & fl' & E' & Hi & Hb' & Hbt & _)];
    rewrite E' in E; [done|]. injection E as <- <-. cbn [memory device]. exists i, j, k, b'. do 2 (split; [done|]).
  pose proof Hbt as [_ Hr _ _ Hrc [Ha Har]]. injection Hr as R1 R2 R3.
  assert (fits_slot out) as Hf.
  { apply (refused_fits len); [|done]. destruct out; cbn in *; bool_cases; lia. }
  pose proof (lookup_lt_Some _ _ _ Hi) as Hi64. rewrite (bi_slots _ _ _ Hb) in Hi64.
  pose proof (bi_q _ _ _ Hb) as Hq. pose proof (bi_q _ _ _ Hb') as Hq'. pose proof (bi_size _ _ _ Hb') as Hs'.
  unfold spaced, regions, apart in Hsp. destruct Hsp as (S1 & S2 & S3).
  destruct (payload_written b (memory (sys st)) i lba out Hf) as (P1 & P2 & P3).
  { unfold apart, header_at, bounce_at, META_STRIDE, SLOT_BYTES, QUEUE_SIZE in *. lia. }
  pose proof (ring_stores_out b' fl' _ (payload b (memory (sys st)) i lba out) i j k Hq' Hs' ltac:(left)) as Hout. rewrite R1 in Hout.
  destruct (ring_stores_written b' fl' _ (payload b (memory (sys st)) i lba out) i j k Hq' Hs' ltac:(left)) as (W1 & W2 & W3).
  assert (avail_at b' = avail_at b) as Ea by (unfold avail_at; by rewrite R1). rewrite Ea, Ha in *.
  unfold header_at, bounce_at, META_STRIDE, SLOT_BYTES, RequestHeader_BYTES, QUEUE_SIZE in *. split_and!.
  - rewrite <- P1. apply read_mem_ext. intros x Hx. apply Hout. lia.
  - rewrite <- P2. apply Hout. lia.
  - intros bs ->. specialize (Hf bs eq_refl). unfold SLOT_BYTES in Hf. etrans; [|apply (P3 bs eq_refl)].
    apply read_mem_ext. intros x Hx. apply Hout. lia.
  - intros x Hx. rewrite <- (W1 x Hx). unfold desc_at. by rewrite R1.
  - done.
  - rewrite published_slot in W2 by apply Hq. rewrite <- (W2 (Z.of_nat i)).
    + unfold QUEUE_SIZE. pose proof (Z.mod_pos_bound (avail_idx (queue b)) 64). repeat f_equal. lia.
    + rewrite Har. apply list_lookup_insert_eq. pose proof (qi_avail _ _ _ Hq) as Hal. rewrite (bi_size _ _ _ Hb) in Hal.
      unfold QUEUE_SIZE in *. pose proof (Z.mod_pos_bound (avail_idx (queue b)) 64). lia.
  - done.
Qed.

(** C34: The device is never pointed outside the driver's buffers. Whatever
    a run did, every chain in use is a header, a data buffer and a status
    byte of its own head, no longer than the bounce buffer; and as long as
    the device leaves the rings to the driver, that is what the shared
    memory says, descriptor by descriptor, as well as the available ring's
    slots and index. *)
Theorem descriptors_stay_within_their_slots w ls st b h x :
  reaches w ls st → device (sys st) = Some b → slots b !! h = Some (Some x) →
  ∃ j k len rd, len ≤ SLOT_BYTES ∧
    request_chain (desc (queue b)) h j k (meta_phys b + Z.of_nat h * META_STRIDE) (data_phys b + Z.of_nat h * SLOT_BYTES) len rd ∧
    (polite_run (placed w) (start w) ls →
       (∀ y, y ∈ [h; j; k] → read_mem (memory (sys st)) (desc_at b y) 16 = desc_of b y) ∧
       (∀ i v, avail_ring (queue b) !! i = Some v →
          read_mem (memory (sys st)) (avail_at b + AVAIL_SLOTS_OFFSET + Z.of_nat i * 2) 2 = to_le_bytes 2 v) ∧
       read_mem (memory (sys st)) (avail_at b + AVAIL_IDX_OFFSET) 2 = to_le_bytes 2 (avail_idx (queue b))).
Proof.
  intros Hre Hd Hx. destruct (reaches_block _ _ _ Hre) as (b0 & fl & cs & Hd0 & Hb & _ & _ & Hdm & _).
  assert (b0 = b) as -> by congruence. destruct (proj2 (bi_chain _ _ _ Hb h) (ex_intro _ x Hx)) as [c Hc].
  destruct (Hdm _ Hc) as (i & j & k & len & rd & [= <- ->] & Hl & Hr). exists j, k, len, rd. do 2 (split; [done|]). intros Hp.
  destruct (reaches_polite _ _ _ Hre Hp) as (b1 & fl1 & cs1 & Hd1 & Hb1 & _ & _ & Hdm1 & Hmi). assert (b1 = b) as -> by congruence.
  destruct (Hmi eq_refl) as [M1 M2 M3]. split; [|by split]. intros y Hy. apply M1.
  destruct (proj2 (bi_chain _ _ _ Hb1 h) (ex_intro _ x Hx)) as [c1 Hc1].
  destruct (Hdm1 _ Hc1) as (i1 & j1 & k1 & len1 & rd1 & [= <- ->] & _ & Hr1). destruct Hr, Hr1. simplify_eq.
  by eapply in_chain.
Qed.

(** What a settled request returns, on every branch. It succeeds only
    if the device wrote status 0 and reported at least as many bytes as were
    asked for, and then returns exactly the bytes of its own bounce buffer;
    otherwise it reports a short transfer, or the device's own verdict. *)
Theorem finish_contract w ls st b r q s res s' h :
  reaches w ls st → device (sys st) = Some b → reqs st !! r = Some q → rhead q = Z.of_nat h →
  rpc q = Settled s → s ≠ STATUS_TIMED_OUT → finish (sys st) (rhead q) s (rread q) = Ret (res, s') →
  ∃ x, slots b !! h = Some (Some x) ∧ done x = true ∧ status x = s ∧
    match res with
    | Ok buf => s = 0 ∧ ∀ n, rread q = Some n → n ≤ slen x ∧ buf = read_mem (memory (sys st)) (bounce_at b h) (Z.to_nat n)
    | Err Short => ∃ n, rread q = Some n ∧ slen x < n
    | Err (Device v) => status_from_byte s = v ∧ v ≠ BlkOk
    | Err _ => False
    end.
Proof.
  intros (b0 & fl & cs & Hd & Hb & Ho & _)%reaches_block Hd' Hr Eh Hp Hs Hf. assert (b0 = b) as -> by congruence.
  destruct (ow_slot _ _ Ho r q Hr) as (h' & x & Eh' & Hx & Ha & Hset). assert (h' = h) as -> by lia.
  destruct (Hset s Hp) as [?|[Hdn Hst]]; [done|]. exists x. do 3 (split; [done|]).
  unfold finish in Hf. rewrite Hd, Eh, (index_slot _ _ _ Hx) in Hf. cbn [mbind outcome_bind from_option] in Hf.
  rewrite (proj2 (Z.eqb_neq _ _)) in Hf by done.
  destruct (release_ok b fl cs h x Hb Hx) as (q' & fl' & cs' & Hrel & _).
  destruct (rread q) as [n|]; [unfold transfer_satisfied in Hf; destruct (Z.leb_spec n (slen x)) as [Hn|Hn]|]; cbn [negb] in Hf;
    rewrite Hrel in Hf; cbn [mbind outcome_bind] in Hf; injection Hf as <- <-.
  - unfold status_from_byte. destruct (Z.eqb_spec s 0); [split; [done|]; by intros n' [= <-]|].
    by destruct (s =? 1), (s =? 2).
  - eauto.
  - unfold status_from_byte. destruct (Z.eqb_spec s 0); [done|]. by destruct (s =? 1), (s =? 2).
Qed.

(** ** Descriptors lost for good *)

(** A slot that is done and abandoned: the completion has been taken off the
    used ring, and no request is left to free the chain. *)
Definition stranded (st : St) (h : nat) : Prop :=
  ∃ b x, device (sys st) = Some b ∧ slots b !! h = Some (Some x) ∧ done x = true ∧ abandoned x = true.

Lemma complete_one_done b fl cs rs c m g wk b' c' h x :
  binv b fl cs → owned (slots b) rs → slots b !! h = Some (Some x) → done x = true →
  complete_one b c m = Ret (g, wk, b', c') → slots b' !! h = Some (Some x).
Proof.
  intros Hb Ho Hx Hdn. pose proof Hb as [B1 B2 B3 B4 B5 B6 B7 B8]. unfold complete_one.
  assert (0 ≤ last_used b mod QUEUE_SIZE < QUEUE_SIZE) as Hs by by apply Z.mod_pos_bound.
  destruct (ingest_used_slot_ok (queue b) fl cs (last_used b mod QUEUE_SIZE)
    (read_mem m (ring_virt b + lused (ring_layout QUEUE_SIZE) + RING_HEADER + last_used b mod QUEUE_SIZE * 8) 8) B1 ltac:(lia))
    as (ok & q1 & -> & Hq1 & Eq1 & Hok). cbn [mbind outcome_bind]. destruct ok; cbn [negb]; [|by intros [= _ _ <- _]].
  destruct (take_used_ok q1 fl cs (last_used b mod QUEUE_SIZE) Hq1 ltac:(lia)) as [->|(i & ch & l & q2 & -> & Hc & Hfl & -> & _)];
    cbn [mbind outcome_bind]; [by intros [= _ _ <- _]|].
  assert (i ≠ h) as Hne.
  { intros ->. rewrite Eq1 in Hfl. cbn in Hfl. pose proof (B6 h x Hx) as Hd. rewrite Hfl, Hdn in Hd. done. }
  destruct (proj1 (B5 i) (ex_intro _ ch Hc)) as [y Hy]. cbn [slots with_last with_queue]. rewrite (index_nat _ _ _ Hy).
  cbn [mbind outcome_bind]. pose proof (lookup_lt_Some _ _ _ Hy) as Hlt. destruct (abandoned y).
  - unfold release. destruct (free_chain _ _) as [q'|]; [|done]. cbn [mbind outcome_bind]. rewrite set_slot_ok by done.
    cbn [mbind outcome_bind]. intros [= _ _ <- _]. cbn. by rewrite list_lookup_insert_ne.
  - rewrite set_slot_ok by done. cbn [mbind outcome_bind]. intros [= _ _ <- _]. cbn. by rewrite list_lookup_insert_ne.
Qed.

Lemma complete_all_done rs n h x : ∀ b fl cs c views woken ws b' c',
  binv b fl cs → owned (slots b) rs → slots b !! h = Some (Some x) → done x = true →
  complete_all n b c views woken = Ret (ws, b', c') → slots b' !! h = Some (Some x).
Proof.
  induction n as [|n IH]; intros b fl cs c views woken ws b' c' Hb Ho Hx Hd; cbn [complete_all]; [by intros [= _ <- _]|].
  destruct (complete_one_ok b fl cs rs c (views 0%nat) Hb Ho) as (w & b1 & c1 & fl1 & cs1 & E & Hb1 & Ho1 & _).
  rewrite E. cbn [mbind outcome_bind]. pose proof (complete_one_done _ _ _ _ _ _ _ _ _ _ _ _ Hb Ho Hx Hd E) as Hx1.
  destruct (note_woken _ _) as [woken'|]; [|done]. cbn [mbind outcome_bind]. by apply (IH _ fl1 cs1).
Qed.

(** No step takes a stranded slot out of use. *)
Lemma stranded_step p w st l st' h : inv p w st → stranded st h → step st l st' → stranded st' h.
Proof.
  intros (b & fl & cs & Hd & Hb & Ho & _) (b0 & x & Hd0 & Hx & Hdn & Ha) Hst. assert (b0 = b) as -> by congruence. unfold step in Hst.
  assert (∀ r q h', reqs st !! r = Some q → rhead q = Z.of_nat h' → h' ≠ h) as Hne.
  { intros r q h' Hr Eh ->. destruct (ow_slot _ _ Ho r q Hr) as (h1 & x1 & E1 & Hx1 & Ha1 & _).
    assert (h1 = h) as -> by lia. congruence. }
  destruct l as [r lba len out tf|r|r e|r|r|views|m]; cbn [exec] in Hst;
    try (destruct (reqs st !! r) as [q|] eqn:Hr; [|done]; cbn in Hst; destruct (rpc q) as [| |s0]; try done;
         destruct (ow_slot _ _ Ho r q Hr) as (h1 & z & Eh & Hz & _); rewrite ?Eh in Hst; injection Hst as Hst;
         pose proof (Hne _ _ _ Hr Eh) as Hneq).
  - destruct (reqs st !! r); [done|]. destruct (from_option _ _ _); [|done]. destruct tf; [injection Hst as <-; by exists b, x|].
    destruct (submit_ok (sys st) b fl cs r lba len out Hd Hb) as [(e & E & _)|(_ & i & j & k & b' & fl' & E & Hi & _ & Hbt & _)];
      rewrite E in Hst; cbn in Hst; injection Hst as <-; [by exists b, x|]. exists b', x. split; [done|].
    rewrite (bt_slots _ _ _ _ _ _ _ _ Hbt), list_lookup_insert_ne; [done|]. intros ->. congruence.
  - inv_ret. subst st'. by exists b, x.
  - subst st'. by exists b, x.
  - destruct (finish_ok _ b fl cs h1 z s0 (rread q) Hd Hb Hz) as (res & b' & c' & fl' & cs' & y' & E & _ & Es & _).
    rewrite E in Hst. injection Hst as <-. exists b', x. split; [done|]. by rewrite Es, list_lookup_insert_ne.
  - destruct (drop_ok _ b fl cs h1 z Hd Hb Hz) as (b' & c' & fl' & cs' & y' & E & _ & Es & _). rewrite E in Hst. injection Hst as <-.
    exists b', x. split; [done|]. by rewrite Es, list_lookup_insert_ne.
  - injection Hst as Hst. unfold handle_completion in Hst. rewrite Hd in Hst. destruct (_ <? _); [injection Hst as <-; by exists b, x|].
    destruct (complete_all _ _ _ _ _) as [[[ws b1] c1]|] eqn:E; [|done]. injection Hst as <-. exists b1, x. split; [done|].
    by rewrite (complete_all_done _ _ _ _ _ _ _ _ _ _ _ _ _ Hb Ho Hx Hdn E).
  - injection Hst as <-. by exists b, x.
Qed.

Lemma stranded_forever w st ls st' h : spaced w → inv false w st → stranded st h → exec_list st ls = Some st' → stranded st' h.
Proof.
  intros Hsp. revert st. induction ls as [|l ls IH]; intros st Hi Hs; cbn [exec_list]; [by intros [= <-]|].
  destruct (exec st l) as [o|] eqn:E; [|done]. destruct (block_step_ok false w st l o Hsp Hi ltac:(done) E) as (st1 & -> & Hi1).
  apply IH; [done|]. exact (stranded_step _ _ _ _ _ _ Hi Hs E).
Qed.

Lemma stranded_count w st h : inv false w st → stranded st h → ∃ b, device (sys st) = Some b ∧ free (queue b) ≤ 61.
Proof.
  intros (b & fl & cs & Hd & Hb & _) (b0 & x & Hd0 & Hx & _). assert (b0 = b) as -> by congruence. exists b. split; [done|].
  destruct (proj2 (bi_chain _ _ _ Hb h) (ex_intro _ x Hx)) as [c Hc]. pose proof (bi_three _ _ _ Hb) as H3. rewrite Forall_forall in H3.
  pose proof (bi_q _ _ _ Hb) as Hq. rewrite (qi_free _ _ _ Hq). apply elem_of_Permutation in Hc as Hc'. destruct Hc' as [cs' Hp].
  pose proof (Permutation_length (qi_partition _ _ _ Hq)) as Hl.
  rewrite length_app, length_seq, (bi_size _ _ _ Hb), (concat_perm _ _ Hp) in Hl. cbn [concat] in Hl. rewrite length_app, (H3 _ Hc) in Hl.
  unfold QUEUE_SIZE in Hl. lia.
Qed.

(** The regions of the runs below, and what the device shows once it has
    completed head 0 with [st]. *)
Definition w0 : Layout := mkLayoutAt (2 ^ 47) 4096 8192 65536.
Definition completed_view (st : Z) : nat → Mem := λ _,
  let used := 2 ^ 47 + 4096 + lused (ring_layout QUEUE_SIZE) in
  let m := write_mem (λ _, z2b 0) (used + 2) (to_le_bytes 2 1) in
  let m := write_mem m (used + RING_HEADER) (to_le_bytes 4 0 ++ to_le_bytes 4 513) in
  write_mem m (2 ^ 47 + 8192 + RequestHeader_BYTES) [z2b st].

(** The completion lands between the two halves of [Completion::poll]. *)
Definition race_run : list Label :=
  [LSubmit 1 0 512 None false; LPoll 1; LInterrupt (completed_view 0); LDeadline 1 true; LFinish 1].
(** The device reports a status byte of its own choosing. *)
Definition forged_run : list Label :=
  [LSubmit 1 0 512 None false; LInterrupt (completed_view 254); LPoll 1; LFinish 1].

Definition left_stranded (st : St) : bool :=
  match device (sys st) with
  | Some b => match slots b !! 0%nat with Some (Some x) => done x && abandoned x | _ => false end
  | None => false
  end && match map_to_list (reqs st) with [] => true | _ => false end.

Lemma w0_ok : layout_ok w0.
Proof.
  split; [vm_compute; intuition congruence|].
  repeat constructor; vm_compute; done.
Qed.

Lemma left_stranded_spec st : left_stranded st = true → stranded st 0 ∧ reqs st = ∅.
Proof.
  unfold left_stranded, stranded. intros [H1 H2]%andb_true_iff. split.
  - destruct (device (sys st)) as [b|]; [|done]. destruct (slots b !! 0%nat) as [[x|]|] eqn:E; [|done|done].
    apply andb_true_iff in H1 as [? ?]. by exists b, x.
  - destruct (map_to_list (reqs st)) eqn:E; [|done]. by apply map_to_list_empty_iff.
Qed.

(** A request can end with its descriptors lost for good: if the
    completion lands after [Completion::poll] has looked at the device and
    before it looks at the deadline, or if the device reports the status
    byte 0xfe, [finish] abandons a slot that is already done. The request is
    over, and in no continuation of the run does [handle_completion] ever
    reclaim the chain: three descriptors never come back. *)
Theorem completed_then_timed_out_leaks :
  Forall (λ run, ∃ st, reaches w0 run st ∧ reqs st = ∅ ∧
    ∀ ls st', exec_list st ls = Some st' → ∃ b, device (sys st') = Some b ∧ free (queue b) ≤ 61) [race_run; forged_run].
Proof.
  apply Forall_forall. intros run Hrun. assert (from_option left_stranded false (exec_list (start w0) run) = true) as Hc.
  { apply elem_of_cons in Hrun as [->|Hrun]; [vm_compute; reflexivity|].
    apply list_elem_of_singleton in Hrun as ->. vm_compute. reflexivity. }
  destruct (exec_list (start w0) run) as [st|] eqn:E; [|done]. cbn in Hc. destruct (left_stranded_spec st Hc) as [Hs Hr].
  assert (reaches w0 run st) as Hre by (split; [apply w0_ok|done]). exists st. split; [done|]. split; [done|].
  intros ls st' E'. assert (reaches w0 (run ++ ls) st') as Hre'.
  { split; [apply w0_ok|]. revert E E'. clear. generalize (start w0). induction run as [|l run IH]; intros s; cbn [exec_list app]; [by intros [= ->]|].
    destruct (exec s l) as [[s'|]|]; [apply IH|done..]. }
  eapply stranded_count; [exact (reaches_block _ _ _ Hre')|].
  exact (stranded_forever (placed w0) _ _ _ _ (lo_spaced _ w0_ok) (reaches_block _ _ _ Hre) Hs E').
Qed.

(** ** Witnesses *)

(** One request waiting at the device; the same one settled. *)
Definition waiting_run : list Label := [LSubmit 1 7 512 None false].
Definition settled_run : list Label := [LSubmit 1 7 512 None false; LInterrupt (completed_view 0); LPoll 1].

Definition seen (st : St) (p : Rpc → bool) : bool :=
  match device (sys st), reqs st !! 1 with
  | Some b, Some q => bool_decide (rhead q = 0) && p (rpc q) &&
      match slots b !! 0%nat with Some (Some x) => negb (abandoned x) | _ => false end
  | _, _ => false
  end.
Definition settled_ok (p : Rpc) : bool := match p with Settled s => s =? 0 | _ => false end.

Lemma run_seen run p : from_option (λ st, seen st p) false (exec_list (start w0) run) = true →
  ∃ st b q x, reaches w0 run st ∧ device (sys st) = Some b ∧ reqs st !! 1 = Some q ∧ rhead q = Z.of_nat 0 ∧ p (rpc q) = true ∧
    slots b !! 0%nat = Some (Some x) ∧ abandoned x = false.
Proof.
  destruct (exec_list (start w0) run) as [st|] eqn:E; [|done]. cbn. unfold seen. intros H.
  destruct (device (sys st)) as [b|] eqn:Hd; [|done]. destruct (reqs st !! 1) as [q|] eqn:Hr; [|done].
  apply andb_true_iff in H as [[H1%bool_decide_eq_true H2]%andb_true_iff H3].
  destruct (slots b !! 0%nat) as [[x|]|] eqn:Hx; [|done|done]. apply negb_true_iff in H3.
  exists st, b, q, x. split; [split; [apply w0_ok|exact E]|]. done.
Qed.

Lemma waiting_seen : from_option (λ st, seen st (λ _, true)) false (exec_list (start w0) waiting_run) = true.
Proof. vm_compute. reflexivity. Qed.

Lemma settled_seen : from_option (λ st, seen st settled_ok) false (exec_list (start w0) settled_run) = true.
Proof. vm_compute. reflexivity. Qed.

Lemma driver_survives_any_device_witness :
  ∃ st, reaches w0 waiting_run st ∧ exec st (LInterrupt (completed_view 254)) ≠ Some Panic.
Proof.
  destruct (run_seen _ _ waiting_seen) as (st & b & q & x & Hr & _). exists st. split; [done|].
  exact (driver_survives_any_device w0 waiting_run st (LInterrupt (completed_view 254)) Hr).
Defined.

Lemma requests_do_not_share_buffers_witness :
  ∃ st b st', reaches w0 waiting_run st ∧ device (sys st) = Some b ∧ step st (LDrop 1) st' ∧
    memory (sys st') (header_at b 0) = memory (sys st) (header_at b 0).
Proof.
  destruct (run_seen _ _ waiting_seen) as (st & b & q & x & Hr & Hd & Hq & Hh & _).
  assert (∃ st', step st (LDrop 1) st') as [st' Hst].
  { destruct Hr as [_ E]. revert E. unfold step. clear. intros E.
    assert (from_option (λ st, match exec st (LDrop 1) with Some (Ret _) => true | _ => false end) false
      (exec_list (start w0) waiting_run) = true) as H by (vm_compute; reflexivity).
    rewrite E in H. cbn [from_option] in H. destruct (exec st (LDrop 1)) as [[st'|]|]; [by exists st'|done..]. }
  exists st, b, st'. do 3 (split; [done|]).
  apply (requests_do_not_share_buffers w0 waiting_run st 1 q (LDrop 1) st' b 0 Hr Hd Hq Hh Hst); [done|]. left. unfold META_STRIDE. lia.
Defined.

Lemma descriptors_are_accounted_for_witness :
  ∃ st b, reaches w0 waiting_run st ∧ device (sys st) = Some b ∧ free (queue b) + 3 * Z.of_nat (length (in_use b)) = QUEUE_SIZE.
Proof.
  destruct (run_seen _ _ waiting_seen) as (st & b & q & x & Hr & Hd & _). exists st, b. do 2 (split; [done|]).
  exact (proj1 (descriptors_are_accounted_for w0 waiting_run st b Hr Hd)).
Defined.

Lemma submit_contract_witness :
  ∃ st res, reaches w0 waiting_run st ∧ submit (sys st) 2 9 100 None = Ret (res, sys st) ∧ res = Err Unaligned.
Proof.
  destruct (run_seen _ _ waiting_seen) as (st & b & q & x & Hr & Hd & _). exists st, (Err Unaligned). split; [done|].
  destruct (submit_contract w0 waiting_run st b 2 9 100 None Hr Hd) as (res & s' & E & _).
  assert (res = Err Unaligned ∧ s' = sys st) as [-> ->]; [|done]. clear - E. cbn in E. by injection E as <- <-.
Defined.

Lemma device_finds_the_request_witness :
  ∃ b head s', device (sys (start w0)) = Some b ∧ submit (sys (start w0)) 2 9 512 None = Ret (Ok head, s') ∧
    read_mem (memory s') (header_at b 0) 16 = header_to_bytes (header_read 9).
Proof.
  destruct (device (sys (start w0))) as [b|] eqn:Hd; [|discriminate Hd].
  assert (match submit (sys (start w0)) 2 9 512 None with Ret (Ok h, _) => h =? 0 | _ => false end = true) as H by (vm_compute; reflexivity).
  destruct (submit (sys (start w0)) 2 9 512 None) as [[[h|] s']|] eqn:E; [|discriminate H|discriminate H].
  exists b, h, s'. do 2 (split; [done|]).
  destruct (device_finds_the_request w0 [] (start w0) b 2 9 512 None h s') as (i & j & k & b' & Hi & _ & Hm & _);
    [split; [apply w0_ok|done]|done|done|done|]. apply Z.eqb_eq in H. assert (i = 0%nat) as -> by lia. exact Hm.
Defined.

Lemma descriptors_stay_within_their_slots_witness :
  ∃ st b j k len rd, reaches w0 waiting_run st ∧ device (sys st) = Some b ∧ len ≤ SLOT_BYTES ∧
    request_chain (desc (queue b)) 0 j k (meta_phys b + Z.of_nat 0 * META_STRIDE) (data_phys b + Z.of_nat 0 * SLOT_BYTES) len rd.
Proof.
  destruct (run_seen _ _ waiting_seen) as (st & b & q & x & Hr & Hd & _ & _ & _ & Hx & _).
  destruct (descriptors_stay_within_their_slots w0 waiting_run st b 0 x Hr Hd Hx) as (j & k & len & rd & Hl & Hc & _).
  by exists st, b, j, k, len, rd.
Defined.

Lemma finish_contract_witness :
  ∃ st b x buf s', reaches w0 settled_run st ∧ device (sys st) = Some b ∧ slots b !! 0%nat = Some (Some x) ∧
    finish (sys st) 0 0 (Some 512) = Ret (Ok buf, s') ∧ buf = read_mem (memory (sys st)) (bounce_at b 0) 512.
Proof.
  destruct (run_seen _ _ settled_seen) as (st & b & q & x & Hr & Hd & Hq & Hh & Hp & Hx & _).
  assert (from_option (λ st, match finish (sys st) 0 0 (Some 512), reqs st !! 1 with
    | Ret (Ok _, _), Some q => bool_decide (rread q = Some 512) | _, _ => false end) false (exec_list (start w0) settled_run) = true) as H
    by (vm_compute; reflexivity).
  rewrite (proj2 Hr) in H. cbn [from_option] in H. rewrite Hq in H.
  destruct (finish (sys st) 0 0 (Some 512)) as [[[buf|] s']|] eqn:E; [|discriminate H|discriminate H]. apply bool_decide_eq_true in H.
  exists st, b, x, buf, s'. do 4 (split; [done|]). destruct (rpc q) as [| |s] eqn:Hs; [done|done|]. cbn in Hp. apply Z.eqb_eq in Hp as ->.
  destruct (finish_contract w0 settled_run st b 1 q 0 (Ok buf) s' 0 Hr Hd Hq Hh Hs) as (y & _ & _ & _ & _ & Hb);
    [done|rewrite Hh, H; done|]. exact (proj2 (Hb 512 H)).
Defined.
