(* ===== verification/Paging.v ===== *)
(** Page tables: [crates/qunix-hal-x86_64/src/paging.rs].

    A table is a frame of [Mem]: 512 eight-byte entries, reached at its
    physical address through the higher-half map.  The 4 KiB walk the
    processor does is [walk], and the entry it ends at [leaf].  The operations that come from the x86_64
    crate ([Mapper::map_to], [Mapper::unmap], [Translate::translate]) are the
    class [Mapper], and what the code relies on of them is [MapperLaws];
    everything [paging.rs] does itself is defined here.  Invalidation is an
    [Event], so that its order against the release of frames can be stated;
    what a shootdown achieves is [Tlb]'s subject.

    [map_2mib], which only the boot heap uses, is in [KHeap]; the CR3 register
    is in [Vm]. *)
From S2P Require Import Prelude Bits Mem.
From Stdlib Require Import Strings.Byte.

(** ** Flags and errors *)

Definition PRESENT : Z := Z.shiftl 1 0.
Definition WRITABLE : Z := Z.shiftl 1 1.
Definition USER : Z := Z.shiftl 1 2.
Definition NO_CACHE : Z := Z.shiftl 1 4.
Definition NO_EXECUTE : Z := Z.shiftl 1 63.
(** [PageTableFlags::HUGE_PAGE]. *)
Definition HUGE_PAGE : Z := Z.shiftl 1 7.

(** [PageFlags::to_x86]; the crate's bits have the same positions. *)
Definition to_x86 (f : Z) : Z :=
  let keep acc bit := if negb (Z.land f bit =? 0) then Z.lor acc bit else acc in
  foldl keep 0 [PRESENT; WRITABLE; USER; NO_CACHE; NO_EXECUTE].

Inductive MapError :=
  | OutOfFrames | AlreadyMapped | NotMapped | UnsupportedPageSize | Misaligned | CorruptEntry | NotUserAddress.

(** The crate's error types. *)
Inductive MapToError := FrameAllocationFailed | PageAlreadyMapped | MapParentEntryHugePage.
Inductive UnmapError := PageNotMapped | UnmapParentEntryHugePage | InvalidFrameAddress.

#[export] Instance MapError_eq_dec : EqDecision MapError.
Proof. solve_decision. Defined.
#[export] Instance MapToError_eq_dec : EqDecision MapToError.
Proof. solve_decision. Defined.

Definition map_to_error (err : MapToError) (alloc_failure : MapError) : MapError :=
  match err with
  | FrameAllocationFailed => alloc_failure
  | PageAlreadyMapped => AlreadyMapped
  | MapParentEntryHugePage => UnsupportedPageSize
  end.

Definition unmap_error (err : UnmapError) : MapError :=
  match err with
  | PageNotMapped => NotMapped
  | UnmapParentEntryHugePage => UnsupportedPageSize
  | InvalidFrameAddress => CorruptEntry
  end.

(** ** Tables in memory *)

Definition entry (m : Mem) (t i : Z) : Z := from_le_bytes (read_mem m (t + 8 * i) 8).
Definition set_entry (m : Mem) (t i v : Z) : Mem := write_mem m (t + 8 * i) (to_le_bytes 8 v).

(** [ptr::write_bytes(frame, 0, PAGE_SIZE)]. *)
Definition zero_frame (m : Mem) (f : Z) : Mem := write_mem m f (replicate 4096 x00).

(** [PageTableEntry::is_unused], [flags().contains], [addr]. *)
Definition is_unused (e : Z) : bool := e =? 0.
Definition present (e : Z) : bool := Z.testbit e 0.
Definition huge (e : Z) : bool := Z.testbit e 7.
Definition ADDR_MASK : Z := 0xffffffffff000.
Definition addr (e : Z) : Z := Z.land e ADDR_MASK.

(** [p1_index] to [p4_index], for levels 0 to 3. *)
Definition idx (n : nat) (va : Z) : Z := (va / 2 ^ (12 + 9 * Z.of_nat n)) mod 512.

(** The table [d] levels below the root on the path of [va]. *)
Fixpoint down (d : nat) (m : Mem) (root va : Z) : option Z :=
  match d with
  | O => Some root
  | S d' =>
      t ← down d' m root va;
      let e := entry m t (idx (3 - d') va) in
      if present e && negb (huge e) then Some (addr e) else None
  end.

(** The entry that maps the 4 KiB page of [va]. *)
Definition leaf (m : Mem) (root va : Z) : option Z :=
  t ← down 3 m root va;
  let e := entry m t (idx 0 va) in
  if present e then Some e else None.

(** The entry the walk reads [d] levels below the root, if it is in use, and
    all four of them: an access needs the permission of each. *)
Definition link (d : nat) (m : Mem) (root va : Z) : option Z :=
  t ← down d m root va;
  let e := entry m t (idx (3 - d) va) in
  if e =? 0 then None else Some e.
Definition walk (m : Mem) (root va : Z) : option (list Z) :=
  e3 ← link 0 m root va; e2 ← link 1 m root va; e1 ← link 2 m root va; e0 ← leaf m root va;
  Some [e3; e2; e1; e0].

(** ** The x86_64 crate *)

(** [map_to] is given what the next calls of the frame allocator return, up
    to the first refusal, and says how many calls it made. *)
Class Mapper := {
  map_to : Mem → Z → Z → Z → Z → list Z → result unit MapToError * Mem * nat;
  unmap_page : Mem → Z → Z → result Z UnmapError * Mem;
  translate_addr : Mem → Z → Z → option Z
}.

(** [VirtAddr::new] and [PhysAddr::new] panic on an address that is not
    canonical, or wider than 52 bits. *)
Definition virt_addr (va : Z) : outcome Z :=
  _ ← rust_assert ((va <? 2 ^ 47) || (2 ^ 64 - 2 ^ 47 <=? va)); Ret va.
Definition phys_addr (pa : Z) : outcome Z := _ ← rust_assert (pa <? 2 ^ 52); Ret pa.

(** [Page::from_start_address], [PhysFrame::from_start_address]. *)
Definition page_aligned (a : Z) : bool := a mod 4096 =? 0.

(** ** The frame source: [ClosureFrames] *)

Inductive Stop := Enough | Exhausted | Unaligned (pa : Z) | TooWide.

(** What the next [k] calls of [allocate_frame] return, and why they stop;
    [next] is the caller's closure. *)
Fixpoint draw {C} (next : C → option Z * C) (k : nat) (c : C) : list Z * Stop :=
  match k with
  | O => ([], Enough)
  | S k' =>
      match next c with
      | (None, _) => ([], Exhausted)
      | (Some pa, c') =>
          if negb (pa <? 2 ^ 52) then ([], TooWide)
          else if page_aligned pa then let '(l, why) := draw next k' c' in (pa :: l, why)
          else ([], Unaligned pa)
      end
  end.

(** The closure's state after [n] calls. *)
Fixpoint calls {C} (next : C → option Z * C) (n : nat) (c : C) : C :=
  match n with O => c | S n' => calls next n' (next c).2 end.

(** [ClosureFrames::frame_failure]. *)
Definition frame_failure (why : Stop) : outcome MapError :=
  match why with
  | Unaligned _ => Ret Misaligned
  | TooWide => Panic
  | _ => Ret OutOfFrames
  end.

(** ** [AddressSpace] *)

Inductive Event := Invlpg (va : Z) | ShootdownPage (va : Z) | FlushAll | ShootdownAll | FreeFrame (pa : Z).

Section AddressSpace.
Context `{Mapper}.

(** [AddressSpace::map]. *)
Definition map {C} (next : C → option Z * C) (c : C) (m : Mem) (root va pa flags : Z)
    : outcome (result unit MapError * Mem * C) :=
  va ← virt_addr va;
  if negb (page_aligned va) then Ret (Err Misaligned, m, c) else
  pa ← phys_addr pa;
  if negb (page_aligned pa) then Ret (Err Misaligned, m, c) else
  let '(supply, why) := draw next 3 c in
  let '(r, m, n) := map_to m root va pa (to_x86 flags) supply in
  let c := calls next n c in
  match r with
  | Ok _ => Ret (Ok tt, m, c)
  | Err FrameAllocationFailed => e ← frame_failure why; Ret (Err e, m, c)
  | Err err => Ret (Err (map_to_error err OutOfFrames), m, c)
  end.

(** [AddressSpace::unmap]. *)
Definition unmap (m : Mem) (root va : Z) : outcome (result Z MapError * Mem * list Event) :=
  va ← virt_addr va;
  if negb (page_aligned va) then Ret (Err Misaligned, m, []) else
  match unmap_page m root va with
  | (Ok frame, m) => Ret (Ok frame, m, [Invlpg va; ShootdownPage va])
  | (Err err, m) => Ret (Err (unmap_error err), m, [])
  end.

(** [AddressSpace::translate]. *)
Definition translate (m : Mem) (root va : Z) : outcome (option Z) :=
  va ← virt_addr va; Ret (translate_addr m root va).

(** [AddressSpace::copy_kernel_half]. *)
Definition copy_kernel_half (m : Mem) (root from : Z) : Mem :=
  foldl (λ m i, set_entry m root (Z.of_nat i) (entry m from (Z.of_nat i))) m (seq 256 256).

Definition shares_the_kernel_half (va : Z) : bool := negb (Z.land va (Z.shiftl 1 47) =? 0).

(** [AddressSpace::child_of], [is_empty], [clear_entry]. *)
Definition child_of (m : Mem) (t i : Z) : option Z :=
  let e := entry m t i in
  if is_unused e || huge e then None else Some (addr e).
Definition is_empty (m : Mem) (t : Z) : bool := forallb (λ i, is_unused (entry m t (Z.of_nat i))) (seq 0 512).
Definition clear_entry (m : Mem) (t i : Z) : Mem := set_entry m t i 0.

(** The unlinking half of [AddressSpace::unmap_and_prune]: the tables that
    became empty, lowest first. *)
Definition prune (m : Mem) (root va : Z) : Mem * list Z :=
  match child_of m root (idx 3 va) with
  | None => (m, [])
  | Some p3 =>
      match child_of m p3 (idx 2 va) with
      | None => (m, [])
      | Some p2 =>
          match child_of m p2 (idx 1 va) with
          | None => (m, [])
          | Some p1 =>
              if negb (is_empty m p1) then (m, []) else
              let m := clear_entry m p2 (idx 1 va) in
              if negb (is_empty m p2) then (m, [p1]) else
              let m := clear_entry m p3 (idx 2 va) in
              if negb (is_empty m p3) then (m, [p1; p2]) else
              (clear_entry m root (idx 3 va), [p1; p2; p3])
          end
      end
  end.

(** [AddressSpace::unmap_and_prune]. *)
Definition unmap_and_prune (m : Mem) (root va : Z)
    : outcome (result (Z * Z) MapError * Mem * list Event) :=
  '(r, m, ev) ← unmap m root va;
  match r with
  | Err e => Ret (Err e, m, ev)
  | Ok pa =>
      if shares_the_kernel_half va then Ret (Ok (pa, 0), m, ev) else
      match prune m root va with
      | (m, []) => Ret (Ok (pa, 0), m, ev)
      | (m, freed) =>
          Ret (Ok (pa, Z.of_nat (length freed)), m, ev ++ [FlushAll; ShootdownAll] ++ (FreeFrame <$> freed))
      end
  end.
End AddressSpace.
