(* ===== verification/PagingProofs.v ===== *)
(** Proofs about the page tables of [Paging]: the invariant of a hierarchy,
    the laws of the mapper, and pruning. *)
From S2P Require Import Prelude Bits Mem Paging.
From Stdlib Require Import Strings.Byte.

(** ** Entries *)

(** A frame's address.  The higher-half map reaches 2^47 bytes of physical
    memory before addresses wrap, so no frame the kernel uses is above. *)
Definition frame_ok (f : Z) : Prop := 0 ≤ f ∧ f mod 4096 = 0 ∧ f + 4096 ≤ 2 ^ 47.

Lemma frames_apart a b : frame_ok a → frame_ok b → a ≠ b → a + 4096 ≤ b ∨ b + 4096 ≤ a.
Proof.
  intros (_ & Ha & _) (_ & Hb & _) Hne. destruct (Z.le_gt_cases (a + 4096) b); [by left|]. right.
  destruct (Z.le_gt_cases (b + 4096) a) as [?|Hlt]; [done|]. exfalso. apply Hne.
  destruct (Z.le_gt_cases a b); [by apply (mod_eq_close a b 4096)|]. symmetry. apply (mod_eq_close b a 4096); done || lia.
Qed.

Lemma entry_range m t i : fits 64 (entry m t i).
Proof. unfold entry. pose proof (from_le_bytes_range (read_mem m (t + 8 * i) 8)) as H. exact H. Qed.

Lemma entry_set m t i v : fits 64 v → entry (set_entry m t i v) t i = v.
Proof.
  intros Hv. unfold entry, set_entry. rewrite read_write by (by rewrite length_to_le_bytes).
  by apply from_to_le_bytes.
Qed.

Lemma entry_ext m m' t i : 0 ≤ i < 512 → (∀ x, t ≤ x < t + 4096 → m' x = m x) → entry m' t i = entry m t i.
Proof. intros Hi H. unfold entry. f_equal. apply read_mem_ext. intros x Hx. apply H. lia. Qed.

Lemma set_entry_out m t i v x : 0 ≤ i < 512 → x < t ∨ t + 4096 ≤ x → set_entry m t i v x = m x.
Proof. intros Hi Hx. apply write_mem_out. rewrite length_to_le_bytes. lia. Qed.

Lemma entry_set_other m t i v t' i' :
  frame_ok t → frame_ok t' → 0 ≤ i < 512 → 0 ≤ i' < 512 → t' ≠ t ∨ i' ≠ i →
  entry (set_entry m t i v) t' i' = entry m t' i'.
Proof.
  intros Ht Ht' Hi Hi' Hne. unfold entry, set_entry. f_equal. apply read_other. rewrite length_to_le_bytes.
  destruct (decide (t' = t)) as [->|Htt]; [lia|]. destruct (frames_apart t t' Ht Ht'); [done|lia|lia].
Qed.

Lemma zero_frame_in m f x : f ≤ x < f + 4096 → zero_frame m f x = x00.
Proof.
  intros Hx. unfold zero_frame, write_mem. rewrite length_replicate. change (Z.of_nat 4096) with 4096.
  rewrite (proj2 (Z.leb_le _ _)), (proj2 (Z.ltb_lt _ _)) by lia. cbn [andb].
  by rewrite lookup_replicate_2 by lia.
Qed.

Lemma zero_frame_out m f x : x < f ∨ f + 4096 ≤ x → zero_frame m f x = m x.
Proof. intros Hx. apply write_mem_out. rewrite length_replicate. exact Hx. Qed.

Lemma entry_zero_frame m f i : 0 ≤ i < 512 → entry (zero_frame m f) f i = 0.
Proof.
  intros Hi. unfold entry. rewrite (read_mem_ext _ (λ _, x00)); [reflexivity|].
  intros x Hx. apply zero_frame_in. lia.
Qed.

(** The kernel half of a new root is the kernel's. *)
Lemma copy_kernel_half_ok m root from :
  frame_ok root → frame_ok from → root ≠ from →
  (∀ i, 256 ≤ i < 512 → entry (copy_kernel_half m root from) root i = entry m from i) ∧
  (∀ i, 0 ≤ i < 256 → entry (copy_kernel_half m root from) root i = entry m root i) ∧
  (∀ x, x < root ∨ root + 4096 ≤ x → copy_kernel_half m root from x = m x).
Proof.
  intros Hr Hf Hne. unfold copy_kernel_half.
  assert (∀ k, (k ≤ 256)%nat → let m' := foldl (λ m i, set_entry m root (Z.of_nat i) (entry m from (Z.of_nat i))) m (seq 256 k) in
    (∀ i, 256 ≤ i < 256 + Z.of_nat k → entry m' root i = entry m from i) ∧
    (∀ i, 0 ≤ i < 256 → entry m' root i = entry m root i) ∧ (∀ x, x < root ∨ root + 4096 ≤ x → m' x = m x)) as Hk.
  2: { destruct (Hk 256%nat ltac:(lia)) as (K1 & K2 & K3). split_and!; [intros i Hi; apply K1; lia|done|done]. }
  induction k as [|k IH]; intros Hk m'; [unfold m'; cbn; split_and!; [lia|done|done]|].
  destruct (IH ltac:(lia)) as (K1 & K2 & K3). unfold m'. rewrite seq_S, foldl_app. cbn [foldl].
  set (m1 := foldl _ m (seq 256 k)) in *. assert (entry m1 from (Z.of_nat (256 + k)) = entry m from (Z.of_nat (256 + k))) as ->.
  { apply entry_ext; [lia|]. intros x Hx. apply K3. destruct (frames_apart root from Hr Hf Hne); lia. }
  split_and!.
  - intros i Hi. destruct (decide (i = Z.of_nat (256 + k))) as [->|Hn]; [apply entry_set, entry_range|].
    rewrite entry_set_other by (done || lia). apply K1. lia.
  - intros i Hi. rewrite entry_set_other by (done || lia). by apply K2.
  - intros x Hx. rewrite set_entry_out by (done || lia). by apply K3.
Qed.

(** ** Entry words *)

Lemma land_mask_frame f : frame_ok f → Z.land f ADDR_MASK = f.
Proof.
  intros (H0 & H1 & H2). change ADDR_MASK with (Z.ldiff (Z.ones 52) (Z.ones 12)).
  assert (Z.land f (Z.ones 52) = f) as E by (rewrite Z.land_ones by lia; apply Z.mod_small; lia).
  assert (Z.land f (Z.ones 12) = 0) as E' by (rewrite Z.land_ones by lia; exact H1).
  apply Z.bits_inj'. intros k Hk. rewrite Z.land_spec, Z.ldiff_spec.
  apply (f_equal (λ z, Z.testbit z k)) in E, E'. rewrite Z.land_spec in E, E'. rewrite Z.bits_0 in E'.
  destruct (Z.testbit f k); [|done]. cbn in *. by rewrite E, E'.
Qed.

Lemma addr_lor f g : frame_ok f → Z.land g ADDR_MASK = 0 → addr (Z.lor f g) = f.
Proof. intros Hf Hg. unfold addr. rewrite Z.land_lor_distr_l, land_mask_frame, Hg by done. apply Z.lor_0_r. Qed.

Lemma addr_lor_flags e g : Z.land g ADDR_MASK = 0 → addr (Z.lor e g) = addr e.
Proof. intros Hg. unfold addr. by rewrite Z.land_lor_distr_l, Hg, Z.lor_0_r. Qed.

Lemma frame_low_bit f k : frame_ok f → 0 ≤ k < 12 → Z.testbit f k = false.
Proof.
  intros (_ & H & _) Hk. apply (f_equal (λ z, Z.testbit z k)) in H. rewrite Z.bits_0 in H.
  change 4096 with (2 ^ 12) in H. rewrite Z.mod_pow2_bits_low in H by lia. exact H.
Qed.

Lemma frame_fits f : frame_ok f → fits 64 f.
Proof. unfold frame_ok, fits. lia. Qed.

Lemma lor_fits a b : fits 64 a → fits 64 b → fits 64 (Z.lor a b).
Proof.
  intros [Ha0 Ha] [Hb0 Hb]. split; [by apply Z.lor_nonneg|].
  destruct (Z.eq_dec (Z.lor a b) 0) as [->|Hne]; [lia|]. assert (0 ≤ Z.lor a b) by by apply Z.lor_nonneg.
  apply Z.log2_lt_pow2; [lia|]. rewrite Z.log2_lor by done.
  assert (∀ z, 0 ≤ z < 2 ^ 64 → Z.log2 z < 64) as Hl.
  { intros z Hz. destruct (Z.eq_dec z 0) as [->|]; [done|]. apply Z.log2_lt_pow2; lia. }
  apply Z.max_lub_lt; by apply Hl.
Qed.

(** ** Virtual addresses *)

Definition W (n : nat) : Z := 2 ^ (12 + 9 * Z.of_nat n).
Definition prefix (n : nat) (va : Z) : Z := va / W (S n) * W (S n).

Lemma W_pos n : 0 < W n.
Proof. unfold W. lia. Qed.
Lemma W_succ n : W (S n) = 512 * W n.
Proof. unfold W. replace (12 + 9 * Z.of_nat (S n)) with (9 + (12 + 9 * Z.of_nat n)) by lia. rewrite Z.pow_add_r by lia. lia. Qed.

Lemma idx_range n va : 0 ≤ idx n va < 512.
Proof. unfold idx. by apply Z.mod_pos_bound. Qed.

Lemma prefix_step n va : prefix n va = prefix (S n) va + idx (S n) va * W (S n).
Proof.
  unfold prefix, idx. fold (W (S n)). rewrite (W_succ (S n)), (Z.mul_comm 512), <- Z.div_div by (pose proof (W_pos (S n)); lia).
  pose proof (Z.div_mod (va / W (S n)) 512 ltac:(lia)). nia.
Qed.

Lemma prefix_unique n va b i :
  b mod W (S (S n)) = 0 → 0 ≤ i < 512 → prefix n va = b + i * W (S n) → b = prefix (S n) va ∧ i = idx (S n) va.
Proof.
  intros Hb Hi. rewrite prefix_step. pose proof (idx_range (S n) va) as Hr. pose proof (W_pos (S n)).
  unfold prefix in *. rewrite (W_succ (S n)) in *. set (w := W (S n)) in *.
  apply Z.mod_divide in Hb as [k ->]; [|lia]. intros E. set (k' := va / (512 * w)) in *.
  assert (k' * 512 + idx (S n) va = k * 512 + i) as E' by nia. split; [|lia]. assert (k = k') as -> by lia. done.
Qed.

Lemma prefix_mod n va : prefix n va mod W (S n) = 0.
Proof. unfold prefix. apply Z.mod_mul. pose proof (W_pos (S n)). lia. Qed.

Definition user_addr (va : Z) : Prop := 0 ≤ va < 2 ^ 47.
Definition user_page (va : Z) : Prop := user_addr va ∧ va mod 4096 = 0.

Lemma user_top va : user_addr va → prefix 3 va = 0 ∧ idx 3 va < 256.
Proof.
  intros Hv. unfold prefix, idx, user_addr in *. change (W 4) with (2 ^ 48). rewrite Z.div_small by lia. split; [done|].
  change (2 ^ (12 + 9 * Z.of_nat 3)) with (2 ^ 39). rewrite Z.mod_small; [apply Z.div_lt_upper_bound; lia|].
  split; [apply Z.div_pos; lia|apply Z.div_lt_upper_bound; lia].
Qed.

(** What the entries of a table cover. *)
Lemma child_base n b i :
  (S n ≤ 3)%nat → b mod W (S (S n)) = 0 → user_addr b → 0 ≤ i < 512 → (n = 2%nat → i < 256) →
  (b + i * W (S n)) mod W (S n) = 0 ∧ user_addr (b + i * W (S n)).
Proof.
  intros Hn Hb Hub Hi Htop. pose proof (W_pos (S n)) as Hw. rewrite W_succ in Hb. unfold user_addr in *.
  apply Z.mod_divide in Hb as [k ->]; [|lia]. split.
  - replace (k * (512 * W (S n)) + i * W (S n)) with ((k * 512 + i) * W (S n)) by lia. apply Z.mod_mul. lia.
  - assert (n = 0 ∨ n = 1 ∨ n = 2)%nat as [->|[->| ->]] by lia;
      [change (W 1) with (2 ^ 21) in *|change (W 2) with (2 ^ 30) in *|change (W 3) with (2 ^ 39) in *; specialize (Htop eq_refl)]; lia.
Qed.

(** A page is known by its prefix and its index in the last table. *)
Lemma page_split va : va mod 4096 = 0 → va = prefix 0 va + idx 0 va * 4096.
Proof.
  intros Hv. unfold prefix, idx. rewrite (W_succ 0). change (W 0) with 4096. change (2 ^ (12 + 9 * Z.of_nat 0)) with 4096.
  rewrite (Z.mul_comm 512), <- Z.div_div by lia. pose proof (Z.div_mod va 4096). pose proof (Z.div_mod (va / 4096) 512). lia.
Qed.

(** ** Hierarchies

    [T] gives each table of the user half its level and the first address it
    covers, so no table is reached along two paths. *)

(** An entry that points to a table. *)
Definition links (e : Z) : Prop := present e = true ∧ huge e = false.

(** The entries of [t] that belong to the user half. *)
Definition user_index (root t i : Z) : Prop := 0 ≤ i < 512 ∧ (t = root → i < 256).

Record tables (T : gmap Z (nat * Z)) (m : Mem) (root : Z) : Prop := {
  tb_root : T !! root = Some (3%nat, 0);
  tb_frame : ∀ t n b, T !! t = Some (n, b) → frame_ok t ∧ (n ≤ 3)%nat ∧ b mod W (S n) = 0 ∧ user_addr b;
  tb_down : ∀ t n b i, T !! t = Some (S n, b) → user_index root t i →
    entry m t i = 0 ∨ links (entry m t i) ∧ T !! addr (entry m t i) = Some (n, b + i * W (S n));
  tb_leaf : ∀ t b i, T !! t = Some (0%nat, b) → user_index root t i → entry m t i = 0 ∨ links (entry m t i);
  tb_up : ∀ t n b, T !! t = Some (n, b) → t ≠ root →
    ∃ t' b' i, T !! t' = Some (S n, b') ∧ user_index root t' i ∧ b = b' + i * W (S n) ∧
      entry m t' i ≠ 0 ∧ addr (entry m t' i) = t
}.

Lemma unused_links : ¬ links 0.
Proof. by intros [? _]. Qed.

Lemma user_index_idx root t n va : user_addr va → (t = root → n = 3%nat) → user_index root t (idx n va).
Proof. intros Hv Hn. split; [apply idx_range|]. intros E. rewrite (Hn E). by apply user_top. Qed.

Section Hierarchy.
Context (T : gmap Z (nat * Z)) (m : Mem) (root : Z) (HT : tables T m root).

Lemma root_level t b n : T !! t = Some (n, b) → t = root → n = 3%nat.
Proof. intros Ht ->. rewrite (tb_root _ _ _ HT) in Ht. by injection Ht. Qed.

Lemma down_table va d t : user_addr va → (d ≤ 3)%nat → down d m root va = Some t → T !! t = Some ((3 - d)%nat, prefix (3 - d) va).
Proof.
  intros Hv. revert t. induction d as [|d IH]; intros t Hd; cbn [down].
  - intros [= <-]. rewrite (tb_root _ _ _ HT). change (3 - 0)%nat with 3%nat. by rewrite (proj1 (user_top va Hv)).
  - destruct (down d m root va) as [t'|] eqn:E; [|done]. cbn [mbind option_bind].
    pose proof (IH t' ltac:(lia) eq_refl) as Ht'. destruct (present _ && _) eqn:Hp; [|done]. intros [= <-].
    replace (3 - d)%nat with (S (3 - S d)) in * by lia.
    destruct (tb_down _ _ _ HT _ _ _ (idx (S (3 - S d)) va) Ht') as [H0|[_ ->]].
    + apply user_index_idx; [done|]. by apply (root_level _ _ _ Ht').
    + by rewrite H0 in Hp.
    + by rewrite (prefix_step (3 - S d)).
Qed.

(** The table of a prefix is on the path. *)
Lemma down_reaches va d t : user_addr va → (d ≤ 3)%nat → T !! t = Some ((3 - d)%nat, prefix (3 - d) va) → down d m root va = Some t.
Proof.
  intros Hv. revert t. induction d as [|d IH]; intros t Hd Ht; cbn [down].
  - destruct (decide (t = root)) as [->|Hne]; [done|]. exfalso.
    destruct (tb_up _ _ _ HT _ _ _ Ht Hne) as (t' & b' & i & Ht' & _).
    destruct (tb_frame _ _ _ HT _ _ _ Ht') as (_ & Hn & _). lia.
  - assert (t ≠ root) as Hne by (intros E; pose proof (root_level _ _ _ Ht E); lia).
    destruct (tb_up _ _ _ HT _ _ _ Ht Hne) as (t' & b' & i & Ht' & Hi & Hb & Hnz & Ha).
    destruct (tb_frame _ _ _ HT _ _ _ Ht') as (_ & _ & Hmod & _).
    destruct (prefix_unique _ va b' i Hmod ltac:(by destruct Hi) Hb) as [-> ->].
    replace (S (3 - S d)) with (3 - d)%nat in * by lia. rewrite (IH t') by (lia || done). cbn [mbind option_bind].
    replace (3 - d)%nat with (S (3 - S d)) in * by lia.
    destruct (tb_down _ _ _ HT _ _ _ _ Ht' Hi) as [?|[[Hp Hh] _]]; [done|]. rewrite Hp, Hh. cbn [andb negb]. by rewrite Ha.
Qed.

(** A page is mapped by an entry of the table of its prefix. *)
Lemma leaf_iff va e : user_addr va →
  leaf m root va = Some e ↔ ∃ t, T !! t = Some (0%nat, prefix 0 va) ∧ entry m t (idx 0 va) = e ∧ e ≠ 0.
Proof.
  intros Hv. unfold leaf. split.
  - destruct (down 3 m root va) as [t|] eqn:E; [|done]. cbn [mbind option_bind]. apply down_table in E; [|done|lia].
    destruct (present _) eqn:Hp; [|done]. intros [= <-]. exists t. split; [done|]. split; [done|]. intros E0. by rewrite E0 in Hp.
  - intros (t & Ht & He & Hne). rewrite (down_reaches va 3 t Hv ltac:(lia) Ht). cbn [mbind option_bind].
    destruct (tb_leaf _ _ _ HT _ _ (idx 0 va) Ht) as [?|[Hp _]]; [|congruence|rewrite Hp; by f_equal].
    apply user_index_idx; [done|]. by apply (root_level _ _ _ Ht).
Qed.

Lemma leaf_links va e : user_addr va → leaf m root va = Some e → links e.
Proof.
  intros Hv (t & Ht & He & Hne)%leaf_iff; [|done].
  destruct (tb_leaf _ _ _ HT _ _ (idx 0 va) Ht) as [?|Hl]; [|congruence|by rewrite He in Hl].
  apply user_index_idx; [done|]. by apply (root_level _ _ _ Ht).
Qed.

Lemma link_iff va d e : user_addr va → (d ≤ 3)%nat →
  link d m root va = Some e ↔ ∃ t, T !! t = Some ((3 - d)%nat, prefix (3 - d) va) ∧ entry m t (idx (3 - d) va) = e ∧ e ≠ 0.
Proof.
  intros Hv Hd. unfold link. split.
  - destruct (down d m root va) as [t|] eqn:E; [|done]. cbn [mbind option_bind]. apply down_table in E; [|done|lia].
    destruct (Z.eqb_spec (entry m t (idx (3 - d) va)) 0); [done|]. intros [= <-]. by exists t.
  - intros (t & Ht & He & Hne). rewrite (down_reaches va d t Hv Hd Ht). cbn [mbind option_bind]. rewrite He.
    by rewrite (proj2 (Z.eqb_neq _ _)).
Qed.

(** One table per prefix. *)
Lemma table_unique va t t' n : user_addr va → (n ≤ 3)%nat → T !! t = Some (n, prefix n va) → T !! t' = Some (n, prefix n va) → t = t'.
Proof.
  intros Hv Hn Ht Ht'. replace n with (3 - (3 - n))%nat in Ht, Ht' by lia.
  pose proof (down_reaches va (3 - n) t Hv ltac:(lia) Ht). pose proof (down_reaches va (3 - n) t' Hv ltac:(lia) Ht'). congruence.
Qed.
End Hierarchy.

(** Hierarchies depend only on the user entries of their tables. *)
Lemma tables_ext T m m' root :
  tables T m root → (∀ t n b i, T !! t = Some (n, b) → user_index root t i → entry m' t i = entry m t i) → tables T m' root.
Proof.
  intros HT E. split; try apply HT.
  - intros t n b i Ht Hi. rewrite (E t _ b i) by done. by apply (tb_down _ _ _ HT).
  - intros t b i Ht Hi. rewrite (E t _ b i) by done. by apply (tb_leaf _ _ _ HT t b).
  - intros t n b Ht Hne. destruct (tb_up _ _ _ HT t n b Ht Hne) as (t' & b' & i & Ht' & Hi & Hb & H).
    exists t', b', i. rewrite (E t' _ b' i) by done. done.
Qed.

Lemma leaf_ext T m m' root va :
  tables T m root → (∀ t n b i, T !! t = Some (n, b) → user_index root t i → entry m' t i = entry m t i) → user_addr va →
  leaf m' root va = leaf m root va.
Proof.
  intros HT E Hv. apply option_eq. intros e. rewrite (leaf_iff T m' root (tables_ext _ _ _ _ HT E)), (leaf_iff T m root HT) by done.
  assert (∀ t, T !! t = Some (0%nat, prefix 0 va) → entry m' t (idx 0 va) = entry m t (idx 0 va)) as E'.
  { intros t Ht. apply (E t _ _ _ Ht). apply user_index_idx; [done|]. by apply (root_level T m root HT _ _ _ Ht). }
  split; intros (t & Ht & He & Hn); exists t; (split; [done|]); [rewrite <- E' by done|rewrite E' by done]; done.
Qed.

Lemma link_ext T m m' root d va :
  tables T m root → tables T m' root → (∀ t n b i, T !! t = Some (S n, b) → user_index root t i → entry m' t i = entry m t i) → user_addr va → (d < 3)%nat →
  link d m' root va = link d m root va.
Proof.
  intros HT HT' E Hv Hd. apply option_eq. intros e. rewrite (link_iff T m' root HT'), (link_iff T m root HT) by (done || lia).
  replace (3 - d)%nat with (S (2 - d)) by lia.
  assert (∀ t, T !! t = Some (S (2 - d), prefix (S (2 - d)) va) → entry m' t (idx (S (2 - d)) va) = entry m t (idx (S (2 - d)) va)) as E'.
  { intros t Ht. apply (E t _ _ _ Ht). apply user_index_idx; [done|]. by apply (root_level T m root HT _ _ _ Ht). }
  split; intros (t & Ht & He & Hn); exists t; (split; [done|]); [rewrite <- E' by done|rewrite E' by done]; done.
Qed.

(** ** Stores to a hierarchy *)

(** The side conditions of [entry_elsewhere]. *)
Ltac entry_side :=
  first [done | match goal with H : user_index _ _ ?i |- 0 ≤ ?i < 512 => apply H end | by apply not_and_l].

Section Stores.
Context (T : gmap Z (nat * Z)) (m : Mem) (root : Z) (HT : tables T m root).

Lemma entry_elsewhere t n b i v t0 n0 b0 i0 :
  T !! t = Some (n, b) → T !! t0 = Some (n0, b0) → 0 ≤ i < 512 → 0 ≤ i0 < 512 → t0 ≠ t ∨ i0 ≠ i →
  entry (set_entry m t i v) t0 i0 = entry m t0 i0.
Proof.
  intros Ht Ht0 Hi Hi0 Hne. destruct (tb_frame _ _ _ HT _ _ _ Ht) as [F _], (tb_frame _ _ _ HT _ _ _ Ht0) as [F0 _].
  by apply entry_set_other.
Qed.

(** Storing to the last level changes the mapping of one page. *)
Lemma tables_set_leaf t b i v :
  T !! t = Some (0%nat, b) → 0 ≤ i < 512 → v = 0 ∨ links v → fits 64 v → tables T (set_entry m t i v) root.
Proof.
  intros Ht Hi Hv Hf. assert (∀ t0 n0 b0 i0, T !! t0 = Some (S n0, b0) → 0 ≤ i0 < 512 → entry (set_entry m t i v) t0 i0 = entry m t0 i0) as E.
  { intros t0 n0 b0 i0 Ht0 Hi0. apply (entry_elsewhere _ _ _ _ _ _ _ _ _ Ht Ht0 Hi Hi0). left. intros ->. congruence. }
  split; try apply HT.
  - intros t0 n0 b0 i0 Ht0 Hi0. rewrite (E t0 n0 b0 i0) by entry_side. by apply (tb_down _ _ _ HT).
  - intros t0 b0 i0 Ht0 Hi0. destruct (decide (t0 = t ∧ i0 = i)) as [[-> ->]|Hne]; [by rewrite entry_set|].
    rewrite (entry_elsewhere _ _ _ _ _ _ _ _ _ Ht Ht0 Hi) by entry_side.
    by apply (tb_leaf _ _ _ HT t0 b0).
  - intros t0 n0 b0 Ht0 Hne. destruct (tb_up _ _ _ HT t0 n0 b0 Ht0 Hne) as (t' & b' & i' & Ht' & Hi' & Hb & H).
    exists t', b', i'. rewrite (E t' n0 b' i') by entry_side. done.
Qed.

Lemma link_set_leaf t b i v d va :
  T !! t = Some (0%nat, b) → 0 ≤ i < 512 → v = 0 ∨ links v → fits 64 v → user_addr va → (d < 3)%nat →
  link d (set_entry m t i v) root va = link d m root va.
Proof.
  intros Ht Hi Hv Hf Hva Hd. apply (link_ext T); try done; [by eapply tables_set_leaf|].
  intros t0 n0 b0 i0 Ht0 [Hi0 _]. apply (entry_elsewhere _ _ _ _ _ _ _ _ _ Ht Ht0 Hi Hi0). left. intros ->. congruence.
Qed.

Lemma leaf_set_leaf t i v page va :
  T !! t = Some (0%nat, prefix 0 page) → user_page page → user_page va → i = idx 0 page → v = 0 ∨ links v → fits 64 v →
  leaf (set_entry m t i v) root va = if decide (va = page) then (if v =? 0 then None else Some v) else leaf m root va.
Proof.
  intros Ht [Hp Hpa] [Hva Hvm] -> Hv Hf. pose proof (idx_range 0 page) as Hi.
  pose proof (tables_set_leaf t _ (idx 0 page) v Ht Hi Hv Hf) as HT'.
  apply option_eq. intros e. rewrite (leaf_iff T _ root HT') by done. destruct (decide (va = page)) as [->|Hne].
  - split.
    + intros (t' & Ht' & <- & Hnz). rewrite (table_unique T m root HT page t' t 0 Hva ltac:(lia) Ht' Ht), entry_set in * by done.
      by rewrite (proj2 (Z.eqb_neq _ _)).
    + destruct (Z.eqb_spec v 0) as [|Hnz]; [done|]. intros [= <-]. exists t. by rewrite entry_set.
  - rewrite (leaf_iff T m root HT) by done.
    assert (∀ t', T !! t' = Some (0%nat, prefix 0 va) → entry (set_entry m t (idx 0 page) v) t' (idx 0 va) = entry m t' (idx 0 va)) as El.
    { intros t' Ht'. apply (entry_elsewhere _ _ _ _ _ _ _ _ _ Ht Ht' Hi (idx_range 0 va)).
      destruct (decide (t' = t)) as [->|]; [right|by left]. intros E. apply Hne.
      assert (prefix 0 va = prefix 0 page) as Epr by congruence. rewrite (page_split va Hvm), (page_split page Hpa). congruence. }
    split; intros (t' & Ht' & He & Hnz); exists t'; (split; [done|]); [rewrite <- El by done|rewrite El by done]; done.
Qed.

(** Changing the flags of a link changes no mapping. *)
Lemma tables_relink t n b i v :
  T !! t = Some (S n, b) → user_index root t i → entry m t i ≠ 0 → links v → addr v = addr (entry m t i) → fits 64 v →
  tables T (set_entry m t i v) root ∧ ∀ va, user_addr va → leaf (set_entry m t i v) root va = leaf m root va.
Proof.
  intros Ht Hi Hnz Hv Ha Hf. pose proof Hi as [Hi' _].
  assert (∀ t0 n0 b0 i0, T !! t0 = Some (n0, b0) → 0 ≤ i0 < 512 → t0 ≠ t ∨ i0 ≠ i → entry (set_entry m t i v) t0 i0 = entry m t0 i0) as E.
  { intros t0 n0 b0 i0 Ht0 Hi0. by apply (entry_elsewhere _ _ _ _ _ _ _ _ _ Ht Ht0). }
  assert (tables T (set_entry m t i v) root) as HT'.
  { split; try apply HT.
    - intros t0 n0 b0 i0 Ht0 Hi0. destruct (decide (t0 = t ∧ i0 = i)) as [[-> ->]|Hne].
      + rewrite entry_set by done. right. split; [done|]. rewrite Ha. rewrite Ht in Ht0. simplify_eq.
        by destruct (tb_down _ _ _ HT _ _ _ _ Ht Hi0) as [?|[_ ?]].
      + rewrite (E _ _ _ _ Ht0) by entry_side. by apply (tb_down _ _ _ HT).
    - intros t0 b0 i0 Ht0 Hi0. rewrite (E _ _ _ _ Ht0); [by apply (tb_leaf _ _ _ HT t0 b0)|by destruct Hi0|].
      left. intros ->. congruence.
    - intros t0 n0 b0 Ht0 Hne. destruct (tb_up _ _ _ HT t0 n0 b0 Ht0 Hne) as (t' & b' & i' & Ht' & Hi'' & Hb & Hz & Had).
      exists t', b', i'. do 3 (split; [done|]). destruct (decide (t' = t ∧ i' = i)) as [[-> ->]|Hn].
      + rewrite entry_set by done. split; [|congruence]. intros ->. by apply unused_links.
      + rewrite (E _ _ _ _ Ht') by entry_side. done. }
  split; [done|]. intros va Hva. apply option_eq. intros e. rewrite (leaf_iff T _ root HT'), (leaf_iff T m root HT) by done.
  assert (∀ t', T !! t' = Some (0%nat, prefix 0 va) → entry (set_entry m t i v) t' (idx 0 va) = entry m t' (idx 0 va)) as El.
  { intros t' Ht'. apply (E _ _ _ _ Ht' (idx_range 0 va)). left. intros ->. congruence. }
  split; intros (t' & Ht' & He & Hz); exists t'; (split; [done|]); [rewrite <- El by done|rewrite El by done]; done.
Qed.

(** A new empty table changes no mapping. *)
Lemma tables_grow t n b i f v :
  T !! t = Some (S n, b) → user_index root t i → entry m t i = 0 → frame_ok f → T !! f = None → links v → addr v = f → fits 64 v →
  let T' := <[f := (n, b + i * W (S n))]> T in let m' := set_entry (zero_frame m f) t i v in
  tables T' m' root ∧ (∀ va, user_addr va → leaf m' root va = leaf m root va) ∧
  (∀ t0 n0 b0 i0, T !! t0 = Some (n0, b0) → 0 ≤ i0 < 512 → t0 ≠ t ∨ i0 ≠ i → entry m' t0 i0 = entry m t0 i0) ∧
  (∀ i0, 0 ≤ i0 < 512 → entry m' f i0 = 0) ∧ entry m' t i = v.
Proof.
  intros Ht Hi H0 Hf Hnew Hv Ha Hfit T' m'. pose proof Hi as [Hi' _].
  assert (∀ t0 x, T !! t0 = Some x → t0 ≠ f) as Hnf by (intros t0 x Ht0 ->; congruence).
  assert (frame_ok t) as Hft by apply (tb_frame _ _ _ HT _ _ _ Ht).
  assert (∀ t0 n0 b0 i0, T !! t0 = Some (n0, b0) → 0 ≤ i0 < 512 → t0 ≠ t ∨ i0 ≠ i → entry m' t0 i0 = entry m t0 i0) as E.
  { intros t0 n0 b0 i0 Ht0 Hi0 Hne. destruct (tb_frame _ _ _ HT _ _ _ Ht0) as [F0 _]. unfold m'.
    rewrite entry_set_other by done. apply entry_ext; [done|]. intros x Hx. apply zero_frame_out.
    destruct (frames_apart f t0 Hf F0); [intros ->; by eapply Hnf|lia|lia]. }
  assert (∀ i0, 0 ≤ i0 < 512 → entry m' f i0 = 0) as Ef.
  { intros i0 Hi0. unfold m'. rewrite entry_set_other, entry_zero_frame; try done. left. intros ->. by eapply Hnf. }
  assert (entry m' t i = v) as Et by (by apply entry_set).
  assert (T' !! t = Some (S n, b)) as Ht2 by (unfold T'; rewrite lookup_insert_ne; [done|]; intros ->; by eapply Hnf).
  destruct (tb_frame _ _ _ HT _ _ _ Ht) as (_ & Hn3 & Hb & Hub).
  assert (tables T' m' root) as HT'.
  { split.
    - unfold T'. rewrite lookup_insert_ne; [apply HT|]. intros ->. by rewrite (tb_root _ _ _ HT) in Hnew.
    - intros t0 n0 b0 [(<- & [= <- <-])|[_ Ht0]]%lookup_insert_Some; [|by apply (tb_frame _ _ _ HT)].
      split; [done|]. split; [lia|]. apply (child_base n b i); try done. intros ->. destruct Hi as [_ Hi]. apply Hi.
      destruct (decide (t = root)) as [|Hne]; [done|]. exfalso. destruct (tb_up _ _ _ HT _ _ _ Ht Hne) as (t' & b' & j & Ht' & _).
      destruct (tb_frame _ _ _ HT _ _ _ Ht') as (_ & H4 & _). lia.
    - intros t0 n0 b0 i0 [(<- & [= E1 E2])|[_ Ht0]]%lookup_insert_Some Hi0; [left; apply Ef; by destruct Hi0|].
      destruct (decide (t0 = t ∧ i0 = i)) as [[-> ->]|Hne].
      + right. rewrite Et, Ha. split; [done|]. unfold T'. rewrite lookup_insert_eq. rewrite Ht in Ht0. by simplify_eq.
      + rewrite (E _ _ _ _ Ht0) by entry_side.
        destruct (tb_down _ _ _ HT _ _ _ _ Ht0 Hi0) as [?|[Hl Hc]]; [by left|right]. split; [done|]. unfold T'.
        rewrite lookup_insert_ne; [done|]. intros Ecf. by eapply Hnf.
    - intros t0 b0 i0 [(<- & _)|[_ Ht0]]%lookup_insert_Some Hi0; [left; apply Ef; by destruct Hi0|].
      rewrite (E _ _ _ _ Ht0); [by apply (tb_leaf _ _ _ HT t0 b0)|by destruct Hi0|]. left. intros ->. congruence.
    - intros t0 n0 b0 [(<- & [= <- <-])|[_ Ht0]]%lookup_insert_Some Hne.
      + exists t, b, i. rewrite Et. split; [done|]. split; [done|]. split; [done|]. split; [|done]. intros ->. by apply unused_links.
      + destruct (tb_up _ _ _ HT t0 n0 b0 Ht0 Hne) as (t' & b' & i' & Ht' & Hi'' & Hb' & Hz & Had). exists t', b', i'.
        assert (t' ≠ f) as Htf by (by eapply Hnf). split; [unfold T'; by rewrite lookup_insert_ne|]. split; [done|]. split; [done|].
        rewrite (E _ _ _ _ Ht'); [done|by destruct Hi''|]. destruct (decide (t' = t)) as [->|]; [right|by left]. congruence. }
  split; [done|]. split; [|done]. intros va Hva. apply option_eq. intros e. rewrite (leaf_iff T' _ root HT'), (leaf_iff T m root HT) by done.
  assert (∀ t', T !! t' = Some (0%nat, prefix 0 va) → entry m' t' (idx 0 va) = entry m t' (idx 0 va)) as El.
  { intros t' Ht'. apply (E _ _ _ _ Ht' (idx_range 0 va)). left. intros ->. congruence. }
  split.
  - intros (t' & [(<- & [= E1 E2])|[_ Ht']]%lookup_insert_Some & He & Hz); [by rewrite Ef in He by apply idx_range|].
    exists t'. rewrite El in He by done. done.
  - intros (t' & Ht' & He & Hz). exists t'. rewrite El by done. split; [|done]. unfold T'. rewrite lookup_insert_ne; [done|].
    intros ->. by eapply Hnf.
Qed.
End Stores.

(** ** What the mapper promises *)

Definition in_frames (D : gset Z) (x : Z) : Prop := ∃ t, t ∈ D ∧ t ≤ x < t + 4096.

(** Flag words as [to_x86] makes them for a 4 KiB page. *)
Definition flags_ok (g : Z) : Prop := fits 64 g ∧ Z.land g ADDR_MASK = 0 ∧ present g = true ∧ huge g = false.

Definition fresh (T : gmap Z (nat * Z)) (supply : list Z) : Prop :=
  NoDup supply ∧ ∀ f, f ∈ supply → frame_ok f ∧ T !! f = None.

(** [m'] is [m] with tables made of the first [n] frames of [supply] added,
    mapping [L]. *)
Record remapped (T : gmap Z (nat * Z)) (m : Mem) (root : Z) (supply : list Z) (n : nat) (L : Z → option Z)
    (T' : gmap Z (nat * Z)) (m' : Mem) : Prop := {
  rm_tables : tables T' m' root;
  rm_old : T ⊆ T';
  rm_new : ∀ t, t ∈ dom T' → t ∈ dom T ∨ t ∈ take n supply;
  rm_out : ∀ x, ¬ in_frames (dom T') x → m' x = m x;
  rm_kernel : ∀ i, 256 ≤ i < 512 → entry m' root i = entry m root i;
  rm_leaf : ∀ va, user_page va → leaf m' root va = L va
}.

(** The entries above the leaves: each is as it was, or has been given the
    three low flags of the page that is mapped, and a new one is a frame with
    those. *)
Definition raised (g e e' : Z) : Prop := e' = e ∨ e' = Z.lor e (Z.land g 7).
Record relinked (root g : Z) (m m' : Mem) : Prop := {
  rl_keep : ∀ va d e, user_addr va → (d < 3)%nat → link d m root va = Some e → ∃ e', link d m' root va = Some e' ∧ raised g e e';
  rl_from : ∀ va d e', user_addr va → (d < 3)%nat → link d m' root va = Some e' →
    ∃ e, raised g e e' ∧ (link d m root va = Some e ∨ frame_ok e)
}.
(** Those on the path of a mapped page have its low flags. *)
Definition admits (g : Z) (m : Mem) (root va : Z) (d : nat) : Prop :=
  ∃ e, link d m root va = Some e ∧ ∀ b, 0 ≤ b < 3 → Z.testbit g b = true → Z.testbit e b = true.

Class MapperLaws `{Mapper} := {
  (** [map_to] maps an unmapped page and nothing else, making at most three
      tables out of frames it asks for; a page that is mapped, and a refused
      frame, are errors that leave every mapping as it was. *)
  map_to_ok : ∀ T m root page frame g supply r m' n,
    tables T m root → user_page page → frame_ok frame → flags_ok g → fresh T supply →
    map_to m root page frame g supply = (r, m', n) →
    ∃ T', remapped T m root supply n
            (λ va, if decide (r = Ok tt ∧ va = page) then Some (Z.lor frame g) else leaf m root va) T' m' ∧
      relinked root g m m' ∧ (r = Ok tt → ∀ d, (d < 3)%nat → admits g m' root page d) ∧
      match r with
      | Ok _ => leaf m root page = None ∧ (n ≤ length supply)%nat
      | Err FrameAllocationFailed => n = S (length supply) ∧ (n ≤ 3)%nat
      | Err PageAlreadyMapped => is_Some (leaf m root page) ∧ (n ≤ length supply)%nat
      | Err MapParentEntryHugePage => False
      end;
  (** [unmap] clears the entry of a mapped page and returns its frame. *)
  unmap_page_ok : ∀ T m root page,
    tables T m root → user_page page →
    match leaf m root page with
    | None => unmap_page m root page = (Err PageNotMapped, m)
    | Some e => ∃ t, down 3 m root page = Some t ∧ unmap_page m root page = (Ok (addr e), set_entry m t (idx 0 page) 0)
    end;
  (** [translate] is the walk. *)
  translate_addr_ok : ∀ T m root va,
    tables T m root → user_addr va → translate_addr m root va = (λ e, addr e + va mod 4096) <$> leaf m root va
}.

Lemma remapped_refl T m root supply : tables T m root → remapped T m root supply 0 (leaf m root) T m.
Proof. intros HT. split; try done. by left. Qed.

Lemma remapped_trans T m root supply n L T1 m1 k L' T2 m2 :
  remapped T m root supply n L T1 m1 → remapped T1 m1 root (drop n supply) k L' T2 m2 →
  remapped T m root supply (n + k) L' T2 m2.
Proof.
  intros [A1 A2 A3 A4 A5 A6] [B1 B2 B3 B4 B5 B6]. split; [done|by etrans| | | |done].
  - intros t [H|H]%B3.
    + apply A3 in H as [H|H]; [by left|right]. rewrite <- take_take_drop. set_solver.
    + right. rewrite <- take_take_drop. set_solver.
  - intros x Hx. rewrite B4 by done. apply A4. intros (t & Ht & Hxt). apply Hx. exists t. split; [|done].
    apply subseteq_dom in B2. set_solver.
  - intros i Hi. by rewrite B5, A5.
Qed.

Lemma raised_keeps g e e' b : raised g e e' → Z.testbit e b = true → Z.testbit e' b = true.
Proof. intros [->| ->] Hb; [done|]. by rewrite Z.lor_spec, Hb. Qed.

Lemma relinked_refl root g m : relinked root g m m.
Proof. split; intros va d e ? ? He; exists e; [by split; [|left]|]. split; [by left|by left]. Qed.

Lemma raised_trans g e e' e'' : raised g e e' → raised g e' e'' → raised g e e''.
Proof. intros [->| ->] [->| ->]; [by left|by right|by right|right]. by rewrite <- Z.lor_assoc, Z.lor_diag. Qed.

Lemma relinked_trans root g m1 m2 m3 : relinked root g m1 m2 → relinked root g m2 m3 → relinked root g m1 m3.
Proof.
  intros [A1 A2] [B1 B2]. split; intros va d e Hv Hd He.
  - destruct (A1 va d e Hv Hd He) as (e' & He' & R1). destruct (B1 va d e' Hv Hd He') as (e'' & He'' & R2).
    exists e''. split; [done|]. by eapply raised_trans.
  - destruct (B2 va d e Hv Hd He) as (e' & R1 & [He'|Hf]); [|exists e'; auto].
    destruct (A2 va d e' Hv Hd He') as (e0 & R2 & H0). exists e0. split; [by eapply raised_trans|done].
Qed.

(** Table by table. *)
Lemma relinked_by T m T' m' root g : tables T m root → tables T' m' root → T ⊆ T' →
  (∀ t n b i, T !! t = Some (S n, b) → user_index root t i → entry m t i ≠ 0 → raised g (entry m t i) (entry m' t i)) →
  (∀ t n b i, T' !! t = Some (S n, b) → user_index root t i → entry m' t i ≠ 0 →
    ∃ e, raised g e (entry m' t i) ∧ ((T !! t = Some (S n, b) ∧ entry m t i = e ∧ e ≠ 0) ∨ frame_ok e)) →
  relinked root g m m'.
Proof.
  intros HT HT' Hsub Hk Hn. split; intros va d e Hv Hd; rewrite (link_iff T' m' root HT') || rewrite (link_iff T m root HT); try (done || lia);
    replace (3 - d)%nat with (S (2 - d)) by lia; intros (t & Ht & <- & Hne).
  - assert (user_index root t (idx (S (2 - d)) va)) as Hi by (apply user_index_idx; [done|]; by apply (root_level T m root HT _ _ _ Ht)).
    pose proof (Hk t _ _ _ Ht Hi Hne) as Hr. eexists. split; [|exact Hr]. apply (link_iff T' m' root HT'); [done|lia|].
    replace (3 - d)%nat with (S (2 - d)) by lia. exists t. split; [by eapply lookup_weaken|]. split; [done|].
    destruct Hr as [->| ->]; [done|]. intros [? _]%Z.lor_eq_0_iff. done.
  - assert (user_index root t (idx (S (2 - d)) va)) as Hi by (apply user_index_idx; [done|]; by apply (root_level T' m' root HT' _ _ _ Ht)).
    destruct (Hn t _ _ _ Ht Hi Hne) as (e & Hr & [(Ht0 & He & Hz)|Hf]); exists e; (split; [done|]); [left|by right].
    apply (link_iff T m root HT); [done|lia|]. replace (3 - d)%nat with (S (2 - d)) by lia. by exists t.
Qed.

(** ** A mapper

    The laws can be kept: a mapper over the same memory that does what the
    crate's documentation says. *)

Definition next_table (m : Mem) (t i pf : Z) (supply : list Z) : result Z MapToError * Mem * nat :=
  let e := entry m t i in
  if e =? 0 then
    match supply with
    | [] => (Err FrameAllocationFailed, m, 1%nat)
    | f :: _ => (Ok f, set_entry (zero_frame m f) t i (Z.lor f pf), 1%nat)
    end
  else if huge e then (Err MapParentEntryHugePage, m, 0%nat)
  else (Ok (addr e), set_entry m t i (Z.lor e pf), 0%nat).

Fixpoint map_from (n : nat) (m : Mem) (t page frame g : Z) (supply : list Z) : result unit MapToError * Mem * nat :=
  match n with
  | O =>
      if entry m t (idx 0 page) =? 0 then (Ok tt, set_entry m t (idx 0 page) (Z.lor frame g), 0%nat)
      else (Err PageAlreadyMapped, m, 0%nat)
  | S n' =>
      match next_table m t (idx n page) (Z.land g 7) supply with
      | (Err e, m, k) => (Err e, m, k)
      | (Ok c, m, k) => let '(r, m, k') := map_from n' m c page frame g (drop k supply) in (r, m, (k + k')%nat)
      end
  end.

Definition tree_unmap (m : Mem) (root page : Z) : result Z UnmapError * Mem :=
  match down 3 m root page with
  | None => (Err PageNotMapped, m)
  | Some t =>
      let e := entry m t (idx 0 page) in
      if present e then (Ok (addr e), set_entry m t (idx 0 page) 0) else (Err PageNotMapped, m)
  end.

#[export] Instance tree_mapper : Mapper := {
  map_to := map_from 3;
  unmap_page := tree_unmap;
  translate_addr m root va := (λ e, addr e + va mod 4096) <$> leaf m root va
}.

Section Instance_.
Context (root page frame g : Z) (Hpage : user_page page) (Hframe : frame_ok frame) (Hg : flags_ok g).

Lemma parent_flags : fits 64 (Z.land g 7) ∧ Z.land (Z.land g 7) ADDR_MASK = 0 ∧ present (Z.land g 7) = true ∧ huge (Z.land g 7) = false.
Proof.
  destruct Hg as (Hf & Hm & Hp & _). unfold present, huge, fits in *. rewrite !Z.land_spec. split_and!.
  - pose proof (land_range g 7 64 ltac:(lia) Hf). lia.
  - pose proof (land_range g 7 64 ltac:(lia) Hf). lia.
  - by rewrite <- Z.land_assoc, (Z.land_comm 7), Z.land_assoc, Hm.
  - by rewrite Hp.
  - by rewrite andb_false_r.
Qed.

Lemma link_new f : frame_ok f → links (Z.lor f (Z.land g 7)) ∧ addr (Z.lor f (Z.land g 7)) = f ∧ fits 64 (Z.lor f (Z.land g 7)).
Proof.
  intros Hf. destruct parent_flags as (P1 & P2 & P3 & P4). unfold links, present, huge in *. rewrite !Z.lor_spec.
  rewrite (frame_low_bit f 0), (frame_low_bit f 7), P3, P4 by (done || lia). split; [done|]. split; [by apply addr_lor|]. apply lor_fits; [by apply frame_fits|done].
Qed.

Lemma link_again e : links e → fits 64 e → links (Z.lor e (Z.land g 7)) ∧ addr (Z.lor e (Z.land g 7)) = addr e ∧ fits 64 (Z.lor e (Z.land g 7)).
Proof.
  intros [He1 He2] Hf. destruct parent_flags as (P1 & P2 & P3 & P4). unfold links, present, huge in *. rewrite !Z.lor_spec.
  rewrite He1, He2, P4. split; [done|]. split; [by apply addr_lor_flags|]. by apply lor_fits.
Qed.

(** The flags a link has been given. *)
Lemma low_flags e b : 0 ≤ b < 3 → Z.testbit g b = true → Z.testbit (Z.lor e (Z.land g 7)) b = true.
Proof.
  intros Hb Hgb. rewrite Z.lor_spec, Z.land_spec, Hgb. change 7 with (Z.ones 3). rewrite Z.ones_spec_low by lia. apply orb_true_r.
Qed.

(** Giving one entry the flags. *)
Lemma relinked_set T T' m m' t n e :
  tables T m root → tables T' m' root → T ⊆ T' → T !! t = Some (S n, prefix (S n) page) → (S n ≤ 3)%nat →
  (entry m t (idx (S n) page) = e ∧ e ≠ 0) ∨ (entry m t (idx (S n) page) = 0 ∧ frame_ok e) →
  entry m' t (idx (S n) page) = Z.lor e (Z.land g 7) →
  (∀ t0 n0 b0 i0, T !! t0 = Some (n0, b0) → 0 ≤ i0 < 512 → t0 ≠ t ∨ i0 ≠ idx (S n) page → entry m' t0 i0 = entry m t0 i0) →
  (∀ t0 x i0, T' !! t0 = Some x → T !! t0 = None → 0 ≤ i0 < 512 → entry m' t0 i0 = 0) →
  relinked root g m m' ∧ admits g m' root page (3 - S n).
Proof.
  intros HT HT' Hsub Ht Hn He Hv Hold Hnew. destruct Hpage as [Hva _].
  assert (Z.lor e (Z.land g 7) ≠ 0) as Hne.
  { intros E. apply (f_equal (λ z, Z.testbit z 0)) in E. rewrite low_flags in E; [done|lia|]. by destruct Hg as (_ & _ & ? & _). }
  split.
  - apply (relinked_by T m T' m'); try done.
    + intros t0 n0 b0 i0 Ht0 [Hi0 _] Hz. destruct (decide (t0 = t ∧ i0 = idx (S n) page)) as [[-> ->]|Hd].
      * rewrite Hv. destruct He as [[-> _]|[E _]]; [by right|by rewrite E in Hz].
      * left. apply (Hold _ _ _ _ Ht0 Hi0). by apply not_and_l.
    + intros t0 n0 b0 i0 Ht0 [Hi0 _] Hz. destruct (T !! t0) as [x|] eqn:E0; [|by rewrite (Hnew _ _ _ Ht0 E0) in Hz].
      assert (x = (S n0, b0)) as -> by (eapply lookup_weaken in E0; [|exact Hsub]; congruence).
      destruct (decide (t0 = t ∧ i0 = idx (S n) page)) as [[-> ->]|Hd].
      * exists e. rewrite Hv. split; [by right|]. destruct He as [[He1 He2]|[_ Hf]]; [by left|by right].
      * assert (entry m' t0 i0 = entry m t0 i0) as E by (apply (Hold _ _ _ _ E0 Hi0); by apply not_and_l).
        exists (entry m t0 i0). rewrite E in *. split; [by left|]. by left.
  - exists (Z.lor e (Z.land g 7)). split; [|intros b; apply low_flags]. apply (link_iff T' m' root HT'); [done|lia|].
    replace (3 - (3 - S n))%nat with (S n) by lia. exists t. split; [by eapply lookup_weaken|done].
Qed.

Lemma next_table_ok T m t n supply r m' k :
  tables T m root → T !! t = Some (S n, prefix (S n) page) → fresh T supply →
  next_table m t (idx (S n) page) (Z.land g 7) supply = (r, m', k) →
  match r with
  | Ok c => ∃ T', remapped T m root supply k (leaf m root) T' m' ∧ T' !! c = Some (n, prefix n page) ∧
      fresh T' (drop k supply) ∧ (k ≤ length supply)%nat ∧ (k ≤ 1)%nat ∧
      relinked root g m m' ∧ admits g m' root page (3 - S n)
  | Err e => e = FrameAllocationFailed ∧ supply = [] ∧ m' = m ∧ k = 1%nat
  end.
Proof.
  intros HT Ht [Hnd Hfr]. destruct Hpage as [Hva _]. pose proof (root_level T m root HT _ _ _ Ht) as Hlv.
  assert (user_index root t (idx (S n) page)) as Hi by by apply user_index_idx. pose proof Hi as [Hi' _].
  destruct (tb_frame _ _ _ HT _ _ _ Ht) as [Hft _]. destruct (tb_frame _ _ _ HT _ _ _ (tb_root _ _ _ HT)) as [Hfr' _].
  assert (∀ v i, 256 ≤ i < 512 → entry (set_entry m t (idx (S n) page) v) root i = entry m root i) as Hk.
  { intros v i Hik. apply entry_set_other; try done; [lia|]. destruct (decide (root = t)) as [E|]; [right|by left].
    destruct Hi as [_ Hi]. specialize (Hi (eq_sym E)). lia. }
  unfold next_table. destruct (Z.eqb_spec (entry m t (idx (S n) page)) 0) as [H0|Hnz].
  - destruct supply as [|f supply]; [by intros [= <- <- <-]|]. intros [= <- <- <-].
    destruct (Hfr f ltac:(left)) as [Hf Hnew]. destruct (link_new f Hf) as (L1 & L2 & L3).
    destruct (tables_grow T m root HT t n _ _ f _ Ht Hi H0 Hf Hnew L1 L2 L3) as (HT' & Hl & G1 & G2 & G3).
    destruct (relinked_set T _ m _ t n f HT HT') as [HR HA]; try done; [by apply insert_subseteq|apply (tb_frame _ _ _ HT _ _ _ Ht)|by right| |].
    { intros t0 x i0 [(<- & _)|[_ Ht0]]%lookup_insert_Some HN Hi0; [by apply G2|congruence]. }
    exists (<[f := (n, prefix (S n) page + idx (S n) page * W (S n))]> T).
    assert (root ≠ f) as Hrf by (intros ->; by rewrite (tb_root _ _ _ HT) in Hnew). split; [split|split_and!].
    + done.
    + by apply insert_subseteq.
    + intros t0. rewrite dom_insert. cbn. set_solver.
    + intros x Hx. rewrite set_entry_out; [|done|]; [apply zero_frame_out|].
      * destruct (Z.lt_ge_cases x f), (Z.le_gt_cases (f + 4096) x); auto. exfalso. apply Hx. exists f.
        rewrite dom_insert. split; [set_solver|lia].
      * destruct (Z.lt_ge_cases x t), (Z.le_gt_cases (t + 4096) x); auto. exfalso. apply Hx. exists t.
        rewrite dom_insert. split; [|lia]. apply elem_of_union_r, elem_of_dom. eauto.
    + intros i Hik. rewrite entry_set_other; try done; [|lia|].
      * apply entry_ext; [lia|]. intros x Hx. apply zero_frame_out. destruct (frames_apart f root Hf Hfr'); [done|lia|lia].
      * destruct (decide (root = t)) as [E|]; [right|by left]. destruct Hi as [_ Hi]. specialize (Hi (eq_sym E)). lia.
    + intros va [Hv _]. by apply Hl.
    + by rewrite lookup_insert_eq, <- prefix_step.
    + cbn. apply NoDup_cons in Hnd as [Hn Hnd]. split; [done|]. intros f' Hf'. destruct (Hfr f' ltac:(by right)) as [? ?].
      split; [done|]. rewrite lookup_insert_ne; [done|]. intros ->. done.
    + cbn. lia.
    + lia.
    + exact HR.
    + exact HA.
  - destruct (tb_down _ _ _ HT _ _ _ _ Ht Hi) as [?|[Hlk Hc]]; [done|]. rewrite (proj2 Hlk). intros [= <- <- <-].
    destruct (link_again _ Hlk (entry_range _ _ _)) as (L1 & L2 & L3).
    destruct (tables_relink T m root HT t n _ _ _ Ht Hi Hnz L1 L2 L3) as [HT' Hl].
    destruct (relinked_set T T m _ t n (entry m t (idx (S n) page)) HT HT') as [HR HA];
      try done; [apply (tb_frame _ _ _ HT _ _ _ Ht)|by left|by apply entry_set|..].
    { intros t0 n0 b0 i0 Ht0 Hi0. by apply (entry_elsewhere T m root HT _ _ _ _ _ _ _ _ _ Ht Ht0). }
    { intros t0 x i0 Ht0 HN. congruence. }
    exists T. split; [split|split_and!].
    + done.
    + done.
    + by left.
    + intros x Hx. apply set_entry_out; [done|]. destruct (Z.lt_ge_cases x t), (Z.le_gt_cases (t + 4096) x); auto. exfalso.
      apply Hx. exists t. split; [|lia]. apply elem_of_dom. eauto.
    + intros i Hik. by apply Hk.
    + intros va [Hv _]. by apply Hl.
    + by rewrite Hc, <- prefix_step.
    + by rewrite drop_0.
    + lia.
    + lia.
    + exact HR.
    + exact HA.
Qed.

Lemma link_leaf : links (Z.lor frame g) ∧ fits 64 (Z.lor frame g) ∧ Z.lor frame g ≠ 0.
Proof.
  destruct Hg as (G1 & G2 & G3 & G4). unfold links, present, huge in *. rewrite !Z.lor_spec.
  rewrite (frame_low_bit frame 0), (frame_low_bit frame 7), G3, G4 by (done || lia). split; [done|].
  split; [apply lor_fits; [by apply frame_fits|done]|]. intros E. apply (f_equal (λ z, Z.testbit z 0)) in E.
  rewrite Z.lor_spec, G3, orb_true_r in E. done.
Qed.

Lemma map_from_ok n : ∀ T m t supply r m' k,
  tables T m root → T !! t = Some (n, prefix n page) → fresh T supply → map_from n m t page frame g supply = (r, m', k) →
  ∃ T', remapped T m root supply k
          (λ va, if decide (r = Ok tt ∧ va = page) then Some (Z.lor frame g) else leaf m root va) T' m' ∧
    relinked root g m m' ∧ (r = Ok tt → ∀ d, (3 - n ≤ d < 3)%nat → admits g m' root page d) ∧
    match r with
    | Ok _ => leaf m root page = None ∧ (k ≤ length supply)%nat
    | Err FrameAllocationFailed => k = S (length supply) ∧ (k ≤ n)%nat
    | Err PageAlreadyMapped => is_Some (leaf m root page) ∧ (k ≤ length supply)%nat
    | Err MapParentEntryHugePage => False
    end.
Proof.
  pose proof Hpage as [Hva _]. induction n as [|n IH]; intros T m t supply r m' k HT Ht Hfr; cbn [map_from].
  - destruct (Z.eqb_spec (entry m t (idx 0 page)) 0) as [H0|Hnz]; intros [= <- <- <-]; exists T.
    + destruct link_leaf as (L1 & L2 & L3). destruct (tb_frame _ _ _ HT _ _ _ Ht) as [Hft _].
      destruct (tb_frame _ _ _ HT _ _ _ (tb_root _ _ _ HT)) as [Hfr' _]. pose proof (idx_range 0 page) as Hi. split; [split|split; [|split; [|split]]].
      * by apply (tables_set_leaf T m root HT t (prefix 0 page)); auto.
      * done.
      * by left.
      * intros x Hx. apply set_entry_out; [done|]. destruct (Z.lt_ge_cases x t), (Z.le_gt_cases (t + 4096) x); auto. exfalso.
        apply Hx. exists t. split; [|lia]. apply elem_of_dom. eauto.
      * intros i Hik. apply entry_set_other; try done; [lia|]. left. intros <-. by pose proof (root_level T m root HT _ _ _ Ht eq_refl).
      * intros va Hv. rewrite (leaf_set_leaf T m root HT t _ _ page va Ht) by auto. rewrite (proj2 (Z.eqb_neq _ _)) by done.
        destruct (decide (va = page)) as [->|Hne]; [by rewrite decide_True|]. rewrite decide_False by naive_solver. done.
      * split; intros va d e Hv Hd He.
        -- exists e. rewrite (link_set_leaf T m root HT t _ _ _ d va Ht) by auto. split; [done|by left].
        -- rewrite (link_set_leaf T m root HT t _ _ _ d va Ht) in He by auto. exists e. split; [by left|by left].
      * intros _ d Hd. lia.
      * apply eq_None_ne_Some_2. intros e (t' & Ht' & He & Hz)%(leaf_iff T m root HT); [|done].
        rewrite (table_unique T m root HT page t' t 0) in He by (done || lia). congruence.
      * lia.
    + split; [|split; [apply relinked_refl|split; [done|split; [|lia]]]].
      * apply (remapped_refl T m root supply) in HT. destruct HT as [R1 R2 R3 R4 R5 R6]. by split.
      * exists (entry m t (idx 0 page)). apply (leaf_iff T m root HT); [done|]. by exists t.
  - destruct (next_table _ _ _ _ _) as [[[c|e] m1] k1] eqn:En; pose proof (next_table_ok T m t n supply _ _ _ HT Ht Hfr En) as Hn.
    + destruct Hn as (T1 & R1 & Hc & Hf1 & Hk1 & Hk2 & HR & HA).
      destruct (map_from n m1 c page frame g (drop k1 supply)) as [[r2 m2] k2] eqn:E2. intros [= <- <- <-].
      destruct (IH T1 m1 c (drop k1 supply) r2 m2 k2 (rm_tables _ _ _ _ _ _ _ _ R1) Hc Hf1 E2) as (T2 & R2 & HR2 & HA2 & Hr).
      rewrite length_drop in Hr. exists T2. rewrite (rm_leaf _ _ _ _ _ _ _ _ R1 page Hpage) in Hr. split.
      * pose proof (remapped_trans _ _ _ _ _ _ _ _ _ _ _ _ R1 R2) as [S1 S2 S3 S4 S5 S6]. split; try done.
        intros va Hv. rewrite S6 by done. destruct (decide _); [done|]. by apply (rm_leaf _ _ _ _ _ _ _ _ R1).
      * split; [by eapply relinked_trans|]. split.
        { intros Eok d Hd. destruct (decide (d = (3 - S n)%nat)) as [->|Hne]; [|apply (HA2 Eok); lia].
          destruct HA as (e & He & Hbits). destruct (rl_keep _ _ _ _ HR2 page (3 - S n)%nat e Hva ltac:(lia) He) as (e' & He' & Hra).
          exists e'. split; [done|]. intros b Hb Hgb. eapply raised_keeps; [exact Hra|]. by apply Hbits. }
        destruct r2 as [u|[]]; [destruct Hr; split; [done|lia]| |destruct Hr; split; [done|lia]|done]. lia.
    + destruct Hn as (-> & -> & -> & ->). intros [= <- <- <-]. exists T. split; [|split; [apply relinked_refl|split; [done|cbn; lia]]].
      by destruct (remapped_refl T m root [] HT) as [R1 R2 R3 R4 R5 R6].
Qed.
End Instance_.

#[export] Instance tree_mapper_laws : MapperLaws.
Proof.
  split.
  - intros T m root page frame g supply r m' n HT Hp Hf Hg Hfr E.
    assert (T !! root = Some (3%nat, prefix 3 page)) as Hroot by (rewrite (proj1 (user_top page (proj1 Hp))); apply HT).
    destruct (map_from_ok root page frame g Hp Hf Hg 3 T m root supply r m' n HT Hroot Hfr E) as (T' & R1 & R2 & R3 & R4).
    exists T'. split; [done|]. split; [done|]. split; [|done]. intros Er d Hd. apply (R3 Er). lia.
  - intros T m root page HT [Hp _]. cbn [unmap_page tree_mapper]. unfold leaf, tree_unmap.
    destruct (down 3 m root page) as [t|]; [|done]. cbn [mbind option_bind]. destruct (present _); [|done]. by exists t.
  - done.
Qed.
