(* ===== verification/PagingThms.v ===== *)
(** The theorems about the page tables of [Paging]: unmapping with pruning,
    and the shared kernel half. *)
From S2P Require Import Prelude Bits Mem Paging PagingProofs.
From Stdlib Require Import Strings.Byte.

(** ** Unlinking an empty table *)

Section Unlink.
Context (T : gmap Z (nat * Z)) (m : Mem) (root : Z) (HT : tables T m root).

Lemma same_base n b b' i i' :
  b mod W (S n) = 0 → b' mod W (S n) = 0 → 0 ≤ i < 512 → 0 ≤ i' < 512 → b + i * W n = b' + i' * W n → b = b' ∧ i = i'.
Proof.
  intros Hb Hb' Hi Hi'. pose proof (W_pos n). rewrite W_succ in *.
  apply Z.mod_divide in Hb as [k ->]; [|lia]. apply Z.mod_divide in Hb' as [k' ->]; [|lia]. intros E.
  assert (k * 512 + i = k' * 512 + i') as E' by nia. assert (k = k') as -> by lia. split; [done|lia].
Qed.

Lemma base_prefix t n b : T !! t = Some (n, b) → prefix n b = b ∧ user_addr b ∧ (n ≤ 3)%nat.
Proof.
  intros Ht. destruct (tb_frame _ _ _ HT _ _ _ Ht) as (_ & Hn & Hb & Hu). split; [|done]. unfold prefix.
  pose proof (W_pos (S n)). rewrite Z.mul_comm. apply Z.mod_divide in Hb as [k ->]; [|lia]. rewrite Z.div_mul by lia. lia.
Qed.

(** A table is pointed to from one place. *)
Lemma parent_unique t t' n n' b b' i i' :
  T !! t = Some (S n, b) → T !! t' = Some (S n', b') → user_index root t i → user_index root t' i' →
  entry m t i ≠ 0 → entry m t' i' ≠ 0 → addr (entry m t i) = addr (entry m t' i') → t = t' ∧ i = i'.
Proof.
  intros Ht Ht' Hi Hi' Hz Hz' Ha. destruct (tb_down _ _ _ HT _ _ _ _ Ht Hi) as [?|[_ E]]; [done|].
  destruct (tb_down _ _ _ HT _ _ _ _ Ht' Hi') as [?|[_ E']]; [done|]. rewrite Ha, E' in E. injection E as En Eb. subst n'.
  destruct (tb_frame _ _ _ HT _ _ _ Ht) as (_ & _ & Hb & _), (tb_frame _ _ _ HT _ _ _ Ht') as (_ & _ & Hb' & _).
  destruct (same_base (S n) b' b i' i Hb' Hb) as [-> ->]; [apply Hi'|apply Hi|done|]. split; [|done].
  destruct (base_prefix _ _ _ Ht) as (Hp & Hu & Hn). apply (table_unique T m root HT b t t' (S n)); congruence || done.
Qed.

Lemma tables_unlink t n b i c :
  T !! t = Some (S n, b) → user_index root t i → entry m t i ≠ 0 → addr (entry m t i) = c → (∀ j, 0 ≤ j < 512 → entry m c j = 0) →
  tables (delete c T) (set_entry m t i 0) root ∧ c ≠ root ∧ is_Some (T !! c) ∧
  (∀ va, user_addr va → leaf (set_entry m t i 0) root va = leaf m root va) ∧
  ∀ k, 256 ≤ k < 512 → entry (set_entry m t i 0) root k = entry m root k.
Proof.
  intros Ht Hi Hz <- Hc. set (c := addr (entry m t i)) in *. pose proof Hi as [Hi' _].
  destruct (tb_down _ _ _ HT _ _ _ _ Ht Hi) as [?|[_ Tc]]; [done|]. fold c in Tc.
  destruct (tb_frame _ _ _ HT _ _ _ Ht) as (Hft & Hn3 & _).
  assert (c ≠ root) as Hcr by (intros E; pose proof (root_level T m root HT _ _ _ Tc E); lia).
  assert (t ≠ c) as Htc by (intros E; rewrite E, Tc in Ht; injection Ht; lia).
  assert (∀ t0 n0 b0 i0, T !! t0 = Some (n0, b0) → 0 ≤ i0 < 512 → t0 ≠ t ∨ i0 ≠ i → entry (set_entry m t i 0) t0 i0 = entry m t0 i0) as E.
  { intros t0 n0 b0 i0 Ht0 Hi0. by apply (entry_elsewhere T m root HT _ _ _ _ _ _ _ _ _ Ht Ht0). }
  assert (entry (set_entry m t i 0) t i = 0) as E0 by (by apply entry_set).
  assert (tables (delete c T) (set_entry m t i 0) root) as HT'.
  { split.
    - rewrite lookup_delete_ne by done. apply HT.
    - intros t0 n0 b0 [_ Ht0]%lookup_delete_Some. by apply (tb_frame _ _ _ HT).
    - intros t0 n0 b0 i0 [Hne Ht0]%lookup_delete_Some Hi0. destruct (decide (t0 = t ∧ i0 = i)) as [[-> ->]|Hd]; [by left|].
      rewrite (E _ _ _ _ Ht0) by entry_side. destruct (tb_down _ _ _ HT _ _ _ _ Ht0 Hi0) as [?|[Hl Hc0]]; [by left|].
      destruct (decide (entry m t0 i0 = 0)); [by left|right]. split; [done|]. rewrite lookup_delete_ne; [done|]. intros Ecc.
      destruct (parent_unique _ _ _ _ _ _ _ _ Ht Ht0 Hi Hi0) as [-> ->]; try done. by destruct Hd.
    - intros t0 b0 i0 [Hne Ht0]%lookup_delete_Some Hi0. rewrite (E _ _ _ _ Ht0); [by apply (tb_leaf _ _ _ HT t0 b0)|entry_side|].
      left. intros ->. congruence.
    - intros t0 n0 b0 [Hne Ht0]%lookup_delete_Some Hr. destruct (tb_up _ _ _ HT t0 n0 b0 Ht0 Hr) as (t' & b' & i' & Ht' & Hi'' & Hb & Hz' & Ha).
      exists t', b', i'. assert (t' ≠ c) as Htc' by (intros ->; apply Hz', Hc, Hi'').
      assert (¬ (t' = t ∧ i' = i)) as Hd by (intros [-> ->]; by apply Hne). rewrite lookup_delete_ne by done.
      rewrite (E _ _ _ _ Ht') by entry_side. done. }
  split; [done|]. split; [done|]. split; [eauto|]. split.
  - intros va Hva. apply option_eq. intros e. rewrite (leaf_iff _ _ root HT'), (leaf_iff T m root HT) by done.
    assert (∀ t', T !! t' = Some (0%nat, prefix 0 va) → entry (set_entry m t i 0) t' (idx 0 va) = entry m t' (idx 0 va)) as El.
    { intros t' Ht'. apply (E _ _ _ _ Ht' (idx_range 0 va)). left. intros ->. congruence. }
    split.
    + intros (t' & [_ Ht']%lookup_delete_Some & He & Hnz). exists t'. rewrite El in He by done. done.
    + intros (t' & Ht' & He & Hnz). exists t'. rewrite El by done. split; [|done]. rewrite lookup_delete_ne; [done|].
      intros <-. rewrite Hc in He by apply idx_range. done.
  - intros k Hk. apply (E root 3%nat 0 k); [apply HT|lia|]. destruct (decide (root = t)) as [Er|]; [right|by left].
    destruct Hi as [_ Hi]. specialize (Hi (eq_sym Er)). lia.
Qed.
End Unlink.

(** ** Pruning *)

(** [m'] is [m] without the tables [fs], and maps the same pages. *)
Record pruned (T : gmap Z (nat * Z)) (m : Mem) (root : Z) (fs : list Z) (T' : gmap Z (nat * Z)) (m' : Mem) : Prop := {
  pr_tables : tables T' m' root;
  pr_freed : NoDup fs ∧ (root ∉ fs) ∧ ∀ t, t ∈ fs → is_Some (T !! t);
  pr_rest : ∀ t, T' !! t = if decide (t ∈ fs) then None else T !! t;
  pr_leaf : ∀ va, user_addr va → leaf m' root va = leaf m root va;
  pr_kernel : ∀ k, 256 ≤ k < 512 → entry m' root k = entry m root k;
  pr_out : ∀ x, ¬ in_frames (dom T) x → m' x = m x
}.

Lemma pruned_refl T m root : tables T m root → pruned T m root [] T m.
Proof. intros HT. split; try done. split_and!; [apply NoDup_nil_2|by intros ?%elem_of_nil|by intros t ?%elem_of_nil]. Qed.

Lemma pruned_step T m root fs T1 m1 t n b i c :
  pruned T m root fs T1 m1 → T1 !! t = Some (S n, b) → user_index root t i → entry m1 t i ≠ 0 → addr (entry m1 t i) = c →
  (∀ j, 0 ≤ j < 512 → entry m1 c j = 0) → pruned T m root (fs ++ [c]) (delete c T1) (set_entry m1 t i 0).
Proof.
  intros [P1 (N1 & N2 & N3) P3 P4 P5 P6] Ht Hi Hz Ha Hc.
  destruct (tables_unlink T1 m1 root P1 t n b i c Ht Hi Hz Ha Hc) as (U1 & U2 & [x U3] & U4 & U5).
  assert (c ∉ fs) as Hcf by (intros Hin; rewrite P3, decide_True in U3 by done; done).
  assert (∀ t0 y, T1 !! t0 = Some y → T !! t0 = Some y) as Hsub by (intros t0 y; rewrite P3; by destruct (decide _)).
  split; [done| | | | |].
  - split_and!; [|set_solver|].
    + apply NoDup_app. split; [done|]. split; [|apply NoDup_singleton]. intros z Hz1 ->%list_elem_of_singleton. done.
    + intros t0 [H|H]%elem_of_app; [by apply N3|]. apply list_elem_of_singleton in H as ->. eauto.
  - intros t0. destruct (decide (t0 = c)) as [->|Hne]; [rewrite lookup_delete_eq, decide_True; [done|set_solver]|].
    rewrite lookup_delete_ne, P3 by done. destruct (decide (t0 ∈ fs)) as [H|H]; [by rewrite decide_True by set_solver|].
    rewrite decide_False by set_solver. done.
  - intros va Hva. by rewrite U4, P4.
  - intros k Hk. by rewrite U5, P5.
  - intros y Hy. rewrite set_entry_out; [by apply P6|apply Hi|]. destruct (Z.lt_ge_cases y t), (Z.le_gt_cases (t + 4096) y); auto.
    exfalso. apply Hy. exists t. split; [|lia]. apply elem_of_dom. eauto.
Qed.

(** The tables above a mapped page. *)
Record on_path (T : gmap Z (nat * Z)) (m : Mem) (root va p3 p2 p1 : Z) : Prop := {
  op_p3 : T !! p3 = Some (2%nat, prefix 2 va) ∧ links (entry m root (idx 3 va)) ∧ addr (entry m root (idx 3 va)) = p3;
  op_p2 : T !! p2 = Some (1%nat, prefix 1 va) ∧ links (entry m p3 (idx 2 va)) ∧ addr (entry m p3 (idx 2 va)) = p2;
  op_p1 : T !! p1 = Some (0%nat, prefix 0 va) ∧ links (entry m p2 (idx 1 va)) ∧ addr (entry m p2 (idx 1 va)) = p1
}.

Lemma links_nz e : links e → e ≠ 0.
Proof. intros H ->. by apply unused_links. Qed.

Lemma child_of_links m t i : links (entry m t i) → child_of m t i = Some (addr (entry m t i)).
Proof. intros H. unfold child_of, is_unused. rewrite (proj2 (Z.eqb_neq _ _)) by (by apply links_nz). by rewrite (proj2 H). Qed.

Lemma down_links T m root va d t c :
  tables T m root → user_addr va → (d < 3)%nat → down d m root va = Some t → down (S d) m root va = Some c →
  links (entry m t (idx (3 - d) va)) ∧ addr (entry m t (idx (3 - d) va)) = c.
Proof.
  intros HT Hv Hd Ht. cbn [down]. rewrite Ht. cbn [mbind option_bind]. destruct (present _ && _) eqn:E; [|done]. intros [= <-].
  apply andb_true_iff in E as [E1 E2]. apply negb_true_iff in E2. done.
Qed.

Lemma leaf_path T m root va e :
  tables T m root → user_addr va → leaf m root va = Some e →
  ∃ p3 p2 p1, on_path T m root va p3 p2 p1 ∧ down 3 m root va = Some p1 ∧ entry m p1 (idx 0 va) = e.
Proof.
  intros HT Hv. unfold leaf. destruct (down 3 m root va) as [p1|] eqn:D3; [|done]. cbn [mbind option_bind].
  destruct (present _); [|done]. intros [= <-].
  destruct (down 2 m root va) as [p2|] eqn:D2; [|cbn [down] in D3, D2; rewrite D2 in D3; done].
  destruct (down 1 m root va) as [p3|] eqn:D1; [|cbn [down] in D2, D1; rewrite D1 in D2; done].
  exists p3, p2, p1. split; [|done]. split.
  - split; [apply (down_table T m root HT va 1); (done || lia)|]. apply (down_links T m root va 0); (done || lia).
  - split; [apply (down_table T m root HT va 2); (done || lia)|]. apply (down_links T m root va 1); (done || lia).
  - split; [apply (down_table T m root HT va 3); (done || lia)|]. apply (down_links T m root va 2); (done || lia).
Qed.

Lemma is_empty_true m t : is_empty m t = true ↔ ∀ j, 0 ≤ j < 512 → entry m t j = 0.
Proof.
  unfold is_empty. rewrite forallb_forall. split.
  - intros H j Hj. specialize (H (Z.to_nat j)). rewrite Z2Nat.id in H by lia. apply Z.eqb_eq, H. apply in_seq. lia.
  - intros H j [_ Hj]%in_seq. apply Z.eqb_eq, H. lia.
Qed.

Lemma forallb_false {A} (f : A → bool) l : forallb f l = false → ∃ x, In x l ∧ f x = false.
Proof.
  induction l as [|x l IH]; [done|]. cbn [forallb]. destruct (f x) eqn:E; [|by exists x; split; [left|]].
  intros (y & Hy & Hf)%IH. exists y. split; [by right|done].
Qed.

Lemma is_empty_false m t : is_empty m t = false → ∃ j, 0 ≤ j < 512 ∧ entry m t j ≠ 0.
Proof.
  intros (j & [_ Hj]%in_seq & Hf)%forallb_false. exists (Z.of_nat j). split; [lia|]. by apply Z.eqb_neq in Hf.
Qed.

Ltac in_list := repeat first [apply list_elem_of_here | apply list_elem_of_further].

Lemma prune_ok T m root va p3 p2 p1 m' fs :
  tables T m root → user_addr va → on_path T m root va p3 p2 p1 → prune m root va = (m', fs) →
  ∃ T', pruned T m root fs T' m' ∧ (length fs ≤ 3)%nat ∧
    ∀ t, t ∈ [p1; p2; p3] → t ∈ fs ∨ ∃ j, 0 ≤ j < 512 ∧ entry m' t j ≠ 0.
Proof.
  intros HT Hv [(T3 & L3 & A3) (T2 & L2 & A2) (T1 & L1 & A1)]. unfold prune.
  rewrite (child_of_links _ _ _ L3), A3, (child_of_links _ _ _ L2), A2, (child_of_links _ _ _ L1), A1.
  pose proof (tb_root _ _ _ HT) as T4. pose proof (pruned_refl _ _ _ HT) as P0.
  destruct (tb_frame _ _ _ HT _ _ _ T1) as [F1 _], (tb_frame _ _ _ HT _ _ _ T2) as [F2 _], (tb_frame _ _ _ HT _ _ _ T3) as [F3 _],
    (tb_frame _ _ _ HT _ _ _ T4) as [F4 _].
  assert (p1 ≠ p2 ∧ p1 ≠ p3 ∧ p2 ≠ p3 ∧ p1 ≠ root ∧ p2 ≠ root ∧ p3 ≠ root) as (N12 & N13 & N23 & N1 & N2 & N3).
  { split_and!; intros ->; congruence. }
  assert (∀ n t b, T !! t = Some (n, b) → user_index root t (idx n va)) as Hui.
  { intros n t b Ht. apply user_index_idx; [done|]. by apply (root_level T m root HT _ _ _ Ht). }
  pose proof (links_nz _ L3) as Z3. pose proof (links_nz _ L2) as Z2. pose proof (links_nz _ L1) as Z1.
  pose proof (idx_range 1 va) as I1. pose proof (idx_range 2 va) as I2. pose proof (idx_range 3 va) as I3.
  assert (∀ t, t ∈ [p1; p2; p3] ↔ t = p1 ∨ t = p2 ∨ t = p3) as Hin
    by (intros t; rewrite !elem_of_cons, elem_of_nil; tauto).
  destruct (is_empty m p1) eqn:E1; cbn [negb].
  2: { intros [= <- <-]. exists T. split; [done|]. split; [cbn; lia|]. intros t [->|[->| ->]]%Hin; right; [by apply is_empty_false|eauto..]. }
  rewrite is_empty_true in E1. pose proof (pruned_step _ _ _ _ _ _ p2 0 _ _ p1 P0 T2 (Hui _ _ _ T2) Z1 A1 E1) as P1.
  unfold clear_entry. set (m1 := set_entry m p2 (idx 1 va) 0) in *.
  assert (entry m1 p3 (idx 2 va) = entry m p3 (idx 2 va)) as K3 by (apply entry_set_other; try done; by left).
  assert (entry m1 root (idx 3 va) = entry m root (idx 3 va)) as K4 by (apply entry_set_other; try done; left; congruence).
  destruct (is_empty m1 p2) eqn:E2; cbn [negb].
  2: { intros [= <- <-]. eexists. split; [exact P1|]. split; [cbn; lia|].
       intros t [->|[->| ->]]%Hin; [left; in_list|right; by apply is_empty_false|right; exists (idx 2 va); by rewrite K3]. }
  rewrite is_empty_true in E2.
  assert (delete p1 T !! p3 = Some (2%nat, prefix 2 va)) as T3' by (by rewrite lookup_delete_ne).
  pose proof (pruned_step _ _ _ _ _ _ p3 1 _ (idx 2 va) p2 P1 T3' (Hui _ _ _ T3) ltac:(by rewrite K3) ltac:(by rewrite K3) E2) as P2.
  set (m2 := set_entry m1 p3 (idx 2 va) 0) in *.
  assert (entry m2 root (idx 3 va) = entry m root (idx 3 va)) as K4' by (rewrite <- K4; apply entry_set_other; try done; left; congruence).
  destruct (is_empty m2 p3) eqn:E3; cbn [negb].
  2: { intros [= <- <-]. eexists. split; [exact P2|]. split; [cbn; lia|].
       intros t [->|[->| ->]]%Hin; [left; in_list|left; in_list|right; by apply is_empty_false]. }
  rewrite is_empty_true in E3. intros [= <- <-].
  assert (delete p2 (delete p1 T) !! root = Some (3%nat, 0)) as T4' by (by rewrite !lookup_delete_ne).
  eexists. split; [apply (pruned_step _ _ _ _ _ _ root 2 _ (idx 3 va) p3 P2 T4' (Hui _ _ _ T4)); [by rewrite K4'|by rewrite K4'|done]|].
  split; [cbn; lia|]. intros t [->|[->| ->]]%Hin; left; in_list.
Qed.

(** ** Theorems *)

Lemma user_not_kernel va : user_addr va → shares_the_kernel_half va = false.
Proof.
  intros Hv. unfold shares_the_kernel_half. rewrite Z.shiftl_1_l, land_pow2 by lia. apply negb_false_iff, Z.eqb_eq.
  rewrite (Z.bits_above_log2 va 47); [done|unfold user_addr in Hv; lia|]. unfold user_addr in Hv.
  destruct (Z.eq_dec va 0) as [->|]; [done|]. apply Z.log2_lt_pow2; lia.
Qed.

Lemma user_canonical va : user_addr va → virt_addr va = Ret va.
Proof. intros [? ?]. unfold virt_addr. by rewrite (proj2 (Z.ltb_lt _ _)). Qed.

Lemma user_page_aligned va : user_page va → page_aligned va = true.
Proof. intros [_ H]. by apply Z.eqb_eq. Qed.

(** C9: Unmapping with pruning. For a user page [unmap_and_prune] always
    returns. A page that is not mapped is [NotMapped] and nothing changes.
    Otherwise it returns the page's frame, that page and no other loses its
    mapping, and the tables it frees are exactly the ones on the page's path
    that are left empty: they are distinct, never the root, and what is left
    is a well-formed hierarchy without them, so no entry points to a freed
    frame. The kernel half and all memory outside the tables stay as they
    were, and every frame is released after both the local flush and the
    shootdown on every processor. *)
Theorem prune_frees_only_dead_tables `{MapperLaws} T m root va :
  tables T m root → user_page va →
  ∃ r m' ev, unmap_and_prune m root va = Ret (r, m', ev) ∧
    match r with
    | Err e => e = NotMapped ∧ leaf m root va = None ∧ m' = m ∧ ev = []
    | Ok (pa, k) => ∃ e fs T', leaf m root va = Some e ∧ pa = addr e ∧ k = Z.of_nat (length fs) ∧ k ≤ 3 ∧
        ev = [Invlpg va; ShootdownPage va] ++ (if decide (fs = []) then [] else [FlushAll; ShootdownAll]) ++ (FreeFrame <$> fs) ∧
        tables T' m' root ∧ NoDup fs ∧ (root ∉ fs) ∧ (∀ t, t ∈ fs → is_Some (T !! t)) ∧
        (∀ t, T' !! t = if decide (t ∈ fs) then None else T !! t) ∧
        (∀ d t, (1 ≤ d ≤ 3)%nat → down d m root va = Some t → t ∈ fs ∨ ∃ j, 0 ≤ j < 512 ∧ entry m' t j ≠ 0) ∧
        (∀ va', user_page va' → leaf m' root va' = if decide (va' = va) then None else leaf m root va') ∧
        (∀ i, 256 ≤ i < 512 → entry m' root i = entry m root i) ∧
        (∀ x, ¬ in_frames (dom T) x → m' x = m x)
    end.
Proof.
  intros HT Hp. pose proof Hp as [Hv _]. unfold unmap_and_prune, unmap.
  rewrite (user_canonical _ Hv). cbn [mbind outcome_bind]. rewrite (user_page_aligned _ Hp). cbn [negb].
  pose proof (unmap_page_ok T m root va HT Hp) as Hu. destruct (leaf m root va) as [e|] eqn:El.
  2: { rewrite Hu. cbn [mbind outcome_bind unmap_error]. by eexists _, _, _. }
  destruct Hu as (t & Ht & ->). cbn [mbind outcome_bind]. rewrite (user_not_kernel _ Hv).
  destruct (leaf_path T m root va e HT Hv El) as (p3 & p2 & p1 & Hpath & D3 & He). assert (t = p1) as -> by congruence.
  set (m1 := set_entry m p1 (idx 0 va) 0). pose proof Hpath as [(T3 & L3 & A3) (T2 & L2 & A2) (T1 & L1 & A1)].
  pose proof (tables_set_leaf T m root HT p1 _ (idx 0 va) 0 T1 (idx_range 0 va) ltac:(by left) ltac:(done)) as HT1. fold m1 in HT1.
  assert (∀ t n b i, T !! t = Some (S n, b) → 0 ≤ i < 512 → entry m1 t i = entry m t i) as E1.
  { intros t n b i Ht0 Hi. apply (entry_elsewhere T m root HT _ _ _ _ _ _ _ _ _ T1 Ht0 (idx_range 0 va) Hi). left. intros ->. congruence. }
  pose proof (tb_root _ _ _ HT) as T4.
  assert (on_path T m1 root va p3 p2 p1) as Hpath1.
  { split; [rewrite (E1 _ _ _ _ T4)|rewrite (E1 _ _ _ _ T3)|rewrite (E1 _ _ _ _ T2)]; done || apply idx_range. }
  destruct (prune m1 root va) as [m2 fs] eqn:Epr.
  destruct (prune_ok T m1 root va p3 p2 p1 m2 fs HT1 Hv Hpath1 Epr) as (T' & [P1 (P2 & P3 & P4) P5 P6 P7 P8] & Hlen & Hall).
  exists (Ok (addr e, Z.of_nat (length fs))), m2,
    ([Invlpg va; ShootdownPage va] ++ (if decide (fs = []) then [] else [FlushAll; ShootdownAll]) ++ (FreeFrame <$> fs)).
  split; [by destruct fs|].
  exists e, fs, T'. do 3 (split; [done|]). split; [lia|]. do 6 (split; [done|]). split_and!.
  - intros d t0 Hd Ht0. apply Hall. pose proof (down_table T m root HT va d t0 Hv ltac:(lia) Ht0) as Hlv.
    assert (d = 1 ∨ d = 2 ∨ d = 3)%nat as [->|[->| ->]] by lia; cbn [Nat.sub] in Hlv;
      [rewrite (table_unique T m root HT va _ p3 2 Hv ltac:(lia) Hlv T3)|rewrite (table_unique T m root HT va _ p2 1 Hv ltac:(lia) Hlv T2)
      |rewrite (table_unique T m root HT va _ p1 0 Hv ltac:(lia) Hlv T1)]; in_list.
  - intros va' Hva'. rewrite P6 by apply Hva'. unfold m1. apply (leaf_set_leaf T m root HT p1 _ 0 va va' T1); done || by left.
  - intros i Hi. rewrite P7 by done. apply (E1 _ _ _ _ T4). lia.
  - intros x Hx. rewrite P8 by done. apply set_entry_out; [apply idx_range|].
    destruct (Z.lt_ge_cases x p1), (Z.le_gt_cases (p1 + 4096) x); auto. exfalso. apply Hx. exists p1. split; [|lia].
    apply elem_of_dom. eauto.
Qed.
