(* ===== verification/Vm.v ===== *)
(** Address spaces and program loading: [kernel/src/vmspace.rs] and
    [kernel/src/process.rs], over the page tables of [Paging], the parser of
    [Elf] and an allocator of frames.

    [Sys] is what the code reaches: physical memory, the frame allocator, the
    recorded kernel root and this processor's CR3.  A [VmSpace] is its root
    and the frames it owns; its [AddressSpace] is that root seen through the
    higher-half map at [hhdm].  An early return drops the space, as [?] does.

    Entering the process ([spawn], [user_thread_entry]) is the scheduler's and
    the processor's business and is not modelled; [KSched] has the hand-over
    of the space to the thread. *)
From S2P Require Import Prelude Bits Mem Syscall Elf Paging.
From Stdlib Require Import Strings.Byte.

(** ** The frame allocator: [frames::alloc(0)], [frames::free(pa, 0)] *)

Class Frames (F : Type) := {
  falloc : F → option Z * F;
  ffree : F → Z → outcome F
}.

Record Sys (F : Type) := mkSys { mem : Mem; frames : F; kernel_root : Z; cr3 : Z }.
Arguments mkSys {F}. Arguments mem {F}. Arguments frames {F}. Arguments kernel_root {F}. Arguments cr3 {F}.

Definition with_mem {F} (s : Sys F) (m : Mem) : Sys F := mkSys m (frames s) (kernel_root s) (cr3 s).
Definition with_frames {F} (s : Sys F) (f : F) : Sys F := mkSys (mem s) f (kernel_root s) (cr3 s).

(** ** [VmSpace] *)

Record VmSpace := mkVmSpace { root_pa : Z; owned : list Z }.
Definition own (v : VmSpace) (pa : Z) : VmSpace := mkVmSpace (root_pa v) (owned v ++ [pa]).

Inductive LoadError :=
  | LElf (e : Elf.ElfError) | OutOfMemory | BadAddress | LNotUserAddress (va : Z) | WriteExecutePage (va : Z)
  | LMap (e : MapError).

Record Process := mkProcess { space : VmSpace; pentry : Z; stack_top : Z }.

Definition USER_STACK_TOP : Z := 0x7fff00000000.
Definition USER_STACK_PAGES : Z := 4.

(** Code that works on a space and may fail: the state comes back either
    way. *)
Definition VM (F A : Type) : Type := Sys F * VmSpace → outcome (result A LoadError * (Sys F * VmSpace)).
Definition vm_ret {F A} (a : A) : VM F A := λ s, Ret (Ok a, s).
Definition vm_fail {F A} (e : LoadError) : VM F A := λ s, Ret (Err e, s).
Definition vm_bind {F A B} (x : VM F A) (f : A → VM F B) : VM F B := λ s,
  '(r, s) ← x s;
  match r with Ok a => f a s | Err e => Ret (Err e, s) end.
Notation "'let!' x := a 'in' b" := (vm_bind a (λ x, b)) (at level 10, x pattern, b at level 200) : qunix_scope.

Section Vm.
Context `{Mapper} {F : Type} `{Frames F} (hhdm : Z).

(** A frame's address through the higher-half map. *)
Definition at_hhdm (pa : Z) : outcome Z := _ ← add_chk 64 hhdm pa; Ret pa.

(** [VmSpace::new]. *)
Definition new (s : Sys F) : outcome (option VmSpace * Sys F) :=
  match falloc (frames s) with
  | (None, f) => Ret (None, with_frames s f)
  | (Some root, f) =>
      root ← at_hhdm root;
      let m := zero_frame (mem s) root in
      _ ← rust_assert (negb (kernel_root s =? 0));
      let m := copy_kernel_half m root (kernel_root s) in
      Ret (Some (mkVmSpace root [root]), mkSys m f (kernel_root s) (cr3 s))
  end.

(** The closure [map_user] gives the mapper: every frame it takes is owned. *)
Definition next_owned (c : F * list Z) : option Z * (F * list Z) :=
  match falloc c.1 with
  | (None, f) => (None, (f, c.2))
  | (Some pa, f) => (Some pa, (f, c.2 ++ [pa]))
  end.

Definition user_flags (writable executable : bool) : Z :=
  let flags := Z.lor PRESENT USER in
  let flags := if writable then Z.lor flags WRITABLE else flags in
  if executable then flags else Z.lor flags NO_EXECUTE.

(** [VmSpace::map_user]. *)
Definition map_user (s : Sys F) (v : VmSpace) (va pa : Z) (writable executable : bool)
    : outcome (result unit MapError * (Sys F * VmSpace)) :=
  if (USER_MAX <=? va) || (va <? USER_MIN) then Ret (Err NotUserAddress, (s, v)) else
  '(r, m, c) ← map next_owned (frames s, owned v) (mem s) (root_pa v) va pa (user_flags writable executable);
  Ret (r, (mkSys m c.1 (kernel_root s) (cr3 s), mkVmSpace (root_pa v) c.2)).

(** [VmSpace::map_new_page]. *)
Definition map_new_page (s : Sys F) (v : VmSpace) (va : Z) (writable executable : bool)
    : outcome (result Z MapError * (Sys F * VmSpace)) :=
  match falloc (frames s) with
  | (None, f) => Ret (Err OutOfFrames, (with_frames s f, v))
  | (Some pa, f) =>
      pa ← at_hhdm pa;
      let s := with_mem (with_frames s f) (zero_frame (mem s) pa) in
      '(r, sv) ← map_user s (own v pa) va pa writable executable;
      Ret (match r with Ok _ => Ok pa | Err e => Err e end, sv)
  end.

(** [VmSpace::translate], [VmSpace::is_mapped]. *)
Definition vm_translate (s : Sys F) (v : VmSpace) (va : Z) : outcome (option Z) := translate (mem s) (root_pa v) va.
Definition is_mapped (s : Sys F) (v : VmSpace) (va : Z) : outcome bool :=
  o ← vm_translate s v va; Ret (match o with Some _ => true | None => false end).

(** [VmSpace::set_permissions]. *)
Definition set_permissions (s : Sys F) (v : VmSpace) (va : Z) (writable executable : bool)
    : outcome (result unit MapError * (Sys F * VmSpace)) :=
  '(r, m, _) ← unmap (mem s) (root_pa v) va;
  match r with
  | Err e => Ret (Err e, (with_mem s m, v))
  | Ok pa => map_user (with_mem s m) v va pa writable executable
  end.

(** [VmSpace::drop]. *)
Fixpoint free_all (f : F) (l : list Z) : outcome F :=
  match l with [] => Ret f | pa :: l' => f ← ffree f pa; free_all f l' end.
Definition drop_space (s : Sys F) (v : VmSpace) : outcome (Sys F) :=
  _ ← rust_assert (negb (cr3 s =? root_pa v));
  f ← free_all (frames s) (rev (owned v));
  Ret (with_frames s f).

(** ** [Process] *)

(** [x.checked_next_multiple_of(n)]. *)
Definition checked_next_multiple_of (x n : Z) : option Z :=
  if x mod n =? 0 then Some x else checked_add 64 x (n - x mod n).

(** [segment_pages]: the first page and the end. *)
Definition segment_pages (seg : Elf.Segment) : result (Z * Z) LoadError :=
  let start := Z.land (Elf.vaddr seg) (bitnot 64 0xfff) in
  match checked_add 64 (Elf.vaddr seg) (Elf.mem_size seg) ≫= λ e, checked_next_multiple_of e 4096 with
  | None => Err BadAddress
  | Some stop =>
      if USER_MAX <? stop then Err (LNotUserAddress (Elf.vaddr seg))
      else if start <? USER_MIN then Err (LNotUserAddress (Elf.vaddr seg))
      else Ok (start, stop)
  end.

(** [range.step_by(4096)]. *)
Definition step_by (r : Z * Z) : list Z :=
  (λ i, r.1 + 4096 * Z.of_nat i) <$> seq 0 (Z.to_nat ((r.2 - r.1 + 4095) / 4096)).

Definition lift_map {A} (r : outcome (result A MapError * (Sys F * VmSpace))) : outcome (result A LoadError * (Sys F * VmSpace)) :=
  '(r, sv) ← r; Ret (match r with Ok a => Ok a | Err e => Err (LMap e) end, sv).
Definition vm_result {A} (r : result A LoadError) : VM F A := λ sv, Ret (r, sv).

(** The validation pass. *)
Fixpoint validate (segs : list Elf.Segment) : result unit LoadError :=
  match segs with
  | [] => Ok tt
  | seg :: segs' => match segment_pages seg with Err e => Err e | Ok _ => validate segs' end
  end.

(** The mapping loop of one segment. *)
Fixpoint map_pages (l : list Z) : VM F unit :=
  match l with
  | [] => vm_ret tt
  | va :: l' => λ sv,
      b ← is_mapped sv.1 sv.2 va;
      if (b : bool) then map_pages l' sv
      else (let! _ := (λ sv, lift_map (map_new_page sv.1 sv.2 va true true)) in map_pages l') sv
  end.

(** The copying loop: a page at a time. *)
Fixpoint copy_segment (fuel : nat) (seg : Elf.Segment) (copied : Z) : VM F unit :=
  if Z.of_nat (length (Elf.data seg)) <=? copied then vm_ret tt else
  match fuel with
  | O => λ _, Panic
  | S fuel' => λ sv,
      va ← add_chk 64 (Elf.vaddr seg) copied;
      o ← vm_translate sv.1 sv.2 va;
      match o with
      | None => vm_fail BadAddress sv
      | Some pa =>
          let in_page := 4096 - Z.land va 0xfff in
          let run := Z.min in_page (Z.of_nat (length (Elf.data seg)) - copied) in
          bytes ← slice (Elf.data seg) copied (copied + run);
          pa ← at_hhdm pa;
          copy_segment fuel' seg (copied + run) (with_mem sv.1 (write_mem (mem sv.1) pa bytes), sv.2)
      end
  end.

Fixpoint load_segments (segs : list Elf.Segment) : VM F unit :=
  match segs with
  | [] => vm_ret tt
  | seg :: segs' =>
      let! range := vm_result (segment_pages seg) in
      let! _ := map_pages (step_by range) in
      let! _ := copy_segment (length (Elf.data seg)) seg 0 in
      load_segments segs'
  end.

(** The permissions of every page: [BTreeMap] as its entries in order. *)
Fixpoint or_entry (pages : list (Z * (bool * bool))) (va : Z) (w x : bool) : list (Z * (bool * bool)) :=
  match pages with
  | [] => [(va, (w, x))]
  | (k, (w', x')) :: pages' =>
      if va =? k then (k, (w' || w, x' || x)) :: pages'
      else if va <? k then (va, (w, x)) :: pages
      else (k, (w', x')) :: or_entry pages' va w x
  end.

Fixpoint page_permissions (segs : list Elf.Segment) (pages : list (Z * (bool * bool)))
    : result (list (Z * (bool * bool))) LoadError :=
  match segs with
  | [] => Ok pages
  | seg :: segs' =>
      match segment_pages seg with
      | Err e => Err e
      | Ok r => page_permissions segs'
                  (foldl (λ ps va, or_entry ps va (Elf.writable seg) (Elf.executable seg)) pages (step_by r))
      end
  end.

Fixpoint apply_permissions (pages : list (Z * (bool * bool))) : VM F unit :=
  match pages with
  | [] => vm_ret tt
  | (va, (w, x)) :: pages' =>
      if (w : bool) && x then vm_fail (WriteExecutePage va)
      else let! _ := (λ sv, lift_map (set_permissions sv.1 sv.2 va w x)) in apply_permissions pages'
  end.

Fixpoint map_stack (l : list Z) : VM F unit :=
  match l with
  | [] => vm_ret tt
  | page :: l' =>
      let! _ := (λ sv, lift_map (map_new_page sv.1 sv.2 (USER_STACK_TOP - (page + 1) * 4096) true false)) in
      map_stack l'
  end.

(** What [from_elf] does once it has a space. *)
Definition load (segs : list Elf.Segment) : VM F unit :=
  let! _ := vm_result (validate segs) in
  let! _ := load_segments segs in
  let! pages := vm_result (page_permissions segs []) in
  let! _ := apply_permissions pages in
  map_stack (Z.of_nat <$> seq 0 (Z.to_nat USER_STACK_PAGES)).

(** [Process::from_elf]. *)
Definition from_elf (s : Sys F) (bytes : list byte) : outcome (result Process LoadError * Sys F) :=
  p ← Elf.parse bytes;
  match p with
  | Err e => Ret (Err (LElf e), s)
  | Ok elf =>
      '(o, s) ← new s;
      match o with
      | None => Ret (Err OutOfMemory, s)
      | Some v =>
          segs ← Elf.segments elf;
          '(r, (s, v)) ← load segs (s, v);
          match r with
          | Ok _ => Ret (Ok (mkProcess v (Elf.entry elf) USER_STACK_TOP), s)
          | Err e => s ← drop_space s v; Ret (Err e, s)
          end
      end
  end.
End Vm.
