(* ===== verification/VmProofs.v ===== *)
(** Proofs about the address spaces and the loader of [Vm]. *)
From S2P Require Import Prelude Bits Mem Syscall Elf Paging PagingProofs PagingThms Vm.
From Stdlib Require Import Strings.Byte.

(** ** What the frame allocator promises

    [fpool] are the frames that are the allocator's to give, [flive] the ones
    that are out; [fok] is the allocator's own invariant. *)
Class FramesLaws (F : Type) `{Frames F} := {
  fok : F → Prop;
  flive : F → gset Z;
  fpool : F → Z → Prop;
  falloc_ok : ∀ f, fok f →
    match falloc f with
    | (None, f') => fok f' ∧ flive f' = flive f ∧ ∀ x, fpool f' x ↔ fpool f x
    | (Some pa, f') => fok f' ∧ frame_ok pa ∧ (pa ∉ flive f) ∧ flive f' = {[pa]} ∪ flive f ∧ fpool f pa ∧ ∀ x, fpool f' x ↔ fpool f x
    end;
  ffree_ok : ∀ f pa, fok f → pa ∈ flive f → ∃ f', ffree f pa = Ret f' ∧ fok f' ∧ flive f' = flive f ∖ {[pa]} ∧ ∀ x, fpool f' x ↔ fpool f x
}.

(** ** Entries of user pages *)

Definition leaf_entry (p : Z * (bool * bool)) : Z := Z.lor p.1 (to_x86 (user_flags p.2.1 p.2.2)).

Lemma user_flags_ok w x : flags_ok (to_x86 (user_flags w x)).
Proof. destruct w, x; vm_compute; intuition congruence. Qed.

Lemma addr_leaf_entry f w x : frame_ok f → addr (leaf_entry (f, (w, x))) = f.
Proof. intros Hf. apply addr_lor; [done|]. apply user_flags_ok. Qed.

(** The permissions the processor reads off an entry. *)
Definition entry_user (e : Z) : bool := Z.testbit e 2.
Definition entry_writable (e : Z) : bool := Z.testbit e 1.
Definition entry_executable (e : Z) : bool := negb (Z.testbit e 63).

(** What the entries above the leaves allow: none forbids execution, and
    those on the path of a page allow the user what its permissions do. *)
Record opened (m : Mem) (root : Z) (A : gmap Z (Z * (bool * bool))) : Prop := {
  op_links : ∀ va d e, user_addr va → (d < 3)%nat → link d m root va = Some e → entry_executable e = true;
  op_pages : ∀ va f w x d, A !! va = Some (f, (w, x)) → (d < 3)%nat →
    ∃ e, link d m root va = Some e ∧ entry_user e = true ∧ (w = true → entry_writable e = true)
}.

Lemma opened_ext m m' root A : (∀ va d, user_addr va → (d < 3)%nat → link d m' root va = link d m root va) →
  (∀ va p, A !! va = Some p → user_addr va) → opened m root A → opened m' root A.
Proof.
  intros E Hu [H1 H2]. split.
  - intros va d e Hv Hd. rewrite E by done. by apply H1.
  - intros va f w x d HA Hd. rewrite E by eauto. by eapply H2.
Qed.

Lemma opened_sub m root A A' : (∀ va p, A' !! va = Some p → A !! va = Some p) → opened m root A → opened m root A'.
Proof. intros Hs [H1 H2]. split; [done|]. intros va f w x d HA. by apply (H2 va f w x d), Hs. Qed.

Lemma opened_map m m' root A w x : relinked root (to_x86 (user_flags w x)) m m' →
  (∀ va p, A !! va = Some p → user_addr va) → opened m root A → opened m' root A.
Proof.
  intros [R1 R2] Hu [H1 H2]. split.
  - intros va d e Hv Hd He. destruct (R2 va d e Hv Hd He) as (e0 & Hr & H0).
    assert (entry_executable e0 = true) as Hx.
    { destruct H0 as [H0|(F1 & _ & F2)]; [by eapply H1|]. unfold entry_executable. apply negb_true_iff.
      destruct (Z.eq_dec e0 0) as [->|]; [done|]. apply Z.bits_above_log2; [done|]. apply Z.log2_lt_pow2; lia. }
    destruct Hr as [->| ->]; [done|]. unfold entry_executable in *. rewrite Z.lor_spec, Z.land_spec.
    apply negb_true_iff in Hx. rewrite Hx. change (Z.testbit 7 63) with false. by rewrite andb_false_r.
  - intros va f w' x' d HA Hd. destruct (H2 va f w' x' d HA Hd) as (e & He & U & Wr).
    destruct (R1 va d e (Hu va _ HA) Hd He) as (e' & He' & Hr). exists e'. split; [done|].
    split; [by eapply raised_keeps|]. intros Hw. eapply raised_keeps; [done|]. by apply Wr.
Qed.

Lemma opened_insert m root A va f w x : (∀ d, (d < 3)%nat → admits (to_x86 (user_flags w x)) m root va d) →
  opened m root A → opened m root (<[va := (f, (w, x))]> A).
Proof.
  intros Ha [H1 H2]. split; [done|]. intros va' f' w' x' d [(<- & [= <- <- <-])|[_ HA]]%lookup_insert_Some Hd; [|by eapply H2].
  destruct (Ha d Hd) as (e & He & Hb). exists e. split; [done|]. split; [apply Hb; [lia|by destruct w, x]|].
  intros ->. apply Hb; [lia|by destruct x].
Qed.

Lemma leaf_entry_permissions f w x : frame_ok f →
  entry_user (leaf_entry (f, (w, x))) = true ∧ entry_writable (leaf_entry (f, (w, x))) = w ∧
  entry_executable (leaf_entry (f, (w, x))) = x.
Proof.
  intros Hf. unfold entry_user, entry_writable, entry_executable, leaf_entry. cbn [fst snd]. rewrite !Z.lor_spec.
  rewrite (frame_low_bit f 2), (frame_low_bit f 1) by (done || lia).
  assert (Z.testbit f 63 = false) as ->.
  { destruct Hf as (H0 & _ & H2). destruct (Z.eq_dec f 0) as [->|]; [done|]. apply Z.bits_above_log2; [done|].
    apply Z.log2_lt_pow2; lia. }
  destruct w, x; vm_compute; done.
Qed.

(** ** The loader's frame source *)

Section Source.
Context {F : Type} `{FramesLaws F}.

Lemma draw_ok k : ∀ (f : F) ow l why,
  fok f → draw next_owned k (f, ow) = (l, why) →
  (why = Exhausted ∨ why = Enough ∧ length l = k) ∧ NoDup l ∧ (∀ p, p ∈ l → frame_ok p ∧ (p ∉ flive f) ∧ fpool f p) ∧
  ∀ n, (n ≤ length l)%nat ∨ why = Exhausted ∧ n = S (length l) →
    ∃ f', calls next_owned n (f, ow) = (f', ow ++ take n l) ∧ fok f' ∧ flive f' = list_to_set (take n l) ∪ flive f ∧
      ∀ x, fpool f' x ↔ fpool f x.
Proof.
  induction k as [|k IH]; intros f ow l why Hf; cbn [draw].
  - intros [= <- <-]. split; [by right|]. split; [apply NoDup_nil_2|]. split; [by intros p ?%elem_of_nil|].
    intros n [Hn|[? _]]; [|done]. cbn in Hn. assert (n = 0%nat) as -> by lia. exists f. cbn [calls take]. rewrite app_nil_r. by rewrite list_to_set_nil, union_empty_l_L.
  - unfold next_owned at 1. cbn [fst snd]. pose proof (falloc_ok f Hf) as Ha. destruct (falloc f) as [[pa|] f1] eqn:Ef.
    + destruct Ha as (Hf1 & Hpa & Hnl & Hl1 & Hpl & Hpool). pose proof Hpa as (_ & Hal & Hr).
      rewrite (proj2 (Z.ltb_lt _ _)) by lia. cbn [negb]. unfold page_aligned at 1. rewrite (proj2 (Z.eqb_eq _ _) Hal).
      destruct (draw next_owned k (f1, ow ++ [pa])) as [l' why'] eqn:Ed. intros [= <- <-].
      destruct (IH _ _ _ _ Hf1 Ed) as (Hwhy & Hnd & Hin & Hcalls). split; [|split; [|split]].
      * destruct Hwhy as [?|[? ?]]; [by left|right]. split; [done|]. cbn. lia.
      * apply NoDup_cons. split; [|done]. intros Hc. apply Hin in Hc as (_ & Hc & _). rewrite Hl1 in Hc. apply Hc, elem_of_union. left. by apply elem_of_singleton.
      * intros p [->|Hp]%elem_of_cons; [done|]. apply Hin in Hp as (? & Hp & ?). rewrite Hl1 in Hp. split; [done|]. split; [|by apply Hpool]. intros Hp0. apply Hp, elem_of_union. by right.
      * intros [|n] Hn; [exists f; cbn [calls take]; by rewrite app_nil_r, list_to_set_nil, union_empty_l_L|].
        destruct (Hcalls n) as (f' & Hc & Hf' & Hl' & Hpl'); [cbn in Hn; destruct Hn as [?|[? ?]]; [left|right; split; [done|]]; lia|].
        exists f'. cbn [calls take]. unfold next_owned at 2. cbn [fst snd]. rewrite Ef. cbn [snd]. rewrite Hc, <- app_assoc.
        split; [done|]. split; [done|]. split; [rewrite Hl', Hl1, list_to_set_cons; clear; set_solver|]. intros z. by rewrite Hpl', Hpool.
    + destruct Ha as (Hf1 & Hl1 & Hpool). intros [= <- <-]. split; [by left|]. split; [apply NoDup_nil_2|]. split; [by intros p ?%elem_of_nil|].
      cbn [length]. intros n Hn. assert (n = 0 ∨ n = 1)%nat as [->| ->] by lia.
      * exists f. cbn [calls take]. by rewrite app_nil_r, list_to_set_nil, union_empty_l_L.
      * exists f1. cbn [calls]. unfold next_owned at 1. cbn [fst snd]. rewrite Ef. cbn [snd take]. by rewrite app_nil_r, list_to_set_nil, union_empty_l_L.
Qed.
End Source.

(** ** The invariant of a space under construction

    [L0], [P0] and [m0] are the frames that were out, the allocator's frames
    and the memory before the space was made; [A] is what the space maps (frame and permissions of each
    page) and [B] the bytes a program would see there. *)
Section Space.
Context `{MapperLaws} {F : Type} `{FramesLaws F} (hhdm : Z) (Hhdm : 0 ≤ hhdm ∧ hhdm + 2 ^ 47 ≤ 2 ^ 64).
Context (L0 : gset Z) (P0 : Z → Prop) (m0 : Mem) (kroot active : Z).

Definition page_of (va : Z) : Z := va - va mod 4096.

Record vmok (sv : Sys F * VmSpace) (T : gmap Z (nat * Z)) (A : gmap Z (Z * (bool * bool))) (B : Mem) : Prop := {
  vo_tables : tables T (mem sv.1) (root_pa sv.2);
  vo_fok : fok (frames sv.1) ∧ ∀ z, fpool (frames sv.1) z ↔ P0 z;
  vo_owned : NoDup (owned sv.2) ∧ ∀ f, f ∈ owned sv.2 → frame_ok f ∧ (f ∉ L0) ∧ P0 f;
  vo_live : flive (frames sv.1) = list_to_set (owned sv.2) ∪ L0;
  vo_dom : ∀ t, t ∈ dom T → t ∈ owned sv.2;
  vo_leaf : ∀ va, user_page va → leaf (mem sv.1) (root_pa sv.2) va = leaf_entry <$> A !! va;
  vo_pages : ∀ va f w x, A !! va = Some (f, (w, x)) →
    user_page va ∧ USER_MIN ≤ va ∧ f ∈ owned sv.2 ∧ (f ∉ dom T);
  vo_inj : ∀ va va' f p p', A !! va = Some (f, p) → A !! va' = Some (f, p') → va = va';
  vo_kernel : ∀ i, 256 ≤ i < 512 → entry (mem sv.1) (root_pa sv.2) i = entry m0 kroot i;
  vo_out : ∀ x, ¬ in_frames (list_to_set (owned sv.2)) x → mem sv.1 x = m0 x;
  vo_bytes : ∀ va f p o, A !! va = Some (f, p) → 0 ≤ o < 4096 → mem sv.1 (f + o) = B (va + o);
  vo_regs : kernel_root sv.1 = kroot ∧ cr3 sv.1 = active;
  vo_opened : opened (mem sv.1) (root_pa sv.2) A
}.

Lemma frame_at_hhdm f o : frame_ok f → 0 ≤ o < 4096 → at_hhdm hhdm (f + o) = Ret (f + o).
Proof. intros (? & ? & ?) ?. unfold at_hhdm. by rewrite add_chk_ok by lia. Qed.

Lemma frame_at_hhdm0 f : frame_ok f → at_hhdm hhdm f = Ret f.
Proof. intros Hf. pose proof (frame_at_hhdm f 0 Hf) as E. rewrite Z.add_0_r in E. by apply E. Qed.

Lemma in_frames_not (D : gset Z) f x : frame_ok f → f ≤ x < f + 4096 → (f ∉ D) → (∀ t, t ∈ D → frame_ok t) → ¬ in_frames D x.
Proof.
  intros Hf Hx Hn HD (t & Ht & Hxt). assert (t ≠ f) as Hne by (intros ->; done).
  destruct (frames_apart t f (HD t Ht) Hf Hne); lia.
Qed.

Lemma user_range_page va : USER_MIN ≤ va < USER_MAX → user_addr va.
Proof. unfold USER_MIN, USER_MAX, user_addr. lia. Qed.

Lemma live_owned (l : list Z) (L : gset Z) f : f ∈ l → f ∈ (list_to_set l : gset Z) ∪ L.
Proof. intros Hf. apply elem_of_union. left. by apply elem_of_list_to_set. Qed.

(** [map_user]: the page is mapped as asked, or it was mapped already, or a
    table could not be had. *)
Lemma map_user_ok sv T A B va pa w x :
  vmok sv T A B → user_page va → USER_MIN ≤ va → pa ∈ owned sv.2 → (pa ∉ dom T) → (∀ va' p, A !! va' ≠ Some (pa, p)) →
  (A !! va = None → ∀ o, 0 ≤ o < 4096 → mem sv.1 (pa + o) = B (va + o)) →
  ∃ r sv' T', map_user sv.1 sv.2 va pa w x = Ret (r, sv') ∧
    vmok sv' T' (if decide (r = Ok tt) then <[va := (pa, (w, x))]> A else A) B ∧
    match r with
    | Ok _ => A !! va = None
    | Err e => e = OutOfFrames ∨ e = AlreadyMapped ∧ is_Some (A !! va)
    end.
Proof.
  intros [V1 (V2 & V2') (V3 & V3') V4 V5 V6 V7 V8 V9 V10 V11 V13 V15] Hva Hmin Hpa Hnt Hna Hby. destruct sv as [s v]. cbn [fst snd] in *.
  pose proof Hva as [Hu Hal]. assert (frame_ok pa) as Hf by by apply V3'. pose proof Hf as (Hf0 & Hfa & Hfr).
  unfold map_user. rewrite (proj2 (Z.leb_gt _ _)), (proj2 (Z.ltb_ge _ _)) by (unfold USER_MAX, user_addr in *; lia). cbn [orb].
  unfold map. rewrite (user_canonical _ Hu). cbn [mbind outcome_bind]. rewrite (user_page_aligned _ Hva). cbn [negb].
  unfold phys_addr. rewrite (proj2 (Z.ltb_lt _ _)) by lia. cbn [rust_assert mbind outcome_bind].
  unfold page_aligned at 1. rewrite (proj2 (Z.eqb_eq _ _) Hfa). cbn [negb].
  destruct (draw next_owned 3 (frames s, owned v)) as [supply why] eqn:Ed.
  destruct (draw_ok 3 _ _ _ _ V2 Ed) as (Hwhy & Hnd & Hin & Hcalls).
  destruct (map_to (mem s) (root_pa v) va pa (to_x86 (user_flags w x)) supply) as [[r m'] n] eqn:Em.
  assert (fresh T supply) as Hfresh.
  { split; [done|]. intros p Hp. apply Hin in Hp as (? & Hp & _). split; [done|]. apply not_elem_of_dom. intros Hd.
    apply Hp. rewrite V4. apply V5 in Hd. by apply live_owned. }
  destruct (map_to_ok T _ _ va pa _ supply r m' n V1 Hva Hf (user_flags_ok w x) Hfresh Em) as (T' & [R1 R2 R3 R4 R5 R6] & Rl & Ra & Hr).
  destruct (Hcalls n) as (f' & Hc & Hf' & Hl' & Hpl').
  { destruct r as [|[]]; [left; tauto| |left; tauto|done]. destruct Hr as [Hn H3]. destruct Hwhy as [?|[_ Hl]]; [by right|lia]. }
  rewrite Hc. assert (∀ p, p ∈ take n supply → p ∈ supply) as Htk by (intros p Hp; rewrite <- (take_drop n supply); apply elem_of_app; by left).
  assert (∀ t, t ∈ dom T' → t ∈ owned v ++ take n supply) as Hdom'.
  { intros t [Ht|Ht]%R3; [apply elem_of_app; left; by apply V5|apply elem_of_app; by right]. }
  assert (∀ t, t ∈ dom T' → frame_ok t) as Hfd.
  { intros t Ht. apply elem_of_dom in Ht as [[k b] Ht]. apply (tb_frame _ _ _ R1 _ _ _ Ht). }
  assert (∀ f, f ∈ owned v → f ∉ dom T → f ∉ dom T') as Hdata.
  { intros f Hfo Hfn [?|Ht]%R3; [done|]. apply Htk, Hin in Ht as (_ & Ht & _). apply Ht. rewrite V4. by apply live_owned. }
  assert (∀ f o, f ∈ owned v → f ∉ dom T → 0 ≤ o < 4096 → m' (f + o) = mem s (f + o)) as Hkeep.
  { intros f o Hfo Hfn Ho. apply R4. apply (in_frames_not _ f); [by apply V3'|lia|by apply Hdata|done]. }
  assert (leaf (mem s) (root_pa v) va = None → A !! va = None) as Hlf by (rewrite V6 by done; by intros ?%fmap_None).
  set (A' := if decide (r = Ok tt) then <[va := (pa, (w, x))]> A else A).
  assert (∀ va' f p, A' !! va' = Some (f, p) → (va' = va ∧ f = pa ∧ r = Ok tt) ∨ A !! va' = Some (f, p)) as HA.
  { intros va' f p. unfold A'. destruct (decide (r = Ok tt)); [|by right].
    intros [[<- [= <- <-]]|[_ ?]]%lookup_insert_Some; [by left|by right]. }
  assert (vmok (mkSys m' f' (kernel_root s) (cr3 s), mkVmSpace (root_pa v) (owned v ++ take n supply)) T' A' B) as Hok.
  { split; cbn [fst snd mem frames owned root_pa kernel_root cr3]; try done.
    - split; [done|]. intros z. by rewrite Hpl'.
    - split.
      + apply NoDup_app. split; [done|]. split; [|by rewrite <- (take_drop n supply) in Hnd; apply NoDup_app in Hnd as [? _]]. intros p Hp Hp'. apply Htk, Hin in Hp' as (_ & Hp' & _).
        apply Hp'. rewrite V4. by apply live_owned.
      + intros p [Hp|Hp]%elem_of_app; [by apply V3'|]. apply Htk, Hin in Hp as (? & Hp & ?). split; [done|]. rewrite V4 in Hp.
        split; [intros Hp0; apply Hp, elem_of_union; by right|by apply V2'].
    - rewrite Hl', V4, list_to_set_app_L. clear. set_solver.
    - intros va' Hva'. rewrite R6 by done. unfold A'. destruct (decide (r = Ok tt)) as [Hr1|Hr1].
      + destruct (decide (va' = va)) as [->|Hne]; [by rewrite decide_True, lookup_insert_eq|].
        rewrite decide_False, lookup_insert_ne by (done || naive_solver). by apply V6.
      + rewrite decide_False by naive_solver. by apply V6.
    - intros va' f w' x' [(-> & -> & _)|Hva']%HA.
      + split; [done|]. split; [done|]. split; [apply elem_of_app; by left|]. by apply Hdata.
      + destruct (V7 _ _ _ _ Hva') as (? & ? & Hfo & Hfn). split; [done|]. split; [done|]. split; [apply elem_of_app; by left|]. by apply Hdata.
    - intros va1 va2 f p p' [(-> & -> & _)|K1]%HA [(-> & K2 & _)|K2]%HA; [done|by destruct (Hna va2 p')|subst f; by destruct (Hna va1 p)|].
      by eapply V8.
    - intros i Hi. rewrite R5 by done. by apply V9.
    - intros y Hy. rewrite R4; [apply V10|]; intros (t & Ht & Hyt); apply Hy; exists t; (split; [|done]).
      + rewrite list_to_set_app_L. apply elem_of_union. by left.
      + apply Hdom' in Ht. by apply elem_of_list_to_set.
    - intros va' f p o [(-> & -> & ->)|Hva']%HA Ho.
      + rewrite Hkeep by done. apply Hby; [|done]. apply Hlf, Hr.
      + destruct p as [w' x']. destruct (V7 _ _ _ _ Hva') as (_ & _ & Hfo & Hfn). rewrite Hkeep by done. by apply (V11 _ _ _ _ Hva').
    - assert (opened m' (root_pa v) A) as Hop.
      { eapply opened_map; [exact Rl| |exact V15]. intros va' [f0 [w0 x0]] Hp. by destruct (V7 _ _ _ _ Hp) as [[? _] _]. }
      unfold A'. destruct (decide (r = Ok tt)) as [Hr1|]; [|exact Hop]. apply opened_insert; [by apply Ra|exact Hop]. }
  destruct r as [[]|[]]; cbn [mbind outcome_bind].
  - eexists (Ok tt), _, T'. split; [reflexivity|]. split; [exact Hok|]. apply Hlf, Hr.
  - assert (frame_failure why = Ret OutOfFrames) as -> by (by destruct Hwhy as [->|[-> _]]). cbn [mbind outcome_bind].
    eexists (Err OutOfFrames), _, T'. split; [reflexivity|]. split; [exact Hok|]. by left.
  - eexists (Err AlreadyMapped), _, T'. split; [reflexivity|]. split; [exact Hok|]. right. split; [done|].
    destruct Hr as [Hr _]. rewrite V6 in Hr by done. by apply fmap_is_Some in Hr.
  - done.
Qed.

(** A frame taken, zeroed and recorded. *)
Lemma take_frame_ok sv T A B pa f :
  vmok sv T A B → falloc (frames sv.1) = (Some pa, f) →
  frame_ok pa ∧ (pa ∉ owned sv.2) ∧ (∀ va p, A !! va ≠ Some (pa, p)) ∧
  vmok (with_mem (with_frames sv.1 f) (zero_frame (mem sv.1) pa), own sv.2 pa) T A B.
Proof.
  intros [V1 (V2 & V2') (V3 & V3') V4 V5 V6 V7 V8 V9 V10 V11 V13 V15] E. destruct sv as [s v]. cbn [fst snd] in *.
  pose proof (falloc_ok _ V2) as Ha. rewrite E in Ha. destruct Ha as (Hf & Hpa & Hnl & Hl & Hpl & Hpool).
  assert (pa ∉ owned v) as Hno by (intros Hin; apply Hnl; rewrite V4; by apply live_owned).
  assert (∀ va p, A !! va ≠ Some (pa, p)) as HnA by (intros va [w x] Hp; by apply V7 in Hp as (_ & _ & ? & _)).
  assert (∀ f0 y, f0 ∈ owned v → f0 ≤ y < f0 + 4096 → zero_frame (mem s) pa y = mem s y) as Hkeep.
  { intros f0 y Hf0 Hy. apply zero_frame_out. destruct (V3' f0 Hf0) as [Hok _].
    destruct (frames_apart pa f0 Hpa Hok); [intros ->; done|lia|lia]. }
  assert (∀ t n b i, T !! t = Some (n, b) → 0 ≤ i < 512 → entry (zero_frame (mem s) pa) t i = entry (mem s) t i) as He.
  { intros t n b i Ht Hi. apply entry_ext; [done|]. intros y Hy. apply (Hkeep t); [|done]. apply V5, elem_of_dom. eauto. }
  do 3 (split; [done|]). split; cbn [fst snd mem frames with_mem with_frames own owned root_pa kernel_root cr3]; try done.
  - eapply tables_ext; [done|]. intros t n b i Ht [Hi _]. by eapply He.
  - split; [done|]. intros z. by rewrite Hpool.
  - split; [apply NoDup_app; split; [done|]; split; [|apply NoDup_singleton]; intros y Hy ->%list_elem_of_singleton; done|].
    intros y [Hy| ->%list_elem_of_singleton]%elem_of_app; [by apply V3'|]. split; [done|].
    split; [intros Hin; apply Hnl; rewrite V4; apply elem_of_union; by right|by apply V2'].
  - rewrite Hl, V4, list_to_set_app_L. clear. set_solver.
  - intros t Ht. apply elem_of_app. left. by apply V5.
  - intros va Hva. rewrite <- V6 by done. eapply leaf_ext; [done| |apply Hva]. intros t n b i Ht [Hi _]. by eapply He.
  - intros va f0 w x Hp. destruct (V7 _ _ _ _ Hp) as (? & ? & ? & ?). do 2 (split; [done|]). split; [apply elem_of_app; by left|done].
  - intros i Hi. rewrite (He _ _ _ _ (tb_root _ _ _ V1)) by lia. by apply V9.
  - intros y Hy. rewrite zero_frame_out; [apply V10; intros (t & Ht & Hyt); apply Hy; exists t; split; [|done]|].
    + rewrite list_to_set_app_L. apply elem_of_union. by left.
    + destruct (Z.lt_ge_cases y pa), (Z.le_gt_cases (pa + 4096) y); auto. exfalso. apply Hy. exists pa. split; [|lia].
      apply elem_of_list_to_set, elem_of_app. right. by apply list_elem_of_singleton.
  - intros va f0 p o Hp Ho. rewrite <- (V11 _ _ _ _ Hp Ho). destruct p as [w x]. destruct (V7 _ _ _ _ Hp) as (_ & _ & Hfo & _).
    apply (Hkeep f0); [done|lia].
  - eapply opened_ext; [| |exact V15].
    + intros va d Hu Hd. apply (link_ext T); try done; [eapply tables_ext; [done|]|]; intros t n b i Ht [Hi _]; by eapply He.
    + intros va [f0 [w0 x0]] Hp. by destruct (V7 _ _ _ _ Hp) as [[? _] _].
Qed.

Lemma map_new_page_ok sv T A B va w x :
  vmok sv T A B → user_page va → USER_MIN ≤ va → (A !! va = None → ∀ o, 0 ≤ o < 4096 → B (va + o) = x00) →
  ∃ r sv' T', map_new_page hhdm sv.1 sv.2 va w x = Ret (r, sv') ∧
    match r with
    | Ok pa => A !! va = None ∧ vmok sv' T' (<[va := (pa, (w, x))]> A) B
    | Err e => vmok sv' T' A B ∧ (e = OutOfFrames ∨ e = AlreadyMapped ∧ is_Some (A !! va))
    end.
Proof.
  intros Hv Hva Hmin Hz. unfold map_new_page. destruct (falloc (frames sv.1)) as [[pa|] f] eqn:E.
  - destruct (take_frame_ok _ _ _ _ _ _ Hv E) as (Hpa & Hno & HnA & Hv1).
    rewrite (frame_at_hhdm0 pa Hpa). cbn [mbind outcome_bind].
    destruct (map_user_ok _ T A B va pa w x Hv1 Hva Hmin) as (r & sv' & T' & Em & Hok & Hr).
    + apply elem_of_app. right. by apply list_elem_of_singleton.
    + intros Hd. apply Hno. by apply (vo_dom _ _ _ _ Hv).
    + done.
    + intros HN o Ho. cbn. rewrite zero_frame_in by lia. by rewrite Hz.
    + cbn [fst snd] in Em. rewrite Em. cbn [mbind outcome_bind]. destruct r as [[]|e]; eexists _, sv', T'; (split; [done|]).
      * by rewrite decide_True in Hok.
      * by rewrite decide_False in Hok by done.
  - exists (Err OutOfFrames), (with_frames sv.1 f, sv.2), T. split; [done|]. split; [|by left].
    destruct Hv as [V1 (V2 & V2') V3 V4 V5 V6 V7 V8 V9 V10 V11 V13 V15]. pose proof (falloc_ok _ V2) as Ha. rewrite E in Ha. destruct Ha as (Hf & Hl & Hpool).
    split; try done; cbn; [|congruence]. split; [done|]. intros z. by rewrite Hpool.
Qed.

(** ** Translation *)

Lemma page_of_page va : 0 ≤ va → page_of va mod 4096 = 0 ∧ page_of va ≤ va < page_of va + 4096 ∧ 0 ≤ page_of va.
Proof.
  intros Hv. unfold page_of. pose proof (Z.mod_pos_bound va 4096). pose proof (Z.div_mod va 4096).
  replace (va - va mod 4096) with (va / 4096 * 4096) by lia. rewrite Z.mod_mul by lia. pose proof (Z.div_pos va 4096). lia.
Qed.

Lemma page_of_unique p va : p mod 4096 = 0 → p ≤ va < p + 4096 → page_of va = p.
Proof.
  intros Hp Hr. unfold page_of. apply Z.mod_divide in Hp as [k ->]; [|lia].
  replace va with ((va - k * 4096) + k * 4096) at 2 by lia. rewrite Z.mod_add, Z.mod_small by lia. lia.
Qed.

Lemma user_page_of va : user_addr va → user_page (page_of va).
Proof. intros Hv. unfold user_page, user_addr in *. pose proof (page_of_page va). lia. Qed.

Lemma idx_page_of n va : idx n (page_of va) = idx n va.
Proof.
  unfold idx, page_of. f_equal. replace (12 + 9 * Z.of_nat n) with (12 + (9 * Z.of_nat n)) by lia. rewrite Z.pow_add_r by lia.
  change (2 ^ 12) with 4096. rewrite <- !Z.div_div by lia. f_equal. pose proof (Z.div_mod va 4096).
  replace (va - va mod 4096) with (va / 4096 * 4096) by lia. by rewrite Z.div_mul.
Qed.

Lemma down_page_of d m root va : down d m root (page_of va) = down d m root va.
Proof. induction d as [|d IH]; [done|]. cbn [down]. by rewrite IH, idx_page_of. Qed.
Lemma leaf_page_of m root va : leaf m root (page_of va) = leaf m root va.
Proof. unfold leaf. by rewrite down_page_of, idx_page_of. Qed.
Lemma link_page_of d m root va : link d m root (page_of va) = link d m root va.
Proof. unfold link. by rewrite down_page_of, idx_page_of. Qed.

Lemma translate_ok sv T A B va :
  vmok sv T A B → user_addr va →
  vm_translate sv.1 sv.2 va = Ret ((λ p, p.1 + va mod 4096) <$> A !! page_of va).
Proof.
  intros Hv Hu. unfold vm_translate, translate. rewrite (user_canonical _ Hu). cbn [mbind outcome_bind]. f_equal.
  rewrite (translate_addr_ok T) by (done || apply Hv). rewrite <- leaf_page_of, (vo_leaf _ _ _ _ Hv) by by apply user_page_of.
  destruct (A !! page_of va) as [[f [w x]]|] eqn:E; [|done]. cbn. rewrite addr_leaf_entry; [done|].
  destruct (vo_pages _ _ _ _ Hv _ _ _ _ E) as (_ & _ & Hf & _). by apply (vo_owned _ _ _ _ Hv).
Qed.

(** ** Permissions *)

Lemma unmap_ok sv T A B va f p :
  vmok sv T A B → A !! va = Some (f, p) →
  ∃ m' ev, unmap (mem sv.1) (root_pa sv.2) va = Ret (Ok f, m', ev) ∧ vmok (with_mem sv.1 m', sv.2) T (delete va A) B ∧
    ∀ o, 0 ≤ o < 4096 → m' (f + o) = mem sv.1 (f + o).
Proof.
  intros Hv Hva. destruct p as [w x]. destruct (vo_pages _ _ _ _ Hv _ _ _ _ Hva) as (Hup & Hmin & Hfo & Hfn).
  pose proof Hup as [Hu _]. destruct (vo_owned _ _ _ _ Hv) as [_ Hok]. destruct (Hok f Hfo) as [Hf _].
  unfold unmap. rewrite (user_canonical _ Hu). cbn [mbind outcome_bind]. rewrite (user_page_aligned _ Hup). cbn [negb].
  pose proof (vo_tables _ _ _ _ Hv) as HT. pose proof (unmap_page_ok T _ _ va HT Hup) as Hun.
  rewrite (vo_leaf _ _ _ _ Hv va Hup), Hva in Hun. cbn [fmap option_fmap option_map] in Hun.
  destruct Hun as (t & Ht & ->). rewrite addr_leaf_entry by done. eexists _, _. split; [reflexivity|].
  pose proof (down_table T _ _ HT va 3 t Hu ltac:(lia) Ht) as Tt. change (3 - 3)%nat with 0%nat in Tt.
  destruct (tb_frame _ _ _ HT _ _ _ Tt) as [Hft _]. destruct (tb_frame _ _ _ HT _ _ _ (tb_root _ _ _ HT)) as [Hfr _].
  destruct Hv as [V1 V2 V3 V4 V5 V6 V7 V8 V9 V10 V11 V13 V15].
  assert (t ∈ dom T) as Htd by (apply elem_of_dom; eauto).
  assert (∀ f' o, f' ∈ owned sv.2 → f' ∉ dom T → 0 ≤ o < 4096 → set_entry (mem sv.1) t (idx 0 va) 0 (f' + o) = mem sv.1 (f' + o)) as Hkeep.
  { intros f' o Hfo' Hfn' Ho. apply set_entry_out; [apply idx_range|]. destruct (Hok f' Hfo') as [Hf' _].
    assert (t ≠ f') as Hne by (intros ->; done). destruct (frames_apart t f' Hft Hf' Hne); lia. }
  split; [|intros o Ho; by apply Hkeep].
  split; cbn [fst snd with_mem mem frames root_pa owned kernel_root cr3]; try done.
  - apply (tables_set_leaf T _ _ HT t (prefix 0 va)); [done|apply idx_range|by left|done].
  - intros va' Hva'. rewrite (leaf_set_leaf T _ _ HT t _ 0 va va' Tt) by (done || by left). cbn [Z.eqb].
    destruct (decide (va' = va)) as [->|Hne]; [by rewrite lookup_delete_eq|]. rewrite lookup_delete_ne by done. by apply V6.
  - intros va' f' w' x' [_ Hp]%lookup_delete_Some. by eapply V7.
  - intros va1 va2 f' p p' [_ K1]%lookup_delete_Some [_ K2]%lookup_delete_Some. by eapply V8.
  - intros i Hi. rewrite entry_set_other; [by apply V9|done|done|apply idx_range|lia|]. left. intros E.
    pose proof (root_level T _ _ HT _ _ _ Tt (eq_sym E)). done.
  - intros y Hy. rewrite set_entry_out; [by apply V10|apply idx_range|].
    destruct (Z.lt_ge_cases y t), (Z.le_gt_cases (t + 4096) y); auto. exfalso. apply Hy. exists t. split; [|lia].
    apply elem_of_list_to_set. by apply V5.
  - intros va' f' p' o [_ Hp]%lookup_delete_Some Ho. rewrite <- (V11 _ _ _ _ Hp Ho). destruct p' as [w' x'].
    destruct (V7 _ _ _ _ Hp) as (_ & _ & Hfo' & Hfn'). by apply Hkeep.
  - apply (opened_sub _ _ A); [by intros va' p' [_ ?]%lookup_delete_Some|]. eapply opened_ext; [| |exact V15].
    + intros va' d Hu' Hd. by apply (link_set_leaf T _ _ HT t (prefix 0 va)); [|apply idx_range|left|..].
    + intros va' [f0 [w0 x0]] Hp. by destruct (V7 _ _ _ _ Hp) as [[? _] _].
Qed.

Lemma set_permissions_ok sv T A B va f p w x :
  vmok sv T A B → A !! va = Some (f, p) →
  ∃ r sv' T', set_permissions sv.1 sv.2 va w x = Ret (r, sv') ∧
    match r with
    | Ok _ => vmok sv' T' (<[va := (f, (w, x))]> A) B
    | Err e => e = OutOfFrames ∧ vmok sv' T' (delete va A) B
    end.
Proof.
  intros Hv Hva. destruct (unmap_ok _ _ _ _ _ _ _ Hv Hva) as (m' & ev & E & Hv1 & Hkeep). unfold set_permissions. rewrite E.
  cbn [mbind outcome_bind]. destruct p as [w0 x0]. destruct (vo_pages _ _ _ _ Hv _ _ _ _ Hva) as (Hup & Hmin & Hfo & Hfn).
  destruct (map_user_ok _ T (delete va A) B va f w x Hv1 Hup Hmin) as (r & sv' & T' & Em & Hok & Hr); [done|done| | |].
  - intros va' p' [Hne Hp]%lookup_delete_Some. by apply Hne, (vo_inj _ _ _ _ Hv va va' f (w0, x0) p').
  - intros _ o Ho. cbn. rewrite Hkeep by done. by apply (vo_bytes _ _ _ _ Hv va f (w0, x0)).
  - cbn [fst snd] in Em. rewrite Em. exists r, sv', T'. split; [done|]. destruct r as [[]|e].
    + rewrite decide_True in Hok by done. by rewrite insert_delete_eq in Hok.
    + rewrite decide_False in Hok by done. split; [|done]. destruct Hr as [?|[_ [? Hs]]]; [done|]. by rewrite lookup_delete_eq in Hs.
Qed.

(** ** Copying into a page *)

Lemma store_ok sv T A B va f p bs :
  vmok sv T A B → user_addr va → A !! page_of va = Some (f, p) → va mod 4096 + Z.of_nat (length bs) ≤ 4096 →
  vmok (with_mem sv.1 (write_mem (mem sv.1) (f + va mod 4096) bs), sv.2) T A (write_mem B va bs).
Proof.
  intros Hv Hu Hp Hlen. destruct p as [w x]. destruct (vo_pages _ _ _ _ Hv _ _ _ _ Hp) as (_ & _ & Hfo & Hfn).
  destruct Hv as [V1 V2 (V3 & V3') V4 V5 V6 V7 V8 V9 V10 V11 V13 V15]. destruct (V3' f Hfo) as (Hf & _). pose proof Hu as [Hu0 _].
  pose proof (Z.mod_pos_bound va 4096 ltac:(lia)) as Hmod.
  assert (∀ f' y, frame_ok f' → f' ≠ f → f' ≤ y < f' + 4096 → write_mem (mem sv.1) (f + va mod 4096) bs y = mem sv.1 y) as Hkeep.
  { intros f' y Hf' Hne Hy. apply write_mem_out. destruct (frames_apart f' f Hf' Hf Hne); lia. }
  assert (∀ t n b i, T !! t = Some (n, b) → 0 ≤ i < 512 → entry (write_mem (mem sv.1) (f + va mod 4096) bs) t i = entry (mem sv.1) t i) as He.
  { intros t n b i Ht Hi. apply entry_ext; [done|]. intros y Hy. apply (Hkeep t); [apply (tb_frame _ _ _ V1 _ _ _ Ht)| |done].
    intros ->. apply Hfn, elem_of_dom. eauto. }
  split; cbn [fst snd with_mem mem frames root_pa owned kernel_root cr3]; try done.
  - eapply tables_ext; [done|]. intros t n b i Ht [Hi _]. by eapply He.
  - intros va' Hva'. rewrite <- V6 by done. eapply leaf_ext; [done| |apply Hva']. intros t n b i Ht [Hi _]. by eapply He.
  - intros i Hi. rewrite (He _ _ _ _ (tb_root _ _ _ V1)) by lia. by apply V9.
  - intros y Hy. rewrite write_mem_out; [by apply V10|]. destruct (Z.lt_ge_cases y f), (Z.le_gt_cases (f + 4096) y); [lia|lia|lia|].
    exfalso. apply Hy. exists f. split; [by apply elem_of_list_to_set|lia].
  - intros va' f' p' o Hp' Ho. destruct p' as [w' x']. destruct (V7 _ _ _ _ Hp') as ([Hu' Hal'] & _ & Hfo' & _).
    destruct (decide (f' = f)) as [->|Hne].
    + assert (va' = page_of va) as -> by by eapply V8. pose proof (V11 _ _ _ _ Hp' Ho) as Hb. unfold page_of in *.
      replace (va - va mod 4096 + o) with (va + (o - va mod 4096)) in * by lia.
      replace (f + o) with (f + va mod 4096 + (o - va mod 4096)) in * by lia.
      destruct (decide (0 ≤ o - va mod 4096 < Z.of_nat (length bs))) as [Hin|Hout]; [by rewrite !write_mem_in|].
      rewrite !write_mem_out by lia. exact Hb.
    + rewrite (Hkeep f') by first [done | by apply V3' | lia]. rewrite (V11 _ _ _ _ Hp' Ho). symmetry. apply write_mem_out.
      destruct (Z.lt_ge_cases (va' + o) va) as [|Hge]; [by left|right]. destruct (Z.le_gt_cases (va + Z.of_nat (length bs)) (va' + o)); [done|].
      exfalso. apply Hne. pose proof (page_of_page va Hu0) as (Hpa & Hpr & _).
      assert (page_of (va' + o) = va') as E1 by (apply page_of_unique; [done|lia]).
      assert (page_of (va' + o) = page_of va) as E2 by (apply page_of_unique; [done|unfold page_of in *; lia]).
      congruence.
  - eapply opened_ext; [| |exact V15].
    + intros va' d Hu' Hd. apply (link_ext T); try done; [eapply tables_ext; [done|]|]; intros t n b i Ht [Hi _]; by eapply He.
    + intros va' [f0 [w0 x0]] Hq. by destruct (V7 _ _ _ _ Hq) as [[? _] _].
Qed.

(** ** Dropping and making a space *)

Lemma free_all_ok l : ∀ f, fok f → NoDup l → (∀ p, p ∈ l → p ∈ flive f) →
  ∃ f', free_all f l = Ret f' ∧ fok f' ∧ flive f' = flive f ∖ list_to_set l ∧ ∀ z, fpool f' z ↔ fpool f z.
Proof.
  induction l as [|p l IH]; intros f Hf Hnd Hin; cbn [free_all].
  - exists f. split; [done|]. split; [done|]. split; [|done]. rewrite list_to_set_nil. by rewrite difference_empty_L.
  - apply NoDup_cons in Hnd as [Hn Hnd]. destruct (ffree_ok f p Hf (Hin p ltac:(left))) as (f1 & -> & Hf1 & Hl1 & Hp1).
    cbn [mbind outcome_bind]. destruct (IH f1 Hf1 Hnd) as (f' & -> & Hf' & Hl' & Hp').
    { intros q Hq. rewrite Hl1. apply elem_of_difference. split; [apply Hin; by right|]. intros ->%elem_of_singleton. done. }
    exists f'. split; [done|]. split; [done|]. split; [|intros z; by rewrite Hp', Hp1].
    rewrite Hl', Hl1, list_to_set_cons. clear. set_solver.
Qed.

Lemma drop_space_ok sv T A B :
  vmok sv T A B → (active ∈ L0 ∨ ¬ P0 active) →
  ∃ s', drop_space sv.1 sv.2 = Ret s' ∧ fok (frames s') ∧ flive (frames s') = L0 ∧ (∀ z, fpool (frames s') z ↔ P0 z) ∧
    mem s' = mem sv.1 ∧ kernel_root s' = kroot ∧ cr3 s' = active.
Proof.
  intros [V1 (V2 & V2') (V3 & V3') V4 V5 V6 V7 V8 V9 V10 V11 [V13 V14] V15] Hact. unfold drop_space.
  assert (cr3 sv.1 ≠ root_pa sv.2) as Hne.
  { rewrite V14. intros E. destruct (V3' (root_pa sv.2)) as (_ & Hn & Hp).
    - apply V5, elem_of_dom. rewrite (tb_root _ _ _ V1). eauto.
    - rewrite <- E in *. tauto. }
  rewrite (proj2 (Z.eqb_neq _ _) Hne). cbn [negb rust_assert mbind outcome_bind].
  destruct (free_all_ok (rev (owned sv.2)) (frames sv.1) V2) as (f' & -> & Hf' & Hl' & Hp').
  - by rewrite <- (Permutation_rev (owned sv.2)).
  - intros p Hp. rewrite <- (Permutation_rev (owned sv.2)) in Hp. rewrite V4. by apply live_owned.
  - cbn [mbind outcome_bind]. eexists. split; [done|]. cbn [with_frames frames mem kernel_root cr3]. split; [done|].
    split; [|split; [intros z; by rewrite Hp'|done]]. rewrite Hl', V4.
    assert (∀ z, z ∈ rev (owned sv.2) ↔ z ∈ owned sv.2) as Hrev by (intros z; by rewrite <- (Permutation_rev (owned sv.2))).
    apply set_eq. intros z. rewrite elem_of_difference, elem_of_union, !elem_of_list_to_set, Hrev.
    split; [tauto|]. intros Hz. split; [by right|]. intros Ho. by destruct (V3' z Ho) as (_ & ? & _).
Qed.

(** A kernel root and a CR3 that the allocator will not hand out. *)
Definition kept (z : Z) : Prop := z ∈ L0 ∨ ¬ P0 z.

(** What [from_elf] starts from, and goes back to when it fails. *)
Record idle (s : Sys F) : Prop := {
  id_fok : fok (frames s);
  id_live : flive (frames s) = L0;
  id_pool : ∀ z, fpool (frames s) z ↔ P0 z;
  id_regs : kernel_root s = kroot ∧ cr3 s = active
}.

Lemma new_ok s :
  idle s → mem s = m0 → frame_ok kroot → kroot ≠ 0 → kept kroot →
  ∃ o s', new hhdm s = Ret (o, s') ∧
    match o with None => idle s' ∧ mem s' = m0 | Some v => ∃ T, vmok (s', v) T ∅ (λ _, x00) end.
Proof.
  intros [I1 I2 I3 [I4 I5]] Hm Hkr Hk0 Hkept. unfold new. pose proof (falloc_ok _ I1) as Ha.
  destruct (falloc (frames s)) as [[root|] f].
  2: { destruct Ha as (Hf & Hl & Hp). eexists None, _. split; [done|]. split; [|done]. split; cbn; [done|congruence| |done].
       intros z. by rewrite Hp. }
  destruct Ha as (Hf & Hr & Hnl & Hl & Hpr & Hp). rewrite (frame_at_hhdm0 root Hr). cbn [mbind outcome_bind].
  rewrite I4, (proj2 (Z.eqb_neq _ _) Hk0). cbn [negb rust_assert mbind outcome_bind]. eexists (Some _), _. split; [reflexivity|].
  assert (root ≠ kroot) as Hne.
  { intros ->. destruct Hkept as [?|Hn]; [apply Hnl; by rewrite I2|]. apply Hn, I3, Hpr. }
  destruct (copy_kernel_half_ok (zero_frame (mem s) root) root kroot Hr Hkr Hne) as (C1 & C2 & C3).
  set (m' := copy_kernel_half (zero_frame (mem s) root) root kroot) in *.
  assert (∀ i, 0 ≤ i < 256 → entry m' root i = 0) as C0 by (intros i Hi; rewrite C2 by done; apply entry_zero_frame; lia).
  assert (tables {[root := (3%nat, 0)]} m' root) as HT.
  { split.
    - by rewrite lookup_singleton_eq.
    - intros t n b [<- [= <- <-]]%lookup_singleton_Some. split; [done|]. split; [lia|]. done.
    - intros t n b i [<- [= <- <-]]%lookup_singleton_Some [Hi Hi']. left. apply C0. specialize (Hi' eq_refl). lia.
    - intros t b i [_ [=]]%lookup_singleton_Some.
    - intros t n b [<- _]%lookup_singleton_Some. done. }
  exists {[root := (3%nat, 0)]}. split; cbn [fst snd mem frames owned root_pa kernel_root cr3]; try done.
  - split; [done|]. intros z. by rewrite Hp.
  - split; [apply NoDup_singleton|]. intros z ->%list_elem_of_singleton. split; [done|]. rewrite <- I2. split; [done|]. by apply I3.
  - rewrite Hl, I2. clear. set_solver.
  - intros t Ht. apply elem_of_dom in Ht as [? [<- _]%lookup_singleton_Some]. by apply list_elem_of_singleton.
  - intros va [Hva _]. rewrite lookup_empty. apply eq_None_not_Some. intros [e (t & Ht & _)%(leaf_iff _ _ _ HT)]; [|done].
    by apply lookup_singleton_Some in Ht as [_ [=]].
  - intros i Hi. rewrite C1 by done. rewrite <- Hm. apply entry_ext; [lia|]. intros y Hy. apply zero_frame_out.
    destruct (frames_apart root kroot Hr Hkr Hne); lia.
  - intros y Hy. assert (y < root ∨ root + 4096 ≤ y) as Hy'.
    { destruct (Z.lt_ge_cases y root), (Z.le_gt_cases (root + 4096) y); auto. exfalso. apply Hy. exists root. split; [|lia].
      clear. set_solver. }
    rewrite C3 by done. rewrite <- Hm. by apply zero_frame_out.
  - split; [|intros va f0 w x d HA; by rewrite lookup_empty in HA].
    intros va d e Hu Hd (t & [<- [= E1 E2]]%lookup_singleton_Some & <- & Hz)%(link_iff _ _ _ HT); [|done|lia].
    exfalso. apply Hz. rewrite <- E1. rewrite C0; [done|]. split; [apply idx_range|by apply user_top].
Qed.
End Space.
