(* ===== verification/VmLoad.v ===== *)
(** Proofs about the loader of [Vm]: what each pass of [from_elf] does to the
    space, against a reference image and reference permissions. *)
From S2P Require Import Prelude Bits Mem Syscall Elf Paging PagingProofs PagingThms Vm VmProofs.
From Stdlib Require Import Strings.Byte Sorting.Sorted.

(** ** The reference: what a program's segments ask for *)

Definition seg_pages (seg : Segment) : list Z :=
  match segment_pages seg with Ok r => step_by r | Err _ => [] end.
Definition covers (va : Z) (seg : Segment) : bool := bool_decide (va ∈ seg_pages seg).

(** A page is writable, or executable, if some segment that touches it is. *)
Definition permissions (segs : list Segment) (va : Z) : bool * bool :=
  (existsb (λ s, covers va s && writable s) segs, existsb (λ s, covers va s && executable s) segs).

(** The program's memory: each segment's bytes over zeroes, in file order. *)
Definition image (segs : list Segment) (B : Mem) : Mem := foldl (λ B s, write_mem B (vaddr s) (data s)) B segs.

(** ** Page ranges *)

Lemma elem_of_step_by lo hi va : lo mod 4096 = 0 → va ∈ step_by (lo, hi) ↔ va mod 4096 = 0 ∧ lo ≤ va < hi.
Proof.
  intros Hlo. unfold step_by. cbn [fst snd]. rewrite list_elem_of_fmap. apply Z.mod_divide in Hlo as [k ->]; [|lia]. split.
  - intros (i & -> & Hi%elem_of_seq). replace (k * 4096 + 4096 * Z.of_nat i) with ((k + Z.of_nat i) * 4096) by lia.
    rewrite Z.mod_mul by lia. split; [done|]. pose proof (Z.div_mod (hi - k * 4096 + 4095) 4096).
    pose proof (Z.mod_pos_bound (hi - k * 4096 + 4095) 4096). lia.
  - intros [Hm Hr]. apply Z.mod_divide in Hm as [j ->]; [|lia]. exists (Z.to_nat (j - k)). split; [lia|].
    apply elem_of_seq. pose proof (Z.div_mod (hi - k * 4096 + 4095) 4096). pose proof (Z.mod_pos_bound (hi - k * 4096 + 4095) 4096). lia.
Qed.

Lemma land_page_mask va : fits 64 va → Z.land va (bitnot 64 0xfff) = page_of va.
Proof.
  intros Hv. change 0xfff with (2 ^ 12 - 1). rewrite (land_bitnot_align 64 va 12) by (done || lia). unfold page_of.
  pose proof (Z.div_mod va (2 ^ 12)). change (2 ^ 12) with 4096 in *. lia.
Qed.

(** What the parser guarantees of a segment, as far as loading goes. *)
Definition sound_segment (s : Segment) : Prop :=
  Z.of_nat (length (data s)) ≤ mem_size s ∧ 0 ≤ vaddr s ∧ vaddr s + mem_size s < 2 ^ 64.

Lemma parse_sound b : Z.of_nat (length b) < 2 ^ 63 →
  (∃ x, parse b = Ret (Err x)) ∨
  ∃ e segs, parse b = Ret (Ok e) ∧ segments e = Ret segs ∧ Forall sound_segment segs.
Proof.
  intros Hlen. destruct (parse_header b Hlen) as [[x Hx]|(e & Hb & He & Hp)]; [eauto|]. pose proof He as (_ & _ & _ & Hn & _).
  destruct (validate_from_total e 0 (Z.to_nat (phnum e)) He) as [r Hr]; [lia..|]. rewrite Hp, Hr. cbn. destruct r as [[]|x]; [right|eauto].
  destruct (segments_from_ok e 0 (Z.to_nat (phnum e)) He) as (segs & Hs & Hl); [lia..|done|]. exists e, segs. do 2 (split; [done|]).
  eapply Forall_impl; [exact Hl|]. intros s (_ & ? & ? & ? & _). done.
Qed.

Lemma segment_pages_ok s r : sound_segment s → segment_pages s = Ok r →
  r.1 = page_of (vaddr s) ∧ r.1 mod 4096 = 0 ∧ USER_MIN ≤ r.1 ∧ vaddr s + mem_size s ≤ r.2 ≤ USER_MAX.
Proof.
  intros (Hd & Hv & Hm). unfold segment_pages. rewrite land_page_mask by (unfold fits; lia).
  destruct (page_of_page (vaddr s) Hv) as (P1 & P2 & _). rewrite (proj2 (checked_add_Some _ _ _ _) (conj eq_refl Hm)).
  cbn [mbind option_bind]. unfold checked_next_multiple_of. pose proof (Z.mod_pos_bound (vaddr s + mem_size s) 4096 ltac:(lia)).
  destruct (Z.eqb_spec ((vaddr s + mem_size s) mod 4096) 0) as [|Hnz].
  - destruct (Z.ltb_spec USER_MAX (vaddr s + mem_size s)); [done|]. destruct (Z.ltb_spec (page_of (vaddr s)) USER_MIN); [done|].
    intros [= <-]. cbn. lia.
  - destruct (checked_add _ _ _) as [stop|] eqn:E; [|done]. apply checked_add_Some in E as [-> _].
    destruct (Z.ltb_spec USER_MAX (vaddr s + mem_size s + (4096 - (vaddr s + mem_size s) mod 4096))); [done|].
    destruct (Z.ltb_spec (page_of (vaddr s)) USER_MIN); [done|]. intros [= <-]. cbn. lia.
Qed.

(** Why a program is refused, whatever memory there is. *)
Definition stack_page (page : Z) : Z := USER_STACK_TOP - (page + 1) * 4096.
Definition stack_pages : list Z := stack_page <$> (Z.of_nat <$> seq 0 (Z.to_nat USER_STACK_PAGES)).

Definition refused (segs : list Segment) (e : LoadError) : Prop :=
  match e with
  | BadAddress => ∃ s, s ∈ segs ∧ 2 ^ 64 - 4096 < vaddr s + mem_size s
  | LNotUserAddress va => ∃ s, s ∈ segs ∧ vaddr s = va ∧ (vaddr s < USER_MIN ∨ USER_MAX < vaddr s + mem_size s)
  | WriteExecutePage va => permissions segs va = (true, true)
  | LMap AlreadyMapped => ∃ va, va ∈ stack_pages ∧ existsb (covers va) segs = true
  | _ => False
  end.

Lemma segment_pages_refused s e : sound_segment s → segment_pages s = Err e → refused [s] e.
Proof.
  intros (Hd & Hv & Hm). unfold segment_pages. rewrite land_page_mask by (unfold fits; lia).
  destruct (page_of_page (vaddr s) Hv) as (P1 & P2 & _). rewrite (proj2 (checked_add_Some _ _ _ _) (conj eq_refl Hm)).
  cbn [mbind option_bind]. unfold checked_next_multiple_of. pose proof (Z.mod_pos_bound (vaddr s + mem_size s) 4096 ltac:(lia)).
  pose proof (Z.div_mod (vaddr s + mem_size s) 4096 ltac:(lia)) as Hdm. assert (s ∈ [s]) as Hin by left.
  unfold USER_MAX, USER_MIN in *. destruct (Z.eqb_spec ((vaddr s + mem_size s) mod 4096) 0) as [|Hnz].
  - destruct (Z.ltb_spec 0x800000000000 (vaddr s + mem_size s)); [intros [= <-]; exists s; unfold USER_MAX; auto|].
    destruct (Z.ltb_spec (page_of (vaddr s)) 0x1000); [|done]. intros [= <-]. exists s. do 2 (split; [done|]). left.
    apply Z.mod_divide in P1 as [k Hk]; unfold USER_MIN; lia.
  - destruct (checked_add _ _ _) as [stop|] eqn:E.
    + apply checked_add_Some in E as [-> _].
      destruct (Z.ltb_spec 0x800000000000 (vaddr s + mem_size s + (4096 - (vaddr s + mem_size s) mod 4096))).
      { intros [= <-]. exists s. do 2 (split; [done|]). right. unfold USER_MAX. lia. }
      destruct (Z.ltb_spec (page_of (vaddr s)) 0x1000); [|done]. intros [= <-]. exists s. do 2 (split; [done|]). left.
      apply Z.mod_divide in P1 as [k Hk]; unfold USER_MIN; lia.
    + intros [= <-]. exists s. split; [done|]. unfold checked_add in E. case_match; [done|]. lia.
Qed.

(** A segment that passed validation. *)
Definition valid_segment (s : Segment) : Prop := sound_segment s ∧ ∃ r, segment_pages s = Ok r.

Lemma validate_ok segs : Forall sound_segment segs → validate segs = Ok tt → Forall valid_segment segs.
Proof.
  induction 1 as [|s segs Hs _ IH]; cbn [validate]; [by constructor|]. destruct (segment_pages s) as [r|] eqn:E; [|done].
  intros Hv. constructor; [|by apply IH]. split; [done|]. eauto.
Qed.

Lemma validate_refused segs e : Forall sound_segment segs → validate segs = Err e → refused segs e.
Proof.
  induction 1 as [|s segs Hs _ IH]; cbn [validate]; [done|]. destruct (segment_pages s) as [r|e'] eqn:E.
  - intros Hv%IH. destruct e as [| | | | |[]]; cbn in *; try done.
    + destruct Hv as (s' & ? & ?). exists s'. split; [by right|done].
    + destruct Hv as (s' & ? & ?). exists s'. split; [by right|done].
    + unfold permissions in *. cbn. injection Hv as -> ->. by rewrite !orb_true_r.
    + destruct Hv as (va' & ? & Hc). exists va'. split; [done|]. by rewrite Hc, orb_true_r.
  - intros [= ->]. pose proof (segment_pages_refused s e Hs E) as Hr. destruct e as [| | | | |[]]; cbn in *; try done.
    + destruct Hr as (s' & ->%list_elem_of_singleton & ?). exists s. split; [left|done].
    + destruct Hr as (s' & ->%list_elem_of_singleton & ?). exists s. split; [left|done].
    + unfold segment_pages in E. repeat case_match; done.
    + unfold segment_pages in E. repeat case_match; done.
Qed.

(** A valid segment is none of the causes. *)
Lemma valid_not_refused s : valid_segment s → USER_MIN ≤ vaddr s ∧ vaddr s + mem_size s ≤ USER_MAX.
Proof.
  intros [Hs [r E]]. destruct (segment_pages_ok s r Hs E) as (R1 & _ & R3 & R4). destruct Hs as (_ & Hv & _).
  pose proof (page_of_page (vaddr s) Hv). lia.
Qed.

Lemma seg_pages_user s va : valid_segment s → va ∈ seg_pages s → user_page va ∧ USER_MIN ≤ va.
Proof.
  intros [Hs [[lo hi] E]]. unfold seg_pages. rewrite E. destruct (segment_pages_ok s _ Hs E) as (_ & R2 & R3 & R4). cbn in *.
  rewrite elem_of_step_by by done. unfold user_page, user_addr, USER_MIN, USER_MAX in *. lia.
Qed.

(** The bytes of a segment lie in its pages. *)
Lemma seg_covers_data s va : valid_segment s → vaddr s ≤ va < vaddr s + Z.of_nat (length (data s)) →
  user_addr va ∧ page_of va ∈ seg_pages s.
Proof.
  intros [Hs [[lo hi] E]] Hva. unfold seg_pages. rewrite E. destruct (segment_pages_ok s _ Hs E) as (R1 & R2 & R3 & R4). cbn in *.
  destruct Hs as (Hd & Hv & Hm). rewrite elem_of_step_by by done. pose proof (page_of_page va ltac:(lia)) as (P1 & P2 & P3).
  pose proof (page_of_page (vaddr s) Hv) as (Q1 & Q2 & Q3). unfold user_addr, USER_MAX in *. split; [lia|]. split; [done|].
  split; [|lia]. apply Z.mod_divide in P1 as [k Hk]; [|lia]. apply Z.mod_divide in Q1 as [j Hj]; [|lia]. lia.
Qed.

(** ** Permissions *)

Lemma or_entry_spec pages va w x :
  StronglySorted Z.lt pages.*1 →
  StronglySorted Z.lt (or_entry pages va w x).*1 ∧
  (∀ k, k ∈ (or_entry pages va w x).*1 ↔ k = va ∨ k ∈ pages.*1) ∧
  ∀ k, (list_to_map (or_entry pages va w x) : gmap Z (bool * bool)) !! k =
    if decide (k = va) then Some (let '(w', x') := default (false, false) ((list_to_map pages : gmap Z (bool * bool)) !! va) in (w' || w, x' || x))
    else (list_to_map pages : gmap Z (bool * bool)) !! k.
Proof.
  induction pages as [|[k0 [w0 x0]] pages IH]; cbn [or_entry]; intros Hs.
  - cbn. split; [repeat constructor|]. split; [intros k; rewrite elem_of_cons, elem_of_nil; tauto|]. intros k.
    destruct (decide (k = va)) as [->|]; [by rewrite lookup_insert_eq|by rewrite lookup_insert_ne].
  - apply StronglySorted_inv in Hs as [Hs Hlt]. destruct (Z.eqb_spec va k0) as [->|Hne]; [|destruct (Z.ltb_spec va k0) as [Hl|Hl]].
    + cbn. split; [by constructor|]. split; [intros k; rewrite !elem_of_cons; tauto|]. intros k.
      destruct (decide (k = k0)) as [->|]; [by rewrite !lookup_insert_eq|by rewrite !lookup_insert_ne].
    + cbn. split; [constructor; [by constructor|]|].
      * constructor; [done|]. eapply Forall_impl; [exact Hlt|]. cbn. intros; lia.
      * split; [intros k; rewrite !elem_of_cons; tauto|]. intros k. assert ((list_to_map pages : gmap Z (bool * bool)) !! va = None) as HN.
        { apply not_elem_of_list_to_map_1. intros Hin. rewrite Forall_forall in Hlt. apply Hlt in Hin. cbn in Hin. lia. }
        destruct (decide (k = va)) as [->|Hk]; [rewrite lookup_insert_eq, lookup_insert_ne, HN by done; done|by rewrite (lookup_insert_ne _ va)].
    + destruct (IH Hs) as (I1 & I2 & I3). cbn. split; [|split].
      * constructor; [done|]. apply Forall_forall. intros k [->|Hk]%I2; [lia|]. rewrite Forall_forall in Hlt. by apply Hlt.
      * intros k. rewrite !elem_of_cons, I2. tauto.
      * intros k. destruct (decide (k = k0)) as [->|Hk].
        -- rewrite lookup_insert_eq, decide_False by done. by rewrite lookup_insert_eq.
        -- rewrite lookup_insert_ne, I3 by done. rewrite !(lookup_insert_ne _ k0) by done. done.
Qed.

Definition perm_map (pages : list (Z * (bool * bool))) : gmap Z (bool * bool) := list_to_map pages.
Definition or_perm (a b : bool * bool) : bool * bool := (a.1 || b.1, a.2 || b.2).

Lemma or_entries_spec l w x : ∀ pages,
  StronglySorted Z.lt pages.*1 →
  let pages' := foldl (λ ps va, or_entry ps va w x) pages l in
  StronglySorted Z.lt pages'.*1 ∧
  ∀ k, perm_map pages' !! k =
    if decide (k ∈ l) then Some (or_perm (default (false, false) (perm_map pages !! k)) (w, x)) else perm_map pages !! k.
Proof.
  induction l as [|va l IH]; intros pages Hs; cbn [foldl].
  - split; [done|]. intros k. rewrite decide_False; [done|]. by intros ?%elem_of_nil.
  - destruct (or_entry_spec pages va w x Hs) as (S1 & _ & S3). destruct (IH _ S1) as [I1 I2]. split; [done|]. intros k. rewrite I2.
    unfold perm_map in *. rewrite S3. destruct (decide (k = va)) as [->|Hne].
    + rewrite (decide_True (P := va ∈ va :: l)) by left. destruct (list_to_map pages !! va) as [[w' x']|]; cbn;
        destruct (decide (va ∈ l)); cbn; unfold or_perm; cbn; try done; do 2 f_equal; destruct w, x; try destruct w', x'; done.
    + destruct (decide (k ∈ l)) as [Hin|Hout], (decide (k ∈ va :: l)) as [Hc|Hc]; try done; exfalso.
      * apply Hc. by right.
      * by apply elem_of_cons in Hc as [?|?].
Qed.

Lemma page_permissions_ok segs : Forall valid_segment segs → ∀ pages, StronglySorted Z.lt pages.*1 →
  ∃ ps, page_permissions segs pages = Ok ps ∧ StronglySorted Z.lt ps.*1 ∧
    ∀ k, perm_map ps !! k = if existsb (covers k) segs then Some (or_perm (default (false, false) (perm_map pages !! k)) (permissions segs k))
                            else perm_map pages !! k.
Proof.
  induction 1 as [|seg segs [_ [rg Erg]] _ IH]; intros pages Hs; cbn [page_permissions]; [by exists pages|].
  assert (seg_pages seg = step_by rg) as Epg by (unfold seg_pages; by rewrite Erg). rewrite Erg, <- Epg.
  destruct (or_entries_spec (seg_pages seg) (writable seg) (executable seg) pages Hs) as [S1 S2].
  destruct (IH _ S1) as (ps & E & S3 & S4). exists ps. do 2 (split; [done|]). intros k. rewrite S4, S2. unfold permissions. cbn [existsb].
  assert (covers k seg = bool_decide (k ∈ seg_pages seg)) as -> by done. destruct (decide (k ∈ seg_pages seg)) as [Hin|Hout].
  - rewrite (bool_decide_eq_true_2 _ Hin). cbn [orb andb]. unfold or_perm. cbn [fst snd default from_option id].
    destruct (existsb (covers k) segs) eqn:Ec; [by rewrite !orb_assoc|].
    assert (∀ g, existsb (λ s, covers k s && g s) segs = false) as Hnone.
    { intros g. apply not_true_is_false. intros (s & Hs' & [Hc _]%andb_true_iff)%existsb_exists.
      apply not_true_iff_false in Ec. apply Ec, existsb_exists. eauto. }
    rewrite !Hnone, !orb_false_r. done.
  - rewrite (bool_decide_eq_false_2 _ Hout). done.
Qed.

Lemma perm_map_cons va wx ps k : perm_map ((va, wx) :: ps) !! k = if decide (k = va) then Some wx else perm_map ps !! k.
Proof. unfold perm_map. cbn. destruct (decide (k = va)) as [->|]; [by rewrite lookup_insert_eq|by rewrite lookup_insert_ne]. Qed.

(** ** The passes *)

Section Load.
Context `{MapperLaws} {F : Type} `{FramesLaws F} (hhdm : Z) (Hhdm : 0 ≤ hhdm ∧ hhdm + 2 ^ 47 ≤ 2 ^ 64).
Context (L0 : gset Z) (P0 : Z → Prop) (m0 : Mem) (kroot active : Z).

#[local] Abbreviation vmok := (vmok L0 P0 m0 kroot active).
#[local] Abbreviation space := (Sys F * VmSpace)%type.

(** [sv] maps [A] and shows [B]. *)
Definition shows (sv : space) (A : gmap Z (Z * (bool * bool))) (B : Mem) : Prop := ∃ T, vmok sv T A B.
Definition sane (sv : space) : Prop := ∃ A B, shows sv A B.
Definition blank (A : gmap Z (Z * (bool * bool))) (B : Mem) : Prop := ∀ va, 0 ≤ va → A !! page_of va = None → B va = x00.

Lemma shows_sane sv A B : shows sv A B → sane sv.
Proof. intros. by exists A, B. Qed.

Lemma shows_ext sv A B B' : (∀ va, B va = B' va) → shows sv A B → shows sv A B'.
Proof.
  intros E [T [V1 V2 V3 V4 V5 V6 V7 V8 V9 V10 V11 V13]]. exists T. split; try done. intros va f p o Hp Ho. rewrite <- E. by eapply V11.
Qed.

Lemma is_mapped_ok sv A B va : shows sv A B → user_page va →
  is_mapped sv.1 sv.2 va = Ret (match A !! va with Some _ => true | None => false end).
Proof.
  intros [T Hv] [Hu Ha]. unfold is_mapped. rewrite (translate_ok _ _ _ _ _ _ _ _ _ _ Hv Hu). cbn [mbind outcome_bind].
  rewrite (page_of_unique va va) by (done || lia). by destruct (A !! va).
Qed.

Lemma new_page_ok sv A B va w x :
  shows sv A B → blank A B → user_page va → USER_MIN ≤ va →
  ∃ r sv', map_new_page hhdm sv.1 sv.2 va w x = Ret (r, sv') ∧
    match r with
    | Ok pa => A !! va = None ∧ shows sv' (<[va := (pa, (w, x))]> A) B ∧ blank (<[va := (pa, (w, x))]> A) B
    | Err e => sane sv' ∧ (e = OutOfFrames ∨ e = AlreadyMapped ∧ is_Some (A !! va))
    end.
Proof.
  intros [T Hv] Hb Hva Hmin. destruct (map_new_page_ok hhdm Hhdm _ _ _ _ _ sv T A B va w x Hv Hva Hmin) as (r & sv' & T' & E & Hr).
  - intros HN o Ho. apply Hb; [destruct Hva as [[? _] _]; lia|]. rewrite (page_of_unique va) by (apply Hva || lia). done.
  - exists r, sv'. split; [done|]. destruct r as [pa|e].
    + destruct Hr as [HN Hv']. split; [done|]. split; [by exists T'|]. intros va' Hva' [HN' _]%lookup_insert_None. by apply Hb.
    + destruct Hr as [Hv' He]. split; [|done]. by exists A, B, T'.
Qed.

Lemma map_pages_ok l : ∀ sv A B,
  shows sv A B → blank A B → (∀ va, va ∈ l → user_page va ∧ USER_MIN ≤ va) →
  ∃ r sv', map_pages hhdm l sv = Ret (r, sv') ∧
    match r with
    | Ok _ => ∃ A', shows sv' A' B ∧ blank A' B ∧ ∀ va, is_Some (A' !! va) ↔ is_Some (A !! va) ∨ va ∈ l
    | Err e => sane sv' ∧ e = LMap OutOfFrames
    end.
Proof.
  induction l as [|va l IH]; intros sv A B Hv Hb Hl; cbn [map_pages].
  - exists (Ok tt), sv. split; [done|]. exists A. do 2 (split; [done|]). intros va. rewrite elem_of_nil. tauto.
  - destruct (Hl va ltac:(left)) as [Hup Hmin]. rewrite (is_mapped_ok _ _ _ _ Hv Hup). cbn [mbind outcome_bind].
    destruct (A !! va) as [p|] eqn:E.
    + destruct (IH sv A B Hv Hb ltac:(intros; apply Hl; by right)) as (r & sv' & -> & Hr). exists r, sv'. split; [done|].
      destruct r as [[]|e]; [|done]. destruct Hr as (A' & ? & ? & HA). exists A'. do 2 (split; [done|]). intros va'. rewrite HA, elem_of_cons.
      split; [tauto|]. intros [?|[->|?]]; [by left| |by right]. left. by rewrite E.
    + destruct (new_page_ok sv A B va true true Hv Hb Hup Hmin) as (r & sv1 & Em & Hr). unfold vm_bind, lift_map. rewrite Em.
      cbn [mbind outcome_bind]. destruct r as [pa|e].
      * destruct Hr as (_ & Hv1 & Hb1). destruct (IH sv1 _ B Hv1 Hb1 ltac:(intros; apply Hl; by right)) as (r & sv' & -> & Hr).
        exists r, sv'. split; [done|]. destruct r as [[]|e]; [|done]. destruct Hr as (A' & ? & ? & HA). exists A'. do 2 (split; [done|]).
        intros va'. rewrite HA, elem_of_cons, lookup_insert_is_Some'. split; [|naive_solver]. intros [[->|?]|?]; auto.
      * destruct Hr as [Hs [->|[_ [? Hsome]]]]; [|congruence]. by eexists _, sv1.
Qed.

(** ** Copying *)

Lemma write_mem_app B a l1 l2 x : write_mem (write_mem B a l1) (a + Z.of_nat (length l1)) l2 x = write_mem B a (l1 ++ l2) x.
Proof.
  destruct (decide (a ≤ x < a + Z.of_nat (length (l1 ++ l2)))) as [Hin|Hout].
  - rewrite length_app in Hin. replace x with (a + (x - a)) by lia. rewrite (write_mem_in B) by (rewrite length_app; lia).
    destruct (decide (x - a < Z.of_nat (length l1))) as [Hl|Hl].
    + rewrite write_mem_out, write_mem_in, lookup_app_l by lia. done.
    + replace (a + (x - a)) with (a + Z.of_nat (length l1) + (x - a - Z.of_nat (length l1))) by lia.
      rewrite write_mem_in, lookup_app_r by lia. repeat f_equal. lia.
  - rewrite length_app in Hout. rewrite !write_mem_out by (rewrite ?length_app; lia). done.
Qed.

Lemma copy_segment_ok seg A : valid_segment seg → (∀ va, va ∈ seg_pages seg → is_Some (A !! va)) →
  ∀ fuel sv B (copied : nat), (length (data seg) - copied ≤ fuel)%nat → (copied ≤ length (data seg))%nat → shows sv A B →
  ∃ sv', copy_segment hhdm fuel seg (Z.of_nat copied) sv = Ret (Ok tt, sv') ∧
    shows sv' A (write_mem B (vaddr seg + Z.of_nat copied) (drop copied (data seg))).
Proof.
  intros Hseg HA. induction fuel as [|fuel IH]; intros sv B copied Hfuel Hc Hv; cbn [copy_segment].
  { rewrite (proj2 (Z.leb_le _ _)) by lia. exists sv. split; [done|]. rewrite drop_ge by lia. eapply shows_ext; [|exact Hv].
    intros va. rewrite write_mem_out; [done|]. cbn. lia. }
  destruct (Z.leb_spec (Z.of_nat (length (data seg))) (Z.of_nat copied)) as [Hle|Hlt].
  { exists sv. split; [done|]. rewrite drop_ge by lia. eapply shows_ext; [|exact Hv]. intros va. rewrite write_mem_out; [done|]. cbn. lia. }
  set (va := vaddr seg + Z.of_nat copied).
  destruct (seg_covers_data seg va Hseg ltac:(unfold va; lia)) as [Hu Hpg]. destruct (HA _ Hpg) as [[f p] Hfp].
  rewrite add_chk_ok by (unfold user_addr in Hu; fold va; lia). cbn [mbind outcome_bind]. fold va.
  destruct Hv as [T Hv]. rewrite (translate_ok _ _ _ _ _ _ _ _ _ _ Hv Hu), Hfp. cbn [fmap option_fmap option_map mbind outcome_bind fst].
  change 0xfff with (Z.ones 12). rewrite Z.land_ones by lia. change (2 ^ 12) with 4096.
  pose proof (Z.mod_pos_bound va 4096 ltac:(lia)) as Hmod.
  set (run := Z.min (4096 - va mod 4096) (Z.of_nat (length (data seg)) - Z.of_nat copied)).
  assert (0 < run ∧ run ≤ 4096 - va mod 4096 ∧ run ≤ Z.of_nat (length (data seg)) - Z.of_nat copied) as (R1 & R2 & R3) by lia.
  rewrite slice_ok by lia. cbn [mbind outcome_bind]. replace (Z.of_nat copied + run - Z.of_nat copied) with run by lia. rewrite Nat2Z.id.
  destruct p as [w x]. destruct (vo_pages _ _ _ _ _ _ _ _ _ Hv _ _ _ _ Hfp) as (_ & _ & Hfo & _).
  destruct (vo_owned _ _ _ _ _ _ _ _ _ Hv) as [_ Hok]. destruct (Hok f Hfo) as [Hf _].
  rewrite (frame_at_hhdm hhdm Hhdm f (va mod 4096) Hf ltac:(lia)). cbn [mbind outcome_bind].
  set (bs := take (Z.to_nat run) (drop copied (data seg))).
  assert (length bs = Z.to_nat run) as Hlen by (unfold bs; rewrite length_take, length_drop; lia).
  pose proof (store_ok _ _ _ _ _ sv T A B va f (w, x) bs Hv Hu Hfp ltac:(lia)) as Hv1.
  replace (Z.of_nat copied + run) with (Z.of_nat (copied + Z.to_nat run)) by lia.
  destruct (IH (with_mem sv.1 (write_mem (mem sv.1) (f + va mod 4096) bs), sv.2) (write_mem B va bs) (copied + Z.to_nat run)%nat) as (sv' & -> & Hs); [lia|lia|by exists T|].
  exists sv'. split; [done|]. eapply shows_ext; [|exact Hs]. intros y. cbn beta.
  replace (vaddr seg + Z.of_nat (copied + Z.to_nat run)) with (va + Z.of_nat (length bs)) by (unfold va; lia).
  rewrite write_mem_app. unfold bs. by rewrite <- drop_drop, take_drop.
Qed.

Lemma blank_store A B seg : valid_segment seg → (∀ va, va ∈ seg_pages seg → is_Some (A !! va)) → blank A B →
  blank A (write_mem B (vaddr seg) (data seg)).
Proof.
  intros Hseg HA Hb va Hva HN. destruct (decide (vaddr seg ≤ va < vaddr seg + Z.of_nat (length (data seg)))) as [Hin|Hout].
  - destruct (seg_covers_data seg va Hseg Hin) as [_ Hp]. destruct (HA _ Hp) as [? Hs]. congruence.
  - rewrite write_mem_out by lia. by apply Hb.
Qed.

Lemma load_segments_ok segs : Forall valid_segment segs → ∀ sv A B, shows sv A B → blank A B →
  ∃ r sv', load_segments hhdm segs sv = Ret (r, sv') ∧
    match r with
    | Ok _ => ∃ A', shows sv' A' (image segs B) ∧ blank A' (image segs B) ∧
        ∀ va, is_Some (A' !! va) ↔ is_Some (A !! va) ∨ ∃ s, s ∈ segs ∧ va ∈ seg_pages s
    | Err e => sane sv' ∧ e = LMap OutOfFrames
    end.
Proof.
  induction 1 as [|seg segs Hseg _ IH]; intros sv A B Hv Hb; cbn [load_segments].
  - exists (Ok tt), sv. split; [done|]. exists A. do 2 (split; [done|]). intros va. split; [by left|]. intros [?|(s & Hs & _)]; [done|].
    by apply elem_of_nil in Hs.
  - pose proof Hseg as [_ [rg Erg]]. assert (seg_pages seg = step_by rg) as Epg by (unfold seg_pages; by rewrite Erg).
    unfold vm_bind, vm_result. rewrite Erg. cbn [mbind outcome_bind]. rewrite <- Epg.
    destruct (map_pages_ok (seg_pages seg) sv A B Hv Hb ltac:(intros va; by apply seg_pages_user)) as (r & sv1 & -> & Hr).
    cbn [mbind outcome_bind]. destruct r as [[]|e]; [|by eexists _, sv1]. destruct Hr as (A1 & Hv1 & Hb1 & HA1).
    assert (∀ va, va ∈ seg_pages seg → is_Some (A1 !! va)) as Hin by (intros va Hva; apply HA1; by right).
    destruct (copy_segment_ok seg A1 Hseg Hin (length (data seg)) sv1 B 0 ltac:(lia) ltac:(lia) Hv1) as (sv2 & E2 & Hv2).
    change (Z.of_nat 0) with 0 in *. rewrite E2. cbn [mbind outcome_bind]. rewrite Z.add_0_r, drop_0 in Hv2.
    destruct (IH sv2 A1 _ Hv2 (blank_store _ _ _ Hseg Hin Hb1)) as (r & sv' & -> & Hr). exists r, sv'. split; [done|].
    destruct r as [[]|e]; [|done]. destruct Hr as (A' & Hv' & Hb' & HA'). exists A'. do 2 (split; [done|]). intros va. rewrite HA', HA1.
    setoid_rewrite elem_of_cons. naive_solver.
Qed.

(** ** Applying permissions *)

Lemma apply_permissions_ok ps : StronglySorted Z.lt ps.*1 → ∀ sv A B,
  shows sv A B → (∀ k, is_Some (perm_map ps !! k) → is_Some (A !! k)) →
  ∃ r sv', apply_permissions ps sv = Ret (r, sv') ∧
    match r with
    | Ok _ => (∀ k, perm_map ps !! k ≠ Some (true, true)) ∧ ∃ A', shows sv' A' B ∧
        ∀ k, A' !! k = match perm_map ps !! k with Some wx => (λ p, (p.1, wx)) <$> A !! k | None => A !! k end
    | Err e => sane sv' ∧ (e = LMap OutOfFrames ∨ ∃ k, e = WriteExecutePage k ∧ perm_map ps !! k = Some (true, true))
    end.
Proof.
  induction ps as [|[va [w x]] ps IH]; intros Hs sv A B Hv Hin; cbn [apply_permissions].
  - exists (Ok tt), sv. split; [done|]. split; [intros k; unfold perm_map; cbn; by rewrite lookup_empty|]. exists A. done.
  - apply StronglySorted_inv in Hs as [Hs Hlt]. destruct (w && x) eqn:Ewx.
    { apply andb_true_iff in Ewx as [-> ->]. eexists (Err _), sv. split; [done|]. split; [by eapply shows_sane|]. right. exists va.
      by rewrite perm_map_cons, decide_True. }
    destruct (Hin va ltac:(rewrite perm_map_cons, decide_True; eauto)) as [[f p] Hp]. destruct Hv as [T Hv].
    destruct (set_permissions_ok hhdm Hhdm _ _ _ _ _ sv T A B va f p w x Hv Hp) as (r & sv1 & T1 & E & Hr).
    unfold vm_bind, lift_map. rewrite E. cbn [mbind outcome_bind]. destruct r as [[]|e].
    2: { destruct Hr as [-> Hv1]. eexists _, sv1. split; [done|]. split; [|by left]. by exists (delete va A), B, T1. }
    assert (perm_map ps !! va = None) as HN.
    { apply not_elem_of_list_to_map_1. intros Hva. rewrite Forall_forall in Hlt. apply Hlt in Hva. cbn in Hva. lia. }
    destruct (IH Hs sv1 (<[va := (f, (w, x))]> A) B) as (r & sv' & -> & Hr'); [by exists T1| |].
    { intros k Hk. rewrite lookup_insert_is_Some'. destruct (decide (va = k)); [by left|right]. apply Hin.
      rewrite perm_map_cons. by destruct (decide (k = va)). }
    exists r, sv'. split; [done|]. destruct r as [[]|e].
    + destruct Hr' as [Hno (A' & Hv' & HA')]. split.
      * intros k. rewrite perm_map_cons. destruct (decide (k = va)); [intros [= -> ->]; done|apply Hno].
      * exists A'. split; [done|]. intros k. rewrite HA', perm_map_cons. destruct (decide (k = va)) as [->|Hne].
        -- rewrite HN, lookup_insert_eq, Hp. done.
        -- by rewrite lookup_insert_ne.
    + destruct Hr' as [Hsane [?|(k & -> & Hk)]]; (split; [done|]); [by left|right]. exists k. split; [done|].
      rewrite perm_map_cons. destruct (decide (k = va)) as [->|]; [congruence|done].
Qed.

(** ** The stack *)

Lemma map_stack_ok l : NoDup l → Forall (λ page, 0 ≤ page < 4) l → ∀ sv A B, shows sv A B → blank A B →
  ∃ r sv', map_stack hhdm l sv = Ret (r, sv') ∧
    match r with
    | Ok _ => ∃ A', shows sv' A' B ∧ blank A' B ∧
        (∀ k, k ∈ stack_page <$> l → A !! k = None ∧ ∃ pa, A' !! k = Some (pa, (true, false))) ∧
        (∀ k, k ∉ stack_page <$> l → A' !! k = A !! k)
    | Err e => sane sv' ∧ (e = LMap OutOfFrames ∨ e = LMap AlreadyMapped ∧ ∃ k, k ∈ stack_page <$> l ∧ is_Some (A !! k))
    end.
Proof.
  intros Hnd. induction 1 as [|page l Hpg _ IH]; intros sv A B Hv Hb; cbn [map_stack].
  - exists (Ok tt), sv. split; [done|]. exists A. do 2 (split; [done|]). split; [by intros k ?%elem_of_nil|done].
  - apply NoDup_cons in Hnd as [Hnin Hnd]. specialize (IH Hnd). fold (stack_page page). assert (user_page (stack_page page) ∧ USER_MIN ≤ stack_page page) as [Hup Hmin].
    { unfold user_page, user_addr, stack_page, USER_STACK_TOP, USER_MIN. assert (page = 0 ∨ page = 1 ∨ page = 2 ∨ page = 3) as [->|[->|[->| ->]]] by lia; vm_compute; intuition congruence. }
    destruct (new_page_ok sv A B (stack_page page) true false Hv Hb Hup Hmin) as (r & sv1 & E & Hr).
    unfold vm_bind, lift_map. rewrite E. cbn [mbind outcome_bind]. destruct r as [pa|e].
    2: { destruct Hr as [Hs He]. eexists _, sv1. split; [done|]. split; [done|]. destruct He as [->|[-> Hs']]; [by left|right].
         split; [done|]. exists (stack_page page). split; [left|done]. }
    destruct Hr as (HN & Hv1 & Hb1). destruct (IH sv1 _ B Hv1 Hb1) as (r & sv' & -> & Hr). exists r, sv'. split; [done|].
    destruct r as [[]|e].
    2: { destruct Hr as [Hs [?|(-> & k & Hk & Hs')]]; (split; [done|]); [by left|right]. split; [done|]. exists k. split; [by right|].
         rewrite lookup_insert_ne in Hs'; [done|]. intros <-. apply list_elem_of_fmap in Hk as (page' & E' & Hp').
         apply Hnin. unfold stack_page in E'. replace page with page' by lia. done. }
    destruct Hr as (A' & Hv' & Hb' & Hin & Hout). exists A'. do 2 (split; [done|]).
    rewrite fmap_cons. split.
    + intros k [->|Hk]%elem_of_cons.
      * split; [done|]. destruct (decide (stack_page page ∈ stack_page <$> l)) as [Hd|Hd]; [by apply Hin|]. rewrite Hout by done.
        exists pa. by rewrite lookup_insert_eq.
      * destruct (Hin k Hk) as [HN' ?]. split; [|done]. by apply lookup_insert_None in HN' as [? _].
    + intros k Hk. apply not_elem_of_cons in Hk as [Hk1 Hk2]. rewrite Hout by done. by rewrite lookup_insert_ne.
Qed.
End Load.
