(* ===== verification/VmThms.v ===== *)
(** The theorems about address spaces and program loading ([Vm]), for any
    mapper and any frame allocator that keep their laws. *)
From S2P Require Import Prelude Bits Mem Syscall Elf Paging PagingProofs PagingThms Vm VmProofs VmLoad.
From Stdlib Require Import Strings.Byte Sorting.Sorted.

Section Theorems.
Context `{MapperLaws} {F : Type} `{FramesLaws F}.

(** A frame the allocator will not hand out: it is out already, or not the
    allocator's at all. *)
Definition taken (s : Sys F) (z : Z) : Prop := z ∈ flive (frames s) ∨ ¬ fpool (frames s) z.

(** The kernel root has been recorded, and neither it nor the root this
    processor runs on is up for allocation. *)
Record ready (s : Sys F) : Prop := {
  rd_fok : fok (frames s);
  rd_root : frame_ok (kernel_root s) ∧ kernel_root s ≠ 0;
  rd_kept : taken s (kernel_root s) ∧ taken s (cr3 s)
}.

(** What [from_elf] guarantees of a space it has built from [segs]. *)
Record built_from (s : Sys F) (segs : list Segment) (sv : Sys F * VmSpace) (A : gmap Z (Z * (bool * bool))) : Prop := {
  bf_shows : shows (flive (frames s)) (fpool (frames s)) (mem s) (kernel_root s) (cr3 s) sv A (image segs (λ _, x00));
  bf_valid : Forall valid_segment segs;
  bf_stack : ∀ va, va ∈ stack_pages → existsb (covers va) segs = false ∧ ∃ pa, A !! va = Some (pa, (true, false));
  bf_blank : ∀ va, 0 ≤ va → page_of va ∈ stack_pages → image segs (λ _, x00) va = x00;
  bf_pages : ∀ va, va ∉ stack_pages →
    match A !! va with
    | Some (_, wx) => existsb (covers va) segs = true ∧ wx = permissions segs va ∧ wx ≠ (true, true)
    | None => existsb (covers va) segs = false
    end
}.

Lemma existsb_covers va segs : existsb (covers va) segs = true ↔ ∃ s, s ∈ segs ∧ va ∈ seg_pages s.
Proof.
  rewrite existsb_exists. unfold covers. setoid_rewrite bool_decide_eq_true. setoid_rewrite list_elem_of_In. done.
Qed.

Lemma stack_indices : Forall (λ page, 0 ≤ page < 4) (Z.of_nat <$> seq 0 (Z.to_nat USER_STACK_PAGES)).
Proof. apply Forall_forall. intros page (i & -> & Hi%elem_of_seq)%list_elem_of_fmap. change (Z.to_nat USER_STACK_PAGES) with 4%nat in Hi. lia. Qed.

Lemma stack_distinct : NoDup (Z.of_nat <$> seq 0 (Z.to_nat USER_STACK_PAGES)).
Proof. apply NoDup_fmap_2; [apply _|apply NoDup_seq]. Qed.

(** Building a space writes to no frame that was taken. *)
Lemma untouched s sv T A B f o :
  vmok (flive (frames s)) (fpool (frames s)) (mem s) (kernel_root s) (cr3 s) sv T A B →
  frame_ok f → taken s f → 0 ≤ o < 4096 → mem sv.1 (f + o) = mem s (f + o).
Proof.
  intros Hv Hf Ht Ho. apply (vo_out _ _ _ _ _ _ _ _ _ Hv). destruct (vo_owned _ _ _ _ _ _ _ _ _ Hv) as [_ Hok].
  apply (in_frames_not _ f); [done|lia| |].
  - intros Hin%elem_of_list_to_set. destruct (Hok f Hin) as (_ & Hn & Hp). by destruct Ht.
  - intros t Ht'%elem_of_list_to_set. by apply Hok.
Qed.

(** ** What a program sees

    Where the processor's walk of a user address ends, and what all the
    entries on the way allow; the byte there; and what the program's headers
    ask for. *)
Definition access (m : Mem) (root va : Z) : option (Z * (bool * bool)) :=
  es ← walk m root va;
  e ← last es;
  if forallb entry_user es then Some (addr e + va mod 4096, (forallb entry_writable es, forallb entry_executable es)) else None.
Definition user_view (m : Mem) (root va : Z) : option (byte * (bool * bool)) :=
  (λ p, (m p.1, p.2)) <$> access m root va.

Definition program_view (segs : list Segment) (va : Z) : option (byte * (bool * bool)) :=
  if bool_decide (page_of va ∈ stack_pages) then Some (x00, (true, false))
  else if existsb (covers (page_of va)) segs then Some (image segs (λ _, x00) va, permissions segs (page_of va))
  else None.

Lemma space_leaf L P m0 k a sv T A B va e :
  vmok L P m0 k a sv T A B → user_addr va → leaf (mem sv.1) (root_pa sv.2) va = Some e →
  ∃ f w x, A !! page_of va = Some (f, (w, x)) ∧ addr e = f ∧ f ∈ owned sv.2 ∧ (f ∉ dom T) ∧ USER_MIN ≤ page_of va ∧
    entry_user e = true ∧ entry_writable e = w ∧ entry_executable e = x.
Proof.
  intros Hv Hu He. rewrite <- leaf_page_of, (vo_leaf _ _ _ _ _ _ _ _ _ Hv) in He by by apply user_page_of.
  destruct (A !! page_of va) as [[f [w x]]|] eqn:E; [|done]. injection He as <-.
  destruct (vo_pages _ _ _ _ _ _ _ _ _ Hv _ _ _ _ E) as (_ & Hmin & Hfo & Hfn).
  destruct (vo_owned _ _ _ _ _ _ _ _ _ Hv) as [_ Hok]. destruct (Hok f Hfo) as [Hf _].
  exists f, w, x. destruct (leaf_entry_permissions f w x Hf) as (? & ? & ?). rewrite addr_leaf_entry by done. auto 10.
Qed.

(** The walk allows what the page's own entry does. *)
Lemma access_ok L P m0 k a sv T A B va :
  vmok L P m0 k a sv T A B → user_addr va →
  access (mem sv.1) (root_pa sv.2) va = (λ p, (p.1 + va mod 4096, p.2)) <$> A !! page_of va.
Proof.
  intros Hv Hu. unfold access, walk. destruct (leaf (mem sv.1) (root_pa sv.2) va) as [e|] eqn:E.
  - destruct (space_leaf _ _ _ _ _ _ _ _ _ _ _ Hv Hu E) as (f & w & x & HA & Ha & _ & _ & _ & U1 & U2 & U3).
    destruct (vo_opened _ _ _ _ _ _ _ _ _ Hv) as [O1 O2].
    assert (∀ d, (d < 3)%nat → ∃ e', link d (mem sv.1) (root_pa sv.2) va = Some e' ∧ entry_user e' = true ∧
      (w = true → entry_writable e' = true) ∧ entry_executable e' = true) as Hl.
    { intros d Hd. destruct (O2 _ _ _ _ d HA Hd) as (e' & He' & ? & ?). rewrite link_page_of in He'. exists e'. split; [done|].
      split; [done|]. split; [done|]. by apply (O1 va d). }
    destruct (Hl 0%nat) as (e3 & -> & A3 & B3 & C3); [lia|]. destruct (Hl 1%nat) as (e2 & -> & A2 & B2 & C2); [lia|].
    destruct (Hl 2%nat) as (e1 & -> & A1 & B1 & C1); [lia|]. rewrite HA. cbn -[entry_user entry_writable entry_executable addr Z.modulo]. rewrite A1, A2, A3, C1, C2, C3, U1, U2, U3, Ha. cbn -[entry_writable Z.modulo].
    rewrite !andb_true_r. destruct w; [by rewrite B1, B2, B3|by rewrite !andb_false_r].
  - rewrite <- leaf_page_of, (vo_leaf _ _ _ _ _ _ _ _ _ Hv) in E by by apply user_page_of. apply fmap_None in E as ->.
    by destruct (link 0 _ _ _), (link 1 _ _ _), (link 2 _ _ _).
Qed.

Lemma view_ok L P m0 k a sv A B va :
  shows L P m0 k a sv A B → user_addr va →
  user_view (mem sv.1) (root_pa sv.2) va = (λ p, (B va, p.2)) <$> A !! page_of va.
Proof.
  intros [T Hv] Hu. unfold user_view. rewrite (access_ok _ _ _ _ _ _ _ _ _ _ Hv Hu).
  destruct (A !! page_of va) as [[f [w x]]|] eqn:HA; [|done]. cbn. pose proof (Z.mod_pos_bound va 4096 ltac:(lia)).
  rewrite (vo_bytes _ _ _ _ _ _ _ _ _ Hv (page_of va) f (w, x)) by (done || lia). unfold page_of. do 3 f_equal. lia.
Qed.

Lemma built_view s segs sv A va :
  built_from s segs sv A → user_addr va → user_view (mem sv.1) (root_pa sv.2) va = program_view segs va.
Proof.
  intros [Hv Hval Hst Hbl Hpg] Hu. rewrite (view_ok _ _ _ _ _ _ _ _ _ Hv Hu). unfold program_view.
  destruct (bool_decide_reflect (page_of va ∈ stack_pages)) as [Hin|Hout].
  - destruct (Hst _ Hin) as (_ & pa & ->). cbn. rewrite Hbl; [done|apply Hu|done].
  - specialize (Hpg _ Hout). destruct (A !! page_of va) as [[f wx]|]; [|by rewrite Hpg].
    destruct Hpg as (-> & -> & _). done.
Qed.

Lemma built_not_refused s segs sv A x : built_from s segs sv A → ¬ refused segs x.
Proof.
  intros [_ Hval Hst _ Hpg]. rewrite Forall_forall in Hval. destruct x as [| | |va|va|[]]; cbn; try tauto.
  - intros (g & Hg & Hb). destruct (valid_not_refused g (Hval g Hg)). unfold USER_MAX in *. lia.
  - intros (g & Hg & _ & Hb). destruct (valid_not_refused g (Hval g Hg)). lia.
  - intros Hp. assert (existsb (covers va) segs = true) as Hc.
    { unfold permissions in Hp. injection Hp as (g & Hg & [? _]%andb_true_iff)%existsb_exists _. apply existsb_exists. eauto. }
    destruct (decide (va ∈ stack_pages)) as [Hin|Hout]; [destruct (Hst va Hin); congruence|].
    specialize (Hpg va Hout). destruct (A !! va) as [[? ?]|]; [naive_solver|congruence].
  - intros (va & Hva & Hc). destruct (Hst va Hva). congruence.
Qed.

(** Dropping a space gives back what it owns. *)
Lemma drop_frees (s : Sys F) (v : VmSpace) :
  fok (frames s) → NoDup (owned v) → (∀ f, f ∈ owned v → f ∈ flive (frames s)) → cr3 s ≠ root_pa v →
  ∃ f', drop_space s v = Ret (with_frames s f') ∧ fok f' ∧ flive f' = flive (frames s) ∖ list_to_set (owned v) ∧
    ∀ z, fpool f' z ↔ fpool (frames s) z.
Proof.
  intros Hf Hnd Hl Hne. unfold drop_space. rewrite (proj2 (Z.eqb_neq _ _) Hne). cbn [negb rust_assert mbind outcome_bind].
  pose proof (Permutation_rev (owned v)) as Hp.
  destruct (free_all_ok (rev (owned v)) (frames s) Hf) as (f' & -> & Hf' & Hl' & Hp'); [by rewrite <- Hp|intros z; rewrite <- Hp; apply Hl|].
  exists f'. split; [done|]. split; [done|]. split; [|done]. rewrite Hl'. f_equal. apply list_to_set_perm_L. by symmetry.
Qed.

(** ** Loading *)

Context (hhdm : Z) (Hhdm : 0 ≤ hhdm ∧ hhdm + 2 ^ 47 ≤ 2 ^ 64).

Lemma load_ok s sv segs :
  Forall sound_segment segs →
  shows (flive (frames s)) (fpool (frames s)) (mem s) (kernel_root s) (cr3 s) sv ∅ (λ _, x00) →
  ∃ r sv', load hhdm segs sv = Ret (r, sv') ∧
    match r with
    | Ok _ => ∃ A, built_from s segs sv' A
    | Err e => sane (flive (frames s)) (fpool (frames s)) (mem s) (kernel_root s) (cr3 s) sv' ∧ (e = LMap OutOfFrames ∨ refused segs e)
    end.
Proof.
  intros Hsnd Hv. unfold load, vm_bind, vm_result.
  destruct (validate segs) as [[]|e] eqn:Ev; cbn [mbind outcome_bind]; 
    [|eexists _, sv; split; [done|]; split; [by eapply shows_sane|right; by apply validate_refused]].
  pose proof (validate_ok segs Hsnd Ev) as Hval.
  destruct (load_segments_ok hhdm Hhdm _ _ _ _ _ segs Hval sv ∅ (λ _, x00) Hv ltac:(done)) as (r & sv1 & -> & Hr). cbn [mbind outcome_bind].
  destruct r as [[]|e]; [|eexists _, sv1; split; [done|]; destruct Hr as [? ->]; auto]. destruct Hr as (A1 & Hv1 & Hb1 & HA1).
  destruct (page_permissions_ok segs Hval [] ltac:(constructor)) as (ps & -> & Hsort & Hps). cbn [mbind outcome_bind].
  assert (∀ k, perm_map ps !! k = if existsb (covers k) segs then Some (permissions segs k) else None) as Hpm.
  { intros k. assert (perm_map [] !! k = None) as E by apply lookup_empty. rewrite Hps, E. by destruct (existsb (covers k) segs). }
  destruct (apply_permissions_ok hhdm Hhdm _ _ _ _ _ ps Hsort sv1 A1 _ Hv1) as (r & sv2 & -> & Hr).
  { intros k. rewrite Hpm. destruct (existsb (covers k) segs) eqn:Ec; [|by intros [? ?]]. intros _. apply HA1. right. by apply existsb_covers. }
  cbn [mbind outcome_bind]. destruct r as [[]|e].
  2: { eexists _, sv2. split; [done|]. destruct Hr as [? [->|(k & -> & Hk)]]; (split; [done|]); [by left|right].
       rewrite Hpm in Hk. destruct (existsb (covers k) segs); [by apply (inj Some) in Hk|done]. }
  destruct Hr as [Hno (A2 & Hv2 & HA2)].
  assert (blank A2 (image segs (λ _, x00))) as Hb2.
  { intros va Hva HN. apply Hb1; [done|]. rewrite HA2 in HN. destruct (perm_map ps !! _); [by apply fmap_None in HN|done]. }
  assert (∀ k, is_Some (A2 !! k) ↔ existsb (covers k) segs = true) as Hin2.
  { intros k. rewrite existsb_covers, HA2, Hpm. transitivity (is_Some (A1 !! k)).
    - destruct (existsb (covers k) segs); [apply fmap_is_Some|done].
    - rewrite HA1, lookup_empty. split; [intros [[? [=]]|?]; done|by right]. }
  destruct (map_stack_ok hhdm Hhdm _ _ _ _ _ _ stack_distinct stack_indices sv2 A2 _ Hv2 Hb2)
    as (r & sv3 & -> & Hr). exists r, sv3. split; [done|]. destruct r as [[]|e].
  2: { destruct Hr as [? [->|(-> & k & Hk & Hs)]]; (split; [done|]); [by left|right]. exists k. split; [done|]. by apply Hin2. }
  destruct Hr as (A3 & Hv3 & _ & Hst & Hrest). exists A3. split; [done|done| | |].
  - intros va Hva. destruct (Hst va Hva) as [HN ?]. split; [|done]. apply not_true_is_false. intros Hc%Hin2.
    rewrite HN in Hc. by destruct Hc.
  - intros va Hva0 Hva. apply Hb2; [done|]. by apply Hst.
  - intros va Hva. rewrite (Hrest va Hva), HA2, Hpm. destruct (existsb (covers va) segs) eqn:Ec.
    + destruct (A1 !! va) as [[f wx]|] eqn:E1; cbn.
      * split; [done|]. split; [done|]. intros E. apply (Hno va). by rewrite Hpm, Ec, E.
      * exfalso. destruct (proj2 (HA1 va)) as [? Hs]; [right; by apply existsb_covers|]. congruence.
    + destruct (A1 !! va) as [p|] eqn:E1; [|done]. exfalso. destruct (proj1 (HA1 va) ltac:(eauto)) as [[? Hs]|Hs].
      * by rewrite lookup_empty in Hs.
      * apply existsb_covers in Hs. congruence.
Qed.

(** [from_elf] always returns; its outcome in terms of the invariant. *)
Lemma from_elf_ok s b :
  ready s → Z.of_nat (length b) < 2 ^ 63 →
  ∃ r s', from_elf hhdm s b = Ret (r, s') ∧
    (∀ f o, frame_ok f → taken s f → 0 ≤ o < 4096 → mem s' (f + o) = mem s (f + o)) ∧
    match r with
    | Ok p => ∃ e segs A, parse b = Ret (Ok e) ∧ segments e = Ret segs ∧ pentry p = Elf.entry e ∧ stack_top p = USER_STACK_TOP ∧
        built_from s segs (s', space p) A
    | Err x => idle (flive (frames s)) (fpool (frames s)) (kernel_root s) (cr3 s) s' ∧
        ((∃ y, parse b = Ret (Err y) ∧ x = LElf y) ∨
         ∃ e segs, parse b = Ret (Ok e) ∧ segments e = Ret segs ∧ (x = OutOfMemory ∨ x = LMap OutOfFrames ∨ refused segs x))
    end.
Proof.
  intros [R1 [R2 R2'] [R3 R4]] Hlen. unfold from_elf.
  assert (idle (flive (frames s)) (fpool (frames s)) (kernel_root s) (cr3 s) s) as Hid by by split.
  destruct (parse_sound b Hlen) as [[x Ex]|(e & segs & Ep & Es & Hsnd)].
  { rewrite Ex. eexists _, s. split; [done|]. split; [done|]. split; [done|]. left. by exists x. }
  rewrite Ep. cbn [mbind outcome_bind]. destruct (new_ok hhdm Hhdm _ _ _ _ _ s Hid eq_refl R2 R2' R3) as (o & s1 & -> & Ho).
  cbn [mbind outcome_bind]. destruct o as [v|].
  2: { destruct Ho as [? Hm]. eexists _, s1. split; [done|]. split; [intros; by rewrite Hm|]. split; [done|].
       right. exists e, segs. auto. }
  rewrite Es. cbn [mbind outcome_bind]. destruct (load_ok s (s1, v) segs Hsnd Ho) as (r & [s2 v2] & -> & Hr). cbn [mbind outcome_bind].
  destruct r as [[]|x].
  - destruct Hr as [A HA]. eexists _, s2. split; [done|]. split; [|by exists e, segs, A].
    destruct (bf_shows _ _ _ _ HA) as [T Hv]. intros. by eapply (untouched s (s2, v2)).
  - destruct Hr as [(A & B & T & Hv) Hx]. destruct (drop_space_ok hhdm Hhdm _ _ _ _ _ _ T A B Hv R4) as (s3 & E3 & D1 & D2 & D3 & D4 & D5 & D6).
    cbn [fst snd] in E3. rewrite E3. cbn [mbind outcome_bind]. eexists _, s3. split; [done|].
    split; [intros; rewrite D4; by eapply (untouched s (s2, v2))|]. split; [by split|]. right. exists e, segs. auto.
Qed.

(** C7: Loading a program. [from_elf] always returns. On success what every
    user address of the new space holds, and how it may be used, is what the
    program asked for: each page some segment touches is there with the
    union of the segments' permissions, the segments' bytes over zeroes; the
    four stack pages are zero, writable and not executable; nothing else is
    mapped. The entry point is the file's and the stack starts at
    [USER_STACK_TOP]. A program fails only on a parse error, for want of
    frames, or for the reason the error names: a segment outside the user
    half, a page both writable and executable, a segment over the stack; and
    a program with such a fault never loads. *)
Theorem from_elf_loads_the_program s b :
  ready s → Z.of_nat (length b) < 2 ^ 63 →
  ∃ r s', from_elf hhdm s b = Ret (r, s') ∧
    match r with
    | Ok p => ∃ e segs, parse b = Ret (Ok e) ∧ segments e = Ret segs ∧ pentry p = Elf.entry e ∧ stack_top p = USER_STACK_TOP ∧
        (∀ x, ¬ refused segs x) ∧
        ∀ va, user_addr va → user_view (mem s') (root_pa (space p)) va = program_view segs va
    | Err x => (∃ y, parse b = Ret (Err y) ∧ x = LElf y) ∨
        ∃ e segs, parse b = Ret (Ok e) ∧ segments e = Ret segs ∧ (x = OutOfMemory ∨ x = LMap OutOfFrames ∨ refused segs x)
    end.
Proof.
  intros Hs Hlen. destruct (from_elf_ok s b Hs Hlen) as (r & s' & E & _ & Hr). exists r, s'. split; [done|].
  destruct r as [p|x]; [|by destruct Hr]. destruct Hr as (e & segs & A & ? & ? & ? & ? & HA). exists e, segs. do 4 (split; [done|]).
  split; [intros x; by eapply built_not_refused|]. intros va Hva. by apply (built_view s segs (s', space p) A).
Qed.

(** C6: A loaded program is confined. Every page its space maps in the user
    half is above the null page, is not both writable and executable, and is
    backed by a frame the space owns that was nobody's before: not one that
    was allocated, not one outside the allocator, so no kernel memory. No
    such frame is one of the space's own page tables, and no two pages share
    one. The kernel half of the root is the kernel root's. *)
Theorem loaded_program_is_confined s b p s' :
  ready s → Z.of_nat (length b) < 2 ^ 63 → from_elf hhdm s b = Ret (Ok p, s') →
  (∀ va e, user_addr va → leaf (mem s') (root_pa (space p)) va = Some e →
    USER_MIN ≤ va ∧ entry_user e = true ∧ entry_writable e && entry_executable e = false ∧
    addr e ∈ owned (space p) ∧ ¬ taken s (addr e) ∧
    (∀ d va', (d ≤ 3)%nat → user_addr va' → down d (mem s') (root_pa (space p)) va' ≠ Some (addr e)) ∧
    (∀ va' e', user_addr va' → leaf (mem s') (root_pa (space p)) va' = Some e' → addr e' = addr e → page_of va' = page_of va)) ∧
  (∀ i, 256 ≤ i < 512 → entry (mem s') (root_pa (space p)) i = entry (mem s) (kernel_root s) i).
Proof.
  intros Hs Hlen E. destruct (from_elf_ok s b Hs Hlen) as (r & s1 & E1 & _ & Hr). rewrite E in E1. injection E1 as <- <-.
  destruct Hr as (e & segs & A & _ & _ & _ & _ & [[T Hv] _ Hst _ Hpg]). split; [|apply (vo_kernel _ _ _ _ _ _ _ _ _ Hv)].
  intros va e0 Hu He. destruct (space_leaf _ _ _ _ _ _ _ _ _ _ _ Hv Hu He) as (f & w & x & HA & Ha & Hfo & Hfn & Hmin & U1 & U2 & U3).
  cbn [fst snd] in *. pose proof (page_of_page va ltac:(apply Hu)) as (_ & Hpo & _). destruct (vo_owned _ _ _ _ _ _ _ _ _ Hv) as [_ Hok].
  rewrite Ha, U1, U2, U3. split; [lia|]. split; [done|]. split.
  { destruct (decide (page_of va ∈ stack_pages)) as [Hin|Hout].
    - destruct (Hst _ Hin) as (_ & pa & Hpa). rewrite HA in Hpa. by injection Hpa as -> -> ->.
    - specialize (Hpg _ Hout). rewrite HA in Hpg. destruct Hpg as (_ & _ & Hwx). by destruct w, x. }
  split; [done|]. split; [destruct (Hok f Hfo) as (_ & ? & ?); intros [?|?]; tauto|]. split.
  - intros d va' Hd Hu' Hdn. apply Hfn, elem_of_dom. eexists. by apply (down_table T _ _ (vo_tables _ _ _ _ _ _ _ _ _ Hv) va' d).
  - intros va' e' Hu' He' Ha'. destruct (space_leaf _ _ _ _ _ _ _ _ _ _ _ Hv Hu' He') as (f' & w' & x' & HA' & Hf' & _).
    assert (f' = f) as -> by congruence. by apply (vo_inj _ _ _ _ _ _ _ _ _ Hv _ _ f (w', x') (w, x)).
Qed.

(** C8: Nothing leaks and nothing is overwritten. Whatever the program,
    [from_elf] leaves every byte of every frame that was taken as it was. A
    failed load gives back every frame it took. A successful one owns, once
    each, exactly the frames that are now out and were not; and dropping the
    space, at any later time at which those frames are still out and the
    processor is not running on it, returns exactly them, once each, and
    changes no frame that stays out. Dropping the space the processor runs
    on is refused. *)
Theorem process_memory_is_returned s b :
  ready s → Z.of_nat (length b) < 2 ^ 63 →
  ∃ r s', from_elf hhdm s b = Ret (r, s') ∧
    (∀ f o, frame_ok f → taken s f → 0 ≤ o < 4096 → mem s' (f + o) = mem s (f + o)) ∧
    match r with
    | Err _ => ready s' ∧ flive (frames s') = flive (frames s)
    | Ok p => NoDup (owned (space p)) ∧ flive (frames s') = list_to_set (owned (space p)) ∪ flive (frames s) ∧
        (∀ f, f ∈ owned (space p) → ¬ taken s f) ∧
        ∀ s2, fok (frames s2) → (∀ f, f ∈ owned (space p) → f ∈ flive (frames s2)) →
          if decide (cr3 s2 = root_pa (space p)) then drop_space s2 (space p) = Panic
          else ∃ s3, drop_space s2 (space p) = Ret s3 ∧ flive (frames s3) = flive (frames s2) ∖ list_to_set (owned (space p)) ∧
            ∀ f o, taken s3 f → mem s3 (f + o) = mem s2 (f + o)
    end.
Proof.
  intros Hs Hlen. destruct (from_elf_ok s b Hs Hlen) as (r & s' & E & Hkeep & Hr). exists r, s'. split; [done|]. split; [done|].
  destruct Hs as [R1 R2 [R3 R4]]. destruct r as [p|x].
  - destruct Hr as (e & segs & A & _ & _ & _ & _ & [[T Hv] _ _ _ _]). destruct (vo_owned _ _ _ _ _ _ _ _ _ Hv) as [Hnd Hok].
    split; [done|]. split; [apply (vo_live _ _ _ _ _ _ _ _ _ Hv)|]. split; [intros f Hf; destruct (Hok f Hf) as (_ & ? & ?); intros [?|?]; tauto|].
    intros s2 Hf2 Hl2. destruct (decide (cr3 s2 = root_pa (space p))) as [Heq|Hne]; [unfold drop_space; by rewrite Heq, Z.eqb_refl|].
    destruct (drop_frees s2 (space p) Hf2 Hnd Hl2 Hne) as (f' & -> & _ & Hl' & _). by eexists.
  - destruct Hr as [[I1 I2 I3 [I4 I5]] _]. split; [|done].
    assert (∀ z, taken s z → taken s' z) as Ht by (intros z [?|?]; [left; by rewrite I2|right; by rewrite I3]).
    split; [done|by rewrite I4|rewrite I4, I5; auto].
Qed.
End Theorems.
