(* ===== verification/VmSys.v ===== *)
(** Processes side by side: loading, running, killing and switching between
    any number of them, against a specification in which every process has a
    memory of its own. *)
From S2P Require Import Prelude Bits Mem Syscall Elf Paging PagingProofs PagingThms Vm VmProofs VmLoad VmThms.
From Stdlib Require Import Strings.Byte.

(** What happens to the machine: a program is loaded under a name, a process
    is torn down, a processor switches to a process's space or back to the
    kernel's, a process stores a byte. *)
Inductive Happening :=
  | Load (i : nat) (b : list byte) | Kill (i : nat) | Activate (i : nat) | ActivateKernel | Store (i : nat) (va : Z) (v : byte).

Section System.
Context `{MapperLaws} {F : Type} `{FramesLaws F} (hhdm : Z) (Hhdm : 0 ≤ hhdm ∧ hhdm + 2 ^ 47 ≤ 2 ^ 64).

#[local] Abbreviation world := (Sys F * gmap nat Process)%type.
#[local] Abbreviation view := (Z → option (byte * (bool * bool)))%type.

Definition with_cr3 (s : Sys F) (r : Z) : Sys F := mkSys (mem s) (frames s) (kernel_root s) r.

(** A store by a program goes through the processor's walk; one the walk does
    not allow faults and changes nothing. *)
Definition user_store (m : Mem) (root va : Z) (v : byte) : Mem :=
  match access m root va with
  | Some (pa, (true, _)) => write_mem m pa [v]
  | _ => m
  end.

Definition happen (w : world) (h : Happening) : outcome world :=
  let '(s, ps) := w in
  match h with
  | Load i b =>
      match ps !! i with
      | Some _ => Ret w
      | None => '(r, s) ← from_elf hhdm s b; Ret (s, match r with Ok p => <[i := p]> ps | Err _ => ps end)
      end
  | Kill i => match ps !! i with Some p => s ← drop_space s (space p); Ret (s, delete i ps) | None => Ret w end
  | Activate i => match ps !! i with Some p => Ret (with_cr3 s (root_pa (space p)), ps) | None => Ret w end
  | ActivateKernel => Ret (with_cr3 s (kernel_root s), ps)
  | Store i va v =>
      match ps !! i with
      | Some p => Ret (with_mem s (user_store (mem s) (root_pa (space p)) va v), ps)
      | None => Ret w
      end
  end.

Fixpoint happens (w : world) (l : list Happening) : outcome world :=
  match l with [] => Ret w | h :: l' => w ← happen w h; happens w l' end.

(** A process is not torn down while the processor runs on its tables, images
    are slices, and programs store to their own half. *)
Definition allowed (w : world) (h : Happening) : Prop :=
  match h with
  | Load _ b => Z.of_nat (length b) < 2 ^ 63
  | Kill i => ∀ p, w.2 !! i = Some p → cr3 w.1 ≠ root_pa (space p)
  | Store _ va _ => user_addr va
  | _ => True
  end.
Fixpoint all_allowed (w : world) (l : list Happening) : Prop :=
  match l with [] => True | h :: l' => allowed w h ∧ ∀ w', happen w h = Ret w' → all_allowed w' l' end.

(** The specification: a private memory per process. *)
Definition store_view (f : view) (va : Z) (v : byte) : view := λ va',
  match f va' with
  | Some (b, (true, x)) => Some (if va' =? va then v else b, (true, x))
  | o => o
  end.

Inductive spec : gmap nat view → Happening → gmap nat view → Prop :=
  | spec_load V i b e segs :
      V !! i = None → parse b = Ret (Ok e) → segments e = Ret segs → spec V (Load i b) (<[i := program_view segs]> V)
  | spec_refuse V i b : spec V (Load i b) V
  | spec_kill V i : spec V (Kill i) (delete i V)
  | spec_activate V i : spec V (Activate i) V
  | spec_kernel V : spec V ActivateKernel V
  | spec_store V i va v : spec V (Store i va v) (alter (λ f, store_view f va v) i V).

Inductive specs : gmap nat view → list Happening → gmap nat view → Prop :=
  | specs_nil V : specs V [] V
  | specs_cons V h V' l V'' : spec V h V' → specs V' l V'' → specs V (h :: l) V''.

(** ** Moving a space's invariant along *)

Lemma vmok_carry P k L L' m0 c s s' v T A B :
  vmok L P m0 k c (s, v) T A B →
  fok (frames s') → (∀ z, fpool (frames s') z ↔ P z) → kernel_root s' = k →
  flive (frames s') = list_to_set (owned v) ∪ L' → (∀ f, f ∈ owned v → f ∉ L') →
  (∀ f o, f ∈ owned v → 0 ≤ o < 4096 → mem s' (f + o) = mem s (f + o)) →
  (∀ i, 256 ≤ i < 512 → entry (mem s') k i = entry m0 k i) →
  vmok L' P (mem s') k (cr3 s') (s', v) T A B.
Proof.
  intros [V1 V2 (V3 & V3') V4 V5 V6 V7 V8 V9 V10 V11 V13 V15] Hf Hp Hk Hl Hd Hm Hke. cbn [fst snd] in *.
  assert (∀ t n b i, T !! t = Some (n, b) → 0 ≤ i < 512 → entry (mem s') t i = entry (mem s) t i) as He.
  { intros t n b i Ht Hi. apply entry_ext; [done|]. intros y Hy. replace y with (t + (y - t)) by lia.
    apply Hm; [|lia]. apply V5, elem_of_dom. eauto. }
  split; cbn [fst snd]; try done.
  - eapply tables_ext; [done|]. intros t n b i Ht [Hi _]. by eapply He.
  - split; [done|]. intros f Hfo. destruct (V3' f Hfo) as (? & _ & ?). auto.
  - intros va Hva. rewrite <- V6 by done. eapply leaf_ext; [done| |apply Hva]. intros t n b i Ht [Hi _]. by eapply He.
  - intros i Hi. rewrite (He _ _ _ _ (tb_root _ _ _ V1)), V9 by lia. symmetry. by apply Hke.
  - intros va f [w x] o HA Ho. destruct (V7 _ _ _ _ HA) as (_ & _ & Hfo & _). rewrite Hm by done. by eapply V11.
  - eapply opened_ext; [| |exact V15].
    + intros va d Hu Hd3. apply (link_ext T); try done; [eapply tables_ext; [done|]|]; intros t n b i Ht [Hi _]; by eapply He.
    + intros va [f [w x]] HA. by destruct (V7 _ _ _ _ HA) as [[? _] _].
Qed.

Lemma vmok_pool P P' L m0 k c sv T A B : (∀ z, P z ↔ P' z) → vmok L P m0 k c sv T A B → vmok L P' m0 k c sv T A B.
Proof.
  intros HP [V1 (V2 & V2') (V3 & V3') V4 V5 V6 V7 V8 V9 V10 V11 V13 V15]. split; try done.
  - split; [done|]. intros z. by rewrite V2', HP.
  - split; [done|]. intros f Hf. destruct (V3' f Hf) as (? & ? & ?%HP). done.
Qed.

(** ** The invariant

    [base] is what was allocated before the first process and [P] the
    allocator's frames. *)
Section Invariant.
Context (base : gset Z) (P : Z → Prop) (k : Z) (Hk : frame_ok k ∧ k ≠ 0) (Hkept : k ∈ base ∨ ¬ P k).

(** Space [v] in state [s] shows [f] to its program. *)
Definition runs (s : Sys F) (v : VmSpace) (f : view) : Prop :=
  ∃ T A B, vmok (flive (frames s) ∖ list_to_set (owned v)) P (mem s) k (cr3 s) (s, v) T A B ∧
    ∀ va, user_addr va → f va = (λ p, (B va, p.2)) <$> A !! page_of va.

Record together (w : world) (V : gmap nat view) : Prop := {
  tg_fok : fok (frames w.1) ∧ ∀ z, fpool (frames w.1) z ↔ P z;
  tg_root : kernel_root w.1 = k;
  tg_cr3 : (cr3 w.1 ∈ base ∨ ¬ P (cr3 w.1)) ∨ ∃ i p, w.2 !! i = Some p ∧ cr3 w.1 = root_pa (space p);
  tg_none : ∀ i, w.2 !! i = None → V !! i = None;
  tg_runs : ∀ i p, w.2 !! i = Some p → ∃ f, V !! i = Some f ∧ runs w.1 (space p) f;
  tg_disj : ∀ i j p q f, i ≠ j → w.2 !! i = Some p → w.2 !! j = Some q → f ∈ owned (space p) → f ∈ owned (space q) → False;
  tg_base : ∀ i p f, w.2 !! i = Some p → f ∈ owned (space p) → f ∈ base → False;
  tg_live : ∀ z, z ∈ flive (frames w.1) ↔ z ∈ base ∨ ∃ i p, w.2 !! i = Some p ∧ z ∈ owned (space p)
}.

Lemma runs_owned s v f : runs s v f → NoDup (owned v) ∧ (root_pa v ∈ owned v) ∧ ∀ z, z ∈ owned v → frame_ok z ∧ P z ∧ z ∈ flive (frames s).
Proof.
  intros (T & A & B & Hv & _). destruct (vo_owned _ _ _ _ _ _ _ _ _ Hv) as [Hnd Hok]. split; [done|]. split.
  - apply (vo_dom _ _ _ _ _ _ _ _ _ Hv), elem_of_dom. eexists. apply (tb_root _ _ _ (vo_tables _ _ _ _ _ _ _ _ _ Hv)).
  - intros z Hz. destruct (Hok z Hz) as (? & _ & ?). do 2 (split; [done|]). pose proof (vo_live _ _ _ _ _ _ _ _ _ Hv) as Hl. cbn in Hl.
    rewrite Hl. by apply live_owned.
Qed.

Lemma runs_view s v f va : runs s v f → user_addr va → user_view (mem s) (root_pa v) va = f va.
Proof. intros (T & A & B & Hv & Hf) Hu. rewrite Hf by done. exact (view_ok _ _ _ _ _ (s, v) A B va (ex_intro _ T Hv) Hu). Qed.

(** A space keeps running as long as its frames and the kernel's root are
    left alone. *)
Lemma runs_carry s s' v f :
  runs s v f → fok (frames s') → (∀ z, fpool (frames s') z ↔ P z) → kernel_root s' = k →
  (∀ z, z ∈ owned v → z ∈ flive (frames s')) →
  (∀ z o, z = k ∨ z ∈ owned v → 0 ≤ o < 4096 → mem s' (z + o) = mem s (z + o)) → runs s' v f.
Proof.
  intros (T & A & B & Hv & Hf) Hfk Hp Hr Hl Hm. exists T, A, B. split; [|done].
  apply (vmok_carry P k (flive (frames s) ∖ list_to_set (owned v)) _ (mem s) (cr3 s) s); try done.
  - apply set_eq. intros z. rewrite elem_of_union, elem_of_difference, elem_of_list_to_set. destruct (decide (z ∈ owned v)); naive_solver.
  - intros z Hz. rewrite elem_of_difference, elem_of_list_to_set. tauto.
  - intros z o Hz. apply Hm. by right.
  - intros i Hi. apply entry_ext; [lia|]. intros y Hy. replace y with (k + (y - k)) by lia. apply Hm; [by left|lia].
Qed.

Lemma together_taken w V z : together w V → z ∈ flive (frames w.1) ∨ ¬ P z → taken w.1 z.
Proof. intros HT [?|Hn]; [by left|right]. by rewrite (proj2 (tg_fok _ _ HT)). Qed.

Lemma together_ready w V : together w V → ready w.1.
Proof.
  intros HT. pose proof HT as [[T1 T2] T3 T4 _ T6 _ _ T9]. split; [done|by rewrite T3|]. rewrite T3.
  split; apply (together_taken _ V); try done.
  - destruct Hkept; [left; apply T9; by left|by right].
  - destruct T4 as [[?|?]|(i & p & Hp & ->)]; [left; apply T9; by left|by right|]. left. apply T9. right. exists i, p. split; [done|].
    destruct (T6 i p Hp) as (f & _ & Hr). by apply (runs_owned _ _ _ Hr).
Qed.

Lemma kernel_not_owned w V i p z : together w V → w.2 !! i = Some p → z ∈ owned (space p) → z ≠ k.
Proof.
  intros HT Hp Hz ->. destruct Hkept as [Hb|Hn]; [by eapply (tg_base _ _ HT)|]. apply Hn.
  destruct (tg_runs _ _ HT i p Hp) as (f & _ & Hr). by apply (runs_owned _ _ _ Hr).
Qed.

Lemma load_together w V i b :
  together w V → w.2 !! i = None → Z.of_nat (length b) < 2 ^ 63 →
  ∃ r s', from_elf hhdm w.1 b = Ret (r, s') ∧
    match r with
    | Ok p => ∃ e segs, parse b = Ret (Ok e) ∧ segments e = Ret segs ∧
        together (s', <[i := p]> w.2) (<[i := program_view segs]> V)
    | Err _ => together (s', w.2) V
    end.
Proof.
  intros HT Hi Hlen. pose proof (together_ready w V HT) as Hrd. pose proof HT as [[T1 T2] T3 T4 T5 T6 T7 T8 T9].
  destruct (from_elf_ok hhdm Hhdm w.1 b Hrd Hlen) as (r & s' & E & Hm & Hr). exists r, s'. split; [done|].
  assert (∀ z o, z = k ∨ (∃ j q, w.2 !! j = Some q ∧ z ∈ owned (space q)) → 0 ≤ o < 4096 → mem s' (z + o) = mem w.1 (z + o)) as Hmem.
  { intros z o Hz Ho. destruct Hz as [->|(j & q & Hq & Hz)].
    - apply Hm; [by apply Hk| |done]. rewrite <- T3. apply (rd_kept _ Hrd).
    - destruct (T6 j q Hq) as (f & _ & Hrun). destruct (runs_owned _ _ _ Hrun) as (_ & _ & Hok). apply Hm; [by apply Hok| |done].
      left. by apply Hok. }
  destruct r as [p|x].
  - destruct Hr as (e & segs & A & ? & ? & _ & _ & HA). exists e, segs. do 2 (split; [done|]). pose proof HA as [[T Hv] _ _ _ _].
    pose proof Hv as [_ (V2 & V2') (V3 & V3') V4 _ _ _ _ _ _ _ (V13 & V14)]. cbn [fst snd] in *.
    assert (∀ f, f ∈ owned (space p) → f ∉ flive (frames w.1)) as Hnew by (intros f Hf; by apply V3').
    assert (runs s' (space p) (program_view segs)) as Hrun.
    { exists T, A, (image segs (λ _, x00)). split.
      - apply (vmok_carry P k (flive (frames w.1)) _ (mem w.1) (cr3 w.1) s'); try done.
        + rewrite <- T3. by apply (vmok_pool (fpool (frames w.1))).
        + intros z. by rewrite V2', T2.
        + by rewrite <- T3.
        + apply set_eq. intros z. rewrite V4, !elem_of_union, elem_of_difference, elem_of_list_to_set, elem_of_union, elem_of_list_to_set.
          destruct (decide (z ∈ owned (space p))); naive_solver.
        + intros z Hz. rewrite elem_of_difference, elem_of_list_to_set. tauto.
        + intros j Hj. apply entry_ext; [lia|]. intros y Hy. replace y with (k + (y - k)) by lia. apply Hmem; [by left|lia].
      - intros va Hu. rewrite <- (built_view _ _ _ _ va HA Hu). by apply (view_ok _ _ _ _ _ (s', space p) A _ va (bf_shows _ _ _ _ HA)). }
    split; cbn [fst snd].
    + split; [done|]. intros z. by rewrite V2', T2.
    + by rewrite <- T3.
    + rewrite V14. destruct T4 as [?|(j & q & Hq & ->)]; [by left|right]. exists j, q. split; [|done]. rewrite lookup_insert_ne; [done|congruence].
    + intros j [Hj Hne]%lookup_insert_None. rewrite lookup_insert_ne by done. by apply T5.
    + intros j q [[<- <-]|[Hne Hq]]%lookup_insert_Some; [exists (program_view segs); by rewrite lookup_insert_eq|].
      destruct (T6 j q Hq) as (f & Hf & Hrq). exists f. rewrite lookup_insert_ne by done. split; [done|].
      apply (runs_carry w.1); try done; [intros z; by rewrite V2', T2|by rewrite <- T3| |].
      * intros z Hz. rewrite V4. apply elem_of_union. right. by apply (runs_owned _ _ _ Hrq).
      * intros z o Hz. apply Hmem. destruct Hz; [by left|right]. eauto.
    + intros j j' q q' f Hne Hq Hq' Hf Hf'.
      apply lookup_insert_Some in Hq as [[<- <-]|[Hj Hq]]; apply lookup_insert_Some in Hq' as [[<- <-]|[Hj' Hq']]; [done| | |exact (T7 j j' q q' f Hne Hq Hq' Hf Hf')].
      * apply (Hnew f Hf), T9. eauto.
      * apply (Hnew f Hf'), T9. eauto.
    + intros j q f [[<- <-]|[_ Hq]]%lookup_insert_Some Hf Hb; [|exact (T8 j q f Hq Hf Hb)]. apply (Hnew f Hf), T9. by left.
    + intros z. rewrite V4, elem_of_union, elem_of_list_to_set, T9. split.
      * intros [?|[?|(j & q & Hq & ?)]]; [right; exists i, p; by rewrite lookup_insert_eq|by left|]. right. exists j, q.
        rewrite lookup_insert_ne; [done|congruence].
      * intros [?|(j & q & [[<- <-]|[_ Hq]]%lookup_insert_Some & ?)]; [auto|auto|]. right. right. eauto.
  - destruct Hr as [[I1 I2 I3 [I4 I5]] _]. split; cbn [fst snd]; try done.
    + split; [done|]. intros z. by rewrite I3, T2.
    + by rewrite <- T3.
    + by rewrite I5.
    + intros j q Hq. destruct (T6 j q Hq) as (f & Hf & Hrq). exists f. split; [done|]. apply (runs_carry w.1); try done.
      * intros z. by rewrite I3, T2.
      * by rewrite <- T3.
      * intros z Hz. rewrite I2. by apply (runs_owned _ _ _ Hrq).
      * intros z o Hz. apply Hmem. destruct Hz; [by left|right]. eauto.
    + intros z. by rewrite I2.
Qed.

Lemma kill_together w V i p :
  together w V → w.2 !! i = Some p → cr3 w.1 ≠ root_pa (space p) →
  ∃ s', drop_space w.1 (space p) = Ret s' ∧ together (s', delete i w.2) (delete i V).
Proof.
  intros [[T1 T2] T3 T4 T5 T6 T7 T8 T9] Hp Hne. destruct (T6 i p Hp) as (f & Hf & Hr). destruct (runs_owned _ _ _ Hr) as (Hnd & _ & Hok).
  destruct (drop_frees w.1 (space p) T1 Hnd) as (f' & -> & Hf' & Hl' & Hp'); [intros z Hz; by apply Hok|done|]. eexists. split; [done|].
  assert (∀ j q z, j ≠ i → w.2 !! j = Some q → z ∈ owned (space q) → z ∈ flive f') as Hlive.
  { intros j q z Hj Hq Hz. rewrite Hl', elem_of_difference, elem_of_list_to_set. split; [apply T9; eauto|]. intros Hz'. exact (T7 j i q p z Hj Hq Hp Hz Hz'). }
  split; cbn [fst snd with_frames frames mem kernel_root cr3].
  - split; [done|]. intros z. by rewrite Hp', T2.
  - done.
  - destruct T4 as [?|(j & q & Hq & E)]; [by left|right]. exists j, q. split; [|done]. rewrite lookup_delete_ne; [done|]. intros <-. congruence.
  - intros j [<-|Hj]%lookup_delete_None; [by rewrite lookup_delete_eq|]. apply lookup_delete_None. right. by apply T5.
  - intros j q [Hj Hq]%lookup_delete_Some. destruct (T6 j q Hq) as (g & Hg & Hrq). exists g. rewrite lookup_delete_ne by done. split; [done|].
    apply (runs_carry w.1); try done; [intros z; by rewrite Hp', T2|]. intros z. by apply (Hlive j q).
  - intros j j' q q' z Hjj [_ Hq]%lookup_delete_Some [_ Hq']%lookup_delete_Some. by apply (T7 j j' q q' z).
  - intros j q z [_ Hq]%lookup_delete_Some. by apply (T8 j q z).
  - intros z. split.
    + rewrite Hl', elem_of_difference, elem_of_list_to_set. intros [[?|(j & q & Hq & Hz)]%T9 Hn]; [by left|right]. exists j, q.
      split; [|done]. rewrite lookup_delete_ne; [done|]. intros <-. congruence.
    + intros [Hb|(j & q & [Hj Hq]%lookup_delete_Some & Hz)]; [|by eapply Hlive].
      rewrite Hl', elem_of_difference, elem_of_list_to_set. split; [apply T9; by left|]. intros Hz. exact (T8 i p z Hp Hz Hb).
Qed.

Lemma activate_together w V r :
  together w V → (r = k ∨ ∃ i p, w.2 !! i = Some p ∧ r = root_pa (space p)) → together (with_cr3 w.1 r, w.2) V.
Proof.
  intros [[T1 T2] T3 T4 T5 T6 T7 T8 T9] Hr. split; cbn [fst snd with_cr3 frames mem kernel_root cr3]; try done.
  - destruct Hr as [->|?]; [left; exact Hkept|by right].
  - intros i p Hp. destruct (T6 i p Hp) as (f & Hf & Hrun). exists f. split; [done|]. apply (runs_carry w.1); try done.
    intros z Hz. by apply (runs_owned _ _ _ Hrun).
Qed.

(** A store through one space's mappings. *)
Lemma store_runs s v f va b :
  runs s v f → user_addr va → (k ∉ owned v) → kernel_root s = k →
  runs (with_mem s (user_store (mem s) (root_pa v) va b)) v (store_view f va b) ∧
  ∀ z o, frame_ok z → (z ∉ owned v) → 0 ≤ o < 4096 → user_store (mem s) (root_pa v) va b (z + o) = mem s (z + o).
Proof.
  intros (T & A & B & Hv & Hf) Hu Hk' Hkr. unfold user_store.
  pose proof (access_ok _ _ _ _ _ (s, v) _ _ _ va Hv Hu) as Hac. cbn [fst snd] in Hac. rewrite Hac. clear Hac.
  assert ((∀ z x, A !! page_of va ≠ Some (z, (true, x))) → runs (with_mem s (mem s)) v (store_view f va b)) as Hsame.
  { intros Hno. exists T, A, B. split; [by destruct s|]. intros va' Hu'. unfold store_view. rewrite (Hf va' Hu').
    destruct (A !! page_of va') as [[z [[] x]]|] eqn:EA; cbn; [|done..]. destruct (Z.eqb_spec va' va) as [->|]; [|done].
    by destruct (Hno z x). }
  destruct (A !! page_of va) as [[z [[] x]]|] eqn:HA; cbn [fmap option_fmap option_map fst snd]; [|split; [apply Hsame; naive_solver|done]..].
  destruct (vo_pages _ _ _ _ _ _ _ _ _ Hv _ _ _ _ HA) as (_ & _ & Hz & _). cbn [fst snd] in Hz.
  pose proof (proj1 (proj2 (vo_owned _ _ _ _ _ _ _ _ _ Hv) z Hz)) as Hzok. pose proof (Z.mod_pos_bound va 4096 eq_refl) as Hmod.
  assert (∀ z' o, frame_ok z' → z' ≠ z → 0 ≤ o < 4096 → write_mem (mem s) (z + va mod 4096) [b] (z' + o) = mem s (z' + o)) as Hkeep.
  { intros z' o Hz' Hne Ho. apply write_mem_out. cbn [length]. destruct (frames_apart z' z Hz' Hzok Hne); lia. }
  split; [|intros z' o Hz' Hn; apply Hkeep; [done|congruence]].
  exists T, A, (write_mem B va [b]). split.
  - pose proof (store_ok _ _ _ _ _ (s, v) T A B va z _ [b] Hv Hu HA ltac:(cbn; lia)) as Hs. cbn [fst snd] in Hs.
    apply (vmok_carry P k _ _ _ _ _ (with_mem s (write_mem (mem s) (z + va mod 4096) [b])) _ _ _ _ Hs); try done.
    + apply (vo_fok _ _ _ _ _ _ _ _ _ Hv).
    + apply (vo_fok _ _ _ _ _ _ _ _ _ Hv).
    + apply (vo_live _ _ _ _ _ _ _ _ _ Hs).
    + intros z' Hz'. cbn. rewrite elem_of_difference, elem_of_list_to_set. tauto.
    + intros i Hi. apply entry_ext; [lia|]. intros y Hy. replace y with (k + (y - k)) by lia. apply Hkeep; [apply Hk|congruence|lia].
  - intros va' Hu'. unfold store_view. rewrite (Hf va' Hu'). unfold write_mem. cbn [length].
    destruct (A !! page_of va') as [[z' [[] x']]|] eqn:EA; cbn [fmap option_fmap option_map snd]; [..|done];
      destruct (Z.eqb_spec va' va) as [->|Hne].
    + rewrite Z.leb_refl, (proj2 (Z.ltb_lt _ _)), Z.sub_diag by lia. done.
    + destruct (Z.leb_spec va va'), (Z.ltb_spec va' (va + Z.of_nat 1)); cbn [andb]; done || lia.
    + congruence.
    + destruct (Z.leb_spec va va'), (Z.ltb_spec va' (va + Z.of_nat 1)); cbn [andb]; done || lia.
Qed.

Lemma store_together w V i p va b :
  together w V → w.2 !! i = Some p → user_addr va →
  together (with_mem w.1 (user_store (mem w.1) (root_pa (space p)) va b), w.2) (alter (λ f, store_view f va b) i V).
Proof.
  intros HT Hp Hu. pose proof HT as [[T1 T2] T3 T4 T5 T6 T7 T8 T9]. destruct (T6 i p Hp) as (f & Hf & Hr).
  destruct (store_runs w.1 (space p) f va b Hr Hu) as [Hr' Hkeep]; [intros Hz; by apply (kernel_not_owned _ _ _ _ _ HT Hp Hz)|done|].
  split; cbn [fst snd with_mem frames mem kernel_root cr3]; try done.
  - intros j Hj. rewrite lookup_alter_ne; [by apply T5|congruence].
  - intros j q Hq. destruct (decide (i = j)) as [<-|Hne].
    + rewrite Hp in Hq. injection Hq as <-. exists (store_view f va b). rewrite lookup_alter_eq, Hf. done.
    + destruct (T6 j q Hq) as (g & Hg & Hrq). exists g. rewrite lookup_alter_ne by done. split; [done|].
      destruct (runs_owned _ _ _ Hrq) as (_ & _ & Hok). apply (runs_carry w.1); try done; [intros z Hz; by apply Hok|].
      intros z o [->|Hz] Ho; apply Hkeep; try done; [apply Hk| |by apply Hok|].
      * intros Hz. by apply (kernel_not_owned _ _ _ _ _ HT Hp Hz).
      * intros Hz'. exact (T7 i j p q z Hne Hp Hq Hz' Hz).
Qed.

Lemma happen_together w V h :
  together w V → allowed w h → ∃ w' V', happen w h = Ret w' ∧ spec V h V' ∧ together w' V'.
Proof.
  intros HT Ha. destruct w as [s ps]. destruct h as [i b|i|i| |i va b]; cbn [happen allowed fst snd] in *; try destruct (ps !! i) as [p|] eqn:Ep.
  - exists (s, ps), V. split; [done|]. split; [constructor|done].
  - destruct (load_together (s, ps) V i b HT Ep Ha) as (r & s' & E & Hr). cbn [fst] in E. rewrite E. cbn [mbind outcome_bind]. destruct r as [p|x].
    + destruct Hr as (e & segs & E1 & E2 & Hr). eexists _, _. split; [done|]. split; [|exact Hr]. eapply spec_load; [|done..].
      by apply (tg_none _ _ HT).
    + eexists _, V. split; [done|]. split; [constructor|done].
  - destruct (kill_together (s, ps) V i p HT Ep (Ha p eq_refl)) as (s' & E & Hr). cbn [fst] in E. rewrite E. cbn [mbind outcome_bind].
    eexists _, _. split; [done|]. split; [constructor|exact Hr].
  - exists (s, ps), (delete i V). split; [done|]. split; [constructor|]. by rewrite delete_id by by apply (tg_none _ _ HT).
  - eexists _, V. split; [done|]. split; [constructor|]. apply (activate_together (s, ps)); [done|]. right. by exists i, p.
  - exists (s, ps), V. split; [done|]. split; [constructor|done].
  - eexists _, V. split; [done|]. split; [constructor|]. apply (activate_together (s, ps)); [done|]. left. apply (tg_root _ _ HT).
  - eexists _, _. split; [done|]. split; [constructor|]. by apply (store_together (s, ps)).
  - exists (s, ps), (alter (λ f, store_view f va b) i V). split; [done|]. split; [constructor|].
    replace (alter _ i V) with V; [done|]. apply map_eq. intros j. destruct (decide (i = j)) as [<-|]; [|by rewrite lookup_alter_ne].
    by rewrite lookup_alter_eq, (tg_none _ _ HT _ Ep).
Qed.

Lemma happens_together l : ∀ w V, together w V → all_allowed w l → ∃ w' V', happens w l = Ret w' ∧ specs V l V' ∧ together w' V'.
Proof.
  induction l as [|h l IH]; intros w V HT Ha; cbn [happens all_allowed] in *; [exists w, V; split; [done|]; split; [constructor|done]|].
  destruct Ha as [Ha Hl]. destruct (happen_together w V h HT Ha) as (w1 & V1 & E & Hs & HT1). rewrite E. cbn [mbind outcome_bind].
  destruct (IH w1 V1 HT1 (Hl w1 E)) as (w' & V' & -> & Hss & HT'). exists w', V'. split; [done|]. split; [by econstructor|done].
Qed.
End Invariant.

Lemma boot_together s : ready s → together (flive (frames s)) (fpool (frames s)) (kernel_root s) (s, ∅) ∅.
Proof.
  intros [R1 R2 [R3 R4]]. split; cbn [fst snd]; [done|done|by left|done|by intros i p ?%lookup_empty_Some| | |].
  - by intros i j p q f _ ?%lookup_empty_Some.
  - by intros i p f ?%lookup_empty_Some.
  - intros z. split; [by left|]. intros [?|(i & p & Hp & _)]; [done|]. by rewrite lookup_empty in Hp.
Qed.

(** C1: Processes have memories of their own. Start with no process, then
    let programs be loaded, run, be switched between and be torn down in any
    order. The machine never panics, and it does what the specification
    does, in which a process is nothing but a private memory: a load either
    fails and changes nothing or adds a process whose memory is its
    program's image, and a store changes one byte of the process that made
    it, if the page is writable. Every process sees exactly its own memory
    of the specification; no frame belongs to two processes or to a process
    and what was there before; and the frames that are out are those of the
    processes and those from before, so when no process is left all have
    come back. *)
Theorem processes_have_private_memories s l :
  ready s → all_allowed (s, ∅) l →
  ∃ s' ps V, happens (s, ∅) l = Ret (s', ps) ∧ specs ∅ l V ∧ dom V = dom ps ∧
    (∀ i p, ps !! i = Some p → ∃ f, V !! i = Some f ∧ ∀ va, user_addr va → user_view (mem s') (root_pa (space p)) va = f va) ∧
    (∀ i j p q f, i ≠ j → ps !! i = Some p → ps !! j = Some q → f ∈ owned (space p) → f ∉ owned (space q)) ∧
    (∀ i p, ps !! i = Some p → NoDup (owned (space p)) ∧ ∀ f, f ∈ owned (space p) → f ∉ flive (frames s)) ∧
    (∀ z, z ∈ flive (frames s') ↔ z ∈ flive (frames s) ∨ ∃ i p, ps !! i = Some p ∧ z ∈ owned (space p)).
Proof.
  intros Hs Hl. pose proof (boot_together s Hs) as HT. pose proof Hs as [_ R2 [R3 _]].
  destruct (happens_together _ _ _ R2 R3 l _ _ HT Hl) as ([s' ps] & V & E & Hsp & [T1 T3 T4 T5 T6 T7 T8 T9]). cbn [fst snd] in *.
  exists s', ps, V. split; [done|]. split; [done|]. split.
  { apply set_eq. intros i. rewrite !elem_of_dom. split; [|intros [p Hp]; destruct (T6 i p Hp) as (f & -> & _); eauto].
    intros [f Hf]. destruct (ps !! i) eqn:Ei; [eauto|]. by rewrite (T5 i Ei) in Hf. }
  split; [intros i p Hp; destruct (T6 i p Hp) as (f & Hf & Hr); exists f; split; [done|]; intros va; by apply (runs_view _ _ _ _ _ _ Hr)|].
  split; [intros i j p q f Hne Hp Hq Hf Hf'; exact (T7 i j p q f Hne Hp Hq Hf Hf')|]. split; [|done].
  intros i p Hp. destruct (T6 i p Hp) as (f & _ & Hr). split; [by apply (runs_owned _ _ _ _ _ Hr)|]. intros z Hz Hb. exact (T8 i p z Hp Hz Hb).
Qed.
End System.
