(* ===== verification/VmFrames.v ===== *)
(** The frame allocator of [Buddy] as the address spaces use it:
    [frames::alloc(0)] and [frames::free(pa, 0)], with the laws [Vm] is proved
    against.

    The state is the allocator with the blocks that are out ([system] of
    [BuddySys]).  Single frames are what spaces own; a frame inside a larger
    block belongs to whoever holds that block, so it is not in the pool.  The
    allocator's links live in the free frames, whose bytes are its own; the
    model keeps them in the allocator's state. *)
From S2P Require Import Prelude Bits Buddy BuddyProofs BuddyFree BuddySys Mem Paging PagingProofs Vm VmProofs.

Section BuddyFrames.
Context {B : Type} `{HB : FrameBacking B}.

(** [frames::alloc(0)]; the allocator's own invariant rules the panic out. *)
Definition frames_alloc (f : @system B) : option Z * @system B :=
  match alloc (heap f) 0 with
  | Ret (r, a) => (r, mkSystem a (handed_out (live f) 0 r))
  | Panic => (None, f)
  end.

(** [frames::free(pa, 0)]. *)
Definition frames_free (f : @system B) (pa : Z) : outcome (@system B) :=
  a ← free (heap f) pa 0;
  Ret (mkSystem a (filter (λ p, p ≠ (pa, 0%nat)) (live f))).

#[export] Instance buddy_frames : Frames (@system B) := { falloc := frames_alloc; ffree := frames_free }.

(** The single frames that are out. *)
Definition single (p : Z * nat) : bool := match p.2 with O => true | S _ => false end.
Definition singles (l : list (Z * nat)) : gset Z := list_to_set (filter (λ p, single p = true) l).*1.

Lemma elem_of_singles l x : x ∈ singles l ↔ (x, 0%nat) ∈ l.
Proof.
  unfold singles. rewrite elem_of_list_to_set, list_elem_of_fmap. split.
  - intros ([y n] & -> & [Hs Hin]%list_elem_of_filter). destruct n; [done|discriminate Hs].
  - intros Hin. exists (x, 0%nat). split; [done|]. by apply list_elem_of_filter.
Qed.

(** Inside a region, and in no larger block that is out. *)
Definition pooled (f : @system B) (x : Z) : Prop :=
  x mod 4096 = 0 ∧ inside (active (heap f)) x 0 ∧ ∀ y n, (y, S n) ∈ live f → apart x 0 y (S n).

(** The allocator's invariant, and that memory ends below 2^47. *)
Definition buddy_ok (f : @system B) : Prop :=
  (∃ L, sys_inv f L) ∧ Forall (λ r, r.2 ≤ 2 ^ 47) (active (heap f)).

Lemma apart_self x n : ¬ apart x n x n.
Proof. unfold apart. pose proof (size_pos n). lia. Qed.

Lemma taken_out l p : all_apart l → p ∈ l → l ≡ₚ p :: filter (λ q, q ≠ p) l.
Proof.
  destruct p as [pa k]. induction l as [|[x n] l IH]; [by intros _ ?%elem_of_nil|]. intros [Ha Hl] [Heq|Hin]%elem_of_cons.
  - injection Heq as -> <-. rewrite filter_cons_False by tauto. f_equiv. rewrite filter_all; [done|].
    apply Forall_forall. intros q Hq ->. apply Ha in Hq. by apply apart_self in Hq.
  - destruct (decide ((x, n) = (pa, k))) as [[= -> ->]|Hne]; [apply Ha in Hin; by apply apart_self in Hin|].
    rewrite filter_cons_True by done. rewrite Permutation_swap. f_equiv. by apply IH.
Qed.

#[export] Instance buddy_frames_laws : FramesLaws (@system B).
Proof.
  refine {| fok := buddy_ok; flive f := singles (live f); fpool := pooled |}.
  - intros [a l] [[L HL] Hend]. cbn [falloc buddy_frames heap live] in *. unfold frames_alloc. cbn [heap live]. change 0 with (Z.of_nat 0).
    destruct (alloc_ok a L 0 (si_inv _ _ HL) (si_bytes _ _ HL) ltac:(lia)) as [[_ ->]|(pa & a' & L' & -> & Hp)].
    + split; [split; [by exists L|done]|]. done.
    + destruct (alloc_inv a l L 0 pa a' L' HL ltac:(lia) Hp) as [HL' Hap]. pose proof Hp as [_ (Ha & Hin & _) _ _ Hact _ _].
      rewrite Hact in Hin. pose proof Hin as (r & Hr & R1 & R2). pose proof (proj1 (bi_regions _ _ (si_inv _ _ HL))) as Hwf.
      rewrite Forall_forall in Hwf, Hend. specialize (Hwf r Hr) as (_ & _ & Hwf & _). pose proof Hend as Hend0. specialize (Hend r Hr). cbn in Hend.
      change (size 0) with 4096 in *. split; [split; [by exists L'|cbn; rewrite Hact; apply Forall_forall; exact Hend0]|].
      split; [unfold frame_ok; lia|]. split; [|split; [|split]].
      * rewrite elem_of_singles. intros Hl. apply Hap in Hl. by apply apart_self in Hl.
      * apply set_eq. intros x. rewrite elem_of_union, elem_of_singleton, !elem_of_singles. cbn [live handed_out]. rewrite elem_of_cons.
        split; [intros [[= ->]|?]; auto|intros [->|?]; auto].
      * split; [done|]. split; [done|]. intros y n. apply Hap.
      * intros x. unfold pooled. cbn [heap live handed_out]. rewrite Hact. setoid_rewrite elem_of_cons.
        split; intros (? & ? & K); (split; [done|]); (split; [done|]); intros y n; [intros ?; apply K; by right|intros [[=]|?]; by apply K].
  - intros [a l] pa [[L HL] Hend] Hpa%elem_of_singles. cbn [ffree buddy_frames heap live] in *. unfold frames_free. cbn [heap live]. change 0 with (Z.of_nat 0).
    pose proof (taken_out l (pa, 0%nat) (si_apart _ _ HL) Hpa) as Hl. destruct (free_inv a l _ L pa 0 HL Hl) as (a' & L' & -> & Hp & HL').
    cbn [mbind outcome_bind]. pose proof (fr_active _ _ _ _ _ _ Hp) as Hact. eexists. split; [done|].
    split; [split; [by exists L'|cbn; by rewrite Hact]|]. split.
    + apply set_eq. intros x. rewrite elem_of_difference, elem_of_singleton, !elem_of_singles. cbn [live]. rewrite list_elem_of_filter.
      split; [intros [? ?]; split; [done|congruence]|intros [? ?]; split; [congruence|done]].
    + intros x. unfold pooled. cbn [heap live]. rewrite Hact. setoid_rewrite list_elem_of_filter.
      split; intros (? & ? & K); (split; [done|]); (split; [done|]); intros y n; [intros ?; by apply K|intros [_ ?]; by apply K].
Defined.
End BuddyFrames.
