(* ===== verification/VmExamples.v ===== *)
(** The theorems about address spaces at work: a small program loaded by the
    buddy allocator of [Buddy] and the mapper of [PagingProofs]; and what the
    loader does not look at. *)
From S2P Require Import Prelude Bits Mem Syscall Buddy BuddyProofs BuddySys Elf Paging PagingProofs PagingThms Vm VmProofs VmLoad VmThms VmSys VmFrames.
From Stdlib Require Import Strings.Byte.

(** 256 KiB of memory, the kernel's root outside it. *)
Definition pool0 : @system (gmap Z Z) :=
  mkSystem (match add_region (Buddy.new (∅ : gmap Z Z)) 0x100000 0x40000 with Ret a => a | Panic => Buddy.new ∅ end) [].
Definition boot0 : Sys (@system (gmap Z Z)) := mkSys (λ _, x00) pool0 0x2000 0x2000.
Definition HHDM : Z := 0xffff800000000000.

(** Two instructions, and a word of data that shares no page with them. *)
Definition small_text : Segment := mkSegment 0x400010 0x20 [x0f; x05] false true.
Definition small_data : Segment := mkSegment 0x401ffe 0x10 [x01; x02; x03] true false.
Definition small : list byte := write_elf 0x400010 [small_text; small_data].
(** The same, entered in the hole between the two halves of the address
    space. *)
Definition stray : list byte := write_elf 0x8000000000000000 [small_text].

Lemma hhdm_ok : 0 ≤ HHDM ∧ HHDM + 2 ^ 47 ≤ 2 ^ 64.
Proof. unfold HHDM. lia. Qed.

Lemma pool0_reachable : reachable pool0.
Proof.
  exists ∅, [ERegion 0x100000 0x40000]. eapply run_cons; [|constructor].
  apply step_region; [done|done|done|apply demo0_clear|apply empty_has_no_tags|by vm_compute].
Qed.

Lemma boot0_ready : ready boot0.
Proof.
  assert (active (heap pool0) = [(0x100000, 0x140000)]) as Ha by by vm_compute.
  assert (taken boot0 0x2000) as Ht.
  { right. intros (_ & (r & Hr & R1 & R2) & _). change (frames boot0) with pool0 in Hr. rewrite Ha in Hr.
    apply list_elem_of_singleton in Hr as ->. cbn in R1. lia. }
  split; [|split; [vm_compute; intuition congruence|done]|by split].
  split; [apply reachable_inv, pool0_reachable|]. change (frames boot0) with pool0. rewrite Ha. repeat constructor. cbn. lia.
Qed.

(** What [from_elf] does with a program, as a check that can be run. *)
Definition check_load (b : list byte) (P : Process → Sys (@system (gmap Z Z)) → bool) : bool :=
  match from_elf HHDM boot0 b with Ret (Ok p, s) => P p s | _ => false end.

Lemma check_load_true b P : check_load b P = true → ∃ p s, from_elf HHDM boot0 b = Ret (Ok p, s) ∧ P p s = true.
Proof. unfold check_load. destruct (from_elf HHDM boot0 b) as [[[p|x] s]|]; [|done..]. eauto. Qed.

Definition is_some {A} (o : option A) : bool := match o with Some _ => true | None => false end.

Lemma small_loads : ∃ p s, from_elf HHDM boot0 small = Ret (Ok p, s) ∧
  is_some (leaf (mem s) (root_pa (space p)) 0x400010) && negb (0x2000 =? root_pa (space p)) = true.
Proof. apply check_load_true. vm_compute. reflexivity. Qed.

Lemma small_short : Z.of_nat (length small) < 2 ^ 63.
Proof. vm_compute. reflexivity. Qed.

Lemma from_elf_loads_the_program_witness :
  ∃ p s, from_elf HHDM boot0 small = Ret (Ok p, s) ∧
    ∃ e segs, parse small = Ret (Ok e) ∧ segments e = Ret segs ∧ pentry p = Elf.entry e ∧
      ∀ va, user_addr va → user_view (mem s) (root_pa (space p)) va = program_view segs va.
Proof.
  destruct small_loads as (p & s & E & _). exists p, s. split; [exact E|].
  destruct (from_elf_loads_the_program HHDM hhdm_ok boot0 small boot0_ready small_short) as (r & s' & E' & Hr).
  rewrite E in E'. injection E' as <- <-. destruct Hr as (e & segs & ? & ? & ? & _ & _ & ?). exists e, segs. auto.
Defined.

Lemma loaded_program_is_confined_witness :
  ∃ p s e, from_elf HHDM boot0 small = Ret (Ok p, s) ∧ leaf (mem s) (root_pa (space p)) 0x400010 = Some e ∧
    entry_writable e && entry_executable e = false ∧ addr e ∈ Vm.owned (space p) ∧ ¬ taken boot0 (addr e).
Proof.
  destruct small_loads as (p & s & E & [Hl _]%andb_true_iff). destruct (leaf (mem s) (root_pa (space p)) 0x400010) as [e|] eqn:El; [|discriminate].
  exists p, s, e. split; [exact E|]. split; [exact El|].
  destruct (loaded_program_is_confined HHDM hhdm_ok boot0 small p s boot0_ready small_short E) as [H _].
  destruct (H 0x400010 e ltac:(unfold user_addr; lia) El) as (_ & _ & ? & ? & ? & _). auto.
Defined.

Lemma process_memory_is_returned_witness :
  ∃ p s s3, from_elf HHDM boot0 small = Ret (Ok p, s) ∧ drop_space s (space p) = Ret s3 ∧
    flive (frames s3) = (list_to_set (Vm.owned (space p)) ∪ flive (frames boot0)) ∖ list_to_set (Vm.owned (space p)).
Proof.
  destruct small_loads as (p & s & E & [_ Hne]%andb_true_iff). exists p, s.
  destruct (process_memory_is_returned HHDM hhdm_ok boot0 small boot0_ready small_short) as (r & s' & E' & _ & Hr).
  rewrite E in E'. injection E' as <- <-. destruct Hr as (_ & Hl & _ & Hd).
  destruct (from_elf_ok HHDM hhdm_ok boot0 small boot0_ready small_short) as (r & s' & E' & _ & Hr).
  rewrite E in E'. injection E' as <- <-. destruct Hr as (e & segs & A & _ & _ & _ & _ & [[T Hv] _ _ _ _]).
  specialize (Hd s (proj1 (vo_fok _ _ _ _ _ _ _ _ _ Hv))). rewrite Hl in Hd.
  pose proof (proj2 (vo_regs _ _ _ _ _ _ _ _ _ Hv)) as Hc. cbn [fst cr3 boot0] in Hc.
  rewrite decide_False in Hd; [|rewrite Hc; intros Heq; rewrite <- Heq in Hne; discriminate].
  destruct Hd as (s3 & D1 & D2 & _); [intros f Hf; by apply live_owned|]. exists s3. auto.
Defined.

Lemma prune_frees_only_dead_tables_witness :
  ∃ p s r m' ev, from_elf HHDM boot0 small = Ret (Ok p, s) ∧ is_Some (leaf (mem s) (root_pa (space p)) 0x400000) ∧
    unmap_and_prune (mem s) (root_pa (space p)) 0x400000 = Ret (Ok r, m', ev).
Proof.
  destruct small_loads as (p & s & E & [Hl _]%andb_true_iff). exists p, s.
  destruct (from_elf_ok HHDM hhdm_ok boot0 small boot0_ready small_short) as (r & s' & E' & _ & Hr).
  rewrite E in E'. injection E' as <- <-. destruct Hr as (e & segs & A & _ & _ & _ & _ & [[T Hv] _ _ _ _]).
  rewrite <- leaf_page_of in Hl. change (page_of 0x400010) with 0x400000 in Hl.
  destruct (prune_frees_only_dead_tables T (mem s) (root_pa (space p)) 0x400000 (vo_tables _ _ _ _ _ _ _ _ _ Hv)) as (r & m' & ev & E1 & Hr).
  { split; [unfold user_addr; lia|reflexivity]. }
  destruct (leaf (mem s) (root_pa (space p)) 0x400000) as [e0|]; [|discriminate]. destruct r as [r|x]; [|by destruct Hr as (_ & ? & _)].
  exists r, m', ev. split; [exact E|]. split; [by eexists|exact E1].
Defined.

(** A process that stores to its stack and is killed, beside a file that is
    no program. *)
Definition short_life : list Happening :=
  [Load 0 small; Activate 0; Load 1 ELF_MAGIC; Store 0 0x7ffefffffff8 x2a; ActivateKernel; Kill 0].

Definition allowedb (w : Sys (@system (gmap Z Z)) * gmap nat Process) (h : Happening) : bool :=
  match h with
  | Load _ b => Z.of_nat (length b) <? 2 ^ 63
  | Kill i => match w.2 !! i with Some p => negb (cr3 w.1 =? root_pa (space p)) | None => true end
  | Store _ va _ => (0 <=? va) && (va <? 2 ^ 47)
  | _ => true
  end.
Fixpoint all_allowedb (w : Sys (@system (gmap Z Z)) * gmap nat Process) (l : list Happening) : bool :=
  match l with
  | [] => true
  | h :: l' => allowedb w h && match happen HHDM w h with Ret w' => all_allowedb w' l' | Panic => true end
  end.

Lemma all_allowedb_ok l : ∀ w, all_allowedb w l = true → all_allowed HHDM w l.
Proof.
  induction l as [|h l IH]; intros w; [done|]. cbn [all_allowedb all_allowed]. intros [Ha Hl]%andb_true_iff. split.
  - destruct h as [i b|i|i| |i va v]; cbn [allowedb allowed] in *; try done.
    + by apply Z.ltb_lt.
    + intros p Hp. rewrite Hp in Ha. by apply negb_true_iff, Z.eqb_neq in Ha.
    + apply andb_true_iff in Ha as [?%Z.leb_le ?%Z.ltb_lt]. done.
  - intros w' Hw. rewrite Hw in Hl. by apply IH.
Qed.

Lemma short_life_allowed : all_allowed HHDM (boot0, ∅) short_life.
Proof. apply all_allowedb_ok. vm_compute. reflexivity. Qed.

Lemma processes_have_private_memories_witness :
  ∃ s ps V, happens HHDM (boot0, ∅) short_life = Ret (s, ps) ∧ specs ∅ short_life V ∧ dom V = dom ps.
Proof.
  destruct (processes_have_private_memories HHDM hhdm_ok boot0 short_life boot0_ready short_life_allowed) as (s & ps & V & ? & ? & ? & _).
  exists s, ps, V. auto.
Defined.

(** The loader does not look at the entry point. A program whose entry
    is in neither half of the address space is loaded like any other, and
    [enter_user] will be asked to [iretq] to it. *)
Theorem entry_point_is_not_checked :
  ∃ p s, from_elf HHDM boot0 stray = Ret (Ok p, s) ∧ pentry p = 0x8000000000000000 ∧ virt_addr (pentry p) = Panic.
Proof.
  destruct (check_load_true stray (λ p _, pentry p =? 0x8000000000000000)) as (p & s & E & Hp%Z.eqb_eq); [vm_compute; reflexivity|].
  exists p, s. split; [exact E|]. split; [exact Hp|]. rewrite Hp. reflexivity.
Qed.
