(* ===== verification/Pci.v ===== *)
(** PCI configuration space: [crates/qunix-hal-x86_64/src/pci.rs].

    The parts over a snapshot are functions on its 256 bytes, as in the
    source.  Port and register accesses go to a [Device], which answers them
    as it likes and may change as it does; every access is logged in the order
    it is made.  [rest] is whatever else the caller works on. *)
From S2P Require Import Prelude Bits.
From Stdlib Require Import Strings.Byte.

(** ** The machine a driver sees *)

Inductive Access :=
  | Outl (port v : Z) | Inl (port v : Z)
  | MmioWrite (addr size v : Z) | MmioRead (addr size v : Z)
  | FreeFrames (pa : Z) (order : nat).
#[export] Instance Access_eq_dec : EqDecision Access.
Proof. solve_decision. Defined.

Class Device (D : Type) := {
  dev_in : D → Z → Z * D;
  dev_out : D → Z → Z → D;
  dev_read : D → Z → Z → Z * D;
  dev_write : D → Z → Z → Z → D
}.

Record Machine (D S : Type) := mkMachine { dev : D; rest : S; log : list Access }.
Arguments mkMachine {D S}. Arguments dev {D S}. Arguments rest {D S}. Arguments log {D S}.

Definition IO (D S A : Type) : Type := Machine D S → outcome (A * Machine D S).
Definition io_ret {D S A} (a : A) : IO D S A := λ m, Ret (a, m).
Definition io_bind {D S A B} (x : IO D S A) (f : A → IO D S B) : IO D S B := λ m, '(a, m) ← x m; f a m.
(** A pure step that may panic. *)
Definition io_lift {D S A} (o : outcome A) : IO D S A := λ m, a ← o; Ret (a, m).
(** [?] on a [Result]. *)
Definition io_try {D S A B E} (x : IO D S (result A E)) (f : A → IO D S (result B E)) : IO D S (result B E) :=
  io_bind x (λ r, match r with Ok a => f a | Err e => io_ret (Err e) end).
Notation "'do!' x := a 'in' b" := (io_bind a (λ x, b)) (at level 10, x pattern, b at level 200) : qunix_scope.
Notation "'try!' x := a 'in' b" := (io_try a (λ x, b)) (at level 10, x pattern, b at level 200) : qunix_scope.

Section Ports.
Context {D S : Type} `{Device D}.

(** [port::outl], [port::inl], and the volatile accesses to registers, which
    must be aligned: one that is not panics in a debug build and has no
    defined outcome in any other. *)
Definition outl (port v : Z) : IO D S unit := λ m,
  Ret (tt, mkMachine (dev_out (dev m) port v) (rest m) (log m ++ [Outl port v])).
Definition inl_ (port : Z) : IO D S Z := λ m,
  let '(v, d) := dev_in (dev m) port in
  let v := v mod 2 ^ 32 in
  Ret (v, mkMachine d (rest m) (log m ++ [Inl port v])).
Definition mmio_write (addr size v : Z) : IO D S unit := λ m,
  _ ← rust_assert (addr mod size =? 0);
  Ret (tt, mkMachine (dev_write (dev m) addr size v) (rest m) (log m ++ [MmioWrite addr size v])).
Definition mmio_read (addr size : Z) : IO D S Z := λ m,
  _ ← rust_assert (addr mod size =? 0);
  let '(v, d) := dev_read (dev m) addr size in
  let v := v mod 2 ^ (8 * size) in
  Ret (v, mkMachine d (rest m) (log m ++ [MmioRead addr size v])).

(** ** Addresses *)

Definition CONFIG_ADDRESS : Z := 0xcf8.
Definition CONFIG_DATA : Z := 0xcfc.

Record Bdf := mkBdf { bus : Z; device : Z; function : Z }.

Definition bdf_new (b d f : Z) : option Bdf :=
  if (31 <? d) || (7 <? f) then None else Some (mkBdf b d f).

Definition config_address (bdf : Bdf) (offset : Z) : Z :=
  Z.lor (Z.lor (Z.lor (Z.lor (Z.shiftl 1 31) (Z.shiftl (bus bdf) 16)) (Z.shiftl (device bdf) 11))
    (Z.shiftl (function bdf) 8)) (Z.land offset 0xfc).

Definition config_read32 (bdf : Bdf) (offset : Z) : IO D S Z :=
  do! _ := outl CONFIG_ADDRESS (config_address bdf offset) in inl_ CONFIG_DATA.
Definition config_write32 (bdf : Bdf) (offset v : Z) : IO D S unit :=
  do! _ := outl CONFIG_ADDRESS (config_address bdf offset) in outl CONFIG_DATA v.

(** [config_snapshot]: the dwords from [dword] on. *)
Fixpoint snapshot_from (n : nat) (bdf : Bdf) (dword : Z) : IO D S (list byte) :=
  match n with
  | O => io_ret []
  | Datatypes.S n' =>
      do! value := config_read32 bdf (dword * 4) in
      do! tail := snapshot_from n' bdf (dword + 1) in
      io_ret (to_le_bytes 4 value ++ tail)
  end.
Definition config_snapshot (bdf : Bdf) : IO D S (list byte) := snapshot_from 64 bdf 0.

(** ** Scanning the bus *)

Definition NO_VENDOR : Z := 0xffff.

(** What one slot or the scan answers: the device, [None] if it is not
    there.  [Bdf::new] cannot fail on these numbers; the source returns
    [None] if it does. *)
Inductive Scan := Found (b : Bdf) | Refused | Absent.

Fixpoint scan_functions (vendor dev_id : Z) (read_id : Bdf → IO D S Z) (slot : Z) (fs : list Z) : IO D S Scan :=
  match fs with
  | [] => io_ret Absent
  | f :: fs' =>
      match bdf_new 0 slot f with
      | None => io_ret Refused
      | Some bdf =>
          do! id := read_id bdf in
          let got_vendor := Z.land id 0xffff in
          let got_device := Z.shiftr id 16 in
          if got_vendor =? NO_VENDOR then
            if f =? 0 then io_ret Absent else scan_functions vendor dev_id read_id slot fs'
          else if (got_vendor =? vendor) && (got_device =? dev_id) then io_ret (Found bdf)
          else scan_functions vendor dev_id read_id slot fs'
      end
  end.

Fixpoint scan_slots (vendor dev_id : Z) (read_id : Bdf → IO D S Z) (slots : list Z) : IO D S (option Bdf) :=
  match slots with
  | [] => io_ret None
  | slot :: slots' =>
      do! r := scan_functions vendor dev_id read_id slot (Z.of_nat <$> seq 0 8) in
      match r with
      | Found b => io_ret (Some b)
      | Refused => io_ret None
      | Absent => scan_slots vendor dev_id read_id slots'
      end
  end.
Definition scan_for (vendor dev_id : Z) (read_id : Bdf → IO D S Z) : IO D S (option Bdf) :=
  scan_slots vendor dev_id read_id (Z.of_nat <$> seq 0 32).
Definition find_device (vendor dev_id : Z) : IO D S (option Bdf) :=
  scan_for vendor dev_id (λ bdf, config_read32 bdf 0).
End Ports.

(** ** The capability list *)

Inductive CapError := Unaligned (o : Z) | OutOfRange (o : Z) | Cycle.
Record Capability := mkCap { cid : Z; coffset : Z }.

#[export] Instance CapError_eq_dec : EqDecision CapError.
Proof. solve_decision. Defined.
#[export] Instance Capability_eq_dec : EqDecision Capability.
Proof. solve_decision. Defined.

Definition COMMAND_REGISTER : Z := 0x04.
Definition COMMAND_MEMORY_SPACE : Z := Z.shiftl 1 1.
Definition COMMAND_BUS_MASTER : Z := Z.shiftl 1 2.
Definition MSIX_CONTROL_ENABLE : Z := Z.shiftl 1 15.
Definition MSIX_CONTROL_FUNCTION_MASK : Z := Z.shiftl 1 14.
Definition CAP_POINTER : Z := 0x34.

(** [cfg[i]] of a byte array. *)
Definition byte_at (cfg : list byte) (i : Z) : outcome Z := b ← index cfg i; Ret (b2z b).

Fixpoint walk_from (n : nat) (cfg : list byte) (caps : list Capability) (offset : Z) : outcome (result (list Capability) CapError) :=
  match n with
  | O => Ret (Err Cycle)
  | S n' =>
      if offset =? 0 then Ret (Ok caps)
      else if negb (Z.land offset 3 =? 0) then Ret (Err (Unaligned offset))
      else id ← byte_at cfg offset;
           next ← byte_at cfg (offset + 1);
           walk_from n' cfg (caps ++ [mkCap id offset]) next
  end.

Definition walk_capabilities (cfg : list byte) : outcome (result (list Capability) CapError) :=
  offset ← byte_at cfg CAP_POINTER; walk_from 64 cfg [] offset.

Definition capability_body (cfg : list byte) (cap : Capability) (len : Z) : outcome (result (list byte) CapError) :=
  let stop := coffset cap + len in
  if Z.of_nat (length cfg) <? stop then Ret (Err (OutOfRange (coffset cap)))
  else b ← slice cfg (coffset cap) stop; Ret (Ok b).

(** ** MSI-X *)

Definition CAP_ID_MSIX : Z := 0x11.
Inductive MsixError := NoSuchEntry (e : Z).

Definition msix_message_address (lapic_base apic_id : Z) : Z := Z.lor lapic_base (Z.shiftl apic_id 12).
Definition msix_message_data (vector : Z) : Z := vector.

Record MsixTable := mkMsixTable { tbase : Z; tentries : Z }.
Definition MSIX_ENTRY_BYTES : Z := 16.

(** [MsixTable::program]. *)
Definition program {D S} `{Device D} (t : MsixTable) (entry address data : Z) : IO D S (result unit MsixError) :=
  if tentries t <=? entry then io_ret (Err (NoSuchEntry entry)) else
  do! off := io_lift (mul_chk 64 entry MSIX_ENTRY_BYTES) in
  do! at_ := io_lift (add_chk 64 (tbase t) off) in
  do! ctl := io_lift (add_chk 64 at_ 12) in
  do! _ := mmio_write ctl 4 1 in
  do! _ := mmio_write at_ 4 (address mod 2 ^ 32) in
  do! hi := io_lift (add_chk 64 at_ 4) in
  do! _ := mmio_write hi 4 (Z.shiftr address 32 mod 2 ^ 32) in
  do! dat := io_lift (add_chk 64 at_ 8) in
  do! _ := mmio_write dat 4 data in
  do! _ := mmio_write ctl 4 0 in
  io_ret (Ok tt).

Record MsixCapability := mkMsix { entries : Z; mbar : Z; moffset : Z; control_offset : Z }.

Definition le_at (l : list byte) (i n : Z) : outcome Z := b ← slice l i (i + n); Ret (from_le_bytes b).

Definition parse_msix (cfg : list byte) (cap : Capability) : outcome (option MsixCapability) :=
  r ← capability_body cfg cap 12;
  match r with
  | Err _ => Ret None
  | Ok body =>
      control ← le_at body 2 2;
      entries ← add_chk 16 (Z.land control 0x7ff) 1;
      table ← le_at body 4 4;
      control_offset ← add_chk 8 (coffset cap) 2;
      Ret (Some (mkMsix entries (Z.land table 7) (Z.land table (bitnot 32 7)) control_offset))
  end.
