(* ===== verification/PciProofs.v ===== *)
(** Theorems about PCI configuration space ([Pci]): addresses, the bus scan,
    the capability list and the MSI-X table. *)
From S2P Require Import Prelude Bits Pci.
From Stdlib Require Import Strings.Byte.

(** ** Sequences of accesses *)

Section Io.
Context {D S : Type}.

Lemma io_bind_ret {A B} (x : IO D S A) (f : A → IO D S B) m a m' : x m = Ret (a, m') → io_bind x f m = f a m'.
Proof. intros E. unfold io_bind. by rewrite E. Qed.

Lemma io_bind_inv {A B} (x : IO D S A) (f : A → IO D S B) m b m' :
  io_bind x f m = Ret (b, m') → ∃ a m1, x m = Ret (a, m1) ∧ f a m1 = Ret (b, m').
Proof. unfold io_bind. destruct (x m) as [[a m1]|]; [|done]. cbn. eauto. Qed.

Lemma io_try_inv {A B E} (x : IO D S (result A E)) (f : A → IO D S (result B E)) m r m' :
  io_try x f m = Ret (r, m') →
  (∃ e, x m = Ret (Err e, m') ∧ r = Err e) ∨ ∃ a m1, x m = Ret (Ok a, m1) ∧ f a m1 = Ret (r, m').
Proof.
  unfold io_try. intros (r0 & m1 & E1 & E2)%io_bind_inv. destruct r0 as [a|e]; [right; eauto|left]. injection E2 as <- <-. eauto.
Qed.
End Io.

(** ** The capability list

    [chain] is the list as the device wrote it: where the pointer leads, then
    where each capability's second byte leads. *)
Section Walk.
Context (cfg : list byte) (Hcfg : length cfg = 256%nat).

Definition cfg_byte (i : Z) : Z := default 0 (b2z <$> cfg !! Z.to_nat i).
Fixpoint chain (n : nat) : Z :=
  match n with O => cfg_byte CAP_POINTER | S n' => cfg_byte (chain n' + 1) end.
Definition legal (o : Z) : Prop := o ≠ 0 ∧ Z.land o 3 = 0.
Definition cap_at (n : nat) : Capability := mkCap (cfg_byte (chain n)) (chain n).

#[local] Instance legal_dec o : Decision (legal o) := _.

Lemma byte_at_ok i : 0 ≤ i < 256 → byte_at cfg i = Ret (cfg_byte i).
Proof.
  intros Hi. destruct (index_in_range cfg i ltac:(lia)) as (x & E & Ex). unfold byte_at, cfg_byte. by rewrite E, Ex.
Qed.

Lemma cfg_byte_range i : 0 ≤ cfg_byte i < 256.
Proof. unfold cfg_byte. destruct (cfg !! Z.to_nat i) as [b|]; cbn; [apply b2z_range|lia]. Qed.

Lemma chain_range n : 0 ≤ chain n < 256.
Proof. destruct n; apply cfg_byte_range. Qed.

Lemma legal_offset n : legal (chain n) → ∃ i, (1 ≤ i ≤ 63)%nat ∧ chain n = 4 * Z.of_nat i.
Proof.
  intros [Hn Hm]. pose proof (chain_range n). change 3 with (Z.ones 2) in Hm. rewrite Z.land_ones in Hm by lia.
  change (2 ^ 2) with 4 in Hm. pose proof (Z.div_mod (chain n) 4 ltac:(lia)). exists (Z.to_nat (chain n / 4)). lia.
Qed.

Lemma chain_repeats i j t : chain i = chain j → chain (i + t) = chain (j + t).
Proof. intros E. induction t as [|t IH]; [by rewrite !Nat.add_0_r|]. rewrite !Nat.add_succ_r. cbn [chain]. by rewrite IH. Qed.

(** A repetition takes any later step back to an earlier one. *)
Lemma chain_earlier i j n : (i < j)%nat → chain i = chain j → (j ≤ n)%nat → chain n = chain (n - (j - i)).
Proof.
  intros Hij E Hn. pose proof (chain_repeats i j (n - j) E) as R. replace (j + (n - j))%nat with n in R by lia.
  rewrite <- R. f_equal. lia.
Qed.

Lemma chain_distinct k : (∀ i, (i < k)%nat → legal (chain i)) → ¬ legal (chain k) → NoDup (chain <$> seq 0 k).
Proof.
  intros Hleg Hk. assert (∀ i j, (i < j)%nat → (j < k)%nat → chain i = chain j → False) as Hno.
  { intros i j Hij Hj E. apply Hk. rewrite (chain_earlier i j k) by (done || lia). apply Hleg. lia. }
  apply NoDup_alt. intros i j x Hi Hj. rewrite list_lookup_fmap in Hi, Hj.
  destruct (seq 0 k !! i) as [a|] eqn:Ei; [|done]. destruct (seq 0 k !! j) as [b|] eqn:Ej; [|done].
  apply lookup_seq in Ei as [-> Hi'], Ej as [-> Hj']. injection Hi as <-. injection Hj as E. cbn in E.
  destruct (Nat.lt_trichotomy i j) as [Hlt|[Heq|Hlt]]; [|done|].
  - exfalso. by eapply (Hno i j).
  - exfalso. by eapply (Hno j i).
Qed.

(** Sixty-four steps and no end: there is none. *)
Lemma chain_endless : (∀ i, (i < 64)%nat → legal (chain i)) → ∀ n, legal (chain n).
Proof.
  intros H64 n. induction n as [n IH] using (well_founded_induction lt_wf).
  destruct (decide (legal (chain n))) as [|Hn]; [done|exfalso].
  assert (64 ≤ n)%nat as Hge by (destruct (Nat.lt_ge_cases n 64); [by destruct Hn; apply H64|done]).
  pose proof (chain_distinct n IH Hn) as Hnd.
  assert (chain <$> seq 0 n ⊆+ (λ i, 4 * Z.of_nat i) <$> seq 1 63) as Hsub.
  { apply NoDup_submseteq; [done|]. intros x (i & -> & Hi%elem_of_seq)%list_elem_of_fmap.
    destruct (legal_offset i (IH i ltac:(lia))) as (j & Hj & ->). apply list_elem_of_fmap. exists j. split; [done|].
    apply elem_of_seq. lia. }
  apply submseteq_length in Hsub. rewrite !length_fmap, !length_seq in Hsub. lia.
Qed.

Lemma walk_from_spec n : ∀ k caps, (k + n = 64)%nat → (∀ i, (i < k)%nat → legal (chain i)) → caps = cap_at <$> seq 0 k →
  ∃ r, walk_from n cfg caps (chain k) = Ret r ∧
    match r with
    | Ok l => ∃ k', (k' ≤ 63)%nat ∧ chain k' = 0 ∧ (∀ i, (i < k')%nat → legal (chain i)) ∧ l = cap_at <$> seq 0 k'
    | Err (Unaligned o) => ∃ k', (k' ≤ 63)%nat ∧ chain k' = o ∧ o ≠ 0 ∧ Z.land o 3 ≠ 0 ∧ ∀ i, (i < k')%nat → legal (chain i)
    | Err Cycle => ∀ i, (i < 64)%nat → legal (chain i)
    | Err (OutOfRange _) => False
    end.
Proof.
  induction n as [|n IH]; intros k caps Hk Hleg Hcaps; cbn [walk_from].
  - exists (Err Cycle). split; [done|]. intros i Hi. apply Hleg. lia.
  - destruct (Z.eqb_spec (chain k) 0) as [H0|H0]; [eexists; split; [done|]; exists k; split; [lia|done]|].
    destruct (Z.eqb_spec (Z.land (chain k) 3) 0) as [Ha|Ha]; cbn [negb].
    + pose proof (chain_range k) as Hr. destruct (legal_offset k (conj H0 Ha)) as (i & Hi & Ei).
      rewrite !byte_at_ok by lia. cbn [mbind outcome_bind]. apply (IH (S k)); [lia| |].
      * intros j Hj. destruct (Nat.eq_dec j k) as [->|]; [by split|]. apply Hleg. lia.
      * subst caps. by rewrite seq_S, fmap_app.
    + eexists. split; [done|]. exists k. split; [lia|done].
Qed.
End Walk.

(** The capability walk is exact. On any configuration space it
    returns. It succeeds just when the device's list ends, with every offset
    on it nonzero and aligned, and then returns the whole list in order,
    with no capability twice; it refuses an unaligned offset just when the
    list leads to one; and it reports a cycle only for a list that never
    ends, however far it is followed. *)
Theorem walk_capabilities_is_exact cfg :
  length cfg = 256%nat →
  ∃ r, walk_capabilities cfg = Ret r ∧
    match r with
    | Ok caps => ∃ k, (k ≤ 63)%nat ∧ chain cfg k = 0 ∧ (∀ i, (i < k)%nat → legal (chain cfg i)) ∧
        caps = cap_at cfg <$> seq 0 k ∧ NoDup (coffset <$> caps)
    | Err (Unaligned o) => ∃ k, chain cfg k = o ∧ o ≠ 0 ∧ Z.land o 3 ≠ 0 ∧ ∀ i, (i < k)%nat → legal (chain cfg i)
    | Err Cycle => ∀ n, legal (chain cfg n)
    | Err (OutOfRange _) => False
    end.
Proof.
  intros Hcfg. unfold walk_capabilities. rewrite (byte_at_ok cfg Hcfg) by (unfold CAP_POINTER; lia). cbn [mbind outcome_bind].
  destruct (walk_from_spec cfg Hcfg 64 0 [] eq_refl ltac:(lia) eq_refl) as (r & E & Hr). cbn [chain] in E. rewrite E.
  exists r. split; [done|]. destruct r as [l|[o|o|]].
  - destruct Hr as (k & Hk & H0 & Hleg & ->). exists k. do 4 (split; [done|]). rewrite <- list_fmap_compose.
    apply (chain_distinct cfg Hcfg k Hleg). intros [? _]. done.
  - destruct Hr as (k & _ & ? & ? & ? & ?). by exists k.
  - done.
  - by apply chain_endless.
Qed.

(** Two capabilities, the second the last. *)
Definition two_caps : list byte :=
  <[0x34%nat := x40]> (<[0x40%nat := x09]> (<[0x41%nat := x50]> (<[0x50%nat := x11]> (replicate 256 x00)))).

Lemma walk_capabilities_is_exact_witness :
  ∃ r, walk_capabilities two_caps = Ret r ∧ r = Ok [mkCap 9 0x40; mkCap 0x11 0x50].
Proof.
  destruct (walk_capabilities_is_exact two_caps eq_refl) as (r & E & _). exists r. split; [exact E|].
  vm_compute in E. by injection E as <-.
Defined.
