(* ===== verification/Transport.v ===== *)
(** The virtio PCI transport: [kernel/src/virtio.rs], with [map_device_page]
    of [kernel/src/vmspace.rs].

    Everything the device answers, in configuration space and in its
    registers, is whatever [Device] says; addresses and lengths it supplies
    are not trusted beyond the checks in the code.  Memory, the frame
    allocator and CR3 are the [Sys] of [Vm]; [take_frame] is
    [frames::alloc(0)] as the mapper calls it. *)
From S2P Require Import Prelude Bits Mem Virtio Paging Vm Pci.
From Stdlib Require Import Strings.Byte.

Definition VIRTIO_VENDOR : Z := 0x1af4.
Definition VIRTIO_BLK_MODERN : Z := 0x1042.
Definition VIRTIO_BLK_TRANSITIONAL : Z := 0x1001.
Definition CAP_ID_VENDOR : Z := 0x09.
Definition CFG_COMMON : Z := 1.
Definition CFG_NOTIFY : Z := 2.
Definition CFG_ISR : Z := 3.
Definition CFG_DEVICE : Z := 4.
Definition RESET_SPIN_LIMIT : Z := 1000000.
Definition MAX_WINDOW_BYTES : Z := 64 * 1024.
Definition VIRTIO_CAP_BYTES : Z := 16.

Definition STATUS_ACKNOWLEDGE : Z := 1.
Definition STATUS_DRIVER : Z := 2.
Definition STATUS_DRIVER_OK : Z := 4.
Definition STATUS_FEATURES_OK : Z := 8.
Definition STATUS_FAILED : Z := 128.
Definition VIRTIO_F_VERSION_1 : Z := Z.shiftl 1 32.

(** [mod common]. *)
Definition DEVICE_FEATURE_SELECT : Z := 0.
Definition DEVICE_FEATURE : Z := 4.
Definition DRIVER_FEATURE_SELECT : Z := 8.
Definition DRIVER_FEATURE : Z := 12.
Definition NUM_QUEUES : Z := 18.
Definition DEVICE_STATUS : Z := 20.
Definition QUEUE_SELECT : Z := 22.
Definition QUEUE_SIZE_REG : Z := 24.
Definition QUEUE_MSIX_VECTOR : Z := 26.
Definition QUEUE_ENABLE : Z := 28.
Definition QUEUE_NOTIFY_OFF : Z := 30.
Definition QUEUE_DESC : Z := 32.
Definition QUEUE_DRIVER : Z := 40.
Definition QUEUE_DEVICE : Z := 48.

Inductive ProbeError :=
  | NotFound | LegacyOnly | Capabilities (e : CapError) | MissingStructure (t : Z) | BadBar (b : Z) | NoVersion1
  | BadNotifyOffset (o : Z) | WindowTooLarge (l : Z) | MapFailed (pa : Z) | ResetTimeout | QueueTooSmall (n : Z)
  | FeaturesRejected | DeviceFailed.

Record Window := mkWindow { base : Z; len : Z }.

(** [Window::in_bounds]. *)
Definition in_bounds (w : Window) (offset size : Z) : bool :=
  match checked_add 64 offset size with Some stop => stop <=? len w | None => false end.

Record Transport := mkTransport
  { bdf : Bdf; common : Window; notify : Window; notify_multiplier : Z; isr : Window; devcfg : Window;
    queue_notify_off : Z }.

(** ** Decoding *)

Definition PCI_BAR0 : Z := 0x10.
Definition PCI_BAR_ADDR_MASK : Z := 0xfffffff0.

Definition decode_bar (low high index : Z) : option Z :=
  if negb (Z.land low 1 =? 0) then None else
  let kind := Z.land (Z.shiftr low 1) 3 in
  let b := Z.land low PCI_BAR_ADDR_MASK in
  if kind =? 0 then Some b
  else if (kind =? 2) && (index <? 5) then Some (Z.lor b (Z.shiftl high 32))
  else None.

Definition decode_bar_size (probe_low : Z) : Z :=
  let masked := Z.land probe_low PCI_BAR_ADDR_MASK in
  if masked =? 0 then 0 else Z.land (bitnot 32 masked + 1) 0xffffffff.

Record VirtioCap := mkVirtioCap { cfg_type : Z; vbar : Z; voffset : Z; vlength : Z; vmultiplier : Z }.

Definition parse_virtio_cap (cfg : list byte) (cap : Capability) : outcome (option VirtioCap) :=
  r ← capability_body cfg cap VIRTIO_CAP_BYTES;
  match r with
  | Err _ => Ret None
  | Ok body =>
      cap_len ← byte_at body 2;
      if cap_len <? VIRTIO_CAP_BYTES then Ret None else
      cfg_type ← byte_at body 3;
      bar ← byte_at body 4;
      offset ← le_at body 8 4;
      length ← le_at body 12 4;
      r ← capability_body cfg cap (VIRTIO_CAP_BYTES + 4);
      multiplier ← match r with Ok b => le_at b 16 4 | Err _ => Ret 0 end;
      Ret (Some (mkVirtioCap cfg_type bar offset length multiplier))
  end.

Section Driver.
Context {D F : Type} `{Device D} `{Mapper} (take_frame : F → option Z * F) (hhdm : Z).
#[local] Abbreviation io := (IO D (Sys F)).

(** [Window::read], [Window::write]. *)
Definition wread (w : Window) (offset size : Z) : io Z :=
  do! _ := io_lift (rust_assert (in_bounds w offset size)) in
  do! a := io_lift (add_chk 64 (base w) offset) in
  mmio_read a size.
Definition wwrite (w : Window) (offset size v : Z) : io unit :=
  do! _ := io_lift (rust_assert (in_bounds w offset size)) in
  do! a := io_lift (add_chk 64 (base w) offset) in
  mmio_write a size v.

(** ** Mapping *)

(** [vmspace::map_device_page], on the active root. *)
Definition map_device_page (s : Sys F) (va phys : Z) : outcome (result unit MapError * Sys F) :=
  o ← translate (mem s) (cr3 s) va;
  '(r, s) ← (if (match o with Some _ => true | None => false end : bool)
             then '(r, m, _) ← unmap (mem s) (cr3 s) va;
                  Ret (match r with Ok _ => Ok tt | Err e => Err e end, with_mem s m)
             else Ret (Ok tt, s));
  match r with
  | Err e => Ret (Err e, s)
  | Ok _ =>
      '(r, m, f) ← map take_frame (frames s) (mem s) (cr3 s) va phys
                     (Z.lor (Z.lor (Z.lor PRESENT WRITABLE) NO_CACHE) NO_EXECUTE);
      Ret (r, mkSys m f (kernel_root s) (cr3 s))
  end.

(** The loop of [map_window]. *)
Fixpoint map_window_from (n : nat) (page last : Z) : io bool :=
  if last <? page then io_ret true else
  match n with
  | O => λ _, Panic
  | Datatypes.S n' =>
      do! va := io_lift (add_chk 64 hhdm page) in
      do! r := (λ m, '(r, s) ← map_device_page (rest m) va page; Ret (r, mkMachine (dev m) s (log m))) in
      match r with
      | Err _ => io_ret false
      | Ok _ => do! page := io_lift (add_chk 64 page 4096) in map_window_from n' page last
      end
  end.

(** [map_window]. *)
Definition map_window (phys len : Z) : io (option Window) :=
  if len =? 0 then io_ret None else
  let first := Z.land phys (bitnot 64 0xfff) in
  do! stop := io_lift (add_chk 64 phys len) in
  let last := Z.land (stop - 1) (bitnot 64 0xfff) in
  do! ok := map_window_from (Z.to_nat ((last - first) / 4096 + 1)) first last in
  if (ok : bool) then do! b := io_lift (add_chk 64 hhdm phys) in io_ret (Some (mkWindow b len)) else io_ret None.

(** ** Registers of a transport *)

Definition status (t : Transport) : io Z := wread (common t) DEVICE_STATUS 1.
Definition set_status (t : Transport) (bits : Z) : io unit :=
  do! now := status t in wwrite (common t) DEVICE_STATUS 1 (Z.lor now bits).

(** [device_features]: both halves. *)
Definition device_features (t : Transport) : io Z :=
  do! _ := wwrite (common t) DEVICE_FEATURE_SELECT 4 0 in
  do! lo := wread (common t) DEVICE_FEATURE 4 in
  do! _ := wwrite (common t) DEVICE_FEATURE_SELECT 4 1 in
  do! hi := wread (common t) DEVICE_FEATURE 4 in
  io_ret (Z.lor lo (Z.shiftl hi 32)).

(** [Transport::negotiate]. *)
Definition negotiate (t : Transport) (wanted : Z) : io (result Z ProbeError) :=
  do! offered := device_features t in
  let agreed := Z.land offered wanted in
  if Z.land agreed VIRTIO_F_VERSION_1 =? 0 then io_ret (Err NoVersion1) else
  do! _ := wwrite (common t) DRIVER_FEATURE_SELECT 4 0 in
  do! _ := wwrite (common t) DRIVER_FEATURE 4 (agreed mod 2 ^ 32) in
  do! _ := wwrite (common t) DRIVER_FEATURE_SELECT 4 1 in
  do! _ := wwrite (common t) DRIVER_FEATURE 4 (Z.shiftr agreed 32 mod 2 ^ 32) in
  do! _ := set_status t STATUS_FEATURES_OK in
  do! s := status t in
  if Z.land s STATUS_FEATURES_OK =? 0 then io_ret (Err FeaturesRejected) else
  do! s := status t in
  if negb (Z.land s STATUS_FAILED =? 0) then io_ret (Err DeviceFailed) else
  io_ret (Ok agreed).

(** [Transport::device_queue_size]. *)
Definition device_queue_size (t : Transport) : io Z :=
  do! _ := wwrite (common t) QUEUE_SELECT 2 0 in wread (common t) QUEUE_SIZE_REG 2.

(** The bound on the notify offset. *)
Definition notify_fits (t : Transport) (notify_off : Z) : bool :=
  match checked_mul 64 notify_off (notify_multiplier t) ≫= λ o, checked_add 64 o 2 with
  | Some stop => stop <=? len (notify t)
  | None => false
  end.

Definition with_notify_off (t : Transport) (o : Z) : Transport :=
  mkTransport (bdf t) (common t) (notify t) (notify_multiplier t) (isr t) (devcfg t) o.

(** [Transport::configure_queue_sized]. *)
Definition configure_queue_sized (t : Transport) (size : Z) (layout : RingLayout) (ring_phys : Z)
    : io (result Transport ProbeError) :=
  do! device_size := device_queue_size t in
  if device_size <? size then io_ret (Err (QueueTooSmall device_size)) else
  do! _ := wwrite (common t) QUEUE_SIZE_REG 2 size in
  do! a := io_lift (add_chk 64 ring_phys (ldesc layout)) in
  do! _ := wwrite (common t) QUEUE_DESC 8 a in
  do! a := io_lift (add_chk 64 ring_phys (lavail layout)) in
  do! _ := wwrite (common t) QUEUE_DRIVER 8 a in
  do! a := io_lift (add_chk 64 ring_phys (lused layout)) in
  do! _ := wwrite (common t) QUEUE_DEVICE 8 a in
  do! notify_off := wread (common t) QUEUE_NOTIFY_OFF 2 in
  if notify_fits t notify_off then io_ret (Ok (with_notify_off t notify_off))
  else io_ret (Err (BadNotifyOffset notify_off)).
Definition configure_queue (t : Transport) (layout : RingLayout) (ring_phys : Z) : io (result Transport ProbeError) :=
  configure_queue_sized t QUEUE_SIZE layout ring_phys.

(** [enable_queue], [set_queue_msix_vector], [Transport::notify], [finish],
    [num_queues]. *)
Definition enable_queue (t : Transport) : io unit :=
  do! _ := wwrite (common t) QUEUE_SELECT 2 0 in wwrite (common t) QUEUE_ENABLE 2 1.
Definition set_queue_msix_vector (t : Transport) (entry : Z) : io unit :=
  do! _ := wwrite (common t) QUEUE_SELECT 2 0 in wwrite (common t) QUEUE_MSIX_VECTOR 2 entry.
Definition notify_queue (t : Transport) : io unit :=
  do! o := io_lift (mul_chk 64 (queue_notify_off t) (notify_multiplier t)) in
  wwrite (notify t) o 2 0.
Definition finish (t : Transport) : io (result unit ProbeError) :=
  do! _ := set_status t STATUS_DRIVER_OK in
  do! s := status t in
  io_ret (if negb (Z.land s STATUS_FAILED =? 0) then Err DeviceFailed else Ok tt).
Definition num_queues (t : Transport) : io Z := wread (common t) NUM_QUEUES 2.

(** ** Bring-up *)

(** [read_bar]. *)
Definition read_bar (b : Bdf) (index : Z) : io (option (Z * Z)) :=
  if 5 <? index then io_ret None else
  do! offset := io_lift (add_chk 8 PCI_BAR0 (index * 4)) in
  do! low := config_read32 b offset in
  do! high := (if index <? 5 then config_read32 b (offset + 4) else io_ret 0) in
  match decode_bar low high index with
  | None => io_ret None
  | Some base =>
      do! _ := config_write32 b offset (2 ^ 32 - 1) in
      do! probed := config_read32 b offset in
      do! _ := config_write32 b offset low in
      let size := decode_bar_size probed in
      io_ret (if size =? 0 then None else Some (base, size))
  end.

(** What the capability loop has found. *)
Record Found4 := mkFound { fcommon : option Window; fnotify : option Window; fmult : Z; fisr : option Window; fdevice : option Window }.

Definition put_window (f : Found4) (v : VirtioCap) (w : Window) : Found4 :=
  if cfg_type v =? CFG_COMMON then mkFound (Some w) (fnotify f) (fmult f) (fisr f) (fdevice f)
  else if cfg_type v =? CFG_NOTIFY then mkFound (fcommon f) (Some w) (vmultiplier v) (fisr f) (fdevice f)
  else if cfg_type v =? CFG_ISR then mkFound (fcommon f) (fnotify f) (fmult f) (Some w) (fdevice f)
  else if cfg_type v =? CFG_DEVICE then mkFound (fcommon f) (fnotify f) (fmult f) (fisr f) (Some w)
  else f.

Definition wanted_type (ty : Z) : bool := (ty =? CFG_COMMON) || (ty =? CFG_NOTIFY) || (ty =? CFG_ISR) || (ty =? CFG_DEVICE).

(** One capability. *)
Definition take_cap (b : Bdf) (cfg : list byte) (f : Found4) (cap : Capability) : io (result Found4 ProbeError) :=
  do! o := io_lift (parse_virtio_cap cfg cap) in
  match o with
  | None => io_ret (Ok f)
  | Some v =>
      if negb (wanted_type (cfg_type v)) then io_ret (Ok f) else
      do! o := read_bar b (vbar v) in
      match o with
      | None => io_ret (Err (BadBar (vbar v)))
      | Some (bar_base, bar_size) =>
          match checked_add 32 (voffset v) (vlength v) with
          | None => io_ret (Err (BadBar (vbar v)))
          | Some stop =>
              if vlength v =? 0 then io_ret (Err (BadBar (vbar v)))
              else if bar_size <? stop then io_ret (Err (BadBar (vbar v)))
              else if MAX_WINDOW_BYTES <? vlength v then io_ret (Err (WindowTooLarge (vlength v))) else
              do! pa := io_lift (add_chk 64 bar_base (voffset v)) in
              do! w := map_window pa (vlength v) in
              match w with
              | None => io_ret (Err (MapFailed pa))
              | Some w => io_ret (Ok (put_window f v w))
              end
          end
      end
  end.

Fixpoint take_caps (b : Bdf) (cfg : list byte) (f : Found4) (caps : list Capability) : io (result Found4 ProbeError) :=
  match caps with
  | [] => io_ret (Ok f)
  | cap :: caps' => try! f := take_cap b cfg f cap in take_caps b cfg f caps'
  end.

(** [ok_or(MissingStructure(t))]. *)
Definition found_or {A} (o : option A) (t : Z) : result A ProbeError :=
  match o with Some a => Ok a | None => Err (MissingStructure t) end.

(** [probe] up to the transport. *)
Definition discover (device_id : Z) : io (result Transport ProbeError) :=
  do! o := find_device VIRTIO_VENDOR device_id in
  match o with
  | None =>
      do! t := find_device VIRTIO_VENDOR VIRTIO_BLK_TRANSITIONAL in
      io_ret (Err (match t with Some _ => LegacyOnly | None => NotFound end))
  | Some b =>
      do! command := config_read32 b COMMAND_REGISTER in
      do! _ := config_write32 b COMMAND_REGISTER (Z.lor (Z.lor command COMMAND_MEMORY_SPACE) COMMAND_BUS_MASTER) in
      do! cfg := config_snapshot b in
      do! caps := io_lift (walk_capabilities cfg) in
      match caps with
      | Err e => io_ret (Err (Capabilities e))
      | Ok caps =>
          try! f := take_caps b cfg (mkFound None None 0 None None) (filter (λ c, cid c = CAP_ID_VENDOR) caps) in
          try! c := io_ret (found_or (fcommon f) CFG_COMMON) in
          try! n := io_ret (found_or (fnotify f) CFG_NOTIFY) in
          try! i := io_ret (found_or (fisr f) CFG_ISR) in
          try! d := io_ret (found_or (fdevice f) CFG_DEVICE) in
          io_ret (Ok (mkTransport b c n (fmult f) i d 0))
      end
  end.

(** The wait for the reset. *)
Fixpoint wait_reset (n : nat) (t : Transport) (spins : Z) : io (result unit ProbeError) :=
  match n with
  | O => λ _, Panic
  | Datatypes.S n' =>
      do! s := status t in
      if s =? 0 then io_ret (Ok tt) else
      do! spins := io_lift (add_chk 32 spins 1) in
      if RESET_SPIN_LIMIT <=? spins then io_ret (Err ResetTimeout) else wait_reset n' t spins
  end.

(** [probe] from there on. *)
Definition reset (t : Transport) : io (result Transport ProbeError) :=
  do! _ := wwrite (common t) DEVICE_STATUS 1 0 in
  try! _ := wait_reset (Z.to_nat RESET_SPIN_LIMIT) t 0 in
  do! _ := set_status t STATUS_ACKNOWLEDGE in
  do! _ := set_status t STATUS_DRIVER in
  io_ret (Ok t).

(** [probe]. *)
Definition probe (device_id : Z) : io (result Transport ProbeError) :=
  try! t := discover device_id in reset t.
End Driver.
