(* ===== verification/BlockInit.v ===== *)
(** Bringing the block device up: [init], [install_msix] and [FrameGuard] of
    [kernel/src/block.rs], over the transport of [Transport].

    The record [init] leaves in [DEVICE] is the [Blk] of [Block], with its
    transport.  [take] and [give] are [frames::alloc] and [frames::free]. *)
From S2P Require Import Prelude Bits Mem Virtio Block Paging Vm Pci Transport.
From Stdlib Require Import Strings.Byte.

Definition COMPLETION_VECTOR : Z := 35.

(** The arms of [BlockError] that [init] uses. *)
Inductive InitError := Probe (e : ProbeError) | MsixCapabilities (e : CapError) | NoMsix | MsixOutsideBar | InitOutOfMemory.

(** [a.saturating_mul(b)], [a.saturating_add(b)]. *)
Definition saturating_mul (w a b : Z) : Z := Z.min (2 ^ w - 1) (a * b).
Definition saturating_add (w a b : Z) : Z := Z.min (2 ^ w - 1) (a + b).

(** [write_bytes(p, 0, n)]. *)
Definition zero_bytes (m : Mem) (pa n : Z) : Mem := λ x, if (pa <=? x) && (x <? pa + n) then x00 else m x.

Section Init.
Context {D F : Type} `{Device D} `{Mapper} (take : F → nat → option Z * F) (give : F → Z → nat → outcome F) (hhdm lapic : Z).
#[local] Abbreviation io := (IO D (Sys F)).
#[local] Abbreviation take_frame := (λ f, take f 0%nat).

Definition as_probe {A} (x : io (result A ProbeError)) : io (result A InitError) :=
  do! r := x in io_ret (match r with Ok a => Ok a | Err e => Err (Probe e) end).

(** [install_msix]: the MSI-X control word. *)
Definition enable_msix (b : Bdf) (control_offset : Z) : io unit :=
  let control_dword := Z.land control_offset (bitnot 8 3) in
  do! raw := config_read32 b control_dword in
  let shift := Z.land control_offset 3 * 8 in
  let control := Z.lor (Z.shiftr raw shift mod 2 ^ 16) MSIX_CONTROL_ENABLE in
  let control := Z.land control (bitnot 16 MSIX_CONTROL_FUNCTION_MASK) in
  let cleared := Z.land raw (bitnot 32 (Z.shiftl 0xffff shift mod 2 ^ 32)) in
  config_write32 b control_dword (Z.lor cleared (Z.shiftl control shift mod 2 ^ 32)).

Definition install_msix (t : Transport) : io (result unit InitError) :=
  do! cfg := config_snapshot (bdf t) in
  do! caps := io_lift (walk_capabilities cfg) in
  match caps with
  | Err e => io_ret (Err (MsixCapabilities e))
  | Ok caps =>
      match find_first (λ c, cid c =? CAP_ID_MSIX) caps with
      | None => io_ret (Err NoMsix)
      | Some cap =>
          do! o := io_lift (parse_msix cfg cap) in
          match o with
          | None => io_ret (Err NoMsix)
          | Some x =>
              do! o := read_bar (bdf t) (mbar x) in
              match o with
              | None => io_ret (Err MsixOutsideBar)
              | Some (bar, bar_size) =>
                  let table_bytes := saturating_mul 32 (entries x) MSIX_ENTRY_BYTES in
                  let stop := saturating_add 64 (moffset x) table_bytes in
                  if bar_size <? stop then io_ret (Err MsixOutsideBar) else
                  do! table_phys := io_lift (add_chk 64 bar (moffset x)) in
                  do! w := map_window take_frame hhdm table_phys table_bytes in
                  match w with
                  | None => io_ret (Err InitOutOfMemory)
                  | Some w =>
                      do! r := program (mkMsixTable (base w) (entries x)) 0 (msix_message_address lapic 0)
                                 (msix_message_data COMPLETION_VECTOR) in
                      match r with
                      | Err _ => io_ret (Err NoMsix)
                      | Ok _ =>
                          do! _ := enable_msix (bdf t) (control_offset x) in
                          do! _ := set_queue_msix_vector t 0 in
                          io_ret (Ok tt)
                      end
                  end
              end
          end
      end
  end.

(** [FrameGuard::take]: what is held, in an array of three. *)
Definition guard_take (order : nat) (held : list (Z * nat)) : io (option Z * list (Z * nat)) := λ m,
  let '(o, f) := take (frames (rest m)) order in
  let m := mkMachine (dev m) (with_frames (rest m) f) (log m) in
  match o with
  | None => Ret ((None, held), m)
  | Some pa => _ ← rust_assert (length held <? 3)%nat; Ret ((Some pa, held ++ [(pa, order)]), m)
  end.

(** [FrameGuard::drop]. *)
Fixpoint guard_drop (held : list (Z * nat)) : io unit :=
  match held with
  | [] => io_ret tt
  | (pa, order) :: held' => λ m,
      f ← give (frames (rest m)) pa order;
      guard_drop held' (mkMachine (dev m) (with_frames (rest m) f) (log m ++ [FreeFrames pa order]))
  end.

Definition zero (pa n : Z) : io unit := λ m,
  pa ← at_hhdm hhdm pa;
  Ret (tt, mkMachine (dev m) (with_mem (rest m) (zero_bytes (mem (rest m)) pa n)) (log m)).

(** From the ring's addresses to a live device. *)
Definition start_queue (t : Transport) (ring : Z) : io (result Transport InitError) :=
  try! t := as_probe (configure_queue t (ring_layout QUEUE_SIZE) ring) in
  try! _ := install_msix t in
  do! _ := enable_queue t in
  try! _ := as_probe (finish t) in
  io_ret (Ok t).

Definition blk_of (q : SplitQueue) (ring meta data : Z) : Blk :=
  mkBlk q (hhdm + ring) meta (hhdm + meta) data (hhdm + data) 0 (replicate (Z.to_nat QUEUE_SIZE) None).

(** [init] from the first allocation on: its result, and what the guard
    still holds. *)
Definition allocate_and_start (t : Transport) : io (result (Transport * Blk) InitError * list (Z * nat)) :=
  do! (o, held) := guard_take 0 [] in
  match o with
  | None => io_ret (Err InitOutOfMemory, held)
  | Some ring =>
      do! (o, held) := guard_take 0 held in
      match o with
      | None => io_ret (Err InitOutOfMemory, held)
      | Some meta =>
          do! (o, held) := guard_take 6 held in
          match o with
          | None => io_ret (Err InitOutOfMemory, held)
          | Some data =>
              do! _ := zero ring 4096 in
              do! _ := zero meta 4096 in
              do! _ := zero data (SLOT_BYTES * QUEUE_SIZE) in
              do! r := start_queue t ring in
              match r with
              | Err e => io_ret (Err e, held)
              | Ok t => do! q := io_lift (Virtio.new QUEUE_SIZE) in io_ret (Ok (t, blk_of q ring meta data), [])
              end
          end
      end
  end.

(** [init]; [device] is what [DEVICE] holds. *)
Definition init (device : option (Transport * Blk)) : io (result (Transport * Blk) InitError) :=
  match device with
  | Some d => io_ret (Ok d)
  | None =>
      try! t := as_probe (probe take_frame hhdm VIRTIO_BLK_MODERN) in
      try! _ := as_probe (negotiate t VIRTIO_F_VERSION_1) in
      do! (r, held) := allocate_and_start t in
      do! _ := guard_drop held in
      io_ret r
  end.
End Init.
