(* ===== verification/TransportProofs.v ===== *)
(** Proofs about the transport ([Transport]): what each step of bring-up does
    for any device. *)
From S2P Require Import Prelude Bits Mem Virtio Paging PagingProofs Vm Pci PciProofs Transport.
From Stdlib Require Import Strings.Byte.

(** ** The frame allocator, for blocks of any order

    [bok f l] is the allocator's invariant with the blocks [l] out.  The RAM
    it manages lies below 64 TiB. *)
Definition block_end (p : Z * nat) : Z := p.1 + 4096 * 2 ^ Z.of_nat p.2.
Class Blocks (F : Type) := {
  btake : F → nat → option Z * F;
  bgive : F → Z → nat → outcome F
}.
Class BlocksLaws (F : Type) `{Blocks F} := {
  bok : F → list (Z * nat) → Prop;
  bok_perm : ∀ f l l', l ≡ₚ l' → bok f l → bok f l';
  btake_ok : ∀ f l n, bok f l → (n < 19)%nat →
    match btake f n with
    | (None, f') => bok f' l
    | (Some pa, f') => (frame_ok pa ∧ pa mod (4096 * 2 ^ Z.of_nat n) = 0) ∧ block_end (pa, n) ≤ 2 ^ 46 ∧ bok f' ((pa, n) :: l)
    end;
  bok_apart : ∀ f p q l, bok f (p :: q :: l) → block_end p ≤ q.1 ∨ block_end q ≤ p.1;
  bgive_ok : ∀ f l pa n, bok f ((pa, n) :: l) → ∃ f', bgive f pa n = Ret f' ∧ bok f' l
}.

Section Rules.
Context {D F : Type} `{Pci.Device D} `{BlocksLaws F}.
#[local] Abbreviation io := (IO D (Sys F)).
#[local] Abbreviation blocks := (list (Z * nat)).

(** [x] returns whatever the device does, and leaves the allocator in
    order. *)
Definition io_ok {A} (x : io A) (l : blocks) (Q : A → blocks → Prop) : Prop :=
  ∀ m, bok (frames (rest m)) l → ∃ a m' k, x m = Ret (a, m') ∧ bok (frames (rest m')) k ∧ Q a k.

Lemma io_ok_ret {A} (a : A) l (Q : A → blocks → Prop) : Q a l → io_ok (io_ret a) l Q.
Proof. intros HQ m Hm. by exists a, m, l. Qed.

Lemma io_ok_bind {A B} (x : io A) (f : A → io B) l R Q :
  io_ok x l R → (∀ a k, R a k → io_ok (f a) k Q) → io_ok (io_bind x f) l Q.
Proof.
  intros Hx Hf m Hm. destruct (Hx m Hm) as (a & m1 & k & E & Hk & HR). rewrite (io_bind_ret _ _ _ _ _ E). by apply (Hf a k).
Qed.

Lemma io_ok_try {A B E} (x : io (result A E)) (f : A → io (result B E)) l R Q :
  io_ok x l R → (∀ a k, R (Ok a) k → io_ok (f a) k Q) → (∀ e k, R (Err e) k → Q (Err e) k) → io_ok (io_try x f) l Q.
Proof.
  intros Hx Hf He. eapply io_ok_bind; [exact Hx|]. intros [a|e] k HR; [by apply Hf|]. by apply io_ok_ret, He.
Qed.

Lemma io_ok_lift {A} (o : outcome A) a l (Q : A → blocks → Prop) : o = Ret a → Q a l → io_ok (io_lift o) l Q.
Proof. intros -> HQ m Hm. by exists a, m, l. Qed.

Lemma io_ok_mono {A} (x : io A) l (R Q : A → blocks → Prop) : io_ok x l R → (∀ a k, R a k → Q a k) → io_ok x l Q.
Proof. intros Hx HRQ m Hm. destruct (Hx m Hm) as (a & m' & k & ? & ? & ?). exists a, m', k. auto. Qed.

(** The allocator's invariant may be used. *)
Lemma io_ok_know {A} (x : io A) l Q : (∀ f, bok f l → io_ok x l Q) → io_ok x l Q.
Proof. intros Hx m Hm. by apply (Hx _ Hm). Qed.

(** Nothing but the device is touched, and the value is a [w]-bit one. *)
Definition reads (w : Z) (l : blocks) (v : Z) (k : blocks) : Prop := k = l ∧ 0 ≤ v < 2 ^ w.
Definition quiet {A} (l : blocks) (_ : A) (k : blocks) : Prop := k = l.

Lemma mmio_write_ok a n v l : a mod n = 0 → io_ok (mmio_write a n v) l (quiet l).
Proof. intros Ha m Hm. unfold mmio_write. rewrite Ha. by eexists _, _, l. Qed.
Lemma mmio_read_ok a n l : 0 ≤ n → a mod n = 0 → io_ok (mmio_read a n) l (reads (8 * n) l).
Proof.
  intros Hn Ha m Hm. unfold mmio_read. rewrite Ha. cbn [Z.eqb rust_assert mbind outcome_bind]. destruct (dev_read (dev m) a n) as [v d]. eexists _, _, l. split; [done|]. split; [done|].
  split; [done|]. apply Z.mod_pos_bound. lia.
Qed.
Lemma outl_ok p v l : io_ok (outl p v) l (quiet l).
Proof. intros m Hm. by eexists _, _, l. Qed.
Lemma inl_ok p l : io_ok (inl_ p) l (reads 32 l).
Proof.
  intros m Hm. unfold inl_. destruct (dev_in (dev m) p) as [v d]. eexists _, _, l. split; [done|]. split; [done|].
  split; [done|]. by apply Z.mod_pos_bound.
Qed.

(** ** Configuration space *)

Lemma config_read_ok b o l : io_ok (config_read32 b o) l (reads 32 l).
Proof. eapply io_ok_bind; [apply outl_ok|]. intros _ k ->. apply inl_ok. Qed.
Lemma config_write_ok b o v l : io_ok (config_write32 b o v) l (quiet l).
Proof. eapply io_ok_bind; [apply outl_ok|]. intros _ k ->. apply outl_ok. Qed.

Lemma snapshot_ok b l : io_ok (config_snapshot b) l (λ cfg k, k = l ∧ length cfg = 256%nat).
Proof.
  unfold config_snapshot. change 256%nat with (4 * 64)%nat. generalize 64%nat as n, 0 as d.
  induction n as [|n IH]; intros d; cbn [snapshot_from]; [by apply io_ok_ret|].
  eapply io_ok_bind; [apply config_read_ok|]. intros v k [-> _]. eapply io_ok_bind; [apply IH|]. intros tl k [-> Hl]. apply io_ok_ret.
  split; [done|]. rewrite length_app, length_to_le_bytes. lia.
Qed.

Lemma find_device_ok v d l : io_ok (find_device v d) l (quiet l).
Proof.
  assert (∀ slot fs, io_ok (scan_functions v d (λ b, config_read32 b 0) slot fs) l (quiet l)) as Hf.
  { intros slot fs. induction fs as [|f fs IH]; cbn [scan_functions]; [by apply io_ok_ret|].
    destruct (bdf_new 0 slot f); [|by apply io_ok_ret]. eapply io_ok_bind; [apply config_read_ok|]. intros id k [-> _].
    repeat case_match; first [by apply io_ok_ret|apply IH]. }
  unfold find_device, scan_for. generalize (Z.of_nat <$> seq 0 32) as slots. induction slots as [|s slots IH]; cbn [scan_slots].
  - by apply io_ok_ret.
  - eapply io_ok_bind; [apply Hf|]. intros [b| |] k ->; first [by apply io_ok_ret|apply IH].
Qed.

(** ** Windows *)

Record window_ok (w : Window) : Prop := { wo_base : 0 ≤ base w; wo_len : 0 < len w < 2 ^ 32; wo_end : base w + len w ≤ 2 ^ 64 }.

Lemma in_bounds_true w o n : window_ok w → 0 ≤ o → 0 ≤ n → o + n ≤ len w → in_bounds w o n = true.
Proof.
  intros [] Ho Hn Hl. unfold in_bounds. rewrite (proj2 (checked_add_Some _ _ _ (o + n))); [|split; [done|lia]]. by apply Z.leb_le.
Qed.

Lemma wread_ok w o n l : window_ok w → 0 ≤ o → 0 < n → o + n ≤ len w → (base w + o) mod n = 0 → io_ok (wread w o n) l (reads (8 * n) l).
Proof.
  intros Hw Ho Hn Hl Ha. unfold wread. rewrite in_bounds_true by (done || lia). destruct Hw.
  eapply io_ok_bind; [by eapply (io_ok_lift _ _ _ (quiet l))|]. intros _ k ->.
  eapply (io_ok_bind _ _ _ (λ a k, a = base w + o ∧ k = l)); [eapply io_ok_lift; [apply add_chk_ok; lia|done]|]. intros a k [-> ->]. apply mmio_read_ok; [lia|done].
Qed.

Lemma wwrite_ok w o n v l : window_ok w → 0 ≤ o → 0 < n → o + n ≤ len w → (base w + o) mod n = 0 → io_ok (wwrite w o n v) l (quiet l).
Proof.
  intros Hw Ho Hn Hl Ha. unfold wwrite. rewrite in_bounds_true by (done || lia). destruct Hw.
  eapply io_ok_bind; [by eapply (io_ok_lift _ _ _ (quiet l))|]. intros _ k ->.
  eapply (io_ok_bind _ _ _ (λ a k, a = base w + o ∧ k = l)); [eapply io_ok_lift; [apply add_chk_ok; lia|done]|]. intros a k [-> ->]. by apply mmio_write_ok.
Qed.
End Rules.

(** ** Mapping pages *)

Section Sources.
Context {F : Type} `{BlocksLaws F}.
#[local] Abbreviation blocks := (list (Z * nat)).
#[local] Abbreviation frame := (λ f, btake f 0%nat).

(** [k] is [l] and some single frames more. *)
Definition grown (l k : blocks) : Prop := ∃ tabs, k = tabs ++ l ∧ Forall (λ p, p.2 = 0%nat) tabs.

Lemma grown_refl l : grown l l.
Proof. exists []. by split. Qed.
Lemma grown_trans l k j : grown l k → grown k j → grown l j.
Proof. intros (t & -> & Ht) (t' & -> & Ht'). exists (t' ++ t). rewrite app_assoc. split; [done|]. by apply Forall_app. Qed.

Lemma calls_frames n : ∀ f l, bok f l → ∃ k, bok (calls frame n f) k ∧ grown l k.
Proof.
  induction n as [|n IH]; intros f l Hf; cbn [calls]; [exists l; split; [done|apply grown_refl]|].
  pose proof (btake_ok f l 0 Hf ltac:(lia)) as Ht. destruct (btake f 0) as [[pa|] f']; cbn [snd].
  - destruct Ht as (_ & _ & Ht). destruct (IH _ _ Ht) as (k & Hk & Hg). exists k. split; [done|].
    eapply grown_trans; [|exact Hg]. exists [(pa, 0%nat)]. split; [done|]. by repeat constructor.
  - by apply IH.
Qed.

Lemma draw_frames n : ∀ f l, bok f l → frame_failure (draw frame n f).2 = Ret OutOfFrames.
Proof.
  induction n as [|n IH]; intros f l Hf; cbn [draw]; [done|]. pose proof (btake_ok f l 0 Hf ltac:(lia)) as Ht.
  destruct (btake f 0) as [[pa|] f']; [|done]. destruct Ht as (((Hp0 & Hal & Hp) & _) & _ & Ht).
  rewrite (proj2 (Z.ltb_lt _ _)) by lia. cbn [negb]. unfold page_aligned. rewrite (proj2 (Z.eqb_eq _ _) Hal).
  specialize (IH _ _ Ht). destruct (draw frame n f'). exact IH.
Qed.

Lemma virt_addr_high va : 2 ^ 64 - 2 ^ 47 ≤ va → virt_addr va = Ret va.
Proof. intros Hva. unfold virt_addr. rewrite (proj2 (Z.leb_le (2 ^ 64 - 2 ^ 47) va)) by lia. by rewrite orb_true_r. Qed.

(** Mapping a page of the kernel's half takes frames for tables at most. *)
Lemma map_grown `{Mapper} f l m root va pa flags : bok f l → 2 ^ 64 - 2 ^ 47 ≤ va → pa < 2 ^ 52 →
  ∃ r m' f' k, map frame f m root va pa flags = Ret (r, m', f') ∧ bok f' k ∧ grown l k ∧
    (page_aligned va = true → page_aligned pa = true → r ≠ Err Misaligned).
Proof.
  intros Hf Hva Hpa. unfold map. rewrite (virt_addr_high va Hva). cbn [mbind outcome_bind].
  destruct (page_aligned va); cbn [negb]; [|eexists _, _, _, l; split; [done|]; split; [done|]; by split; [apply grown_refl|]].
  unfold phys_addr. rewrite (proj2 (Z.ltb_lt _ _) Hpa). cbn [rust_assert mbind outcome_bind].
  destruct (page_aligned pa); cbn [negb]; [|eexists _, _, _, l; split; [done|]; split; [done|]; by split; [apply grown_refl|]].
  pose proof (draw_frames 3 f l Hf) as Hd. destruct (draw _ 3 _) as [supply why]. cbn [snd] in Hd.
  destruct (map_to _ _ _ _ _ _) as [[r m'] n]. destruct (calls_frames n f l Hf) as (k & Hk & Hg).
  destruct r as [[]|[]]; rewrite ?Hd; cbn [mbind outcome_bind]; by eexists _, _, _, k.
Qed.
End Sources.

(** ** Mapping device pages *)

Section Mapping.
Context {D F : Type} `{Pci.Device D} `{BlocksLaws F} `{Mapper} (hhdm : Z) (Hhdm : hhdm = 2 ^ 64 - 2 ^ 47).
#[local] Abbreviation io := (IO D (Sys F)).
#[local] Abbreviation blocks := (list (Z * nat)).
#[local] Abbreviation frame := (λ f, btake f 0%nat).

Lemma map_device_page_ok s l page : bok (frames s) l → 0 ≤ page → page + 4096 ≤ 2 ^ 47 →
  ∃ r s' k, map_device_page frame s (hhdm + page) page = Ret (r, s') ∧ bok (frames s') k ∧ grown l k.
Proof.
  intros Hs Hp Hp'. pose proof (virt_addr_high (hhdm + page) ltac:(lia)) as Hva.
  unfold map_device_page, translate. rewrite Hva. cbn [mbind outcome_bind].
  assert (∃ r m, (if (match translate_addr (mem s) (cr3 s) (hhdm + page) with Some _ => true | None => false end : bool)
      then '(r, m, _) ← unmap (mem s) (cr3 s) (hhdm + page); Ret (match r with Ok _ => Ok tt | Err e => Err e end, with_mem s m)
      else Ret (Ok tt, s)) = Ret (r, with_mem s m)) as (r & m & ->).
  { destruct (translate_addr _ _ _); [|exists (Ok tt), (mem s); by destruct s]. unfold unmap. rewrite Hva. cbn [mbind outcome_bind].
    destruct (negb _); cbn [mbind outcome_bind]; [by eexists _, _|]. destruct (unmap_page _ _ _) as [[?|?] m]; by eexists _, _. }
  cbn [mbind outcome_bind]. destruct r as [[]|e]; [|exists (Err e), (with_mem s m), l; split; [done|]; split; [done|apply grown_refl]].
  cbn [with_mem mem cr3 frames kernel_root].
  destruct (map_grown (frames s) l m (cr3 s) (hhdm + page) page (Z.lor (Z.lor (Z.lor PRESENT WRITABLE) NO_CACHE) NO_EXECUTE) Hs)
    as (r & m' & f' & k & E & Hk & Hg & _); [lia..|]. rewrite E. cbn [mbind outcome_bind]. by eexists _, _, k.
Qed.

Lemma map_window_from_ok n : ∀ page last l,
  0 ≤ page → last + 4096 ≤ 2 ^ 47 → last < page + 4096 * Z.of_nat n →
  io_ok (D := D) (map_window_from frame hhdm n page last) l (λ _ k, grown l k).
Proof.
  induction n as [|n IH]; intros page last l Hp Hl Hn; cbn [map_window_from];
    destruct (Z.ltb_spec last page); [by apply io_ok_ret, grown_refl|lia|by apply io_ok_ret, grown_refl|].
  eapply io_ok_bind; [eapply (io_ok_lift _ _ _ (λ a k, a = hhdm + page ∧ k = l)); [apply add_chk_ok; lia|done]|]. intros va k [-> ->].
  eapply (io_ok_bind _ _ _ (λ _ k, grown l k)).
  - intros m Hm. destruct (map_device_page_ok (rest m) l page Hm Hp ltac:(lia)) as (r & s' & k & -> & Hk & Hg). by eexists r, _, k.
  - intros [[]|e] k Hg; [|by apply io_ok_ret].
    eapply io_ok_bind; [eapply (io_ok_lift _ _ _ (λ a j, a = page + 4096 ∧ j = k)); [apply add_chk_ok; lia|done]|]. intros page' j [-> ->].
    eapply io_ok_mono; [apply IH; lia|]. intros b j Hj. by eapply grown_trans.
Qed.

(** A window that fits below the end of the map is mapped whole or not at
    all. *)
Lemma map_window_ok phys n l : 0 ≤ phys → 0 ≤ n < 2 ^ 32 → phys + n ≤ 2 ^ 47 →
  io_ok (D := D) (map_window frame hhdm phys n) l
    (λ o k, grown l k ∧ ∀ w, o = Some w → w = mkWindow (hhdm + phys) n ∧ window_ok w).
Proof.
  intros Hp Hn Hend. unfold map_window. destruct (Z.eqb_spec n 0); [apply io_ok_ret; split; [apply grown_refl|done]|].
  eapply io_ok_bind; [eapply (io_ok_lift _ _ _ (λ a k, a = phys + n ∧ k = l)); [apply add_chk_ok; lia|done]|]. intros stop k [-> ->].
  change 0xfff with (2 ^ 12 - 1). rewrite !(land_bitnot_align 64 _ 12) by (lia || unfold fits; lia). change (2 ^ 12) with 4096.
  pose proof (Z.div_mod phys 4096 ltac:(lia)). pose proof (Z.mod_pos_bound phys 4096 ltac:(lia)).
  pose proof (Z.div_mod (phys + n - 1) 4096 ltac:(lia)). pose proof (Z.mod_pos_bound (phys + n - 1) 4096 ltac:(lia)).
  set (first := phys - phys mod 4096) in *. set (last := phys + n - 1 - (phys + n - 1) mod 4096) in *.
  assert (0 ≤ first ∧ first ≤ last ∧ last + 4096 ≤ 2 ^ 47) as (F1 & F2 & F3) by lia.
  pose proof (Z.div_mod (last - first) 4096 ltac:(lia)). pose proof (Z.mod_pos_bound (last - first) 4096 ltac:(lia)).
  eapply io_ok_bind; [apply map_window_from_ok; lia|]. intros ok k Hg. cbn beta in Hg. destruct ok; [|by apply io_ok_ret].
  eapply io_ok_bind; [eapply (io_ok_lift _ _ _ (λ a j, a = hhdm + phys ∧ j = k)); [apply add_chk_ok; lia|done]|]. intros b j [-> ->].
  apply io_ok_ret. split; [done|]. intros w [= <-]. split; [done|]. split; cbn; lia.
Qed.
End Mapping.

(** ** Decoding what the device says *)

Lemma byte_at_total l i : 0 ≤ i < Z.of_nat (length l) → ∃ v, byte_at l i = Ret v ∧ 0 ≤ v < 256.
Proof.
  intros Hi. destruct (index_in_range l i Hi) as (x & E & _). exists (b2z x). unfold byte_at. rewrite E. split; [done|apply b2z_range].
Qed.

Lemma le_at_total l i n : 0 ≤ i → 0 ≤ n → i + n ≤ Z.of_nat (length l) → ∃ v, le_at l i n = Ret v ∧ 0 ≤ v < 2 ^ (8 * n).
Proof.
  intros Hi Hn Hl. unfold le_at. rewrite slice_ok by lia. eexists. split; [done|].
  pose proof (from_le_bytes_range (list.take (Z.to_nat (i + n - i)) (drop (Z.to_nat i) l))) as Hr.
  rewrite length_take, length_drop in Hr. replace (8 * Z.of_nat _) with (8 * n) in Hr by lia. exact Hr.
Qed.

Lemma capability_body_total cfg cap n : 0 ≤ coffset cap → 0 ≤ n →
  ∃ r, capability_body cfg cap n = Ret r ∧ ∀ b, r = Ok b → Z.of_nat (length b) = n ∧ coffset cap + n ≤ Z.of_nat (length cfg).
Proof.
  intros Hc Hn. unfold capability_body. destruct (Z.ltb_spec (Z.of_nat (length cfg)) (coffset cap + n)); [by eexists|].
  rewrite slice_ok by lia. eexists. split; [done|]. intros b [= <-]. rewrite length_take, length_drop. lia.
Qed.

Record cap_sane (v : VirtioCap) : Prop := {
  cs_bar : 0 ≤ vbar v; cs_offset : 0 ≤ voffset v < 2 ^ 32; cs_length : 0 ≤ vlength v < 2 ^ 32; cs_mult : 0 ≤ vmultiplier v < 2 ^ 32
}.

Lemma parse_virtio_cap_total cfg cap : 0 ≤ coffset cap →
  ∃ o, parse_virtio_cap cfg cap = Ret o ∧ ∀ v, o = Some v → cap_sane v.
Proof.
  intros Hc. unfold parse_virtio_cap, VIRTIO_CAP_BYTES. destruct (capability_body_total cfg cap 16 Hc ltac:(lia)) as (r & -> & Hr).
  cbn [mbind outcome_bind]. destruct r as [b|e]; [|by eexists]. destruct (Hr b eq_refl) as [Hb _].
  destruct (byte_at_total b 2 ltac:(lia)) as (v2 & -> & _). cbn [mbind outcome_bind]. destruct (v2 <? 16); [by eexists|].
  destruct (byte_at_total b 3 ltac:(lia)) as (v3 & -> & _). destruct (byte_at_total b 4 ltac:(lia)) as (v4 & -> & H4).
  destruct (le_at_total b 8 4 ltac:(lia) ltac:(lia) ltac:(lia)) as (v8 & -> & H8).
  destruct (le_at_total b 12 4 ltac:(lia) ltac:(lia) ltac:(lia)) as (v12 & -> & H12). cbn [mbind outcome_bind].
  destruct (capability_body_total cfg cap (16 + 4) Hc ltac:(lia)) as (r & -> & Hr'). cbn [mbind outcome_bind].
  destruct r as [b'|e]; [|cbn; eexists; split; [done|]; intros v [= <-]; split; cbn; lia].
  destruct (Hr' b' eq_refl) as [Hb' _]. destruct (le_at_total b' 16 4 ltac:(lia) ltac:(lia) ltac:(lia)) as (v16 & -> & H16).
  cbn [mbind outcome_bind]. eexists. split; [done|]. intros v [= <-]. split; cbn; lia.
Qed.

(** The address of a BAR is a multiple of 16. *)
Lemma decode_bar_nonneg low high i b : 0 ≤ low → 0 ≤ high → decode_bar low high i = Some b → 0 ≤ b ∧ b mod 16 = 0.
Proof.
  intros Hl Hh. unfold decode_bar. destruct (negb _); [done|]. assert (0 ≤ Z.land low PCI_BAR_ADDR_MASK) as Hb by (apply Z.land_nonneg; auto).
  assert (Z.land low PCI_BAR_ADDR_MASK mod 16 = 0) as Hm.
  { change 16 with (2 ^ 4). rewrite <- Z.land_ones, <- Z.land_assoc by lia. change (Z.land PCI_BAR_ADDR_MASK (Z.ones 4)) with 0. apply Z.land_0_r. }
  destruct (_ =? 0); [by intros [= <-]|]. destruct (_ && _); [|done]. intros [= <-]. split; [apply Z.lor_nonneg; split; [done|by apply Z.shiftl_nonneg]|].
  change 16 with (2 ^ 4). rewrite <- Z.land_ones, Z.land_lor_distr_l, !Z.land_ones by lia. change (2 ^ 4) with 16. rewrite Hm, Z.lor_0_l.
  rewrite Z.shiftl_mul_pow2 by lia. change (2 ^ 32) with (2 ^ 28 * 16). rewrite Z.mul_assoc. apply Z.mod_mul. lia.
Qed.

Lemma decode_bar_size_range p : 0 ≤ decode_bar_size p < 2 ^ 32.
Proof.
  unfold decode_bar_size. destruct (_ =? 0); [lia|]. change 0xffffffff with (Z.ones 32). rewrite Z.land_ones by lia. by apply Z.mod_pos_bound.
Qed.

(** ** Discovery *)

Section Discovery.
Context {D F : Type} `{Pci.Device D} `{BlocksLaws F} `{Mapper} (hhdm : Z) (Hhdm : hhdm = 2 ^ 64 - 2 ^ 47).
#[local] Abbreviation io := (IO D (Sys F)).
#[local] Abbreviation frame := (λ f, btake f 0%nat).

(** The machine's BARs lie where the higher-half map reaches. *)
Definition bars_reachable : Prop :=
  ∀ (m : Machine D (Sys F)) b i bar size m', 0 ≤ i → read_bar b i m = Ret (Some (bar, size), m') → bar + size ≤ 2 ^ 47.
Context (Hbars : bars_reachable).

Lemma read_bar_ok b i l : 0 ≤ i →
  io_ok (read_bar b i : io _) l (λ o k, k = l ∧ ∀ bar size, o = Some (bar, size) → (0 ≤ bar ∧ bar mod 16 = 0) ∧ 0 < size < 2 ^ 32 ∧ bar + size ≤ 2 ^ 47).
Proof.
  intros Hi.
  assert (io_ok (read_bar b i : io _) l (λ o k, k = l ∧ ∀ bar size, o = Some (bar, size) → (0 ≤ bar ∧ bar mod 16 = 0) ∧ 0 < size < 2 ^ 32)) as Hok.
  { unfold read_bar. destruct (Z.ltb_spec 5 i); [by apply io_ok_ret|].
    eapply io_ok_bind; [eapply (io_ok_lift _ _ _ (quiet l)); [apply add_chk_ok; unfold PCI_BAR0; lia|done]|]. intros off k ->.
    eapply io_ok_bind; [apply config_read_ok|]. intros low k [-> Hlow].
    apply (io_ok_bind _ _ _ (reads 32 l)); [destruct (i <? 5); [apply config_read_ok|by apply io_ok_ret]|]. intros high k [-> Hhigh].
    destruct (decode_bar low high i) as [bar|] eqn:Ed; [|by apply io_ok_ret].
    eapply io_ok_bind; [apply config_write_ok|]. intros _ k ->. eapply io_ok_bind; [apply config_read_ok|]. intros p k [-> _].
    eapply io_ok_bind; [apply config_write_ok|]. intros _ k ->. apply io_ok_ret. split; [done|]. intros b' s'.
    pose proof (decode_bar_size_range p). destruct (Z.eqb_spec (decode_bar_size p) 0); [done|]. intros [= <- <-].
    split; [|lia]. eapply (decode_bar_nonneg low high i); [lia|lia|done]. }
  intros m Hm. destruct (Hok m Hm) as (o & m' & k & E & Hk & Hko & Ho). exists o, m', k. split; [done|]. split; [done|]. split; [done|].
  intros bar size Hs. destruct (Ho bar size Hs) as [? ?]. split; [done|]. split; [done|]. subst o. exact (Hbars _ _ _ _ _ _ Hi E).
Qed.

Definition all_windows (P : Window → Prop) (f : Found4) : Prop :=
  ∀ w, fcommon f = Some w ∨ fnotify f = Some w ∨ fisr f = Some w ∨ fdevice f = Some w → P w.
Definition found_ok (f : Found4) : Prop :=
  all_windows (λ w, window_ok w ∧ len w ≤ MAX_WINDOW_BYTES) f ∧ 0 ≤ fmult f < 2 ^ 32.

Lemma put_window_ok f v w : found_ok f → cap_sane v → window_ok w → len w ≤ MAX_WINDOW_BYTES → found_ok (put_window f v w).
Proof.
  intros [Hf Hm] Hv Hw Hl. unfold put_window.
  repeat case_match; (split; [|cbn; done || apply Hv]); intros w' Hw'; cbn in Hw';
    repeat match goal with H : Some _ = Some _ ∨ _ |- _ => destruct H as [[= <-]|H] | H : _ ∨ _ |- _ => destruct H as [H|H] end;
    try (injection Hw' as <-); first [done | apply Hf; auto].
Qed.

Lemma take_cap_ok b cfg f cap l : 0 ≤ coffset cap → found_ok f →
  io_ok (D := D) (take_cap frame hhdm b cfg f cap) l (λ r k, grown l k ∧ match r with Ok f' => found_ok f' | Err _ => True end).
Proof.
  intros Hc Hf. unfold take_cap. destruct (parse_virtio_cap_total cfg cap Hc) as (o & Eo & Ho).
  eapply (io_ok_bind _ _ _ (λ a k, a = o ∧ k = l)); [by eapply io_ok_lift|]. intros ? k [-> ->].
  assert (∀ r : result Found4 ProbeError, match r with Ok f' => found_ok f' | Err _ => True end →
    io_ok (D := D) (io_ret r) l (λ r k, grown l k ∧ match r with Ok f' => found_ok f' | Err _ => True end)) as Hret.
  { intros r Hr. apply io_ok_ret. split; [apply grown_refl|done]. }
  destruct o as [v|]; [|by apply Hret]. specialize (Ho v eq_refl). destruct (negb _); [by apply Hret|].
  eapply io_ok_bind; [apply read_bar_ok, Ho|]. intros o k [-> Hb]. destruct o as [[bar size]|]; [|by apply Hret].
  destruct (Hb bar size eq_refl) as ([B1 _] & B2 & B3). destruct (checked_add 32 (voffset v) (vlength v)) as [stop|] eqn:Es; [|by apply Hret].
  apply checked_add_Some in Es as [-> Hs]. destruct (Z.eqb_spec (vlength v) 0); [by apply Hret|].
  destruct (Z.ltb_spec size (voffset v + vlength v)); [by apply Hret|]. destruct (Z.ltb_spec MAX_WINDOW_BYTES (vlength v)); [by apply Hret|].
  destruct Ho as [V1 V2 V3 V4].
  eapply (io_ok_bind _ _ _ (λ a k, a = bar + voffset v ∧ k = l)); [eapply io_ok_lift; [apply add_chk_ok; lia|done]|]. intros pa k [-> ->].
  eapply io_ok_bind; [apply map_window_ok; [done|lia..]|]. intros [w|] k [Hg Hw]; apply io_ok_ret; (split; [done|]); [|done].
  destruct (Hw w eq_refl) as [-> Hwo]. by apply put_window_ok.
Qed.

Lemma take_caps_ok b cfg caps : Forall (λ c, 0 ≤ coffset c) caps → ∀ f l, found_ok f →
  io_ok (D := D) (take_caps frame hhdm b cfg f caps) l (λ r k, grown l k ∧ match r with Ok f' => found_ok f' | Err _ => True end).
Proof.
  induction 1 as [|c caps Hc _ IH]; intros f l Hf; cbn [take_caps]; [apply io_ok_ret; split; [apply grown_refl|done]|].
  eapply io_ok_try; [by apply take_cap_ok| |done]. intros f' k [Hg Hf']. eapply io_ok_mono; [by apply IH|].
  intros r j [Hg' Hr]. split; [by eapply grown_trans|done].
Qed.

(** What the checks of [probe] guarantee of a transport. *)
Record transport_ok (t : Transport) : Prop := {
  to_common : window_ok (common t) ∧ len (common t) ≤ MAX_WINDOW_BYTES;
  to_notify : window_ok (notify t) ∧ len (notify t) ≤ MAX_WINDOW_BYTES;
  to_isr : window_ok (isr t) ∧ len (isr t) ≤ MAX_WINDOW_BYTES;
  to_device : window_ok (devcfg t) ∧ len (devcfg t) ≤ MAX_WINDOW_BYTES;
  to_mult : 0 ≤ notify_multiplier t < 2 ^ 32
}.

Lemma walk_sound cfg : length cfg = 256%nat →
  ∃ r, walk_capabilities cfg = Ret r ∧ ∀ caps, r = Ok caps → Forall (λ c, 0 ≤ coffset c) caps.
Proof.
  intros Hc. unfold walk_capabilities. rewrite (byte_at_ok cfg Hc) by (unfold CAP_POINTER; lia). cbn [mbind outcome_bind].
  destruct (walk_from_spec cfg Hc 64 0 [] eq_refl ltac:(lia) eq_refl) as (r & E & Hr). cbn [chain] in E. rewrite E. exists r. split; [done|].
  intros caps ->. destruct Hr as (k & _ & _ & _ & ->). apply Forall_fmap, Forall_forall. intros i _. cbn. by apply chain_range.
Qed.

Lemma discover_ok id l :
  io_ok (D := D) (discover frame hhdm id) l (λ r k, grown l k ∧ match r with Ok t => transport_ok t | Err _ => True end).
Proof.
  unfold discover. eapply io_ok_bind; [apply find_device_ok|]. intros [b|] k ->.
  2: { eapply io_ok_bind; [apply find_device_ok|]. intros o k ->. apply io_ok_ret. split; [apply grown_refl|done]. }
  eapply io_ok_bind; [apply config_read_ok|]. intros cmd k [-> _]. eapply io_ok_bind; [apply config_write_ok|]. intros _ k ->.
  eapply io_ok_bind; [apply snapshot_ok|]. intros cfg k [-> Hcfg]. destruct (walk_sound cfg Hcfg) as (r & Er & Hr).
  eapply (io_ok_bind _ _ _ (λ a k, a = r ∧ k = l)); [by eapply io_ok_lift|]. intros ? k [-> ->].
  destruct r as [caps|e]; [|apply io_ok_ret; split; [apply grown_refl|done]]. specialize (Hr caps eq_refl).
  eapply io_ok_try; [apply take_caps_ok| |done].
  - apply Forall_forall. intros c [_ Hin]%list_elem_of_filter. rewrite Forall_forall in Hr. by apply Hr.
  - split; [|done]. intros w. cbn. naive_solver.
  - intros f k [Hg [Hw Hm]].
    destruct (fcommon f) as [wc|] eqn:E1; [|by apply io_ok_ret]. destruct (fnotify f) as [wn|] eqn:E2; [|by apply io_ok_ret].
    destruct (fisr f) as [wi|] eqn:E3; [|by apply io_ok_ret]. destruct (fdevice f) as [wd|] eqn:E4; [|by apply io_ok_ret].
    apply io_ok_ret. split; [done|]. split; cbn; try done; apply Hw; auto.
Qed.
End Discovery.
