(* ===== verification/InitProofs.v ===== *)
(** Proofs about bring-up ([Transport], [BlockInit]): the registers of a
    transport, the MSI-X table, and the buffers of the driver. *)
From S2P Require Import Prelude Bits Mem Virtio Block BlockProofs BlockThms Paging PagingProofs Vm Pci PciProofs Transport TransportProofs BlockInit.
From Stdlib Require Import Strings.Byte.

(** The common configuration is one the registers fit in, and are aligned
    in: the widest are eight bytes. *)
Definition COMMON_BYTES : Z := 56.
Definition regs (t : Transport) : Prop := window_ok (common t) ∧ COMMON_BYTES ≤ len (common t) ∧ base (common t) mod 8 = 0.
(** Where [notify] writes. *)
Definition doorbell (t : Transport) : Z := base (notify t) + queue_notify_off t * notify_multiplier t.

Section Registers.
Context {D F : Type} `{Pci.Device D} `{BlocksLaws F}.
#[local] Abbreviation io := (IO D (Sys F)).
#[local] Abbreviation blocks := (list (Z * nat)).

Lemma reg_aligned a o n : 0 < n → a mod 8 = 0 → 8 mod n = 0 → o mod n = 0 → (a + o) mod n = 0.
Proof.
  intros Hn Ha H8 Ho. apply Z.mod_divide in Ha, H8, Ho; [|lia..]. apply Z.mod_divide; [lia|].
  apply Z.divide_add_r; [|done]. by transitivity 8.
Qed.
Lemma reg_read_ok t o n l : regs t → 0 ≤ o → 0 < n → o + n ≤ COMMON_BYTES → 8 mod n = 0 → o mod n = 0 → io_ok (wread (common t) o n : io _) l (reads (8 * n) l).
Proof. intros (Hw & Hl & Ha) ? ? ? ? ?. apply wread_ok; [done..|lia|by apply reg_aligned]. Qed.
Lemma reg_write_ok t o n v l : regs t → 0 ≤ o → 0 < n → o + n ≤ COMMON_BYTES → 8 mod n = 0 → o mod n = 0 → io_ok (wwrite (common t) o n v : io _) l (quiet l).
Proof. intros (Hw & Hl & Ha) ? ? ? ? ?. apply wwrite_ok; [done..|lia|by apply reg_aligned]. Qed.

(** The next register access of a sequence. *)
Ltac reg :=
  first [ eapply io_ok_bind; [eapply reg_write_ok; [done|by vm_compute..]|intros ? ? ->]
        | eapply io_ok_bind; [eapply reg_read_ok; [done|by vm_compute..]|intros ? ? [-> ?]]
        | eapply reg_write_ok; [done|by vm_compute..]
        | eapply io_ok_mono; [eapply reg_read_ok; [done|by vm_compute..]|by intros ? ? [-> ?]] ].

Lemma set_status_ok t bits l : regs t → io_ok (set_status t bits : io _) l (quiet l).
Proof. intros Ht. unfold set_status, status. reg. reg. Qed.

Lemma wait_reset_ok n : ∀ t spins l, regs t → 0 ≤ spins → spins + Z.of_nat n = RESET_SPIN_LIMIT → (0 < n)%nat →
  io_ok (wait_reset n t spins : io _) l (quiet l).
Proof.
  induction n as [|n IH]; intros t spins l Ht Hs Hn Hpos; [lia|]. cbn [wait_reset]. unfold status. reg.
  destruct (_ =? 0); [by apply io_ok_ret|].
  eapply io_ok_bind; [eapply (io_ok_lift _ _ _ (λ a k, a = spins + 1 ∧ k = l)); [apply add_chk_ok; unfold RESET_SPIN_LIMIT in Hn; lia|done]|].
  intros ? ? [-> ->]. destruct (Z.leb_spec RESET_SPIN_LIMIT (spins + 1)); [by apply io_ok_ret|]. apply IH; [done|lia..].
Qed.

Lemma reset_ok t l : regs t → io_ok (reset t : io _) l (λ r k, k = l ∧ ∀ t', r = Ok t' → t' = t).
Proof.
  intros Ht. unfold reset. reg. eapply io_ok_try; [apply wait_reset_ok; [done|unfold RESET_SPIN_LIMIT; lia..]| |by intros ? ? ->].
  intros ? ? ->. eapply io_ok_bind; [by apply set_status_ok|]. intros _ ? ->. eapply io_ok_bind; [by apply set_status_ok|]. intros _ ? ->.
  apply io_ok_ret. split; [done|]. by intros t' [= <-].
Qed.

Lemma negotiate_ok t wanted l : regs t → io_ok (negotiate t wanted : io _) l (quiet l).
Proof.
  intros Ht. unfold negotiate. eapply (io_ok_bind _ _ _ (quiet l)).
  { unfold device_features. do 4 reg. by apply io_ok_ret. }
  intros offered ? ->. destruct (_ =? 0); [by apply io_ok_ret|]. do 4 reg. eapply io_ok_bind; [by apply set_status_ok|]. intros _ ? ->.
  unfold status. reg. destruct (_ =? 0); [by apply io_ok_ret|]. reg. destruct (negb _); by apply io_ok_ret.
Qed.

(** The queue's addresses fit, and a notify offset that is accepted is one
    [notify] can write at, if it is even. *)
Definition rings_bell (t : Transport) : Prop := doorbell t mod 2 = 0 → ∀ l, io_ok (notify_queue t : io _) l (quiet l).

Lemma notify_fits_ok t off : 0 ≤ off → transport_ok t → notify_fits t off = true → rings_bell (with_notify_off t off).
Proof.
  intros Ho Ht. unfold notify_fits. destruct (checked_mul 64 off (notify_multiplier t)) as [o|] eqn:Em; [|done]. cbn.
  destruct (checked_add 64 o 2) as [stop|] eqn:Ea; [|done]. intros Hs%Z.leb_le Hev l. destruct Ht as [_ [Hw _] _ _ Hmul].
  apply checked_add_Some in Ea as [-> Ha].
  apply checked_mul_Some in Em as [-> Ho'].
  unfold notify_queue. cbn. eapply (io_ok_bind _ _ _ (λ a k, a = off * notify_multiplier t ∧ k = l)).
  - by eapply io_ok_lift; [apply mul_chk_ok|].
  - intros ? ? [-> ->]. apply wwrite_ok; [done|nia|lia|done|exact Hev].
Qed.

Lemma configure_queue_ok t ring l : regs t → transport_ok t → 0 ≤ ring → ring + 4096 ≤ 2 ^ 47 →
  io_ok (configure_queue t (ring_layout QUEUE_SIZE) ring : io _) l
    (λ r k, k = l ∧ ∀ t', r = Ok t' → regs t' ∧ transport_ok t' ∧ rings_bell t').
Proof.
  intros Ht Hto Hr0 Hr. unfold configure_queue, configure_queue_sized, device_queue_size.
  eapply (io_ok_bind _ _ _ (quiet l)); [reg; reg|]. intros size ? ->. destruct (size <? QUEUE_SIZE); [by apply io_ok_ret|]. reg.
  assert (∀ o, 0 ≤ o ≤ 4096 → io_ok (io_lift (add_chk 64 ring o) : io _) l (quiet l)) as Hadd
    by (intros o Ho; eapply io_ok_lift; [apply add_chk_ok; lia|done]).
  do 3 (eapply io_ok_bind; [apply Hadd; by vm_compute|intros ? ? ->]; reg).
  reg. destruct (notify_fits t _) eqn:Ef; apply io_ok_ret; (split; [done|]); [|done]. intros t' [= <-].
  split; [exact Ht|]. split; [by destruct Hto; split|]. apply notify_fits_ok; [lia|done..].
Qed.

Lemma enable_queue_ok t l : regs t → io_ok (enable_queue t : io _) l (quiet l).
Proof. intros Ht. unfold enable_queue. reg. reg. Qed.
Lemma set_vector_ok t e l : regs t → io_ok (set_queue_msix_vector t e : io _) l (quiet l).
Proof. intros Ht. unfold set_queue_msix_vector. reg. reg. Qed.
Lemma declare_ready_ok t l : regs t → io_ok (Transport.finish t : io _) l (quiet l).
Proof.
  intros Ht. unfold Transport.finish, status. eapply io_ok_bind; [by apply set_status_ok|]. intros _ ? ->. reg. by apply io_ok_ret.
Qed.
End Registers.

(** ** MSI-X *)

Lemma parse_msix_total cfg cap : length cfg = 256%nat → 0 ≤ coffset cap →
  ∃ o, parse_msix cfg cap = Ret o ∧ ∀ x, o = Some x → 1 ≤ entries x ≤ 2048 ∧ 0 ≤ mbar x ∧ 0 ≤ moffset x < 2 ^ 32 ∧ moffset x mod 8 = 0.
Proof.
  intros Hl Hc. unfold parse_msix. destruct (capability_body_total cfg cap 12 Hc ltac:(lia)) as (r & -> & Hr). cbn [mbind outcome_bind].
  destruct r as [b|e]; [|by eexists]. destruct (Hr b eq_refl) as [Hb Hfit].
  destruct (le_at_total b 2 2 ltac:(lia) ltac:(lia) ltac:(lia)) as (ctl & -> & Hctl). cbn [mbind outcome_bind].
  assert (0 ≤ Z.land ctl 0x7ff < 2048) by (change 0x7ff with (Z.ones 11); rewrite Z.land_ones by lia; by apply Z.mod_pos_bound).
  rewrite add_chk_ok by lia. destruct (le_at_total b 4 4 ltac:(lia) ltac:(lia) ltac:(lia)) as (tab & -> & Htab).
  cbn [mbind outcome_bind]. rewrite add_chk_ok by lia. eexists. split; [done|]. intros x [= <-]. cbn. split; [lia|].
  split; [apply Z.land_nonneg; lia|]. change 7 with (2 ^ 3 - 1). rewrite land_bitnot_align by (lia || unfold fits; lia).
  pose proof (Z.mod_pos_bound tab (2 ^ 3) ltac:(lia)). pose proof (Z.div_mod tab (2 ^ 3) ltac:(lia)).
  pose proof (Z.div_pos tab (2 ^ 3) ltac:(lia) ltac:(lia)). change (2 ^ 3) with 8 in *. split; [lia|]. Z.to_euclidean_division_equations; lia.
Qed.

Section Bringup.
Context {D F : Type} `{Pci.Device D} `{BlocksLaws F} `{Mapper} (hhdm lapic : Z) (Hhdm : hhdm = 2 ^ 64 - 2 ^ 47).
#[local] Abbreviation io := (IO D (Sys F)).
Context (Hbars : bars_reachable (D := D) (F := F)).

Lemma program_ok base n address data l : 0 ≤ base → base mod 8 = 0 → 1 ≤ n → base + 16 ≤ 2 ^ 64 →
  io_ok (program (mkMsixTable base n) 0 address data : io _) l (quiet l).
Proof.
  intros Hb Hal Hn He. unfold program. cbn [tbase tentries]. destruct (Z.leb_spec n 0); [lia|].
  eapply (io_ok_bind _ _ _ (λ a k, a = 0 ∧ k = l)); [by eapply io_ok_lift; [apply mul_chk_ok|]|]. intros ? ? [-> ->].
  eapply (io_ok_bind _ _ _ (λ a k, a = base ∧ k = l)); [eapply io_ok_lift; [apply add_chk_ok; lia|split; [lia|done]]|]. intros ? ? [-> ->].
  assert (∀ o, 0 ≤ o ≤ 12 → io_ok (io_lift (add_chk 64 base o) : io _) l (λ a k, a = base + o ∧ k = l)) as Hadd
    by (intros o Ho; eapply io_ok_lift; [apply add_chk_ok; lia|done]).
  assert (∀ o v, o mod 4 = 0 → io_ok (mmio_write (base + o) 4 v : io _) l (quiet l)) as Hw
    by (intros o v Ho; apply mmio_write_ok; Z.to_euclidean_division_equations; lia).
  pose proof (Hw 0) as Hw0. rewrite Z.add_0_r in Hw0.
  do 8 (eapply io_ok_bind; [first [apply Hadd; lia|apply Hw; reflexivity|apply Hw0; reflexivity]|]; first [intros ? ? [-> ->]|intros ? ? ->]). by apply io_ok_ret.
Qed.

Lemma enable_msix_ok b o l : io_ok (enable_msix b o : io _) l (quiet l).
Proof. eapply io_ok_bind; [apply config_read_ok|]. intros raw ? [-> _]. apply config_write_ok. Qed.

Lemma install_msix_ok t l : regs t →
  io_ok (D := D) (install_msix btake hhdm lapic t) l (λ _ k, grown l k).
Proof.
  intros Ht. unfold install_msix. eapply io_ok_bind; [apply snapshot_ok|]. intros cfg ? [-> Hcfg].
  destruct (walk_sound cfg Hcfg) as (r & Er & Hr). eapply (io_ok_bind _ _ _ (λ a k, a = r ∧ k = l)); [by eapply io_ok_lift|]. intros ? ? [-> ->].
  assert (∀ r : result unit InitError, io_ok (D := D) (io_ret r) l (λ _ k, grown l k)) as Hret by (intros; apply io_ok_ret, grown_refl).
  destruct r as [caps|e]; [|apply Hret]. specialize (Hr caps eq_refl). destruct (find_first _ caps) as [cap|] eqn:Ef; [|apply Hret].
  apply find_first_Some in Ef as [Ef _]. rewrite Forall_forall in Hr. destruct (parse_msix_total cfg cap Hcfg (Hr cap Ef)) as (o & Eo & Ho).
  eapply (io_ok_bind _ _ _ (λ a k, a = o ∧ k = l)); [by eapply io_ok_lift|]. intros ? ? [-> ->].
  destruct o as [x|]; [|apply Hret]. destruct (Ho x eq_refl) as (X1 & X2 & X3 & X4).
  eapply io_ok_bind; [by apply read_bar_ok|]. intros o ? [-> Hb]. destruct o as [[bar size]|]; [|apply Hret].
  destruct (Hb bar size eq_refl) as ([B1 B4] & B2 & B3).
  assert (saturating_mul 32 (entries x) MSIX_ENTRY_BYTES = 16 * entries x) as -> by (unfold saturating_mul, MSIX_ENTRY_BYTES; lia).
  assert (saturating_add 64 (moffset x) (16 * entries x) = moffset x + 16 * entries x) as -> by (unfold saturating_add; lia).
  destruct (Z.ltb_spec size (moffset x + 16 * entries x)); [apply Hret|].
  eapply (io_ok_bind _ _ _ (λ a k, a = bar + moffset x ∧ k = l)); [eapply io_ok_lift; [apply add_chk_ok; lia|done]|]. intros ? ? [-> ->].
  eapply io_ok_bind; [apply map_window_ok; [done|lia..]|]. intros [w|] k [Hg Hw]; [|by apply io_ok_ret].
  destruct (Hw w eq_refl) as [-> Hwo]. eapply io_ok_bind; [apply program_ok; cbn; try lia; subst hhdm; Z.to_euclidean_division_equations; lia|]. intros [[]|e] ? ->; [|by apply io_ok_ret].
  eapply io_ok_bind; [apply enable_msix_ok|]. intros _ ? ->. eapply io_ok_bind; [by apply set_vector_ok|]. intros _ ? ->. by apply io_ok_ret.
Qed.

Lemma as_probe_ok {A} (x : io (result A ProbeError)) l Q :
  io_ok x l Q → io_ok (as_probe x) l (λ r k, ∃ r', Q r' k ∧ r = match r' with Ok a => Ok a | Err e => Err (Probe e) end).
Proof. intros Hx. eapply io_ok_bind; [exact Hx|]. intros r k HQ. apply io_ok_ret. eauto. Qed.

Lemma start_queue_ok t ring l : regs t → transport_ok t → 0 ≤ ring → ring + 4096 ≤ 2 ^ 47 →
  io_ok (D := D) (start_queue btake hhdm lapic t ring) l
    (λ r k, grown l k ∧ ∀ t', r = Ok t' → transport_ok t' ∧ rings_bell (D := D) (F := F) t').
Proof.
  intros Ht Hto Hr0 Hr. unfold start_queue. eapply io_ok_try; [by apply as_probe_ok, configure_queue_ok| |].
  - intros t' ? (r' & [-> Hok] & E). destruct r' as [t1|e]; [|done]. injection E as ->. destruct (Hok t1 eq_refl) as (R1 & R2 & R3).
    eapply io_ok_try; [by apply install_msix_ok| |by intros e k Hg]. intros u k Hg. cbn in Hg. clear u.
    eapply io_ok_bind; [by apply enable_queue_ok|]. intros _ ? ->. eapply io_ok_try; [by apply as_probe_ok, declare_ready_ok| |].
    + intros u k' (r' & Hk & _). red in Hk. subst k'. apply io_ok_ret. split; [done|]. by intros ? [= <-].
    + intros e k' (r' & Hk & _). red in Hk. subst k'. split; [done|]. by intros.
  - intros e ? (r' & [-> _] & _). split; [apply grown_refl|]. by intros.
Qed.
End Bringup.

(** ** The driver's buffers *)

Section Buffers.
Context {D F : Type} `{Pci.Device D} `{BlocksLaws F} `{Mapper} (hhdm lapic : Z) (Hhdm : hhdm = 2 ^ 64 - 2 ^ 47).
#[local] Abbreviation io := (IO D (Sys F)).
#[local] Abbreviation blocks := (list (Z * nat)).
Context (Hbars : bars_reachable (D := D) (F := F)).

Lemma guard_take_ok n held l : (n < 19)%nat → (length held < 3)%nat →
  io_ok (D := D) (guard_take btake n held) l
    (λ '(o, held') k, match o with
      | Some pa => frame_ok pa ∧ block_end (pa, n) ≤ 2 ^ 46 ∧ held' = held ++ [(pa, n)] ∧ k = (pa, n) :: l
      | None => held' = held ∧ k = l
      end).
Proof.
  intros Hn Hh m Hm. unfold guard_take. pose proof (btake_ok _ _ n Hm Hn) as Ht. destruct (btake (frames (rest m)) n) as [[pa|] f].
  - rewrite (proj2 (Nat.ltb_lt _ _) Hh). destruct Ht as ([T1 _] & T2 & T3). eexists _, _, _. split; [done|]. split; [exact T3|]. done.
  - eexists _, _, _. split; [done|]. split; [exact Ht|]. done.
Qed.

Lemma guard_drop_ok held : ∀ l j, l ≡ₚ held ++ j → io_ok (D := D) (guard_drop bgive held) l (λ _ k, k = j).
Proof.
  induction held as [|[pa n] held IH]; intros l j Hp m Hm; cbn [guard_drop].
  - exists tt, m, j. split; [done|]. split; [|done]. by eapply bok_perm.
  - destruct (bgive_ok (frames (rest m)) (held ++ j) pa n) as (f & -> & Hf); [by eapply bok_perm|]. cbn [mbind outcome_bind].
    apply (IH (held ++ j) j); done.
Qed.

Lemma zero_ok pa n l : 0 ≤ pa < 2 ^ 47 → io_ok (D := D) (F := F) (zero hhdm pa n) l (quiet l).
Proof.
  intros Hpa m Hm. unfold zero, at_hhdm. rewrite add_chk_ok by lia. cbn [mbind outcome_bind]. by eexists tt, _, l.
Qed.

Lemma blocks_pairwise f p q r l : bok f (p :: q :: r :: l) →
  (block_end p ≤ r.1 ∨ block_end r ≤ p.1) ∧ (block_end q ≤ r.1 ∨ block_end r ≤ q.1).
Proof.
  intros Hb. split.
  - apply (bok_apart f p r (q :: l)). eapply bok_perm; [|exact Hb]. apply perm_skip, Permutation_swap.
  - apply (bok_apart f q r (p :: l)). eapply bok_perm; [|exact Hb]. by rewrite Permutation_swap; apply perm_skip, Permutation_swap.
Qed.

(** Three blocks taken in turn are where the driver needs them. *)
Lemma buffers_layout f ring meta data l :
  frame_ok ring → frame_ok meta → frame_ok data → block_end (ring, 0%nat) ≤ 2 ^ 46 → block_end (meta, 0%nat) ≤ 2 ^ 46 → block_end (data, 6%nat) ≤ 2 ^ 46 →
  bok f ((data, 6%nat) :: (meta, 0%nat) :: (ring, 0%nat) :: l) → layout_ok (mkLayoutAt hhdm ring meta data).
Proof.
  unfold frame_ok, block_end. cbn [fst snd]. change (2 ^ Z.of_nat 0) with 1. change (2 ^ Z.of_nat 6) with 64. intros R M T Re Me Te Hb.
  pose proof (bok_apart _ _ _ _ Hb) as Q1. pose proof (blocks_pairwise _ _ _ _ _ Hb) as [Q2 Q3].
  unfold block_end in Q1, Q2, Q3. cbn [fst snd] in Q1, Q2, Q3. change (2 ^ Z.of_nat 0) with 1 in *. change (2 ^ Z.of_nat 6) with 64 in *.
  split.
  - unfold spaced, placed, apart. cbn. change QUEUE_SIZE with 64. change SLOT_BYTES with 4096. lia.
  - repeat constructor; cbn; change QUEUE_SIZE with 64; change SLOT_BYTES with 4096; lia.
Qed.

(** What is out after an attempt: what was, the page tables, and what the
    guard still has or the driver keeps. *)
Definition kept (l held k : blocks) : Prop := ∃ tabs, Forall (λ p, p.2 = 0%nat) tabs ∧ k ≡ₚ tabs ++ held ++ l.

Definition driving (t : Transport) (b : Blk) (held : blocks) : Prop :=
  ∃ w, layout_ok w ∧ BlockThms.hhdm w = hhdm ∧ held = [(BlockThms.ring w, 0%nat); (BlockThms.meta w, 0%nat); (BlockThms.data w, 6%nat)] ∧
    Block.device (Block.sys (start w)) = Some b ∧ transport_ok t ∧ rings_bell (D := D) (F := F) t.

Lemma kept_grown l held j k : kept l held j → grown j k → kept l held k.
Proof.
  intros (t1 & T1 & E) (t2 & -> & T2). exists (t2 ++ t1). split; [by apply Forall_app|]. by rewrite E, app_assoc.
Qed.

Lemma allocate_and_start_ok t l : regs t → transport_ok t →
  io_ok (D := D) (allocate_and_start btake hhdm lapic t) l
    (λ '(r, held) k, match r with
      | Ok (t', b) => held = [] ∧ ∃ mine, driving t' b mine ∧ kept l mine k
      | Err _ => kept l held k
      end).
Proof.
  intros Ht Hto. unfold allocate_and_start.
  eapply io_ok_bind; [apply guard_take_ok; cbn; lia|]. intros [[ring|] held] k HR; [|destruct HR as [-> ->]; apply io_ok_ret; by exists []].
  destruct HR as (R1 & R2 & -> & ->). eapply io_ok_bind; [apply guard_take_ok; cbn; lia|]. intros [[meta|] held] k HM.
  2: { destruct HM as [-> ->]. apply io_ok_ret. by exists []. }
  destruct HM as (M1 & M2 & -> & ->). eapply io_ok_bind; [apply guard_take_ok; cbn; lia|]. intros [[data|] held] k HD.
  2: { destruct HD as [-> ->]. apply io_ok_ret. exists []. split; [done|]. cbn. apply Permutation_swap. }
  destruct HD as (T1 & T2 & -> & ->). cbn [app].
  set (l3 := (data, 6%nat) :: (meta, 0%nat) :: (ring, 0%nat) :: l). unfold frame_ok in R1, M1, T1.
  assert (kept l [(ring, 0%nat); (meta, 0%nat); (data, 6%nat)] l3) as Hk.
  { exists []. split; [done|]. cbn. unfold l3. rewrite Permutation_swap. rewrite (Permutation_swap _ (data, 6%nat)).
    rewrite Permutation_swap. done. }
  apply io_ok_know. intros f Hf. pose proof (buffers_layout _ _ _ _ _ R1 M1 T1 R2 M2 T2 Hf) as Hlay.
  do 3 (eapply io_ok_bind; [apply zero_ok; lia|]; intros _ ? ->).
  eapply io_ok_bind; [apply start_queue_ok; (done || lia)|]. intros [t'|e] k [Hg Hok]; [|by apply io_ok_ret, (kept_grown _ _ l3)].
  eapply (io_ok_bind _ _ _ (λ q j, q = q64 ∧ j = k)); [by eapply io_ok_lift|]. intros ? ? [-> ->]. apply io_ok_ret. split; [done|].
  eexists. split; [|by eapply kept_grown]. exists (mkLayoutAt hhdm ring meta data). do 4 (split; [done|]). by apply Hok.
Qed.
End Buffers.
