(* ===== verification/BringUp.v ===== *)
(** Theorems about bringing the block device up ([Transport], [BlockInit]):
    what any device can and cannot make of it, and the order in which a
    device that comes up was spoken to. *)
From S2P Require Import Prelude Bits Mem Virtio Block BlockProofs BlockThms Paging PagingProofs Vm Pci PciProofs Transport TransportProofs BlockInit InitProofs.
From Stdlib Require Import Strings.Byte.

(** ** Any device *)

Section Survives.
Context {D F : Type} `{Pci.Device D} `{BlocksLaws F} `{Mapper} (hhdm lapic : Z) (Hhdm : hhdm = 2 ^ 64 - 2 ^ 47).
Context (Hbars : bars_reachable (D := D) (F := F)).

(** From a transport whose registers fit. *)
Definition from_transport (t : Transport) : IO D (Sys F) (result (Transport * Blk) InitError) :=
  try! t := as_probe (reset t) in
  try! _ := as_probe (negotiate t VIRTIO_F_VERSION_1) in
  do! (r, held) := allocate_and_start btake hhdm lapic t in
  do! _ := guard_drop bgive held in
  io_ret r.

Lemma kept_nil l : kept l [] l.
Proof. by exists []. Qed.

Lemma kept_drop l held k : kept l held k → ∃ j, kept l [] j ∧ k ≡ₚ held ++ j.
Proof.
  intros (tabs & Ht & E). exists (tabs ++ l). split; [by exists tabs|]. rewrite E. apply Permutation_app_swap_app.
Qed.

Lemma kept_trans l held k j : kept l [] k → kept k held j → kept l held j.
Proof.
  intros (t1 & T1 & E1) (t2 & T2 & E2). exists (t2 ++ t1). split; [by apply Forall_app|]. rewrite E2, E1. cbn [app].
  rewrite <- app_assoc. apply Permutation_app_head, Permutation_app_swap_app.
Qed.

Lemma from_transport_ok t l : regs t → transport_ok t →
  io_ok (from_transport t) l (λ r k, match r with
    | Ok (t', b) => ∃ mine, driving (D := D) (F := F) hhdm t' b mine ∧ kept l mine k
    | Err _ => kept l [] k
    end).
Proof.
  intros Ht Hto. unfold from_transport. eapply io_ok_try; [by apply as_probe_ok, reset_ok| |].
  2: { intros e k (r' & [-> _] & _). apply kept_nil. }
  intros t1 k (r' & [-> Hr'] & E). destruct r' as [t2|]; [|done]. injection E as ->. specialize (Hr' t2 eq_refl) as ->.
  eapply io_ok_try; [by apply as_probe_ok, negotiate_ok| |].
  2: { intros e k (r' & Hk & _). red in Hk. subst k. apply kept_nil. }
  intros u k (r' & Hk & _). red in Hk. subst k. clear u r'.
  eapply io_ok_bind; [by apply allocate_and_start_ok|]. intros [r held] k Hr. destruct r as [[t' b]|e].
  - destruct Hr as [-> Hr]. eapply io_ok_bind; [by apply (guard_drop_ok [] k k)|]. intros u j ->. by apply io_ok_ret.
  - apply kept_drop in Hr as (j & Hj & Hp). eapply io_ok_bind; [by apply (guard_drop_ok held k j)|]. intros u j' ->. by apply io_ok_ret.
Qed.

Lemma as_probe_try {A B C} (x : IO D (Sys F) (result A ProbeError)) (f : A → IO D (Sys F) (result B ProbeError)) (k : B → IO D (Sys F) (result C InitError)) m :
  io_try (as_probe (io_try x f)) k m = io_try (as_probe x) (λ a, io_try (as_probe (f a)) k) m.
Proof.
  unfold as_probe, io_try, io_bind. destruct (x m) as [[[a|e] m1]|]; cbn; [|done..]. by destruct (f a m1) as [[[b|e] m2]|].
Qed.

(** [init] is [discover] and the rest. *)
Lemma init_split m :
  BlockInit.init btake bgive hhdm lapic None m =
  io_try (as_probe (discover (λ f, btake f 0%nat) hhdm VIRTIO_BLK_MODERN)) from_transport m.
Proof. apply as_probe_try. Qed.

(** C21: Bringing the block device up survives any device. Whatever it
    answers in configuration space and in its registers, as long as its BARs
    lie within the higher-half map, either [probe] accepted a common
    configuration too short for its registers or not aligned to eight bytes,
    neither of which it checks, or [init] returns: with an error, after
    which everything it allocated but page tables for device windows has
    been given back; or with a driver whose three buffers are its own and
    apart, as the driver's theorems need them, and a doorbell that never
    faults unless the offset and the multiplier the device gave, which
    nothing checks for that either, put it at an odd address. *)
Theorem bring_up_survives_any_device m l :
  bok (frames (rest m)) l →
  (∃ t m', discover (λ f, btake f 0%nat) hhdm VIRTIO_BLK_MODERN m = Ret (Ok t, m') ∧ (len (common t) < COMMON_BYTES ∨ base (common t) mod 8 ≠ 0)) ∨
  ∃ r m' k, BlockInit.init btake bgive hhdm lapic None m = Ret (r, m') ∧ bok (frames (rest m')) k ∧
    match r with
    | Ok (t, b) => ∃ mine, driving (D := D) (F := F) hhdm t b mine ∧ kept l mine k
    | Err _ => kept l [] k
    end.
Proof.
  intros Hm. destruct (discover_ok hhdm Hhdm Hbars VIRTIO_BLK_MODERN l m Hm) as (r & m1 & k & E & Hk & Hg & Hr).
  rewrite init_split. unfold as_probe, io_try, io_bind at 1 2. rewrite E. cbn [mbind outcome_bind].
  assert (kept l [] k) as Hlk by (destruct Hg as (tabs & -> & Ht); by exists tabs).
  destruct r as [t|e]; [|right; by eexists _, _, k].
  destruct (Z.lt_ge_cases (len (common t)) COMMON_BYTES) as [|Hfit]; [left; eexists _, _; by split; [|left]|].
  destruct (Z.eq_dec (base (common t) mod 8) 0) as [Hal|]; [right|left; eexists _, _; by split; [|right]].
  destruct (from_transport_ok t k (conj (proj1 (to_common _ Hr)) (conj Hfit Hal)) Hr m1 Hk) as (r & m2 & j & E2 & Hj & HQ).
  exists r, m2, j. split; [exact E2|]. split; [done|]. destruct r as [[t' b]|e]; [destruct HQ as (mine & Hd & HQ); exists mine; split; [done|]|];
    by eapply kept_trans.
Qed.
End Survives.

(** ** The order of accesses *)

Section Traces.
Context {D F : Type} `{Pci.Device D} `{Mapper} (take : F → nat → option Z * F) (give : F → Z → nat → outcome F) (hhdm lapic : Z).
#[local] Abbreviation io := (IO D (Sys F)).

(** Whenever [x] returns, the log has grown by something that fits. *)
Definition traced {A} (x : io A) (Q : A → list Access → Prop) : Prop :=
  ∀ m a m', x m = Ret (a, m') → ∃ tr, log m' = log m ++ tr ∧ Q a tr.

Lemma traced_ret {A} (a : A) (Q : A → list Access → Prop) : Q a [] → traced (io_ret a) Q.
Proof. intros HQ m a' m' [= <- <-]. exists []. by rewrite app_nil_r. Qed.
Lemma traced_bind {A B} (x : io A) (f : A → io B) R Q :
  traced x R → (∀ a tr, R a tr → traced (f a) (λ b tr', Q b (tr ++ tr'))) → traced (io_bind x f) Q.
Proof.
  intros Hx Hf m b m' (a & m1 & E1 & E2)%io_bind_inv. destruct (Hx _ _ _ E1) as (t1 & L1 & HR).
  destruct (Hf a t1 HR _ _ _ E2) as (t2 & L2 & HQ). exists (t1 ++ t2). split; [|done]. by rewrite L2, L1, app_assoc.
Qed.
Lemma traced_try {A B E} (x : io (result A E)) (f : A → io (result B E)) R (Q : result B E → list Access → Prop) :
  traced x R → (∀ a tr, R (Ok a) tr → traced (f a) (λ b tr', Q b (tr ++ tr'))) → (∀ e tr, Q (Err e) tr) → traced (io_try x f) Q.
Proof. intros Hx Hf He. eapply traced_bind; [exact Hx|]. intros [a|e] tr HR; [by apply Hf|]. apply traced_ret, He. Qed.
Lemma traced_lift {A} (o : outcome A) (Q : A → list Access → Prop) : (∀ a, o = Ret a → Q a []) → traced (io_lift o) Q.
Proof. intros HQ m a m'. unfold io_lift. destruct o as [a0|]; [|done]. intros [= <- <-]. exists []. rewrite app_nil_r. auto. Qed.
Lemma traced_any {A} (x : io A) Q R : traced x R → (∀ a tr, R a tr → Q a tr) → traced x Q.
Proof. intros Hx HQ m a m' E. destruct (Hx _ _ _ E) as (tr & ? & ?). eauto. Qed.

Lemma mmio_write_traced a n v : traced (mmio_write a n v) (λ _ tr, tr = [MmioWrite a n v]).
Proof. intros m u m'. unfold mmio_write. destruct (_ =? 0); [|done]. intros [= <- <-]. by eexists. Qed.
Lemma wwrite_traced w o n v : traced (wwrite w o n v) (λ _ tr, tr = [MmioWrite (base w + o) n v]).
Proof.
  eapply traced_bind; [apply (traced_lift _ (λ _ tr, tr = [])); done|]. intros _ ? ->.
  eapply traced_bind; [apply (traced_lift _ (λ a tr, a = base w + o ∧ tr = [])); by intros a [-> _]%add_chk_ret|]. intros a ? [-> ->].
  apply mmio_write_traced.
Qed.
Lemma wread_traced w o n : traced (wread w o n) (λ v tr, tr = [MmioRead (base w + o) n v]).
Proof.
  eapply traced_bind; [apply (traced_lift _ (λ _ tr, tr = [])); done|]. intros _ ? ->.
  eapply traced_bind; [apply (traced_lift _ (λ a tr, a = base w + o ∧ tr = [])); by intros a [-> _]%add_chk_ret|]. intros a ? [-> ->].
  intros m u m'. unfold mmio_read. destruct (_ =? 0); [|done]. cbn [rust_assert mbind outcome_bind]. destruct (dev_read _ _ _). intros [= <- <-]. by eexists.
Qed.
(** Steps of which only that they log is needed. *)
Definition grows {A} (x : io A) : Prop := traced x (λ _ _, True).

Lemma grows_bind {A B} (x : io A) (f : A → io B) : grows x → (∀ a, grows (f a)) → grows (io_bind x f).
Proof. intros Hx Hf. eapply traced_bind; [exact Hx|]. intros a tr _. apply Hf. Qed.
Lemma grows_ret {A} (a : A) : grows (io_ret a).
Proof. by apply traced_ret. Qed.
Lemma grows_lift {A} (o : outcome A) : grows (io_lift o).
Proof. by apply traced_lift. Qed.
Lemma grows_try {A B E} (x : io (result A E)) (f : A → io (result B E)) : grows x → (∀ a, grows (f a)) → grows (io_try x f).
Proof. intros Hx Hf. apply grows_bind; [done|]. intros [a|e]; [apply Hf|apply grows_ret]. Qed.
Lemma grows_out p v : grows (outl p v).
Proof. intros m a m' [= <- <-]. by eexists. Qed.
Lemma grows_in p : grows (inl_ p).
Proof. intros m a m'. unfold inl_. destruct (dev_in _ _). intros [= <- <-]. by eexists. Qed.
Lemma grows_mmio a n v : grows (mmio_write a n v).
Proof. eapply traced_any; [apply mmio_write_traced|done]. Qed.

Ltac grow :=
  repeat first [ apply grows_try | apply grows_bind | apply grows_ret | apply grows_lift | apply grows_out | apply grows_in | apply grows_mmio
               | progress intros | case_match | progress cbn beta ].

Lemma grows_device_page va page :
  grows (λ m : Machine D (Sys F), '(r, s) ← map_device_page (λ f, take f 0%nat) (rest m) va page; Ret (r, mkMachine (dev m) s (log m))).
Proof. intros m r m'. destruct (map_device_page _ _ _ _) as [[r0 s]|]; [|done]. intros [= <- <-]. exists []. by rewrite app_nil_r. Qed.

Lemma grows_window pa n : grows (map_window (λ f, take f 0%nat) hhdm pa n).
Proof.
  assert (∀ n page last, grows (map_window_from (λ f, take f 0%nat) hhdm n page last)) as Hm.
  { intros k. induction k as [|k IH]; intros page last; cbn [map_window_from]; destruct (_ <? _); [apply grows_ret|done|apply grows_ret|].
    apply grows_bind; [apply grows_lift|]. intros va. apply grows_bind; [apply grows_device_page|]. intros [[]|e]; [|apply grows_ret].
    apply grows_bind; [apply grows_lift|]. auto. }
  unfold map_window. repeat first [apply Hm | progress grow].
Qed.

Lemma grows_snapshot b : grows (config_snapshot b : io _).
Proof. unfold config_snapshot. generalize 64%nat as n, 0 as d. induction n as [|n IH]; intros d; cbn [snapshot_from]; unfold config_read32; grow. apply IH. Qed.

Lemma grows_bar b i : grows (read_bar b i : io _).
Proof. unfold read_bar, config_read32, config_write32. grow. Qed.

Lemma grows_program t e a v : grows (program t e a v : io _).
Proof. unfold program. grow. Qed.

Lemma grows_drop held : grows (guard_drop give held).
Proof.
  induction held as [|[pa n] held IH]; cbn [guard_drop]; [apply grows_ret|]. intros m u m'. destruct (give _ _ _) as [f|]; [|done].
  cbn [mbind outcome_bind]. intros E. destruct (IH _ _ _ E) as (tr & -> & _). cbn [log]. eexists. by rewrite <- app_assoc.
Qed.

Lemma grows_find v d : grows (find_device v d : io _).
Proof.
  assert (∀ slot fs, grows (scan_functions v d (λ b, config_read32 b 0) slot fs : io _)) as Hf.
  { intros slot fs. induction fs as [|f fs IH]; cbn [scan_functions]; unfold config_read32 in *; repeat first [apply IH|progress grow]. }
  unfold find_device, scan_for. generalize (Z.of_nat <$> seq 0 32) as slots.
  induction slots as [|s slots IH]; cbn [scan_slots]; repeat first [apply IH|apply Hf|progress grow].
Qed.

Lemma grows_caps b cfg caps : ∀ f, grows (take_caps (λ f, take f 0%nat) hhdm b cfg f caps).
Proof.
  induction caps as [|c caps IH]; intros f; cbn [take_caps]; [apply grows_ret|]. apply grows_try; [|auto].
  unfold take_cap. repeat first [apply grows_bar|apply grows_window|progress grow].
Qed.

Lemma grows_discover id : grows (discover (λ f, take f 0%nat) hhdm id).
Proof.
  unfold discover. apply grows_bind; [apply grows_find|]. intros [b|]; [|apply grows_bind; [apply grows_find|]; intros o; apply grows_ret].
  apply grows_bind; [unfold config_read32; grow|]. intros cmd. apply grows_bind; [unfold config_write32; grow|]. intros _.
  apply grows_bind; [apply grows_snapshot|]. intros cfg. apply grows_bind; [apply grows_lift|]. intros [caps|e]; [|apply grows_ret].
  apply grows_try; [apply grows_caps|]. intros f. do 4 (apply grows_try; [apply grows_ret|intros ?]). apply grows_ret.
Qed.

(** *** The accesses of each phase, with the common configuration at [c] *)

Definition or_status (c s bits : Z) : list Access :=
  [MmioRead (c + DEVICE_STATUS) 1 s; MmioWrite (c + DEVICE_STATUS) 1 (Z.lor s bits)].

(** Reset, wait until the status reads zero, acknowledge, claim. *)
Definition reset_trace (c : Z) (tr : list Access) : Prop :=
  ∃ polls s1 s2, Forall (λ s, s ≠ 0) polls ∧
    tr = [MmioWrite (c + DEVICE_STATUS) 1 0] ++ (MmioRead (c + DEVICE_STATUS) 1 <$> polls ++ [0]) ++
      or_status c s1 STATUS_ACKNOWLEDGE ++ or_status c s2 STATUS_DRIVER.

(** Both halves of the features, the half of them that is agreed to,
    FEATURES_OK, and the device's assent. *)
Definition features_trace (c : Z) (tr : list Access) : Prop :=
  ∃ lo hi s1 s2 s3, let agreed := Z.land (Z.lor lo (Z.shiftl hi 32)) VIRTIO_F_VERSION_1 in
    Z.land agreed VIRTIO_F_VERSION_1 ≠ 0 ∧ Z.land s2 STATUS_FEATURES_OK ≠ 0 ∧ Z.land s3 STATUS_FAILED = 0 ∧
    tr = [MmioWrite (c + DEVICE_FEATURE_SELECT) 4 0; MmioRead (c + DEVICE_FEATURE) 4 lo;
          MmioWrite (c + DEVICE_FEATURE_SELECT) 4 1; MmioRead (c + DEVICE_FEATURE) 4 hi;
          MmioWrite (c + DRIVER_FEATURE_SELECT) 4 0; MmioWrite (c + DRIVER_FEATURE) 4 (agreed mod 2 ^ 32);
          MmioWrite (c + DRIVER_FEATURE_SELECT) 4 1; MmioWrite (c + DRIVER_FEATURE) 4 (Z.shiftr agreed 32 mod 2 ^ 32)] ++
         or_status c s1 STATUS_FEATURES_OK ++ [MmioRead (c + DEVICE_STATUS) 1 s2; MmioRead (c + DEVICE_STATUS) 1 s3].

(** The queue's size and its three addresses. *)
Definition queue_trace (c ring : Z) (tr : list Access) : Prop :=
  ∃ size off, QUEUE_SIZE ≤ size ∧
    tr = [MmioWrite (c + QUEUE_SELECT) 2 0; MmioRead (c + QUEUE_SIZE_REG) 2 size; MmioWrite (c + QUEUE_SIZE_REG) 2 QUEUE_SIZE;
          MmioWrite (c + QUEUE_DESC) 8 ring; MmioWrite (c + QUEUE_DRIVER) 8 (ring + lavail (ring_layout QUEUE_SIZE));
          MmioWrite (c + QUEUE_DEVICE) 8 (ring + lused (ring_layout QUEUE_SIZE)); MmioRead (c + QUEUE_NOTIFY_OFF) 2 off].

(** The interrupt is bound last of the queue's fields, the queue enabled
    after it, and the driver declared ready after that. *)
Definition live_trace (c : Z) (tr : list Access) : Prop :=
  ∃ s1 s2, Z.land s2 STATUS_FAILED = 0 ∧
    tr = [MmioWrite (c + QUEUE_SELECT) 2 0; MmioWrite (c + QUEUE_MSIX_VECTOR) 2 0;
          MmioWrite (c + QUEUE_SELECT) 2 0; MmioWrite (c + QUEUE_ENABLE) 2 1] ++
         or_status c s1 STATUS_DRIVER_OK ++ [MmioRead (c + DEVICE_STATUS) 1 s2].

Ltac access :=
  first [ eapply traced_bind; [apply wwrite_traced|intros ? ? ->] | eapply traced_bind; [apply wread_traced|intros ? ? ->]
        | eapply traced_any; [apply wwrite_traced|intros ? ? ->] | eapply traced_any; [apply wread_traced|intros ? ? ->] ].

Lemma set_status_traced t bits : traced (set_status t bits : io _) (λ _ tr, ∃ s, tr = or_status (base (common t)) s bits).
Proof. unfold set_status, status. access. access. by eexists. Qed.

Lemma wait_reset_traced t n : ∀ spins, traced (wait_reset n t spins : io _)
  (λ r tr, r = Ok tt → ∃ polls, Forall (λ s, s ≠ 0) polls ∧ tr = MmioRead (base (common t) + DEVICE_STATUS) 1 <$> polls ++ [0]).
Proof.
  induction n as [|n IH]; intros spins; cbn [wait_reset]; [done|]. unfold status. access.
  destruct (Z.eqb_spec a 0) as [->|Hne]; [apply traced_ret; intros _; by exists []|].
  eapply traced_bind; [apply (traced_lift _ (λ _ tr, tr = [])); done|]. intros sp ? ->.
  destruct (_ <=? _); [by apply traced_ret|]. eapply traced_any; [apply IH|]. intros r tr Htr Hr.
  destruct (Htr Hr) as (polls & Hp & ->). exists (a :: polls). split; [by constructor|done].
Qed.

Lemma reset_traced t : traced (reset t : io _) (λ r tr, ∀ t', r = Ok t' → t' = t ∧ reset_trace (base (common t)) tr).
Proof.
  unfold reset. access. eapply traced_try; [apply wait_reset_traced| |done]. intros [] tr Htr. destruct (Htr eq_refl) as (polls & Hp & ->).
  eapply traced_bind; [apply set_status_traced|]. intros _ ? [s1 ->]. eapply traced_bind; [apply set_status_traced|]. intros _ ? [s2 ->].
  apply traced_ret. intros t' [= <-]. split; [done|]. exists polls, s1, s2. split; [done|]. by rewrite app_nil_r.
Qed.

Lemma negotiate_traced t : traced (negotiate t VIRTIO_F_VERSION_1 : io _)
  (λ r tr, ∀ f, r = Ok f → features_trace (base (common t)) tr).
Proof.
  unfold negotiate, device_features.
  eapply (traced_bind _ _ (λ f tr, ∃ lo hi, f = Z.lor lo (Z.shiftl hi 32) ∧ tr =
    [MmioWrite (base (common t) + DEVICE_FEATURE_SELECT) 4 0; MmioRead (base (common t) + DEVICE_FEATURE) 4 lo;
     MmioWrite (base (common t) + DEVICE_FEATURE_SELECT) 4 1; MmioRead (base (common t) + DEVICE_FEATURE) 4 hi])).
  { do 4 access. apply traced_ret. by eexists _, _. }
  intros ? ? (lo & hi & -> & ->). destruct (Z.eqb_spec (Z.land (Z.land (Z.lor lo (Z.shiftl hi 32)) VIRTIO_F_VERSION_1) VIRTIO_F_VERSION_1) 0) as [|Hv]; [by apply traced_ret|].
  do 4 access. eapply traced_bind; [apply set_status_traced|]. intros _ ? [s1 ->]. unfold status. access.
  destruct (Z.eqb_spec (Z.land a3 STATUS_FEATURES_OK) 0) as [|Hf]; [by apply traced_ret|]. access.
  destruct (Z.eqb_spec (Z.land a4 STATUS_FAILED) 0) as [Hd|]; apply traced_ret; [|done]. intros f _. exists lo, hi, s1, a3, a4. by cbn.
Qed.

Lemma configure_traced t ring : traced (configure_queue t (ring_layout QUEUE_SIZE) ring : io _)
  (λ r tr, ∀ t', r = Ok t' → common t' = common t ∧ queue_trace (base (common t)) ring tr).
Proof.
  unfold configure_queue, configure_queue_sized, device_queue_size.
  eapply (traced_bind _ _ (λ n tr, tr = [MmioWrite (base (common t) + QUEUE_SELECT) 2 0; MmioRead (base (common t) + QUEUE_SIZE_REG) 2 n])).
  { access. access. done. }
  intros size ? ->. destruct (Z.ltb_spec size QUEUE_SIZE); [by apply traced_ret|]. access.
  assert (∀ o, traced (io_lift (add_chk 64 ring o) : io _) (λ a tr, a = ring + o ∧ tr = [])) as Hadd
    by (intros o; apply traced_lift; by intros ? [-> _]%add_chk_ret).
  do 3 (eapply traced_bind; [apply Hadd|intros ? ? [-> ->]]; access). access. destruct (notify_fits t _); apply traced_ret; [|done].
  intros t' [= <-]. split; [done|]. eexists _, _. split; [done|]. change (ldesc (ring_layout QUEUE_SIZE)) with 0. by rewrite Z.add_0_r.
Qed.

Lemma as_probe_traced {A} (x : io (result A ProbeError)) (Q : result A ProbeError → list Access → Prop) :
  traced x Q → traced (as_probe x) (λ r tr, ∀ a, r = Ok a → Q (Ok a) tr).
Proof.
  intros Hx. eapply traced_bind; [exact Hx|]. intros r tr HQ. apply traced_ret. rewrite app_nil_r. destruct r; [|done]. by intros a' [= <-].
Qed.

Lemma install_msix_traced t : traced (install_msix take hhdm lapic t)
  (λ r tr, r = Ok tt → ∃ tr', tr = tr' ++ [MmioWrite (base (common t) + QUEUE_SELECT) 2 0; MmioWrite (base (common t) + QUEUE_MSIX_VECTOR) 2 0]).
Proof.
  unfold install_msix. eapply traced_bind; [apply grows_snapshot|]. intros cfg tr1 _. eapply traced_bind; [apply grows_lift|]. intros [caps|] tr2 _; [|by apply traced_ret].
  destruct (find_first _ caps) as [cap|]; [|by apply traced_ret]. eapply traced_bind; [apply grows_lift|]. intros [x|] tr3 _; [|by apply traced_ret].
  eapply traced_bind; [apply grows_bar|]. intros [[bar size]|] tr4 _; [|by apply traced_ret]. destruct (_ <? _); [by apply traced_ret|].
  eapply traced_bind; [apply grows_lift|]. intros pa tr5 _. eapply traced_bind; [apply grows_window|]. intros [w|] tr6 _; [|by apply traced_ret].
  eapply (traced_bind _ _ (λ _ _, True)); [apply grows_program|]. intros [[]|] tr7 _; [|by apply traced_ret].
  eapply (traced_bind _ _ (λ _ _, True)); [unfold enable_msix, config_read32, config_write32; grow|]. intros _ tr8 _.
  eapply (traced_bind _ _ (λ _ tr, tr = [MmioWrite (base (common t) + QUEUE_SELECT) 2 0; MmioWrite (base (common t) + QUEUE_MSIX_VECTOR) 2 0])).
  { unfold set_queue_msix_vector. access. access. done. }
  intros _ ? ->. apply traced_ret. intros _. exists (tr1 ++ tr2 ++ tr3 ++ tr4 ++ tr5 ++ tr6 ++ tr7 ++ tr8). by rewrite <- !app_assoc.
Qed.

(** From the queue on; the table's accesses are in between. *)
Definition start_trace (c ring : Z) (tr : list Access) : Prop :=
  ∃ queue msix live, tr = queue ++ msix ++ live ∧ queue_trace c ring queue ∧ live_trace c live.

Lemma start_queue_traced t ring : traced (start_queue take hhdm lapic t ring)
  (λ r tr, ∀ t', r = Ok t' → common t' = common t ∧ start_trace (base (common t)) ring tr).
Proof.
  unfold start_queue. eapply traced_try; [apply as_probe_traced, configure_traced| |done]. intros t1 tr1 HQ.
  destruct (HQ t1 eq_refl t1 eq_refl) as [Ec Hq]. eapply traced_try; [apply install_msix_traced| |done].
  intros [] tr2 Hm. destruct (Hm eq_refl) as (msix & ->). rewrite Ec in *.
  eapply (traced_bind _ _ (λ _ tr, tr = [MmioWrite (base (common t) + QUEUE_SELECT) 2 0; MmioWrite (base (common t) + QUEUE_ENABLE) 2 1])).
  { unfold enable_queue. rewrite Ec. access. access. done. }
  intros _ ? ->. eapply (traced_try _ _ (λ r tr, r = Ok tt → ∃ s1 s2, Z.land s2 STATUS_FAILED = 0 ∧
     tr = or_status (base (common t)) s1 STATUS_DRIVER_OK ++ [MmioRead (base (common t) + DEVICE_STATUS) 1 s2])); [| |done].
  { eapply traced_any.
    - apply (as_probe_traced _ (λ r tr, r = Ok tt → ∃ s1 s2, Z.land s2 STATUS_FAILED = 0 ∧
        tr = or_status (base (common t1)) s1 STATUS_DRIVER_OK ++ [MmioRead (base (common t1) + DEVICE_STATUS) 1 s2])).
      unfold Transport.finish. eapply traced_bind; [apply set_status_traced|]. intros _ ? [s1 ->]. unfold status. access.
      destruct (Z.eqb_spec (Z.land a STATUS_FAILED) 0); apply traced_ret; [|done]. intros _. by exists s1, a.
    - rewrite Ec. cbn. intros r tr Hr Er. exact (Hr tt Er eq_refl). }
  intros [] ? Hf. destruct (Hf eq_refl) as (s1 & s2 & Hs & ->). apply traced_ret. intros t' [= <-]. split; [done|].
  exists tr1, msix. eexists. split; [|split; [done|]]; [|by exists s1, s2; split]. rewrite app_nil_r. by rewrite <- !app_assoc.
Qed.

Lemma silent_bind {A B} (x : io A) (f : A → io B) Q :
  traced x (λ _ tr, tr = []) → (∀ a, traced (f a) Q) → traced (io_bind x f) Q.
Proof. intros Hx Hf. eapply traced_bind; [exact Hx|]. intros a ? ->. apply Hf. Qed.

Lemma allocate_traced t : traced (allocate_and_start take hhdm lapic t)
  (λ '(r, held) tr, ∀ t' b, r = Ok (t', b) → held = [] ∧ common t' = common t ∧
     ∃ ring, ring_virt b = hhdm + ring ∧ start_trace (base (common t)) ring tr).
Proof.
  assert (∀ n held, traced (guard_take take n held : io _) (λ _ tr, tr = [])) as Hg.
  { intros n held m o m'. unfold guard_take. destruct (take _ _) as [[pa|] f']; [destruct (_ <? _)%nat; [|done]|]; intros [= <- <-]; exists []; by rewrite app_nil_r. }
  assert (∀ pa n, traced (zero hhdm pa n : io _) (λ _ tr, tr = [])) as Hz.
  { intros pa n m o m'. unfold zero. destruct (at_hhdm _ _); [|done]. intros [= <- <-]. exists []. by rewrite app_nil_r. }
  unfold allocate_and_start. apply silent_bind; [apply Hg|]. intros [[ring|] h1]; [|by apply traced_ret].
  apply silent_bind; [apply Hg|]. intros [[meta|] h2]; [|by apply traced_ret].
  apply silent_bind; [apply Hg|]. intros [[data|] h3]; [|by apply traced_ret].
  do 3 (apply silent_bind; [apply Hz|]; intros _). eapply traced_bind; [apply start_queue_traced|]. intros [t'|e] tr Hs; [|by apply traced_ret].
  destruct (Hs t' eq_refl) as [Ec Ht]. eapply traced_bind; [apply (traced_lift _ (λ _ tr, tr = [])); done|]. intros q ? ->. apply traced_ret.
  intros ? b [= <- <-]. split; [done|]. split; [done|]. exists ring. split; [done|]. by rewrite !app_nil_r.
Qed.
End Traces.

(** C22: A device that comes up was spoken to in the order the virtio
    specification prescribes: after discovery a reset, waited for until the
    status reads zero; ACKNOWLEDGE and then DRIVER; both halves of the
    features read and answered, FEATURES_OK set and read back; the queue's
    size and its three addresses, which are those of the driver's own ring;
    the interrupt bound; and only then the queue enabled, and DRIVER_OK
    after it. Nothing is written to the device afterwards. *)
Theorem bring_up_follows_the_specification {D F} `{Pci.Device D} `{Mapper} (take : F → nat → option Z * F) give hhdm lapic m t b m' :
  BlockInit.init (D := D) take give hhdm lapic None m = Ret (Ok (t, b), m') →
  ∃ ring discovery resets features start,
    log m' = log m ++ discovery ++ resets ++ features ++ start ∧ ring_virt b = hhdm + ring ∧
    reset_trace (base (common t)) resets ∧ features_trace (base (common t)) features ∧
    start_trace (base (common t)) ring start.
Proof.
  intros Hi.
  assert (traced (BlockInit.init (D := D) take give hhdm lapic None) (λ r tr, ∀ t b, r = Ok (t, b) →
    ∃ ring discovery resets features start, tr = discovery ++ resets ++ features ++ start ∧ ring_virt b = hhdm + ring ∧
    reset_trace (base (common t)) resets ∧ features_trace (base (common t)) features ∧
    start_trace (base (common t)) ring start)) as Hall; [|destruct (Hall _ _ _ Hi) as (tr & -> & HQ); destruct (HQ t b eq_refl) as (? & ? & ? & ? & ? & -> & ?); eauto 10].
  clear Hi. cbn [BlockInit.init]. eapply traced_try; [apply as_probe_traced| |done].
  - apply (traced_try _ _ (λ _ _, True) (λ r tr, ∀ t, r = Ok t → ∃ discovery resets, tr = discovery ++ resets ∧ reset_trace (base (common t)) resets));
      [apply grows_discover| |done]. intros t1 tr1 _. eapply traced_any; [apply reset_traced|]. intros r tr Hr t2 E.
    destruct (Hr t2 E) as [-> Ht]. eauto.
  - intros t1 tr1 HQ. destruct (HQ t1 eq_refl t1 eq_refl) as (disc & resets & -> & Hr).
    eapply traced_try; [apply as_probe_traced, negotiate_traced| |done]. intros f tr2 Hf. specialize (Hf f eq_refl f eq_refl).
    eapply traced_bind; [apply allocate_traced|]. intros [r held] tr3 Hs.
    destruct r as [[t2 b2]|e]; [|eapply traced_bind; [apply grows_drop|]; intros ? ? _; by apply traced_ret].
    destruct (Hs t2 b2 eq_refl) as (-> & Ec & ring & Hb & Hst). cbn [guard_drop]. apply silent_bind; [by apply traced_ret|]. intros _.
    apply traced_ret. intros t' b' [= <- <-]. exists ring, disc, resets, tr2, tr3. rewrite Ec. split; [|done].
    rewrite app_nil_r. by rewrite <- app_assoc.
Qed.
