(* ===== verification/BringUpExamples.v ===== *)
(** The theorems about bring-up at work: the frame allocator of [Buddy]
    discharges what they ask of one, a small device comes up, and two that
    misbehave show where the driver does not hold. *)
From S2P Require Import Prelude Bits Mem Virtio Buddy BuddyProofs BuddyFree BuddySys Block BlockThms Paging PagingProofs Vm VmProofs VmFrames VmExamples.
From S2P Require Import Pci PciProofs Transport TransportProofs BlockInit InitProofs BringUp.
From Stdlib Require Import Strings.Byte.

(** ** The frame allocator *)

Section BuddyBlocks.
Context {B : Type} `{HB : FrameBacking B}.

(** [frames::alloc(order)], [frames::free(pa, order)]. *)
Definition blk_take (f : @system B) (n : nat) : option Z * @system B :=
  match alloc (heap f) (Z.of_nat n) with
  | Ret (r, a) => (r, mkSystem a (handed_out (live f) n r))
  | Panic => (None, f)
  end.
Definition blk_give (f : @system B) (pa : Z) (n : nat) : outcome (@system B) :=
  a ← Buddy.free (heap f) pa (Z.of_nat n);
  Ret (mkSystem a (filter (λ q, q ≠ (pa, n)) (live f))).

#[export] Instance buddy_blocks : Blocks (@system B) := { btake := blk_take; bgive := blk_give }.

Definition blocks_ok (f : @system B) (l : list (Z * nat)) : Prop :=
  (∃ L, sys_inv f L) ∧ Forall (λ r, r.2 ≤ 2 ^ 46) (active (heap f)) ∧ live f ≡ₚ l.

Lemma block_end_size x n : block_end (x, n) = x + size n.
Proof. unfold block_end, size. by rewrite block_size_eq by lia. Qed.

#[export] Instance buddy_blocks_laws : BlocksLaws (@system B).
Proof.
  refine {| bok := blocks_ok |}.
  - intros f l l' Hp (Hi & He & Hl). split; [done|]. split; [done|]. by rewrite Hl.
  - intros [a lv] l n ([L HL] & Hend & Hl) Hn. cbn [btake buddy_blocks heap live] in *. unfold blk_take. cbn [heap live].
    destruct (alloc_ok a L n (si_inv _ _ HL) (si_bytes _ _ HL) Hn) as [[_ ->]|(pa & a' & L' & -> & Hp)].
    + split; [by exists L|done].
    + destruct (alloc_inv a lv L n pa a' L' HL Hn Hp) as [HL' Hap]. pose proof Hp as [_ (Ha & Hin & _) _ _ Hact _ _].
      rewrite Hact in Hin. pose proof Hin as (r & Hr & R1 & R2). pose proof (proj1 (bi_regions _ _ (si_inv _ _ HL))) as Hwf.
      rewrite Forall_forall in Hwf. specialize (Hwf r Hr) as (_ & _ & Hwf & _).
      pose proof (proj1 (Forall_forall _ _) Hend r Hr) as Her. cbn in Her. rewrite block_end_size.
      split; [split; [pose proof (size_pos n); unfold frame_ok; split; [lia|split; [eapply aligned_page; [|exact Ha]; lia|lia]]|]|].
      { unfold size in Ha. by rewrite block_size_eq in Ha by lia. }
      split; [lia|].
      split; [by exists L'|]. cbn [heap live handed_out]. rewrite Hact. split; [done|]. by rewrite Hl.
  - intros [a lv] [x n] [y k] l ([L HL] & _ & Hl). cbn [live] in Hl. pose proof (si_apart _ _ HL) as Hap. cbn [live] in Hap.
    rewrite Hl in Hap. destruct Hap as [Hap _]. rewrite !block_end_size. apply (Hap y k). left.
  - intros [a lv] l pa n ([L HL] & Hend & Hl). cbn [bgive buddy_blocks heap live] in *. unfold blk_give. cbn [heap live].
    pose proof (taken_out lv (pa, n) (si_apart _ _ HL) ltac:(rewrite Hl; left)) as Ho.
    destruct (free_inv a lv _ L pa n HL Ho) as (a' & L' & -> & Hp & HL'). cbn [mbind outcome_bind]. eexists. split; [done|].
    split; [by exists L'|]. split; [cbn; by rewrite (fr_active _ _ _ _ _ _ Hp)|]. cbn [live].
    apply (Permutation_cons_inv (a := (pa, n))). by rewrite <- Hl, <- Ho.
Defined.
End BuddyBlocks.

(** ** A device *)

(** Configuration space behind the two ports, registers in memory, one
    32-bit BAR of 16 KiB.  With [fails] set it reports failure when the driver
    declares itself ready. *)
Record Toy := mkToy { latched : Z; config : gmap Z Z; registers : gmap Z Z; fails : bool }.
Definition BAR4 : Z := 0x20.

Definition toy_config (d : Toy) : Z :=
  let o := Z.land (latched d) 0xff in
  let v := default 0 (config d !! o) in
  if negb (Z.land (latched d) 0x7fffff00 =? 0) then 0xffffffff
  else if (0x10 <=? o) && (o <? 0x28) then Z.land v 0xfffffff0 else v.

#[export] Instance toy_device : Pci.Device Toy := {
  dev_in d port := (toy_config d, d);
  dev_out d port v :=
    if port =? CONFIG_ADDRESS then mkToy v (config d) (registers d) (fails d)
    else let o := Z.land (latched d) 0xff in
         mkToy (latched d) (<[o := if (o =? BAR4) && (v =? 0xffffffff) then 0xffffc000 else v]> (config d)) (registers d) (fails d);
  dev_read d a n := (default 0 (registers d !! a), d);
  dev_write d a n v :=
    let v := if fails d && negb (Z.land v STATUS_DRIVER_OK =? 0) && (n =? 1) then Z.lor v STATUS_FAILED else v in
    mkToy (latched d) (config d) (<[a := v]> (registers d)) (fails d)
}.

(** Its configuration space: the four structures in the BAR, the common one
    [common_len] bytes long at [common_at], the doorbells [multiplier] bytes
    apart, and an MSI-X table. *)
Definition dwords (common_at common_len multiplier : Z) : list (Z * Z) :=
  [(0, 0x10421af4); (0x34, 0x40); (BAR4, 0xfe000000);
   (0x40, 0x01105009); (0x44, 4); (0x48, common_at); (0x4c, common_len);
   (0x50, 0x02146809); (0x54, 4); (0x58, 0x1000); (0x5c, 4); (0x60, multiplier);
   (0x68, 0x03107809); (0x6c, 4); (0x70, 0x2000); (0x74, 4);
   (0x78, 0x04108809); (0x7c, 4); (0x80, 0x2008); (0x84, 8);
   (0x88, 0x00000011); (0x8c, 0x3004)].
Definition toy_with (common_at common_len multiplier bell : Z) (f : bool) : Toy :=
  let c := HHDM + 0xfe000000 + common_at in
  mkToy 0 (list_to_map (dwords common_at common_len multiplier)) (list_to_map [(c + 4, 1); (c + 24, 64); (c + 30, bell)]) f.
Definition toy (common_len : Z) (f : bool) : Toy := toy_with 0 common_len 4 0 f.

(** A megabyte of memory. *)
Definition pool1 : @system (gmap Z Z) :=
  mkSystem (match add_region (Buddy.new (∅ : gmap Z Z)) 0x100000 0x100000 with Ret a => a | Panic => Buddy.new ∅ end) [].
Definition machine_of (d : Toy) : Machine Toy (Vm.Sys (@system (gmap Z Z))) := mkMachine d (mkSys (λ _, x00) pool1 0x2000 0x2000) [].
Definition machine (common_len : Z) (f : bool) : Machine Toy (Vm.Sys (@system (gmap Z Z))) := machine_of (toy common_len f).
Definition bring_up (common_len : Z) (f : bool) := BlockInit.init btake bgive HHDM 0xfee00000 None (machine common_len f).

Lemma land_shiftl_low x k : 8 ≤ k → Z.land (Z.shiftl x k) 0xff = 0.
Proof.
  intros Hk. change 0xff with (Z.ones 8). rewrite Z.land_ones, Z.shiftl_mul_pow2 by lia.
  replace k with (k - 8 + 8) by lia. rewrite Z.pow_add_r, Z.mul_assoc by lia. apply Z.mod_mul. lia.
Qed.

Lemma config_address_offset b o : Z.land (config_address b o) 0xff = Z.land o 0xfc.
Proof.
  unfold config_address. rewrite !Z.land_lor_distr_l, !land_shiftl_low by lia. cbn [Z.lor]. rewrite <- Z.land_assoc. done.
Qed.

Lemma toy_reads b o (m : Machine Toy (Vm.Sys (@system (gmap Z Z)))) v m' : 0x10 ≤ Z.land o 0xfc < 0x28 → config_read32 b o m = Ret (v, m') →
  0 ≤ v < 2 ^ 32 ∧ (Z.land v 1 = 1 ∨ Z.land v 0xf = 0).
Proof.
  intros Ho. unfold config_read32, io_bind, outl, inl_. cbn. unfold toy_config. cbn [latched config].
  rewrite config_address_offset. destruct (negb _); [intros [= <- _]; split; [by vm_compute|by left]|].
  rewrite (proj2 (Z.leb_le _ _)) by lia. rewrite (proj2 (Z.ltb_lt _ _)) by lia. cbn [andb]. intros [= <- _].
  split; [by apply Z.mod_pos_bound|]. right. change (2 ^ 32) with (Z.of_nat 1 * 2 ^ 32). rewrite Z.mul_1_l.
  rewrite <- Z.land_ones by lia. rewrite <- !Z.land_assoc. change (Z.land 0xfffffff0 (Z.land (Z.ones 32) 15)) with 0. apply Z.land_0_r.
Qed.

Lemma toy_reachable : bars_reachable (D := Toy) (F := @system (gmap Z Z)).
Proof.
  intros m b i bar size m' Hi E. unfold read_bar in E. destruct (Z.ltb_spec 5 i); [done|].
  apply io_bind_inv in E as (off & m1 & E1 & E). unfold io_lift in E1. rewrite add_chk_ok in E1 by (unfold PCI_BAR0; lia). injection E1 as <- <-.
  apply io_bind_inv in E as (low & m2 & E1 & E). apply toy_reads in E1 as [Hl Hb].
  2: { assert (i = 0 ∨ i = 1 ∨ i = 2 ∨ i = 3 ∨ i = 4 ∨ i = 5) as Hc by lia. destruct Hc as [Hc|[Hc|[Hc|[Hc|[Hc|Hc]]]]]; rewrite Hc; by vm_compute. }
  apply io_bind_inv in E as (high & m3 & _ & E).
  assert (∀ a, decode_bar low high i = Some a → 0 ≤ a < 2 ^ 32) as Hd.
  { intros a. unfold decode_bar. destruct Hb as [->|H0]; [done|]. assert (Z.land (Z.shiftr low 1) 3 = 0) as ->.
    - change 3 with (Z.ones 2). change 15 with (Z.ones 4) in H0. rewrite Z.land_ones in * by lia. rewrite Z.shiftr_div_pow2 by lia.
      change (2 ^ 1) with 2. change (2 ^ 2) with 4. change (2 ^ 4) with 16 in H0. Z.to_euclidean_division_equations; lia.
    - destruct (negb _); [done|]. intros [= <-]. change PCI_BAR_ADDR_MASK with (bitnot 32 (2 ^ 4 - 1)).
      rewrite land_bitnot_align by (lia || unfold fits; lia). pose proof (Z.mod_pos_bound low (2 ^ 4) ltac:(lia)). pose proof (Z.mod_le low (2 ^ 4)). lia. }
  destruct (decode_bar low high i) as [a|]; [|by injection E]. specialize (Hd a eq_refl).
  apply io_bind_inv in E as (? & m4 & _ & E). apply io_bind_inv in E as (p & m5 & _ & E). apply io_bind_inv in E as (? & m6 & _ & E).
  pose proof (decode_bar_size_range p). destruct (_ =? 0); [done|]. injection E as <- <- _. lia.
Qed.

Lemma pool1_reachable : reachable pool1.
Proof.
  exists ∅, [ERegion 0x100000 0x100000]. eapply run_cons; [|constructor].
  apply step_region; [done|done|done|apply demo0_clear|apply empty_has_no_tags|by vm_compute].
Qed.

Lemma pool1_ok d : bok (frames (rest (machine_of d))) [].
Proof.
  split; [apply reachable_inv, pool1_reachable|]. cbn [frames rest machine_of]. split; [|done].
  assert (active (heap pool1) = [(0x100000, 0x200000)]) as -> by by vm_compute. repeat constructor. cbn. lia.
Qed.

(** A run, as a check that can be evaluated. *)
Definition check_up (common_len : Z) (f : bool)
    (P : result (Transport * Blk) InitError → list Access → bool) : bool :=
  match bring_up common_len f with Ret (r, m) => P r (log m) | Panic => false end.

Lemma check_up_true common_len f P : check_up common_len f P = true → ∃ r m, bring_up common_len f = Ret (r, m) ∧ P r (log m) = true.
Proof. unfold check_up. destruct (bring_up common_len f) as [[r m]|]; [eauto|done]. Qed.

Definition is_up (r : result (Transport * Blk) InitError) : bool := match r with Ok _ => true | Err _ => false end.

Lemma toy_comes_up : ∃ t b m', bring_up 56 false = Ret (Ok (t, b), m').
Proof.
  destruct (check_up_true 56 false (λ r _, is_up r)) as (r & m & E & Hr); [vm_compute; reflexivity|].
  destruct r as [[t b]|]; [|done]. eauto.
Qed.

Lemma toy_has_room : (match discover (λ f, btake f 0%nat) HHDM VIRTIO_BLK_MODERN (machine 56 false) with
  | Ret (Ok t, _) => (COMMON_BYTES <=? len (common t)) && (base (common t) mod 8 =? 0) | _ => false end) = true.
Proof. vm_compute. reflexivity. Qed.

Lemma bring_up_survives_any_device_witness :
  ∃ r m' k, bring_up 56 false = Ret (r, m') ∧ bok (frames (rest m')) k ∧
    match r with
    | Ok (t, b) => ∃ mine, driving (D := Toy) (F := @system (gmap Z Z)) HHDM t b mine ∧ kept [] mine k
    | Err _ => kept [] [] k
    end.
Proof.
  destruct (bring_up_survives_any_device HHDM 0xfee00000 eq_refl toy_reachable (machine 56 false) [] (pool1_ok _))
    as [(t & m' & E & Hlen)|Hup]; [exfalso|exact Hup].
  pose proof toy_has_room as Hroom. rewrite E in Hroom. apply andb_true_iff in Hroom as [Hroom%Z.leb_le Hal%Z.eqb_eq]. lia.
Defined.

Lemma bring_up_follows_the_specification_witness :
  ∃ t b m', bring_up 56 false = Ret (Ok (t, b), m') ∧
  ∃ ring discovery resets features start,
    log m' = [] ++ discovery ++ resets ++ features ++ start ∧ ring_virt b = HHDM + ring ∧
    reset_trace (base (common t)) resets ∧ features_trace (base (common t)) features ∧
    start_trace (base (common t)) ring start.
Proof.
  destruct toy_comes_up as (t & b & m' & E). exists t, b, m'. split; [exact E|].
  exact (bring_up_follows_the_specification _ _ _ _ _ _ _ _ E).
Defined.

(** ** Two that misbehave *)

(** A common configuration shorter than its registers brings the kernel
    down.  [probe] checks that a structure lies in its BAR and is not too
    large, not that it is large enough: a device that declares sixteen bytes
    of common configuration, and is in order otherwise, is accepted, and the
    first access to the status register is a panic, not a [ProbeError]. *)
Theorem short_common_window_panics :
  bars_reachable (D := Toy) (F := @system (gmap Z Z)) ∧ bok (frames (rest (machine 16 false))) [] ∧
  (∃ t m', discover (λ f, btake f 0%nat) HHDM VIRTIO_BLK_MODERN (machine 16 false) = Ret (Ok t, m') ∧ len (common t) = 16) ∧
  BlockInit.init btake bgive HHDM 0xfee00000 None (machine 16 false) = Panic.
Proof.
  split; [apply toy_reachable|]. split; [apply pool1_ok|]. split; [|vm_compute; reflexivity].
  assert ((match discover (λ f, btake f 0%nat) HHDM VIRTIO_BLK_MODERN (machine 16 false) with
    | Ret (Ok t, _) => len (common t) =? 16 | _ => false end) = true) as Hc by (vm_compute; reflexivity).
  destruct (discover _ _ _ _) as [[[t|] m']|]; [|done..]. apply Z.eqb_eq in Hc. eauto.
Qed.

(** Two that are not aligned.  The common configuration of the first lies four
    bytes into its BAR, which is all the alignment virtio asks of a device:
    [init] writes the addresses of the queue eight bytes at a time, and the
    first of these is not aligned, as it is eight bytes in.  The second says that its doorbells are one
    byte apart and that the queue's is the second: it comes up, and the first
    request rings a doorbell at an odd address. *)
Theorem misaligned_windows_fault :
  (∃ u m, BlockInit.init btake bgive HHDM 0xfee00000 None (machine_of (toy_with 8 56 4 0 false)) = Ret (Ok u, m)) ∧
  BlockInit.init btake bgive HHDM 0xfee00000 None (machine_of (toy_with 4 56 4 0 false)) = Panic ∧
  ∃ t b m, BlockInit.init btake bgive HHDM 0xfee00000 None (machine_of (toy_with 0 56 1 1 false)) = Ret (Ok (t, b), m) ∧
    notify_queue t m = Panic.
Proof.
  assert ((match BlockInit.init btake bgive HHDM 0xfee00000 None (machine_of (toy_with 8 56 4 0 false)) with
    | Ret (Ok _, _) => true | _ => false end) = true) as Hup by (vm_compute; reflexivity).
  split; [destruct (BlockInit.init _ _ _ _ _ _) as [[[u|] m]|]; [by exists u, m|done..]|]. clear Hup. split; [vm_compute; reflexivity|].
  assert ((match BlockInit.init btake bgive HHDM 0xfee00000 None (machine_of (toy_with 0 56 1 1 false)) with
    | Ret (Ok (t, b), m) => match notify_queue t m with Panic => true | Ret _ => false end | _ => false end) = true) as Hc by (vm_compute; reflexivity).
  destruct (BlockInit.init _ _ _ _ _ _) as [[[[t b]|] m]|]; [|done..]. exists t, b, m. split; [done|]. by destruct (notify_queue t m).
Qed.

(** What the log of the failing device shows. *)
Definition enabled_then_freed (c ring : Z) (tr : list Access) : Prop :=
  ∃ before between after, tr = before ++ [MmioWrite (c + QUEUE_ENABLE) 2 1] ++ between ++ [FreeFrames ring 0] ++ after ∧
    MmioWrite (c + QUEUE_DESC) 8 ring ∈ before ∧ MmioWrite (c + DEVICE_STATUS) 1 0 ∉ between.

(** A device that fails at the last step keeps the driver's buffers,
    and so does the allocator. [init] enables the queue and then reports
    failure if the device does; its guard frees the ring, the headers and
    the bounce buffers, all of which the device has been given and, not
    being reset, still has. *)
Theorem failed_start_frees_live_buffers :
  ∃ c ring m', BlockInit.init btake bgive HHDM 0xfee00000 None (machine 56 true) = Ret (Err (Probe DeviceFailed), m') ∧
    enabled_then_freed c ring (log m').
Proof.
  pose (c := HHDM + 0xfe000000).
  destruct (check_up_true 56 true (λ r tr, match r with Err (Probe DeviceFailed) => true | _ => false end && bool_decide
    (drop 350 tr = [MmioRead (c + DEVICE_STATUS) 1 11; MmioWrite (c + DEVICE_STATUS) 1 15; MmioRead (c + DEVICE_STATUS) 1 143;
      FreeFrames 1060864 0; FreeFrames 1064960 0; FreeFrames 1310720 6] ∧
     tr !! 349%nat = Some (MmioWrite (c + QUEUE_ENABLE) 2 1) ∧ MmioWrite (c + QUEUE_DESC) 8 1060864 ∈ list.take 349 tr)))
    as (r & m & E & Hr); [vm_compute; reflexivity|].
  apply andb_true_iff in Hr as [Hr (Hd & He & Hin)%bool_decide_eq_true].
  exists c, 1060864, m. split; [destruct r as [?|[[]| | | |]]; first [exact E|discriminate Hr]|].
  eexists (list.take 349 (log m)), [_; _; _], _. split; [|split; [exact Hin|]].
  - rewrite <- (take_drop_middle _ _ _ He) at 1. rewrite Hd. done.
  - rewrite !elem_of_cons, elem_of_nil. intros [?|[[=]|[?|?]]]; done.
Qed.
