(* ===== verification/Boot.v ===== *)
(** The memory map at boot: [kernel/src/frames.rs], and the map the kernel
    heap is given: [kernel/src/heap.rs].

    [FrameStats] and the locks are the state [init] keeps; the memory map is
    the list the boot loader left ([boot.rs]), the word of the BIOS data area
    is read from [bda]. *)
From S2P Require Import Prelude Bits Mem Buddy.

(** [MemoryRegion], [usable_regions]. *)
Record MemoryRegion := mkRegion { start : Z; len : Z; usable : bool }.
Definition usable_regions (l : list MemoryRegion) : list MemoryRegion := filter (λ r, usable r = true) l.

Definition LOW_USABLE_START : Z := 0x1000.
Definition LOW_USABLE_END : Z := 0x9f000.
Definition BDA_EBDA_SEGMENT : Z := 0x40e.
Definition ONE_MIB : Z := 0x100000.

(** [ebda_floor]. *)
Definition ebda_floor (bda : Mem) : Z :=
  let segment := from_le_bytes (read_mem bda BDA_EBDA_SEGMENT 2) in
  if segment =? 0 then LOW_USABLE_END else Z.min LOW_USABLE_END (Z.shiftl segment 4).

Section Frames.
Context {B : Type} `{FrameBacking B}.

(** [ALLOCATOR], [INITIALISED], [EXCLUDED_LOW_BYTES]. *)
Record Frames := mkFrames { allocator : BuddyAllocator B; initialised : bool; excluded_low : Z }.

(** One turn of the loop of [init]. *)
Definition take_region (low_end : Z) (a : BuddyAllocator B) (excluded : Z) (r : MemoryRegion)
    : outcome (BuddyAllocator B * Z) :=
  match checked_add 64 (start r) (len r) with
  | None => Ret (a, excluded)
  | Some stop =>
      let low_start := Z.max (start r) LOW_USABLE_START in
      let low_stop := Z.min stop low_end in
      a ← (if low_start <? low_stop then add_region a low_start (low_stop - low_start) else Ret a);
      let in_low_mib := saturating_sub (Z.min stop ONE_MIB) (Z.min (start r) ONE_MIB) in
      d ← sub_chk in_low_mib (saturating_sub low_stop low_start);
      excluded ← add_chk 64 excluded d;
      let high_start := Z.max (start r) ONE_MIB in
      a ← (if high_start <? stop then add_region a high_start (stop - high_start) else Ret a);
      Ret (a, excluded)
  end.

Fixpoint take_regions (low_end : Z) (a : BuddyAllocator B) (excluded : Z) (l : list MemoryRegion)
    : outcome (BuddyAllocator B * Z) :=
  match l with
  | [] => Ret (a, excluded)
  | r :: l' => '(a, excluded) ← take_region low_end a excluded r; take_regions low_end a excluded l'
  end.

(** [frames::init]; [hhdm] is the backing through the direct map. *)
Definition frames_init (s : Frames) (hhdm : B) (bda : Mem) (memmap : list MemoryRegion) : outcome Frames :=
  if initialised s then Ret s else
  a ← set_backing (allocator s) hhdm;
  '(a, excluded) ← take_regions (ebda_floor bda) a 0 (usable_regions memmap);
  Ret (mkFrames a true excluded).

(** [stats]. *)
Record FrameStats := mkStats
  { st_free : Z; st_edge : Z; st_refused : Z; st_malformed : Z; st_excluded : Z }.
Definition stats (s : Frames) : FrameStats :=
  mkStats (free_bytes (allocator s)) (edge_dropped_bytes (allocator s)) (refused_region_bytes (allocator s))
    (malformed_region_bytes (allocator s)) (excluded_low s).
End Frames.
