(* ===== verification/BootThms.v ===== *)
(** Theorems about the memory map at boot ([Boot]). *)
From S2P Require Import Prelude Bits Mem Buddy BuddyProofs BuddyFree BuddySys Boot.

Section Counters.
Context {B : Type} `{HB : FrameBacking B}.
Implicit Types (a : BuddyAllocator B).

(** The loss counters. *)
Definition losses a : Z * Z * Z * Z :=
  (edge_dropped_bytes a, refused_region_bytes a, malformed_region_bytes a, refused_regions a).

Lemma set_word_losses a pa off v a' : set_word a pa off v = Ret a' → losses a' = losses a.
Proof. unfold set_word. intros E. inv_ret. by subst. Qed.

Lemma push_losses a pa order a' : push a pa order = Ret a' → losses a' = losses a.
Proof.
  unfold push. intros E. inv_ret. subst a'. change (losses (set_lists ?x _ _)) with (losses x).
  repeat match goal with
  | H : set_word _ _ _ _ = Ret _ |- _ => apply set_word_losses in H
  | H : (if ?b then set_word _ _ _ _ else _) = Ret _ |- _ => destruct b; [apply set_word_losses in H|inv_ret; subst]
  end; cbn in *; congruence.
Qed.

Lemma carve_losses n : ∀ a addr stop a', carve n a addr stop = Ret a' → losses a' = losses a.
Proof.
  induction n as [|n IH]; intros a addr stop a' E; cbn [carve] in E; [by injection E as <-|].
  destruct (negb _); [by injection E as <-|]. apply bind_ret_inv in E as (a1 & E1 & E). apply push_losses in E1.
  apply bind_ret_inv in E as (f & _ & E). apply bind_ret_inv in E as (ad & _ & E). apply IH in E. rewrite E. exact E1.
Qed.

(** They only grow, and no range is refused twice. *)
Lemma add_region_losses a s n a' : fits 64 s → 0 ≤ n → add_region a s n = Ret a' →
  edge_dropped_bytes a ≤ edge_dropped_bytes a' ∧ refused_region_bytes a ≤ refused_region_bytes a' ∧
  malformed_region_bytes a ≤ malformed_region_bytes a' ∧ refused_regions a ≤ refused_regions a' ≤ refused_regions a + 1.
Proof.
  intros Hs Hn E. unfold add_region in E.
  assert (∀ x, (m ← add_chk 64 (malformed_region_bytes a) n; Ret (set_dropped a (edge_dropped_bytes a) (refused_region_bytes a) (refused_regions a) m)) = Ret x →
    edge_dropped_bytes a ≤ edge_dropped_bytes x ∧ refused_region_bytes a ≤ refused_region_bytes x ∧
    malformed_region_bytes a ≤ malformed_region_bytes x ∧ refused_regions a ≤ refused_regions x ≤ refused_regions a + 1) as Hmal.
  { intros x (m & [-> _]%add_chk_ret & Ex)%bind_ret_inv. injection Ex as <-. cbn. lia. }
  destruct (checked_next_multiple s PAGE_SIZE) as [addr|] eqn:Ea; [|by apply Hmal].
  destruct (checked_add 64 s n) as [limit|]; [|by apply Hmal]. destruct (Z.leb_spec (Z.land limit (bitnot 64 (PAGE_SIZE - 1))) addr); [by apply Hmal|].
  apply bind_ret_inv in E as (d1 & [-> ?]%sub_chk_ret & E). apply bind_ret_inv in E as (d2 & [-> ?]%sub_chk_ret & E).
  apply bind_ret_inv in E as (d & [-> _]%add_chk_ret & E). apply bind_ret_inv in E as (e & [-> _]%add_chk_ret & E).
  destruct (_ =? MAX_REGIONS).
  - apply bind_ret_inv in E as (r & [-> _]%add_chk_ret & E). apply bind_ret_inv in E as (k & [-> _]%add_chk_ret & E).
    injection E as <-. cbn. lia.
  - apply bind_ret_inv in E as (rs & _ & E). apply carve_losses in E. unfold losses in E. cbn in E. injection E as -> -> -> ->. lia.
Qed.
End Counters.

(** ** Offering ranges *)

Section Offers.
Context {B : Type} `{HB : FrameBacking B} (hhdm : B).
Implicit Types (a : BuddyAllocator B).

Definition misses (p : Z) (t : Z * Z) : Prop := p < t.1 ∨ t.2 ≤ p.

(** The allocator once the ranges [offered] have been offered to it. *)
Record offered_to (offered : list (Z * Z)) a : Prop := {
  of_sys : ∃ L, sys_inv (mkSystem a []) L;
  of_regions : ∀ r, r ∈ active a → ∃ t, t ∈ offered ∧ t.1 ≤ r.1 ∧ r.2 ≤ t.2;
  of_sum : accounted a = sum_Z range_len offered;
  of_losses : 0 ≤ edge_dropped_bytes a ∧ 0 ≤ refused_region_bytes a ∧ 0 ≤ malformed_region_bytes a ∧
    0 ≤ refused_regions a ≤ Z.of_nat (length offered);
  of_tags : ∀ p, page p → Forall (misses p) offered → rd (backing a) p OFF_TAG = rd hhdm p OFF_TAG
}.

Lemma untouched_tag b b' (S : Z → Prop) p :
  untouched b b' S → (∀ y, S y → y mod 4096 = 0) → page p → ¬ S p → rd b' p OFF_TAG = rd b p OFF_TAG.
Proof.
  intros Hu HS Hp Hn. apply Hu; [by apply field_aligned; [|right; right]|]. intros y Hy. unfold OFF_TAG.
  assert (y ≠ p) as Hne by (by intros ->). pose proof (HS y Hy) as Hya. destruct Hp as [Hpa _].
  assert (∀ u v, u mod 4096 = 0 → v mod 4096 = 0 → u < v → u + 4096 ≤ v) as Hgap.
  { intros u v Hu' Hv Hlt. destruct (Z.le_gt_cases (u + 4096) v) as [Hf|Hf]; [done|].
    pose proof (mod_eq_close u v 4096 ltac:(lia) Hu' Hv ltac:(lia)). lia. }
  destruct (Z.lt_trichotomy y p) as [Hlt|[?|Hlt]]; [right; pose proof (Hgap y p Hya Hpa Hlt); lia|done|left; pose proof (Hgap p y Hpa Hya Hlt); lia].
Qed.

Lemma offer offered a s e :
  offered_to offered a → 0 ≤ s < e → e < 2 ^ 64 → Forall (λ t, e ≤ t.1 ∨ t.2 ≤ s) offered → no_tags hhdm s e →
  sum_Z range_len offered + (e - s) < 2 ^ 63 → Z.of_nat (length offered) < 2 ^ 31 →
  ∃ a', add_region a s (e - s) = Ret a' ∧ offered_to (offered ++ [(s, e)]) a'.
Proof.
  intros [[L HL] Hreg Hsum (Q1 & Q2 & Q3 & Q4) Htag] Hse He Hapart Hnt Hroom Hcnt.
  pose proof (free_bytes_le _ _ HL) as Hfb. cbn [heap] in Hfb. unfold accounted in Hsum. rewrite Forall_forall in Hapart.
  destruct (region_inv a [] L s (e - s) HL) as (a' & L' & E & Hp & HL').
  - unfold fits. lia.
  - unfold fits. lia.
  - unfold counters_have_room. lia.
  - replace (s + (e - s)) with e by lia. intros r Hr. destruct (Hreg r Hr) as (t & Ht & ? & ?). destruct (Hapart t Ht); lia.
  - replace (s + (e - s)) with e by lia. intros p n Hpg Hin Hn. rewrite Htag; [by apply Hnt|done|].
    apply Forall_forall. intros t Ht. unfold misses. destruct (Hapart t Ht); lia.
  - exists a'. split; [done|]. pose proof (add_region_losses a s (e - s) a' ltac:(unfold fits; lia) ltac:(lia) E) as (M1 & M2 & M3 & M4).
    pose proof Hp as [_ _ _ P4 P5 P6 _ _]. split.
    + by exists L'.
    + intros r Hr. destruct P5 as [[Ea _]|(r' & Ea & R1 & R2 & _)]; rewrite Ea in Hr.
      * destruct (Hreg r Hr) as (t & Ht & ?). exists t. split; [apply elem_of_app; by left|done].
      * apply elem_of_app in Hr as [Hr|Hr]; [destruct (Hreg r Hr) as (t & Ht & ?); exists t; split; [apply elem_of_app; by left|done]|].
        apply list_elem_of_singleton in Hr as ->. exists (s, e). split; [apply elem_of_app; right; by apply list_elem_of_singleton|cbn; lia].
    + rewrite P4, sum_Z_app, sum_Z_cons, sum_Z_nil. change (range_len (s, e)) with (e - s). unfold accounted. lia.
    + rewrite length_app. cbn. lia.
    + intros p Hpg [Hm Hm1]%Forall_app. rewrite Forall_singleton in Hm1. rewrite (untouched_tag _ _ _ _ P6); [by apply Htag|by intros y [? _]|done|].
      intros [_ [Hin|(x & n & Hx & Hin)]]; [destruct Hm1 as [Hm1|Hm1]; cbn [fst snd] in Hm1; lia|].
      destruct (bi_blocks _ _ (si_inv _ _ HL) x n Hx) as [_ (r & Hr & ?)]. destruct (Hreg r Hr) as (t & Ht & ? & ?).
      rewrite Forall_forall in Hm. destruct (Hm t Ht) as [Hm'|Hm']; lia.
Qed.
End Offers.

(** ** The memory map *)

(** Entries that do not run past the end of the address space; the others
    are skipped. *)
Definition stop (r : MemoryRegion) : Z := start r + len r.
Definition counted (l : list MemoryRegion) : list MemoryRegion := filter (λ r, stop r < 2 ^ 64) l.

(** What of an entry is offered to the allocator. *)
Definition range (lo hi : Z) : list (Z * Z) := if lo <? hi then [(lo, hi)] else [].
Definition parts (low_end : Z) (r : MemoryRegion) : list (Z * Z) :=
  range (Z.max (start r) LOW_USABLE_START) (Z.min (stop r) low_end) ++ range (Z.max (start r) ONE_MIB) (stop r).

Fixpoint map_apart (l : list MemoryRegion) : Prop :=
  match l with
  | [] => True
  | r :: l' => Forall (λ r', stop r ≤ start r' ∨ stop r' ≤ start r) l' ∧ map_apart l'
  end.

Lemma elem_of_range lo hi t : t ∈ range lo hi → t = (lo, hi) ∧ lo < hi.
Proof.
  unfold range. destruct (Z.ltb_spec lo hi); [intros ->%list_elem_of_singleton; done|by intros ?%elem_of_nil].
Qed.

Lemma sum_range lo hi : sum_Z range_len (range lo hi) = saturating_sub hi lo.
Proof.
  unfold range, saturating_sub. destruct (Z.ltb_spec lo hi); [|rewrite sum_Z_nil; lia].
  rewrite sum_Z_cons, sum_Z_nil. change (range_len (lo, hi)) with (hi - lo). lia.
Qed.

Lemma elem_of_parts low_end r t : t ∈ parts low_end r →
  start r ≤ t.1 ∧ t.2 ≤ stop r ∧ (LOW_USABLE_START ≤ t.1 ∧ t.2 ≤ low_end ∨ ONE_MIB ≤ t.1).
Proof. unfold parts. intros [[-> _]%elem_of_range|[-> _]%elem_of_range]%elem_of_app; cbn [fst snd]; lia. Qed.

Lemma length_parts low_end r : (length (parts low_end r) ≤ 2)%nat.
Proof. unfold parts, range. rewrite length_app. repeat case_match; cbn; lia. Qed.

Section Loop.
Context {B : Type} `{HB : FrameBacking B} (hhdm : B) (low_end : Z) (Hlow : 0 ≤ low_end ≤ LOW_USABLE_END).
Implicit Types (a : BuddyAllocator B).

Definition entry_ok (r : MemoryRegion) : Prop :=
  0 ≤ start r ∧ 0 ≤ len r ∧ stop r < 2 ^ 64 ∧ no_tags hhdm (start r) (stop r).

(** Offering a range that may be empty. *)
Lemma offer_range offered a lo hi :
  offered_to hhdm offered a → 0 ≤ lo → hi < 2 ^ 64 → Forall (λ t, hi ≤ t.1 ∨ t.2 ≤ lo) offered → no_tags hhdm lo hi →
  sum_Z range_len offered + saturating_sub hi lo < 2 ^ 63 → Z.of_nat (length offered) < 2 ^ 31 →
  ∃ a', (if lo <? hi then add_region a lo (hi - lo) else Ret a) = Ret a' ∧ offered_to hhdm (offered ++ range lo hi) a'.
Proof.
  intros Hof Hlo Hhi Hap Hnt Hroom Hc. unfold range. unfold saturating_sub in Hroom. destruct (Z.ltb_spec lo hi).
  - by apply offer; [done|lia|done..|lia|done].
  - exists a. by rewrite app_nil_r.
Qed.

Lemma take_region_ok offered a ex r :
  offered_to hhdm offered a → entry_ok r → Forall (λ t, stop r ≤ t.1 ∨ t.2 ≤ start r) offered →
  sum_Z range_len offered + len r < 2 ^ 63 → Z.of_nat (length offered) + 2 < 2 ^ 31 → 0 ≤ ex → ex + len r < 2 ^ 63 →
  ∃ a', take_region low_end a ex r = Ret (a', ex + (len r - sum_Z range_len (parts low_end r))) ∧
    offered_to hhdm (offered ++ parts low_end r) a' ∧ 0 ≤ len r - sum_Z range_len (parts low_end r).
Proof.
  intros Hof (E1 & E2 & E3 & E4) Hap Hroom Hc Hex Hexl. unfold take_region, parts. unfold stop in *.
  rewrite (proj2 (checked_add_Some _ _ _ (start r + len r))) by done.
  set (e := start r + len r) in *. unfold LOW_USABLE_START, LOW_USABLE_END, ONE_MIB in *. rewrite sum_Z_app, !sum_range.
  assert (∀ lo hi, start r ≤ lo → hi ≤ e → no_tags hhdm lo hi) as Hnt by (intros lo hi ? ? p n Hp Hin; apply E4; [done|lia]).
  destruct (offer_range offered a (Z.max (start r) 0x1000) (Z.min e low_end)) as (a1 & -> & Hof1); [done|lia|lia| |apply Hnt; lia|unfold saturating_sub; lia|lia|].
  { eapply Forall_impl; [exact Hap|]. cbn. lia. }
  cbn [mbind outcome_bind]. unfold saturating_sub. rewrite sub_chk_ok by lia. cbn [mbind outcome_bind]. rewrite add_chk_ok by lia. cbn [mbind outcome_bind].
  destruct (offer_range (offered ++ range (Z.max (start r) 0x1000) (Z.min e low_end)) a1 (Z.max (start r) 0x100000) e)
    as (a2 & -> & Hof2); [done|lia|lia| |apply Hnt; lia| | |].
  { apply Forall_app. split; [eapply Forall_impl; [exact Hap|]; cbn; lia|]. apply Forall_forall. intros t [-> Hlt]%elem_of_range. cbn. lia. }
  { rewrite sum_Z_app, sum_range. unfold saturating_sub. lia. }
  { rewrite length_app. unfold range. case_match; cbn; lia. }
  cbn [mbind outcome_bind]. exists a2. split; [do 2 f_equal; lia|]. split; [by rewrite app_assoc|lia].
Qed.

Lemma take_regions_counted l : ∀ a ex, Forall (λ r, 0 ≤ start r) l → take_regions low_end a ex l = take_regions low_end a ex (counted l).
Proof.
  unfold counted. induction l as [|r l IH]; intros a ex Hl; [done|]. apply Forall_cons in Hl as [Hr Hl]. cbn [take_regions].
  destruct (decide (stop r < 2 ^ 64)) as [Hd|Hd].
  - rewrite filter_cons_True by done. cbn [take_regions]. destruct (take_region low_end a ex r) as [[a1 ex1]|]; [|done]. cbn. by apply IH.
  - rewrite filter_cons_False by done. unfold take_region. destruct (checked_add 64 (start r) (len r)) as [e|] eqn:E; [|cbn; by apply IH].
    apply checked_add_Some in E as [_ E]. done.
Qed.

Lemma take_regions_ok l : ∀ offered a ex,
  offered_to hhdm offered a → Forall entry_ok l → map_apart l →
  Forall (λ r, Forall (λ t, stop r ≤ t.1 ∨ t.2 ≤ start r) offered) l →
  sum_Z range_len offered + sum_Z len l < 2 ^ 63 → Z.of_nat (length offered) + 2 * Z.of_nat (length l) < 2 ^ 31 →
  0 ≤ ex → ex + sum_Z len l < 2 ^ 63 →
  ∃ a', take_regions low_end a ex l = Ret (a', ex + sum_Z (λ r, len r - sum_Z range_len (parts low_end r)) l) ∧
    offered_to hhdm (offered ++ (l ≫= parts low_end)) a'.
Proof.
  induction l as [|r l IH]; intros offered a ex Hof Hok Hmap Hap Hroom Hc Hex Hexl.
  - exists a. rewrite sum_Z_nil, Z.add_0_r. by rewrite app_nil_r.
  - apply Forall_cons in Hok as [Hr Hok], Hap as [Hrt Hap]. destruct Hmap as [Hrl Hmap]. rewrite !sum_Z_cons in *. cbn [length] in Hc.
    assert (0 ≤ sum_Z len l) as Hnn by (apply sum_Z_nonneg; rewrite Forall_forall in Hok; intros x Hx; apply (Hok x Hx)).
    pose proof (proj1 (proj2 Hr)) as Hlr.
    destruct (take_region_ok offered a ex r) as (a1 & E & Hof1 & Hd); [done..|lia|lia|lia|lia|]. cbn [take_regions]. rewrite E. cbn [mbind outcome_bind].
    assert (sum_Z range_len (parts low_end r) = len r - (len r - sum_Z range_len (parts low_end r))) as Hs by lia.
    assert (0 ≤ sum_Z range_len (parts low_end r)) as Hs0.
    { unfold parts. rewrite sum_Z_app, !sum_range. unfold saturating_sub. lia. }
    destruct (IH (offered ++ parts low_end r) a1 (ex + (len r - sum_Z range_len (parts low_end r)))) as (a2 & E2 & Hof2); try done.
    + rewrite Forall_forall in *. intros r' Hr'. rewrite Forall_app. split; [by apply Hap|]. apply Forall_forall. intros t Ht%elem_of_parts.
      specialize (Hrl r' Hr'). cbn in Hrl. lia.
    + rewrite sum_Z_app. lia.
    + rewrite length_app. pose proof (length_parts low_end r). lia.
    + lia.
    + lia.
    + exists a2. rewrite E2. split; [do 2 f_equal; lia|]. cbn. by rewrite app_assoc.
Qed.
End Loop.

Lemma sum_bind {A C} (f : C → Z) (g : A → list C) l : sum_Z f (l ≫= g) = sum_Z (λ x, sum_Z f (g x)) l.
Proof. induction l as [|x l IH]; [done|]. cbn. by rewrite sum_Z_app, sum_Z_cons, IH. Qed.
Lemma sum_difference {A} (f g : A → Z) l : sum_Z (λ x, f x - g x) l = sum_Z f l - sum_Z g l.
Proof. induction l as [|x l IH]; [done|]. rewrite !sum_Z_cons, IH. lia. Qed.

(** What is asked of the memory map: 64-bit entries, the usable ones apart
    (those that wrap aside) and smaller than eight exbibytes together, and
    memory that does not happen to hold the tags of free blocks. *)
Record firmware_ok {B} `{FrameBacking B} (hhdm : B) (memmap : list MemoryRegion) : Prop := {
  fw_fits : Forall (λ r, 0 ≤ start r ∧ 0 ≤ len r) memmap;
  fw_apart : map_apart (counted (usable_regions memmap));
  fw_total : sum_Z len (counted (usable_regions memmap)) < 2 ^ 63;
  fw_count : Z.of_nat (length memmap) < 2 ^ 30;
  fw_tags : Forall (λ r, no_tags hhdm (start r) (stop r)) memmap
}.

(** The callers of a booted allocator: they neither add ranges nor change
    the backing. *)
Definition caller {B} (e : event (B := B)) : bool := match e with ERegion _ _ | EBacking _ => false | _ => true end.

Section BootTheorem.
Context {B : Type} `{HB : FrameBacking B}.

Lemma ebda_floor_range bda : 0 ≤ ebda_floor bda ≤ LOW_USABLE_END.
Proof.
  unfold ebda_floor. pose proof (from_le_bytes_range (read_mem bda BDA_EBDA_SEGMENT 2)) as Hr. destruct (_ =? 0); [done|].
  assert (0 ≤ Z.shiftl (from_le_bytes (read_mem bda BDA_EBDA_SEGMENT 2)) 4) by (apply Z.shiftl_nonneg; lia). unfold LOW_USABLE_END. lia.
Qed.

Lemma new_offered hhdm b : offered_to hhdm [] (set_mem (Buddy.new b) hhdm).
Proof.
  split; try done.
  - exists (replicate 19 []). by apply (backing_inv (Buddy.new b) [] _ hhdm); [apply sys_inv_new|].
  - intros r Hr. by apply elem_of_nil in Hr.
Qed.

Lemma caller_run_active tr : ∀ s s', run (step (B := B)) s tr s' → Forall (λ e, caller e = true) tr → (∃ L, sys_inv s L) →
  active (heap s') = active (heap s) ∧ ∃ L, sys_inv s' L.
Proof.
  intros s s' Hrun. induction Hrun as [s|s e s1 tr s2 Hstep Hrun IH]; intros Htr [L HL]; [eauto|]. apply Forall_cons in Htr as [He Htr].
  destruct (step_inv _ _ _ _ HL Hstep) as [L1 HL1]. destruct (IH Htr (ex_intro _ L1 HL1)) as [-> ?]. split; [|done].
  destruct Hstep as [a l n r a' E|a l l' pa n a' Hl E|a l pa n a' Hbad Hn Hrc R1 R2 E| |a l b a' E|]; try done.
  - destruct (decide (n < 19)%nat) as [Hn|Hn].
    + destruct (alloc_ok a L n (si_inv _ _ HL) (si_bytes _ _ HL) Hn) as [[_ E']|(pa & a2 & L' & E' & Hp)]; rewrite E in E'; simplify_eq; [done|].
      apply (al_active _ _ _ _ _ _ Hp).
    + unfold alloc in E. change MAX_ORDER with 18 in E. rewrite (proj2 (Z.ltb_lt 18 _)) in E by lia. by injection E as _ <-.
  - destruct (free_inv a l l' L pa n HL Hl) as (a2 & L2 & E2 & Hp & _). rewrite E in E2. simplify_eq. apply (fr_active _ _ _ _ _ _ Hp).
  - pose proof (free_bytes_le _ _ HL) as Hfb. cbn [heap] in Hfb. rewrite (free_foreign a L pa n (si_inv _ _ HL) Hn Hrc R1 ltac:(lia) R2 Hbad) in E. by injection E as <-.
Qed.

(** C23: At boot every byte the memory map calls usable is accounted for:
    free, or in exactly one of the four loss counters, except those of
    entries that run past the end of the address space. What the allocator
    manages lies in usable entries, above the real-mode vectors and the BIOS
    data area, and outside the range from the EBDA to one mebibyte; and so
    does every block it ever hands out. *)
Theorem memory_map_is_accounted_for b hhdm bda memmap :
  firmware_ok hhdm memmap →
  ∃ s, frames_init (mkFrames (Buddy.new b) false 0) hhdm bda memmap = Ret s ∧ initialised s = true ∧
    (let t := stats s in st_free t + st_edge t + st_refused t + st_malformed t + st_excluded t =
       sum_Z len (counted (usable_regions memmap))) ∧
    ∀ tr s', run step (mkSystem (allocator s) []) tr s' → Forall (λ e, caller e = true) tr →
      ∀ pa n, (pa, n) ∈ live s' →
        (∃ r, r ∈ usable_regions memmap ∧ start r ≤ pa ∧ pa + size n ≤ stop r) ∧
        (LOW_USABLE_START ≤ pa ∧ pa + size n ≤ ebda_floor bda ∨ ONE_MIB ≤ pa).
Proof.
  intros [F1 F2 F3 F4 F5]. set (l := counted (usable_regions memmap)) in *.
  assert (∀ r, r ∈ l → r ∈ usable_regions memmap ∧ r ∈ memmap ∧ stop r < 2 ^ 64) as Hl.
  { intros r [Hs Hr]%list_elem_of_filter. pose proof Hr as [_ Hm]%list_elem_of_filter. done. }
  rewrite Forall_forall in F1, F5.
  assert (length l ≤ length memmap)%nat as Hlen by (unfold l, counted, usable_regions; etrans; apply length_filter).
  destruct (take_regions_ok hhdm (ebda_floor bda) (ebda_floor_range bda) l [] _ 0 (new_offered hhdm b)) as (a & E & Hof).
  - apply Forall_forall. intros r Hr. destruct (Hl r Hr) as (_ & Hm & Hs). destruct (F1 r Hm). by repeat split; auto.
  - done.
  - by apply Forall_true.
  - rewrite sum_Z_nil. lia.
  - cbn. lia.
  - lia.
  - lia.
  - rewrite app_nil_l in Hof. exists (mkFrames a true (0 + sum_Z (λ r, len r - sum_Z range_len (parts (ebda_floor bda) r)) l)).
    split; [|split; [done|split]].
    + unfold frames_init. cbn [initialised allocator]. change (set_backing (Buddy.new b) hhdm) with (Ret (set_mem (Buddy.new b) hhdm)). cbn [mbind outcome_bind].
      rewrite take_regions_counted; [fold l; by rewrite E|]. apply Forall_forall. intros r [_ Hr]%list_elem_of_filter. by apply (F1 r Hr).
    + cbn. pose proof (of_sum _ _ _ Hof) as Hsum. unfold accounted in Hsum. rewrite sum_bind, sum_difference in *. lia.
    + intros tr s' Hrun Hcall pa n Hlive. destruct (caller_run_active _ _ _ Hrun Hcall (of_sys _ _ _ Hof)) as [Hact [L HL]]. cbn [heap allocator] in Hact.
      destruct (si_live _ _ HL pa n Hlive) as [_ (_ & (r & Hr & R1 & R2) & _)]. rewrite Hact in Hr.
      destruct (of_regions _ _ _ Hof r Hr) as (t & Ht & T1 & T2). apply list_elem_of_bind in Ht as (u & Ht & Hu).
      apply elem_of_parts in Ht as (U1 & U2 & U3). pose proof (size_pos n). split; [|lia].
      exists u. split; [by apply Hl|lia].
Qed.
End BootTheorem.
