(* ===== verification/KHeap.v ===== *)
(** The kernel heap's memory: [init] of [kernel/src/heap.rs], with
    [AddressSpace::map_2mib] of [paging.rs].

    Each mapping made is recorded, in order.  The two ways [init] gives up,
    which are panics with a message, are values here, so that [Panic] is left
    for what the code does not mean to do. *)
From S2P Require Import Prelude Bits Mem Paging Vm Slab.

Definition HEAP_BASE : Z := 0xffffa00000000000.
Definition HEAP_PAGES : Z := 4096.
Definition HUGE_ORDER : nat := 9.

(** [map_to] of a 2 MiB page. *)
Class HugeMapper := { map_to_2mib : Mem → Z → Z → Z → Z → list Z → result unit MapToError * Mem * nat }.

(** [Page::<Size2MiB>::from_start_address]. *)
Definition huge_aligned (a : Z) : bool := a mod 2 ^ 21 =? 0.

(** [AddressSpace::map_2mib]: at most two tables are made. *)
Definition map_2mib `{HugeMapper} {C} (next : C → option Z * C) (c : C) (m : Mem) (root va pa flags : Z)
    : outcome (result unit MapError * Mem * C) :=
  va ← virt_addr va;
  if negb (huge_aligned va) then Ret (Err Misaligned, m, c) else
  pa ← phys_addr pa;
  if negb (huge_aligned pa) then Ret (Err Misaligned, m, c) else
  let '(supply, why) := draw next 2 c in
  let '(r, m, n) := map_to_2mib m root va pa (Z.lor (to_x86 flags) HUGE_PAGE) supply in
  let c := calls next n c in
  match r with
  | Ok _ => Ret (Ok tt, m, c)
  | Err FrameAllocationFailed => e ← frame_failure why; Ret (Err e, m, c)
  | Err err => Ret (Err (map_to_error err OutOfFrames), m, c)
  end.

Inductive Mapping := Map4K (va pa : Z) | Map2M (va pa : Z).
Inductive HeapError := NoFrames (mapped : Z) | MapFailure (e : MapError).

Section HeapInit.
Context {F : Type} `{Mapper} `{HugeMapper} (take : F → nat → option Z * F).
#[local] Abbreviation frame := (λ f, take f 0%nat).

Definition heap_flags : Z := Z.lor (Z.lor PRESENT WRITABLE) NO_EXECUTE.

(** The ladder: the largest block not above [order]. *)
Fixpoint take_block (f : F) (order : nat) : option (Z * nat) * F :=
  match take f order with
  | (Some pa, f') => (Some (pa, order), f')
  | (None, f') => match order with O => (None, f') | S order' => take_block f' order' end
  end.

(** [expect] on the result of a mapping. *)
Definition mapped_or (x : outcome (result unit MapError * Mem * F)) (s : Sys F) : outcome (result unit HeapError * Sys F) :=
  '(r, m, f) ← x;
  Ret (match r with Ok _ => Ok tt | Err e => Err (MapFailure e) end, mkSys m f (kernel_root s) (cr3 s)).

(** The pages of a block, one at a time. *)
Fixpoint map_pages (n : nat) (s : Sys F) (first block_pa page : Z) (done : list Mapping)
    : outcome (result (list Mapping) HeapError * Sys F) :=
  match n with
  | O => Ret (Ok done, s)
  | S n' =>
      i ← add_chk 64 first page;
      o ← mul_chk 64 i 4096;
      va ← add_chk 64 HEAP_BASE o;
      o ← mul_chk 64 page 4096;
      pa ← add_chk 64 block_pa o;
      '(r, s) ← mapped_or (map frame (frames s) (mem s) (cr3 s) va pa heap_flags) s;
      match r with
      | Err e => Ret (Err e, s)
      | Ok _ => map_pages n' s first block_pa (page + 1) (done ++ [Map4K va pa])
      end
  end.

(** One block. *)
Definition map_block (s : Sys F) (mapped block_pa : Z) (order : nat) (done : list Mapping)
    : outcome (result (list Mapping) HeapError * Sys F) :=
  if (HUGE_ORDER <=? order)%nat && (mapped mod 2 ^ Z.of_nat HUGE_ORDER =? 0) then
    o ← mul_chk 64 mapped 4096;
    va ← add_chk 64 HEAP_BASE o;
    '(r, s) ← mapped_or (map_2mib frame (frames s) (mem s) (cr3 s) va block_pa heap_flags) s;
    Ret (match r with Ok _ => Ok (done ++ [Map2M va block_pa]) | Err e => Err e end, s)
  else map_pages (Z.to_nat (2 ^ Z.of_nat order)) s mapped block_pa 0 done.

(** The loop of [init]; every turn maps a page at least. *)
Fixpoint map_heap (n : nat) (s : Sys F) (mapped : Z) (hint : nat) (done : list Mapping)
    : outcome (result (list Mapping) HeapError * Sys F) :=
  if negb (mapped <? HEAP_PAGES) then Ret (Ok done, s) else
  match n with
  | O => Panic
  | S n' =>
      let remaining := HEAP_PAGES - mapped in
      let order := Nat.min hint (Z.to_nat (Z.log2 remaining)) in
      let '(o, f) := take_block (frames s) order in
      let s := with_frames s f in
      match o with
      | None => Ret (Err (NoFrames mapped), s)
      | Some (block_pa, order) =>
          let hint := Nat.min (order + 1) HUGE_ORDER in
          '(r, s) ← map_block s mapped block_pa order done;
          match r with
          | Err e => Ret (Err e, s)
          | Ok done =>
              mapped ← add_chk 64 mapped (2 ^ Z.of_nat order);
              map_heap n' s mapped hint done
          end
      end
  end.

(** [heap::init]: [initialised] and [HEAP] are its statics. *)
Definition heap_init (initialised : bool) (s : Sys F) (h : Slab.SlabHeap)
    : outcome (result (list Mapping * Slab.SlabHeap) HeapError * Sys F) :=
  if initialised then Ret (Ok ([], h), s) else
  '(r, s) ← map_heap (Z.to_nat HEAP_PAGES) s 0 HUGE_ORDER [];
  match r with
  | Err e => Ret (Err e, s)
  | Ok done => h ← Slab.set_backing h HEAP_BASE (HEAP_PAGES * 4096); Ret (Ok (done, h), s)
  end.
End HeapInit.
