(* ===== verification/KHeapThms.v ===== *)
(** Theorems about the kernel heap's memory ([KHeap]). *)
From S2P Require Import Prelude Bits Mem Virtio Buddy Block Paging PagingProofs Vm Slab Pci Transport TransportProofs BlockInit InitProofs KHeap.

(** The 4 KiB pages a mapping makes, and the frames of a block. *)
Definition pages_of (x : Mapping) : list (Z * Z) :=
  match x with
  | Map4K va pa => [(va, pa)]
  | Map2M va pa => (λ j, (va + 4096 * Z.of_nat j, pa + 4096 * Z.of_nat j)) <$> seq 0 512
  end.
Definition block_frames (p : Z * nat) : list Z := (λ j, p.1 + 4096 * Z.of_nat j) <$> seq 0 (2 ^ p.2).

(** The heap's pages from the [i]-th on, backed by the frames [fs] in order. *)
Definition heap_pages (i : Z) (fs : list Z) : list (Z * Z) := imap (λ j f, (HEAP_BASE + 4096 * (i + Z.of_nat j), f)) fs.

Definition well_aligned (x : Mapping) : Prop :=
  match x with Map4K va pa => va mod 4096 = 0 ∧ pa mod 4096 = 0 | Map2M va pa => va mod 2 ^ 21 = 0 ∧ pa mod 2 ^ 21 = 0 end.

Lemma imap_fmap_seq {A C} (g : nat → A → C) (h : nat → A) n :
  imap g (h <$> seq 0 n) = (λ j, g j (h j)) <$> seq 0 n.
Proof.
  apply list_eq. intros i. rewrite list_lookup_imap, !list_lookup_fmap. destruct (seq 0 n !! i) as [x|] eqn:E; [|done].
  apply lookup_seq in E as [-> _]. done.
Qed.

Lemma heap_pages_app i fs gs : heap_pages i (fs ++ gs) = heap_pages i fs ++ heap_pages (i + Z.of_nat (length fs)) gs.
Proof.
  unfold heap_pages. rewrite imap_app. f_equal. apply imap_ext. intros j x _. cbn. do 2 f_equal. lia.
Qed.

Lemma pow2_nat n : Z.of_nat (2 ^ n) = 2 ^ Z.of_nat n.
Proof. by rewrite Nat2Z.inj_pow. Qed.

Section Heap.
Context {F : Type} `{BlocksLaws F} `{Mapper} `{HugeMapper}.
#[local] Abbreviation blocks := (list (Z * nat)).
#[local] Abbreviation frame := (λ f, btake f 0%nat).

(** As [map_grown]. *)
Lemma map_2mib_grown f l m root va pa flags : bok f l → 2 ^ 64 - 2 ^ 47 ≤ va → pa < 2 ^ 52 → huge_aligned va = true → huge_aligned pa = true →
  ∃ r m' f' k, map_2mib frame f m root va pa flags = Ret (r, m', f') ∧ bok f' k ∧ grown l k ∧ r ≠ Err Misaligned.
Proof.
  intros Hf Hva Hpa Ha Hb. unfold map_2mib. rewrite (virt_addr_high va Hva). cbn [mbind outcome_bind]. rewrite Ha. cbn [negb].
  unfold phys_addr. rewrite (proj2 (Z.ltb_lt _ _) Hpa). cbn [rust_assert mbind outcome_bind]. rewrite Hb. cbn [negb].
  pose proof (draw_frames 2 f l Hf) as Hd. destruct (draw _ 2 _) as [supply why]. cbn [snd] in Hd.
  destruct (map_to_2mib _ _ _ _ _ _) as [[r m'] n]. destruct (calls_frames n f l Hf) as (k & Hk & Hg).
  destruct r as [[]|[]]; rewrite ?Hd; cbn [mbind outcome_bind]; by eexists _, _, _, k.
Qed.

(** No mapping is refused for its alignment. *)
Definition no_misalignment {X} (r : result X HeapError) : Prop := r ≠ Err (MapFailure Misaligned).

Lemma take_block_ok f l n : bok f l → (n < 19)%nat →
  match take_block btake f n with
  | (None, f') => bok f' l
  | (Some (pa, k), f') => (k ≤ n)%nat ∧ 0 ≤ pa ∧ pa mod (4096 * 2 ^ Z.of_nat k) = 0 ∧ block_end (pa, k) ≤ 2 ^ 46 ∧ bok f' ((pa, k) :: l)
  end.
Proof.
  revert f. induction n as [|n IH]; intros f Hf Hn; cbn [take_block]; pose proof (btake_ok f l _ Hf Hn) as Ht;
    destruct (btake f _) as [[pa|] f']; try (destruct Ht as (((P1 & _) & P2) & P3 & P4); by repeat split); [done|].
  specialize (IH f' Ht ltac:(lia)). destruct (take_block btake f' n) as [[[pa k]|] f'']; [|done].
  destruct IH as (? & ? & ? & ? & ?). repeat split; try done. lia.
Qed.

Lemma heap_pages_ok n : ∀ s l first pa page done,
  bok (frames s) l → 0 ≤ first → 0 ≤ page → first + page + Z.of_nat n ≤ HEAP_PAGES → 0 ≤ pa → pa mod 4096 = 0 → pa + 4096 * (page + Z.of_nat n) ≤ 2 ^ 46 →
  ∃ r s' k, map_pages btake n s first pa page done = Ret (r, s') ∧ bok (frames s') k ∧ grown l k ∧ no_misalignment r ∧
    ∀ done', r = Ok done' → done' = done ++ ((λ j, Map4K (HEAP_BASE + 4096 * (first + page + Z.of_nat j)) (pa + 4096 * (page + Z.of_nat j))) <$> seq 0 n).
Proof.
  induction n as [|n IH]; intros s l first pa page done Hs Hf Hp Hn Hpa Hal Hend; cbn [map_pages].
  { exists (Ok done), s, l. split; [done|]. split; [done|]. split; [apply grown_refl|]. split; [done|]. intros ? [= <-]. by rewrite app_nil_r. }
  unfold HEAP_PAGES, HEAP_BASE in *. rewrite add_chk_ok by lia. cbn [mbind outcome_bind]. rewrite mul_chk_ok by lia. cbn [mbind outcome_bind].
  rewrite add_chk_ok by lia. cbn [mbind outcome_bind]. rewrite mul_chk_ok by lia. cbn [mbind outcome_bind].
  rewrite add_chk_ok by lia. cbn [mbind outcome_bind]. unfold mapped_or.
  destruct (map_grown (frames s) l (mem s) (cr3 s) (0xffffa00000000000 + (first + page) * 4096) (pa + page * 4096) heap_flags Hs)
    as (r & m & f & k & -> & Hk & Hg & Hne); [lia..|]. cbn [mbind outcome_bind].
  destruct r as [[]|e].
  2: { eexists _, _, k. split; [done|]. split; [done|]. split; [done|]. split; [|done]. intros [= ->]. apply Hne; [| |done]; unfold page_aligned.
       - rewrite Z.mod_add by lia. by vm_compute.
       - rewrite Z.mod_add by lia. by apply Z.eqb_eq. }
  destruct (IH (mkSys m f (kernel_root s) (cr3 s)) k first pa (page + 1) (done ++ [Map4K (0xffffa00000000000 + (first + page) * 4096) (pa + page * 4096)]) Hk)
    as (r & s' & j & E & Hj & Hg' & Hne' & Hr); [lia..|]. exists r, s', j. split; [exact E|]. split; [done|]. split; [by eapply grown_trans|]. split; [done|].
  intros done' ->. rewrite (Hr done' eq_refl), <- app_assoc. f_equal. cbn [app seq fmap list_fmap]. f_equal; [f_equal; lia|].
  rewrite <- fmap_S_seq, <- list_fmap_compose. apply list_fmap_ext. intros i x _. cbn. f_equal; lia.
Qed.

Lemma heap_va_aligned i k : 0 ≤ i → (k ≤ 9)%nat → i mod 2 ^ Z.of_nat k = 0 → (HEAP_BASE + 4096 * i) mod (4096 * 2 ^ Z.of_nat k) = 0.
Proof.
  intros Hi Hk Hm. apply Z.mod_divide in Hm as [q ->]; [|lia]. apply Z.mod_divide; [lia|].
  exists (HEAP_BASE / (4096 * 2 ^ 9) * 2 ^ (9 - Z.of_nat k) + q).
  replace (HEAP_BASE + 4096 * (q * 2 ^ Z.of_nat k)) with (HEAP_BASE / (4096 * 2 ^ 9) * (4096 * (2 ^ (9 - Z.of_nat k) * 2 ^ Z.of_nat k)) + q * (4096 * 2 ^ Z.of_nat k)); [lia|].
  rewrite <- Z.pow_add_r by lia. replace (9 - Z.of_nat k + Z.of_nat k) with 9 by lia. unfold HEAP_BASE. change (4096 * 2 ^ 9) with 2097152.
  change (0xffffa00000000000 / 2097152 * 2097152) with 0xffffa00000000000. lia.
Qed.

Lemma map_block_ok s l mapped pa n done :
  bok (frames s) l → 0 ≤ mapped → mapped + 2 ^ Z.of_nat n ≤ HEAP_PAGES → (n ≤ 9)%nat → 0 ≤ pa → pa mod (4096 * 2 ^ Z.of_nat n) = 0 →
  block_end (pa, n) ≤ 2 ^ 46 →
  ∃ r s' k, map_block btake s mapped pa n done = Ret (r, s') ∧ bok (frames s') k ∧ grown l k ∧ no_misalignment r ∧
    ∀ done', r = Ok done' → ∃ new, done' = done ++ new ∧ new ≫= pages_of = heap_pages mapped (block_frames (pa, n)) ∧ Forall well_aligned new.
Proof.
  intros Hs Hm Hfit Hn Hpa Hal Hend. unfold block_end in Hend. cbn [fst snd] in Hend. unfold map_block.
  assert (0 < 2 ^ Z.of_nat n) as Hpow by (apply Z.pow_pos_nonneg; lia). unfold HUGE_ORDER.
  destruct ((9 <=? n)%nat && (mapped mod 2 ^ Z.of_nat 9 =? 0)) eqn:Ehuge.
  - apply andb_true_iff in Ehuge as [H9%Nat.leb_le Hmod%Z.eqb_eq]. assert (n = 9%nat) as -> by lia.
    change (2 ^ Z.of_nat 9) with 512 in *. unfold HEAP_PAGES in *. rewrite mul_chk_ok by lia. cbn [mbind outcome_bind].
    rewrite add_chk_ok by (unfold HEAP_BASE; lia). cbn [mbind outcome_bind]. unfold mapped_or.
    change (4096 * 512) with (2 ^ 21) in Hal. pose proof (heap_va_aligned mapped 9 Hm ltac:(lia) Hmod) as Hva.
    change (4096 * 2 ^ Z.of_nat 9) with (2 ^ 21) in Hva. rewrite (Z.mul_comm 4096) in Hva.
    destruct (map_2mib_grown (frames s) l (mem s) (cr3 s) (HEAP_BASE + mapped * 4096) pa heap_flags Hs)
      as (r & m & f & k & -> & Hk & Hg & Hne); [unfold HEAP_BASE; lia|lia|by apply Z.eqb_eq..|]. cbn [mbind outcome_bind].
    eexists _, _, k. split; [done|]. split; [done|]. split; [done|]. split; [by destruct r; [|intros [= ->]]|]. destruct r as [[]|e]; [|done]. intros done' [= <-].
    exists [Map2M (HEAP_BASE + mapped * 4096) pa]. split; [done|]. split.
    + unfold heap_pages, block_frames. rewrite imap_fmap_seq. cbn [mbind list_bind pages_of fst snd]. rewrite app_nil_r.
      change (2 ^ 9)%nat with 512%nat. apply list_fmap_ext. intros i x _. cbn. f_equal. lia.
    + by apply Forall_singleton.
  - assert (Z.of_nat (Z.to_nat (2 ^ Z.of_nat n)) = 2 ^ Z.of_nat n) as Hnn by lia.
    assert (pa mod 4096 = 0) as Hpa4.
    { apply Z.mod_divide in Hal as [q ->]; [|lia]. apply Z.mod_divide; [lia|]. exists (q * 2 ^ Z.of_nat n). lia. }
    destruct (heap_pages_ok (Z.to_nat (2 ^ Z.of_nat n)) s l mapped pa 0 done Hs) as (r & s' & k & E & Hk & Hg & Hne & Hr); [lia..|].
    exists r, s', k. split; [done|]. split; [done|]. split; [done|]. split; [done|]. intros done' ->. eexists. split; [by apply Hr|]. split.
    + unfold heap_pages, block_frames. rewrite imap_fmap_seq. cbn [fst snd].
      replace (Z.to_nat (2 ^ Z.of_nat n)) with (2 ^ n)%nat by (rewrite <- pow2_nat; lia). generalize (seq 0 (2 ^ n)) as js.
      induction js as [|j js IH]; [done|]. cbn. f_equal; [f_equal; lia|]. exact IH.
    + apply Forall_fmap, Forall_forall. intros j _. cbn.
      split; [rewrite (Z.mul_comm 4096), Z.mod_add by lia; by vm_compute|].
      rewrite (Z.mul_comm 4096), Z.mod_add by lia. done.
Qed.

(** What the loop has done when the first [mapped] pages are mapped. *)
Definition tiled (done : list Mapping) (mine : blocks) : Prop :=
  done ≫= pages_of = heap_pages 0 (mine ≫= block_frames) ∧ Forall well_aligned done.

Lemma tiled_snoc done mine new p mapped :
  tiled done mine → mapped = Z.of_nat (length (mine ≫= block_frames)) → new ≫= pages_of = heap_pages mapped (block_frames p) → Forall well_aligned new →
  tiled (done ++ new) (mine ++ [p]).
Proof.
  intros [T1 T2] -> Hn Ha. split; [|by apply Forall_app]. rewrite !bind_app, T1, Hn. cbn [mbind list_bind]. rewrite app_nil_r.
  by rewrite heap_pages_app.
Qed.

Lemma map_heap_ok n : ∀ s l0 l mapped hint done mine,
  bok (frames s) l → kept l0 mine l → tiled done mine → mapped = Z.of_nat (length (mine ≫= block_frames)) → mapped ≤ HEAP_PAGES →
  (hint ≤ 9)%nat → HEAP_PAGES ≤ mapped + Z.of_nat n →
  ∃ r s' k, map_heap btake n s mapped hint done = Ret (r, s') ∧ bok (frames s') k ∧ no_misalignment r ∧
    ∃ mine', kept l0 mine' k ∧ ∀ done', r = Ok done' → tiled done' mine' ∧ Z.of_nat (length (mine' ≫= block_frames)) = HEAP_PAGES.
Proof.
  induction n as [|n IH]; intros s l0 l mapped hint done mine Hs Hkept Htile Hmap Hle Hhint Hfuel; cbn [map_heap];
    destruct (Z.ltb_spec mapped HEAP_PAGES) as [Hlt|Hge]; cbn [negb]; try lia.
  1, 3: exists (Ok done), s, l; split; [done|]; split; [done|]; split; [done|]; exists mine; split; [done|]; intros ? [= <-]; split; [done|lia].
  assert (0 ≤ Z.log2 (HEAP_PAGES - mapped)) as Hlog by apply Z.log2_nonneg.
  assert (2 ^ Z.log2 (HEAP_PAGES - mapped) ≤ HEAP_PAGES - mapped) as Hpow by (apply Z.log2_spec; lia).
  set (order := Nat.min hint (Z.to_nat (Z.log2 (HEAP_PAGES - mapped)))).
  pose proof (take_block_ok (frames s) l order Hs ltac:(lia)) as Ht. destruct (take_block btake (frames s) order) as [[[pa k]|] f].
  2: { eexists _, _, l. split; [done|]. split; [done|]. split; [done|]. by exists mine. }
  destruct Ht as (Hk & Hpa & Hal & Hend & Hf).
  assert (2 ^ Z.of_nat k ≤ 2 ^ Z.log2 (HEAP_PAGES - mapped)) as Hkp by (apply Z.pow_le_mono_r; lia).
  destruct (map_block_ok (with_frames s f) ((pa, k) :: l) mapped pa k done Hf) as (r & s' & k' & E & Hk' & Hg & Hne & Hr); [lia|lia|lia|done..|].
  rewrite E. cbn [mbind outcome_bind].
  assert (kept l0 (mine ++ [(pa, k)]) ((pa, k) :: l)) as Hkept1.
  { destruct Hkept as (tabs & Htabs & Hp). exists tabs. split; [done|]. rewrite Hp. rewrite <- (app_assoc mine). cbn.
    rewrite !(app_assoc tabs mine). by rewrite Permutation_middle. }
  pose proof (kept_grown _ _ _ _ Hkept1 Hg) as Hkept2.
  destruct r as [done1|e]; [|eexists _, _, k'; split; [done|]; split; [done|]; split; [by intros [= ->]|]; by exists (mine ++ [(pa, k)])].
  destruct (Hr done1 eq_refl) as (new & -> & Hnew & Hna). rewrite add_chk_ok by (unfold HEAP_PAGES in *; lia). cbn [mbind outcome_bind].
  assert (0 < 2 ^ Z.of_nat k) by (apply Z.pow_pos_nonneg; lia).
  apply (IH s' l0 k' _ _ _ (mine ++ [(pa, k)])); [done|done| | |lia|unfold HUGE_ORDER; lia|lia].
  - by eapply tiled_snoc.
  - rewrite bind_app, length_app. cbn [mbind list_bind]. rewrite app_nil_r. unfold block_frames at 2. cbn [snd]. rewrite length_fmap, length_seq.
    rewrite Nat2Z.inj_add, pow2_nat. lia.
Qed.

Lemma block_frames_NoDup p : NoDup (block_frames p).
Proof. apply NoDup_fmap_2; [intros i j E; lia|apply NoDup_seq]. Qed.

Lemma block_frames_range p x : x ∈ block_frames p → p.1 ≤ x < block_end p.
Proof.
  intros (j & -> & Hj%elem_of_seq)%list_elem_of_fmap. unfold block_end. pose proof (pow2_nat p.2). lia.
Qed.

Lemma blocks_NoDup mine : ∀ f l, bok f (mine ++ l) → NoDup (mine ≫= block_frames).
Proof.
  induction mine as [|p mine IH]; intros f l Hf; cbn [mbind list_bind]; [constructor|]. apply NoDup_app. split; [apply block_frames_NoDup|]. split.
  - intros x Hx (q & Hq & Hin)%list_elem_of_bind. apply block_frames_range in Hx, Hq. apply elem_of_Permutation in Hin as [rest Hrest].
    destruct (bok_apart f p q (rest ++ l)); [|lia|lia]. eapply bok_perm; [|exact Hf]. cbn. by rewrite Hrest.
  - apply (IH f (p :: l)). eapply bok_perm; [|exact Hf]. cbn. by rewrite Permutation_middle.
Qed.

(** Setting up the kernel heap terminates, and what it sets up is
    right: if it does not run out of frames and no mapping is refused, the
    pages it maps are the 4096 pages of the heap, each once and in order;
    the frames behind them are those of blocks it took from the frame
    allocator, no frame behind two pages; every large page is aligned at
    both ends; and the slab heap is given exactly the range that was mapped.
    No mapping is refused for its alignment. Whatever happens, only its
    blocks and page tables have left the frame allocator, and nothing
    overflows. *)
Theorem heap_is_backed_page_by_page s l :
  bok (frames s) l →
  ∃ r s' k mine, heap_init btake false s Slab.new = Ret (r, s') ∧ bok (frames s') k ∧ kept l mine k ∧
    match r with
    | Ok (done, h) =>
        done ≫= pages_of = heap_pages 0 (mine ≫= block_frames) ∧ Z.of_nat (length (mine ≫= block_frames)) = HEAP_PAGES ∧
        NoDup (mine ≫= block_frames) ∧ Forall well_aligned done ∧
        Slab.bump_next h = HEAP_BASE ∧ Slab.bump_end h = HEAP_BASE + HEAP_PAGES * 4096
    | Err e => e ≠ MapFailure Misaligned
    end.
Proof.
  intros Hs. unfold heap_init.
  destruct (map_heap_ok (Z.to_nat HEAP_PAGES) s l l 0 HUGE_ORDER [] [] Hs) as (r & s' & k & E & Hk & Hne & mine & Hkept & Hr);
    [by exists []|done|done|by vm_compute|unfold HUGE_ORDER; lia|unfold HEAP_PAGES; lia|].
  rewrite E. cbn [mbind outcome_bind]. destruct r as [d|e]; [|exists (Err e), s', k, mine; split; [done|]; split; [done|]; split; [done|]; by intros ->].
  destruct (Hr d eq_refl) as [[T1 T2] Hlen]. eexists (Ok (d, _)), s', k, mine. split; [reflexivity|]. split; [done|]. split; [done|].
  split; [done|]. split; [done|]. split; [|by split; [|split]].
  destruct Hkept as (tabs & _ & Hp). apply (blocks_NoDup _ (frames s') (tabs ++ l)). eapply bok_perm; [|exact Hk].
  rewrite Hp. apply Permutation_app_swap_app.
Qed.
End Heap.
