(* ===== verification/BootExamples.v ===== *)
(** The theorems about boot at work: a memory map with a hole below one
    mebibyte and an entry that wraps, and a heap on 32 MiB. *)
From S2P Require Import Prelude Bits Mem Virtio Buddy BuddyProofs BuddyFree BuddySys Block Paging PagingProofs Vm VmProofs VmFrames VmExamples.
From S2P Require Import Pci Transport TransportProofs BlockInit InitProofs BringUpExamples Boot BootThms Slab KHeap KHeapThms.
From Stdlib Require Import Strings.Byte.

(** ** The memory map *)

Definition small_map : list MemoryRegion :=
  [mkRegion 0 0x9fc00 true; mkRegion 0x9fc00 0x60400 false; mkRegion 0x100000 0x20000 true; mkRegion (2 ^ 64 - 4096) 8192 true].
(** The BIOS reports its data area at 0x9d800. *)
Definition small_bda : Mem := λ x, if x =? 0x40e then xc0 else if x =? 0x40f then x9d else x00.

Lemma small_map_ok : firmware_ok (∅ : gmap Z Z) small_map.
Proof.
  assert (counted (usable_regions small_map) = [mkRegion 0 0x9fc00 true; mkRegion 0x100000 0x20000 true]) as Hc by by vm_compute.
  split; rewrite ?Hc; [|split; [apply Forall_singleton; left; by vm_compute|by split; [apply Forall_nil|]]|by vm_compute|by vm_compute|].
  - apply Forall_forall. intros r Hr. unfold small_map in Hr. rewrite !elem_of_cons, elem_of_nil in Hr. destruct Hr as [->|[->|[->|[->|[]]]]]; split; by vm_compute.
  - apply Forall_forall. intros r _. apply empty_has_no_tags.
Qed.

Lemma memory_map_is_accounted_for_witness :
  ∃ s, frames_init (mkFrames (Buddy.new (∅ : gmap Z Z)) false 0) ∅ small_bda small_map = Ret s ∧
    (let t := stats s in st_free t + st_edge t + st_refused t + st_malformed t + st_excluded t = 0x9fc00 + 0x20000).
Proof.
  destruct (memory_map_is_accounted_for ∅ ∅ small_bda small_map small_map_ok) as (s & E & _ & Hsum & _). exists s. split; [exact E|].
  cbn zeta in *. rewrite Hsum. vm_compute. reflexivity.
Defined.

(** ** The heap *)

(** A mapper that says yes. *)
#[export] Instance yes_huge : HugeMapper := { map_to_2mib m root va pa flags supply := (Ok tt, m, 0%nat) }.

Definition pool2 : @system (gmap Z Z) :=
  mkSystem (match add_region (Buddy.new (∅ : gmap Z Z)) 0x1000000 0x2000000 with Ret a => a | Panic => Buddy.new ∅ end) [].
Definition boot2 : Vm.Sys (@system (gmap Z Z)) := mkSys (λ _, x00) pool2 0x2000 0x2000.

Lemma boot2_ok : bok (frames boot2) [].
Proof.
  split; [|cbn [frames boot2]; split; [|done]].
  - apply reachable_inv. exists ∅, [ERegion 0x1000000 0x2000000]. eapply run_cons; [|constructor].
    apply step_region; [done|done|done|apply demo0_clear|apply empty_has_no_tags|by vm_compute].
  - assert (active (heap pool2) = [(0x1000000, 0x3000000)]) as -> by by vm_compute. repeat constructor. cbn. lia.
Qed.

Lemma heap_is_backed_page_by_page_witness :
  ∃ done h s' mine, heap_init btake false boot2 Slab.new = Ret (Ok (done, h), s') ∧
    done ≫= pages_of = heap_pages 0 (mine ≫= block_frames) ∧ Slab.bump_next h = HEAP_BASE.
Proof.
  destruct (heap_is_backed_page_by_page boot2 [] boot2_ok) as (r & s' & k & mine & E & _ & _ & Hr).
  assert ((match heap_init btake false boot2 Slab.new with Ret (Ok _, _) => true | _ => false end) = true) as Hok by (vm_compute; reflexivity).
  rewrite E in Hok. destruct r as [[done h]|e]; [|discriminate Hok]. destruct Hr as (R1 & _ & _ & _ & R5 & _).
  exists done, h, s', mine. split; [exact E|]. split; [exact R1|exact R5].
Defined.
