(* ===== verification/KCacheOps.v ===== *)
(** The cache's three calls: [read_block], [write_block] and [sync] of
    [kernel/src/bcache.rs], with [write_back] and [make_room] under them.

    [KBCache] has the sections they run under the lock.  Here each call is a
    task: a program counter and its locals, moved by [act] from one locked
    section to the next.  [world] runs one task among everything else the
    cache does, every step of [KBCacheSys.step] by other callers, the driver
    and the device included, except that nobody else resolves the request
    the task is waiting for. *)
From S2P Require Import Prelude Bits BCache KBCache KBCacheSys.
From Stdlib Require Import Strings.Byte.

Definition FILL_WAIT_TICKS_LIMIT : Z := 600.
Definition PIN_WAIT_TICKS_LIMIT : Z := 32.
Definition SYNC_ROUND_LIMIT : Z := 600.

(** ** Tasks *)

(** [O] is what a move is told from outside: the driver's error, the time. *)
Class Task (O T : Type) := {
  act : O → sys → T → option (outcome (sys * event * T));
  mine : T → io → bool
}.

Section World.
Context {O T : Type} `{Task O T}.

(** The requests a task waits for stay outstanding. *)
Definition undisturbed (t : T) (s s' : sys) : Prop :=
  ∀ o, o ∈ ios s → mine t o = true → ∃ o', o' ∈ ios s' ∧ mine t o' = true.

Inductive world : sys * T → bool * event → sys * T → Prop :=
  | world_own o s t s' e t' : act o s t = Some (Ret (s', e, t')) → world (s, t) (true, e) (s', t')
  | world_other s t e s' : step s e s' → undisturbed t s s' → world (s, t) (false, e) (s', t).
End World.

(** ** [write_back]

    From its two ends: the slot is taken, and, when the driver is done, the
    slot is resolved. [None] is a request still outstanding. *)
Definition start_write (s : sys) (slot : nat) : outcome (option Writeback * sys) :=
  '(r, c) ← begin_writeback (cache s) slot;
  _ ← match r with
      | None => Ret 0
      | Some w => match lba_of (wb_key w) with Ok l => Ret l | Err _ => Panic end
      end;
  Ret (r, with_cache (with_ios s (map (λ w, IoWb w Queued) (option_list r) ++ ios s)) c).

Fixpoint take_done (g : io → option bool) (l : list io) : option (bool * list io) :=
  match l with
  | [] => None
  | o :: l' =>
      match g o with
      | Some ok => Some (ok, l')
      | None => '(ok, rest) ← take_done g l'; Some (ok, o :: rest)
      end
  end.

Definition written (w : Writeback) (o : io) : option bool :=
  match o with IoWb w' (WriteDone ok) => if decide (w' = w) then Some ok else None | _ => None end.
Definition filled (f : Fill) (o : io) : option bool :=
  match o with IoFill _ f' (ReadDone ok) => if decide (f' = f) then Some ok else None | _ => None end.

Definition end_write (s : sys) (w : Writeback) : option (outcome (bool * sys)) :=
  match take_done (written w) (ios s) with
  | None => None
  | Some (ok, rest) => Some (c ← finish_writeback (cache s) w ok; Ret (ok, with_cache (with_ios s rest) c))
  end.

Definition end_fill (s : sys) (f : Fill) : option (outcome (bool * option BlockRef * sys)) :=
  match take_done (filled f) (ios s) with
  | None => None
  | Some (ok, rest) =>
      Some ('(r, c) ← finish_fill (cache s) f ok;
            Ret (ok, r, with_cache (with_ios (with_refs s (option_list r ++ refs s)) rest) c))
  end.

Definition is_write (w : Writeback) (o : io) : bool := match o with IoWb w' _ => bool_decide (w' = w) | _ => false end.
Definition is_fill (k : BlockKey) (f : Fill) (o : io) : bool :=
  match o with IoFill k' f' _ => bool_decide (k' = k ∧ f' = f) | _ => false end.

Section Calls.
Context {E : Type}.

(** [BcacheError], with the driver's error in [Device]. *)
Inductive CallError := CacheErr (e : BcacheError) | Device (e : E).

(** [saturating_sub(now, started) > limit]. *)
Definition past_deadline (now started limit : Z) : bool := limit <? saturating_sub now started.

(** ** [sync] *)

Inductive SyncPc :=
  | Enter | Round | Next (pending : Z) | Writing (pending : Z) (slot : nat) (w : Writeback)
  | Waiting | Returned (r : result unit CallError).
Record Sync := mkSync
  { owed : Z; failed : Z; failure : option CallError; idle_rounds : Z; acted : bool; pc : SyncPc }.

Definition at_pc (t : Sync) (p : SyncPc) : Sync := mkSync (owed t) (failed t) (failure t) (idle_rounds t) (acted t) p.
Definition sync_start : Sync := mkSync 0 0 None 0 false Enter.

(** [owed & unsynced_mask()? & !failed]. *)
Definition still_owed (c : Bcache) (owed failed : Z) : Z :=
  Z.land (Z.land owed (unsynced_mask c)) (bitnot 32 failed).

(** A round's end. *)
Definition round_end (t : Sync) : outcome Sync :=
  if acted t then Ret (mkSync (owed t) (failed t) (failure t) 0 (acted t) Round) else
  idle ← add_chk 32 (idle_rounds t) 1;
  Ret (mkSync (owed t) (failed t) (failure t) idle (acted t)
    (if SYNC_ROUND_LIMIT <? idle then Returned (Err (CacheErr WritebackStalled)) else Waiting)).

(** What a writeback's verdict leaves. *)
Definition wrote (t : Sync) (pending : Z) (slot : nat) (ok : bool) (e : E) : Sync :=
  if ok then mkSync (owed t) (failed t) (failure t) (idle_rounds t) true (Next pending)
  else mkSync (owed t) (Z.lor (failed t) (Z.shiftl 1 (Z.of_nat slot)))
         (Some (match failure t with Some e' => e' | None => Device e end)) (idle_rounds t) true (Next pending).

Definition sync_act (e : E) (s : sys) (t : Sync) : option (outcome (sys * event * Sync)) :=
  match pc t with
  | Enter => Some (Ret (s, ETau, mkSync (unsynced_mask (cache s)) 0 None 0 (acted t) Round))
  | Round =>
      let pending := still_owed (cache s) (owed t) (failed t) in
      Some (Ret (s, ETau,
        if pending =? 0
        then at_pc t (Returned (match failure t with Some e => Err e | None => Ok tt end))
        else mkSync (owed t) (failed t) (failure t) (idle_rounds t) false (Next pending)))
  | Next pending =>
      if pending =? 0 then Some (t' ← round_end t; Ret (s, ETau, t')) else
      let slot := Z.to_nat (trailing_zeros 32 pending) in
      let pending := Z.land pending (bitnot 32 (Z.shiftl 1 (Z.of_nat slot))) in
      Some ('(r, s') ← start_write s slot;
            Ret (s', ETau, at_pc t (match r with None => Next pending | Some w => Writing pending slot w end)))
  | Writing pending slot w =>
      x ← end_write s w;
      Some ('(ok, s') ← x; Ret (s', ETau, wrote t pending slot ok e))
  | Waiting => Some (Ret (s, ETau, at_pc t Round))
  | Returned _ => None
  end.

#[export] Instance sync_task : Task E Sync :=
  { act := sync_act; mine := λ t o, match pc t with Writing _ _ w => is_write w o | _ => false end }.

(** ** [make_room] *)

Inductive RoomPc :=
  | Choose | Take (slot : nat) | Flushing (w : Writeback) | Look (slot : nat) | RoomWait
  | RoomDone (r : result bool CallError).

Definition room_act (e : E) (s : sys) (p : RoomPc) : option (outcome (sys * RoomPc)) :=
  match p with
  | Choose => Some (Ret (s, match flushable_slot (cache s) with None => RoomDone (Ok false) | Some slot => Take slot end))
  | Take slot =>
      Some ('(r, s') ← start_write s slot; Ret (s', match r with None => Look slot | Some w => Flushing w end))
  | Flushing w =>
      x ← end_write s w;
      Some ('(ok, s') ← x; Ret (s', RoomDone (if ok : bool then Ok true else Err (Device e))))
  | Look slot =>
      Some (Ret (s, match state_of (table (cache s)) slot with
                    | Some Clean | None => RoomDone (Ok true)
                    | _ => RoomWait
                    end))
  | RoomWait => Some (Ret (s, RoomDone (Ok true)))
  | RoomDone _ => None
  end.

Definition room_mine (p : RoomPc) (o : io) : bool := match p with Flushing w => is_write w o | _ => false end.

(** Another try at making room, or the refusal: [flushed > SLOTS || ...]. *)
Definition try_room (flushed : Z) : bool := flushed <=? Z.of_nat SLOTS.

(** ** [read_block] *)

Inductive ReadPc :=
  | RdEnter | RdClaim | RdRoom (p : RoomPc) | RdTick | RdFill (f : Fill)
  | RdReturned (r : result BlockRef CallError).
Record Read := mkRead { rd_key : BlockKey; rd_started : Z; rd_flushed : Z; rd_pc : ReadPc }.

Definition read_at (t : Read) (p : ReadPc) : Read := mkRead (rd_key t) (rd_started t) (rd_flushed t) p.
Definition read_start (k : BlockKey) : Read := mkRead k 0 0 RdEnter.

(** What [claim] answered. *)
Definition claimed (now : Z) (t : Read) (r : result Claim BcacheError) : outcome Read :=
  match r with
  | Err Exhausted =>
      flushed ← add_chk 64 (rd_flushed t) 1;
      Ret (mkRead (rd_key t) (rd_started t) flushed
        (if try_room flushed then RdRoom Choose else RdReturned (Err (CacheErr Exhausted))))
  | Err e => Ret (read_at t (RdReturned (Err (CacheErr e))))
  | Ok (Hit b) => Ret (read_at t (RdReturned (Ok b)))
  | Ok Wait =>
      Ret (read_at t (if past_deadline now (rd_started t) FILL_WAIT_TICKS_LIMIT
                      then RdReturned (Err (CacheErr FillStalled)) else RdTick))
  | Ok (ClaimFill f) =>
      match lba_of (rd_key t) with Ok _ => Ret (read_at t (RdFill f)) | Err _ => Panic end
  end.

Definition read_act (o : E * Z) (s : sys) (t : Read) : option (outcome (sys * event * Read)) :=
  match rd_pc t with
  | RdEnter =>
      Some (Ret (s, ETau, match read_entry (rd_key t) with
                          | Err e => read_at t (RdReturned (Err (CacheErr e)))
                          | Ok _ => mkRead (rd_key t) o.2 0 RdClaim
                          end))
  | RdClaim =>
      Some ('(r, c) ← claim (cache s) (rd_key t);
            t' ← claimed o.2 t r;
            Ret (with_cache (after_claim s (rd_key t) r) c, ETau, t'))
  | RdRoom (RoomDone (Err e)) => Some (Ret (s, ETau, read_at t (RdReturned (Err e))))
  | RdRoom (RoomDone (Ok false)) => Some (Ret (s, ETau, read_at t (RdReturned (Err (CacheErr Exhausted)))))
  | RdRoom (RoomDone (Ok true)) => Some (Ret (s, ETau, read_at t RdClaim))
  | RdRoom p => x ← room_act o.1 s p; Some ('(s', p') ← x; Ret (s', ETau, read_at t (RdRoom p')))
  | RdTick => Some (Ret (s, ETau, read_at t RdClaim))
  | RdFill f =>
      x ← end_fill s f;
      Some ('(ok, r, s') ← x;
            t' ← match r with
                 | Some b => Ret (read_at t (RdReturned (Ok b)))
                 | None => if ok : bool then Panic else Ret (read_at t (RdReturned (Err (Device o.1))))
                 end;
            Ret (s', ETau, t'))
  | RdReturned _ => None
  end.

#[export] Instance read_task : Task (E * Z) Read :=
  { act := read_act;
    mine := λ t o, match rd_pc t with RdRoom p => room_mine p o | RdFill f => is_fill (rd_key t) f o | _ => false end }.

(** ** [write_block] *)

Inductive WritePc := WrEnter | WrStore | WrRoom (p : RoomPc) | WrTick | WrReturned (r : result unit CallError).
Record Write := mkWrite
  { wr_key : BlockKey; wr_data : list byte; io_started : option Z; pin_started : option Z;
    wr_flushed : Z; wr_pc : WritePc }.

Definition write_at (t : Write) (p : WritePc) : Write :=
  mkWrite (wr_key t) (wr_data t) (io_started t) (pin_started t) (wr_flushed t) p.
Definition write_start (k : BlockKey) (d : list byte) : Write := mkWrite k d None None 0 WrEnter.

(** A write held up: one deadline per reason. *)
Definition held_up (now : Z) (t : Write) (b : Blocked) : Write :=
  let wait began limit (stalled : BcacheError) :=
    if past_deadline now began limit then WrReturned (Err (CacheErr stalled)) else WrTick in
  match b with
  | Filling =>
      let began := default now (io_started t) in
      mkWrite (wr_key t) (wr_data t) (Some began) (pin_started t) (wr_flushed t)
        (wait began FILL_WAIT_TICKS_LIMIT FillStalled)
  | WritingBack =>
      let began := default now (io_started t) in
      mkWrite (wr_key t) (wr_data t) (Some began) (pin_started t) (wr_flushed t)
        (wait began FILL_WAIT_TICKS_LIMIT WritebackStalled)
  | Reader =>
      let began := default now (pin_started t) in
      mkWrite (wr_key t) (wr_data t) (io_started t) (Some began) (wr_flushed t)
        (wait began PIN_WAIT_TICKS_LIMIT BlockPinned)
  end.

Definition stored_or (now : Z) (t : Write) (r : result (result unit Blocked) BcacheError) : outcome Write :=
  match r with
  | Ok (Ok _) => Ret (write_at t (WrReturned (Ok tt)))
  | Ok (Err b) => Ret (held_up now t b)
  | Err Exhausted =>
      flushed ← add_chk 64 (wr_flushed t) 1;
      Ret (mkWrite (wr_key t) (wr_data t) (io_started t) (pin_started t) flushed
        (if try_room flushed then WrRoom Choose else WrReturned (Err (CacheErr Exhausted))))
  | Err e => Ret (write_at t (WrReturned (Err (CacheErr e))))
  end.

Definition write_act (o : E * Z) (s : sys) (t : Write) : option (outcome (sys * event * Write)) :=
  match wr_pc t with
  | WrEnter =>
      Some (Ret (s, ETau, match write_entry (wr_key t) (wr_data t) with
                          | Err e => write_at t (WrReturned (Err (CacheErr e)))
                          | Ok _ => mkWrite (wr_key t) (wr_data t) None None 0 WrStore
                          end))
  | WrStore =>
      Some ('(r, c, m) ← store (cache s) (mem s) (wr_key t) (wr_data t);
            t' ← stored_or o.2 t r;
            Ret (with_cache (with_mem s m) c, store_event (wr_key t) (wr_data t) r, t'))
  | WrRoom (RoomDone (Err e)) => Some (Ret (s, ETau, write_at t (WrReturned (Err e))))
  | WrRoom (RoomDone (Ok false)) => Some (Ret (s, ETau, write_at t (WrReturned (Err (CacheErr Exhausted)))))
  | WrRoom (RoomDone (Ok true)) => Some (Ret (s, ETau, write_at t WrStore))
  | WrRoom p => x ← room_act o.1 s p; Some ('(s', p') ← x; Ret (s', ETau, write_at t (WrRoom p')))
  | WrTick => Some (Ret (s, ETau, write_at t WrStore))
  | WrReturned _ => None
  end.

#[export] Instance write_task : Task (E * Z) Write :=
  { act := write_act; mine := λ t o, match wr_pc t with WrRoom p => room_mine p o | _ => false end }.
End Calls.
Arguments CallError E : clear implicits.
Arguments SyncPc E : clear implicits.
Arguments Sync E : clear implicits.
Arguments RoomPc E : clear implicits.
Arguments ReadPc E : clear implicits.
Arguments Read E : clear implicits.
Arguments WritePc E : clear implicits.
Arguments Write E : clear implicits.
