(* ===== verification/KCacheOpsProofs.v ===== *)
(** What a step of the cache does to its table, and what follows for the
    calls of [KCacheOps]: they never panic, and what their answers mean. *)
From S2P Require Import Prelude Bits BCache KBCache KBCacheSys KBCacheProofs KCacheOps.
From Stdlib Require Import Strings.Byte.

(** ** One step, one slot *)

(** How a slot and its filling flag may change. *)
Inductive change : event → Slot → bool → Slot → bool → Prop :=
  | ch_claim sl k l : state sl = Free ∨ state sl = Clean → read_entry k = Ok l →
      change ETau sl false (mkSlot k InFlight 0 false) true
  | ch_fill_kept sl p : state sl = InFlight → change ETau sl true (mkSlot (key sl) Clean p false) false
  | ch_fill_gone sl : state sl = InFlight → change ETau sl true empty_slot false
  | ch_pins sl fl p : change ETau sl fl (with_pins sl p) fl
  | ch_store sl k d l : state sl = Dirty → key sl = k → write_entry k d = Ok l →
      change (EStore k d) sl false (mkSlot k Dirty 0 false) false
  | ch_store_new sl k d l : state sl = Free ∨ state sl = Clean → write_entry k d = Ok l →
      change (EStore k d) sl false (mkSlot k Dirty 0 false) false
  | ch_begin sl : state sl = Dirty → change ETau sl false (with_state sl InFlight) false
  | ch_end sl st : state sl = InFlight → st = Clean ∨ st = Dirty →
      change ETau sl false (mkSlot (key sl) st (pins sl) false) false.

Definition changed (s : sys) (e : event) (s' : sys) : Prop :=
  (cache s' = cache s ∧ e = ETau) ∨
  ∃ i sl sl', table (cache s) !! i = Some sl ∧ table (cache s') = <[i := sl']> (table (cache s)) ∧
    (∀ j, j ≠ i → is_filling (cache s') j = is_filling (cache s) j) ∧
    change e sl (is_filling (cache s) i) sl' (is_filling (cache s') i).

Lemma changed_at s e s' i sl sl' fl' :
  table (cache s) !! i = Some sl → table (cache s') = <[i := sl']> (table (cache s)) →
  length (filling (cache s)) = SLOTS → (i < SLOTS)%nat → filling (cache s') = <[i := fl']> (filling (cache s)) →
  change e sl (is_filling (cache s) i) sl' fl' → changed s e s'.
Proof.
  intros Hi Ht Hl Hlt Hf Hc. right. exists i, sl, sl'. split; [done|]. split; [done|].
  assert (∀ j, is_filling (cache s') j = if decide (j = i) then fl' else is_filling (cache s) j) as Hj.
  { intros j. unfold is_filling. rewrite Hf. destruct (decide (j = i)) as [->|Hne].
    - by rewrite list_lookup_insert_eq by by rewrite Hl.
    - by rewrite list_lookup_insert_ne. }
  split; [intros j Hne; by rewrite Hj, decide_False|]. by rewrite (Hj i), decide_True.
Qed.

Lemma changed_table s e s' i sl sl' :
  table (cache s) !! i = Some sl → table (cache s') = <[i := sl']> (table (cache s)) →
  filling (cache s') = filling (cache s) → change e sl (is_filling (cache s) i) sl' (is_filling (cache s) i) → changed s e s'.
Proof.
  intros Hi Ht Hf Hc. right. exists i, sl, sl'. split; [done|]. split; [done|]. unfold is_filling in *. by rewrite Hf.
Qed.

Lemma fill_flag s k f ph rest sl :
  inv s → ios s ≡ₚ IoFill k f ph :: rest → table (cache s) !! io_slot (IoFill k f ph) = Some sl →
  is_filling (cache s) (io_slot (IoFill k f ph)) = true.
Proof. intros Hinv Hp _. by destruct (live_io _ _ _ Hinv Hp) as (? & _ & _ & _ & (? & _) & _). Qed.

Lemma wb_flag s w ph rest :
  inv s → ios s ≡ₚ IoWb w ph :: rest → is_filling (cache s) (io_slot (IoWb w ph)) = false.
Proof. intros Hinv Hp. by destruct (live_io _ _ _ Hinv Hp) as (? & _ & _ & _ & (? & _) & _). Qed.

Lemma changed_claim s k l r c' :
  inv s → read_entry k = Ok l → claim (cache s) k = Ret (r, c') → changed s ETau (with_cache (after_claim s k r) c').
Proof.
  intros Hinv Hk He. pose proof (inv_shape s Hinv) as Hsh.
  destruct (lookup (table (cache s)) k) as [j|] eqn:El.
  - apply lookup_Some in El as (slj & Hj & Hfj & Hkey); [|apply Hsh].
    rewrite (claim_resident _ j slj) in He by (done || by apply is_hit_spec).
    destruct (bool_decide (state slj = InFlight) && is_filling (cache s) j).
    { injection He as <- <-. by left. }
    apply bind_ret_inv in He as (t & (sl0 & Hj0 & _ & _ & ->)%pin_ret & [= <- <-]).
    apply (changed_table s _ _ j sl0 (with_pins sl0 (pins sl0 + 1))); [done|done|done|constructor].
  - unfold claim in He. rewrite El in He.
    destruct (claim_free_slot_spec _ k Hsh El) as [E|(j & slj & w & Hj & Hs & Hp & Hw & E)];
      rewrite E in He; simpl in He.
    { injection He as <- <-. by left. }
    pose proof (slot_lt _ _ _ Hsh Hj) as Hlt.
    rewrite set_index_nat in He by (rewrite (sh_filling _ Hsh); done).
    simpl in He. rewrite index_frames in He by done. simpl in He. injection He as <- <-.
    apply (changed_at s _ _ j slj (mkSlot k InFlight 0 false) true); [done|done|apply Hsh|done|done|].
    destruct (reusable_no_ios s j slj (inv_slots s Hinv j slj Hj) Hs) as [_ ->]. by eapply ch_claim.
Qed.

Lemma changed_store s k d l r c' m' :
  inv s → write_entry k d = Ok l → store (cache s) (mem s) k d = Ret (r, c', m') →
  changed s (store_event k d r) (with_cache (with_mem s m') c').
Proof.
  intros Hinv Hk He. pose proof (inv_shape s Hinv) as Hsh.
  destruct (lookup (table (cache s)) k) as [j|] eqn:El.
  - apply lookup_Some in El as (slj & Hj & Hfj & Hkey); [|apply Hsh].
    rewrite (store_resident _ j slj) in He
      by (done || (by apply is_hit_spec) || exact (proj1 (inv_slots s Hinv j slj Hj))).
    case_bool_decide as Hs; [injection He as <- <- <-; by left|].
    case_bool_decide; [injection He as <- <- <-; by left|].
    injection He as <- <- <-. apply (changed_table s _ _ j slj (mkSlot k Dirty 0 false)); [done..|]. cbn [store_event].
    destruct (inv_slots s Hinv j slj Hj) as (_ & _ & _ & _ & Hst). unfold state_ok in Hst.
    destruct (state slj) eqn:Es; [done|destruct Hst as (_ & -> & _)|destruct Hst as (_ & ->)|done].
    + eapply ch_store_new; [|done]. rewrite Es. by right.
    + by eapply ch_store.
  - destruct (store_absent _ (mem s) k d Hsh El) as [E|(j & slj & w & Hj & Hs & Hp & Hw & E)];
      rewrite E in He; injection He as <- <- <-; [by left|].
    apply (changed_table s _ _ j slj (mkSlot k Dirty 0 false)); [done..|]. cbn [store_event].
    destruct (reusable_no_ios s j slj (inv_slots s Hinv j slj Hj) Hs) as [_ ->]. by eapply ch_store_new.
Qed.

Lemma changed_begin s slot r c' l :
  inv s → begin_writeback (cache s) slot = Ret (r, c') → changed s ETau (with_cache (with_ios s l) c').
Proof.
  intros Hinv He. destruct (table (cache s) !! slot) as [slj|] eqn:Hj.
  - rewrite (begin_writeback_eq _ slot slj) in He by (done || apply (inv_shape s Hinv)). case_bool_decide as Hs.
    { injection He as <- <-. by left. }
    destruct (is_filling (cache s) slot) eqn:Ef; [done|]. injection He as <- <-.
    apply (changed_table s _ _ slot slj (with_state slj InFlight)); [done..|]. rewrite Ef.
    constructor. by destruct (state slj); try (exfalso; apply Hs; done).
  - unfold begin_writeback, state_of in He. rewrite Hj in He. simpl in He. injection He as <- <-. by left.
Qed.

Lemma step_changed s e s' : inv s → step s e s' → changed s e s'.
Proof.
  intros Hinv Hstep. pose proof (inv_shape s Hinv) as Hsh.
  destruct Hstep as [s k l r c' Hk He|s k f rest Hp|s k f rest junk Hp|s k f ok rest r c' Hp He
    |s k f rest c' Hp He|s b rest c' Hp He|s k d l r c' m' Hk He|s slot r c' He|s w rest Hp
    |s w d rest junk Hp|s w d rest Hp|s w ph rest Hp Hph|s w ph rest Hp Hph|s w ok rest c' Hp He
    |s w ph rest c' Hp Hph He|s a d rest Hp|s a d rest junk Hp]; try by left.
  - by eapply changed_claim.
  - destruct (slot_facts _ _ _ Hinv Hp) as (sl & Hi & Hs & Hd & _ & Hk & Hpin).
    rewrite (finish_fill_eq _ _ sl Hsh Hi) in He by done. injection He as <- <-.
    eapply (changed_at s _ _ _ sl _ false); [exact Hi|reflexivity|apply Hsh|by eapply slot_lt|reflexivity|].
    rewrite (fill_flag _ _ _ _ _ _ Hinv Hp Hi). by destruct ok; constructor.
  - destruct (slot_facts _ _ _ Hinv Hp) as (sl & Hi & Hs & Hd & _ & Hk & Hpin).
    rewrite (drop_fill_eq _ _ sl Hsh Hi) in He by done. injection He as <-.
    eapply (changed_at s _ _ _ sl _ false); [exact Hi|reflexivity|apply Hsh|by eapply slot_lt|reflexivity|].
    rewrite (fill_flag _ _ _ _ _ _ Hinv Hp Hi). by constructor.
  - unfold drop_ref in He. apply bind_ret_inv in He as (t & (slj & Hj & Hp0 & ->)%unpin_ret & [= <-]).
    eapply (changed_table s _ _ _ slj); [exact Hj|done|done|constructor].
  - by eapply changed_store.
  - by eapply changed_begin.
  - left. by destruct ph.
  - destruct (slot_facts _ _ _ Hinv Hp) as (sl & Hi & Hs & Hd & _ & Hk).
    rewrite (finish_writeback_eq _ _ sl Hsh Hi) in He by done. injection He as <-.
    eapply (changed_table s _ _ _ sl); [exact Hi|done|done|]. rewrite (wb_flag _ _ _ _ Hinv Hp).
    constructor; [done|]. destruct ok; auto.
  - destruct (slot_facts _ _ _ Hinv Hp) as (sl & Hi & Hs & Hd & _ & Hk).
    rewrite (drop_writeback_eq _ _ sl Hi) in He by done. injection He as <-.
    eapply (changed_table s _ _ _ sl); [exact Hi|by destruct ph|by destruct ph|]. rewrite (wb_flag _ _ _ _ Hinv Hp).
    constructor; auto.
Qed.

(** A slot that is owed to the disk keeps its block, and is not filling. *)
Lemma unsynced_step s e s' i sl :
  inv s → step s e s' → table (cache s) !! i = Some sl → unsynced (cache s) i = true →
  ∃ sl', table (cache s') !! i = Some sl' ∧ key sl' = key sl ∧ state sl' ≠ Free ∧ is_filling (cache s') i = false.
Proof.
  intros Hinv Hstep Hi Hu.
  assert (state sl ≠ Free ∧ state sl ≠ Clean ∧ is_filling (cache s) i = false) as (Hf & Hc & Hfl).
  { unfold unsynced, state_of in Hu. rewrite Hi in Hu. cbn in Hu.
    destruct (inv_slots s Hinv i sl Hi) as (_ & _ & _ & _ & Hst). unfold state_ok in Hst.
    destruct (state sl); try done; split; [done| |done|]; split; try done; [apply Hst|].
    by apply negb_true_iff in Hu. }
  destruct (step_changed _ _ _ Hinv Hstep) as [[-> _]|(j & slj & sl' & Hj & Ht & Hfo & Hch)].
  { by exists sl. }
  destruct (decide (i = j)) as [<-|Hne].
  - rewrite Hi in Hj. injection Hj as <-. exists sl'.
    rewrite Ht, list_lookup_insert_eq by by eapply lookup_lt_Some.
    split; [done|]. rewrite Hfl in Hch. inversion Hch; subst; cbn; intuition congruence.
  - exists sl. rewrite Ht, list_lookup_insert_ne by done. by rewrite Hfo.
Qed.

(** Without a store, no slot comes to be owed. *)
Lemma unsynced_antitone s s' i :
  inv s → step s ETau s' → unsynced (cache s') i = true → unsynced (cache s) i = true.
Proof.
  intros Hinv Hstep. destruct (step_changed _ _ _ Hinv Hstep) as [[-> _]|(j & slj & sl' & Hj & Ht & Hfo & Hch)]; [done|].
  unfold unsynced, state_of. rewrite Ht. destruct (decide (i = j)) as [->|Hne].
  - rewrite list_lookup_insert_eq by by eapply lookup_lt_Some. rewrite Hj. cbn.
    fold (is_filling (cache s') j) (is_filling (cache s) j).
    inversion Hch; subst; cbn; try done; intros Hu;
      first [by destruct (state slj) | match goal with Hs : state slj = _ |- _ => by rewrite Hs end].
  - rewrite list_lookup_insert_ne by done. fold (is_filling (cache s') i) (is_filling (cache s) i). by rewrite Hfo.
Qed.

(** ** Reachable caches *)

(** Every block in the table has passed the checks of an entry point. *)
Definition keyed (c : Bcache) : Prop :=
  ∀ i sl, table c !! i = Some sl → state sl ≠ Free → ∃ l, lba_of (key sl) = Ok l.

Definition ready (s : sys) : Prop := inv s ∧ keyed (cache s).

Lemma read_entry_lba k l : read_entry k = Ok l → lba_of k = Ok l.
Proof. unfold read_entry. by destruct (negb _). Qed.
Lemma write_entry_lba k d l : write_entry k d = Ok l → lba_of k = Ok l.
Proof. unfold write_entry. destruct (negb _); [done|]. by destruct (negb _). Qed.

Lemma keyed_step s e s' : inv s → keyed (cache s) → step s e s' → keyed (cache s').
Proof.
  intros Hinv Hk Hstep. destruct (step_changed _ _ _ Hinv Hstep) as [[-> _]|(j & slj & sl' & Hj & Ht & _ & Hch)]; [done|].
  intros i sl. rewrite Ht. destruct (decide (i = j)) as [->|Hne]; [|rewrite list_lookup_insert_ne by done; apply Hk].
  rewrite list_lookup_insert_eq by by eapply lookup_lt_Some. intros [= <-] Hf. specialize (Hk j slj Hj).
  inversion Hch; subst; cbn in *; eauto using read_entry_lba, write_entry_lba;
    by (apply Hk; congruence).
Qed.

Lemma ready_step s e s' : ready s → step s e s' → ready s'.
Proof. intros [Hi Hk] Hs. split; [by eapply step_good|by eapply keyed_step]. Qed.

Lemma ready_boot fr m d : NoDup fr → length fr = SLOTS → ready (boot fr m d).
Proof.
  intros Hnd Hl. split; [by apply boot_inv|]. intros i sl Hi Hf. exfalso. apply Hf.
  by apply lookup_replicate in Hi as [-> _].
Qed.

Lemma ready_run s tr s' : ready s → run step s tr s' → ready s'.
Proof. intros Hr Hrun. eapply (run_invariant step ready); [|exact Hrun|exact Hr]. intros ???. by apply ready_step. Qed.

(** ** The two ends of a write, and of a fill *)

Lemma take_done_Some g l ok rest :
  take_done g l = Some (ok, rest) → ∃ o, g o = Some ok ∧ l ≡ₚ o :: rest.
Proof.
  revert rest. induction l as [|o l IH]; intros rest; cbn [take_done]; [done|].
  destruct (g o) as [ok'|] eqn:Eg; [intros [= <- <-]; by exists o|].
  destruct (take_done g l) as [[ok' rest']|]; [|done]. intros [= <- <-].
  destruct (IH rest' eq_refl) as (o' & Hg & Hp). exists o'. split; [done|]. rewrite Hp. apply Permutation_swap.
Qed.

Lemma take_done_None g l o ok : take_done g l = None → o ∈ l → g o ≠ Some ok.
Proof.
  induction l as [|o' l IH]; cbn [take_done]; [by intros _ ?%elem_of_nil|].
  destruct (g o') eqn:Eg; [done|]. destruct (take_done g l) as [[]|]; [done|].
  intros _ [->|Hin]%elem_of_cons; [congruence|by apply IH].
Qed.

Lemma written_Some w o ok : written w o = Some ok ↔ o = IoWb w (WriteDone ok).
Proof.
  destruct o as [|w' [| |ok']]; cbn; [done..|]. case_decide as E; [subst|]; split; congruence.
Qed.

Lemma filled_Some f o ok : filled f o = Some ok ↔ ∃ k, o = IoFill k f (ReadDone ok).
Proof.
  destruct o as [k f' [|ok']|]; cbn; [| |]; [by split; [|intros (? & ?)]| |by split; [|intros (? & ?)]].
  case_decide as E; [subst|]; split; try done; [intros [= <-]; by exists k|by intros (? & [= _ <-])|intros (? & [= <-]); congruence].
Qed.

(** The state a finished section leaves, when the cache did not change. *)
Lemma start_write_same s : with_cache (with_ios s ([] ++ ios s)) (cache s) = s.
Proof. by destruct s. Qed.

Lemma start_write_ok s slot : ready s →
  ∃ r s', start_write s slot = Ret (r, s') ∧ step s ETau s' ∧
    match r with
    | None => s' = s
    | Some w => token_slot (wb_token w) = slot ∧ IoWb w Queued ∈ ios s'
    end.
Proof.
  intros [Hinv Hk]. destruct (begin_writeback_returns s slot Hinv) as [[r c] E].
  assert (∃ l, match r with None => Ret 0 | Some w => match lba_of (wb_key w) with Ok l => Ret l | Err _ => Panic end end = Ret l ∧
    match r with None => c = cache s | Some w => token_slot (wb_token w) = slot end) as (l & El & Hr).
  { destruct (table (cache s) !! slot) as [sl|] eqn:Hi.
    - rewrite (begin_writeback_eq _ slot sl) in E by (done || apply (inv_shape s Hinv)).
      case_bool_decide as Hs; [injection E as <- <-; by exists 0|].
      destruct (is_filling (cache s) slot); [done|]. injection E as <- <-. cbn.
      assert (state sl = Dirty) as Hd by (destruct (state sl); try done; exfalso; by apply Hs).
      destruct (Hk slot sl Hi) as [l ->]; [by rewrite Hd|]. by exists l.
    - unfold begin_writeback, state_of in E. rewrite Hi in E. injection E as <- <-. by exists 0. }
  exists r. eexists. unfold start_write. rewrite E. cbn [mbind outcome_bind]. rewrite El. cbn [mbind outcome_bind].
  split; [reflexivity|]. split; [by eapply step_begin_writeback|].
  destruct r as [w|]; [|by rewrite Hr; apply start_write_same]. split; [done|]. cbn. left.
Qed.

Lemma start_write_step s slot r s' : start_write s slot = Ret (r, s') → step s ETau s'.
Proof.
  unfold start_write. intros ([r' c] & Hb & H)%bind_ret_inv. apply bind_ret_inv in H as (? & _ & [= <- <-]).
  by eapply step_begin_writeback.
Qed.

Lemma end_write_step s w ok s' : end_write s w = Some (Ret (ok, s')) → step s ETau s'.
Proof.
  unfold end_write. destruct (take_done _ _) as [[ok' rest]|] eqn:E; [|done]. intros [= H].
  apply bind_ret_inv in H as (c & Hf & [= <- <-]). apply take_done_Some in E as (o & ->%written_Some & Hp).
  by eapply step_finish_writeback.
Qed.

Lemma end_fill_step s f ok r s' : end_fill s f = Some (Ret (ok, r, s')) → step s ETau s'.
Proof.
  unfold end_fill. destruct (take_done _ _) as [[ok' rest]|] eqn:E; [|done]. intros [= H].
  apply bind_ret_inv in H as ([r' c] & Hf & [= <- <- <-]). apply take_done_Some in E as (o & [k ->]%filled_Some & Hp).
  by eapply step_finish_fill.
Qed.

(** A finished write leaves its slot clean, or dirty when it failed. *)
Lemma end_write_ok s w x : inv s → end_write s w = Some x →
  ∃ ok s', x = Ret (ok, s') ∧ (ok = true → unsynced (cache s') (token_slot (wb_token w)) = false) ∧
    unsynced (cache s) (token_slot (wb_token w)) = true.
Proof.
  intros Hinv. unfold end_write. destruct (take_done _ _) as [[ok rest]|] eqn:E; [|done]. intros [= <-].
  apply take_done_Some in E as (o & ->%written_Some & Hp).
  destruct (slot_facts _ _ _ Hinv Hp) as (sl & Hi & Hs & Hd & _ & Hk).
  rewrite (finish_writeback_eq _ _ sl (inv_shape s Hinv) Hi) by done. cbn [mbind outcome_bind].
  eexists ok, _. split; [reflexivity|]. change (token_slot (wb_token w)) with (io_slot (IoWb w (WriteDone ok))).
  split.
  - intros ->. unfold unsynced, state_of. cbn [with_cache cache table]. rewrite list_lookup_insert_eq by by eapply lookup_lt_Some. done.
  - unfold unsynced, state_of. rewrite Hi. cbn [fmap option_fmap option_map]. rewrite Hs.
    pose proof (wb_flag _ _ _ _ Hinv Hp) as Hfl. unfold is_filling in Hfl. by rewrite Hfl.
Qed.

Lemma end_fill_ok s f x : inv s → end_fill s f = Some x →
  ∃ ok r s', x = Ret (ok, r, s') ∧ (r = None → ok = false) ∧ ∀ b, r = Some b → b ∈ refs s'.
Proof.
  intros Hinv. unfold end_fill. destruct (take_done _ _) as [[ok rest]|] eqn:E; [|done]. intros [= <-].
  apply take_done_Some in E as (o & [k ->]%filled_Some & Hp).
  destruct (slot_facts _ _ _ Hinv Hp) as (sl & Hi & Hs & Hd & _ & _ & Hpin).
  rewrite (finish_fill_eq _ _ sl (inv_shape s Hinv) Hi) by done. cbn [mbind outcome_bind].
  eexists ok, _, _. split; [reflexivity|]. split; [by destruct ok|]. intros b. destruct ok; [|done]. intros [= <-]. left.
Qed.

(** ** What every call promises *)

Definition outstanding (o : io) : Prop :=
  match o with IoFill _ _ (ReadDone _) | IoWb _ (WriteDone _) => False | _ => True end.

Lemma end_write_stuck s w o : end_write s w = None → o ∈ ios s → is_write w o = true → outstanding o.
Proof.
  unfold end_write. destruct (take_done _ _) as [[]|] eqn:Et; [done|]. intros _ Ho Hm.
  destruct o as [|w' [| |ok]]; try done. apply bool_decide_eq_true in Hm as ->.
  exact (take_done_None _ _ _ ok Et Ho (proj2 (written_Some w _ ok) eq_refl)).
Qed.

Lemma end_fill_stuck s k f o : end_fill s f = None → o ∈ ios s → is_fill k f o = true → outstanding o.
Proof.
  unfold end_fill. destruct (take_done _ _) as [[]|] eqn:Et; [done|]. intros _ Ho Hm.
  destruct o as [k' f' [|ok]|]; try done. apply bool_decide_eq_true in Hm as [-> ->].
  exact (take_done_None _ _ _ ok Et Ho (proj2 (filled_Some f _ ok) (ex_intro _ k eq_refl))).
Qed.

(** Fewer references than a slot can count. *)
Definition few_refs (s : sys) : Prop := Z.of_nat (length (refs s)) + 1 < 2 ^ 32.

Class TaskLaws (O T : Type) `{Task O T} := {
  sane : T → Prop;
  finished : T → bool;
  waits : T → bool;
  act_step o s t s' e t' : ready s → sane t → act o s t = Some (Ret (s', e, t')) →
    sane t' ∧ ((s' = s ∧ e = ETau) ∨ step s e s');
  act_returns o s t : ready s → sane t → few_refs s → act o s t ≠ Some Panic;
  act_stuck o s t : act o s t = None → finished t = true ∨ waits t = true ∧ ∀ o', o' ∈ ios s → mine t o' = true → outstanding o';
  act_holds o s t s' e t' : ready s → sane t → act o s t = Some (Ret (s', e, t')) → waits t' = true →
    ∃ o', o' ∈ ios s' ∧ mine t' o' = true
}.
Arguments sane {O T _ _} t.
Arguments finished {O T _ _} t.
Arguments waits {O T _ _} t.

Section Worlds.
Context {O T : Type} `{TaskLaws O T}.

Lemma world_ready x tr y : run (world (O := O)) x tr y → ready x.1 → sane x.2 →
  ready y.1 ∧ sane y.2 ∧ ∃ tr', run step x.1 tr' y.1 ∧ ∀ k v, replay tr' k v = replay tr.*2 k v.
Proof.
  induction 1 as [x|x [b e] y tr z Hw _ IH]; intros Hr Hs.
  { split; [done|]. split; [done|]. exists []. split; [constructor|done]. }
  assert (ready y.1 ∧ sane y.2 ∧ ((y.1 = x.1 ∧ e = ETau) ∨ step x.1 e y.1)) as (Hr' & Hs' & Hst).
  { inversion Hw as [o s t s' e' t' E|s t e' s' Hst _]; subst; cbn in *.
    - destruct (act_step _ _ _ _ _ _ Hr Hs E) as [Hs' Hst]. split; [|done].
      destruct Hst as [[-> _]|Hst]; [done|by eapply ready_step].
    - split; [by eapply ready_step|]. auto. }
  destruct (IH Hr' Hs') as (Hz & Hsz & tr' & Hrun & Hrep). split; [done|]. split; [done|].
  destruct Hst as [[E ->]|Hst].
  - exists tr'. rewrite <- E. split; [done|]. intros k v. rewrite Hrep. done.
  - exists (e :: tr'). split; [by eapply run_cons|]. intros k v. unfold replay in *. cbn. by rewrite Hrep.
Qed.

Lemma world_held x tr y : run (world (O := O)) x tr y → ready x.1 → sane x.2 →
  (waits x.2 = true → ∃ o, o ∈ ios x.1 ∧ mine x.2 o = true) →
  waits y.2 = true → ∃ o, o ∈ ios y.1 ∧ mine y.2 o = true.
Proof.
  induction 1 as [x|x [b e] y tr z Hw Hrun IH]; intros Hr Hs Hh; [done|].
  destruct (world_ready x [(b, e)] y) as (Hr' & Hs' & _); [by eapply run_cons; [|constructor]|done..|].
  apply IH; [done|done|]. inversion Hw as [o s t s' e' t' E|s t e' s' Hst Hu]; subst; cbn in *.
  - intros Hwt. by eapply (act_holds o s t).
  - intros Hwt. destruct (Hh Hwt) as (o & Ho & Hm). by eapply Hu.
Qed.

(** [P] held at some moment of the run from [x0] to [y]: of the labels up to
    it, and of the state then. *)
Definition seen (x0 : sys * T) (tr : list (bool * event)) (y : sys * T) (P : list (bool * event) → sys → Prop) : Prop :=
  ∃ tr1 tr2 x, tr = tr1 ++ tr2 ∧ run (world (O := O)) x0 tr1 x ∧ run (world (O := O)) x tr2 y ∧ P tr1 x.1.

Lemma world_snoc x tr y l z : run (world (O := O)) x tr y → world (O := O) y l z → run (world (O := O)) x (tr ++ [l]) z.
Proof. intros Hr Hw. eapply run_app; [exact Hr|]. by eapply run_cons; [|constructor]. Qed.

Lemma seen_snoc x0 tr x l y P : seen x0 tr x P → world (O := O) x l y → seen x0 (tr ++ [l]) y P.
Proof.
  intros (tr1 & tr2 & z & -> & H1 & H2 & HP) Hw. exists tr1, (tr2 ++ [l]), z. rewrite app_assoc. split; [done|]. split; [done|].
  split; [|done]. by eapply world_snoc.
Qed.

Lemma seen_now x0 tr x (P : list (bool * event) → sys → Prop) : run (world (O := O)) x0 tr x → P tr x.1 → seen x0 tr x P.
Proof. intros Hr HP. exists tr, [], x. rewrite app_nil_r. split; [done|]. split; [done|]. split; [constructor|done]. Qed.

(** Induction on a run, from its end. *)
Lemma world_ind_end x0 (I : list (bool * event) → sys * T → Prop) :
  I [] x0 → (∀ pre x l y, run (world (O := O)) x0 pre x → I pre x → world (O := O) x l y → I (pre ++ [l]) y) →
  ∀ tr y, run (world (O := O)) x0 tr y → I tr y.
Proof.
  intros H0' Hs. assert (∀ tr x y, run (world (O := O)) x tr y → ∀ pre, run (world (O := O)) x0 pre x → I pre x → I (pre ++ tr) y) as Hg.
  { induction 1 as [x|x l y tr z Hw Hrun IH]; intros pre Hpre HI; [by rewrite app_nil_r|].
    change (l :: tr) with ([l] ++ tr). rewrite app_assoc. apply IH; [by eapply world_snoc|by eapply Hs]. }
  intros tr y Hr. exact (Hg tr x0 y Hr [] (run_nil _ _) H0').
Qed.

Lemma world_settled k x tr y : ready x.1 → sane x.2 → run (world (O := O)) x tr y → settled y.1 k → settled x.1 k.
Proof. intros Hr Hs Hrun Hset. destruct (world_ready _ _ _ Hrun Hr Hs) as (_ & _ & tr' & Hr' & _). by eapply run_settled. Qed.

(** The content of a block, at any moment of a run. *)
Lemma world_view k h fr m d x0 tr x : NoDup fr → length fr = SLOTS → run step (boot fr m d) h x0.1 → sane x0.2 →
  run (world (O := O)) x0 tr x → dev k = ONLY_DEVICE → settled x.1 k → view x.1 k = replay (h ++ tr.*2) k (d (lba k)).
Proof.
  intros Hnd Hlen Hb Hs Hrun Hk Hset.
  destruct (world_ready _ _ _ Hrun) as (_ & _ & tr' & Hr' & Hrep); [by eapply ready_run; [apply (ready_boot fr m d)|]|done|].
  pose proof (run_view _ _ _ k (boot_inv fr m d Hnd Hlen) (run_app _ _ _ _ _ _ Hb Hr') Hk Hset) as ->.
  unfold replay in *. rewrite !fold_left_app. change (view (boot fr m d) k) with (d (lba k)). apply Hrep.
Qed.
End Worlds.
