(* ===== verification/KSync.v ===== *)
(** [sync] of [kernel/src/bcache.rs]: what its answer means, and when it
    comes. *)
From S2P Require Import Prelude Bits BCache KBCache KBCacheSys KBCacheProofs KCacheOps KCacheOpsProofs.
From Stdlib Require Import Strings.Byte.

Section Calls.
Context {E : Type}.

(** The slots [pending] stands for are owed and not given up. *)
Definition pending_ok (t : Sync E) (pending : Z) : Prop :=
  0 ≤ pending ∧ ∀ i, 0 ≤ i → Z.testbit pending i = true → Z.testbit (owed t) i = true ∧ Z.testbit (failed t) i = false.

Record sync_sane (t : Sync E) : Prop := {
  ss_idle : 0 ≤ idle_rounds t ≤ SYNC_ROUND_LIMIT + 1;
  ss_live : match pc t with Returned _ => True | _ => idle_rounds t ≤ SYNC_ROUND_LIMIT end;
  ss_owed : 0 ≤ owed t < 2 ^ 32;
  ss_failed : failure t = None → failed t = 0;
  ss_device : ∀ e, failure t = Some e → ∃ e', e = Device e';
  ss_pc : match pc t with
          | Next p => pending_ok t p
          | Writing p slot w =>
              pending_ok t p ∧ (slot < SLOTS)%nat ∧ token_slot (wb_token w) = slot ∧ Z.testbit p (Z.of_nat slot) = false ∧
              Z.testbit (owed t) (Z.of_nat slot) = true ∧ Z.testbit (failed t) (Z.of_nat slot) = false
          | Returned (Ok _) => failed t = 0
          | Returned (Err (CacheErr e)) => e = WritebackStalled
          | _ => True
          end
}.

Lemma testbit_bitnot x i : 0 ≤ i → Z.testbit (bitnot 32 x) i = (i <? 32) && negb (Z.testbit x i).
Proof.
  intros Hi. unfold bitnot. rewrite Z.ldiff_spec. f_equal. destruct (Z.ltb_spec i 32); [by apply Z.ones_spec_low|apply Z.ones_spec_high; lia].
Qed.

Lemma testbit_bit n i : 0 ≤ i → Z.testbit (Z.shiftl 1 (Z.of_nat n)) i = (i =? Z.of_nat n).
Proof.
  intros Hi. rewrite Z.shiftl_1_l. destruct (Z.eqb_spec i (Z.of_nat n)) as [->|]; [apply Z.pow2_bits_true; lia|apply Z.pow2_bits_false; lia].
Qed.

(** The slot a round takes next. *)
Lemma next_slot t p : sync_sane t → pending_ok t p → p ≠ 0 →
  let slot := Z.to_nat (trailing_zeros 32 p) in
  let p' := Z.land p (bitnot 32 (Z.shiftl 1 (Z.of_nat slot))) in
  (slot < SLOTS)%nat ∧ Z.testbit p (Z.of_nat slot) = true ∧ 0 ≤ p' ∧
  ∀ i, 0 ≤ i → Z.testbit p' i = Z.testbit p i && negb (i =? Z.of_nat slot).
Proof.
  intros Hs [Hp0 Hp] Hne slot p'. destruct p as [|q|q]; [done| |lia].
  assert (0 ≤ trailing_zeros 32 (Zpos q)) as Hnn by apply pos_trailing_zeros_nonneg.
  assert (Z.testbit (Zpos q) (Z.of_nat slot) = true) as Ht.
  { unfold slot. rewrite Z2Nat.id by done. apply testbit_trailing_zeros. }
  assert (∀ i, 0 ≤ i → Z.testbit (Zpos q) i = true → i < 32) as Hlt.
  { intros i Hi Hb. destruct (Hp i Hi Hb) as [Ho _]. destruct (Z.lt_ge_cases i 32) as [|Hge]; [done|].
    rewrite Z.bits_above_log2 in Ho; [done|apply (ss_owed t Hs)|]. destruct (ss_owed t Hs) as [Ho0 Holt].
    destruct (decide (owed t = 0)) as [E0|Hn0]; [rewrite E0; cbn; lia|]. apply Z.log2_lt_pow2; [lia|].
    eapply Z.lt_le_trans; [exact Holt|]. apply Z.pow_le_mono_r; lia. }
  split; [pose proof (Hlt _ (Nat2Z.is_nonneg slot) Ht); unfold SLOTS; lia|]. split; [done|].
  split; [unfold p'; apply Z.land_nonneg; by left|]. intros i Hi. unfold p'. rewrite Z.land_spec, testbit_bitnot, testbit_bit by done.
  destruct (Z.testbit (Zpos q) i) eqn:Eb; [|done]. cbn [andb]. specialize (Hlt i Hi Eb). by rewrite (proj2 (Z.ltb_lt _ _) Hlt).
Qed.

Lemma mask_range c : 0 ≤ unsynced_mask c < 2 ^ 32.
Proof.
  unfold unsynced_mask. assert (∀ l acc, 0 ≤ acc < 2 ^ 32 → (∀ n, n ∈ l → (n < 32)%nat) →
    0 ≤ fold_left (λ mask slot, Z.lor mask (Z.shiftl 1 (Z.of_nat slot))) l acc < 2 ^ 32) as Hf.
  { induction l as [|n l IH]; intros acc Ha Hl; [done|]. cbn [fold_left]. apply IH; [|intros; apply Hl; by right].
    assert (n < 32)%nat by (apply Hl; left). rewrite Z.shiftl_1_l.
    assert (0 < 2 ^ Z.of_nat n) by (apply Z.pow_pos_nonneg; lia).
    assert (2 ^ Z.of_nat n < 2 ^ 32) by (apply Z.pow_lt_mono_r; lia).
    split; [apply Z.lor_nonneg; lia|]. destruct (decide (Z.lor acc (2 ^ Z.of_nat n) = 0)) as [->|]; [done|].
    assert (0 ≤ Z.lor acc (2 ^ Z.of_nat n)) by (apply Z.lor_nonneg; lia).
    apply Z.log2_lt_pow2; [lia|]. rewrite Z.log2_lor, Z.log2_pow2 by lia. apply Z.max_lub_lt; [|lia].
    destruct (decide (acc = 0)) as [->|]; [done|]. apply Z.log2_lt_pow2; lia. }
  apply Hf; [done|]. intros n [_ Hn%elem_of_seq]%list_elem_of_filter. unfold SLOTS in Hn. lia.
Qed.

Lemma still_owed_spec c o f i : 0 ≤ i →
  Z.testbit (still_owed c o f) i = Z.testbit o i && Z.testbit (unsynced_mask c) i && ((i <? 32) && negb (Z.testbit f i)).
Proof. intros Hi. unfold still_owed. by rewrite !Z.land_spec, testbit_bitnot. Qed.

Lemma still_owed_ok c t : sync_sane t → pending_ok t (still_owed c (owed t) (failed t)).
Proof.
  intros Hs. split.
  - unfold still_owed. apply Z.land_nonneg. left. apply Z.land_nonneg. left. apply (ss_owed t Hs).
  - intros i Hi. rewrite still_owed_spec by done. rewrite !andb_true_iff, negb_true_iff. tauto.
Qed.

Lemma sync_start_sane : sync_sane sync_start.
Proof. by split. Qed.

(** A round's move on one slot. *)
Lemma next_sane t p r : sync_sane t → pc t = Next p → p ≠ 0 →
  let slot := Z.to_nat (trailing_zeros 32 p) in
  let p' := Z.land p (bitnot 32 (Z.shiftl 1 (Z.of_nat slot))) in
  (∀ w, r = Some w → token_slot (wb_token w) = slot) →
  sync_sane (at_pc t (match r with None => Next p' | Some w => Writing p' slot w end)).
Proof.
  intros Hs Hpc Hne slot p' Hr. pose proof (ss_pc t Hs) as Hp. rewrite Hpc in Hp.
  destruct (next_slot t p Hs Hp Hne) as (Hlt & Hb & Hp0 & Hbits). fold slot in Hlt, Hb, Hbits. fold p' in Hp0, Hbits.
  pose proof (ss_live t Hs) as Hl. rewrite Hpc in Hl.
  assert (pending_ok t p') as Hp'.
  { split; [done|]. intros i Hi. rewrite Hbits by done. intros [Hbi _]%andb_true_iff. by apply (proj2 Hp). }
  split; cbn; try apply Hs; [by destruct r|]. destruct r as [w|]; [|done]. destruct (proj2 Hp _ (Nat2Z.is_nonneg slot) Hb) as [Ho Hf].
  do 2 (split; [done|]). split; [by apply Hr|]. split; [|done]. rewrite Hbits by lia. by rewrite Z.eqb_refl, andb_false_r.
Qed.

Lemma round_end_sane t p : sync_sane t → pc t = Next p → ∃ t', round_end t = Ret t' ∧ sync_sane t'.
Proof.
  intros [S1 S2 S3 S4 S5 S6] Hpc. rewrite Hpc in S2. unfold round_end. destruct (acted t).
  { eexists. split; [done|]. by split; cbn; try done; unfold SYNC_ROUND_LIMIT. }
  unfold SYNC_ROUND_LIMIT in *. rewrite add_chk_ok by lia. cbn [mbind outcome_bind]. eexists. split; [done|].
  destruct (Z.ltb_spec 600 (idle_rounds t + 1)); split; cbn; try done; unfold SYNC_ROUND_LIMIT; lia.
Qed.

Lemma wrote_sane t p slot w ok e : sync_sane t → pc t = Writing p slot w → sync_sane (wrote t p slot ok e).
Proof.
  intros [S1 S2 S3 S4 S5 S6] Hpc. rewrite Hpc in S2, S6. destruct S6 as (Hp & Hlt & Hw & Hnb & Ho & Hf).
  destruct ok; [by split|]. split; cbn; try done.
  - intros e'. destruct (failure t) as [e0|] eqn:Ef; intros [= <-]; [by apply S5|by exists e].
  - split; [apply Hp|]. cbn. intros i Hi Hb. destruct (proj2 Hp i Hi Hb) as [Hoi Hfi]. split; [done|].
    rewrite Z.lor_spec, testbit_bit by done. rewrite Hfi. cbn. apply Z.eqb_neq. intros ->. congruence.
Qed.

Lemma sync_act_step e s t s' ev t' :
  ready s → sync_sane t → sync_act e s t = Some (Ret (s', ev, t')) → sync_sane t' ∧ ((s' = s ∧ ev = ETau) ∨ step s ev s').
Proof.
  intros Hr Hs. pose proof Hs as [S1 S2 S3 S4 S5 S6]. unfold sync_act. destruct (pc t) as [| |p|p slot w| |r] eqn:Hpc.
  - intros [= <- <- <-]. split; [|by left]. split; [done|done|apply mask_range|done|done|done].
  - intros [= <- <- <-]. split; [|by left]. destruct (_ =? 0).
    + split; cbn; try done. destruct (failure t) as [e'|] eqn:Ef; [destruct (S5 e' eq_refl) as [d ->]; exact I|exact (S4 eq_refl)].
    + split; cbn; try done. exact (still_owed_ok (cache s) t Hs).
  - destruct (Z.eqb_spec p 0) as [->|Hne].
    + destruct (round_end_sane t 0 Hs Hpc) as (t1 & E1 & Hs1). rewrite E1. intros [= <- <- <-]. split; [done|by left].
    + intros [= H]. apply bind_ret_inv in H as ([r s1] & Hw & [= <- <- <-]). split; [|right; by eapply start_write_step].
      destruct (start_write_ok s (Z.to_nat (trailing_zeros 32 p)) Hr) as (r2 & s2 & Hw2 & _ & Hr2). rewrite Hw in Hw2. injection Hw2 as <- <-.
      apply next_sane; [done..|]. intros w ->. by destruct Hr2.
  - destruct (end_write s w) as [x|] eqn:Ex; [|done]. intros [= H]. apply bind_ret_inv in H as ([ok s1] & -> & [= <- <- <-]).
    split; [by eapply wrote_sane|]. right. by eapply end_write_step.
  - intros [= <- <- <-]. split; [|by left]. split; cbn; done.
  - done.
Qed.

Lemma sync_act_returns e s t : ready s → sync_sane t → sync_act e s t ≠ Some Panic.
Proof.
  intros Hr Hs. unfold sync_act. destruct (pc t) as [| |p|p slot w| |r] eqn:Hpc; try done.
  - destruct (Z.eqb_spec p 0) as [->|Hne]; [by destruct (round_end_sane t 0 Hs Hpc) as (t1 & -> & _)|].
    by destruct (start_write_ok s (Z.to_nat (trailing_zeros 32 p)) Hr) as (r & s' & -> & _).
  - destruct (end_write s w) as [x|] eqn:Ex; [|done]. by destruct (end_write_ok s w x (proj1 Hr) Ex) as (ok & s' & -> & _).
Qed.

#[export] Instance sync_laws : TaskLaws E (Sync E).
Proof.
  refine {| sane := sync_sane; finished := λ t, match pc t with Returned _ => true | _ => false end;
            waits := λ t, match pc t with Writing _ _ _ => true | _ => false end;
            act_step := λ o s t s' e t' Hr Hs He, sync_act_step o s t s' e t' Hr Hs He;
            act_returns := λ o s t Hr Hs _, sync_act_returns o s t Hr Hs |}.
  - intros o s t. cbn. unfold sync_act. destruct (pc t) as [| |p|p slot w| |r] eqn:Hpc; try done; [by destruct (p =? 0)| |by left].
    destruct (end_write s w) eqn:Ex; [done|]. intros _. right. split; [done|]. intros o' Ho Hm. by eapply end_write_stuck.
  - intros o s t s' e t' Hr _. cbn. unfold sync_act.
    assert (∀ t, round_end t = Ret t' → match pc t' with Writing _ _ _ => true | _ => false end = true → False) as Hre.
    { intros t0. unfold round_end. destruct (acted t0); [by intros [= <-]|]. intros (idle & _ & [= <-])%bind_ret_inv.
      cbn. by destruct (_ <? _). }
    destruct (pc t) as [| |p|p slot w| |r] eqn:Hpc; try done.
    + by intros [= <- <- <-].
    + intros [= <- <- <-]. by destruct (_ =? 0).
    + destruct (p =? 0); [intros [= (t1 & Ht1 & [= <- <- <-])%bind_ret_inv] Hw; by destruct (Hre t)|].
      intros [= ([r s1] & Hw & [= <- <- <-])%bind_ret_inv]. cbn.
      destruct (start_write_ok s (Z.to_nat (trailing_zeros 32 p)) Hr) as (r2 & s2 & Hw2 & _ & Hr2). rewrite Hw in Hw2. injection Hw2 as <- <-.
      destruct r as [w|]; [|done]. intros _. exists (IoWb w Queued). split; [apply Hr2|]. by apply bool_decide_eq_true.
    + destruct (end_write s w) as [x|]; [|done]. intros [= ([ok s1] & _ & [= <- <- <-])%bind_ret_inv]. by destruct ok.
    + by intros [= <- <- <-].
Defined.

Lemma sync_ready x tr y : run (world (O := E)) x tr y → ready x.1 → sync_sane x.2 →
  ready y.1 ∧ sync_sane y.2 ∧ ∃ tr', run step x.1 tr' y.1 ∧ ∀ k v, replay tr' k v = replay tr.*2 k v.
Proof. intros Hr Hx Hs. exact (world_ready (O := E) x tr y Hr Hx Hs). Qed.

Lemma sync_settled k x tr y : ready x.1 → sync_sane x.2 → run (world (O := E)) x tr y → settled y.1 k → settled x.1 k.
Proof. intros Hr Hs Hrun Hset. exact (world_settled (O := E) k x tr y Hr Hs Hrun Hset). Qed.

(** ** What the answer means *)

Section Durable.
Context (s0 : sys) (Hs0 : ready s0) (k : BlockKey) (Hk : dev k = ONLY_DEVICE).
#[local] Abbreviation world := (world (O := E) (T := Sync E)).
#[local] Abbreviation x0 := (s0, sync_start (E := E)).

#[local] Abbreviation seen := (seen (O := E) x0).

(** The disk holds the block's content: every store before the call, and
    since. *)
Definition durable (tr : list (bool * event)) (s : sys) : Prop := disk s (lba k) = replay tr.*2 k (view s0 k).

(** The block is still owed, in a slot whose write the device refused. *)
Definition left_dirty (t : Sync E) (tr : list (bool * event)) (s : sys) : Prop :=
  ∃ i, key_of (table (cache s)) i = Some k ∧ unsynced (cache s) i = true ∧ Z.testbit (failed t) (Z.of_nat i) = true.

Definition owes (s : sys) (t : Sync E) : Prop :=
  ∃ i sl, table (cache s) !! i = Some sl ∧ key sl = k ∧ state sl ≠ Free ∧ unsynced (cache s) i = true ∧
    Z.testbit (owed t) (Z.of_nat i) = true.

(** The invariant of the call, for one block. *)
Definition due (tr : list (bool * event)) (x : sys * Sync E) : Prop :=
  match pc x.2 with
  | Enter | Returned (Err (CacheErr WritebackStalled)) => True
  | Returned _ => seen tr x durable ∨ seen tr x (left_dirty x.2)
  | _ => seen tr x durable ∨ owes x.1 x.2
  end.

Lemma reached tr x : run world x0 tr x → ready x.1 ∧ sync_sane x.2 ∧ ∃ tr', run step s0 tr' x.1 ∧ ∀ k v, replay tr' k v = replay tr.*2 k v.
Proof. intros Hr. exact (sync_ready x0 tr x Hr Hs0 sync_start_sane). Qed.

(** A block no slot owes is on the disk. *)
Lemma durable_now tr x : run world x0 tr x → settled x.1 k →
  (∀ i, lookup (table (cache x.1)) k = Some i → unsynced (cache x.1) i = false) → durable tr x.1.
Proof.
  intros Hr Hset Hno. destruct (reached tr x Hr) as ([Hinv _] & _ & tr' & Hrun & Hrep). unfold durable.
  rewrite <- Hrep, <- (run_view _ _ _ k (proj1 Hs0) Hrun Hk Hset). symmetry. by apply synced_on_disk.
Qed.

Lemma lookup_owned s i sl : inv s → table (cache s) !! i = Some sl → key sl = k → state sl ≠ Free → lookup (table (cache s)) k = Some i.
Proof. intros Hinv Hi Hkey Hf. apply lookup_Some; [apply (sh_wf _ (inv_shape s Hinv))|]. by exists sl. Qed.

(** Owed before a step of the cache: still owed after it, or on the disk. *)
Lemma owes_step tr x e y t : run world x0 tr y → ready x → owes x t → step x e y.1 → settled y.1 k →
  owes y.1 t ∨ seen tr y durable.
Proof.
  intros Hr [Hinv _] (i & sl & Hi & Hkey & Hf & Hu & Ho) Hstep Hset.
  destruct (unsynced_step _ _ _ _ _ Hinv Hstep Hi Hu) as (sl' & Hi' & Hkey' & Hf' & _).
  destruct (unsynced (cache y.1) i) eqn:Eu; [left; exists i, sl'; split; [done|]; split; [congruence|done]|].
  right. apply seen_now; [done|]. apply durable_now; [done|done|]. intros j Hj.
  destruct (reached tr y Hr) as ([Hinv' _] & _).
  rewrite (lookup_owned y.1 i sl' Hinv' Hi' ltac:(congruence) Hf') in Hj. by injection Hj as <-.
Qed.

(** A block is in no slot that is owed, or in one. *)
Lemma owed_or_not s t : inv s → owed t = unsynced_mask (cache s) →
  owes s t ∨ ∀ i, lookup (table (cache s)) k = Some i → unsynced (cache s) i = false.
Proof.
  intros Hinv Ho. destruct (lookup (table (cache s)) k) as [i|] eqn:El; [|by right].
  destruct (unsynced (cache s) i) eqn:Eu; [left|by right; intros j [= <-]].
  pose proof El as (sl & Hi & Hf & Hkey)%lookup_Some; [|apply (sh_wf _ (inv_shape s Hinv))].
  exists i, sl. rewrite Ho, unsynced_mask_spec by by eapply slot_lt; [apply inv_shape|]. done.
Qed.

Lemma owed_same s t t' : owed t' = owed t → owes s t → owes s t'.
Proof. intros Eo (i & sl & H). exists i, sl. by rewrite Eo. Qed.

Lemma owed_not_pending s t : inv s → owes s t → still_owed (cache s) (owed t) (failed t) = 0 → left_dirty t [] s.
Proof.
  intros Hinv (i & sl & Hi & Hkey & Hf & Hu & Ho) Hz. exists i. unfold key_of. rewrite Hi, bool_decide_eq_true_2 by done. split; [by rewrite Hkey|]. split; [done|].
  pose proof (slot_lt _ _ _ (inv_shape s Hinv) Hi) as Hlt.
  pose proof (still_owed_spec (cache s) (owed t) (failed t) (Z.of_nat i) (Nat2Z.is_nonneg i)) as Hb.
  rewrite Hz, Z.testbit_0_l, Ho, unsynced_mask_spec, Hu in Hb by done.
  rewrite (proj2 (Z.ltb_lt (Z.of_nat i) 32)) in Hb by (unfold SLOTS in Hlt; lia). cbn in Hb. by destruct (Z.testbit (failed t) _).
Qed.

(** The call's own moves keep the account. *)
Lemma due_own tr o s t s' ev t' :
  run world x0 tr (s, t) → run world x0 (tr ++ [(true, ev)]) (s', t') → due tr (s, t) → settled s' k →
  sync_act o s t = Some (Ret (s', ev, t')) → due (tr ++ [(true, ev)]) (s', t').
Proof.
  intros Hr Hr' Hd Hset Ha. destruct (reached tr _ Hr) as (Hready & Hsane & _). cbn [fst snd] in Hready, Hsane.
  assert (world (s, t) (true, ev) (s', t')) as Hw by by apply (world_own o).
  assert (∀ P, seen tr (s, t) P → seen (tr ++ [(true, ev)]) (s', t') P) as Hsn by (intros P HP; by eapply seen_snoc).
  assert (s' = s → seen tr (s, t) durable ∨ owes s t → owed t' = owed t → seen (tr ++ [(true, ev)]) (s', t') durable ∨ owes s' t') as Hsame.
  { intros -> [Hs|Ho] Eo; [left; by apply Hsn|right; by eapply owed_same]. }
  assert (step s ev s' → seen tr (s, t) durable ∨ owes s t → owed t' = owed t → seen (tr ++ [(true, ev)]) (s', t') durable ∨ owes s' t') as Hmove.
  { intros Hst [Hs|Ho] Eo; [left; by apply Hsn|].
    destruct (owes_step (tr ++ [(true, ev)]) s ev (s', t') t Hr' Hready Ho Hst Hset); [right; by eapply owed_same|by left]. }
  unfold due in Hd |- *. cbn [fst snd] in Hd |- *. revert Ha. unfold sync_act. destruct (pc t) as [| |p|p slot w| |r] eqn:Hpc.
  - intros [= <- <- <-]. cbn [pc]. destruct (owed_or_not s (mkSync (unsynced_mask (cache s)) 0 None 0 (acted t) Round) (proj1 Hready) eq_refl) as [Ho|Hno]; [by right|].
    left. apply seen_now; [done|]. by apply durable_now.
  - intros [= <- <- <-]. destruct (Z.eqb_spec (still_owed (cache s) (owed t) (failed t)) 0) as [Hz|Hnz]; cbn [at_pc pc].
    + assert (seen tr (s, t) durable ∨ seen tr (s, t) (left_dirty t)) as Hor.
      { destruct Hd as [Hd|Ho]; [by left|right]. apply seen_now; [done|]. exact (owed_not_pending s t (proj1 Hready) Ho Hz). }
      destruct (failure t) as [e|] eqn:Ef; [destruct (ss_device t Hsane e Ef) as [e' ->]|];
        (destruct Hor as [Hs|Hs]; [left|right]; exact (Hsn _ Hs)).
    + by apply Hsame.
  - destruct (p =? 0).
    + intros [= (t1 & Ht & [= <- <- <-])%bind_ret_inv]. revert Ht. unfold round_end. destruct (acted t); [intros [= <-]; by apply Hsame|].
      intros (idle & _ & [= <-])%bind_ret_inv. cbn. destruct (_ <? _); [done|by apply Hsame].
    + intros [= ([r s1] & Hsw & [= <- <- <-])%bind_ret_inv]. pose proof (start_write_step _ _ _ _ Hsw) as Hst.
      destruct r; by apply Hmove.
  - destruct (end_write s w) as [x|] eqn:Ex; [|done]. intros [= ([ok s1] & -> & [= <- <- <-])%bind_ret_inv].
    pose proof (end_write_step _ _ _ _ Ex) as Hst. destruct ok; by apply Hmove.
  - intros [= <- <- <-]. by apply Hsame.
  - done.
Qed.

Lemma due_run tr y : ∀ pre x, run world x tr y → run world x0 pre x → due pre x → settled y.1 k → due (pre ++ tr) y.
Proof.
  intros pre x Hrun. revert pre. induction Hrun as [x|x [b e] y tr z Hw Hrun IH]; intros pre Hpre Hd Hset; [by rewrite app_nil_r|].
  change ((b, e) :: tr) with ([(b, e)] ++ tr). rewrite app_assoc.
  assert (run world x0 (pre ++ [(b, e)]) y) as Hy by (eapply run_app; [exact Hpre|]; by eapply run_cons; [|constructor]).
  destruct (reached _ _ Hy) as (Hry & Hsy & _). pose proof (sync_settled k _ _ _ Hry Hsy Hrun Hset) as Hset'.
  apply IH; [done| |done]. inversion Hw as [o s t s' e' t' Ha|s t e' s' Hst Hu]; subst; cbn in *; [by eapply due_own|].
  unfold due in *. cbn [fst snd] in *. destruct (reached _ _ Hpre) as (Hrx & _ & _).
  assert (seen pre (s, t) durable ∨ owes s t → seen (pre ++ [(false, e)]) (s', t) durable ∨ owes s' t) as Hmove.
  { intros [Hs|Ho]; [left; by eapply seen_snoc|]. destruct (owes_step _ _ _ (s', t) t Hy Hrx Ho Hst Hset'); [by right|by left]. }
  destruct (pc t) as [| | | | |[|[[]|]]]; auto; (destruct Hd as [Hd|Hd]; [left|right]; by eapply seen_snoc).
Qed.
End Durable.

(** C11: [sync] means what it answers. It is run among any other calls, any
    driver and any device. If it returns without having stalled, every
    block, whoever wrote it, was durable at some moment of the call: the
    disk held exactly what the stores before the call and those up to that
    moment make of it. The only exceptions are blocks in slots whose write
    the device refused to this very call, which then answers with the
    device's error, and still holds them as dirty; and blocks with an
    abandoned write. *)
Theorem sync_is_durable fr m d h s0 tr s t r k :
  NoDup fr → length fr = SLOTS → run step (boot fr m d) h s0 →
  run (world (O := E)) (s0, sync_start) tr (s, t) → pc t = Returned r → r ≠ Err (CacheErr WritebackStalled) →
  dev k = ONLY_DEVICE → settled s k →
  seen (s0, sync_start) tr (s, t) (λ tr1 s1, disk s1 (lba k) = replay (h ++ tr1.*2) k (d (lba k))) ∨
  (∃ e, r = Err (Device e)) ∧ seen (s0, sync_start) tr (s, t) (left_dirty k t).
Proof.
  intros Hnd Hlen Hboot Hrun Hpc Hr Hk Hset.
  assert (ready s0) as Hs0 by (eapply ready_run; [by apply (ready_boot fr m d)|exact Hboot]).
  pose proof (due_run s0 Hs0 k Hk tr (s, t) [] _ Hrun (run_nil _ _) I Hset) as Hd. cbn [app] in Hd. unfold due in Hd. cbn [snd] in Hd.
  destruct (sync_ready _ _ _ Hrun Hs0 sync_start_sane) as (_ & Hsane & _).
  pose proof (ss_pc t Hsane) as Hp. rewrite Hpc in Hd, Hp.
  assert (settled s0 k) as Hset0 by exact (sync_settled k (s0, sync_start) tr (s, t) Hs0 sync_start_sane Hrun Hset).
  assert (seen (s0, sync_start) tr (s, t) (durable s0 k) ∨ seen (s0, sync_start) tr (s, t) (left_dirty k t)) as [Hdur|Hleft].
  { destruct r as [|[e|e]]; [done| |done]. by subst. }
  - left. destruct Hdur as (tr1 & tr2 & x & -> & H1 & H2 & HP). exists tr1, tr2, x. do 3 (split; [done|]).
    unfold durable in HP. rewrite HP. unfold replay. rewrite fold_left_app. f_equal.
    exact (run_view _ _ _ k (boot_inv fr m d Hnd Hlen) Hboot Hk Hset0).
  - right. split; [|done]. destruct r as [[]|[e|e]]; [|by subst|by exists e].
    destruct Hleft as (? & ? & ? & _ & _ & _ & i & _ & _ & Hb). rewrite Hp in Hb. by rewrite Z.testbit_0_l in Hb.
Qed.
End Calls.
