(* ===== verification/KSyncBound.v ===== *)
(** [sync] returns: a bound on its moves when nobody writes, and what a
    steady writer does to it. *)
From S2P Require Import Prelude Bits BCache KBCache KBCacheSys KBCacheProofs KCacheOps KCacheOpsProofs KSync.
From Stdlib Require Import Strings.Byte.

(** ** Counting bits *)

Definition bits (x : Z) : Z := Z.of_nat (length (filter (λ i, Z.testbit x (Z.of_nat i) = true) (seq 0 SLOTS))).

Lemma length_filter_le {A} (P Q : A → Prop) `{∀ x, Decision (P x)} `{∀ x, Decision (Q x)} l :
  (∀ x, x ∈ l → P x → Q x) → (length (filter P l) ≤ length (filter Q l))%nat.
Proof.
  induction l as [|x l IH]; intros Hl; [done|]. rewrite !filter_cons.
  assert (length (filter P l) ≤ length (filter Q l))%nat by (apply IH; intros; apply Hl; [by right|done]).
  repeat case_decide; cbn; try lia. exfalso. eauto using list_elem_of_here.
Qed.

Lemma length_filter_lt {A} (P Q : A → Prop) `{∀ x, Decision (P x)} `{∀ x, Decision (Q x)} l y :
  (∀ x, x ∈ l → P x → Q x) → y ∈ l → Q y → ¬ P y → (length (filter P l) < length (filter Q l))%nat.
Proof.
  intros Hl Hy Hq Hp. induction l as [|x l IH]; [by apply elem_of_nil in Hy|]. rewrite !filter_cons.
  assert (∀ z, z ∈ l → P z → Q z) as Hl' by (intros; apply Hl; [by right|done]).
  pose proof (length_filter_le P Q l Hl') as Hle. apply elem_of_cons in Hy as [->|Hy].
  - rewrite decide_False, decide_True by done. cbn. lia.
  - specialize (IH Hl' Hy). repeat case_decide; cbn; try lia. exfalso. eauto using list_elem_of_here.
Qed.

Lemma bits_range x : 0 ≤ bits x ≤ 32.
Proof. unfold bits. pose proof (length_filter (λ i, Z.testbit x (Z.of_nat i) = true) (seq 0 SLOTS)) as H. rewrite length_seq in H. unfold SLOTS in *. lia. Qed.

Lemma bits_le x y : (∀ i, 0 ≤ i → Z.testbit x i = true → Z.testbit y i = true) → bits x ≤ bits y.
Proof. intros H. apply inj_le, length_filter_le. intros i _. apply H. lia. Qed.

Lemma bits_lt x y n : (∀ i, 0 ≤ i → Z.testbit x i = true → Z.testbit y i = true) → (n < SLOTS)%nat →
  Z.testbit y (Z.of_nat n) = true → Z.testbit x (Z.of_nat n) = false → bits x + 1 ≤ bits y.
Proof.
  intros H Hn Hy Hx. unfold bits.
  assert (length (filter (λ i, Z.testbit x (Z.of_nat i) = true) (seq 0 SLOTS)) <
    length (filter (λ i, Z.testbit y (Z.of_nat i) = true) (seq 0 SLOTS)))%nat as Hlt; [|lia].
  apply (length_filter_lt _ _ _ n); [|by apply elem_of_seq; lia|done|by rewrite Hx].
  intros i _. apply H. lia.
Qed.

(** ** The measure *)

Definition own_moves (tr : list (bool * event)) : Z := Z.of_nat (length (filter (λ l, l.1 = true) tr)).
Definition SYNC_MOVES : Z := 1418138.

Section Bound.
Context {E : Type}.
#[local] Abbreviation world := (world (O := E) (T := Sync E)).

Definition load (s : sys) (t : Sync E) : Z := bits (still_owed (cache s) (owed t) (failed t)).
Definition round_acted (t : Sync E) : Z :=
  match pc t with Next _ | Writing _ _ _ => if acted t then 1 else 0 | _ => 0 end.
Definition local (t : Sync E) : Z :=
  match pc t with
  | Next p => 2 * bits p + 1
  | Writing p _ _ => 2 * bits p + 2
  | Waiting => 68
  | _ => 67
  end.

(** What is left to do: a round for every slot owed, with the ticks it may
    wait for the others. *)
Definition left_to_do (s : sys) (t : Sync E) : Z :=
  match pc t with
  | Enter => SYNC_MOVES
  | Returned _ => 0
  | _ => (load s t + round_acted t) * 43000 + (SYNC_ROUND_LIMIT + 1 - idle_rounds t) * 70 + local t
  end.

Lemma still_owed_step s s' o f i : ready s → s' = s ∨ step s ETau s' → 0 ≤ i →
  Z.testbit (still_owed (cache s') o f) i = true → Z.testbit (still_owed (cache s) o f) i = true.
Proof.
  intros [Hinv _] [->|Hst]; [done|]. intros Hi. rewrite !still_owed_spec by done. rewrite !andb_true_iff.
  intros [[Ho Hm] [Hlt%Z.ltb_lt Hf]]. split; [|by split; [apply Z.ltb_lt|]]. split; [done|].
  rewrite <- (Z2Nat.id i) in Hm |- * by done. rewrite unsynced_mask_spec in Hm |- * by (unfold SLOTS; lia). by eapply unsynced_antitone.
Qed.

Lemma load_step s s' t : ready s → step s ETau s' → load s' t ≤ load s t.
Proof. intros Hr Hst. apply bits_le. intros i. apply still_owed_step; auto. Qed.

(** The slot a writeback resolved is owed no more. *)
Lemma load_wrote s s' t p slot w ok e : ready s → sync_sane t → pc t = Writing p slot w →
  end_write s w = Some (Ret (ok, s')) → load s' (wrote t p slot ok e) + 1 ≤ load s t.
Proof.
  intros Hr Hs Hpc Hw. pose proof (ss_pc t Hs) as Hp. rewrite Hpc in Hp. destruct Hp as (_ & Hlt & Htok & _ & Ho & Hf).
  pose proof (end_write_step _ _ _ _ Hw) as Hst. destruct (end_write_ok s w _ (proj1 Hr) Hw) as (ok' & s2 & [= <- <-] & Hclean & Hu).
  rewrite Htok in Hclean, Hu. unfold load. apply (bits_lt _ _ slot); [|done| |].
  - intros i Hi Hb. apply (still_owed_step s s'); [done|by right|done|]. revert Hb. destruct ok; [exact id|]. cbn [wrote owed failed].
    rewrite !still_owed_spec by done. rewrite Z.lor_spec, negb_orb, !andb_true_iff. tauto.
  - rewrite still_owed_spec by lia. rewrite Ho, Hf, unsynced_mask_spec by exact Hlt. rewrite Hu. cbn [andb negb].
    rewrite andb_true_r. apply Z.ltb_lt. unfold SLOTS in Hlt. lia.
  - rewrite still_owed_spec by lia. destruct ok; cbn [wrote owed failed].
    + rewrite unsynced_mask_spec by exact Hlt. rewrite (Hclean eq_refl), andb_false_r. reflexivity.
    + rewrite Z.lor_spec, testbit_bit by lia. rewrite Z.eqb_refl, orb_true_r, !andb_false_r. reflexivity.
Qed.

Lemma left_nonneg s t : sync_sane t → 0 ≤ left_to_do s t.
Proof.
  intros Hs. pose proof (ss_idle t Hs). unfold left_to_do, load, round_acted, local, SYNC_MOVES, SYNC_ROUND_LIMIT in *.
  pose proof (bits_range (still_owed (cache s) (owed t) (failed t))).
  destruct (pc t) as [| |p|p ? ?| |]; try lia; pose proof (bits_range p); destruct (acted t); lia.
Qed.

Lemma left_round s t t' p : sync_sane t → pc t = Next p → round_end t = Ret t' → left_to_do s t' + 1 ≤ left_to_do s t.
Proof.
  intros Hs Hpc. pose proof (ss_live t Hs) as Hl. pose proof (ss_idle t Hs) as Hi. rewrite Hpc in Hl. pose proof (bits_range p) as Hb.
  unfold round_end. destruct (acted t) eqn:Ea.
  - intros [= <-]. unfold left_to_do, load, round_acted, local. rewrite Hpc, Ea. cbn [pc owed failed idle_rounds]. unfold SYNC_ROUND_LIMIT in *. lia.
  - intros (idle & [-> _]%add_chk_ret & [= <-])%bind_ret_inv. unfold SYNC_ROUND_LIMIT in *.
    pose proof (bits_range (still_owed (cache s) (owed t) (failed t))) as Hbl.
    destruct (Z.ltb_spec 600 (idle_rounds t + 1)); unfold left_to_do, load, round_acted, local; rewrite Hpc, Ea;
      cbn [pc owed failed idle_rounds]; unfold SYNC_ROUND_LIMIT; lia.
Qed.

(** Every move of the call does some of what is left. *)
Lemma left_own e s t s' ev t' : ready s → sync_sane t → sync_act e s t = Some (Ret (s', ev, t')) →
  left_to_do s' t' + 1 ≤ left_to_do s t.
Proof.
  intros Hr Hs. pose proof (ss_live t Hs) as Hl. pose proof (ss_idle t Hs) as Hi. unfold sync_act.
  destruct (pc t) as [| |p|p slot w| |r] eqn:Hpc.
  - intros [= <- <- <-]. unfold left_to_do, load, round_acted, local. rewrite Hpc. cbn [pc owed failed idle_rounds].
    pose proof (bits_range (still_owed (cache s) (unsynced_mask (cache s)) 0)). unfold SYNC_MOVES, SYNC_ROUND_LIMIT. lia.
  - intros [= <- <- <-]. unfold left_to_do at 2. rewrite Hpc. unfold local, round_acted. rewrite Hpc.
    pose proof (bits_range (still_owed (cache s) (owed t) (failed t))) as Hb. unfold SYNC_ROUND_LIMIT in *.
    destruct (_ =? 0); unfold left_to_do, load, round_acted, local, at_pc; cbn [pc owed failed idle_rounds acted]; unfold SYNC_ROUND_LIMIT; lia.
  - destruct (Z.eqb_spec p 0) as [->|Hne].
    + intros [= (t1 & Ht & [= <- <- <-])%bind_ret_inv]. by eapply left_round.
    + intros [= ([r s1] & Hw & [= <- <- <-])%bind_ret_inv]. pose proof (ss_pc t Hs) as Hp. rewrite Hpc in Hp.
      destruct (next_slot t p Hs Hp Hne) as (Hlt & Hb & _ & Hbits). pose proof (start_write_step _ _ _ _ Hw) as Hst.
      set (slot := Z.to_nat (trailing_zeros 32 p)) in *. set (p' := Z.land p _) in *.
      assert (bits p' + 1 ≤ bits p) as Hless.
      { apply (bits_lt _ _ slot); [|done|done|].
        - intros i Hi0. rewrite Hbits by done. by intros [? _]%andb_true_iff.
        - rewrite Hbits by lia. by rewrite Z.eqb_refl, andb_false_r. }
      pose proof (load_step s s1 t Hr Hst) as Hload. unfold load in Hload.
      destruct r; unfold left_to_do, load, round_acted, local, at_pc; rewrite Hpc; cbn [pc owed failed idle_rounds acted]; lia.
  - destruct (end_write s w) as [x|] eqn:Ex; [|done]. intros [= ([ok s1] & -> & [= <- <- <-])%bind_ret_inv].
    pose proof (load_wrote s s1 t p slot w ok e Hr Hs Hpc Ex) as Hload. unfold load in Hload. pose proof (bits_range p).
    destruct ok; unfold left_to_do, load, round_acted, local, wrote in *; rewrite Hpc; cbn [pc owed failed idle_rounds acted] in *;
      destruct (acted t); lia.
  - intros [= <- <- <-]. unfold left_to_do, load, round_acted, local, at_pc. rewrite Hpc. cbn [pc owed failed idle_rounds acted]. lia.
  - done.
Qed.

Lemma left_other s s' t : ready s → step s ETau s' → left_to_do s' t ≤ left_to_do s t.
Proof. intros Hr Hst. pose proof (load_step s s' t Hr Hst). unfold left_to_do. destruct (pc t); lia. Qed.

Lemma own_moves_cons b e tr : own_moves ((b, e) :: tr) = (if b : bool then 1 else 0) + own_moves tr.
Proof. unfold own_moves. rewrite filter_cons. cbn. destruct b; [rewrite decide_True by done; cbn; lia|by rewrite decide_False]. Qed.

Lemma left_run x tr y : run world x tr y → ready x.1 → sync_sane x.2 → Forall (λ l, l.2 = ETau) tr →
  own_moves tr + left_to_do y.1 y.2 ≤ left_to_do x.1 x.2.
Proof.
  induction 1 as [x|x [b e] y tr z Hw Hrun IH]; intros Hr Hs Hq; [change (own_moves []) with 0; lia|].
  apply Forall_cons in Hq as [He Hq]. cbn in He. subst e.
  destruct (sync_ready x [(b, ETau)] y) as (Hr' & Hs' & _); [by eapply run_cons; [|constructor]|done..|].
  specialize (IH Hr' Hs' Hq). rewrite own_moves_cons. inversion Hw as [o s t s' e' t' Ha|s t e' s' Hst Hu]; subst; cbn [fst snd] in *.
  - pose proof (left_own _ _ _ _ _ _ Hr Hs Ha). lia.
  - pose proof (left_other _ _ t Hr Hst). lia.
Qed.

(** C12: [sync] terminates when nobody writes. Whatever the driver, the
    device, the readers and other flushes do, the call makes at most
    1,418,138 moves; and as long as it has not returned it has a move, or is
    waiting for the driver to resolve a write of its own that is still
    outstanding. *)
Theorem sync_terminates_without_writers fr m d h s0 tr s t e :
  NoDup fr → length fr = SLOTS → run step (boot fr m d) h s0 →
  run world (s0, sync_start) tr (s, t) → Forall (λ l, l.2 = ETau) tr →
  own_moves tr ≤ SYNC_MOVES ∧
  ((∃ s' t', sync_act e s t = Some (Ret (s', ETau, t'))) ∨ (∃ r, pc t = Returned r) ∨
   ∃ p slot w ph, pc t = Writing p slot w ∧ IoWb w ph ∈ ios s ∧ outstanding (IoWb w ph)).
Proof.
  intros Hnd Hlen Hboot Hrun Hq.
  assert (ready s0) as Hs0 by (eapply ready_run; [by apply (ready_boot fr m d)|exact Hboot]).
  destruct (sync_ready _ _ _ Hrun Hs0 sync_start_sane) as (Hr & Hs & _). cbn [fst snd] in *. split.
  - pose proof (left_run _ _ _ Hrun Hs0 sync_start_sane Hq) as Hle. pose proof (left_nonneg s t Hs). cbn [fst snd] in Hle.
    unfold left_to_do at 2 in Hle. cbn [sync_start pc] in Hle. lia.
  - destruct (sync_act e s t) as [[[[s' ev] t']|]|] eqn:Ha.
    + left. exists s', t'. revert Ha. unfold sync_act. destruct (pc t) as [| |p|p slot w| |r]; try done.
      * by intros [= <- <- <-].
      * by intros [= <- <- <-].
      * destruct (p =? 0); [intros [= (t1 & _ & [= <- <- <-])%bind_ret_inv]|intros [= ([r s1] & _ & [= <- <- <-])%bind_ret_inv]]; done.
      * destruct (end_write s w); [|done]. by intros [= ([ok s1] & _ & [= <- <- <-])%bind_ret_inv].
      * by intros [= <- <- <-].
    + by destruct (sync_act_returns e s t Hr Hs).
    + right. destruct (@act_stuck E (Sync E) sync_task sync_laws e s t Ha) as [Hf|[Hw Hout]]; cbn in *.
      * left. destruct (pc t); try done. eauto.
      * right. destruct (pc t) as [| | |p slot w| |] eqn:Hpc; try done.
        destruct (@world_held E (Sync E) sync_task sync_laws (s0, sync_start) tr (s, t) Hrun Hs0 sync_start_sane) as (o & Ho & Hm); [done|by cbn; rewrite Hpc|].
        cbn in Ho, Hm. rewrite Hpc in Hm. destruct o as [|w' ph]; [done|]. apply bool_decide_eq_true in Hm as ->.
        exists p, slot, w, ph. split; [done|]. split; [done|]. refine (Hout (IoWb w ph) Ho _). by apply bool_decide_eq_true.
Qed.
End Bound.

(** ** A steady writer *)

Section Steady.
Context (d : list byte) (Hd : length d = 4096%nat).
#[local] Abbreviation world := (world (O := unit) (T := Sync unit)).

(** The cache of [stored], with its only block dirty, in flight and clean. *)
Definition c_dirty : Bcache := cache stored.
Definition c_flight : Bcache := match begin_writeback c_dirty 0 with Ret (_, c) => c | Panic => c_dirty end.
Definition c_clean : Bcache := match finish_writeback c_flight wb0 true with Ret c => c | Panic => c_dirty end.

Definition plain (c : Bcache) (m dk : memory) (l : list io) : sys := mkSys c m dk l [] [] [].
Definition in_sync (b : bool) (p : SyncPc unit) : Sync unit := mkSync 1 0 None 0 b p.

Lemma act_round m dk b : sync_act tt (plain c_dirty m dk []) (in_sync b Round) =
  Some (Ret (plain c_dirty m dk [], ETau, in_sync false (Next 1))).
Proof. vm_compute. reflexivity. Qed.

Lemma act_take m dk : sync_act tt (plain c_dirty m dk []) (in_sync false (Next 1)) =
  Some (Ret (plain c_flight m dk [IoWb wb0 Queued], ETau, in_sync false (Writing 0 0 wb0))).
Proof. vm_compute. reflexivity. Qed.

Lemma act_resolve m dk : sync_act tt (plain c_flight m dk [IoWb wb0 (WriteDone true)]) (in_sync false (Writing 0 0 wb0)) =
  Some (Ret (plain c_clean m dk [], ETau, in_sync true (Next 0))).
Proof. vm_compute. reflexivity. Qed.

Lemma act_end m dk : sync_act tt (plain c_clean m dk []) (in_sync true (Next 0)) =
  Some (Ret (plain c_clean m dk [], ETau, in_sync true Round)).
Proof. vm_compute. reflexivity. Qed.

Lemma store_again m : store c_clean m key5 d = Ret (Ok (Ok tt), c_dirty, poke m 4096 d).
Proof. vm_compute. reflexivity. Qed.

(** One round of the call: the block is flushed. *)
Definition flush : list (bool * event) :=
  [(true, ETau); (true, ETau); (false, ETau); (false, ETau); (true, ETau); (true, ETau)].

Lemma one_flush m dk b :
  run world (plain c_dirty m dk [], in_sync b Round) flush (plain c_clean m (poke dk 40 (m 4096)) [], in_sync true Round).
Proof.
  eapply run_cons; [by apply (world_own tt), act_round|]. eapply run_cons; [by apply (world_own tt), act_take|].
  eapply run_cons.
  { apply world_other; [exact (step_submit (plain c_flight m dk [IoWb wb0 Queued]) wb0 [] (Permutation_refl _))|].
    intros o _ _. exists (IoWb wb0 (Submitted (m 4096))). split; [left|]. by apply bool_decide_eq_true. }
  eapply run_cons.
  { apply world_other; [exact (step_write_ok (plain c_flight m dk [IoWb wb0 (Submitted (m 4096))]) wb0 (m 4096) [] (Permutation_refl _))|].
    intros o _ _. exists (IoWb wb0 (WriteDone true)). split; [left|]. by apply bool_decide_eq_true. }
  eapply run_cons; [apply (world_own tt), (act_resolve m (poke dk 40 (m 4096)))|].
  eapply run_cons; [apply (world_own tt), act_end|constructor].
Qed.

(** ... and dirty again when the call looks. *)
Definition lap : list (bool * event) := flush ++ [(false, EStore key5 d)].

Lemma one_lap m dk b :
  ∃ m' dk', run world (plain c_dirty m dk [], in_sync b Round) lap (plain c_dirty m' dk' [], in_sync true Round).
Proof.
  exists (poke m 4096 d), (poke dk 40 (m 4096)). eapply run_app; [apply one_flush|]. eapply run_cons; [|constructor].
  apply world_other; [|intros o Ho; by apply elem_of_nil in Ho].
  apply (step_store (plain c_clean m (poke dk 40 (m 4096)) []) key5 d 40 (Ok (Ok tt))); [|apply store_again].
  unfold write_entry. rewrite Hd. vm_compute. reflexivity.
Qed.

Lemma laps n m dk b :
  ∃ m' dk' b', run world (plain c_dirty m dk [], in_sync b Round) (concat (replicate n lap)) (plain c_dirty m' dk' [], in_sync b' Round).
Proof.
  revert m dk b. induction n as [|n IH]; intros m dk b; [exists m, dk, b; constructor|].
  destruct (one_lap m dk b) as (m1 & dk1 & H1). destruct (IH m1 dk1 true) as (m2 & dk2 & b2 & H2).
  exists m2, dk2, b2. cbn [replicate concat]. by eapply run_app.
Qed.
End Steady.

Lemma own_moves_app l k : own_moves (l ++ k) = own_moves l + own_moves k.
Proof. unfold own_moves. rewrite filter_app, length_app. lia. Qed.

Lemma sync_entered :
  run (world (O := unit)) (stored, sync_start) [(true, ETau)] (plain c_dirty (mem stored) (disk stored) [], in_sync false Round).
Proof. eapply run_cons; [|constructor]. apply (world_own tt). vm_compute. reflexivity. Qed.

(** A whole call: one block dirty, one flush, and the answer. *)
Definition whole_call : list (bool * event) := [(true, ETau)] ++ flush ++ [(true, ETau)].
Definition sync_end : sys := plain c_clean (mem stored) (poke (disk stored) 40 (mem stored 4096)) [].

Lemma whole_run : run (world (O := unit)) (stored, sync_start) whole_call (sync_end, in_sync true (Returned (Ok tt))).
Proof.
  eapply run_app; [exact sync_entered|]. eapply run_app; [apply one_flush|]. eapply run_cons; [|constructor].
  apply (world_own tt). vm_compute. reflexivity.
Qed.

Lemma sync_is_durable_witness :
  seen (stored, sync_start) whole_call (sync_end, in_sync true (Returned (Ok tt)))
    (λ tr1 s1, disk s1 (lba key5) = replay ([EStore key5 old_block] ++ tr1.*2) key5 []) ∨
  (∃ e : unit, Ok tt = Err (Device e)) ∧ seen (stored, sync_start) whole_call (sync_end, in_sync true (Returned (Ok tt))) (left_dirty key5 (in_sync true (Returned (Ok tt)))).
Proof.
  refine (sync_is_durable frames32 zeros zeros [EStore key5 old_block] stored whole_call sync_end (in_sync true (Returned (Ok tt))) (Ok tt) key5
    (proj1 frames32_ok) (proj2 frames32_ok) stored_run whole_run eq_refl _ eq_refl _); [discriminate|].
  intros H. by apply elem_of_nil in H.
Defined.

Lemma sync_terminates_without_writers_witness : own_moves whole_call ≤ SYNC_MOVES.
Proof.
  refine (proj1 (sync_terminates_without_writers frames32 zeros zeros [EStore key5 old_block] stored whole_call sync_end
    (in_sync true (Returned (Ok tt))) tt (proj1 frames32_ok) (proj2 frames32_ok) stored_run whole_run _)).
  unfold whole_call, flush. do 8 (constructor; [reflexivity|]). constructor.
Defined.

(** C13: [sync] documents that it covers the blocks dirty when it was
    called, so that a steady writer cannot keep it from returning. It can:
    what is fixed at entry is a set of slots, and a slot that is dirty again
    when a round looks is owed again. For every [n] there is a run in which
    one writer stores to one block, every flush succeeds, no round is idle,
    and after [n] moves the call is back at the start of a round. *)
Theorem steady_writer_keeps_sync_from_returning n :
  ∃ tr s t, run (world (O := unit)) (stored, sync_start) tr (s, t) ∧ Z.of_nat n ≤ own_moves tr ∧
    Forall (λ l, l.2 = ETau ∨ l = (false, EStore key5 new_block)) tr ∧
    pc t = Round ∧ failed t = 0 ∧ idle_rounds t = 0 ∧ still_owed (cache s) (owed t) (failed t) = 1.
Proof.
  destruct (laps new_block ltac:(reflexivity) n (mem stored) (disk stored) false) as (m & dk & b & Hrun).
  exists ([(true, ETau)] ++ concat (replicate n (lap new_block))), (plain c_dirty m dk []), (in_sync b Round).
  split; [|split; [|split; [|by vm_compute]]].
  - eapply run_app; [exact sync_entered|exact Hrun].
  - cbn [app]. rewrite own_moves_cons. clear. induction n as [|n IH]; [by vm_compute|]. cbn [replicate concat]. rewrite own_moves_app.
    change (own_moves (lap new_block)) with 4. lia.
  - constructor; [by left|]. clear. generalize new_block as d. intros d. induction n as [|n IH]; cbn [replicate concat]; [constructor|].
    apply Forall_app. split; [|exact IH]. unfold lap, flush. cbn [app]. do 6 (constructor; [by left|]). constructor; [by right|constructor].
Qed.
