(* ===== verification/KReadWrite.v ===== *)
(** [read_block] and [write_block] of [kernel/src/bcache.rs], [make_room]
    under them, and the three calls of the cache together: what their answers
    mean. *)
From S2P Require Import Prelude Bits BCache KBCache KBCacheSys KBCacheProofs KCacheOps KCacheOpsProofs KSync KSyncBound.
From Stdlib Require Import Strings.Byte.

Section Calls.
Context {E : Type}.

(** ** [make_room] *)

Lemma room_step e s p s' p' : room_act (E := E) e s p = Some (Ret (s', p')) → s' = s ∨ step s ETau s'.
Proof.
  destruct p as [|slot|w|slot| |r]; cbn.
  - intros [= <- _]. by left.
  - intros [= ([r s1] & Hw & [= <- _])%bind_ret_inv]. right. by eapply start_write_step.
  - destruct (end_write s w) as [x|] eqn:Ex; [|done]. intros [= ([ok s1] & -> & [= <- _])%bind_ret_inv]. right. by eapply end_write_step.
  - intros [= <- _]. by left.
  - intros [= <- _]. by left.
  - done.
Qed.

Lemma room_returns e s p : ready s → room_act (E := E) e s p ≠ Some Panic.
Proof.
  intros Hr. destruct p as [|slot|w|slot| |r]; cbn; try done.
  - by destruct (start_write_ok s slot Hr) as (r & s' & -> & _).
  - destruct (end_write s w) as [x|] eqn:Ex; [|done]. by destruct (end_write_ok s w x (proj1 Hr) Ex) as (ok & s' & -> & _).
Qed.

Lemma room_stuck e s p : room_act (E := E) e s p = None →
  (∃ r, p = RoomDone r) ∨ ∀ o, o ∈ ios s → room_mine p o = true → outstanding o.
Proof.
  destruct p as [|slot|w|slot| |r]; cbn; try done; [|by left; exists r].
  destruct (end_write s w) eqn:Ex; [done|]. intros _. right. intros o. by eapply end_write_stuck.
Qed.

Definition room_sane (p : RoomPc E) : Prop := match p with RoomDone (Err e) => ∃ d, e = Device d | _ => True end.

Lemma room_act_sane e s p s' p' : room_act e s p = Some (Ret (s', p')) → room_sane p'.
Proof.
  destruct p as [|slot|w|slot| |r]; cbn.
  - intros [= _ <-]. by destruct (flushable_slot _).
  - intros [= ([r s1] & _ & [= _ <-])%bind_ret_inv]. by destruct r.
  - destruct (end_write s w) as [x|]; [|done]. intros [= ([ok s1] & _ & [= _ <-])%bind_ret_inv]. destruct ok; [done|by exists e].
  - intros [= _ <-]. by destruct (state_of _ _) as [[]|].
  - by intros [= _ <-].
  - done.
Qed.

Definition flushing (p : RoomPc E) : bool := match p with Flushing _ => true | _ => false end.

Lemma room_holds e s p s' p' : ready s → room_act (E := E) e s p = Some (Ret (s', p')) → flushing p' = true →
  ∃ o, o ∈ ios s' ∧ room_mine p' o = true.
Proof.
  intros Hr. destruct p as [|slot|w|slot| |r]; cbn.
  - intros [= <- <-]. by destruct (flushable_slot _).
  - intros [= ([r s1] & Hw & [= <- <-])%bind_ret_inv]. destruct (start_write_ok s slot Hr) as (r2 & s2 & Hw2 & _ & Hr2).
    rewrite Hw in Hw2. injection Hw2 as <- <-. destruct r as [w|]; [|done]. intros _. exists (IoWb w Queued).
    split; [apply Hr2|]. by apply bool_decide_eq_true.
  - destruct (end_write s w) as [x|]; [|done]. by intros [= ([ok s1] & -> & [= <- <-])%bind_ret_inv].
  - intros [= <- <-]. by destruct (state_of _ _) as [[]|].
  - by intros [= <- <-].
  - done.
Qed.

(** ** [read_block] *)

(** A reader's reference, the moment it gets it: counted, to the block asked
    for, and showing its content. *)
Definition refers (k : BlockKey) (b : BlockRef) (s : sys) : Prop :=
  b ∈ refs s ∧ key_of (table (cache s)) (ref_slot b) = Some k ∧ mem s (ref_virt b) = view s k.

Lemma refers_intro k b s sl : inv s → b ∈ refs s → table (cache s) !! ref_slot b = Some sl → key sl = k → refers k b s.
Proof.
  intros Hinv Hb Hi Hk. destruct (ref_slot_facts s b Hinv Hb) as (sl' & Hi' & Hf & _ & _ & Hv & Hfl).
  rewrite Hi in Hi'. injection Hi' as <-. split; [done|]. unfold key_of. rewrite Hi, bool_decide_eq_true_2 by done.
  split; [by rewrite Hk|]. rewrite (view_resident s (ref_slot b) sl); [by rewrite Hfl, Hv|apply Hinv|done|by apply is_hit_spec].
Qed.

Lemma claim_hit s k l b c : inv s → read_entry k = Ok l → claim (cache s) k = Ret (Ok (Hit b), c) →
  refers k b (with_cache (after_claim s k (Ok (Hit b))) c).
Proof.
  intros Hinv Hk He. pose proof (inv_shape s Hinv) as Hsh.
  pose proof (proj1 (good_claim s k l _ c Hinv Hk He)) as Hinv'. revert He.
  destruct (lookup (table (cache s)) k) as [i|] eqn:El.
  - apply lookup_Some in El as (sl & Hi & Hf & Hkey); [|apply Hsh].
    rewrite (claim_resident _ i sl) by (done || by apply is_hit_spec). destruct (_ && _); [done|].
    intros (t & (sl0 & Hi0 & _ & _ & ->)%pin_ret & [= <- <-])%bind_ret_inv. rewrite Hi in Hi0. injection Hi0 as <-.
    eapply (refers_intro k _ _ (with_pins sl (pins sl + 1))); [exact Hinv'|left| |done].
    cbn. apply list_lookup_insert_eq. by eapply lookup_lt_Some.
  - unfold claim. rewrite El. intros ([r c1] & _ & H)%bind_ret_inv. destruct r; [|done].
    apply bind_ret_inv in H as (? & _ & H). apply bind_ret_inv in H as (? & _ & H). done.
Qed.

Lemma fill_hit s k f ph ok r s' : ready s → IoFill k f ph ∈ ios s → end_fill s f = Some (Ret (ok, r, s')) →
  ∀ b, r = Some b → refers k b s'.
Proof.
  intros Hr Hin He b ->. pose proof (end_fill_step _ _ _ _ _ He) as Hst. pose proof (ready_step _ _ _ Hr Hst) as [Hinv' _].
  destruct Hr as [Hinv _]. revert He. unfold end_fill. destruct (take_done _ _) as [[ok' rest]|] eqn:Et; [|done]. intros [= H].
  apply take_done_Some in Et as (o & [k' ->]%filled_Some & Hp).
  destruct (live_io _ _ _ Hinv Hp) as (sl & Hi & Hs & _ & (_ & Hkey & _) & Hrest).
  assert (k' = k) as ->.
  { rewrite Hp in Hin. apply elem_of_cons in Hin as [Hin|Hin]; [congruence|].
    assert (IoFill k f ph ∈ filter (λ o', io_slot o' = io_slot (IoFill k' f (ReadDone ok'))) rest) as Hf by by apply list_elem_of_filter.
    rewrite Hrest in Hf. by apply elem_of_nil in Hf. }
  destruct (slot_facts _ _ _ Hinv Hp) as (sl' & Hi2 & _ & Hd & _ & _ & Hpin). rewrite Hi in Hi2. injection Hi2 as <-.
  apply bind_ret_inv in H as ([r c] & Hf & [= <- -> <-]).
  rewrite (finish_fill_eq _ _ sl (inv_shape s Hinv) Hi) in Hf by done. destruct ok'; [|done]. injection Hf as <- <-.
  eapply (refers_intro k _ _ (mkSlot (key sl) Clean 1 false)); [exact Hinv'|left| |done].
  cbn. apply list_lookup_insert_eq. by eapply lookup_lt_Some.
Qed.

(** The refusals of a call that got past its checks. *)
Definition busy (e : BcacheError) : Prop := e ∈ [Exhausted; FillStalled; WritebackStalled; BlockPinned].

Definition read_sane (t : Read E) : Prop :=
  match rd_pc t with
  | RdEnter => True
  | RdReturned (Err (CacheErr e)) =>
      read_entry (rd_key t) = Err e ∨ (∃ l, read_entry (rd_key t) = Ok l) ∧ (e = Exhausted ∨ e = FillStalled)
  | RdReturned _ => True
  | RdRoom p => room_sane p ∧ (∃ l, read_entry (rd_key t) = Ok l) ∧ 0 ≤ rd_flushed t ≤ 32
  | _ => (∃ l, read_entry (rd_key t) = Ok l) ∧ 0 ≤ rd_flushed t ≤ 32
  end.

Definition read_returned (t : Read E) : bool := match rd_pc t with RdReturned _ => true | _ => false end.
Definition read_waits (t : Read E) : bool := match rd_pc t with RdRoom p => flushing p | RdFill _ => true | _ => false end.

Lemma claim_error s k e c : inv s → claim (cache s) k = Ret (Err e, c) → e = Exhausted.
Proof.
  intros Hinv. pose proof (inv_shape s Hinv) as Hsh. destruct (lookup (table (cache s)) k) as [i|] eqn:El.
  - apply lookup_Some in El as (sl & Hi & Hf & Hkey); [|apply Hsh].
    rewrite (claim_resident _ i sl) by (done || by apply is_hit_spec). destruct (_ && _); [done|].
    by intros (? & _ & ?)%bind_ret_inv.
  - unfold claim. rewrite El. destruct (claim_free_slot_spec _ k Hsh El) as [->|(i & sl & w & Hi & _ & _ & _ & ->)]; cbn; [by intros [= <- _]|].
    intros (? & _ & H)%bind_ret_inv. by apply bind_ret_inv in H as (? & _ & ?).
Qed.

Lemma try_room_spec flushed : try_room flushed = true → flushed ≤ 32.
Proof. unfold try_room, SLOTS. by intros ?%Z.leb_le. Qed.

(** What a reader does with the answer of [claim]. *)
Lemma claimed_sane now t r : read_sane t → rd_pc t = RdClaim → (∀ e, r = Err e → e = Exhausted) →
  ∃ t', claimed now t r = Ret t' ∧ read_sane t' ∧ rd_key t' = rd_key t ∧
    (∀ b, rd_pc t' = RdReturned (Ok b) → r = Ok (Hit b)) ∧
    (read_waits t' = true → ∃ f, r = Ok (ClaimFill f) ∧ rd_pc t' = RdFill f).
Proof.
  intros Hs Hpc Hr. unfold read_sane in Hs. rewrite Hpc in Hs. destruct Hs as [[l Hl] Hfl]. pose proof (read_entry_lba _ _ Hl) as Hlba.
  destruct r as [[b|f|]|e]; unfold claimed.
  - eexists. split; [done|]. split; [done|]. split; [done|]. split; [by intros b' [= ->]|done].
  - rewrite Hlba. eexists. split; [done|]. split; [by split; [exists l|]|]. split; [done|]. split; [done|]. intros _. by exists f.
  - eexists. split; [done|]. unfold past_deadline. destruct (_ <? _).
    + split; [right; split; [by exists l|by right]|done].
    + split; [by split; [exists l|]|done].
  - rewrite (Hr e eq_refl). rewrite add_chk_ok by lia. cbn [mbind outcome_bind]. eexists. split; [done|].
    destruct (try_room _) eqn:Et.
    + apply try_room_spec in Et. split; [split; [done|split; [by exists l|cbn; lia]]|done].
    + split; [right; split; [by exists l|by left]|done].
Qed.

(** Every branch of [read_block] at once: where it is, and what it has. *)
Lemma read_act_ok o s t x : ready s → read_sane t → few_refs s → read_act o s t = Some x →
  ∃ s' t', x = Ret (s', ETau, t').
Proof.
  intros Hr Hs Hfew. unfold read_act. destruct (rd_pc t) as [| |p| |f|r] eqn:Hpc; [intros [= <-]; eauto| | |intros [= <-]; eauto| |done].
  - destruct (claim_returns s (rd_key t) (proj1 Hr) Hfew) as [[r c] Hc]. rewrite Hc. cbn [mbind outcome_bind].
    destruct (claimed_sane o.2 t r Hs Hpc) as (t' & -> & _); [intros e ->; by eapply claim_error, Hc; apply Hr|]. intros [= <-]. eauto.
  - pose proof (room_returns o.1 s p Hr) as Hp. destruct (room_act o.1 s p) as [[[s1 p1]|]|] eqn:Ep; [|done|];
      (destruct p as [|slot|w|slot| |[[]|]]; try (by intros [= <-]; eauto); try done).
  - destruct (end_fill s f) as [y|] eqn:Ey; [|done]. destruct (end_fill_ok s f y (proj1 Hr) Ey) as (ok & r & s1 & -> & Hnone & _).
    intros [= <-]. destruct r as [b|]; cbn; [eauto|]. rewrite (Hnone eq_refl). cbn. eauto.
Qed.

(** The moves of [read_block]. *)
Inductive read_move (o : E * Z) (s : sys) (t : Read E) : sys → Read E → Prop :=
  | rm_enter_bad e : rd_pc t = RdEnter → read_entry (rd_key t) = Err e → read_move o s t s (read_at t (RdReturned (Err (CacheErr e))))
  | rm_enter l : rd_pc t = RdEnter → read_entry (rd_key t) = Ok l → read_move o s t s (mkRead (rd_key t) o.2 0 RdClaim)
  | rm_claim r c t' : rd_pc t = RdClaim → claim (cache s) (rd_key t) = Ret (r, c) → claimed o.2 t r = Ret t' →
      read_move o s t (with_cache (after_claim s (rd_key t) r) c) t'
  | rm_room p s' p' : rd_pc t = RdRoom p → room_act o.1 s p = Some (Ret (s', p')) → read_move o s t s' (read_at t (RdRoom p'))
  | rm_room_ok b : rd_pc t = RdRoom (RoomDone (Ok b)) →
      read_move o s t s (read_at t (if b : bool then RdClaim else RdReturned (Err (CacheErr Exhausted))))
  | rm_room_err e : rd_pc t = RdRoom (RoomDone (Err e)) → read_move o s t s (read_at t (RdReturned (Err e)))
  | rm_tick : rd_pc t = RdTick → read_move o s t s (read_at t RdClaim)
  | rm_fill f ok b s' : rd_pc t = RdFill f → end_fill s f = Some (Ret (ok, Some b, s')) → read_move o s t s' (read_at t (RdReturned (Ok b)))
  | rm_fill_err f s' : rd_pc t = RdFill f → end_fill s f = Some (Ret (false, None, s')) →
      read_move o s t s' (read_at t (RdReturned (Err (Device o.1)))).

Lemma read_act_move o s t s' ev t' : read_act o s t = Some (Ret (s', ev, t')) → read_move o s t s' t' ∧ ev = ETau.
Proof.
  unfold read_act. destruct (rd_pc t) as [| |p| |f|r] eqn:Hpc.
  - intros [= <- <- <-]. split; [|done]. destruct (read_entry _) eqn:Ee; [by eapply rm_enter|by eapply rm_enter_bad].
  - intros [= ([r c] & Hc & (t1 & Ht & [= <- <- <-])%bind_ret_inv)%bind_ret_inv]. split; [|done]. by eapply rm_claim.
  - destruct p as [|slot|w|slot| |[[]|]];
      try (by intros [= <- <- <-]; split; [first [by apply (rm_room_ok _ _ _ true)|by apply (rm_room_ok _ _ _ false)|by eapply rm_room_err]|]);
      (destruct (room_act _ _ _) as [x|] eqn:Ex; [|done]; intros [= ([s1 p1] & -> & [= <- <- <-])%bind_ret_inv]; split; [by eapply rm_room|done]).
  - intros [= <- <- <-]. split; [by apply rm_tick|done].
  - destruct (end_fill s f) as [x|] eqn:Ex; [|done]. intros [= ([[ok r] s1] & -> & (t1 & Ht & [= <- <- <-])%bind_ret_inv)%bind_ret_inv].
    split; [|done]. destruct r as [b|]; [injection Ht as <-; by eapply rm_fill|]. destruct ok; [done|]. injection Ht as <-. by eapply rm_fill_err.
  - done.
Qed.

Lemma read_move_sane o s t s' t' : ready s → read_sane t → read_move o s t s' t' → read_sane t' ∧ (s' = s ∨ step s ETau s').
Proof.
  intros Hr Hs Hm. pose proof Hs as Hs0. unfold read_sane in Hs.
  destruct Hm as [e Hpc He|l Hpc He|r c t' Hpc Hc Ht|p s' p' Hpc Hp|b Hpc|e Hpc|Hpc|f ok b s' Hpc Hf|f s' Hpc Hf]; rewrite Hpc in Hs.
  - split; [by left|by left].
  - split; [by split; [exists l|]|by left].
  - destruct Hs as [[l Hl] _]. split; [|right; by eapply step_claim].
    destruct (claimed_sane o.2 t r Hs0 Hpc) as (t1 & Ht1 & Hs1 & _); [intros e ->; by eapply claim_error, Hc; apply Hr|].
    rewrite Ht in Ht1. by injection Ht1 as <-.
  - destruct Hs as [_ Hs]. split; [split; [by eapply room_act_sane|done]|by eapply room_step].
  - destruct Hs as [_ [Hl Hfl]]. split; [|by left]. destruct b; [done|]. right. split; [done|by left].
  - destruct Hs as [[d ->] _]. split; [done|by left].
  - split; [done|by left].
  - split; [done|]. right. by eapply end_fill_step.
  - split; [done|]. right. by eapply end_fill_step.
Qed.

Lemma read_act_stuck o s t : read_act o s t = None →
  read_returned t = true ∨ read_waits t = true ∧ ∀ o', o' ∈ ios s → mine t o' = true → outstanding o'.
Proof.
  unfold read_act, read_returned, read_waits. cbn [mine read_task]. destruct (rd_pc t) as [| |p| |f|r]; try done; [| |by left].
  - intros Hn. right. destruct p as [|slot|w|slot| |[[]|]]; try done. split; [done|]. cbn in Hn |- *.
    destruct (end_write s w) eqn:Ex; [done|]. intros o'. by eapply end_write_stuck.
  - destruct (end_fill s f) eqn:Ex; [done|]. intros _. right. split; [done|]. intros o'. by eapply end_fill_stuck.
Qed.

Lemma claim_fill_in s k f c : claim (cache s) k = Ret (Ok (ClaimFill f), c) →
  IoFill k f Reading ∈ ios (with_cache (after_claim s k (Ok (ClaimFill f))) c).
Proof. intros _. left. Qed.

Lemma read_move_holds o s t s' t' : ready s → read_sane t → read_move o s t s' t' → read_waits t' = true →
  ∃ o', o' ∈ ios s' ∧ mine t' o' = true.
Proof.
  intros Hr Hs Hm. destruct Hm as [e Hpc He|l Hpc He|r c t' Hpc Hc Ht|p s' p' Hpc Hp|b Hpc|e Hpc|Hpc|f ok b s' Hpc Hf|f s' Hpc Hf]; try done.
  - destruct (claimed_sane o.2 t r Hs Hpc) as (t1 & Ht1 & _ & Hk & _ & Hw); [intros e ->; by eapply claim_error, Hc; apply Hr|].
    rewrite Ht in Ht1. injection Ht1 as <-. intros (f & -> & Hpc')%Hw. exists (IoFill (rd_key t) f Reading). split; [left|].
    cbn. rewrite Hpc'. apply bool_decide_eq_true. by rewrite Hk.
  - intros Hw. by eapply room_holds.
  - by destruct b.
Qed.

#[export] Instance read_laws : TaskLaws (E * Z) (Read E).
Proof.
  refine {| sane := read_sane; finished := read_returned; waits := read_waits; act_stuck := read_act_stuck |}.
  - intros o s t s' e t' Hr Hs [Hm ->]%read_act_move. destruct (read_move_sane _ _ _ _ _ Hr Hs Hm) as [? [?|?]]; auto.
  - intros o s t Hr Hs Hfew Ha. by destruct (read_act_ok o s t Panic Hr Hs Hfew Ha) as (? & ? & ?).
  - intros o s t s' e t' Hr Hs [Hm ->]%read_act_move. by eapply read_move_holds.
Defined.

Lemma read_ready x tr y : run (world (O := E * Z)) x tr y → ready x.1 → read_sane x.2 →
  ready y.1 ∧ read_sane y.2 ∧ ∃ tr', run step x.1 tr' y.1 ∧ ∀ k v, replay tr' k v = replay tr.*2 k v.
Proof. intros Hr Hx Hs. exact (world_ready (O := E * Z) x tr y Hr Hx Hs). Qed.

Lemma read_held x tr y : run (world (O := E * Z)) x tr y → ready x.1 → read_sane x.2 →
  read_waits x.2 = false → read_waits y.2 = true → ∃ o, o ∈ ios y.1 ∧ mine y.2 o = true.
Proof. intros Hr Hx Hs Hw. refine (world_held (O := E * Z) x tr y Hr Hx Hs _). cbn. by rewrite Hw. Qed.
End Calls.

Section Calls.
Context {E : Type}.

(** ** [write_block] *)

Definition write_sane (t : Write E) : Prop :=
  match wr_pc t with
  | WrEnter => True
  | WrReturned (Err (CacheErr e)) =>
      write_entry (wr_key t) (wr_data t) = Err e ∨ (∃ l, write_entry (wr_key t) (wr_data t) = Ok l) ∧ busy e
  | WrReturned _ => True
  | WrRoom p => room_sane p ∧ (∃ l, write_entry (wr_key t) (wr_data t) = Ok l) ∧ 0 ≤ wr_flushed t ≤ 32
  | _ => (∃ l, write_entry (wr_key t) (wr_data t) = Ok l) ∧ 0 ≤ wr_flushed t ≤ 32
  end.

Definition write_returned (t : Write E) : bool := match wr_pc t with WrReturned _ => true | _ => false end.
Definition write_waits (t : Write E) : bool := match wr_pc t with WrRoom p => flushing p | _ => false end.

Inductive write_move (o : E * Z) (s : sys) (t : Write E) : sys → event → Write E → Prop :=
  | wm_enter_bad e : wr_pc t = WrEnter → write_entry (wr_key t) (wr_data t) = Err e →
      write_move o s t s ETau (write_at t (WrReturned (Err (CacheErr e))))
  | wm_enter l : wr_pc t = WrEnter → write_entry (wr_key t) (wr_data t) = Ok l → write_move o s t s ETau (mkWrite (wr_key t) (wr_data t) None None 0 WrStore)
  | wm_store r c m t' : wr_pc t = WrStore → store (cache s) (mem s) (wr_key t) (wr_data t) = Ret (r, c, m) →
      stored_or o.2 t r = Ret t' →
      write_move o s t (with_cache (with_mem s m) c) (store_event (wr_key t) (wr_data t) r) t'
  | wm_room p s' p' : wr_pc t = WrRoom p → room_act o.1 s p = Some (Ret (s', p')) → write_move o s t s' ETau (write_at t (WrRoom p'))
  | wm_room_ok b : wr_pc t = WrRoom (RoomDone (Ok b)) →
      write_move o s t s ETau (write_at t (if b : bool then WrStore else WrReturned (Err (CacheErr Exhausted))))
  | wm_room_err e : wr_pc t = WrRoom (RoomDone (Err e)) → write_move o s t s ETau (write_at t (WrReturned (Err e)))
  | wm_tick : wr_pc t = WrTick → write_move o s t s ETau (write_at t WrStore).

Lemma write_act_move o s t s' ev t' : write_act o s t = Some (Ret (s', ev, t')) → write_move o s t s' ev t'.
Proof.
  unfold write_act. destruct (wr_pc t) as [| |p| |r] eqn:Hpc.
  - intros [= <- <- <-]. destruct (write_entry _ _) eqn:Ee; [by eapply wm_enter|by eapply wm_enter_bad].
  - intros [= ([[r c] m] & Hc & (t1 & Ht & [= <- <- <-])%bind_ret_inv)%bind_ret_inv]. by eapply wm_store.
  - destruct p as [|slot|w|slot| |[[]|]];
      try (by intros [= <- <- <-]; first [by apply (wm_room_ok _ _ _ true)|by apply (wm_room_ok _ _ _ false)|by eapply wm_room_err]);
      (destruct (room_act _ _ _) as [x|] eqn:Ex; [|done]; intros [= ([s1 p1] & -> & [= <- <- <-])%bind_ret_inv]; by eapply wm_room).
  - intros [= <- <- <-]. by apply wm_tick.
  - done.
Qed.

Lemma store_error s k d e c m : inv s → store (cache s) (mem s) k d = Ret (Err e, c, m) → e = Exhausted.
Proof.
  intros Hinv. pose proof (inv_shape s Hinv) as Hsh. destruct (lookup (table (cache s)) k) as [i|] eqn:El.
  - apply lookup_Some in El as (sl & Hi & Hf & Hkey); [|apply Hsh].
    rewrite (store_resident _ i sl) by (done || (by apply is_hit_spec) || exact (proj1 (inv_slots s Hinv i sl Hi))).
    by repeat case_bool_decide.
  - destruct (store_absent _ (mem s) k d Hsh El) as [->|(i & sl & w & _ & _ & _ & _ & ->)]; [by intros [= <- _ _]|done].
Qed.

(** What a writer does with the answer of [store]. *)
Lemma stored_sane now t r : write_sane t → wr_pc t = WrStore → (∀ e, r = Err e → e = Exhausted) →
  ∃ t', stored_or now t r = Ret t' ∧ write_sane t' ∧ write_waits t' = false ∧ wr_key t' = wr_key t ∧ wr_data t' = wr_data t ∧
    ((∃ u, r = Ok (Ok u)) ∧ wr_pc t' = WrReturned (Ok tt) ∨ (∀ u, r ≠ Ok (Ok u)) ∧ ∀ u, wr_pc t' ≠ WrReturned (Ok u)).
Proof.
  intros Hs Hpc Hr. unfold write_sane in Hs. rewrite Hpc in Hs. destruct Hs as [[l Hl] Hfl].
  destruct r as [[u|b]|e]; unfold stored_or.
  - eexists. split; [done|]. repeat (split; [done|]). left. split; [by exists u|done].
  - eexists. split; [done|]. unfold held_up, write_sane, write_waits. destruct b; cbn [wr_pc wr_key wr_data wr_flushed];
      (destruct (past_deadline _ _ _);
        [split; [right; split; [by exists l|unfold busy; set_solver]|repeat (split; [done|]); by right]
        |split; [by split; [exists l|]|repeat (split; [done|]); by right]]).
  - rewrite (Hr e eq_refl). rewrite add_chk_ok by lia. cbn [mbind outcome_bind]. eexists. split; [done|]. unfold write_sane, write_waits.
    cbn [wr_pc wr_key wr_data wr_flushed]. destruct (try_room _) eqn:Et.
    + apply try_room_spec in Et. split; [split; [done|split; [by exists l|lia]]|repeat (split; [done|]); by right].
    + split; [right; split; [by exists l|unfold busy; set_solver]|repeat (split; [done|]); by right].
Qed.

Lemma write_move_sane o s t s' ev t' : ready s → write_sane t → write_move o s t s' ev t' →
  write_sane t' ∧ ((s' = s ∧ ev = ETau) ∨ step s ev s').
Proof.
  intros Hr Hs Hm. pose proof Hs as Hs0. unfold write_sane in Hs.
  destruct Hm as [e Hpc He|l Hpc He|r c m t' Hpc Hc Ht|p s' p' Hpc Hp|b Hpc|e Hpc|Hpc]; rewrite Hpc in Hs.
  - split; [by left|by left].
  - split; [by split; [exists l|]|by left].
  - destruct Hs as [[l Hl] _]. split; [|right; by eapply step_store].
    destruct (stored_sane o.2 t r Hs0 Hpc) as (t1 & Ht1 & Hs1 & _); [intros e ->; by eapply store_error, Hc; apply Hr|].
    rewrite Ht in Ht1. by injection Ht1 as <-.
  - destruct Hs as [_ Hs]. split; [split; [by eapply room_act_sane|done]|]. destruct (room_step _ _ _ _ _ Hp); auto.
  - destruct Hs as [_ [Hl Hfl]]. split; [|by left]. destruct b; [done|]. right. split; [done|]. unfold busy. set_solver.
  - destruct Hs as [[d ->] _]. split; [done|by left].
  - split; [done|by left].
Qed.

Lemma write_act_returns o s t : ready s → write_sane t → write_act o s t ≠ Some Panic.
Proof.
  intros Hr Hs. unfold write_act. destruct (wr_pc t) as [| |p| |r] eqn:Hpc; try done.
  - destruct (store_returns s (wr_key t) (wr_data t) (proj1 Hr)) as [[[r c] m] Hc]. rewrite Hc. cbn [mbind outcome_bind].
    destruct (stored_sane o.2 t r Hs Hpc) as (t' & -> & _); [intros e ->; by eapply store_error, Hc; apply Hr|]. done.
  - pose proof (room_returns o.1 s p Hr) as Hp. destruct (room_act o.1 s p) as [[[s1 p1]|]|] eqn:Ep; [|done|];
      (destruct p as [|slot|w|slot| |[[]|]]; try done).
Qed.

Lemma write_act_stuck o s t : write_act o s t = None →
  write_returned t = true ∨ write_waits t = true ∧ ∀ o', o' ∈ ios s → mine t o' = true → outstanding o'.
Proof.
  unfold write_act, write_returned, write_waits. cbn [mine write_task]. destruct (wr_pc t) as [| |p| |r]; try done; [|by left].
  intros Hn. right. destruct p as [|slot|w|slot| |[[]|]]; try done. split; [done|]. cbn in Hn |- *.
  destruct (end_write s w) eqn:Ex; [done|]. intros o'. by eapply end_write_stuck.
Qed.

Lemma write_move_holds o s t s' ev t' : ready s → write_sane t → write_move o s t s' ev t' → write_waits t' = true →
  ∃ o', o' ∈ ios s' ∧ mine t' o' = true.
Proof.
  intros Hr Hs Hm. destruct Hm as [e Hpc He|l Hpc He|r c m t' Hpc Hc Ht|p s' p' Hpc Hp|b Hpc|e Hpc|Hpc]; try done.
  - destruct (stored_sane o.2 t r Hs Hpc) as (t1 & Ht1 & _ & Hw & _); [intros e ->; by eapply store_error, Hc; apply Hr|].
    rewrite Ht in Ht1. injection Ht1 as <-. by rewrite Hw.
  - intros Hw. by eapply room_holds.
  - by destruct b.
Qed.

#[export] Instance write_laws : TaskLaws (E * Z) (Write E).
Proof.
  refine {| sane := write_sane; finished := write_returned; waits := write_waits; act_stuck := write_act_stuck;
            act_returns := λ o s t Hr Hs _, write_act_returns o s t Hr Hs |}.
  - intros o s t s' e t' Hr Hs Hm%write_act_move. by eapply write_move_sane.
  - intros o s t s' e t' Hr Hs Hm%write_act_move. by eapply write_move_holds.
Defined.

Lemma write_ready x tr y : run (world (O := E * Z)) x tr y → ready x.1 → write_sane x.2 →
  ready y.1 ∧ write_sane y.2 ∧ ∃ tr', run step x.1 tr' y.1 ∧ ∀ k v, replay tr' k v = replay tr.*2 k v.
Proof. intros Hr Hx Hs. exact (world_ready (O := E * Z) x tr y Hr Hx Hs). Qed.
End Calls.
