(* ===== verification/KCalls.v ===== *)
(** What the cache's calls promise their callers. *)
From S2P Require Import Prelude Bits BCache KBCache KBCacheSys KBCacheProofs KCacheOps KCacheOpsProofs KSync KSyncBound KReadWrite.
From Stdlib Require Import Strings.Byte.

Section Promises.
Context {E : Type} (fr : list Z) (m d : memory) (h : list event) (s0 : sys).
Context (Hnd : NoDup fr) (Hlen : length fr = SLOTS) (Hboot : run step (boot fr m d) h s0).

Lemma calls_ready : ready s0.
Proof. exact (ready_run _ _ _ (ready_boot fr m d Hnd Hlen) Hboot). Qed.
#[local] Abbreviation Hs0 := calls_ready.

(** ** [read_block] *)

Lemma read_start_sane k : read_sane (E := E) (read_start k).
Proof. exact I. Qed.

Lemma read_key_move o s t s' t' : read_sane (E := E) t → ready s → read_move o s t s' t' → rd_key t' = rd_key t.
Proof.
  intros Hs Hr [e Hpc He|l Hpc He|r c t1 Hpc Hc Ht|p s1 p1 Hpc Hp|b Hpc|e Hpc|Hpc|f ok b s1 Hpc Hf|f s1 Hpc Hf]; try done.
  destruct (claimed_sane o.2 t r Hs Hpc) as (t2 & Ht2 & _ & Hk & _); [intros e ->; by eapply claim_error, Hc; apply Hr|].
  rewrite Ht in Ht2. by injection Ht2 as <-.
Qed.

(** The move that answers with a reference hands out a good one. *)
Lemma read_move_answer o s t s' t' b : ready s → read_sane (E := E) t →
  (read_waits t = true → ∃ o', o' ∈ ios s ∧ mine t o' = true) →
  read_move o s t s' t' → rd_pc t' = RdReturned (Ok b) → refers (rd_key t) b s'.
Proof.
  intros Hr Hs Hh Hm. destruct Hm as [e Hpc He|l Hpc He|r c t1 Hpc Hc Ht|p s1 p1 Hpc Hp|b' Hpc|e Hpc|Hpc|f ok b' s1 Hpc Hf|f s1 Hpc Hf]; try done.
  - intros Hb. destruct (claimed_sane o.2 t r Hs Hpc) as (t2 & Ht2 & _ & _ & Hok & _); [intros e ->; by eapply claim_error, Hc; apply Hr|].
    rewrite Ht in Ht2. injection Ht2 as <-. rewrite (Hok b Hb) in Hc |- *. unfold read_sane in Hs. rewrite Hpc in Hs.
    destruct Hs as [[l Hl] _]. eapply claim_hit; [apply Hr|exact Hl|exact Hc].
  - destruct b'; cbn; by intros [= ].
  - intros [= ->]. unfold read_sane in Hs. rewrite Hpc in Hs. destruct (read_waits t) eqn:Ew; [|unfold read_waits in Ew; by rewrite Hpc in Ew].
    destruct (Hh eq_refl) as (o' & Ho & Hmine). cbn in Hmine. rewrite Hpc in Hmine. destruct o' as [k' f' ph|]; [|done].
    apply bool_decide_eq_true in Hmine as [-> ->]. by eapply fill_hit.
Qed.

(** C14: [read_block] means what it answers, in any concurrent run and with
    any device. A reference it returns is, at some moment of the call,
    counted by the cache, to the block asked for, and shows exactly what the
    stores so far make of the block. A block it refuses for its number or
    device is one the checks of the entry refuse, and the only other
    refusals of its own are a full table and a fill that stalled. *)
Theorem read_block_reads_the_block k tr s t r :
  run (world (O := E * Z)) (s0, read_start k) tr (s, t) → rd_pc t = RdReturned r →
  match r with
  | Ok b => settled s k →
      seen (s0, read_start k) tr (s, t) (λ tr1 s1,
        b ∈ refs s1 ∧ key_of (table (cache s1)) (ref_slot b) = Some k ∧ mem s1 (ref_virt b) = replay (h ++ tr1.*2) k (d (lba k)))
  | Err (CacheErr e) => read_entry k = Err e ∨ (∃ l, read_entry k = Ok l) ∧ (e = Exhausted ∨ e = FillStalled)
  | Err (Device _) => True
  end.
Proof.
  intros Hrun Hpc. destruct (read_ready _ _ _ Hrun Hs0 (read_start_sane k)) as (_ & Hsane & _). cbn [snd] in Hsane.
  set (answered := λ (tr : list (bool * event)) (x : sys * Read E),
    rd_key x.2 = k ∧ ∀ b, rd_pc x.2 = RdReturned (Ok b) → seen (s0, read_start k) tr x (λ _ s1, refers k b s1)).
  assert (answered tr (s, t)) as [Hk Hans].
  { refine (world_ind_end (s0, read_start k) answered _ _ tr (s, t) Hrun); [done|].
    intros pre [s1 t1] [b1 ev] [s2 t2] Hpre [Hk Hold] Hw. cbn [snd] in *.
    destruct (read_ready _ _ _ Hpre Hs0 (read_start_sane k)) as (Hr1 & Hsane1 & _). cbn [fst snd] in Hr1, Hsane1.
    pose proof (read_held _ _ _ Hpre Hs0 (read_start_sane k) eq_refl) as Hheld. cbn [fst snd] in Hheld.
    assert (run (world (O := E * Z)) (s0, read_start k) (pre ++ [(b1, ev)]) (s2, t2)) as Hrun2 by by eapply world_snoc.
    inversion Hw as [o s' t' s'' e' t'' Ha|s' t' e' s'' Hst Hu]; subst.
    - apply read_act_move in Ha as [Hm ->]. pose proof (read_key_move _ _ _ _ _ Hsane1 Hr1 Hm) as Hk2. split; [done|].
      intros b Hb. apply seen_now; [done|]. by eapply (read_move_answer o s1 t1).
    - split; [done|]. intros b Hb. eapply seen_snoc; [by apply Hold|exact Hw]. }
  cbn [snd] in Hk. unfold read_sane in Hsane. rewrite Hpc, Hk in Hsane. destruct r as [b|[e|e]]; [|done|done].
  intros Hset. destruct (Hans b Hpc) as (tr1 & tr2 & x & -> & H1 & H2 & Hb & Hkey & Hv). exists tr1, tr2, x. do 5 (split; [done|]). rewrite Hv.
  destruct (read_ready _ _ _ H1 Hs0 (read_start_sane k)) as (Hrx & Hsx & _).
  refine (world_view (O := E * Z) k h fr m d (s0, read_start k) tr1 x Hnd Hlen Hboot I H1 _ _).
  - revert Hkey. unfold key_of. destruct (_ !! _) as [sl|] eqn:Hi; [|done]. case_bool_decide as Hf; [|done]. intros [= <-].
    by apply (inv_slots _ (proj1 Hrx) _ _ Hi).
  - exact (world_settled (O := E * Z) k x tr2 (s, t) Hrx Hsx H2 Hset).
Qed.

(** ** [write_block] *)

(** What a call stored itself. *)
Definition own_stores (tr : list (bool * event)) : list (BlockKey * list byte) :=
  omap (λ l, match l with (true, EStore k v) => Some (k, v) | _ => None end) tr.

Lemma write_start_sane k v : write_sane (E := E) (write_start k v).
Proof. exact I. Qed.

Definition write_stored (t : Write E) : list (BlockKey * list byte) :=
  match wr_pc t with WrReturned (Ok _) => [(wr_key t, wr_data t)] | _ => [] end.

Lemma write_move_running o s t s' ev t' : write_move (E := E) o s t s' ev t' → write_stored t = [].
Proof. unfold write_stored. by destruct 1 as [? ->|? ->|? ? ? ? ->|? ? ? ->|? ->|? ->| ->]. Qed.

(** A move of [write_block] stores when it answers, and only then. *)
Lemma write_move_stores o s t s' ev t' : ready s → write_sane (E := E) t → write_move o s t s' ev t' → write_stored t = [] →
  wr_key t' = wr_key t ∧ wr_data t' = wr_data t ∧ own_stores [(true, ev)] = write_stored t' ∧
  (write_stored t' ≠ [] → settled s' (wr_key t) → view s' (wr_key t) = wr_data t).
Proof.
  intros Hr Hs Hm Hno.
  destruct Hm as [e Hpc He|l Hpc He|r c m1 t1 Hpc Hc Ht|p s1 p1 Hpc Hp|b Hpc|e Hpc|Hpc]; try done; [|by destruct b].
  destruct (stored_sane o.2 t r Hs Hpc) as (t2 & Ht2 & _ & _ & Hk & Hd & Hans); [intros e ->; by eapply store_error, Hc; apply Hr|].
  rewrite Ht in Ht2. injection Ht2 as <-. split; [done|]. split; [done|]. unfold write_stored.
  destruct Hans as [[[u ->] Hpc1]|[Hnot Hpc1]].
  - rewrite Hpc1, Hk, Hd. split; [done|]. intros _ Hset. unfold write_sane in Hs. rewrite Hpc in Hs. destruct Hs as [[l Hl] _].
    pose proof (write_entry_ok _ _ _ Hl) as (Hdev & _ & _).
    destruct (good_store_step _ _ _ _ _ _ _ (proj1 Hr) Hl Hc) as [_ Hv]. rewrite (Hv (wr_key t) Hdev Hset). cbn. by rewrite decide_True.
  - assert (store_event (wr_key t) (wr_data t) r = ETau) as -> by (destruct r as [[u|]|]; [by destruct (Hnot u)|done|done]).
    destruct (wr_pc t1) as [| | | |[u|]] eqn:Hpc2; try done. by destruct (Hpc1 u).
Qed.

(** C15: [write_block] is all or nothing, in any concurrent run and with any
    device. The call makes exactly one store, of its data at its key, if it
    answers that it did; it makes none while it runs or if it fails. When it
    has answered, there was a moment of the call at which the block's
    content was its data. A write it refuses for its device, length or
    number is one the checks of the entry refuse; its other refusals are a
    full table, I/O that stalled, and readers that do not let go. *)
Theorem write_block_is_all_or_nothing k v tr s t :
  run (world (O := E * Z)) (s0, write_start k v) tr (s, t) →
  own_stores tr = match wr_pc t with WrReturned (Ok _) => [(k, v)] | _ => [] end ∧
  ((∃ u, wr_pc t = WrReturned (Ok u)) → settled s k → seen (s0, write_start k v) tr (s, t) (λ _ s1, view s1 k = v)) ∧
  (∀ e, wr_pc t = WrReturned (Err (CacheErr e)) → write_entry k v = Err e ∨ (∃ l, write_entry k v = Ok l) ∧ busy e).
Proof.
  intros Hrun. destruct (write_ready _ _ _ Hrun Hs0 (write_start_sane k v)) as (_ & Hsane & _). cbn [snd] in Hsane.
  set (kept := λ (tr : list (bool * event)) (x : sys * Write E),
    wr_key x.2 = k ∧ wr_data x.2 = v ∧ own_stores tr = write_stored x.2 ∧
    (write_stored x.2 ≠ [] → seen (s0, write_start k v) tr x (λ _ s1, settled s1 k → view s1 k = v))).
  assert (kept tr (s, t)) as (Hk & Hv & Hst & Hseen).
  { refine (world_ind_end (s0, write_start k v) kept _ _ tr (s, t) Hrun); [done|].
    intros pre [s1 t1] [b1 ev] [s2 t2] Hpre (Hk & Hv & Hst & Hold) Hw. unfold kept. cbn [fst snd] in *.
    destruct (write_ready _ _ _ Hpre Hs0 (write_start_sane k v)) as (Hr1 & Hsane1 & _). cbn [fst snd] in Hr1, Hsane1.
    assert (run (world (O := E * Z)) (s0, write_start k v) (pre ++ [(b1, ev)]) (s2, t2)) as Hrun2 by by eapply world_snoc.
    unfold own_stores. rewrite omap_app. fold (own_stores pre).
    inversion Hw as [o s' t' s'' e' t'' Ha|s' t' e' s'' Hstep Hu]; subst.
    - apply write_act_move in Ha. destruct (write_move_stores _ _ _ _ _ _ Hr1 Hsane1 Ha (write_move_running _ _ _ _ _ _ Ha)) as (Hk2 & Hv2 & Ho & Hview).
      rewrite Hst, (write_move_running _ _ _ _ _ _ Ha). split; [done|]. split; [done|]. split; [exact Ho|].
      intros Hne. apply seen_now; [done|]. by apply Hview.
    - cbn. rewrite app_nil_r. do 3 (split; [done|]). intros Hne. eapply seen_snoc; [by apply Hold|exact Hw]. }
  cbn [snd] in *. split; [|split].
  - rewrite Hst. unfold write_stored. by rewrite Hk, Hv.
  - intros [u Hpc] Hset. destruct Hseen as (tr1 & tr2 & x & -> & H1 & H2 & HP); [unfold write_stored; by rewrite Hpc|].
    exists tr1, tr2, x. do 3 (split; [done|]). apply HP.
    destruct (write_ready _ _ _ H1 Hs0 (write_start_sane k v)) as (Hrx & Hsx & _).
    exact (world_settled (O := E * Z) k x tr2 (s, t) Hrx Hsx H2 Hset).
  - intros e Hpc. unfold write_sane in Hsane. by rewrite Hpc, Hk, Hv in Hsane.
Qed.

(** ** The three of them *)

(** A call that may move, or has returned, or waits for a request that is
    still outstanding. *)
Definition going {O T : Type} `{TaskLaws O T} (o : O) (s : sys) (t : T) : Prop :=
  act o s t ≠ Some Panic ∧
  (act o s t = None → finished t = true ∨
    (∃ q, q ∈ ios s ∧ mine t q = true) ∧ ∀ q, q ∈ ios s → mine t q = true → outstanding q).

Lemma going_on {O T : Type} `{TaskLaws O T} (t0 : T) tr s t (o : O) :
  sane t0 → waits t0 = false → run (world (O := O)) (s0, t0) tr (s, t) → few_refs s → going o s t.
Proof.
  intros Hs Hw Hrun Hfew. destruct (world_ready _ _ _ Hrun Hs0 Hs) as (Hr & Hsane & _). cbn [fst snd] in *.
  split; [by apply act_returns|]. intros Ha. destruct (act_stuck o s t Ha) as [Hf|[Hwt Hout]]; [by left|right]. split; [|done].
  eapply (world_held _ _ _ Hrun Hs0 Hs); [cbn; by rewrite Hw|done].
Qed.

(** C16: No call of the cache panics, and none is lost. In any state that a
    concurrent run reaches with fewer than [2^32 - 1] references alive, a
    [sync], a [read_block] and a [write_block] can each make their next move
    without failing an assertion, an [expect], an [unwrap_err], an index or
    an addition; and a call that has no move has returned, or waits for a
    request of its own that is still outstanding with the driver. *)
Theorem calls_never_panic_nor_get_lost k v tr s :
  few_refs s →
  (∀ t e, run (world (O := E)) (s0, sync_start) tr (s, t) → going e s t) ∧
  (∀ t o, run (world (O := E * Z)) (s0, read_start k) tr (s, t) → going o s t) ∧
  (∀ t o, run (world (O := E * Z)) (s0, write_start k v) tr (s, t) → going o s t).
Proof.
  intros Hfew. split; [|split]; intros t o Hrun.
  - by apply (going_on sync_start tr); [exact sync_start_sane| |exact Hrun|].
  - by apply (going_on (read_start k) tr); [exact I| |exact Hrun|].
  - by apply (going_on (write_start k v) tr); [exact I| |exact Hrun|].
Qed.
End Promises.

(** ** Concrete calls *)

Definition reading : Read unit := mkRead key5 7 0 (RdReturned (Ok (mkRef 0 4096))).

Lemma reading_run : run (world (O := unit * Z)) (stored, read_start key5) [(true, ETau); (true, ETau)] (pinned, reading).
Proof.
  eapply run_cons; [apply (world_own (tt, 7)); vm_compute; reflexivity|]. eapply run_cons; [|constructor].
  apply (world_own (tt, 7)). vm_compute. reflexivity.
Qed.

Lemma read_block_reads_the_block_witness :
  seen (O := unit * Z) (stored, read_start (E := unit) key5) [(true, ETau); (true, ETau)] (pinned, reading) (λ tr1 s1,
    mkRef 0 4096 ∈ refs s1 ∧ key_of (table (cache s1)) 0 = Some key5 ∧ mem s1 4096 = replay ([EStore key5 old_block] ++ tr1.*2) key5 []).
Proof.
  refine (read_block_reads_the_block frames32 zeros zeros [EStore key5 old_block] stored (proj1 frames32_ok) (proj2 frames32_ok) stored_run
    key5 _ pinned reading _ reading_run eq_refl _).
  intros H. by apply elem_of_nil in H.
Defined.

Definition writing : Write unit := mkWrite key5 old_block None None 0 (WrReturned (Ok tt)).

Lemma writing_run : run (world (O := unit * Z)) (boot frames32 zeros zeros, write_start key5 old_block) [(true, ETau); (true, EStore key5 old_block)] (stored, writing).
Proof.
  eapply run_cons; [apply (world_own (tt, 7)); vm_compute; reflexivity|]. eapply run_cons; [|constructor].
  apply (world_own (tt, 7)). vm_compute. reflexivity.
Qed.

Lemma write_block_is_all_or_nothing_witness :
  own_stores [(true, ETau); (true, EStore key5 old_block)] = [(key5, old_block)].
Proof.
  exact (proj1 (write_block_is_all_or_nothing frames32 zeros zeros [] (boot frames32 zeros zeros) (proj1 frames32_ok) (proj2 frames32_ok) (run_nil _ _)
    key5 old_block _ stored writing writing_run)).
Defined.

Lemma calls_never_panic_nor_get_lost_witness : going (tt, 7) pinned reading.
Proof.
  refine (proj1 (proj2 (calls_never_panic_nor_get_lost frames32 zeros zeros [EStore key5 old_block] stored (proj1 frames32_ok) (proj2 frames32_ok) stored_run
    key5 old_block [(true, ETau); (true, ETau)] pinned _)) reading (tt, 7) reading_run).
  vm_compute. reflexivity.
Defined.
