(* ===== verification/Text.v ===== *)
(** Text as the package tool handles it: a [str] is its UTF-8 bytes.

    Every separator the tool looks for is ASCII, and no byte of a multi-byte
    sequence is, so searching and splitting bytes is searching and splitting
    characters. *)
From S2P Require Import Prelude Bits.
From Stdlib Require Import Strings.Byte.
From stdpp Require Export strings.
#[global] Open Scope Z_scope.

Definition text := list byte.
Definition lit (s : string) : text := String.list_byte_of_string s.

Definition byte_of_N (n : N) : byte := default x00 (Byte.of_N n).
Lemma byte_of_to_N b : byte_of_N (Byte.to_N b) = b.
Proof. unfold byte_of_N. by rewrite Byte.of_to_N. Qed.
#[export] Instance byte_countable : Countable byte := inj_countable' Byte.to_N byte_of_N byte_of_to_N.

Definition LF : byte := x0a.
Definition CR : byte := x0d.

(** [starts_with], [strip_prefix], [strip_suffix], [find], [contains],
    [split_once]. *)
Fixpoint starts_with (p s : text) : bool :=
  match p, s with
  | [], _ => true
  | _, [] => false
  | c :: p', d :: s' => bool_decide (c = d) && starts_with p' s'
  end.
Definition strip_prefix (p s : text) : option text := if starts_with p s then Some (drop (length p) s) else None.
Definition ends_with (p s : text) : bool := starts_with (reverse p) (reverse s).
Definition strip_suffix (p s : text) : option text := if ends_with p s then Some (take (length s - length p) s) else None.
Fixpoint find (p s : text) : option nat :=
  if starts_with p s then Some 0%nat else match s with [] => None | _ :: s' => S <$> find p s' end.
Definition contains (p s : text) : bool := match find p s with Some _ => true | None => false end.
Definition split_once (p s : text) : option (text * text) :=
  i ← find p s; Some (take i s, drop (i + length p) s).

(** [split] on one byte: a segment more than there are separators. *)
Fixpoint split (c : byte) (s : text) : list text :=
  match s with
  | [] => [[]]
  | x :: s' =>
      if bool_decide (x = c) then [] :: split c s'
      else match split c s' with [] => [[x]] | seg :: segs => (x :: seg) :: segs end
  end.

(** [lines]: a line feed ends a line, with the carriage return before it; a
    last line may do without. *)
Definition strip_cr (s : text) : text := default s (strip_suffix [CR] s).
Fixpoint lines_of (segs : list text) : list text :=
  match segs with
  | [] => []
  | [last] => if bool_decide (last = []) then [] else [last]
  | seg :: segs' => strip_cr seg :: lines_of segs'
  end.
Definition lines (s : text) : list text := lines_of (split LF s).

(** White space, as far as ASCII goes. *)
Definition is_space (c : byte) : bool := bool_decide (c ∈ [x09; x0a; x0b; x0c; x0d; x20]).
Fixpoint trim_start (s : text) : text :=
  match s with [] => [] | c :: s' => if is_space c then trim_start s' else s end.
Definition trim (s : text) : text := reverse (trim_start (reverse (trim_start s))).

(** ** Lemmas *)

Lemma starts_with_app p s : starts_with p (p ++ s) = true.
Proof. induction p as [|c p IH]; [by destruct s|]. cbn. by rewrite bool_decide_eq_true_2. Qed.

Lemma starts_with_spec p s : starts_with p s = true ↔ ∃ r, s = p ++ r.
Proof.
  split; [|intros [r ->]; apply starts_with_app]. revert s. induction p as [|c p IH]; intros s; [by exists s|].
  destruct s as [|d s]; [done|]. cbn. intros [->%bool_decide_eq_true H]%andb_true_iff. destruct (IH s H) as [r ->]. by exists r.
Qed.

Lemma strip_prefix_app p s : strip_prefix p (p ++ s) = Some s.
Proof. unfold strip_prefix. by rewrite starts_with_app, drop_app_length. Qed.

Lemma strip_prefix_spec p s r : strip_prefix p s = Some r ↔ s = p ++ r.
Proof.
  unfold strip_prefix. split; [|intros ->; by rewrite starts_with_app, drop_app_length].
  destruct (starts_with p s) eqn:E; [|done]. apply starts_with_spec in E as [x ->]. rewrite drop_app_length. by intros [= ->].
Qed.

Lemma strip_suffix_app p s : strip_suffix p (s ++ p) = Some s.
Proof.
  unfold strip_suffix, ends_with. rewrite reverse_app, starts_with_app, length_app. f_equal.
  replace (length s + length p - length p)%nat with (length s) by lia. by rewrite take_app_length.
Qed.

Lemma find_Some p s i : find p s = Some i → ∃ a b, s = a ++ p ++ b ∧ length a = i.
Proof.
  revert i. induction s as [|c s IH]; intros i; cbn [find]; destruct (starts_with p _) eqn:E.
  1, 3: intros [= <-]; apply starts_with_spec in E as [r ->]; by exists [], r.
  - done.
  - destruct (find p s) as [j|]; [|done]. intros [= <-]. destruct (IH j eq_refl) as (a & b & -> & <-). by exists (c :: a), b.
Qed.

Lemma find_app_le p a b : ∃ i, find p (a ++ p ++ b) = Some i ∧ (i ≤ length a)%nat.
Proof.
  induction a as [|c a IH]; cbn [app].
  - exists 0%nat. split; [|done]. destruct (p ++ b) eqn:E; cbn [find]; rewrite <- ?E; by rewrite starts_with_app.
  - cbn [find]. destruct (starts_with p (c :: a ++ p ++ b)); [exists 0%nat; split; [done|cbn; lia]|].
    destruct IH as (i & -> & Hi). exists (S i). split; [done|cbn; lia].
Qed.

Lemma contains_text p s : contains p s = true ↔ ∃ a b, s = a ++ p ++ b.
Proof.
  unfold contains. split.
  - destruct (find p s) as [i|] eqn:E; [|done]. intros _. destruct (find_Some _ _ _ E) as (a & b & -> & _). by exists a, b.
  - intros (a & b & ->). by destruct (find_app_le p a b) as (i & -> & _).
Qed.

(** The first byte of the pattern does not occur before. *)
Lemma find_at c p a b : c ∉ a → find (c :: p) (a ++ (c :: p) ++ b) = Some (length a).
Proof.
  induction a as [|d a IH]; intros Hn.
  - cbn [app length find]. change (c :: p ++ b) with ((c :: p) ++ b). by rewrite starts_with_app.
  - apply not_elem_of_cons in Hn as [Hd Hn]. cbn [app find starts_with]. rewrite bool_decide_eq_false_2 by done. cbn [andb].
    change ((c :: p) ++ b) with (c :: p ++ b) in IH. by rewrite IH.
Qed.

Lemma find_none c p s : c ∉ s → find (c :: p) s = None.
Proof.
  induction s as [|d s IH]; intros Hn; [done|]. apply not_elem_of_cons in Hn as [Hd Hn]. cbn.
  rewrite bool_decide_eq_false_2 by done. cbn. by rewrite IH.
Qed.

Lemma split_once_at c p a b : c ∉ a → split_once (c :: p) (a ++ (c :: p) ++ b) = Some (a, b).
Proof.
  intros Hn. unfold split_once. rewrite find_at by done. cbn [mbind option_bind].
  rewrite take_app_length. do 2 f_equal. rewrite drop_app. rewrite drop_ge by lia.
  replace (length a + length (c :: p) - length a)%nat with (length (c :: p)) by lia. rewrite app_nil_l. apply drop_app_length.
Qed.

Lemma split_none c s : c ∉ s → split c s = [s].
Proof.
  induction s as [|x s IH]; intros Hn; [done|]. apply not_elem_of_cons in Hn as [Hx Hn]. cbn.
  rewrite bool_decide_eq_false_2 by congruence. by rewrite IH.
Qed.

Lemma split_app c s r : c ∉ s → split c (s ++ c :: r) = s :: split c r.
Proof.
  induction s as [|x s IH]; intros Hn; cbn; [by rewrite bool_decide_eq_true_2|].
  apply not_elem_of_cons in Hn as [Hx Hn]. rewrite bool_decide_eq_false_2 by congruence. by rewrite IH.
Qed.

Lemma split_ne c s : split c s ≠ [].
Proof. destruct s as [|x s]; [done|]. cbn. case_bool_decide; [done|]. by destruct (split c s). Qed.

(** A line that comes back as it was written. *)
Definition one_line (s : text) : Prop := (LF ∉ s) ∧ ends_with [CR] s = false.

Lemma lines_cons l r : one_line l → lines (l ++ LF :: r) = l :: lines r.
Proof.
  intros [Hl Hcr]. unfold lines. rewrite split_app by done. cbn [lines_of].
  destruct (split LF r) as [|seg segs] eqn:E; [by apply split_ne in E|]. f_equal.
  unfold strip_cr, strip_suffix. by rewrite Hcr.
Qed.

Lemma lines_unlines ls : Forall one_line ls → lines (mjoin ((λ l, l ++ [LF]) <$> ls)) = ls.
Proof.
  induction 1 as [|l ls Hl _ IH]; [done|]. cbn [fmap list_fmap mjoin list_join]. rewrite <- app_assoc. cbn [app].
  change (l ++ LF :: mjoin ((λ l, l ++ [LF]) <$> ls)) with (l ++ LF :: mjoin ((λ l, l ++ [LF]) <$> ls)). by rewrite lines_cons, IH.
Qed.

Lemma ends_with_snoc c s d : ends_with [c] (s ++ [d]) = bool_decide (c = d).
Proof. unfold ends_with. rewrite reverse_snoc. cbn. by rewrite andb_true_r. Qed.
