(* ===== verification/PkgMeta.v ===== *)
(** What the package tool reads: [qpkg/src/pkgbuild.rs] and
    [qpkg/src/repodb.rs].

    Bash evaluates a PKGBUILD and prints its variables; here is the reading of
    what it prints, and the reading of one [desc] file of a repository
    database.  An [Error::Extraction] is told by what went wrong.  Spawning
    bash, decompressing and walking the tar are not modelled. *)
From S2P Require Import Prelude Bits Text.
From Stdlib Require Import Strings.Byte.

(** ** [repodb.rs] *)

Inductive Repo := Core | Extra | Aur.
Record PackageRecord := mkRecord
  { name : text; version : text; repo : Repo; package_base : text; description : text; url : text;
    depends : list text; makedepends : list text }.

#[export] Instance Repo_eq_dec : EqDecision Repo.
Proof. solve_decision. Defined.

(** The locals of [parse_desc]. *)
Record Desc := mkDesc
  { d_field : option text; d_name : option text; d_base : option text; d_version : option text;
    d_description : text; d_url : text; d_depends : list text; d_makedepends : list text }.
Definition desc_start : Desc := mkDesc None None None None [] [] [] [].

Definition set_field (d : Desc) (f : option text) : Desc :=
  mkDesc f (d_name d) (d_base d) (d_version d) (d_description d) (d_url d) (d_depends d) (d_makedepends d).

(** [%FIELD%]. *)
Definition header_of (line : text) : option text :=
  if starts_with (lit "%") line && ends_with (lit "%") line && (2 <? length line)%nat
  then Some (take (length line - 2) (drop 1 line)) else None.

Definition put_line (d : Desc) (line : text) : Desc :=
  match d_field d with
  | None => d
  | Some f =>
      if bool_decide (f = lit "NAME") then mkDesc (d_field d) (Some line) (d_base d) (d_version d) (d_description d) (d_url d) (d_depends d) (d_makedepends d)
      else if bool_decide (f = lit "BASE") then mkDesc (d_field d) (d_name d) (Some line) (d_version d) (d_description d) (d_url d) (d_depends d) (d_makedepends d)
      else if bool_decide (f = lit "VERSION") then mkDesc (d_field d) (d_name d) (d_base d) (Some line) (d_description d) (d_url d) (d_depends d) (d_makedepends d)
      else if bool_decide (f = lit "DESC") then mkDesc (d_field d) (d_name d) (d_base d) (d_version d) line (d_url d) (d_depends d) (d_makedepends d)
      else if bool_decide (f = lit "URL") then mkDesc (d_field d) (d_name d) (d_base d) (d_version d) (d_description d) line (d_depends d) (d_makedepends d)
      else if bool_decide (f = lit "DEPENDS") then mkDesc (d_field d) (d_name d) (d_base d) (d_version d) (d_description d) (d_url d) (d_depends d ++ [line]) (d_makedepends d)
      else if bool_decide (f = lit "MAKEDEPENDS") then mkDesc (d_field d) (d_name d) (d_base d) (d_version d) (d_description d) (d_url d) (d_depends d) (d_makedepends d ++ [line])
      else d
  end.

Definition desc_line (d : Desc) (line : text) : Desc :=
  if bool_decide (line = []) then set_field d None else
  match header_of line with
  | Some f => set_field d (Some f)
  | None => put_line d line
  end.

(** [parse_desc]. *)
Definition parse_desc (s : text) (r : Repo) : option PackageRecord :=
  let d := fold_left desc_line (lines s) desc_start in
  name ← d_name d;
  version ← d_version d;
  Some (mkRecord name version r (default name (d_base d)) (d_description d) (d_url d) (d_depends d) (d_makedepends d)).

(** ** [pkgbuild.rs] *)

Record Pkgbuild := mkPkgbuild
  { pkgname : list text; pkgver : text; pkgrel : text; epoch : option text; arch : list text; source : list text;
    sha256sums : list text; b2sums : list text; pb_depends : list text; pb_makedepends : list text;
    functions : gset text }.

Definition full_version (p : Pkgbuild) : text :=
  match epoch p with
  | Some e => e ++ lit ":" ++ pkgver p ++ lit "-" ++ pkgrel p
  | None => pkgver p ++ lit "-" ++ pkgrel p
  end.

Inductive ExtractError :=
  | UsesDollarQuoting (n : text) | NotAnArray (n : text) | MalformedElement (n : text) | UnquotedElement (n : text)
  | Unterminated (n : text) | TrailingContent (n : text) | NoPkgname | NoPkgver
  | UnsupportedArch (n : text) (arches : list text).

(** [check_arch]; [pkgname] is indexed. *)
Definition check_arch (p : Pkgbuild) : outcome (result unit ExtractError) :=
  if existsb (λ a, bool_decide (a = lit "x86_64") || bool_decide (a = lit "any")) (arch p) then Ret (Ok tt)
  else n ← index (pkgname p) 0; Ret (Err (UnsupportedArch n (arch p))).

Inductive Value := Scalar (s : text) | Array (l : list text).

Definition BACKSLASH : byte := x5c.
Definition QUOTE : byte := x22.

(** [take_quoted]: the value, and what follows the closing quote. *)
Fixpoint take_quoted (n value s : text) : result (text * text) ExtractError :=
  match s with
  | [] => Err (Unterminated n)
  | c :: s' =>
      if bool_decide (c = BACKSLASH) then
        match s' with
        | [] => Err (Unterminated n)
        | next :: s'' => take_quoted n (value ++ [next]) s''
        end
      else if bool_decide (c = QUOTE) then Ok (value, s')
      else take_quoted n (value ++ [c]) s'
  end.

(** [unescape]. *)
Definition unescape (n s : text) : result text ExtractError :=
  match take_quoted n [] s with
  | Err e => Err e
  | Ok (value, rest) => if bool_decide (rest = []) then Ok value else Err (TrailingContent n)
  end.

(** [parse_scalar]. *)
Definition parse_scalar (n raw : text) : result text ExtractError :=
  match strip_prefix [QUOTE] raw with
  | Some quoted => unescape n quoted
  | None => if starts_with (lit "$'") raw then Err (UsesDollarQuoting n) else Ok raw
  end.

(** The loop of [parse_array]; a turn consumes an element. *)
Fixpoint parse_elements (fuel : nat) (n rest : text) (out : list text) : outcome (result (list text) ExtractError) :=
  match fuel with
  | O => Panic
  | S fuel' =>
      match find (lit "[") rest with
      | None => Ret (Ok out)
      | Some open =>
          match find (lit "]=") (drop open rest) with
          | None => Ret (Err (MalformedElement n))
          | Some close =>
              let after := drop (open + close + 2) rest in
              if starts_with (lit "$'") after then Ret (Err (UsesDollarQuoting n)) else
              match strip_prefix [QUOTE] after with
              | None => Ret (Err (UnquotedElement n))
              | Some quoted =>
                  match take_quoted n [] quoted with
                  | Err e => Ret (Err e)
                  | Ok (value, rest') => parse_elements fuel' n rest' (out ++ [value])
                  end
              end
          end
      end
  end.

(** [parse_array]. *)
Definition parse_array (n raw : text) : outcome (result (list text) ExtractError) :=
  match s ← strip_prefix (lit "(") raw; strip_suffix (lit ")") s with
  | None => Ret (Err (NotAnArray n))
  | Some inner => parse_elements (S (length inner)) n inner []
  end.

(** One line of the transcript. *)
Definition Vars := gmap text Value.
Definition transcript_line (vars : Vars) (funs : gset text) (line : text)
    : outcome (result (Vars * gset text) ExtractError) :=
  match strip_prefix (lit "declare ") line with
  | None => Ret (Ok (vars, funs))
  | Some rest =>
      let '(flags, body) := default (rest, []) (split_once (lit " ") rest) in
      if bool_decide (flags = lit "-f") then Ret (Ok (vars, {[trim body]} ∪ funs)) else
      match split_once (lit "=") body with
      | None => Ret (Ok (vars, funs))
      | Some (n, raw) =>
          if contains (lit "a") flags || contains (lit "A") flags then
            r ← parse_array n raw;
            Ret (match r with Ok l => Ok (<[n := Array l]> vars, funs) | Err e => Err e end)
          else
            Ret (match parse_scalar n raw with Ok s => Ok (<[n := Scalar s]> vars, funs) | Err e => Err e end)
      end
  end.

Fixpoint transcript_lines (vars : Vars) (funs : gset text) (l : list text) : outcome (result (Vars * gset text) ExtractError) :=
  match l with
  | [] => Ret (Ok (vars, funs))
  | line :: l' =>
      r ← transcript_line vars funs line;
      match r with Ok (vars, funs) => transcript_lines vars funs l' | Err e => Ret (Err e) end
  end.

(** The closures [scalar] and [array]. *)
Definition scalar (vars : Vars) (n : text) : option text :=
  match vars !! n with
  | Some (Scalar s) => Some s
  | Some (Array a) => head a
  | None => None
  end.
Definition array (vars : Vars) (n : text) : list text :=
  match vars !! n with
  | Some (Array a) => a
  | Some (Scalar s) => [s]
  | None => []
  end.

(** The record at the end of [parse_transcript]. *)
Definition assemble (vars : Vars) (funs : gset text) : result Pkgbuild ExtractError :=
  let pkgname := array vars (lit "pkgname") in
  if bool_decide (pkgname = []) then Err NoPkgname else
  match scalar vars (lit "pkgver") with
  | None => Err NoPkgver
  | Some pkgver =>
      Ok (mkPkgbuild pkgname pkgver (default (lit "1") (scalar vars (lit "pkgrel"))) (scalar vars (lit "epoch"))
            (array vars (lit "arch")) (array vars (lit "source")) (array vars (lit "sha256sums")) (array vars (lit "b2sums"))
            (array vars (lit "depends")) (array vars (lit "makedepends")) funs)
  end.

(** [parse_transcript]. *)
Definition parse_transcript (s : text) : outcome (result Pkgbuild ExtractError) :=
  r ← transcript_lines ∅ ∅ (lines s);
  Ret (match r with Ok (vars, funs) => assemble vars funs | Err e => Err e end).

(** * What holds of it

    Theorems about [PkgMeta]: what bash and pacman write is read back. *)

(** ** Quoting, as bash does it *)

Definition must_escape (c : byte) : bool := bool_decide (c ∈ [QUOTE; BACKSLASH; x24; x60]).
Definition escape (v : text) : text := v ≫= λ c, if must_escape c then [BACKSLASH; c] else [c].
Definition quoted (v : text) : text := QUOTE :: escape v ++ [QUOTE].

Lemma take_quoted_escape n v : ∀ acc rest, take_quoted n acc (escape v ++ QUOTE :: rest) = Ok (acc ++ v, rest).
Proof.
  induction v as [|c v IH]; intros acc rest.
  { cbn. by rewrite app_nil_r. }
  change (escape (c :: v)) with ((if must_escape c then [BACKSLASH; c] else [c]) ++ escape v).
  rewrite <- app_assoc. destruct (must_escape c) eqn:E.
  - cbn. rewrite IH, <- app_assoc. done.
  - apply bool_decide_eq_false in E. cbn. rewrite !bool_decide_eq_false_2, IH, <- app_assoc by set_solver. done.
Qed.

Lemma escape_elem c v : c ∈ escape v → c ∈ v ∨ c = BACKSLASH.
Proof.
  intros (d & Hd & Hc)%list_elem_of_bind. destruct (must_escape d); set_solver.
Qed.

(** An index, in decimal. *)
Definition digit (n : nat) : byte := z2b (48 + Z.of_nat n).
Fixpoint decimal_from (fuel n : nat) (acc : text) : text :=
  let acc := digit (n mod 10) :: acc in
  match fuel with
  | O => acc
  | S fuel' => if (n <? 10)%nat then acc else decimal_from fuel' (n / 10) acc
  end.
Definition decimal (n : nat) : text := decimal_from n n [].

Definition is_digit (c : byte) : Prop := 48 ≤ b2z c ≤ 57.

Lemma decimal_digits n : Forall is_digit (decimal n).
Proof.
  unfold decimal. generalize n at 1 as fuel. assert (Forall is_digit []) as Ha by constructor. revert Ha. generalize (@nil byte) as acc.
  intros acc Ha fuel. revert n acc Ha. induction fuel as [|fuel IH]; intros n acc Ha; cbn [decimal_from].
  1, 2: assert (Forall is_digit (digit (n mod 10) :: acc)) as Hd.
  1, 3: constructor; [|done]; unfold is_digit, digit; rewrite b2z_z2b; pose proof (Nat.mod_upper_bound n 10 ltac:(lia));
    rewrite Z.mod_small by lia; lia.
  - exact Hd.
  - destruct (n <? 10)%nat; [exact Hd|by apply IH].
Qed.

Lemma not_a_digit c l : Forall is_digit l → ¬ is_digit c → c ∉ l.
Proof. intros Hl Hc Hin. by apply Hc, (proj1 (Forall_forall _ _) Hl). Qed.

(** ** Arrays *)

Definition element (i : nat) (v : text) : text := lit "[" ++ decimal i ++ lit "]=" ++ quoted v.
Fixpoint elements (i : nat) (l : list text) : text :=
  match l with
  | [] => []
  | [v] => element i v
  | v :: l' => element i v ++ lit " " ++ elements (S i) l'
  end.
Definition array_text (l : list text) : text := lit "(" ++ elements 0 l ++ lit ")".

(** What separates an element from the one before. *)
Definition blank (s : text) : Prop := s = [] ∨ s = lit " ".

Lemma parse_one fuel n s i v rest out : blank s →
  parse_elements (S fuel) n (s ++ element i v ++ rest) out = parse_elements fuel n rest (out ++ [v]).
Proof.
  intros Hs. unfold element, quoted. rewrite <- !app_assoc. cbn [parse_elements].
  change (lit "[") with [x5b]. rewrite (find_at x5b []) by (destruct Hs as [-> | ->]; vm_compute; set_solver).
  rewrite drop_app_length.
  assert (x5d ∉ [x5b] ++ decimal i) as Hn.
  { apply not_elem_of_app. split; [by vm_compute; set_solver|]. apply (not_a_digit _ _ (decimal_digits i)). unfold is_digit. change (b2z x5d) with 93. lia. }
  change (lit "]=") with [x5d; x3d].
  rewrite (app_assoc [x5b]). rewrite (find_at x5d [x3d]) by exact Hn.
  assert (∀ y, drop (length s + length ([x5b] ++ decimal i) + 2) (s ++ ([x5b] ++ decimal i) ++ [x5d; x3d] ++ y) = y) as Hd.
  { intros y. rewrite !app_assoc. rewrite <- (app_assoc (s ++ [x5b])), <- app_assoc, <- (app_assoc s).
    replace (length s + length ([x5b] ++ decimal i) + 2)%nat with (length (s ++ ([x5b] ++ decimal i) ++ [x5d; x3d]));
      [|rewrite !length_app; cbn [length]; lia].
    rewrite !app_assoc. apply drop_app_length. }
  rewrite Hd. change (QUOTE :: escape v ++ [QUOTE]) with ([QUOTE] ++ escape v ++ [QUOTE]). rewrite <- !(app_assoc [QUOTE]).
  change (starts_with (lit "$'") ([QUOTE] ++ (escape v ++ [QUOTE]) ++ rest)) with false. cbn iota.
  rewrite strip_prefix_app, <- app_assoc. cbn [app]. by rewrite take_quoted_escape.
Qed.

Definition gap (l : list text) : text := if bool_decide (l = []) then [] else lit " ".

Lemma elements_cons i v l : elements i (v :: l) = element i v ++ gap l ++ elements (S i) l.
Proof. unfold gap. destruct l; [by rewrite !app_nil_r|]. by rewrite bool_decide_eq_false_2. Qed.

Lemma parse_elements_print fuel n l : ∀ i out s, blank s → (length l < fuel)%nat → (l = [] → s = []) →
  parse_elements fuel n (s ++ elements i l) out = Ret (Ok (out ++ l)).
Proof.
  revert fuel. induction l as [|v l IH]; intros fuel i out s Hs Hf Hnil; (destruct fuel as [|fuel]; [cbn in Hf; lia|]).
  { rewrite Hnil by done. cbn. by rewrite app_nil_r. }
  rewrite elements_cons. unfold gap. rewrite parse_one by done. rewrite IH; [by rewrite <- app_assoc|..].
  - case_bool_decide; [by left|by right].
  - cbn in Hf. lia.
  - intros ->. by rewrite bool_decide_eq_true_2.
Qed.

Lemma length_element i v : (1 ≤ length (element i v))%nat.
Proof. cbn. lia. Qed.

Lemma length_elements i l : (length l ≤ length (elements i l))%nat.
Proof.
  revert i. induction l as [|v l IH]; intros i; [done|]. pose proof (length_element i v). specialize (IH (S i)).
  rewrite elements_cons, !length_app. cbn [length]. lia.
Qed.

Lemma parse_array_print n l : parse_array n (array_text l) = Ret (Ok l).
Proof.
  unfold parse_array, array_text. rewrite strip_prefix_app. cbn [mbind option_bind]. rewrite strip_suffix_app.
  pose proof (length_elements 0 l). change (elements 0 l) with ([] ++ elements 0 l) at 2.
  by rewrite parse_elements_print by (by left || lia || done).
Qed.

(** The loop ends on any input. *)
Lemma take_quoted_shorter n s : ∀ acc v rest, take_quoted n acc s = Ok (v, rest) → (length rest < length s)%nat.
Proof.
  induction s as [s IH] using (induction_ltof1 _ length). unfold ltof in IH. intros acc v rest. destruct s as [|c s]; cbn [take_quoted]; [done|].
  case_bool_decide; [|case_bool_decide].
  - destruct s as [|next s]; [done|]. intros Hq%IH; [cbn; lia|cbn; lia].
  - intros [= <- <-]. cbn. lia.
  - intros Hq%IH; [cbn; lia|cbn; lia].
Qed.

Lemma parse_elements_total fuel n : ∀ rest out, (length rest < fuel)%nat → ∃ r, parse_elements fuel n rest out = Ret r.
Proof.
  induction fuel as [|fuel IH]; intros rest out Hf; [lia|]. cbn [parse_elements].
  destruct (find (lit "[") rest) as [open|]; [|eauto]. destruct (find (lit "]=") _) as [close|]; [|eauto].
  destruct (starts_with _ _); [eauto|]. destruct (strip_prefix _ _) as [q|] eqn:Eq; [|eauto].
  destruct (take_quoted n [] q) as [[v rest']|e] eqn:Et; [|eauto]. apply IH.
  apply take_quoted_shorter in Et. apply strip_prefix_spec in Eq. pose proof (length_drop rest (open + close + 2)) as Hl.
  rewrite Eq, length_app in Hl. cbn [length] in Hl. lia.
Qed.

Lemma parse_array_total n raw : ∃ r, parse_array n raw = Ret r.
Proof. unfold parse_array. destruct (_ ≫= _) as [inner|]; [|eauto]. apply parse_elements_total. lia. Qed.

Lemma transcript_total ls : ∀ vars funs, ∃ r, transcript_lines vars funs ls = Ret r.
Proof.
  induction ls as [|l ls IH]; intros vars funs; cbn [transcript_lines]; [eauto|]. unfold transcript_line.
  destruct (strip_prefix _ l) as [rest|]; [|cbn; apply IH]. destruct (default _ _) as [flags body].
  case_bool_decide; [cbn; apply IH|]. destruct (split_once _ body) as [[n raw]|]; [|cbn; apply IH].
  destruct (_ || _).
  - destruct (parse_array_total n raw) as [[l'|e] ->]; cbn; [apply IH|eauto].
  - destruct (parse_scalar n raw); cbn; [apply IH|eauto].
Qed.

(** ** A transcript, as bash prints it *)

Record Declaration := mkDecl { dc_flags : text; dc_name : text; dc_value : Value }.

Definition value_text (v : Value) : text := match v with Scalar s => quoted s | Array l => array_text l end.
Definition decl_line (d : Declaration) : text :=
  lit "declare " ++ dc_flags d ++ lit " " ++ dc_name d ++ lit "=" ++ value_text (dc_value d).
(** A function has a name and the attributes bash prints after the [f]: none,
    or an [x] if it is exported. *)
Definition fun_line (f : text * text) : text := lit "declare -f" ++ fst f ++ lit " " ++ snd f.
Definition transcript (ds : list Declaration) (fs : list (text * text)) : text :=
  mjoin ((λ l, l ++ [LF]) <$> (decl_line <$> ds) ++ (fun_line <$> fs)).

(** Attributes, names and values that are printed in this form.  [extract]
    runs bash under [LC_ALL=C], where it prints a value with any byte that is
    not printable ASCII between [$'] and ['] instead. *)
Definition printable (c : byte) : Prop := 32 ≤ b2z c ≤ 126.
Definition value_printed (flags : text) (v : Value) : Prop :=
  match v with
  | Scalar s => Forall printable s ∧ (x61 ∉ flags) ∧ (x41 ∉ flags)
  | Array l => Forall (Forall printable) l ∧ x61 ∈ flags
  end.
Definition decl_ok (d : Declaration) : Prop :=
  (x20 ∉ dc_flags d) ∧ (LF ∉ dc_flags d) ∧ dc_flags d ≠ lit "-f" ∧ (x3d ∉ dc_name d) ∧ (LF ∉ dc_name d) ∧
  value_printed (dc_flags d) (dc_value d).
Definition fun_ok (f : text * text) : Prop :=
  (x20 ∉ fst f) ∧ (LF ∉ fst f) ∧ snd f ≠ [] ∧ Forall (λ c, is_space c = false) (snd f) ∧ (fst f ≠ [] → x3d ∉ snd f).

Lemma printable_no_lf s : Forall printable s → LF ∉ s.
Proof. intros Hs Hin. apply (proj1 (Forall_forall _ _) Hs) in Hin. unfold printable in Hin. change (b2z LF) with 10 in Hin. lia. Qed.

Lemma lit_contains c f : contains [c] f = true ↔ c ∈ f.
Proof.
  rewrite contains_text. split; [intros (a & b & ->); set_solver|]. intros (a & b & ->)%list_elem_of_split. by exists a, b.
Qed.

Lemma not_contains c f : c ∉ f → contains [c] f = false.
Proof. intros Hc. apply not_true_iff_false. by rewrite lit_contains. Qed.

Lemma no_lf_escape v : LF ∉ v → LF ∉ escape v.
Proof. intros Hv [H|H]%escape_elem; [done|]. by vm_compute in H. Qed.

Lemma no_lf_quoted v : LF ∉ v → LF ∉ quoted v.
Proof.
  intros Hv. unfold quoted. apply not_elem_of_cons. split; [by vm_compute|]. apply not_elem_of_app. split; [by apply no_lf_escape|].
  by vm_compute; set_solver.
Qed.

Lemma no_lf_element i v : LF ∉ v → LF ∉ element i v.
Proof.
  intros Hv. unfold element. rewrite !not_elem_of_app. split; [by vm_compute; set_solver|]. split; [|split; [by vm_compute; set_solver|by apply no_lf_quoted]].
  apply (not_a_digit _ _ (decimal_digits i)). unfold is_digit. change (b2z LF) with 10. lia.
Qed.

Lemma no_lf_elements i l : (∀ s, s ∈ l → LF ∉ s) → LF ∉ elements i l.
Proof.
  revert i. induction l as [|v l IH]; intros i Hl; [apply not_elem_of_nil|].
  assert (LF ∉ element i v) as Hv by (apply no_lf_element, Hl; left).
  rewrite elements_cons. rewrite !not_elem_of_app. split; [done|]. split; [unfold gap; case_bool_decide; by vm_compute; set_solver|].
  apply IH. intros s Hs. apply Hl. by right.
Qed.

Lemma no_lf_value v : (match v with Scalar s => LF ∉ s | Array l => ∀ s, s ∈ l → LF ∉ s end) → LF ∉ value_text v.
Proof.
  destruct v as [s|l]; cbn [value_text]; [apply no_lf_quoted|]. intros Hl. unfold array_text.
  rewrite !not_elem_of_app. split; [by vm_compute; set_solver|]. split; [by apply no_lf_elements|by vm_compute; set_solver].
Qed.

Lemma value_text_end v : ∃ a c, value_text v = a ++ [c] ∧ c ≠ CR.
Proof.
  destruct v as [s|l]; [exists (QUOTE :: escape s), QUOTE|exists (lit "(" ++ elements 0 l), x29]; by split.
Qed.

Lemma decl_one_line d : decl_ok d → one_line (decl_line d).
Proof.
  intros (_ & Hf & _ & _ & Hn & Hv). split.
  - unfold decl_line. rewrite !not_elem_of_app. repeat (split; [first [done|by vm_compute; set_solver]|]). apply no_lf_value.
    destruct (dc_value d); destruct Hv as [Hv _]; [by apply printable_no_lf|]. intros s Hs. by apply printable_no_lf, (proj1 (Forall_forall _ _) Hv).
  - unfold decl_line. destruct (value_text_end (dc_value d)) as (a & c & -> & Hc). rewrite !app_assoc, ends_with_snoc.
    by rewrite bool_decide_eq_false_2.
Qed.

Lemma trim_start_none f : Forall (λ c, is_space c = false) f → trim_start f = f.
Proof. destruct 1 as [|c f Hc _]; [done|]. cbn. by rewrite Hc. Qed.

Lemma trim_none f : Forall (λ c, is_space c = false) f → trim f = f.
Proof.
  intros Hf. unfold trim. rewrite (trim_start_none f) by done. rewrite (trim_start_none (reverse f)); [by apply reverse_involutive|].
  apply Forall_forall. intros c Hc. apply (proj1 (Forall_forall _ _) Hf c). by apply elem_of_reverse.
Qed.

Lemma fun_one_line f : fun_ok f → one_line (fun_line f).
Proof.
  destruct f as [at_ f]. intros (_ & Ha & Hne & Hf & _). cbn [fst snd] in *. rewrite Forall_forall in Hf. split.
  - unfold fun_line. cbn [fst snd]. rewrite !not_elem_of_app. repeat (split; [first [done|by vm_compute; set_solver]|]).
    intros Hin%Hf. by vm_compute in Hin.
  - destruct f as [|c f _] using rev_ind; [done|]. unfold fun_line. cbn [fst snd]. rewrite !app_assoc, ends_with_snoc, bool_decide_eq_false_2; [done|].
    intros <-. assert (is_space CR = false) as Hc by (apply Hf; set_solver). by vm_compute in Hc.
Qed.

Definition declare (vars : Vars) (d : Declaration) : Vars := <[dc_name d := dc_value d]> vars.

Lemma read_decl vars funs d : decl_ok d → transcript_line vars funs (decl_line d) = Ret (Ok (declare vars d, funs)).
Proof.
  intros (Hsp & _ & Hne & Heq & _ & Hv). unfold transcript_line, decl_line. rewrite strip_prefix_app.
  change (lit " ") with [x20]. change (lit "=") with [x3d]. rewrite split_once_at by done. cbn [from_option id].
  rewrite bool_decide_eq_false_2 by done. rewrite split_once_at by done. change (lit "a") with [x61]. change (lit "A") with [x41].
  unfold declare. destruct (dc_value d) as [s|l]; cbn [value_text].
  - destruct Hv as (_ & Ha & HA). rewrite (not_contains _ _ Ha), (not_contains _ _ HA). cbn [orb].
    unfold parse_scalar, quoted. change (QUOTE :: escape s ++ [QUOTE]) with ([QUOTE] ++ escape s ++ [QUOTE]). rewrite strip_prefix_app.
    unfold unescape. by rewrite take_quoted_escape, bool_decide_eq_true_2.
  - destruct Hv as [_ Ha]. rewrite (proj2 (lit_contains _ _) Ha). cbn [orb]. by rewrite parse_array_print.
Qed.

(** A function is read if it has no attributes. *)
Definition plain_functions (fs : list (text * text)) : list text :=
  omap (λ f, if bool_decide (fst f = []) then Some (snd f) else None) fs.
Lemma read_fun vars funs f : fun_ok f →
  transcript_line vars funs (fun_line f) = Ret (Ok (vars, list_to_set (plain_functions [f]) ∪ funs)).
Proof.
  destruct f as [at_ f]. intros (Hs & _ & _ & Hf & He). cbn [fst snd] in *. unfold transcript_line, fun_line. cbn [fst snd].
  change (lit "declare -f" ++ at_ ++ lit " " ++ f) with (lit "declare " ++ lit "-f" ++ at_ ++ [x20] ++ f).
  rewrite strip_prefix_app, (app_assoc (lit "-f")).
  change (lit " ") with [x20]. rewrite split_once_at by (rewrite not_elem_of_app; split; [by vm_compute; set_solver|done]). cbn [from_option id].
  unfold plain_functions. cbn [omap list_omap fst snd]. destruct (decide (at_ = [])) as [->|Hne].
  - rewrite !bool_decide_eq_true_2 by done. rewrite trim_none by done. do 3 f_equal. cbn. set_solver.
  - rewrite (bool_decide_eq_false_2 (at_ = [])) by done. rewrite bool_decide_eq_false_2.
    + change (lit "=") with [x3d]. unfold split_once. rewrite find_none by auto. cbn. do 3 f_equal. set_solver.
    + intros E. apply Hne. change (lit "-f") with (lit "-f" ++ []) in E at 2. by apply app_inv_head in E.
Qed.

Lemma read_decls ds : ∀ vars funs rest, Forall decl_ok ds →
  transcript_lines vars funs ((decl_line <$> ds) ++ rest) = transcript_lines (fold_left declare ds vars) funs rest.
Proof.
  induction ds as [|d ds IH]; intros vars funs rest Hds; [done|]. apply Forall_cons in Hds as [Hd Hds].
  cbn [fmap list_fmap app transcript_lines fold_left]. rewrite read_decl by done. cbn [mbind outcome_bind]. by apply IH.
Qed.

Lemma read_funs fs : ∀ vars funs, Forall fun_ok fs →
  transcript_lines vars funs (fun_line <$> fs) = Ret (Ok (vars, list_to_set (plain_functions fs) ∪ funs)).
Proof.
  induction fs as [|f fs IH]; intros vars funs Hfs.
  { cbn. do 3 f_equal. set_solver. }
  apply Forall_cons in Hfs as [Hf Hfs]. cbn [fmap list_fmap transcript_lines]. rewrite read_fun by done. cbn [mbind outcome_bind].
  rewrite IH by done. do 3 f_equal. unfold plain_functions. cbn. case_bool_decide; cbn; set_solver.
Qed.

(** What the declarations say of a variable: its words, one if it is not an
    array; and the first of them, which is what [$name] is to bash. *)
Fixpoint declared_as (ds : list Declaration) (n : text) : option Value :=
  match ds with [] => None | d :: ds' => if bool_decide (dc_name d = n) then Some (dc_value d) else declared_as ds' n end.
Definition words_of (ds : list Declaration) (n : string) : list text :=
  match declared_as ds (lit n) with Some (Scalar s) => [s] | Some (Array l) => l | None => [] end.
Definition word_of (ds : list Declaration) (n : string) : option text := head (words_of ds n).

Lemma declared_as_none ds n : n ∉ dc_name <$> ds → declared_as ds n = None.
Proof.
  induction ds as [|d ds IH]; cbn; [done|]. intros [Hne Hn]%not_elem_of_cons. rewrite bool_decide_eq_false_2 by done. by apply IH.
Qed.

Lemma declare_all ds : NoDup (dc_name <$> ds) → ∀ (vars : Vars) n,
  fold_left declare ds vars !! n = match declared_as ds n with Some v => Some v | None => vars !! n end.
Proof.
  induction ds as [|d ds IH]; cbn [fmap list_fmap]; [done|]. intros [Hni Hnd]%NoDup_cons vars n. cbn [fold_left declared_as].
  rewrite IH by done. unfold declare. case_bool_decide as E.
  - subst n. rewrite declared_as_none by done. apply lookup_insert_eq.
  - destruct (declared_as ds n); [done|]. by apply lookup_insert_ne.
Qed.

Lemma declared_vars ds n : NoDup (dc_name <$> ds) → fold_left declare ds (∅ : Vars) !! n = declared_as ds n.
Proof. intros Hnd. rewrite declare_all by done. destruct (declared_as ds n); [done|apply lookup_empty]. Qed.

Lemma array_words ds n : NoDup (dc_name <$> ds) → array (fold_left declare ds ∅) (lit n) = words_of ds n.
Proof. intros Hnd. unfold array, words_of. rewrite declared_vars by done. by destruct (declared_as ds (lit n)) as [[]|]. Qed.
Lemma scalar_word ds n : NoDup (dc_name <$> ds) → scalar (fold_left declare ds ∅) (lit n) = word_of ds n.
Proof. intros Hnd. unfold scalar, word_of, words_of. rewrite declared_vars by done. by destruct (declared_as ds (lit n)) as [[]|]. Qed.

(** The record of a PKGBUILD, field by field. *)
Record describes (ds : list Declaration) (fs : list (text * text)) (pb : Pkgbuild) : Prop := {
  de_pkgname : pkgname pb = words_of ds "pkgname";
  de_pkgver : word_of ds "pkgver" = Some (pkgver pb);
  de_pkgrel : pkgrel pb = match word_of ds "pkgrel" with Some r => r | None => lit "1" end;
  de_epoch : epoch pb = word_of ds "epoch";
  de_arch : arch pb = words_of ds "arch";
  de_source : source pb = words_of ds "source";
  de_sha256sums : sha256sums pb = words_of ds "sha256sums";
  de_b2sums : b2sums pb = words_of ds "b2sums";
  de_depends : pb_depends pb = words_of ds "depends";
  de_makedepends : pb_makedepends pb = words_of ds "makedepends";
  de_functions : ∀ f, f ∈ functions pb ↔ ([], f) ∈ fs
}.

Lemma plain_functions_spec fs f : f ∈ plain_functions fs ↔ ([], f) ∈ fs.
Proof.
  unfold plain_functions. rewrite list_elem_of_omap. split.
  - intros ([at_ g] & Hin & E). cbn in E. case_bool_decide; by simplify_eq.
  - intros Hin. by exists ([], f).
Qed.


(** A value that bash has to print between [$'] and ['], such as a name with
    a letter above ASCII in it, is refused by the name of its variable. *)
Lemma parse_refused n l i raw : ∀ fuel j out s, blank s → (length l < fuel)%nat →
  parse_elements fuel n (s ++ elements j l ++ gap l ++ lit "[" ++ decimal i ++ lit "]=$'" ++ raw) out = Ret (Err (UsesDollarQuoting n)).
Proof.
  induction l as [|v l IH]; intros fuel j out s Hs Hf; (destruct fuel as [|fuel]; [cbn in Hf; lia|]).
  - unfold gap. rewrite bool_decide_eq_true_2 by done. cbn [elements app parse_elements].
    change (lit "[") with [x5b]. rewrite (find_at x5b []) by (destruct Hs as [-> | ->]; vm_compute; set_solver). rewrite drop_app_length.
    assert (x5d ∉ [x5b] ++ decimal i) as Hn.
    { apply not_elem_of_app. split; [by vm_compute; set_solver|]. apply (not_a_digit _ _ (decimal_digits i)). unfold is_digit. change (b2z x5d) with 93. lia. }
    change (lit "]=") with [x5d; x3d]. change (lit "]=$'" ++ raw) with ([x5d; x3d] ++ lit "$'" ++ raw).
    rewrite (app_assoc [x5b]). rewrite (find_at x5d [x3d]) by exact Hn.
    rewrite (app_assoc ([x5b] ++ decimal i)), (app_assoc s).
    replace (length s + length ([x5b] ++ decimal i) + 2)%nat with (length (s ++ ([x5b] ++ decimal i) ++ [x5d; x3d]));
      [|rewrite !length_app; cbn [length]; lia].
    rewrite drop_app_length. by rewrite starts_with_app.
  - rewrite elements_cons. rewrite <- !app_assoc. rewrite parse_one by done. unfold gap at 2. rewrite bool_decide_eq_false_2 by done.
    destruct l as [|w l].
    + unfold gap. rewrite bool_decide_eq_true_2 by done. cbn [elements app]. specialize (IH fuel (S j) (out ++ [v]) (lit " ") (or_intror eq_refl)).
      unfold gap in IH. rewrite bool_decide_eq_true_2 in IH by done. apply IH. cbn in *. lia.
    + specialize (IH fuel (S j) (out ++ [v]) (gap (w :: l))). unfold gap in *. rewrite !bool_decide_eq_false_2 in * by done.
      apply IH; [by right|cbn in *; lia].
Qed.

Theorem dollar_quoting_is_refused vars funs flags n raw : (x20 ∉ flags) → flags ≠ lit "-f" → (x3d ∉ n) →
  ((x61 ∉ flags) → (x41 ∉ flags) →
    transcript_line vars funs (lit "declare " ++ flags ++ lit " " ++ n ++ lit "=$'" ++ raw) = Ret (Err (UsesDollarQuoting n))) ∧
  ∀ l i, x61 ∈ flags →
    transcript_line vars funs (lit "declare " ++ flags ++ lit " " ++ n ++ lit "=(" ++ elements 0 l ++ gap l ++ lit "[" ++ decimal i ++ lit "]=$'" ++ raw ++ lit ")") =
    Ret (Err (UsesDollarQuoting n)).
Proof.
  intros Hsp Hf Hn.
  assert (∀ y, transcript_line vars funs (lit "declare " ++ flags ++ lit " " ++ n ++ lit "=" ++ y) =
    if contains (lit "a") flags || contains (lit "A") flags then
      r ← parse_array n y; Ret (match r with Ok l => Ok (<[n := Array l]> vars, funs) | Err e => Err e end)
    else Ret (match parse_scalar n y with Ok s => Ok (<[n := Scalar s]> vars, funs) | Err e => Err e end)) as Hl.
  { intros y. unfold transcript_line. rewrite strip_prefix_app. change (lit " ") with [x20]. change (lit "=") with [x3d].
    rewrite split_once_at by done. cbn [from_option id]. rewrite bool_decide_eq_false_2 by done. by rewrite split_once_at. }
  change (lit "a") with [x61] in Hl. change (lit "A") with [x41] in Hl. split.
  - intros Ha HA. change (lit "=$'" ++ raw) with (lit "=" ++ lit "$'" ++ raw). rewrite Hl, (not_contains _ _ Ha), (not_contains _ _ HA). done.
  - intros l i Ha.
    assert (∀ y z : text, lit "=(" ++ y ++ z = lit "=" ++ lit "(" ++ y ++ z) as Hsplit by done. rewrite Hsplit, Hl.
    rewrite (proj2 (lit_contains _ _) Ha). cbn [orb]. unfold parse_array. rewrite strip_prefix_app. cbn [mbind option_bind].
    rewrite !app_assoc, strip_suffix_app, <- !app_assoc.
    assert (∀ y : text, S (length (elements 0 l ++ y)) > length l)%nat as Hlen.
    { intros y. rewrite length_app. pose proof (length_elements 0 l). lia. }
    rewrite (parse_refused n l i raw _ 0 [] []) by (by left || apply Hlen). done.
Qed.

(** A concrete transcript: a version with a quote in it, an array whose
    elements look like syntax, a function, and one that is exported. *)
Definition example_decls : list Declaration :=
  [mkDecl (lit "--") (lit "pkgver") (Scalar (lit "2.12" ++ [QUOTE; BACKSLASH]));
   mkDecl (lit "-a") (lit "pkgname") (Array [lit "hello"; lit "a]=$b [1]"])].
Definition example_functions : list (text * text) := [([], lit "build"); (lit "x", lit "helper")].

Lemma printable_check s : forallb (λ c, (32 <=? b2z c) && (b2z c <=? 126)) s = true → Forall printable s.
Proof.
  intros Hs. apply Forall_forall. intros c Hc%list_elem_of_In. apply (proj1 (forallb_forall _ _) Hs) in Hc. unfold printable. lia.
Qed.


(** ** Repository databases *)

(** A block of a [desc] file, as pacman's tools write it. *)
Definition block (f : text) (vals : list text) : list text :=
  if bool_decide (vals = []) then [] else (lit "%" ++ f ++ lit "%") :: vals ++ [[]].
Definition optional (v : text) : list text := if bool_decide (v = []) then [] else [v].
Definition desc_lines (r : PackageRecord) : list text :=
  block (lit "NAME") [name r] ++ block (lit "BASE") [package_base r] ++ block (lit "VERSION") [version r] ++
  block (lit "DESC") (optional (description r)) ++ block (lit "URL") (optional (url r)) ++
  block (lit "DEPENDS") (depends r) ++ block (lit "MAKEDEPENDS") (makedepends r).
Definition desc_text (r : PackageRecord) : text := mjoin ((λ l, l ++ [LF]) <$> desc_lines r).

(** A value that stands on a line of its own and is no header. *)
Definition value_ok (v : text) : Prop := v ≠ [] ∧ one_line v ∧ header_of v = None.
Definition record_ok (r : PackageRecord) : Prop :=
  value_ok (name r) ∧ value_ok (package_base r) ∧ value_ok (version r) ∧
  (description r = [] ∨ value_ok (description r)) ∧ (url r = [] ∨ value_ok (url r)) ∧
  Forall value_ok (depends r) ∧ Forall value_ok (makedepends r).

Lemma header_line f : (0 < length f)%nat → header_of (lit "%" ++ f ++ lit "%") = Some f.
Proof.
  intros Hf. unfold header_of. rewrite starts_with_app. unfold ends_with. rewrite !reverse_app.
  change (reverse (lit "%")) with (lit "%"). rewrite <- app_assoc, starts_with_app. rewrite !length_app. cbn [andb length lit].
  change (length (lit "%")) with 1%nat. rewrite (proj2 (Nat.ltb_lt _ _)) by lia. f_equal.
  change (drop 1 (lit "%" ++ f ++ lit "%")) with (f ++ lit "%"). replace (1 + (length f + 1) - 2)%nat with (length f) by lia.
  apply take_app_length.
Qed.

Lemma desc_values vals : ∀ d, Forall value_ok vals → fold_left desc_line vals d = fold_left put_line vals d.
Proof.
  induction vals as [|v vals IH]; intros d Hv; [done|]. apply Forall_cons in Hv as [(Hne & _ & Hh) Hv]. cbn [fold_left].
  unfold desc_line at 2. rewrite bool_decide_eq_false_2, Hh by done. by apply IH.
Qed.

Lemma desc_block f vals d : (0 < length f)%nat → Forall value_ok vals → d_field d = None →
  fold_left desc_line (block f vals) d = set_field (fold_left put_line vals (set_field d (Some f))) None.
Proof.
  intros Hf Hv Hd. unfold block. case_bool_decide as Hn; [subst; destruct d; cbn in *; by subst|].
  cbn [fold_left]. unfold desc_line at 2. rewrite bool_decide_eq_false_2 by done. rewrite header_line by done.
  rewrite fold_left_app. rewrite (desc_values vals) by done. cbn [fold_left]. unfold desc_line. by rewrite bool_decide_eq_true_2.
Qed.

Lemma put_deps vals : ∀ d, d_field d = Some (lit "DEPENDS") →
  fold_left put_line vals d = mkDesc (d_field d) (d_name d) (d_base d) (d_version d) (d_description d) (d_url d) (d_depends d ++ vals) (d_makedepends d).
Proof.
  induction vals as [|v vals IH]; intros d Hd; cbn [fold_left]; [rewrite app_nil_r; by destruct d|].
  assert (put_line d v = mkDesc (d_field d) (d_name d) (d_base d) (d_version d) (d_description d) (d_url d) (d_depends d ++ [v]) (d_makedepends d)) as ->
    by (unfold put_line; by rewrite Hd).
  rewrite IH by done. cbn. by rewrite <- app_assoc.
Qed.

Lemma put_makedeps vals : ∀ d, d_field d = Some (lit "MAKEDEPENDS") →
  fold_left put_line vals d = mkDesc (d_field d) (d_name d) (d_base d) (d_version d) (d_description d) (d_url d) (d_depends d) (d_makedepends d ++ vals).
Proof.
  induction vals as [|v vals IH]; intros d Hd; cbn [fold_left]; [rewrite app_nil_r; by destruct d|].
  assert (put_line d v = mkDesc (d_field d) (d_name d) (d_base d) (d_version d) (d_description d) (d_url d) (d_depends d) (d_makedepends d ++ [v])) as ->
    by (unfold put_line; by rewrite Hd).
  rewrite IH by done. cbn. by rewrite <- app_assoc.
Qed.

Lemma optional_ok v : v = [] ∨ value_ok v → Forall value_ok (optional v).
Proof. unfold optional. intros [->|Hv]; [constructor|]. case_bool_decide; [constructor|]. by constructor; [|constructor]. Qed.

Lemma block_one_line f vals : one_line (lit "%" ++ f ++ lit "%") → Forall value_ok vals → Forall one_line (block f vals).
Proof.
  intros Hf Hv. unfold block. case_bool_decide; [constructor|]. constructor; [done|]. apply Forall_app. split.
  - eapply Forall_impl; [exact Hv|]. by intros v (_ & ? & _).
  - constructor; [|constructor]. split; [apply not_elem_of_nil|done].
Qed.

(** A repository database entry is read back as it was written: the [desc]
    file of any package, with any fields that stand on lines of their own,
    parses to that package. *)
Theorem desc_is_read_back r : record_ok r → parse_desc (desc_text r) (repo r) = Some r.
Proof.
  intros (Hn & Hb & Hv & Hd & Hu & Hdep & Hmk). apply optional_ok in Hd, Hu. apply Forall_singleton in Hn, Hb, Hv. unfold parse_desc, desc_text. rewrite lines_unlines.
  2: { unfold desc_lines. rewrite !Forall_app. repeat split; apply block_one_line; try done; try (by constructor);
         by split; [vm_compute; set_solver|]. }
  unfold desc_lines. rewrite !fold_left_app.
  rewrite (desc_block (lit "NAME")) by (done || (cbn; lia)).
  rewrite (desc_block (lit "BASE")) by (done || (cbn; lia)).
  rewrite (desc_block (lit "VERSION")) by (done || (cbn; lia)).
  rewrite (desc_block (lit "DESC")), (desc_block (lit "URL")) by (done || (cbn; lia)).
  rewrite (desc_block (lit "DEPENDS")), put_deps by (done || (cbn; lia)).
  rewrite (desc_block (lit "MAKEDEPENDS")), put_makedeps by (done || (cbn; lia)).
  unfold optional. destruct r as [n v r b de u dp mk]. cbn [name version repo package_base description url depends makedepends] in *.
  repeat case_bool_decide; subst; reflexivity.
Qed.

Definition example_record : PackageRecord :=
  mkRecord (lit "hello") (lit "2.12-3") Extra (lit "hello") (lit "prints 100%") [] [lit "glibc"; lit "sh"] [].

Lemma desc_is_read_back_witness : parse_desc (desc_text example_record) Extra = Some example_record.
Proof.
  apply (desc_is_read_back example_record). unfold record_ok, value_ok, one_line.
  repeat split; cbn; try (by vm_compute; set_solver); try (by vm_compute); try (by left);
    try (right; repeat split; try (by vm_compute; set_solver); by vm_compute);
    repeat (constructor; [repeat split; try (by vm_compute; set_solver); by vm_compute|]); constructor.
Defined.
