(* ===== verification/PkgContain.v ===== *)
(** What may leave a package build: [check_containment] of
    [qpkg/src/runner.rs].

    A package tree is what [read_dir] and [symlink_metadata] show of it; a
    path is absolute or not, and its names.  The errors of reading the tree
    are not modelled. *)
From S2P Require Import Prelude Bits Text.
From Stdlib Require Import Strings.Byte.

(** [std::path::Component]: empty segments go, and so does a dot that does
    not come first. *)
Inductive Component := RootDir | CurDir | ParentDir | Normal (s : text).

Definition SLASH : byte := x2f.
Definition is_absolute (target : text) : bool := starts_with [SLASH] target.

Definition segment (s : text) : option Component :=
  if bool_decide (s = []) || bool_decide (s = lit ".") then None
  else if bool_decide (s = lit "..") then Some ParentDir else Some (Normal s).
Definition components (target : text) : list Component :=
  (if is_absolute target then [RootDir]
   else match split SLASH target with s :: _ => if bool_decide (s = lit ".") then [CurDir] else [] | [] => [] end)
  ++ omap segment (split SLASH target).

(** [PathBuf]. *)
Record PathBuf := mkPath { rooted : bool; names : list text }.
Definition join (p : PathBuf) (x : text) : PathBuf := mkPath (rooted p) (names p ++ [x]).
Definition pop (p : PathBuf) : option PathBuf :=
  match reverse (names p) with [] => None | _ :: l => Some (mkPath (rooted p) (reverse l)) end.
Definition path_starts_with (p base : PathBuf) : bool :=
  Bool.eqb (rooted p) (rooted base) && bool_decide (names base `prefix_of` names p).

(** The loop of [resolves_inside]. *)
Fixpoint resolve_lexically (resolved : PathBuf) (l : list Component) : option PathBuf :=
  match l with
  | [] => Some resolved
  | ParentDir :: l' => match pop resolved with None => None | Some p => resolve_lexically p l' end
  | CurDir :: l' => resolve_lexically resolved l'
  | RootDir :: l' => resolve_lexically (mkPath true []) l'
  | Normal s :: l' => resolve_lexically (join resolved s) l'
  end.

(** [resolves_inside]. *)
Definition resolves_inside (pkgdir parent : PathBuf) (target : text) : bool :=
  match resolve_lexically (if is_absolute target then mkPath false [] else parent) (components target) with
  | None => false
  | Some p => path_starts_with p pkgdir
  end.

(** A directory tree: a file has its permission bits and its bytes. *)
Inductive Node := File (mode : Z) (bytes : text) | Dir (entries : list (text * Node)) | Link (target : text).

(** [walk]: the first link that is refused, in the order of the entries. *)
Fixpoint walk (pkgdir dir : PathBuf) (n : Node) : option PathBuf :=
  match n with
  | Dir entries =>
      (fix go (es : list (text * Node)) : option PathBuf :=
         match es with
         | [] => None
         | (x, n') :: es' =>
             let path := join dir x in
             match match n' with
                   | Link target => if resolves_inside pkgdir dir target then None else Some path
                   | Dir _ => walk pkgdir path n'
                   | File _ _ => None
                   end with
             | Some p => Some p
             | None => go es'
             end
         end) entries
  | _ => None
  end.

(** [check_containment]. *)
Definition check_containment (pkgdir : PathBuf) (tree : Node) : result unit PathBuf :=
  match walk pkgdir pkgdir tree with Some p => Err p | None => Ok tt end.

(** ** Where a link really leads

    The walk of a path as a kernel does it: a link met on the way is replaced
    by what it says, from the directory it is in, and the parent of a
    directory is where it is, not where it was reached from.  [None] is
    running out of turns.  Outside the package there are no links. *)
Fixpoint find_entry (x : text) (es : list (text * Node)) : option Node :=
  match es with [] => None | (y, n) :: es' => if bool_decide (x = y) then Some n else find_entry x es' end.
Fixpoint node_at (n : Node) (p : list text) : option Node :=
  match p with
  | [] => Some n
  | x :: p' => match n with Dir es => match find_entry x es with Some n' => node_at n' p' | None => None end | _ => None end
  end.

Fixpoint strip_names (base p : list text) : option (list text) :=
  match base, p with
  | [], _ => Some p
  | x :: base', y :: p' => if bool_decide (x = y) then strip_names base' p' else None
  | _, [] => None
  end.

Section Real.
Context (pkgdir : list text) (tree : Node).

Definition link_at (p : list text) : option text :=
  rel ← strip_names pkgdir p; match node_at tree rel with Some (Link t) => Some t | _ => None end.

Fixpoint resolve_really (fuel : nat) (cur : list text) (todo : list Component) : option (list text) :=
  match fuel with
  | O => None
  | S fuel' =>
      match todo with
      | [] => Some cur
      | RootDir :: l => resolve_really fuel' [] l
      | CurDir :: l => resolve_really fuel' cur l
      | ParentDir :: l => resolve_really fuel' (take (length cur - 1) cur) l
      | Normal x :: l =>
          match link_at (cur ++ [x]) with
          | Some t => resolve_really fuel' cur (components t ++ l)
          | None => resolve_really fuel' (cur ++ [x]) l
          end
      end
  end.
End Real.

(** ** Lemmas *)

Lemma strip_names_spec base p r : strip_names base p = Some r ↔ p = base ++ r.
Proof.
  revert p. induction base as [|x base IH]; intros p; cbn; [split; congruence|]. destruct p as [|y p]; [done|].
  case_bool_decide as E; [subst; rewrite IH; split; [by intros ->|by intros [= ->]]|]. split; [done|congruence].
Qed.

Lemma find_entry_In x es n : find_entry x es = Some n → (x, n) ∈ es.
Proof.
  induction es as [|[y m] es IH]; cbn; [done|]. case_bool_decide as E; [intros [= ->]; subst; left|intros H; right; auto].
Qed.

Lemma node_at_app n p q : node_at n (p ++ q) = m ← node_at n p; node_at m q.
Proof.
  revert n. induction p as [|x p IH]; intros n; [done|]. cbn. destruct n as [|es|]; [done| |done]. by destruct (find_entry x es).
Qed.

(** A tree that passed the walk: every link in it was asked about. *)
Lemma walk_entry pkgdir dir es x n : walk pkgdir dir (Dir es) = None → (x, n) ∈ es →
  match n with
  | Link t => resolves_inside pkgdir dir t = true
  | Dir _ => walk pkgdir (join dir x) n = None
  | File _ _ => True
  end.
Proof.
  cbn [walk]. induction es as [|[y m] es IH]; [by intros _ ?%elem_of_nil|]. intros Hw [[= <- <-]|Hin]%elem_of_cons.
  - destruct n as [|es'|t]; [done| |].
    + by destruct (walk pkgdir (join dir x) (Dir es')).
    + by destruct (resolves_inside pkgdir dir t).
  - apply IH; [|done]. by destruct (match m with File _ _ => None | Dir _ => _ | Link _ => _ end).
Qed.

Lemma walk_link pkgdir tree p x t : ∀ dir, walk pkgdir dir tree = None → node_at tree (p ++ [x]) = Some (Link t) →
  resolves_inside pkgdir (mkPath (rooted dir) (names dir ++ p)) t = true.
Proof.
  revert tree. induction p as [|y p IH]; intros tree dir Hw Hn; cbn [app node_at] in Hn; (destruct tree as [|es|]; [done| |done]).
  - destruct (find_entry x es) as [n|] eqn:Ef; [|done]. injection Hn as ->. apply find_entry_In in Ef.
    pose proof (walk_entry _ _ _ _ _ Hw Ef) as Hr. cbn in Hr. rewrite app_nil_r. by destruct dir.
  - destruct (find_entry y es) as [n|] eqn:Ef; [|done]. apply find_entry_In in Ef. pose proof (walk_entry _ _ _ _ _ Hw Ef) as Hr.
    destruct n as [|es'|]; [by destruct p| |by destruct p]. specialize (IH (Dir es') (join dir y) Hr Hn). cbn [join rooted names] in IH.
    by rewrite <- app_assoc in IH.
Qed.

(** A target that climbs first, if at all, and then descends. *)
Definition climbs_first (l : list Component) : Prop :=
  ∃ c k ns, (c = [] ∨ c = [CurDir]) ∧ l = c ++ replicate k ParentDir ++ (Normal <$> ns).

Lemma pop_take rt cur : (0 < length cur)%nat → pop (mkPath rt cur) = Some (mkPath rt (take (length cur - 1) cur)).
Proof.
  intros Hl. destruct cur as [|x cur _] using rev_ind; [cbn in Hl; lia|]. unfold pop. cbn [names rooted].
  rewrite reverse_snoc, reverse_involutive, length_app. cbn [length].
  replace (length cur + 1 - 1)%nat with (length cur) by lia. by rewrite take_app_length.
Qed.

Lemma lexical_normals ns : ∀ p, resolve_lexically p (Normal <$> ns) = Some (mkPath (rooted p) (names p ++ ns)).
Proof.
  induction ns as [|x ns IH]; intros p; cbn; [rewrite app_nil_r; by destruct p|]. rewrite IH. cbn. by rewrite <- app_assoc.
Qed.

Lemma lexical_climb k ns : ∀ cur q, resolve_lexically (mkPath true cur) (replicate k ParentDir ++ (Normal <$> ns)) = Some q →
  (k ≤ length cur)%nat ∧ q = mkPath true (take (length cur - k) cur ++ ns).
Proof.
  induction k as [|k IH]; intros cur q; cbn [replicate app].
  - rewrite lexical_normals. intros [= <-]. split; [lia|]. cbn. by rewrite Nat.sub_0_r, firstn_all.
  - cbn [resolve_lexically]. destruct (decide (length cur = 0%nat)) as [Hz|Hnz]; [by apply nil_length_inv in Hz as ->|].
    rewrite pop_take by lia. intros [Hk ->]%IH. rewrite length_take in Hk. split; [lia|].
    rewrite length_take, take_take. do 3 f_equal. lia.
Qed.

Section Sound.
Context (pkgdir : list text) (es : list (text * Node)).
Context (Hpass : check_containment (mkPath true pkgdir) (Dir es) = Ok tt).
Context (Hlinks : ∀ r t, node_at (Dir es) r = Some (Link t) → climbs_first (components t)).

(** Where the rest of a walk leads, link or no link: into the package. *)
Definition heads_inside (cur : list text) (todo : list Component) : Prop :=
  ∃ c k ns m, (c = [] ∨ c = [CurDir]) ∧ todo = c ++ replicate k ParentDir ++ (Normal <$> ns) ∧ (k ≤ length cur)%nat ∧
    pkgdir `prefix_of` take (length cur - k) cur ++ take m ns.

Lemma walk_passed : walk (mkPath true pkgdir) (mkPath true pkgdir) (Dir es) = None.
Proof. revert Hpass. unfold check_containment. by destruct (walk _ _ _). Qed.

Lemma link_heads_inside cur x t ns : link_at pkgdir (Dir es) (cur ++ [x]) = Some t →
  heads_inside cur (components t ++ (Normal <$> ns)).
Proof.
  unfold link_at. destruct (strip_names pkgdir (cur ++ [x])) as [rel|] eqn:Es; [|done]. cbn [mbind option_bind].
  destruct (node_at (Dir es) rel) as [[| |t']|] eqn:En; try done. intros [= ->]. apply strip_names_spec in Es.
  destruct rel as [|y p _] using rev_ind; [done|]. rewrite app_assoc in Es. apply app_inj_tail in Es as [-> <-].
  pose proof (walk_link _ _ _ _ _ _ walk_passed En) as Hr. cbn [rooted names] in Hr.
  destruct (Hlinks _ _ En) as (c & k & ns' & Hc & Hcomp).
  assert (is_absolute t = false) as Habs.
  { destruct (is_absolute t) eqn:Ea; [|done]. unfold components in Hcomp. rewrite Ea in Hcomp.
    destruct Hc as [-> | ->]; [destruct k; [destruct ns'|]|]; discriminate. }
  unfold resolves_inside in Hr. rewrite Habs, Hcomp in Hr.
  assert (resolve_lexically (mkPath true (pkgdir ++ p)) (c ++ replicate k ParentDir ++ (Normal <$> ns')) =
    resolve_lexically (mkPath true (pkgdir ++ p)) (replicate k ParentDir ++ (Normal <$> ns'))) as E by by destruct Hc as [-> | ->].
  rewrite E in Hr. destruct (resolve_lexically _ _) as [q|] eqn:El; [|done]. apply lexical_climb in El as [Hk ->].
  unfold path_starts_with in Hr. cbn [rooted names Bool.eqb andb] in Hr. apply bool_decide_eq_true in Hr.
  exists c, k, (ns' ++ ns), (length ns'). split; [done|]. split; [by rewrite Hcomp, fmap_app, <- !app_assoc|]. split; [done|].
  by rewrite take_app_length.
Qed.

Lemma heads_inside_arrives fuel : ∀ cur todo q, heads_inside cur todo → resolve_really pkgdir (Dir es) fuel cur todo = Some q → pkgdir `prefix_of` q.
Proof.
  induction fuel as [|fuel IH]; intros cur todo q (c & k & ns & m & Hc & -> & Hk & Hpre); [done|]. cbn [resolve_really].
  destruct Hc as [-> | ->]; cbn [app]; [|intros Hq; eapply IH; [|exact Hq]; exists [], k, ns, m; by auto].
  destruct k as [|k]; cbn [replicate app].
  - rewrite Nat.sub_0_r, firstn_all in Hpre. destruct ns as [|x ns]; cbn [fmap list_fmap].
    { intros [= <-]. destruct m; by rewrite app_nil_r in Hpre. }
    destruct (link_at _ _ _) as [t|] eqn:El; [intros Hq; eapply IH; [|exact Hq]; by eapply link_heads_inside|].
    intros Hq. eapply IH; [|exact Hq]. exists [], 0%nat, ns, (m - 1)%nat. split; [by left|]. split; [done|]. split; [lia|].
    rewrite Nat.sub_0_r, firstn_all. destruct m as [|m]; cbn [take] in Hpre.
    + rewrite app_nil_r in Hpre. do 2 apply prefix_app_r. done.
    + rewrite <- app_assoc. cbn [app]. by replace (S m - 1)%nat with m by lia.
  - intros Hq. eapply IH; [|exact Hq]. exists [], k, ns, m. split; [by left|]. split; [done|]. rewrite length_take. split; [lia|].
    rewrite take_take. by replace (Nat.min (Nat.min (length cur - 1) (length cur) - k) (length cur - 1)) with (length cur - S k)%nat by lia.
Qed.
End Sound.

(** Containment of a package tree. If [check_containment] lets a tree
    pass, and no link climbs after it has descended, then no path into the
    package ever leads out of it: wherever the kernel's walk of it ends,
    through any links to links, is inside the package directory. *)
Theorem contained_links_stay_inside pkgdir es fuel ns q :
  check_containment (mkPath true pkgdir) (Dir es) = Ok tt →
  (∀ r t, node_at (Dir es) r = Some (Link t) → climbs_first (components t)) →
  resolve_really pkgdir (Dir es) fuel pkgdir (Normal <$> ns) = Some q → pkgdir `prefix_of` q.
Proof.
  intros Hpass Hlinks. apply (heads_inside_arrives pkgdir es Hpass Hlinks). exists [], 0%nat, ns, 0%nat.
  split; [by left|]. split; [done|]. split; [lia|]. rewrite Nat.sub_0_r, firstn_all. by rewrite app_nil_r.
Qed.

(** A library, its link, and a link from another directory. *)
Definition linked_tree : list (text * Node) :=
  [(lit "lib", Dir [(lit "z.so", Link (lit "z.so.1")); (lit "z.so.1", File 493 [])]);
   (lit "bin", Dir [(lit "z", Link (lit "../lib/z.so"))])].

Lemma linked_tree_climbs r t : node_at (Dir linked_tree) r = Some (Link t) → climbs_first (components t).
Proof.
  unfold linked_tree. destruct r as [|x [|y r]]; cbn [node_at find_entry]; [done|repeat case_bool_decide; done|].
  repeat (case_bool_decide; cbn [find_entry node_at]); try done; (destruct r; [|done]); intros [= <-].
  - exists [], 0%nat, [lit "z.so.1"]. split; [by left|]. reflexivity.
  - exists [], 1%nat, [lit "lib"; lit "z.so"]. split; [by left|]. reflexivity.
Qed.

Lemma contained_links_stay_inside_witness :
  [lit "w"; lit "pkg"] `prefix_of` [lit "w"; lit "pkg"; lit "lib"; lit "z.so.1"].
Proof.
  apply (contained_links_stay_inside [lit "w"; lit "pkg"] linked_tree 20 [lit "bin"; lit "z"]).
  - vm_compute. reflexivity.
  - exact linked_tree_climbs.
  - vm_compute. reflexivity.
Defined.

(** An absolute link into the build's own directory passes, and is recorded
    as it stands: on the machine that unpacks it, it leads elsewhere. *)
Theorem absolute_link_to_the_build_passes :
  check_containment (mkPath true [lit "w"; lit "pkg"]) (Dir [(lit "l", Link (lit "/w/pkg/etc"))]) = Ok tt.
Proof. vm_compute. reflexivity. Qed.

(** A link that climbs after it has gone through another link. *)
Definition trick : list (text * Node) :=
  [(lit "a", Dir [(lit "up", Link (lit ".."))]); (lit "out", Link (lit "a/up/../etc"))].

(** The check is lexical, and a link through a link defeats it: this tree
    passes, and the kernel's walk of its [out] ends outside the package. *)
Theorem lexical_check_is_escaped :
  check_containment (mkPath true [lit "w"; lit "pkg"]) (Dir trick) = Ok tt ∧
  resolve_really [lit "w"; lit "pkg"] (Dir trick) 10 [lit "w"; lit "pkg"] [Normal (lit "out")] = Some [lit "w"; lit "etc"].
Proof. split; vm_compute; reflexivity. Qed.
