(* ===== verification/PkgRewrite.v ===== *)
(** The substitution of tools in a PKGBUILD: [rewrite] of
    [qpkg/src/toolchain.rs].

    The text is its UTF-8 bytes: no byte of a character beyond ASCII is a word
    byte, a blank, a separator, or a byte of a tool's name. *)
From S2P Require Import Prelude Bits Text Vercmp.
From Stdlib Require Import Strings.Byte.

(** [is_word]. *)
Definition is_word (c : byte) : bool := Vercmp.is_ascii_alphanumeric c || bool_decide (c ∈ lit "_-+.").

Definition is_blank (c : byte) : bool := bool_decide (c = x20) || bool_decide (c = x09).

(** [trim_end_matches] of a blank or a tab. *)
Fixpoint drop_blanks (s : text) : text :=
  match s with [] => [] | c :: s' => if is_blank c then drop_blanks s' else s end.
Definition trim_end_blanks (s : text) : text := reverse (drop_blanks (reverse s)).

(** What must stand before a command: nothing, a pipe, a separator or a
    subshell opener, with blanks in between. *)
Definition opens_command (c : byte) : bool := bool_decide (c ∈ lit "|;&(`").
Definition at_command (before : text) : bool :=
  match last (trim_end_blanks before) with None => true | Some c => opens_command c end.

(** [before_ok] and [after_ok]. *)
Definition before_ok (command_position : bool) (before : text) : bool :=
  match last before with
  | None => true
  | Some c => if is_word c then false else if negb command_position then true else at_command before
  end.
Definition after_ok (command_position : bool) (after : option byte) : bool :=
  match after with
  | None => negb command_position
  | Some c => if is_word c then false else negb command_position || is_blank c
  end.

(** The loop of [replace_tool]: a turn goes past one occurrence. *)
Fixpoint replace_loop (fuel : nat) (line from to : text) (command_position : bool) (out rest : text) (consumed : nat) : option text :=
  match fuel with
  | O => None
  | S fuel' =>
      match find from rest with
      | None => Some (out ++ rest)
      | Some pos =>
          let abs := (consumed + pos)%nat in
          let ok := before_ok command_position (take abs line) && after_ok command_position (head (drop (abs + length from) line)) in
          replace_loop fuel' line from to command_position (out ++ take pos rest ++ (if ok then to else from))
            (drop (pos + length from) rest) (abs + length from)
      end
  end.

(** [replace_tool]; a turn consumes at least a byte. *)
Definition replace_tool (line from to : text) (command_position : bool) : option text :=
  replace_loop (S (length line)) line from to command_position [] line 0.

Record RewriteLog := mkLog { l_line : Z; l_rule : text; l_before : text; l_after : text }.

(** The rules of [rewrite]: a name, what it looks for, what it puts, and
    whether it keeps to command position.  The arrow in a rule's name is
    spelled in ASCII here. *)
Definition RULES : list (text * text * text * bool) :=
  [(lit "gcc->clang", lit "gcc", lit "clang", false);
   (lit "g++->clang++", lit "g++", lit "clang++", false);
   (lit "ar->llvm-ar", lit "ar", lit "llvm-ar", true);
   (lit "strip->llvm-strip", lit "strip", lit "llvm-strip", true)].

Definition is_comment (line : text) : bool := starts_with (lit "#") (trim_start line).

(** The inner loop of [rewrite]: one line under every rule. *)
Fixpoint apply_rules (rules : list (text * text * text * bool)) (idx : nat) (line current : text) (log : list RewriteLog) : option (text * list RewriteLog) :=
  match rules with
  | [] => Some (current, log)
  | (rule, from, to, command_position) :: rules' =>
      rewritten ← replace_tool current from to command_position;
      if bool_decide (rewritten = current) then apply_rules rules' idx line current log
      else apply_rules rules' idx line rewritten (log ++ [mkLog (Z.of_nat idx + 1) rule line rewritten])
  end.

(** The outer loop. *)
Fixpoint rewrite_lines (idx : nat) (ls : list text) (out : list text) (log : list RewriteLog) : option (list text * list RewriteLog) :=
  match ls with
  | [] => Some (out, log)
  | line :: ls' =>
      if is_comment line then rewrite_lines (S idx) ls' (out ++ [line]) log
      else '(current, log') ← apply_rules RULES idx line line log; rewrite_lines (S idx) ls' (out ++ [current]) log'
  end.

(** [join] with line feeds. *)
Fixpoint join_lines (ls : list text) : text :=
  match ls with [] => [] | [l] => l | l :: ls' => l ++ LF :: join_lines ls' end.

(** [rewrite]. *)
Definition rewrite (t : text) : option (text * list RewriteLog) :=
  '(out_lines, log) ← rewrite_lines 0 (lines t) [] [];
  Some (join_lines out_lines ++ (if ends_with [LF] t then [LF] else []), log).

Example rewrite_a_recipe :
  rewrite (lit "CC=gcc ./configure --with-gcc-libs; ar rcs libx.a x.o") =
  Some (lit "CC=clang ./configure --with-gcc-libs; llvm-ar rcs libx.a x.o",
    [mkLog 1 (lit "gcc->clang") (lit "CC=gcc ./configure --with-gcc-libs; ar rcs libx.a x.o")
       (lit "CC=clang ./configure --with-gcc-libs; ar rcs libx.a x.o");
     mkLog 1 (lit "ar->llvm-ar") (lit "CC=gcc ./configure --with-gcc-libs; ar rcs libx.a x.o")
       (lit "CC=clang ./configure --with-gcc-libs; llvm-ar rcs libx.a x.o")]).
Proof. vm_compute. reflexivity. Qed.

(** ** What [replace_tool] means: whole words

    The maximal runs of word bytes, every other byte by itself. *)
Fixpoint runs (s : text) : list text :=
  match s with
  | [] => []
  | c :: s' =>
      if is_word c then
        match runs s' with
        | (d :: w) :: ws => if is_word d then (c :: d :: w) :: ws else [c] :: (d :: w) :: ws
        | ws => [c] :: ws
        end
      else [c] :: runs s'
  end.

(** A word that is the tool becomes its substitute; in command position only
    if a command may start there and a blank follows. *)
Fixpoint replace_words (from to : text) (command_position : bool) (before : text) (ws : list text) : text :=
  match ws with
  | [] => []
  | w :: ws' =>
      (if bool_decide (w = from) &&
          (negb command_position || at_command before && match head (mjoin ws') with Some c => is_blank c | None => false end)
       then to else w) ++ replace_words from to command_position (before ++ w) ws'
  end.

Definition starts_word (s : text) : bool := match s with [] => false | c :: _ => is_word c end.
Definition ends_word (s : text) : bool := match last s with None => false | Some c => is_word c end.

Lemma ends_word_snoc s c : ends_word (s ++ [c]) = is_word c.
Proof. unfold ends_word. by rewrite last_snoc. Qed.

Lemma runs_word w r : w ≠ [] → Forall (λ c, is_word c = true) w → starts_word r = false → runs (w ++ r) = w :: runs r.
Proof.
  induction w as [|c w IH]; [done|]. intros _ Hw Hr. apply Forall_cons in Hw as [Hc Hw]. cbn [app runs]. rewrite Hc.
  destruct w as [|d w].
  - cbn [app]. destruct r as [|e r]; [done|]. cbn [starts_word] in Hr. cbn [runs]. rewrite Hr. by rewrite Hr.
  - rewrite IH by done. apply Forall_cons in Hw as [Hd _]. by rewrite Hd.
Qed.

Lemma runs_other c r : is_word c = false → runs (c :: r) = [c] :: runs r.
Proof. intros Hc. cbn. by rewrite Hc. Qed.

Lemma runs_join s : mjoin (runs s) = s.
Proof.
  induction s as [|c s IH]; [done|]. cbn [runs]. transitivity (c :: mjoin (runs s)); [|by rewrite IH]. clear IH. destruct (is_word c); [|done].
  destruct (runs s) as [|[|d w] ws]; [done|done|]. by destruct (is_word d).
Qed.

(** A text is empty, starts with another byte, or starts with a word. *)
Lemma word_split s : starts_word s = true →
  ∃ w r, s = w ++ r ∧ w ≠ [] ∧ Forall (λ c, is_word c = true) w ∧ starts_word r = false.
Proof.
  induction s as [|c s IH]; [done|]. cbn [starts_word]. intros Hc. destruct (starts_word s) eqn:E.
  - destruct (IH eq_refl) as (w & r & -> & _ & Hw & Hr). exists (c :: w), r. by repeat split; [|constructor|].
  - exists [c], s. by repeat split; [|constructor|].
Qed.

Lemma find_first p s i : find p s = Some i →
  (∃ b, drop i s = p ++ b) ∧ (i ≤ length s)%nat ∧ ∀ j, (j < i)%nat → starts_with p (drop j s) = false.
Proof.
  revert i. induction s as [|c s IH]; intros i; cbn [find]; destruct (starts_with p _) eqn:E.
  1, 3: intros [= <-]; apply starts_with_spec in E as [b ->]; rewrite drop_0; repeat split; [by exists b|lia|lia].
  - done.
  - destruct (find p s) as [j|]; [|done]. intros [= <-]. destruct (IH j eq_refl) as (Hb & Hl & Hj). repeat split.
    + done.
    + cbn; lia.
    + intros [|k] Hk; [by rewrite drop_0|]. apply Hj. lia.
Qed.

Lemma find_nowhere p s : find p s = None → ∀ j, (j < length s)%nat → starts_with p (drop j s) = false.
Proof.
  induction s as [|c s IH]; intros Hf j Hj; [cbn in Hj; lia|]. cbn [find] in Hf.
  destruct (starts_with p (c :: s)) eqn:E; [done|]. destruct (find p s) eqn:Ef; [done|].
  destruct j as [|j]; [by rewrite drop_0|]. apply IH; [done|cbn in Hj; lia].
Qed.

Section Scan.
Context (from to : text) (command_position : bool).
Context (Hne : from ≠ []) (Hword : Forall (λ c, is_word c = true) from).

Definition here (pre rest : text) : bool :=
  starts_with from rest && (before_ok command_position pre && after_ok command_position (head (drop (length from) rest))).

(** The same, byte by byte, with the bytes of a replaced tool passed over. *)
Fixpoint scan (skip : nat) (pre rest : text) : text :=
  match rest with
  | [] => []
  | c :: r =>
      match skip with
      | S k => scan k (pre ++ [c]) r
      | O => if here pre rest then to ++ scan (length from - 1) (pre ++ [c]) r else c :: scan 0 (pre ++ [c]) r
      end
  end.

Lemma scan_skip a : ∀ pre r, scan (length a) pre (a ++ r) = scan 0 (pre ++ a) r.
Proof.
  induction a as [|c a IH]; intros pre r; cbn [length app scan]; [by rewrite app_nil_r|].
  rewrite IH. by rewrite <- app_assoc.
Qed.

Lemma scan_none a : ∀ pre r, (∀ j, (j < length a)%nat → starts_with from (drop j (a ++ r)) = false) →
  scan 0 pre (a ++ r) = a ++ scan 0 (pre ++ a) r.
Proof.
  induction a as [|c a IH]; intros pre r Hj; cbn [app]; [by rewrite app_nil_r|].
  cbn [scan]. unfold here. pose proof (Hj 0%nat ltac:(cbn; lia)) as H0. rewrite drop_0 in H0. cbn [app] in H0. rewrite H0. cbn [andb].
  rewrite IH; [by rewrite <- app_assoc|]. intros j Hlt. apply (Hj (S j)). cbn. lia.
Qed.

Lemma before_ok_word pre : ends_word pre = true → before_ok command_position pre = false.
Proof. unfold ends_word, before_ok. destruct (last pre) as [c|]; [|done]. by intros ->. Qed.

(** Inside a word nothing is found. *)
Lemma scan_inside a : ∀ pre r, ends_word pre = true → Forall (λ c, is_word c = true) a →
  scan 0 pre (a ++ r) = a ++ scan 0 (pre ++ a) r.
Proof.
  induction a as [|c a IH]; intros pre r Hp Ha; cbn [app]; [by rewrite app_nil_r|]. apply Forall_cons in Ha as [Hc Ha].
  cbn [scan]. unfold here. rewrite before_ok_word by done. rewrite andb_false_l, andb_false_r.
  rewrite IH; [by rewrite <- app_assoc|by rewrite ends_word_snoc|done].
Qed.

(** An occurrence: replaced or not, and gone past. *)
Lemma scan_occurrence pre b : scan 0 pre (from ++ b) = (if here pre (from ++ b) then to else from) ++ scan 0 (pre ++ from) b.
Proof.
  assert (∃ c f, from = c :: f) as (c & f & Ef) by (destruct from as [|c f]; [done|by exists c, f]).
  assert (from ++ b = c :: f ++ b) as Eb by by rewrite Ef.
  assert (Forall (λ c, is_word c = true) f ∧ is_word c = true) as [Hf Hc] by (rewrite Ef in Hword; by apply Forall_cons in Hword as [? ?]).
  rewrite Eb. cbn [scan]. rewrite <- Eb. destruct (here pre (from ++ b)).
  - replace (length from - 1)%nat with (length f) by (rewrite Ef; cbn; lia). rewrite scan_skip, <- app_assoc. by rewrite Ef.
  - rewrite scan_inside; [|by rewrite ends_word_snoc|done]. rewrite <- app_assoc. by rewrite Ef.
Qed.

Lemma replace_loop_scan fuel : ∀ line out pre rest, line = pre ++ rest → (length rest < fuel)%nat →
  replace_loop fuel line from to command_position out rest (length pre) = Some (out ++ scan 0 pre rest).
Proof.
  induction fuel as [|fuel IH]; intros line out pre rest -> Hl; [lia|]. cbn [replace_loop].
  destruct (find from rest) as [pos|] eqn:Ef.
  - destruct (find_first _ _ _ Ef) as ((b & Hb) & Hpos & Hnot). set (a := take pos rest) in *.
    assert (length a = pos) as Ha by (unfold a; rewrite length_take; lia).
    assert (rest = a ++ from ++ b) as Hr by by rewrite <- Hb; unfold a; rewrite take_drop.
    assert (take (length pre + pos) (pre ++ rest) = pre ++ a) as Et.
    { rewrite take_app_ge by lia. by replace (length pre + pos - length pre)%nat with pos by lia. }
    assert (drop (length pre + pos + length from) (pre ++ rest) = drop (length from) (from ++ b)) as Ed.
    { rewrite drop_app_ge by lia. replace (length pre + pos + length from - length pre)%nat with (pos + length from)%nat by lia.
      by rewrite <- drop_drop, Hb. }
    rewrite Et, Ed. rewrite <- drop_drop, Hb, drop_app_length.
    assert (length pre + pos + length from = length ((pre ++ a) ++ from))%nat as El by (rewrite !length_app; lia).
    rewrite El. rewrite IH.
    + replace (scan 0 pre rest) with (scan 0 pre (a ++ from ++ b)) by by rewrite <- Hr. rewrite scan_none by (intros j Hj; rewrite <- Hr; apply Hnot; lia).
      rewrite scan_occurrence. unfold here. rewrite starts_with_app, drop_app_length. cbn [andb]. by rewrite <- !app_assoc.
    + by rewrite Hr, <- !app_assoc.
    + destruct from as [|c f]; [done|]. rewrite Hr, !length_app in Hl. cbn in Hl. lia.
  - pose proof (scan_none rest pre []) as Hs. rewrite app_nil_r in Hs. rewrite Hs; [by rewrite app_nil_r|].
    intros j Hj. rewrite app_nil_r in *. by apply find_nowhere.
Qed.

Lemma here_word w r pre : Forall (λ c, is_word c = true) w → starts_word r = false → here pre (w ++ r) = true → w = from.
Proof.
  intros Hw Hr [Hs [_ Ha]%andb_true_iff]%andb_true_iff. apply starts_with_spec in Hs as [b Hb].
  rewrite Hb, drop_app_length in Ha. apply app_eq_inv in Hb as [(k & -> & ->)|(k & -> & ->)].
  - destruct k as [|c k]; [by rewrite app_nil_r|]. cbn in Ha. apply Forall_app in Hw as [_ [Hc _]%Forall_cons]. by rewrite Hc in Ha.
  - destruct k as [|c k]; [by rewrite app_nil_r|]. apply Forall_app in Hword as [_ [Hc _]%Forall_cons]. cbn in Hr. by rewrite Hc in Hr.
Qed.

(** The two tests on an occurrence that is a whole word. *)
Lemma whole_word_test pre r : ends_word pre = false → starts_word r = false →
  before_ok command_position pre && after_ok command_position (head r) =
  negb command_position || at_command pre && match head r with Some c => is_blank c | None => false end.
Proof.
  unfold ends_word, before_ok, after_ok, starts_word. intros Hp Hr.
  assert ((match head r with None => negb command_position | Some c => if is_word c then false else negb command_position || is_blank c end) =
    negb command_position || match head r with Some c => is_blank c | None => false end) as ->.
  { destruct r as [|c r]; cbn; [by rewrite orb_false_r|by rewrite Hr]. }
  destruct (last pre) as [c|] eqn:El.
  - rewrite Hp. by destruct command_position.
  - apply last_None in El as ->. by destruct command_position.
Qed.

Lemma scan_words n : ∀ s pre, (length s ≤ n)%nat → (starts_word s = true → ends_word pre = false) →
  scan 0 pre s = replace_words from to command_position pre (runs s).
Proof.
  induction n as [|n IH]; intros s pre Hn Hp; [by destruct s; [|cbn in Hn; lia]|].
  destruct (starts_word s) eqn:Es.
  - destruct (word_split s Es) as (w & r & -> & Hw0 & Hw & Hr). rewrite runs_word by done. cbn [replace_words].
    assert ((length r ≤ n)%nat) as Hl by (destruct w; [done|]; rewrite length_app in Hn; cbn in Hn; lia).
    rewrite <- IH by (done || by rewrite Hr). rewrite runs_join. specialize (Hp eq_refl). case_bool_decide as Ew.
    + subst w. rewrite scan_occurrence. unfold here. rewrite starts_with_app, drop_app_length. cbn [andb]. by rewrite whole_word_test.
    + cbn [andb]. destruct w as [|c w]; [done|]. apply Forall_cons in Hw as [Hc Hw]. cbn [app scan].
      destruct (here pre (c :: w ++ r)) eqn:Eh; [by apply (here_word (c :: w) r pre) in Eh; [|constructor|]|].
      rewrite scan_inside; [by rewrite <- app_assoc|by rewrite ends_word_snoc|done].
  - destruct s as [|c s]; [done|]. cbn [starts_word] in Es. rewrite runs_other by done. cbn [replace_words scan].
    assert (starts_with from (c :: s) = false ∧ [c] ≠ from) as [Hs Hf].
    { destruct from as [|d f]; [done|]. apply Forall_cons in Hword as [Hd _]. cbn. split; [|congruence].
      rewrite bool_decide_eq_false_2 by congruence. done. }
    unfold here. rewrite Hs, bool_decide_eq_false_2 by done. cbn [andb app]. f_equal. apply IH; [cbn in Hn; lia|].
    intros _. by rewrite ends_word_snoc.
Qed.
End Scan.

Lemma replace_tool_words line from to command_position : from ≠ [] → Forall (λ c, is_word c = true) from →
  replace_tool line from to command_position = Some (replace_words from to command_position [] (runs line)).
Proof.
  intros Hne Hword. unfold replace_tool. rewrite (replace_loop_scan from to command_position Hne Hword _ line [] [] line); [|done|lia].
  cbn [app]. f_equal. by apply (scan_words from to command_position Hne Hword (length line)).
Qed.

(** Replacing a tool is replacing whole words. For every line and every
    tool named by word bytes, [replace_tool] returns, and what it returns is
    the line with each maximal run of word bytes that is the tool's name
    replaced, and nothing else touched; in command position only where a
    command may start and a blank follows. *)
Theorem replace_tool_replaces_whole_words line from to command_position :
  from ≠ [] → Forall (λ c, is_word c = true) from →
  replace_tool line from to command_position = Some (replace_words from to command_position [] (runs line)).
Proof. exact (replace_tool_words line from to command_position). Qed.

Lemma replace_tool_replaces_whole_words_witness :
  replace_tool (lit "CC=gcc gcc-libs") (lit "gcc") (lit "clang") false = Some (lit "CC=clang gcc-libs").
Proof.
  rewrite (replace_tool_replaces_whole_words (lit "CC=gcc gcc-libs") (lit "gcc") (lit "clang") false); [vm_compute; reflexivity|done|].
  repeat constructor.
Defined.

(** ** What [rewrite] reports *)

Lemma rules_replace rule from to command_position line : (rule, from, to, command_position) ∈ RULES →
  ∃ l, replace_tool line from to command_position = Some l.
Proof.
  intros Hin. assert (from ≠ [] ∧ forallb is_word from = true) as [Hne Hw].
  { unfold RULES in Hin. repeat (apply elem_of_cons in Hin as [[= -> -> -> ->]|Hin]; [by split|]). by apply elem_of_nil in Hin. }
  eexists. apply replace_tool_words; [done|]. apply Forall_forall. intros c Hc. apply (proj1 (forallb_forall is_word from) Hw). by apply list_elem_of_In.
Qed.

(** What the rules add to the log for one line. *)
Definition reports (idx : nat) (line current after : text) (new : list RewriteLog) : Prop :=
  Forall (λ e, l_line e = Z.of_nat idx + 1 ∧ l_before e = line) new ∧
  match last new with None => after = current | Some e => after = l_after e end.

Lemma apply_rules_report rules idx line : (∀ x, x ∈ rules → x ∈ RULES) → ∀ current log,
  ∃ after new, apply_rules rules idx line current log = Some (after, log ++ new) ∧ reports idx line current after new.
Proof.
  induction rules as [|[[[rule from] to] cp] rules IH]; intros Hsub current log; cbn [apply_rules].
  - exists current, []. by rewrite app_nil_r.
  - destruct (rules_replace rule from to cp current) as [l ->]; [apply Hsub; left|]. cbn [mbind option_bind].
    assert (∀ x, x ∈ rules → x ∈ RULES) as Hsub' by (intros x Hx; apply Hsub; by right).
    case_bool_decide as E; [apply IH; done|].
    destruct (IH Hsub' l (log ++ [mkLog (Z.of_nat idx + 1) rule line l])) as (after & new & -> & Hf & Hl).
    exists after, (mkLog (Z.of_nat idx + 1) rule line l :: new). rewrite <- app_assoc. split; [done|]. split; [by constructor|].
    destruct new as [|e new]; [done|]. rewrite last_cons. by destruct (last (e :: new)) eqn:El; [|by apply last_None in El].
Qed.

(** What becomes of one line, and what is said of it. *)
Definition line_reported (log : list RewriteLog) (idx : nat) (line after : text) : Prop :=
  (is_comment line = true → after = line) ∧
  (after ≠ line → ∃ e, e ∈ log ∧ l_line e = Z.of_nat idx + 1 ∧ l_before e = line ∧ l_after e = after).

Lemma line_reported_more log more idx line after : line_reported log idx line after → line_reported (log ++ more) idx line after.
Proof.
  intros [Hc Hd]. split; [done|]. intros (e & He & H)%Hd. exists e. split; [apply elem_of_app; by left|done].
Qed.

Lemma rewrite_lines_report ls : ∀ idx out log, ∃ out' new,
  rewrite_lines idx ls out log = Some (out ++ out', log ++ new) ∧ length out' = length ls ∧
  ∀ i line after, ls !! i = Some line → out' !! i = Some after → line_reported (log ++ new) (idx + i) line after.
Proof.
  induction ls as [|line ls IH]; intros idx out log; cbn [rewrite_lines]; [exists [], []; by rewrite !app_nil_r|].
  assert (∃ after new, (if is_comment line then Some (line, log) else apply_rules RULES idx line line log) = Some (after, log ++ new) ∧
    line_reported (log ++ new) idx line after) as (after & new & E & Hr).
  { destruct (is_comment line) eqn:Ec; [exists line, []; rewrite app_nil_r; split; [done|]; by split|].
    destruct (apply_rules_report RULES idx line (λ _ H, H) line log) as (after & new & -> & Hf & Hl). exists after, new.
    split; [done|]. split; [by rewrite Ec|]. intros Hne. destruct (last new) as [e|] eqn:El; [|done].
    apply last_Some in El as [new' ->]. apply Forall_app in Hf as [_ [He _]%Forall_cons]. exists e.
    split; [rewrite !elem_of_app; right; right; by left|]. by destruct He. }
  assert ((if is_comment line then rewrite_lines (S idx) ls (out ++ [line]) log
     else '(current, log') ← apply_rules RULES idx line line log; rewrite_lines (S idx) ls (out ++ [current]) log') =
     rewrite_lines (S idx) ls (out ++ [after]) (log ++ new)) as ->.
  { destruct (is_comment line); [by injection E as -> <-|by rewrite E]. }
  destruct (IH (S idx) (out ++ [after]) (log ++ new)) as (out' & new' & -> & Hl & Hi). exists (after :: out'), (new ++ new').
  rewrite <- !app_assoc in *. split; [done|]. split; [cbn; lia|]. intros [|i] l a; cbn [lookup list_lookup].
  - intros [= <-] [= <-]. rewrite Nat.add_0_r, app_assoc. by apply line_reported_more.
  - intros Hl' Ha. replace (idx + S i)%nat with (S idx + i)%nat by lia. by apply Hi.
Qed.

(** No rewrite of a line is silent.  [rewrite] returns for every text; it
    keeps the number of lines, leaves every comment as it is, and for every
    line it changes the log has an entry with that line's number, the line as
    it was and the line as it became. *)
Theorem rewrite_reports_every_line t :
  ∃ ls log, rewrite t = Some (join_lines ls ++ (if ends_with [LF] t then [LF] else []), log) ∧ length ls = length (lines t) ∧
    ∀ i line after, lines t !! i = Some line → ls !! i = Some after →
      (is_comment line = true → after = line) ∧
      (after ≠ line → ∃ e, e ∈ log ∧ l_line e = Z.of_nat i + 1 ∧ l_before e = line ∧ l_after e = after).
Proof.
  unfold rewrite. destruct (rewrite_lines_report (lines t) 0 [] []) as (ls & log & -> & Hl & Hi). exists ls, log.
  split; [done|]. split; [done|]. intros i line after H1 H2. exact (Hi i line after H1 H2).
Qed.

(** What is silent is the carriage return before a line feed: [lines] drops
    it, and the text comes back without it and without a word. *)
Theorem carriage_returns_go_silently :
  rewrite (lit "make" ++ [CR; LF]) = Some (lit "make" ++ [LF], []).
Proof. vm_compute. reflexivity. Qed.
