(* ===== verification/PkgIndex.v ===== *)
(** The package index: [qpkg/src/index.rs], [sync.rs], the entry of
    [aur.rs], and [commands.rs].

    The store is redb's and the values are serde_json's, neither of them under
    [src/]: a table is a class with the laws its documentation gives (a map
    whose rows come in the order of their keys), a codec a class whose one law
    is that what was written decodes.  The decoders of tar, gzip and zstd and
    of the AUR's JSON are arguments.  An error is told by its constructor; its
    message is not modelled, nor are the failures of the disk. *)
From S2P Require Import Prelude Bits Text Vercmp PkgMeta.
From Stdlib Require Import Strings.Byte Sorting.Sorted.

(** A table of redb with [&str] keys. *)
Class Table (T : Type) :=
  { t_empty : T; t_get : T → text → option text; t_insert : T → text → text → T; t_iter : T → list (text * text) }.
Definition key_before (a b : text * text) : Prop := Vercmp.cmp_bytes (fst a) (fst b) = Lt.
Class TableLaws (T : Type) `{Table T} := mkTableLaws
  { get_empty k : t_get t_empty k = None;
    get_insert t k v : t_get (t_insert t k v) k = Some v;
    get_insert_ne t k k' v : k ≠ k' → t_get (t_insert t k v) k' = t_get t k';
    iter_get t k v : (k, v) ∈ t_iter t ↔ t_get t k = Some v;
    iter_sorted t : StronglySorted key_before (t_iter t) }.

(** [serde_json]. *)
Class Codec (A : Type) := { to_vec : A → text; from_slice : text → option A }.
Class CodecLaw (A : Type) `{Codec A} := decode_encode : ∀ a, from_slice (to_vec a) = Some a.

(** [error.rs], without the messages. *)
Inductive Error :=
  | Network | IndexError | UnsupportedArchitecture (arches : list text) | Extraction
  | ChecksumMismatch (file expected got : text) | BuildFailed (stage : text) | Containment (path : list text)
  | MissingTool (tool : text) | Io.

Record BuiltRecord := mkBuilt
  { b_name : text; version_built : text; pkgbuild_sha256 : text; artifact_path : text; built_at_unix : Z }.

(** ** Case *)

Definition is_ascii (s : text) : bool := forallb (λ c, b2z c <? 128) s.
Definition to_ascii_lowercase (c : byte) : byte := if Vercmp.between 65 90 c then z2b (b2z c + 32) else c.
Definition eq_ignore_ascii_case (a b : text) : bool :=
  bool_decide (to_ascii_lowercase <$> a = to_ascii_lowercase <$> b).

(** [windows(n)]: every run of [n] neighbours. *)
Fixpoint windows (n : nat) (s : text) : list text :=
  match s with
  | [] => []
  | _ :: s' => if (n <=? length s)%nat then take n s :: windows n s' else []
  end.

(** [contains_ignore_ascii_case]. *)
Definition contains_ignore_ascii_case (hay needle : text) : bool :=
  if bool_decide (needle = []) then true
  else if (length hay <? length needle)%nat then false
  else existsb (λ w, eq_ignore_ascii_case w needle) (windows (length needle) hay).

(** [sort_by_key]: stable. *)
Fixpoint insert_by_key {A} (x : Z * A) (l : list (Z * A)) : list (Z * A) :=
  match l with [] => [x] | y :: l' => if fst x <=? fst y then x :: y :: l' else y :: insert_by_key x l' end.
Definition sort_by_key {A} (l : list (Z * A)) : list (Z * A) := foldr insert_by_key [] l.

Section Index.
Context `{Table T} `{Codec PackageRecord} `{Codec BuiltRecord}.

(** [Index]: the three tables, as last committed. *)
Record Index := mkIndex { packages : T; built_table : T; meta : T }.

Definition decode {A} `{Codec A} (bytes : text) : result A Error :=
  match from_slice bytes with Some a => Ok a | None => Err IndexError end.

(** [upsert_packages]: one transaction. *)
Definition upsert_packages (i : Index) (records : list PackageRecord) : Index :=
  mkIndex (fold_left (λ t rec, t_insert t (name rec) (to_vec rec)) records (packages i)) (built_table i) (meta i).

(** [Index::get] and [Index::built]. *)
Definition get_in {A} `{Codec A} (t : T) (n : text) : result (option A) Error :=
  match t_get t n with
  | Some v => match decode v with Ok rec => Ok (Some rec) | Err e => Err e end
  | None => Ok None
  end.
Definition get (i : Index) (n : text) : result (option PackageRecord) Error := get_in (packages i) n.
Definition built (i : Index) (n : text) : result (option BuiltRecord) Error := get_in (built_table i) n.

(** [record_built]. *)
Definition record_built (i : Index) (rec : BuiltRecord) : Index :=
  mkIndex (packages i) (t_insert (built_table i) (b_name rec) (to_vec rec)) (meta i).

(** [set_sync_time] and [sync_time]. *)
Definition sync_key (s : text) : text := lit "sync:" ++ s.
Definition set_sync_time (i : Index) (s : text) (unix : Z) : Index :=
  mkIndex (packages i) (built_table i) (t_insert (meta i) (sync_key s) (to_le_bytes 8 unix)).
Definition sync_time (i : Index) (s : text) : result (option Z) Error :=
  match t_get (meta i) (sync_key s) with
  | Some v => if bool_decide (length v = 8%nat) then Ok (Some (from_le_bytes v)) else Err IndexError
  | None => Ok None
  end.

(** [stale]. *)
Fixpoint stale (i : Index) (sources : list text) (now threshold_secs : Z) : result bool Error :=
  match sources with
  | [] => Ok false
  | s :: sources' =>
      match sync_time i s with
      | Err e => Err e
      | Ok (Some at_) => if saturating_sub now at_ <=? threshold_secs then stale i sources' now threshold_secs else Ok true
      | Ok None => Ok true
      end
  end.

(** [ranked_hits]; [to_lowercase] is the one of [str], for terms that are not
    ASCII. *)
Context (to_lowercase : text → text).

Definition matches (term hay : text) : bool :=
  if is_ascii term then contains_ignore_ascii_case hay term else contains (to_lowercase term) (to_lowercase hay).
Definition equals (term hay : text) : bool :=
  if is_ascii term then eq_ignore_ascii_case hay term else bool_decide (to_lowercase hay = to_lowercase term).
Definition rank (term : text) (rec : PackageRecord) : option Z :=
  if equals term (name rec) then Some 0
  else if matches term (name rec) then Some 1
  else if matches term (description rec) then Some 2
  else None.

Fixpoint collect_hits (term : text) (rows : list (text * text)) (hits : list (Z * PackageRecord)) : result (list (Z * PackageRecord)) Error :=
  match rows with
  | [] => Ok hits
  | (_, v) :: rows' =>
      match decode v with
      | Err e => Err e
      | Ok rec => collect_hits term rows' (match rank term rec with Some r => hits ++ [(r, rec)] | None => hits end)
      end
  end.
Definition ranked_hits (t : T) (term : text) : result (list PackageRecord) Error :=
  match collect_hits term (t_iter t) [] with Ok hits => Ok (snd <$> sort_by_key hits) | Err e => Err e end.

(** [search_with_built]: a lookup per hit, the first failure wins. *)
Fixpoint with_built (t : T) (recs : list PackageRecord) : result (list (PackageRecord * option BuiltRecord)) Error :=
  match recs with
  | [] => Ok []
  | rec :: recs' =>
      match get_in t (name rec) with
      | Err e => Err e
      | Ok b => match with_built t recs' with Ok l => Ok ((rec, b) :: l) | Err e => Err e end
      end
  end.
Definition search_with_built (i : Index) (term : text) : result (list (PackageRecord * option BuiltRecord)) Error :=
  match ranked_hits (packages i) term with Ok recs => with_built (built_table i) recs | Err e => Err e end.

(** [built_with_upstream]. *)
Fixpoint pair_upstream (t : T) (rows : list (text * text)) : result (list (BuiltRecord * option PackageRecord)) Error :=
  match rows with
  | [] => Ok []
  | (_, v) :: rows' =>
      match decode v with
      | Err e => Err e
      | Ok rec =>
          match get_in t (b_name rec) with
          | Err e => Err e
          | Ok up => match pair_upstream t rows' with Ok l => Ok ((rec, up) :: l) | Err e => Err e end
          end
      end
  end.
Definition built_with_upstream (i : Index) : result (list (BuiltRecord * option PackageRecord)) Error :=
  pair_upstream (packages i) (t_iter (built_table i)).

(** ** [commands.rs] *)

Definition STALE_THRESHOLD_SECS : Z := 24 * 60 * 60.
Definition SOURCES : list text := [lit "official"; lit "aur"].
Definition repo_name (r : Repo) : text := match r with Core => lit "core" | Extra => lit "extra" | Aur => lit "aur" end.

(** [warn_if_stale]: the lines it writes. *)
Definition warn_if_stale (i : Index) (now : Z) : result (list text) Error :=
  match stale i SOURCES now STALE_THRESHOLD_SECS with
  | Ok true => Ok [lit "warning: the index is stale or incomplete; run `qpkg sync`"]
  | Ok false => Ok []
  | Err e => Err e
  end.

Definition hit_lines (h : PackageRecord * option BuiltRecord) : list text :=
  let '(rec, b) := h in
  let b := match b with Some b => lit "  [built " ++ version_built b ++ lit "]" | None => [] end in
  (repo_name (repo rec) ++ lit "/" ++ name rec ++ lit " " ++ version rec ++ b)
  :: (if bool_decide (description rec = []) then [] else [lit "    " ++ description rec]).

(** [search]: what it writes to the warnings and to the output. *)
Definition search (i : Index) (term : text) (now : Z) : result (list text * list text) Error :=
  match warn_if_stale i now with
  | Err e => Err e
  | Ok warn => match search_with_built i term with Err e => Err e | Ok hits => Ok (warn, mjoin (hit_lines <$> hits)) end
  end.

Fixpoint join_with (sep : text) (l : list text) : text :=
  match l with [] => [] | [x] => x | x :: l' => x ++ sep ++ join_with sep l' end.

(** [info]. *)
Definition info (i : Index) (n : text) (now : Z) : result (list text * list text) Error :=
  match warn_if_stale i now with
  | Err e => Err e
  | Ok warn =>
      match get i n with
      | Err e => Err e
      | Ok None => Err IndexError
      | Ok (Some rec) =>
          match built i (name rec) with
          | Err e => Err e
          | Ok b =>
              Ok (warn,
                [lit "name        : " ++ name rec; lit "base        : " ++ package_base rec; lit "version     : " ++ version rec;
                 lit "repo        : " ++ repo_name (repo rec); lit "description : " ++ description rec; lit "url         : " ++ url rec;
                 lit "depends     : " ++ join_with (lit " ") (depends rec);
                 lit "makedepends : " ++ join_with (lit " ") (makedepends rec);
                 match b with
                 | Some b => lit "built       : " ++ version_built b ++ lit " (" ++ artifact_path b ++ lit ")"
                 | None => lit "built       : never"
                 end])
          end
      end
  end.

(** ** [sync.rs], [repodb.rs] and [aur.rs] *)

(** An entry of a database's tar: its file name, and its text if it is one. *)
Record TarEntry := mkEntry { file_name : option text; contents : option text }.
Inductive Compression := Gzip | Zstd.
(** The tar behind a compressed payload: [None] is a failure to open it, and
    an entry that is [None] a failure to read it. *)
Context (open_tar : Compression → text → option (list (option TarEntry))).

Fixpoint read_descs (r : Repo) (entries : list (option TarEntry)) (out : list PackageRecord) : result (list PackageRecord) Error :=
  match entries with
  | [] => Ok out
  | None :: _ => Err Extraction
  | Some e :: entries' =>
      if bool_decide (file_name e = Some (lit "desc")) then
        match contents e with
        | None => Err Extraction
        | Some t => read_descs r entries' (match parse_desc t r with Some rec => out ++ [rec] | None => out end)
        end
      else read_descs r entries' out
  end.

(** [parse_repo_db]: the magic bytes choose the decoder. *)
Definition magic_of (raw : text) : option Compression :=
  if starts_with [x1f; x8b] raw then Some Gzip
  else if starts_with [x28; xb5; x2f; xfd] raw then Some Zstd
  else None.
Definition parse_repo_db (raw : text) (r : Repo) : result (list PackageRecord) Error :=
  match magic_of raw with
  | None => Err Extraction
  | Some c => match open_tar c raw with None => Err Extraction | Some entries => read_descs r entries [] end
  end.

(** [DumpEntry] and the record [parse_aur_dump] makes of it. *)
Record DumpEntry := mkDump
  { e_name : text; e_version : text; e_package_base : option text; e_description : option text; e_url : option text;
    e_depends : option (list text); e_makedepends : option (list text) }.
Context (json_array : text → option (list DumpEntry)).
Definition record_of_dump (e : DumpEntry) : PackageRecord :=
  mkRecord (e_name e) (e_version e) Aur (default (e_name e) (e_package_base e)) (default [] (e_description e)) (default [] (e_url e))
    (default [] (e_depends e)) (default [] (e_makedepends e)).
Definition parse_aur_dump (raw : text) : result (list PackageRecord) Error :=
  match json_array raw with None => Err IndexError | Some es => Ok (record_of_dump <$> es) end.

Record SyncReport := mkReport { official : Z; aur : Z }.

(** What the database answers to the commits of a sync, in their order; a
    transaction that is refused has changed nothing. *)
Context (refuses : nat → option Error).

(** [ingest]: the index after each commit, and what it returns. *)
Definition ingest (i : Index) (core extra aur_raw : text) (now : Z) : list Index * result SyncReport Error :=
  match parse_repo_db core Core with
  | Err e => ([], Err e)
  | Ok c =>
      match parse_repo_db extra Extra with
      | Err e => ([], Err e)
      | Ok x =>
          match parse_aur_dump aur_raw with
          | Err e => ([], Err e)
          | Ok a =>
              let i1 := upsert_packages i (c ++ x ++ a) in
              match refuses 0%nat with
              | Some e => ([], Err e)
              | None =>
                  let i2 := set_sync_time i1 (lit "official") now in
                  match refuses 1%nat with
                  | Some e => ([i1], Err e)
                  | None =>
                      let i3 := set_sync_time i2 (lit "aur") now in
                      match refuses 2%nat with
                      | Some e => ([i1; i2], Err e)
                      | None => ([i1; i2; i3], Ok (mkReport (Z.of_nat (length (c ++ x))) (Z.of_nat (length a))))
                      end
                  end
              end
          end
      end
  end.

(** [outdated] of [build.rs]: the names whose upstream now sorts above. *)
Fixpoint outdated_of (l : list (BuiltRecord * option PackageRecord)) (names : list text) : outcome (list text) :=
  match l with
  | [] => Ret names
  | (_, None) :: l' => outdated_of l' names
  | (b, Some rec) :: l' =>
      o ← Vercmp.vercmp (version rec) (version_built b);
      outdated_of l' (match o with Gt => names ++ [b_name b] | _ => names end)
  end.
Definition outdated (i : Index) : outcome (result (list text) Error) :=
  match built_with_upstream i with
  | Err e => Ret (Err e)
  | Ok l => names ← outdated_of l []; Ret (Ok names)
  end.
End Index.
Arguments mkIndex {T} _ _ _.
Arguments packages {T} _.
Arguments built_table {T} _.
Arguments meta {T} _.
Arguments Index T : clear implicits.

(** ** The order of bytes *)

Lemma cmp_bytes_eq a b : Vercmp.cmp_bytes a b = Eq → a = b.
Proof.
  revert b. induction a as [|x a IH]; intros [|y b]; cbn; try done.
  destruct (Z.compare_spec (b2z x) (b2z y)) as [E| |]; try done. intros ->%IH. f_equal.
  by rewrite <- (z2b_b2z x), E, z2b_b2z.
Qed.

Lemma cmp_bytes_trans a b c : Vercmp.cmp_bytes a b ≠ Gt → Vercmp.cmp_bytes b c ≠ Gt → Vercmp.cmp_bytes a c ≠ Gt.
Proof.
  revert b c. induction a as [|x a IH]; intros [|y b] [|z c]; cbn; try done.
  destruct (Z.compare_spec (b2z x) (b2z y)), (Z.compare_spec (b2z y) (b2z z)), (Z.compare_spec (b2z x) (b2z z)); try done; try lia.
  apply IH.
Qed.

(** * What holds of it

    What the package index promises: searching, syncing, and telling what is
    out of date. *)

(** ** Case *)

Abbreviation lower s := (to_ascii_lowercase <$> (s : text)).

Lemma windows_spec n s w : (0 < n)%nat → w ∈ windows n s ↔ length w = n ∧ ∃ a b, s = a ++ w ++ b.
Proof.
  intros Hn. induction s as [|c s IH]; cbn [windows].
  - split; [by intros ?%elem_of_nil|]. intros (Hl & a & b & E). symmetry in E. apply app_eq_nil in E as [_ [-> _]%app_eq_nil].
    cbn in Hl. lia.
  - destruct (Nat.leb_spec n (length (c :: s))) as [Hle|Hgt].
    + rewrite elem_of_cons, IH. split.
      * intros [-> |(Hl & a & b & ->)].
        -- split; [rewrite length_take; lia|]. exists [], (drop n (c :: s)). by rewrite app_nil_l, take_drop.
        -- split; [done|]. by exists (c :: a), b.
      * intros (Hl & [|d a] & b & E).
        -- left. rewrite E. cbn [app]. rewrite <- Hl. by rewrite take_app_length.
        -- right. split; [done|]. exists a, b. by injection E.
    + split; [by intros ?%elem_of_nil|]. intros (Hl & a & b & E). rewrite E, !length_app in Hgt. lia.
Qed.

Lemma fmap_app_split {A B} (f : A → B) l x y : f <$> l = x ++ y → ∃ a b, l = a ++ b ∧ f <$> a = x ∧ f <$> b = y.
Proof.
  revert l. induction x as [|c x IH]; intros l E; [by exists [], l|]. destruct l as [|d l]; [done|].
  injection E as E1 E2. destruct (IH l E2) as (a & b & -> & <- & <-). exists (d :: a), b. by rewrite <- E1.
Qed.

(** The search without allocation is the search of lower-case text. *)
Lemma contains_ignore_case_lower hay needle : contains_ignore_ascii_case hay needle = contains (lower needle) (lower hay).
Proof.
  unfold contains_ignore_ascii_case. case_bool_decide as En.
  { subst. symmetry. apply contains_text. exists [], (lower hay). done. }
  apply eq_true_iff_eq. rewrite contains_text. destruct (Nat.ltb_spec (length hay) (length needle)) as [Hl|Hl].
  - split; [done|]. intros (a & b & E). apply (f_equal length) in E. rewrite !length_app, !length_fmap in E. lia.
  - rewrite existsb_exists. split.
    + intros (w & Hw%list_elem_of_In & E%bool_decide_eq_true). apply windows_spec in Hw as (_ & a & b & ->); [|destruct needle; [done|cbn; lia]].
      exists (lower a), (lower b). by rewrite !fmap_app, E.
    + intros (a & b & E). apply fmap_app_split in E as (a' & r & -> & _ & E). apply fmap_app_split in E as (w & b' & -> & Ew & _).
      exists w. split; [|by apply bool_decide_eq_true_2]. apply list_elem_of_In, windows_spec; [destruct needle; [done|cbn; lia]|].
      split; [|by exists a', b']. apply (f_equal length) in Ew. by rewrite !length_fmap in Ew.
Qed.

(** ** The stable sort of hits *)

Definition bucket {A} (k : Z) (l : list (Z * A)) : list (Z * A) := filter (λ x, fst x = k) l.

Lemma insert_past {A} (x : Z * A) l m : Forall (λ y, fst y < fst x) l → insert_by_key x (l ++ m) = l ++ insert_by_key x m.
Proof.
  induction 1 as [|y l Hy _ IH]; [done|]. cbn. destruct (Z.leb_spec (fst x) (fst y)); [lia|]. by rewrite IH.
Qed.

Lemma insert_here {A} (x : Z * A) l : Forall (λ y, fst x ≤ fst y) l → insert_by_key x l = x :: l.
Proof. destruct 1 as [|y l Hy _]; [done|]. cbn. destruct (Z.leb_spec (fst x) (fst y)); [done|lia]. Qed.

Lemma bucket_all {A} (P : Z → Prop) k (l : list (Z * A)) : P k → Forall (λ y, P (fst y)) (bucket k l).
Proof. intros HP. apply Forall_forall. intros y [E _]%list_elem_of_filter. by rewrite E. Qed.

Lemma sort_by_key_buckets {A} (l : list (Z * A)) : Forall (λ x, 0 ≤ fst x ≤ 2) l →
  sort_by_key l = bucket 0 l ++ bucket 1 l ++ bucket 2 l.
Proof.
  induction 1 as [|x l Hx _ IH]; [done|]. cbn [sort_by_key foldr]. change (foldr insert_by_key [] l) with (sort_by_key l). rewrite IH.
  assert (fst x = 0 ∨ fst x = 1 ∨ fst x = 2) as [E|[E|E]] by lia; unfold bucket; rewrite !filter_cons, E.
  - rewrite decide_True, !decide_False by done. cbn [app]. apply insert_here.
    rewrite E, !Forall_app. by repeat split; apply bucket_all.
  - rewrite (decide_False (P := 1 = 0)), (decide_True (P := 1 = 1)), (decide_False (P := 1 = 2)) by done.
    rewrite insert_past by (rewrite E; by apply (bucket_all (λ k, k < 1))). f_equal. cbn [app]. apply insert_here.
    rewrite E, Forall_app. by repeat split; apply (bucket_all (λ k, 1 ≤ k)).
  - rewrite (decide_False (P := 2 = 0)), (decide_False (P := 2 = 1)), (decide_True (P := 2 = 2)) by done.
    rewrite insert_past by (rewrite E; by apply (bucket_all (λ k, k < 2))). f_equal.
    rewrite insert_past by (rewrite E; by apply (bucket_all (λ k, k < 2))). f_equal. cbn [app]. apply insert_here.
    rewrite E. by apply (bucket_all (λ k, 2 ≤ k)).
Qed.

Section Thms.
Context `{TableLaws T} `{CodecLaw PackageRecord} `{CodecLaw BuiltRecord}.

(** What a table holds that only [upsert_packages] and [record_built] write. *)
Definition holds {A} `{Codec A} (key : A → text) (t : T) : Prop :=
  ∀ k v, t_get t k = Some v → ∃ a, v = to_vec a ∧ key a = k.
Definition stored (i : Index T) : Prop := holds name (packages i) ∧ holds b_name (built_table i).

Lemma holds_insert {A} `{Codec A} (key : A → text) t a : holds key t → holds key (t_insert t (key a) (to_vec a)).
Proof.
  intros Ht k v. destruct (decide (key a = k)) as [<-|Hne]; [rewrite get_insert; intros [= <-]; by exists a|].
  rewrite get_insert_ne by done. apply Ht.
Qed.

Lemma stored_upsert i recs : stored i → stored (upsert_packages i recs).
Proof.
  intros [Hp Hb]. split; [|done]. cbn [packages upsert_packages]. revert Hp. generalize (packages i).
  induction recs as [|rec recs IH]; intros t Ht; cbn [fold_left]; [done|]. apply IH. by apply (holds_insert name).
Qed.

Lemma stored_built i rec : stored i → stored (record_built i rec).
Proof. intros [Hp Hb]. split; [done|]. by apply (holds_insert b_name). Qed.

(** The records of a table, in the order of their keys. *)
Definition rows {A} `{Codec A} (t : T) : list A := omap (λ kv, from_slice (snd kv)) (t_iter t).

Lemma elem_of_rows {A} `{CodecLaw A} (key : A → text) t a : holds key t → a ∈ rows t ↔ t_get t (key a) = Some (to_vec a).
Proof.
  intros Ht. unfold rows. rewrite list_elem_of_omap. split.
  - intros ([k v] & Hin & E). cbn [snd] in E. apply iter_get in Hin. destruct (Ht _ _ Hin) as (a' & -> & <-).
    rewrite decode_encode in E. by injection E as ->.
  - intros Hg. exists (key a, to_vec a). split; [by apply iter_get|]. apply decode_encode.
Qed.

Lemma get_in_ok {A} `{CodecLaw A} (key : A → text) t n : holds key t →
  ∃ o, get_in t n = Ok o ∧ (∀ a, o = Some a ↔ a ∈ rows t ∧ key a = n).
Proof.
  intros Ht. unfold get_in, decode. destruct (t_get t n) as [v|] eqn:E.
  - destruct (Ht _ _ E) as (a & -> & <-). rewrite decode_encode. exists (Some a). split; [done|]. intros b. split.
    + intros [= <-]. split; [|done]. by apply (elem_of_rows key).
    + intros [Hb Hk]. apply (elem_of_rows key) in Hb; [|done]. rewrite Hk, E in Hb. injection Hb as Hb.
      apply (f_equal from_slice) in Hb. rewrite !decode_encode in Hb. by injection Hb as ->.
  - exists None. split; [done|]. intros b. split; [done|]. intros [Hb Hk]. apply (elem_of_rows key) in Hb; [|done].
    by rewrite Hk, E in Hb.
Qed.

Lemma rows_decode {A} `{CodecLaw A} (key : A → text) t : holds key t →
  (λ kv, snd kv) <$> t_iter t = to_vec <$> rows t.
Proof.
  intros Ht. assert (∀ kv, kv ∈ t_iter t → ∃ a, snd kv = to_vec a) as Hd.
  { intros [k v] (a & -> & _)%iter_get%Ht. by exists a. }
  unfold rows. induction (t_iter t) as [|kv l IH]; [done|]. destruct (Hd kv) as [a Ea]; [left|].
  cbn [fmap list_fmap omap list_omap]. rewrite Ea, decode_encode. cbn [fmap list_fmap]. f_equal. apply IH. intros x Hx. apply Hd. by right.
Qed.

(** ** Searching *)

(** What a term says of a record, without regard to case. *)
Definition named_as (term : text) (rec : PackageRecord) : bool := bool_decide (lower (name rec) = lower term).
Definition occurs_in (term s : text) : bool := contains (lower term) (lower s).
Definition name_hit (term : text) (rec : PackageRecord) : bool := negb (named_as term rec) && occurs_in term (name rec).
Definition description_hit (term : text) (rec : PackageRecord) : bool :=
  negb (named_as term rec) && negb (occurs_in term (name rec)) && occurs_in term (description rec).

Lemma rank_ascii f term rec : is_ascii term = true →
  rank f term rec = if named_as term rec then Some 0 else if name_hit term rec then Some 1 else if description_hit term rec then Some 2 else None.
Proof.
  intros Ha. unfold rank, equals, matches, name_hit, description_hit, occurs_in. rewrite Ha, !contains_ignore_case_lower.
  unfold eq_ignore_ascii_case, named_as. case_bool_decide; [done|]. cbn [negb andb]. by destruct (contains _ (lower (name rec))).
Qed.

Definition ranked (f : text → text) (term : text) (recs : list PackageRecord) : list (Z * PackageRecord) :=
  omap (λ rec, r ← rank f term rec; Some (r, rec)) recs.

Lemma collect_hits_rows f term l : ∀ recs hits, (λ kv, snd kv) <$> l = to_vec <$> recs →
  collect_hits f term l hits = Ok (hits ++ ranked f term recs).
Proof.
  induction l as [|[k v] l IH]; intros [|rec recs] hits E; try done; cbn [collect_hits]; [by rewrite app_nil_r|].
  injection E as -> E. unfold decode. rewrite decode_encode. rewrite (IH recs) by done. f_equal. unfold ranked. cbn [omap list_omap].
  destruct (rank f term rec); cbn [mbind option_bind]; [by rewrite <- app_assoc|done].
Qed.

Lemma bucket_ranked f term k (P : PackageRecord → bool) recs : (∀ rec, rank f term rec = Some k ↔ P rec = true) →
  snd <$> bucket k (ranked f term recs) = filter (λ rec, P rec = true) recs.
Proof.
  intros HP. unfold bucket, ranked. induction recs as [|rec recs IH]; [done|]. cbn [omap list_omap]. rewrite filter_cons.
  destruct (rank f term rec) as [r|] eqn:E; cbn [mbind option_bind].
  - rewrite filter_cons. cbn [fst]. destruct (decide (r = k)) as [->|Hne].
    + rewrite decide_True by by apply HP. cbn [fmap list_fmap snd]. by f_equal.
    + rewrite decide_False; [exact IH|]. intros E'%HP. congruence.
  - rewrite decide_False; [exact IH|]. intros E'%HP. congruence.
Qed.

Lemma ranked_buckets f term recs : is_ascii term = true →
  snd <$> sort_by_key (ranked f term recs) =
  filter (λ rec, named_as term rec = true) recs ++ filter (λ rec, name_hit term rec = true) recs ++
  filter (λ rec, description_hit term rec = true) recs.
Proof.
  intros Ha. pose proof (λ rec, rank_ascii f term rec Ha) as Hr. rewrite sort_by_key_buckets.
  - rewrite !fmap_app. f_equal; [|f_equal]; apply bucket_ranked; intros rec; rewrite Hr; unfold name_hit, description_hit;
      destruct (named_as term rec), (occurs_in term (name rec)), (occurs_in term (description rec)); cbn; split; congruence.
  - apply Forall_forall. intros x (rec & _ & Hx)%list_elem_of_omap. rewrite Hr in Hx.
    destruct (named_as term rec); [by injection Hx as <-|]. destruct (name_hit term rec); [by injection Hx as <-|].
    destruct (description_hit term rec); [by injection Hx as <-|done].
Qed.

Lemma with_built_pairs t recs : holds b_name t →
  ∃ l, with_built t recs = Ok l ∧ l.*1 = recs ∧ ∀ rec b, (rec, b) ∈ l → get_in t (name rec) = Ok b.
Proof.
  intros Ht. induction recs as [|rec recs (l & E & E1 & Hl)]; cbn [with_built]; [exists []; repeat split; by intros ? ? ?%elem_of_nil|].
  destruct (get_in_ok b_name t (name rec) Ht) as (o & Eo & _). rewrite Eo, E. exists ((rec, o) :: l).
  split; [done|]. split; [cbn; by rewrite E1|]. intros r b [[= -> ->]|Hin]%elem_of_cons; [done|by apply Hl].
Qed.

(** What a search answers.  On an index that only upserts and recorded
    builds have written, a search for an ASCII term succeeds; it answers with
    exactly the records named as the term, then those whose name has it, then
    those whose description has it, without regard to case, each group in the
    order of the names, and every hit with the build recorded for it. *)
Theorem search_ranks_what_matches f (i : Index T) term : stored i → is_ascii term = true →
  ∃ hits, search_with_built f i term = Ok hits ∧
    hits.*1 = filter (λ rec, named_as term rec = true) (rows (packages i)) ++
              filter (λ rec, name_hit term rec = true) (rows (packages i)) ++
              filter (λ rec, description_hit term rec = true) (rows (packages i)) ∧
    ∀ rec b, (rec, b) ∈ hits → built i (name rec) = Ok b.
Proof.
  intros [Hp Hb] Ha. unfold search_with_built, ranked_hits.
  rewrite (collect_hits_rows f term _ _ [] (rows_decode name _ Hp)). cbn [app]. rewrite ranked_buckets by done.
  by apply with_built_pairs.
Qed.

(** ** Syncing *)

Lemma upsert_get (i : Index T) recs n : 
  get (upsert_packages i recs) n = match last (filter (λ r, name r = n) recs) with Some r => Ok (Some r) | None => get i n end.
Proof.
  unfold get. cbn [packages upsert_packages]. generalize (packages i). induction recs as [|r recs IH] using rev_ind; intros t; [done|].
  rewrite fold_left_app, filter_app. cbn [fold_left]. rewrite filter_cons, filter_nil. destruct (decide (name r = n)) as [<-|Hne].
  - rewrite last_snoc. unfold get_in. rewrite get_insert. unfold decode. by rewrite decode_encode.
  - rewrite app_nil_r, <- IH. unfold get_in. by rewrite get_insert_ne.
Qed.

Lemma sync_time_set (i : Index T) s s' now : 0 ≤ now < 2 ^ 64 →
  sync_time (set_sync_time i s now) s' = if bool_decide (s = s') then Ok (Some now) else sync_time i s'.
Proof.
  intros Hn. unfold sync_time. cbn [meta set_sync_time]. case_bool_decide as E.
  - subst. rewrite get_insert, length_to_le_bytes, bool_decide_eq_true_2 by done. by rewrite from_to_le_bytes.
  - rewrite get_insert_ne; [done|]. unfold sync_key. intros E'. apply E. by apply (inj (app _)) in E'.
Qed.

(** The records of a repository database: of the archive its first bytes
    tell, the [desc] entries that parse, in order; every entry is readable. *)
Definition desc_of (e : TarEntry) : option text := if bool_decide (file_name e = Some (lit "desc")) then contents e else None.
Definition readable (e : TarEntry) : Prop := file_name e = Some (lit "desc") → is_Some (contents e).
#[export] Instance readable_dec e : Decision (readable e).
Proof. unfold readable. apply _. Defined.
Section Payloads.
Context (open_tar : Compression → text → option (list (option TarEntry))).
Definition archive_of (raw : text) (entries : list TarEntry) : Prop :=
  ([x1f; x8b] `prefix_of` raw ∧ open_tar Gzip raw = Some (Some <$> entries)) ∨
  ([x28; xb5; x2f; xfd] `prefix_of` raw ∧ open_tar Zstd raw = Some (Some <$> entries)).
Definition database (raw : text) (r : Repo) (recs : list PackageRecord) : Prop :=
  ∃ entries, archive_of raw entries ∧ Forall readable entries ∧ recs = omap (λ e, t ← desc_of e; parse_desc t r) entries.
Lemma read_descs_spec r entries : ∀ out,
  read_descs r (Some <$> entries) out =
    if bool_decide (Forall readable entries) then Ok (out ++ omap (λ e, t ← desc_of e; parse_desc t r) entries) else Err Extraction.
Proof.
  induction entries as [|e entries IH]; intros out; cbn [fmap list_fmap read_descs omap list_omap].
  { rewrite bool_decide_eq_true_2 by constructor. by rewrite app_nil_r. }
  assert (bool_decide (Forall readable (e :: entries)) = bool_decide (readable e) && bool_decide (Forall readable entries)) as ->.
  { rewrite <- bool_decide_and. apply bool_decide_ext. apply Forall_cons. }
  unfold desc_of at 1. destruct (decide (file_name e = Some (lit "desc"))) as [E|E].
  - rewrite (bool_decide_eq_true_2 (file_name e = _)) by done. destruct (contents e) as [t|] eqn:Et.
    + rewrite (bool_decide_eq_true_2 (readable e)) by (intros _; by rewrite Et). cbn [andb mbind option_bind]. rewrite IH.
      destruct (parse_desc t r); by rewrite <- ?app_assoc.
    + rewrite (bool_decide_eq_false_2 (readable e)); [done|]. intros Hr. destruct (Hr E) as [t Ht]. by rewrite Et in Ht.
  - rewrite (bool_decide_eq_false_2 (file_name e = _)) by done. rewrite (bool_decide_eq_true_2 (readable e)) by (intros Hr; by destruct E).
    apply IH.
Qed.

Lemma read_descs_broken r entries : None ∈ entries → ∀ out, read_descs r entries out = Err Extraction.
Proof.
  induction entries as [|[e|] entries IH]; [by intros ?%elem_of_nil| |done]. intros [H'|H']%elem_of_cons out; [done|].
  cbn [read_descs]. case_bool_decide; [|by apply IH]. destruct (contents e); [by apply IH|done].
Qed.

Lemma all_entries {A} (l : list (option A)) : None ∈ l ∨ ∃ l', l = Some <$> l'.
Proof.
  induction l as [|[x|] l [IH|[l' ->]]]; [right; by exists []|left; by right|right; by exists (x :: l')|left; left|left; left].
Qed.

Lemma parse_database raw r recs : parse_repo_db open_tar raw r = Ok recs ↔ database raw r recs.
Proof.
  unfold parse_repo_db, database, archive_of, magic_of.
  assert (∀ c, match open_tar c raw with None => Err Extraction | Some entries => read_descs r entries [] end = Ok recs ↔
    ∃ entries, open_tar c raw = Some (Some <$> entries) ∧ Forall readable entries ∧ recs = omap (λ e, t ← desc_of e; parse_desc t r) entries) as Hc.
  { intros c. destruct (open_tar c raw) as [es|]; [|naive_solver]. destruct (all_entries es) as [Hn|[es' ->]].
    - rewrite read_descs_broken by done. split; [done|]. intros (en & [= ->] & _). by apply list_elem_of_fmap in Hn as (? & ? & _).
    - rewrite read_descs_spec. cbn [app]. case_bool_decide as Hr; split.
      + intros [= <-]. by exists es'.
      + intros (en & [= E%(inj (fmap Some))] & _ & ->). by subst.
      + done.
      + intros (en & [= E%(inj (fmap Some))] & Hr' & _). subst. done. }
  assert (∀ p, starts_with p raw = true ↔ p `prefix_of` raw) as Hp by (intros p; apply starts_with_spec).
  destruct (starts_with [x1f; x8b] raw) eqn:E1; [|destruct (starts_with [x28; xb5; x2f; xfd] raw) eqn:E2].
  - pose proof (proj1 (Hp _) E1) as P1. rewrite Hc. split; [naive_solver|]. intros (en & [[_ He]|[P2 _]] & Hr); [by exists en|].
    destruct P1 as [y ->], P2 as [z Hz]. done.
  - pose proof (proj1 (Hp _) E2) as P2. rewrite Hc. split; [naive_solver|]. intros (en & [[P1 _]|[_ He]] & Hr); [|by exists en].
    apply Hp in P1. by rewrite P1 in E1.
  - split; [done|]. intros (en & [[P1%Hp _]|[P2%Hp _]] & _); congruence.
Qed.

(** A [desc] file as pacman's tools write it is among the records. *)
Lemma database_has raw r recs entries e rec : database raw r recs → archive_of raw entries → e ∈ entries →
  record_ok rec → repo rec = r → e = mkEntry (Some (lit "desc")) (Some (desc_text rec)) → rec ∈ recs.
Proof.
  intros (es & Ha & _ & ->) Ha' Hin Hok <- ->. assert (es = entries) as ->.
  { destruct Ha as [[P Ha]|[P Ha]], Ha' as [[P' Ha']|[P' Ha']];
      try (destruct P as [y ->], P' as [z Hz]; done); rewrite Ha in Ha'; injection Ha' as Ha'; by apply (inj (fmap Some)) in Ha'. }
  apply list_elem_of_omap. eexists. split; [exact Hin|]. cbn. by apply desc_is_read_back.
Qed.
End Payloads.

(** The records of the AUR's dump, with what it leaves out filled in. *)
Definition dump (json : text → option (list DumpEntry)) (raw : text) (recs : list PackageRecord) : Prop :=
  ∃ es, json raw = Some es ∧
    recs = (λ e, mkRecord (e_name e) (e_version e) Aur (match e_package_base e with Some b => b | None => e_name e end)
      (match e_description e with Some d => d | None => [] end) (match e_url e with Some u => u | None => [] end)
      (match e_depends e with Some l => l | None => [] end) (match e_makedepends e with Some l => l | None => [] end)) <$> es.

Lemma parse_dump json raw recs : parse_aur_dump json raw = Ok recs ↔ dump json raw recs.
Proof. unfold parse_aur_dump, dump. destruct (json raw) as [es|]; [|naive_solver]. split; [intros [= <-]; by exists es|by intros (? & [= <-] & ->)]. Qed.

(** What a sync may leave in the index: the new records, of a name the last,
    the builds and, but for what is stamped now, the stamps as they were. *)
Definition synced (i s : Index T) (recs : list PackageRecord) (now : Z) : Prop :=
  (∀ n, get s n = match last (filter (λ r, name r = n) recs) with Some r => Ok (Some r) | None => get i n end) ∧
  built_table s = built_table i ∧ ∀ src, sync_time s src = sync_time i src ∨ sync_time s src = Ok (Some now).

Lemma ingest_states (i : Index T) recs now : 0 ≤ now < 2 ^ 64 →
  let i1 := upsert_packages i recs in let i2 := set_sync_time i1 (lit "official") now in let i3 := set_sync_time i2 (lit "aur") now in
  (synced i i1 recs now ∧ synced i i2 recs now ∧ synced i i3 recs now) ∧
  (sync_time i1 (lit "aur") = sync_time i (lit "aur") ∧ sync_time i2 (lit "aur") = sync_time i (lit "aur")) ∧
  ∀ later t, later - now ≤ t → 0 ≤ t → stale i3 SOURCES later t = Ok false.
Proof.
  intros Hn i1 i2 i3. assert (∀ src, sync_time i1 src = sync_time i src) as Hs1 by done.
  assert (∀ src, sync_time i2 src = if bool_decide (lit "official" = src) then Ok (Some now) else sync_time i src) as Hs2.
  { intros src. unfold i2. by rewrite sync_time_set. }
  assert (∀ src, sync_time i3 src = if bool_decide (lit "aur" = src) then Ok (Some now) else sync_time i2 src) as Hs3.
  { intros src. unfold i3. by rewrite sync_time_set. }
  split; [|split].
  - split; [|split]; (split; [intros n; apply (upsert_get i recs n)|split; [done|]]); intros src.
    + by left.
    + rewrite Hs2. case_bool_decide; auto.
    + rewrite Hs3, Hs2. repeat case_bool_decide; auto.
  - split; [done|by rewrite Hs2].
  - intros later t Hl Ht. assert (sync_time i3 (lit "official") = Ok (Some now)) as E1 by (by rewrite Hs3, Hs2).
    assert (sync_time i3 (lit "aur") = Ok (Some now)) as E2 by (by rewrite Hs3). unfold SOURCES. cbn [stale]. rewrite E1, E2.
    unfold saturating_sub. by replace (Z.max 0 (later - now) <=? t) with true by lia.
Qed.


(** ** Telling what is out of date *)

Definition is_outdated (i : Index T) (n : text) : Prop :=
  ∃ b rec, built i n = Ok (Some b) ∧ get i n = Ok (Some rec) ∧ Vercmp.vercmp (version rec) (version_built b) = Ret Gt.

Lemma pair_upstream_rows (i : Index T) l recs : holds name (packages i) → (λ kv, snd kv) <$> l = to_vec <$> recs →
  ∃ ps, pair_upstream (packages i) l = Ok ps ∧ ps.*1 = recs ∧ ∀ b up, (b, up) ∈ ps → get i (b_name b) = Ok up.
Proof.
  intros Hp. revert recs. induction l as [|[k v] l IH]; intros [|rec recs] E; try done; cbn [pair_upstream].
  - exists []. repeat split. by intros ? ? ?%elem_of_nil.
  - injection E as -> E. unfold decode. rewrite decode_encode. destruct (get_in_ok name (packages i) (b_name rec) Hp) as (o & Eo & _).
    rewrite Eo. destruct (IH recs E) as (ps & -> & <- & Hps). exists ((rec, o) :: ps). split; [done|]. split; [done|].
    intros b up [[= -> ->]|Hin]%elem_of_cons; [done|by apply Hps].
Qed.

Lemma outdated_of_names l : ∀ names, ∃ out, outdated_of l names = Ret out ∧
  ∀ n, n ∈ out ↔ n ∈ names ∨ ∃ b rec, (b, Some rec) ∈ l ∧ n = b_name b ∧ Vercmp.vercmp (version rec) (version_built b) = Ret Gt.
Proof.
  induction l as [|[b up] l IH]; intros names; cbn [outdated_of].
  - exists names. split; [done|]. intros n. split; [by left|]. intros [Hn|(? & ? & ?%elem_of_nil & _)]; done.
  - destruct up as [rec|].
    + destruct (Vercmp.vercmp_is_total_and_antisymmetric (version rec) (version_built b)) as (o & Eo & _). rewrite Eo. cbn [mbind outcome_bind].
      destruct (IH (match o with Gt => names ++ [b_name b] | _ => names end)) as (out & -> & Hout). exists out. split; [done|].
      intros n. rewrite Hout. split.
      * intros [Hn|(b' & r' & Hin & H')]; [|right; exists b', r'; split; [by right|done]].
        destruct o; [by left|by left|]. apply elem_of_app in Hn as [Hn| ->%list_elem_of_singleton]; [by left|].
        right. exists b, rec. split; [left|by split].
      * intros [Hn|(b' & r' & [[= -> ->]|Hin]%elem_of_cons & -> & Hv)].
        -- left. destruct o; [done|done|]. apply elem_of_app. by left.
        -- left. rewrite Hv in Eo. injection Eo as <-. apply elem_of_app. right. by apply list_elem_of_singleton.
        -- right. exists b', r'. by split.
    + destruct (IH names) as (out & -> & Hout). exists out. split; [done|]. intros n. rewrite Hout. split.
      * intros [Hn|(b' & r' & Hin & H')]; [by left|right; exists b', r'; split; [by right|done]].
      * intros [Hn|(b' & r' & [[=]|Hin]%elem_of_cons & H')]; [by left|right; exists b', r'; by split].
Qed.

(** An update rebuilds what is out of date and nothing else.  [outdated]
    answers, and a name is in the answer exactly if a build of it is recorded,
    the index has a record of it, and that record's version sorts above the
    one built. *)
Theorem outdated_is_what_moved (i : Index T) : stored i →
  ∃ names, outdated i = Ret (Ok names) ∧ ∀ n, n ∈ names ↔ is_outdated i n.
Proof.
  intros [Hp Hb]. unfold outdated, built_with_upstream.
  destruct (pair_upstream_rows i _ _ Hp (rows_decode b_name _ Hb)) as (ps & -> & E1 & Hps).
  destruct (outdated_of_names ps []) as (names & -> & Hn). exists names. split; [done|]. intros n. rewrite Hn. unfold is_outdated, built.
  destruct (get_in_ok b_name (built_table i) n Hb) as (o & -> & Ho). split.
  - intros [?%elem_of_nil|(b & rec & Hin & -> & Hv)]; [done|]. exists b, rec. split; [|by split; [apply Hps|]].
    f_equal. apply Ho. split; [|done]. rewrite <- E1. apply list_elem_of_fmap. by exists (b, Some rec).
  - intros (b & rec & [= ->] & Hg & Hv). right. destruct (proj1 (Ho b) eq_refl) as [Hin <-]. rewrite <- E1 in Hin.
    apply list_elem_of_fmap in Hin as ([b' up] & -> & Hin). cbn [fst] in *. exists b', rec. split; [|by split].
    pose proof (Hps _ _ Hin) as Hu. rewrite Hg in Hu. by injection Hu as <-.
Qed.
End Thms.
