(* ===== verification/PkgIndexModel.v ===== *)
(** A store and a codec that keep the laws [PkgIndex] asks for: a finite map
    listed in the order of its keys, and the digits of a record's number. *)
From S2P Require Import Prelude Bits Text Vercmp PkgMeta PkgIndex.
From Stdlib Require Import Strings.Byte Sorting.Sorted.
From stdpp Require Import gmap sorting.

(** ** The table *)

Definition key_le (a b : text * text) : Prop := Vercmp.cmp_bytes (fst a) (fst b) ≠ Gt.
#[export] Instance key_le_dec a b : Decision (key_le a b).
Proof. unfold key_le. apply _. Defined.

#[export] Instance map_table : Table (gmap text text) :=
  {| t_empty := ∅; t_get t k := t !! k; t_insert t k v := <[k := v]> t; t_iter t := merge_sort key_le (map_to_list t) |}.

#[export] Instance key_le_trans : Transitive key_le.
Proof. intros a b c. apply cmp_bytes_trans. Qed.
#[export] Instance key_le_total : Total key_le.
Proof.
  intros a b. unfold key_le. destruct (Vercmp.cmp_bytes (fst a) (fst b)) eqn:E; [by left|by left|right].
  by rewrite Vercmp.cmp_bytes_opp, E.
Qed.

Lemma strictly_sorted l : NoDup l.*1 → StronglySorted key_le l → StronglySorted key_before l.
Proof.
  intros Hnd. induction 1 as [|x l Hl IH Hx]; [constructor|]. cbn in Hnd. apply NoDup_cons in Hnd as [Hni Hnd]. constructor; [by apply IH|].
  apply Forall_forall. intros y Hy. apply (proj1 (Forall_forall _ _) Hx) in Hy as Hle. unfold key_le in Hle. unfold key_before.
  destruct (Vercmp.cmp_bytes (fst x) (fst y)) eqn:E; [|done|done]. apply cmp_bytes_eq in E. destruct Hni.
  apply list_elem_of_fmap. by exists y.
Qed.

#[export] Instance map_table_laws : TableLaws (gmap text text).
Proof.
  split; cbn [t_get t_empty t_insert t_iter map_table].
  - apply lookup_empty.
  - intros t k v. apply lookup_insert_eq.
  - intros t k k' v Hne. by apply lookup_insert_ne.
  - intros t k v. rewrite merge_sort_Permutation. apply elem_of_map_to_list.
  - intros t. apply strictly_sorted; [|apply StronglySorted_merge_sort; apply _].
    rewrite merge_sort_Permutation. apply NoDup_fst_map_to_list.
Qed.

(** ** The codec *)

Fixpoint digits_of (p : positive) : text :=
  match p with xH => [] | xO p' => x00 :: digits_of p' | xI p' => x01 :: digits_of p' end.
Fixpoint of_digits (s : text) : positive :=
  match s with [] => xH | c :: s' => if bool_decide (c = x00) then xO (of_digits s') else xI (of_digits s') end.
Lemma of_digits_of p : of_digits (digits_of p) = p.
Proof. induction p as [p IH|p IH|]; cbn; [| |done]; by rewrite IH. Qed.

Section Codec.
Context {A : Type} `{Countable A}.
#[local] Instance number_codec : Codec A := {| to_vec a := digits_of (encode a); from_slice s := countable.decode (of_digits s) |}.
#[local] Instance number_codec_law : CodecLaw A.
Proof. intros a. cbn. by rewrite of_digits_of, decode_encode. Qed.
End Codec.

#[export] Instance Repo_countable : Countable Repo.
Proof.
  refine (inj_countable' (λ r, match r with Core => 0%N | Extra => 1%N | Aur => 2%N end)
    (λ n, match n with 0%N => Core | 1%N => Extra | _ => Aur end) _). by intros [].
Defined.
#[export] Instance PackageRecord_eq_dec : EqDecision PackageRecord.
Proof. solve_decision. Defined.
#[export] Instance PackageRecord_countable : Countable PackageRecord.
Proof.
  refine (inj_countable' (λ r, (name r, version r, repo r, package_base r, description r, url r, depends r, makedepends r))
    (λ '(n, v, r, b, d, u, ds, ms), mkRecord n v r b d u ds ms) _). by intros [].
Defined.
#[export] Instance BuiltRecord_eq_dec : EqDecision BuiltRecord.
Proof. solve_decision. Defined.
#[export] Instance BuiltRecord_countable : Countable BuiltRecord.
Proof.
  refine (inj_countable' (λ r, (b_name r, version_built r, pkgbuild_sha256 r, artifact_path r, built_at_unix r))
    (λ '(n, v, s, p, t), mkBuilt n v s p t) _). by intros [].
Defined.
#[export] Instance package_codec : Codec PackageRecord := number_codec.
#[export] Instance built_codec : Codec BuiltRecord := number_codec.
#[export] Instance package_codec_law : CodecLaw PackageRecord := number_codec_law.
#[export] Instance built_codec_law : CodecLaw BuiltRecord := number_codec_law.

(** ** An index *)

Definition empty_index : Index (gmap text text) := mkIndex t_empty t_empty t_empty.
Lemma empty_stored : stored empty_index.
Proof. split; intros k v; cbn; by rewrite lookup_empty. Qed.

Definition package (n v d : string) : PackageRecord := mkRecord (lit n) (lit v) Extra (lit n) (lit d) [] [] [].
Definition shells : list PackageRecord :=
  [package "grml-zsh-config" "1-1" "config"; package "zsh" "5.9-1" "the Z shell"; package "fish" "4.0-1" "shell with zsh-like features";
   package "unrelated" "1-1" "nothing here"].
Definition shell_index : Index (gmap text text) :=
  record_built (upsert_packages empty_index shells) (mkBuilt (lit "zsh") (lit "5.8-2") [] (lit "/x") 1).

Lemma shell_index_stored : stored shell_index.
Proof. apply stored_built, stored_upsert, empty_stored. Qed.

Lemma search_ranks_what_matches_witness :
  ∃ hits, search_with_built id shell_index (lit "ZSH") = Ok hits ∧ name <$> hits.*1 = [lit "zsh"; lit "grml-zsh-config"; lit "fish"].
Proof.
  destruct (search_ranks_what_matches id shell_index (lit "ZSH")) as (hits & E & E1 & _);
    [exact shell_index_stored|vm_compute; reflexivity|].
  exists hits. split; [exact E|]. rewrite E1. vm_compute. reflexivity.
Defined.

(** A payload with one package. *)
Definition one_desc : list (option TarEntry) :=
  [Some (mkEntry (Some (lit "desc")) (Some (mjoin ((λ l, l ++ [LF]) <$> [lit "%NAME%"; lit "zsh"; []; lit "%VERSION%"; lit "5.9-5"]))))].

Definition first_sync (refuses : nat → option Error) : list (Index (gmap text text)) * result SyncReport Error :=
  ingest (λ _ _, Some one_desc) (λ _, Some []) refuses empty_index [x1f; x8b] [x1f; x8b] [] 5.
Definition went_well (r : list (Index (gmap text text)) * result SyncReport Error) : bool := match snd r with Ok _ => true | Err _ => false end.


Lemma outdated_is_what_moved_witness : ∃ names, outdated shell_index = Ret (Ok names) ∧ lit "zsh" ∈ names.
Proof.
  destruct (outdated_is_what_moved shell_index shell_index_stored) as (names & E & Hn). exists names. split; [exact E|].
  apply Hn. exists (mkBuilt (lit "zsh") (lit "5.8-2") [] (lit "/x") 1), (package "zsh" "5.9-1" "the Z shell").
  split; [vm_compute; reflexivity|]. split; vm_compute; reflexivity.
Defined.
