(* ===== verification/PkgArtifact.v ===== *)
(** The package archive: [package] of [qpkg/src/artifact.rs].

    A package tree is what [read_dir] shows of it, in whatever order it shows
    it.  The archive is the list of its headers with their data; writing the
    headers as tar blocks and compressing them is the [tar] and [zstd] crates'
    and an argument.  The errors of the file system are not modelled. *)
From S2P Require Import Prelude Bits Text Vercmp PkgMeta PkgContain PkgIndex.
From Stdlib Require Import Strings.Byte Sorting.Sorted.
From stdpp Require Import pretty sorting.
#[global] Open Scope Z_scope.

(** [Kind]; a file's bytes are read when its entry is written. *)
Inductive Kind := KDir | KFile (size mode : Z) (bytes : text) | KSymlink (target : text).
#[export] Instance Kind_eq_dec : EqDecision Kind.
Proof. solve_decision. Defined.

(** [collect]. *)
Definition kind_of (n : Node) : Kind :=
  match n with
  | File mode bytes => KFile (Z.of_nat (length bytes)) (Z.land mode 4095) bytes
  | Dir _ => KDir
  | Link target => KSymlink target
  end.
Fixpoint collect (dir : list text) (n : Node) : list (list text * Kind) :=
  match n with
  | Dir es =>
      (fix go (es : list (text * Node)) : list (list text * Kind) :=
         match es with
         | [] => []
         | (x, n') :: es' => ((dir ++ [x], kind_of n') :: collect (dir ++ [x]) n') ++ go es'
         end) es
  | _ => []
  end.

(** [Ord] on relative paths: component by component. *)
Fixpoint cmp_path (a b : list text) : comparison :=
  match a, b with
  | [], [] => Eq
  | [], _ :: _ => Lt
  | _ :: _, [] => Gt
  | x :: a', y :: b' => match Vercmp.cmp_bytes x y with Eq => cmp_path a' b' | o => o end
  end.

(** [sort_by]: stable. *)
Fixpoint insert_by_path (x : list text * Kind) (l : list (list text * Kind)) : list (list text * Kind) :=
  match l with
  | [] => [x]
  | y :: l' => match cmp_path (fst x) (fst y) with Gt => y :: insert_by_path x l' | _ => x :: y :: l' end
  end.
Definition sort_by_path (l : list (list text * Kind)) : list (list text * Kind) := foldr insert_by_path [] l.

(** The sum of the sizes, in a [u64]. *)
Fixpoint total_size (l : list (list text * Kind)) (acc : Z) : outcome Z :=
  match l with
  | [] => Ret acc
  | (_, KFile size _ _) :: l' => acc' ← add_chk 64 acc size; total_size l' acc'
  | _ :: l' => total_size l' acc
  end.

Definition decimal (z : Z) : text := lit (pretty (Z.to_N z)).

(** The text of [.PKGINFO]. *)
Definition pkginfo (pb : Pkgbuild) (name full : text) (size : Z) : text :=
  lit "# Generated by qpkg" ++ [LF] ++
  lit "pkgname = " ++ name ++ [LF] ++ lit "pkgver = " ++ full ++ [LF] ++ lit "arch = x86_64" ++ [LF] ++
  lit "builddate = 0" ++ [LF] ++ lit "packager = qpkg" ++ [LF] ++ lit "size = " ++ decimal size ++ [LF] ++
  mjoin ((λ dep, lit "depend = " ++ dep ++ [LF]) <$> pb_depends pb).

(** A tar entry: [base_header] and what is set on it. *)
Inductive EntryType := Regular | Directory | Symlink.
Record TarItem := mkItem
  { t_path : list text; t_type : EntryType; t_mode : Z; t_size : Z; t_uid : Z; t_gid : Z; t_mtime : Z; t_owner : text; t_group : text;
    t_data : text; t_link : text }.
Definition base_header (path : list text) (ty : EntryType) (mode size : Z) (data link : text) : TarItem :=
  mkItem path ty mode size 0 0 0 (lit "root") (lit "root") data link.
Definition item_of (e : list text * Kind) : TarItem :=
  match snd e with
  | KDir => base_header (fst e) Directory 493 0 [] []
  | KFile size mode bytes => base_header (fst e) Regular mode size bytes []
  | KSymlink target => base_header (fst e) Symlink 511 0 [] target
  end.

Definition is_dir (e : list text * Kind) : bool := match snd e with KDir => true | _ => false end.

(** [package]: the file's name and the archive's entries. *)
Definition package (pb : Pkgbuild) (tree : Node) : outcome (result (text * list TarItem) Error) :=
  let entries := collect [] tree in
  if forallb is_dir entries then Ret (Err (BuildFailed (lit "package"))) else
  let entries := sort_by_path entries in
  name ← index (pkgname pb) 0;
  size ← total_size entries 0;
  let full := full_version pb in
  let info := pkginfo pb name full size in
  Ret (Ok (name ++ lit "-" ++ full ++ lit "-x86_64.pkg.tar.zst",
    base_header [lit ".PKGINFO"] Regular 420 (Z.of_nat (length info)) info [] :: (item_of <$> entries))).

(** ** Lemmas *)

Section Node_ind.
Context (P : Node → Prop) (HF : ∀ m b, P (File m b)) (HL : ∀ t, P (Link t))
  (HD : ∀ es, Forall (λ e, P (snd e)) es → P (Dir es)).
Fixpoint Node_nested_ind (n : Node) : P n :=
  match n with
  | File m b => HF m b
  | Link t => HL t
  | Dir es => HD es ((fix go (es : list (text * Node)) : Forall (λ e, P (snd e)) es :=
      match es with [] => List.Forall_nil _ | e :: es' => List.Forall_cons _ _ _ (Node_nested_ind (snd e)) (go es') end) es)
  end.
End Node_ind.

Lemma collect_dir dir es : collect dir (Dir es) = es ≫= λ '(x, n), (dir ++ [x], kind_of n) :: collect (dir ++ [x]) n.
Proof. induction es as [|[x n] es IH]; [done|]. cbn [mbind list_bind]. rewrite <- IH. done. Qed.

(** No directory lists a name twice. *)
Fixpoint names_unique (n : Node) : Prop :=
  match n with
  | Dir es =>
      NoDup es.*1 ∧
      (fix go (es : list (text * Node)) : Prop := match es with [] => True | (_, n') :: es' => names_unique n' ∧ go es' end) es
  | _ => True
  end.
Lemma names_unique_dir es : names_unique (Dir es) ↔ NoDup es.*1 ∧ Forall (λ e, names_unique (snd e)) es.
Proof.
  cbn [names_unique]. split; intros [Hn H]; (split; [done|]); clear Hn.
  - induction es as [|[x n] es IH]; constructor; [apply H|apply IH, H].
  - induction H as [|[x n] es Hx _ IH]; [done|]. by split.
Qed.

Lemma find_entry_unique x n es : NoDup es.*1 → (x, n) ∈ es → find_entry x es = Some n.
Proof.
  induction es as [|[y m] es IH]; [by intros _ ?%elem_of_nil|]. cbn. intros [Hni Hnd]%NoDup_cons [[= -> ->]|Hin]%elem_of_cons.
  - by rewrite bool_decide_eq_true_2.
  - rewrite bool_decide_eq_false_2; [by apply IH|]. intros ->. apply Hni, list_elem_of_fmap. by exists (y, n).
Qed.

(** What is collected: every path that leads somewhere, and where. *)
Lemma collect_node_at n : names_unique n → ∀ dir q k,
  (q, k) ∈ collect dir n ↔ ∃ p m, p ≠ [] ∧ q = dir ++ p ∧ node_at n p = Some m ∧ k = kind_of m.
Proof.
  induction n as [m b|t|es IH] using Node_nested_ind; intros Hu dir q k.
  - split; [by intros ?%elem_of_nil|]. intros ([|x p] & m' & ? & _ & E & _); done.
  - split; [by intros ?%elem_of_nil|]. intros ([|x p] & m' & ? & _ & E & _); done.
  - apply names_unique_dir in Hu as [Hnd Hu]. rewrite collect_dir, list_elem_of_bind. split.
    + intros ([x n] & [[= -> ->]|Hc]%elem_of_cons & Hin).
      * exists [x], n. split; [done|]. split; [done|]. cbn. by rewrite (find_entry_unique x n).
      * pose proof (proj1 (Forall_forall _ _) IH _ Hin) as IHn. pose proof (proj1 (Forall_forall _ _) Hu _ Hin) as Hun.
        apply (IHn Hun) in Hc as (p & m & Hp & -> & Hm & ->). exists (x :: p), m. split; [done|]. split; [by rewrite <- app_assoc|].
        cbn [node_at]. by rewrite (find_entry_unique x n).
    + intros ([|x p] & m & Hp & -> & Hm & ->); [done|]. cbn [node_at] in Hm. destruct (find_entry x es) as [n|] eqn:Ef; [|done].
      apply find_entry_In in Ef. exists (x, n). split; [|done]. destruct p as [|y p]; [cbn in Hm; injection Hm as ->; left|].
      right. pose proof (proj1 (Forall_forall _ _) IH _ Ef) as IHn. pose proof (proj1 (Forall_forall _ _) Hu _ Ef) as Hun.
      apply (IHn Hun). exists (y :: p), m. split; [done|]. split; [by rewrite <- app_assoc|done].
Qed.

Lemma collect_prefix n : ∀ dir q k, (q, k) ∈ collect dir n → ∃ p, p ≠ [] ∧ q = dir ++ p.
Proof.
  induction n as [m b|t|es IH] using Node_nested_ind; intros dir q k; [by intros ?%elem_of_nil..|].
  rewrite collect_dir, list_elem_of_bind. intros ([x n] & [[= -> ->]|Hc]%elem_of_cons & Hin); [by exists [x]|].
  apply (proj1 (Forall_forall _ _) IH _ Hin) in Hc as (p & _ & ->). exists (x :: p). by rewrite <- app_assoc.
Qed.

Lemma collect_paths_unique n : names_unique n → ∀ dir, NoDup (collect dir n).*1.
Proof.
  induction n as [m b|t|es IH] using Node_nested_ind; intros Hu dir; [constructor..|].
  apply names_unique_dir in Hu as [Hnd Hu]. rewrite collect_dir. induction es as [|[x n] es IHes]; [constructor|].
  apply Forall_cons in IH as [IHn IH]. apply Forall_cons in Hu as [Hun Hu]. cbn in Hnd. apply NoDup_cons in Hnd as [Hni Hnd].
  cbn [mbind list_bind]. rewrite fmap_app. apply NoDup_app. split; [|split].
  - cbn. apply NoDup_cons. split; [|by apply IHn]. intros ([q k] & E & Hc)%list_elem_of_fmap. cbn in E. subst q.
    apply collect_prefix in Hc as (p & Hp & E). apply Hp. by apply (app_inv_head (dir ++ [x])); rewrite app_nil_r.
  - intros q Hq Hq'. apply list_elem_of_fmap in Hq as ([q1 k1] & -> & Hq). apply list_elem_of_fmap in Hq' as ([q2 k2] & E & Hq').
    cbn in E. subst q2. apply list_elem_of_bind in Hq' as ([y m] & Hq' & Hin).
    assert (∃ p, q1 = dir ++ y :: p) as [p E1].
    { apply elem_of_cons in Hq' as [[= -> ->]|Hc]; [by exists []|]. apply collect_prefix in Hc as (p & _ & ->). exists p. by rewrite <- app_assoc. }
    assert (∃ p, q1 = dir ++ x :: p) as [p' E2].
    { apply elem_of_cons in Hq as [[= -> ->]|Hc]; [by exists []|]. apply collect_prefix in Hc as (p' & _ & ->). exists p'. by rewrite <- app_assoc. }
    rewrite E1 in E2. apply (inj (app dir)) in E2. injection E2 as -> _. apply Hni, list_elem_of_fmap. by exists (x, m).
  - by apply IHes.
Qed.

(** ** The order of the entries *)

Lemma cmp_path_eq a b : cmp_path a b = Eq → a = b.
Proof.
  revert b. induction a as [|x a IH]; intros [|y b]; cbn; try done. destruct (Vercmp.cmp_bytes x y) eqn:E; try done.
  intros ->%IH. by rewrite (cmp_bytes_eq _ _ E).
Qed.

Lemma cmp_path_opp a b : cmp_path b a = CompOpp (cmp_path a b).
Proof.
  revert b. induction a as [|x a IH]; intros [|y b]; cbn; try done. rewrite (Vercmp.cmp_bytes_opp x y).
  destruct (Vercmp.cmp_bytes x y); cbn; auto.
Qed.

Lemma cmp_path_trans a b c : cmp_path a b ≠ Gt → cmp_path b c ≠ Gt → cmp_path a c ≠ Gt.
Proof.
  revert b c. induction a as [|x a IH]; intros [|y b] [|z c]; cbn; try done.
  pose proof (cmp_bytes_trans x y z) as Hxz.
  destruct (Vercmp.cmp_bytes x y) eqn:E1; [apply cmp_bytes_eq in E1 as ->|..|done].
  - destruct (Vercmp.cmp_bytes y z) eqn:E2; [apply IH|done|done].
  - destruct (Vercmp.cmp_bytes y z) eqn:E2; [apply cmp_bytes_eq in E2 as ->; by rewrite E1| |done].
    destruct (Vercmp.cmp_bytes x z) eqn:E3; [|done|by destruct (Hxz ltac:(done) ltac:(done))].
    apply cmp_bytes_eq in E3 as ->. rewrite Vercmp.cmp_bytes_opp, E2 in E1. done.
Qed.

Definition path_le (x y : list text * Kind) : Prop := cmp_path (fst x) (fst y) ≠ Gt.

Lemma insert_by_path_perm x l : insert_by_path x l ≡ₚ x :: l.
Proof.
  induction l as [|y l IH]; [done|]. cbn. destruct (cmp_path _ _); [done|done|]. rewrite IH. apply perm_swap.
Qed.
Lemma sort_by_path_perm l : sort_by_path l ≡ₚ l.
Proof. induction l as [|x l IH]; [done|]. cbn [sort_by_path foldr]. rewrite insert_by_path_perm. by rewrite IH. Qed.

Lemma insert_by_path_sorted x l : StronglySorted path_le l → StronglySorted path_le (insert_by_path x l).
Proof.
  induction 1 as [|y l Hl IH Hy]; [repeat constructor|]. cbn. destruct (cmp_path (fst x) (fst y)) eqn:E.
  1, 2: constructor; [by constructor|]; assert (path_le x y) as Hxy by (unfold path_le; by rewrite E); constructor; [done|];
    eapply Forall_impl; [exact Hy|intros z; by apply cmp_path_trans].
  constructor; [done|]. rewrite insert_by_path_perm. constructor; [|done]. unfold path_le. by rewrite cmp_path_opp, E.
Qed.
Lemma sort_by_path_sorted l : StronglySorted path_le (sort_by_path l).
Proof. induction l as [|x l IH]; [constructor|]. by apply insert_by_path_sorted. Qed.

(** Sorting forgets the order things came in. *)
Lemma sort_by_path_unique l1 l2 : NoDup l1.*1 → l1 ≡ₚ l2 → sort_by_path l1 = sort_by_path l2.
Proof.
  intros Hnd Hp. assert (sort_by_path l1 ≡ₚ sort_by_path l2) as Hs by by rewrite !sort_by_path_perm.
  apply (StronglySorted_unique_strong path_le); try apply sort_by_path_sorted; [|done].
  intros [p1 k1] [p2 k2] H1 H2 H12 H21. rewrite sort_by_path_perm in H1. rewrite sort_by_path_perm, <- Hp in H2.
  unfold path_le in *. cbn [fst] in *. rewrite cmp_path_opp in H21. destruct (cmp_path p1 p2) eqn:E; [|done|done].
  apply cmp_path_eq in E as <-. f_equal. apply list_elem_of_lookup in H1 as [i Hi]. apply list_elem_of_lookup in H2 as [j Hj].
  assert (i = j) as <-.
  { apply (NoDup_lookup _ _ _ p1 Hnd); rewrite list_lookup_fmap; [by rewrite Hi|by rewrite Hj]. }
  rewrite Hi in Hj. by injection Hj.
Qed.

Lemma collect_same t1 t2 : names_unique t1 → names_unique t2 →
  (∀ p, kind_of <$> node_at t1 p = kind_of <$> node_at t2 p) → collect [] t1 ≡ₚ collect [] t2.
Proof.
  intros H1 H2 He. apply NoDup_Permutation.
  - apply (NoDup_fmap_1 fst). by apply collect_paths_unique.
  - apply (NoDup_fmap_1 fst). by apply collect_paths_unique.
  - intros [q k]. rewrite !collect_node_at by done. split; intros (p & m & Hp & -> & Hm & ->); specialize (He p); rewrite Hm in He; cbn in He.
    + destruct (node_at t2 p) as [m'|] eqn:Em; [|done]. injection He as He. by exists p, m'.
    + destruct (node_at t1 p) as [m'|] eqn:Em; [|done]. injection He as He. by exists p, m'.
Qed.

(** Packaging is reproducible. Two trees that have the same files, the
    same directories and the same links, whatever order their directories
    list them in, are packaged to the same archive, or refused alike. *)
Theorem packaging_is_reproducible pb t1 t2 : names_unique t1 → names_unique t2 →
  (∀ p, kind_of <$> node_at t1 p = kind_of <$> node_at t2 p) → package pb t1 = package pb t2.
Proof.
  intros H1 H2 He. pose proof (collect_same t1 t2 H1 H2 He) as Hc. unfold package.
  assert (forallb is_dir (collect [] t1) = forallb is_dir (collect [] t2)) as ->.
  { apply eq_true_iff_eq. rewrite !forallb_forall. split; intros Ha x Hx; apply Ha; apply list_elem_of_In; apply list_elem_of_In in Hx;
      [by rewrite Hc|by rewrite <- Hc]. }
  by rewrite (sort_by_path_unique _ _ (collect_paths_unique t1 H1 []) Hc).
Qed.

(** Two orders of one directory. *)
Definition hello_tree (flip : bool) : Node :=
  let bin := (lit "bin", Dir [(lit "hello", File 493 (lit "hi")); (lit "hi", Link (lit "hello"))]) in
  let doc := (lit "doc", Dir []) in Dir (if flip then [doc; bin] else [bin; doc]).
Definition hello_pb : Pkgbuild := mkPkgbuild [lit "hello"] (lit "2.12") (lit "3") (Some (lit "1")) [] [] [] [] [lit "musl"] [] ∅.

Lemma hello_tree_unique flip : names_unique (hello_tree flip).
Proof. destruct flip; cbn; repeat split; apply (bool_decide_unpack _); vm_compute; reflexivity. Qed.

Lemma packaging_is_reproducible_witness : package hello_pb (hello_tree true) = package hello_pb (hello_tree false) ∧
  match package hello_pb (hello_tree false) with Ret (Ok (n, items)) => length items = 5%nat | _ => False end.
Proof.
  split; [|vm_compute; reflexivity]. apply packaging_is_reproducible; [apply hello_tree_unique|apply hello_tree_unique|].
  intros [|x p]; [reflexivity|]. unfold hello_tree. cbn [node_at find_entry]. repeat (case_bool_decide; try (subst; done)).
Defined.

(** ** What an archive holds *)

Definition bytes_in (l : list (list text * Kind)) : Z :=
  foldr (λ e s, match snd e with KFile size _ _ => size + s | _ => s end) 0 l.

Lemma bytes_in_perm l1 l2 : l1 ≡ₚ l2 → bytes_in l1 = bytes_in l2.
Proof. unfold bytes_in. induction 1 as [|[? []] ? ? ? IH|[? []] [? []]| ? ? ? ? IH1 ? IH2]; cbn in *; lia. Qed.

Lemma collect_sizes n : ∀ dir, Forall (λ e, match snd e with KFile size _ _ => 0 ≤ size | _ => True end) (collect dir n).
Proof.
  induction n as [m b|t|es IH] using Node_nested_ind; intros dir; [constructor..|]. rewrite collect_dir.
  apply Forall_forall. intros e ([x n] & He & Hin)%list_elem_of_bind. apply elem_of_cons in He as [->|He].
  - cbn. destruct n; cbn; lia.
  - exact (proj1 (Forall_forall _ _) (proj1 (Forall_forall _ _) IH _ Hin _) _ He).
Qed.

Lemma total_size_sum l : ∀ acc, Forall (λ e, match snd e with KFile size _ _ => 0 ≤ size | _ => True end) l →
  0 ≤ acc → acc + bytes_in l < 2 ^ 64 → total_size l acc = Ret (acc + bytes_in l).
Proof.
  induction l as [|[q k] l IH]; intros acc Hl H0 Hs; cbn [bytes_in foldr total_size]; [by rewrite Z.add_0_r|].
  apply Forall_cons in Hl as [Hk Hl]. change (foldr _ 0 l) with (bytes_in l) in *. cbn [snd] in *.
  assert (0 ≤ bytes_in l) as Hb.
  { clear -Hl. unfold bytes_in. induction Hl as [|[q' k'] l Hk _ IH]; cbn; [done|]. cbn in Hk. destruct k'; lia. }
  cbn [bytes_in foldr snd] in Hs. change (foldr _ 0 l) with (bytes_in l) in Hs. destruct k as [|size mode bytes|target]; [by apply IH| |by apply IH].
  unfold add_chk. replace (acc + size <? 2 ^ 64) with true by lia. cbn [mbind outcome_bind].
  rewrite IH by (done || lia). f_equal. lia.
Qed.

Lemma sorted_paths l : NoDup l.*1 → StronglySorted (λ x y, cmp_path (t_path x) (t_path y) = Lt) (item_of <$> sort_by_path l).
Proof.
  intros Hnd. assert (∀ e, t_path (item_of e) = fst e) as Ep by by intros [q []].
  assert (NoDup (sort_by_path l).*1) as Hn by by rewrite sort_by_path_perm.
  induction (sort_by_path_sorted l) as [|x m Hm IH Hx]; cbn; [constructor|]. cbn in Hn. apply NoDup_cons in Hn as [Hni Hn].
  constructor; [by apply IH|]. apply Forall_forall. intros z (y & -> & Hy)%list_elem_of_fmap. rewrite !Ep.
  pose proof (proj1 (Forall_forall _ _) Hx _ Hy) as Hle. unfold path_le in Hle. destruct (cmp_path (fst x) (fst y)) eqn:E; [|done|done].
  apply cmp_path_eq in E. destruct Hni. rewrite E. apply list_elem_of_fmap. by exists y.
Qed.

(** What an archive holds.  A tree of directories alone is refused; any
    other is packaged, and the archive starts with [.PKGINFO] and goes on, in
    the order of their paths, with exactly the files, directories and links of
    the tree, each with root for its owner and no date. *)
Theorem archive_holds_the_tree pb tree : names_unique tree → pkgname pb ≠ [] → bytes_in (collect [] tree) < 2 ^ 64 →
  (package pb tree = Ret (Err (BuildFailed (lit "package"))) ∧ ∀ p m, p ≠ [] → node_at tree p = Some m → kind_of m = KDir) ∨
  ∃ file info rest, package pb tree = Ret (Ok (file, info :: rest)) ∧ t_path info = [lit ".PKGINFO"] ∧
    (∀ x, x ∈ rest ↔ ∃ p m, p ≠ [] ∧ node_at tree p = Some m ∧ x = item_of (p, kind_of m)) ∧
    StronglySorted (λ x y, cmp_path (t_path x) (t_path y) = Lt) rest ∧
    Forall (λ x, t_uid x = 0 ∧ t_gid x = 0 ∧ t_mtime x = 0 ∧ t_owner x = lit "root") (info :: rest).
Proof.
  intros Hu Hn Hs. unfold package. destruct (forallb is_dir (collect [] tree)) eqn:Ed.
  - left. split; [done|]. intros p m Hp Hm. pose proof (proj1 (forallb_forall _ _) Ed (p, kind_of m)) as H.
    specialize (H ltac:(apply list_elem_of_In, collect_node_at; [done|]; by exists p, m)). cbn in H. by destruct (kind_of m).
  - right. destruct (pkgname pb) as [|name names]; [done|]. rewrite (index_ok _ 0 name) by done. cbn [mbind outcome_bind].
    rewrite total_size_sum; [|rewrite sort_by_path_perm; apply collect_sizes|done|by rewrite (bytes_in_perm _ _ (sort_by_path_perm _))].
    cbn [mbind outcome_bind]. do 3 eexists. split; [reflexivity|]. split; [done|]. split; [|split].
    + intros x. rewrite list_elem_of_fmap. split.
      * intros ([q k] & -> & Hin). rewrite sort_by_path_perm in Hin. apply collect_node_at in Hin as (p & m & Hp & -> & Hm & ->); [|done].
        by exists p, m.
      * intros (p & m & Hp & Hm & ->). exists (p, kind_of m). split; [done|]. rewrite sort_by_path_perm. apply collect_node_at; [done|]. by exists p, m.
    + apply sorted_paths. by apply collect_paths_unique.
    + constructor; [by repeat split|]. apply Forall_forall. intros x ([q k] & -> & _)%list_elem_of_fmap. by destruct k.
Qed.

Lemma archive_holds_the_tree_witness : ∃ file info rest, package hello_pb (hello_tree true) = Ret (Ok (file, info :: rest)) ∧
  t_path info = [lit ".PKGINFO"].
Proof.
  destruct (archive_holds_the_tree hello_pb (hello_tree true)) as [[E _]|(file & info & rest & E & Hi & _)];
    [apply hello_tree_unique|done|vm_compute; reflexivity|vm_compute in E; discriminate|].
  exists file, info, rest. split; [exact E|exact Hi].
Defined.
