(* ===== verification/PkgSources.v ===== *)
(** The staging of sources: [qpkg/src/sources.rs].

    A directory is a map from names to bytes; a name that climbs out of it is
    not resolved.  Fetching, the digests, the reading of tar archives and git
    are not under [src/]: they are arguments of the definitions.  The downloads
    of one build run on threads of their own; with names of their own they
    write files of their own, so a run of them is an order of the entries. *)
From S2P Require Import Prelude Bits Text Vercmp PkgMeta PkgIndex.
From Stdlib Require Import Strings.Byte.

(** What a fetch gives: no connection, a body, or a body that breaks off. *)
Inductive Fetched := NoConnection | Body (b : text) | Broken (part : text).

(** [Sums] and [Sums::expected]. *)
Inductive Sums := Sha256 (l : list text) | B2 (l : list text) | NoSums.
Definition expected (s : Sums) (i : nat) : outcome (option text) :=
  match s with
  | Sha256 l | B2 l => e ← index l (Z.of_nat i); Ret (Some e)
  | NoSums => Ret None
  end.

Inductive Plan :=
  | Remote (url name : text)
  | Local (file name : text)
  | Git (url : text) (dest : option text).

(** [rsplit('/').next()]. *)
Definition last_segment (s : text) : text := default s (last (split x2f s)).
(** [split(['?', '#']).next()]. *)
Fixpoint before_query (s : text) : text :=
  match s with
  | [] => []
  | c :: s' => if bool_decide (c = x3f) || bool_decide (c = x23) then [] else c :: before_query s'
  end.
Definition remote_file_name (url : text) : text := last_segment (before_query url).

(** The plan of one [source=] entry. *)
Definition plan_of (entry : text) : Plan :=
  let '(dest, url) := match split_once (lit "::") entry with Some (d, u) => (Some d, u) | None => (None, entry) end in
  match strip_prefix (lit "git+") url with
  | Some git_url => Git git_url dest
  | None =>
      if contains (lit "://") url then Remote url (default (remote_file_name url) dest)
      else Local url (default url dest)
  end.

(** An entry of a tar: unreadable, refused by [unpack_in], outside the
    destination, or landed. *)
Inductive ArchiveEntry := Unreadable | Refused | Escapes | Lands (path bytes : text).
Inductive ArchiveKind := TarGz | TarZst | TarXz | Tar.
Definition archive_kind (name : text) : option ArchiveKind :=
  if ends_with (lit ".tar.gz") name || ends_with (lit ".tgz") name then Some TarGz
  else if ends_with (lit ".tar.zst") name then Some TarZst
  else if ends_with (lit ".tar.xz") name then Some TarXz
  else if ends_with (lit ".tar") name then Some Tar
  else None.

Abbreviation Files := (gmap text text).

Section Stage.
Context (fetch : text → Fetched) (sha256_hex b2_hex : text → text)
        (untar : ArchiveKind → text → option (list ArchiveEntry))
        (git_clone : text → text → Files → option Files) (git_checkout : text → text → Files → option Files).

(** [fetch_bytes]. *)
Definition fetch_bytes (url : text) : result text Error :=
  match fetch url with Body b => Ok b | _ => Err Network end.

Definition digest (s : Sums) (b : text) : option text :=
  match s with Sha256 _ => Some (sha256_hex b) | B2 _ => Some (b2_hex b) | NoSums => None end.

(** Whether a body is what its sum says. *)
Definition judge (s : Sums) (e : option text) (name b : text) : result unit Error :=
  match e with
  | None => Ok tt
  | Some e =>
      if bool_decide (e = lit "SKIP") then Ok tt
      else match digest s b with
           | None => Ok tt
           | Some got => if eq_ignore_ascii_case e got then Ok tt else Err (ChecksumMismatch name e got)
           end
  end.

(** [stream_verified]: the file is made once there is a body to read, keeps
    what arrived of a body that breaks off, and goes if the sum is wrong. *)
Definition stream_verified (s : Sums) (i : nat) (url name : text) (src : Files) : outcome (Files * result unit Error) :=
  match fetch url with
  | NoConnection => Ret (src, Err Network)
  | r =>
      e ← expected s i;
      match r with
      | Body b =>
          match judge s e name b with
          | Ok _ => Ret (<[name := b]> src, Ok tt)
          | Err err => Ret (delete name src, Err err)
          end
      | Broken part => Ret (<[name := part]> src, Err Network)
      | NoConnection => Panic
      end
  end.

(** The downloads in the order they come to run, with the failures. *)
Fixpoint download (s : Sums) (l : list (nat * (text * text))) (src : Files) : outcome (Files * list (nat * Error)) :=
  match l with
  | [] => Ret (src, [])
  | (i, (url, name)) :: l' =>
      '(src, r) ← stream_verified s i url name src;
      '(src, failures) ← download s l' src;
      Ret (src, match r with Ok _ => failures | Err e => (i, e) :: failures end)
  end.

(** [min_by_key]: the failure of the first entry. *)
Fixpoint first_failure (l : list (nat * Error)) : option (nat * Error) :=
  match l with
  | [] => None
  | (i, e) :: l' => match first_failure l' with Some (j, e') => if (j <? i)%nat then Some (j, e') else Some (i, e) | None => Some (i, e) end
  end.

Definition remotes_of (plans : list (nat * Plan)) : list (nat * (text * text)) :=
  omap (λ p, match snd p with Remote url name => Some (fst p, (url, name)) | _ => None end) plans.

(** [verify_bytes]. *)
Definition verify_bytes (s : Sums) (i : nat) (file b : text) : outcome (result unit Error) :=
  e ← expected s i; Ret (judge s e file b).

(** [extract_if_archive]. *)
Fixpoint unpack (entries : list ArchiveEntry) (src : Files) : Files * result unit Error :=
  match entries with
  | [] => (src, Ok tt)
  | Lands path b :: entries' => unpack entries' (<[path := b]> src)
  | _ => (src, Err Extraction)
  end.
Definition extract_if_archive (name : text) (src : Files) : Files * result unit Error :=
  match archive_kind (last_segment name) with
  | None => match src !! name with Some _ => (src, Ok tt) | None => (src, Err Io) end
  | Some k =>
      match src !! name with
      | None => (src, Err Io)
      | Some b => match untar k b with None => (src, Err Extraction) | Some entries => unpack entries src end
      end
  end.

(** [stage_git]. *)
Definition git_name (url : text) (dest : option text) : text :=
  match dest with
  | Some d => d
  | None => let base := last_segment url in default base (strip_suffix (lit ".git") base)
  end.
Definition rev_of (fragment : text) : option text :=
  match strip_prefix (lit "tag=") fragment with
  | Some r => Some r
  | None => match strip_prefix (lit "commit=") fragment with Some r => Some r | None => strip_prefix (lit "branch=") fragment end
  end.
Definition stage_git (url_with_fragment : text) (dest : option text) (src : Files) : Files * result unit Error :=
  let '(url, fragment) := match split_once (lit "#") url_with_fragment with Some (u, f) => (u, Some f) | None => (url_with_fragment, None) end in
  let name := git_name url dest in
  match git_clone url name src with
  | None => (src, Err Extraction)
  | Some src =>
      match fragment with
      | None => (src, Ok tt)
      | Some f =>
          match rev_of f with
          | None => (src, Err Extraction)
          | Some rev => match git_checkout name rev src with None => (src, Err Extraction) | Some src => (src, Ok tt) end
          end
      end
  end.

(** One entry of the loop of [stage]; [files] is the PKGBUILD's directory. *)
Definition stage_entry (s : Sums) (files : Files) (i : nat) (p : Plan) (src : Files) : outcome (Files * result unit Error) :=
  match p with
  | Remote _ name => Ret (extract_if_archive name src)
  | Local file name =>
      match files !! file with
      | None => Ret (src, Err Extraction)
      | Some b =>
          r ← verify_bytes s i name b;
          match r with
          | Err e => Ret (src, Err e)
          | Ok _ => Ret (extract_if_archive name (<[name := b]> src))
          end
      end
  | Git url dest => Ret (stage_git url dest src)
  end.
Fixpoint stage_entries (s : Sums) (files : Files) (plans : list (nat * Plan)) (src : Files) : outcome (Files * result unit Error) :=
  match plans with
  | [] => Ret (src, Ok tt)
  | (i, p) :: plans' =>
      '(src, r) ← stage_entry s files i p src;
      match r with Err e => Ret (src, Err e) | Ok _ => stage_entries s files plans' src end
  end.

(** The sums [stage] goes by. *)
Definition sums_of (pb : Pkgbuild) : Sums :=
  if negb (bool_decide (sha256sums pb = [])) then Sha256 (sha256sums pb)
  else if negb (bool_decide (b2sums pb = [])) then B2 (b2sums pb)
  else NoSums.
Definition sums_fit (s : Sums) (n : nat) : bool :=
  match s with Sha256 l | B2 l => bool_decide (length l = n) | NoSums => true end.
Fixpoint plans_from (i : nat) (entries : list text) : list (nat * Plan) :=
  match entries with [] => [] | entry :: entries' => (i, plan_of entry) :: plans_from (S i) entries' end.
Definition plans_of (pb : Pkgbuild) : list (nat * Plan) := plans_from 0 (source pb).

(** [stage]; [order] is the order the downloads come to run in. *)
Definition stage (order : list (nat * (text * text)) → list (nat * (text * text))) (pb : Pkgbuild) (files : Files) : outcome (Files * result unit Error) :=
  let s := sums_of pb in
  if negb (sums_fit s (length (source pb))) then Ret (∅, Err Extraction) else
  let plans := plans_of pb in
  '(src, failures) ← download s (order (remotes_of plans)) ∅;
  match first_failure failures with
  | Some (_, e) => Ret (src, Err e)
  | None => stage_entries s files plans src
  end.
End Stage.

(** ** Lemmas *)

Lemma plans_from_spec k entries i p : (i, p) ∈ plans_from k entries ↔ ∃ j entry, i = (k + j)%nat ∧ entries !! j = Some entry ∧ p = plan_of entry.
Proof.
  revert k. induction entries as [|e entries IH]; intros k; cbn [plans_from].
  - split; [by intros ?%elem_of_nil|]. by intros (j & entry & _ & E & _).
  - rewrite elem_of_cons, IH. split.
    + intros [[= -> ->]|(j & entry & -> & E & ->)]; [exists 0%nat, e; repeat split; lia|]. exists (S j), entry. repeat split; [lia|done].
    + intros ([|j] & entry & -> & E & ->); [left; injection E as ->; f_equal; lia|]. right. exists j, entry. repeat split; [lia|done].
Qed.

Lemma plans_from_indices k entries : (plans_from k entries).*1 = seq k (length entries).
Proof. revert k. induction entries as [|e entries IH]; intros k; cbn; [done|]. by rewrite IH. Qed.

Lemma remotes_of_spec plans i url name : (i, (url, name)) ∈ remotes_of plans ↔ (i, Remote url name) ∈ plans.
Proof.
  unfold remotes_of. rewrite list_elem_of_omap. split.
  - intros ([j []] & Hin & E); by simplify_eq/=.
  - intros Hin. by exists (i, Remote url name).
Qed.

Lemma remotes_of_indices plans : NoDup plans.*1 → NoDup (remotes_of plans).*1.
Proof.
  induction plans as [|[i p] plans IH]; cbn; [constructor|]. intros [Hni Hnd]%NoDup_cons. destruct p as [url name|? ?|? ?]; cbn; [|by apply IH..].
  apply NoDup_cons. split; [|by apply IH]. intros ([j [u n]] & E & Hin)%list_elem_of_fmap. cbn in E. subst j. apply Hni.
  apply remotes_of_spec in Hin. apply list_elem_of_fmap. by exists (i, Remote u n).
Qed.

Lemma first_failure_spec l i e : NoDup l.*1 → first_failure l = Some (i, e) ↔ (i, e) ∈ l ∧ ∀ j e', (j, e') ∈ l → (i ≤ j)%nat.
Proof.
  revert i e. induction l as [|[k d] l IH]; intros i e Hnd; cbn [first_failure].
  { split; [done|]. by intros [?%elem_of_nil _]. }
  cbn in Hnd. apply NoDup_cons in Hnd as [Hni Hnd]. destruct (first_failure l) as [[m d']|] eqn:Ef.
  - destruct (proj1 (IH m d' Hnd) eq_refl) as [Hm Hle].
    assert (k ≠ m) as Hkm by (intros ->; apply Hni, list_elem_of_fmap; by exists (m, d')).
    destruct (Nat.ltb_spec m k) as [Hlt|Hge].
    + split.
      * intros [= <- <-]. split; [by right|]. intros j e' [[= -> ->]|Hj]%elem_of_cons; [lia|by apply (Hle j e')].
      * intros [[[= -> ->]|Hin]%elem_of_cons Hall]; [specialize (Hall m d' ltac:(by right)); lia|].
        apply IH; [done|]. split; [done|]. intros j e' Hj. apply (Hall j e'). by right.
    + split.
      * intros [= <- <-]. split; [left|]. intros j e' [[= -> ->]|Hj]%elem_of_cons; [lia|]. specialize (Hle j e' Hj). lia.
      * intros [[[= -> ->]|Hin]%elem_of_cons Hall]; [done|]. specialize (Hall k d ltac:(left)). specialize (Hle i e Hin).
        assert (i = k) as -> by lia. destruct Hni. apply list_elem_of_fmap. by exists (k, e).
  - assert (l = []) as ->.
    { destruct l as [|[k' d'] l]; [done|]. cbn [first_failure] in Ef. destruct (first_failure l) as [[m e']|]; [|done]. by destruct (m <? k')%nat. }
    rewrite list_elem_of_singleton. split; [intros [= <- <-]; split; [done|]|by intros [[= -> ->] _]].
    intros j e' [= -> ->]%list_elem_of_singleton. lia.
Qed.

Lemma first_failure_perm l1 l2 : NoDup l1.*1 → l1 ≡ₚ l2 → first_failure l1 = first_failure l2.
Proof.
  intros Hnd Hp. assert (NoDup l2.*1) as Hnd2 by by rewrite <- Hp.
  destruct (first_failure l1) as [[i e]|] eqn:E1.
  - symmetry. apply first_failure_spec; [done|]. apply first_failure_spec in E1 as [Hin Hle]; [|done].
    split; [by rewrite <- Hp|]. intros j e' Hj. apply (Hle j e'). by rewrite Hp.
  - destruct l1 as [|[k d] l1]; [by apply Permutation_nil in Hp as ->|]. cbn [first_failure] in E1.
    destruct (first_failure l1) as [[m e']|]; [|done]. by destruct (m <? k)%nat.
Qed.

Section Downloads.
Context (fetch : text → Fetched) (sha256_hex b2_hex : text → text).
Context (s : Sums) (n : nat) (Hfit : sums_fit s n = true).

Definition sum_at (i : nat) : option text := match s with Sha256 l | B2 l => l !! i | NoSums => None end.
Lemma expected_at i : (i < n)%nat → expected s i = Ret (sum_at i).
Proof.
  intros Hi. unfold expected, sum_at. destruct s as [l|l|]; [| |done]; cbn in Hfit; apply bool_decide_eq_true in Hfit;
    (destruct (lookup_lt_is_Some_2 l i) as [e He]; [lia|]; rewrite (index_ok _ _ e) by (lia || by rewrite Nat2Z.id); by rewrite He).
Qed.

(** What one download does to its file, and how it ends: neither depends on
    the others. *)
Definition effect (x : nat * (text * text)) : option (option text) * result unit Error :=
  let '(i, (url, name)) := x in
  match fetch url with
  | NoConnection => (None, Err Network)
  | Broken part => (Some (Some part), Err Network)
  | Body b => match judge sha256_hex b2_hex s (sum_at i) name b with Ok _ => (Some (Some b), Ok tt) | Err e => (Some None, Err e) end
  end.
Definition apply_effect (src : Files) (x : nat * (text * text)) : Files :=
  match fst (effect x) with None => src | Some o => partial_alter (λ _, o) (snd (snd x)) src end.
Definition failures_of (l : list (nat * (text * text))) : list (nat * Error) :=
  omap (λ x, match snd (effect x) with Ok _ => None | Err e => Some (fst x, e) end) l.

Lemma download_effects l : Forall (λ x, (fst x < n)%nat) l → ∀ src,
  download fetch sha256_hex b2_hex s l src = Ret (fold_left apply_effect l src, failures_of l).
Proof.
  induction 1 as [|[i [url name]] l Hi _ IH]; intros src; [done|]. cbn [download fold_left]. cbn in Hi.
  assert (stream_verified fetch sha256_hex b2_hex s i url name src = Ret (apply_effect src (i, (url, name)), snd (effect (i, (url, name))))) as ->.
  { unfold stream_verified, apply_effect, effect. rewrite expected_at by done. destruct (fetch url); cbn; [done| |done].
    by destruct (judge _ _ _ _ _ _) as [[]|]. }
  cbn [mbind outcome_bind]. rewrite IH. cbn [mbind outcome_bind]. f_equal. f_equal. unfold failures_of. cbn [omap list_omap].
  by destruct (snd (effect _)).
Qed.

Lemma effects_perm l1 l2 : l1 ≡ₚ l2 → NoDup ((λ x, snd (snd x)) <$> l1) → ∀ src, fold_left apply_effect l1 src = fold_left apply_effect l2 src.
Proof.
  induction 1 as [|x l1 l2 _ IH|x y l|l1 l2 l3 H12 IH12 H23 IH23]; intros Hnd src; cbn [fold_left]; [done| | |].
  - apply IH. by apply NoDup_cons in Hnd as [_ ?].
  - f_equal. cbn in Hnd. apply NoDup_cons in Hnd as [Hni _]. unfold apply_effect.
    destruct (fst (effect x)), (fst (effect y)); try done. apply partial_alter_partial_alter_ne. intros E. apply Hni. rewrite E. left.
  - rewrite IH12 by done. apply IH23. by rewrite <- H12.
Qed.

Lemma failures_perm l1 l2 : l1 ≡ₚ l2 → failures_of l1 ≡ₚ failures_of l2.
Proof. intros Hp. unfold failures_of. by rewrite Hp. Qed.

Lemma failures_indices l : NoDup l.*1 → NoDup (failures_of l).*1.
Proof.
  induction l as [|x l IH]; cbn; [constructor|]. intros [Hni Hnd]%NoDup_cons. destruct (snd (effect x)) as [|e]; [by apply IH|].
  cbn. apply NoDup_cons. split; [|by apply IH]. intros ([j e'] & E & Hin)%list_elem_of_fmap. cbn in E. apply Hni.
  unfold failures_of in Hin. apply list_elem_of_omap in Hin as (y & Hy & Ey). destruct (snd (effect y)); [done|]. injection Ey as <- _.
  rewrite E. by apply list_elem_of_fmap_2.
Qed.
End Downloads.

Section StageThms.
Context (fetch : text → Fetched) (sha256_hex b2_hex : text → text)
        (untar : ArchiveKind → text → option (list ArchiveEntry))
        (git_clone : text → text → Files → option Files) (git_checkout : text → text → Files → option Files).
Abbreviation stage_in order pb files := (stage fetch sha256_hex b2_hex untar git_clone git_checkout order pb files).

Lemma remotes_in_range pb : Forall (λ x, (fst x < length (source pb))%nat) (remotes_of (plans_of pb)).
Proof.
  apply Forall_forall. intros [i [url name]] (j & entry & -> & Hj & _)%remotes_of_spec%plans_from_spec. cbn.
  by apply lookup_lt_Some in Hj.
Qed.

Lemma remotes_unique pb : NoDup (remotes_of (plans_of pb)).*1.
Proof. apply remotes_of_indices. unfold plans_of. rewrite plans_from_indices. apply NoDup_seq. Qed.

(** [stage], once the downloads have run in some order. *)
Lemma stage_effects order pb files : sums_fit (sums_of pb) (length (source pb)) = true → (∀ l, order l ≡ₚ l) →
  stage_in order pb files =
    match first_failure (failures_of fetch sha256_hex b2_hex (sums_of pb) (order (remotes_of (plans_of pb)))) with
    | Some (_, e) => Ret (fold_left (apply_effect fetch sha256_hex b2_hex (sums_of pb)) (order (remotes_of (plans_of pb))) ∅, Err e)
    | None => stage_entries sha256_hex b2_hex untar git_clone git_checkout (sums_of pb) files (plans_of pb)
                (fold_left (apply_effect fetch sha256_hex b2_hex (sums_of pb)) (order (remotes_of (plans_of pb))) ∅)
    end.
Proof.
  intros Hfit Hord. unfold stage. rewrite Hfit. cbn [negb].
  rewrite (download_effects fetch sha256_hex b2_hex (sums_of pb) (length (source pb)) Hfit); [done|].
  rewrite Hord. apply remotes_in_range.
Qed.

(** Staging does not depend on how the downloads interleave.  If the remote
    sources of a PKGBUILD have names of their own, any two orders in which
    their downloads run stage the same files and end alike: with the same
    answer, or with the same error. *)
Theorem staging_is_deterministic order1 order2 pb files :
  (∀ l, order1 l ≡ₚ l) → (∀ l, order2 l ≡ₚ l) → NoDup ((λ x, snd (snd x)) <$> remotes_of (plans_of pb)) →
  stage_in order1 pb files = stage_in order2 pb files.
Proof.
  intros H1 H2 Hnd. destruct (sums_fit (sums_of pb) (length (source pb))) eqn:Hfit; [|by unfold stage; rewrite Hfit].
  rewrite !stage_effects by done. set (l := remotes_of (plans_of pb)).
  assert (order1 l ≡ₚ order2 l) as Hp by by rewrite H1, H2.
  assert (NoDup (failures_of fetch sha256_hex b2_hex (sums_of pb) (order1 l)).*1) as Hi.
  { apply failures_indices. rewrite H1. apply remotes_unique. }
  rewrite (first_failure_perm _ _ Hi (failures_perm _ _ _ _ _ _ Hp)).
  by rewrite (effects_perm fetch sha256_hex b2_hex (sums_of pb) _ _ Hp) by by rewrite H1.
Qed.

(** What has been checked of one source. *)
Definition checked (s : Sums) (files : Files) (i : nat) (p : Plan) : Prop :=
  match p with
  | Git _ _ => True
  | Remote url name => ∃ b, fetch url = Body b ∧ judge sha256_hex b2_hex s (sum_at s i) name b = Ok tt
  | Local file name => ∃ b, files !! file = Some b ∧ judge sha256_hex b2_hex s (sum_at s i) name b = Ok tt
  end.

Lemma stage_entries_checked s n files plans : sums_fit s n = true → Forall (λ p, (fst p < n)%nat) plans → ∀ src src',
  stage_entries sha256_hex b2_hex untar git_clone git_checkout s files plans src = Ret (src', Ok tt) →
  ∀ i p, (i, p) ∈ plans → match p with Remote _ _ => True | _ => checked s files i p end.
Proof.
  intros Hfit. induction 1 as [|[i p] plans Hi _ IH]; intros src src' Hs; [by intros ? ? ?%elem_of_nil|].
  cbn [stage_entries] in Hs. apply bind_ret_inv in Hs as ([src1 [[]|e]] & He & Hs); [|done].
  intros j q [[= -> ->]|Hin]%elem_of_cons; [|by apply (IH src1 src')]. destruct p as [url name|file name|url dest]; [done| |done].
  cbn [stage_entry] in He. cbn [checked]. destruct (files !! file) as [b|] eqn:Ef; [|done].
  unfold verify_bytes in He. rewrite (expected_at s n Hfit) in He by done. cbn [mbind outcome_bind] in He.
  exists b. split; [done|]. by destruct (judge _ _ s (sum_at s i) name b) as [[]|].
Qed.

Lemma no_failures_checked s l : failures_of fetch sha256_hex b2_hex s l = [] → ∀ i url name, (i, (url, name)) ∈ l →
  ∃ b, fetch url = Body b ∧ judge sha256_hex b2_hex s (sum_at s i) name b = Ok tt.
Proof.
  intros Hf i url name Hin. assert (∀ e, snd (effect fetch sha256_hex b2_hex s (i, (url, name))) ≠ Err e) as He.
  { intros e E. assert ((i, e) ∈ failures_of fetch sha256_hex b2_hex s l) as Hc; [|rewrite Hf in Hc; by apply elem_of_nil in Hc].
    apply list_elem_of_omap. exists (i, (url, name)). by rewrite E. }
  unfold effect in He. destruct (fetch url) as [|b|]; [by destruct (He Network)| |by destruct (He Network)]. exists b. split; [done|].
  destruct (judge _ _ s (sum_at s i) name b) as [[]|e]; [done|by destruct (He e)].
Qed.

Lemma fold_effects_at s l : NoDup ((λ x, snd (snd x)) <$> l) → ∀ src x o, x ∈ l → fst (effect fetch sha256_hex b2_hex s x) = Some o →
  fold_left (apply_effect fetch sha256_hex b2_hex s) l src !! snd (snd x) = o.
Proof.
  assert (∀ l src k, k ∉ ((λ x, snd (snd x)) <$> l : list text) → fold_left (apply_effect fetch sha256_hex b2_hex s) l src !! k = src !! k) as Hout.
  { clear. induction l as [|y l IH]; intros src k; cbn; [done|]. intros [Hk Hn]%not_elem_of_cons. rewrite IH by done.
    unfold apply_effect. destruct (fst (effect _ _ _ _ y)); [|done]. by apply lookup_partial_alter_ne. }
  induction l as [|y l IH]; intros Hnd src x o Hin He; [by apply elem_of_nil in Hin|]. cbn in Hnd. apply NoDup_cons in Hnd as [Hni Hnd].
  cbn [fold_left]. apply elem_of_cons in Hin as [<-|Hin]; [|by apply IH]. rewrite Hout by done. unfold apply_effect. rewrite He.
  apply lookup_partial_alter_eq.
Qed.

Lemma staged_checked order pb files src : (∀ l, order l ≡ₚ l) → stage_in order pb files = Ret (src, Ok tt) →
  ∀ i entry, source pb !! i = Some entry → checked (sums_of pb) files i (plan_of entry).
Proof.
  intros Hord Hs i entry Hi. destruct (sums_fit (sums_of pb) (length (source pb))) eqn:Hfit; [|unfold stage in Hs; by rewrite Hfit in Hs].
  rewrite stage_effects in Hs by done.
  destruct (first_failure _) as [[]|] eqn:Ef; [done|]. set (l := remotes_of (plans_of pb)) in *.
  assert (failures_of fetch sha256_hex b2_hex (sums_of pb) l = []) as Hno.
  { destruct (failures_of fetch sha256_hex b2_hex (sums_of pb) (order l)) as [|[k d] fs] eqn:E.
    - apply Permutation_nil. by rewrite <- E, (failures_perm _ _ _ _ _ _ (Hord l)).
    - cbn [first_failure] in Ef. destruct (first_failure fs) as [[m e']|]; [|done]. by destruct (m <? k)%nat. }
  assert ((i, plan_of entry) ∈ plans_of pb) as Hin by (apply plans_from_spec; by exists i, entry).
  destruct (plan_of entry) as [url name|file name|url dest] eqn:Ep; [| |done].
  - apply (no_failures_checked _ _ Hno). by apply remotes_of_spec.
  - assert (Forall (λ p, (fst p < length (source pb))%nat) (plans_of pb)) as Hall.
    { apply Forall_forall. intros [j q] (j' & e' & -> & Hj & _)%plans_from_spec. cbn. by apply lookup_lt_Some in Hj. }
    exact (stage_entries_checked _ _ _ _ Hfit Hall _ _ Hs _ _ Hin).
Qed.

(** What the PKGBUILD declares of the bytes of source [i]: the sum at its
    place in the first of the two lists that has any is [SKIP] or their
    digest, in either case of letters. *)
Definition sum_meets (sum got : text) : Prop :=
  sum = lit "SKIP" ∨ to_ascii_lowercase <$> sum = to_ascii_lowercase <$> got.
Definition declares (pb : Pkgbuild) (i : nat) (b : text) : Prop :=
  (sha256sums pb ≠ [] → ∃ sum, sha256sums pb !! i = Some sum ∧ sum_meets sum (sha256_hex b)) ∧
  (sha256sums pb = [] → b2sums pb ≠ [] → ∃ sum, b2sums pb !! i = Some sum ∧ sum_meets sum (b2_hex b)).

(** A source that has been verified: what follows [::], or all of the entry,
    is where its bytes come from.  Git checks its own. *)
Definition origin (entry : text) : text := match split_once (lit "::") entry with Some (_, u) => u | None => entry end.
Definition verified (pb : Pkgbuild) (files : Files) (i : nat) (entry : text) : Prop :=
  let url := origin entry in
  starts_with (lit "git+") url = true ∨
  ∃ b, (if contains (lit "://") url then fetch url = Body b else files !! url = Some b) ∧ declares pb i b.

Lemma judge_declares pb i name b : sums_fit (sums_of pb) (length (source pb)) = true → (i < length (source pb))%nat →
  judge sha256_hex b2_hex (sums_of pb) (sum_at (sums_of pb) i) name b = Ok tt ↔ declares pb i b.
Proof.
  unfold declares, sums_of. intros Hfit Hi.
  assert (∀ l got name, (i < length l)%nat → (match l !! i with
    | None => Ok tt
    | Some e => if bool_decide (e = lit "SKIP") then Ok tt else if eq_ignore_ascii_case e got then Ok tt else Err (ChecksumMismatch name e got) end) = Ok tt ↔
    ∃ sum, l !! i = Some sum ∧ sum_meets sum got) as Hsum.
  { intros l got nm [e He]%lookup_lt_is_Some_2. rewrite He. unfold sum_meets, eq_ignore_ascii_case. repeat case_bool_decide; naive_solver. }
  destruct (decide (sha256sums pb = [])) as [E1|E1]; [|destruct (sha256sums pb) as [|x l]; [done|]].
  - rewrite E1 in *. cbn in *. destruct (decide (b2sums pb = [])) as [E2|E2]; [rewrite E2; by cbn|].
    destruct (b2sums pb) as [|x l]; [done|]. cbn [negb bool_decide] in *. rewrite bool_decide_eq_false_2 in * by done. cbn [negb] in *.
    cbn [sums_fit] in Hfit. apply bool_decide_eq_true in Hfit. unfold judge. cbn [sum_at digest]. rewrite Hsum by lia. naive_solver.
  - rewrite bool_decide_eq_false_2 in * by done. cbn [negb] in *. cbn [sums_fit] in Hfit. apply bool_decide_eq_true in Hfit.
    unfold judge. cbn [sum_at digest]. rewrite Hsum by lia. naive_solver.
Qed.

Lemma staged_verified order pb files src : (∀ l, order l ≡ₚ l) → stage_in order pb files = Ret (src, Ok tt) →
  ∀ i entry, source pb !! i = Some entry → verified pb files i entry.
Proof.
  intros Hord Hs i entry Hi. pose proof (staged_checked _ _ _ _ Hord Hs _ _ Hi) as Hc.
  assert (sums_fit (sums_of pb) (length (source pb)) = true) as Hfit by (destruct (sums_fit _ _) eqn:E; [done|]; unfold stage in Hs; by rewrite E in Hs).
  pose proof (lookup_lt_Some _ _ _ Hi) as Hlt. unfold verified, origin, plan_of in *.
  destruct (split_once (lit "::") entry) as [[d u]|]; unfold strip_prefix in Hc;
    (destruct (starts_with (lit "git+") _); [by left|right]); destruct (contains (lit "://") _); cbn [checked] in Hc;
    destruct Hc as (b & Hb & Hj%judge_declares); eauto.
Qed.

(** The sources of a PKGBUILD that are files of their own: no archive to
    unpack, no checkout, no name used twice. *)
Definition plan_name (p : Plan) : option text := match p with Remote _ n | Local _ n => Some n | Git _ _ => None end.
Definition plain_plan (p : Plan) : Prop := ∃ n, plan_name p = Some n ∧ archive_kind (last_segment n) = None.

Lemma plain_staged name src : archive_kind (last_segment name) = None → fst (extract_if_archive untar name src) = src.
Proof. unfold extract_if_archive. intros ->. by destruct (src !! name). Qed.

Lemma stage_entries_at s n files plans : sums_fit s n = true → Forall (λ p, (fst p < n)%nat) plans → Forall (λ p, plain_plan (snd p)) plans →
  NoDup (omap (λ p, plan_name (snd p)) plans) → ∀ src src',
  stage_entries sha256_hex b2_hex untar git_clone git_checkout s files plans src = Ret (src', Ok tt) →
  (∀ k, k ∉ omap (λ p, plan_name (snd p)) plans → src' !! k = src !! k) ∧
  ∀ i p, (i, p) ∈ plans → match p with
    | Remote _ name => src' !! name = src !! name
    | Local file name => src' !! name = files !! file
    | Git _ _ => True
    end.
Proof.
  intros Hfit. induction 1 as [|[i p] plans Hi _ IH]; intros Hpl Hnd src src' Hs; [injection Hs as ->; split; [done|by intros ? ? ?%elem_of_nil]|].
  apply Forall_cons in Hpl as [(nm & Hnm & Hk) Hpl]. cbn [omap list_omap snd] in *. rewrite Hnm in *. apply NoDup_cons in Hnd as [Hni Hnd].
  cbn [stage_entries] in Hs. apply bind_ret_inv in Hs as ([src1 [[]|e]] & He & Hs); [|done].
  destruct (IH Hpl Hnd _ _ Hs) as [Hout Hin].
  assert (src1 = match p with Local file name => partial_alter (λ _, files !! file) name src | _ => src end) as ->.
  { destruct p as [url name|file name|url dest]; cbn in Hnm, He; simplify_eq.
    - by rewrite <- (plain_staged nm src Hk), He.
    - destruct (files !! file) as [b|]; [|done]. unfold verify_bytes in He. rewrite (expected_at s n Hfit) in He by done.
      cbn [mbind outcome_bind] in He. destruct (judge _ _ _ _ _ _); [|done]. injection He as He.
      change (partial_alter _ nm src) with (<[nm:=b]> src). by rewrite <- (plain_staged nm (<[nm:=b]> src) Hk), He. }
  split.
  - intros k [Hne Hn]%not_elem_of_cons. rewrite Hout by done. destruct p as [|file name|]; cbn in Hnm; simplify_eq; try done.
    by rewrite lookup_partial_alter_ne.
  - intros j q [[= -> ->]|Hj]%elem_of_cons.
    + destruct p as [url name|file name|]; cbn in Hnm; simplify_eq; rewrite Hout by done; [done|]. by rewrite lookup_partial_alter_eq.
    + pose proof (Hin j q Hj) as Hq. destruct q as [url name|file name|]; [|done..]. rewrite Hq.
      destruct p as [|f' n'|]; cbn in Hnm; simplify_eq; try done. apply lookup_partial_alter_ne. intros ->. apply Hni.
      apply list_elem_of_omap. by exists (j, Remote url name).
Qed.

(** Staging ends, whatever is fetched. *)
Lemma stage_entries_ends s n files plans : sums_fit s n = true → Forall (λ p, (fst p < n)%nat) plans → ∀ src,
  ∃ x, stage_entries sha256_hex b2_hex untar git_clone git_checkout s files plans src = Ret x.
Proof.
  intros Hfit. induction 1 as [|[i p] plans Hi _ IH]; intros src; cbn [stage_entries]; [eauto|].
  assert (∃ y, stage_entry sha256_hex b2_hex untar git_clone git_checkout s files i p src = Ret y) as [[src1 [[]|e]] ->].
  { destruct p as [|file name|]; cbn [stage_entry]; [eauto| |eauto]. destruct (files !! file); [|eauto].
    unfold verify_bytes. rewrite (expected_at s n Hfit) by done. cbn. destruct (judge _ _ _ _ _ _); eauto. }
  - cbn. apply IH.
  - cbn. eauto.
Qed.

Lemma plans_in_range pb : Forall (λ p, (fst p < length (source pb))%nat) (plans_of pb).
Proof.
  apply Forall_forall. intros [j q] (j' & e' & -> & Hj & _)%plans_from_spec. cbn. by apply lookup_lt_Some in Hj.
Qed.

Lemma stage_ends order pb files : (∀ l, order l ≡ₚ l) → ∃ src r, stage_in order pb files = Ret (src, r).
Proof.
  intros Hord. destruct (sums_fit (sums_of pb) (length (source pb))) eqn:Hfit; [|unfold stage; rewrite Hfit; eauto].
  rewrite stage_effects by done. destruct (first_failure _) as [[]|]; [eauto|].
  destruct (stage_entries_ends (sums_of pb) _ files (plans_of pb) Hfit (plans_in_range pb)
    (fold_left (apply_effect fetch sha256_hex b2_hex (sums_of pb)) (order (remotes_of (plans_of pb))) ∅)) as [[src r] E]. eauto.
Qed.

Lemma refused_download order pb files src r i url name b : (∀ l, order l ≡ₚ l) → stage_in order pb files = Ret (src, r) →
  NoDup ((λ x, snd (snd x)) <$> remotes_of (plans_of pb)) →
  (i, (url, name)) ∈ remotes_of (plans_of pb) → fetch url = Body b → ¬ declares pb i b → (∃ e, r = Err e) ∧ src !! name = None.
Proof.
  intros Hord Hs Hnd Hin Hf Hj. destruct (sums_fit (sums_of pb) (length (source pb))) eqn:Hfit.
  2:{ unfold stage in Hs. rewrite Hfit in Hs. injection Hs as <- <-. split; [eauto|apply lookup_empty]. }
  pose proof (proj1 (Forall_forall _ _) (remotes_in_range pb) _ Hin) as Hi. cbn in Hi. rewrite <- (judge_declares pb i name b Hfit Hi) in Hj.
  destruct (judge _ _ _ _ _ _) as [[]|e] eqn:Ej in Hj; [done|]. clear Hj. rewrite stage_effects in Hs by done.
  assert (effect fetch sha256_hex b2_hex (sums_of pb) (i, (url, name)) = (Some None, Err e)) as He by (unfold effect; by rewrite Hf, Ej).
  set (l := remotes_of (plans_of pb)) in *.
  assert ((i, e) ∈ failures_of fetch sha256_hex b2_hex (sums_of pb) (order l)) as Hfail.
  { apply list_elem_of_omap. exists (i, (url, name)). split; [by rewrite Hord|]. by rewrite He. }
  destruct (first_failure _) as [[j e']|] eqn:Ef.
  - injection Hs as <- <-. split; [by exists e'|].
    apply (fold_effects_at (sums_of pb) (order l) ltac:(by rewrite Hord) ∅ (i, (url, name)) None); [by rewrite Hord|by rewrite He].
  - destruct (failures_of fetch sha256_hex b2_hex (sums_of pb) (order l)) as [|[k d] fs]; [by apply elem_of_nil in Hfail|].
    cbn [first_failure] in Ef. destruct (first_failure fs) as [[m e']|]; [|done]. by destruct (m <? k)%nat.
Qed.

Lemma plans_remotes_nodup plans : NoDup (omap (λ p, plan_name (snd p)) plans) → NoDup ((λ x, snd (snd x)) <$> remotes_of plans).
Proof.
  unfold remotes_of. induction plans as [|[i p] plans IH]; [constructor|]. destruct p as [url name|file name|url dest]; cbn;
    [intros [Hni Hnd]%NoDup_cons|intros [_ Hnd]%NoDup_cons; by apply IH|exact IH]. apply NoDup_cons. split; [|by apply IH].
  intros ([j [u n]] & -> & Hin)%list_elem_of_fmap. apply remotes_of_spec in Hin. apply Hni, list_elem_of_omap. by exists (j, Remote u n).
Qed.

Lemma staged_files_are_verified order pb files src : (∀ l, order l ≡ₚ l) → stage_in order pb files = Ret (src, Ok tt) →
  Forall (λ p, plain_plan (snd p)) (plans_of pb) → NoDup (omap (λ p, plan_name (snd p)) (plans_of pb)) →
  ∀ i entry, source pb !! i = Some entry → ∃ name b, plan_name (plan_of entry) = Some name ∧ src !! name = Some b ∧ declares pb i b.
Proof.
  intros Hord Hs Hpl Hnd i entry Hi. pose proof (staged_checked _ _ _ _ Hord Hs _ _ Hi) as Hc.
  destruct (sums_fit (sums_of pb) (length (source pb))) eqn:Hfit; [|unfold stage in Hs; by rewrite Hfit in Hs].
  pose proof (lookup_lt_Some _ _ _ Hi) as Hlt. rewrite stage_effects in Hs by done.
  destruct (first_failure _) as [[]|] eqn:Ef; [done|]. set (l := remotes_of (plans_of pb)) in *.
  destruct (stage_entries_at _ _ _ _ Hfit (plans_in_range pb) Hpl Hnd _ _ Hs) as [_ Hat].
  assert ((i, plan_of entry) ∈ plans_of pb) as Hin by (apply plans_from_spec; by exists i, entry).
  specialize (Hat _ _ Hin). pose proof (proj1 (Forall_forall _ _) Hpl _ Hin) as (nm & Hnm & _). cbn [snd] in Hnm.
  destruct (plan_of entry) as [url name|file name|url dest] eqn:Ep; cbn in Hnm; simplify_eq; cbn [checked] in Hc;
    destruct Hc as (b & Hb & Hj); exists nm, b; (split; [done|]; split; [|by apply judge_declares in Hj]).
  - rewrite Hat. apply (fold_effects_at (sums_of pb) (order l) ltac:(rewrite Hord; by apply plans_remotes_nodup) ∅ (i, (url, nm)) (Some b)).
    + rewrite Hord. by apply remotes_of_spec.
    + unfold effect. by rewrite Hb, Hj.
  - by rewrite Hat.
Qed.

End StageThms.

(** ** A recipe with two downloads *)

Definition two_sources : Pkgbuild :=
  mkPkgbuild [lit "p"] (lit "1") (lit "1") None [] [lit "https://h/a.c"; lit "b::https://h/x?y#z"; lit "p.patch"]
    [lit "AB"; lit "SKIP"; lit "cd"] [] [] [] ∅.
Definition two_fetch (url : text) : Fetched := if bool_decide (url = lit "https://h/a.c") then Body (lit "ab") else Body (lit "x").
Definition two_files : Files := {[lit "p.patch" := lit "cd"]}.
Abbreviation stage_two order fetch := (stage fetch id id (λ _ _, None) (λ _ _ _, None) (λ _ _ _, None) order two_sources two_files).

Lemma two_sources_names : NoDup ((λ x, snd (snd x)) <$> remotes_of (plans_of two_sources)).
Proof. apply (bool_decide_unpack _). vm_compute. reflexivity. Qed.

Lemma staging_is_deterministic_witness : stage_two reverse two_fetch = stage_two id two_fetch.
Proof.
  apply (staging_is_deterministic two_fetch id id (λ _ _, None) (λ _ _ _, None) (λ _ _ _, None) reverse id two_sources two_files).
  - intros l. apply reverse_Permutation.
  - intros l. reflexivity.
  - exact two_sources_names.
Defined.

Definition staged (m : outcome (Files * result unit Error)) : bool := match m with Ret (_, Ok _) => true | _ => false end.
Lemma staged_files m : staged m = true → ∃ src, m = Ret (src, Ok tt).
Proof. destruct m as [[src [[]|]]|]; [by exists src|done..]. Qed.

