(* ===== verification/PkgBuild.v ===== *)
(** The build of one package: [qpkg/src/build.rs], and [run_functions] of
    [runner.rs].

    The index, the PKGBUILD's directory, the sources and the package tree are
    one state; the network, bash, the digests, the decoders and git are
    arguments.  What the run prints and the log of bash are not modelled. *)
From S2P Require Import Prelude Bits Text Vercmp PkgMeta PkgContain PkgRewrite PkgIndex PkgArtifact PkgSources.
From Stdlib Require Import Strings.Byte.
From stdpp Require Import pretty.
#[global] Open Scope Z_scope.

(** ** Addresses *)

Fixpoint replace_byte (c : byte) (by_ s : text) : text :=
  match s with [] => [] | x :: s' => (if bool_decide (x = c) then by_ else [x]) ++ replace_byte c by_ s' end.

Definition GITLAB_RESERVED : list text :=
  lit <$> ["badges"; "blame"; "blob"; "builds"; "commits"; "create"; "edit"; "environments";
           "files"; "new"; "preview"; "raw"; "refs"; "tree"; "update"; "wikis"]%string.

Definition official_raw_url (base version file : text) : text :=
  let project := replace_byte x2b (lit "plus") base in
  let project := if bool_decide (project ∈ GITLAB_RESERVED) then lit "unix-" ++ project else project in
  let tag := replace_byte x3a (lit "-") version in
  lit "https://gitlab.archlinux.org/archlinux/packaging/packages/" ++ project ++ lit "/-/raw/" ++ tag ++ lit "/" ++ file.

(** [snapshot_url] of [aur.rs]. *)
Definition snapshot_url (base : text) : text :=
  lit "https://aur.archlinux.org/cgit/aur.git/snapshot/" ++ base ++ lit ".tar.gz".

(** ** The environment of a build: [toolchain.rs] *)

Definition TARGET : text := lit "x86_64-unknown-linux-musl".
Definition MUSL_ROOT : text := lit "/usr/lib/musl".
Definition build_env (workdir : text) : list (text * text) :=
  let cflags := lit "--target=" ++ TARGET ++ lit " --sysroot=" ++ MUSL_ROOT ++ lit " -static -O2" in
  let ldflags := lit "--target=" ++ TARGET ++ lit " --sysroot=" ++ MUSL_ROOT ++ lit " -fuse-ld=lld -static" in
  let dead := lit "http://127.0.0.1:9" in
  [(lit "PATH", lit "/usr/bin:/bin"); (lit "HOME", workdir); (lit "LC_ALL", lit "C"); (lit "CC", lit "clang"); (lit "CXX", lit "clang++");
   (lit "AR", lit "llvm-ar"); (lit "RANLIB", lit "llvm-ranlib"); (lit "NM", lit "llvm-nm"); (lit "STRIP", lit "llvm-strip");
   (lit "OBJCOPY", lit "llvm-objcopy"); (lit "LD", lit "ld.lld"); (lit "CHOST", TARGET); (lit "CFLAGS", cflags); (lit "CXXFLAGS", cflags);
   (lit "LDFLAGS", ldflags); (lit "http_proxy", dead); (lit "https_proxy", dead); (lit "ftp_proxy", dead)].

Definition REQUIRED_TOOLS : list text :=
  lit <$> ["bash"; "git"; "clang"; "clang++"; "llvm-ar"; "llvm-ranlib"; "llvm-strip"; "ld.lld"]%string.
(** [tools_present] and [check_host]; what is on the host is asked of it. *)
Fixpoint tools_present (on_path : text → bool) (tools : list text) : result unit Error :=
  match tools with
  | [] => Ok tt
  | tool :: tools' => if on_path tool then tools_present on_path tools' else Err (MissingTool tool)
  end.
Definition check_host (has_sysroot : bool) (on_path : text → bool) : result unit Error :=
  if has_sysroot then tools_present on_path REQUIRED_TOOLS else Err (MissingTool (lit "musl sysroot")).

Section Build.
Context {T : Type} `{Table T} `{Codec PackageRecord} `{Codec BuiltRecord}.

(** The index, and the work directory: the files beside the PKGBUILD, and
    [src] and [pkg] once they exist. *)
Record World := mkWorld { w_index : Index T; w_files : Files; w_src : option Files; w_pkg : option Node }.

(** A step of the build: it may panic, and it may fail. *)
Definition Step (A : Type) : Type := World → outcome (World * result A Error).
Definition done_with {A} (a : A) : Step A := λ w, Ret (w, Ok a).
Definition fail_with {A} (e : Error) : Step A := λ w, Ret (w, Err e).
Definition lift {A} (r : result A Error) : Step A := λ w, Ret (w, r).
Definition then_ {A B} (s : Step A) (k : A → Step B) : Step B := λ w,
  '(w', r) ← s w; match r with Ok a => k a w' | Err e => Ret (w', Err e) end.
#[local] Notation "'step!' x := s 'in' k" := (then_ s (λ x, k)) (at level 10, x name, s at level 100, k at level 200).

Context (fetch : text → Fetched) (sha256_hex b2_hex : text → text)
        (untar : ArchiveKind → text → option (list ArchiveEntry))
        (git_clone : text → text → Files → option Files) (git_checkout : text → text → Files → option Files)
        (order : list (nat * (text * text)) → list (nat * (text * text))).
(** The files of an AUR snapshot under the package's base; the standard
    library's lossy decoding; what bash prints of the variables of a PKGBUILD;
    and a function of it run by bash: whether it succeeded, and the trees
    after it. *)
Context (snapshot : text → text → option Files) (from_utf8_lossy : text → text)
        (bash_declare : Files → option text)
        (bash_run : text → Pkgbuild → Files → Files → Node → option (bool * (Files * Node))).
(** What the database answers to the commit of a built record; a transaction
    that is refused has changed nothing. *)
Context (commit : BuiltRecord → result unit Error).
(** Where artifacts go, and the work directory, an absolute path. *)
Context (out_dir : text) (workdir : list text).

(** [refuse_html]. *)
Definition refuse_html (bytes : text) : result unit Error :=
  let head := if (64 <=? length bytes)%nat then take 64 bytes else bytes in
  let head := trim_start (from_utf8_lossy head) in
  if starts_with (lit "<!DOCTYPE") head || starts_with (lit "<html") head then Err Network else Ok tt.

Definition fetch_step (url : text) : Step text := lift (fetch_bytes fetch url).

(** A new work directory. *)
Definition fresh_workdir : Step unit := λ w, Ret (mkWorld (w_index w) ∅ None None, Ok tt).
Definition write_file (name bytes : text) : Step unit := λ w,
  Ret (mkWorld (w_index w) (<[name := bytes]> (w_files w)) (w_src w) (w_pkg w), Ok tt).
Definition write_files (f : Files) : Step unit := λ w, Ret (mkWorld (w_index w) f (w_src w) (w_pkg w), Ok tt).

(** [fetch_pkgbuild]. *)
Definition fetch_pkgbuild (rec : PackageRecord) : Step text :=
  match repo rec with
  | Core | Extra =>
      let url := official_raw_url (package_base rec) (version rec) (lit "PKGBUILD") in
      step! bytes := fetch_step url in
      step! _ := lift (refuse_html bytes) in
      done_with bytes
  | Aur =>
      step! bytes := fetch_step (snapshot_url (package_base rec)) in
      match snapshot bytes (package_base rec) with
      | None => fail_with Extraction
      | Some files =>
          step! _ := write_files files in
          match files !! lit "PKGBUILD" with None => fail_with Extraction | Some b => done_with b end
      end
  end.

(** [extract], on the files as they are. *)
Definition extract : Step Pkgbuild := λ w,
  match bash_declare (w_files w) with
  | None => Ret (w, Err Extraction)
  | Some stdout =>
      r ← parse_transcript (from_utf8_lossy stdout);
      Ret (w, match r with Ok pb => Ok pb | Err _ => Err Extraction end)
  end.

Definition arch_step (pb : Pkgbuild) : Step unit := λ w,
  r ← check_arch pb;
  Ret (w, match r with Ok _ => Ok tt | Err _ => Err (UnsupportedArchitecture (arch pb)) end).

(** The local sources of an official package, one by one. *)
Fixpoint fetch_local (rec : PackageRecord) (entries : list text) : Step unit :=
  match entries with
  | [] => done_with tt
  | entry :: entries' =>
      let file := match split_once (lit "::") entry with Some (d, _) => d | None => entry end in
      if negb (contains (lit "://") entry) && negb (starts_with (lit "git+") entry) then
        let url := official_raw_url (package_base rec) (version rec) file in
        step! bytes := fetch_step url in
        step! _ := lift (refuse_html bytes) in
        step! _ := write_file file bytes in
        fetch_local rec entries'
      else fetch_local rec entries'
  end.

Definition stage_step (pb : Pkgbuild) : Step unit := λ w,
  '(src, r) ← stage fetch sha256_hex b2_hex untar git_clone git_checkout order pb (w_files w);
  Ret (mkWorld (w_index w) (w_files w) (Some src) (w_pkg w), r).

(** [run_functions] of [runner.rs]. *)
Definition STAGES : list text := [lit "prepare"; lit "build"; lit "package"].
Fixpoint run_stages (pb : Pkgbuild) (stages : list text) : Step unit :=
  match stages with
  | [] => done_with tt
  | stage :: stages' => λ w,
      _ ← index (pkgname pb) 0;
      match bash_run stage pb (w_files w) (default ∅ (w_src w)) (default (Dir []) (w_pkg w)) with
      | None => Ret (w, Err Extraction)
      | Some (success, (src, pkg)) =>
          let w := mkWorld (w_index w) (w_files w) (Some src) (Some pkg) in
          if success then run_stages pb stages' w else Ret (w, Err (BuildFailed stage))
      end
  end.
Definition make_dirs : Step unit := λ w, Ret (mkWorld (w_index w) (w_files w) (Some (default ∅ (w_src w))) (Some (default (Dir []) (w_pkg w))), Ok tt).
Definition run_functions (pb : Pkgbuild) : Step unit :=
  step! _ := make_dirs in
  run_stages pb (filter (λ s, s ∈ functions pb) STAGES).

Definition pkgdir : PathBuf := mkPath true (workdir ++ [lit "pkg"]).
Definition contain_step : Step unit := λ w,
  Ret (w, match check_containment pkgdir (default (Dir []) (w_pkg w)) with Ok _ => Ok tt | Err p => Err (Containment (names p)) end).
Definition package_step (pb : Pkgbuild) : Step text := λ w,
  r ← package pb (default (Dir []) (w_pkg w));
  Ret (w, match r with Ok (file, _) => Ok (out_dir ++ lit "/" ++ file) | Err e => Err e end).
Definition record_step (rec : BuiltRecord) : Step unit := λ w,
  match commit rec with
  | Err e => Ret (w, Err e)
  | Ok _ => Ret (mkWorld (record_built (w_index w) rec) (w_files w) (w_src w) (w_pkg w), Ok tt)
  end.
Definition clean_up : Step unit := λ w, Ret (mkWorld (w_index w) (w_files w) None None, Ok tt).

Definition look_up (n : text) : Step PackageRecord := λ w,
  Ret (w, match get (w_index w) n with Ok (Some rec) => Ok rec | Ok None => Err IndexError | Err e => Err e end).

Definition rewrite_step (no_rewrite : bool) (t : text) : Step (text * list RewriteLog) := λ w,
  if no_rewrite then Ret (w, Ok (t, [])) else r ← expect (rewrite t); Ret (w, Ok r).

(** [build_inner]. *)
Definition build_inner (name : text) (no_rewrite : bool) (now : Z) : Step (text * list RewriteLog) :=
  step! rec := look_up name in
  step! _ := fresh_workdir in
  step! pkgbuild_bytes := fetch_pkgbuild rec in
  let sha := sha256_hex pkgbuild_bytes in
  step! t := rewrite_step no_rewrite (from_utf8_lossy pkgbuild_bytes) in
  step! _ := write_file (lit "PKGBUILD") (fst t) in
  step! pb := extract in
  step! _ := arch_step pb in
  step! _ := (if bool_decide (repo rec = Aur) then done_with tt else fetch_local rec (source pb)) in
  step! _ := stage_step pb in
  step! _ := run_functions pb in
  step! _ := contain_step in
  step! artifact := package_step pb in
  step! _ := record_step (mkBuilt name (full_version pb) sha artifact now) in
  step! _ := clean_up in
  done_with (artifact, snd t).
End Build.
