(* ===== verification/PkgBuildThms.v ===== *)
(** What a recorded build has gone through. *)
From S2P Require Import Prelude Bits Text Vercmp PkgMeta PkgContain PkgRewrite PkgIndex PkgIndexModel PkgArtifact PkgSources PkgBuild.
From Stdlib Require Import Strings.Byte.
#[global] Open Scope Z_scope.

Section Steps.
Context {T : Type} `{Table T} `{Codec PackageRecord} `{Codec BuiltRecord}.
Abbreviation Step A := (PkgBuild.Step (T := T) A).

(** A step that leaves a part of the state alone; and one that leaves the
    index alone if it fails. *)
Definition preserves {X A} (f : World (T := T) → X) (s : Step A) : Prop := ∀ w w' r, s w = Ret (w', r) → f w' = f w.
Definition keeps_on_error {A} (s : Step A) : Prop := ∀ w w' e, s w = Ret (w', Err e) → w_index w' = w_index w.

Lemma then_ok {A B} (s : Step A) (k : A → Step B) w w' b : then_ s k w = Ret (w', Ok b) →
  ∃ w1 a, s w = Ret (w1, Ok a) ∧ k a w1 = Ret (w', Ok b).
Proof. unfold then_. intros ([w1 [a|e]] & Hs & Hk)%bind_ret_inv; [by exists w1, a|done]. Qed.

Lemma preserves_then {X A B} (f : World → X) (s : Step A) (k : A → Step B) : preserves f s → (∀ a, preserves f (k a)) → preserves f (then_ s k).
Proof.
  intros Hs Hk w w' r. unfold then_. intros ([w1 [a|e]] & E & E')%bind_ret_inv.
  - rewrite (Hk a _ _ _ E'). by apply (Hs _ _ _ E).
  - injection E' as -> _. by apply (Hs _ _ _ E).
Qed.

Lemma keeps_then {A B} (s : Step A) (k : A → Step B) : preserves w_index s → (∀ a, keeps_on_error (k a)) → keeps_on_error (then_ s k).
Proof.
  intros Hs Hk w w' e'. unfold then_. intros ([w1 [a|e]] & E & E')%bind_ret_inv.
  - rewrite (Hk a _ _ _ E'). by apply (Hs _ _ _ E).
  - injection E' as -> _. by apply (Hs _ _ _ E).
Qed.

Lemma preserves_lift {X A} (f : World → X) (r : result A Error) : preserves f (lift r).
Proof. intros w w' r'. by intros [= -> _]. Qed.
Lemma preserves_done {X A} (f : World → X) (a : A) : preserves f (done_with a).
Proof. intros w w' r'. by intros [= -> _]. Qed.
Lemma preserves_fail {X A} (f : World → X) (e : Error) : preserves f (fail_with (A := A) e).
Proof. intros w w' r'. by intros [= -> _]. Qed.
End Steps.
#[export] Hint Resolve preserves_lift preserves_done preserves_fail : qunix.

Section Thms.
Context {T : Type} `{Table T} `{Codec PackageRecord} `{Codec BuiltRecord}.
Context (fetch : text → Fetched) (sha256_hex b2_hex : text → text)
        (untar : ArchiveKind → text → option (list ArchiveEntry))
        (git_clone : text → text → Files → option Files) (git_checkout : text → text → Files → option Files)
        (order : list (nat * (text * text)) → list (nat * (text * text)))
        (snapshot : text → text → option Files) (from_utf8_lossy : text → text)
        (bash_declare : Files → option text)
        (bash_run : text → Pkgbuild → Files → Files → Node → option (bool * (Files * Node)))
        (commit : BuiltRecord → result unit Error) (out_dir : text) (workdir : list text).
Abbreviation build := (build_inner (T := T) fetch sha256_hex b2_hex untar git_clone git_checkout order snapshot from_utf8_lossy
  bash_declare bash_run commit out_dir workdir).

(** The steps before the sources are staged write beside the PKGBUILD only. *)
Section Frame.
Context {X : Type} (f : World (T := T) → X) (Hf : ∀ i fs fs' s p, f (mkWorld i fs s p) = f (mkWorld i fs' s p)).

Lemma f_files (w : World) fs : f (mkWorld (w_index w) fs (w_src w) (w_pkg w)) = f w.
Proof using Hf. destruct w. apply Hf. Qed.

Lemma preserves_write_files fs : preserves f (write_files fs).
Proof using Hf. intros w w' r [= <- _]. apply f_files. Qed.
Lemma preserves_write_file n b : preserves f (write_file n b).
Proof using Hf. intros w w' r [= <- _]. apply f_files. Qed.

Lemma preserves_fetch_pkgbuild rec : preserves f (fetch_pkgbuild fetch snapshot from_utf8_lossy rec).
Proof using Hf.
  unfold fetch_pkgbuild, fetch_step. destruct (repo rec); repeat (apply preserves_then; [auto with qunix|intros ?]); auto with qunix.
  destruct (snapshot _ _); [|auto with qunix]. apply preserves_then; [apply preserves_write_files|]. intros _. destruct (_ !! _); auto with qunix.
Qed.

Lemma preserves_fetch_local rec entries : preserves f (fetch_local fetch from_utf8_lossy rec entries).
Proof using Hf.
  induction entries as [|e entries IH]; cbn [fetch_local]; [auto with qunix|]. destruct (_ && _); [|done].
  repeat (apply preserves_then; [apply preserves_lift || apply preserves_write_file|intros ?]). done.
Qed.

Lemma preserves_look_up n : preserves f (look_up n).
Proof. intros w w' r [= <- _]. done. Qed.
Lemma preserves_rewrite_step b t : preserves f (rewrite_step b t).
Proof. intros w w' r. unfold rewrite_step. destruct b; [by intros [= <- _]|]. by intros (x & _ & [= <- _])%bind_ret_inv. Qed.
Lemma preserves_extract : preserves f (extract from_utf8_lossy bash_declare).
Proof. intros w w' r. unfold extract. destruct (bash_declare _); [|by intros [= <- _]]. by intros (x & _ & [= <- _])%bind_ret_inv. Qed.
Lemma preserves_arch_step pb : preserves f (arch_step pb).
Proof. intros w w' r. unfold arch_step. by intros (x & _ & [= <- _])%bind_ret_inv. Qed.
End Frame.

Lemma index_stage_step pb : preserves (T := T) w_index (stage_step fetch sha256_hex b2_hex untar git_clone git_checkout order pb).
Proof. intros w w' r. unfold stage_step. by intros ([src x] & _ & [= <- _])%bind_ret_inv. Qed.
Lemma index_package_step pb : preserves (T := T) w_index (package_step out_dir pb).
Proof. intros w w' r. unfold package_step. by intros (x & _ & [= <- _])%bind_ret_inv. Qed.
Lemma index_run_stages pb l : preserves (T := T) w_index (run_stages bash_run pb l).
Proof.
  induction l as [|stage l IH]; cbn [run_stages]; [auto with qunix|]. intros w w' r (n & _ & Hs)%bind_ret_inv.
  destruct (bash_run _ _ _ _ _) as [[[|] [src pkg]]|]; [by apply IH in Hs|by injection Hs as <- _|by injection Hs as <- _].
Qed.
Lemma index_run_functions pb : preserves (T := T) w_index (run_functions bash_run pb).
Proof. apply preserves_then; [by intros w w' r [= <- _]|intros _; apply index_run_stages]. Qed.

(** A run of the stages that all succeed: the trees before and after each. *)
Inductive ran (pb : Pkgbuild) (files : Files) : list text → Files → Node → Files → Node → Prop :=
  | ran_nil src pkg : ran pb files [] src pkg src pkg
  | ran_cons stage l src pkg src1 pkg1 src2 pkg2 :
      bash_run stage pb files src pkg = Some (true, (src1, pkg1)) → ran pb files l src1 pkg1 src2 pkg2 →
      ran pb files (stage :: l) src pkg src2 pkg2.

Lemma run_stages_ran pb l : ∀ w w' u, run_stages (T := T) bash_run pb l w = Ret (w', Ok u) →
  ran pb (w_files w) l (default ∅ (w_src w)) (default (Dir []) (w_pkg w)) (default ∅ (w_src w')) (default (Dir []) (w_pkg w')).
Proof.
  induction l as [|stage l IH]; intros w w' u; cbn [run_stages]; [intros [= <- _]; constructor|].
  intros (n & _ & Hs)%bind_ret_inv. destruct (bash_run _ _ _ _ _) as [[[|] [src pkg]]|] eqn:E; [|done..].
  apply IH in Hs. cbn in Hs. by econstructor.
Qed.
(** ** What a build that is recorded has gone through *)

(** Where a link leads, name by name, from the directory it is in. *)
Fixpoint follow (cur l : list text) : option (list text) :=
  match l with
  | [] => Some cur
  | s :: l' =>
      if bool_decide (s = []) || bool_decide (s = lit ".") then follow cur l'
      else if bool_decide (s = lit "..") then match reverse cur with [] => None | _ :: up => follow (reverse up) l' end
      else follow (cur ++ [s]) l'
  end.
Definition leads (from : list text) (target : text) : option (list text) :=
  follow (if starts_with (lit "/") target then [] else from) (split x2f target).

Lemma resolve_follow b l : ∀ cur p, resolve_lexically (mkPath b cur) (omap segment l) = Some p → follow cur l = Some (names p) ∧ rooted p = b.
Proof.
  induction l as [|s l IH]; intros cur p; cbn [omap list_omap follow]; [by intros [= <-]|]. unfold segment.
  destruct (bool_decide (s = []) || bool_decide (s = lit ".")); [apply IH|]. destruct (bool_decide (s = lit "..")); cbn [resolve_lexically].
  - unfold pop. cbn [names rooted]. destruct (reverse cur) as [|x up]; [done|]. apply IH.
  - apply IH.
Qed.

Lemma inside_leads pkgdir from t : resolves_inside (mkPath true pkgdir) (mkPath true from) t = true →
  ∃ q, leads from t = Some q ∧ pkgdir `prefix_of` q.
Proof.
  unfold resolves_inside, leads. destruct (resolve_lexically _ _) as [p|] eqn:E; [|done].
  unfold path_starts_with. cbn [rooted names]. intros [_ Hp%bool_decide_eq_true]%andb_true_iff. exists (names p). split; [|done].
  unfold components, SLASH in E. change (starts_with (lit "/") t) with (is_absolute t). destruct (is_absolute t).
  - by apply resolve_follow in E as [? _].
  - destruct (split x2f t) as [|x l]; [by apply resolve_follow in E as [? _]|].
    destruct (bool_decide (x = lit ".")); by apply resolve_follow in E as [? _].
Qed.

(** The PKGBUILD and the files beside it as they came: the snapshot of an AUR
    package; for the others the PKGBUILD alone. *)
Definition fetched (rec : PackageRecord) (bytes : text) (beside : Files) : Prop :=
  match repo rec with
  | Aur => ∃ tarball, fetch (lit "https://aur.archlinux.org/cgit/aur.git/snapshot/" ++ package_base rec ++ lit ".tar.gz") = Body tarball ∧
      snapshot tarball (package_base rec) = Some beside ∧ beside !! lit "PKGBUILD" = Some bytes
  | _ => fetch (official_raw_url (package_base rec) (version rec) (lit "PKGBUILD")) = Body bytes ∧ beside = ∅
  end.
(** The version a PKGBUILD gives. *)
Definition version_of (pb : Pkgbuild) : text :=
  match epoch pb with Some e => e ++ lit ":" | None => [] end ++ pkgver pb ++ lit "-" ++ pkgrel pb.

(** [t] is the PKGBUILD as bash sees it, [beside] and [files] what is beside
    it then and when the sources are staged, [src] and [pkg] the trees. *)
Record finished_build (w w' : World (T := T)) (n : text) (no_rewrite : bool) (now : Z) (artifact : text) (log : list RewriteLog)
    (rec : PackageRecord) (bytes t out : text) (beside files : Files) (pb : Pkgbuild) (src src' : Files) (pkg : Node) : Prop := {
  fb_indexed : get (w_index w) n = Ok (Some rec);
  fb_fetched : fetched rec bytes beside;
  fb_rewritten : if no_rewrite then t = from_utf8_lossy bytes ∧ log = [] else rewrite (from_utf8_lossy bytes) = Some (t, log);
  fb_declared : bash_declare (<[lit "PKGBUILD" := t]> beside) = Some out ∧ parse_transcript (from_utf8_lossy out) = Ret (Ok pb);
  fb_arch : lit "x86_64" ∈ arch pb ∨ lit "any" ∈ arch pb;
  fb_beside : ∀ x b, files !! x = Some b → <[lit "PKGBUILD" := t]> beside !! x = Some b ∨
    repo rec ≠ Aur ∧ fetch (official_raw_url (package_base rec) (version rec) x) = Body b;
  fb_staged : stage fetch sha256_hex b2_hex untar git_clone git_checkout order pb files = Ret (src, Ok tt);
  fb_verified : ∀ i entry, source pb !! i = Some entry → verified fetch sha256_hex b2_hex pb files i entry;
  fb_ran : ran pb files (filter (λ s, s ∈ functions pb) [lit "prepare"; lit "build"; lit "package"]) src (Dir []) src' pkg;
  fb_contained : ∀ p x target, node_at pkg (p ++ [x]) = Some (Link target) →
    ∃ q, leads (workdir ++ [lit "pkg"] ++ p) target = Some q ∧ (workdir ++ [lit "pkg"]) `prefix_of` q;
  fb_packaged : ∃ name names items, pkgname pb = name :: names ∧
    package pb pkg = Ret (Ok (name ++ lit "-" ++ version_of pb ++ lit "-x86_64.pkg.tar.zst", items)) ∧
    artifact = out_dir ++ lit "/" ++ name ++ lit "-" ++ version_of pb ++ lit "-x86_64.pkg.tar.zst";
  fb_recorded : w_index w' = mkIndex (packages (w_index w))
    (t_insert (built_table (w_index w)) n (to_vec (mkBuilt n (version_of pb) (sha256_hex bytes) artifact now))) (meta (w_index w));
  fb_clean : w_src w' = None ∧ w_pkg w' = None
}.
Definition gone_through (w w' : World) (n : text) (no_rewrite : bool) (now : Z) (artifact : text) (log : list RewriteLog) : Prop :=
  ∃ rec bytes t out beside files pb src src' pkg,
    finished_build w w' n no_rewrite now artifact log rec bytes t out beside files pb src src' pkg.

Lemma version_full pb : full_version pb = version_of pb.
Proof. unfold full_version, version_of. destruct (epoch pb); by rewrite <- ?app_assoc. Qed.

Lemma fetch_ok url (w w' : World (T := T)) b : fetch_step fetch url w = Ret (w', Ok b) → fetch url = Body b ∧ w' = w.
Proof. unfold fetch_step, fetch_bytes, lift. destruct (fetch url); intros; by simplify_eq/=. Qed.

Lemma fetch_pkgbuild_ok rec w w' bytes : fetch_pkgbuild (T := T) fetch snapshot from_utf8_lossy rec w = Ret (w', Ok bytes) → w_files w = ∅ →
  fetched rec bytes (w_files w').
Proof.
  unfold fetch_pkgbuild, fetched. intros Hst Hw. destruct (repo rec).
  1, 2: apply then_ok in Hst as (w1 & b & [Hb ->]%fetch_ok & Hst); apply then_ok in Hst as (w2 & u & [= <- _] & [= <- <-]); done.
  apply then_ok in Hst as (w1 & b & [Hb ->]%fetch_ok & Hst). exists b. split; [exact Hb|]. destruct (snapshot _ _) as [fs|]; [|done].
  apply then_ok in Hst as (w2 & [] & [= <-] & Hst). destruct (fs !! lit "PKGBUILD") eqn:E; [|done]. by injection Hst as <- <-.
Qed.

Lemma fetch_local_ok rec entries : ∀ w w' u, fetch_local (T := T) fetch from_utf8_lossy rec entries w = Ret (w', Ok u) →
  ∀ x b, w_files w' !! x = Some b → w_files w !! x = Some b ∨ fetch (official_raw_url (package_base rec) (version rec) x) = Body b.
Proof.
  induction entries as [|e entries IH]; intros w w' u; cbn [fetch_local]; [intros [= <- _]; auto|].
  destruct (_ && _); [|apply IH]. intros (w1 & c & [Hc ->]%fetch_ok & Hst)%then_ok. apply then_ok in Hst as (w2 & u2 & [= <- _] & Hst).
  apply then_ok in Hst as (w3 & u3 & [= <- _] & Hst). intros x b Hx. destruct (IH _ _ _ Hst x b Hx) as [Hf|]; [|by right].
  cbn [w_files] in Hf. apply lookup_insert_Some in Hf as [[<- <-]|[_ Hf]]; auto.
Qed.

Lemma arch_ok pb : check_arch pb = Ret (Ok tt) → lit "x86_64" ∈ arch pb ∨ lit "any" ∈ arch pb.
Proof.
  unfold check_arch. destruct (existsb _ (arch pb)) eqn:E; [|by destruct (index _ _)]. intros _.
  apply existsb_exists in E as (a & Ha%list_elem_of_In & [->%bool_decide_eq_true| ->%bool_decide_eq_true]%orb_true_iff); auto.
Qed.

Lemma package_ok pb pkg file items : package pb pkg = Ret (Ok (file, items)) →
  ∃ name names, pkgname pb = name :: names ∧ file = name ++ lit "-" ++ version_of pb ++ lit "-x86_64.pkg.tar.zst".
Proof.
  unfold package. destruct (forallb _ _); [done|]. destruct (pkgname pb) as [|name names]; [done|].
  rewrite (index_ok _ 0 name) by done. cbn [mbind outcome_bind]. intros (size & _ & [= <- _])%bind_ret_inv.
  exists name, names. split; [done|]. by rewrite version_full.
Qed.

(** The steps up to the staging: what they leave alone, and what they give. *)
Section BeforeStaging.
Context (rec : PackageRecord) (w2 w3 w4 w5 w6 w7 w8 : World (T := T)) (bytes t : text) (lg : list RewriteLog) (pb : Pkgbuild) (nr : bool).
Context (Hfetch : fetch_pkgbuild fetch snapshot from_utf8_lossy rec w2 = Ret (w3, Ok bytes)).
Context (Hempty : w_files w2 = ∅).
Context (Ht : rewrite_step nr (from_utf8_lossy bytes) w3 = Ret (w4, Ok (t, lg))).
Context (Hw5 : write_file (lit "PKGBUILD") t w4 = Ret (w5, Ok tt)).
Context (Hx : extract from_utf8_lossy bash_declare w5 = Ret (w6, Ok pb)).
Context (Ha : arch_step pb w6 = Ret (w7, Ok tt)).
Context (Hl : (if bool_decide (repo rec = Aur) then done_with tt else fetch_local fetch from_utf8_lossy rec (source pb)) w7 = Ret (w8, Ok tt)).

Lemma until_staged X (f : World (T := T) → X) : (∀ i fs fs' s p, f (mkWorld i fs s p) = f (mkWorld i fs' s p)) → f w8 = f w2.
Proof using Hfetch Ht Hw5 Hx Ha Hl.
  intros Hf. transitivity (f w7).
  { case_bool_decide; [by apply (preserves_done f) in Hl|]. by apply (preserves_fetch_local f Hf) in Hl. }
  apply (preserves_arch_step f) in Ha as ->. apply (preserves_extract f) in Hx as ->. apply (preserves_write_file f Hf) in Hw5 as ->.
  apply (preserves_rewrite_step f) in Ht as ->. by apply (preserves_fetch_pkgbuild f Hf) in Hfetch as ->.
Qed.

Lemma files_staged : ∃ out, fetched rec bytes (w_files w3) ∧
  (if nr then t = from_utf8_lossy bytes ∧ lg = [] else rewrite (from_utf8_lossy bytes) = Some (t, lg)) ∧
  (bash_declare (<[lit "PKGBUILD" := t]> (w_files w3)) = Some out ∧ parse_transcript (from_utf8_lossy out) = Ret (Ok pb)) ∧
  (lit "x86_64" ∈ arch pb ∨ lit "any" ∈ arch pb) ∧
  ∀ x b, w_files w8 !! x = Some b → <[lit "PKGBUILD" := t]> (w_files w3) !! x = Some b ∨
    repo rec ≠ Aur ∧ fetch (official_raw_url (package_base rec) (version rec) x) = Body b.
Proof using Hfetch Hempty Ht Hw5 Hx Ha Hl.
  pose proof (preserves_rewrite_step w_files _ _ _ _ _ Ht) as F4. pose proof (preserves_extract w_files _ _ _ Hx) as F6.
  pose proof (preserves_arch_step w_files _ _ _ _ Ha) as F7. injection Hw5 as <-. cbn [w_files] in F6.
  unfold extract in Hx. cbn [w_files] in Hx. rewrite F4 in Hx, F6. destruct (bash_declare _) as [out|] eqn:Eo; [|done].
  apply bind_ret_inv in Hx as (x & Hpb & E). destruct x as [pb'|]; [|done]. injection E as _ ->. exists out. split; [by eapply fetch_pkgbuild_ok|]. split; [|split; [done|split]].
  - unfold rewrite_step in Ht. destruct nr; [by injection Ht as _ <- <-|].
    apply bind_ret_inv in Ht as ([t' lg'] & Hr & [= _ <- <-]). destruct (rewrite _); [|done]. by injection Hr as ->.
  - unfold arch_step in Ha. apply bind_ret_inv in Ha as ([[]|] & Ha' & [= _]). by apply arch_ok.
  - intros x b Hxb. rewrite <- F6, <- F7. case_bool_decide as Er.
    + injection Hl as <-. by left.
    + destruct (fetch_local_ok _ _ _ _ _ Hl x b Hxb); auto.
Qed.
End BeforeStaging.

Lemma build_errors n no_rewrite now : keeps_on_error (build n no_rewrite now).
Proof.
  unfold build_inner. apply keeps_then; [apply preserves_look_up|intros rec].
  apply keeps_then; [by intros w w' r [= <- _]|intros _]. apply keeps_then; [by apply preserves_fetch_pkgbuild|intros bytes].
  apply keeps_then; [apply preserves_rewrite_step|intros t]. apply keeps_then; [by apply preserves_write_file|intros _].
  apply keeps_then; [apply preserves_extract|intros pb]. apply keeps_then; [apply preserves_arch_step|intros _].
  apply keeps_then; [case_bool_decide; [auto with qunix|by apply preserves_fetch_local]|intros _].
  apply keeps_then; [apply index_stage_step|intros _]. apply keeps_then; [apply index_run_functions|intros _].
  apply keeps_then; [by intros w w' r [= <- _]|intros _]. apply keeps_then; [apply index_package_step|intros artifact].
  intros w w' e. unfold then_, record_step. destruct (commit _); cbn; [done|]. by intros [= <- _].
Qed.

End Thms.

(** ** Two builds *)

Definition unlines (l : list text) : text := mjoin ((λ x, x ++ [LF]) <$> l).
Definition QQ (s : string) : text := [QUOTE] ++ lit s ++ [QUOTE].
(** What bash prints for a recipe with one source. *)
Definition declared (src : string) : text := unlines
  [lit "declare -- pkgname=" ++ QQ "zsh"; lit "declare -- pkgver=" ++ QQ "5.9"; lit "declare -- pkgrel=" ++ QQ "5";
   lit "declare -a arch=([0]=" ++ QQ "x86_64" ++ lit ")"; lit "declare -a source=([0]=" ++ QQ src ++ lit ")"; lit "declare -f package"].
Definition serve (url : text) : Fetched := Body (lit "data").
Definition install (stage : text) (pb : Pkgbuild) (files src : Files) (pkg : Node) : option (bool * (Files * Node)) :=
  Some (true, (src, Dir [(lit "zsh", File 493 (lit "elf"))])).
Definition build_with (src : string) : Step (T := gmap text text) (text * list RewriteLog) :=
  build_inner serve id id (λ _ _, None) (λ _ _ _, None) (λ _ _ _, None) id (λ _ _, None) id (λ _, Some (declared src)) install
    (λ _, Ok tt) (lit "/out") [lit "w"] (lit "zsh") false 7.
Definition start : World (T := gmap text text) := mkWorld shell_index ∅ None None.

Definition finished {A} (m : outcome (World (T := gmap text text) * result A Error)) : option A :=
  match m with Ret (_, Ok a) => Some a | _ => None end.
Lemma finished_world {A} m (a : A) : finished m = Some a → ∃ w, m = Ret (w, Ok a).
Proof. destruct m as [[w [b|]]|]; [|done..]. intros [= ->]. by exists w. Qed.


Definition failure {A} (m : outcome (World (T := gmap text text) * result A Error)) : option Error :=
  match m with Ret (_, Err e) => Some e | _ => None end.

(** A local source of an official package that is staged under another name is
    fetched and kept under the name it is to be staged as, and then looked for
    under its own: the build fails although every fetch is answered. *)
Theorem renamed_local_source_fails : failure (build_with "fix.patch::zsh.patch" start) = Some Extraction.
Proof. vm_compute. reflexivity. Qed.
