(* ===== verification/Float.v ===== *)
(** The [f64] of the coverage ratchet: reading, printing and rounding.

    A value is one of Stdlib's [SpecFloat], with 53 bits of precision and 11
    of exponent; its operations round to nearest, ties to even, as IEEE 754
    has it.  Reading and printing are those of Rust's standard library. *)
From S2P Require Import Prelude Bits Text Vercmp.
From Stdlib Require Import Strings.Byte SpecFloat.
From stdpp Require Import pretty.
#[global] Open Scope Z_scope.

Definition f64 : Type := spec_float.
Definition PREC : Z := 53.
Definition EMAX : Z := 1024.

(** [+], [*], [/], [<], [>=] and [as f64]. *)
Definition f64_add (x y : f64) : f64 := SFadd PREC EMAX x y.
Definition f64_mul (x y : f64) : f64 := SFmul PREC EMAX x y.
Definition f64_div (x y : f64) : f64 := SFdiv PREC EMAX x y.
Definition f64_lt (x y : f64) : bool := SFltb x y.
Definition f64_ge (x y : f64) : bool := SFleb y x.
Definition f64_of_Z (z : Z) : f64 := binary_normalize PREC EMAX z 0 false.

(** [±m·10^k], rounded once. *)
Definition f64_of_decimal (negative : bool) (m k : Z) : f64 :=
  match m with
  | Zpos p =>
      match k with
      | Zneg q => match 10 ^ Zpos q with Zpos d => SFdiv PREC EMAX (S754_finite negative p 0) (S754_finite false d 0) | _ => S754_nan end
      | _ => match Zpos p * 10 ^ k with Zpos n => binary_round PREC EMAX negative n 0 | _ => S754_nan end
      end
  | _ => S754_zero negative
  end.

(** ** [f64::from_str] *)

Definition digits_value (s : text) : Z := fold_left (λ acc c, 10 * acc + (b2z c - 48)) s 0.

Definition take_sign (s : text) : bool * text :=
  match s with
  | c :: s' => if bool_decide (c = x2d) then (true, s') else if bool_decide (c = x2b) then (false, s') else (false, s)
  | [] => (false, [])
  end.

(** The exponent, if what is left is one. *)
Definition parse_exponent (s : text) : option Z :=
  match s with
  | [] => Some 0
  | c :: s' =>
      if bool_decide (c = x65) || bool_decide (c = x45) then
        let '(negative, s') := take_sign s' in
        let '(ds, rest) := Vercmp.take_run Vercmp.is_ascii_digit s' in
        if bool_decide (ds = []) || negb (bool_decide (rest = [])) then None
        else Some (if negative then - digits_value ds else digits_value ds)
      else None
  end.

Definition lower_ascii (s : text) : text := (λ c, if Vercmp.between 65 90 c then z2b (b2z c + 32) else c) <$> s.
Definition parse_special (negative : bool) (s : text) : option f64 :=
  let s := lower_ascii s in
  if bool_decide (s = lit "inf") || bool_decide (s = lit "infinity") then Some (S754_infinity negative)
  else if bool_decide (s = lit "nan") then Some S754_nan
  else None.

Definition parse_f64 (s : text) : option f64 :=
  let '(negative, body) := take_sign s in
  let '(whole, rest) := Vercmp.take_run Vercmp.is_ascii_digit body in
  let '(frac, rest) := match rest with
                       | c :: rest' => if bool_decide (c = x2e) then Vercmp.take_run Vercmp.is_ascii_digit rest' else ([], rest)
                       | [] => ([], [])
                       end in
  if bool_decide (whole = []) && bool_decide (frac = []) then parse_special negative body
  else match parse_exponent rest with
       | Some k => Some (f64_of_decimal negative (digits_value (whole ++ frac)) (k - Z.of_nat (length frac)))
       | None => None
       end.

(** ** [{:.2}] *)

(** [n / d] to the nearest, ties to even; and ties away from zero. *)
Definition div_even (n d : Z) : Z :=
  let q := n / d in
  match (2 * (n mod d)) ?= d with Lt => q | Gt => q + 1 | Eq => if Z.even q then q else q + 1 end.
Definition div_away (n d : Z) : Z := let q := n / d in if 2 * (n mod d) <? d then q else q + 1.
Definition scaled (round : Z → Z → Z) (m e : Z) : Z := if 0 <=? e then m * 2 ^ e else round m (2 ^ (- e)).

Definition decimal_text (z : Z) : text := lit (pretty (Z.to_N z)).
Definition sign_text (negative : bool) : text := if negative then lit "-" else [].
Definition hundredths (q : Z) : text :=
  decimal_text (q / 100) ++ lit "." ++ (if q mod 100 <? 10 then lit "0" else []) ++ decimal_text (q mod 100).
Definition fmt2 (x : f64) : text :=
  match x with
  | S754_nan => lit "NaN"
  | S754_infinity s => sign_text s ++ lit "inf"
  | S754_zero s => sign_text s ++ lit "0.00"
  | S754_finite s m e => sign_text s ++ hundredths (scaled div_even (100 * Zpos m) e)
  end.

(** [f64::round]. *)
Definition f64_round (x : f64) : f64 :=
  match x with
  | S754_finite s m e =>
      match scaled div_away (Zpos m) e with
      | Zpos n => binary_round PREC EMAX s n 0
      | _ => S754_zero s
      end
  | _ => x
  end.

Example reads_a_floor : parse_f64 (lit "98.57") = Some (S754_finite false 6936247113592340 (-46)).
Proof. vm_compute. reflexivity. Qed.
Example prints_what_it_read : fmt2 <$> parse_f64 (lit "98.57") = Some (lit "98.57").
Proof. vm_compute. reflexivity. Qed.
Example a_tie_goes_to_even : fmt2 <$> parse_f64 (lit "37.125") = Some (lit "37.12").
Proof. vm_compute. reflexivity. Qed.

(** * What holds of it

    What is printed with two decimals reads back, and as what. *)

Abbreviation is_digit := Vercmp.is_ascii_digit.
Definition all_digits (s : text) : Prop := Forall (λ c, is_digit c = true) s.

Lemma digits_value_app a b : digits_value (a ++ b) = digits_value a * 10 ^ Z.of_nat (length b) + digits_value b.
Proof.
  unfold digits_value. rewrite fold_left_app. generalize (fold_left (λ acc c, 10 * acc + (b2z c - 48)) a 0). clear a.
  assert (∀ b z, fold_left (λ acc c, 10 * acc + (b2z c - 48)) b z = z * 10 ^ Z.of_nat (length b) + fold_left (λ acc c, 10 * acc + (b2z c - 48)) b 0) as H; [|apply H].
  clear b. induction b as [|c b IH]; intros z; cbn [fold_left length]; [lia|].
  rewrite IH, (IH (10 * 0 + _)). rewrite Nat2Z.inj_succ, Z.pow_succ_r by lia. ring.
Qed.

Lemma digit_char x : (x < 10)%N → let c := Ascii.byte_of_ascii (pretty_N_char x) in is_digit c = true ∧ b2z c - 48 = Z.of_N x.
Proof.
  intros Hx. assert (x = 0 ∨ x = 1 ∨ x = 2 ∨ x = 3 ∨ x = 4 ∨ x = 5 ∨ x = 6 ∨ x = 7 ∨ x = 8 ∨ x = 9)%N as H by lia.
  repeat destruct H as [->|H]; subst; vm_compute; by split.
Qed.

Lemma pretty_go_digits x : ∀ s, ∃ ds, lit (pretty_N_go x s) = ds ++ lit s ∧ all_digits ds ∧ digits_value ds = Z.of_N x ∧ ((0 < x)%N → ds ≠ []).
Proof.
  induction (N.lt_wf_0 x) as [x _ IH]; intros s. destruct (decide (x = 0%N)) as [->|Hne].
  - exists []. repeat split; [constructor|lia].
  - rewrite pretty_N_go_step by lia. destruct (IH (x `div` 10)%N ltac:(apply N.div_lt; lia) (String (pretty_N_char (x `mod` 10)) s))
      as (ds & E & Hd & Hv & _).
    pose proof (digit_char (x `mod` 10) ltac:(by apply N.mod_lt)) as [Hc Hcv].
    exists (ds ++ [Ascii.byte_of_ascii (pretty_N_char (x `mod` 10))]). split; [|split; [|split]].
    + rewrite E, <- app_assoc. done.
    + apply Forall_app. split; [done|]. by constructor.
    + rewrite digits_value_app, Hv. unfold digits_value at 1. cbn [fold_left length]. rewrite Hcv.
      rewrite N2Z.inj_div, N2Z.inj_mod. pose proof (Z.div_mod (Z.of_N x) (Z.of_N 10) ltac:(lia)). change (10 ^ Z.of_nat 1) with 10. lia.
    + intros _ Habs. by apply app_eq_nil in Habs as [_ ?].
Qed.

Lemma decimal_text_spec z : 0 ≤ z → all_digits (decimal_text z) ∧ decimal_text z ≠ [] ∧ digits_value (decimal_text z) = z.
Proof.
  intros Hz. unfold decimal_text, pretty, pretty_N. case_decide as E.
  - repeat split; [repeat constructor|done|]. cbn. lia.
  - destruct (pretty_go_digits (Z.to_N z) ""%string) as (ds & -> & Hd & Hv & Hne). cbn. rewrite app_nil_r.
    repeat split; [done|apply Hne; lia|]. rewrite Hv. lia.
Qed.

(** The two decimals. *)
Definition decimals (r : Z) : text := (if r <? 10 then lit "0" else []) ++ decimal_text r.
Lemma decimals_spec r : 0 ≤ r < 100 → all_digits (decimals r) ∧ length (decimals r) = 2%nat ∧ digits_value (decimals r) = r.
Proof.
  intros Hr. assert (forallb (λ n, let r := Z.of_nat n in forallb is_digit (decimals r) && bool_decide (length (decimals r) = 2%nat) &&
    (digits_value (decimals r) =? r)) (seq 0 100) = true) as H by (vm_compute; reflexivity).
  rewrite forallb_forall in H. specialize (H (Z.to_nat r)). rewrite Z2Nat.id in H by lia.
  destruct (andb_prop _ _ (H ltac:(apply in_seq; lia))) as [[H1 H2]%andb_prop H3].
  split; [|split; [by apply bool_decide_eq_true in H2|by apply Z.eqb_eq]].
  apply Forall_forall. intros c Hc. rewrite forallb_forall in H1. apply H1. by apply list_elem_of_In.
Qed.

Lemma take_run_all s r : all_digits s → match r with c :: _ => is_digit c = false | [] => True end → Vercmp.take_run is_digit (s ++ r) = (s, r).
Proof.
  induction 1 as [|c s Hc _ IH]; cbn; intros Hr.
  - destruct r as [|c r]; [done|]. cbn. by rewrite Hr.
  - rewrite Hc. by rewrite IH.
Qed.

Lemma take_sign_digits s r : all_digits s → s ≠ [] → take_sign (s ++ r) = (false, s ++ r).
Proof.
  intros Hs Hne. destruct s as [|c s]; [done|]. apply Forall_cons in Hs as [Hc _]. cbn.
  rewrite !bool_decide_eq_false_2; [done| |]; intros ->; by vm_compute in Hc.
Qed.

Lemma parse_hundredths negative q : 0 ≤ q → parse_f64 (sign_text negative ++ hundredths q) = Some (f64_of_decimal negative q (-2)).
Proof.
  intros Hq. unfold hundredths. change ((if q mod 100 <? 10 then lit "0" else []) ++ decimal_text (q mod 100)) with (decimals (q mod 100)).
  pose proof (Z.mod_pos_bound q 100 ltac:(lia)) as Hm. destruct (decimal_text_spec (q / 100) ltac:(apply Z.div_pos; lia)) as (Hd & Hne & Hv).
  destruct (decimals_spec (q mod 100) Hm) as (Hd' & Hl' & Hv'). unfold parse_f64.
  assert (take_sign (sign_text negative ++ decimal_text (q / 100) ++ lit "." ++ decimals (q mod 100)) =
    (negative, decimal_text (q / 100) ++ lit "." ++ decimals (q mod 100))) as -> by (destruct negative; [done|exact (take_sign_digits _ _ Hd Hne)]).
  rewrite take_run_all by done. change (lit "." ++ decimals (q mod 100)) with (x2e :: decimals (q mod 100)).
  cbn iota beta zeta. case_bool_decide as Edot; [clear Edot|done]. pose proof (take_run_all (decimals (q mod 100)) [] Hd' I) as E. rewrite app_nil_r in E. rewrite E.
  rewrite (bool_decide_eq_false_2 (decimal_text _ = [])) by done. cbn [andb parse_exponent]. rewrite digits_value_app, Hv, Hv', Hl'. do 2 f_equal.
  pose proof (Z.div_mod q 100 ltac:(lia)). change (10 ^ Z.of_nat 2) with 100. lia.
Qed.

(** What a printed value reads back as. *)
Definition reread (x : f64) : f64 :=
  match x with
  | S754_finite s m e => f64_of_decimal s (scaled div_even (100 * Zpos m) e) (-2)
  | _ => x
  end.

Lemma div_even_nonneg n d : 0 ≤ n → 0 < d → 0 ≤ div_even n d.
Proof.
  intros Hn Hd. unfold div_even. pose proof (Z.div_pos n d Hn Hd). destruct (_ ?= d); [|lia..]. destruct (Z.even _); lia.
Qed.

Lemma scaled_nonneg m e : 0 ≤ m → 0 ≤ scaled div_even m e.
Proof.
  intros Hm. unfold scaled. destruct (Z.leb_spec 0 e); [pose proof (Z.pow_nonneg 2 e); nia|]. apply div_even_nonneg; [done|].
  apply Z.pow_pos_nonneg; lia.
Qed.

Lemma parse_fmt2 x : parse_f64 (fmt2 x) = Some (reread x).
Proof.
  destruct x as [s|s| |s m e]; [destruct s; vm_compute; reflexivity|destruct s; vm_compute; reflexivity|vm_compute; reflexivity|]. cbn [fmt2 reread]. apply parse_hundredths. apply scaled_nonneg. lia.
Qed.

(** The bytes of a printed value. *)
Definition plain (c : byte) : bool := is_digit c || Vercmp.is_ascii_alphabetic c || bool_decide (c ∈ lit "-._").
Lemma plain_digits s : all_digits s → Forall (λ c, plain c = true) s.
Proof. intros Hs. eapply Forall_impl; [exact Hs|]. intros c Hc. unfold plain. by rewrite Hc. Qed.

Lemma fmt2_plain x : Forall (λ c, plain c = true) (fmt2 x) ∧ fmt2 x ≠ [].
Proof.
  destruct x as [s|s| |s m e]; [destruct s; split; by repeat constructor|destruct s; split; by repeat constructor|split; by repeat constructor|].
  cbn [fmt2]. set (q := scaled div_even (100 * Zpos m) e). assert (0 ≤ q) as Hq by (apply scaled_nonneg; lia).
  pose proof (Z.mod_pos_bound q 100 ltac:(lia)) as Hm. destruct (decimal_text_spec (q / 100) ltac:(apply Z.div_pos; lia)) as (Hd & Hne & _).
  destruct (decimals_spec (q mod 100) Hm) as (Hd' & _ & _). unfold hundredths.
  change ((if q mod 100 <? 10 then lit "0" else []) ++ decimal_text (q mod 100)) with (decimals (q mod 100)). split.
  - rewrite !Forall_app. split; [destruct s; by repeat constructor|]. split; [by apply plain_digits|]. split; [by repeat constructor|by apply plain_digits].
  - intros E. apply app_eq_nil in E as [_ E]. apply app_eq_nil in E as [E _]. done.
Qed.
