(* ===== verification/Ratchet.v ===== *)
(** The coverage ratchet: [xtask/src/coverage.rs].

    [cargo llvm-cov] and the file system are its surroundings: the report is a
    text, the baseline file a text or absent.  A [BTreeMap] is a finite map
    gone through in the order of its keys; a refusal is told by what it names,
    its wording is not modelled. *)
From Stdlib Require Import Strings.Byte SpecFloat.
From stdpp Require Import sorting.
From S2P Require Import Prelude Bits Text Vercmp Float.
#[global] Open Scope Z_scope.

(** A map in the order of its keys. *)
Definition entry_le {V} (a b : text * V) : Prop := Vercmp.cmp_bytes (fst a) (fst b) ≠ Gt.
#[export] Instance entry_le_dec {V} (a b : text * V) : Decision (entry_le a b).
Proof. unfold entry_le. apply _. Defined.
Definition entries {V} (m : gmap text V) : list (text * V) := merge_sort entry_le (map_to_list m).

(** [HOST_CRATES] of [xtask/src/main.rs]: the crates, and the feature each
    needs. *)
Definition HOST_CRATES : list (text * option text) :=
  (λ x : string * option string, (lit (fst x), lit <$> snd x)) <$>
  [("qunix-sync", Some "qunix-sync/std"); ("qunix-mm", Some "qunix-mm/std"); ("qunix-hal-x86_64", Some "qunix-hal-x86_64/std");
   ("qunix-sched", Some "qunix-sched/std"); ("qunix-elf", Some "qunix-elf/std"); ("qunix-virtio", Some "qunix-virtio/std");
   ("qunix-bcache", Some "qunix-bcache/std"); ("qunix-vfs", Some "qunix-vfs/std"); ("qunix-abi", None); ("xtask", None)]%string.

(** [Lines] and [percent]. *)
Record Lines := mkLines { hit : Z; found : Z }.
Definition percent (l : Lines) : f64 :=
  if found l =? 0 then f64_of_Z 100
  else f64_div (f64_mul (f64_of_Z (hit l)) (f64_of_Z 100)) (f64_of_Z (found l)).

(** ** Reading the report *)

(** [str::parse::<u64>]. *)
Definition parse_u64 (s : text) : option Z :=
  let ds := match s with c :: s' => if bool_decide (c = x2b) then s' else s | [] => s end in
  if bool_decide (ds = []) || negb (forallb Vercmp.is_ascii_digit ds) then None
  else if digits_value ds <? 2 ^ 64 then Some (digits_value ds) else None.

(** [trim_start_matches]. *)
Fixpoint trim_start_byte (c : byte) (s : text) : text :=
  match s with [] => [] | x :: s' => if bool_decide (x = c) then trim_start_byte c s' else s end.
Definition trim_byte (c : byte) (s : text) : text := reverse (trim_start_byte c (reverse (trim_start_byte c s))).
Definition SLASH : byte := x2f.

(** [crate_of]. *)
Definition crate_of (path root : text) : option text :=
  rel ← strip_prefix root path;
  let rel := trim_start_byte SLASH rel in
  let name := match strip_prefix (lit "crates/") rel with
              | Some rest => head (split SLASH rest)
              | None => head (split SLASH rel)
              end in
  name ← name;
  if bool_decide (name ∈ HOST_CRATES.*1) then Some name else None.

(** [parse_lcov]: the current crate, and the sums so far. *)
Definition bump_found (m : gmap text Lines) (name : text) (n : Z) : outcome (gmap text Lines) :=
  let l := default (mkLines 0 0) (m !! name) in f ← add_chk 64 (found l) n; Ret (<[name := mkLines (hit l) f]> m).
Definition bump_hit (m : gmap text Lines) (name : text) (n : Z) : outcome (gmap text Lines) :=
  let l := default (mkLines 0 0) (m !! name) in h ← add_chk 64 (hit l) n; Ret (<[name := mkLines h (found l)]> m).
Fixpoint lcov_lines (root : text) (ls : list text) (current : option text) (m : gmap text Lines) : outcome (gmap text Lines) :=
  match ls with
  | [] => Ret m
  | line :: ls' =>
      match strip_prefix (lit "SF:") line with
      | Some path => lcov_lines root ls' (crate_of path root) m
      | None =>
          match v ← strip_prefix (lit "LF:") line; name ← current; n ← parse_u64 v; Some (name, n) with
          | Some (name, n) => m ← bump_found m name n; lcov_lines root ls' current m
          | None =>
              match v ← strip_prefix (lit "LH:") line; name ← current; n ← parse_u64 v; Some (name, n) with
              | Some (name, n) => m ← bump_hit m name n; lcov_lines root ls' current m
              | None => lcov_lines root ls' current m
              end
          end
      end
  end.
Definition parse_lcov (lcov root : text) : outcome (gmap text Lines) := lcov_lines root (lines lcov) None ∅.

(** [uncovered_lines]. *)
Definition zero_count (rest : text) : bool :=
  match h ← head (split x2c rest); parse_u64 h with Some n => n =? 0 | None => false end.
Fixpoint uncovered_from (root : text) (ls : list text) (current : option text) (file : text) (m : gmap text (list text)) : gmap text (list text) :=
  match ls with
  | [] => m
  | line :: ls' =>
      match strip_prefix (lit "SF:") line with
      | Some path =>
          uncovered_from root ls' (crate_of path root) (trim_start_byte SLASH (default path (strip_prefix root path))) m
      | None =>
          match v ← strip_prefix (lit "DA:") line; split_once (lit ",") v with
          | Some (number, rest) =>
              if zero_count rest then
                match current with
                | Some name => uncovered_from root ls' current file (<[name := default [] (m !! name) ++ [file ++ lit ":" ++ number]]> m)
                | None => uncovered_from root ls' current file m
                end
              else uncovered_from root ls' current file m
          | None => uncovered_from root ls' current file m
          end
      end
  end.
Definition uncovered_lines (lcov root : text) : gmap text (list text) := uncovered_from root (lines lcov) None [] ∅.

(** ** The baseline file *)

Definition HASH : byte := x23.
Definition DQUOTE : byte := x22.
Definition is_note (trimmed : text) : bool := starts_with [HASH] trimmed.
Definition clean_name (name : text) : text := trim_byte DQUOTE (trim name).

(** [malformed_baseline_lines]: their numbers, and the lines. *)
Definition is_malformed (line : text) : bool :=
  let trimmed := trim line in
  if bool_decide (trimmed = []) || is_note trimmed then false
  else match split_once (lit "=") trimmed with
       | None => true
       | Some (name, value) => bool_decide (clean_name name = []) || match parse_f64 (trim value) with None => true | Some _ => false end
       end.
Fixpoint malformed_from (i : Z) (ls : list text) : list (Z * text) :=
  match ls with [] => [] | line :: ls' => if is_malformed line then (i, line) :: malformed_from (i + 1) ls' else malformed_from (i + 1) ls' end.
Definition malformed_baseline_lines (t : text) : list (Z * text) := malformed_from 1 (lines t).

(** [parse_baseline]: a later line of a crate replaces an earlier one. *)
Definition floor_of_line (line : text) : option (text * f64) :=
  let l := trim line in
  if bool_decide (l = []) || is_note l then None
  else '(name, value) ← split_once (lit "=") l; percent ← parse_f64 (trim value); Some (clean_name name, percent).
Definition parse_baseline (t : text) : gmap text f64 :=
  fold_left (λ m line, match floor_of_line line with Some (name, percent) => <[name := percent]> m | None => m end) (lines t) ∅.

(** [HEADER]. *)
Definition HEADER_LINES : list text := lit <$>
  ["# Per-crate line coverage floor. A change may raise these or hold them.";
   "#";
   "# Any drop, however small, needs a `#` comment directly above that";
   "# crate's line *beginning* with the new figure and saying which code is";
   "# uncoverable and why; `cargo xtask coverage --update` refuses to write";
   "# one otherwise. The tolerance in xtask/src/coverage.rs applies to";
   "# reading a floor, so a noisy measurement does not fail a build; it";
   "# does not authorise lowering one."]%string.
Definition unlines (ls : list text) : text := mjoin ((λ l, l ++ [LF]) <$> ls).
Definition HEADER : text := unlines HEADER_LINES.

(** [strip_header]. *)
Fixpoint strip_header (pending : list text) : list text :=
  match pending with
  | [] => []
  | l :: pending' => if bool_decide (trim l ∈ trim <$> lines HEADER) then strip_header pending' else pending
  end.

(** [existing_notes]. *)
Fixpoint notes_from (ls : list text) (pending : list text) (at_header : bool) (notes : gmap text (list text)) : gmap text (list text) :=
  match ls with
  | [] => notes
  | line :: ls' =>
      let trimmed := trim line in
      if is_note trimmed then notes_from ls' (pending ++ [line]) at_header notes
      else match split_once (lit "=") trimmed with
           | Some (name, _) =>
               let note := if at_header then strip_header pending else pending in
               notes_from ls' [] false (if bool_decide (note = []) then notes else <[clean_name name := note]> notes)
           | None => if bool_decide (trimmed = []) then notes_from ls' [] false notes else notes_from ls' pending at_header notes
           end
  end.
Definition existing_notes (t : text) : gmap text (list text) := notes_from (lines t) [] true ∅.

(** [render_baseline]. *)
Definition render_crate (notes : gmap text (list text)) (e : text * Lines) : text :=
  [LF] ++ unlines (default [] (notes !! fst e)) ++ fst e ++ lit " = " ++ fmt2 (percent (snd e)) ++ [LF].
Definition render_baseline (measured : gmap text Lines) (notes : gmap text (list text)) : text :=
  HEADER ++ mjoin (render_crate notes <$> entries measured).

(** ** The gates *)

(** [round2]. *)
Definition round2 (percent : f64) : f64 := f64_div (f64_round (f64_mul percent (f64_of_Z 100))) (f64_of_Z 100).

(** A note's first line, headed by the figure. *)
Definition headed_by (figure first : text) : bool :=
  let rest := trim_start (trim_start_byte HASH first) in
  match strip_prefix figure rest with
  | Some tail => negb (match tail with c :: _ => Vercmp.is_ascii_digit c | [] => false end)
  | None => false
  end.
Definition has_reason (notes : gmap text (list text)) (name figure : text) : bool :=
  match note ← notes !! name; head note with Some first => headed_by figure first | None => false end.

(** [lowering_without_reason]. *)
Definition lowers_silently (old : gmap text f64) (notes : gmap text (list text)) (e : text * Lines) : option (text * f64 * f64) :=
  match old !! fst e with
  | None => None
  | Some floor =>
      if f64_ge (round2 (percent (snd e))) (round2 floor) then None
      else if has_reason notes (fst e) (fmt2 (round2 (percent (snd e)))) then None
      else Some (fst e, round2 (percent (snd e)), floor)
  end.
Definition lowering_without_reason (old : gmap text f64) (measured : gmap text Lines) (notes : gmap text (list text)) : list (text * f64 * f64) :=
  omap (lowers_silently old notes) (entries measured).

(** [TOLERANCE_PP], [Verdict] and [verdict]. *)
Definition TOLERANCE_PP : f64 := f64_of_decimal false 5 (-1).
Inductive Verdict := Regressed | Improved | Held.
Definition verdict (now floor : f64) : Verdict :=
  if f64_lt (f64_add now TOLERANCE_PP) floor then Regressed
  else if f64_lt (f64_add floor TOLERANCE_PP) now then Improved
  else Held.

(** [unmeasured_floors] and [dropped_crates]. *)
Definition unmeasured_floors (baseline : gmap text f64) (measured : gmap text Lines) : list (text * f64) :=
  filter (λ e, measured !! fst e = None) (entries baseline).
Definition dropped_crates (args : list text) : list text :=
  filter (λ n, n ≠ []) (trim <$> omap (strip_prefix (lit "--drop-crate=")) args).

(** What [check] refuses. *)
Inductive Refusal :=
  | NothingMeasured
  | NoBaseline
  | Malformed (l : list (Z * text))
  | WouldDelete (l : list (text * f64))
  | Undocumented (l : list (text * f64 * f64))
  | Unmeasured (l : list (text * f64))
  | Dropped (l : list (text * option (list text))).

Definition reject_malformed (t : text) : result unit Refusal :=
  let malformed := malformed_baseline_lines t in if bool_decide (malformed = []) then Ok tt else Err (Malformed malformed).
Definition gate_unmeasured (baseline : gmap text f64) (measured : gmap text Lines) : result unit Refusal :=
  let unmeasured := unmeasured_floors baseline measured in if bool_decide (unmeasured = []) then Ok tt else Err (Unmeasured unmeasured).

(** [check --update]: the new baseline. *)
Definition check_update (measured : gmap text Lines) (previous : option text) (args : list text) : result text Refusal :=
  let previous := default [] previous in
  match reject_malformed previous with
  | Err e => Err e
  | Ok _ =>
      let notes := existing_notes previous in
      let old := parse_baseline previous in
      let unauthorised := filter (λ e, fst e ∉ dropped_crates args) (unmeasured_floors old measured) in
      if negb (bool_decide (unauthorised = [])) then Err (WouldDelete unauthorised) else
      let undocumented := lowering_without_reason old measured notes in
      if negb (bool_decide (undocumented = [])) then Err (Undocumented undocumented) else
      Ok (render_baseline measured notes)
  end.

(** [check]: the crates that dropped, with their uncovered lines. *)
Definition regressed (measured : gmap text Lines) (baseline : gmap text f64) : list text :=
  omap (λ e : text * Lines, floor ← baseline !! fst e;
    match verdict (percent (snd e)) floor with Regressed => Some (fst e) | _ => None end) (entries measured).
Definition check_read (measured : gmap text Lines) (uncovered : gmap text (list text)) (baseline_text : option text) : result unit Refusal :=
  match baseline_text with
  | None => Err NoBaseline
  | Some t =>
      match reject_malformed t with
      | Err e => Err e
      | Ok _ =>
          let baseline := parse_baseline t in
          match gate_unmeasured baseline measured with
          | Err e => Err e
          | Ok _ =>
              let names := regressed measured baseline in
              if bool_decide (names = []) then Ok tt else Err (Dropped ((λ n, (n, uncovered !! n)) <$> names))
          end
      end
  end.

(** [check], on the report of a run: the file it leaves. *)
Definition check (lcov root : text) (update : bool) (file : option text) (args : list text) : outcome (option text * result unit Refusal) :=
  measured ← parse_lcov lcov root;
  if bool_decide (measured = ∅) then Ret (file, Err NothingMeasured)
  else if update then
    Ret (match check_update measured file args with Ok t => (Some t, Ok tt) | Err e => (file, Err e) end)
  else Ret (file, check_read measured (uncovered_lines lcov root) file).

(** * What holds of it

    What the coverage ratchet holds: a floor that is read is enforced, one
    that is lowered is accounted for, and a rewritten baseline reads back. *)

Lemma elem_of_entries {V} (m : gmap text V) k v : (k, v) ∈ entries m ↔ m !! k = Some v.
Proof. unfold entries. rewrite merge_sort_Permutation. apply elem_of_map_to_list. Qed.

Lemma entries_unique {V} (m : gmap text V) : NoDup (entries m).*1.
Proof. unfold entries. rewrite merge_sort_Permutation. apply NoDup_fst_map_to_list. Qed.

(** ** The gates *)

Lemma unmeasured_spec baseline measured name floor :
  (name, floor) ∈ unmeasured_floors baseline measured ↔ baseline !! name = Some floor ∧ measured !! name = None.
Proof. unfold unmeasured_floors. rewrite list_elem_of_filter, elem_of_entries. cbn. tauto. Qed.

(** No floor goes down in silence. If [coverage --update] writes a new
    baseline, then every line of the old one was readable, and for every
    crate that had a floor: either it was measured, and the measurement
    rounds to no less than the floor or the note above the crate begins with
    the new figure; or it was not, and the caller named it as dropped. *)
Theorem update_never_lowers_in_silence measured previous args new : check_update measured (Some previous) args = Ok new →
  (∀ line, line ∈ lines previous → is_malformed line = false) ∧
  ∀ name floor, parse_baseline previous !! name = Some floor →
    match measured !! name with
    | Some l => f64_ge (round2 (percent l)) (round2 floor) = true ∨
        ∃ first note, existing_notes previous !! name = Some (first :: note) ∧ headed_by (fmt2 (round2 (percent l))) first = true
    | None => name ∈ dropped_crates args
    end.
Proof.
  unfold check_update, reject_malformed. change (default [] (Some previous)) with previous. cbv zeta. case_bool_decide as Em; [|done]. case_bool_decide as Eu; [|done].
  case_bool_decide as El; [|done]. intros _. split.
  - intros line. unfold malformed_baseline_lines in Em. revert Em. generalize 1. generalize (lines previous). clear. intros ls.
    induction ls as [|x ls IH]; intros i Hi Hin; [by apply elem_of_nil in Hin|]. cbn [malformed_from] in Hi.
    destruct (is_malformed x) eqn:Ex; [done|]. apply elem_of_cons in Hin as [->|Hin]; [done|]. by apply (IH (i + 1)).
  - intros name floor Hf. destruct (measured !! name) as [l|] eqn:Emeas.
    + assert (lowers_silently (parse_baseline previous) (existing_notes previous) (name, l) = None) as Hl.
      { destruct (lowers_silently _ _ (name, l)) as [x|] eqn:Ex; [|done].
        assert (x ∈ lowering_without_reason (parse_baseline previous) measured (existing_notes previous)) as Hx; [|by rewrite El, elem_of_nil in Hx].
        apply list_elem_of_omap. exists (name, l). split; [by apply elem_of_entries|done]. }
      unfold lowers_silently in Hl. cbn [fst snd] in Hl. rewrite Hf in Hl. destruct (f64_ge _ _); [by left|]. right.
      unfold has_reason in Hl. destruct (existing_notes previous !! name) as [[|first note]|]; try done. cbn [mbind option_bind head] in Hl.
      exists first, note. split; [done|]. by destruct (headed_by _ _).
    + destruct (decide (name ∈ dropped_crates args)) as [Hd|Hd]; [done|].
      assert ((name, floor) ∈ filter (λ e, fst e ∉ dropped_crates args) (unmeasured_floors (parse_baseline previous) measured)) as Hx.
      { apply list_elem_of_filter. split; [done|]. by apply unmeasured_spec. }
      by rewrite Eu, elem_of_nil in Hx.
Qed.

(** A check that passes has looked at every floor.  If [coverage] accepts a
    report, then every crate with a floor was measured, and its figure, with
    the tolerance added, is not below the floor. *)
Theorem passing_check_enforces_every_floor measured uncovered t : check_read measured uncovered (Some t) = Ok tt →
  ∀ name floor, parse_baseline t !! name = Some floor →
    ∃ l, measured !! name = Some l ∧ f64_lt (f64_add (percent l) TOLERANCE_PP) floor = false.
Proof.
  unfold check_read, reject_malformed, gate_unmeasured. case_bool_decide; [|done]. case_bool_decide as Eu; [|done].
  case_bool_decide as Er; [|done]. intros _ name floor Hf. destruct (measured !! name) as [l|] eqn:Em.
  - exists l. split; [done|]. destruct (f64_lt _ _) eqn:Elt; [|done].
    assert (name ∈ regressed measured (parse_baseline t)) as Hx; [|by rewrite Er, elem_of_nil in Hx].
    apply list_elem_of_omap. exists (name, l). split; [by apply elem_of_entries|]. cbn [fst snd]. rewrite Hf. cbn [mbind option_bind].
    unfold verdict. by rewrite Elt.
  - assert ((name, floor) ∈ unmeasured_floors (parse_baseline t) measured) as Hx by by apply unmeasured_spec. by rewrite Eu, elem_of_nil in Hx.
Qed.

(** A floor that is not a number is read without complaint, and nothing falls
    below it: a crate without a line covered passes. *)
Theorem floor_that_is_no_number_holds_nothing :
  malformed_baseline_lines (lit "qunix-mm = nan") = [] ∧ parse_baseline (lit "qunix-mm = nan") !! lit "qunix-mm" = Some S754_nan ∧
  ∀ now, verdict now S754_nan = Held.
Proof.
  split; [vm_compute; reflexivity|]. split; [vm_compute; reflexivity|]. intros now. unfold verdict, f64_lt, f64_add, SFltb.
  destruct (SFadd PREC EMAX now TOLERANCE_PP); destruct now; reflexivity.
Qed.

(** Two lines for one crate are read without complaint, and the later one
    counts. *)
Theorem second_floor_of_a_crate_wins :
  malformed_baseline_lines (unlines [lit "xtask = 54.05"; lit "xtask = 1.00"]) = [] ∧
  parse_baseline (unlines [lit "xtask = 54.05"; lit "xtask = 1.00"]) !! lit "xtask" = parse_f64 (lit "1.00").
Proof. split; vm_compute; reflexivity. Qed.

(** The figure a note must begin with, and the figure the file comes to hold,
    are not the same for a tie: 297 lines of 800. *)
Theorem tie_is_rounded_two_ways :
  fmt2 (percent (mkLines 297 800)) = lit "37.12" ∧ fmt2 (round2 (percent (mkLines 297 800))) = lit "37.13".
Proof. split; vm_compute; reflexivity. Qed.

(** ** The baseline reads back *)

(** A crate's name, and a line of a note. *)
Definition crate_name (name : text) : Prop := name ≠ [] ∧ Forall (λ c, plain c = true) name.
Definition note_line (l : text) : Prop := is_note (trim l) = true ∧ one_line l.

Lemma plain_props c : plain c = true → is_space c = false ∧ c ≠ LF ∧ c ≠ CR ∧ c ≠ x3d ∧ c ≠ DQUOTE ∧ c ≠ HASH.
Proof.
  intros Hc. repeat split; [destruct (is_space c) eqn:E; [|done]|..]; try (intros ->; by vm_compute in Hc).
  unfold is_space in E. apply bool_decide_eq_true in E. repeat (apply elem_of_cons in E as [->|E]; [by vm_compute in Hc|]). by apply elem_of_nil in E.
Qed.

Lemma trim_start_visible s : match s with c :: _ => is_space c = false | [] => True end → trim_start s = s.
Proof. destruct s as [|c s]; [done|]. cbn. by intros ->. Qed.

Lemma trim_visible s c d r : s = c :: r → last s = Some d → is_space c = false → is_space d = false → trim s = s.
Proof.
  intros -> Hl Hc Hd. unfold trim. rewrite (trim_start_visible (c :: r)) by done.
  apply last_Some in Hl as [s' ->]. rewrite reverse_snoc. rewrite trim_start_visible by done. rewrite <- reverse_snoc. apply reverse_involutive.
Qed.

Lemma plain_ends s : s ≠ [] → Forall (λ c, plain c = true) s → ∃ c d r, s = c :: r ∧ last s = Some d ∧ is_space c = false ∧ is_space d = false.
Proof.
  intros Hne Hs. destruct s as [|c r] eqn:E; [done|]. destruct (last (c :: r)) as [d|] eqn:El; [|by apply last_None in El].
  exists c, d, r. repeat split; [by apply Forall_cons in Hs as [Hc%plain_props _]; destruct Hc|].
  apply last_Some in El as [s' El]. rewrite El in Hs. apply Forall_app in Hs as [_ Hd]. apply Forall_cons in Hd as [Hd%plain_props _]. by destruct Hd.
Qed.

Lemma trim_plain s : s ≠ [] → Forall (λ c, plain c = true) s → trim s = s.
Proof. intros Hne Hs. destruct (plain_ends s Hne Hs) as (c & d & r & E & El & Hc & Hd). by apply (trim_visible s c d r). Qed.

Lemma trim_byte_plain s : Forall (λ c, plain c = true) s → trim_byte DQUOTE s = s.
Proof.
  intros Hs. assert (∀ s, Forall (λ c, plain c = true) s → trim_start_byte DQUOTE s = s) as H.
  { clear. intros s [|c s' Hc _]; [done|]. cbn. rewrite bool_decide_eq_false_2; [done|]. by apply plain_props in Hc as (_ & _ & _ & _ & ? & _). }
  unfold trim_byte. rewrite (H s Hs), H; [apply reverse_involutive|]. by rewrite Forall_reverse.
Qed.

(** The line of a crate. *)
Definition crate_line (e : text * Lines) : text := fst e ++ lit " = " ++ fmt2 (percent (snd e)).

Lemma trim_blank_start s : trim (x20 :: s) = trim s.
Proof. done. Qed.
Lemma trim_blank_end s : s ≠ [] → trim s = s → trim (s ++ [x20]) = s.
Proof.
  intros Hne Ht. destruct s as [|c r]; [done|]. unfold trim in *. destruct (is_space c) eqn:Ec.
  - exfalso. cbn [trim_start] in Ht. rewrite Ec in Ht. apply (f_equal length) in Ht. rewrite length_reverse in Ht.
    assert (∀ s, (length (trim_start s) ≤ length s)%nat) as Hle by (clear; induction s as [|c s IH]; cbn; [lia|destruct (is_space c); cbn; lia]).
    pose proof (Hle (reverse (trim_start r))). pose proof (Hle r). rewrite length_reverse in *. cbn in Ht. lia.
  - rewrite (trim_start_visible (c :: r)) in Ht by done. cbn [app]. rewrite (trim_start_visible (c :: r ++ [x20])) by done.
    change (c :: r ++ [x20]) with ((c :: r) ++ [x20]). rewrite reverse_snoc. cbn [trim_start]. change (is_space x20) with true. cbn iota. done.
Qed.

Section Line.
Context (e : text * Lines) (Hname : crate_name (fst e)).

Lemma crate_line_trim : trim (crate_line e) = crate_line e.
Proof using Hname.
  destruct Hname as [Hne Hp]. destruct (fmt2_plain (percent (snd e))) as [Hf Hfne].
  destruct (plain_ends _ Hne Hp) as (c & _ & r & E & _ & Hc & _). destruct (plain_ends _ Hfne Hf) as (_ & d & _ & _ & El & _ & Hd).
  apply (trim_visible _ c d (r ++ lit " = " ++ fmt2 (percent (snd e)))); [by unfold crate_line; rewrite E| |done|done].
  apply last_Some in El as [s' El]. unfold crate_line. rewrite El, !app_assoc. apply last_snoc.
Qed.

Lemma crate_line_split : split_once (lit "=") (crate_line e) = Some (fst e ++ [x20], x20 :: fmt2 (percent (snd e))).
Proof using Hname.
  destruct Hname as [Hne Hp]. unfold crate_line. change (fst e ++ lit " = " ++ fmt2 (percent (snd e))) with
    (fst e ++ ([x20] ++ [x3d] ++ (x20 :: fmt2 (percent (snd e))))). rewrite app_assoc. apply (split_once_at x3d []).
  rewrite not_elem_of_app. split; [|by rewrite list_elem_of_singleton]. intros Hin. rewrite Forall_forall in Hp.
  by apply Hp, plain_props in Hin as (_ & _ & _ & ? & _).
Qed.

Lemma crate_line_name : clean_name (fst e ++ [x20]) = fst e.
Proof using Hname.
  destruct Hname as [Hne Hp]. unfold clean_name. rewrite trim_blank_end; [by apply trim_byte_plain|done|by apply trim_plain].
Qed.

Lemma crate_line_value : trim (x20 :: fmt2 (percent (snd e))) = fmt2 (percent (snd e)).
Proof. rewrite trim_blank_start. destruct (fmt2_plain (percent (snd e))) as [Hf Hfne]. by apply trim_plain. Qed.

Lemma crate_line_not_note : is_note (crate_line e) = false ∧ crate_line e ≠ [].
Proof using Hname.
  destruct Hname as [Hne Hp]. unfold crate_line, is_note. destruct (fst e) as [|c r]; [done|]. apply Forall_cons in Hp as [Hc _].
  split; [|done]. cbn. rewrite bool_decide_eq_false_2; [done|]. apply plain_props in Hc as (_ & _ & _ & _ & _ & ?). congruence.
Qed.

Lemma crate_line_floor : floor_of_line (crate_line e) = Some (fst e, reread (percent (snd e))) ∧ is_malformed (crate_line e) = false.
Proof using Hname.
  destruct crate_line_not_note as [Hn Hne]. unfold floor_of_line, is_malformed. rewrite crate_line_trim, Hn, crate_line_split.
  rewrite bool_decide_eq_false_2 by done. cbn [orb mbind option_bind]. rewrite crate_line_value, parse_fmt2, crate_line_name. cbn [mbind option_bind].
  split; [done|]. rewrite bool_decide_eq_false_2; [done|]. by destruct Hname.
Qed.

Lemma crate_line_one_line : one_line (crate_line e).
Proof using Hname.
  destruct Hname as [Hne Hp]. destruct (fmt2_plain (percent (snd e))) as [Hf Hfne]. split.
  - unfold crate_line. rewrite !not_elem_of_app. rewrite Forall_forall in Hp, Hf. split; [|split].
    + intros Hin. by apply Hp, plain_props in Hin as (_ & ? & _).
    + intros Hin. repeat (apply elem_of_cons in Hin as [?|Hin]; [done|]). by apply elem_of_nil in Hin.
    + intros Hin. by apply Hf, plain_props in Hin as (_ & ? & _).
  - destruct (plain_ends _ Hfne Hf) as (_ & d & _ & _ & El & _ & Hd). apply last_Some in El as [s' El]. unfold crate_line.
    rewrite El, !app_assoc, ends_with_snoc. apply bool_decide_eq_false_2. intros <-. done.
Qed.
End Line.

(** The lines of a rendered baseline. *)
Definition block (notes : gmap text (list text)) (e : text * Lines) : list text := [] :: default [] (notes !! fst e) ++ [crate_line e].

Lemma unlines_app a b : unlines (a ++ b) = unlines a ++ unlines b.
Proof. unfold unlines. by rewrite fmap_app, join_app. Qed.

Lemma render_baseline_unlines measured notes :
  render_baseline measured notes = unlines (HEADER_LINES ++ (entries measured ≫= block notes)).
Proof.
  unfold render_baseline. rewrite unlines_app. f_equal. induction (entries measured) as [|e l IH]; [done|].
  cbn [fmap list_fmap mjoin list_join mbind list_bind]. rewrite unlines_app. f_equal; [|exact IH]. unfold render_crate, block.
  change ([] :: ?x) with ([[]] ++ x) at 1. rewrite !unlines_app. unfold crate_line, unlines at 3. cbn. by rewrite app_nil_r, <- !app_assoc.
Qed.

Section Render.
Context (measured : gmap text Lines) (notes : gmap text (list text)).
Context (Hnames : ∀ name l, measured !! name = Some l → crate_name name).
Context (Hnotes : ∀ name note, notes !! name = Some note → note ≠ [] ∧ Forall note_line note).

Lemma names_of_entries : Forall (λ e, crate_name (fst e)) (entries measured).
Proof using Hnames. apply Forall_forall. intros [n l] Hin%elem_of_entries. by apply (Hnames n l). Qed.

Lemma notes_of name : Forall note_line (default [] (notes !! name)).
Proof using Hnotes. destruct (notes !! name) as [note|] eqn:E; [by apply (Hnotes name)|constructor]. Qed.

Lemma header_one_line : Forall one_line HEADER_LINES.
Proof.
  assert (forallb (λ l, bool_decide (LF ∉ l) && negb (ends_with [CR] l)) HEADER_LINES = true) as H by (vm_compute; reflexivity).
  apply Forall_forall. intros l Hl%list_elem_of_In. rewrite forallb_forall in H. apply H in Hl as [Hl ?%negb_true_iff]%andb_prop.
  split; [by apply bool_decide_eq_true in Hl|done].
Qed.

Lemma rendered_lines : lines (render_baseline measured notes) = HEADER_LINES ++ (entries measured ≫= block notes).
Proof using Hnames Hnotes.
  rewrite render_baseline_unlines. apply lines_unlines, Forall_app. split; [apply header_one_line|].
  apply Forall_bind. eapply Forall_impl; [exact names_of_entries|]. intros e He. constructor; [by split; [apply not_elem_of_nil|]|].
  apply Forall_app. split; [|constructor; [by apply crate_line_one_line|constructor]].
  eapply Forall_impl; [apply notes_of|]. by intros l [_ ?].
Qed.

Lemma note_no_floor l : note_line l → floor_of_line l = None ∧ is_malformed l = false.
Proof. intros [Hn _]. unfold floor_of_line, is_malformed. rewrite Hn, orb_true_r. done. Qed.

Abbreviation add_floor := (λ m line, match floor_of_line line with Some (name, percent) => <[name := percent]> m | None => m end).

Lemma fold_no_floor ls : Forall (λ l, floor_of_line l = None) ls → ∀ m : gmap text f64, fold_left add_floor ls m = m.
Proof. induction 1 as [|l ls Hl _ IH]; intros m; [done|]. cbn [fold_left]. by rewrite Hl. Qed.

Lemma fold_blocks l : Forall (λ e, crate_name (fst e)) l → ∀ m : gmap text f64,
  fold_left add_floor (l ≫= block notes) m = fold_left (λ m e, <[fst e := reread (percent (snd e))]> m) l m.
Proof using Hnotes.
  induction 1 as [|e l He _ IH]; intros m; [done|]. cbn [mbind list_bind]. rewrite fold_left_app. cbn [fold_left]. rewrite <- IH. f_equal.
  unfold block. cbn [fold_left]. rewrite fold_left_app. rewrite (fold_no_floor (default [] (notes !! fst e))).
  - change (floor_of_line []) with (@None (text * f64)). cbn [fold_left]. destruct (crate_line_floor e He) as [-> _]. done.
  - eapply Forall_impl; [apply notes_of|]. intros x Hx. by apply note_no_floor.
Qed.

Lemma fold_insert_lookup {V W} (f : V → W) (l : list (text * V)) k : NoDup l.*1 → ∀ m : gmap text W,
  (∀ v, (k, v) ∈ l → fold_left (λ m e, <[fst e := f (snd e)]> m) l m !! k = Some (f v)) ∧
  (k ∉ l.*1 → fold_left (λ m e, <[fst e := f (snd e)]> m) l m !! k = m !! k).
Proof.
  induction l as [|[k' v'] l IH]; intros Hnd m; cbn [fold_left]; [split; [by intros v ?%elem_of_nil|done]|].
  cbn in Hnd. apply NoDup_cons in Hnd as [Hni Hnd]. destruct (IH Hnd (<[k' := f v']> m)) as [IH1 IH2]. split.
  - intros v [[= -> ->]|Hin]%elem_of_cons; [|by apply IH1]. cbn [fst snd]. rewrite IH2 by done. apply lookup_insert_eq.
  - cbn. intros [Hk Hn]%not_elem_of_cons. rewrite IH2 by done. by apply lookup_insert_ne.
Qed.

Lemma rendered_floors name : parse_baseline (render_baseline measured notes) !! name = (λ l, reread (percent l)) <$> measured !! name.
Proof using Hnames Hnotes.
  unfold parse_baseline. rewrite rendered_lines, fold_left_app. rewrite (fold_no_floor HEADER_LINES).
  - rewrite fold_blocks by apply names_of_entries.
    destruct (fold_insert_lookup (λ l, reread (percent l)) (entries measured) name (entries_unique _) ∅) as [H1 H2].
    destruct (measured !! name) as [l|] eqn:E; [apply H1; by apply elem_of_entries|]. cbn. rewrite H2; [apply lookup_empty|].
    intros ([n l] & -> & Hin%elem_of_entries)%list_elem_of_fmap. cbn in E. congruence.
  - assert (forallb (λ l, is_note (trim l)) HEADER_LINES = true) as H by (vm_compute; reflexivity).
    apply Forall_forall. intros l Hl%list_elem_of_In. rewrite forallb_forall in H. apply H in Hl. unfold floor_of_line. by rewrite Hl, orb_true_r.
Qed.

(** Reading the notes back, a block at a time. *)
Lemma notes_pending ls rest pending at_header m : Forall (λ l, is_note (trim l) = true) ls →
  notes_from (ls ++ rest) pending at_header m = notes_from rest (pending ++ ls) at_header m.
Proof.
  intros H. revert pending. induction H as [|l ls Hl _ IH]; intros pending; [by rewrite app_nil_r|]. cbn [app notes_from]. rewrite Hl, IH.
  by rewrite <- app_assoc.
Qed.

Lemma notes_block e rest pending at_header m : crate_name (fst e) →
  notes_from (block notes e ++ rest) pending at_header m =
  notes_from rest [] false (match notes !! fst e with Some note => <[fst e := note]> m | None => m end).
Proof using Hnotes.
  intros He. unfold block. cbn [app notes_from]. change (is_note (trim [])) with false. change (split_once (lit "=") (trim [])) with (@None (text * text)).
  rewrite (bool_decide_eq_true_2 (trim [] = [])) by done. rewrite <- app_assoc. rewrite notes_pending.
  - cbn [app notes_from]. rewrite crate_line_trim, (crate_line_split e He), (crate_line_name e He) by done.
    destruct (crate_line_not_note e He) as [-> _]. destruct (notes !! fst e) as [note|] eqn:E; cbn [default].
    + destruct (Hnotes _ _ E) as [Hne _]. by rewrite bool_decide_eq_false_2.
    + done.
  - eapply Forall_impl; [apply notes_of|]. by intros l [? _].
Qed.

Lemma notes_blocks l : Forall (λ e, crate_name (fst e)) l → ∀ pending at_header m,
  notes_from (l ≫= block notes) pending at_header m =
  fold_left (λ m e, match notes !! fst e with Some note => <[fst e := note]> m | None => m end) l m.
Proof using Hnotes.
  induction 1 as [|e l He _ IH]; intros pending at_header m; [done|]. cbn [mbind list_bind fold_left]. rewrite notes_block by done.
  apply IH.
Qed.

Lemma fold_notes_lookup (l : list (text * Lines)) k : NoDup l.*1 → ∀ m : gmap text (list text),
  fold_left (λ m e, match notes !! fst e with Some note => <[fst e := note]> m | None => m end) l m !! k =
  if bool_decide (k ∈ l.*1) then match notes !! k with Some note => Some note | None => m !! k end else m !! k.
Proof.
  induction l as [|[k' v'] l IH]; intros Hnd m; cbn [fold_left]; [done|]. cbn in Hnd. apply NoDup_cons in Hnd as [Hni Hnd].
  rewrite IH by done. cbn [fst fmap list_fmap]. destruct (decide (k = k')) as [->|Hne].
  - rewrite bool_decide_eq_false_2 by done. rewrite bool_decide_eq_true_2 by left. destruct (notes !! k'); [apply lookup_insert_eq|done].
  - assert (bool_decide (k ∈ k' :: l.*1) = bool_decide (k ∈ l.*1)) as ->.
    { apply bool_decide_ext. rewrite elem_of_cons. split; [intros [?|?]; done|by right]. }
    assert (match notes !! k' with Some note => <[k' := note]> m | None => m end !! k = m !! k) as ->; [|done].
    destruct (notes !! k'); [by apply lookup_insert_ne|done].
Qed.

Lemma rendered_notes name : existing_notes (render_baseline measured notes) !! name = _ ← measured !! name; notes !! name.
Proof using Hnames Hnotes.
  unfold existing_notes. rewrite rendered_lines, notes_pending.
  - rewrite notes_blocks by apply names_of_entries. rewrite fold_notes_lookup by apply entries_unique. rewrite lookup_empty.
    destruct (measured !! name) as [l|] eqn:E; cbn.
    + rewrite bool_decide_eq_true_2; [by destruct (notes !! name)|]. apply list_elem_of_fmap. exists (name, l). split; [done|by apply elem_of_entries].
    + rewrite bool_decide_eq_false_2; [done|]. intros ([n l] & -> & Hin%elem_of_entries)%list_elem_of_fmap. cbn in E. congruence.
  - assert (forallb (λ l, is_note (trim l)) HEADER_LINES = true) as H by (vm_compute; reflexivity).
    apply Forall_forall. intros l Hl%list_elem_of_In. rewrite forallb_forall in H. by apply H.
Qed.
End Render.

(** C27: A rewritten baseline reads back. For crates with plain names and
    notes of comment lines, the file [--update] writes has no unreadable
    line; the floor it gives each measured crate is the figure rounded to
    hundredths, and it gives no other; and every note of a measured crate is
    there, word for word, with the header attributed to nobody. *)
Theorem rendered_baseline_reads_back measured notes :
  (∀ name l, measured !! name = Some l → crate_name name) →
  (∀ name note, notes !! name = Some note → note ≠ [] ∧ Forall note_line note) →
  (∀ name, parse_baseline (render_baseline measured notes) !! name = (λ l, reread (percent l)) <$> measured !! name) ∧
  (∀ name, existing_notes (render_baseline measured notes) !! name = _ ← measured !! name; notes !! name) ∧
  ∀ line, line ∈ lines (render_baseline measured notes) → is_malformed line = false.
Proof.
  intros Hnames Hnotes. split; [|split].
  - intros name. by apply rendered_floors.
  - intros name. by apply rendered_notes.
  - intros line. rewrite rendered_lines by done. intros [Hin|Hin]%elem_of_app.
    + assert (forallb (λ l, negb (is_malformed l)) HEADER_LINES = true) as H by (vm_compute; reflexivity).
      rewrite forallb_forall in H. apply list_elem_of_In, H, negb_true_iff in Hin. done.
    + apply list_elem_of_bind in Hin as (e & Hin & He). pose proof (names_of_entries measured Hnames) as Hall.
      rewrite Forall_forall in Hall. specialize (Hall e He). apply elem_of_cons in Hin as [->|Hin]; [done|].
      apply elem_of_app in Hin as [Hin| ->%list_elem_of_singleton]; [|by apply crate_line_floor].
      pose proof (notes_of notes Hnotes (fst e)) as Hn. rewrite Forall_forall in Hn. by apply note_no_floor, Hn.
Qed.

(** ** A baseline of one crate *)

Definition one_crate : gmap text Lines := {[lit "xtask" := mkLines 541 1001]}.
Definition one_note : gmap text (list text) := {[lit "xtask" := [lit "# 54.05. It spawns cargo."; lit "# And qemu."]]}.

Lemma one_crate_named name l : one_crate !! name = Some l → crate_name name.
Proof. unfold one_crate. intros [<- _]%lookup_singleton_Some. split; [done|]. repeat constructor. Qed.
Lemma one_note_lines name note : one_note !! name = Some note → note ≠ [] ∧ Forall note_line note.
Proof.
  unfold one_note. intros [_ <-]%lookup_singleton_Some. split; [done|].
  assert (∀ l, is_note (trim l) && bool_decide (LF ∉ l) && negb (ends_with [CR] l) = true → note_line l) as H.
  { intros l [[H1 H2%bool_decide_eq_true]%andb_prop H3%negb_true_iff]%andb_prop. by repeat split. }
  repeat constructor; apply H; vm_compute; reflexivity.
Qed.

Lemma rendered_baseline_reads_back_witness :
  parse_baseline (render_baseline one_crate one_note) !! lit "xtask" = parse_f64 (lit "54.05").
Proof.
  rewrite (proj1 (rendered_baseline_reads_back one_crate one_note one_crate_named one_note_lines)).
  vm_compute. reflexivity.
Defined.

Definition lowered : text := unlines [lit "# 54.05. It spawns cargo."; lit "xtask = 60.00"; lit "qunix-gone = 91.00"].

Lemma update_never_lowers_in_silence_witness :
  ∃ new, check_update one_crate (Some lowered) [lit "--drop-crate=qunix-gone"] = Ok new ∧
    lit "qunix-gone" ∈ dropped_crates [lit "--drop-crate=qunix-gone"].
Proof.
  destruct (check_update one_crate (Some lowered) [lit "--drop-crate=qunix-gone"]) as [new|e] eqn:E; [|vm_compute in E; discriminate].
  exists new. split; [reflexivity|].
  destruct (update_never_lowers_in_silence _ _ _ _ E) as [_ H].
  assert (∃ floor, parse_baseline lowered !! lit "qunix-gone" = Some floor) as [floor Hf] by (eexists; vm_compute; reflexivity).
  specialize (H _ _ Hf). assert (one_crate !! lit "qunix-gone" = None) as Hn by (vm_compute; reflexivity). rewrite Hn in H. exact H.
Defined.

Lemma passing_check_enforces_every_floor_witness : ∃ l, one_crate !! lit "xtask" = Some l.
Proof.
  assert (check_read one_crate ∅ (Some (lit "xtask = 54.30")) = Ok tt) as E by (vm_compute; reflexivity).
  assert (∃ floor, parse_baseline (lit "xtask = 54.30") !! lit "xtask" = Some floor) as [floor Hf] by (eexists; vm_compute; reflexivity).
  destruct (passing_check_enforces_every_floor _ _ _ E _ _ Hf) as (l & Hl & _). exists l. exact Hl.
Defined.
