(* ===== verification/Attest.v ===== *)
(** The gates on a contribution: [xtask/src/attest.rs] and [licensing.rs].

    Git is an argument: its answer to an argument list, trimmed as [git] trims
    it, or nothing if it failed; so is the environment.  What a refusal says is
    told by what it names. *)
From Stdlib Require Import Strings.Byte.
From S2P Require Import Prelude Bits Text.
#[global] Open Scope Z_scope.

Definition TRAILER : text := lit "Assisted-by:".
Definition PROTECTED : list text := [lit "main"; lit "develop"].
Definition UPSTREAM_REPO : text := lit "quinnjr/qunix".

(** The variables the gate reads; the event's payload is what its file holds,
    [None] inside if it cannot be read. *)
Record Env := mkEnv
  { GITHUB_HEAD_REF : option text; GITHUB_REF_NAME : option text; GITHUB_EVENT_NAME : option text;
    GITHUB_EVENT_PATH : option (option text); CI : option text; GITHUB_REPOSITORY : option text }.

(** [resolve_branch], [current_branch], [protected_candidate]. *)
Fixpoint first_named (candidates : list (option text)) : option text :=
  match candidates with
  | [] => None
  | Some c :: cs => if bool_decide (trim c = []) then first_named cs else Some (trim c)
  | None :: cs => first_named cs
  end.
Definition resolve_branch (head_ : text) (head_ref ref_name : option text) : text :=
  if negb (bool_decide (head_ = lit "HEAD")) then head_ else default head_ (first_named [head_ref; ref_name]).
Definition current_branch (env : Env) (named : text) : text := resolve_branch named (GITHUB_HEAD_REF env) (GITHUB_REF_NAME env).
Definition protected_candidate (env : Env) (named : text) : text := resolve_branch named None (GITHUB_REF_NAME env).

(** [protected_applies], [protected_fires]. *)
Definition protected_applies (event : option text) : bool :=
  match event with None => true | Some e => bool_decide (trim e = []) || bool_decide (trim e = lit "push") end.
Definition protected_fires (event : option text) (branch : text) : bool := protected_applies event && bool_decide (branch ∈ PROTECTED).

(** [usable_before]. *)
Definition usable_before (raw : text) : option text :=
  let before := trim raw in
  if bool_decide (before = []) || forallb (λ c, bool_decide (c = x30)) before then None else Some before.

(** [payload_before]: a turn goes past one occurrence of the key. *)
Definition DQUOTE : byte := x22.
Definition KEY : text := [DQUOTE] ++ lit "before" ++ [DQUOTE].
Definition trim_end (s : text) : text := reverse (trim_start (reverse s)).
Fixpoint payload_from (fuel : nat) (json : text) (from : nat) : option (option text) :=
  match fuel with
  | O => None
  | S fuel' =>
      match find KEY (drop from json) with
      | None => Some None
      | Some found =>
          let at_ := (from + found)%nat in
          let from := (at_ + length KEY)%nat in
          if negb (match last (trim_end (take at_ json)) with Some c => bool_decide (c ∈ lit "{,") | None => false end)
          then payload_from fuel' json from
          else match strip_prefix (lit ":") (trim_start (drop from json)) with
               | None => payload_from fuel' json from
               | Some value =>
                   match strip_prefix [DQUOTE] (trim_start value) with
                   | None => payload_from fuel' json from
                   | Some value => Some (end_ ← find [DQUOTE] value; Some (take end_ value))
                   end
               end
      end
  end.
Definition payload_before (json : text) : option (option text) := payload_from (S (length json)) json 0.

(** [attested]. *)
Definition attested (body : text) : bool :=
  existsb (λ line, match strip_prefix TRAILER (trim line) with Some r => negb (bool_decide (trim r = [])) | None => false end) (lines body).

(** [is_ci_value], [missing_base_is_fatal]. *)
Definition is_ci_value (value : option text) : bool :=
  match value with Some v => negb (bool_decide (v = [])) && negb (bool_decide (v = lit "false")) | None => false end.
Definition missing_base_is_fatal (ci : bool) (repository : option text) : bool :=
  ci && match repository with None => true | Some r => bool_decide (trim r = []) || bool_decide (trim r = UPSTREAM_REPO) end.

Inductive Refusal :=
  | GitFailed | NoPayload | UnknownBefore (before : text) | NoBase
  | OnProtected (pushed : Z) (branch : text) | Unattested (hashes : list text).
Inductive Report := Skipped | NoCommits (range : text) | Attested (commits : Z) (branch : text).

(** [range_for_before]. *)
Definition range_for_before (before : option text) (contains_commit : text → bool) : result (option text) Refusal :=
  match b ← before; usable_before b with
  | None => Ok None
  | Some b => if contains_commit b then Ok (Some (b ++ lit "..HEAD")) else Err (UnknownBefore b)
  end.

Definition protected_count_args (range : text) : list text := [lit "rev-list"; lit "--no-merges"; lit "--first-parent"; range].
Definition nonempty_lines (out : text) : list text := filter (λ l, l ≠ []) (lines out).

Section Check.
Context (git : list text → option text) (env : Env).

Definition git_ok (args : list text) : bool := match git args with Some _ => true | None => false end.

(** [default_range]. *)
Definition BASES : list text := [lit "origin/develop"; lit "develop"; lit "origin/main"; lit "main"].
Fixpoint default_range (bases : list text) : option text :=
  match bases with
  | [] => None
  | base :: bases' => if git_ok [lit "rev-parse"; lit "--verify"; lit "--quiet"; base] then Some (base ++ lit "..HEAD") else default_range bases'
  end.

(** [protected_range]. *)
Definition protected_range : outcome (result (option text) Refusal) :=
  match GITHUB_EVENT_PATH env with
  | None => Ret (Ok None)
  | Some None => Ret (Err NoPayload)
  | Some (Some payload) =>
      before ← expect (payload_before payload);
      Ret (range_for_before before (λ b, git_ok [lit "rev-parse"; lit "--verify"; lit "--quiet"; b ++ lit "^{commit}"]))
  end.

(** What a push put on a protected branch. *)
Definition pushed_commits (hashes : list text) : outcome (result Z Refusal) :=
  r ← protected_range;
  Ret (match r with
       | Err e => Err e
       | Ok None => Ok (Z.of_nat (length hashes))
       | Ok (Some range) =>
           match git (protected_count_args range) with
           | None => Err GitFailed
           | Some out => Ok (Z.of_nat (length (nonempty_lines out)))
           end
       end).

(** The loop over the commits: those that carry no trailer. *)
Fixpoint missing_trailers (hashes : list text) (missing : list text) : result (list text) Refusal :=
  match hashes with
  | [] => Ok missing
  | h :: hashes' =>
      match git [lit "show"; lit "-s"; lit "--format=%B"; h] with
      | None => Err GitFailed
      | Some body =>
          if attested body then missing_trailers hashes' missing
          else match git [lit "show"; lit "-s"; lit "--format=%s"; h] with
               | None => Err GitFailed
               | Some _ => missing_trailers hashes' (missing ++ [h])
               end
      end
  end.

(** [check]. *)
Definition check (range : option text) : outcome (result Report Refusal) :=
  match git [lit "rev-parse"; lit "--abbrev-ref"; lit "HEAD"] with
  | None => Ret (Err GitFailed)
  | Some named =>
      let branch := current_branch env named in
      match match range with Some r => Some r | None => default_range BASES end with
      | None => Ret (if missing_base_is_fatal (is_ci_value (CI env)) (GITHUB_REPOSITORY env) then Err NoBase else Ok Skipped)
      | Some range =>
          match git [lit "rev-list"; lit "--no-merges"; range] with
          | None => Ret (Err GitFailed)
          | Some out =>
              let hashes := nonempty_lines out in
              let protected_ := protected_candidate env named in
              r ← (if protected_fires (GITHUB_EVENT_NAME env) protected_ then pushed_commits hashes else Ret (Ok 0));
              Ret (match r with
                   | Err e => Err e
                   | Ok pushed =>
                       if 0 <? pushed then Err (OnProtected pushed protected_)
                       else if bool_decide (hashes = []) then Ok (NoCommits range)
                       else match missing_trailers hashes [] with
                            | Err e => Err e
                            | Ok missing =>
                                if bool_decide (missing = []) then Ok (Attested (Z.of_nat (length hashes)) branch) else Err (Unattested missing)
                            end
                   end)
          end
      end
  end.
End Check.

(** ** [licensing.rs] *)

Definition PERMISSIVE : text := lit "MIT OR Apache-2.0".
Definition COPYLEFT : text := lit "GPL-2.0".
Definition COPYLEFT_MARKERS : list text := [lit "linux-compat"; lit "linux-shim"; lit "linux-headers"].
Definition PERMISSIVE_EXCEPTIONS : list text := [lit "qunix-linux-abi"].

Definition zone_for (crate_name : text) : text :=
  if bool_decide (crate_name ∈ PERMISSIVE_EXCEPTIONS) then PERMISSIVE
  else if existsb (λ m, contains m crate_name) COPYLEFT_MARKERS then COPYLEFT
  else PERMISSIVE.

(** [trim_matches] of a double quote. *)
Fixpoint drop_quotes (s : text) : text :=
  match s with [] => [] | c :: s' => if bool_decide (c = DQUOTE) then drop_quotes s' else s end.
Definition trim_quotes (s : text) : text := reverse (drop_quotes (reverse (drop_quotes s))).

(** [manifest_field]. *)
Definition field_in (key line : text) : option text :=
  rest ← strip_prefix key (trim line); v ← strip_prefix (lit "=") (trim rest); Some (trim v).
Fixpoint find_map (f : text → option text) (ls : list text) : option text :=
  match ls with [] => None | l :: ls' => match f l with Some v => Some v | None => find_map f ls' end end.
Definition manifest_field (manifest key : text) : option text := trim_quotes <$> find_map (field_in key) (lines manifest).

Definition declared_license (manifest : text) : option text :=
  if contains (lit "license.workspace = true") manifest then Some PERMISSIVE else manifest_field manifest (lit "license").

Inductive LicenseError := NoLicense (name : text) | WrongZone (name declared expected : text) | NoCrates.
Definition verdict (name manifest : text) : result unit LicenseError :=
  match declared_license manifest with
  | None => Err (NoLicense name)
  | Some declared => if bool_decide (declared = zone_for name) then Ok tt else Err (WrongZone name declared (zone_for name))
  end.

(** [check] of [licensing.rs], over the manifests it finds: how many crates. *)
Fixpoint check_manifests (manifests : list text) (checked : Z) : result Z LicenseError :=
  match manifests with
  | [] => if checked =? 0 then Err NoCrates else Ok checked
  | m :: manifests' =>
      match manifest_field m (lit "name") with
      | None => check_manifests manifests' checked
      | Some name => match verdict name m with Err e => Err e | Ok _ => check_manifests manifests' (checked + 1) end
      end
  end.

(** * What holds of it

    What the contribution gates hold, and where they are fooled. *)

(** ** [payload_before] comes to an end *)

Lemma payload_from_ends fuel json : ∀ from, (length json < fuel + from)%nat → (0 < fuel)%nat → payload_from fuel json from ≠ None.
Proof.
  induction fuel as [|fuel IH]; intros from Hl Hf; [lia|]. cbn [payload_from].
  destruct (find KEY (drop from json)) as [i|] eqn:Ef; [|done].
  assert ((from + i + length KEY ≤ length json)%nat) as Hle.
  { apply find_Some in Ef as (a & b & E & Hi). apply (f_equal length) in E. rewrite !length_app, length_drop in E.
    change (length KEY) with 8%nat in *. lia. }
  change (length KEY) with 8%nat in *.
  assert (payload_from fuel json (from + i + 8) ≠ None) as Hr by (apply IH; lia).
  destruct (negb _); [done|]. destruct (strip_prefix (lit ":") _); [|done]. by destruct (strip_prefix [DQUOTE] _).
Qed.

Lemma payload_before_ends json : ∃ o, payload_before json = Some o.
Proof.
  unfold payload_before. destruct (payload_from (S (length json)) json 0) as [o|] eqn:E; [by exists o|].
  exfalso. by apply (payload_from_ends (S (length json)) json 0); [lia|lia|].
Qed.

(** ** The gate *)

Abbreviation body_of git h := (git [lit "show"; lit "-s"; lit "--format=%B"; h]).

Lemma missing_trailers_all git hashes : ∀ missing out, missing_trailers git hashes missing = Ok out →
  ∃ more, out = missing ++ more ∧ (more = [] → ∀ h, h ∈ hashes → ∃ body, body_of git h = Some body ∧ attested body = true).
Proof.
  induction hashes as [|h hashes IH]; intros missing out; cbn [missing_trailers].
  - intros [= <-]. exists []. rewrite app_nil_r. split; [done|]. by intros _ h ?%elem_of_nil.
  - destruct (body_of git h) as [body|] eqn:Eb; [|done]. destruct (attested body) eqn:Ea.
    + intros (more & -> & Hm)%IH. exists more. split; [done|]. intros Hn x [->|Hx]%elem_of_cons; [by exists body|by apply Hm].
    + destruct (git [lit "show"; lit "-s"; lit "--format=%s"; h]); [|done]. intros (more & -> & _)%IH. exists (h :: more). rewrite <- app_assoc. split; [done|]. by intros ?.
Qed.

Lemma pushed_commits_nonneg git env hashes p : pushed_commits git env hashes = Ret (Ok p) → 0 ≤ p.
Proof.
  unfold pushed_commits. intros ([[range|]|] & _ & E)%bind_ret_inv; [|injection E as <-; lia|done].
  destruct (git _); [injection E as <-; lia|done].
Qed.

(** A gate that passes has read every commit.  If [attest] accepts, then
    either there was nothing to compare with, no range was asked for, and the
    run was not one of the upstream repository's own; or git gave a list of
    the commits of the range, each of them has a line that starts with the
    trailer and says something after it, and if the rule for protected
    branches applies to this event and this branch, the push put no commit on
    the branch itself. *)
Theorem passing_gate_has_read_every_commit git env range rep : check git env range = Ret (Ok rep) →
  (rep = Skipped ∧ range = None ∧ default_range git BASES = None ∧ missing_base_is_fatal (is_ci_value (CI env)) (GITHUB_REPOSITORY env) = false) ∨
  ∃ named r out, git [lit "rev-parse"; lit "--abbrev-ref"; lit "HEAD"] = Some named ∧ (range = Some r ∨ range = None ∧ default_range git BASES = Some r) ∧
    git [lit "rev-list"; lit "--no-merges"; r] = Some out ∧
    (∀ h, h ∈ nonempty_lines out → ∃ body, body_of git h = Some body ∧ attested body = true) ∧
    (protected_fires (GITHUB_EVENT_NAME env) (protected_candidate env named) = true →
       pushed_commits git env (nonempty_lines out) = Ret (Ok 0)).
Proof.
  unfold check. destruct (git [lit "rev-parse"; lit "--abbrev-ref"; lit "HEAD"]) as [named|] eqn:En; [|done].
  destruct (match range with Some r => Some r | None => default_range git BASES end) as [r|] eqn:Er.
  - destruct (git [lit "rev-list"; lit "--no-merges"; r]) as [out|] eqn:Eo; [|done]. intros ([pushed|] & Hp & E)%bind_ret_inv; [|done].
    destruct (Z.ltb_spec 0 pushed) as [|Hle]; [done|]. right. exists named, r, out. split; [done|]. split; [|split; [done|split]].
    + destruct range as [r'|]; [left; by injection Er as ->|by right].
    + case_bool_decide as Eh; [rewrite Eh; by intros h ?%elem_of_nil|]. destruct (missing_trailers git (nonempty_lines out) []) as [missing|] eqn:Em; [|done].
      case_bool_decide as Emi; [|done]. destruct (missing_trailers_all _ _ _ _ Em) as (more & -> & Hm). by apply Hm.
    + intros Hf. rewrite Hf in Hp. pose proof (pushed_commits_nonneg _ _ _ _ Hp). by assert (pushed = 0) as -> by lia.
  - intros [= E]. left. destruct (missing_base_is_fatal _ _); [done|]. injection E as <-. by destruct range.
Qed.

(** ** Cases *)

(** JSON, with apostrophes for double quotes. *)
Definition json (s : string) : text := (λ c, if bool_decide (c = x27) then DQUOTE else c) <$> lit s.

(** The [before] of a push is asked for; a [before] of an object inside it
    that comes first is taken instead. *)
Theorem nested_before_is_taken :
  payload_before (json "{'commits':[{'before':'1111'}],'before':'2222'}") = Some (Some (lit "1111")) ∧
  payload_before (json "{'before':'2222','commits':[{'before':'1111'}]}") = Some (Some (lit "2222")).
Proof. split; vm_compute; reflexivity. Qed.

(** A repository of one attested commit, pushed to a protected branch as the
    event tells. *)
Definition one_commit (pushed : text) (args : list text) : option text :=
  if bool_decide (args = [lit "rev-parse"; lit "--abbrev-ref"; lit "HEAD"]) then Some (lit "main")
  else if bool_decide (args = [lit "rev-list"; lit "--no-merges"; lit "origin/develop..HEAD"]) then Some (lit "abcd")
  else if bool_decide (args = protected_count_args (lit "2222..HEAD")) then Some pushed
  else if bool_decide (args = [lit "show"; lit "-s"; lit "--format=%B"; lit "abcd"]) then Some (lit "Fix it" ++ [LF] ++ lit "Assisted-by: none") else Some [].
Definition push_env : Env := mkEnv None None (Some (lit "push")) (Some (Some (json "{'before':'2222'}"))) (Some (lit "true")) None.

Lemma passing_gate_has_read_every_commit_witness : ∃ body, body_of (one_commit []) (lit "abcd") = Some body ∧ attested body = true.
Proof.
  destruct (passing_gate_has_read_every_commit (one_commit []) push_env None (Attested 1 (lit "main"))) as [[E _]|(named & r & out & _ & Hr & Ho & Hb & _)];
    [vm_compute; reflexivity|discriminate|].
  assert (r = lit "origin/develop..HEAD") as -> by (destruct Hr as [|[_ Hr]]; [done|]; vm_compute in Hr; by injection Hr as <-).
  apply Hb. assert (out = lit "abcd") as -> by (vm_compute in Ho; by injection Ho as <-).
  apply (bool_decide_unpack _). vm_compute. reflexivity.
Defined.

(** A merge that puts one commit of its own on the branch is refused. *)
Example direct_push_is_refused : check (one_commit (lit "abcd")) push_env None = Ret (Err (OnProtected 1 (lit "main"))).
Proof. vm_compute. reflexivity. Qed.

(** ** [licensing.rs] *)

(** A Linux-compatibility crate ships under the copyleft licence or not at
    all.  If the licence check accepts a set of manifests, every one that has
    a name in the copyleft zone says GPL-2.0 itself and does not inherit the
    workspace's licence. *)
Theorem copyleft_crates_say_so manifests checked n : check_manifests manifests checked = Ok n →
  ∀ m name, m ∈ manifests → manifest_field m (lit "name") = Some name → zone_for name = COPYLEFT →
    manifest_field m (lit "license") = Some COPYLEFT ∧ contains (lit "license.workspace = true") m = false.
Proof.
  revert checked. induction manifests as [|m0 manifests IH]; intros checked; cbn [check_manifests]; [by intros _ m name ?%elem_of_nil|].
  intros Hc m name Hin Hn Hz. apply elem_of_cons in Hin as [->|Hin].
  - rewrite Hn in Hc. unfold verdict, declared_license in Hc. destruct (contains _ m0) eqn:Ew.
    + rewrite Hz in Hc. case_bool_decide as E; [|done]. vm_compute in E. discriminate.
    + destruct (manifest_field m0 (lit "license")) as [l|]; [|done]. case_bool_decide as E; [|done]. by rewrite E, Hz.
  - destruct (manifest_field m0 (lit "name")) as [n0|]; [|by apply (IH checked Hc m name)]. destruct (verdict n0 m0); [by apply (IH (checked + 1) Hc m name)|done].
Qed.

Definition shim_manifest : text := mjoin ((λ l, json l ++ [LF]) <$> ["[package]"; "name = 'qunix-linux-shim'"; "license = 'GPL-2.0'"]%string).
Lemma copyleft_crates_say_so_witness : manifest_field shim_manifest (lit "license") = Some COPYLEFT.
Proof.
  refine (proj1 (copyleft_crates_say_so [shim_manifest] 0 1 _ shim_manifest (lit "qunix-linux-shim") _ _ _));
    [vm_compute; reflexivity|apply (bool_decide_unpack _); vm_compute; reflexivity|vm_compute; reflexivity|vm_compute; reflexivity].
Defined.

(** A comment that quotes the inheriting line counts as inheriting: a crate of
    the permissive zone that declares GPL-2.0 is accepted. *)
Theorem quoted_inheritance_is_believed :
  verdict (lit "qunix-mm") (mjoin ((λ l, json l ++ [LF]) <$> ["name = 'qunix-mm'"; "# not license.workspace = true"; "license = 'GPL-2.0'"]%string)) = Ok tt.
Proof. vm_compute. reflexivity. Qed.
