(* ===== verification/FuzzCache.v ===== *)
(** The fuzz target of the buffer-cache table: [fuzz/fuzz_targets/bcache.rs].

    The target drives a table of [BCache] with any operations and asserts,
    after each, that the table agrees with a model of its own.  [Panic] is an
    assertion that fails.  A [HashMap] is gone through in an order of its own,
    which may change from one operation to the next: [order] at a time. *)
From stdpp Require Import gmap sorting.
From S2P Require Import Prelude Bits BCache.
#[global] Open Scope Z_scope.

Definition SLOTS : nat := 16.

Inductive Op :=
  | OpInsert (dev block : Z) | OpLookup (dev block : Z) | OpEndIo (which : Z) (ok : bool)
  | OpMarkDirty (which : Z) | OpMarkClean (which : Z) | OpBeginIo (which : Z)
  | OpPin (which : Z) | OpUnpin (which : Z) | OpEvict (which : Z).

Record Occupant := mkOcc { o_key : BlockKey; o_state : SlotState; o_pins : Z; o_dirtied : bool }.
#[export] Instance Occupant_eq_dec : EqDecision Occupant.
Proof. solve_decision. Defined.
#[export] Instance BlockKey_countable : Countable BlockKey :=
  inj_countable' (λ k : BlockKey, (dev k, block k)) (λ x : Z * Z, mkKey (fst x) (snd x)) (λ k, match k with mkKey _ _ => eq_refl end).
#[export] Instance EvictError_eq_dec : EqDecision EvictError.
Proof. solve_decision. Defined.

(** The table under test, the model of it, and the token of every I/O
    outstanding. *)
Abbreviation Model := (gmap nat Occupant).
Record Harness := mkHarness { cache : Cache; model : Model; tokens : gmap nat IoToken }.

(** [pick]. *)
Definition pick (slots : list nat) (which : Z) : outcome (option nat) :=
  if bool_decide (slots = []) then Ret None
  else Some <$> index slots (which mod Z.of_nat (length slots)).

(** [check]: the slots one by one, with the keys seen so far. *)
Fixpoint check_slots (c : Cache) (m : Model) (slots : list nat) (seen : gmap BlockKey nat) : outcome unit :=
  match slots with
  | [] => Ret tt
  | slot :: slots' =>
      match key_of c slot with
      | None =>
          _ ← rust_assert (bool_decide (m !! slot = None));
          _ ← rust_assert (bool_decide (pins_of c slot = Some 0));
          check_slots c m slots' seen
      | Some key =>
          _ ← rust_assert (bool_decide (seen !! key = None));
          occupant ← expect (m !! slot);
          _ ← rust_assert (bool_decide (o_key occupant = key));
          _ ← rust_assert (bool_decide (state_of c slot = Some (o_state occupant)));
          _ ← rust_assert (bool_decide (pins_of c slot = Some (o_pins occupant)));
          check_slots c m slots' (<[key := slot]> seen)
      end
  end.

Definition check_victim (c : Cache) (m : Model) (rows : list (nat * Occupant)) : outcome unit :=
  match victim c with
  | Some v =>
      _ ← match m !! v with
          | None => Ret tt
          | Some occupant =>
              _ ← rust_assert (bool_decide (o_state occupant = Clean));
              rust_assert (o_pins occupant =? 0)
          end;
      if (size m <? SLOTS)%nat then rust_assert (bool_decide (m !! v = None)) else Ret tt
  | None =>
      rust_assert (bool_decide (size m = SLOTS) &&
        forallb (λ x, negb (bool_decide (o_state (snd x) = Clean)) || (0 <? o_pins (snd x))) rows)
  end.

Definition check (c : Cache) (m : Model) (rows : list (nat * Occupant)) : outcome unit :=
  _ ← check_slots c m (seq 0 SLOTS) ∅;
  _ ← check_victim c m rows;
  let expected := merge_sort (≤)%nat (filter (λ x, o_state (snd x) = Dirty) rows).*1 in
  rust_assert (bool_decide (dirty_slots c = expected)).

(** What [evict] has to answer. *)
Definition expected_evict (occupant : Occupant) : result unit EvictError :=
  if negb (o_pins occupant =? 0) then Err Pinned
  else match o_state occupant with Dirty => Err EvDirty | InFlight => Err IoOutstanding | _ => Ok tt end.

Definition with_o_state (o : Occupant) (st : SlotState) : Occupant := mkOcc (o_key o) st (o_pins o) (o_dirtied o).
Definition with_o_pins (o : Occupant) (p : Z) : Occupant := mkOcc (o_key o) (o_state o) p (o_dirtied o).
Definition with_o_dirtied (o : Occupant) (b : bool) : Occupant := mkOcc (o_key o) (o_state o) (o_pins o) b.

(** One operation; [None] is a [continue]. *)
Definition apply_op (rows : list (nat * Occupant)) (h : Harness) (op : Op) : outcome (option Harness) :=
  let occupied := rows.*1 in
  let resident := (filter (λ x, o_state (snd x) ≠ InFlight) rows).*1 in
  let in_flight := (filter (λ x, o_state (snd x) = InFlight) rows).*1 in
  let pinned := (filter (λ x, 0 < o_pins (snd x)) rows).*1 in
  let on (slots : list nat) (which : Z) (k : nat → outcome Harness) : outcome (option Harness) :=
    o ← pick slots which;
    match o with None => Ret None | Some slot => Some <$> k slot end in
  match op with
  | OpInsert d b =>
      let key := mkKey d b in
      let resident_already := existsb (λ x, bool_decide (o_key (snd x) = key)) rows in
      let full := bool_decide (size (model h) = SLOTS) in
      '(r, c) ← insert (cache h) key;
      match r with
      | Ok token =>
          let slot := token_slot token in
          _ ← rust_assert (bool_decide (tokens h !! slot = None));
          _ ← rust_assert (negb resident_already);
          _ ← rust_assert (negb full);
          _ ← rust_assert (bool_decide (model h !! slot = None));
          Ret (Some (mkHarness c (<[slot := mkOcc key InFlight 0 false]> (model h)) (<[slot := token]> (tokens h))))
      | Err (AlreadyResident slot) =>
          _ ← rust_assert (negb full || resident_already);
          _ ← rust_assert (bool_decide (o_key <$> model h !! slot = Some key));
          Ret (Some (mkHarness c (model h) (tokens h)))
      | Err Full =>
          _ ← rust_assert (full && negb resident_already);
          Ret (Some (mkHarness c (model h) (tokens h)))
      end
  | OpLookup d b =>
      let key := mkKey d b in
      let expected := fst <$> find_first (λ x, bool_decide (o_key (snd x) = key)) rows in
      _ ← rust_assert (bool_decide (lookup (cache h) key = expected));
      Ret (Some h)
  | OpBeginIo which => on resident which (λ slot,
      occupant ← expect (model h !! slot);
      '(token, c) ← begin_io (cache h) slot;
      _ ← rust_assert (bool_decide (prior token = o_state occupant));
      _ ← rust_assert (bool_decide (token_slot token = slot));
      _ ← rust_assert (bool_decide (tokens h !! slot = None));
      Ret (mkHarness c (<[slot := with_o_state occupant InFlight]> (model h)) (<[slot := token]> (tokens h))))
  | OpEndIo which ok => on in_flight which (λ slot,
      occupant ← expect (model h !! slot);
      let asked := if ok then Clean else Dirty in
      token ← expect (tokens h !! slot);
      c ← end_io (cache h) token asked;
      Ret (mkHarness c (<[slot := with_o_dirtied (with_o_state occupant (if o_dirtied occupant then Dirty else asked)) false]> (model h))
             (delete slot (tokens h))))
  | OpMarkDirty which => on occupied which (λ slot,
      c ← mark_dirty (cache h) slot;
      occupant ← expect (model h !! slot);
      Ret (mkHarness c (<[slot := if bool_decide (o_state occupant = InFlight) then with_o_dirtied occupant true
                                  else with_o_state occupant Dirty]> (model h)) (tokens h)))
  | OpMarkClean which => on resident which (λ slot,
      c ← mark_clean (cache h) slot;
      occupant ← expect (model h !! slot);
      Ret (mkHarness c (<[slot := with_o_state occupant Clean]> (model h)) (tokens h)))
  | OpPin which => on occupied which (λ slot,
      c ← pin (cache h) slot;
      occupant ← expect (model h !! slot);
      p ← add_chk 32 (o_pins occupant) 1;
      Ret (mkHarness c (<[slot := with_o_pins occupant p]> (model h)) (tokens h)))
  | OpUnpin which => on pinned which (λ slot,
      c ← unpin (cache h) slot;
      occupant ← expect (model h !! slot);
      p ← sub_chk (o_pins occupant) 1;
      Ret (mkHarness c (<[slot := with_o_pins occupant p]> (model h)) (tokens h)))
  | OpEvict which => on occupied which (λ slot,
      occupant ← expect (model h !! slot);
      let expected := expected_evict occupant in
      '(r, c) ← evict (cache h) slot;
      _ ← rust_assert (bool_decide (r = expected));
      Ret (mkHarness c (match expected with Ok _ => delete slot (model h) | Err _ => model h end) (tokens h)))
  end.

Section Target.
Context (order : nat → Model → list (nat * Occupant)).

(** The loop over the operations, from a time on. *)
Fixpoint run_ops (time : nat) (h : Harness) (ops : list Op) : outcome Harness :=
  match ops with
  | [] => Ret h
  | op :: ops' =>
      r ← apply_op (order time (model h)) h op;
      match r with
      | None => run_ops (S time) h ops'
      | Some h' =>
          _ ← check (cache h') (model h') (order time (model h'));
          run_ops (S time) h' ops'
      end
  end.

(** The drain. *)
Fixpoint unpin_times (n : nat) (c : Cache) (slot : nat) : outcome Cache :=
  match n with O => Ret c | S n' => c' ← unpin c slot; unpin_times n' c' slot end.
Fixpoint drain (rows : list (nat * Occupant)) (h : Harness) : outcome Harness :=
  match rows with
  | [] => Ret h
  | (slot, occupant) :: rows' =>
      c ← unpin_times (Z.to_nat (o_pins occupant)) (cache h) slot;
      c ← match tokens h !! slot with Some token => end_io c token Clean | None => Ret c end;
      c ← mark_clean c slot;
      '(r, c) ← evict c slot;
      _ ← rust_assert (match r with Ok _ => true | Err _ => false end);
      drain rows' (mkHarness c (delete slot (model h)) (delete slot (tokens h)))
  end.
Fixpoint all_free (c : Cache) (slots : list nat) : outcome unit :=
  match slots with
  | [] => Ret tt
  | slot :: slots' => _ ← rust_assert (bool_decide (state_of c slot = Some Free)); all_free c slots'
  end.
Fixpoint refill (c : Cache) (blocks : list nat) : outcome Cache :=
  match blocks with
  | [] => Ret c
  | b :: blocks' =>
      '(r, c) ← insert c (mkKey 0 (Z.of_nat b));
      token ← match r with Ok token => Ret token | Err _ => Panic end;
      c ← end_io c token Clean;
      refill c blocks'
  end.

(** [fuzz_target!]. *)
Definition probe : outcome Cache :=
  '(r, c) ← insert (new SLOTS) (mkKey 0 0);
  probe_token ← match r with Ok token => Ret token | Err _ => Panic end;
  let probe := token_slot probe_token in
  '(r, c) ← evict c probe;
  _ ← rust_assert (bool_decide (r = Err IoOutstanding));
  c ← end_io c probe_token Clean;
  '(r, c) ← evict c probe;
  _ ← rust_assert (match r with Ok _ => true | Err _ => false end);
  Ret c.
Definition fuzz_target (ops : list Op) : outcome unit :=
  c ← probe;
  h ← run_ops 0 (mkHarness c ∅ ∅) ops;
  h ← drain (order (length ops) (model h)) h;
  _ ← all_free (cache h) (seq 0 SLOTS);
  _ ← refill (cache h) (seq 0 SLOTS);
  Ret tt.
End Target.

(** * What holds of it

    No input makes the buffer cache's fuzz target fail. *)

(** What the model says of a slot. *)
Definition occ_of (s : Slot) : Occupant := mkOcc (key s) (state s) (pins s) (dirtied_during_io s).
Definition view (c : Cache) (i : nat) : option Occupant :=
  s ← c !! i; if decide (state s = Free) then None else Some (occ_of s).

(** What the target keeps: the model is the table, every I/O outstanding has
    its token, and a free slot is as new. *)
Record agrees (h : Harness) (b : Z) : Prop := {
  ag_length : length (cache h) = SLOTS;
  ag_wf : wf (cache h);
  ag_model : ∀ i, model h !! i = view (cache h) i;
  ag_free : ∀ i s, cache h !! i = Some s → state s = Free → s = empty_slot;
  ag_tokens : ∀ i s, cache h !! i = Some s →
    if decide (state s = InFlight) then ∃ t, tokens h !! i = Some t ∧ token_slot t = i else tokens h !! i = None;
  ag_pins : ∀ i s, cache h !! i = Some s → 0 ≤ pins s ≤ b
}.

Lemma view_Some c i o : view c i = Some o ↔ ∃ s, c !! i = Some s ∧ state s ≠ Free ∧ o = occ_of s.
Proof.
  unfold view. destruct (c !! i) as [s|]; cbn; [|naive_solver]. case_decide; naive_solver.
Qed.

Lemma view_None c i s : c !! i = Some s → view c i = None ↔ state s = Free.
Proof. intros Hs. unfold view. rewrite Hs. cbn. case_decide; naive_solver. Qed.

Lemma view_insert c i s j : (i < length c)%nat →
  view (<[i := s]> c) j = if decide (j = i) then (if decide (state s = Free) then None else Some (occ_of s)) else view c j.
Proof.
  intros Hi. unfold view. case_decide as E; [subst; by rewrite list_lookup_insert_eq|by rewrite list_lookup_insert_ne].
Qed.

Lemma model_slot h b i o : agrees h b → model h !! i = Some o →
  ∃ s, cache h !! i = Some s ∧ state s ≠ Free ∧ o = occ_of s ∧ (i < SLOTS)%nat.
Proof.
  intros Ha Ho. rewrite (ag_model _ _ Ha) in Ho. apply view_Some in Ho as (s & Hs & Hf & ->). exists s.
  rewrite <- (ag_length _ _ Ha). by pose proof (lookup_lt_Some _ _ _ Hs).
Qed.

(** One slot changes, and the model and the tokens with it. *)
Lemma agrees_update h b i s s' toks : agrees h b → cache h !! i = Some s → state s' ≠ Free →
  wf (<[i := s']> (cache h)) → 0 ≤ pins s' ≤ b + 1 → (∀ j, j ≠ i → toks !! j = tokens h !! j) →
  (if decide (state s' = InFlight) then ∃ t, toks !! i = Some t ∧ token_slot t = i else toks !! i = None) →
  agrees (mkHarness (<[i := s']> (cache h)) (<[i := occ_of s']> (model h)) toks) (b + 1).
Proof.
  intros Ha Hs Hf Hwf Hp Hto Hti. pose proof (lookup_lt_Some _ _ _ Hs) as Hi. split; cbn [cache model tokens].
  - by rewrite length_insert, (ag_length _ _ Ha).
  - done.
  - intros j. rewrite view_insert by done. destruct (decide (j = i)) as [->|E].
    + by rewrite lookup_insert_eq, decide_False.
    + by rewrite lookup_insert_ne, (ag_model _ _ Ha).
  - intros j x Hx Hxf. destruct (decide (j = i)) as [->|E].
    + rewrite list_lookup_insert_eq in Hx by done. by simplify_eq.
    + rewrite list_lookup_insert_ne in Hx by done. by apply (ag_free _ _ Ha j).
  - intros j x Hx. destruct (decide (j = i)) as [->|E].
    + rewrite list_lookup_insert_eq in Hx by done. by injection Hx as <-.
    + rewrite list_lookup_insert_ne in Hx by done. rewrite Hto by done. by apply (ag_tokens _ _ Ha).
  - intros j x Hx. destruct (decide (j = i)) as [->|E].
    + rewrite list_lookup_insert_eq in Hx by done. by injection Hx as <-.
    + rewrite list_lookup_insert_ne in Hx by done. pose proof (ag_pins _ _ Ha j x Hx). lia.
Qed.

(** A slot is given back. *)
Lemma agrees_release h b i s : agrees h b → cache h !! i = Some s →
  agrees (mkHarness (<[i := empty_slot]> (cache h)) (delete i (model h)) (delete i (tokens h))) b.
Proof.
  intros Ha Hs. pose proof (lookup_lt_Some _ _ _ Hs) as Hi. split; cbn [cache model tokens].
  - by rewrite length_insert, (ag_length _ _ Ha).
  - by apply (wf_insert _ i s); [apply (ag_wf _ _ Ha)| | |].
  - intros j. rewrite view_insert by done. destruct (decide (j = i)) as [->|E]; [by rewrite lookup_delete_eq|by rewrite lookup_delete_ne, (ag_model _ _ Ha)].
  - intros j x Hx Hxf. destruct (decide (j = i)) as [->|E].
    + rewrite list_lookup_insert_eq in Hx by done. by simplify_eq.
    + rewrite list_lookup_insert_ne in Hx by done. by apply (ag_free _ _ Ha j).
  - intros j x Hx. destruct (decide (j = i)) as [->|E].
    + rewrite list_lookup_insert_eq in Hx by done. injection Hx as <-. by rewrite lookup_delete_eq.
    + rewrite list_lookup_insert_ne in Hx by done. rewrite lookup_delete_ne by done. by apply (ag_tokens _ _ Ha).
  - intros j x Hx. destruct (decide (j = i)) as [->|E].
    + rewrite list_lookup_insert_eq in Hx by done. injection Hx as <-. cbn. pose proof (ag_pins _ _ Ha i s Hs). lia.
    + rewrite list_lookup_insert_ne in Hx by done. by apply (ag_pins _ _ Ha j).
Qed.

Lemma agrees_weaken h b : agrees h b → agrees h (b + 1).
Proof. intros [H1 H2 H3 H4 H5 H6]. split; try done. intros i s Hs. specialize (H6 i s Hs). lia. Qed.

(** ** How full the table is *)

Lemma model_full h b : agrees h b → size (model h) = SLOTS ↔ ∀ i s, cache h !! i = Some s → state s ≠ Free.
Proof.
  intros Ha. assert (dom (model h) ⊆ set_seq 0 SLOTS) as Hsub.
  { intros i [o Ho]%elem_of_dom. destruct (model_slot _ _ _ _ Ha Ho) as (_ & _ & _ & _ & Hi). apply elem_of_set_seq. lia. }
  rewrite <- size_dom. split.
  - intros Hn i s Hs Hf. assert (dom (model h) ≡ set_seq 0 SLOTS) as He.
    { apply set_subseteq_size_equiv; [done|]. by rewrite size_set_seq, Hn. }
    assert (i ∈ dom (model h)) as Hin.
    { rewrite He. apply elem_of_set_seq. apply lookup_lt_Some in Hs. rewrite (ag_length _ _ Ha) in Hs. lia. }
    apply elem_of_dom in Hin as [o Ho]. rewrite (ag_model _ _ Ha), (proj2 (view_None _ _ _ Hs)) in Ho by done. done.
  - intros Hall. assert (dom (model h) ≡ set_seq 0 SLOTS) as ->; [|by rewrite size_set_seq].
    intros i. split; [by apply Hsub|]. intros Hi%elem_of_set_seq. apply elem_of_dom.
    destruct (lookup_lt_is_Some_2 (cache h) i) as [s Hs]; [rewrite (ag_length _ _ Ha); lia|].
    exists (occ_of s). rewrite (ag_model _ _ Ha). apply view_Some. exists s. split; [done|]. split; [by eapply Hall|done].
Qed.

Lemma model_size h b : agrees h b → (size (model h) ≤ SLOTS)%nat.
Proof.
  intros Ha. rewrite <- size_dom. transitivity (size (set_seq 0 SLOTS : gset nat)); [|by rewrite size_set_seq].
  apply subseteq_size. intros i [o Ho]%elem_of_dom. destruct (model_slot _ _ _ _ Ha Ho) as (_ & _ & _ & _ & Hi).
  apply elem_of_set_seq. lia.
Qed.

Lemma no_free_slot h b : agrees h b → position is_free (cache h) = None ↔ size (model h) = SLOTS.
Proof.
  intros Ha. rewrite (model_full _ _ Ha), position_None. unfold is_free.
  split; intros H i s Hs; specialize (H i s Hs); [by bool_cases|by rewrite bool_decide_eq_false_2].
Qed.

(** ** [check] *)

Lemma check_slots_passes h b : agrees h b → ∀ slots seen, NoDup slots → Forall (λ i, (i < SLOTS)%nat) slots →
  (∀ k j, seen !! k = Some j → (j ∉ slots) ∧ key_of (cache h) j = Some k) → check_slots (cache h) (model h) slots seen = Ret tt.
Proof.
  intros Ha. induction slots as [|i slots IH]; intros seen Hnd Hall Hseen; [done|].
  apply NoDup_cons in Hnd as [Hi Hnd]. apply Forall_cons in Hall as [Hlt Hall]. cbn [check_slots].
  destruct (lookup_lt_is_Some_2 (cache h) i) as [s Hs]; [by rewrite (ag_length _ _ Ha)|].
  unfold key_of, state_of, pins_of. rewrite Hs. cbn [fmap option_fmap option_map]. destruct (decide (state s = Free)) as [Hf|Hf].
  - rewrite bool_decide_eq_false_2 by tauto. rewrite (ag_model _ _ Ha), (proj2 (view_None _ _ _ Hs)) by done.
    rewrite (proj1 (wf_slot_ok _ _ _ (ag_wf _ _ Ha) Hs) Hf). cbn. apply IH; [done..|].
    intros k j Hj. destruct (Hseen k j Hj) as [Hn Hk]. split; [|done]. by intros ?; apply Hn; right.
  - rewrite (bool_decide_eq_true_2 (state s ≠ Free)) by done.
    assert (seen !! key s = None) as Hfresh.
    { destruct (seen !! key s) as [j|] eqn:Ej; [|done]. destruct (Hseen _ _ Ej) as [Hn Hk]. exfalso. apply Hn.
      unfold key_of in Hk. destruct (cache h !! j) as [sj|] eqn:Hj; [|done]. case_bool_decide as Hfj; [|done]. injection Hk as Hk.
      rewrite (wf_unique _ (ag_wf _ _ Ha) j i sj s Hj Hs Hfj Hf Hk). by left. }
    rewrite bool_decide_eq_true_2 by done. cbn [mbind outcome_bind rust_assert].
    assert (model h !! i = Some (occ_of s)) as ->. { rewrite (ag_model _ _ Ha). apply view_Some. eauto. }
    cbn [expect mbind outcome_bind occ_of o_key o_state o_pins]. rewrite !bool_decide_eq_true_2 by done. cbn [rust_assert mbind outcome_bind].
    apply IH; [done..|]. intros k j Hj. apply lookup_insert_Some in Hj as [[<- <-]|[_ Hj]].
    + split; [done|]. unfold key_of. by rewrite Hs, bool_decide_eq_true_2.
    + destruct (Hseen k j Hj) as [Hn Hk]. split; [|done]. by intros ?; apply Hn; right.
Qed.

Lemma dirty_from_sorted c : ∀ i, StronglySorted lt (dirty_from i c).
Proof.
  induction c as [|s c IH]; intros i; cbn [dirty_from]; [constructor|]. case_bool_decide; [|apply IH]. constructor; [apply IH|].
  apply Forall_forall. intros j (n & s' & -> & _)%dirty_from_spec. lia.
Qed.

Section Order.
Context (h : Harness) (b : Z) (Ha : agrees h b) (rows : list (nat * Occupant)) (Hrows : rows ≡ₚ map_to_list (model h)).

Lemma row_slot i o : (i, o) ∈ rows ↔ ∃ s, cache h !! i = Some s ∧ state s ≠ Free ∧ o = occ_of s.
Proof. by rewrite Hrows, elem_of_map_to_list, (ag_model _ _ Ha), view_Some. Qed.

Lemma rows_unique : NoDup rows.*1.
Proof. rewrite Hrows. apply NoDup_fst_map_to_list. Qed.

Lemma check_victim_passes : check_victim (cache h) (model h) rows = Ret tt.
Proof.
  unfold check_victim. pose proof (model_size _ _ Ha) as Hsz. destruct (victim (cache h)) as [v|] eqn:Ev.
  - destruct (victim_reusable _ _ (ag_wf _ _ Ha) Ev) as (s & Hs & Hst & Hp).
    assert (∃ u, match model h !! v with
      | None => Ret tt
      | Some occupant => _ ← rust_assert (bool_decide (o_state occupant = Clean)); rust_assert (o_pins occupant =? 0)
      end = Ret u) as [u ->].
    { exists tt. destruct (model h !! v) as [o|] eqn:Eo; [|done]. destruct (model_slot _ _ _ _ Ha Eo) as (s' & Hs' & Hf & -> & _).
      assert (s' = s) as -> by congruence. cbn [occ_of o_state o_pins]. rewrite bool_decide_eq_true_2 by tauto. cbn. by rewrite (proj2 (Z.eqb_eq (pins s) 0)). }
    cbn [mbind outcome_bind]. destruct (Nat.ltb_spec (size (model h)) SLOTS) as [Hlt|]; [|done].
    unfold victim in Ev. destruct (position is_free (cache h)) as [k|] eqn:Ek.
    + injection Ev as ->. apply position_Some in Ek as (s' & Hs' & Hf & _). assert (s' = s) as -> by congruence. unfold is_free in Hf. bool_cases.
      rewrite (ag_model _ _ Ha), (proj2 (view_None _ _ _ Hs)) by done. done.
    + apply (no_free_slot _ _ Ha) in Ek. lia.
  - assert (position is_free (cache h) = None) as Ek by (unfold victim in Ev; by destruct (position is_free (cache h))).
    rewrite bool_decide_eq_true_2 by by apply (no_free_slot _ _ Ha). cbn [andb].
    assert (forallb (λ x, negb (bool_decide (o_state (snd x) = Clean)) || (0 <? o_pins (snd x))) rows = true) as ->; [|done].
    apply forallb_forall. intros [i o] (s & Hs & Hf & ->)%list_elem_of_In%row_slot. cbn [snd occ_of o_state o_pins].
    pose proof (victim_none _ _ _ Ev Hs) as Hr. pose proof (ag_pins _ _ Ha _ _ Hs). apply orb_true_iff.
    case_bool_decide as Hc; [right|by left]. apply Z.ltb_lt. destruct (decide (pins s = 0)); [|lia]. exfalso. apply Hr. tauto.
Qed.

Lemma filtered_rows (P : Occupant → Prop) `{∀ x : nat * Occupant, Decision (P (snd x))} i :
  i ∈ (filter (λ x, P (snd x)) rows).*1 ↔ ∃ s, cache h !! i = Some s ∧ state s ≠ Free ∧ P (occ_of s).
Proof.
  rewrite list_elem_of_fmap. split.
  - intros ([j o] & -> & [HP (s & Hs & Hf & ->)%row_slot]%list_elem_of_filter). by exists s.
  - intros (s & Hs & Hf & HP). exists (i, occ_of s). split; [done|]. apply list_elem_of_filter. split; [done|]. apply row_slot. by exists s.
Qed.

Lemma check_dirty_passes : dirty_slots (cache h) = merge_sort (≤)%nat (filter (λ x, o_state (snd x) = Dirty) rows).*1.
Proof.
  pose proof (dirty_from_sorted (cache h) 0) as Hs. apply (Sorted_unique (≤)%nat).
  - apply StronglySorted_Sorted. unfold dirty_slots. induction Hs as [|x l Hl IH Hx]; constructor; [done|].
    eapply Forall_impl; [exact Hx|]. intros y Hy. lia.
  - apply Sorted_merge_sort. intros x y. lia.
  - rewrite merge_sort_Permutation. apply NoDup_Permutation.
    + unfold dirty_slots. induction Hs as [|x l Hl IH Hx]; constructor; [|done]. intros Hin. rewrite Forall_forall in Hx. specialize (Hx x Hin). lia.
    + apply (sublist_NoDup _ rows.*1); [apply rows_unique|]. apply fmap_sublist, sublist_filter.
    + intros i. pose proof (filtered_rows (λ o, o_state o = Dirty) i) as E. cbn beta in E. rewrite dirty_slots_spec, E. unfold state_of. rewrite fmap_Some.
      split; [intros (s & Hi & Es); exists s; by rewrite <- Es|intros (s & Hi & Hf & Es); by exists s].
Qed.

Lemma check_passes : check (cache h) (model h) rows = Ret tt.
Proof.
  unfold check. rewrite (check_slots_passes _ _ Ha) by (apply NoDup_seq || (apply Forall_forall; intros i ?%elem_of_seq; lia) || done).
  cbn [mbind outcome_bind]. rewrite check_victim_passes. cbn [mbind outcome_bind]. by rewrite <- check_dirty_passes, bool_decide_eq_true_2.
Qed.

Lemma pick_from slots which : ∃ r, pick slots which = Ret r ∧ ∀ i, r = Some i → i ∈ slots.
Proof.
  unfold pick. case_bool_decide as E; [exists None; done|]. assert (0 < length slots)%nat as Hl by (destruct slots; [done|cbn; lia]).
  destruct (index_in_range slots (which mod Z.of_nat (length slots))) as (i & -> & Hi); [apply Z.mod_pos_bound; lia|].
  exists (Some i). split; [done|]. intros j [= <-]. by eapply list_elem_of_lookup_2.
Qed.
End Order.

(** ** One operation *)

Section Step.
Context (h : Harness) (b : Z) (Ha : agrees h b) (Hb : b + 1 < 2 ^ 32) (rows : list (nat * Occupant)) (Hrows : rows ≡ₚ map_to_list (model h)).

Definition goes_on (m : outcome (option Harness)) : Prop :=
  ∃ r, m = Ret r ∧ match r with None => True | Some h' => agrees h' (b + 1) end.

Lemma on_slot slots which (k : nat → outcome Harness) : (∀ i, i ∈ slots → ∃ h', k i = Ret h' ∧ agrees h' (b + 1)) →
  goes_on (o ← pick slots which; match o with None => Ret None | Some slot => Some <$> k slot end).
Proof.
  intros Hk. destruct (pick_from slots which) as (r & -> & Hr). cbn [mbind outcome_bind]. destruct r as [i|]; [|by exists None].
  destruct (Hk i) as (h' & -> & Hh); [by apply Hr|]. by exists (Some h').
Qed.

Lemma occupied_slot i : i ∈ rows.*1 → ∃ s, cache h !! i = Some s ∧ state s ≠ Free.
Proof. intros ([j o] & -> & (s & Hs & Hf & _)%(row_slot h b Ha rows Hrows))%list_elem_of_fmap. by exists s. Qed.

Lemma model_of i s : cache h !! i = Some s → state s ≠ Free → model h !! i = Some (occ_of s).
Proof. intros Hs Hf. rewrite (ag_model _ _ Ha). apply view_Some. eauto. Qed.

Lemma no_token i s : cache h !! i = Some s → state s ≠ InFlight → tokens h !! i = None.
Proof. intros Hs Hf. pose proof (ag_tokens _ _ Ha i s Hs) as Ht. by rewrite decide_False in Ht. Qed.

Lemma slot_pins i s : cache h !! i = Some s → 0 ≤ pins s ≤ b.
Proof. apply (ag_pins _ _ Ha). Qed.

Lemma already_resident k : existsb (λ x, bool_decide (o_key (snd x) = k)) rows = match lookup (cache h) k with Some _ => true | None => false end.
Proof.
  apply eq_true_iff_eq. rewrite existsb_exists. split.
  - intros ([i o] & Hin & E). apply list_elem_of_In, (row_slot h b Ha rows Hrows) in Hin as (s & Hs & Hf & ->). cbn in E. bool_cases.
    by rewrite (proj2 (lookup_Some _ _ i (ag_wf _ _ Ha))) by (exists s; done).
  - destruct (lookup (cache h) k) as [i|] eqn:El; [|done]. intros _. apply (lookup_Some _ _ _ (ag_wf _ _ Ha)) in El as (s & Hs & Hf & <-).
    exists (i, occ_of s). split; [|by apply bool_decide_eq_true_2]. apply list_elem_of_In, (row_slot h b Ha rows Hrows). by exists s.
Qed.

Lemma lookup_agrees k : lookup (cache h) k = fst <$> find_first (λ x, bool_decide (o_key (snd x) = k)) rows.
Proof.
  destruct (find_first _ rows) as [[i o]|] eqn:E.
  - apply find_first_Some in E as [Hin E]. apply (row_slot h b Ha rows Hrows) in Hin as (s & Hs & Hf & ->). cbn in E |- *. bool_cases.
    apply (lookup_Some _ _ _ (ag_wf _ _ Ha)). by exists s.
  - cbn. apply lookup_None. intros i s Hs Hf Hk. apply (find_first_None _ _) with (x := (i, occ_of s)) in E.
    + cbn in E. bool_cases. done.
    + apply (row_slot h b Ha rows Hrows). by exists s.
Qed.

Lemma insert_agrees d k : goes_on (apply_op rows h (OpInsert d k)).
Proof.
  cbn [apply_op]. rewrite already_resident, insert_spec. destruct (lookup (cache h) (mkKey d k)) as [i|] eqn:El.
  - apply (lookup_Some _ _ _ (ag_wf _ _ Ha)) in El as (s & Hs & Hf & Hk). cbn [mbind outcome_bind]. rewrite orb_true_r. cbn [rust_assert mbind outcome_bind].
    rewrite (model_of i s) by done. rewrite bool_decide_eq_true_2 by (cbn; by rewrite Hk). eexists. split; [reflexivity|].
    destruct h. by apply agrees_weaken.
  - destruct (position is_free (cache h)) as [i|] eqn:Ep; cbn [mbind outcome_bind token_slot].
    + assert (size (model h) ≠ SLOTS) as Hsz by (intros E; apply (no_free_slot _ _ Ha) in E; congruence).
      pose proof Ep as (s & Hs & Hfs & _)%position_Some. unfold is_free in Hfs. bool_cases.
      rewrite (bool_decide_eq_true_2 (tokens h !! i = None)) by by apply (no_token i s Hs); congruence.
      rewrite (bool_decide_eq_false_2 (size (model h) = SLOTS)) by done.
      rewrite (bool_decide_eq_true_2 (model h !! i = None)) by by rewrite (ag_model _ _ Ha); apply (view_None _ _ _ Hs).
      eexists. split; [reflexivity|]. change (mkOcc (mkKey d k) InFlight 0 false) with (occ_of (mkSlot (mkKey d k) InFlight 0 false)).
      apply (agrees_update h b i s); try done.
      * apply (insert_wf (cache h) (mkKey d k) (Ok (mkToken i Free))); [apply (ag_wf _ _ Ha)|]. by rewrite insert_spec, El, Ep.
      * pose proof (slot_pins i s Hs). cbn. lia.
      * intros j Hj. by rewrite lookup_insert_ne.
      * cbn. rewrite decide_True by done. exists (mkToken i Free). by rewrite lookup_insert_eq.
    + apply (no_free_slot _ _ Ha) in Ep. rewrite Ep. eexists. split; [reflexivity|]. destruct h. by apply agrees_weaken.
Qed.

Lemma picked P `{∀ x : nat * Occupant, Decision (P (snd x))} i : i ∈ (filter (λ x, P (snd x)) rows).*1 → ∃ s, cache h !! i = Some s ∧ state s ≠ Free ∧ P (occ_of s).
Proof. intros Hi. by apply (filtered_rows h b Ha rows Hrows P). Qed.

(** A slot that is neither free nor changes owner. *)
Lemma touched i s s' toks c : cache h !! i = Some s → state s' ≠ Free → 0 ≤ pins s' ≤ b + 1 → (∀ j, j ≠ i → toks !! j = tokens h !! j) →
  (if decide (state s' = InFlight) then ∃ t, toks !! i = Some t ∧ token_slot t = i else toks !! i = None) →
  (∃ o, exec_call (cache h) o = Ret (<[i := s']> (cache h))) → c = <[i := s']> (cache h) →
  agrees (mkHarness c (<[i := occ_of s']> (model h)) toks) (b + 1).
Proof.
  intros Hs Hf Hp Hto Hti [o Ho] ->. apply (agrees_update h b i s); try done. by apply (exec_call_wf _ o _ (ag_wf _ _ Ha)).
Qed.

Lemma kept_token i s s' : cache h !! i = Some s → state s' = state s ∨ (state s ≠ InFlight ∧ state s' ≠ InFlight) →
  if decide (state s' = InFlight) then ∃ t, tokens h !! i = Some t ∧ token_slot t = i else tokens h !! i = None.
Proof.
  intros Hs Hst. pose proof (ag_tokens _ _ Ha i s Hs) as Ht. destruct Hst as [->|[Hn Hn']]; [done|].
  rewrite decide_False in Ht by done. by rewrite decide_False.
Qed.

Lemma begin_agrees which : goes_on (apply_op rows h (OpBeginIo which)).
Proof.
  apply on_slot. intros i (s & Hs & Hf & Hst)%(picked (λ o, o_state o ≠ InFlight)). cbn in Hst.
  assert (resident_idle s = true) as Hr by (unfold resident_idle; by destruct (state s)).
  assert (begin_io (cache h) i = Ret (mkToken i (state s), <[i := with_state s InFlight]> (cache h))) as E by (apply begin_io_ret; by exists s).
  rewrite (model_of i s) by done. cbn [expect mbind outcome_bind]. rewrite E. cbn [mbind outcome_bind prior token_slot].
  rewrite !bool_decide_eq_true_2 by (done || by apply (no_token i s)). cbn [rust_assert mbind outcome_bind]. eexists. split; [reflexivity|].
  apply (touched i s (with_state s InFlight)); try done.
  - pose proof (slot_pins i s Hs). cbn. lia.
  - intros j Hj. by rewrite lookup_insert_ne.
  - cbn. rewrite decide_True by done. exists (mkToken i (state s)). by rewrite lookup_insert_eq.
  - exists (CBeginIo i). cbn. by rewrite E.
Qed.

Lemma end_agrees which ok : goes_on (apply_op rows h (OpEndIo which ok)).
Proof.
  apply on_slot. intros i (s & Hs & Hf & Hst)%(picked (λ o, o_state o = InFlight)). cbn in Hst.
  pose proof (ag_tokens _ _ Ha i s Hs) as Ht. rewrite decide_True in Ht by done. destruct Ht as (t & Ht & Hti).
  rewrite (model_of i s) by done. cbn [expect mbind outcome_bind]. rewrite Ht. cbn [expect mbind outcome_bind].
  set (st := if ok then Clean else Dirty). assert (st ≠ Free) as Hst' by by destruct ok.
  set (s' := mkSlot (key s) (if dirtied_during_io s then Dirty else st) (pins s) false).
  assert (end_io (cache h) t st = Ret (<[i := s']> (cache h))) as E.
  { rewrite <- Hti at 1. apply end_io_ret. split; [done|]. exists s. by rewrite Hti. }
  rewrite E. cbn [mbind outcome_bind]. eexists. split; [reflexivity|]. apply (touched i s s'); try done.
  - cbn. by destruct (dirtied_during_io s).
  - pose proof (slot_pins i s Hs). cbn. lia.
  - intros j Hj. by rewrite lookup_delete_ne.
  - rewrite decide_False; [by rewrite lookup_delete_eq|]. cbn. unfold st. by destruct (dirtied_during_io s), ok.
  - by exists (CEndIo t st).
Qed.

Lemma dirty_agrees which : goes_on (apply_op rows h (OpMarkDirty which)).
Proof.
  apply on_slot. intros i (s & Hs & Hf)%occupied_slot.
  set (s' := if decide (state s = InFlight) then with_dirtied s true else with_state s Dirty).
  assert (mark_dirty (cache h) i = Ret (<[i := s']> (cache h))) as E by (apply mark_dirty_ret; by exists s).
  rewrite E. cbn [mbind outcome_bind]. rewrite (model_of i s) by done. cbn [expect mbind outcome_bind]. eexists. split; [reflexivity|].
  assert ((if bool_decide (o_state (occ_of s) = InFlight) then with_o_dirtied (occ_of s) true else with_o_state (occ_of s) Dirty) = occ_of s') as ->.
  { unfold s'. cbn. case_bool_decide; by case_decide. }
  apply (touched i s s'); try done.
  - unfold s'. by case_decide.
  - pose proof (slot_pins i s Hs). unfold s'. case_decide; cbn; lia.
  - apply (kept_token i s); [done|]. unfold s'. case_decide; [by left|by right].
  - by exists (CMarkDirty i).
Qed.

Lemma clean_agrees which : goes_on (apply_op rows h (OpMarkClean which)).
Proof.
  apply on_slot. intros i (s & Hs & Hf & Hst)%(picked (λ o, o_state o ≠ InFlight)). cbn in Hst.
  assert (mark_clean (cache h) i = Ret (<[i := with_state s Clean]> (cache h))) as E.
  { apply update_ret. exists s, (with_state s Clean). unfold resident_idle. by destruct (state s). }
  rewrite E. cbn [mbind outcome_bind]. rewrite (model_of i s) by done. cbn [expect mbind outcome_bind]. eexists. split; [reflexivity|].
  apply (touched i s (with_state s Clean)); try done.
  - pose proof (slot_pins i s Hs). cbn. lia.
  - apply (kept_token i s); [done|by right].
  - by exists (CMarkClean i).
Qed.

Lemma pin_agrees which : goes_on (apply_op rows h (OpPin which)).
Proof.
  apply on_slot. intros i (s & Hs & Hf)%occupied_slot. pose proof (slot_pins i s Hs) as Hp.
  assert (pin (cache h) i = Ret (<[i := with_pins s (pins s + 1)]> (cache h))) as E by (apply pin_ret; exists s; split; [done|]; split; [done|]; split; [lia|done]).
  rewrite E. cbn [mbind outcome_bind]. rewrite (model_of i s) by done. cbn [expect mbind outcome_bind occ_of o_pins]. rewrite add_chk_ok by lia.
  eexists. split; [reflexivity|]. apply (touched i s (with_pins s (pins s + 1))); try done.
  - cbn. lia.
  - apply (kept_token i s); [done|by left].
  - by exists (CPin i).
Qed.

Lemma unpin_agrees which : goes_on (apply_op rows h (OpUnpin which)).
Proof.
  apply on_slot. intros i (s & Hs & Hf & Hpos)%(picked (λ o, 0 < o_pins o)). cbn in Hpos. pose proof (slot_pins i s Hs) as Hp.
  assert (unpin (cache h) i = Ret (<[i := with_pins s (pins s - 1)]> (cache h))) as E by (apply unpin_ret; by exists s).
  rewrite E. cbn [mbind outcome_bind]. rewrite (model_of i s) by done. cbn [expect mbind outcome_bind occ_of o_pins]. rewrite sub_chk_ok by lia.
  eexists. split; [reflexivity|]. apply (touched i s (with_pins s (pins s - 1))); try done.
  - cbn. lia.
  - apply (kept_token i s); [done|by left].
  - by exists (CUnpin i).
Qed.

Lemma evict_agrees which : goes_on (apply_op rows h (OpEvict which)).
Proof.
  apply on_slot. intros i (s & Hs & Hf)%occupied_slot. rewrite (model_of i s) by done. cbn [expect mbind outcome_bind].
  assert (agrees (mkHarness (cache h) (model h) (tokens h)) b) as Hsame by (clear -Ha; by destruct h).
  pose proof (evict_spec _ _ _ Hs) as E. unfold expected_evict. cbn [occ_of o_pins o_state]. destruct (negb (pins s =? 0)).
  - rewrite E. cbn. eexists. split; [reflexivity|]. by apply agrees_weaken.
  - destruct (state s) eqn:Es; [done| | |]; rewrite E; cbn; (eexists; split; [reflexivity|]); apply agrees_weaken; try done.
    rewrite <- (delete_id (tokens h) i) by (apply (no_token i s Hs); by rewrite Es). by apply (agrees_release h b i s).
Qed.

Lemma apply_op_agrees op : goes_on (apply_op rows h op).
Proof.
  destruct op; [apply insert_agrees| |apply end_agrees|apply dirty_agrees|apply clean_agrees|apply begin_agrees|apply pin_agrees|apply unpin_agrees|apply evict_agrees].
  cbn [apply_op]. rewrite lookup_agrees, bool_decide_eq_true_2 by done. exists (Some h). split; [done|]. by apply agrees_weaken.
Qed.
End Step.

(** ** The run, the drain and the refill *)

Section Run.
Context (order : nat → Model → list (nat * Occupant)) (Horder : ∀ time m, order time m ≡ₚ map_to_list m).

Lemma run_ops_agrees ops : ∀ time h b, agrees h b → b + Z.of_nat (length ops) < 2 ^ 32 →
  ∃ h' b', run_ops order time h ops = Ret h' ∧ agrees h' b'.
Proof.
  induction ops as [|op ops IH]; intros time h b Ha Hb; [by exists h, b|]. cbn [length] in Hb. cbn [run_ops].
  destruct (apply_op_agrees h b Ha ltac:(lia) (order time (model h)) (Horder _ _) op) as ([h'|] & -> & Hh); cbn [mbind outcome_bind].
  - rewrite (check_passes h' (b + 1)) by done. cbn [mbind outcome_bind]. apply (IH _ _ (b + 1)); [done|lia].
  - apply (IH _ _ b); [done|lia].
Qed.

Lemma unpin_all c i s n : c !! i = Some s → Z.of_nat n ≤ pins s → unpin_times n c i = Ret (<[i := with_pins s (pins s - Z.of_nat n)]> c).
Proof.
  revert c s. induction n as [|n IH]; intros c s Hs Hp.
  - cbn. rewrite Z.sub_0_r. destruct s. cbn. by rewrite list_insert_id.
  - cbn [unpin_times]. pose proof (lookup_lt_Some _ _ _ Hs). rewrite (proj2 (unpin_ret c i (<[i := with_pins s (pins s - 1)]> c))) by (exists s; split; [done|split; [lia|done]]).
    cbn [mbind outcome_bind]. rewrite (IH _ (with_pins s (pins s - 1))); [|by rewrite list_lookup_insert_eq|cbn; lia].
    rewrite list_insert_insert_eq. cbn. do 2 f_equal. unfold with_pins. cbn. f_equal. lia.
Qed.

(** An I/O still outstanding is ended. *)
Lemma settle_slot c i s toks : c !! i = Some s → state s ≠ Free →
  (if decide (state s = InFlight) then ∃ t, toks !! i = Some t ∧ token_slot t = i else toks !! i = None) →
  ∃ s1, pins s1 = pins s ∧ resident_idle s1 = true ∧
    match (toks : gmap nat IoToken) !! i with Some token => end_io c token Clean | None => Ret c end = Ret (<[i := s1]> c).
Proof.
  intros Hs Hf Ht. destruct (decide (state s = InFlight)) as [Hst|Hst].
  - destruct Ht as (t & -> & Hti). set (s1 := mkSlot (key s) (if dirtied_during_io s then Dirty else Clean) (pins s) false).
    exists s1. split; [done|]. split; [unfold s1, resident_idle; cbn; by destruct (dirtied_during_io s)|].
    apply end_io_ret. split; [done|]. exists s. by rewrite Hti.
  - rewrite Ht. exists s. split; [done|]. split; [unfold resident_idle; by destruct (state s)|]. by rewrite list_insert_id.
Qed.

(** The drain of one slot: everything of it is given back. *)
Lemma drain_slot h b i s rows : agrees h b → cache h !! i = Some s → state s ≠ Free →
  drain ((i, occ_of s) :: rows) h = drain rows (mkHarness (<[i := empty_slot]> (cache h)) (delete i (model h)) (delete i (tokens h))).
Proof.
  intros Ha Hs Hf. pose proof (ag_pins _ _ Ha i s Hs) as Hp. pose proof (lookup_lt_Some _ _ _ Hs) as Hlt. cbn [drain occ_of o_pins].
  rewrite (unpin_all _ i s) by (done || lia). rewrite Z2Nat.id by lia. rewrite Z.sub_diag. cbn [mbind outcome_bind].
  destruct (settle_slot (<[i := with_pins s 0]> (cache h)) i (with_pins s 0) (tokens h)) as (s1 & Hp1 & Hr1 & ->);
    [by rewrite list_lookup_insert_eq|done|apply (ag_tokens _ _ Ha i s Hs)|]. rewrite list_insert_insert_eq. cbn [mbind outcome_bind]. unfold mark_clean.
  rewrite (proj2 (update_ret _ i _ (<[i := with_state s1 Clean]> (cache h)))).
  2:{ exists s1, (with_state s1 Clean). by rewrite list_lookup_insert_eq, list_insert_insert_eq, Hr1 by done. }
  cbn [mbind outcome_bind]. rewrite (evict_spec _ i (with_state s1 Clean)) by by rewrite list_lookup_insert_eq. cbn [pins with_state state]. rewrite Hp1.
  cbn. by rewrite list_insert_insert_eq.
Qed.

Lemma drain_all rows : ∀ h b, agrees h b → NoDup rows.*1 → (∀ i o, (i, o) ∈ rows ↔ model h !! i = Some o) →
  ∃ h', drain rows h = Ret h' ∧ agrees h' b ∧ model h' = ∅.
Proof.
  induction rows as [|[i o] rows IH]; intros h b Ha Hnd Hrows.
  - exists h. split; [done|]. split; [done|]. apply map_empty. intros i. destruct (model h !! i) as [o|] eqn:E; [|done].
    apply Hrows in E. by apply elem_of_nil in E.
  - cbn [fmap list_fmap fst] in Hnd. apply NoDup_cons in Hnd as [Hi Hnd]. pose proof (proj1 (Hrows i o) (list_elem_of_here _ _)) as Ho.
    destruct (model_slot _ _ _ _ Ha Ho) as (s & Hs & Hf & -> & _). rewrite (drain_slot h b) by done.
    apply (IH _ b); [by apply (agrees_release h b i s)|done|]. intros j o. cbn [model]. split.
    + intros Hj. assert (j ≠ i) as E by (intros ->; apply Hi, list_elem_of_fmap; by exists (i, o)). rewrite lookup_delete_ne by done.
      apply Hrows. by right.
    + intros [E Hj]%lookup_delete_Some. apply Hrows in Hj. apply elem_of_cons in Hj as [[= -> _]|Hj]; [done|done].
Qed.

Lemma drained_is_new h b : agrees h b → model h = ∅ → cache h = new SLOTS.
Proof.
  intros Ha Hm. apply list_eq_same_length with (n := SLOTS); [by unfold new; rewrite length_replicate|apply (ag_length _ _ Ha)|].
  intros i x y Hi Hx [-> _]%lookup_replicate_1. apply (ag_free _ _ Ha i x Hx). apply (view_None _ _ _ Hx). rewrite <- (ag_model _ _ Ha), Hm. apply lookup_empty.
Qed.

Lemma probe_is_new : probe = Ret (new SLOTS).
Proof. vm_compute. reflexivity. Qed.

Lemma new_agrees : agrees (mkHarness (new SLOTS) ∅ ∅) 0.
Proof.
  split; cbn [cache model tokens]; [done|apply cache_new_wf| | | |]; intros i; unfold new.
  - rewrite lookup_empty. unfold view. destruct (replicate SLOTS empty_slot !! i) as [s|] eqn:E; [|done]. by apply lookup_replicate_1 in E as [-> _].
  - by intros s [-> _]%lookup_replicate_1.
  - by intros s [-> _]%lookup_replicate_1.
  - by intros s [-> _]%lookup_replicate_1.
Qed.
End Run.

(** C32: The fuzz target of the buffer cache cannot fail. Whatever
    operations it is given, fewer than 2^32 of them, and whatever order its
    hash map lists the model in, no assertion of it fails: the table answers
    every call as the model says, and after each the two agree on every
    slot, on what may be evicted and on what has to be written back; and
    once drained the table is as it was when new. *)
Theorem fuzz_target_never_fails order ops : (∀ time m, order time m ≡ₚ map_to_list m) → Z.of_nat (length ops) < 2 ^ 32 →
  fuzz_target order ops = Ret tt.
Proof.
  intros Horder Hn. unfold fuzz_target. rewrite probe_is_new. cbn [mbind outcome_bind].
  destruct (run_ops_agrees order Horder ops 0 _ 0 new_agrees) as (h & b & -> & Ha); [lia|]. cbn [mbind outcome_bind].
  destruct (drain_all (order (length ops) (model h)) h b Ha) as (h' & -> & Ha' & Hm).
  - rewrite Horder. apply NoDup_fst_map_to_list.
  - intros i o. by rewrite Horder, elem_of_map_to_list.
  - cbn [mbind outcome_bind]. rewrite (drained_is_new h' b) by done. vm_compute. reflexivity.
Qed.

(** Two blocks: one pinned and dirtied while it is filled, the other evicted. *)
Lemma fuzz_target_never_fails_witness :
  fuzz_target (λ _ m, map_to_list m)
    [OpInsert 1 5; OpInsert 2 5; OpMarkDirty 0; OpPin 0; OpEndIo 0 true; OpEndIo 0 true; OpEvict 1; OpBeginIo 0; OpLookup 1 5] = Ret tt.
Proof. apply fuzz_target_never_fails; [done|vm_compute; reflexivity]. Defined.
