(* ===== verification/FuzzQueue.v ===== *)
(** The fuzz target of the virtqueue: [fuzz/fuzz_targets/virtio_queue.rs].

    The target drives a queue of [Virtio] with any operations, a used ring of
    any bytes among them, and asserts after each that the queue agrees with
    what it has noted.  [Panic] is an assertion that fails.  The hash map of
    the live chains is gone through in an order of its own, [order] at a time;
    the others only in conjunctions of assertions. *)
From Stdlib Require Import Strings.Byte.
From stdpp Require Import gmap.
From S2P Require Import Prelude Bits Virtio.
#[global] Open Scope Z_scope.

Definition SIZE : Z := 32.

Inductive Op :=
  | OpAlloc (n : Z) | OpFree (which : Z) | OpDescribe (which position addr len : Z) (writable : bool)
  | OpPublish (which : Z) | OpIngest (slot : Z) (bytes : list byte) | OpTakeUsed (slot : Z).

(** The queue under test; the live chains by head; the heads handed to the
    device; what each live descriptor was told. *)
Abbreviation Chains := (gmap Z (list Z)).
Record Harness := mkHarness
  { queue : SplitQueue; live : Chains; published : gset Z; described : gmap Z (Z * Z * bool) }.

(** The walk of a new chain; a turn adds a descriptor to it. *)
Fixpoint walk_new (fuel : nat) (q : SplitQueue) (idx : Z) (chain : list Z) : outcome (list Z) :=
  match fuel with
  | O => Panic
  | S fuel' =>
      next ← next_in_chain q idx;
      match next with
      | None => Ret chain
      | Some n =>
          _ ← rust_assert (Z.of_nat (length chain) <? SIZE);
          walk_new fuel' q n (chain ++ [n])
      end
  end.

(** Every descriptor described holds what it was told. *)
Fixpoint check_described (q : SplitQueue) (l : list (Z * (Z * Z * bool))) : outcome unit :=
  match l with
  | [] => Ret tt
  | (descriptor, (addr, len, writable)) :: l' =>
      bytes ← expect (descriptor_bytes q descriptor);
      _ ← rust_assert (from_le_bytes (take 8 bytes) =? addr);
      _ ← rust_assert (from_le_bytes (take 4 (drop 8 bytes)) =? len);
      let flags := from_le_bytes (take 2 (drop 12 bytes)) in
      _ ← rust_assert (Bool.eqb (negb (Z.land flags DESC_F_WRITE =? 0)) writable);
      check_described q l'
  end.

Definition remove_all (chain : list Z) (m : gmap Z (Z * Z * bool)) : gmap Z (Z * Z * bool) := foldr delete m chain.

Definition pick_head (heads : list Z) (which : Z) : outcome (option Z) :=
  if bool_decide (heads = []) then Ret None else Some <$> index heads (which mod Z.of_nat (length heads)).

(** One operation; [None] is a [continue]. *)
Definition apply_op (rows : list (Z * list Z)) (h : Harness) (op : Op) : outcome (option Harness) :=
  let q := queue h in
  let on (which : Z) (k : Z → outcome Harness) : outcome (option Harness) :=
    o ← pick_head rows.*1 which;
    match o with None => Ret None | Some head => Some <$> k head end in
  match op with
  | OpAlloc n =>
      let n := n mod (SIZE + 2) in
      let free_before := free_count q in
      '(r, q') ← alloc_chain q n;
      match r with
      | Some head =>
          _ ← rust_assert ((0 <? n) && (n <=? free_before));
          chain ← walk_new (S (Z.to_nat SIZE)) q' head [head];
          _ ← rust_assert (Z.of_nat (length chain) =? n);
          left_ ← sub_chk free_before n;
          _ ← rust_assert (free_count q' =? left_);
          let owned := rows ≫= snd in
          _ ← rust_assert (forallb (λ d, negb (bool_decide (d ∈ owned))) chain);
          _ ← rust_assert (bool_decide (live h !! head = None));
          Ret (Some (mkHarness q' (<[head := chain]> (live h)) (published h) (described h)))
      | None =>
          _ ← rust_assert ((n =? 0) || (free_before <? n));
          Ret (Some (mkHarness q' (live h) (published h) (described h)))
      end
  | OpFree which => on which (λ head,
      chain ← expect (live h !! head);
      let free_before := free_count q in
      q' ← free_chain q head;
      back ← add_chk 16 free_before (Z.of_nat (length chain) mod 2 ^ 16);
      _ ← rust_assert (free_count q' =? back);
      Ret (mkHarness q' (delete head (live h)) (published h ∖ {[head]}) (remove_all chain (described h))))
  | OpDescribe which position addr len writable => on which (λ head,
      chain ← expect (live h !! head);
      idx ← index chain (position mod Z.of_nat (length chain));
      q' ← describe q idx addr len writable;
      let told := <[idx := (addr, len, writable)]> (described h) in
      _ ← check_described q' (map_to_list told);
      Ret (mkHarness q' (live h) (published h) told))
  | OpPublish which => on which (λ head,
      let before := avail_index q in
      '(after, q') ← publish q head;
      _ ← rust_assert (after =? wrapping_add 16 before 1);
      _ ← rust_assert (after =? avail_index q');
      _ ← rust_assert (last_slot q' =? before mod SIZE);
      _ ← rust_assert (bool_decide (avail_slot_bytes q' (last_slot q') = Some (to_le_bytes 2 head)));
      Ret (mkHarness q' (live h) ({[head]} ∪ published h) (described h)))
  | OpIngest slot bytes =>
      '(accepted, q') ← ingest_used_slot q slot bytes;
      _ ← rust_assert (Bool.eqb accepted (slot <? SIZE));
      Ret (Some (mkHarness q' (live h) (published h) (described h)))
  | OpTakeUsed slot =>
      '(r, q') ← take_used q slot;
      match r with
      | Some (head, _) =>
          _ ← rust_assert (bool_decide (head ∈ published h));
          _ ← rust_assert (bool_decide (live h !! head ≠ None));
          Ret (Some (mkHarness q' (live h) (published h ∖ {[head]}) (described h)))
      | None => Ret (Some (mkHarness q' (live h) (published h) (described h)))
      end
  end.

(** What is asserted after every operation: each descriptor is free or in
    exactly one live chain. *)
Definition check (h : Harness) (rows : list (Z * list Z)) : outcome unit :=
  let owned := rows ≫= snd in
  _ ← rust_assert (Nat.eqb (length owned) (size (list_to_set owned : gset Z)));
  rust_assert (free_count (queue h) + Z.of_nat (length owned) =? SIZE).

Section Target.
Context (order : nat → Chains → list (Z * list Z)).

Fixpoint run_ops (time : nat) (h : Harness) (ops : list Op) : outcome Harness :=
  match ops with
  | [] => Ret h
  | op :: ops' =>
      r ← apply_op (order time (live h)) h op;
      match r with
      | None => run_ops (S time) h ops'
      | Some h' => _ ← check h' (order time (live h')); run_ops (S time) h' ops'
      end
  end.

Fixpoint free_all (q : SplitQueue) (heads : list Z) : outcome SplitQueue :=
  match heads with [] => Ret q | head :: heads' => q' ← free_chain q head; free_all q' heads' end.

(** [fuzz_target!]. *)
Definition fuzz_target (ops : list Op) : outcome unit :=
  q ← new SIZE;
  '(r, q) ← alloc_chain q 1;
  probe ← expect r;
  q ← free_chain q probe;
  _ ← rust_assert (free_count q =? SIZE);
  h ← run_ops 0 (mkHarness q ∅ ∅ ∅) ops;
  q ← free_all (queue h) (order (length ops) (live h)).*1;
  _ ← rust_assert (free_count q =? SIZE);
  '(r, _) ← alloc_chain q SIZE;
  rust_assert (bool_decide (r ≠ None)).
End Target.

(** * What holds of it

    No input makes the virtqueue's fuzz target fail. *)

(** A chain as the target notes it. *)
Definition chain_row (c : list nat) : Z * list Z := (Z.of_nat (hd 0%nat c), map Z.of_nat c).

(** A descriptor that holds what it was told. *)
Definition holds (x : Descriptor) (a l : Z) (w : bool) : Prop :=
  addr x = a ∧ dlen x = l ∧ fits 64 a ∧ fits 32 l ∧ fits 16 (flags x) ∧ negb (Z.land (flags x) DESC_F_WRITE =? 0) = w.

(** What the target keeps, for the free list and the chains of the queue. *)
Record agrees (h : Harness) (fl : list nat) (cs : list (list nat)) : Prop := {
  ag_queue : qinv (queue h) fl cs;
  ag_size : qsize (queue h) = SIZE;
  ag_live : map_to_list (live h) ≡ₚ chain_row <$> cs;
  ag_published : ∀ i, in_flight (queue h) !! i = Some true → Z.of_nat i ∈ published h;
  ag_described : ∀ d a l w, described h !! d = Some (a, l, w) →
    ∃ j x, d = Z.of_nat j ∧ j ∈ concat cs ∧ desc (queue h) !! j = Some x ∧ holds x a l w
}.

Lemma live_chain h fl cs head chain : agrees h fl cs → live h !! head = Some chain ↔ ∃ c, c ∈ cs ∧ chain_row c = (head, chain).
Proof.
  intros Ha. rewrite <- elem_of_map_to_list, (ag_live _ _ _ Ha), list_elem_of_fmap. naive_solver.
Qed.

Lemma held_nonempty q fl cs c : qinv q fl cs → c ∈ cs → ∃ i c', c = i :: c'.
Proof. intros Hq Hin. pose proof (qi_chains _ _ _ Hq) as Hc. rewrite Forall_forall in Hc. apply (chained_cons (desc q)), Hc, Hin. Qed.

Lemma walk_new_chained q c : ∀ i fuel acc, chained (desc q) (i :: c) → Z.of_nat (length acc) + Z.of_nat (length c) ≤ SIZE → (length c < fuel)%nat →
  walk_new fuel q (Z.of_nat i) acc = Ret (acc ++ map Z.of_nat c).
Proof.
  induction c as [|j c IH]; intros i fuel acc (t & x & Ht & Hx & Hn & Ho) Hl Hf; (destruct fuel as [|fuel]; [cbn in Hf; lia|]); cbn [walk_new]; unfold next_in_chain.
  - injection Ht as <-. rewrite (index_nat _ _ x) by done. cbn. rewrite Hn. cbn. by rewrite app_nil_r.
  - destruct Ho as [(y & Hy & Hny & Hj) Ho]. rewrite (index_nat _ _ y) by done. cbn [mbind outcome_bind]. rewrite Hny, Hj. cbn [length] in Hl, Hf.
    rewrite (proj2 (Z.ltb_lt _ _)) by lia. cbn [rust_assert mbind outcome_bind]. rewrite IH.
    + cbn [map]. by rewrite <- app_assoc.
    + exists t, x. by rewrite last_cons_cons in Ht.
    + rewrite length_app. cbn. lia.
    + lia.
Qed.

Lemma told_bytes x a l w : holds x a l w → from_le_bytes (take 8 (to_bytes x)) = a ∧ from_le_bytes (take 4 (drop 8 (to_bytes x))) = l ∧
  from_le_bytes (take 2 (drop 12 (to_bytes x))) = flags x.
Proof.
  intros (<- & <- & H64 & H32 & H16 & _). unfold to_bytes.
  rewrite (take_app_length' (to_le_bytes 8 _)), (drop_app_length' (to_le_bytes 8 _)) by by rewrite length_to_le_bytes.
  rewrite (take_app_length' (to_le_bytes 4 _)) by by rewrite length_to_le_bytes.
  rewrite app_assoc. rewrite (drop_app_length' (to_le_bytes 8 _ ++ to_le_bytes 4 _)) by by rewrite length_app, !length_to_le_bytes.
  rewrite (take_app_length' (to_le_bytes 2 _)) by by rewrite length_to_le_bytes.
  rewrite !from_to_le_bytes by done. done.
Qed.

Lemma check_described_passes q l : (∀ d a n w, (d, (a, n, w)) ∈ l → ∃ j x, d = Z.of_nat j ∧ desc q !! j = Some x ∧ holds x a n w) →
  check_described q l = Ret tt.
Proof.
  induction l as [|[d [[a n] w]] l IH]; intros Hl; [done|]. cbn [check_described].
  destruct (Hl d a n w) as (j & x & -> & Hx & Hh); [by left|]. unfold descriptor_bytes. rewrite Nat2Z.id, Hx. cbn [fmap option_fmap option_map expect mbind outcome_bind].
  destruct (told_bytes x a n w Hh) as (-> & -> & ->). rewrite !Z.eqb_refl. cbn [rust_assert mbind outcome_bind].
  destruct Hh as (_ & _ & _ & _ & _ & ->). rewrite Bool.eqb_reflx. cbn [rust_assert mbind outcome_bind]. apply IH. intros d' a' n' w' Hin. apply Hl. by right.
Qed.

(** ** The pieces of one operation *)

Section Step.
Context (h : Harness) (fl : list nat) (cs : list (list nat)) (Ha : agrees h fl cs) (rows : list (Z * list Z)) (Hrows : rows ≡ₚ map_to_list (live h)).

Lemma rows_owned : rows ≫= snd ≡ₚ Z.of_nat <$> concat cs.
Proof.
  rewrite Hrows, (ag_live _ _ _ Ha). clear. induction cs as [|c l IH]; [done|]. cbn. rewrite fmap_app. by rewrite IH.
Qed.

Lemma owned_elem d : d ∈ rows ≫= snd ↔ ∃ j, d = Z.of_nat j ∧ j ∈ concat cs.
Proof. rewrite rows_owned, list_elem_of_fmap. naive_solver. Qed.

Definition goes_on (m : outcome (option Harness)) : Prop :=
  ∃ r, m = Ret r ∧ match r with None => True | Some h' => ∃ fl' cs', agrees h' fl' cs' end.

Lemma on_head which (k : Z → outcome Harness) : (∀ i c, i :: c ∈ cs → ∃ h' fl' cs', k (Z.of_nat i) = Ret h' ∧ agrees h' fl' cs') →
  goes_on (o ← pick_head rows.*1 which; match o with None => Ret None | Some head => Some <$> k head end).
Proof.
  intros Hk. unfold pick_head. case_bool_decide as E; [by exists None|]. assert (0 < length rows.*1)%nat as Hl by (destruct rows.*1; [done|cbn; lia]).
  destruct (index_in_range rows.*1 (which mod Z.of_nat (length rows.*1))) as (head & -> & Hi); [apply Z.mod_pos_bound; lia|].
  cbn [fmap outcome_fmap mbind outcome_bind]. apply list_elem_of_lookup_2 in Hi. rewrite Hrows, (ag_live _ _ _ Ha) in Hi.
  apply list_elem_of_fmap in Hi as (r & -> & Hr). apply list_elem_of_fmap in Hr as (c & -> & Hc).
  destruct (held_nonempty _ _ _ _ (ag_queue _ _ _ Ha) Hc) as (i & c' & ->). cbn [chain_row fst hd].
  destruct (Hk i c' Hc) as (h' & fl' & cs' & -> & Ha'). exists (Some h'). split; [done|]. by exists fl', cs'.
Qed.

Lemma live_of i c : i :: c ∈ cs → live h !! Z.of_nat i = Some (map Z.of_nat (i :: c)).
Proof. intros Hc. apply (live_chain h fl cs _ _ Ha). by exists (i :: c). Qed.

Lemma chain_short c : c ∈ cs → (length c ≤ 32)%nat.
Proof. intros Hc. pose proof (qinv_chain_length _ _ _ _ (ag_queue _ _ _ Ha) Hc) as H. rewrite (ag_size _ _ _ Ha) in H. exact H. Qed.

(** The queue changes, the chains do not. *)
Lemma same_chains q' pub : qinv q' fl cs → qsize q' = SIZE → desc q' = desc (queue h) →
  (∀ i, in_flight q' !! i = Some true → Z.of_nat i ∈ pub) → agrees (mkHarness q' (live h) pub (described h)) fl cs.
Proof.
  intros Hq Hs Hd Hp. split; cbn [queue live published described]; [done|done|apply (ag_live _ _ _ Ha)|done|].
  rewrite Hd. apply (ag_described _ _ _ Ha).
Qed.

Lemma alloc_agrees n : goes_on (apply_op rows h (OpAlloc n)).
Proof.
  pose proof (ag_queue _ _ _ Ha) as Hq. pose proof (ag_size _ _ _ Ha) as Hs. cbn [apply_op]. unfold free_count. set (m := n mod (SIZE + 2)).
  assert (0 ≤ m < 34) as Hm by by apply Z.mod_pos_bound. destruct (decide (0 < m ≤ free (queue h))) as [Hin|Hout].
  - destruct (alloc_chain_ok _ _ _ _ Hq Hin) as (i & c & rest & q' & Hfl & Hlen & -> & Hq' & _ & _ & _ & Hfly & Hs' & Hother). cbn [mbind outcome_bind].
    rewrite (proj2 (Z.ltb_lt 0 m)), (proj2 (Z.leb_le m _)) by lia. cbn [andb rust_assert mbind outcome_bind].
    pose proof (qinv_chain_length _ _ _ (i :: c) Hq' (list_elem_of_here _ _)) as Hc. rewrite Hs', Hs in Hc. change (Z.to_nat SIZE) with 32%nat in *. cbn [length] in Hc, Hlen.
    rewrite (walk_new_chained q' c i 33 [Z.of_nat i]); [|pose proof (qi_chains _ _ _ Hq') as Hch; by apply Forall_cons in Hch as [? _]|cbn; unfold SIZE; lia|lia].
    cbn [app mbind outcome_bind length]. rewrite length_map, (proj2 (Z.eqb_eq _ m)) by lia. cbn [rust_assert mbind outcome_bind].
    rewrite sub_chk_ok by lia. cbn [mbind outcome_bind].
    assert (free q' = free (queue h) - m) as Hfree.
    { pose proof (qi_free _ _ _ Hq') as E1. pose proof (qi_free _ _ _ Hq) as E2. rewrite Hfl, length_app in E2. cbn [length] in E2. lia. }
    rewrite (proj2 (Z.eqb_eq _ _) Hfree). cbn [rust_assert mbind outcome_bind].
    assert (∀ k, k ∈ i :: c → k ∉ concat cs) as Hnew.
    { intros k Hk Hk'. pose proof (qinv_NoDup _ _ _ Hq) as Hnd. rewrite Hfl, <- app_assoc in Hnd. apply NoDup_app in Hnd as (_ & Hnd & _).
      apply (Hnd k Hk), elem_of_app. by right. }
    assert (forallb (λ d, negb (bool_decide (d ∈ rows ≫= snd))) (Z.of_nat i :: map Z.of_nat c) = true) as ->.
    { apply forallb_forall. intros d Hd%list_elem_of_In. change (Z.of_nat i :: map Z.of_nat c) with (Z.of_nat <$> i :: c) in Hd.
      apply list_elem_of_fmap in Hd as (k & -> & Hk). rewrite bool_decide_eq_false_2; [done|]. intros (j & E & Hj)%owned_elem.
      apply Nat2Z.inj in E as <-. by apply (Hnew k). }
    cbn [rust_assert mbind outcome_bind].
    assert (live h !! Z.of_nat i = None) as Hfresh.
    { destruct (live h !! Z.of_nat i) as [chain|] eqn:E; [|done]. apply (live_chain h fl cs _ _ Ha) in E as (c0 & Hc0 & E).
      destruct (held_nonempty _ _ _ _ Hq Hc0) as (i0 & c1 & ->). injection E as E _. apply Nat2Z.inj in E as ->.
      exfalso. apply (Hnew i); [by left|]. apply elem_of_concat. exists (i :: c1). split; [by left|done]. }
    rewrite bool_decide_eq_true_2 by done. eexists. split; [reflexivity|]. exists rest, ((i :: c) :: cs).
    split; cbn [queue live published described]; [done|by rewrite Hs'| | |].
    + rewrite map_to_list_insert by done. rewrite (ag_live _ _ _ Ha). done.
    + rewrite Hfly. apply (ag_published _ _ _ Ha).
    + intros d a l w Hd. destruct (ag_described _ _ _ Ha _ _ _ _ Hd) as (j & x & -> & Hj & Hx & Hh). exists j, x. split; [done|].
      split; [cbn [concat]; apply elem_of_app; by right|]. split; [|done]. rewrite Hother; [done|]. intros Hin'. by apply (Hnew j).
  - rewrite alloc_chain_refused by lia. cbn [mbind outcome_bind].
    assert ((m =? 0) || (free (queue h) <? m) = true) as ->.
    { apply orb_true_iff. destruct (decide (m = 0)); [left; by apply Z.eqb_eq|right; apply Z.ltb_lt; lia]. }
    eexists. split; [reflexivity|]. exists fl, cs. apply same_chains; [done|done|done|apply (ag_published _ _ _ Ha)].
Qed.

Lemma remove_all_Some chain (m : gmap Z (Z * Z * bool)) d t : remove_all chain m !! d = Some t → (d ∉ chain) ∧ m !! d = Some t.
Proof.
  induction chain as [|x chain IH]; cbn [remove_all foldr]; [intros Hd; split; [by apply not_elem_of_nil|done]|].
  intros [E [Hn Hd]%IH]%lookup_delete_Some. split; [|done]. by rewrite not_elem_of_cons.
Qed.

Lemma free_agrees which : goes_on (apply_op rows h (OpFree which)).
Proof.
  apply on_head. intros i c Hc. pose proof (ag_queue _ _ _ Ha) as Hq. rewrite (live_of i c) by done. cbn [expect mbind outcome_bind].
  pose proof Hc as [cs' Hp]%elem_of_Permutation. destruct (free_chain_ok _ _ _ _ _ _ Hq Hp) as (q' & -> & Hq' & _ & _ & _ & Hfly & Hs' & Hother).
  cbn [mbind outcome_bind]. unfold free_count. pose proof (chain_short _ Hc) as Hl. rewrite length_map.
  pose proof (qi_free _ _ _ Hq) as E1. pose proof (qi_free _ _ _ Hq') as E2. rewrite length_app, length_rev in E2.
  pose proof (qinv_count _ _ _ Hq) as Hcount. rewrite (ag_size _ _ _ Ha) in Hcount. unfold SIZE in Hcount.
  rewrite (Z.mod_small (Z.of_nat (length (i :: c)))) by (cbn [length] in *; lia). rewrite add_chk_ok by (cbn [length] in *; lia). cbn [mbind outcome_bind].
  rewrite (proj2 (Z.eqb_eq (free q') _)) by lia. cbn [rust_assert mbind outcome_bind]. eexists _, (rev (i :: c) ++ fl), cs'. split; [reflexivity|].
  split; cbn [queue live published described]; [done|by rewrite Hs'; apply (ag_size _ _ _ Ha)| | |].
  - apply (Permutation_cons_inv (a := (Z.of_nat i, map Z.of_nat (i :: c)))). rewrite map_to_list_delete by by apply live_of.
    rewrite (ag_live _ _ _ Ha), Hp. done.
  - intros k Hk. rewrite Hfly in Hk. destruct (decide (k = i)) as [->|Hne].
    + pose proof (lookup_lt_Some _ _ _ Hk) as Hlt. rewrite length_insert in Hlt. by rewrite list_lookup_insert_eq in Hk.
    + rewrite list_lookup_insert_ne in Hk by done. apply elem_of_difference. split; [by apply (ag_published _ _ _ Ha)|].
      rewrite elem_of_singleton. by intros E%Nat2Z.inj.
  - intros d a l w [Hn Hd]%remove_all_Some. destruct (ag_described _ _ _ Ha _ _ _ _ Hd) as (j & x & -> & Hj & Hx & Hh). exists j, x. split; [done|].
    assert (j ∉ i :: c) as Hji by (intros Hin; apply Hn; change (map Z.of_nat (i :: c)) with (Z.of_nat <$> (i :: c)); by apply list_elem_of_fmap_2).
    split; [|split; [by rewrite Hother|done]]. rewrite (concat_perm _ _ Hp) in Hj. cbn [concat] in Hj.
    change (i :: (c ++ concat cs')) with ((i :: c) ++ concat cs') in Hj. apply elem_of_app in Hj as [Hj|Hj]; done.
Qed.

Lemma direction_flags f (w : bool) : let f' := Z.lor (Z.land f DESC_F_NEXT) (if w then DESC_F_WRITE else 0) in
  fits 16 f' ∧ negb (Z.land f' DESC_F_WRITE =? 0) = w.
Proof.
  unfold DESC_F_NEXT, DESC_F_WRITE, fits. change 1 with (Z.ones 1). rewrite Z.land_ones by lia. change (2 ^ 1) with 2.
  destruct (Z.mod_pos_bound f 2 ltac:(lia)) as [H0 H1]. assert (f mod 2 = 0 ∨ f mod 2 = 1) as [-> | ->] by lia; by destruct w.
Qed.

Lemma describe_agrees which position a l w : fits 64 a → fits 32 l → goes_on (apply_op rows h (OpDescribe which position a l w)).
Proof.
  intros H64 H32. apply on_head. intros i c Hc. pose proof (ag_queue _ _ _ Ha) as Hq. rewrite (live_of i c) by done. cbn [expect mbind outcome_bind].
  destruct (index_in_range (map Z.of_nat (i :: c)) (position mod Z.of_nat (length (map Z.of_nat (i :: c))))) as (idx & -> & Hi); [apply Z.mod_pos_bound; cbn; lia|].
  cbn [mbind outcome_bind]. apply list_elem_of_lookup_2 in Hi. change (map Z.of_nat (i :: c)) with (Z.of_nat <$> i :: c) in Hi.
  apply list_elem_of_fmap in Hi as (k & -> & Hk). assert (k ∈ concat cs) as Hkc by (apply elem_of_concat; by exists (i :: c)).
  destruct (describe_ok _ _ _ _ a l w Hq Hkc) as (q' & -> & Hq' & d & d' & Hd & -> & Ed1 & Ed2 & _ & _ & Ed3). cbn [mbind outcome_bind].
  pose proof (lookup_lt_Some _ _ _ Hd) as Hlt. destruct (direction_flags (flags d) w) as [Hf16 Hfw]. rewrite <- Ed3 in Hf16, Hfw.
  assert (∀ e a' l' w', <[Z.of_nat k := (a, l, w)]> (described h) !! e = Some (a', l', w') →
    ∃ j x, e = Z.of_nat j ∧ j ∈ concat cs ∧ <[k := d']> (desc (queue h)) !! j = Some x ∧ holds x a' l' w') as Htold.
  { intros e a' l' w' [[<- [= <- <- <-]]|[Hne He]]%lookup_insert_Some.
    - exists k, d'. split; [done|]. split; [done|]. rewrite list_lookup_insert_eq by done. done.
    - destruct (ag_described _ _ _ Ha _ _ _ _ He) as (j & x & -> & Hj & Hx & Hh). exists j, x. rewrite list_lookup_insert_ne by (intros ->; done). done. }
  rewrite check_described_passes.
  2:{ intros e a' l' w' He%elem_of_map_to_list. destruct (Htold e a' l' w' He) as (j & x & -> & _ & Hx & Hh). by exists j, x. }
  cbn [mbind outcome_bind]. eexists _, fl, cs. split; [reflexivity|].
  split; cbn [queue live published described]; [done|by apply (ag_size _ _ _ Ha)|apply (ag_live _ _ _ Ha)|apply (ag_published _ _ _ Ha)|exact Htold].
Qed.

Lemma publish_agrees which : goes_on (apply_op rows h (OpPublish which)).
Proof.
  apply on_head. intros i c Hc. pose proof (ag_queue _ _ _ Ha) as Hq. pose proof (ag_size _ _ _ Ha) as Hs. pose proof (qi_avail_idx _ _ _ Hq) as Hai.
  destruct (publish_ok _ _ _ _ _ Hq Hc) as (q' & E & Hq' & Hfly & Hused & Hidx & Hring & Hs'). rewrite E. cbn [mbind outcome_bind]. unfold avail_index.
  rewrite Hidx, !Z.eqb_refl. cbn [rust_assert mbind outcome_bind].
  assert (last_slot q' = avail_idx (queue h) mod SIZE) as Hslot.
  { unfold last_slot. rewrite Hidx, Hs', Hs. f_equal. unfold wrapping_sub, wrapping_add. rewrite Zminus_mod_idemp_l, Z.add_simpl_r. unfold fits in Hai. by apply Z.mod_small. }
  rewrite Hslot, Z.eqb_refl. cbn [rust_assert mbind outcome_bind].
  assert (avail_slot_bytes q' (avail_idx (queue h) mod SIZE) = Some (to_le_bytes 2 (Z.of_nat i))) as ->.
  { unfold avail_slot_bytes. rewrite Hring, Hs, list_lookup_insert_eq; [done|]. pose proof (qi_avail _ _ _ Hq) as Hl. rewrite Hs in Hl.
    pose proof (Z.mod_pos_bound (avail_idx (queue h)) SIZE ltac:(done)). lia. }
  rewrite bool_decide_eq_true_2 by done. cbn [rust_assert mbind outcome_bind]. eexists _, fl, cs. split; [reflexivity|]. apply same_chains; [done|by rewrite Hs'| |].
  - unfold publish in E. apply bind_ret_inv in E as (l & _ & E). apply bind_ret_inv in E as (r & _ & E). by injection E as <-.
  - intros k Hk. rewrite Hfly in Hk. apply elem_of_union. destruct (decide (k = i)) as [->|Hne]; [left; by apply elem_of_singleton|right].
    rewrite list_lookup_insert_ne in Hk by done. by apply (ag_published _ _ _ Ha).
Qed.

Lemma ingest_agrees slot bytes : 0 ≤ slot → goes_on (apply_op rows h (OpIngest slot bytes)).
Proof.
  intros Hs. destruct (ingest_used_slot_ok _ _ _ slot bytes (ag_queue _ _ _ Ha) Hs) as (b & q' & E & Hq' & Heq & Hb). cbn [apply_op]. rewrite E. cbn [mbind outcome_bind].
  assert (b = (slot <? SIZE)) as ->.
  { rewrite (ag_size _ _ _ Ha) in Hb. apply eq_true_iff_eq. by rewrite Hb, Z.ltb_lt. }
  rewrite Bool.eqb_reflx. eexists. split; [reflexivity|]. exists fl, cs. rewrite Heq. rewrite Heq in Hq'.
  apply same_chains; [done|apply (ag_size _ _ _ Ha)|done|apply (ag_published _ _ _ Ha)].
Qed.

Lemma take_agrees slot : 0 ≤ slot → goes_on (apply_op rows h (OpTakeUsed slot)).
Proof.
  intros Hs. cbn [apply_op]. destruct (take_used_ok _ _ _ slot (ag_queue _ _ _ Ha) Hs) as [->|(i & c & l & q' & -> & Hc & Hf & -> & Hq')]; cbn [mbind outcome_bind].
  - eexists. split; [reflexivity|]. exists fl, cs. destruct h. done.
  - rewrite (bool_decide_eq_true_2 (Z.of_nat i ∈ published h)) by by apply (ag_published _ _ _ Ha).
    rewrite (bool_decide_eq_true_2 (live h !! Z.of_nat i ≠ None)) by by rewrite (live_of i c). cbn [rust_assert mbind outcome_bind]. eexists. split; [reflexivity|].
    exists fl, cs. apply same_chains; [done|apply (ag_size _ _ _ Ha)|done|]. intros k Hk. cbn [in_flight set_in_flight] in Hk.
    destruct (decide (k = i)) as [->|Hne]; [by rewrite list_lookup_insert_eq in Hk by by eapply lookup_lt_Some|]. rewrite list_lookup_insert_ne in Hk by done.
    apply elem_of_difference. split; [by apply (ag_published _ _ _ Ha)|]. rewrite elem_of_singleton. by intros E%Nat2Z.inj.
Qed.

Lemma queue_check_passes : check h rows = Ret tt.
Proof.
  unfold check. pose proof (qinv_NoDup _ _ _ (ag_queue _ _ _ Ha)) as Hnd. apply NoDup_app in Hnd as (_ & _ & Hnd).
  rewrite size_list_to_set by (rewrite rows_owned; by apply (NoDup_fmap_2 Z.of_nat)). rewrite Nat.eqb_refl. cbn [rust_assert mbind outcome_bind].
  unfold free_count. rewrite rows_owned, length_fmap, (qinv_count _ _ _ (ag_queue _ _ _ Ha)), (ag_size _ _ _ Ha). done.
Qed.
End Step.

(** What the types of an operation's fields allow. *)
Definition op_ok (op : Op) : Prop :=
  match op with OpDescribe _ _ a l _ => fits 64 a ∧ fits 32 l | OpIngest slot _ | OpTakeUsed slot => 0 ≤ slot | _ => True end.

Lemma queue_op_agrees h fl cs rows op : agrees h fl cs → rows ≡ₚ map_to_list (live h) → op_ok op → goes_on (apply_op rows h op).
Proof.
  intros Ha Hr Hop. destruct op; cbn [op_ok] in Hop; [by eapply alloc_agrees|by eapply free_agrees|destruct Hop; by eapply describe_agrees|by eapply publish_agrees|by eapply ingest_agrees|by eapply take_agrees].
Qed.

Section Run.
Context (order : nat → Chains → list (Z * list Z)) (Horder : ∀ time m, order time m ≡ₚ map_to_list m).

Lemma queue_ops_agree ops : ∀ time h fl cs, agrees h fl cs → Forall op_ok ops → ∃ h' fl' cs', run_ops order time h ops = Ret h' ∧ agrees h' fl' cs'.
Proof.
  induction ops as [|op ops IH]; intros time h fl cs Ha Hops; [by exists h, fl, cs|]. apply Forall_cons in Hops as [Hop Hops]. cbn [run_ops].
  destruct (queue_op_agrees h fl cs (order time (live h)) op) as (r & -> & Hr); [done..|]. cbn [mbind outcome_bind].
  destruct r as [h'|]; [|by eapply IH]. destruct Hr as (fl' & cs' & Ha'). rewrite (queue_check_passes h' fl' cs') by done. cbn [mbind outcome_bind]. by eapply IH.
Qed.

Lemma free_all_frees heads : ∀ q fl cs, qinv q fl cs → heads ≡ₚ (λ c, Z.of_nat (hd 0%nat c)) <$> cs →
  ∃ q' fl', free_all q heads = Ret q' ∧ qinv q' fl' [] ∧ qsize q' = qsize q.
Proof.
  induction heads as [|x heads IH]; intros q fl cs Hq Hp.
  - apply Permutation_nil_l in Hp. destruct cs; [|done]. by exists q, fl.
  - assert (x ∈ (λ c, Z.of_nat (hd 0%nat c)) <$> cs) as Hx by (rewrite <- Hp; by left).
    apply list_elem_of_fmap in Hx as (c & -> & Hc). destruct (held_nonempty _ _ _ _ Hq Hc) as (i & c' & ->). pose proof Hc as [cs' Hcs]%elem_of_Permutation.
    destruct (free_chain_ok _ _ _ _ _ _ Hq Hcs) as (q' & E & Hq' & _ & _ & _ & _ & Hs & _). cbn [free_all hd]. rewrite E. cbn [mbind outcome_bind]. rewrite <- Hs.
    apply (IH q' (rev (i :: c') ++ fl) cs'); [exact Hq'|]. apply (Permutation_cons_inv (a := Z.of_nat i)). rewrite Hcs in Hp. exact Hp.
Qed.
End Run.

(** The queue once its first chain has come back. *)
Lemma probed : ∃ q h, new SIZE = Ret q ∧ ∃ q1, alloc_chain q 1 = Ret (Some h, q1) ∧ ∃ q2 fl, free_chain q1 h = Ret q2 ∧ agrees (mkHarness q2 ∅ ∅ ∅) fl [].
Proof.
  destruct (new_qinv SIZE ltac:(done) ltac:(reflexivity)) as (q & E & Hq & Hs). pose proof (qi_free _ _ _ Hq) as Hf.
  destruct (alloc_chain_ok _ _ _ 1 Hq) as (i & c & rest & q1 & _ & _ & E1 & Hq1 & _ & _ & _ & Hf1 & Hs1 & _); [rewrite Hf; done|].
  destruct (free_chain_ok _ _ _ i c [] Hq1 ltac:(done)) as (q2 & E2 & Hq2 & _ & _ & _ & Hf2 & Hs2 & _).
  exists q, (Z.of_nat i). split; [done|]. exists q1. split; [done|]. exists q2, (rev (i :: c) ++ rest). split; [done|].
  split; cbn [queue live published described]; [done|congruence|done| |done].
  intros k Hk. destruct (qi_live _ _ _ Hq2 k Hk) as (c' & Hc'). by apply elem_of_nil in Hc'.
Qed.

(** The fuzz target of the virtqueue cannot fail. Whatever operations
    it is given, whatever bytes the device writes in the used ring, and
    whatever order its hash map lists the chains in, no assertion of it
    fails: a chain is as long as was asked for and shares no descriptor,
    every descriptor holds what it was last told, a completion names a chain
    that was handed to the device, and once drained the queue is whole
    again. *)
Theorem queue_target_never_fails order ops : (∀ time m, order time m ≡ₚ map_to_list m) → Forall op_ok ops → fuzz_target order ops = Ret tt.
Proof.
  intros Horder Hops. unfold fuzz_target. destruct probed as (q & hd_ & -> & q1 & E1 & q2 & fl & E2 & Ha). cbn [mbind outcome_bind]. rewrite E1.
  cbn [mbind outcome_bind expect]. rewrite E2. cbn [mbind outcome_bind]. unfold free_count.
  assert (∀ q fl, qinv q fl [] → qsize q = SIZE → free q = SIZE) as Hfull.
  { intros q' fl' Hq' Hs'. pose proof (qinv_count _ _ _ Hq') as H. cbn in H. lia. }
  rewrite (Hfull q2 fl (ag_queue _ _ _ Ha) (ag_size _ _ _ Ha)), Z.eqb_refl. cbn [rust_assert mbind outcome_bind].
  destruct (queue_ops_agree order Horder ops 0 _ _ _ Ha Hops) as (h & fl' & cs & -> & Ha'). cbn [mbind outcome_bind].
  destruct (free_all_frees (order (length ops) (live h)).*1 (queue h) fl' cs (ag_queue _ _ _ Ha')) as (q3 & fl3 & -> & Hq3 & Hs3).
  { rewrite Horder, (ag_live _ _ _ Ha'), <- list_fmap_compose. done. }
  cbn [mbind outcome_bind]. pose proof (Hfull q3 fl3 Hq3 ltac:(rewrite Hs3; apply (ag_size _ _ _ Ha'))) as Hf3. rewrite Hf3, Z.eqb_refl. cbn [rust_assert mbind outcome_bind].
  destruct (alloc_chain_ok _ _ _ SIZE Hq3) as (i & c & rest & q4 & _ & _ & -> & _); [rewrite Hf3; done|]. cbn [mbind outcome_bind]. by rewrite bool_decide_eq_true_2.
Qed.

(** A chain of three, told, handed over, completed by the device and freed. *)
Lemma queue_target_never_fails_witness :
  fuzz_target (λ _ m, map_to_list m)
    [OpAlloc 3; OpAlloc 33; OpDescribe 0 1 4096 512 true; OpPublish 0; OpIngest 0 (to_le_bytes 8 0); OpTakeUsed 0; OpTakeUsed 0; OpFree 0] = Ret tt.
Proof. apply queue_target_never_fails; [done|repeat constructor; done]. Defined.
