(* ===== verification/FuzzSlab.v ===== *)
(** The fuzz target of the kernel heap: [fuzz/fuzz_targets/slab.rs].

    The target drives a heap of [Slab] with any operations, on an arena it
    fills with bytes of its own, and writes over every block it is given.  It
    asserts where blocks lie and what is charged for them.  [Panic] is an
    assertion that fails.  Where the arena lies and what a run before left in
    it are arguments. *)
From S2P Require Import Prelude Bits Slab.
Import Slab.
#[global] Open Scope Z_scope.

Definition ARENA_LEN : Z := 4 * 1024 * 1024.

Inductive Op := OpAlloc (size align_shift : Z) | OpDealloc (which : Z).

(** [Layout::from_size_align]. *)
Definition from_size_align (size align : Z) : option Layout :=
  if is_power_of_two align && (size <=? 2 ^ 63 - align) then Some (mkLayout size align) else None.

(** [std::ptr::write_bytes]: [n] bytes [b] from [p] on, seen by words. *)
Definition write_bytes (m : mem) (p b n : Z) : mem := λ q,
  if (q + 8 <=? p) || (p + n <=? q) then m q
  else sum_Z (λ i, (if (p <=? q + i) && (q + i <? p + n) then b else (m q / 2 ^ (8 * i)) mod 256) * 2 ^ (8 * i)) (seqZ 0 8).

(** [Vec::swap_remove]. *)
Definition swap_remove {A} (l : list A) (i : Z) : outcome (A * list A) :=
  x ← index l i;
  y ← expect (last l);
  Ret (x, take (length l - 1) (<[Z.to_nat i := y]> l)).

(** The heap, its memory, and the blocks handed out with what was charged. *)
Record Harness := mkHarness { h_heap : SlabHeap; h_memory : mem; h_live : list (Z * Layout * Z) }.

(** The block lies inside the arena. *)
Definition in_arena (base addr charged : Z) : outcome unit :=
  _ ← rust_assert (base <=? addr);
  stop ← add_chk 64 addr charged;
  arena_end ← add_chk 64 base ARENA_LEN;
  rust_assert (stop <=? arena_end).

(** The block is clear of every other. *)
Fixpoint clear_of (addr charged : Z) (live : list (Z * Layout * Z)) : outcome unit :=
  match live with
  | [] => Ret tt
  | (other, _, other_charged) :: live' =>
      stop ← add_chk 64 addr charged;
      _ ← (if stop <=? other then Ret tt
           else other_stop ← add_chk 64 other other_charged; rust_assert (other_stop <=? addr));
      clear_of addr charged live'
  end.

Definition apply_op (base : Z) (h : Harness) (op : Op) : outcome Harness :=
  match op with
  | OpAlloc size align_shift =>
      let size := Z.max (size mod (ARENA_LEN * 2)) 1 in
      let align := Z.shiftl 1 (align_shift mod 13) in
      match from_size_align size align with
      | None => Ret h
      | Some layout =>
          let before := allocated (h_heap h) in
          '(ptr, heap) ← alloc (h_heap h) (h_memory h) layout;
          if ptr =? null then Ret (mkHarness heap (h_memory h) (h_live h)) else
          _ ← rust_assert (ptr mod align =? 0);
          charged ← sub_chk (allocated heap) before;
          _ ← rust_assert (size <=? charged);
          _ ← in_arena base ptr charged;
          _ ← clear_of ptr charged (h_live h);
          Ret (mkHarness heap (write_bytes (h_memory h) ptr 0xAB size) (h_live h ++ [(ptr, layout, charged)]))
      end
  | OpDealloc which =>
      if bool_decide (h_live h = []) then Ret h else
      '(block, live) ← swap_remove (h_live h) (which mod Z.of_nat (length (h_live h)));
      let '(ptr, layout, charged) := block in
      let before := allocated (h_heap h) in
      '(heap, m) ← dealloc (h_heap h) (h_memory h) ptr layout;
      left_ ← sub_chk before charged;
      _ ← rust_assert (allocated heap =? left_);
      Ret (mkHarness heap m live)
  end.

Fixpoint run_ops (base : Z) (h : Harness) (ops : list Op) : outcome Harness :=
  match ops with [] => Ret h | op :: ops' => h' ← apply_op base h op; run_ops base h' ops' end.

Fixpoint drain (heap : SlabHeap) (m : mem) (live : list (Z * Layout * Z)) : outcome SlabHeap :=
  match live with
  | [] => Ret heap
  | (ptr, layout, _) :: live' => '(heap', m') ← dealloc heap m ptr layout; drain heap' m' live'
  end.

(** [fuzz_target!], on an arena at [base] that holds [m0]. *)
Definition fuzz_target (base : Z) (m0 : mem) (ops : list Op) : outcome unit :=
  heap ← set_backing new base ARENA_LEN;
  let m := write_bytes m0 base 0x5A ARENA_LEN in
  probe_layout ← expect (from_size_align 16 16);
  '(probe, heap) ← alloc heap m probe_layout;
  _ ← rust_assert (negb (probe =? null));
  '(heap, m) ← dealloc heap m probe probe_layout;
  h ← run_ops base (mkHarness heap m []) ops;
  heap ← drain (h_heap h) (h_memory h) (h_live h);
  rust_assert (allocated heap =? 0).

(** * What holds of it

    No input makes the heap's fuzz target fail. *)

(** ** The lower end of the heap

    [Slab] knows that blocks lie below the bump mark; the target also checks
    that none lies before the arena.  [closed G m] says of a set of addresses
    that the links of [m] lead from it only to itself, [kept] that the lists
    of a heap start in it. *)

Section Low.
Context (base : Z).
Implicit Types (h : SlabHeap) (m : mem) (G : Z → Prop).

Definition closed G m : Prop := ∀ x, G x → base ≤ x ∧ (m x = null ∨ G (m x)).
Definition kept G h : Prop := Forall (λ x, x = null ∨ G x) (free_lists h ++ large_lists h).

Lemma kept_class G h i x : kept G h → index (free_lists h) i = Ret x → x = null ∨ G x.
Proof. intros [Hf _]%Forall_app [_ Hx]%index_ret. by eapply (proj1 (Forall_lookup _ _) Hf). Qed.
Lemma kept_large G h i x : kept G h → index (large_lists h) i = Ret x → x = null ∨ G x.
Proof. intros [_ Hf]%Forall_app [_ Hx]%index_ret. by eapply (proj1 (Forall_lookup _ _) Hf). Qed.

Lemma kept_set_class G h l i x : kept G h → (x = null ∨ G x) → set_index (free_lists h) i x = Ret l → kept G (set_class h l).
Proof.
  intros [Hf Hl]%Forall_app Hx [_ ->]%set_index_ret. apply Forall_app. split; [|done]. by apply Forall_insert.
Qed.
Lemma kept_set_large G h l i x : kept G h → (x = null ∨ G x) → set_index (large_lists h) i x = Ret l → kept G (set_large h l).
Proof.
  intros [Hf Hl]%Forall_app Hx [_ ->]%set_index_ret. apply Forall_app. split; [done|]. by apply Forall_insert.
Qed.

(** What a call leaves of the lower end. *)
Definition low G h p h' : Prop := kept G h' ∧ bump_next h ≤ bump_next h' ∧ (p = null ∨ G p ∨ bump_next h ≤ p).

Lemma credit_low G h q h1 n p h' : credit (q, h1) n = Ret (p, h') → low G h q h1 → low G h p h'.
Proof.
  unfold credit. destruct (q =? null); [by intros [= <- <-]|]. intros (x & _ & [= <- <-])%bind_ret_inv. done.
Qed.

Lemma bump_low G h size k q h' : 0 ≤ k ≤ 63 → 0 ≤ size → 0 ≤ bump_next h < 2 ^ 64 → bump_end h < 2 ^ 64 → kept G h →
  bump h size (2 ^ k) = (q, h') → low G h q h'.
Proof.
  intros Hk Hs Hn He Hg. rewrite bump_spec by done. destruct (up_spec (bump_next h) k ltac:(lia) ltac:(lia)) as [_ Hup].
  destruct (_ <? _); intros [= <- <-]; (split; [done|]); [split; [lia|by left]|]. split; [cbn; lia|right; right; lia].
Qed.

Lemma alloc_low G h m l p h' : layout_ok l → 0 ≤ bump_next h < 2 ^ 64 → bump_end h < 2 ^ 64 → closed G m → kept G h →
  alloc h m l = Ret (p, h') → low G h p h'.
Proof.
  intros Hl Hn He Hc Hg E. unfold alloc in E. apply bind_ret_inv in E as ([c|] & Hcl & E).
  - apply bind_ret_inv in E as (sz & Hsz & E). apply bind_ret_inv in E as (x & Hx & E). apply bind_ret_inv in E as ([q h1] & Er & E).
    eapply credit_low; [exact E|]. destruct (Z.eqb_spec x null) as [->|Hnz].
    + injection Er as Er. eapply (bump_low G h _ 4); [..|exact Er]; [lia|unfold MAX_CLASS_ALIGN; lia|done..].
    + apply bind_ret_inv in Er as (fl & Hf & Er). injection Er as <- <-.
      destruct (kept_class _ _ _ _ Hg Hx) as [->|Hgx]; [done|]. destruct (Hc x Hgx) as [_ Hnext].
      split; [by eapply kept_set_class|]. split; [cbn; lia|]. right. by left.
  - destruct (large_extent_pow l Hl) as (k & Hk & Ek & _). apply bind_ret_inv in E as (i & Hi & E). apply bind_ret_inv in E as (r & Er & E).
    destruct r as [[q h1]|].
    + injection E as <- <-. destruct i as [i|]; [|done]. apply bind_ret_inv in Er as (x & Hx & Er). destruct (Z.eqb_spec x null) as [->|Hnz]; [done|].
      apply bind_ret_inv in Er as (ll & Hll & Er). apply bind_ret_inv in Er as (n & _ & Er). injection Er as <- <-.
      destruct (kept_large _ _ _ _ Hg Hx) as [->|Hgx]; [done|]. destruct (Hc x Hgx) as [_ Hnext].
      split; [|split; [cbn; lia|right; by left]]. by eapply (kept_set_large G h).
    + rewrite Ek in E. destruct (bump h (2 ^ k) (2 ^ k)) as [q h1] eqn:Eb. eapply credit_low; [exact E|].
      eapply bump_low; [..|exact Eb]; [lia|lia|done..].
Qed.

Lemma dealloc_low G h m p l h' m' : closed G m → kept G h → base ≤ p → dealloc h m p l = Ret (h', m') →
  bump_next h' = bump_next h ∧ bump_end h' = bump_end h ∧ ∃ G', closed G' m' ∧ kept G' h'.
Proof.
  intros Hc Hg Hp E.
  assert (∀ x, x = null ∨ G x → closed (λ y, y = p ∨ G y) (store m p x)) as Hstore.
  { intros x Hx y Hy. destruct (decide (y = p)) as [->|Hne].
    - split; [done|]. rewrite store_same. destruct Hx as [->|Hx]; [by left|right; by right].
    - destruct Hy as [->|Hy]; [done|]. rewrite store_other by done. destruct (Hc y Hy) as [? [?|?]]; auto. }
  assert (kept (λ y, y = p ∨ G y) h) as Hg'.
  { eapply Forall_impl; [exact Hg|]. intros x [->|Hx]; auto. }
  unfold dealloc in E. apply bind_ret_inv in E as ([c|] & _ & E).
  - apply bind_ret_inv in E as (x & Hx & E). apply bind_ret_inv in E as (fl & Hf & E). apply bind_ret_inv in E as (sz & _ & E).
    apply bind_ret_inv in E as (n & _ & E). injection E as <- <-. split; [done|]. split; [done|]. eexists. split; [apply Hstore; by eapply kept_class|].
    eapply (kept_set_class _ h); [exact Hg'| |exact Hf]. right. by left.
  - apply bind_ret_inv in E as (n & _ & E). apply bind_ret_inv in E as ([i|] & _ & E).
    + apply bind_ret_inv in E as (x & Hx & E). apply bind_ret_inv in E as (ll & Hll & E). injection E as <- <-.
      split; [done|]. split; [done|]. eexists. split; [apply Hstore; by eapply kept_large|].
      eapply (kept_set_large _ h); [exact Hg'| |exact Hll]. right. by left.
    + injection E as <- <-. split; [done|]. split; [done|]. by exists G.
Qed.
End Low.

(** ** What the target keeps *)

Lemma chain_next m head l : chain m head l → (head = null ∨ head ∈ l) ∧ ∀ x, x ∈ l → m x = null ∨ m x ∈ l.
Proof.
  revert head. induction l as [|y l IH]; intros head; cbn [chain]; [intros ->; split; [by left|intros x Hx; by apply elem_of_nil in Hx]|].
  intros (-> & _ & Hc). destruct (IH _ Hc) as [Hh Hn]. split; [right; by left|].
  intros x [->|Hx]%elem_of_cons; [destruct Hh as [|Hh]; [by left|right; by right]|].
  destruct (Hn x Hx) as [|Hx']; [by left|right; by right].
Qed.

(** The addresses on the lists. *)
Definition listed (FL LL : list (list Z)) (x : Z) : Prop := (∃ i l, FL !! i = Some l ∧ x ∈ l) ∨ (∃ i l, LL !! i = Some l ∧ x ∈ l).

Lemma listed_cells FL LL x : listed FL LL x → ∃ e, (x, e) ∈ cells_of class_ext FL ++ cells_of large_ext LL.
Proof.
  intros [(i & l & Hl & Hx)|(i & l & Hl & Hx)]; [exists (class_ext i)|exists (large_ext i)]; rewrite elem_of_app, !elem_of_cells; [left|right]; eauto.
Qed.

Lemma heads_listed s FL LL x : sinv s FL LL → x ∈ free_lists (heap s) ++ large_lists (heap s) → x = null ∨ listed FL LL x.
Proof.
  intros Hi [Hx|Hx]%elem_of_app; apply list_elem_of_lookup in Hx as [i Hx]; destruct (sv_len _ _ _ Hi) as (L1 & L2 & L3 & L4);
    pose proof (lookup_lt_Some _ _ _ Hx) as Hlt.
  - destruct (lookup_lt_is_Some_2 FL i ltac:(lia)) as [l Hl]. destruct (sv_class _ _ _ Hi i l Hl) as (y & Hy & Hc).
    simplify_eq. destruct (chain_next _ _ _ Hc) as [[|]  _]; [by left|]. right. left. eauto.
  - destruct (lookup_lt_is_Some_2 LL i ltac:(lia)) as [l Hl]. destruct (sv_large _ _ _ Hi i l Hl) as (y & Hy & Hc).
    simplify_eq. destruct (chain_next _ _ _ Hc) as [[|]  _]; [by left|]. right. right. eauto.
Qed.

Lemma listed_next s FL LL x : sinv s FL LL → listed FL LL x → memory s x = null ∨ listed FL LL (memory s x).
Proof.
  intros Hi [(i & l & Hl & Hx)|(i & l & Hl & Hx)].
  - destruct (sv_class _ _ _ Hi i l Hl) as (y & Hy & Hc). destruct (chain_next _ _ _ Hc) as [_ Hn].
    destruct (Hn x Hx) as [|Hx']; [by left|right]. left. eauto.
  - destruct (sv_large _ _ _ Hi i l Hl) as (y & Hy & Hc). destruct (chain_next _ _ _ Hc) as [_ Hn].
    destruct (Hn x Hx) as [|Hx']; [by left|right]. right. eauto.
Qed.

(** Writing over a block handed out leaves the lists alone. *)
Lemma write_bytes_free s FL LL p l b n x e : sinv s FL LL → (p, l) ∈ live s → 0 ≤ n ≤ ext_of l →
  (x, e) ∈ cells_of class_ext FL ++ cells_of large_ext LL → write_bytes (memory s) p b n x = memory s x.
Proof.
  intros Hi Hp Hn Hx. destruct (free_apart _ _ _ _ _ _ _ Hi Hp Hx) as (? & ? & Hd). unfold write_bytes.
  destruct Hd; [rewrite (proj2 (Z.leb_le (p + n) x)) by lia; by rewrite orb_true_r|by rewrite (proj2 (Z.leb_le (x + 8) p)) by lia].
Qed.

Section Agree.
Context (base : Z) (Hbase : 0 < base) (Hroom : base + ARENA_LEN < 2 ^ 64).

Record agrees (h : Harness) : Prop := {
  ag_inv : ∃ FL LL, sinv (mkSys (h_heap h) (h_memory h) (h_live h).*1) FL LL;
  ag_end : bump_end (h_heap h) = base + ARENA_LEN;
  ag_mark : base ≤ bump_next (h_heap h);
  ag_low : ∃ G, closed base G (h_memory h) ∧ kept G (h_heap h);
  ag_live : Forall (λ b, base ≤ b.1.1 ∧ b.2 = cost_of b.1.2) (h_live h)
}.

Lemma cost_covers l : layout_ok l → lsize l ≤ cost_of l.
Proof.
  intros Hl. unfold cost_of. destruct (class_for_cases l (proj1 Hl)) as [[-> _]|(c & s & -> & Hc & Hs & _)].
  - destruct (large_extent_pow l Hl) as (k & _ & -> & Hs & _). done.
  - by rewrite Nat2Z.id, Hc.
Qed.

Lemma from_size_align_ok size align l : 0 ≤ size → from_size_align size align = Some l → layout_ok l ∧ l = mkLayout size align.
Proof.
  intros Hs. unfold from_size_align. destruct (is_power_of_two align) eqn:Ep; [|done]. cbn [andb]. destruct (Z.leb_spec size (2 ^ 63 - align)); [|done].
  intros [= <-]. split; [|done]. apply is_power_of_two_spec in Ep. split; [done|]. split; [done|]. cbn. lia.
Qed.

Lemma clear_of_passes addr charged live : 0 ≤ charged → addr + charged < 2 ^ 64 →
  Forall (λ b, 0 ≤ b.2 ∧ b.1.1 + b.2 < 2 ^ 64 ∧ (addr + charged ≤ b.1.1 ∨ b.1.1 + b.2 ≤ addr)) live → clear_of addr charged live = Ret tt.
Proof.
  intros Hc Ha. induction 1 as [|[[p l] c] live (H0 & Hr & Hd) _ IH]; [done|]. cbn [clear_of fst snd] in *. rewrite (add_chk_ok 64 addr) by done. cbn [mbind outcome_bind].
  destruct (Z.leb_spec (addr + charged) p) as [|Hlt]; [exact IH|]. destruct Hd as [|Hd]; [lia|].
  rewrite add_chk_ok by done. cbn [mbind outcome_bind]. by rewrite (proj2 (Z.leb_le _ _)).
Qed.

(** The same heap with other memory where it matters to no list. *)
Lemma overwritten h p l b n : agrees h → (p, l) ∈ (h_live h).*1 → 0 ≤ n ≤ ext_of l →
  agrees (mkHarness (h_heap h) (write_bytes (h_memory h) p b n) (h_live h)).
Proof.
  intros Ha Hp Hn. destruct (ag_inv _ Ha) as (FL & LL & Hi). destruct (ag_low _ Ha) as (G & Hc & Hk).
  assert (∀ x, listed FL LL x → write_bytes (h_memory h) p b n x = h_memory h x) as Hsame.
  { intros x [e Hx]%listed_cells. exact (write_bytes_free _ _ _ _ _ b n _ _ Hi Hp Hn Hx). }
  split; cbn [h_heap h_memory h_live]; [|apply Ha|apply Ha| |apply Ha].
  - exists FL, LL. apply (sinv_memory _ _ _ _ Hi). intros x e Hx. exact (write_bytes_free _ _ _ _ _ b n _ _ Hi Hp Hn Hx).
  - exists (λ x, G x ∧ listed FL LL x). split.
    + intros x [Hg Hl]. rewrite Hsame by done. destruct (Hc x Hg) as [? Hx]. split; [done|].
      destruct Hx as [|Hx]; [by left|]. destruct (listed_next _ _ _ _ Hi Hl); [by left|by right].
    + apply Forall_forall. intros x Hx. destruct (proj1 (Forall_forall _ _) Hk x Hx) as [|Hg]; [by left|].
      destruct (heads_listed _ _ _ _ Hi Hx); [by left|by right].
Qed.

(** [alloc] in the state the target is in. *)
Lemma heap_alloc_agrees h l : agrees h → layout_ok l → ∃ p heap', alloc (h_heap h) (h_memory h) l = Ret (p, heap') ∧
  ((p = null ∧ agrees (mkHarness heap' (h_memory h) (h_live h))) ∨
   (0 < p ∧ p mod lalign l = 0 ∧ base ≤ p ∧ p + ext_of l ≤ base + ARENA_LEN ∧ allocated heap' = allocated (h_heap h) + cost_of l ∧
    clear_of p (cost_of l) (h_live h) = Ret tt ∧ agrees (mkHarness heap' (h_memory h) (h_live h ++ [(p, l, cost_of l)])))).
Proof.
  intros Ha Hl. destruct (ag_inv _ Ha) as (FL & LL & Hi). destruct (ag_low _ Ha) as (G & Hc & Hk). pose proof (ag_end _ Ha) as He. pose proof (ag_mark _ Ha) as Hm.
  destruct (slab_alloc_ok _ _ _ l Hi Hl) as (p & heap' & E & Hg). exists p, heap'. split; [exact E|]. cbn [heap memory live] in *.
  destruct (sv_bump _ _ _ Hi) as [Hb Hb']. cbn [heap] in Hb, Hb'. pose proof (alloc_keeps_end _ _ _ _ _ E) as He'.
  destruct (alloc_low base G (h_heap h) _ _ _ _ Hl ltac:(lia) Hb' Hc Hk E) as (Hk' & Hm' & Hp).
  destruct Hg as [(-> & _ & _ & FL' & LL' & Hi')|(Hp0 & Hal & FL' & LL' & Hi')].
  { left. split; [done|]. split; cbn; [by exists FL', LL'|congruence|lia|by exists G|apply Ha]. }
  right. destruct (newest_block _ _ _ _ _ _ _ Hl Hi') as (_ & Hmod & Hend & Hd). cbn [heap] in Hal. destruct (ext_spec l Hl) as (_ & _ & _ & Hcost & _).
  assert (base ≤ p) as Hlow.
  { destruct Hp as [->|[Hp|Hp]]; [done|by apply Hc|lia]. }
  split; [done|]. split; [done|]. split; [done|]. split; [lia|]. split; [done|]. split.
  - apply clear_of_passes; [lia|lia|]. apply Forall_forall. intros [[q k] c] Hq. cbn [fst snd].
    destruct (proj1 (Forall_forall _ _) (ag_live _ Ha) _ Hq) as [_ Hqc]. cbn [fst snd] in Hqc. subst c.
    assert ((q, k) ∈ (h_live h).*1) as Hq1 by (apply list_elem_of_fmap; eexists; split; [|exact Hq]; done).
    destruct (sv_align _ _ _ Hi) as [_ Hlv]. destruct (Hlv q k Hq1) as [Hkl _]. destruct (ext_spec k Hkl) as (_ & _ & _ & Hkc & _).
    pose proof (Hd q k Hq1). destruct (sv_cells _ _ _ Hi q (ext_of k)) as (_ & Hqe & _).
    { unfold cells, live_cells. apply elem_of_app. left. apply list_elem_of_fmap. by exists (q, k). }
    cbn [heap] in Hqe. lia.
  - split; cbn; [|congruence|lia|by exists G|].
    + exists FL', LL'. eapply sinv_perm; [exact Hi'|]. rewrite fmap_app. cbn. by rewrite Permutation_app_comm.
    + apply Forall_app. split; [apply Ha|]. by apply Forall_singleton.
Qed.

(** [dealloc] of a block handed out. *)
Lemma dealloc_agrees h p l c rest : agrees h → h_live h ≡ₚ (p, l, c) :: rest →
  ∃ heap' m', dealloc (h_heap h) (h_memory h) p l = Ret (heap', m') ∧ c = cost_of l ∧ c ≤ allocated (h_heap h) ∧
    allocated heap' = allocated (h_heap h) - c ∧ agrees (mkHarness heap' m' rest).
Proof.
  intros Ha Hp. destruct (ag_inv _ Ha) as (FL & LL & Hi). destruct (ag_low _ Ha) as (G & Hc & Hk).
  pose proof (ag_live _ Ha) as Hlv. rewrite Hp in Hlv. apply Forall_cons in Hlv as [[Hb Hcost] Hrest]. cbn [fst snd] in Hb, Hcost.
  destruct (dealloc_ok _ FL LL p l rest.*1 Hi) as (heap' & m' & E & [(FL' & LL' & Hi') _ Hal _]); [cbn; by rewrite Hp|].
  cbn [heap memory] in *. exists heap', m'. split; [exact E|]. split; [done|].
  destruct (dealloc_low base G _ _ _ _ _ _ Hc Hk Hb E) as (Hn & He & G' & Hc' & Hk').
  split; [pose proof (sv_room _ _ _ Hi') as [? _]; cbn in *; lia|]. split; [by subst c|].
  split; cbn; [by exists FL', LL'|rewrite He; apply Ha|rewrite Hn; apply Ha|by exists G'|done].
Qed.

Lemma swap_remove_ok {A} (l : list A) i : 0 ≤ i < Z.of_nat (length l) → ∃ x rest, swap_remove l i = Ret (x, rest) ∧ l ≡ₚ x :: rest.
Proof.
  intros Hi. unfold swap_remove. destruct (index_in_range l i Hi) as (x & -> & Hx). cbn [mbind outcome_bind].
  destruct l as [|y l _] using rev_ind; [cbn in Hi; lia|]. rewrite last_snoc. cbn [expect mbind outcome_bind].
  eexists _, _. split; [reflexivity|]. rewrite length_app, Nat.add_sub. rewrite length_app in Hi. cbn [length] in Hi.
  destruct (decide (Z.to_nat i = length l)) as [E|Hne].
  - rewrite E in *. rewrite lookup_app_r, Nat.sub_diag in Hx by done. injection Hx as ->.
    rewrite insert_app_r_alt, Nat.sub_diag by done. cbn [list_insert]. rewrite take_app_length. by rewrite Permutation_app_comm.
  - rewrite lookup_app_l in Hx by lia. rewrite insert_app_l, take_app_le, take_ge by (rewrite ?length_insert; lia).
    rewrite insert_take_drop by lia. rewrite <- (take_drop_middle l _ x Hx) at 1. rewrite <- !Permutation_middle, Permutation_app_comm. cbn. apply Permutation_swap.
Qed.

Lemma slab_op_agrees h op : agrees h → ∃ h', apply_op base h op = Ret h' ∧ agrees h'.
Proof.
  intros Ha. destruct op as [size shift|which]; cbn [apply_op].
  - set (sz := Z.max _ 1). destruct (from_size_align sz _) as [l|] eqn:El; [|by exists h]. apply from_size_align_ok in El as [Hl ->]; [|unfold sz; lia].
    destruct (heap_alloc_agrees h _ Ha Hl) as (p & heap' & -> & [[-> Ha']|(Hp0 & Hmod & Hlow & Hend & Hal & Hclear & Ha')]); cbn [mbind outcome_bind]; [by eexists|].
    rewrite (proj2 (Z.eqb_neq p null)) by (unfold null; lia). cbn [lalign] in Hmod. rewrite (proj2 (Z.eqb_eq _ 0) Hmod). cbn [rust_assert mbind outcome_bind].
    pose proof (cost_covers _ Hl) as Hcov. destruct (ext_spec _ Hl) as (_ & Hse & _ & Hcost & _). cbn [lsize] in Hcov, Hse. set (l := mkLayout sz _) in *.
    rewrite sub_chk_ok by lia. cbn [mbind outcome_bind]. replace (allocated heap' - allocated (h_heap h)) with (cost_of l) by lia.
    rewrite (proj2 (Z.leb_le sz _)) by done. cbn [rust_assert mbind outcome_bind]. unfold in_arena.
    rewrite (proj2 (Z.leb_le base p)) by done. cbn [rust_assert mbind outcome_bind]. rewrite !add_chk_ok by lia. cbn [mbind outcome_bind].
    rewrite (proj2 (Z.leb_le (p + cost_of l) _)) by lia. cbn [rust_assert mbind outcome_bind]. rewrite Hclear. cbn [mbind outcome_bind].
    eexists. split; [reflexivity|]. apply (overwritten _ p l _ sz Ha'); [|unfold sz in *; lia]. cbn. rewrite fmap_app. apply elem_of_app. right. by left.
  - case_bool_decide as E; [by exists h|]. destruct (swap_remove_ok (h_live h) (which mod Z.of_nat (length (h_live h)))) as ([[p l] c] & rest & -> & Hp).
    { apply Z.mod_pos_bound. destruct (h_live h); [done|cbn; lia]. }
    cbn [mbind outcome_bind]. destruct (dealloc_agrees h p l c rest Ha Hp) as (heap' & m' & -> & _ & Hle & Hal & Ha'). cbn [mbind outcome_bind].
    rewrite sub_chk_ok by done. cbn [mbind outcome_bind]. rewrite (proj2 (Z.eqb_eq _ _) Hal). cbn [rust_assert mbind outcome_bind]. by eexists.
Qed.

Lemma slab_ops_agree ops : ∀ h, agrees h → ∃ h', run_ops base h ops = Ret h' ∧ agrees h'.
Proof.
  induction ops as [|op ops IH]; intros h Ha; [by exists h|]. cbn [run_ops].
  destruct (slab_op_agrees h op Ha) as (h' & -> & Ha'). cbn [mbind outcome_bind]. by apply IH.
Qed.

Lemma drain_empties live : ∀ heap m, agrees (mkHarness heap m live) → ∃ heap', drain heap m live = Ret heap' ∧ allocated heap' = 0.
Proof.
  induction live as [|[[p l] c] live IH]; intros heap m Ha.
  - exists heap. split; [done|]. destruct (ag_inv _ Ha) as (FL & LL & Hi). exact (sv_allocated _ _ _ Hi).
  - destruct (dealloc_agrees _ p l c live Ha (reflexivity _)) as (heap' & m' & E & _ & _ & _ & Ha'). cbn [h_heap h_memory] in E.
    cbn [drain]. rewrite E. cbn [mbind outcome_bind]. by apply IH.
Qed.

(** A new heap with the arena behind it. *)
Lemma backed_agrees m : ∃ heap', set_backing new base ARENA_LEN = Ret heap' ∧ agrees (mkHarness heap' m []) ∧ bump_next heap' = base ∧
  free_lists heap' = replicate 17 null.
Proof.
  destruct (checked_add 64 base ARENA_LEN) as [e|] eqn:Ec; [|apply checked_add_None in Ec; lia]. apply checked_add_Some in Ec as Ee. destruct Ee as [-> _].
  assert (set_backing new base ARENA_LEN = Ret (mkSlab (replicate 17 null) (replicate 18 null) base (base + ARENA_LEN) 0)) as E.
  { unfold set_backing. rewrite Ec. done. }
  eexists. split; [exact E|]. destruct (slab_backing_inv (mkSys new m []) _ _ base ARENA_LEN (mkSlab (replicate 17 null) (replicate 18 null) base (base + ARENA_LEN) 0) (sinv_new m)) as [_ Hi]; [unfold fits; unfold ARENA_LEN in Hroom; lia|done|exact E|].
  split; [|done]. split; cbn [h_heap h_memory h_live bump_end bump_next]; [eauto|done|lia| |done].
  exists (λ _, False). split; [done|]. unfold kept. cbn. repeat constructor.
Qed.
End Agree.

(** The fuzz target of the heap cannot fail.  Wherever its arena lies and
    whatever operations it is given, no assertion of it fails: a block is
    aligned as asked, inside the arena and clear of every other, what is
    charged covers it and is credited back to the byte, writing over blocks
    in use harms nothing, and once drained nothing is charged. *)
Theorem slab_target_never_fails base m0 ops : 0 < base → base + ARENA_LEN < 2 ^ 64 → fuzz_target base m0 ops = Ret tt.
Proof.
  intros Hbase Hroom. unfold fuzz_target. destruct (backed_agrees base Hbase Hroom (write_bytes m0 base 0x5A ARENA_LEN)) as (heap & -> & Ha & Hn & Hf).
  cbn [mbind outcome_bind]. change (from_size_align 16 16) with (Some (mkLayout 16 16)). cbn [expect mbind outcome_bind].
  assert (layout_ok (mkLayout 16 16)) as Hl by (split; [done|split; [by exists 4|done]]).
  destruct (heap_alloc_agrees base _ _ Ha Hl) as (p & heap' & E & Hcase). cbn [h_heap h_memory] in E. rewrite E. cbn [mbind outcome_bind].
  destruct Hcase as [[-> _]|(Hp & _ & _ & _ & _ & _ & Ha')].
  { exfalso. pose proof E as E'. unfold alloc in E'. change (class_for (mkLayout 16 16)) with (Ret (Some 2)) in E'. cbn [mbind outcome_bind] in E'.
    rewrite Hf in E'. change (index CLASSES 2) with (Ret 16) in E'. change (index (replicate 17 null) 2) with (Ret null) in E'. cbn [mbind outcome_bind] in E'.
    change (null =? null) with true in E'. cbn [mbind outcome_bind] in E'. change (Z.max 16 MAX_CLASS_ALIGN) with 16 in E'. change MAX_CLASS_ALIGN with (2 ^ 4) in E'.
    pose proof (ag_end base _ Ha) as He. cbn [h_heap] in He. assert (0 ≤ ARENA_LEN) by done. rewrite (bump_spec heap 16 4) in E' by lia. rewrite Hn, He in E'.
    destruct (up_spec base 4 ltac:(lia) ltac:(lia)) as [_ Hup]. rewrite (proj2 (Z.ltb_ge _ _)) in E' by (unfold ARENA_LEN; lia).
    unfold credit in E'. rewrite (proj2 (Z.eqb_neq _ null)) in E' by (unfold null; lia). apply bind_ret_inv in E' as (x & _ & [= E' _]). unfold null in E'. lia. }
  rewrite (proj2 (Z.eqb_neq p null)) by (unfold null; lia). cbn [negb rust_assert mbind outcome_bind].
  destruct (dealloc_agrees base _ p _ _ [] Ha' (reflexivity _)) as (heap2 & m2 & E2 & _ & _ & _ & Ha2). cbn [h_heap h_memory] in E2. rewrite E2. cbn [mbind outcome_bind].
  destruct (slab_ops_agree base Hroom ops _ Ha2) as ([heap3 m3 live3] & -> & Ha3). cbn [mbind outcome_bind h_heap h_memory h_live].
  destruct (drain_empties base live3 heap3 m3 Ha3) as (heap4 & -> & Hz). cbn [mbind outcome_bind]. by rewrite Hz.
Qed.

(** A class, a large block, a request past the arena, and two releases. *)
Lemma slab_target_never_fails_witness :
  fuzz_target 65536 (λ _, 0) [OpAlloc 20 3; OpAlloc 70000 12; OpAlloc 5000000 0; OpDealloc 1; OpAlloc 65537 4; OpDealloc 0] = Ret tt.
Proof. by apply slab_target_never_fails. Defined.
