(* ===== verification/Sha.v ===== *)
(** The digest that pins the boot loader: [sha256_hex] of
    [xtask/src/image.rs], and SHA-256 as FIPS 180-4 has it.

    The code pads a copy of the message byte by byte, fills an array of 64
    words in place and keeps eight running variables; the standard speaks of
    the least padding, of a recurrence and of sums modulo 2^32. *)
From Stdlib Require Import Strings.Byte.
From S2P Require Import Prelude Bits Text.
#[global] Open Scope Z_scope.

(** ** The code *)

(** [u32::rotate_right], [u32::from_be_bytes], [u64::to_be_bytes]. *)
Definition rotate_right (x n : Z) : Z := Z.lor (Z.shiftr x n) (Z.shiftl x (32 - n) mod 2 ^ 32).
Definition from_be_bytes (l : list byte) : Z := from_le_bytes (reverse l).
Definition to_be_bytes (n : nat) (z : Z) : list byte := reverse (to_le_bytes n z).

(** In the rows the source has them in. *)
Definition K : list Z := concat
  [[0x428a2f98; 0x71374491; 0xb5c0fbcf; 0xe9b5dba5; 0x3956c25b; 0x59f111f1; 0x923f82a4];
   [0xab1c5ed5; 0xd807aa98; 0x12835b01; 0x243185be; 0x550c7dc3; 0x72be5d74; 0x80deb1fe];
   [0x9bdc06a7; 0xc19bf174; 0xe49b69c1; 0xefbe4786; 0x0fc19dc6; 0x240ca1cc; 0x2de92c6f];
   [0x4a7484aa; 0x5cb0a9dc; 0x76f988da; 0x983e5152; 0xa831c66d; 0xb00327c8; 0xbf597fc7];
   [0xc6e00bf3; 0xd5a79147; 0x06ca6351; 0x14292967; 0x27b70a85; 0x2e1b2138; 0x4d2c6dfc];
   [0x53380d13; 0x650a7354; 0x766a0abb; 0x81c2c92e; 0x92722c85; 0xa2bfe8a1; 0xa81a664b];
   [0xc24b8b70; 0xc76c51a3; 0xd192e819; 0xd6990624; 0xf40e3585; 0x106aa070; 0x19a4c116];
   [0x1e376c08; 0x2748774c; 0x34b0bcb5; 0x391c0cb3; 0x4ed8aa4a; 0x5b9cca4f; 0x682e6ff3];
   [0x748f82ee; 0x78a5636f; 0x84c87814; 0x8cc70208; 0x90befffa; 0xa4506ceb; 0xbef9a3f7];
   [0xc67178f2]].
Definition H0 : list Z :=
  [0x6a09e667; 0xbb67ae85; 0x3c6ef372; 0xa54ff53a; 0x510e527f; 0x9b05688c; 0x1f83d9ab; 0x5be0cd19].

(** [while padded.len() % 64 != 56]: 63 turns at most. *)
Fixpoint pad_zeros (fuel : nat) (padded : list byte) : outcome (list byte) :=
  match fuel with
  | O => Panic
  | S fuel' =>
      if Z.of_nat (length padded) mod 64 =? 56 then Ret padded else pad_zeros fuel' (padded ++ [x00])
  end.

(** [slice::as_chunks], the chunks of it. *)
Definition as_chunks (k : nat) (l : list byte) : list (list byte) :=
  map (λ i, take k (drop (i * k) l)) (seq 0 (length l / k)).

(** [for (schedule, word) in w.iter_mut().zip(words)]. *)
Fixpoint fill (w : list Z) (words : list (list byte)) : list Z :=
  match w, words with _ :: w', word :: words' => from_be_bytes word :: fill w' words' | _, _ => w end.

(** [for i in 16..64]. *)
Fixpoint extend (n : nat) (i : Z) (w : list Z) : outcome (list Z) :=
  match n with
  | O => Ret w
  | S n' =>
      a ← index w (i - 15);
      let s0 := Z.lxor (Z.lxor (rotate_right a 7) (rotate_right a 18)) (Z.shiftr a 3) in
      b ← index w (i - 2);
      let s1 := Z.lxor (Z.lxor (rotate_right b 17) (rotate_right b 19)) (Z.shiftr b 10) in
      c ← index w (i - 16);
      d ← index w (i - 7);
      w ← set_index w i (wrapping_add 32 (wrapping_add 32 (wrapping_add 32 c s0) d) s1);
      extend n' (i + 1) w
  end.

(** The eight running variables, and a round of the compression. *)
Record Vars := mkVars { va : Z; vb : Z; vc : Z; vd : Z; ve : Z; vf : Z; vg : Z; vh : Z }.
Definition round (v : Vars) (k schedule : Z) : Vars :=
  let s1 := Z.lxor (Z.lxor (rotate_right (ve v) 6) (rotate_right (ve v) 11)) (rotate_right (ve v) 25) in
  let ch := Z.lxor (Z.land (ve v) (vf v)) (Z.land (bitnot 32 (ve v)) (vg v)) in
  let t1 := wrapping_add 32 (wrapping_add 32 (wrapping_add 32 (wrapping_add 32 (vh v) s1) ch) k) schedule in
  let s0 := Z.lxor (Z.lxor (rotate_right (va v) 2) (rotate_right (va v) 13)) (rotate_right (va v) 22) in
  let maj := Z.lxor (Z.lxor (Z.land (va v) (vb v)) (Z.land (va v) (vc v))) (Z.land (vb v) (vc v)) in
  let t2 := wrapping_add 32 s0 maj in
  mkVars (wrapping_add 32 t1 t2) (va v) (vb v) (vc v) (wrapping_add 32 (vd v) t1) (ve v) (vf v) (vg v).
Fixpoint rounds (v : Vars) (ks w : list Z) : Vars :=
  match ks, w with k :: ks', s :: w' => rounds (round v k s) ks' w' | _, _ => v end.

Definition vars_of (h : list Z) : outcome Vars :=
  match h with [a; b; c; d; e; f; g; hh] => Ret (mkVars a b c d e f g hh) | _ => Panic end.
Definition list_of (v : Vars) : list Z := [va v; vb v; vc v; vd v; ve v; vf v; vg v; vh v].

(** The body of the loop over the blocks. *)
Definition compress (h : list Z) (block : list byte) : outcome (list Z) :=
  w ← extend 48 16 (fill (replicate 64 0) (as_chunks 4 block));
  v ← vars_of h;
  Ret (zip_with (wrapping_add 32) h (list_of (rounds v K w))).
Fixpoint compress_all (h : list Z) (blocks : list (list byte)) : outcome (list Z) :=
  match blocks with [] => Ret h | block :: blocks' => h' ← compress h block; compress_all h' blocks' end.

(** [format!("{word:08x}")]. *)
Definition hex_digit (d : Z) : byte := z2b (if d <? 10 then 48 + d else 87 + d).
Definition hex8 (word : Z) : text := map (λ i, hex_digit (Z.shiftr word (4 * i) mod 16)) [7; 6; 5; 4; 3; 2; 1; 0].

Definition sha256_hex (data : list byte) : outcome text :=
  let bit_len := wrapping_mul 64 (Z.of_nat (length data)) 8 in
  padded ← pad_zeros 64 (data ++ [x80]);
  let padded := padded ++ to_be_bytes 8 bit_len in
  h ← compress_all H0 (as_chunks 64 padded);
  Ret (concat (map hex8 h)).

(** The published vectors the tests of the code have. *)
Example sha256_of_nothing : sha256_hex [] = Ret (lit "e3b0c44298fc1c149afbf4c8996fb92427ae41e4649b934ca495991b7852b855").
Proof. vm_compute. reflexivity. Qed.
Example sha256_of_abc : sha256_hex (lit "abc") = Ret (lit "ba7816bf8f01cfea414140de5dae2223b00361a396177a9cb410ff61f20015ad").
Proof. vm_compute. reflexivity. Qed.
Example sha256_of_two_blocks : sha256_hex (replicate 56 x61) = Ret (lit "b35439a4ac6f0948b6d6f9e3c6af0f5f590ce20f1bde7090ef7970686ec6738a").
Proof. vm_compute. reflexivity. Qed.

(** * What holds of it

    [Sha] computes SHA-256 as FIPS 180-4 defines it. *)

(** ** The standard

    Words are numbers below [2 ^ 32]; a rotation moves the low digits above
    the high ones, a choice and a majority are taken bit by bit. *)

Definition ROTR (n x : Z) : Z := x / 2 ^ n + x mod 2 ^ n * 2 ^ (32 - n).
Definition SHR (n x : Z) : Z := x / 2 ^ n.
Definition Ch (x y z : Z) : Z := Z.lor (Z.land x y) (Z.ldiff z x).
Definition Maj (x y z : Z) : Z := Z.lor (Z.lor (Z.land x y) (Z.land x z)) (Z.land y z).
Definition Sigma0 (x : Z) : Z := Z.lxor (Z.lxor (ROTR 2 x) (ROTR 13 x)) (ROTR 22 x).
Definition Sigma1 (x : Z) : Z := Z.lxor (Z.lxor (ROTR 6 x) (ROTR 11 x)) (ROTR 25 x).
Definition sigma0 (x : Z) : Z := Z.lxor (Z.lxor (ROTR 7 x) (ROTR 18 x)) (SHR 3 x).
Definition sigma1 (x : Z) : Z := Z.lxor (Z.lxor (ROTR 17 x) (ROTR 19 x)) (SHR 10 x).

(** The big-endian word [t] of a block. *)
Definition word (block : list byte) (t : nat) : Z :=
  let b j := b2z (nth (4 * t + j) block x00) in b 0%nat * 2 ^ 24 + b 1%nat * 2 ^ 16 + b 2%nat * 2 ^ 8 + b 3%nat.

(** The message schedule. *)
Definition schedule (block : list byte) (W : nat → Z) : Prop :=
  (∀ t, (t < 16)%nat → W t = word block t) ∧
  (∀ t, (16 ≤ t < 64)%nat →
    W t = (sigma1 (W (t - 2)%nat) + W (t - 7)%nat + sigma0 (W (t - 15)%nat) + W (t - 16)%nat) mod 2 ^ 32).

(** One round, all of them, one block, all of them. *)
Definition step (v : Vars) (k w : Z) : Vars :=
  let T1 := (vh v + Sigma1 (ve v) + Ch (ve v) (vf v) (vg v) + k + w) mod 2 ^ 32 in
  let T2 := (Sigma0 (va v) + Maj (va v) (vb v) (vc v)) mod 2 ^ 32 in
  mkVars ((T1 + T2) mod 2 ^ 32) (va v) (vb v) (vc v) ((vd v + T1) mod 2 ^ 32) (ve v) (vf v) (vg v).
Definition steps (v : Vars) (W : nat → Z) : Vars := foldl (λ v t, step v (K !!! t) (W t)) v (seq 0 64).

Definition hash_block (H : Vars) (block : list byte) (H' : Vars) : Prop :=
  ∃ W, schedule block W ∧ list_of H' = zip_with (λ x y, (x + y) mod 2 ^ 32) (list_of H) (list_of (steps H W)).
Inductive hash_blocks : Vars → list (list byte) → Vars → Prop :=
  | hash_none H : hash_blocks H [] H
  | hash_one H block H' blocks H'' : hash_block H block H' → hash_blocks H' blocks H'' → hash_blocks H (block :: blocks) H''.

(** The message with a one bit, the fewest zeros and its length in bits, in
    blocks of 64 bytes. *)
Definition padded (data : list byte) (blocks : list (list byte)) : Prop :=
  ∃ z, (z < 64)%nat ∧ Forall (λ b, length b = 64%nat) blocks ∧
    concat blocks = data ++ [x80] ++ replicate z x00 ++ to_be_bytes 8 (8 * Z.of_nat (length data)).

Definition initial : Vars := mkVars 0x6a09e667 0xbb67ae85 0x3c6ef372 0xa54ff53a 0x510e527f 0x9b05688c 0x1f83d9ab 0x5be0cd19.
Definition SHA256 (data : list byte) (digest : Vars) : Prop :=
  ∃ blocks, padded data blocks ∧ hash_blocks initial blocks digest.

(** ** Words *)

Lemma rotate_is_ROTR x n : fits 32 x → 0 < n < 32 → rotate_right x n = ROTR n x.
Proof.
  intros Hx Hn. unfold rotate_right, ROTR. rewrite Z.shiftr_div_pow2, Z.shiftl_mul_pow2 by lia.
  assert (x * 2 ^ (32 - n) mod 2 ^ 32 = x mod 2 ^ n * 2 ^ (32 - n)) as ->.
  { replace (2 ^ 32) with (2 ^ n * 2 ^ (32 - n)) by (rewrite <- Z.pow_add_r by lia; f_equal; lia). by rewrite Z.mul_mod_distr_r by lia. }
  rewrite <- Z.add_lor_land. replace (Z.land _ _) with 0; [lia|]. symmetry. apply Z.bits_inj'. intros i Hi. rewrite Z.bits_0, Z.land_spec.
  destruct (decide (i < 32 - n)) as [Hlt|Hge].
  - rewrite Z.mul_pow2_bits_low by lia. by rewrite andb_false_r.
  - replace (Z.testbit (x / 2 ^ n) i) with false; [done|]. symmetry. rewrite Z.div_pow2_bits by lia. destruct Hx as [H0 H1].
    destruct (decide (x = 0)) as [->|]; [by rewrite Z.bits_0|]. apply Z.bits_above_log2; [lia|]. apply Z.log2_lt_pow2; [lia|].
    eapply Z.lt_le_trans; [exact H1|]. apply pow2_le. lia.
Qed.

Lemma choice_is_Ch x y z : fits 32 z → Z.lxor (Z.land x y) (Z.land (bitnot 32 x) z) = Ch x y z.
Proof.
  intros [H0 H1]. unfold Ch, bitnot. apply Z.bits_inj'. intros i Hi. rewrite Z.lxor_spec, Z.lor_spec, !Z.land_spec, !Z.ldiff_spec.
  destruct (decide (i < 32)).
  - rewrite Z.ones_spec_low by lia. by destruct (Z.testbit x i), (Z.testbit y i), (Z.testbit z i).
  - replace (Z.testbit z i) with false; [by destruct (Z.testbit x i), (Z.testbit y i), (Z.testbit (Z.ones 32) i)|].
    symmetry. destruct (decide (z = 0)) as [->|]; [by rewrite Z.bits_0|]. apply Z.bits_above_log2; [lia|]. apply Z.log2_lt_pow2; [lia|].
    eapply Z.lt_le_trans; [exact H1|]. apply pow2_le. lia.
Qed.

Lemma majority_is_Maj x y z : Z.lxor (Z.lxor (Z.land x y) (Z.land x z)) (Z.land y z) = Maj x y z.
Proof.
  unfold Maj. apply Z.bits_inj'. intros i Hi. rewrite !Z.lxor_spec, !Z.lor_spec, !Z.land_spec.
  by destruct (Z.testbit x i), (Z.testbit y i), (Z.testbit z i).
Qed.

Lemma fits_wrap x : fits 32 (x mod 2 ^ 32).
Proof. by apply Z.mod_pos_bound. Qed.

(** ** Rounds *)

Definition vars_ok (v : Vars) : Prop := Forall (fits 32) (list_of v).

Lemma sum_of_four m a b c d : (((a + b) mod m + c) mod m + d) mod m = (a + b + c + d) mod m.
Proof. by rewrite Zplus_mod_idemp_l, <- (Z.add_assoc _ c), Zplus_mod_idemp_l, Z.add_assoc. Qed.
Lemma sum_of_five m a b c d e : ((((a + b) mod m + c) mod m + d) mod m + e) mod m = (a + b + c + d + e) mod m.
Proof. rewrite <- Zplus_mod_idemp_l, sum_of_four. by rewrite Zplus_mod_idemp_l, Zplus_mod_idemp_l. Qed.

Lemma round_is_step v k w : vars_ok v → round v k w = step v k w ∧ vars_ok (round v k w).
Proof.
  intros Hv. unfold vars_ok, list_of in *. rewrite !Forall_cons in Hv. destruct Hv as (Ha & Hb & Hc & Hd & He & Hf & Hg & Hh & _).
  split; [|cbn; rewrite !Forall_cons; by repeat (split; [done || apply fits_wrap|])].
  unfold round, step, wrapping_add. cbv zeta. rewrite !rotate_is_ROTR, choice_is_Ch, majority_is_Maj by (done || lia).
  change (Z.lxor (Z.lxor (ROTR 6 (ve v)) (ROTR 11 (ve v))) (ROTR 25 (ve v))) with (Sigma1 (ve v)).
  change (Z.lxor (Z.lxor (ROTR 2 (va v)) (ROTR 13 (va v))) (ROTR 22 (va v))) with (Sigma0 (va v)).
  by rewrite (sum_of_five _ (vh v) _ _ k w).
Qed.

Lemma rounds_are_steps ks : ∀ v w off W, vars_ok v → length w = length ks → (∀ t s, w !! t = Some s → W (off + t)%nat = s) →
  (∀ t k, ks !! t = Some k → K !!! (off + t)%nat = k) →
  rounds v ks w = foldl (λ v t, step v (K !!! t) (W t)) v (seq off (length ks)) ∧ vars_ok (rounds v ks w).
Proof.
  induction ks as [|k ks IH]; intros v w off W Hv Hl Hw Hk; (destruct w as [|s w]; [done|]); [done|]. cbn [rounds length seq foldl].
  pose proof (Hw 0%nat s eq_refl) as Ew. pose proof (Hk 0%nat k eq_refl) as Ek. rewrite Nat.add_0_r in Ew, Ek. rewrite Ew, Ek.
  destruct (round_is_step v k s Hv) as [<- Hv']. apply (IH _ w (S off) W); [done|by injection Hl|..].
  - intros t x Hx. rewrite <- (Hw (S t) x Hx). f_equal. lia.
  - intros t x Hx. rewrite <- (Hk (S t) x Hx). f_equal. lia.
Qed.

(** ** The schedule *)

Lemma fill_replicate words : ∀ n, (length words ≤ n)%nat → fill (replicate n 0) words = map from_be_bytes words ++ replicate (n - length words) 0.
Proof.
  induction words as [|x words IH]; intros n Hn; [cbn; rewrite Nat.sub_0_r; by destruct n|].
  destruct n as [|n]; [cbn in Hn; lia|]. cbn [replicate fill map app length Nat.sub]. rewrite IH by (cbn in Hn; lia). done.
Qed.

Lemma be_word a b c d : from_be_bytes [a; b; c; d] = b2z a * 2 ^ 24 + b2z b * 2 ^ 16 + b2z c * 2 ^ 8 + b2z d.
Proof. unfold from_be_bytes. cbn. lia. Qed.

Lemma chunk_word block t : length block = 64%nat → (t < 16)%nat → map from_be_bytes (as_chunks 4 block) !! t = Some (word block t).
Proof.
  intros Hl Ht. unfold as_chunks. rewrite Hl. change (64 / 4)%nat with 16%nat. change (map ?f (map ?g ?l)) with (f <$> (g <$> l)).
  rewrite !list_lookup_fmap, lookup_seq_lt by done. cbn [fmap option_fmap option_map]. f_equal. rewrite Nat.add_0_l.
  assert (∀ j, (j < 4)%nat → take 4 (drop (t * 4) block) !! j = Some (nth (4 * t + j) block x00)) as Hj.
  { intros j Hj. rewrite lookup_take_lt, lookup_drop by done. replace (t * 4 + j)%nat with (4 * t + j)%nat by lia.
    rewrite nth_lookup. destruct (lookup_lt_is_Some_2 block (4 * t + j)) as [y ->]; [lia|done]. }
  assert (length (take 4 (drop (t * 4) block)) = 4%nat) as H4 by (rewrite length_take, length_drop; lia).
  destruct (take 4 (drop (t * 4) block)) as [|a [|b [|c [|d [|]]]]]; try done.
  rewrite be_word. unfold word.
  pose proof (Hj 0%nat ltac:(lia)) as [= ->]. pose proof (Hj 1%nat ltac:(lia)) as [= ->]. pose proof (Hj 2%nat ltac:(lia)) as [= ->]. by pose proof (Hj 3%nat ltac:(lia)) as [= ->].
Qed.

Lemma word_fits block t : fits 32 (word block t).
Proof. unfold word, fits. do 4 match goal with |- context [b2z ?x] => generalize (b2z x), (b2z_range x); intros ?b ?H end. lia. Qed.

(** The words a schedule has up to [i]. *)
Record upto (block : list byte) (i : nat) (w : list Z) : Prop := {
  up_len : length w = 64%nat;
  up_fits : Forall (fits 32) w;
  up_first : ∀ t, (t < 16)%nat → w !!! t = word block t;
  up_rest : ∀ t, (16 ≤ t < i)%nat →
    w !!! t = (sigma1 (w !!! (t - 2)%nat) + w !!! (t - 7)%nat + sigma0 (w !!! (t - 15)%nat) + w !!! (t - 16)%nat) mod 2 ^ 32
}.

Lemma index_total (w : list Z) (k : Z) : 0 ≤ k → (Z.to_nat k < length w)%nat → index w k = Ret (w !!! Z.to_nat k).
Proof. intros Hk Hl. apply index_ok; [done|]. by apply list_lookup_lookup_total_lt. Qed.

Lemma extend_ok block n : ∀ i w, (16 ≤ i)%nat → (i + n = 64)%nat → upto block i w → ∃ w', extend n (Z.of_nat i) w = Ret w' ∧ upto block 64 w'.
Proof.
  induction n as [|n IH]; intros i w Hi Hn Hw; [exists w; split; [done|]; by replace 64%nat with i by lia|].
  pose proof Hw as [Hl Hf H1 H2]. assert (∀ t, (t < 64)%nat → fits 32 (w !!! t)) as Hft.
  { intros t Ht. eapply Forall_lookup_total_1; [exact Hf|lia]. }
  cbn [extend]. rewrite !index_total by lia. cbn [mbind outcome_bind]. rewrite set_index_nat by lia. cbn [mbind outcome_bind].
  replace (Z.to_nat (Z.of_nat i - 15)) with (i - 15)%nat by lia. replace (Z.to_nat (Z.of_nat i - 2)) with (i - 2)%nat by lia.
  replace (Z.to_nat (Z.of_nat i - 16)) with (i - 16)%nat by lia. replace (Z.to_nat (Z.of_nat i - 7)) with (i - 7)%nat by lia.
  rewrite !rotate_is_ROTR by (apply Hft || idtac; lia). rewrite !Z.shiftr_div_pow2 by lia.
  change (Z.lxor (Z.lxor (ROTR 7 ?x) (ROTR 18 ?x)) (?x / 2 ^ 3)) with (sigma0 x).
  change (Z.lxor (Z.lxor (ROTR 17 ?x) (ROTR 19 ?x)) (?x / 2 ^ 10)) with (sigma1 x).
  replace (Z.of_nat i + 1) with (Z.of_nat (S i)) by lia. apply IH; [lia|lia|].
  set (x := wrapping_add 32 _ _). assert (∀ t, t ≠ i → (<[i:=x]> w) !!! t = w !!! t) as Hne by (intros t Ht; by apply list_lookup_total_insert_ne).
  split.
  - by rewrite length_insert.
  - apply Forall_insert; [done|]. apply fits_wrap.
  - intros t Ht. rewrite Hne by lia. by apply H1.
  - intros t Ht. rewrite !(Hne (t - _)%nat) by lia. destruct (decide (t = i)) as [->|Hti].
    + rewrite list_lookup_total_insert_eq by lia. unfold x, wrapping_add. rewrite sum_of_four. f_equal. lia.
    + rewrite Hne by done. apply H2. lia.
Qed.

(** ** Blocks *)

Lemma compress_ok H block : vars_ok H → length block = 64%nat →
  ∃ H', compress (list_of H) block = Ret (list_of H') ∧ vars_ok H' ∧ hash_block H block H'.
Proof.
  intros HH Hl. unfold compress. assert (length (as_chunks 4 block) = 16%nat) as H16 by (unfold as_chunks; by rewrite length_map, length_seq, Hl).
  assert (upto block 16 (fill (replicate 64 0) (as_chunks 4 block))) as H0.
  { rewrite fill_replicate by lia. assert (∀ t, (t < 16)%nat → (map from_be_bytes (as_chunks 4 block) ++ replicate (64 - length (as_chunks 4 block)) 0) !! t = Some (word block t)) as Ht.
    { intros t Ht. rewrite lookup_app_l by (rewrite length_map; lia). by apply chunk_word. }
    split.
    - rewrite length_app, length_map, length_replicate. lia.
    - apply Forall_app. split; [|by apply Forall_replicate].
      apply Forall_lookup. intros t x Hx. pose proof (lookup_lt_Some _ _ _ Hx) as Hlt. rewrite length_map, H16 in Hlt.
      rewrite chunk_word in Hx by done. injection Hx as <-. apply word_fits.
    - intros t Ht'. apply list_lookup_total_correct. by apply Ht.
    - intros t Ht'. lia. }
  destruct (extend_ok block 48 16 _ ltac:(done) ltac:(done) H0) as (w & Ew & [Hw Hf H1 H2]). change (Z.of_nat 16) with 16 in Ew. rewrite Ew. cbn [mbind outcome_bind].
  change (vars_of (list_of H)) with (Ret (mkVars (va H) (vb H) (vc H) (vd H) (ve H) (vf H) (vg H) (vh H))). cbn [mbind outcome_bind].
  replace (mkVars (va H) (vb H) (vc H) (vd H) (ve H) (vf H) (vg H) (vh H)) with H by by destruct H.
  destruct (rounds_are_steps K H w 0 (λ t, w !!! t) HH Hw) as [E Hok].
  { intros t x Hx. by apply list_lookup_total_correct. }
  { intros t x Hx. by apply list_lookup_total_correct. }
  destruct (rounds H K w) as [a b c d e f g h] eqn:Er. set (V := mkVars a b c d e f g h) in *.
  exists (mkVars ((va H + a) mod 2 ^ 32) ((vb H + b) mod 2 ^ 32) ((vc H + c) mod 2 ^ 32) ((vd H + d) mod 2 ^ 32)
            ((ve H + e) mod 2 ^ 32) ((vf H + f) mod 2 ^ 32) ((vg H + g) mod 2 ^ 32) ((vh H + h) mod 2 ^ 32)).
  split; [done|]. split; [unfold vars_ok, list_of; cbn [va vb vc vd ve vf vg vh]; rewrite !Forall_cons; by repeat (split; [apply fits_wrap|])|].
  exists (λ t, w !!! t). split; [by split|]. unfold steps. change (length K) with 64%nat in E. rewrite <- E. done.
Qed.

Lemma compress_all_ok blocks : ∀ H, vars_ok H → Forall (λ b, length b = 64%nat) blocks →
  ∃ H', compress_all (list_of H) blocks = Ret (list_of H') ∧ hash_blocks H blocks H'.
Proof.
  induction blocks as [|b blocks IH]; intros H HH Hb; [exists H; split; [done|constructor]|]. apply Forall_cons in Hb as [Hl Hb].
  destruct (compress_ok H b HH Hl) as (H1 & E & HH1 & Hs). destruct (IH H1 HH1 Hb) as (H2 & E2 & Hs2).
  exists H2. cbn [compress_all]. rewrite E. cbn [mbind outcome_bind]. split; [done|]. by econstructor.
Qed.

Lemma chunks_whole k n : ∀ l : list byte, length l = (n * k)%nat → concat (map (λ i, take k (drop (i * k) l)) (seq 0 n)) = l.
Proof.
  induction n as [|n IH]; intros l Hl; [by destruct l|]. cbn [seq map concat]. rewrite Nat.mul_0_l, drop_0.
  rewrite <- seq_shift, map_map. transitivity (take k l ++ drop k l); [|apply take_drop]. f_equal.
  rewrite <- (IH (drop k l)) by (rewrite length_drop; lia).
  f_equal. apply map_ext. intros i. rewrite drop_drop. by replace (S i * k)%nat with (k + i * k)%nat by lia.
Qed.

Lemma as_chunks_ok l n : length l = (n * 64)%nat → concat (as_chunks 64 l) = l ∧ Forall (λ b, length b = 64%nat) (as_chunks 64 l).
Proof.
  intros Hl. unfold as_chunks. rewrite Hl, Nat.div_mul by done. split; [by apply chunks_whole|].
  apply Forall_forall. intros b Hb. apply list_elem_of_fmap in Hb as (i & -> & Hi%elem_of_seq). rewrite length_take, length_drop. lia.
Qed.

(** ** Padding *)

Lemma pad_zeros_ok fuel : ∀ l, (56 - Z.of_nat (length l)) mod 64 < Z.of_nat fuel →
  ∃ z, pad_zeros fuel l = Ret (l ++ replicate z x00) ∧ (Z.of_nat (length l) + Z.of_nat z) mod 64 = 56 ∧ (z < fuel)%nat.
Proof.
  induction fuel as [|fuel IH]; intros l Hl; [pose proof (Z.mod_pos_bound (56 - Z.of_nat (length l)) 64); lia|]. cbn [pad_zeros].
  destruct (Z.eqb_spec (Z.of_nat (length l) mod 64) 56) as [E|Hne].
  - exists 0%nat. cbn. rewrite app_nil_r, Z.add_0_r. split; [done|]. split; [done|lia].
  - destruct (IH (l ++ [x00])) as (z & -> & Hz & Hlt).
    { rewrite length_app. cbn [length]. Z.to_euclidean_division_equations. lia. }
    exists (S z). rewrite <- app_assoc. split; [done|]. split; [|lia]. rewrite length_app in Hz. cbn [length] in Hz. rewrite <- Hz. f_equal. lia.
Qed.

Lemma Ret_eq {A} (x y : A) : Ret x = Ret y → x = y.
Proof. by intros [= E]. Qed.

Lemma sha256_is_SHA256 data : Z.of_nat (length data) < 2 ^ 61 →
  ∃ digest, sha256_hex data = Ret (concat (map hex8 (list_of digest))) ∧ SHA256 data digest.
Proof.
  intros Hlen. unfold sha256_hex. destruct (pad_zeros_ok 64 (data ++ [x80])) as (z & -> & Hz & Hlt); [by apply Z.mod_pos_bound|]. cbn [mbind outcome_bind].
  unfold wrapping_mul. rewrite Z.mod_small by lia. rewrite (Z.mul_comm _ 8). set (p := ((data ++ [x80]) ++ replicate z x00) ++ _).
  rewrite length_app in Hz. cbn [length] in Hz.
  assert (∃ n, length p = (n * 64)%nat) as [n Hn].
  { exists (Z.to_nat ((Z.of_nat (length data) + 1 + Z.of_nat z + 8) / 64)). unfold p, to_be_bytes.
    rewrite !length_app, length_reverse, length_to_le_bytes, length_replicate. cbn [length]. Z.to_euclidean_division_equations. lia. }
  destruct (as_chunks_ok p n Hn) as [Hc Hf]. destruct (compress_all_ok (as_chunks 64 p) initial) as (digest & E & Hs); [|done|].
  { unfold vars_ok, list_of. cbn [va vb vc vd ve vf vg vh initial]. rewrite !Forall_cons. by repeat (split; [done|]). }
  change H0 with (list_of initial). rewrite E. cbn [mbind outcome_bind]. exists digest. split; [done|]. exists (as_chunks 64 p). split; [|done].
  exists z. split; [done|]. split; [done|]. rewrite Hc. unfold p. by rewrite <- !app_assoc.
Qed.

(** C31: The digest of the boot loader is SHA-256. For every message shorter
    than 2^61 bytes [sha256_hex] returns, without an index out of range and
    with its padding loop ended, and what it returns is the digest FIPS
    180-4 defines, word by word in hexadecimal: the message with a one bit,
    the fewest zeros and its length in bits, compressed in blocks of 64
    bytes along the schedule of the standard. *)
Theorem sha256_follows_the_standard data : Z.of_nat (length data) < 2 ^ 61 →
  ∃ digest, sha256_hex data = Ret (concat (map hex8 (list_of digest))) ∧ SHA256 data digest.
Proof. apply sha256_is_SHA256. Qed.

Lemma sha256_follows_the_standard_witness :
  ∃ digest, lit "ba7816bf8f01cfea414140de5dae2223b00361a396177a9cb410ff61f20015ad" = concat (map hex8 (list_of digest)) ∧ SHA256 (lit "abc") digest.
Proof.
  destruct (sha256_follows_the_standard (lit "abc")) as (digest & E & H); [done|]. exists digest. split; [|done].
  rewrite sha256_of_abc in E. exact (Ret_eq _ _ E).
Defined.
