(* ===== verification/Image.v ===== *)
(** The boot medium: [xtask/src/image.rs].

    A file system is a map from paths, lists of names, to entries.  A link is
    followed where it is the last name of a path, as reading and writing do;
    the directories on the way are no links.  A write is refused where there
    is a directory or a link without end; that it fails for want of space or
    rights is not modelled, but that it is stopped in the middle is.  Git, the assembler of the init program and the clock are
    arguments, so is the printing of a time, and the order in which a
    directory is listed. *)
From Stdlib Require Import Strings.Byte.
From stdpp Require Import gmap.
From S2P Require Import Prelude Bits Text Vercmp Float Sha.
#[global] Open Scope Z_scope.

(** ** The test disk *)

Definition TEST_DISK_SECTORS : Z := 2048.
Definition SECTOR_BYTES : Z := 512.

(** [copy_from_slice] and the writes of a slice at an offset. *)
Fixpoint write_at (image : list byte) (at_ : Z) (bs : list byte) : outcome (list byte) :=
  match bs with [] => Ret image | b :: bs' => image' ← set_index image at_ b; write_at image' (at_ + 1) bs' end.

(** [generate_test_disk]: one sector, all of them. *)
Definition filler (lba : Z) : list byte :=
  map (λ i, z2b (wrapping_add 8 (lba mod 2 ^ 8) (i mod 2 ^ 8))) (seqZ 0 (SECTOR_BYTES - 8)).
Fixpoint write_sectors (n : nat) (lba : Z) (image : list byte) : outcome (list byte) :=
  match n with
  | O => Ret image
  | S n' =>
      let base := lba * SECTOR_BYTES in
      image ← write_at image base (to_le_bytes 8 lba);
      image ← write_at image (base + 8) (filler lba);
      write_sectors n' (lba + 1) image
  end.
Definition generate_test_disk : outcome (list byte) :=
  write_sectors (Z.to_nat TEST_DISK_SECTORS) 0 (replicate (Z.to_nat (TEST_DISK_SECTORS * SECTOR_BYTES)) x00).

(** ** Files *)

Abbreviation name := text.
Abbreviation path := (list text).

Section Files.
Context {Time : Type} (show_time : Time → text) (now : Time).

Inductive Entry := EFile (bytes : list byte) (modified : option Time) | EDir | ELink (to : path).
Abbreviation FS := (gmap path Entry).

(** Where a path leads, through the links it ends in. *)
Definition MAX_LINKS : nat := 40.
Fixpoint follow (fuel : nat) (fs : FS) (p : path) : option path :=
  match fs !! p with
  | Some (ELink to) => match fuel with O => None | S fuel' => follow fuel' fs to end
  | _ => Some p
  end.
(** [std::fs::metadata]. *)
Definition stat (fs : FS) (p : path) : option Entry := q ← follow MAX_LINKS fs p; fs !! q.
Definition exists_ (fs : FS) (p : path) : bool := bool_decide (stat fs p ≠ None).
Definition bytes_of (fs : FS) (p : path) : option (list byte) :=
  match stat fs p with Some (EFile b _) => Some b | _ => None end.
Definition put (fs : FS) (p : path) (b : list byte) : option FS :=
  q ← follow MAX_LINKS fs p;
  match fs !! q with Some EDir => None | _ => Some (<[q := EFile b (Some now)]> fs) end.
Definition under (p q : path) : bool := bool_decide (take (length p) q = p).
(** [remove_dir_all]. *)
Definition remove_tree (fs : FS) (p : path) : FS := filter (λ x, under p x.1 = false) fs.

(** [Path::display], [Path::file_name] and [Path::with_extension]. *)
Definition display (p : path) : text := concat (map (λ n, [x2f] ++ n) p).
Definition DOT : byte := x2e.
Fixpoint rfind_dot (s : text) : option nat :=
  match s with
  | [] => None
  | c :: s' => match rfind_dot s' with Some i => Some (S i) | None => if bool_decide (c = DOT) then Some 0%nat else None end
  end.
Definition file_stem (n : name) : name := match rfind_dot n with Some (S i) => take (S i) n | _ => n end.
Definition with_extension (n ext : name) : name := file_stem n ++ [DOT] ++ ext.

(** ** [copy_if_changed] *)

(** What it does to the files, in order. *)
Inductive Effect := Copy (dst : path) (b : list byte) | Write (p : path) (s : text) | Remove (p : path).
Definition apply (fs : FS) (e : Effect) : option FS :=
  match e with
  | Copy p b | Write p b => put fs p b
  | Remove p => match fs !! p with Some EDir => None | _ => Some (delete p fs) end
  end.
Fixpoint apply_all (es : list Effect) (fs : FS) : option FS :=
  match es with [] => Some fs | e :: es' => fs' ← apply fs e; apply_all es' fs' end.

Definition stamp_path (stamps : path) (dst : path) : path :=
  stamps ++ [with_extension (default [] (last dst)) (lit "stamp")].
Definition stamp_of (src : path) (len : Z) (modified : option Time) : option text :=
  (λ t, display src ++ [LF] ++ decimal_text len ++ [LF] ++ show_time t) <$> modified.

(** [std::fs::copy]: the destination is emptied once both are open. *)
Definition copied (fs : FS) (src dst : path) (b : list byte) : list byte :=
  if bool_decide (follow MAX_LINKS fs src = follow MAX_LINKS fs dst) then [] else b.
Definition copy_effects (fs : FS) (src dst stamps : path) : option (list Effect) :=
  match stat fs src with
  | Some (EFile b modified) =>
      let sp := stamp_path stamps dst in
      let stamp := stamp_of src (Z.of_nat (length b)) modified in
      let fresh :=
        match stamp with Some s => bool_decide (bytes_of fs sp = Some s) | None => false end &&
        bool_decide (length <$> bytes_of fs dst = Some (length b)) in
      if fresh then Some []
      else Some [Copy dst (copied fs src dst b); match stamp with Some s => Write sp s | None => Remove sp end]
  | _ => None
  end.
Definition copy_if_changed (fs : FS) (src dst stamps : path) : option FS :=
  es ← copy_effects fs src dst stamps; apply_all es fs.

(** A run that is stopped: before an effect, or with part of a file written. *)
Inductive stopped : FS → list Effect → FS → Prop :=
  | stop_before fs es : stopped fs es fs
  | stop_within fs p b es k fs' : put fs p (take k b) = Some fs' → stopped fs (Copy p b :: es) fs'
  | stop_stamp fs p s es k fs' : put fs p (take k s) = Some fs' → stopped fs (Write p s :: es) fs'
  | stop_after fs e fs1 es fs' : apply fs e = Some fs1 → stopped fs1 es fs' → stopped fs (e :: es) fs'.

(** [create_dir_all]: a directory on the way may be there, or led to. *)
Definition create_dir (fs : FS) (p : path) : option FS :=
  match fs !! p with
  | None => Some (<[p := EDir]> fs)
  | Some _ => match stat fs p with Some EDir => Some fs | _ => None end
  end.
Fixpoint create_dir_all (fs : FS) (done_ : path) (names : list name) : option FS :=
  match names with [] => Some fs | n :: names' => fs ← create_dir fs (done_ ++ [n]); create_dir_all fs (done_ ++ [n]) names' end.

(** [build_test_disk]. *)
Definition build_test_disk (fs : FS) (target_dir : path) : outcome (option (path * FS)) :=
  let disk := target_dir ++ [lit "qunix-test-disk.img"] in
  if exists_ fs disk && (Z.of_nat (default 0%nat (length <$> bytes_of fs disk)) =? TEST_DISK_SECTORS * 512) then Ret (Some (disk, fs))
  else
    match create_dir_all fs [] target_dir with
    | None => Ret None
    | Some fs => image ← generate_test_disk; Ret ((λ fs', (disk, fs')) <$> put fs disk image)
    end.

(** ** [ensure_limine] *)

Definition LIMINE_BOOTX64_SHA256 : text := lit "333f7a69379b1f47e019be215885cdc078b9edd6e9255cbe2f706d6c5ec0ef06".

(** The digest the loader is pinned to, [LIMINE_BOOTX64_SHA256] in the code,
    and the three git commands, as one: [None] if any fails. *)
Context (pin : text) (fetch_limine : FS → option FS).

Definition ensure_limine (fs : FS) (root : path) : outcome (option (path * FS)) :=
  let dir := root ++ [lit ".limine"] in
  let bootx64 := dir ++ [lit "BOOTX64.EFI"] in
  match (if exists_ fs bootx64 then Some fs
         else fetch_limine (if exists_ fs dir then remove_tree fs dir else fs)) with
  | None => Ret None
  | Some fs =>
      match bytes_of fs bootx64 with
      | None => Ret None
      | Some b => digest ← sha256_hex b; Ret (if bool_decide (digest = pin) then Some (dir, fs) else None)
      end
  end.

(** ** [prune_unexpected] *)

Definition EXPECTED : list path :=
  [[lit "EFI"]; [lit "EFI"; lit "BOOT"]; [lit "EFI"; lit "BOOT"; lit "BOOTX64.EFI"];
   [lit "boot"]; [lit "boot"; lit "limine"]; [lit "boot"; lit "limine"; lit "limine.conf"];
   [lit "boot"; lit "qunix-kernel"]; [lit "boot"; lit "init.elf"]; [lit "NvVars"]].

Context (read_dir : FS → path → list name).

Definition is_dir (fs : FS) (p : path) : bool := match fs !! p with Some EDir => true | _ => false end.

(** [walk]: [rel] is the directory below the root of the medium; what is
    walked is expected, so no path has more than four names. *)
Fixpoint walk (fuel : nat) (esp rel : path) (fs : FS) : outcome FS :=
  match fuel with
  | O => Panic
  | S fuel' =>
      (fix entries (names : list name) (fs : FS) : outcome FS :=
         match names with
         | [] => Ret fs
         | n :: names' =>
             let rel' := rel ++ [n] in
             let p := esp ++ rel' in
             let d := is_dir fs p in
             fs ← (if bool_decide (rel' ∉ EXPECTED) then Ret (if d then remove_tree fs p else delete p fs)
                   else if d then walk fuel' esp rel' fs else Ret fs);
             entries names' fs
         end) (read_dir fs (esp ++ rel)) fs
  end.
Definition prune_unexpected (fs : FS) (esp : path) : outcome (option FS) :=
  _ ← rust_assert (bool_decide (last esp = Some (lit "esp")));
  match fs !! esp with
  | None | Some (ELink _) => Ret None
  | Some _ => fs' ← walk 4 esp [] fs; Ret (Some fs')
  end.

(** ** [build_esp] *)

(** [build_init]: the path of the program and the files it leaves. *)
Context (build_init : FS → option (path * FS)).

Definition copy_all (fs : FS) (limine root kernel esp stamps : path) : option FS :=
  match copy_if_changed fs (limine ++ [lit "BOOTX64.EFI"]) (esp ++ [lit "EFI"; lit "BOOT"; lit "BOOTX64.EFI"]) stamps with
  | None => None
  | Some fs =>
      match copy_if_changed fs (root ++ [lit "limine.conf"]) (esp ++ [lit "boot"; lit "limine"; lit "limine.conf"]) stamps with
      | None => None
      | Some fs =>
          match copy_if_changed fs kernel (esp ++ [lit "boot"; lit "qunix-kernel"]) stamps with
          | None => None
          | Some fs =>
              match build_init fs with
              | None => None
              | Some (init, fs) => copy_if_changed fs init (esp ++ [lit "boot"; lit "init.elf"]) stamps
              end
          end
      end
  end.
Definition build_esp (fs : FS) (root target_dir kernel : path) : outcome (option (path * FS)) :=
  let esp := target_dir ++ [lit "esp"] in
  let stamps := target_dir ++ [lit "esp-stamps"] in
  r ← ensure_limine fs root;
  match r with
  | None => Ret None
  | Some (limine, fs) =>
      match fs ← create_dir_all fs [] (esp ++ [lit "EFI"; lit "BOOT"]);
            fs ← create_dir_all fs [] (esp ++ [lit "boot"; lit "limine"]);
            create_dir_all fs [] stamps with
      | None => Ret None
      | Some fs =>
          match copy_all fs limine root kernel esp stamps with
          | None => Ret None
          | Some fs => r ← prune_unexpected fs esp; Ret (match r with Some fs => Some (esp, fs) | None => None end)
          end
      end
  end.
End Files.

(** * What holds of it

    What the boot medium holds: [Image]. *)

(** ** The test disk *)

Lemma write_at_ok bs : ∀ image i, 0 ≤ i → i + Z.of_nat (length bs) ≤ Z.of_nat (length image) →
  ∃ image', write_at image i bs = Ret image' ∧ length image' = length image ∧
    ∀ k, image' !! k = (if decide (Z.to_nat i ≤ k < Z.to_nat i + length bs)%nat then bs !! (k - Z.to_nat i)%nat else image !! k).
Proof.
  induction bs as [|b bs IH]; intros image i Hi Hl; cbn [length] in *.
  - exists image. split; [done|]. split; [done|]. intros k. by rewrite decide_False by lia.
  - cbn [write_at]. rewrite set_index_ok by lia. cbn [mbind outcome_bind]. destruct (IH (<[Z.to_nat i:=b]> image) (i + 1)) as (image' & -> & Hl' & Hk); [lia|rewrite length_insert; lia|].
    exists image'. split; [done|]. split; [by rewrite Hl', length_insert|]. intros k. rewrite Hk. destruct (decide (k = Z.to_nat i)) as [->|Hne].
    + rewrite decide_False, decide_True by lia. rewrite Nat.sub_diag. apply list_lookup_insert_eq. lia.
    + destruct (decide (Z.to_nat i ≤ k < Z.to_nat i + S (length bs))%nat).
      * rewrite decide_True by lia. replace (k - Z.to_nat i)%nat with (S (k - Z.to_nat (i + 1))) by lia. done.
      * rewrite decide_False by lia. by apply list_lookup_insert_ne.
Qed.

Definition sector (image : list byte) (lba : Z) : list byte := take 512 (drop (Z.to_nat (lba * 512)) image).
Definition sector_bytes (lba : Z) : list byte := to_le_bytes 8 lba ++ map (λ i, z2b (lba + i)) (seqZ 0 504).

Lemma z2b_mod z : z2b (z mod 256) = z2b z.
Proof. unfold z2b. by rewrite Zmod_mod. Qed.

Lemma filler_bytes lba : filler lba = map (λ i, z2b (lba + i)) (seqZ 0 504).
Proof.
  unfold filler. change (SECTOR_BYTES - 8) with 504. apply map_ext. intros i. unfold wrapping_add. change (2 ^ 8) with 256.
  by rewrite <- Zplus_mod, z2b_mod.
Qed.
Lemma length_filler lba : length (filler lba) = 504%nat.
Proof. rewrite filler_bytes, length_map, length_seqZ. done. Qed.

(** Sectors from [lba] on are written, those before stay. *)
Lemma write_sectors_ok n : ∀ lba image, 0 ≤ lba → Z.of_nat (length image) = 512 * (lba + Z.of_nat n) →
  ∃ image', write_sectors n lba image = Ret image' ∧ length image' = length image ∧
    (∀ k, (k < Z.to_nat (lba * 512))%nat → image' !! k = image !! k) ∧
    ∀ l, lba ≤ l < lba + Z.of_nat n → ∀ k, (k < 512)%nat → image' !! (Z.to_nat (l * 512) + k)%nat = sector_bytes l !! k.
Proof.
  induction n as [|n IH]; intros lba image Hlba Hl.
  - exists image. split; [done|]. split; [done|]. split; [done|]. intros l Hl'. lia.
  - cbn [write_sectors]. change SECTOR_BYTES with 512.
    destruct (write_at_ok (to_le_bytes 8 lba) image (lba * 512)) as (i1 & -> & L1 & K1); [lia|rewrite length_to_le_bytes; lia|]. cbn [mbind outcome_bind].
    destruct (write_at_ok (filler lba) i1 (lba * 512 + 8)) as (i2 & -> & L2 & K2); [lia|rewrite length_filler; lia|]. cbn [mbind outcome_bind].
    destruct (IH (lba + 1) i2) as (i3 & -> & L3 & K3 & S3); [lia|lia|]. exists i3. split; [done|]. split; [congruence|].
    assert (∀ k, i2 !! k = if decide (Z.to_nat (lba * 512) ≤ k < Z.to_nat (lba * 512) + 512)%nat then sector_bytes lba !! (k - Z.to_nat (lba * 512))%nat else image !! k) as Hk.
    { intros k. rewrite K2, K1, length_filler, length_to_le_bytes, filler_bytes. unfold sector_bytes.
      destruct (decide (Z.to_nat (lba * 512) ≤ k < Z.to_nat (lba * 512) + 512)%nat) as [Hin|Hout].
      - destruct (decide (k < Z.to_nat (lba * 512) + 8)%nat).
        + rewrite decide_False, decide_True by lia. by rewrite lookup_app_l by (rewrite length_to_le_bytes; lia).
        + rewrite decide_True by lia. rewrite lookup_app_r by (rewrite length_to_le_bytes; lia). rewrite length_to_le_bytes. f_equal. lia.
      - by rewrite !decide_False by lia. }
    split.
    + intros k Hlt. rewrite K3 by lia. rewrite Hk. by rewrite decide_False by lia.
    + intros l Hl' k Hk512. destruct (decide (l = lba)) as [->|Hne]; [|apply S3; [lia|done]].
      rewrite K3 by lia. rewrite Hk, decide_True by lia. f_equal. lia.
Qed.

Lemma length_sector_bytes l : length (sector_bytes l) = 512%nat.
Proof. unfold sector_bytes. by rewrite length_app, length_to_le_bytes, length_map, length_seqZ. Qed.

(** Every sector of the test disk identifies itself.  Generating the image
    returns, 2048 sectors long; each begins with its own number, its other
    bytes follow from that number too, and so a read that gets the bytes of a
    sector can have read no other. *)
Theorem every_sector_identifies_itself : ∃ image, generate_test_disk = Ret image ∧ Z.of_nat (length image) = TEST_DISK_SECTORS * 512 ∧
  ∀ lba, 0 ≤ lba < TEST_DISK_SECTORS → sector image lba = sector_bytes lba ∧ from_le_bytes (take 8 (sector image lba)) = lba.
Proof.
  unfold generate_test_disk. destruct (write_sectors_ok (Z.to_nat TEST_DISK_SECTORS) 0 (replicate (Z.to_nat (TEST_DISK_SECTORS * SECTOR_BYTES)) x00)) as (image & -> & Hl & _ & Hs).
  { lia. } { rewrite length_replicate. unfold TEST_DISK_SECTORS, SECTOR_BYTES. lia. }
  rewrite length_replicate in Hl. exists image. split; [done|]. split; [rewrite Hl; unfold TEST_DISK_SECTORS, SECTOR_BYTES; lia|].
  intros lba Hlba. assert (sector image lba = sector_bytes lba) as E.
  { apply list_eq. intros k. destruct (decide (k < 512)%nat).
    - unfold sector. rewrite lookup_take_lt, lookup_drop by done. apply Hs; [lia|done].
    - unfold sector. rewrite lookup_take_ge by lia. symmetry. apply lookup_ge_None. rewrite length_sector_bytes. lia. }
  split; [done|]. rewrite E. unfold sector_bytes. rewrite take_app_length' by by rewrite length_to_le_bytes.
  apply from_to_le_bytes. unfold TEST_DISK_SECTORS in Hlba. lia.
Qed.

(** ** Stamps *)

Lemma split_at_last c (a a' b b' : text) : c ∉ b → c ∉ b' → a ++ [c] ++ b = a' ++ [c] ++ b' → a = a' ∧ b = b'.
Proof.
  intros Hb Hb' E. assert (length b = length b') as Hl.
  { assert (∀ x x' y y' : text, c ∉ y → x ++ [c] ++ y = x' ++ [c] ++ y' → (length y ≤ length y')%nat) as Hle.
    { intros x x' y y' Hy Exy. destruct (decide (length y ≤ length y')%nat) as [|Hgt]; [done|]. exfalso. apply Hy.
      assert (length x + 1 + length y = length x' + 1 + length y')%nat as Hxy by (apply (f_equal length) in Exy; rewrite !length_app in Exy; cbn in Exy; lia).
      assert ((x' ++ [c] ++ y') !! length x' = Some c) as Hc by by rewrite lookup_app_r, Nat.sub_diag.
      rewrite <- Exy, (app_assoc x), lookup_app_r in Hc by (rewrite length_app; cbn; lia). by eapply list_elem_of_lookup_2. }
    pose proof (Hle _ _ _ _ Hb E). pose proof (Hle _ _ _ _ Hb' (eq_sym E)). lia. }
  rewrite !app_assoc in E. apply app_inj_2 in E as [E ->]; [|done]. by apply app_inj_2 in E as [-> _].
Qed.

Lemma decimal_has_no_LF z : 0 ≤ z → LF ∉ decimal_text z.
Proof.
  intros Hz Hin. destruct (decimal_text_spec z Hz) as (Hd & _ & _). unfold all_digits in Hd. rewrite Forall_forall in Hd. by apply Hd in Hin.
Qed.

Section Stamps.
Context {Time : Type} (show_time : Time → text) (now : Time).
Context (Hshow : ∀ t t', show_time t = show_time t' → t = t') (Hline : ∀ t, LF ∉ show_time t).
#[local] Abbreviation FS := (gmap path (Entry (Time := Time))).

(** What a stamp says: the path of the source, its length, its time, each on
    a line. *)
Definition says (src : text) (len : nat) (t : Time) : text :=
  src ++ [LF] ++ decimal_text (Z.of_nat len) ++ [LF] ++ show_time t.

Lemma says_inj src src' n t t' : says src n t = says src' n t' → src = src' ∧ t = t'.
Proof.
  unfold says. intros E. assert ((src ++ [LF] ++ decimal_text (Z.of_nat n)) ++ [LF] ++ show_time t =
    (src' ++ [LF] ++ decimal_text (Z.of_nat n)) ++ [LF] ++ show_time t') as Ex by (rewrite <- !app_assoc; exact E).
  apply split_at_last in Ex as [Ex ->%Hshow]; [|apply Hline|apply Hline].
  apply split_at_last in Ex as [-> _]; [done|apply decimal_has_no_LF; lia..].
Qed.

Lemma stamp_says src n t : stamp_of show_time src (Z.of_nat n) (Some t) = Some (says (display src) n t).
Proof. done. Qed.

(** A path that is no link is what it says. *)
Definition plain (fs : FS) (p : path) : Prop := ∀ to, fs !! p ≠ Some (ELink to).
Lemma follow_plain (fuel : nat) (fs : FS) (p : path) : plain fs p → follow fuel fs p = Some p.
Proof. intros Hp. destruct fuel; cbn; (destruct (fs !! p) as [[| |to]|] eqn:E; [done|done| |done]); by destruct (Hp to). Qed.
Lemma stat_plain (fs : FS) (p : path) : plain fs p → stat fs p = fs !! p.
Proof. intros Hp. unfold stat. by rewrite follow_plain. Qed.
Lemma bytes_of_plain (fs : FS) (p : path) (b : list byte) : plain fs p → bytes_of fs p = Some b ↔ ∃ m, fs !! p = Some (EFile b m).
Proof.
  intros Hp. unfold bytes_of. rewrite stat_plain by done. destruct (fs !! p) as [[c m| |]|]; [|naive_solver..].
  split; [intros [= ->]; by exists m|by intros (m' & [= -> _])].
Qed.
Lemma put_plain (fs fs' : FS) (p : path) (b : list byte) : plain fs p → put now fs p b = Some fs' → fs' = <[p := EFile b (Some now)]> fs.
Proof. intros Hp. unfold put. rewrite follow_plain by done. cbn. destruct (fs !! p) as [[]|]; intros; by simplify_eq. Qed.
Lemma file_plain (fs : FS) (p : path) (b : list byte) (m : option Time) : fs !! p = Some (EFile b m) → plain fs p.
Proof. intros E to. by rewrite E. Qed.

(** [version src t] is what the source printed as [src] held when it was
    written at [t].  The stamp of a destination is truthful if, wherever it
    says the length the destination has, the destination has what it says;
    a destination is sound if besides neither is a link. *)
Context (version : text → Time → list byte).
Definition truthful (fs : FS) (dst sp : path) : Prop :=
  ∀ src t b m m', fs !! sp = Some (EFile (says src (length b) t) m) → fs !! dst = Some (EFile b m') → b = version src t.
Definition sound (fs : FS) (dst sp : path) : Prop := plain fs dst ∧ plain fs sp ∧ truthful fs dst sp.

(** What lies at a path is a file, and of the version its time says. *)
Definition sourced (fs : FS) (p : path) (b : list byte) (m : option Time) : Prop :=
  fs !! p = Some (EFile b m) ∧ ∀ t, m = Some t → b = version (display p) t.

Lemma sound_ext (fs fs' : FS) (dst sp : path) : fs' !! dst = fs !! dst → fs' !! sp = fs !! sp → sound fs dst sp → sound fs' dst sp.
Proof. unfold sound, plain, truthful. by intros -> ->. Qed.

(** Copying a file to the medium copies it.  Wherever the destination is
    sound, a run that returns leaves it with the bytes the source has,
    whether it copied or not; it stays sound; and no other path is touched. *)
Lemma copied_file (fs fs' : FS) (src dst stamps : path) (b : list byte) (m : option Time) :
  sourced fs src b m → src ≠ dst → stamp_path stamps dst ≠ dst → sound fs dst (stamp_path stamps dst) →
  copy_if_changed show_time now fs src dst stamps = Some fs' →
  (∃ m', fs' !! dst = Some (EFile b m')) ∧ sound fs' dst (stamp_path stamps dst) ∧
  ∀ p, p ≠ dst → p ≠ stamp_path stamps dst → fs' !! p = fs !! p.
Proof.
  intros [Hsrc Hv] Hne Hsp (Pd & Ps & Ht). set (sp := stamp_path stamps dst) in *. pose proof (file_plain _ _ _ _ Hsrc) as Psrc.
  unfold copy_if_changed, copy_effects. rewrite stat_plain, Hsrc by done. fold sp.
  assert (copied fs src dst b = b) as Hcp.
  { unfold copied. rewrite !follow_plain by done. rewrite bool_decide_eq_false_2; [done|congruence]. }
  rewrite Hcp. destruct m as [t|].
  - rewrite stamp_says. set (s := says _ _ t).
    assert (apply_all now [Copy dst b; Write sp s] fs = Some fs' → (∃ m', fs' !! dst = Some (EFile b m')) ∧ sound fs' dst sp ∧
      ∀ p, p ≠ dst → p ≠ sp → fs' !! p = fs !! p) as Hcopy.
    { cbn [apply_all apply]. intros (f1 & ->%put_plain & (f2 & H2 & [= ->])%bind_Some)%bind_Some; [|done].
      apply put_plain in H2 as ->; [|intros to; by rewrite lookup_insert_ne]. split; [|split; [split; [|split]|]].
      - eexists. rewrite lookup_insert_ne, lookup_insert_eq by done. done.
      - intros to. by rewrite lookup_insert_ne, lookup_insert_eq by done.
      - intros to. by rewrite lookup_insert_eq.
      - intros src' t' b' m1 m2. rewrite lookup_insert_eq, lookup_insert_ne, lookup_insert_eq by done. intros [= E1 _] [= <- _].
        apply says_inj in E1 as [<- <-]. by apply Hv.
      - intros p H1 H2. by rewrite !lookup_insert_ne. }
    cbn [andb]. case_bool_decide as E1; [|exact Hcopy]. case_bool_decide as E2; [|exact Hcopy]. intros [= <-].
    apply bytes_of_plain in E1 as [m1 E1]; [|done]. destruct (bytes_of fs dst) as [b'|] eqn:Eb; [|done]. injection E2 as El.
    apply bytes_of_plain in Eb as [m2 Eb]; [|done]. split; [|split; [done|done]]. exists m2. rewrite Eb. do 2 f_equal.
    rewrite (Hv t eq_refl). unfold s in E1. rewrite <- El in E1. by eapply Ht.
  - cbn [stamp_of fmap option_fmap option_map andb mbind option_bind apply_all apply].
    intros (f1 & ->%put_plain & (f2 & H2 & [= ->])%bind_Some)%bind_Some; [|done].
    assert (fs' = delete sp (<[dst := EFile b (Some now)]> fs)) as -> by (destruct (_ !! sp) as [[]|]; by simplify_eq).
    split; [|split; [split; [|split]|]].
    + eexists. rewrite lookup_delete_ne, lookup_insert_eq by done. done.
    + intros to. by rewrite lookup_delete_ne, lookup_insert_eq by done.
    + intros to. by rewrite lookup_delete_eq.
    + intros src' t' b' m1 m2. by rewrite lookup_delete_eq.
    + intros p Hp1 Hp2. by rewrite lookup_delete_ne, lookup_insert_ne.
Qed.

(** The stamp does not survive an interruption.  Two sources of one length,
    the medium holding the first with its stamp: a run for the second that is
    stopped after the copy and before the stamp leaves the medium with the
    second, and a later run for the first takes it for fresh. *)
Theorem interrupted_copy_is_served (fs : FS) (first second dst stamps : path) (b1 : list byte) (t1 : Time) (b2 : list byte) (m2 md ms : option Time) :
  fs !! first = Some (EFile b1 (Some t1)) → fs !! second = Some (EFile b2 m2) → length b1 = length b2 →
  first ≠ dst → second ≠ dst → stamp_path stamps dst ≠ dst → fs !! dst = Some (EFile b1 md) →
  fs !! stamp_path stamps dst = Some (EFile (says (display first) (length b1) t1) ms) →
  (∀ t, m2 = Some t → says (display second) (length b2) t ≠ says (display first) (length b1) t1) →
  let served := <[dst := EFile b2 (Some now)]> fs in
  ∃ es, copy_effects show_time fs second dst stamps = Some es ∧ stopped now fs es served ∧
    copy_if_changed show_time now served first dst stamps = Some served ∧ bytes_of served dst = Some b2.
Proof.
  intros H1 H2 Hl Hne Hne2 Hsp Hd Hs Hst served.
  pose proof (file_plain _ _ _ _ H1) as P1. pose proof (file_plain _ _ _ _ H2) as P2. pose proof (file_plain _ _ _ _ Hd) as Pd.
  pose proof (file_plain _ _ _ _ Hs) as Ps.
  assert (served !! dst = Some (EFile b2 (Some now))) as Sd by apply lookup_insert_eq.
  assert (served !! first = Some (EFile b1 (Some t1))) as S1 by (unfold served; by rewrite lookup_insert_ne).
  assert (served !! stamp_path stamps dst = Some (EFile (says (display first) (length b1) t1) ms)) as Ss by (unfold served; by rewrite lookup_insert_ne).
  assert (bytes_of served dst = Some b2) as Hnow by (apply bytes_of_plain; [by eapply file_plain|by eexists]).
  assert (copy_if_changed show_time now served first dst stamps = Some served) as Hagain.
  { unfold copy_if_changed, copy_effects. rewrite stat_plain, S1 by (by eapply file_plain). rewrite stamp_says.
    rewrite (proj2 (bytes_of_plain served (stamp_path stamps dst) (says (display first) (length b1) t1) ltac:(by eapply file_plain))) by (by eexists).
    rewrite Hnow. cbn [fmap option_fmap option_map]. by rewrite Hl, !bool_decide_eq_true_2. }
  unfold copy_effects. rewrite stat_plain, H2 by done.
  assert (copied fs second dst b2 = b2) as Hcp.
  { unfold copied. rewrite !follow_plain by done. rewrite bool_decide_eq_false_2; [done|congruence]. }
  rewrite Hcp. rewrite (proj2 (bytes_of_plain fs (stamp_path stamps dst) (says (display first) (length b1) t1) Ps)) by (by eexists).
  assert (apply now fs (Copy dst b2) = Some served) as Ha by (change (put now fs dst b2 = Some served); unfold put; rewrite follow_plain by done; cbn [mbind option_bind]; by rewrite Hd).
  destruct m2 as [t|]; [rewrite stamp_says, bool_decide_eq_false_2 by (intros [= E]; by apply (Hst t))|]; cbn [andb stamp_of fmap option_fmap option_map];
    (eexists; split; [reflexivity|]; split; [|done]; eapply stop_after; [exact Ha|apply stop_before]).
Qed.
End Stamps.

(** ** Pruning *)

Lemma under_spec p q : under p q = true ↔ ∃ r, q = p ++ r.
Proof.
  unfold under. rewrite bool_decide_eq_true. split.
  - intros E. exists (drop (length p) q). by rewrite <- E at 1; rewrite take_drop.
  - intros [r ->]. by rewrite take_app_length.
Qed.

Lemma expected_prefix rel n q : rel ++ n :: q ∈ EXPECTED → rel ++ [n] ∈ EXPECTED.
Proof.
  assert (forallb (λ e, forallb (λ k, bool_decide (take (S k) e ∈ EXPECTED)) (seq 0 (length e))) EXPECTED = true) as H by (vm_compute; reflexivity).
  intros Hin. rewrite forallb_forall in H. specialize (H (rel ++ n :: q)). rewrite <- list_elem_of_In in H. specialize (H Hin). rewrite forallb_forall in H.
  specialize (H (length rel)). rewrite <- list_elem_of_In, elem_of_seq, length_app in H. cbn [length] in H. specialize (H ltac:(lia)).
  apply bool_decide_eq_true in H. replace (rel ++ n :: q) with ((rel ++ [n]) ++ q) in H by by rewrite <- app_assoc.
  replace (S (length rel)) with (length (rel ++ [n])) in H by (rewrite length_app; cbn; lia). by rewrite take_app_length in H.
Qed.

Lemma expected_short rel : rel ∈ EXPECTED → (length rel ≤ 3)%nat.
Proof.
  assert (forallb (λ e, (length e <=? 3)%nat) EXPECTED = true) as H by (vm_compute; reflexivity).
  rewrite forallb_forall in H. intros Hin. specialize (H rel). rewrite <- list_elem_of_In in H. by apply Nat.leb_le, H.
Qed.

Section Prune.
Context {Time : Type} (read_dir : gmap path (Entry (Time := Time)) → path → list name) (esp : path).
#[local] Abbreviation FS := (gmap path (Entry (Time := Time))).
Context (Hdir : ∀ (fs : FS) p n, n ∈ read_dir fs p ↔ fs !! (p ++ [n]) ≠ None).

(** What is below [rel] on the medium and not expected. *)
Definition stale (rel p : path) : Prop := ∃ q, q ≠ [] ∧ p = esp ++ rel ++ q ∧ rel ++ q ∉ EXPECTED.
Definition stale_at (rel : path) (n : name) (p : path) : Prop := ∃ q, p = esp ++ rel ++ n :: q ∧ rel ++ n :: q ∉ EXPECTED.

(** Whatever has something below it is a directory. *)
Definition wf (fs : FS) : Prop := ∀ rel n, fs !! (esp ++ rel ++ [n]) ≠ None → fs !! (esp ++ rel) = Some EDir.

Lemma below_file fs rel q : wf fs → is_dir fs (esp ++ rel) = false → q ≠ [] → fs !! (esp ++ rel ++ q) = None.
Proof.
  intros Hwf Hd. induction q as [|n q IH] using rev_ind; [done|]. intros _. destruct (fs !! (esp ++ rel ++ q ++ [n])) eqn:E; [|done]. exfalso.
  assert (fs !! (esp ++ rel ++ q) = Some EDir) as Eq by (apply (Hwf (rel ++ q) n); rewrite <- app_assoc; congruence).
  destruct (decide (q = [])) as [->|Hne].
  - rewrite app_nil_r in Eq. unfold is_dir in Hd. by rewrite Eq in Hd.
  - by rewrite (IH Hne) in Eq.
Qed.

Lemma stale_at_dec rel n p : {stale_at rel n p} + {¬ stale_at rel n p}.
Proof.
  destruct (under (esp ++ rel ++ [n]) p) eqn:E.
  - destruct (decide (rel ++ n :: drop (length (esp ++ rel ++ [n])) p ∈ EXPECTED)) as [Hin|Hout].
    + right. intros (q & -> & Hq). apply Hq. replace (esp ++ rel ++ n :: q) with ((esp ++ rel ++ [n]) ++ q) in Hin by by rewrite <- !app_assoc.
      by rewrite drop_app_length in Hin.
    + left. eexists. split; [|exact Hout]. unfold under in E. apply bool_decide_eq_true in E.
      rewrite <- (take_drop (length (esp ++ rel ++ [n])) p) at 1. rewrite E. by rewrite <- !app_assoc.
  - right. intros (q & -> & _). assert (under (esp ++ rel ++ [n]) (esp ++ rel ++ n :: q) = true) as E'; [|congruence].
    apply under_spec. exists q. by rewrite <- !app_assoc.
Qed.

Lemma stale_at_below rel n p m : stale_at rel n p → stale_at rel n (p ++ [m]).
Proof.
  intros (q & -> & Hq). exists (q ++ [m]). split; [by rewrite <- !app_assoc|]. intros Hin. apply Hq.
  destruct q as [|x q _] using rev_ind; [by apply (expected_prefix rel n [m])|].
  pose proof (expected_prefix (rel ++ n :: q) x [m]) as H. rewrite <- !app_assoc in H. cbn [app] in H. apply H.
  by rewrite <- app_assoc in Hin.
Qed.

(** Only what is [bad] goes; and where the tree is one, all of it. *)
Record prunes (bad : path → Prop) (fs fs' : FS) : Prop := {
  pr_kept : ∀ p, ¬ bad p → fs' !! p = fs !! p;
  pr_less : ∀ p, fs' !! p = fs !! p ∨ fs' !! p = None;
  pr_gone : wf fs → (∀ p, bad p → fs' !! p = None) ∧ wf fs'
}.

Lemma prunes_wf rel n fs fs' : (∀ p, ¬ stale_at rel n p → fs' !! p = fs !! p) → (∀ p, fs' !! p = fs !! p ∨ fs' !! p = None) →
  (∀ p, stale_at rel n p → fs' !! p = None) → wf fs → wf fs'.
Proof.
  intros Hk Hs Hb Hwf r m Hm. destruct (stale_at_dec rel n (esp ++ r)) as [Hbad|Hgood].
  - exfalso. apply Hm. apply Hb. rewrite app_assoc. by apply stale_at_below.
  - rewrite Hk by done. apply (Hwf r m). destruct (Hs (esp ++ r ++ [m])) as [E|E]; congruence.
Qed.

Lemma prunes_trans b1 b2 fs fs1 fs2 : prunes b1 fs fs1 → prunes b2 fs1 fs2 → prunes (λ p, b1 p ∨ b2 p) fs fs2.
Proof.
  intros [K1 L1 G1] [K2 L2 G2]. split.
  - intros p Hp. rewrite K2, K1; tauto.
  - intros p. destruct (L2 p) as [->|]; [apply L1|by right].
  - intros Hwf. destruct (G1 Hwf) as [B1 W1]. destruct (G2 W1) as [B2 W2]. split; [|done]. intros p [Hp|Hp]; [|by apply B2].
    destruct (L2 p) as [->|]; [by apply B1|done].
Qed.

Lemma prunes_iff b1 b2 fs fs' : (∀ p, b1 p ↔ b2 p) → prunes b1 fs fs' → prunes b2 fs fs'.
Proof.
  intros H [K L G]. split; [intros p Hp; apply K; by rewrite H|done|]. intros Hwf. destruct (G Hwf) as [B W]. split; [|done]. intros p Hp. by apply B, H.
Qed.

(** What a step over one entry of a directory does. *)
Lemma entry_pruned rel n fs : (rel ++ [n] ∉ EXPECTED ∨ is_dir fs (esp ++ rel ++ [n]) = false) →
  prunes (stale_at rel n) fs
    (if bool_decide (rel ++ [n] ∉ EXPECTED) then
       if is_dir fs (esp ++ rel ++ [n]) then remove_tree fs (esp ++ rel ++ [n]) else delete (esp ++ rel ++ [n]) fs
     else fs).
Proof.
  intros Hcase. assert (∀ q, rel ++ [n] ∉ EXPECTED → rel ++ n :: q ∉ EXPECTED) as Hpre by (intros q Hn Hin; by apply Hn, (expected_prefix rel n q)).
  assert (∀ fs', (∀ p, ¬ stale_at rel n p → fs' !! p = fs !! p) → (∀ p, fs' !! p = fs !! p ∨ fs' !! p = None) →
    (wf fs → ∀ p, stale_at rel n p → fs' !! p = None) → prunes (stale_at rel n) fs fs') as Hmk.
  { intros fs' Hk Hl Hg. split; [done|done|]. intros Hwf. split; [by apply Hg|]. eapply prunes_wf; [exact Hk|exact Hl|by apply Hg|done]. }
  case_bool_decide as Hexp; [destruct (is_dir fs (esp ++ rel ++ [n])) eqn:Ed|destruct Hcase as [|Ed]; [done|]]; apply Hmk; clear Hmk.
  - intros p Hp. unfold remove_tree. destruct (fs !! p) as [e|] eqn:E; [|by apply map_lookup_filter_None; left].
    apply map_lookup_filter_Some. split; [done|]. cbn. destruct (under (esp ++ rel ++ [n]) p) eqn:Eu; [|done]. exfalso. apply Hp.
    apply under_spec in Eu as [q ->]. exists q. rewrite <- !app_assoc. split; [done|]. by apply Hpre.
  - intros p. unfold remove_tree. destruct (filter _ fs !! p) eqn:E; [left; apply map_lookup_filter_Some in E as [-> _]; done|by right].
  - intros _ p (q & -> & _). unfold remove_tree. apply map_lookup_filter_None. right. intros e _. cbn. replace (esp ++ rel ++ n :: q) with ((esp ++ rel ++ [n]) ++ q) by by rewrite <- !app_assoc.
    intros Hf. assert (under (esp ++ rel ++ [n]) ((esp ++ rel ++ [n]) ++ q) = true) as Hu by (apply under_spec; by exists q). congruence.
  - intros p Hp. apply lookup_delete_ne. intros <-. apply Hp. exists []. split; [done|]. by apply Hpre.
  - intros p. destruct (decide (p = esp ++ rel ++ [n])) as [->|Hne]; [right; apply lookup_delete_eq|left; by apply lookup_delete_ne].
  - intros Hwf p (q & -> & _). destruct q as [|m q]; [apply lookup_delete_eq|]. rewrite lookup_delete_ne.
    + replace (esp ++ rel ++ n :: m :: q) with (esp ++ (rel ++ [n]) ++ m :: q) by by rewrite <- !app_assoc. by apply below_file.
    + intros E. apply app_inv_head, app_inv_head in E. done.
  - done.
  - intros p. by left.
  - intros Hwf p (q & -> & Hq). destruct q as [|m q]; [done|].
    replace (esp ++ rel ++ n :: m :: q) with (esp ++ (rel ++ [n]) ++ m :: q) by by rewrite <- !app_assoc. by apply below_file.
Qed.

(** The loop of [walk], with what it does to a directory that is expected. *)
Definition entries_loop (inner : path → FS → outcome FS) (rel : path) :=
  fix entries (names : list name) (fs : FS) : outcome FS :=
    match names with
    | [] => Ret fs
    | n :: names' =>
        fs ← (if bool_decide (rel ++ [n] ∉ EXPECTED) then
                Ret (if is_dir fs (esp ++ rel ++ [n]) then remove_tree fs (esp ++ rel ++ [n]) else delete (esp ++ rel ++ [n]) fs)
              else if is_dir fs (esp ++ rel ++ [n]) then inner (rel ++ [n]) fs else Ret fs);
        entries names' fs
    end.

Lemma entries_pruned inner rel names : (∀ n fs, rel ++ [n] ∈ EXPECTED → ∃ fs', inner (rel ++ [n]) fs = Ret fs' ∧ prunes (stale (rel ++ [n])) fs fs') →
  ∀ fs, ∃ fs', entries_loop inner rel names fs = Ret fs' ∧ prunes (λ p, ∃ n, n ∈ names ∧ stale_at rel n p) fs fs'.
Proof.
  intros Hinner. induction names as [|n names IH]; intros fs.
  - exists fs. split; [done|]. split; [done|by left|]. intros Hwf. split; [|done]. intros p (n & Hn & _). by apply elem_of_nil in Hn.
  - assert (∃ fs1, (if bool_decide (rel ++ [n] ∉ EXPECTED) then
        Ret (if is_dir fs (esp ++ rel ++ [n]) then remove_tree fs (esp ++ rel ++ [n]) else delete (esp ++ rel ++ [n]) fs)
        else if is_dir fs (esp ++ rel ++ [n]) then inner (rel ++ [n]) fs else Ret fs) = Ret fs1 ∧ prunes (stale_at rel n) fs fs1) as (fs1 & E1 & H1).
    { pose proof (entry_pruned rel n fs) as He. destruct (bool_decide (rel ++ [n] ∉ EXPECTED)) eqn:Ex.
      - apply bool_decide_eq_true in Ex. eexists. split; [reflexivity|]. apply He. by left.
      - apply bool_decide_eq_false in Ex. destruct (is_dir fs (esp ++ rel ++ [n])) eqn:Ed; [|eexists; split; [reflexivity|]; apply He; by right].
        destruct (Hinner n fs) as (fs1 & E & H); [by destruct (decide (rel ++ [n] ∈ EXPECTED))|]. exists fs1. split; [done|]. eapply prunes_iff; [|exact H]. intros p. split.
        + intros (q & Hq & -> & Hout). exists q. by rewrite <- !app_assoc in *.
        + intros (q & -> & Hout). exists q. rewrite <- !app_assoc. split; [|done]. intros ->. by apply Ex. }
    cbn [entries_loop]. destruct (IH fs1) as (fs2 & E2 & H2). exists fs2. split; [by rewrite E1|].
    eapply prunes_iff; [|eapply prunes_trans; [exact H1|exact H2]]. intros p. cbn beta. split.
    + intros [Hp|(m & Hm & Hp)]; [exists n; split; [by left|done]|exists m; split; [by right|done]].
    + intros (m & [->|Hm]%elem_of_cons & Hp); [by left|right; by exists m].
Qed.

Lemma walk_prunes fuel : ∀ rel fs, (length rel + fuel = 4)%nat → (length rel ≤ 3)%nat →
  ∃ fs', walk read_dir fuel esp rel fs = Ret fs' ∧ prunes (stale rel) fs fs'.
Proof.
  induction fuel as [|fuel IH]; intros rel fs Hf Hl; [lia|].
  destruct (entries_pruned (λ r f, walk read_dir fuel esp r f) rel (read_dir fs (esp ++ rel))) with (fs := fs) as (fs' & E & [K L G]).
  { intros n f Hin. apply expected_short in Hin as Hs. rewrite length_app in Hs. cbn [length] in Hs. apply IH; rewrite length_app; cbn [length]; lia. }
  exists fs'. split; [exact E|]. split.
  - intros p Hp. apply K. intros (n & _ & q & -> & Hq). apply Hp. by exists (n :: q).
  - exact L.
  - intros Hwf. destruct (G Hwf) as [B W]. split; [|done]. intros p (q & Hq & -> & Hout). destruct q as [|n q]; [done|].
    destruct (fs !! (esp ++ rel ++ n :: q)) eqn:Ep; [|destruct (L (esp ++ rel ++ n :: q)); congruence].
    apply B. exists n. split; [|by exists q]. apply Hdir. rewrite <- app_assoc. destruct q as [|m q]; [congruence|]. intros Hnone.
    assert (is_dir fs (esp ++ rel ++ [n]) = false) as Hd by (unfold is_dir; by rewrite Hnone).
    pose proof (below_file fs (rel ++ [n]) (m :: q) Hwf Hd ltac:(done)) as Hb. rewrite <- app_assoc in Hb. cbn [app] in Hb. congruence.
Qed.

(** Pruning leaves what is expected and nothing else.  On a directory named
    [esp] that is no link, whatever it holds and in whatever order it is
    listed, [prune_unexpected] returns; every file outside of it and every
    expected file in it is as it was; and in a tree nothing else is left
    below it. *)
Theorem prune_leaves_the_expected (fs : FS) e : last esp = Some (lit "esp") → fs !! esp = Some e → (∀ to, e ≠ ELink to) →
  ∃ fs', prune_unexpected read_dir fs esp = Ret (Some fs') ∧
    (∀ p, under esp p = false → fs' !! p = fs !! p) ∧
    (∀ rel, rel ∈ EXPECTED → fs' !! (esp ++ rel) = fs !! (esp ++ rel)) ∧
    (wf fs → ∀ rel, rel ≠ [] → fs' !! (esp ++ rel) ≠ None → rel ∈ EXPECTED).
Proof.
  intros Hlast He Hlink. unfold prune_unexpected. rewrite bool_decide_eq_true_2 by done. cbn [rust_assert mbind outcome_bind]. rewrite He.
  destruct (walk_prunes 4 [] fs) as (fs' & E & [K L G]); [done|cbn; lia|]. exists fs'. split; [destruct e as [| |to]; [by rewrite E|by rewrite E|by destruct (Hlink to)]|]. split; [|split].
  - intros p Hp. apply K. intros (q & _ & -> & _). assert (under esp (esp ++ q) = true) as Hu by (apply under_spec; by exists q).
    cbn [app] in Hp. congruence.
  - intros rel Hin. apply K. intros (q & _ & Eq & Hout). apply app_inv_head in Eq. by subst.
  - intros Hwf rel Hne Hn. destruct (G Hwf) as [B _]. destruct (decide (rel ∈ EXPECTED)) as [|Hout]; [done|]. exfalso. apply Hn, B. by exists rel.
Qed.
End Prune.

(** ** The boot loader *)

(** The digest of a file that passes. *)
Definition pinned (pin : text) (b : list byte) : Prop := ∃ digest, SHA256 b digest ∧ concat (map hex8 (list_of digest)) = pin.

Section Esp.
Context {Time : Type} (show_time : Time → text).
#[local] Abbreviation FS := (gmap path (Entry (Time := Time))).
Context (Hshow : ∀ t t', show_time t = show_time t' → t = t') (Hline : ∀ t, LF ∉ show_time t).
Context (version : text → Time → list byte) (pin : text) (fetch_limine : FS → option FS) (read_dir : FS → path → list name) (build_init : FS → option (path * FS)).
Context (Hdir : ∀ (fs : FS) p n, n ∈ read_dir fs p ↔ fs !! (p ++ [n]) ≠ None).
Context (root target : path).

Definition limine_dir : path := root ++ [lit ".limine"].
Definition loader_from : path := limine_dir ++ [lit "BOOTX64.EFI"].
Definition config_from : path := root ++ [lit "limine.conf"].
Definition esp_dir : path := target ++ [lit "esp"].
Definition stamp_dir : path := target ++ [lit "esp-stamps"].
Definition loader_on : path := esp_dir ++ [lit "EFI"; lit "BOOT"; lit "BOOTX64.EFI"].
Definition config_on : path := esp_dir ++ [lit "boot"; lit "limine"; lit "limine.conf"].
Definition kernel_on : path := esp_dir ++ [lit "boot"; lit "qunix-kernel"].
Definition init_on : path := esp_dir ++ [lit "boot"; lit "init.elf"].

(** The four files of the medium, each with its stamp. *)
Definition medium : list (path * path) :=
  [(loader_on, stamp_dir ++ [lit "BOOTX64.stamp"]); (config_on, stamp_dir ++ [lit "limine.stamp"]);
   (kernel_on, stamp_dir ++ [lit "qunix-kernel.stamp"]); (init_on, stamp_dir ++ [lit "init.stamp"])].
Definition medium_paths : list path := medium.*1 ++ medium.*2.

(** A loader that can be hashed: a file, of the version its time says. *)
Definition loader_file (en : Entry (Time := Time)) : Prop :=
  ∃ b m, en = EFile b m ∧ Z.of_nat (length b) < 2 ^ 61 ∧ ∀ t, m = Some t → b = version (display loader_from) t.

(** Git writes in its checkout, the assembler in its own directory; the
    checkout and the build directory are apart. *)
Record places : Prop := {
  pl_fetch : ∀ fs fs' p, fetch_limine fs = Some fs' → under limine_dir p = false → fs' !! p = fs !! p;
  pl_fetched : ∀ fs fs' en, fetch_limine fs = Some fs' → fs' !! loader_from = Some en → loader_file en;
  pl_init : ∀ fs init fs' p, build_init fs = Some (init, fs') → under (target ++ [lit "userland"]) p = false → fs' !! p = fs !! p;
  pl_built : ∀ fs init fs', build_init fs = Some (init, fs') → under (target ++ [lit "userland"]) init = true ∧ ∃ b m, sourced version fs' init b m;
  pl_apart : ∀ q, under limine_dir (target ++ q) = false;
  pl_sources : under target loader_from = false ∧ under target config_from = false
}.

(** What a build is given: a kernel that lies in neither the checkout nor the
    medium, and sources that are files of the version their times say. *)
Record inputs (fs : FS) (kernel : path) (kb : list byte) (km : option Time) : Prop := {
  in_kernel : sourced version fs kernel kb km;
  in_apart : under limine_dir kernel = false ∧ kernel ∉ medium_paths;
  in_config : ∃ b m, sourced version fs config_from b m;
  in_loader : ∀ en, fs !! loader_from = Some en → loader_file en
}.

Definition all_sound (fs : FS) : Prop := ∀ d sp, (d, sp) ∈ medium → sound show_time version fs d sp.
Definition has (fs : FS) (p : path) (b : list byte) : Prop := ∃ m, fs !! p = Some (EFile b m).

(** *** Where things are *)

Lemma medium_cases (P : path → path → Prop) :
  P loader_on (stamp_dir ++ [lit "BOOTX64.stamp"]) → P config_on (stamp_dir ++ [lit "limine.stamp"]) →
  P kernel_on (stamp_dir ++ [lit "qunix-kernel.stamp"]) → P init_on (stamp_dir ++ [lit "init.stamp"]) → ∀ d sp, (d, sp) ∈ medium → P d sp.
Proof.
  intros H1 H2 H3 H4 d sp. unfold medium. rewrite !elem_of_cons, elem_of_nil. intros [E|[E|[E|[E|[]]]]]; by injection E as -> ->.
Qed.

Lemma on_medium d sp : (d, sp) ∈ medium → ∃ x y, d = target ++ lit "esp" :: x ∧ sp = target ++ lit "esp-stamps" :: y ∧ x ∈ EXPECTED ∧ stamp_path stamp_dir d = sp.
Proof.
  revert d sp. apply medium_cases; unfold loader_on, config_on, kernel_on, init_on, esp_dir, stamp_dir; rewrite <- !app_assoc;
    (eexists _, _; split; [reflexivity|]; split; [reflexivity|]; split; [by apply (bool_decide_unpack _)|]);
    unfold stamp_path; rewrite last_app, <- app_assoc; reflexivity.
Qed.

Lemma medium_apart d sp d' sp' : (d, sp) ∈ medium → (d', sp') ∈ medium → (d', sp') = (d, sp) ∨ (d' ≠ d ∧ d' ≠ sp ∧ sp' ≠ d ∧ sp' ≠ sp).
Proof.
  assert (∀ x y : path, bool_decide (x = y) = false → target ++ x ≠ target ++ y) as Hne.
  { intros x y Hb%bool_decide_eq_false E. by apply app_inv_head in E. }
  intros Hd Hd'. revert d' sp' Hd'. revert d sp Hd.
  apply (medium_cases (λ d sp, ∀ d' sp', (d', sp') ∈ medium → (d', sp') = (d, sp) ∨ (d' ≠ d ∧ d' ≠ sp ∧ sp' ≠ d ∧ sp' ≠ sp))); apply medium_cases;
    unfold loader_on, config_on, kernel_on, init_on, esp_dir, stamp_dir; rewrite <- !app_assoc;
    first [left; reflexivity|right; repeat split; apply Hne; vm_compute; reflexivity].
Qed.

Lemma medium_under p : p ∈ medium_paths → ∃ q, p = target ++ q.
Proof.
  unfold medium_paths. rewrite elem_of_app, !list_elem_of_fmap. intros [([d sp] & -> & Hd)|([d sp] & -> & Hd)];
    apply on_medium in Hd as (x & y & -> & -> & _); by eexists.
Qed.
Lemma in_medium d sp : (d, sp) ∈ medium → d ∈ medium_paths ∧ sp ∈ medium_paths.
Proof. intros H. unfold medium_paths. rewrite !elem_of_app, !list_elem_of_fmap. split; [left|right]; by exists (d, sp). Qed.

Lemma outside_medium p : under target p = false → p ∉ medium_paths.
Proof. intros Hu [q ->]%medium_under. assert (under target (target ++ q) = true) by (apply under_spec; by exists q). congruence. Qed.

Lemma medium_not_userland p : p ∈ medium_paths → under (target ++ [lit "userland"]) p = false.
Proof.
  unfold medium_paths. rewrite elem_of_app, !list_elem_of_fmap. intros H.
  assert (∃ n q, p = target ++ n :: q ∧ n ≠ lit "userland") as (n & q & -> & Hn).
  { destruct H as [([d sp] & -> & Hd)|([d sp] & -> & Hd)]; apply on_medium in Hd as (x & y & -> & -> & _); by eexists _, _. }
  destruct (under _ _) eqn:E; [|done]. apply under_spec in E as [r E]. rewrite <- app_assoc in E. apply app_inv_head in E. by injection E as -> _.
Qed.

Lemma config_apart : under limine_dir config_from = false.
Proof.
  destruct (under _ _) eqn:E; [|done]. apply under_spec in E as [r E]. unfold limine_dir, config_from in E. rewrite <- app_assoc in E.
  apply app_inv_head in E. by injection E.
Qed.

(** *** The steps of [build_esp] *)

(** Changes that leave the files of the medium sound. *)
Lemma all_sound_ext (fs fs' : FS) : (∀ p, p ∈ medium_paths → fs' !! p = fs !! p) → all_sound fs → all_sound fs'.
Proof. intros H Hs d sp Hd. destruct (in_medium _ _ Hd). eapply sound_ext; [..|by apply Hs]; by apply H. Qed.

Lemma create_dir_all_keeps (names : list text) : ∀ (fs : FS) (d : path) (fs' : FS), create_dir_all fs d names = Some fs' →
  ∀ p, fs' !! p = fs !! p ∨ fs !! p = None ∧ fs' !! p = Some EDir.
Proof.
  induction names as [|n names IH]; intros fs d fs'; cbn [create_dir_all]; [intros [= <-]; by left|]. intros (fs1 & H1 & H)%bind_Some p.
  assert (fs1 !! p = fs !! p ∨ fs !! p = None ∧ fs1 !! p = Some EDir) as Hp.
  { unfold create_dir in H1. destruct (fs !! (d ++ [n])) eqn:E; [destruct (stat _ _) as [[]|]; try done; injection H1 as <-; by left|].
    injection H1 as <-. destruct (decide (p = d ++ [n])) as [->|Hne]; [right; split; [done|apply lookup_insert_eq]|left; by apply lookup_insert_ne]. }
  destruct (IH _ _ _ H p) as [->|[E1 E2]]; [done|]. destruct Hp as [Hp|[_ Hp]]; [right; split; [congruence|done]|congruence].
Qed.
Lemma all_sound_dirs (fs fs' : FS) : (∀ p, fs' !! p = fs !! p ∨ fs !! p = None ∧ fs' !! p = Some EDir) → all_sound fs → all_sound fs'.
Proof.
  intros H Hs d sp (Pd & Ps & Ht)%Hs. split; [|split].
  - intros to. destruct (H d) as [->|[_ ->]]; [apply Pd|done].
  - intros to. destruct (H sp) as [->|[_ ->]]; [apply Ps|done].
  - intros src t b m m'. destruct (H sp) as [->|[_ ->]], (H d) as [->|[_ ->]]; try done. apply Ht.
Qed.

(** After [ensure_limine]: the loader is the pinned one, and everything
    outside its checkout is as it was. *)
Lemma ensured (fs : FS) : places → (∀ en, fs !! loader_from = Some en → loader_file en) → ∃ r, ensure_limine pin fetch_limine fs root = Ret r ∧
  ∀ dir fs1, r = Some (dir, fs1) → dir = limine_dir ∧ (∀ p, under limine_dir p = false → fs1 !! p = fs !! p) ∧
    ∃ b m, sourced version fs1 loader_from b m ∧ pinned pin b.
Proof.
  intros Hp Hok. unfold ensure_limine. fold limine_dir. fold loader_from.
  destruct (if exists_ fs loader_from then Some fs else _) as [fs1|] eqn:E1; [|by exists None].
  assert ((∀ en, fs1 !! loader_from = Some en → loader_file en) ∧ ∀ p, under limine_dir p = false → fs1 !! p = fs !! p) as [Hok1 Hsame].
  { destruct (exists_ fs loader_from); [by injection E1 as <-|]. split; [intros en; by apply (pl_fetched Hp _ _ _ E1)|].
    intros p Hu. rewrite (pl_fetch Hp _ _ _ E1 Hu). destruct (exists_ fs limine_dir); [|done].
    unfold remove_tree. destruct (fs !! p) as [e|] eqn:Ee; [apply map_lookup_filter_Some; done|apply map_lookup_filter_None; by left]. }
  destruct (bytes_of fs1 loader_from) as [b|] eqn:Eb; [|by exists None].
  assert (∃ m, fs1 !! loader_from = Some (EFile b m) ∧ Z.of_nat (length b) < 2 ^ 61 ∧ ∀ t, m = Some t → b = version (display loader_from) t) as (m & Hm & Hlen & Hv).
  { destruct (fs1 !! loader_from) as [en|] eqn:Ee.
    - destruct (Hok1 en eq_refl) as (b' & m & -> & Hl & Hv). apply bytes_of_plain in Eb as [m' Eb]; [|by eapply file_plain].
      rewrite Ee in Eb. injection Eb as -> ->. by exists m'.
    - unfold bytes_of in Eb. rewrite stat_plain in Eb by (intros to; by rewrite Ee). by rewrite Ee in Eb. }
  destruct (sha256_is_SHA256 b Hlen) as (g & -> & Hg). cbn [mbind outcome_bind]. eexists. split; [reflexivity|].
  intros dir fs2. case_bool_decide as Ed; [|done]. intros [= <- <-]. split; [done|]. split; [done|]. exists b, m. split; [done|]. by exists g.
Qed.

(** One copy to the medium. *)
Lemma copy_step (now : Time) (fs fs' : FS) (src d sp : path) (b : list byte) (m : option Time) : (d, sp) ∈ medium → sourced version fs src b m → src ∉ medium_paths → all_sound fs →
  copy_if_changed show_time now fs src d stamp_dir = Some fs' → has fs' d b ∧ all_sound fs' ∧ ∀ p, p ≠ d → p ≠ sp → fs' !! p = fs !! p.
Proof.
  intros Hd Hsrc Hn Hs E. destruct (on_medium _ _ Hd) as (x & y & Ed & Esp & _ & Est). destruct (in_medium _ _ Hd) as [Md _].
  destruct (copied_file show_time now Hshow Hline version fs fs' src d stamp_dir b m Hsrc) as (Hb & Hsd & Hf); try done.
  - by intros ->.
  - rewrite Est, Ed, Esp. intros E'%app_inv_head. by injection E'.
  - rewrite Est. by apply Hs.
  - rewrite Est in Hsd, Hf. split; [exact Hb|]. split; [|exact Hf]. intros d' sp' Hd'.
    destruct (medium_apart _ _ _ _ Hd Hd') as [[= -> ->]|(N1 & N2 & N3 & N4)]; [exact Hsd|]. eapply sound_ext; [..|by apply Hs]; by apply Hf.
Qed.

Lemma kept_has (fs fs' : FS) (p : path) (b : list byte) : fs' !! p = fs !! p → has fs p b → has fs' p b.
Proof. unfold has. by intros ->. Qed.
Lemma kept_sourced (fs fs' : FS) (p : path) (b : list byte) (m : option Time) : fs' !! p = fs !! p → sourced version fs p b m → sourced version fs' p b m.
Proof. unfold sourced. by intros ->. Qed.

Lemma copied_all (now : Time) (fs fs' : FS) (kernel : path) (lb : list byte) (lm : option Time) (kb : list byte) (km : option Time) (cb : list byte) (cm : option Time) : places → all_sound fs → sourced version fs loader_from lb lm →
  sourced version fs kernel kb km → kernel ∉ medium_paths → sourced version fs config_from cb cm →
  copy_all show_time now build_init fs limine_dir root kernel esp_dir stamp_dir = Some fs' →
  all_sound fs' ∧ has fs' loader_on lb ∧ has fs' kernel_on kb ∧ has fs' config_on cb ∧
  ∃ f init f' ib, build_init f = Some (init, f') ∧ has f' init ib ∧ has fs' init_on ib.
Proof.
  intros Hp S0 Hl Hk Kn Hcf E. destruct (pl_sources Hp) as [Lo Co]. apply outside_medium in Lo, Co.
  assert ((loader_on, stamp_dir ++ [lit "BOOTX64.stamp"]) ∈ medium) as M1 by (unfold medium; set_solver).
  assert ((config_on, stamp_dir ++ [lit "limine.stamp"]) ∈ medium) as M2 by (unfold medium; set_solver).
  assert ((kernel_on, stamp_dir ++ [lit "qunix-kernel.stamp"]) ∈ medium) as M3 by (unfold medium; set_solver).
  assert ((init_on, stamp_dir ++ [lit "init.stamp"]) ∈ medium) as M4 by (unfold medium; set_solver).
  assert (∀ d sp p, (d, sp) ∈ medium → p ∉ medium_paths → p ≠ d ∧ p ≠ sp) as Out by (intros d sp p [? ?]%in_medium Hn; split; by intros ->).
  assert (∀ d sp d' sp', (d, sp) ∈ medium → (d', sp') ∈ medium → d' ≠ d → d' ≠ d ∧ d' ≠ sp) as Oth.
  { intros d sp d' sp' Hd Hd' Hne. destruct (medium_apart _ _ _ _ Hd Hd') as [[= -> ->]|(? & ? & _)]; done. }
  assert (∀ x y : path, bool_decide (x = y) = false → esp_dir ++ x ≠ esp_dir ++ y) as Hne.
  { intros x y Hb%bool_decide_eq_false Ex. by apply app_inv_head in Ex. }
  unfold copy_all in E. fold loader_from config_from loader_on config_on kernel_on init_on in E.
  destruct (copy_if_changed _ _ _ loader_from _ _) as [fs1|] eqn:E1; [|done].
  destruct (copy_step now _ _ _ _ _ _ _ M1 Hl Lo S0 E1) as (B1 & S1 & F1).
  destruct (copy_if_changed _ _ _ config_from _ _) as [fs2|] eqn:E2; [|done].
  destruct (Out _ _ _ M1 Co).
  destruct (copy_step now _ _ _ _ _ cb cm M2 (kept_sourced fs fs1 _ _ _ ltac:(by rewrite F1) Hcf) Co S1 E2) as (B2 & S2 & F2).
  destruct (copy_if_changed _ _ _ kernel _ _) as [fs3|] eqn:E3; [|done]. destruct (Out _ _ _ M1 Kn), (Out _ _ _ M2 Kn).
  destruct (copy_step now _ _ _ _ _ kb km M3 (kept_sourced fs fs2 _ _ _ ltac:(by rewrite F2, F1) Hk) Kn S2 E3) as (B3 & S3 & F3).
  destruct (build_init fs3) as [[init fs4]|] eqn:E4; [|done]. destruct (pl_built Hp _ _ _ E4) as (Hu & ib & im & Hi).
  assert (∀ p, p ∈ medium_paths → fs4 !! p = fs3 !! p) as F4 by (intros p Hpm; apply (pl_init Hp _ _ _ _ E4); by apply medium_not_userland).
  assert (init ∉ medium_paths) as In by (intros Him; apply medium_not_userland in Him; congruence).
  destruct (copy_step now _ _ _ _ _ ib im M4 Hi In (all_sound_ext _ _ F4 S3) E) as (B5 & S5 & F5).
  split; [exact S5|].
  assert (∀ d sp, (d, sp) ∈ medium → d ≠ init_on → ∀ b, has fs3 d b → has fs' d b) as Hend.
  { intros d sp Hd Hdi b. destruct (Oth _ _ _ _ M4 Hd Hdi). apply kept_has. rewrite F5, F4 by (done || by apply (in_medium _ _ Hd)). done. }
  assert (∀ d sp, (d, sp) ∈ medium → d ≠ kernel_on → ∀ b, has fs2 d b → has fs3 d b) as Hmid.
  { intros d sp Hd Hdi b. destruct (Oth _ _ _ _ M3 Hd Hdi). apply kept_has. by rewrite F3. }
  assert (loader_on ≠ init_on ∧ loader_on ≠ kernel_on ∧ config_on ≠ init_on ∧ config_on ≠ kernel_on ∧ kernel_on ≠ init_on ∧ loader_on ≠ config_on)
    as (N1 & N2 & N3 & N4 & N5 & N6) by (repeat split; apply Hne; vm_compute; reflexivity).
  split; [|split; [|split]].
  - apply (Hend _ _ M1 N1), (Hmid _ _ M1 N2). destruct (Oth _ _ _ _ M2 M1 N6). apply (kept_has fs1); [by rewrite F2|exact B1].
  - by apply (Hend _ _ M3 N5).
  - apply (Hend _ _ M2 N3), (Hmid _ _ M2 N4), B2.
  - exists fs3, init, fs4, ib. split; [done|]. split; [exists im; apply Hi|exact B5].
Qed.

(** A build of a sound medium leaves it sound, with the right files. *)
Definition right_files (fs fs' : FS) (kb : list byte) : Prop :=
  bytes_of fs' kernel_on = Some kb ∧ (∃ lb, bytes_of fs' loader_on = Some lb ∧ pinned pin lb) ∧
  (∃ cb, bytes_of fs config_from = Some cb ∧ bytes_of fs' config_on = Some cb) ∧
  ∃ f init f' ib, build_init f = Some (init, f') ∧ bytes_of f' init = Some ib ∧ bytes_of fs' init_on = Some ib.

Lemma has_bytes (fs : FS) (p : path) (b : list byte) : has fs p b → bytes_of fs p = Some b.
Proof. intros [m E]. apply bytes_of_plain; [by eapply file_plain|by exists m]. Qed.

Lemma build_right (now : Time) (fs : FS) (kernel : path) (kb : list byte) (km : option Time) : places → all_sound fs → inputs fs kernel kb km →
  ∃ r, build_esp show_time now pin fetch_limine read_dir build_init fs root target kernel = Ret r ∧
    ∀ e fs', r = Some (e, fs') → e = esp_dir ∧ all_sound fs' ∧ right_files fs fs' kb.
Proof.
  intros Hp Hs [Ik [Ia In] (cb & cm & Ic) Il]. unfold build_esp. fold esp_dir stamp_dir.
  destruct (ensured fs Hp Il) as (r1 & -> & Hens). cbn [mbind outcome_bind]. destruct r1 as [[dir fs1]|]; [|by exists None].
  destruct (Hens dir fs1 eq_refl) as (-> & Hsame & lb & lm & Hl & Hpin). clear Hens.
  destruct (mbind _ _) as [fs2|] eqn:E2; [|by exists None].
  assert (∀ p, fs2 !! p = fs1 !! p ∨ fs1 !! p = None ∧ fs2 !! p = Some EDir) as Hd2.
  { apply bind_Some in E2 as (f1 & C1 & (f2 & C2 & C3)%bind_Some). intros p.
    destruct (create_dir_all_keeps _ _ _ _ C1 p) as [A|[A A']], (create_dir_all_keeps _ _ _ _ C2 p) as [B|[B B']],
      (create_dir_all_keeps _ _ _ _ C3 p) as [C|[C C']]; (left; congruence) || (right; split; congruence). }
  assert (∀ p b m, under limine_dir p = false → sourced version fs p b m → sourced version fs2 p b m) as Hfs.
  { intros p b m Hu [Hf Hv]. split; [|done]. destruct (Hd2 p) as [->|[Hn _]]; rewrite Hsame in * by done; congruence. }
  assert (all_sound fs2) as S2.
  { apply (all_sound_dirs fs1); [done|]. apply (all_sound_ext fs); [|done]. intros p [q ->]%medium_under. apply Hsame, Hp. }
  destruct (copy_all _ _ _ _ _ _ _ _ _) as [fs3|] eqn:E3; [|by exists None].
  destruct (copied_all now fs2 fs3 kernel lb lm kb km cb cm Hp S2) as (S3 & B1 & B3 & B2 & f & init & f' & ib & Ei & Bi & B4); [..|exact E3|].
  { destruct Hl as [Hl Hv]. split; [|done]. destruct (Hd2 loader_from) as [->|[Hn _]]; congruence. }
  { by apply Hfs. } { done. } { apply Hfs; [apply config_apart|done]. }
  unfold prune_unexpected. rewrite bool_decide_eq_true_2 by by (unfold esp_dir; rewrite last_snoc). cbn [rust_assert mbind outcome_bind].
  destruct (fs3 !! esp_dir) as [en|] eqn:Een; [|by exists None].
  destruct (walk_prunes read_dir esp_dir Hdir 4 [] fs3) as (fs4 & E4 & [Kept _ _]); [done|cbn; lia|].
  assert (∀ d sp, (d, sp) ∈ medium → fs4 !! d = fs3 !! d ∧ fs4 !! sp = fs3 !! sp) as Hkept.
  { intros d sp (x & y & -> & -> & Hx & _)%on_medium. split; apply Kept; intros (q & _ & Eq & Hout); unfold esp_dir in Eq; rewrite <- app_assoc in Eq;
      apply app_inv_head in Eq; [injection Eq as ->; by apply Hout|by injection Eq]. }
  assert (∀ x : outcome (option FS), x = (fs' ← walk read_dir 4 esp_dir [] fs3; Ret (Some fs')) ∨ x = Ret None →
    ∃ r, (r ← x; Ret (match r with Some fs => Some (esp_dir, fs) | None => None end)) = Ret r ∧
    ∀ e fs', r = Some (e, fs') → e = esp_dir ∧ all_sound fs' ∧ right_files fs fs' kb) as Hfin.
  { intros x [->| ->]; [|by exists None]. rewrite E4. eexists. split; [reflexivity|]. intros e fs' [= <- <-]. split; [done|]. split.
    - intros d sp Hd. destruct (Hkept _ _ Hd). eapply sound_ext; [done..|]. by apply S3.
    - assert (∀ d sp b, (d, sp) ∈ medium → has fs3 d b → bytes_of fs4 d = Some b) as Hb.
      { intros d sp b Hd Hh. apply has_bytes. eapply kept_has; [|exact Hh]. by apply (Hkept _ _ Hd). }
      split; [|split; [|split]].
      + eapply Hb; [|exact B3]. unfold medium. do 2 right. left.
      + exists lb. split; [|done]. eapply Hb; [|exact B1]. left.
      + exists cb. split; [|eapply Hb; [|exact B2]; right; left]. apply has_bytes. exists cm. apply Ic.
      + exists f, init, f', ib. split; [done|]. split; [by apply has_bytes|]. eapply Hb; [|exact B4]. do 3 right. left. }
  apply Hfin. destruct en; auto.
Qed.

(** *** A medium over its builds *)

(** A medium that was never built has no stamps and no links; builds that
    finish, of any kernel at any time, and whatever else happens between
    them that leaves the files and stamps of the medium as they are. *)
Inductive kept_medium : FS → Prop :=
  | medium_new fs : (∀ d sp, (d, sp) ∈ medium → plain fs d ∧ fs !! sp = None) → kept_medium fs
  | medium_built fs (now : Time) kernel kb km e fs' : kept_medium fs → inputs fs kernel kb km →
      build_esp show_time now pin fetch_limine read_dir build_init fs root target kernel = Ret (Some (e, fs')) → kept_medium fs'
  | medium_edited fs fs' : kept_medium fs → (∀ p, p ∈ medium_paths → fs' !! p = fs !! p) → kept_medium fs'.

Lemma kept_medium_sound fs : places → kept_medium fs → all_sound fs.
Proof.
  intros Hp. induction 1 as [fs Hnew|fs now kernel kb km e fs' _ IH Hin E|fs fs' _ IH Hsame].
  - intros d sp [Pd Es]%Hnew. split; [done|]. split; [intros to; by rewrite Es|]. intros src t b m m' E. by rewrite Es in E.
  - destruct (build_right now fs kernel kb km Hp IH Hin) as (r & E' & Hr). rewrite E in E'. apply Ret_eq in E'. subst r. by apply (Hr e fs').
  - by eapply all_sound_ext.
Qed.

End Esp.

(** A medium and two kernels of one length, written at one time.  The
    checkout is fetched, its loader has the digest it is pinned to, and
    something stale lies on the medium; then the other kernel is built. *)
Module Small.
#[local] Abbreviation FS := (gmap path (Entry (Time := N))).
Definition children (fs : FS) (p : path) : list text :=
  omap (λ x : path * Entry, match last x.1 with Some n => if bool_decide (x.1 = p ++ [n]) then Some n else None | None => None end) (map_to_list fs).
Definition root : path := [lit "src"].
Definition target : path := [lit "target"].
Definition debug : path := [lit "target"; lit "debug"; lit "kernel"].
Definition release : path := [lit "target"; lit "release"; lit "kernel"].
Definition init : path := [lit "target"; lit "userland"; lit "init.elf"].
Definition pin : text := lit "ba7816bf8f01cfea414140de5dae2223b00361a396177a9cb410ff61f20015ad".
Definition fetch (fs : FS) : option FS := Some (<[root ++ [lit ".limine"; lit "BOOTX64.EFI"] := EFile (lit "abc") (Some 1%N)]> fs).
Definition assemble (fs : FS) : option (path * FS) := Some (init, <[init := EFile (lit "init") (Some 2%N)]> fs).
Definition start : FS :=
  list_to_map [(root, EDir); (root ++ [lit "limine.conf"], EFile (lit "timeout: 0") (Some 3%N)); (target, EDir);
    (debug, EFile (lit "kernel") (Some 4%N)); (release, EFile (lit "lenrek") (Some 4%N));
    (target ++ [lit "esp"], EDir); (target ++ [lit "esp"; lit "old"], EFile (lit "old") None)].
Definition show (t : N) : text := decimal_text (Z.of_N t).
Definition version (src : text) (t : N) : list byte :=
  if bool_decide (t = 1%N) then lit "abc" else if bool_decide (t = 2%N) then lit "init" else if bool_decide (t = 3%N) then lit "timeout: 0"
  else if bool_decide (src = display debug) then lit "kernel" else lit "lenrek".

Lemma children_spec (fs : FS) p n : n ∈ children fs p ↔ fs !! (p ++ [n]) ≠ None.
Proof.
  unfold children. rewrite list_elem_of_omap. split.
  - intros ([q e] & Hq%elem_of_map_to_list & H). cbn in H. destruct (last q) as [m|]; [|done]. case_bool_decide as E; [|done]. injection H as ->.
    rewrite E in Hq. by rewrite Hq.
  - intros Hn. destruct (fs !! (p ++ [n])) as [e|] eqn:E; [|done]. exists (p ++ [n], e). split; [by apply elem_of_map_to_list|]. cbn.
    by rewrite last_snoc, bool_decide_eq_true_2.
Qed.

Lemma small_loader : loader_file version root (EFile (lit "abc") (Some 1%N)).
Proof. exists (lit "abc"), (Some 1%N). split; [done|]. split; [done|]. by intros t [= <-]. Qed.

Lemma small_places : places version fetch assemble root target.
Proof.
  split.
  - intros fs fs' p [= <-] Hu. apply lookup_insert_ne. intros <-. by vm_compute in Hu.
  - intros fs fs' en [= <-] Hen. unfold loader_from, limine_dir in Hen. rewrite <- app_assoc in Hen.
    change ([lit ".limine"] ++ [lit "BOOTX64.EFI"]) with [lit ".limine"; lit "BOOTX64.EFI"] in Hen. rewrite lookup_insert_eq in Hen.
    injection Hen as <-. exact small_loader.
  - intros fs i fs' p [= <- <-] Hu. apply lookup_insert_ne. intros <-. by vm_compute in Hu.
  - intros fs i fs' [= <- <-]. split; [done|]. exists (lit "init"), (Some 2%N). split; [apply lookup_insert_eq|]. by intros t [= <-].
  - done.
  - done.
Qed.

Lemma show_inj t t' : show t = show t' → t = t'.
Proof.
  unfold show. intros E. destruct (decimal_text_spec (Z.of_N t) ltac:(lia)) as (_ & _ & V). destruct (decimal_text_spec (Z.of_N t') ltac:(lia)) as (_ & _ & V').
  rewrite E in V. lia.
Qed.
Lemma show_line t : LF ∉ show t.
Proof. apply decimal_has_no_LF. lia. Qed.

Abbreviation build now fs kernel := (build_esp show now pin fetch children assemble fs root target kernel).
Abbreviation kept := (kept_medium show version pin fetch children assemble root target).
Definition after (r : outcome (option (path * FS))) : FS := match r with Ret (Some (_, fs)) => fs | _ => ∅ end.
Definition succeeded (r : outcome (option (path * FS))) : bool := match r with Ret (Some _) => true | _ => false end.
Lemma succeeded_after r : succeeded r = true → ∃ e, r = Ret (Some (e, after r)).
Proof. destruct r as [[[e fs]|]|]; [|done..]. by exists e. Qed.

Lemma small_inputs (fs : FS) kernel b : fs !! kernel = Some (EFile b (Some 4%N)) → version (display kernel) 4%N = b →
  bool_decide (kernel ∈ medium_paths target) = false → under (limine_dir root) kernel = false →
  fs !! config_from root = Some (EFile (lit "timeout: 0") (Some 3%N)) →
  (fs !! loader_from root = None ∨ fs !! loader_from root = Some (EFile (lit "abc") (Some 1%N))) →
  inputs version root target fs kernel b (Some 4%N).
Proof.
  intros Hk Hv Hm%bool_decide_eq_false Hu Hc Hl. split.
  - split; [done|]. by intros t [= <-].
  - done.
  - eexists _, _. split; [exact Hc|]. by intros t [= <-].
  - intros en E. destruct Hl as [Hl|Hl]; rewrite Hl in E; [done|]. injection E as <-. exact small_loader.
Qed.

Definition first : FS := after (build 9%N start debug).
Lemma first_built : ∃ e, build 9%N start debug = Ret (Some (e, first)).
Proof. apply succeeded_after. vm_compute. reflexivity. Qed.

Lemma start_inputs : inputs version root target start debug (lit "kernel") (Some 4%N).
Proof. apply small_inputs; try (vm_compute; reflexivity). left. vm_compute. reflexivity. Qed.
Lemma first_inputs : inputs version root target first release (lit "lenrek") (Some 4%N).
Proof. apply small_inputs; try (vm_compute; reflexivity). right. vm_compute. reflexivity. Qed.

Lemma start_kept : kept start.
Proof.
  apply medium_new. apply medium_cases; (split; [intros to E; vm_compute in E; discriminate E|vm_compute; reflexivity]).
Qed.
Lemma first_kept : kept first.
Proof. destruct first_built as [e E]. eapply medium_built; [exact start_kept|exact start_inputs|exact E]. Qed.

End Small.
