(* ===== verification/Xtask.v ===== *)
(** The build tool's own decisions: [xtask/src/main.rs] and [qemu.rs].

    What it runs, with which arguments, for how long, and what it makes of the
    answer.  Cargo, QEMU, the clock and the file system are arguments. *)
From Stdlib Require Import Strings.Byte.
From S2P Require Import Prelude Bits Text Float Abi Vercmp Ratchet.
#[global] Open Scope Z_scope.

(** ** Arguments of cargo *)

(** [[&str]::join]. *)
Fixpoint join_with (sep : text) (l : list text) : text :=
  match l with [] => [] | [x] => x | x :: l' => x ++ sep ++ join_with sep l' end.

Definition BUILD_STD : list text :=
  [lit "-Zbuild-std=core,compiler_builtins,alloc"; lit "-Zbuild-std-features=compiler-builtins-mem"; lit "-Zjson-target-spec"].
Definition BENCHED_CRATES : list text := [lit "qunix-sync"; lit "qunix-mm"; lit "qunix-hal-x86_64"; lit "qunix-bcache"; lit "qunix-virtio"].
Definition FUZZ_TARGETS : list text := [lit "buddy"; lit "slab"; lit "bcache"; lit "virtio_queue"].

Definition package_args (names : list text) : list text := names ≫= λ n, [lit "-p"; n].
Definition host_crate_args : list text :=
  package_args HOST_CRATES.*1 ++ [lit "--features"; join_with (lit ",") (omap snd HOST_CRATES)].
Definition bench_args (extra : list text) : list text :=
  [lit "bench"; lit "--target"; lit "x86_64-unknown-linux-musl"] ++ package_args BENCHED_CRATES ++
  [lit "--features"; join_with (lit ",") ((λ n, n ++ lit "/std") <$> BENCHED_CRATES)] ++ extra.
Definition fuzz_args (target : text) (seconds : Z) (extra : list text) : list text :=
  [lit "fuzz"; lit "run"; target; lit "--target"; lit "x86_64-unknown-linux-gnu"; lit "--";
   lit "-max_total_time=" ++ decimal_text seconds; lit "-rss_limit_mb=4096"] ++ extra.

(** ** [xtask fuzz] *)

Definition parse_u32 (s : text) : option Z := n ← parse_u64 s; if n <? 2 ^ 32 then Some n else None.

Inductive Refused := NotSeconds (value : text) | ZeroSeconds | UnknownTarget (name : text).

Definition find_map {A B} (f : A → option B) (l : list A) : option B := head (omap f l).
Definition SECONDS : text := lit "--seconds=".
Definition is_named (a : text) : bool := negb (starts_with (lit "-") a).

Definition fuzz_seconds (args : list text) : result Z Refused :=
  match find_map (strip_prefix SECONDS) args with
  | Some value =>
      match parse_u32 value with
      | None => Err (NotSeconds value)
      | Some parsed => if parsed =? 0 then Err ZeroSeconds else Ok parsed
      end
  | None => Ok 60
  end.
Definition fuzz_targets (named : list text) : result (list text) Refused :=
  match named with
  | name :: _ => if bool_decide (name ∈ FUZZ_TARGETS) then Ok [name] else Err (UnknownTarget name)
  | [] => Ok FUZZ_TARGETS
  end.
Definition fuzz_selection (args : list text) : result (list text * Z * list text) Refused :=
  match fuzz_seconds args with
  | Err e => Err e
  | Ok seconds =>
      let named := filter (λ a, is_named a = true) args in
      match fuzz_targets named with
      | Err e => Err e
      | Ok targets =>
          let extra := filter (λ a, starts_with SECONDS a = false ∧ Some a ≠ head named) args in
          Ok (targets, seconds, extra)
      end
  end.

(** The rest of the arm: every target runs, the ones that fail are named. *)
Definition fuzz (cargo : list text → bool) (args : list text) : result unit (Refused + list text) :=
  match fuzz_selection args with
  | Err e => Err (inl e)
  | Ok (selected, seconds, extra) =>
      let failed := filter (λ t, cargo (fuzz_args t seconds extra) = false) selected in
      if bool_decide (failed = []) then Ok tt else Err (inr failed)
  end.

(** ** The budget and the firmware of a run *)

Definition DEFAULT_TIMEOUT_SECS : Z := 120.
Inductive TimeoutError := NotAnumber (raw : text) | ZeroBudget.
Definition parse_timeout (raw : option text) : result Z TimeoutError :=
  let secs := match raw with
              | Some raw => match parse_u64 (trim raw) with Some n => Ok n | None => Err (NotAnumber raw) end
              | None => Ok DEFAULT_TIMEOUT_SECS
              end in
  match secs with Err e => Err e | Ok s => if s =? 0 then Err ZeroBudget else Ok s end.

Definition OVMF_CANDIDATES : list text :=
  [lit "/usr/share/edk2/x64/OVMF.4m.fd"; lit "/usr/share/edk2/x64/OVMF.fd"; lit "/usr/share/edk2-ovmf/x64/OVMF.fd";
   lit "/usr/share/ovmf/x64/OVMF.fd"; lit "/usr/share/ovmf/OVMF.fd"].
Inductive OvmfError := MissingOverride (path : text) | NoFirmware.
Definition select_ovmf (override_path : option text) (exists_ : text → bool) : result text OvmfError :=
  match override_path with
  | Some path => if exists_ path then Ok path else Err (MissingOverride path)
  | None => match head (filter (λ p, exists_ p = true) OVMF_CANDIDATES) with Some p => Ok p | None => Err NoFirmware end
  end.

Definition qemu_args (ovmf esp disk : text) (headless kvm : bool) : list text :=
  [lit "-M"; lit "q35,accel=kvm:tcg"; lit "-m"; lit "512M"; lit "-smp"; lit "4"; lit "-cpu"; if kvm then lit "host" else lit "max";
   lit "-nodefaults"; lit "-drive"; lit "if=pflash,format=raw,readonly=on,file=" ++ ovmf;
   lit "-drive"; lit "format=raw,file=fat:rw:" ++ esp;
   lit "-drive"; lit "format=raw,if=none,id=qunixdisk,file=" ++ disk;
   lit "-device"; lit "virtio-blk-pci,drive=qunixdisk,disable-legacy=on,disable-modern=off";
   lit "-serial"; lit "stdio"; lit "-no-reboot"; lit "-device"; lit "isa-debug-exit,iobase=0xf4,iosize=0x04"] ++
  (if headless then [lit "-display"; lit "none"] else [lit "-vga"; lit "std"]).

(** ** [run_esp] *)

Inductive Exit := Code (code : Z) | Signal (signo : Z).
Inductive RunError := Firmware (e : OvmfError) | Budget (e : TimeoutError) | BudgetTooLarge | NotLaunched | WaitFailed | TimedOut | NoStatus.
(** What is done to the child, in order. *)
Inductive Act := Spawned | Reaped | Dumped | Killed | Waited.

(** [ExitStatus]: the code and the signal. *)
Record Status := mkStatus { code_of : option Z; signal_of : option Z }.
Definition exit_of (s : Status) : result Exit RunError :=
  match code_of s, signal_of s with
  | Some code, _ => Ok (Code code)
  | None, Some signo => Ok (Signal signo)
  | None, None => Err NoStatus
  end.

(** Nanoseconds; the [tv_sec] of an [Instant] is an [i64]. *)
Definition NANOS : Z := 10 ^ 9.
Definition POLL_INTERVAL : Z := 10 ^ 7.
Definition instant_add (now secs : Z) : option Z := if now / NANOS + secs <? 2 ^ 63 then Some (now + secs * NANOS) else None.

Section Run.
(** What the [i]th [try_wait] answers, and what the clock shows after it. *)
Context (try_wait : nat → option (option Status)) (clock : nat → Z).

Fixpoint wait_loop (fuel : nat) (i : nat) (deadline : Z) : outcome (result Exit RunError * list Act) :=
  match fuel with
  | O => Panic
  | S fuel' =>
      match try_wait i with
      | None => Ret (Err WaitFailed, [])
      | Some (Some status) => Ret (exit_of status, [Reaped])
      | Some None => if deadline <=? clock i then Ret (Err TimedOut, [Dumped; Killed; Waited]) else wait_loop fuel' (S i) deadline
      end
  end.

Definition run_esp (fuel : nat) (start : Z) (override_path timeout : option text) (exists_ : text → bool) (spawns : bool)
    : outcome (result Exit RunError * list Act) :=
  match select_ovmf override_path exists_ with
  | Err e => Ret (Err (Firmware e), [])
  | Ok _ =>
      match parse_timeout timeout with
      | Err e => Ret (Err (Budget e), [])
      | Ok budget =>
          match instant_add start budget with
          | None => Ret (Err BudgetTooLarge, [])
          | Some deadline =>
              if negb spawns then Ret (Err NotLaunched, []) else
              '(r, acts) ← wait_loop fuel 0 deadline; Ret (r, Spawned :: acts)
          end
      end
  end.
End Run.

(** What [xtask runner] and [xtask run] make of it. *)
Inductive RunnerError := TestsFailed | Unexpected (status : Z) | KilledBy (signo : Z) | NotRun (e : RunError).
Definition runner (r : result Exit RunError) : result unit RunnerError :=
  match r with
  | Err e => Err (NotRun e)
  | Ok (Code c) => if c =? HOST_STATUS_SUCCESS then Ok tt else if c =? HOST_STATUS_FAILURE then Err TestsFailed else Err (Unexpected c)
  | Ok (Signal s) => Err (KilledBy s)
  end.
Definition run_status (e : Exit) : Z :=
  match e with
  | Code c => if c =? HOST_STATUS_SUCCESS then 0 else if c =? HOST_STATUS_FAILURE then 1 else c
  | Signal s => 128 + s
  end.

(** ** [xtask test] *)

Record Invocation := mkInvocation { inv_args : list text; inv_target : option text }.
Definition release_args (release : bool) : list text := if release then [lit "--release"] else [].
Definition kernel_tests (invariants release : bool) : Invocation :=
  mkInvocation ([lit "test"; lit "--package"; lit "qunix-kernel"; lit "--features"; lit "deadlock-panic"] ++
      (if invariants then [lit "--features"; lit "sched-invariants"] else []) ++ BUILD_STD ++ [lit "-Zpanic-abort-tests"] ++ release_args release)
    (if invariants then Some (lit "sched-invariants") else None).
Definition host_tests (release : bool) : Invocation :=
  mkInvocation ([lit "test"; lit "--target"; lit "x86_64-unknown-linux-musl"] ++ host_crate_args ++ release_args release) None.
Definition qpkg_tests (release : bool) : Invocation :=
  mkInvocation ([lit "test"; lit "-p"; lit "qpkg"; lit "--target"; lit "x86_64-unknown-linux-gnu"] ++ release_args release) None.

Inductive TestError := KernelTests (invariants : bool) | HostTests | QpkgTests | LicenceCheck | AttestCheck.
Fixpoint test_kernels (cargo : Invocation → bool) (release : bool) (boots : list bool) : result unit TestError :=
  match boots with
  | [] => Ok tt
  | invariants :: boots' => if cargo (kernel_tests invariants release) then test_kernels cargo release boots' else Err (KernelTests invariants)
  end.
Definition test (cargo : Invocation → bool) (licences attested release : bool) : result unit TestError :=
  match test_kernels cargo release [true; false] with
  | Err e => Err e
  | Ok _ =>
      if negb (cargo (host_tests release)) then Err HostTests
      else if negb (cargo (qpkg_tests release)) then Err QpkgTests
      else if negb licences then Err LicenceCheck
      else if negb attested then Err AttestCheck
      else Ok tt
  end.

(** * What holds of it

    What the build tool's decisions keep: a fuzz run is bounded and runs known
    targets, a QEMU run ends within its budget and leaves nothing behind, and
    a pass is reported for one exit status only. *)

(** ** Numbers *)

Lemma digits_value_nonneg s : forallb Vercmp.is_ascii_digit s = true → 0 ≤ digits_value s.
Proof.
  unfold digits_value. generalize (Z.le_refl 0). generalize 0 at 2 4. induction s as [|c s IH]; [done|]. intros a Ha.
  cbn [forallb fold_left]. intros [Hc Hs]%andb_true_iff. apply IH; [|done].
  unfold Vercmp.is_ascii_digit, Vercmp.between in Hc. lia.
Qed.

Lemma parse_u64_range s n : parse_u64 s = Some n → 0 ≤ n < 2 ^ 64.
Proof.
  unfold parse_u64. cbv zeta. match goal with |- context [digits_value ?d <? _] => generalize d; intros ds end.
  destruct (bool_decide (ds = []) || _) eqn:E; [done|]. apply orb_false_iff in E as [_ Hd%negb_false_iff].
  destruct (digits_value ds <? 2 ^ 64) eqn:Hl; [|done]. intros [= <-]. apply digits_value_nonneg in Hd. lia.
Qed.

Lemma parse_u32_range s n : parse_u32 s = Some n → 0 ≤ n < 2 ^ 32.
Proof.
  unfold parse_u32. destruct (parse_u64 s) as [m|] eqn:E; [|done]. cbn. apply parse_u64_range in E.
  destruct (m <? 2 ^ 32) eqn:?; [|done]. intros [= <-]. lia.
Qed.

(** ** The selection of a fuzz run *)

Lemma fuzz_seconds_range args n : fuzz_seconds args = Ok n → 0 < n < 2 ^ 32.
Proof.
  unfold fuzz_seconds. destruct (find_map _ args) as [v|]; [|intros [= <-]; lia].
  destruct (parse_u32 v) as [m|] eqn:E; [|done]. apply parse_u32_range in E.
  destruct (m =? 0) eqn:?; [done|]. intros [= <-]. lia.
Qed.

Lemma fuzz_targets_known named ts : fuzz_targets named = Ok ts → ts ≠ [] ∧ ts ⊆ FUZZ_TARGETS ∧ NoDup ts ∧ (named = [] → ts = FUZZ_TARGETS) ∧ (∀ t l, named = t :: l → ts = [t]).
Proof.
  unfold fuzz_targets. destruct named as [|t l].
  - intros [= <-]. split_and!; [done|done| |done|done]. apply (bool_decide_eq_true_1 (NoDup FUZZ_TARGETS)). by vm_compute.
  - case_bool_decide as Ht; [|done]. intros [= <-]. split_and!; [done| |apply NoDup_singleton|done|congruence].
    intros x ->%list_elem_of_singleton. done.
Qed.

(** A fuzz run is bounded and fuzzes what exists.  When [fuzz_selection]
    accepts its arguments, the budget is a [u32] greater than zero (which
    libFuzzer would read as no limit), every target is a known one, none is
    listed twice and there is at least one: the first argument that is not an
    option when there is one, all of them otherwise.  What is handed on to
    libFuzzer are the remaining arguments in their order, no budget among
    them. *)
Theorem fuzz_runs_are_bounded args ts secs extra :
  fuzz_selection args = Ok (ts, secs, extra) →
  0 < secs < 2 ^ 32 ∧ ts ≠ [] ∧ ts ⊆ FUZZ_TARGETS ∧ NoDup ts ∧
  match head (filter (λ a, is_named a = true) args) with
  | Some t => ts = [t]
  | None => ts = FUZZ_TARGETS
  end ∧
  extra `sublist_of` args ∧ Forall (λ a, starts_with SECONDS a = false ∧ (a ∈ ts → ts = FUZZ_TARGETS)) extra.
Proof.
  unfold fuzz_selection. destruct (fuzz_seconds args) as [n|] eqn:En; [|done].
  destruct (fuzz_targets _) as [ts'|] eqn:Et; [|done]. intros [= <- <- <-].
  apply fuzz_seconds_range in En. apply fuzz_targets_known in Et as (H1 & H2 & H3 & H4 & H5).
  split_and!; try done; try lia.
  - destruct (filter (λ a, is_named a = true) args) as [|t l]; cbn; eauto.
  - apply sublist_filter.
  - rewrite Forall_forall. intros a [[Hs Hn] _]%list_elem_of_filter. split; [done|].
    destruct (filter (λ a, is_named a = true) args) as [|t l]; [by rewrite H4|].
    rewrite (H5 t l eq_refl). intros ->%list_elem_of_singleton. by destruct Hn.
Qed.

Lemma fuzz_runs_are_bounded_witness :
  let args := lit <$> ["--seconds=600"; "slab"; "-jobs=2"]%string in
  0 < 600 < 2 ^ 32 ∧ fuzz_selection args = Ok ([lit "slab"], 600, [lit "-jobs=2"]).
Proof.
  intros args. assert (fuzz_selection args = Ok ([lit "slab"], 600, [lit "-jobs=2"])) as E by (vm_compute; reflexivity).
  split; [|exact E]. exact (proj1 (fuzz_runs_are_bounded args _ _ _ E)).
Defined.

(** Only the first budget counts: whatever follows it, a second
    [--seconds=] is neither read nor handed on nor refused. *)
Theorem second_budget_is_ignored value other args :
  fuzz_selection ((SECONDS ++ value) :: (SECONDS ++ other) :: args) = fuzz_selection ((SECONDS ++ value) :: args).
Proof.
  assert (∀ v, is_named (SECONDS ++ v) = false) as Hn by (intros v; reflexivity).
  unfold fuzz_selection, fuzz_seconds, find_map. cbn [omap list_omap]. rewrite strip_prefix_app. cbn [head].
  destruct (match parse_u32 value with Some _ => _ | None => _ end); [|done].
  rewrite !(filter_cons_False (λ a, is_named a = true)) by (by rewrite Hn).
  destruct (fuzz_targets _); [|done].
  by rewrite !(filter_cons_False (λ a, starts_with SECONDS a = false ∧ _)) by (rewrite starts_with_app; by intros [? _]).
Qed.

Example unlimited_second_budget : fuzz_selection (lit <$> ["--seconds=60"; "--seconds=0"]%string) = Ok (FUZZ_TARGETS, 60, []).
Proof. by vm_compute. Qed.
Example zero_budget_refused : fuzz_selection [lit "--seconds=0"] = Err ZeroSeconds.
Proof. by vm_compute. Qed.

(** The run passes when every selected target's does. *)
Theorem fuzz_passes_iff cargo args :
  fuzz cargo args = Ok tt ↔
  ∃ ts secs extra, fuzz_selection args = Ok (ts, secs, extra) ∧ Forall (λ t, cargo (fuzz_args t secs extra) = true) ts.
Proof.
  unfold fuzz. destruct (fuzz_selection args) as [[[ts secs] extra]|e].
  - case_bool_decide as H.
    + split; [intros _; exists ts, secs, extra; split; [done|]|done]. apply Forall_forall. intros t Ht.
      destruct (cargo _) eqn:E; [done|]. assert (t ∈ filter (λ t, cargo (fuzz_args t secs extra) = false) ts) as Hx by (by apply list_elem_of_filter).
      rewrite H in Hx. by apply not_elem_of_nil in Hx.
    + split; [done|]. intros (? & ? & ? & [= <- <- <-] & Ha). destruct H.
      apply elem_of_nil_inv. intros t [Hf Ht]%list_elem_of_filter. rewrite Forall_forall in Ha. by rewrite (Ha t Ht) in Hf.
  - split; [done|]. by intros (? & ? & ? & ? & _).
Qed.

(** ** A run of QEMU *)

Lemma parse_timeout_range raw b : parse_timeout raw = Ok b → 0 < b < 2 ^ 64.
Proof.
  unfold parse_timeout, DEFAULT_TIMEOUT_SECS. destruct raw as [raw|].
  - destruct (parse_u64 (trim raw)) as [n|] eqn:E; [|done]. apply parse_u64_range in E. destruct (n =? 0) eqn:?; [done|].
    intros [= <-]. lia.
  - intros [= <-]. lia.
Qed.

Lemma select_ovmf_exists ov exists_ fw :
  select_ovmf ov exists_ = Ok fw → exists_ fw = true ∧ match ov with Some p => fw = p | None => fw ∈ OVMF_CANDIDATES end.
Proof.
  unfold select_ovmf. destruct ov as [p|].
  - destruct (exists_ p) eqn:E; [|done]. by intros [= <-].
  - destruct (head _) as [p|] eqn:E; [|done]. intros [= <-]. apply head_Some_elem_of, list_elem_of_filter in E. naive_solver.
Qed.

(** How a run can end, with what was done to the child until then. *)
Inductive ended (try_wait : nat → option (option Status)) (clock : nat → Z) (deadline : Z) : result Exit RunError → list Act → Prop :=
  | exited i s : try_wait i = Some (Some s) → ended try_wait clock deadline (exit_of s) [Spawned; Reaped]
  | timed_out i : try_wait i = Some None → deadline ≤ clock i → ended try_wait clock deadline (Err TimedOut) [Spawned; Dumped; Killed; Waited]
  | wait_failed i : try_wait i = None → ended try_wait clock deadline (Err WaitFailed) [Spawned].

Lemma wait_loop_ends try_wait clock start deadline fuel :
  (∀ j, start + POLL_INTERVAL * Z.of_nat j ≤ clock j) →
  ∀ i, deadline ≤ start + POLL_INTERVAL * (Z.of_nat i + Z.of_nat fuel - 1) → (0 < fuel)%nat →
  ∃ r acts, wait_loop try_wait clock fuel i deadline = Ret (r, acts) ∧ ended try_wait clock deadline r (Spawned :: acts).
Proof.
  intros Hc. induction fuel as [|fuel IH]; intros i Hd Hf; [lia|]. cbn [wait_loop].
  destruct (try_wait i) as [[s|]|] eqn:E; [by eauto using ended| |by eauto using ended].
  destruct (deadline <=? clock i) eqn:Hl; [eapply Z.leb_le in Hl; by eauto using ended|].
  specialize (Hc i). destruct fuel as [|fuel]; [lia|]. apply IH; lia.
Qed.

(** A run of QEMU ends within its budget and leaves no machine behind.  The
    clock advances by the polling interval or more at every turn; then, in at
    most a hundred turns for every second of the budget and one more,
    [run_esp] answers.  Either it refused before anything was started, or the
    firmware it booted is an existing image, the one the override names when
    there is one, and the machine was started, and it left by itself, with its
    code or signal as the answer, or its time was up, and it was asked for its
    state, killed and waited for, in this order, or the system refused to tell
    whether it runs.  Only in that last case it may be left running. *)
Theorem run_ends_within_its_budget try_wait clock start override_path timeout exists_ spawns fuel :
  (∀ i, start + POLL_INTERVAL * Z.of_nat i ≤ clock i) →
  (∀ secs, parse_timeout timeout = Ok secs → 100 * secs < Z.of_nat fuel) →
  ∃ r acts, run_esp try_wait clock fuel start override_path timeout exists_ spawns = Ret (r, acts) ∧
    ((acts = [] ∧ ∃ e, r = Err e) ∨
     ∃ fw secs, select_ovmf override_path exists_ = Ok fw ∧ exists_ fw = true ∧ match override_path with Some p => fw = p | None => fw ∈ OVMF_CANDIDATES end ∧
       parse_timeout timeout = Ok secs ∧ 0 < secs ∧ ended try_wait clock (start + secs * NANOS) r acts).
Proof.
  intros Hc Hf. unfold run_esp. destruct (select_ovmf override_path exists_) as [fw|e] eqn:Ef; [|by eauto 10].
  destruct (parse_timeout timeout) as [secs|e] eqn:Eb; [|by eauto 10].
  unfold instant_add. destruct (_ <? 2 ^ 63); [|by eauto 10]. destruct spawns; [cbn [negb]|by eauto 10].
  specialize (Hf _ eq_refl). pose proof (parse_timeout_range _ _ Eb) as Hb.
  destruct (wait_loop_ends try_wait clock start (start + secs * NANOS) fuel Hc 0) as (r & acts & -> & He);
    [unfold NANOS, POLL_INTERVAL; lia|lia|].
  exists r, (Spawned :: acts). split; [done|]. right. exists fw, secs. pose proof (select_ovmf_exists _ _ _ Ef). naive_solver.
Qed.

Lemma run_ends_within_its_budget_witness :
  let clock := λ i, POLL_INTERVAL * Z.of_nat i in
  let run := run_esp (λ _, Some None) clock 101 0 (Some (lit "/fw")) (Some (lit " 1 ")) (λ _, true) true in
  (∃ r acts, run = Ret (r, acts)) ∧ run = Ret (Err TimedOut, [Spawned; Dumped; Killed; Waited]).
Proof.
  intros clock run. split; [|by vm_compute].
  destruct (run_ends_within_its_budget (λ _, Some None) clock 0 (Some (lit "/fw")) (Some (lit " 1 ")) (λ _, true) true 101) as (r & acts & E & _).
  - intros i. unfold clock. lia.
  - assert (parse_timeout (Some (lit " 1 ")) = Ok 1) as -> by (vm_compute; reflexivity). intros secs [= <-]. lia.
  - exists r, acts. exact E.
Defined.

(** ** Verdicts *)

(** [xtask runner] passes a test binary for one answer only: the status that
    QEMU turns the kernel's [ExitCode::Success] into.  A signal, a refusal to
    run and every other code fail. *)
Theorem runner_passes_iff r : runner r = Ok tt ↔ r = Ok (Code (qemu_status (exit_code_value Success))).
Proof.
  change (qemu_status (exit_code_value Success)) with HOST_STATUS_SUCCESS. unfold runner. destruct r as [[c|s]|e]; [|done|done].
  destruct (c =? HOST_STATUS_SUCCESS) eqn:E; [by apply Z.eqb_eq in E as ->|].
  destruct (c =? HOST_STATUS_FAILURE); (split; [done|]); intros [= ->]; by rewrite Z.eqb_refl in E.
Qed.

(** [xtask test] passes when both boots of the kernel's tests, with the
    scheduler's invariants enforced and with the timing that ships, the host
    crates' tests and the packager's do, and the licences and the attestations
    are in order. *)
Theorem test_passes_iff cargo licences attested release :
  test cargo licences attested release = Ok tt ↔
  cargo (kernel_tests true release) = true ∧ cargo (kernel_tests false release) = true ∧
  cargo (host_tests release) = true ∧ cargo (qpkg_tests release) = true ∧ licences = true ∧ attested = true.
Proof.
  unfold test. cbn [test_kernels].
  destruct (cargo (kernel_tests true release)), (cargo (kernel_tests false release)), (cargo (host_tests release)), (cargo (qpkg_tests release)),
    licences, attested; cbn; naive_solver.
Qed.

(** The two boots build into directories of their own, every host crate of the
    list is tested, and the profile reaches every child. *)
Theorem test_invocations release :
  inv_target (kernel_tests true release) ≠ inv_target (kernel_tests false release) ∧
  (∀ name feature, (name, feature) ∈ HOST_CRATES → name ∈ inv_args (host_tests release)) ∧
  Forall (λ i, release = true → lit "--release" ∈ inv_args i) [kernel_tests true release; kernel_tests false release; host_tests release; qpkg_tests release].
Proof.
  split_and!; [done| |].
  - intros name feature Hin. unfold host_tests, inv_args, host_crate_args, package_args.
    rewrite !elem_of_app. right; left; left. apply list_elem_of_bind. exists name. split; [set_solver|].
    apply list_elem_of_fmap. by exists (name, feature).
  - assert (∀ l : list text, lit "--release" ∈ l ++ [lit "--release"]) as Ha by (intros l; apply elem_of_app; right; by left).
    repeat (apply Forall_cons_2; [intros ->|]); [..|apply Forall_nil_2]; unfold kernel_tests, host_tests, qpkg_tests, inv_args, release_args; try rewrite app_assoc;
    rewrite ?app_assoc; apply Ha.
Qed.
