(* ===== verification/Ring.v ===== *)
(** The way between the rings: [crates/qunix-hal-x86_64/src/syscall.rs],
    [context.rs], [gdt.rs] and the GS part of [percpu.rs].

    The assembly of the kernel is data, lists of instructions, and a processor
    is what executes them: registers, the two GS bases, the MSRs [SYSCALL]
    reads, and memory by 8-byte words.  Every address that an instruction
    touches is kept in [trace].  What the compiler makes of a Rust function is
    not instructions here: where the stub calls one, the caller of the model
    says what state it leaves.  An access that is not aligned, [ud2] and a
    non-canonical [sysretq] have no next state. *)
From S2P Require Import Prelude Bits.
#[global] Open Scope Z_scope.

(** ** A processor *)

Inductive reg := rax | rbx | rcx | rdx | rsi | rdi | rbp | rsp | r8 | r9 | r10 | r11 | r12 | r13 | r14 | r15.
Definition reg_no (r : reg) : nat :=
  match r with
  | rax => 0 | rcx => 1 | rdx => 2 | rbx => 3 | rsp => 4 | rbp => 5 | rsi => 6 | rdi => 7
  | r8 => 8 | r9 => 9 | r10 => 10 | r11 => 11 | r12 => 12 | r13 => 13 | r14 => 14 | r15 => 15
  end.

(** What [SYSCALL] and [SYSRET] read: [IA32_STAR], [IA32_LSTAR], [IA32_FMASK]. *)
Record Msrs := mkMsrs { star : Z; lstar : Z; fmask : Z }.

Record Cpu := mkCpu {
  regs : reg → Z; rip : Z; rflags : Z; cs : Z; ss : Z; cpl : Z;
  gs_base : Z; kernel_gs_base : Z; msrs : Msrs; ram : Z → Z; trace : list Z }.

Definition with_regs (c : Cpu) (f : reg → Z) : Cpu :=
  mkCpu f (rip c) (rflags c) (cs c) (ss c) (cpl c) (gs_base c) (kernel_gs_base c) (msrs c) (ram c) (trace c).
Definition set_reg (c : Cpu) (r : reg) (v : Z) : Cpu :=
  with_regs c (λ x, if Nat.eqb (reg_no x) (reg_no r) then v else regs c x).
Definition with_ram (c : Cpu) (m : Z → Z) (t : list Z) : Cpu :=
  mkCpu (regs c) (rip c) (rflags c) (cs c) (ss c) (cpl c) (gs_base c) (kernel_gs_base c) (msrs c) m t.
Definition with_gs (c : Cpu) (gs kgs : Z) : Cpu :=
  mkCpu (regs c) (rip c) (rflags c) (cs c) (ss c) (cpl c) gs kgs (msrs c) (ram c) (trace c).
Definition with_flow (c : Cpu) (ip flags code stack ring : Z) : Cpu :=
  mkCpu (regs c) ip flags code stack ring (gs_base c) (kernel_gs_base c) (msrs c) (ram c) (trace c).
Definition jump (c : Cpu) (ip : Z) : Cpu := with_flow c ip (rflags c) (cs c) (ss c) (cpl c).

Definition aligned (a : Z) : bool := a mod 8 =? 0.
Definition load (c : Cpu) (a : Z) : option (Z * Cpu) :=
  if aligned a then Some (ram c a, with_ram c (ram c) (a :: trace c)) else None.
Definition store (c : Cpu) (a v : Z) : option Cpu :=
  if aligned a then Some (with_ram c (λ x, if x =? a then v else ram c x) (a :: trace c)) else None.
Definition push (c : Cpu) (v : Z) : option Cpu :=
  let sp := wrapping_sub 64 (regs c rsp) 8 in store (set_reg c rsp sp) sp v.
Definition pop (c : Cpu) : option (Z * Cpu) :=
  '(v, c) ← load c (regs c rsp); Some (v, set_reg c rsp (wrapping_add 64 (regs c rsp) 8)).

Definition canonical (a : Z) : bool := (a <? 2 ^ 47) || (2 ^ 64 - 2 ^ 47 <=? a).

(** ** Instructions *)

Inductive Instr :=
  | Swapgs
  | MovToGs (offset : Z) (r : reg)          (* mov gs:[offset], r *)
  | MovFromGs (r : reg) (offset : Z)        (* mov r, gs:[offset] *)
  | Mov (d s : reg)
  | MovTo (base s : reg)                    (* mov [base], s *)
  | Push (r : reg) | Pop (r : reg)
  | Xor (r : reg)                           (* xor r, r on the low half, which clears the whole *)
  | CallReg (r : reg) (return_to : Z)
  | CallTo (target return_to : Z)           (* call target *)
  | RetNear | Ud2 | Sysretq | Iretq.

Definition exec1 (c : Cpu) (i : Instr) : option Cpu :=
  match i with
  | Swapgs => if cpl c =? 0 then Some (with_gs c (kernel_gs_base c) (gs_base c)) else None
  | MovToGs offset r => store c (wrapping_add 64 (gs_base c) offset) (regs c r)
  | MovFromGs r offset => '(v, c) ← load c (wrapping_add 64 (gs_base c) offset); Some (set_reg c r v)
  | Mov d s => Some (set_reg c d (regs c s))
  | MovTo base s => store c (regs c base) (regs c s)
  | Push r => push c (regs c r)
  | Pop r => '(v, c) ← pop c; Some (set_reg c r v)
  | Xor r => Some (set_reg c r 0)
  | CallReg r return_to => let target := regs c r in c ← push c return_to; Some (jump c target)
  | CallTo target return_to => c ← push c return_to; Some (jump c target)
  | RetNear => '(v, c) ← pop c; Some (jump c v)
  | Ud2 => None
  | Sysretq =>
      if (cpl c =? 0) && canonical (regs c rcx) then
        let base := Z.shiftr (star (msrs c)) 48 in
        Some (with_flow c (regs c rcx) (Z.lor (Z.land (regs c r11) 0x3C7FD7) 2) (Z.lor (base + 16) 3) (Z.lor (base + 8) 3) 3)
      else None
  | Iretq =>
      '(ip, c) ← pop c; '(code, c) ← pop c; '(flags, c) ← pop c; '(sp, c) ← pop c; '(stack, c) ← pop c;
      if canonical ip then Some (with_flow (set_reg c rsp sp) ip flags code stack (Z.land code 3)) else None
  end.
Fixpoint exec (c : Cpu) (l : list Instr) : option Cpu :=
  match l with [] => Some c | i :: l' => c' ← exec1 c i; exec c' l' end.

(** The instruction [syscall]: no stack, no GS, no memory. *)
Definition syscall (c : Cpu) : Cpu :=
  let c' := set_reg (set_reg c rcx (rip c)) r11 (rflags c) in
  let base := Z.shiftr (star (msrs c)) 32 mod 2 ^ 16 in
  with_flow c' (lstar (msrs c)) (Z.ldiff (rflags c) (fmask (msrs c))) base (base + 8) 0.

(** ** The stub of [syscall.rs] *)

Definition OFFSET_KERNEL_RSP : Z := 0x00.
Definition OFFSET_USER_RSP : Z := 0x08.
Definition OFFSET_CPU_ID : Z := 0x10.
Definition OFFSET_CURRENT_THREAD : Z := 0x18.
Definition OFFSET_SELF_PTR : Z := 0x20.

(** [syscall_entry], to the call of [dispatch], which lies at [dispatch] and
    returns to [back], and from there. *)
Definition entry_front (dispatch back : Z) : list Instr :=
  [Swapgs; MovToGs OFFSET_USER_RSP rsp; MovFromGs rsp OFFSET_KERNEL_RSP;
   Push rcx; Push r11;
   Mov r9 r8; Mov r8 r10; Mov rcx rdx; Mov rdx rsi; Mov rsi rdi; Mov rdi rax;
   CallTo dispatch back].
Definition entry_back : list Instr :=
  [Pop r11; Pop rcx;
   Xor rdx; Xor rsi; Xor rdi; Xor r8; Xor r9; Xor r10;
   MovFromGs rsp OFFSET_USER_RSP; Swapgs; Sysretq].

(** [enter_user]: the operands are in registers of the compiler's choice, so
    that they are pushed as values. *)
Record Selectors := mkSelectors { kernel_code : Z; kernel_data : Z; user_code : Z; user_data : Z; tss : Z }.
Definition USER_RFLAGS : Z := 0x202.
Definition clear_all : list Instr :=
  [Xor rax; Xor rbx; Xor rcx; Xor rdx; Xor rsi; Xor rdi; Xor rbp; Xor r8; Xor r9; Xor r10; Xor r11; Xor r12; Xor r13; Xor r14; Xor r15].
Definition enter_user (c : Cpu) (sel : Selectors) (entry user_stack : Z) : option Cpu :=
  let code := Z.lor (user_code sel) 3 in
  let stack := Z.lor (user_data sel) 3 in
  c ← push c stack; c ← push c user_stack; c ← push c USER_RFLAGS; c ← push c code; c ← push c entry;
  exec c (clear_all ++ [Iretq]).

(** [init]: the arithmetic of [IA32_STAR] and the mask. *)
Definition star_of (sel : Selectors) : outcome Z :=
  base ← sub_chk (user_data sel) 8;
  Ret (Z.lor (Z.shiftl base 48 mod 2 ^ 64) (Z.shiftl (kernel_code sel) 32)).
Definition FMASK : Z := Z.lor 0x700 (Z.lor (Z.shiftl 1 9) (Z.shiftl 1 10)).
Definition syscall_init (c : Cpu) (sel : Selectors) (syscall_entry : Z) : outcome Cpu :=
  s ← star_of sel;
  Ret (mkCpu (regs c) (rip c) (rflags c) (cs c) (ss c) (cpl c) (gs_base c) (kernel_gs_base c) (mkMsrs s syscall_entry FMASK) (ram c) (trace c)).

(** ** [gdt.rs]: the order of the descriptors *)

Inductive Descriptor := KernelCode | KernelData | UserData | UserCode | Tss.

(** The table of the [x86_64] crate: a selector for what is appended. *)
Class GdtOps (T : Type) := { gdt_new : T; gdt_append : T → Descriptor → Z * T }.
Definition build {T} `{GdtOps T} : Selectors :=
  let '(kernel_code, g) := gdt_append gdt_new KernelCode in
  let '(kernel_data, g) := gdt_append g KernelData in
  let '(user_data, g) := gdt_append g UserData in
  let '(user_code, g) := gdt_append g UserCode in
  let '(tss, g) := gdt_append g Tss in
  mkSelectors kernel_code kernel_data user_code user_data tss.

(** ** [context.rs] *)

(** [switch(from, to)], and what a fresh thread starts with. *)
Definition switch : list Instr :=
  [Push rbp; Push rbx; Push r12; Push r13; Push r14; Push r15;
   MovTo rdi rsp; Mov rsp rsi;
   Pop r15; Pop r14; Pop r13; Pop r12; Pop rbx; Pop rbp; RetNear].
Definition trampoline (return_to : Z) : list Instr := [Mov rdi r14; CallReg r15 return_to].

(** [Context], in the order of its fields. *)
Record Context := mkContext { c_r15 : Z; c_r14 : Z; c_r13 : Z; c_r12 : Z; c_rbx : Z; c_rbp : Z; c_rip : Z }.
Definition CONTEXT_BYTES : Z := 56.
Definition write_context (m : Z → Z) (a : Z) (x : Context) : Z → Z := λ p,
  if p =? a then c_r15 x else if p =? a + 8 then c_r14 x else if p =? a + 16 then c_r13 x
  else if p =? a + 24 then c_r12 x else if p =? a + 32 then c_rbx x else if p =? a + 40 then c_rbp x
  else if p =? a + 48 then c_rip x else m p.
Definition init_kernel_stack (m : Z → Z) (stack_top entry arg trampoline_at : Z) : outcome (Z * (Z → Z)) :=
  _ ← rust_assert (is_multiple_of stack_top 16);
  ctx_addr ← sub_chk stack_top CONTEXT_BYTES;
  Ret (ctx_addr, write_context m ctx_addr (mkContext entry arg 0 0 0 0 trampoline_at)).

(** ** [percpu.rs]: GS *)

(** What [finish_install] writes to the two MSRs, and [restore_gs_base]. *)
Definition install_gs (c : Cpu) (block : Z) : Cpu := with_gs c block block.
Definition restore_gs_base (c : Cpu) : Cpu := with_gs c (kernel_gs_base c) (kernel_gs_base c).
(** [self_ptr] and [is_installed]. *)
Definition self_ptr (c : Cpu) : option (Z * Cpu) := load c (wrapping_add 64 (gs_base c) OFFSET_SELF_PTR).

(** What ring 3 can do to GS: [mov gs, ax] reloads the hidden base from a
    descriptor, and the base of the flat ones is zero. *)
Definition mov_gs (c : Cpu) : Cpu := with_gs c 0 (kernel_gs_base c).

(** ** GS and the parked stack pointer, over every order of events

    What several processors and threads do with the above, an entry or an exit
    at a time.  A thread is in ring 3, between the two halves of the stub, on
    its way out in [exit_current], or elsewhere in the kernel; [sp] is its
    stack pointer in ring 3.  A [Panic] is a kernel access through a GS base
    that is not the processor's block. *)

Inductive Mode := Ring3 | InCall | Exiting | InKernel.
Record Proc := mkProc { p_gs : Z; p_kgs : Z; p_slot : Z; p_thread : nat }.
Record Sys := mkSys { procs : list Proc; mode : nat → Mode; sp : nat → Z }.

Inductive Act :=
  | LoadGs (c : nat)               (* ring 3: mov gs, ax *)
  | MoveStack (c : nat) (v : Z)    (* ring 3: any change of rsp *)
  | Call (c : nat) | Return (c : nat)
  | Exit (c : nat)                 (* the exit call reaches exit_current *)
  | Fault (c : nat)                (* a fault in ring 3: user_fault, exit_current *)
  | Enter (c : nat) (v : Z)        (* enter_user, on the stack v *)
  | Interrupt (c : nat)
  | Preempt (c t : nat)            (* a tick that switches to t *)
  | Yield (c t : nat).             (* schedule called by the kernel, for t *)

Section Protocol.
Context (block : nat → Z).

Definition update {A} (f : nat → A) (t : nat) (v : A) : nat → A := λ x, if Nat.eqb x t then v else f x.
Definition set_proc (s : Sys) (c : nat) (p : Proc) : Sys := mkSys (<[c := p]> (procs s)) (mode s) (sp s).
Definition idle (s : Sys) (t : nat) : bool := forallb (λ p, negb (Nat.eqb (p_thread p) t)) (procs s).
(** An access through GS. *)
Definition through_gs {A} (c : nat) (gs : Z) (k : A) : outcome A := if gs =? block c then Ret k else Panic.

(** [None]: the event cannot happen now.  Interrupts are masked between the
    halves of the stub; a thread that exits waits in [sti; hlt], still inside
    its call, and is interrupted there. *)
Definition act (s : Sys) (a : Act) : option (outcome Sys) :=
  match a with
  | LoadGs c => p ← procs s !! c; if mode s (p_thread p) is Ring3 then Some (Ret (set_proc s c (mkProc 0 (p_kgs p) (p_slot p) (p_thread p)))) else None
  | MoveStack c v => p ← procs s !! c; if mode s (p_thread p) is Ring3 then Some (Ret (mkSys (procs s) (mode s) (update (sp s) (p_thread p) v))) else None
  | Call c =>
      p ← procs s !! c;
      if mode s (p_thread p) is Ring3 then
        Some (through_gs c (p_kgs p)
          (mkSys (<[c := mkProc (p_kgs p) (p_gs p) (sp s (p_thread p)) (p_thread p)]> (procs s)) (update (mode s) (p_thread p) InCall) (sp s)))
      else None
  | Return c =>
      p ← procs s !! c;
      if mode s (p_thread p) is InCall then
        Some (through_gs c (p_gs p)
          (mkSys (<[c := mkProc (p_kgs p) (p_gs p) (p_slot p) (p_thread p)]> (procs s)) (update (mode s) (p_thread p) Ring3) (update (sp s) (p_thread p) (p_slot p))))
      else None
  | Exit c =>
      p ← procs s !! c;
      if mode s (p_thread p) is InCall then
        Some (through_gs c (p_gs p) (mkSys (procs s) (update (mode s) (p_thread p) Exiting) (sp s)))
      else None
  | Fault c =>
      p ← procs s !! c;
      if mode s (p_thread p) is Ring3 then
        Some (through_gs c (p_kgs p)
          (mkSys (<[c := mkProc (p_kgs p) (p_kgs p) (p_slot p) (p_thread p)]> (procs s)) (update (mode s) (p_thread p) Exiting) (sp s)))
      else None
  | Enter c v =>
      p ← procs s !! c;
      if mode s (p_thread p) is InKernel then
        Some (through_gs c (p_gs p) (mkSys (procs s) (update (mode s) (p_thread p) Ring3) (update (sp s) (p_thread p) v)))
      else None
  | Interrupt c =>
      p ← procs s !! c;
      if mode s (p_thread p) is InCall then None
      else Some (through_gs c (p_kgs p) (set_proc s c (mkProc (p_kgs p) (p_kgs p) (p_slot p) (p_thread p))))
  | Preempt c t =>
      p ← procs s !! c;
      if mode s (p_thread p) is InCall then None
      else if idle s t then Some (through_gs c (p_kgs p) (set_proc s c (mkProc (p_kgs p) (p_kgs p) (p_slot p) t))) else None
  | Yield c t =>
      p ← procs s !! c;
      if mode s (p_thread p) is Ring3 then None
      else if idle s t then Some (through_gs c (p_gs p) (set_proc s c (mkProc (p_gs p) (p_kgs p) (p_slot p) t))) else None
  end.

(** The events of a list, one after the other. *)
Fixpoint acts (s : Sys) (l : list Act) : option (outcome Sys) :=
  match l with
  | [] => Some (Ret s)
  | a :: l' => match act s a with Some (Ret s') => acts s' l' | r => r end
  end.
End Protocol.

(** ** [idt.rs]: whose fault it is *)

Inductive UserFault := InvalidOpcode | GeneralProtection | PageFault.
Definition is_ring_three (selector : Z) : bool := Z.land selector 3 =? 3.
(** What [deliver_user_fault] does: nothing, or GS first and then the policy. *)
Inductive Delivery := FallsThrough | NoPolicy | Killed (rip : Z) (what : UserFault).
Definition deliver_user_fault (c : Cpu) (frame_cs frame_rip : Z) (policy : bool) (what : UserFault) : Delivery * Cpu :=
  if negb (is_ring_three frame_cs) then (FallsThrough, c)
  else let c := restore_gs_base c in
       if policy then (Killed frame_rip what, c) else (NoPolicy, c).
