(* ===== verification/RingThms.v ===== *)
(** What the way between the rings promises, and where it breaks its word. *)
From S2P Require Import Prelude Bits Ring.
#[local] Open Scope Z_scope.

(** ** Straight-line code *)

Lemma store_at c a v : a mod 8 = 0 → store c a v = Some (with_ram c (λ x, if x =? a then v else ram c x) (a :: trace c)).
Proof. intros H. unfold store, aligned. by rewrite H. Qed.
Lemma load_at c a : a mod 8 = 0 → load c a = Some (ram c a, with_ram c (ram c) (a :: trace c)).
Proof. intros H. unfold load, aligned. by rewrite H. Qed.

Lemma wrap_small w z : 0 ≤ z < 2 ^ w → z mod 2 ^ w = z.
Proof. apply Z.mod_small. Qed.

Lemma push_at c v sp : regs c rsp = sp → sp mod 8 = 0 → 8 ≤ sp < 2 ^ 64 →
  push c v = Some (with_ram (set_reg c rsp (sp - 8)) (λ x, if x =? sp - 8 then v else ram c x) (sp - 8 :: trace c)).
Proof.
  intros <- Ha Hs. unfold push. assert (wrapping_sub 64 (regs c rsp) 8 = regs c rsp - 8) as -> by (apply wrap_small; lia).
  rewrite store_at by (Z.to_euclidean_division_equations; lia). done.
Qed.
Lemma pop_at c sp : regs c rsp = sp → sp mod 8 = 0 → 0 ≤ sp < 2 ^ 64 - 8 →
  pop c = Some (ram c sp, set_reg (with_ram c (ram c) (sp :: trace c)) rsp (sp + 8)).
Proof.
  intros <- Ha Hs. unfold pop. rewrite load_at by done. cbn [mbind option_bind]. do 3 f_equal. apply wrap_small; lia.
Qed.
Lemma to_gs_at c base off r : gs_base c = base → (base + off) mod 8 = 0 → 0 ≤ base + off < 2 ^ 64 →
  exec1 c (MovToGs off r) = Some (with_ram c (λ x, if x =? base + off then regs c r else ram c x) (base + off :: trace c)).
Proof. intros <- Ha Hs. cbn [exec1]. unfold wrapping_add. rewrite wrap_small by done. by apply store_at. Qed.
Lemma from_gs_at c base off r : gs_base c = base → (base + off) mod 8 = 0 → 0 ≤ base + off < 2 ^ 64 →
  exec1 c (MovFromGs r off) = Some (set_reg (with_ram c (ram c) (base + off :: trace c)) r (ram c (base + off))).
Proof. intros <- Ha Hs. cbn [exec1]. unfold wrapping_add. rewrite wrap_small by done. by rewrite load_at. Qed.

(** Execution instruction by instruction. *)
Lemma exec_cons c i l c' : exec1 c i = Some c' → exec c (i :: l) = exec c' l.
Proof. intros H. cbn [exec]. by rewrite H. Qed.
Lemma push_cons c r l sp : regs c rsp = sp → sp mod 8 = 0 → 8 ≤ sp < 2 ^ 64 →
  exec c (Push r :: l) = exec (with_ram (set_reg c rsp (sp - 8)) (λ x, if x =? sp - 8 then regs c r else ram c x) (sp - 8 :: trace c)) l.
Proof. intros. apply exec_cons. cbn [exec1]. by apply push_at. Qed.
Lemma pop_cons c r l sp : regs c rsp = sp → sp mod 8 = 0 → 0 ≤ sp < 2 ^ 64 - 8 →
  exec c (Pop r :: l) = exec (set_reg (set_reg (with_ram c (ram c) (sp :: trace c)) rsp (sp + 8)) r (ram c sp)) l.
Proof. intros. apply exec_cons. cbn [exec1]. by rewrite (pop_at c sp). Qed.

(** The state in normal form, and the next instruction. *)
Ltac norm := cbn [regs rip rflags cs ss cpl gs_base kernel_gs_base msrs ram trace with_regs set_reg with_ram with_gs with_flow jump
  Nat.eqb reg_no syscall mbind option_bind].
Ltac addr := unfold OFFSET_USER_RSP, OFFSET_KERNEL_RSP; first [lia | Z.to_euclidean_division_equations; lia].
Ltac plain := erewrite exec_cons by (cbn [exec1]; reflexivity); norm.
Ltac pushes sp := rewrite (push_cons _ _ _ sp) by (norm; first [reflexivity | assumption | addr]); norm.
Ltac pops sp := rewrite (pop_cons _ _ _ sp) by (norm; first [reflexivity | assumption | addr]); norm.
Ltac decide_words := repeat match goal with |- context [?a =? ?b] =>
  first [replace (a =? b) with true by (symmetry; apply Z.eqb_eq; lia) | replace (a =? b) with false by (symmetry; apply Z.eqb_neq; lia)] end.
Ltac same_words := intros; repeat match goal with |- context [if ?a =? ?b then _ else _] => destruct (Z.eqb_spec a b); subst end; try reflexivity; try lia; try congruence.

Section Stub.
Context (u : Cpu) (block ksp dispatch back : Z).

(** A processor in ring 3 whose [KERNEL_GS_BASE] is its block, the block
    telling where its kernel stack ends.  Nothing is asked of [GS_BASE]. *)
Record ready : Prop := {
  rd_gs : kernel_gs_base u = block;
  rd_block : block mod 8 = 0; rd_block_in : 0 ≤ block ≤ 2 ^ 64 - 64;
  rd_ksp : ram u block = ksp; rd_ksp_al : ksp mod 16 = 0; rd_ksp_in : 32 ≤ ksp < 2 ^ 64;
  rd_apart : block + 40 ≤ ksp - 24 ∨ ksp ≤ block }.

(** The state in which [dispatch] begins, its return address pushed. *)
Definition at_dispatch : Cpu :=
  mkCpu (λ x, match x with
              | rdi => regs u rax | rsi => regs u rdi | rdx => regs u rsi | rcx => regs u rdx | r8 => regs u r10 | r9 => regs u r8
              | r11 => rflags u | rsp => ksp - 24 | x => regs u x end)
    dispatch (Z.ldiff (rflags u) (fmask (msrs u)))
    (Z.shiftr (star (msrs u)) 32 mod 2 ^ 16) (Z.shiftr (star (msrs u)) 32 mod 2 ^ 16 + 8) 0
    block (gs_base u) (msrs u)
    (λ x, if x =? ksp - 24 then back else if x =? ksp - 16 then rflags u else if x =? ksp - 8 then rip u else if x =? block + 8 then regs u rsp else ram u x)
    (ksp - 24 :: ksp - 16 :: ksp - 8 :: block :: block + 8 :: trace u).

End Stub.

Definition same_state (a b : Cpu) : Prop :=
  (∀ r, regs a r = regs b r) ∧ rip a = rip b ∧ rflags a = rflags b ∧ cs a = cs b ∧ ss a = ss b ∧ cpl a = cpl b ∧
  gs_base a = gs_base b ∧ kernel_gs_base a = kernel_gs_base b ∧ msrs a = msrs b ∧ (∀ x, ram a x = ram b x) ∧ trace a = trace b.

Lemma front_runs u block ksp dispatch back : ready u block ksp →
  ∃ k, exec (syscall u) (entry_front dispatch back) = Some k ∧ same_state k (at_dispatch u block ksp dispatch back).
Proof.
  intros [Hg Hb Hbi Hk Hka Hki Hap]. unfold entry_front. plain.
  erewrite exec_cons by (apply (to_gs_at _ block); [exact Hg|addr|addr]). norm.
  erewrite exec_cons by (apply (from_gs_at _ block); [exact Hg|addr|addr]). norm.
  assert ((if block + OFFSET_KERNEL_RSP =? block + OFFSET_USER_RSP then regs u rsp else ram u (block + OFFSET_KERNEL_RSP)) = ksp) as ->.
  { unfold OFFSET_KERNEL_RSP, OFFSET_USER_RSP. destruct (Z.eqb_spec (block + 0) (block + 8)); [lia|]. by rewrite Z.add_0_r. }
  pushes ksp. pushes (ksp - 8). do 6 plain. replace (ksp - 8 - 8) with (ksp - 16) by lia.
  erewrite exec_cons by (cbn [exec1]; rewrite (push_at _ _ (ksp - 16)) by (norm; first [reflexivity|addr]); reflexivity). norm.
  eexists. split; [reflexivity|].
  unfold same_state, at_dispatch. norm. rewrite Hg. replace (ksp - 16 - 8) with (ksp - 24) by lia. rewrite Z.add_0_r.
  split_and!; try done. by intros [].
Qed.

(** The back half, from any state the handler may leave: it returns where the
    kernel stack says, on the stack the slot says. *)
Lemma back_runs k block ksp : cpl k = 0 → gs_base k = block → block mod 8 = 0 → 0 ≤ block ≤ 2 ^ 64 - 64 →
  regs k rsp = ksp - 16 → ksp mod 16 = 0 → 16 ≤ ksp < 2 ^ 64 → canonical (ram k (ksp - 8)) = true →
  ∃ v, exec k entry_back = Some v ∧
    (∀ r, regs v r = match r with
      | rcx => ram k (ksp - 8) | r11 => ram k (ksp - 16) | rsp => ram k (block + 8)
      | rdx | rsi | rdi | r8 | r9 | r10 => 0 | r => regs k r end) ∧
    rip v = ram k (ksp - 8) ∧ rflags v = Z.lor (Z.land (ram k (ksp - 16)) 0x3C7FD7) 2 ∧ cpl v = 3 ∧
    cs v = Z.lor (Z.shiftr (star (msrs k)) 48 + 16) 3 ∧ ss v = Z.lor (Z.shiftr (star (msrs k)) 48 + 8) 3 ∧
    gs_base v = kernel_gs_base k ∧ kernel_gs_base v = block ∧ msrs v = msrs k ∧ (∀ x, ram v x = ram k x) ∧
    trace v = block + 8 :: ksp - 8 :: ksp - 16 :: trace k.
Proof.
  intros Hc Hg Hb Hbi Hs Hka Hki Hip. unfold entry_back. pops (ksp - 16). pops (ksp - 8). do 6 plain.
  erewrite exec_cons by (apply (from_gs_at _ block); [exact Hg|addr|addr]). norm.
  erewrite exec_cons by (cbn [exec1]; norm; rewrite Hc; reflexivity). norm.
  erewrite exec_cons by (cbn [exec1]; norm; rewrite Hc, Hip; reflexivity). norm.
  eexists. split; [reflexivity|]. norm. split_and!; try done. by intros [].
Qed.

(** The registers a callee keeps, and those the stub clears. *)
Definition callee_saved (r : reg) : bool := match r with rbx | rbp | rsp | r12 | r13 | r14 | r15 => true | _ => false end.
Definition scrubbed (r : reg) : bool := match r with rdx | rsi | rdi | r8 | r9 | r10 => true | _ => false end.

(** What the handler leaves when nothing else runs on the processor between:
    it returns, with the registers of the callee, its stack, the slot, GS and
    the MSRs. *)
Record served (k k' : Cpu) (block ksp back : Z) : Prop := {
  sv_regs : ∀ r, callee_saved r = true → r ≠ rsp → regs k' r = regs k r;
  sv_return : rip k' = back ∧ regs k' rsp = regs k rsp + 8;
  sv_cpl : cpl k' = 0; sv_gs : gs_base k' = gs_base k; sv_kgs : kernel_gs_base k' = kernel_gs_base k; sv_msrs : msrs k' = msrs k;
  sv_frame : ram k' (ksp - 16) = ram k (ksp - 16) ∧ ram k' (ksp - 8) = ram k (ksp - 8);
  sv_slot : ram k' (block + 8) = ram k (block + 8) }.

(** What the handler is given and finds again: the frame of the stub and the
    parked stack pointer. *)
Lemma served_frame u block ksp dispatch back k k' : ready u block ksp → same_state k (at_dispatch u block ksp dispatch back) → served k k' block ksp back →
  ram k' (ksp - 8) = rip u ∧ ram k' (ksp - 16) = rflags u ∧ ram k' (block + 8) = regs u rsp ∧ regs k' rsp = ksp - 16 ∧
  gs_base k' = block ∧ kernel_gs_base k' = gs_base u.
Proof.
  intros [] (Hregs & _ & _ & _ & _ & _ & Hgs & Hkgs & _ & Hram & _) [Sr [_ Ssp] Sc Sg Sk Sm [Sf1 Sf2] Ss].
  rewrite Sf1, Sf2, Ss, !Hram, Ssp, Hregs, Sg, Sk, Hgs, Hkgs. unfold at_dispatch. norm. split_and!; same_words.
Qed.

(** C33: A system call is a function call for the process. A processor in
    ring 3, whatever its GS base, executes [syscall] and reaches [dispatch]
    in ring 0 with the number and the arguments where the C convention has
    them, its return address on a stack aligned as the convention asks, just
    below the kernel stack of the processor's block, and GS on the block.
    Whatever the handler does, if it returns and nothing else used the
    processor's slot, and the process's next instruction is at a canonical
    address, then the process goes on there in ring 3, with its stack, the
    registers the convention keeps and its GS base as they were, the answer
    in [rax], and zero in every register the handler may have left something
    in. The stub itself touches two words of the block and three of the
    kernel stack, and writes no memory on the way back. *)
Theorem syscall_is_a_call u block ksp dispatch back : ready u block ksp →
  ∃ k, exec (syscall u) (entry_front dispatch back) = Some k ∧
    regs k rdi = regs u rax ∧ regs k rsi = regs u rdi ∧ regs k rdx = regs u rsi ∧ regs k rcx = regs u rdx ∧ regs k r8 = regs u r10 ∧ regs k r9 = regs u r8 ∧
    cpl k = 0 ∧ gs_base k = block ∧ rip k = dispatch ∧ regs k rsp = ksp - 24 ∧ (regs k rsp + 8) mod 16 = 0 ∧ ram k (ksp - 24) = back ∧
    rflags k = Z.ldiff (rflags u) (fmask (msrs u)) ∧ trace k = [ksp - 24; ksp - 16; ksp - 8; block; block + 8] ++ trace u ∧
    (∀ x, x ∉ [ksp - 24; ksp - 16; ksp - 8; block + 8] → ram k x = ram u x) ∧
    ∀ k', served k k' block ksp back → canonical (rip u) = true →
      ∃ v, exec k' entry_back = Some v ∧ cpl v = 3 ∧ rip v = rip u ∧ rflags v = Z.lor (Z.land (rflags u) 0x3C7FD7) 2 ∧
        regs v rax = regs k' rax ∧ (∀ r, callee_saved r = true → regs v r = regs u r) ∧
        (∀ r, scrubbed r = true → regs v r = 0) ∧ regs v rcx = rip u ∧ regs v r11 = rflags u ∧
        gs_base v = gs_base u ∧ kernel_gs_base v = block ∧ (∀ x, ram v x = ram k' x) ∧
        trace v = [block + 8; ksp - 8; ksp - 16] ++ trace k'.
Proof.
  intros Hr. destruct (front_runs u block ksp dispatch back Hr) as (k & Ek & Hst). pose proof Hst as (Hregs & Hkip & Hfl & Hcs & Hss & Hcpl & Hgs & Hkgs & Hms & Hram & Htr).
  unfold at_dispatch in Hregs, Hkip, Hfl, Hcs, Hss, Hcpl, Hgs, Hkgs, Hms, Hram, Htr. cbn in Hregs, Hkip, Hfl, Hcs, Hss, Hcpl, Hgs, Hkgs, Hms, Hram, Htr.
  exists k. split; [done|]. rewrite !Hregs, Hcpl, Hgs, Hkip, Hfl. pose proof Hr as [Hg Hb Hbi Hk Hka Hki Hap].
  split_and!; try done; [Z.to_euclidean_division_equations; lia|by rewrite Hram, Z.eqb_refl|..].
  - intros x Hx. rewrite !not_elem_of_cons in Hx. rewrite Hram. same_words; destruct Hx as (? & ? & ? & ? & _); congruence.
  - intros k' Hsv Hip. destruct (served_frame _ _ _ _ _ _ _ Hr Hst Hsv) as (E8 & E16 & Es & Esp & Eg & Ekg).
    destruct Hsv as [Sr _ Sc Sg Sk Sm _ _].
    destruct (back_runs k' block ksp) as (v & Ev & Hv & Hvip & Hvf & Hvc & _ & _ & Hvg & Hvk & _ & Hvr & Hvt); try done; try lia; try congruence.
    exists v. split; [done|]. rewrite Hvip, Hvf, Hvc, Hvg, Hvk, E8, E16. split_and!; try done.
    + intros r Hin. rewrite Hv. destruct r; try done; by rewrite Sr, Hregs by done.
    + intros r Hin. rewrite Hv. by destruct r.
    + by rewrite Hv, E8.
    + by rewrite Hv, E16.
Qed.

(** The last bytes of user space.  A process may have code up to the first
    address that is not canonical: its [syscall] there is to return to that
    address, and what it does return to is the instruction [sysretq], in ring
    0, which faults: on the process's stack and with the process's GS base
    already in place. *)
Theorem syscall_at_the_top_faults_in_ring_zero u block ksp dispatch back : ready u block ksp → rip u = 2 ^ 47 →
  ∃ k, exec (syscall u) (entry_front dispatch back) = Some k ∧
    ∀ k', served k k' block ksp back →
      exec k' entry_back = None ∧
      ∃ c, exec k' (removelast entry_back) = Some c ∧ last entry_back = Some Sysretq ∧ exec1 c Sysretq = None ∧
        cpl c = 0 ∧ regs c rsp = regs u rsp ∧ gs_base c = gs_base u.
Proof.
  intros Hr Hip. destruct (front_runs u block ksp dispatch back Hr) as (k & Ek & Hst). exists k. split; [done|].
  intros k' Hsv. destruct (served_frame _ _ _ _ _ _ _ Hr Hst Hsv) as (E8 & E16 & Es & Esp & Eg & Ekg). destruct Hr as [Hg Hb Hbi Hk Hka Hki Hap].
  destruct Hsv as [_ _ Sc _ _ _ _ _].
  assert (∃ c, exec k' (removelast entry_back) = Some c ∧ regs c rcx = rip u ∧ cpl c = 0 ∧ regs c rsp = regs u rsp ∧ gs_base c = gs_base u) as (c & Ec & Hcx & Hc0 & Hcs & Hcg).
  { unfold entry_back. cbn [removelast]. pops (ksp - 16). pops (ksp - 8). do 6 plain.
    erewrite exec_cons by (apply (from_gs_at _ block); [exact Eg|addr|addr]). norm.
    erewrite exec_cons by (cbn [exec1]; norm; rewrite Sc; reflexivity). norm. eexists. split; [reflexivity|]. norm. unfold OFFSET_USER_RSP. by rewrite E8, Es, Ekg. }
  assert (exec1 c Sysretq = None) as Hno by (cbn [exec1]; by rewrite Hc0, Hcx, Hip).
  split; [|by exists c]. change entry_back with (removelast entry_back ++ [Sysretq]).
  assert (∀ l i (a b : Cpu), exec a l = Some b → exec1 b i = None → exec a (l ++ [i]) = None) as Happ.
  { clear. induction l as [|j l IH]; intros i a b; cbn [exec app]; [intros [= ->] H; by rewrite H|].
    destruct (exec1 a j); [|done]. apply IH. }
  by eapply Happ.
Qed.

(** ** The switch between threads *)

Section Switch.
Context (c : Cpu) (from to sp : Z).
Record switchable : Prop := {
  sw_from : regs c rdi = from; sw_to : regs c rsi = to; sw_sp : regs c rsp = sp;
  sw_al : from mod 8 = 0 ∧ to mod 8 = 0 ∧ sp mod 8 = 0;
  sw_in : 48 ≤ sp < 2 ^ 64 ∧ 0 ≤ to < 2 ^ 64 - 56;
  sw_frames : to + 56 ≤ sp - 48 ∨ sp ≤ to;
  sw_slot : (from + 8 ≤ sp - 48 ∨ sp ≤ from) ∧ (from + 8 ≤ to ∨ to + 56 ≤ from) }.
End Switch.

Lemma switch_runs c from to sp : switchable c from to sp →
  ∃ c', exec c switch = Some c' ∧
    (∀ r, regs c' r = match r with
      | r15 => ram c to | r14 => ram c (to + 8) | r13 => ram c (to + 16) | r12 => ram c (to + 24) | rbx => ram c (to + 32) | rbp => ram c (to + 40)
      | rsp => to + 56 | r => regs c r end) ∧
    rip c' = ram c (to + 48) ∧ cpl c' = cpl c ∧ gs_base c' = gs_base c ∧ kernel_gs_base c' = kernel_gs_base c ∧ msrs c' = msrs c ∧
    (∀ x, ram c' x = if x =? from then sp - 48 else if x =? sp - 48 then regs c r15 else if x =? sp - 40 then regs c r14
      else if x =? sp - 32 then regs c r13 else if x =? sp - 24 then regs c r12 else if x =? sp - 16 then regs c rbx
      else if x =? sp - 8 then regs c rbp else ram c x).
Proof.
  intros [Hf Ht Hs (Haf & Hat & Has) [Hi1 Hi2] Hfr [Hs1 Hs2]]. unfold switch.
  pushes sp. pushes (sp - 8). pushes (sp - 16). pushes (sp - 24). pushes (sp - 32). pushes (sp - 40).
  erewrite exec_cons by (cbn [exec1]; norm; rewrite store_at by (rewrite Hf; exact Haf); reflexivity). norm. plain.
  rewrite Hf, Ht. pops to. pops (to + 8). pops (to + 16). pops (to + 24). pops (to + 32). pops (to + 40).
  erewrite exec_cons by (cbn [exec1]; rewrite (pop_at _ (to + 48)) by (norm; first [reflexivity|addr]); reflexivity). norm.
  eexists. split; [reflexivity|]. norm. split_and!; try done.
  - intros []; norm; try reflexivity; try lia; same_words.
  - same_words.
  - intros x. replace (sp - 40 - 8) with (sp - 48) by lia. replace (sp - 32 - 8) with (sp - 40) by lia. replace (sp - 24 - 8) with (sp - 32) by lia.
    replace (sp - 16 - 8) with (sp - 24) by lia. by replace (sp - 8 - 8) with (sp - 16) by lia.
Qed.

(** A thread that is switched away comes back as it left.  Switching from
    one stack to another, and at any later time from a third back to the first
    with its frame untouched, returns behind the first call of [switch] with
    every register that the convention keeps and with the stack popped of the
    return address; GS, the ring and the MSRs are those of the processor that
    resumes it. *)
Theorem switched_thread_comes_back c from to sp c1 c2 from2 sp2 :
  switchable c from to sp → exec c switch = Some c1 →
  switchable c2 from2 (ram c1 from) sp2 → (∀ x, sp - 48 ≤ x < sp + 8 → ram c2 x = ram c1 x) → from + 8 ≤ sp - 48 ∨ sp + 8 ≤ from →
  ∃ c3, exec c2 switch = Some c3 ∧ (∀ r, callee_saved r = true → r ≠ rsp → regs c3 r = regs c r) ∧
    regs c3 rsp = sp + 8 ∧ rip c3 = ram c sp ∧ gs_base c3 = gs_base c2 ∧ kernel_gs_base c3 = kernel_gs_base c2 ∧ cpl c3 = cpl c2 ∧ msrs c3 = msrs c2.
Proof.
  intros H1 E1 H2 Hkept Hslot. destruct (switch_runs _ _ _ _ H1) as (c1' & E1' & _ & _ & _ & _ & _ & _ & Hram). rewrite E1 in E1'. injection E1' as <-.
  assert (ram c1 from = sp - 48) as Hto by (by rewrite Hram, Z.eqb_refl). rewrite Hto in H2.
  destruct (switch_runs _ _ _ _ H2) as (c3 & E3 & Hr & Hip & Hc & Hg & Hk & Hm & _). destruct H1.
  assert (∀ i v, 0 ≤ i < 56 → ram c1 (sp - 48 + i) = v → ram c2 (sp - 48 + i) = v) as Hk2 by (intros i v Hi <-; apply Hkept; lia).
  assert (∀ x, x ≠ from → ram c1 x = (if x =? sp - 48 then regs c r15 else if x =? sp - 40 then regs c r14
      else if x =? sp - 32 then regs c r13 else if x =? sp - 24 then regs c r12 else if x =? sp - 16 then regs c rbx
      else if x =? sp - 8 then regs c rbp else ram c x)) as Hw by (intros x Hx; rewrite Hram; by apply Z.eqb_neq in Hx as ->).
  exists c3. split; [done|]. split_and!; try done.
  - intros r Hs Hn. rewrite Hr. destruct r; try done;
    first [apply Hk2; [lia|] | rewrite <- (Z.add_0_r (sp - 48)); apply Hk2; [lia|]]; rewrite Hw by lia; same_words.
  - rewrite Hr. lia.
  - rewrite Hip. apply Hk2; [lia|]. rewrite Hw by lia. replace (sp - 48 + 48) with sp by lia. same_words.
Qed.

(** A fresh thread starts in its entry point.  [init_kernel_stack] accepts
    a stack that ends at a multiple of 16, and a [switch] to what it prepared
    arrives at the trampoline, which calls the entry with its argument in
    [rdi], a zero frame pointer to end a backtrace, and the stack aligned as
    the convention asks of a call. *)
Theorem fresh_thread_enters_its_entry c from sp stack_top entry arg trampoline_at back_to ctx m' :
  init_kernel_stack (ram c) stack_top entry arg trampoline_at = Ret (ctx, m') → stack_top < 2 ^ 64 →
  switchable (with_ram c m' (trace c)) from ctx sp →
  ctx + 56 = stack_top ∧ stack_top mod 16 = 0 ∧
  ∃ c1 c2, exec (with_ram c m' (trace c)) switch = Some c1 ∧ rip c1 = trampoline_at ∧ regs c1 rbp = 0 ∧ regs c1 rsp = stack_top ∧
    exec c1 (trampoline back_to) = Some c2 ∧ rip c2 = entry ∧ regs c2 rdi = arg ∧ regs c2 rsp = stack_top - 8 ∧ ram c2 (stack_top - 8) = back_to.
Proof.
  unfold init_kernel_stack, rust_assert, is_multiple_of, sub_chk, CONTEXT_BYTES.
  destruct (16 =? 0) eqn:E16; [done|]. destruct (stack_top mod 16 =? 0) eqn:Ea; [|done]. cbn [mbind outcome_bind].
  case_match eqn:Es; [|done]. intros [= <- <-] Htop Hsw. apply Z.eqb_eq in Ea.
  destruct (switch_runs _ _ _ _ Hsw) as (c1 & E1 & Hr & Hip & _ & _ & _ & _ & Hram).
  split; [lia|]. split; [done|]. cbn [ram with_ram] in *. set (x := mkContext _ _ _ _ _ _ _) in *.
  assert (∀ i, 0 ≤ i → write_context (ram c) (stack_top - 56) x (stack_top - 56 + i) =
    if i =? 0 then c_r15 x else if i =? 8 then c_r14 x else if i =? 16 then c_r13 x else if i =? 24 then c_r12 x else if i =? 32 then c_rbx x
    else if i =? 40 then c_rbp x else if i =? 48 then c_rip x else ram c (stack_top - 56 + i)) as Hw.
  { intros i Hi. unfold write_context. same_words. }
  assert (regs c1 r15 = entry) as H15 by (pose proof (Hw 0 ltac:(lia)) as H0; rewrite Z.add_0_r in H0; by rewrite Hr, H0).
  assert (regs c1 r14 = arg) as H14 by (rewrite Hr; by rewrite Hw by lia).
  assert (regs c1 rsp = stack_top) as Hsp by (rewrite Hr; lia). destruct Hsw as [_ _ _ _ [_ Hti] _ _].
  exists c1. unfold trampoline. eexists. split; [done|]. split_and!; try done.
  - rewrite Hip. by rewrite Hw by lia.
  - rewrite Hr. by rewrite Hw by lia.
  - plain. cbn [exec exec1]. norm. rewrite (push_at _ _ stack_top) by (norm; first [exact Hsp|Z.to_euclidean_division_equations; lia|lia]). norm. reflexivity.
  - norm. exact H15.
  - norm. exact H14.
  - norm. done.
  - norm. by rewrite Z.eqb_refl.
Qed.

(** ** Into ring 3 *)

Lemma ring_three_selector s : Z.land (Z.lor s 3) 3 = 3.
Proof. apply Z.bits_inj. intros n. rewrite Z.land_spec, Z.lor_spec. by destruct (Z.testbit s n), (Z.testbit 3 n). Qed.

(** A process starts with nothing of the kernel's.  From a kernel stack
    with room, [enter_user] goes to the entry point in ring 3 with interrupts
    on, the process's stack and user selectors; every other register is
    zero, and GS is not swapped. *)
Theorem enter_user_leaves_nothing c sel entry user_stack sp :
  regs c rsp = sp → sp mod 8 = 0 → 40 ≤ sp < 2 ^ 64 - 8 → canonical entry = true →
  ∃ v, enter_user c sel entry user_stack = Some v ∧ rip v = entry ∧ regs v rsp = user_stack ∧ (∀ r, r ≠ rsp → regs v r = 0) ∧
    cpl v = 3 ∧ rflags v = USER_RFLAGS ∧ Z.testbit (rflags v) 9 = true ∧ cs v = Z.lor (user_code sel) 3 ∧ ss v = Z.lor (user_data sel) 3 ∧
    gs_base v = gs_base c ∧ kernel_gs_base v = kernel_gs_base c.
Proof.
  intros Hsp Ha Hs Hc. unfold enter_user. rewrite (push_at _ _ sp) by (first [done|lia]). norm.
  do 4 (rewrite (push_at _ _ (_ - 8)) by (norm; first [reflexivity|addr]); norm).
  unfold clear_all. cbn [app]. do 15 plain. cbn [exec exec1].
  do 5 (erewrite pop_at by (norm; first [reflexivity|addr]); norm).
  decide_words. rewrite Hc. eexists. split; [reflexivity|]. norm. split_and!; try done; [by intros []|].
  apply ring_three_selector.
Qed.

Lemma enter_user_leaves_nothing_witness :
  let c := mkCpu (λ _, 4096) 0 0 8 16 0 64 64 (mkMsrs 0 0 0) (λ _, 0) [] in
  ∃ v, enter_user c (mkSelectors 8 16 35 27 40) 0x400000 0x7000 = Some v ∧ regs v rax = 0 ∧ cpl v = 3.
Proof.
  intros c. destruct (enter_user_leaves_nothing c (mkSelectors 8 16 35 27 40) 0x400000 0x7000 4096) as (v & E & _ & _ & Hz & Hcpl & _);
    [reflexivity|reflexivity|lia|reflexivity|]. exists v. split; [exact E|]. split; [by apply Hz|exact Hcpl].
Defined.

(** ** The selectors *)

(** What the crate documents of its table: slot 0 is the null descriptor, a
    segment takes one slot and its selector is the slot's offset with the
    privilege of the descriptor. *)
Definition dpl (d : Descriptor) : Z := match d with UserData | UserCode => 3 | _ => 0 end.
Class GdtLaws (T : Type) `{GdtOps T} := {
  slots : T → Z;
  slots_new : slots gdt_new = 1;
  append_selector : ∀ g d, fst (gdt_append g d) = 8 * slots g + dpl d;
  append_slots : ∀ g d, d ≠ Tss → slots (snd (gdt_append g d)) = slots g + 1 }.

(** Every ring gets its own segments.  With the table that
    [build_and_load] appends, the arithmetic of [syscall::init] does not
    underflow, and what [SYSCALL] loads from [IA32_STAR] is the kernel's code
    and stack selector, what [SYSRET] loads the user's, the same that
    [enter_user] starts a process with; the mask turns interrupts, the trap
    flag and the direction flag off on entry. *)
Theorem segments_of_the_rings T `{GdtLaws T} (c : Cpu) (entry : Z) :
  ∃ c', syscall_init c (build (T := T)) entry = Ret c' ∧ let sel := build (T := T) in
    lstar (msrs c') = entry ∧ cs (Ring.syscall c') = kernel_code sel ∧ ss (Ring.syscall c') = kernel_data sel ∧ cpl (Ring.syscall c') = 0 ∧
    Z.lor (Z.shiftr (star (msrs c')) 48 + 16) 3 = Z.lor (user_code sel) 3 ∧ Z.lor (Z.shiftr (star (msrs c')) 48 + 8) 3 = Z.lor (user_data sel) 3 ∧
    Z.land (Z.lor (user_code sel) 3) 3 = 3 ∧
    (∀ b, b ∈ [8; 9; 10] → Z.testbit (rflags (Ring.syscall c')) b = false).
Proof.
  pose proof (append_selector gdt_new KernelCode) as S1. pose proof (append_slots gdt_new KernelCode ltac:(done)) as L1.
  rewrite slots_new in S1, L1. unfold syscall_init, build.
  destruct (gdt_append gdt_new KernelCode) as [k g1]. cbn [fst snd dpl] in *.
  pose proof (append_selector g1 KernelData) as S2. pose proof (append_slots g1 KernelData ltac:(done)) as L2.
  destruct (gdt_append g1 KernelData) as [kd g2]. cbn [fst snd dpl] in *.
  pose proof (append_selector g2 UserData) as S3. pose proof (append_slots g2 UserData ltac:(done)) as L3.
  destruct (gdt_append g2 UserData) as [ud g3]. cbn [fst snd dpl] in *.
  pose proof (append_selector g3 UserCode) as S4. destruct (gdt_append g3 UserCode) as [uc g4]. cbn [fst snd dpl] in *.
  destruct (gdt_append g4 Tss) as [t g5].
  assert (k = 8) as -> by lia. assert (kd = 16) as -> by lia. assert (ud = 27) as -> by lia. assert (uc = 35) as -> by lia.
  unfold star_of. cbn [user_data kernel_code]. eexists. split; [reflexivity|]. norm. split_and!; try reflexivity.
  intros b Hb. cbn [fmask]. rewrite Z.ldiff_spec. assert (Z.testbit FMASK b = true) as ->; [|by rewrite andb_false_r].
  rewrite !elem_of_cons in Hb. destruct Hb as [->|[->|[->|[]%not_elem_of_nil]]]; reflexivity.
Qed.

(** A fault is the process's exactly when it was taken in ring 3: the code
    selector a process runs with is told from the kernel's, and GS is restored
    before the policy runs. *)
Theorem faults_are_told_apart T `{GdtLaws T} c rip_ what :
  (∃ c', deliver_user_fault c (Z.lor (user_code (build (T := T))) 3) rip_ true what = (Killed rip_ what, c') ∧ gs_base c' = kernel_gs_base c) ∧
  deliver_user_fault c (kernel_code (build (T := T))) rip_ true what = (FallsThrough, c).
Proof.
  unfold deliver_user_fault, is_ring_three. rewrite ring_three_selector. split; [by eexists|].
  pose proof (append_selector gdt_new KernelCode) as S1. rewrite slots_new in S1. unfold build. destruct (gdt_append gdt_new KernelCode) as [k g1].
  destruct (gdt_append g1 KernelData) as [? g2], (gdt_append g2 UserData) as [? g3], (gdt_append g3 UserCode) as [? g4], (gdt_append g4 Tss).
  cbn [fst dpl kernel_code] in *. by assert (k = 8) as -> by lia.
Qed.

(** A table that keeps the laws, the number of its slots, and the selectors of
    the kernel. *)
#[export] Instance count_ops : GdtOps Z := {| gdt_new := 1; gdt_append g d := (8 * g + dpl d, g + (if d is Tss then 2 else 1)) |}.
#[export] Instance count_laws : GdtLaws Z.
Proof. refine {| slots g := g |}; [done|by intros ? []|by intros ? []]. Defined.

(** ** GS and the stack of a process, over every order of events *)

Section Protocol.
Context (block : nat → Z).

(** The kernel copy of the base is what the comments take it for, except
    between the two halves of the stub, where GS has it; a thread is current
    on one processor at most. *)
Definition on_block (m : Mode) (c : nat) (p : Proc) : Prop :=
  match m with Ring3 => p_kgs p = block c | InCall | Exiting => p_gs p = block c | InKernel => p_gs p = block c ∧ p_kgs p = block c end.
Definition protocol (s : Sys) : Prop :=
  (∀ c p, procs s !! c = Some p → on_block (mode s (p_thread p)) c p) ∧
  (∀ c c' p p', procs s !! c = Some p → procs s !! c' = Some p' → p_thread p = p_thread p' → c = c').

(** A system call gives its processor away, or is interrupted on its way out,
    only while the kernel copy of the base is the kernel's. *)
Definition polite (s : Sys) (a : Act) : Prop :=
  match a with
  | Yield c _ => ∀ p, procs s !! c = Some p → p_kgs p = block c
  | Interrupt c | Preempt c _ => ∀ p, procs s !! c = Some p → mode s (p_thread p) = Exiting → p_kgs p = block c
  | _ => True
  end.

(** The current thread [t] of [c] changes, or its processor, and no other. *)
Lemma protocol_step s c p p' m f : protocol s → procs s !! c = Some p →
  (∀ t, t ≠ p_thread p' → m t = mode s t) →
  (p_thread p' = p_thread p ∨ idle s (p_thread p') = true) →
  on_block (m (p_thread p')) c p' → protocol (mkSys (<[c := p']> (procs s)) m f).
Proof.
  intros [Hb Hu] Hc Hm Ht Hn.
  assert (∀ d q, procs s !! d = Some q → p_thread q = p_thread p' → d = c) as Hone.
  { intros d q Hd E. destruct Ht as [Ht|Ht]; [eapply Hu; eauto; congruence|]. unfold idle in Ht. rewrite forallb_forall in Ht.
    apply list_elem_of_lookup_2, list_elem_of_In, Ht in Hd. rewrite E, Nat.eqb_refl in Hd. done. }
  split; cbn [procs].
  - intros d q [(<- & <- & _)|[Hne Hd]]%list_lookup_insert_Some; [done|]. cbn [mode].
    rewrite Hm; [by apply Hb|]. intros E. apply Hne. symmetry. by eapply Hone.
  - intros d d' q q' [(<- & <- & _)|[Hne Hd]]%list_lookup_insert_Some [(<- & <- & _)|[Hne' Hd']]%list_lookup_insert_Some E; try done.
    + symmetry. by eapply Hone.
    + by eapply Hone.
    + by eapply Hu.
Qed.

Lemma act_keeps_protocol s a r : protocol s → polite s a → act block s a = Some r → ∃ s', r = Ret s' ∧ protocol s'.
Proof.
  intros Hp Hq. pose proof Hp as [Hb Hu]. unfold act, through_gs.
  destruct a as [c|c v|c|c|c|c|c v|c|c t|c t]; destruct (procs s !! c) as [p|] eqn:Hc; cbn [mbind option_bind]; try done;
    specialize (Hb c p Hc); destruct (mode s (p_thread p)) eqn:Hm; try done; unfold on_block in Hb.
  all: try (destruct (idle s t) eqn:Hi; [|done]).
  all: try match type of Hb with _ ∧ _ => destruct Hb as [Hb Hb'] end. all: try (specialize (Hq p Hc)). all: try (specialize (Hq Hm)).
  all: rewrite ?Hb, ?Hb', ?Hq, ?Z.eqb_refl; intros [= <-]; eexists; (split; [reflexivity|]).
  all: try (apply (protocol_step s c p _ _ _ Hp Hc); cbn [p_thread];
    [intros x Hx; try reflexivity; unfold update; by apply Nat.eqb_neq in Hx as ->|by auto|]).
  all: rewrite ?Hm; unfold update; rewrite ?Nat.eqb_refl; cbn; try (split; congruence); try congruence.
  all: try (destruct (mode s t); cbn; (split; congruence) || congruence).
  all: try by destruct Hp.
  all: rewrite <- (list_insert_id (procs s) c p Hc); apply (protocol_step s c p _ _ _ Hp Hc); [|by auto|].
  all: first [intros x Hx; by apply Nat.eqb_neq in Hx as -> | by rewrite Nat.eqb_refl].
Qed.

(** C28: The kernel stays on its own block as long as system calls are
    polite. Processes may load GS whenever they run, fault and exit, and
    processors may be interrupted, preempt and move threads among each other
    in any order: as long as a system call that gives its processor away, or
    is interrupted while it waits to exit, does so with the kernel copy of
    the base in place, no access through GS goes anywhere but to the
    processor's own block, on any processor. *)
Theorem kernel_stays_on_its_block s l :
  protocol s → (∀ l1 a l2 s', l = l1 ++ a :: l2 → acts block s l1 = Some (Ret s') → polite s' a) →
  acts block s l ≠ Some Panic ∧ ∀ s', acts block s l = Some (Ret s') → protocol s'.
Proof.
  intros Hp. revert s Hp. induction l as [|a l IH]; intros s Hp Hq; cbn [acts].
  - split; [done|]. by intros s' [= <-].
  - destruct (act block s a) as [r|] eqn:Ea; [|done].
    destruct (act_keeps_protocol s a r Hp) as (s1 & -> & H1); [by apply (Hq [] a l s)|done|].
    apply IH; [done|]. intros l1 b l2 s' -> E. apply (Hq (a :: l1) b l2 s' eq_refl). cbn [acts]. by rewrite Ea.
Qed.

(** A process that never loads GS breaks nothing, whoever yields when. *)
Definition quiet (s : Sys) : Prop := protocol s ∧ ∀ c p, procs s !! c = Some p → p_gs p = block c ∧ p_kgs p = block c.
Lemma act_keeps_quiet s a s' : quiet s → (∀ c, a ≠ LoadGs c) → act block s a = Some (Ret s') → quiet s'.
Proof.
  intros [Hp Hq] Hn Ha. split.
  - destruct (act_keeps_protocol s a (Ret s') Hp) as (s2 & [= <-] & H2); [|done|done]. destruct a; try done; intros p Hc; [intros _|intros _|]; by apply Hq.
  - unfold act, through_gs in Ha. destruct a as [c|c v|c|c|c|c|c v|c|c t|c t]; [by destruct (Hn c)|..];
      destruct (procs s !! c) as [p|] eqn:Hc; cbn [mbind option_bind] in Ha; try done; destruct (Hq c p Hc) as [E1 E2];
      rewrite ?E1, ?E2, ?Z.eqb_refl in Ha; destruct (mode s (p_thread p)); try done; try (destruct (idle s t); [|done]);
      injection Ha as <-; cbn [procs set_proc]; intros d q Hd; try (by apply Hq);
      apply list_lookup_insert_Some in Hd as [(<- & <- & _)|[_ Hd]]; cbn; try (by apply Hq); by rewrite ?E1, ?E2.
Qed.
Corollary without_gs_loads_all_is_well s l : quiet s → (∀ c, LoadGs c ∉ l) → acts block s l ≠ Some Panic.
Proof.
  intros Hs. revert s Hs. induction l as [|a l IH]; intros s Hs Hn; cbn [acts]; [done|].
  destruct (act block s a) as [r|] eqn:Ea; [|done]. destruct (act_keeps_protocol s a r (proj1 Hs)) as (s1 & -> & _); [|done|].
  - destruct a; try done; intros p Hc; [intros _|intros _|]; by apply (proj2 Hs).
  - apply IH; [eapply act_keeps_quiet; eauto; intros c ->; apply (Hn c); by left|]. intros c Hc. apply (Hn c). by right.
Qed.

(** The slot of processor [c] serves thread [t]. *)
Definition parked (s : Sys) (c t : nat) (v : Z) : Prop :=
  protocol s ∧ mode s t = InCall ∧ sp s t = v ∧ ∃ p, procs s !! c = Some p ∧ p_thread p = t ∧ p_slot p = v.
Lemma act_keeps_parked s a s' c t v : parked s c t v → polite s a → (∀ t', a ≠ Yield c t') → a ≠ Return c → a ≠ Exit c → act block s a = Some (Ret s') → parked s' c t v.
Proof.
  intros (Hp & Hm & Hs & p & Hc & Ht & Hv) Hq Hy Hr Hx Ha.
  destruct (act_keeps_protocol s a (Ret s') Hp Hq Ha) as (s2 & [= <-] & Hp'). split; [done|]. clear Hp' Hq. destruct Hp as [_ Hu].
  unfold act, through_gs in Ha. destruct a as [d|d w|d|d|d|d|d w|d|d t'|d t'];
    destruct (procs s !! d) as [q|] eqn:Hd; cbn [mbind option_bind] in Ha; try done.
  all: assert (d ≠ c) as Hne by (intros ->; assert (q = p) as -> by congruence; rewrite Ht, Hm in Ha; congruence || by destruct (Hy t')).
  all: assert (t ≠ p_thread q) as Hnt by (intros E; apply Hne; eapply Hu; eauto; congruence).
  all: destruct (mode s (p_thread q)); try done; try (destruct (idle s t'); [|done]);
    try (destruct (_ =? block d); [|done]); injection Ha as <-; cbn [procs mode sp set_proc]; unfold update;
    apply Nat.eqb_neq in Hnt; rewrite ?Hnt; (split; [done|]); (split; [done|]); exists p;
    rewrite ?list_lookup_insert_ne by done; done.
Qed.

(** A system call that keeps its processor comes back on the stack it left.
    From the call to the return, other processors may do anything that is
    polite. *)
Theorem call_returns_on_its_own_stack s c p l s' :
  protocol s → procs s !! c = Some p → mode s (p_thread p) = Ring3 → p_kgs p = block c →
  (∀ l1 a l2 s1, l = l1 ++ a :: l2 → acts block s (Call c :: l1) = Some (Ret s1) → polite s1 a) →
  (∀ t, Yield c t ∉ l) → Return c ∉ l → Exit c ∉ l →
  acts block s (Call c :: l ++ [Return c]) = Some (Ret s') →
  sp s' (p_thread p) = sp s (p_thread p) ∧ mode s' (p_thread p) = Ring3.
Proof.
  intros Hp Hc Hm Hk Hq Hy Hr Hx. cbn [acts app]. destruct (act block s (Call c)) as [r|] eqn:Ea; [|done].
  destruct (act_keeps_protocol s (Call c) r Hp I Ea) as (s1 & -> & H1). intros E.
  assert (parked s1 c (p_thread p) (sp s (p_thread p))) as Hpk.
  { clear Hq E. unfold act, through_gs in Ea. rewrite Hc in Ea. cbn [mbind option_bind] in Ea. rewrite Hm, Hk, Z.eqb_refl in Ea. injection Ea as <-.
    split; [done|]. cbn. unfold update. rewrite Nat.eqb_refl. split_and!; try done. eexists. by rewrite list_lookup_insert_eq by (by eapply lookup_lt_Some). }
  assert (∀ l1 a l2 s2, l = l1 ++ a :: l2 → acts block s1 l1 = Some (Ret s2) → polite s2 a) as Hq1
    by (intros l1 a l2 s2 El E1; apply (Hq l1 a l2 s2 El); cbn [acts]; by rewrite Ea).
  clear Hq Ea H1 Hp Hc Hk Hm. revert s1 Hpk Hq1 E. generalize (sp s (p_thread p)). generalize (p_thread p). clear s p.
  induction l as [|a l IH]; intros t v s1 Hpk Hq E; cbn [acts app] in E.
  - destruct Hpk as (_ & Hm & _ & q & Hc & Ht & Hv). unfold act, through_gs in E. rewrite Hc in E. cbn [mbind option_bind] in E.
    rewrite Ht, Hm in E. destruct (_ =? block c); [|done]. injection E as <-. cbn. unfold update. by rewrite Nat.eqb_refl.
  - destruct (act block s1 a) as [r|] eqn:Ea; [|done]. assert (polite s1 a) as Hpol by (by apply (Hq [] a l s1)).
    destruct (act_keeps_protocol s1 a r (proj1 Hpk) Hpol Ea) as (s2 & -> & _).
    eapply (IH _ _ _ t v s2).
    + eapply act_keeps_parked; eauto; [intros t' ->|intros ->|intros ->]; [apply (Hy t')|apply Hr|apply Hx]; by left.
    + intros l1 b l2 s3 -> E3. apply (Hq (a :: l1) b l2 s3 eq_refl). cbn [acts]. by rewrite Ea.
    + exact E.
  Unshelve. { intros t' Hin. apply (Hy t'). by right. } { intros Hin. apply Hr. by right. } { intros Hin. apply Hx. by right. }
Qed.
End Protocol.

(** ** Two runs that go wrong

    One processor, two processes.  [kernel_stays_on_its_block] and
    [call_returns_on_its_own_stack] ask of a system call what [yield] and
    [exit] do not give. *)

Definition at_block (c : nat) : Z := 0x1000.
Definition two_processes : Sys := mkSys [mkProc 0x1000 0x1000 0 0] (λ _, Ring3) (λ t, if t is O then 0x7000 else 0x8000).

(** A process takes the GS base from the next one.  It clears GS and
    yields: the stub's [swapgs] has put the cleared base into the kernel copy,
    and the thread that runs next does so without its block.  Its first
    interrupt restores the base to zero, and its own next system call finds
    zero after [swapgs]: the kernel reads and writes at the address zero, in
    the address space of whoever runs.  It need not even yield: if it exits
    and has to wait for a parked thread, the tick that ends the halt restores
    the base to zero. *)
Theorem cleared_gs_survives_a_yield :
  acts at_block two_processes [LoadGs 0; Call 0; Exit 0; Interrupt 0] = Some Panic ∧
  acts at_block two_processes [LoadGs 0; Call 0; Yield 0 1; Interrupt 0] = Some Panic ∧
  acts at_block two_processes [LoadGs 0; Call 0; Yield 0 1; Call 0] = Some Panic.
Proof. by vm_compute. Qed.

(** Two processes that yield exchange their stacks.  Nobody touches GS: the
    first yields, the second yields, and the first comes back from its system
    call on the second's stack pointer. *)
Theorem yields_exchange_stacks :
  ∃ s, acts at_block two_processes [Call 0; Yield 0 1; Call 0; Yield 0 0; Return 0] = Some (Ret s) ∧
    mode s 0%nat = Ring3 ∧ sp s 0%nat = 0x8000 ∧ sp two_processes 0%nat = 0x7000.
Proof. eexists. by vm_compute. Qed.

(** The same instruction by instruction: the stub, [switch] to a fresh thread
    that enters ring 3 on a stack of its own, its stub, and [switch] back. *)
Definition call_switch (c : Cpu) (from to back_to : Z) : option Cpu :=
  c ← push (set_reg (set_reg c rdi from) rsi to) back_to; exec c switch.
Definition poke (c : Cpu) (a v : Z) : Cpu := with_ram c (λ x, if x =? a then v else ram c x) (trace c).
Definition first_process : Cpu :=
  mkCpu (λ r, match r with rsp => 0x7000 | rax => 2 | _ => 0 end) 0x400000 0x202 35 27 3 0x1000 0x1000
    (mkMsrs (Z.lor (Z.shiftl 19 48) (Z.shiftl 8 32)) 0x100000 FMASK) (λ x, if x =? 0x1000 then 0x3000 else 0) [].
Definition yields : option Cpu :=
  k ← exec (syscall first_process) (entry_front 0x180000 0x100040);
  match init_kernel_stack (ram k) 0x4000 0x200000 0 0x200100 with
  | Panic => None
  | Ret (fresh, m) =>
      c ← call_switch (poke (with_ram k m (trace k)) 0x1000 0x4000) 0x5000 fresh 0x300000;
      u ← enter_user c (mkSelectors 8 16 35 27 40) 0x500000 0x8000;
      k ← exec (syscall u) (entry_front 0x180000 0x100040);
      c ← call_switch (poke k 0x1000 0x3000) 0x5008 (ram k 0x5000) 0x300000;
      c ← exec c [RetNear];
      exec c entry_back
  end.
Example first_process_is_back_on_the_second_stack :
  match yields with Some v => (rip v, cpl v, regs v rsp) = (0x400000, 3, 0x8000) | None => False end.
Proof. by vm_compute. Qed.

(** ** The theorems at work *)

(** The state after a handler that answers 7 and returns. *)
Definition answered (k : Cpu) : Cpu :=
  jump (with_ram (set_reg (set_reg k rax 7) rsp (regs k rsp + 8)) (ram k) (0x9000 :: trace k)) 0x100040.
Lemma syscall_is_a_call_witness :
  ready first_process 0x1000 0x3000 ∧ ∃ k v, exec (syscall first_process) (entry_front 0x180000 0x100040) = Some k ∧ regs k rdi = 2 ∧ regs k rsp = 0x2FE8 ∧
    exec (answered k) entry_back = Some v ∧ rip v = 0x400000 ∧ regs v rax = 7 ∧ regs v rsp = 0x7000.
Proof.
  assert (ready first_process 0x1000 0x3000) as Hr by (split; first [reflexivity | lia]). split; [exact Hr|].
  destruct (syscall_is_a_call first_process 0x1000 0x3000 0x180000 0x100040 Hr) as (k & E & Hdi & _ & _ & _ & _ & _ & Hc & _ & _ & Hsp & _ & _ & _ & _ & _ & Hback).
  destruct (Hback (answered k)) as (v & Ev & _ & Hip & _ & Hax & Hkeep & _).
  - split; try reflexivity; [|split; reflexivity|exact Hc|split; reflexivity]. intros r Hs Hn. destruct r; try reflexivity; try discriminate Hs. by destruct Hn.
  - reflexivity.
  - exists k, v. split; [exact E|]. split; [exact Hdi|]. split; [exact Hsp|]. split; [exact Ev|]. split; [exact Hip|]. split; [exact Hax|].
    exact (Hkeep rsp eq_refl).
Defined.

Lemma two_processes_start : protocol at_block two_processes.
Proof.
  split; [intros [|[]] p; cbn; [by intros [= <-]|done..]|]. intros [|[]] [|[]] p p'; cbn; done.
Qed.

Lemma kernel_stays_on_its_block_witness :
  acts at_block two_processes [LoadGs 0; Call 0; Return 0; Interrupt 0; Preempt 0 1; Call 0; Yield 0 0; Fault 0; Interrupt 0] ≠ Some Panic.
Proof.
  refine (proj1 (kernel_stays_on_its_block at_block two_processes [LoadGs 0; Call 0; Return 0; Interrupt 0; Preempt 0 1; Call 0; Yield 0 0; Fault 0; Interrupt 0] two_processes_start _)).
  intros l1 a l2 s' El E.
  repeat (destruct l1 as [|? l1]; cbn in El; [injection El as <- <-|injection El as <- El]); [..|by destruct l1].
  all: first [exact I | intros p Hp; vm_compute in E; injection E as <-; cbn in Hp; injection Hp as <-; first [reflexivity | intros Hm; discriminate Hm]].
Defined.

Lemma call_returns_on_its_own_stack_witness :
  ∃ s', acts at_block two_processes [Call 0; Return 0] = Some (Ret s') ∧ sp s' 0%nat = 0x7000.
Proof.
  eexists. split; [vm_compute; reflexivity|].
  refine (proj1 (call_returns_on_its_own_stack at_block two_processes 0 (mkProc 0x1000 0x1000 0 0) [] _ two_processes_start _ _ _ _ _ _ _ _));
    try reflexivity; [by intros [|? ?] ? ? ? ?|intros t; apply not_elem_of_nil|apply not_elem_of_nil|apply not_elem_of_nil].
Defined.
