(* ===== verification/Serial.v ===== *)
(** The serial console: [crates/qunix-hal-x86_64/src/serial.rs].

    The port is a device with a state of its own, [inb] and [outb] what it
    does when it is read and written ([port.rs]); it may answer anything.  The
    console's lock is in [Locks]; here it is held or it is not. *)
From Stdlib Require Import Strings.Byte.
From S2P Require Import Prelude Bits Text.
#[global] Open Scope Z_scope.

Definition COM1 : Z := 0x3F8.
Definition TX_SPIN_BUDGET : Z := 100000.
Definition TX_FIFO_DEPTH_16550A : Z := 16.
Definition CR : byte := x0d.

Record Uart := mkUart { base : Z; fifo_free : Z; fifo_depth : Z; wedged : bool; dropped : Z }.
Definition new (base : Z) : Uart := mkUart base 0 1 false 0.
(** [saturating_add(1)] of a [u32]. *)
Definition count_drop (u : Uart) : Uart := mkUart (base u) (fifo_free u) (fifo_depth u) (wedged u) (Z.min (dropped u + 1) (2 ^ 32 - 1)).

Section Port.
Context {D : Type} (inb : D → Z → Z * D) (outb : D → Z → Z → D).

Definition init (u : Uart) (d : D) : Uart * D :=
  let d := outb d (base u + 1) 0x00 in
  let d := outb d (base u + 3) 0x80 in
  let d := outb d (base u) 0x03 in
  let d := outb d (base u + 1) 0x00 in
  let d := outb d (base u + 3) 0x03 in
  let d := outb d (base u + 2) 0xC7 in
  let d := outb d (base u + 4) 0x0B in
  let '(iir, d) := inb d (base u + 2) in
  (mkUart (base u) 0 (if Z.land iir 0xC0 =? 0xC0 then TX_FIFO_DEPTH_16550A else 1) false (dropped u), d).

(** [init] of the module: once. *)
Definition init_once (initialised : bool) (console : Uart) (d : D) : bool * Uart * D :=
  if initialised then (true, console, d) else let '(u, d) := init console d in (true, u, d).

(** The loop of [await_fifo], [fuel] polls at most: the budget is one less. *)
Fixpoint poll (fuel : nat) (u : Uart) (d : D) : bool * D :=
  match fuel with
  | O => (false, d)
  | S fuel' => let '(lsr, d) := inb d (base u + 5) in if Z.land lsr 0x20 =? 0 then poll fuel' u d else (true, d)
  end.
Definition await_fifo (u : Uart) (d : D) : bool * Uart * D :=
  let '(ready, d) := poll (Z.to_nat (TX_SPIN_BUDGET + 1)) u d in
  if ready then (true, mkUart (base u) (fifo_depth u) (fifo_depth u) (wedged u) (dropped u), d)
  else (false, mkUart (base u) (fifo_free u) (fifo_depth u) true (dropped u), d).

Definition write_byte (u : Uart) (d : D) (b : byte) : outcome (Uart * D) :=
  if wedged u then Ret (count_drop u, d) else
  let '(room, u, d) := if fifo_free u =? 0 then await_fifo u d else (true, u, d) in
  if negb room then Ret (count_drop u, d) else
  free ← sub_chk (fifo_free u) 1;
  Ret (mkUart (base u) free (fifo_depth u) (wedged u) (dropped u), outb d (base u) (b2z b)).

Fixpoint write_str (u : Uart) (d : D) (s : list byte) : outcome (Uart * D) :=
  match s with
  | [] => Ret (u, d)
  | b :: s' =>
      '(u, d) ← (if bool_decide (b = LF) then write_byte u d CR else Ret (u, d));
      '(u, d) ← write_byte u d b;
      write_str u d s'
  end.

(** [_print]: through the console when its lock is free, else through a fresh
    handle; [force_unlock]. *)
Definition print (console : Uart) (held : bool) (d : D) (s : list byte) : outcome (Uart * D) :=
  if held then '(_, d) ← write_str (new COM1) d s; Ret (console, d) else write_str console d s.
Definition force_unlock (console : Uart) : Uart := mkUart (base console) 0 (fifo_depth console) (wedged console) (dropped console).
End Port.

(** ** What holds of it *)

(** The bytes a text goes out as. *)
Definition crlf (s : list byte) : list byte := s ≫= λ b, if bool_decide (b = LF) then [CR; LF] else [b].

Definition wf (u : Uart) : Prop := 0 ≤ fifo_free u ≤ fifo_depth u ∧ 1 ≤ fifo_depth u ∧ 0 ≤ dropped u < 2 ^ 32.

Section Any.
Context {D : Type} (inb : D → Z → Z * D) (outb : D → Z → Z → D).

(** The bytes of a text, one by one. *)
Fixpoint write_bytes (u : Uart) (d : D) (s : list byte) : outcome (Uart * D) :=
  match s with [] => Ret (u, d) | b :: s' => '(u, d) ← write_byte inb outb u d b; write_bytes u d s' end.
Lemma write_bytes_app s : ∀ s' u d, write_bytes u d (s ++ s') = '(u, d) ← write_bytes u d s; write_bytes u d s'.
Proof. induction s as [|b s IH]; intros s' u d; [done|]. cbn. destruct (write_byte inb outb u d b) as [[u1 d1]|]; cbn; [apply IH|done]. Qed.
Lemma write_str_bytes s : ∀ u d, write_str inb outb u d s = write_bytes u d (crlf s).
Proof.
  induction s as [|b s IH]; intros u d; [done|]. unfold crlf. cbn [mbind list_bind write_str]. fold (crlf s). rewrite write_bytes_app.
  case_bool_decide as Hb; cbn [write_bytes].
  - subst b. destruct (write_byte inb outb u d CR) as [[u1 d1]|]; cbn; [|done].
    destruct (write_byte inb outb u1 d1 LF) as [[u2 d2]|]; cbn; [apply IH|done].
  - cbn [mbind outcome_bind]. destruct (write_byte inb outb u d b) as [[u1 d1]|]; cbn; [apply IH|done].
Qed.

(** A byte is written or counted, and the handle stays in order. *)
Lemma write_byte_returns u d b : wf u → ∃ u' d', write_byte inb outb u d b = Ret (u', d') ∧ wf u' ∧ base u' = base u ∧ fifo_depth u' = fifo_depth u ∧
  (wedged u = true → u' = count_drop u ∧ d' = d).
Proof.
  intros (Hf & Hd & Hc). unfold write_byte. destruct (wedged u) eqn:Hw.
  { eexists _, _. split; [done|]. unfold wf, count_drop; cbn. split_and!; try done; lia. }
  destruct (fifo_free u =? 0) eqn:E.
  - unfold await_fifo. destruct (poll inb _ u d) as [[] d1]; cbn [negb].
    + cbn [fifo_free base fifo_depth wedged dropped]. unfold sub_chk. case_match; [|lia]. eexists _, _. split; [done|]. unfold wf; cbn. split_and!; try done; lia.
    + eexists _, _. split; [done|]. unfold wf, count_drop; cbn. split_and!; try done; lia.
  - cbn [negb]. unfold sub_chk. case_match; [|lia]. eexists _, _. split; [done|]. unfold wf; cbn. split_and!; try done; lia.
Qed.
Lemma write_bytes_returns s : ∀ u d, wf u → ∃ u' d', write_bytes u d s = Ret (u', d') ∧ wf u' ∧ base u' = base u ∧ fifo_depth u' = fifo_depth u.
Proof.
  induction s as [|b s IH]; intros u d Hu; [eauto 10|]. cbn [write_bytes].
  destruct (write_byte_returns u d b Hu) as (u1 & d1 & -> & H1 & Hb & Hd & _). cbn.
  destruct (IH u1 d1 H1) as (u2 & d2 & -> & H2 & Hb2 & Hd2). eexists _, _. split; [done|]. split_and!; try done; congruence.
Qed.
End Any.

(** Whatever the port answers, printing returns: no underflow of the credit,
    no endless wait, and the console stays in order. *)
Theorem printing_returns {D} (inb : D → Z → Z * D) outb console held d s : wf console →
  ∃ console' d', print inb outb console held d s = Ret (console', d') ∧ wf console'.
Proof.
  intros Hc. unfold print. destruct held.
  - rewrite write_str_bytes. destruct (write_bytes_returns inb outb (crlf s) (new COM1) d) as (u & d' & -> & _); [unfold wf, new; cbn; lia|].
    cbn. eauto.
  - rewrite write_str_bytes. destruct (write_bytes_returns inb outb (crlf s) console d Hc) as (u & d' & -> & H & _). eauto.
Qed.

(** ** A port that counts *)

(** A dead port, with the number of times it was read and the bytes it was
    given. *)
Definition dead_inb (d : Z * list Z) (port : Z) : Z * (Z * list Z) := (0, (fst d + 1, snd d)).
Definition dead_outb (d : Z * list Z) (port v : Z) : Z * list Z := (fst d, snd d ++ [v]).

Lemma dead_poll fuel : ∀ u d, poll dead_inb fuel u d = (false, (fst d + Z.of_nat fuel, snd d)).
Proof.
  induction fuel as [|fuel IH]; intros u [n l]; cbn [poll]; [by rewrite Z.add_0_r|]. unfold dead_inb at 1. cbn [fst snd].
  rewrite IH. cbn [fst snd]. do 2 f_equal. lia.
Qed.
Lemma dead_wedged s : ∀ u d, wedged u = true → wf u → ∃ u', write_bytes dead_inb dead_outb u d s = Ret (u', d) ∧ wedged u' = true ∧
  dropped u' = Z.min (dropped u + Z.of_nat (length s)) (2 ^ 32 - 1).
Proof.
  induction s as [|b s IH]; intros u d Hw Hu; cbn [write_bytes length].
  - exists u. split; [done|]. split; [done|]. destruct Hu as (_ & _ & Hu). lia.
  - unfold write_byte. rewrite Hw. cbn [mbind outcome_bind]. destruct (IH (count_drop u) d) as (u' & -> & Hw' & Hd); [done|by destruct Hu as (? & ? & ?); repeat split; cbn; lia|].
    exists u'. split; [done|]. split; [done|]. rewrite Hd. cbn. lia.
Qed.

(** A dead port costs one budget and no more, however long the text: after
    [TX_SPIN_BUDGET + 1] polls it is not asked again, nothing is written to
    it, and every byte is counted. *)
Theorem dead_port_costs_one_budget u s n : wf u → wedged u = false → fifo_free u = 0 → s ≠ [] →
  ∃ u', write_str dead_inb dead_outb u (n, []) s = Ret (u', (n + TX_SPIN_BUDGET + 1, [])) ∧ wedged u' = true ∧
    dropped u' = Z.min (dropped u + Z.of_nat (length (crlf s))) (2 ^ 32 - 1).
Proof.
  intros Hu Hw Hf Hs. rewrite write_str_bytes. assert (crlf s ≠ []) as Hc by (destruct s as [|b s]; [done|]; unfold crlf; cbn; by case_bool_decide).
  destruct (crlf s) as [|b l]; [done|]. cbn [write_bytes length]. unfold write_byte, await_fifo. rewrite Hw, Hf, dead_poll. cbn [Z.eqb negb mbind outcome_bind fst snd].
  destruct Hu as (Hu1 & Hu2 & Hu3).
  set (v := count_drop _). destruct (dead_wedged l v (n + Z.of_nat (Z.to_nat (TX_SPIN_BUDGET + 1)), [])) as (u' & E & Hw' & Hd); [done|repeat split; cbn; lia|].
  exists u'. rewrite E. split; [do 3 f_equal; unfold TX_SPIN_BUDGET; lia|]. split; [done|]. rewrite Hd. cbn. lia.
Qed.

(** ** A port with a transmit buffer *)

(** A 16550: [room] places free of [depth], the bytes that went out and those
    that found no room.  It drains when it likes: before its [n]th reading
    [drains n] bytes have gone, and it reports an empty buffer when it is. *)
Record Chip := mkChip { room : Z; reads : nat; sent : list Z; lost : list Z }.
Section Chip.
Context (port depth : Z) (drains : nat → Z).
Definition chip_inb (d : Chip) (p : Z) : Z * Chip :=
  let r := Z.min depth (room d + Z.max 0 (drains (reads d))) in
  ((if (p =? port + 5) && (r =? depth) then 0x20 else 0), mkChip r (S (reads d)) (sent d) (lost d)).
Definition chip_outb (d : Chip) (p v : Z) : Chip :=
  if p =? port then if 0 <? room d then mkChip (room d - 1) (reads d) (sent d ++ [v]) (lost d) else mkChip 0 (reads d) (sent d) (lost d ++ [v]) else d.

Lemma chip_poll fuel : ∀ u d, base u = port → 0 ≤ room d ≤ depth → ∃ r n, poll chip_inb fuel u d = (r, mkChip n (snd (poll chip_inb fuel u d)).(reads) (sent d) (lost d)) ∧
  0 ≤ n ≤ depth ∧ (r = true → n = depth).
Proof.
  induction fuel as [|fuel IH]; intros u d Hb Hr; cbn [poll].
  - exists false, (room d). cbn. destruct d; cbn in *. split; [done|]. split; [lia|done].
  - unfold chip_inb at 1 3. rewrite Hb, Z.eqb_refl. cbn [andb]. destruct (_ =? depth) eqn:E; cbn [Z.land Z.eqb].
    + exists true. eexists. cbn. split; [reflexivity|]. split; [lia|]. intros _. by apply Z.eqb_eq in E.
    + destruct (IH u (mkChip (Z.min depth (room d + Z.max 0 (drains (reads d)))) (S (reads d)) (sent d) (lost d)) Hb) as (r & n & E1 & H1 & H2); [cbn; lia|].
      exists r, n. split; [|done]. cbn in E1. rewrite E1 at 1. done.
Qed.

(** The credit never exceeds the room. *)
Definition in_credit (u : Uart) (d : Chip) : Prop := wf u ∧ base u = port ∧ fifo_depth u ≤ depth ∧ 0 ≤ room d ≤ depth ∧ fifo_free u ≤ room d.

Lemma chip_byte u d b : in_credit u d → ∃ u' d', write_byte chip_inb chip_outb u d b = Ret (u', d') ∧ in_credit u' d' ∧ lost d' = lost d ∧
  ((sent d' = sent d ++ [b2z b] ∧ dropped u' = dropped u ∧ wedged u = false) ∨ (sent d' = sent d ∧ wedged u' = true ∧ dropped u' = Z.min (dropped u + 1) (2 ^ 32 - 1))).
Proof.
  intros ((Hf & Hd & Hc) & Hb & Hde & Hr & Hcr). unfold write_byte. destruct (wedged u) eqn:Hw.
  { eexists _, _. split; [done|]. unfold in_credit, wf, count_drop; cbn. split; [split_and!; try done; lia|]. split; [done|]. by right. }
  destruct (fifo_free u =? 0) eqn:E.
  - unfold await_fifo. destruct (chip_poll (Z.to_nat (TX_SPIN_BUDGET + 1)) u d Hb Hr) as (r & n & Ep & Hn & Ht). rewrite Ep.
    destruct r; cbn [negb].
    + rewrite (Ht eq_refl). cbn [fifo_free base fifo_depth wedged dropped]. unfold sub_chk. case_match; [|lia]. cbn [mbind outcome_bind].
      eexists _, _. split; [done|]. unfold in_credit, wf, chip_outb; cbn. rewrite Hb, Z.eqb_refl. destruct (Z.ltb_spec 0 depth); [|lia]. cbn.
      split; [split_and!; try done; lia|]. split; [done|]. by left.
    + eexists _, _. split; [done|]. unfold in_credit, wf, count_drop; cbn. split; [split_and!; try done; lia|]. split; [done|]. by right.
  - cbn [negb]. unfold sub_chk. case_match; [|lia]. cbn [mbind outcome_bind]. eexists _, _. split; [done|].
    unfold in_credit, wf, chip_outb; cbn. rewrite Hb, Z.eqb_refl. destruct (Z.ltb_spec 0 (room d)); [|lia]. cbn.
    split; [split_and!; try done; lia|]. split; [done|]. by left.
Qed.

(** No byte is lost on the way: with a buffer at least as deep as the handle
    believes, whatever is written goes out.  The port gets the text with its
    line ends as a prefix, in order, and the rest is counted as dropped. *)
Theorem no_byte_is_lost u d s : in_credit u d → wedged u = false → dropped u + Z.of_nat (length (crlf s)) < 2 ^ 32 →
  ∃ u' d' k, write_str chip_inb chip_outb u d s = Ret (u', d') ∧ in_credit u' d' ∧ lost d' = lost d ∧ (k <= length (crlf s))%nat ∧
    sent d' = sent d ++ map b2z (take k (crlf s)) ∧ dropped u' = dropped u + Z.of_nat (length (crlf s) - k) ∧ (wedged u' = false → k = length (crlf s)).
Proof.
  rewrite write_str_bytes. generalize (crlf s). clear s. intros s. revert u d.
  assert (∀ l u d, in_credit u d → wedged u = true → dropped u + Z.of_nat (length l) < 2 ^ 32 →
    ∃ u', write_bytes chip_inb chip_outb u d l = Ret (u', d) ∧ in_credit u' d ∧ wedged u' = true ∧ dropped u' = dropped u + Z.of_nat (length l)) as Hdead.
  { induction l as [|b l IH]; intros u d Hi Hw Hd; cbn [write_bytes length] in *; [eexists; split_and!; try done; lia|].
    unfold write_byte. rewrite Hw. cbn [mbind outcome_bind]. destruct (IH (count_drop u) d) as (u' & -> & Hi' & Hw' & E); [|done|cbn; lia|].
    - destruct Hi as ((? & ? & ?) & ? & ? & ? & ?). unfold in_credit, wf, count_drop; cbn. split_and!; try done; lia.
    - exists u'. split; [done|]. split; [done|]. split; [done|]. rewrite E. cbn. lia. }
  induction s as [|b s IH]; intros u d Hi Hw Hd; cbn [write_bytes length] in *.
  { exists u, d, 0%nat. split; [done|]. cbn. rewrite app_nil_r. split_and!; try done; lia. }
  destruct (chip_byte u d b Hi) as (u1 & d1 & -> & Hi1 & Hl1 & [(Hs1 & Hd1 & _)|(Hs1 & Hw1 & Hd1)]); cbn [mbind outcome_bind].
  - destruct (wedged u1) eqn:Hw1.
    + destruct (Hdead s u1 d1 Hi1 Hw1) as (u2 & -> & Hi2 & Hw2 & Hd2); [lia|]. exists u2, d1, 1%nat. split; [done|]. cbn [take map].
      split_and!; try done; try lia. by rewrite Hw2.
    + destruct (IH u1 d1 Hi1 Hw1) as (u2 & d2 & k & -> & Hi2 & Hl2 & Hk & Hs2 & Hd2 & Hk2); [lia|]. exists u2, d2, (S k). split; [done|].
      cbn [take map]. split_and!; try done; try lia; [congruence|rewrite Hs2, Hs1, <- app_assoc; done|]. intros E. by rewrite (Hk2 E).
  - destruct (Hdead s u1 d1 Hi1 Hw1) as (u2 & -> & Hi2 & Hw2 & Hd2); [lia|]. exists u2, d1, 0%nat. split; [done|]. cbn [take map].
    rewrite app_nil_r. split_and!; try done; try lia. by rewrite Hw2.
Qed.
End Chip.
